(* ===== verification/_CoqProject ===== *)
-Q . S2P
Prelude.v
KoCompare.v
KoMoves.v
KoArray.v
KoArrayFacts.v
KoTasks.v
KoStore.v
KoStoreFacts.v
KoWp.v
KoSheet.v
KoSheetInv.v
KoSheetRun.v
KoSheetSettle.v
KoSheetFacts.v
KoForeach.v
KoForeachScript.v
KoForeachNodes.v
KoForeachItems.v
KoForeachPlace.v
KoForeachWalk.v
KoForeachRun.v
KoForeachFacts.v
KoForeachPage.v
KoToJS.v
KoToJSFacts.v
KoBindings.v
KoBindingsFacts.v
JqCallbacks.v
JqDeferred.v
JqDeferredInv.v
JqDeferredStep.v
JqDeferredFacts.v
JqThen.v
JqThenFacts.v
JqResolve.v
JqFate.v
JsString.v
PopperDom.v
PopperPlacement.v
PopperOffset.v
Popper.v
PopperInstance.v
PopperGeometry.v
PopperFacts.v
PopperLife.v
JsRegex.v
KoParse.v
KoParseFacts.v
ValidatePage.v
ValidateRules.v
Validate.v
ValidateFacts.v
ValidateForm.v
ValidateRulesFacts.v
ValidateMethods.v
JsDate.v
AddNumbers.v
AddFormats.v
AddNumbersFacts.v
AddFormatsFacts.v
Unobtrusive.v
UnobtrusiveFacts.v
UnobtrusiveForm.v
UnobtrusiveAjax.v
UnobtrusiveAjaxFacts.v
AdminSite.v
AdminFacts.v
BsModal.v
BsModalFacts.v
Bootbox.v
BootboxShape.v
BootboxFacts.v
