(* ===== verification/Prelude.v ===== *)
(** * Verification of the browser-side code of IFramework

    IFramework is a C# framework whose repository carries three web sites: the
    administration site of its message queue (EQueue.AdminWeb), the site of the
    sample application (Sample.CommandService) and a Kafka tool.  This library
    models the JavaScript those sites run: the controllers written for them and
    the libraries they are built on, which are kept as readable source in the
    repository and run on every page.

    ** The parts, and how they interact

    - KNOCKOUT (src/Src/Sample/Sample.CommandService/Scripts/
      knockout-3.4.2.debug.js).  Observables and computed observables notify
      their subscribers; reading one inside a computed registers a dependency
      through the dependency detection stack; observable arrays report their
      changes as edit scripts, computed by compareArrays or kept from the
      operation; tasks are queued and run in groups.
        KoCompare.v     compareArrays, compareSmallArrayToBigArray,
                        findMovesInArrayComparison, and their theorems
        KoMoves.v       the script between an array and a permutation of it
        KoArray.v       the array functions and the extender trackArrayChanges
        KoArrayFacts.v  the changes an array reports (uses KoCompare.v's
                        contract [describes])
        KoTasks.v       ko.tasks, and its theorems
        KoStore.v       subscribable, subscription, dependencyDetection,
                        observable, computed, over a store of shared objects
        KoStoreFacts.v  what every call keeps
        KoWp.v          a calculus of total correctness for KoStore.v
        KoSheet.v       the specification of a page of observables: a sheet of
                        inputs and formulas, and what a script does to it
        KoSheetInv.v    the structure of a store behind a sheet
        KoSheetRun.v    evaluation: what is read becomes what is subscribed to
        KoSheetSettle.v notification: nothing is out of date when it returns
        KoSheetFacts.v  the refinement: a store of knockout's implements a sheet
        KoForeach.v     setDomNodeChildrenFromArrayMapping: the children of an
                        element follow an array (uses KoCompare.v's edit scripts)
        KoForeachScript.v  the edit script as a walk through both arrays
        KoForeachNodes.v   siblings, insertion, the run of an item's nodes
        KoForeachItems.v   the invariant, and what one item's operations keep of it
        KoForeachPlace.v   the loop that makes new nodes and puts all in place
        KoForeachWalk.v, KoForeachRun.v   the loop over the edit script
        KoForeachFacts.v   a whole call
        KoForeachPage.v    histories of a page; the theorems
        KoToJS.v, KoToJSFacts.v  ko.toJS: plain copies of graphs of objects
        KoParse.v          parseObjectLiteral: the text of an attribute data-bind
        KoParseFacts.v     the parser as one pass of a lexer; what it reads
        KoBindings.v       topologicalSortBindings, applyBindingsToNodeInternal
        KoBindingsFacts.v  the order of a node's bindings, the calls of handlers
    - POPPER (src/Src/iFramework.Plugins/EQueue.AdminWeb/Scripts/popper.js)
      places tooltips and menus.  The instance measures the document, computes
      a placement, and runs a pipeline of modifiers over a shared data object;
      the modifier flip runs the pipeline again.
        PopperDom.v        the measuring helpers, over an abstract browser [Dom]
        PopperPlacement.v  placement strings, automatic placement, offsets
        PopperOffset.v     the parser of the offset option
        Popper.v           every modifier and the pipeline
        PopperInstance.v   debounced update, listeners, destruction, constructor
        PopperGeometry.v   the arithmetic facts
        PopperFacts.v      theorems about the modifiers
        PopperLife.v       theorems about histories of an instance
    - JQUERY.VALIDATE (src/Src/Sample/Sample.CommandService/Scripts/
      jquery.validate.js).  An element's rules are collected from four sources,
      its methods applied in order, errors shown on the page; remote rules ask
      the server, and the form's submission waits for the answers.
        ValidatePage.v        the form, elementValue, the built-in methods
        ValidateRules.v       the four sources of rules and their normalization
        Validate.v            the validator: check, form, element, messages,
                              remote requests, submission, event handlers
        ValidateFacts.v       the invariants of the validator's operations
        ValidateForm.v        theorems about reachable states
        ValidateRulesFacts.v  theorems about rules and the elements checked
        ValidateMethods.v     theorems about the values the methods accept
    - ADDITIONAL METHODS (src/Src/iFramework.Plugins/IFramework.KafkaTools/
      wwwroot/lib/jquery-validation/dist/additional-methods.js): further
      methods of the validator, functions of a field's value.
        AddNumbers.v       check digits: cards, accounts, tax and vehicle numbers
        AddFormats.v       formats: words, dates, phones, postcodes, addresses
        AddNumbersFacts.v  what the check digits catch
        AddFormatsFacts.v  the languages of the formats
    - UNOBTRUSIVE VALIDATION (src/Src/Sample/Sample.CommandService/Scripts/
      jquery.validate.unobtrusive.js): the rules a server writes into attributes
      become the settings of the form's validator.
        Unobtrusive.v       adapters, parsing, attachment, added methods
        UnobtrusiveFacts.v  selectors, names, parsing against the declarations
        UnobtrusiveForm.v   from the attribute to the value that is accepted
    - UNOBTRUSIVE AJAX (src/Src/Sample/Sample.CommandService/Scripts/
      jquery.unobtrusive-ajax.js, and serializeArray of jquery-3.3.1.js): links
      and forms that send requests; a form goes through its validator first.
        UnobtrusiveAjax.v       handlers, options, callbacks (uses Validate.v)
        UnobtrusiveAjaxFacts.v  histories of a form; the theorems
    - JQUERY'S DEFERREDS (src/Src/Sample/Sample.CommandService/Scripts/
      jquery-3.3.1.js): lists of callbacks, and the deferred objects built on
      them, which every request of the pages goes through.
        JqCallbacks.v      jQuery.Callbacks: one list, and removing while it fires
        JqDeferred.v       jQuery.Deferred, then, catch and pipe, as a machine of
                           single steps over lists, chains and timeouts
        JqDeferredInv.v    the states of a list and of a deferred; the invariant
        JqDeferredStep.v   every step keeps it
        JqDeferredFacts.v  settling and the order of callbacks; theorems
        JqThen.v           the invariant of the calls of then
        JqThenFacts.v      then calls one handler, once
        JqResolve.v        what settles a deferred, and that it stays so
        JqFate.v           what a handler's answer does to the deferred of then
    - ADMINISTRATION SITE (src/Src/iFramework.Plugins/EQueue.AdminWeb/Content/
      js/site.js and controllers/*.js): five AngularJS controllers that submit
      forms and show what the server answers.
        AdminSite.v   the controllers, instances of one class [Controller]
        AdminFacts.v  their theorems
    - BOOTBOX (src/Src/iFramework.Plugins/EQueue.AdminWeb/Content/bootbox/
      bootbox.js, over the modal of Content/bootstrap/js/bootstrap.js and the
      extend and each of jquery-1.10.2.js): the messages and questions that
      site.js shows on the administration site.
        BsModal.v        the modal: show, hide, backdrop, transitions
        BsModalFacts.v   the machine of stages it follows when shown once
        Bootbox.v        arguments, dialogs, handlers, and site.js's functions
        BootboxShape.v   what a call makes of its arguments; the errors
        BootboxFacts.v   histories of a page; the theorems
    - LANGUAGE: JsString.v (strings, trim, Number of a string), JsRegex.v
      (regular expressions as syntax trees, an executable matcher and the
      proof that it decides their denotation), JsDate.v (Date.UTC and the
      getters, which invert each other on the calendar), and this file (tactics, the
      scope [js_scope], the hint database [js], list lemmas).

    ** How the code is rendered

    A JavaScript object that is shared and mutated is an entry of a store: the
    edit script of compareArrays (a list of entries, the other lists hold
    positions), the observables, subscriptions and tracking records of
    KoStore.v, the elements of a form (a list, named by index), the records of
    remote requests.  A function that reads and writes state is a function from
    state to state; one that can throw returns an option or a sum, and what it
    changed before throwing stays changed.  Code the page passes in is either an
    argument (predicates, page functions, what the server answers) or, where it
    may call the library back, a program over the library's operations
    (KoStore.prog, KoTasks.body, JqDeferred.prog).  In the last case a page may
    be called in the middle of an operation, so jQuery's deferreds are a machine
    of single steps with a stack of frames: a state in the middle of a call, and
    the frames an exception unwinds, are part of the model, and a theorem holds
    for whatever the page does there.  Pixel coordinates are rationals, an
    optional one where the code can compute NaN; counters are natural numbers
    or Z; comparisons of values follow the operator the source uses.

    ** What the theorems show

    - Array differences: the script is right, it spells both arrays, and it is
      minimal within the band the code explores; what a tracked array reports
      turns its old contents into the new ones whichever operation ran.
    - Observables: every call restores dependency detection and evaluation
      flags, also when it throws; disposed subscriptions are silent; versions
      and ids; the outcome of a write.
    - Observables as a sheet: for scripts whose formulas and callbacks only
      read, a page of observables and computeds is a spreadsheet: every script
      ends, what the script itself reads and the store it leaves give each formula
      its value over the present inputs, and computeds are subscribed to exactly
      what they read.  Callbacks run in the middle of a write and may read the
      value from before (callback_reads_old_value).
    - Arrays and nodes: a page may change the array, the observables its mapping
      reads, and the nodes that belong to no item, and remove any node; then a
      call always returns, the children are the nodes of the array's items in
      order and then the other nodes, what stays is not mapped again if no mapping
      reads its index, what goes is disposed, a reordered array only moves nodes;
      without changes of the page's own, and with a mapping that always makes a
      node, the children are exactly the mapping of the array.  The page may not
      reorder the nodes of items, which the code does not support either (a
      reversed item makes fixUpContinuousNodeArray run past the last sibling).
      Callbacks only observe, a mapping makes new nodes at each call, and what it
      depends on is fixed for each value.
    - View models and bindings: toJS copies what the root leads to, observables
      at most ten deep replaced by their values, sharing and cycles kept; the text
      of bindings is read as it was written, divisions and regular expressions
      told apart, as long as the text of a division does not occur before it; the
      bindings of a node are put in an order that serves every handler or a cycle
      is reported; what is called for them.
    - Tasks: they run in the order of scheduling, and which are left out; the
      effect of a cancellation, and the end of processing.
    - Popper: what each modifier guarantees about the rectangles, and under which
      options; when flip flips, that the recursion stops, that destruction
      releases what was acquired, the order of callbacks, that updates are
      debounced.
    - Validation: of a form submitted as validated the elements that elements()
      selects pass every rule, remote ones by an answer for the very data sent;
      what form() reports of them; the count of pending requests; what a failed
      request and a valid answer lead to; the elements a form check covers; the
      order of rules; the language of the regular expressions.  Elements that
      share a name are radio buttons or checkboxes in these theorems.
    - Additional methods: the errors in a number that its check digit catches,
      the remainder an IBAN is checked by, the dates, addresses and masks a
      format stands for, the values on which a method throws.
    - Unobtrusive: parsing yields what the attributes declare, with parameters of
      the shape the adapters give; a text field that passes its rules meets the
      constraints declared last for each method, but for a minimum or a maximum
      alone, which the validator compares as texts; names escape into selectors
      without loss.
    - Unobtrusive Ajax: of a form only fields are sent that the validator let
      through, and that it has accepted a second time when the handler asks it,
      unless a button with the class cancel was clicked; what is sent was
      confirmed and carries the declared method; a loading element is hidden as
      often as it was shown.
    - Deferreds: whatever callbacks and handlers do, also when they throw or call
      the methods of the same objects, a deferred is settled once; its callbacks
      run in order, once, with one context and one list of arguments; then calls
      one handler, once, and what that returns or throws settles the deferred it
      returned, unless it is another object with a method then; an exception of a
      callback ends its list for good.
    - Dialogs: a dialog of confirm tells the page what the user decided and
      nothing else, but for a function given in the place of a button's options,
      which is called instead; showConfirm runs its function for its button only;
      an answered dialog that is not shown again leaves the page with its
      backdrop; which error a call throws; a select shows each of its options once.
    - Site: no page sends an incomplete request; which answer is edited.

    ** Bounds and fuel

    - KoStore.exec bounds the depth of calls; exec_depth_irrelevant shows the
      bound only decides whether there is a result, never which.  Client code
      may recurse for ever, so there is no bound that fits every page.  For the
      scripts of a sheet script_refines_sheet shows that some depth is enough
      and every larger one gives the same; KoWp.wp carries that depth along.
    - KoTasks.process_loop takes a bound on its rounds; processTasks_ends shows
      that the code's own limit of 5000 groups makes some bound enough, and
      every larger one equivalent, for tasks that do not call runEarly.
    - KoCompare's walks decrease their indices; the fuel is their sum and the
      correctness theorem has no hypothesis about it.
    - KoToJS.mapJsObjectGraph nests at most as deep as there are objects, and
      KoBindings.pushBinding as there are bindings, each with one call more:
      toJS_copies and bindings_sorted show that this is always enough.
    - KoParse.parse starts again at most once per character of the text,
      parseObjectLiteral_lexes.
    - KoArray.remove_loop runs as many times as the array has items, which
      remove_partitions shows is enough.
    - PopperDom's climbs through the tree take a fuel; enableEventListeners_ends
      shows the height of the document is enough.  The recursion of modifiers
      through flip is at most one deep, run_modifier_bound.
    - JsRegex.ends repeats [RStar] at most as often as the text has characters;
      a round that consumes nothing changes nothing (ends_spec).

    ** What is not modelled

    The binding handlers, the walk over the markup and the functions made from the
    text of bindings, templates and components of knockout, rate limiting and
    deferred updates; the selector engine, the event system and the Ajax
    transport of jQuery, which jquery.validate calls (their documented results
    are fields of ValidatePage.environment or events of a history); custom
    modifiers of popper and the timing of its requestAnimationFrame; the C#
    framework.  Of additional-methods the methods that build an expression from
    the page's parameter (accept, currency, extension, pattern), ipv6, url2,
    notEqualTo, strippedminlength and the two methods on groups of fields; of
    jquery.validate.unobtrusive the placing of messages; of bootstrap everything
    but the modal, and of that the focus, remote contents and the data API; of jQuery everything but
    callback lists, deferreds (jQuery.when, promise( obj ) and exceptionHook are
    left out), serializeArray, extend and each.  The other vendored files (jQuery UI,
    the rest of bootstrap, modernizr, respond, AngularJS) are parameters at most. *)
From stdpp Require Import base gmap strings list fin_maps.
From Stdlib Require Import ZArith Lia.

(** ** Notations and hints *)

Declare Scope js_scope.
Delimit Scope js_scope with js.

(** [indexOf(x) >= 0] and its negation, as booleans. *)
Notation "x ∈? l" := (bool_decide (x ∈ l)) (at level 70, no associativity) : js_scope.
Notation "x ∉? l" := (negb (bool_decide (x ∈ l))) (at level 70, no associativity) : js_scope.

(** The lemmas that close the common side conditions of the components. *)
Create HintDb js discriminated.

(** ** Tactics shared by the components *)

(** Destruct the scrutinee of some [match] or [if] of the goal, or of a
    hypothesis, keeping the equation. *)
Ltac break_goal :=
  match goal with
  | |- context [match ?x with _ => _ end] =>
      lazymatch x with
      | context [match _ with _ => _ end] => fail
      | _ => destruct x eqn:?
      end
  end.

Ltac break_hyp :=
  match goal with
  | H : context [match ?x with _ => _ end] |- _ =>
      lazymatch x with
      | context [match _ with _ => _ end] => fail
      | _ => destruct x eqn:?
      end
  end.

Ltac break_all := repeat (break_hyp; simplify_eq); repeat (break_goal; simplify_eq).

(** Evaluate the closed tests of a goal. *)
Ltac eval_tests :=
  repeat match goal with
  | |- context [bool_decide ?P] =>
      let b := eval vm_compute in (bool_decide P) in
      lazymatch b with true => idtac | false => idtac end;
      change (bool_decide P) with b
  end; cbn -[Z.add Z.mul Z.sub].

(** ** Generic lemmas on lists *)

Section lists.
Context {A : Type}.
Implicit Types (l k : list A).

(** The list without the positions that satisfy [P], positions counted
    from [i]. *)
Fixpoint drop_positions (P : nat → bool) (i : nat) (l : list A) : list A :=
  match l with
  | [] => []
  | x :: l' =>
      if P i then drop_positions P (S i) l'
      else x :: drop_positions P (S i) l'
  end.

Lemma drop_positions_app P i l k :
  drop_positions P i (l ++ k) =
    drop_positions P i l ++ drop_positions P (i + length l) k.
Proof.
  revert i. induction l as [|x l IH]; intros i; simpl.
  - by rewrite Nat.add_0_r.
  - rewrite IH. replace (S i + length l) with (i + S (length l)) by lia.
    by destruct (P i).
Qed.

Lemma drop_positions_ext P Q i l :
  (∀ j, i ≤ j < i + length l → P j = Q j) →
  drop_positions P i l = drop_positions Q i l.
Proof.
  revert i. induction l as [|x l IH]; intros i H; simpl in *; [done|].
  rewrite (H i) by lia. rewrite (IH (S i)); [done|].
  intros j Hj. apply H. lia.
Qed.

Lemma drop_positions_none P i l :
  (∀ j, i ≤ j < i + length l → P j = false) → drop_positions P i l = l.
Proof.
  revert i. induction l as [|x l IH]; intros i H; simpl in *; [done|].
  rewrite (H i) by lia. rewrite (IH (S i)); [done|].
  intros j Hj. apply H. lia.
Qed.

Lemma drop_positions_all P i l :
  (∀ j, i ≤ j < i + length l → P j = true) → drop_positions P i l = [].
Proof.
  revert i. induction l as [|x l IH]; intros i H; simpl in *; [done|].
  rewrite (H i) by lia. apply IH. intros j Hj. apply H. lia.
Qed.

Lemma take_S_lookup l i x :
  l !! i = Some x → take (S i) l = take i l ++ [x].
Proof. intros H. by apply take_S_r. Qed.

Lemma last_take_lookup l i :
  0 < i → i ≤ length l → ∃ x, l !! (i - 1) = Some x ∧
    take i l = take (i - 1) l ++ [x].
Proof.
  intros H0 Hi. destruct (lookup_lt_is_Some_2 l (i - 1)) as [x Hx]; [lia|].
  exists x. split; [done|].
  replace i with (S (i - 1)) at 1 by lia. by apply take_S_lookup.
Qed.
End lists.

(** The list functions of the source that keep or drop items by a predicate. *)
Section filters.
Context {A : Type}.
Implicit Types (l : list A) (P : A → bool).

Lemma elem_of_List_filter P l x : x ∈ List.filter P l ↔ x ∈ l ∧ P x = true.
Proof. rewrite !list_elem_of_In. apply List.filter_In. Qed.

Lemma NoDup_List_filter P l : NoDup l → NoDup (List.filter P l).
Proof.
  induction 1 as [|x l Hx _ IH]; simpl; [constructor|]. destruct (P x); [|done].
  constructor; [|done]. intros [? _]%elem_of_List_filter. done.
Qed.

(** Dropping the one occurrence of an item. *)
Lemma filter_neq_length `{!EqDecision A} (n : A) l :
  NoDup l → n ∈ l →
  length (List.filter (λ m, negb (bool_decide (m = n))) l) = length l - 1.
Proof.
  induction 1 as [|m l Hm Hl IH]; intros Hin; [by apply elem_of_nil in Hin|]. simpl.
  apply elem_of_cons in Hin. case_bool_decide as Heq; simpl.
  - subst m. rewrite Nat.sub_0_r. clear IH Hin Hl.
    induction l as [|x l IH]; simpl; [done|]. apply not_elem_of_cons in Hm as [Hx Hm].
    rewrite bool_decide_eq_false_2 by done. simpl. by rewrite IH.
  - destruct Hin as [?|Hin]; [congruence|]. rewrite IH by done.
    destruct l; [by apply elem_of_nil in Hin|]. simpl. lia.
Qed.
End filters.

#[export] Hint Resolve NoDup_List_filter drop_positions_none drop_positions_all : js.
#[export] Hint Resolve NoDup_nil_2 NoDup_cons_2 : js.

(** A list is strictly increasing and starts at or above [i]. *)
Fixpoint increasing_from (i : nat) (l : list nat) : Prop :=
  match l with
  | [] => True
  | x :: l' => i ≤ x ∧ increasing_from (S x) l'
  end.

(** JavaScript's [a || d] on an optional natural number: [undefined] and [0]
    are both falsy. *)
Definition nat_or (a : option nat) (d : nat) : nat :=
  match a with
  | Some 0 | None => d
  | Some n => n
  end.

(** ** The longest prefix that satisfies a test, and the rest *)

Fixpoint drop_while {A} (p : A → bool) (l : list A) : list A :=
  match l with
  | [] => []
  | x :: l' => if p x then drop_while p l' else l
  end.

Fixpoint take_while {A} (p : A → bool) (l : list A) : list A :=
  match l with
  | [] => []
  | x :: l' => if p x then x :: take_while p l' else []
  end.

Lemma take_drop_while {A} (p : A → bool) l : take_while p l ++ drop_while p l = l.
Proof. induction l as [|x l IH]; simpl; [done|]. destruct (p x); simpl; congruence. Qed.

Lemma take_while_all {A} (p : A → bool) l : Forall (λ x, p x = true) (take_while p l).
Proof.
  induction l as [|x l IH]; simpl; [constructor|]. destruct (p x) eqn:?; by constructor.
Qed.

Lemma drop_while_head {A} (p : A → bool) l x : head (drop_while p l) = Some x → p x = false.
Proof.
  induction l as [|y l IH]; simpl; [done|]. destruct (p y) eqn:Hy; [done|].
  by intros [= <-].
Qed.

Lemma drop_while_none {A} (p : A → bool) l :
  (∀ x, head l = Some x → p x = false) → drop_while p l = l.
Proof. destruct l as [|x l]; simpl; [done|]. intros H. by rewrite (H x). Qed.
