(* ===== verification/KoCompare.v ===== *)
(** * Array differences: [ko.utils.compareArrays] and [ko.utils.findMovesInArrayComparison]

    Models knockout-3.4.2.debug.js, lines 5544-5642.  The edit script is an
    array of objects that the lists [notInSml] and [notInBig] share with it,
    and that [findMovesInArrayComparison] mutates; the model keeps the script
    as a store of entries and the two lists as references (positions) into it. *)
From stdpp Require Import base gmap list.
From Stdlib Require Import Lia.
From S2P Require Import Prelude.

Local Open Scope js_scope.

Inductive status := Added | Deleted | Retained.

#[export] Instance status_eq_dec : EqDecision status.
Proof. solve_decision. Defined.

(** A row of the edit distance matrix is a sparse array: positions below
    [bigIndexMinForRow] and beyond [bigIndexMaxForRow] are never assigned. *)
Abbreviation row := (gmap nat nat).

Section compare.
(** Array elements with the identity [===] of the source. *)
Context {V : Type} `{EqDecision V}.

(** One object of the edit script: [{status, value, index, moved}], an
    absent property being [None]. *)
Record entry := Entry {
  e_status : status;
  e_value : V;
  e_index : option nat;
  e_moved : option nat
}.

Definition set_moved (m : option nat) (e : entry) : entry :=
  Entry (e_status e) (e_value e) (e_index e) m.

(** The inner loop over [right]: the position of the first entry whose value
    is [v]. *)
Fixpoint find_right (script : list entry) (v : V) (right : list nat)
    : option nat :=
  match right with
  | [] => None
  | r :: right' =>
      match script !! r with
      | Some e =>
          if decide (v = e_value e) then Some 0
          else S <$> find_right script v right'
      | None => None
      end
  end.

(** [!limitFailedCompares || failedCompares < limitFailedCompares] *)
Definition below_limit (limit : option nat) (failed : nat) : bool :=
  match limit with
  | None | Some 0 => true
  | Some n => failed <? n
  end.

(** The outer loop over [left].  [left] and [right] are references into
    [script]. *)
Fixpoint find_moves_loop (limit : option nat) (script : list entry)
    (left right : list nat) (failed : nat) : list entry :=
  match left with
  | [] => script
  | l :: left' =>
      if below_limit limit failed then
        match script !! l with
        | None => script
        | Some le =>
            match find_right script (e_value le) right with
            | Some r =>
                match right !! r with
                | Some rr =>
                    match script !! rr with
                    | Some re =>
                        let script1 := <[l := set_moved (e_index re) le]> script in
                        let script2 := <[rr := set_moved (e_index le) re]> script1 in
                        find_moves_loop limit script2 left' (delete r right) 0
                    | None => script
                    end
                | None => script
                end
            | None =>
                find_moves_loop limit script left' right (failed + length right)
            end
        end
      else script
  end.

Definition findMovesInArrayComparison (script : list entry)
    (left right : list nat) (limit : option nat) : list entry :=
  match left, right with
  | [], _ | _, [] => script
  | _, _ => find_moves_loop limit script left right 0
  end.

(** ** The edit distance matrix *)

Section small_to_big.
Variables (sml big : list V).

Definition smlIndexMax : nat := length sml.
Definition bigIndexMax : nat := length big.
(** [(bigIndexMax - smlIndexMax) || 1]; the caller passes the shorter
    array first, so the difference is not negative. *)
Definition compareRange : nat :=
  nat_or (Some (bigIndexMax - smlIndexMax)) 1.
Definition maxDistance : nat := smlIndexMax + bigIndexMax + 1.
Definition bigIndexMaxForRow (s : nat) : nat := Nat.min bigIndexMax (s + compareRange).
Definition bigIndexMinForRow (s : nat) : nat := Nat.max 0 (s - 1).

Definition cell_value (lastRow thisRow : row) (s b : nat) : option nat :=
  if b =? 0 then Some (s + 1)
  else if s =? 0 then Some (b + 1)
  else if decide (sml !! (s - 1) = big !! (b - 1)) then lastRow !! (b - 1)
  else
    let northDistance := nat_or (lastRow !! b) maxDistance in
    let westDistance := nat_or (thisRow !! (b - 1)) maxDistance in
    Some (Nat.min northDistance westDistance + 1).

(** The loop over [bigIndex], [n] cells from [b] on. *)
Fixpoint fill_row (lastRow thisRow : row) (s b n : nat) : row :=
  match n with
  | 0 => thisRow
  | S n' =>
      fill_row lastRow (partial_alter (λ _, cell_value lastRow thisRow s b) b thisRow)
        s (S b) n'
  end.

Definition compute_row (lastRow : row) (s : nat) : row :=
  fill_row lastRow ∅ s (bigIndexMinForRow s)
    (S (bigIndexMaxForRow s) - bigIndexMinForRow s).

(** The loop over [smlIndex]: [n] rows from [s] on, with [lastRow] the row
    before. *)
Fixpoint fill_matrix (lastRow : row) (s n : nat) : list row :=
  match n with
  | 0 => []
  | S n' =>
      let thisRow := compute_row lastRow s in
      thisRow :: fill_matrix thisRow (S s) n'
  end.

Definition editDistanceMatrix : list row := fill_matrix ∅ 0 (S smlIndexMax).

Definition cell (m : list row) (s b : nat) : option nat :=
  m !! s ≫= λ r, r !! b.

(** ** The walk back through the matrix *)

Record walk := Walk {
  w_script : list entry;
  w_notInSml : list nat;
  w_notInBig : list nat
}.

(** One object appended to the script, and its reference. *)
Definition push_entry (script : list entry) (e : entry) : list entry * nat :=
  (script ++ [e], length script).

(** [meMinusOne === x], where both sides may be [undefined] or [NaN]
    (which equals nothing). *)
Definition is_pred (me x : option nat) : bool :=
  match me, x with
  | Some v, Some w => v =? S w
  | _, _ => false
  end.

(** The loop [for (smlIndex = smlIndexMax, bigIndex = bigIndexMax;
    smlIndex || bigIndex;)]: every iteration decreases one of the two, so
    [s + b] iterations are enough; [None] stands for an access outside
    the arrays. *)
Fixpoint walk_back (m : list row) (sparse : bool)
    (statusNotInSml statusNotInBig : status)
    (fuel s b : nat) (w : walk) : option walk :=
  if (s =? 0) && (b =? 0) then Some w
  else
    match fuel with
    | 0 => None
    | S fuel' =>
        let me := cell m s b in
        if negb (b =? 0) && is_pred me (cell m s (b - 1)) then
          v ← big !! (b - 1);
          let '(script, ref) :=
            push_entry (w_script w)
              (Entry statusNotInSml v (Some (b - 1)) None) in
          walk_back m sparse statusNotInSml statusNotInBig fuel' s (b - 1)
            (Walk script (w_notInSml w ++ [ref]) (w_notInBig w))
        else if negb (s =? 0) && is_pred me (cell m (s - 1) b) then
          v ← sml !! (s - 1);
          let '(script, ref) :=
            push_entry (w_script w)
              (Entry statusNotInBig v (Some (s - 1)) None) in
          walk_back m sparse statusNotInSml statusNotInBig fuel' (s - 1) b
            (Walk script (w_notInSml w) (w_notInBig w ++ [ref]))
        else if (s =? 0) || (b =? 0) then None
        else
          v ← big !! (b - 1);
          let script :=
            if sparse then w_script w
            else w_script w ++ [Entry Retained v None None] in
          walk_back m sparse statusNotInSml statusNotInBig fuel' (s - 1) (b - 1)
            (Walk script (w_notInSml w) (w_notInBig w))
    end.

(** [!options.dontLimitMoves && smlIndexMax * 10] *)
Definition moves_limit (dontLimitMoves : bool) : option nat :=
  if dontLimitMoves then None else Some (smlIndexMax * 10).

Definition compareSmallArrayToBigArray
    (statusNotInSml statusNotInBig : status)
    (sparse dontLimitMoves : bool) : option (list entry) :=
  w ← walk_back editDistanceMatrix sparse statusNotInSml statusNotInBig
        (smlIndexMax + bigIndexMax) smlIndexMax bigIndexMax (Walk [] [] []);
  let script :=
    findMovesInArrayComparison (w_script w) (w_notInBig w) (w_notInSml w)
      (moves_limit dontLimitMoves) in
  Some (rev script).
End small_to_big.

(** [compareArrays]: the shorter array is compared to the longer one, with
    the statuses swapped when the old array is the longer (or equal). *)
Definition compareArrays (oldArray newArray : list V)
    (sparse dontLimitMoves : bool) : option (list entry) :=
  if length oldArray <? length newArray then
    compareSmallArrayToBigArray oldArray newArray Added Deleted sparse dontLimitMoves
  else
    compareSmallArrayToBigArray newArray oldArray Deleted Added sparse dontLimitMoves.
End compare.

Arguments entry : clear implicits.
Arguments Entry {V}.


(** ** The matrix satisfies the edit distance recurrence *)

Section matrix.
Context {V : Type} `{EqDecision V}.
Variables (sml big : list V).

Abbreviation smax := (smlIndexMax sml).
Abbreviation bmax := (bigIndexMax big).
Abbreviation range := (compareRange sml big).

Definition in_band (s b : nat) : Prop :=
  bigIndexMinForRow s ≤ b ≤ bigIndexMaxForRow sml big s.

#[export] Instance in_band_dec s b : Decision (in_band s b).
Proof. unfold in_band. apply _. Defined.

Lemma compareRange_pos : 1 ≤ range.
Proof. unfold compareRange, nat_or. case_match; lia. Qed.

Lemma compareRange_ge : bmax ≤ smax + range.
Proof.
  unfold compareRange, nat_or. destruct (bmax - smax) eqn:E; lia.
Qed.

Lemma fill_row_below lastRow s n : ∀ b this b',
  b' < b → fill_row sml big lastRow this s b n !! b' = this !! b'.
Proof.
  induction n as [|n IH]; intros b this b' Hb; simpl; [done|].
  rewrite IH by lia. by rewrite lookup_partial_alter_ne by lia.
Qed.

Lemma fill_row_above lastRow s n : ∀ b this b',
  b + n ≤ b' → fill_row sml big lastRow this s b n !! b' = this !! b'.
Proof.
  induction n as [|n IH]; intros b this b' Hb; simpl; [done|].
  rewrite IH by lia. by rewrite lookup_partial_alter_ne by lia.
Qed.

Lemma cell_value_ext lastRow r1 r2 s b :
  r1 !! (b - 1) = r2 !! (b - 1) ∨ b = 0 →
  cell_value sml big lastRow r1 s b = cell_value sml big lastRow r2 s b.
Proof. intros [H| ->]; unfold cell_value; [by rewrite H|done]. Qed.

Lemma fill_row_inside lastRow s n : ∀ b this b',
  b ≤ b' < b + n →
  fill_row sml big lastRow this s b n !! b' =
    cell_value sml big lastRow (fill_row sml big lastRow this s b n) s b'.
Proof.
  induction n as [|n IH]; intros b this b' Hb; simpl; [lia|].
  destruct (decide (b' = b)) as [->|Hne].
  - rewrite fill_row_below by lia. rewrite lookup_partial_alter_eq.
    apply cell_value_ext. destruct (decide (b = 0)) as [->|]; [by right|left].
    rewrite fill_row_below by lia. by rewrite lookup_partial_alter_ne by lia.
  - rewrite IH by lia. done.
Qed.

Lemma compute_row_lookup lastRow s b :
  compute_row sml big lastRow s !! b =
    if decide (in_band s b)
    then cell_value sml big lastRow (compute_row sml big lastRow s) s b
    else None.
Proof.
  unfold compute_row, in_band. case_decide as Hb.
  - apply fill_row_inside. lia.
  - destruct (decide (b < bigIndexMinForRow s)) as [Hlt|Hge].
    + by rewrite fill_row_below.
    + rewrite fill_row_above; [done|lia].
Qed.

(** The row computed for [s]. *)
Fixpoint row_of (s : nat) : row :=
  compute_row sml big match s with 0 => ∅ | S s' => row_of s' end s.

Lemma fill_matrix_lookup n : ∀ s k,
  k < n →
  fill_matrix sml big match s with 0 => ∅ | S s' => row_of s' end s n !! k
    = Some (row_of (s + k)).
Proof.
  induction n as [|n IH]; intros s k Hk; [lia|]. destruct k as [|k]; simpl.
  - rewrite Nat.add_0_r. by destruct s.
  - specialize (IH (S s) k ltac:(lia)). rewrite Nat.add_succ_r.
    by destruct s.
Qed.

Definition M (s b : nat) : option nat := row_of s !! b.

Lemma cell_M s b : s ≤ smax → cell (editDistanceMatrix sml big) s b = M s b.
Proof.
  intros Hs. unfold cell, editDistanceMatrix, M.
  rewrite (fill_matrix_lookup (S smax) 0 s) by lia. done.
Qed.

Lemma M_outside s b : ¬ in_band s b → M s b = None.
Proof.
  intros H. unfold M. destruct s; simpl; rewrite compute_row_lookup;
    by rewrite decide_False.
Qed.

Lemma M_b0 s : in_band s 0 → M s 0 = Some (s + 1).
Proof.
  intros H. unfold M. destruct s; simpl; rewrite compute_row_lookup;
    by rewrite decide_True.
Qed.

Lemma M_s0 b : in_band 0 b → M 0 b = Some (b + 1).
Proof.
  intros H. unfold M. simpl. rewrite compute_row_lookup, decide_True by done.
  unfold cell_value. by destruct (Nat.eqb_spec b 0) as [->|].
Qed.

Lemma M_match s b :
  in_band (S s) (S b) → sml !! s = big !! b → M (S s) (S b) = M s b.
Proof.
  intros H Heq. unfold M. simpl row_of. rewrite compute_row_lookup, decide_True by done.
  unfold cell_value. simpl. rewrite !Nat.sub_0_r. by rewrite decide_True.
Qed.

Lemma M_mismatch s b :
  in_band (S s) (S b) → sml !! s ≠ big !! b →
  M (S s) (S b) =
    Some (Nat.min (nat_or (M s (S b)) (maxDistance sml big))
                  (nat_or (M (S s) b) (maxDistance sml big)) + 1).
Proof.
  intros H Heq. unfold M at 1. simpl row_of. rewrite compute_row_lookup, decide_True by done.
  unfold cell_value. simpl. rewrite !Nat.sub_0_r. by rewrite decide_False.
Qed.

Lemma in_band_diag s b : in_band (S s) (S b) → in_band s b.
Proof. unfold in_band, bigIndexMinForRow, bigIndexMaxForRow. lia. Qed.

Lemma in_band_left_or_up s b :
  in_band (S s) (S b) → in_band s (S b) ∨ in_band (S s) b.
Proof.
  pose proof compareRange_pos.
  unfold in_band, bigIndexMinForRow, bigIndexMaxForRow. lia.
Qed.

Lemma in_band_end : smax ≤ bmax → in_band smax bmax.
Proof.
  pose proof compareRange_ge.
  unfold in_band, bigIndexMinForRow, bigIndexMaxForRow. lia.
Qed.

(** Every cell of the band is assigned, with a value between 1 and
    [smlIndex + bigIndex + 1]. *)
Lemma M_inside s b :
  s ≤ smax → in_band s b → ∃ v, M s b = Some v ∧ 1 ≤ v ≤ s + b + 1.
Proof.
  revert b. induction s as [|s IHs]; intros b Hs Hb.
  { exists (b + 1). rewrite M_s0 by done. split; [done|lia]. }
  induction b as [|b IHb].
  { exists (S s + 1). rewrite M_b0 by done. split; [done|lia]. }
  destruct (decide (sml !! s = big !! b)) as [He|Hne].
  - destruct (IHs b) as (v & Hv & ?); [lia|by apply in_band_diag|].
    exists v. rewrite M_match by done. split; [done|lia].
  - rewrite M_mismatch by done. eexists; split; [done|].
    assert (b < bmax) by (destruct Hb; unfold bigIndexMaxForRow in *; lia).
    destruct (in_band_left_or_up s b Hb) as [Hn|Hw].
    + destruct (IHs (S b)) as (v & Hv & ?); [lia|done|]. rewrite Hv.
      assert (nat_or (Some v) (maxDistance sml big) = v) as ->
        by (destruct v; simpl; lia).
      destruct (M (S s) b) as [w|] eqn:Hw; simpl; [|unfold maxDistance; lia].
      destruct w; unfold maxDistance; lia.
    + destruct (IHb Hw) as (v & Hv & ?). rewrite Hv.
      assert (nat_or (Some v) (maxDistance sml big) = v) as ->
        by (destruct v; simpl; lia).
      destruct (M s (S b)) as [w|] eqn:Hw'; simpl; [|unfold maxDistance; lia].
      destruct w; unfold maxDistance; lia.
Qed.

Lemma nat_or_M s b v d : M s b = Some v → s ≤ smax → nat_or (M s b) d = v.
Proof.
  intros Hv Hs. destruct (decide (in_band s b)) as [Hb|Hb].
  - destruct (M_inside s b Hs Hb) as (w & Hw & ?). rewrite Hw in *.
    simplify_eq. destruct v; simpl; [lia|done].
  - rewrite M_outside in Hv by done. done.
Qed.
End matrix.

(** ** The walk back produces a path of edits *)

Section walk_back.
Context {V : Type} `{EqDecision V}.
Variables (sml big : list V) (sparse : bool) (nsml nbig : status).

(** [path s b ext]: the objects [ext], in the order they are pushed, turn the
    first [s] elements of [sml] into the first [b] elements of [big]. *)
Inductive path : nat → nat → list (entry V) → Prop :=
| path_start : path 0 0 []
| path_not_in_sml s b v ext :
    big !! b = Some v → path s b ext →
    path s (S b) (Entry nsml v (Some b) None :: ext)
| path_not_in_big s b v ext :
    sml !! s = Some v → path s b ext →
    path (S s) b (Entry nbig v (Some s) None :: ext)
| path_retained s b v ext :
    sml !! s = Some v → big !! b = Some v → path s b ext →
    path (S s) (S b)
      (if sparse then ext else Entry Retained v None None :: ext).

(** The number of objects that are not retained ones. *)
Definition is_edit (e : entry V) : bool :=
  match e_status e with Retained => false | _ => true end.
Definition edits (ext : list (entry V)) : nat :=
  length (List.filter is_edit ext).

(** The positions, from [off] on, of the objects with status [st]. *)
Fixpoint refs_from (st : status) (off : nat) (ext : list (entry V)) : list nat :=
  match ext with
  | [] => []
  | e :: ext' =>
      if decide (e_status e = st) then off :: refs_from st (S off) ext'
      else refs_from st (S off) ext'
  end.

Hypothesis Hnsml : nsml ≠ Retained.
Hypothesis Hnbig : nbig ≠ Retained.
Hypothesis Hdiff : nsml ≠ nbig.

Abbreviation smax := (smlIndexMax sml).
Abbreviation bmax := (bigIndexMax big).
Abbreviation matrix := (editDistanceMatrix sml big).
Abbreviation M := (M sml big).

Definition walk_result (w : walk) (ext : list (entry V)) : walk :=
  let off := length (w_script w) in
  Walk (w_script w ++ ext) (w_notInSml w ++ refs_from nsml off ext)
    (w_notInBig w ++ refs_from nbig off ext).

Lemma walk_result_cons w e ext :
  walk_result w (e :: ext) =
    walk_result
      (Walk (w_script w ++ [e])
         (w_notInSml w ++ (if decide (e_status e = nsml) then [length (w_script w)] else []))
         (w_notInBig w ++ (if decide (e_status e = nbig) then [length (w_script w)] else [])))
      ext.
Proof using Type.
  unfold walk_result. simpl. rewrite length_app. simpl. rewrite Nat.add_1_r.
  f_equal; [by rewrite <-app_assoc| |]; case_decide; by rewrite <-app_assoc.
Qed.

Lemma is_pred_inv me x : is_pred me x = true → ∃ w, me = Some (S w) ∧ x = Some w.
Proof using Type.
  destruct me as [v|], x as [w|]; simpl; try done.
  intros ->%Nat.eqb_eq. eauto.
Qed.

Lemma M_or_max s b :
  s ≤ smax →
  (M s b = None ∧ nat_or (M s b) (maxDistance sml big) = maxDistance sml big) ∨
  (∃ v, M s b = Some v ∧ nat_or (M s b) (maxDistance sml big) = v ∧ v ≤ s + b + 1).
Proof using Type.
  intros Hs. destruct (decide (in_band sml big s b)) as [Hb|Hb].
  - destruct (M_inside sml big s b Hs Hb) as (v & Hv & ?). right.
    exists v. split_and!; [done|by apply nat_or_M|lia].
  - left. rewrite M_outside by done. done.
Qed.

Lemma M_step s b v :
  s ≤ smax → b ≤ bmax → in_band sml big s b → M s b = Some v →
  s ≠ 0 ∨ b ≠ 0 →
  (b ≠ 0 ∧ is_pred (M s b) (M s (b - 1)) = true) ∨
  (s ≠ 0 ∧ is_pred (M s b) (M (s - 1) b) = true) ∨
  (s ≠ 0 ∧ b ≠ 0 ∧ sml !! (s - 1) = big !! (b - 1) ∧ M (s - 1) (b - 1) = Some v).
Proof using Type.
  intros Hs Hb Hin Hv Hnz. destruct s as [|s], b as [|b]; [lia| | |].
  - left. split; [lia|]. rewrite Nat.sub_succ, Nat.sub_0_r, !M_s0; simpl.
    + apply Nat.eqb_eq. lia.
    + unfold in_band, bigIndexMinForRow, bigIndexMaxForRow in *. lia.
    + done.
  - right; left. split; [lia|]. rewrite Nat.sub_succ, Nat.sub_0_r.
    assert (s = 0) as -> by (unfold in_band, bigIndexMinForRow in *; lia).
    rewrite !M_b0; [simpl; done| |done].
    unfold in_band, bigIndexMinForRow, bigIndexMaxForRow. lia.
  - rewrite !Nat.sub_succ, !Nat.sub_0_r. rewrite Hv.
    destruct (decide (sml !! s = big !! b)) as [He|Hne].
    + right; right. rewrite M_match in Hv by done. split_and!; done || lia.
    + rewrite M_mismatch in Hv by done. simplify_eq.
      destruct (M_or_max s (S b) ltac:(lia)) as [[Hx Hx']|(x & Hx & Hx' & ?)],
        (M_or_max (S s) b Hs) as [[Hy Hy']|(y & Hy & Hy' & ?)];
        rewrite Hx', Hy', Hx, Hy.
      * destruct (in_band_left_or_up sml big s b Hin) as [Hn|Hw].
        -- destruct (M_inside sml big s (S b)) as (? & ? & _); [lia|done|congruence].
        -- destruct (M_inside sml big (S s) b) as (? & ? & _); [lia|done|congruence].
      * left. split; [lia|]. apply Nat.eqb_eq. unfold maxDistance. lia.
      * right; left. split; [lia|]. apply Nat.eqb_eq. unfold maxDistance. lia.
      * destruct (decide (y ≤ x)); [left|right; left]; (split; [lia|]);
          apply Nat.eqb_eq; lia.
Qed.

Lemma M_some_in_band s b v : M s b = Some v → in_band sml big s b.
Proof using Type.
  intros Hv. destruct (decide (in_band sml big s b)); [done|].
  by rewrite M_outside in Hv.
Qed.

(** The loop from [(s, b)] ends within [fuel] iterations, and what it pushed
    is a path with one edit less than [v]. *)
Definition walks (fuel s b : nat) (w : walk) (v : nat) : Prop :=
  ∃ ext, path s b ext ∧ edits ext + 1 = v ∧
    walk_back sml big matrix sparse nsml nbig fuel s b w = Some (walk_result w ext).

Lemma edits_cons st x i ext :
  st ≠ Retained → edits (Entry st x i None :: ext) = S (edits ext).
Proof using Type. unfold edits, is_edit. by destruct st. Qed.

Lemma not_both_zero s b :
  s ≠ 0 ∨ b ≠ 0 →
  (s =? 0) && (b =? 0) = false.
Proof using Type. intros H. apply andb_false_iff. rewrite !Nat.eqb_neq. lia. Qed.

Lemma walks_start fuel w v : M 0 0 = Some v → walks fuel 0 0 w v.
Proof using Type.
  intros Hv. pose proof (M_some_in_band _ _ _ Hv) as Hin.
  rewrite M_s0 in Hv by done. simplify_eq.
  exists []. split_and!; [constructor|done|].
  unfold walk_result. destruct fuel; simpl; rewrite !app_nil_r; by destruct w.
Qed.

Lemma walks_west fuel s b v w :
  s ≤ smax → b ≤ bmax → M s b = Some v →
  negb (b =? 0) && is_pred (M s b) (M s (b - 1)) = true →
  (∀ v' w', M s (b - 1) = Some v' → walks fuel s (b - 1) w' v') →
  walks (S fuel) s b w v.
Proof.
  intros Hs Hb Hv Hw IH. pose proof Hw as [Hb0 Hp]%andb_true_iff.
  apply negb_true_iff, Nat.eqb_neq in Hb0.
  apply is_pred_inv in Hp as (v' & Hv1 & Hv2). rewrite Hv in Hv1. simplify_eq.
  destruct (lookup_lt_is_Some_2 big (b - 1)) as [x Hx];
    [unfold bigIndexMax in *; lia|].
  destruct (IH v' (Walk (w_script w ++ [Entry nsml x (Some (b - 1)) None])
    (w_notInSml w ++ [length (w_script w)]) (w_notInBig w)) Hv2)
    as (ext & Hpath & Hed & Heq).
  exists (Entry nsml x (Some (b - 1)) None :: ext). split_and!.
  - replace b with (S (b - 1)) at 1 by lia. by constructor.
  - rewrite edits_cons by done. lia.
  - simpl. rewrite not_both_zero by lia. rewrite !cell_M by lia.
    rewrite Hw, Hx. simpl. rewrite Heq, walk_result_cons. simpl.
    rewrite decide_True by done. rewrite decide_False by done.
    by rewrite app_nil_r.
Qed.

Lemma walks_north fuel s b v w :
  s ≤ smax → b ≤ bmax → M s b = Some v →
  negb (b =? 0) && is_pred (M s b) (M s (b - 1)) = false →
  negb (s =? 0) && is_pred (M s b) (M (s - 1) b) = true →
  (∀ v' w', M (s - 1) b = Some v' → walks fuel (s - 1) b w' v') →
  walks (S fuel) s b w v.
Proof.
  intros Hs Hb Hv Hw Hn IH. pose proof Hn as [Hs0 Hp]%andb_true_iff.
  apply negb_true_iff, Nat.eqb_neq in Hs0.
  apply is_pred_inv in Hp as (v' & Hv1 & Hv2). rewrite Hv in Hv1. simplify_eq.
  destruct (lookup_lt_is_Some_2 sml (s - 1)) as [x Hx];
    [unfold smlIndexMax in *; lia|].
  destruct (IH v' (Walk (w_script w ++ [Entry nbig x (Some (s - 1)) None])
    (w_notInSml w) (w_notInBig w ++ [length (w_script w)])) Hv2)
    as (ext & Hpath & Hed & Heq).
  exists (Entry nbig x (Some (s - 1)) None :: ext). split_and!.
  - replace s with (S (s - 1)) at 1 by lia. by constructor.
  - rewrite edits_cons by done. lia.
  - simpl. rewrite not_both_zero by lia. rewrite !cell_M by lia.
    rewrite Hw, Hn, Hx. simpl. rewrite Heq, walk_result_cons. simpl.
    rewrite decide_False by done. rewrite decide_True by done.
    by rewrite app_nil_r.
Qed.

Lemma walks_diagonal fuel s b v w :
  s ≤ smax → b ≤ bmax → s ≠ 0 → b ≠ 0 →
  negb (b =? 0) && is_pred (M s b) (M s (b - 1)) = false →
  negb (s =? 0) && is_pred (M s b) (M (s - 1) b) = false →
  sml !! (s - 1) = big !! (b - 1) → M (s - 1) (b - 1) = Some v →
  (∀ v' w', M (s - 1) (b - 1) = Some v' → walks fuel (s - 1) (b - 1) w' v') →
  walks (S fuel) s b w v.
Proof.
  intros Hs Hb Hs0 Hb0 Hw Hn Heqv Hdiag IH.
  destruct (lookup_lt_is_Some_2 big (b - 1)) as [x Hx];
    [unfold bigIndexMax in *; lia|].
  destruct (IH v (Walk (if sparse then w_script w
      else w_script w ++ [Entry Retained x None None])
    (w_notInSml w) (w_notInBig w)) Hdiag) as (ext & Hpath & Hed & Heq).
  exists (if sparse then ext else Entry Retained x None None :: ext). split_and!.
  - replace s with (S (s - 1)) at 1 by lia.
    replace b with (S (b - 1)) at 1 by lia.
    apply path_retained; [by rewrite Heqv|done|done].
  - by destruct sparse.
  - simpl. rewrite not_both_zero by lia. rewrite !cell_M by lia. rewrite Hw, Hn.
    assert ((s =? 0) || (b =? 0) = false) as ->
      by (apply orb_false_iff; rewrite !Nat.eqb_neq; lia).
    rewrite Hx. simpl. rewrite Heq. destruct sparse; [done|].
    rewrite walk_result_cons. simpl. rewrite !decide_False by done.
    by rewrite !app_nil_r.
Qed.

Lemma walk_back_path fuel : ∀ s b v w,
  s + b ≤ fuel → s ≤ smax → b ≤ bmax → M s b = Some v → walks fuel s b w v.
Proof.
  induction fuel as [|fuel IH]; intros s b v w Hf Hs Hb Hv.
  { assert (s = 0) as -> by lia. assert (b = 0) as -> by lia. by apply walks_start. }
  destruct (decide (s = 0 ∧ b = 0)) as [[-> ->]|Hnz]; [by apply walks_start|].
  pose proof (M_some_in_band _ _ _ Hv) as Hin.
  destruct (negb (b =? 0) && is_pred (M s b) (M s (b - 1))) eqn:Hw.
  { apply walks_west; try done. intros. apply IH; (done || lia || idtac).
    pose proof Hw as [?%negb_true_iff%Nat.eqb_neq _]%andb_true_iff. lia. }
  destruct (negb (s =? 0) && is_pred (M s b) (M (s - 1) b)) eqn:Hn.
  { apply walks_north; try done. intros. apply IH; (done || lia || idtac).
    pose proof Hn as [?%negb_true_iff%Nat.eqb_neq _]%andb_true_iff. lia. }
  destruct (M_step s b v Hs Hb Hin Hv ltac:(lia))
    as [[? Hp]|[[? Hp]|(? & ? & ? & ?)]].
  - rewrite Hp, andb_true_r in Hw. apply negb_false_iff, Nat.eqb_eq in Hw. lia.
  - rewrite Hp, andb_true_r in Hn. apply negb_false_iff, Nat.eqb_eq in Hn. lia.
  - apply walks_diagonal; try done. intros. apply IH; done || lia.
Qed.
End walk_back.

(** ** The contract of an array difference

    What a subscriber to [arrayChange] (and
    [setDomNodeChildrenFromArrayMapping]) relies on: dropping the deleted
    positions of the old array and the added positions of the new one leaves
    the same array, the objects carry the elements at their positions, and each
    kind of position is reported in increasing order. *)
Section contract.
Context {V : Type} `{EqDecision V}.

(** The positions reported with status [st], in script order. *)
Definition positions (st : status) (script : list (entry V)) : list nat :=
  omap (λ e, if decide (e_status e = st) then e_index e else None) script.

Definition reported (st : status) (script : list (entry V)) (i : nat) : bool :=
  (i ∈? positions st script).

Record describes (old new : list V) (script : list (entry V)) : Prop := {
  desc_same :
    drop_positions (reported Deleted script) 0 old =
    drop_positions (reported Added script) 0 new;
  desc_deleted : ∀ e, e ∈ script → e_status e = Deleted →
    ∃ i, e_index e = Some i ∧ old !! i = Some (e_value e);
  desc_added : ∀ e, e ∈ script → e_status e = Added →
    ∃ i, e_index e = Some i ∧ new !! i = Some (e_value e);
  desc_deleted_order : increasing_from 0 (positions Deleted script);
  desc_added_order : increasing_from 0 (positions Added script)
}.

(** [moved] pairs a deleted object with the added one that has the same
    value, in both directions. *)
Definition opposite (a b : status) : Prop :=
  (a = Added ∧ b = Deleted) ∨ (a = Deleted ∧ b = Added).

Definition moves_paired (script : list (entry V)) : Prop :=
  ∀ e j, e ∈ script → e_moved e = Some j →
    ∃ e', e' ∈ script ∧ e_index e' = Some j ∧ e_moved e' = e_index e ∧
          e_value e' = e_value e ∧ opposite (e_status e) (e_status e').

(** Two scripts that differ in [moved] only. *)
Definition same_but_moved (e e' : entry V) : Prop :=
  e_status e = e_status e' ∧ e_value e = e_value e' ∧ e_index e = e_index e'.

#[export] Instance same_but_moved_equiv : Equivalence same_but_moved.
Proof.
  unfold same_but_moved. split.
  - by intros e.
  - by intros e e' (? & ? & ?).
  - intros e1 e2 e3 (? & ? & ?) (? & ? & ?). split_and!; by etrans.
Qed.

Lemma positions_app st l k : positions st (l ++ k) = positions st l ++ positions st k.
Proof. apply omap_app. Qed.

#[export] Instance positions_proper st :
  Proper (Forall2 same_but_moved ==> eq) (positions st).
Proof.
  intros l k H. induction H as [|e e' l k (Hs & _ & Hi) _ IH]; [done|].
  unfold positions in *. csimpl. by rewrite Hs, Hi, IH.
Qed.

Lemma elem_of_positions st i script :
  i ∈ positions st script ↔
    ∃ e, e ∈ script ∧ e_status e = st ∧ e_index e = Some i.
Proof.
  unfold positions. rewrite list_elem_of_omap. split.
  - intros (e & He & Hi). case_decide; [eauto|done].
  - intros (e & He & Hst & Hi). exists e. by rewrite decide_True.
Qed.

Lemma reported_proper st l k i :
  Forall2 same_but_moved l k → reported st l i = reported st k i.
Proof.
  intros H. unfold reported. apply bool_decide_ext.
  by rewrite (positions_proper st l k H).
Qed.

Lemma Forall2_elem_of_r {A B} (P : A → B → Prop) l k y :
  Forall2 P l k → y ∈ k → ∃ x, x ∈ l ∧ P x y.
Proof.
  intros HF [i Hi]%list_elem_of_lookup.
  destruct (Forall2_lookup_r _ _ _ _ _ HF Hi) as (x & Hx & ?).
  exists x. split; [|done]. by eapply list_elem_of_lookup_2.
Qed.

(** The contract does not look at [moved]. *)
#[export] Instance describes_proper old new :
  Proper (Forall2 same_but_moved ==> impl) (describes old new).
Proof.
  intros l k H [Hsame Hdel Hadd Hdo Hao]. split.
  - erewrite (drop_positions_ext _ (reported Deleted l)),
      (drop_positions_ext (reported Added k) (reported Added l)); [done| |];
      intros; symmetry; by apply reported_proper.
  - intros e He Hst. destruct (Forall2_elem_of_r _ _ _ _ H He) as (e' & He' & Hs & Hv & Hi).
    rewrite <-Hv, <-Hi. apply Hdel; [done|congruence].
  - intros e He Hst. destruct (Forall2_elem_of_r _ _ _ _ H He) as (e' & He' & Hs & Hv & Hi).
    rewrite <-Hv, <-Hi. apply Hadd; [done|congruence].
  - by rewrite <-H.
  - by rewrite <-H.
Qed.

(** ** A path of edits meets the contract *)

Lemma increasing_from_weaken i j l : i ≤ j → increasing_from j l → increasing_from i l.
Proof. destruct l; simpl; [done|]. intros ? []. split; [lia|done]. Qed.

Lemma increasing_from_snoc i l x :
  increasing_from i l → i ≤ x → (∀ y, y ∈ l → y < x) → increasing_from i (l ++ [x]).
Proof.
  revert i. induction l as [|y l IH]; intros i; simpl; [done|].
  intros [Hy Hl] Hx Hlt. split; [done|]. apply IH; [done| |].
  - assert (y < x) by (apply Hlt; left). lia.
  - intros z Hz. apply Hlt. by right.
Qed.

Section of_path.
Variables (sml big : list V) (sparse : bool) (nsml nbig : status).
Hypothesis Hopp : opposite nsml nbig.

Lemma opposite_ne : nsml ≠ Retained ∧ nbig ≠ Retained ∧ nsml ≠ nbig.
Proof. by destruct Hopp as [[-> ->]|[-> ->]]. Qed.

Abbreviation path := (path sml big sparse nsml nbig).

Lemma path_entries s b ext :
  path s b ext → ∀ e, e ∈ ext →
  e_moved e = None ∧
  ((e_status e = nsml ∧ ∃ i, i < b ∧ e_index e = Some i ∧ big !! i = Some (e_value e)) ∨
   (e_status e = nbig ∧ ∃ i, i < s ∧ e_index e = Some i ∧ sml !! i = Some (e_value e)) ∨
   (e_status e = Retained ∧ e_index e = None)).
Proof.
  induction 1 as [|s b v ext Hv Hp IH|s b v ext Hv Hp IH|s b v ext Hv Hw Hp IH];
    intros e He.
  - by apply elem_of_nil in He.
  - apply elem_of_cons in He as [->|He]; [split; [done|left]; simpl; eauto 10|].
    destruct (IH _ He) as (? & [(? & i & ? & ?)|Hc]); split; try done;
      [left; split; [done|exists i; split; [lia|done]]|by right].
  - apply elem_of_cons in He as [->|He]; [split; [done|right; left]; simpl; eauto 10|].
    destruct (IH _ He) as (? & [Hc|[(? & i & ? & ?)|Hc]]); split; try done;
      [by left|right; left; split; [done|exists i; split; [lia|done]]|by right; right].
  - assert (He' : e ∈ ext ∨ e = Entry Retained v None None).
    { destruct sparse; [by left|]. apply elem_of_cons in He as [->|]; auto. }
    destruct He' as [He'| ->]; [|split; [done|by right; right]].
    destruct (IH _ He') as (? & [(? & i & ? & ?)|[(? & i & ? & ?)|Hc]]); split; try done.
    + left. split; [done|]. exists i. split; [lia|done].
    + right; left. split; [done|]. exists i. split; [lia|done].
    + by right; right.
Qed.

Lemma path_position_lt s b ext st i :
  path s b ext → i ∈ positions st ext →
  (st = nsml → i < b) ∧ (st = nbig → i < s).
Proof.
  intros Hp (e & He & Hst & Hi)%elem_of_positions.
  pose proof opposite_ne as (? & ? & ?).
  destruct (path_entries _ _ _ Hp e He)
    as (_ & [(? & j & ? & ? & _)|[(? & j & ? & ? & _)|(? & ?)]]);
    split; intros Hcase; first [congruence|assert (i = j) as -> by congruence; done].
Qed.

Lemma positions_cons st e ext :
  positions st (e :: ext) =
    (if decide (e_status e = st) then option_list (e_index e) else []) ++ positions st ext.
Proof. unfold positions. csimpl. case_decide; [|done]. by destruct (e_index e). Qed.

Lemma positions_retained st v ext :
  st ≠ Retained →
  positions st (if sparse then ext else Entry Retained v None None :: ext)
    = positions st ext.
Proof.
  intros Hst. destruct sparse; [done|]. rewrite positions_cons. simpl.
  by rewrite decide_False.
Qed.

Lemma path_order s b ext st :
  path s b ext → st = nsml ∨ st = nbig →
  increasing_from 0 (positions st (rev ext)).
Proof.
  intros Hp Hst. pose proof opposite_ne as (? & ? & ?).
  assert (Hrev : ∀ l, positions st (rev l) = rev (positions st l)).
  { intros l. induction l as [|e l IH]; [done|].
    change (rev (e :: l)) with (rev l ++ [e]).
    rewrite positions_app, IH, !positions_cons, rev_app_distr.
    case_decide; [by destruct (e_index e)|done]. }
  rewrite Hrev.
  assert (Hin : ∀ l i, i ∈ rev l → i ∈ (l : list nat)).
  { intros l i. by rewrite !list_elem_of_In, <-in_rev. }
  induction Hp as [|s b v ext Hv Hp IH|s b v ext Hv Hp IH|s b v ext Hv Hw Hp IH].
  - done.
  - rewrite positions_cons. simpl. case_decide as Hd; [|done]. simpl.
    apply increasing_from_snoc; [done|lia|].
    intros y Hy%Hin. destruct (path_position_lt _ _ _ _ _ Hp Hy); destruct Hst; subst; auto.
  - rewrite positions_cons. simpl. case_decide as Hd; [|done]. simpl.
    apply increasing_from_snoc; [done|lia|].
    intros y Hy%Hin. destruct (path_position_lt _ _ _ _ _ Hp Hy); destruct Hst; subst; auto.
  - rewrite positions_retained; [done|destruct Hst; congruence].
Qed.

Lemma reported_fresh st ext n :
  (∀ i, i ∈ positions st ext → i < n) → reported st ext n = false.
Proof. intros Hlt. apply bool_decide_eq_false. intros Hi%Hlt. lia. Qed.

(** One more element [v] at position [n] of an array. *)
Lemma drop_positions_snoc (l : list V) st n v ext :
  l !! n = Some v →
  drop_positions (reported st ext) 0 (take (S n) l) =
    drop_positions (reported st ext) 0 (take n l) ++
    (if reported st ext n then [] else [v]).
Proof.
  intros Hn. rewrite (take_S_lookup l n v Hn), drop_positions_app.
  apply lookup_lt_Some in Hn. rewrite length_take. simpl.
  replace (Nat.min n (length l)) with n by lia. done.
Qed.

Lemma drop_positions_report_more (l : list V) st n e ext :
  (e_status e = st → e_index e = Some n) →
  drop_positions (reported st (e :: ext)) 0 (take n l) =
  drop_positions (reported st ext) 0 (take n l).
Proof.
  intros He. apply drop_positions_ext. intros j Hj.
  rewrite length_take in Hj.
  unfold reported. apply bool_decide_ext. rewrite positions_cons, elem_of_app.
  case_decide as Hd; [|rewrite elem_of_nil; tauto]. rewrite (He Hd). simpl.
  split; [|by right]. intros [Hj'|?]; [|done].
  apply list_elem_of_singleton in Hj'. lia.
Qed.

Lemma reported_retained st v ext i :
  st ≠ Retained →
  reported st (if sparse then ext else Entry Retained v None None :: ext) i
    = reported st ext i.
Proof. intros Hst. unfold reported. by rewrite positions_retained. Qed.

Lemma drop_retained st v ext (l : list V) :
  st ≠ Retained →
  drop_positions
    (reported st (if sparse then ext else Entry Retained v None None :: ext)) 0 l
  = drop_positions (reported st ext) 0 l.
Proof. intros Hst. apply drop_positions_ext. intros. by apply reported_retained. Qed.

Lemma path_same s b ext :
  path s b ext →
  drop_positions (reported nbig ext) 0 (take s sml) =
  drop_positions (reported nsml ext) 0 (take b big).
Proof.
  intros Hp. pose proof opposite_ne as (? & ? & ?).
  induction Hp as [|s b v ext Hv Hp IH|s b v ext Hv Hp IH|s b v ext Hv Hw Hp IH].
  - by rewrite !take_0.
  - rewrite (drop_positions_snoc _ _ _ _ _ Hv).
    rewrite (drop_positions_report_more big) by done.
    rewrite (drop_positions_report_more sml) by (simpl; congruence).
    assert (reported nsml (Entry nsml v (Some b) None :: ext) b = true) as ->.
    { apply bool_decide_eq_true. rewrite positions_cons. simpl.
      rewrite decide_True by done. set_solver. }
    by rewrite app_nil_r.
  - rewrite (drop_positions_snoc _ _ _ _ _ Hv).
    rewrite (drop_positions_report_more sml) by done.
    rewrite (drop_positions_report_more big) by (simpl; congruence).
    assert (reported nbig (Entry nbig v (Some s) None :: ext) s = true) as ->.
    { apply bool_decide_eq_true. rewrite positions_cons. simpl.
      rewrite decide_True by done. set_solver. }
    by rewrite app_nil_r.
  - rewrite (drop_positions_snoc sml _ _ _ _ Hv), (drop_positions_snoc big _ _ _ _ Hw).
    rewrite !drop_retained, !reported_retained, IH by done.
    rewrite !reported_fresh; [done| |];
      intros i Hi; destruct (path_position_lt _ _ _ _ _ Hp Hi); auto.
Qed.
End of_path.
End contract.

(** ** [findMovesInArrayComparison] pairs deleted and added objects *)

Section moves.
Context {V : Type} `{EqDecision V}.
Implicit Types script : list (entry V).

Lemma find_right_spec script v right r :
  find_right script v right = Some r →
  ∃ rr e, right !! r = Some rr ∧ script !! rr = Some e ∧ e_value e = v.
Proof.
  revert r. induction right as [|x right IH]; intros r; simpl; [done|].
  destruct (script !! x) as [e|] eqn:He; [|done]. case_decide as Hv.
  - intros [= <-]. exists x, e. by rewrite Hv.
  - intros (r' & Hr' & ->)%fmap_Some. destruct (IH _ Hr') as (rr & e' & ? & ? & ?).
    by exists rr, e'.
Qed.

(** The references of [left] and [right] are to unpaired objects of opposite
    statuses. *)
Record moves_inv (sl sr : status) script (left right : list nat) : Prop := {
  mi_left : ∀ l, l ∈ left →
    ∃ e, script !! l = Some e ∧ e_status e = sl ∧ e_moved e = None;
  mi_right : ∀ r, r ∈ right →
    ∃ e, script !! r = Some e ∧ e_status e = sr ∧ e_moved e = None;
  mi_left_nodup : NoDup left;
  mi_right_nodup : NoDup right;
  mi_index : ∀ e, e ∈ script → e_status e ≠ Retained → is_Some (e_index e);
  mi_moved_edit : ∀ e, e ∈ script → is_Some (e_moved e) → e_status e ≠ Retained;
  mi_paired : moves_paired script
}.

Lemma moves_inv_left_tail sl sr script l left right :
  moves_inv sl sr script (l :: left) right → moves_inv sl sr script left right.
Proof.
  intros [Hl Hr Hnl Hnr Hi He Hp]. split; try done.
  - intros x Hx. apply Hl. by right.
  - by apply NoDup_cons in Hnl as [_ ?].
Qed.

(** The two assignments to [moved]. *)
Definition pair_up script (l rr : nat) (le re : entry V) : list (entry V) :=
  <[rr := set_moved (e_index le) re]> (<[l := set_moved (e_index re) le]> script).

Lemma pair_up_lookup script l rr le re i e :
  script !! l = Some le → script !! rr = Some re → l ≠ rr →
  pair_up script l rr le re !! i = Some e →
  (i = l ∧ e = set_moved (e_index re) le) ∨
  (i = rr ∧ e = set_moved (e_index le) re) ∨
  (i ≠ l ∧ i ≠ rr ∧ script !! i = Some e).
Proof.
  intros Hl Hr Hne. unfold pair_up.
  assert (l < length script) by by eapply lookup_lt_Some.
  assert (rr < length script) by by eapply lookup_lt_Some.
  destruct (decide (i = rr)) as [->|].
  - rewrite list_lookup_insert_eq by (rewrite length_insert; done).
    intros [= <-]. by right; left.
  - rewrite list_lookup_insert_ne by done.
    destruct (decide (i = l)) as [->|].
    + rewrite list_lookup_insert_eq by done. intros [= <-]. by left.
    + rewrite list_lookup_insert_ne by done. auto.
Qed.

Lemma pair_up_l script l rr le re :
  script !! l = Some le → l ≠ rr →
  pair_up script l rr le re !! l = Some (set_moved (e_index re) le).
Proof.
  intros Hl Hne. unfold pair_up. rewrite list_lookup_insert_ne by done.
  apply list_lookup_insert_eq. by eapply lookup_lt_Some.
Qed.

Lemma pair_up_r script l rr le re :
  script !! rr = Some re →
  pair_up script l rr le re !! rr = Some (set_moved (e_index le) re).
Proof.
  intros Hr. unfold pair_up. apply list_lookup_insert_eq.
  rewrite length_insert. by eapply lookup_lt_Some.
Qed.

Lemma pair_up_other script l rr le re i :
  i ≠ l → i ≠ rr → pair_up script l rr le re !! i = script !! i.
Proof. intros. unfold pair_up. by rewrite !list_lookup_insert_ne. Qed.

Lemma pair_up_same_but_moved script l rr le re :
  script !! l = Some le → script !! rr = Some re → l ≠ rr →
  Forall2 same_but_moved script (pair_up script l rr le re).
Proof.
  intros Hl Hr Hne. apply Forall2_same_length_lookup_2.
  { unfold pair_up. by rewrite !length_insert. }
  intros i e e' He He'.
  destruct (pair_up_lookup _ _ _ _ _ _ _ Hl Hr Hne He') as [[-> ->]|[[-> ->]|(_ & _ & ?)]];
    simplify_eq; done.
Qed.

Lemma elem_of_delete_nodup (l : list nat) r rr x :
  NoDup l → l !! r = Some rr → x ∈ delete r l → x ∈ l ∧ x ≠ rr.
Proof.
  intros Hnd Hr Hx. rewrite delete_take_drop in Hx.
  rewrite <-(take_drop_middle l r rr Hr) in Hnd |- *.
  apply NoDup_app in Hnd as (_ & Hd & Hnd). apply NoDup_cons in Hnd as [Hnin _].
  apply elem_of_app in Hx. rewrite elem_of_app, elem_of_cons. split; [tauto|].
  intros ->. destruct Hx as [Hx|Hx]; [|done]. apply (Hd _ Hx). by left.
Qed.

Lemma pair_up_paired script l rr le re :
  script !! l = Some le → script !! rr = Some re → l ≠ rr →
  e_moved le = None → e_moved re = None → e_value re = e_value le →
  opposite (e_status le) (e_status re) →
  (∀ e, e ∈ script → e_status e ≠ Retained → is_Some (e_index e)) →
  moves_paired script → moves_paired (pair_up script l rr le re).
Proof.
  intros Hle Hre Hne Hm Hm' Hval Hopp Hi Hp e j [i Hei]%list_elem_of_lookup Hj.
  destruct (pair_up_lookup _ _ _ _ _ _ _ Hle Hre Hne Hei)
    as [[-> ->]|[[-> ->]|(Hil & Hir & Hei')]].
  - exists (set_moved (e_index le) re). split_and!; try done.
    eapply list_elem_of_lookup_2. by apply pair_up_r.
  - exists (set_moved (e_index re) le). split_and!; try done.
    + eapply list_elem_of_lookup_2. by apply pair_up_l.
    + unfold opposite in *. simpl. tauto.
  - destruct (Hp e j) as (e' & He' & Hj' & Hm2 & Hv' & Ho);
      [by eapply list_elem_of_lookup_2|done|].
    exists e'. split_and!; try done.
    assert (is_Some (e_index e)) as Hsome.
    { apply Hi; [by eapply list_elem_of_lookup_2|]. by destruct Ho as [[-> _]|[-> _]]. }
    apply list_elem_of_lookup in He' as [i' Hi'].
    apply list_elem_of_lookup. exists i'. rewrite pair_up_other; [done| |];
      intros ->; simplify_eq; rewrite <-Hm2 in Hsome; destruct Hsome; congruence.
Qed.

Lemma pair_up_inv sl sr script l left right r rr le re :
  opposite sl sr →
  moves_inv sl sr script (l :: left) right →
  script !! l = Some le → right !! r = Some rr → script !! rr = Some re →
  e_value re = e_value le →
  moves_inv sl sr (pair_up script l rr le re) left (delete r right).
Proof.
  intros Hopp [Hl Hr Hnl Hnr Hi He Hp] Hle Hrr Hre Hval.
  assert (sl ≠ sr ∧ sl ≠ Retained ∧ sr ≠ Retained) as (Hsne & Hsl & Hsr)
    by (by destruct Hopp as [[-> ->]|[-> ->]]).
  destruct (Hl l) as (e & ? & Hst & Hm); [by left|]. simplify_eq.
  destruct (Hr rr) as (e & ? & Hst' & Hm'); [by eapply list_elem_of_lookup_2|]. simplify_eq.
  assert (Hne : l ≠ rr) by (intros ->; simplify_eq; congruence).
  apply NoDup_cons in Hnl as [Hll Hnl].
  pose proof (pair_up_lookup script l rr le re) as Hlk.
  split.
  - intros x Hx. rewrite pair_up_other; [by apply Hl; right|by intros ->|].
    intros ->. destruct (Hl rr) as (e & ? & ? & ?); [by right|]. simplify_eq.
  - intros x Hx. apply (elem_of_delete_nodup _ _ rr) in Hx as [Hx Hxne]; [|done..].
    destruct (decide (x = l)) as [->|]; [|rewrite pair_up_other by done; by apply Hr].
    destruct (Hr l Hx) as (e & ? & ? & ?). simplify_eq.
  - done.
  - eapply sublist_NoDup; [exact Hnr|]. apply sublist_delete.
  - intros e [i Hei]%list_elem_of_lookup.
    destruct (Hlk _ _ Hle Hre Hne Hei) as [[-> ->]|[[-> ->]|(_ & _ & ?)]]; simpl;
      apply Hi; by eapply list_elem_of_lookup_2.
  - intros e [i Hei]%list_elem_of_lookup.
    destruct (Hlk _ _ Hle Hre Hne Hei) as [[-> ->]|[[-> ->]|(_ & _ & ?)]]; simpl;
      [congruence..|]. apply He. by eapply list_elem_of_lookup_2.
  - by apply pair_up_paired.
Qed.

Lemma find_moves_loop_spec sl sr limit left : ∀ script right failed,
  opposite sl sr →
  moves_inv sl sr script left right →
  Forall2 same_but_moved script (find_moves_loop limit script left right failed) ∧
  moves_paired (find_moves_loop limit script left right failed).
Proof.
  induction left as [|l left IH]; intros script right failed Hopp Hinv; simpl.
  { split; [done|by apply Hinv]. }
  destruct (below_limit limit failed); [|split; [done|by apply Hinv]].
  destruct (script !! l) as [le|] eqn:Hle; [|split; [done|by apply Hinv]].
  destruct (find_right script (e_value le) right) as [r|] eqn:Hr.
  - apply find_right_spec in Hr as (rr & re & Hrr & Hre & Hval). rewrite Hrr, Hre.
    change (<[rr := _]> (<[l := _]> script)) with (pair_up script l rr le re).
    pose proof (pair_up_inv _ _ _ _ _ _ _ _ _ _ Hopp Hinv Hle Hrr Hre Hval) as Hinv'.
    destruct (IH _ _ 0 Hopp Hinv') as [Hs Hp]. split; [|done].
    etrans; [|exact Hs]. apply pair_up_same_but_moved; [done..|].
    intros ->. destruct (mi_left _ _ _ _ _ Hinv rr) as (? & ? & ? & ?); [by left|].
    destruct (mi_right _ _ _ _ _ Hinv rr) as (? & ? & ? & ?);
      [by eapply list_elem_of_lookup_2|].
    simplify_eq. by destruct Hopp as [[-> ?]|[-> ?]].
  - apply IH; [done|]. by eapply moves_inv_left_tail.
Qed.

Lemma findMoves_spec sl sr limit script left right :
  opposite sl sr →
  moves_inv sl sr script left right →
  Forall2 same_but_moved script (findMovesInArrayComparison script left right limit) ∧
  moves_paired (findMovesInArrayComparison script left right limit).
Proof.
  intros Hopp Hinv. unfold findMovesInArrayComparison.
  destruct left, right; try (split; [done|by apply Hinv]).
  by apply (find_moves_loop_spec sl sr).
Qed.

(** The references collected along a path. *)
Lemma elem_of_refs_from st off (ext : list (entry V)) i :
  i ∈ refs_from st off ext ↔ ∃ k e, i = off + k ∧ ext !! k = Some e ∧ e_status e = st.
Proof.
  revert off. induction ext as [|e ext IH]; intros off; simpl.
  { rewrite elem_of_nil. split; [done|]. by intros (? & ? & _ & ? & _). }
  assert (Hrec : i ∈ refs_from st (S off) ext ↔
    ∃ k e', i = off + S k ∧ ext !! k = Some e' ∧ e_status e' = st).
  { rewrite IH. split; intros (k & e' & ? & ?); exists k, e'; split; done || lia. }
  case_decide as Hst; [rewrite elem_of_cons|]; rewrite Hrec.
  - split.
    + intros [->|(k & e' & ? & ?)]; [exists 0, e; split_and!; done || lia|by exists (S k), e'].
    + intros ([|k] & e' & -> & Hk & ?); [left; lia|right; by exists k, e'].
  - split.
    + intros (k & e' & ? & ?). by exists (S k), e'.
    + intros ([|k] & e' & -> & Hk & ?); [by simplify_eq/=|by exists k, e'].
Qed.

Lemma refs_from_NoDup st (ext : list (entry V)) : ∀ off, NoDup (refs_from st off ext).
Proof.
  induction ext as [|e ext IH]; intros off; simpl; [constructor|].
  case_decide; [|done]. constructor; [|done].
  rewrite elem_of_refs_from. intros (k & ? & ? & _). lia.
Qed.

Lemma path_moves_inv (sml big : list V) sparse nsml nbig s b ext :
  opposite nsml nbig →
  path sml big sparse nsml nbig s b ext →
  moves_inv nbig nsml ext (refs_from nbig 0 ext) (refs_from nsml 0 ext).
Proof.
  intros Hopp Hp. pose proof (path_entries _ _ _ _ _ _ _ _ Hp) as Hent.
  split; try apply refs_from_NoDup.
  - intros l (k & e & -> & He & Hst)%elem_of_refs_from. exists e.
    split_and!; try done. by apply Hent; eapply list_elem_of_lookup_2.
  - intros l (k & e & -> & He & Hst)%elem_of_refs_from. exists e.
    split_and!; try done. by apply Hent; eapply list_elem_of_lookup_2.
  - intros e He Hne. destruct (Hent e He) as (_ & [(_ & i & _ & Hi & _)|[(_ & i & _ & Hi & _)|[? _]]]);
      [by rewrite Hi..|done].
  - intros e He [m Hm]. destruct (Hent e He). congruence.
  - intros e j He Hj. destruct (Hent e He). congruence.
Qed.
End moves.

(** ** The script of [compareArrays] *)

Section scripts.
Context {V : Type} `{EqDecision V}.
Implicit Types script : list (entry V).

(** The elements a script says an array has: everything but the objects of
    status [st]. *)
Definition without (st : status) script : list V :=
  e_value <$> List.filter (λ e, negb (bool_decide (e_status e = st))) script.

Lemma without_app st l k : without st (l ++ k) = without st l ++ without st k.
Proof. unfold without. by rewrite List.filter_app, fmap_app. Qed.

Lemma without_one st e : without st [e] = if decide (e_status e = st) then [] else [e_value e].
Proof.
  unfold without. simpl. case_bool_decide; simpl.
  - by rewrite decide_True.
  - by rewrite decide_False.
Qed.

#[export] Instance without_proper st :
  Proper (Forall2 same_but_moved ==> eq) (without st).
Proof.
  intros l k H. induction H as [|e e' l k (Hs & Hv & _) _ IH]; [done|].
  change (e :: l) with ([e] ++ l). change (e' :: k) with ([e'] ++ k).
  rewrite !without_app, IH, !without_one. by rewrite Hs, Hv.
Qed.

#[export] Instance edits_proper : Proper (Forall2 same_but_moved ==> eq) (@edits V).
Proof.
  intros l k H. unfold edits. induction H as [|e e' l k (Hs & _ & _) _ IH]; [done|].
  simpl. assert (is_edit e = is_edit e') as -> by (unfold is_edit; by rewrite Hs).
  destruct (is_edit e'); simpl; congruence.
Qed.

Lemma path_without (sml big : list V) nsml nbig s b ext :
  opposite nsml nbig →
  path sml big false nsml nbig s b ext →
  without nsml (rev ext) = take s sml ∧ without nbig (rev ext) = take b big.
Proof.
  intros Hopp Hp. pose proof (opposite_ne _ _ Hopp) as (? & ? & ?).
  induction Hp as [|s b v ext Hv Hp IH|s b v ext Hv Hp IH|s b v ext Hv Hw Hp IH];
    [done|destruct IH as [IH1 IH2]; simpl rev; rewrite !without_app, !without_one, IH1, IH2; simpl..].
  - rewrite decide_True, decide_False by done.
    rewrite app_nil_r. by rewrite <-(take_S_lookup big).
  - rewrite decide_False, decide_True by done.
    rewrite app_nil_r. by rewrite <-(take_S_lookup sml).
  - rewrite !decide_False by done.
    by rewrite <-(take_S_lookup sml), <-(take_S_lookup big).
Qed.

Lemma elem_of_rev_iff {A} (x : A) l : x ∈ rev l ↔ x ∈ l.
Proof. by rewrite !list_elem_of_In, <-in_rev. Qed.

Lemma reported_rev st script i : reported st (rev script) i = reported st script i.
Proof.
  unfold reported. apply bool_decide_ext. rewrite !elem_of_positions.
  by setoid_rewrite elem_of_rev_iff.
Qed.

Lemma path_describes (sml big : list V) sparse nsml nbig ext old new :
  opposite nsml nbig →
  path sml big sparse nsml nbig (length sml) (length big) ext →
  (nsml = Added ∧ old = sml ∧ new = big ∨ nsml = Deleted ∧ old = big ∧ new = sml) →
  describes old new (rev ext).
Proof.
  intros Hopp Hp Hor. pose proof (opposite_ne _ _ Hopp) as (? & ? & ?).
  pose proof (path_same _ _ _ _ _ Hopp _ _ _ Hp) as Hsame.
  rewrite !firstn_all in Hsame.
  pose proof (path_entries _ _ _ _ _ _ _ _ Hp) as Hent.
  assert (Hnb : nbig = match nsml with Added => Deleted | _ => Added end)
    by (by destruct Hopp as [[-> ->]|[-> ->]]).
  split.
  - rewrite (drop_positions_ext (reported Deleted (rev ext)) (reported Deleted ext)),
      (drop_positions_ext (reported Added (rev ext)) (reported Added ext));
      try (intros; apply reported_rev).
    by destruct Hor as [(-> & -> & ->)|(-> & -> & ->)]; subst nbig.
  - intros e He Hst. rewrite elem_of_rev_iff in He.
    destruct (Hent e He) as (_ & [(Hs & i & ? & ? & ?)|[(Hs & i & ? & ? & ?)|[? ?]]]);
      [| |congruence]; exists i; (split; [done|]);
      destruct Hor as [(-> & -> & ->)|(-> & -> & ->)]; subst nbig; congruence.
  - intros e He Hst. rewrite elem_of_rev_iff in He.
    destruct (Hent e He) as (_ & [(Hs & i & ? & ? & ?)|[(Hs & i & ? & ? & ?)|[? ?]]]);
      [| |congruence]; exists i; (split; [done|]);
      destruct Hor as [(-> & -> & ->)|(-> & -> & ->)]; subst nbig; congruence.
  - apply (path_order _ _ _ _ _ Hopp _ _ _ _ Hp).
    destruct Hor as [(-> & _)|(-> & _)]; auto.
  - apply (path_order _ _ _ _ _ Hopp _ _ _ _ Hp).
    destruct Hor as [(-> & _)|(-> & _)]; auto.
Qed.

Lemma moves_paired_rev script : moves_paired script → moves_paired (rev script).
Proof.
  intros Hp e j He Hj. rewrite elem_of_rev_iff in He. destruct (Hp e j He Hj) as (e' & ? & ?).
  exists e'. by rewrite elem_of_rev_iff.
Qed.

Lemma edits_rev script : edits (rev script) = edits script.
Proof. unfold edits. by rewrite List.filter_rev, length_rev. Qed.

Lemma Forall2_rev_moved script script' :
  Forall2 same_but_moved script script' →
  Forall2 same_but_moved (rev script) (rev script').
Proof.
  induction 1 as [|e e' l l' He _ IH]; simpl; [done|].
  apply Forall2_app; [done|]. by constructor.
Qed.

Lemma compareSmall_walk (sml big : list V) nsml nbig sparse dlm :
  opposite nsml nbig → length sml ≤ length big →
  ∃ ext,
    path sml big sparse nsml nbig (length sml) (length big) ext ∧
    M sml big (length sml) (length big) = Some (edits ext + 1) ∧
    compareSmallArrayToBigArray sml big nsml nbig sparse dlm =
      Some (rev (findMovesInArrayComparison ext (refs_from nbig 0 ext) (refs_from nsml 0 ext)
                   (moves_limit sml dlm))).
Proof.
  intros Hopp Hlen. pose proof (opposite_ne _ _ Hopp) as (? & ? & ?).
  destruct (M_inside sml big (smlIndexMax sml) (bigIndexMax big)) as (v & Hv & _);
    [done|by apply in_band_end|].
  destruct (walk_back_path sml big sparse nsml nbig H H0 H1
    (smlIndexMax sml + bigIndexMax big) _ _ _ (Walk [] [] []) (le_n _) (le_n _) (le_n _) Hv)
    as (ext & Hp & Hed & Heq).
  exists ext. split_and!; [done|by rewrite Hed|].
  unfold compareSmallArrayToBigArray. rewrite Heq. done.
Qed.

Lemma compareSmall_path (sml big : list V) nsml nbig sparse dlm :
  opposite nsml nbig → length sml ≤ length big →
  ∃ ext script,
    path sml big sparse nsml nbig (length sml) (length big) ext ∧
    M sml big (length sml) (length big) = Some (edits ext + 1) ∧
    compareSmallArrayToBigArray sml big nsml nbig sparse dlm = Some script ∧
    Forall2 same_but_moved (rev ext) script ∧ moves_paired script.
Proof.
  intros Hopp Hlen. destruct (compareSmall_walk sml big nsml nbig sparse dlm Hopp Hlen) as (ext & Hp & Hed & Heq).
  destruct (findMoves_spec nbig nsml (moves_limit sml dlm) ext
    (refs_from nbig 0 ext) (refs_from nsml 0 ext)) as [Hsame Hpaired].
  { unfold opposite in *. tauto. }
  { by eapply path_moves_inv. }
  eexists ext, (rev _). split_and!; [done..|by apply Forall2_rev_moved|by apply moves_paired_rev].
Qed.
End scripts.

(** ** The script is as short as the band allows *)

Section optimal.
Context {V : Type} `{EqDecision V}.
Variables (sml big : list V).

(** [banded s b c]: an alignment of the first [s] elements of [sml] with the
    first [b] of [big] that stays inside the compared range, with [c]
    elements left over. *)
Inductive banded : nat → nat → nat → Prop :=
| banded_start : banded 0 0 0
| banded_big s b c : in_band sml big s (S b) → banded s b c → banded s (S b) (S c)
| banded_sml s b c : in_band sml big (S s) b → banded s b c → banded (S s) b (S c)
| banded_both s b c :
    in_band sml big (S s) (S b) → sml !! s = big !! b → banded s b c →
    banded (S s) (S b) c.

Abbreviation M := (M sml big).
Abbreviation smax := (smlIndexMax sml).

Lemma in_band_bounds s b :
  in_band sml big s b ↔ s ≤ S b ∧ b ≤ bigIndexMax big ∧ b ≤ s + compareRange sml big.
Proof. unfold in_band, bigIndexMinForRow, bigIndexMaxForRow. lia. Qed.

(** Neighbouring cells of the band differ by at most one. *)
Definition near (x y : option nat) : Prop :=
  ∀ v w, x = Some v → y = Some w → v ≤ w + 1 ∧ w ≤ v + 1.

Lemma near_sym x y : near x y → near y x.
Proof. intros H v w Hv Hw. destruct (H w v Hw Hv). lia. Qed.

Lemma M_mismatch_values s b v :
  S s ≤ smax → in_band sml big (S s) (S b) → sml !! s ≠ big !! b →
  M (S s) (S b) = Some v →
  (∀ x, M s (S b) = Some x → v ≤ x + 1) ∧ (∀ y, M (S s) b = Some y → v ≤ y + 1) ∧
  ((∃ x, M s (S b) = Some x ∧ v = x + 1) ∨ (∃ y, M (S s) b = Some y ∧ v = y + 1)).
Proof.
  intros Hs Hb Hne Hv. rewrite M_mismatch in Hv by done. simplify_eq.
  pose proof Hb as Hbb. rewrite in_band_bounds in Hbb.
  destruct (M_or_max sml big s (S b) ltac:(lia)) as [[Hx Hx']|(x & Hx & Hx' & ?)],
    (M_or_max sml big (S s) b Hs) as [[Hy Hy']|(y & Hy & Hy' & ?)];
    rewrite Hx', Hy', Hx, Hy; unfold maxDistance in *.
  - destruct (in_band_left_or_up sml big s b Hb) as [Hn|Hw].
    + destruct (M_inside sml big s (S b)) as (? & ? & _); [lia|done|congruence].
    + destruct (M_inside sml big (S s) b) as (? & ? & _); [lia|done|congruence].
  - split_and!; [done|intros ? [= <-]; lia|]. right. exists y. split; [done|lia].
  - split_and!; [intros ? [= <-]; lia|done|]. left. exists x. split; [done|lia].
  - split_and!; [intros ? [= <-]; lia|intros ? [= <-]; lia|].
    destruct (decide (x ≤ y)); [left; exists x|right; exists y]; (split; [done|lia]).
Qed.

(** The two neighbours of the corner [(s+1, b+1)] are near it, given that
    they are near [(s, b)]. *)
Lemma near_corner s b :
  S s ≤ smax → in_band sml big (S s) (S b) →
  near (M s b) (M s (S b)) → near (M s b) (M (S s) b) →
  near (M s (S b)) (M (S s) (S b)) ∧ near (M (S s) b) (M (S s) (S b)).
Proof.
  intros Hs Hb Hh Hv.
  destruct (M_inside sml big s b) as (d & Hd & _);
    [lia|by apply in_band_diag|]. rewrite Hd in Hh, Hv.
  destruct (decide (sml !! s = big !! b)) as [He|Hne].
  { rewrite (M_match sml big) by done. rewrite Hd. by split; apply near_sym. }
  split; intros x v Hx Hcorner;
    destruct (M_mismatch_values _ _ _ Hs Hb Hne Hcorner) as (Hn & Hw & Hcase).
  - pose proof (Hh d x eq_refl Hx) as [? ?]. split; [|by apply Hn].
    destruct Hcase as [(x' & Hx' & ->)|(y & Hy & ->)]; [simplify_eq; lia|].  
    destruct (Hv d y eq_refl Hy). lia.
  - pose proof (Hv d x eq_refl Hx) as [? ?]. split; [|by apply Hw].
    destruct Hcase as [(x' & Hx' & ->)|(y & Hy & ->)]; [|simplify_eq; lia].
    destruct (Hh d x' eq_refl Hx'). lia.
Qed.

Lemma near_neighbours n : ∀ s b, s + b ≤ n →
  (s ≤ smax → near (M s b) (M s (S b))) ∧ (S s ≤ smax → near (M s b) (M (S s) b)).
Proof.
  induction n as [n IH] using lt_wf_ind; intros s b Hn. split; intros Hs.
  - destruct s as [|s].
    { intros v w Hv Hw. pose proof (M_some_in_band _ _ _ _ _ Hv).
      pose proof (M_some_in_band _ _ _ _ _ Hw). rewrite M_s0 in Hv, Hw by done.
      simplify_eq. lia. }
    intros v w Hv Hw. pose proof (M_some_in_band _ _ _ _ _ Hw) as Hb.
    destruct (IH (s + b) ltac:(lia) s b ltac:(lia)) as [Hh Hvt].
    destruct (near_corner s b Hs Hb (Hh ltac:(lia)) (Hvt Hs)) as [_ Hc].
    by apply Hc.
  - destruct b as [|b].
    { intros v w Hv Hw. pose proof (M_some_in_band _ _ _ _ _ Hv).
      pose proof (M_some_in_band _ _ _ _ _ Hw). rewrite M_b0 in Hv, Hw by done.
      simplify_eq. lia. }
    intros v w Hv Hw. pose proof (M_some_in_band _ _ _ _ _ Hw) as Hb.
    destruct (IH (s + b) ltac:(lia) s b ltac:(lia)) as [Hh Hvt].
    destruct (near_corner s b Hs Hb (Hh ltac:(lia)) (Hvt Hs)) as [Hc _].
    by apply Hc.
Qed.

Lemma banded_lower_bound s b c v :
  banded s b c → s ≤ smax → M s b = Some v → v ≤ c + 1.
Proof.
  intros Hb. revert v. induction Hb as [|s b c Hin Hb IH|s b c Hin Hb IH|s b c Hin He Hb IH];
    intros v Hs Hv.
  - rewrite M_s0 in Hv; [by simplify_eq|]. rewrite in_band_bounds. lia.
  - assert (Hprev : in_band sml big s b).
    { clear -Hb Hin. destruct Hb; try done. rewrite in_band_bounds in *. lia. }
    destruct (M_inside sml big s b Hs Hprev) as (w & Hw & _).
    specialize (IH w Hs Hw). destruct (near_neighbours _ s b (le_n _)) as [Hh _].
    destruct (Hh Hs w v Hw Hv). lia.
  - assert (Hprev : in_band sml big s b).
    { clear -Hb Hin. destruct Hb; try done. rewrite in_band_bounds in *. lia. }
    destruct (M_inside sml big s b ltac:(lia) Hprev) as (w & Hw & _).
    specialize (IH w ltac:(lia) Hw). destruct (near_neighbours _ s b (le_n _)) as [_ Hvt].
    destruct (Hvt Hs w v Hw Hv). lia.
  - rewrite (M_match sml big) in Hv by done. apply IH; [lia|done].
Qed.
End optimal.

Lemma banded_refl {V} (l : list V) n : n ≤ length l → banded l l n n 0.
Proof.
  induction n as [|n IH]; intros Hn; constructor; try done.
  - rewrite in_band_bounds. unfold bigIndexMax. lia.
  - apply IH. lia.
Qed.

(** ** Properties of [compareArrays] *)

Section properties.
Context {V : Type} `{EqDecision V}.

Definition shorter (old new : list V) : list V :=
  if length old <? length new then old else new.
Definition longer (old new : list V) : list V :=
  if length old <? length new then new else old.

Lemma compareArrays_path (old new : list V) sparse dlm :
  ∃ nsml nbig ext script,
    opposite nsml nbig ∧
    (nsml = Added ∧ shorter old new = old ∧ longer old new = new ∨
     nsml = Deleted ∧ shorter old new = new ∧ longer old new = old) ∧
    path (shorter old new) (longer old new) sparse nsml nbig
      (length (shorter old new)) (length (longer old new)) ext ∧
    M (shorter old new) (longer old new)
      (length (shorter old new)) (length (longer old new)) = Some (edits ext + 1) ∧
    compareArrays old new sparse dlm = Some script ∧
    Forall2 same_but_moved (rev ext) script ∧ moves_paired script.
Proof.
  unfold compareArrays, shorter, longer. destruct (Nat.ltb_spec (length old) (length new)).
  - destruct (compareSmall_path old new Added Deleted sparse dlm)
      as (ext & script & Hall); [by left|lia|].
    exists Added, Deleted, ext, script. split_and!; try apply Hall; by left.
  - destruct (compareSmall_path new old Deleted Added sparse dlm)
      as (ext & script & Hall); [by right|lia|].
    exists Deleted, Added, ext, script. split_and!; try apply Hall; by right.
Qed.

Lemma compareArrays_describes_moves (old new : list V) sparse dlm :
  ∃ script, compareArrays old new sparse dlm = Some script ∧
    describes old new script ∧ moves_paired script.
Proof.
  destruct (compareArrays_path old new sparse dlm)
    as (nsml & nbig & ext & script & Hopp & Hor & Hp & _ & Heq & Hsame & Hm).
  exists script. split_and!; [done| |done]. rewrite <-Hsame.
  eapply path_describes; [exact Hopp|exact Hp|].
  destruct Hor as [(-> & -> & ->)|(-> & -> & ->)]; [by left|by right].
Qed.

Lemma compareArrays_without (old new : list V) dlm :
  ∃ script, compareArrays old new false dlm = Some script ∧
    without Added script = old ∧ without Deleted script = new ∧ moves_paired script ∧
    describes old new script.
Proof.
  destruct (compareArrays_path old new false dlm)
    as (nsml & nbig & ext & script & Hopp & Hor & Hp & _ & Heq & Hsame & Hm).
  exists script. split; [done|].
  destruct (path_without _ _ _ _ _ _ _ Hopp Hp) as [Hs Hb].
  rewrite !firstn_all in Hs, Hb. rewrite <-!(without_proper _ _ _ Hsame).
  assert (describes old new script) as Hd.
  { rewrite <-Hsame. eapply path_describes; [exact Hopp|exact Hp|].
    destruct Hor as [(-> & -> & ->)|(-> & -> & ->)]; [by left|by right]. }
  destruct Hor as [(-> & Hso & Hlo)|(-> & Hso & Hlo)]; rewrite Hso in *; rewrite Hlo in *.
  - destruct Hopp as [[_ ->]|[? _]]; [|done]. by split_and!.
  - destruct Hopp as [[? _]|[_ ->]]; [done|]. by split_and!.
Qed.
End properties.

(** C7.  [compareArrays] always returns a script, in sparse and in full mode,
    and the script meets the contract of an array difference: dropping the
    deleted positions of the old array and the added positions of the new one
    leaves the same array, every object carries the element at its position,
    positions of each kind are increasing, and [moved] pairs a deleted object
    with the added one of the same value, both ways. *)
Theorem compareArrays_correct {V} `{EqDecision V} (old new : list V) (sparse dontLimitMoves : bool) :
  ∃ script, compareArrays old new sparse dontLimitMoves = Some script ∧
    describes old new script ∧ moves_paired script.
Proof. apply compareArrays_describes_moves. Qed.

(** C8.  The full script is an edit script: without its added objects it
    spells the old array, without its deleted ones the new array. *)
Theorem compareArrays_spells_both {V} `{EqDecision V} (old new : list V) (dontLimitMoves : bool) :
  ∃ script, compareArrays old new false dontLimitMoves = Some script ∧
    without Added script = old ∧ without Deleted script = new.
Proof.
  destruct (compareArrays_without old new dontLimitMoves) as (script & ? & ? & ? & _).
  by exists script.
Qed.

(** C9.  No alignment of the two arrays that stays within the compared range
    leaves fewer elements over than the script reports; in particular two
    equal arrays differ nowhere. *)
Theorem compareArrays_minimal {V} `{EqDecision V} (old new : list V)
    (sparse dontLimitMoves : bool) script c :
  compareArrays old new sparse dontLimitMoves = Some script →
  banded (shorter old new) (longer old new)
    (length (shorter old new)) (length (longer old new)) c →
  edits script ≤ c ∧ (old = new → edits script = 0).
Proof.
  intros Hc Hb.
  destruct (compareArrays_path old new sparse dontLimitMoves)
    as (nsml & nbig & ext & script' & _ & _ & _ & Hv & Heq & Hsame & _).
  rewrite Hc in Heq. simplify_eq.
  rewrite <-(edits_proper _ _ Hsame), edits_rev. split.
  - pose proof (banded_lower_bound _ _ _ _ _ _ Hb (le_n _) Hv). lia.
  - intros <-. assert (shorter old old = old ∧ longer old old = old) as [Hs Hl].
    { unfold shorter, longer. by destruct (_ <? _). }
    rewrite Hs, Hl in Hv.
    pose proof (banded_lower_bound _ _ _ _ _ _ (banded_refl old _ (le_n _)) (le_n _) Hv). lia.
Qed.

Lemma compareArrays_minimal_witness :
  ∃ script, compareArrays [1; 2; 3] [1; 3] true false = Some script ∧ edits script ≤ 1.
Proof.
  eexists. split; [vm_compute; reflexivity|].
  refine (proj1 (compareArrays_minimal [1; 2; 3] [1; 3] true false _ 1 _ _)).
  - vm_compute. reflexivity.
  - simpl. apply banded_both; [by rewrite in_band_bounds; vm_compute; lia|done|].
    apply banded_big; [by rewrite in_band_bounds; vm_compute; lia|].
    apply banded_both; [by rewrite in_band_bounds; vm_compute; lia|done|].
    constructor.
Defined.
