(* ===== verification/KoMoves.v ===== *)
(** * Comparing an array with a permutation of itself

    Without the limit on moves (the option dontLimitMoves) findMovesInArrayComparison
    pairs every deletion of such a script with an addition: nothing is reported as
    new, which [KoForeach] turns into not making a single node. *)
From stdpp Require Import base list.
From Stdlib Require Import Lia.
From S2P Require Import Prelude KoCompare.

Section pairing.
Context {V : Type} `{EqDecision V}.
Implicit Types (script : list (entry V)) (e : entry V) (refs left right : list nat).

(** The values of the objects that references stand for. *)
Definition values_at script refs : list V := omap (λ i, e_value <$> script !! i) refs.

Definition valid script refs : Prop := ∀ i, i ∈ refs → is_Some (script !! i).

Lemma values_at_cons script i refs e :
  script !! i = Some e → values_at script (i :: refs) = e_value e :: values_at script refs.
Proof. intros H. unfold values_at. csimpl. by rewrite H. Qed.

Lemma values_at_app script refs refs' : values_at script (refs ++ refs') = values_at script refs ++ values_at script refs'.
Proof. apply omap_app. Qed.

Lemma values_at_same script script' refs :
  Forall2 same_but_moved script script' → values_at script refs = values_at script' refs.
Proof.
  intros H. unfold values_at. induction refs as [|i refs IH]; csimpl; [done|]. rewrite IH.
  destruct (Forall2_lookup same_but_moved script script') as [Hl _]. specialize (Hl H i).
  destruct Hl as [e e' (_ & Hv & _)|]; simpl; [|done]. by rewrite Hv.
Qed.

Lemma find_right_found script v right :
  valid script right → v ∈ values_at script right → is_Some (find_right script v right).
Proof.
  induction right as [|x right IH]; intros Hr Hv; simpl; [by apply not_elem_of_nil in Hv|].
  destruct (Hr x (list_elem_of_here _ _)) as [e He]. rewrite He.
  rewrite (values_at_cons _ _ _ _ He) in Hv. case_decide as Hne; [done|].
  apply elem_of_cons in Hv as [Hv|Hv]; [done|]. apply fmap_is_Some, IH; [|done].
  intros i Hi. apply Hr. by right.
Qed.

(** Every object that is to be paired is in one of the lists. *)
Definition listed script left right : Prop := ∀ i e,
  script !! i = Some e → e_status e ≠ Retained → e_moved e = None → i ∈ left ∨ i ∈ right.

Definition all_paired script : Prop := ∀ e, e ∈ script → e_status e ≠ Retained → is_Some (e_moved e).

Lemma elem_of_delete_other (l : list nat) r rr i : l !! r = Some rr → i ∈ l → i ≠ rr → i ∈ delete r l.
Proof.
  intros Hr Hi Hne. rewrite delete_take_drop. rewrite <-(take_drop_middle l r rr Hr) in Hi.
  rewrite elem_of_app, elem_of_cons in Hi. rewrite elem_of_app. tauto.
Qed.

Lemma find_moves_loop_all sl sr left : ∀ script right failed,
  opposite sl sr → moves_inv sl sr script left right →
  (∀ e, e ∈ script → e_status e ≠ Retained → is_Some (e_index e)) →
  values_at script left ≡ₚ values_at script right → listed script left right →
  all_paired (find_moves_loop None script left right failed).
Proof.
  induction left as [|l left IH]; intros script right failed Hopp Hinv Hidx Hperm Hlist; simpl.
  - assert (right = []) as ->.
    { destruct right as [|r right]; [done|]. destruct (mi_right _ _ _ _ _ Hinv r) as (e & He & _); [by left|].
      rewrite (values_at_cons _ _ _ _ He) in Hperm. by apply Permutation_nil_l in Hperm. }
    intros e [i Hi]%list_elem_of_lookup Hst. destruct (e_moved e) eqn:Hm; [done|].
    destruct (Hlist i e Hi Hst Hm) as [H|H]; by apply not_elem_of_nil in H.
  - destruct (mi_left _ _ _ _ _ Hinv l) as (le & Hle & Hsl & Hml); [by left|]. rewrite Hle.
    rewrite (values_at_cons _ _ _ _ Hle) in Hperm.
    assert (valid script right) as Hvalid.
    { intros r Hr. destruct (mi_right _ _ _ _ _ Hinv r Hr) as (e & ? & _). by exists e. }
    destruct (find_right_found script (e_value le) right Hvalid) as [r Hr].
    { rewrite <-Hperm. left. }
    rewrite Hr. apply find_right_spec in Hr as (rr & re & Hrr & Hre & Hval). rewrite Hrr, Hre.
    change (<[rr := _]> (<[l := _]> script)) with (pair_up script l rr le re).
    destruct (mi_right _ _ _ _ _ Hinv rr) as (re' & Hre' & Hsr & Hmr); [by eapply list_elem_of_lookup_2|].
    assert (l ≠ rr) as Hne.
    { intros ->. simplify_eq. destruct Hopp as [[? ?]|[? ?]]; congruence. }
    pose proof (pair_up_same_but_moved _ _ _ _ _ Hle Hre Hne) as Hsame.
    apply IH; [done|by apply pair_up_inv| | |].
    + intros e [i Hi]%list_elem_of_lookup.
      destruct (pair_up_lookup _ _ _ _ _ _ _ Hle Hre Hne Hi) as [[-> ->]|[[-> ->]|(_ & _ & Hi')]]; simpl;
        apply Hidx; by eapply list_elem_of_lookup_2.
    + rewrite <-!(values_at_same _ _ _ Hsame). rewrite <-(take_drop_middle _ _ _ Hrr) in Hperm.
      rewrite values_at_app, (values_at_cons _ _ _ _ Hre), <-Permutation_middle, Hval in Hperm.
      apply Permutation_cons_inv in Hperm. by rewrite Hperm, delete_take_drop, values_at_app.
    + intros i e Hi Hst Hm.
      destruct (pair_up_lookup _ _ _ _ _ _ _ Hle Hre Hne Hi) as [[-> ->]|[[-> ->]|(Hil & Hir & Hi')]]; simpl in *.
      * destruct (Hidx re) as [? ?]; [by eapply list_elem_of_lookup_2| |congruence].
        destruct Hopp as [[? ?]|[? ?]]; simplify_eq; congruence.
      * destruct (Hidx le) as [? ?]; [by eapply list_elem_of_lookup_2| |congruence].
        destruct Hopp as [[? ?]|[? ?]]; simplify_eq; congruence.
      * destruct (Hlist i e Hi' Hst Hm) as [H|H].
        -- apply elem_of_cons in H as [->|H]; [done|by left].
        -- right. by eapply elem_of_delete_other.
Qed.

Lemma findMoves_all sl sr script left right :
  opposite sl sr → moves_inv sl sr script left right →
  values_at script left ≡ₚ values_at script right → listed script left right →
  all_paired (findMovesInArrayComparison script left right None).
Proof.
  intros Hopp Hinv Hperm Hlist. unfold findMovesInArrayComparison.
  destruct left as [|l left]; [|destruct right as [|r right]].
  - by apply (find_moves_loop_all sl sr [] script right 0); try done; apply Hinv.
  - destruct (mi_left _ _ _ _ _ Hinv l) as (e & He & _); [by left|].
    rewrite (values_at_cons _ _ _ _ He) in Hperm. by apply Permutation_nil_r in Hperm.
  - by apply (find_moves_loop_all sl sr); try done; apply Hinv.
Qed.

(** ** The values of the objects of one status *)

Definition only (st : status) script : list V := e_value <$> List.filter (λ e, bool_decide (e_status e = st)) script.

Lemma values_at_refs_from st : ∀ script pre,
  values_at (pre ++ script) (refs_from st (length pre) script) = only st script.
Proof.
  induction script as [|e script IH]; intros pre; [done|]. unfold only. simpl.
  specialize (IH (pre ++ [e])). rewrite <-app_assoc, length_app, Nat.add_1_r in IH. simpl in IH.
  case_decide as Hs.
  - rewrite bool_decide_true by done. rewrite (values_at_cons _ _ _ e) by (by apply list_lookup_middle).
    simpl. by rewrite IH.
  - by rewrite bool_decide_false.
Qed.

Lemma without_only a b script :
  opposite a b → without a script ≡ₚ only Retained script ++ only b script.
Proof.
  intros Hopp. unfold without, only. induction script as [|e script IH]; simpl; [done|].
  destruct Hopp as [[-> ->]|[-> ->]]; destruct (e_status e);
    repeat (rewrite bool_decide_true by done || rewrite bool_decide_false by done); simpl;
    rewrite ?IH; try done; by rewrite Permutation_middle.
Qed.

Lemma without_rev a script : without a (rev script) ≡ₚ without a script.
Proof. unfold without. rewrite List.filter_rev. apply fmap_Permutation. symmetry. apply Permutation_rev. Qed.

Lemma all_paired_rev script : all_paired script → all_paired (rev script).
Proof. intros H e He. apply H. by rewrite <-elem_of_rev_iff. Qed.

(** With the option dontLimitMoves, comparing an array with a permutation of it. *)
Lemma compareSmall_permutation (sml big : list V) nsml nbig script :
  opposite nsml nbig → length sml ≤ length big → sml ≡ₚ big →
  compareSmallArrayToBigArray sml big nsml nbig false true = Some script → all_paired script.
Proof.
  intros Hopp Hlen Hperm Heq.
  destruct (compareSmall_walk sml big nsml nbig false true Hopp Hlen) as (ext & Hp & _ & Hs).
  rewrite Heq in Hs. injection Hs as ->. apply all_paired_rev.
  destruct (path_without _ _ _ _ _ _ _ Hopp Hp) as [Hws Hwb]. rewrite !firstn_all in Hws, Hwb.
  apply (findMoves_all nbig nsml).
  - unfold opposite in *. tauto.
  - by eapply path_moves_inv.
  - rewrite !(values_at_refs_from _ ext []).
    apply (Permutation_app_inv_l (only Retained ext)).
    rewrite <-(without_only nsml nbig) by done.
    rewrite <-(without_only nbig nsml) by (unfold opposite in *; tauto).
    by rewrite <-(without_rev nsml), <-(without_rev nbig), Hws, Hwb.
  - intros i e Hi Hst _. rewrite !elem_of_refs_from.
    destruct (e_status e) eqn:Hs; [| |done]; destruct Hopp as [[-> ->]|[-> ->]];
      first [left; exists i, e; split_and!; done || lia|right; exists i, e; split_and!; done || lia].
Qed.

Lemma compareArrays_permutation (old new : list V) script :
  old ≡ₚ new → compareArrays old new false true = Some script → all_paired script.
Proof.
  intros Hperm. unfold compareArrays. pose proof (Permutation_length Hperm).
  destruct (length old <? length new).
  - apply compareSmall_permutation; [by left|lia|done].
  - apply compareSmall_permutation; [by right|lia|done].
Qed.
End pairing.
