(* ===== verification/KoArray.v ===== *)
(** * Knockout: observable arrays and change tracking

    Models knockout-3.4.2.debug.js, lines 1600-1701 (the functions of an
    observable array) and 1713-1861 (the extender [trackArrayChanges]).  An
    array is its contents with the variables of the extender; the notifications
    an operation issues are its output.  Listeners only listen: a callback that
    changes the same array again is outside this model.  The element type is
    abstract, compared with [===]. *)
From stdpp Require Import base gmap list.
From Stdlib Require Import ZArith Lia.
From S2P Require Import Prelude KoCompare.

Local Open Scope js_scope.

Section array.
Context {V : Type} `{EqDecision V}.

(** ** State *)

Record tarray := TArray {
  contents : list V;
  listeners : nat;                          (* subscriptions to arrayChange *)
  trackingChanges : bool;
  cachedDiff : option (list (entry V));
  pendingNotifications : nat;
  previousContents : list V
}.

Inductive notification :=
  | BeforeChange (value : list V)
  | Change (value : list V)
  | ArrayChange (changes : list (entry V)).

Definition set_contents (l : list V) (t : tarray) : tarray :=
  TArray l (listeners t) (trackingChanges t) (cachedDiff t) (pendingNotifications t)
    (previousContents t).

(** ** Tracking *)

(** [trackChanges()] *)
Definition trackChanges (t : tarray) : tarray :=
  if trackingChanges t then t
  else TArray (contents t) (listeners t) true None (pendingNotifications t) (contents t).

(** [subscribe(callback, null, 'arrayChange')]: [beforeSubscriptionAdd] first. *)
Definition subscribe_arrayChange (t : tarray) : tarray :=
  let t1 := trackChanges t in
  TArray (contents t1) (S (listeners t1)) (trackingChanges t1) (cachedDiff t1)
    (pendingNotifications t1) (previousContents t1).

(** Disposing one subscription to [arrayChange]: [afterSubscriptionRemove]. *)
Definition dispose_arrayChange (t : tarray) : tarray :=
  let n := listeners t - 1 in
  TArray (contents t) n (if Nat.eqb n 0 then false else trackingChanges t) (cachedDiff t)
    (pendingNotifications t) (previousContents t).

(** [getChanges(previousContents, currentContents)], [pending] being
    [pendingNotifications] at that time. *)
Definition getChanges (t : tarray) (pending : nat) : option (list (entry V)) :=
  match cachedDiff t with
  | Some diff =>
      if 1 <? pending then compareArrays (previousContents t) (contents t) true false
      else Some diff
  | None => compareArrays (previousContents t) (contents t) true false
  end.

(** [valueHasMutated()]: the change notification, in which the subscription of
    the tracker runs.  [None] if no script is found. *)
Definition valueHasMutated (t : tarray) : option (tarray * list notification) :=
  if trackingChanges t then
    changes ← (if Nat.eqb (listeners t) 0 then Some []
               else getChanges t (S (pendingNotifications t)));
    Some (TArray (contents t) (listeners t) true None 0 (contents t),
          Change (contents t) :: match changes with [] => [] | _ => [ArrayChange changes] end)
  else Some (t, [Change (contents t)]).

(** ** Known operations *)

(** The arguments of [splice]: none, the start, or the start, the number of
    deletions and the items. *)
Inductive splice_args :=
  | Splice0 | Splice1 (start : Z) | Splice2 (start deleteCount : Z) (items : list V).

Inductive native :=
  | Push (args : list V) | Unshift (args : list V) | Pop | Shift
  | Splice (args : splice_args)
  | Reverse
  | Sort (sorted : list V → list V).      (* the native sort with its comparer *)

(** *** The native methods *)

Definition relative_index (start len : Z) : nat :=
  Z.to_nat (if (start <? 0)%Z then Z.max (len + start) 0 else Z.min start len).

Definition native_splice (args : splice_args) (l : list V) : list V :=
  let len := Z.of_nat (length l) in
  match args with
  | Splice0 => l
  | Splice1 start => take (relative_index start len) l
  | Splice2 start deleteCount items =>
      let s := relative_index start len in
      let d := Z.to_nat (Z.min (Z.max deleteCount 0) (len - Z.of_nat s)) in
      take s l ++ items ++ drop (s + d) l
  end.

Definition apply_native (op : native) (l : list V) : list V :=
  match op with
  | Push args => l ++ args
  | Unshift args => args ++ l
  | Pop => take (length l - 1) l
  | Shift => drop 1 l
  | Splice args => native_splice args l
  | Reverse => reverse l
  | Sort sorted => sorted l
  end.

(** *** [cacheDiffForKnownOperation] *)

Definition diff_entry (st : status) (v : V) (i : nat) : entry V := Entry st v (Some i) None.

(** The loop of [push] and [unshift] over the arguments. *)
Fixpoint added_from (offset : nat) (args : list V) : list (entry V) :=
  match args with
  | [] => []
  | v :: args' => diff_entry Added v offset :: added_from (S offset) args'
  end.

(** The loop of [splice]: [n] rounds from [index] on; [diff] with the positions
    of its deletions and additions. *)
Fixpoint splice_loop (raw items : list V) (endDelete endAdd : Z) (n index argsIndex : nat)
    (diff : list (entry V)) (deletions additions : list nat)
    : list (entry V) * list nat * list nat :=
  match n with
  | 0 => (diff, deletions, additions)
  | S n' =>
      let '(diff1, deletions1) :=
        if (Z.of_nat index <? endDelete)%Z then
          match raw !! index with
          | Some v => (diff ++ [diff_entry Deleted v index], deletions ++ [length diff])
          | None => (diff, deletions)
          end
        else (diff, deletions) in
      let '(diff2, additions1) :=
        if (Z.of_nat index <? endAdd)%Z then
          match items !! argsIndex with
          | Some v => (diff1 ++ [diff_entry Added v index], additions ++ [length diff1])
          | None => (diff1, additions)
          end
        else (diff1, additions) in
      splice_loop raw items endDelete endAdd n' (S index) (S argsIndex) diff2 deletions1 additions1
  end.

Definition splice_diff (raw : list V) (args : splice_args) : list (entry V) :=
  let len := Z.of_nat (length raw) in
  let bounds :=
    match args with
    | Splice0 => None                        (* startIndex is NaN: no round *)
    | Splice1 start => Some (start, len, [], 1%Z)
    | Splice2 start count items => Some (start, count, items, (2 + Z.of_nat (length items))%Z)
    end in
  match bounds with
  | None => []
  | Some (start, count, items, argsLength) =>
      let startIndex := Z.min (Z.max 0 (if (start <? 0)%Z then len + start else start)) len in
      let endDelete :=
        if (argsLength =? 1)%Z then len else Z.min (startIndex + count) len in
      let endAdd := (startIndex + argsLength - 2)%Z in
      let n := Z.to_nat (Z.max endDelete endAdd - startIndex) in
      let '(diff, deletions, additions) :=
        splice_loop raw items endDelete endAdd n (Z.to_nat startIndex) 0 [] [] [] in
      findMovesInArrayComparison diff deletions additions None
  end.

Definition known_diff (raw : list V) (op : native) : option (list (entry V)) :=
  match op with
  | Push args => Some (added_from (length raw) args)
  | Unshift args => Some (added_from 0 args)
  | Pop =>
      Some (match raw !! (length raw - 1) with
            | Some v => [diff_entry Deleted v (length raw - 1)]
            | None => []
            end)
  | Shift => Some (match raw !! 0 with Some v => [diff_entry Deleted v 0] | None => [] end)
  | Splice args => Some (splice_diff raw args)
  | Reverse | Sort _ => None
  end.

Definition cacheDiffForKnownOperation (op : native) (t : tarray) : tarray :=
  if negb (trackingChanges t) || negb (Nat.eqb (pendingNotifications t) 0) then t
  else match known_diff (contents t) op with
       | None => t
       | Some diff =>
           TArray (contents t) (listeners t) (trackingChanges t) (Some diff)
             (pendingNotifications t) (previousContents t)
       end.

(** [observableArray[methodName](..)] *)
Definition native_method (op : native) (t : tarray) : option (tarray * list notification) :=
  let t1 := cacheDiffForKnownOperation op t in
  '(t2, ns) ← valueHasMutated (set_contents (apply_native op (contents t1)) t1);
  Some (t2, BeforeChange (contents t) :: ns).

(** ** The functions of an observable array *)

(** The loop of [remove]: the array and the removed values.  A value given
    instead of a predicate is the predicate [=== value].  [fuel] bounds the
    rounds; the number of elements is enough. *)
Fixpoint remove_loop (fuel : nat) (predicate : V → bool) (l : list V) (i : nat)
    (removed : list V) : option (list V * list V) :=
  match l !! i with
  | None => Some (l, removed)
  | Some v =>
      match fuel with
      | 0 => None
      | S fuel' =>
          if predicate v then remove_loop fuel' predicate (delete i l) i (removed ++ [v])
          else remove_loop fuel' predicate l (S i) removed
      end
  end.

Definition remove (predicate : V → bool) (t : tarray)
    : option (tarray * list notification * list V) :=
  '(l, removed) ← remove_loop (length (contents t)) predicate (contents t) 0 [];
  match removed with
  | [] => Some (t, [], [])
  | _ =>
      '(t', ns) ← valueHasMutated (set_contents l t);
      Some (t', BeforeChange (contents t) :: ns, removed)
  end.

(** [removeAll()] and [removeAll(arrayOfValues)]; a null argument, which removes
    nothing, is [Some []]. *)
Definition removeAll (arrayOfValues : option (list V)) (t : tarray)
    : option (tarray * list notification * list V) :=
  match arrayOfValues with
  | None =>
      '(t', ns) ← valueHasMutated (set_contents [] t);
      Some (t', BeforeChange (contents t) :: ns, contents t)
  | Some values => remove (λ v, v ∈? values) t
  end.

Fixpoint arrayIndexOf (l : list V) (item : V) : option nat :=
  match l with
  | [] => None
  | v :: l' => if decide (v = item) then Some 0 else S <$> arrayIndexOf l' item
  end.

Definition replace (oldItem newItem : V) (t : tarray) : option (tarray * list notification) :=
  match arrayIndexOf (contents t) oldItem with
  | Some index =>
      '(t', ns) ← valueHasMutated (set_contents (<[index := newItem]> (contents t)) t);
      Some (t', BeforeChange (contents t) :: ns)
  | None => Some (t, [])
  end.

(** [observableArray(newArray)]: another array is always different. *)
Definition write_array (l : list V) (t : tarray) : option (tarray * list notification) :=
  '(t', ns) ← valueHasMutated (set_contents l t);
  Some (t', BeforeChange (contents t) :: ns).

Inductive array_op :=
  | ANative (op : native) | ARemove (predicate : V → bool) | ARemoveAll (values : option (list V))
  | AReplace (oldItem newItem : V) | AWrite (l : list V)
  | ASubscribe | ADispose.

Definition do_array_op (op : array_op) (t : tarray) : option (tarray * list notification) :=
  match op with
  | ANative op => native_method op t
  | ARemove P => '(t', ns, _) ← remove P t; Some (t', ns)
  | ARemoveAll vs => '(t', ns, _) ← removeAll vs t; Some (t', ns)
  | AReplace a b => replace a b t
  | AWrite l => write_array l t
  | ASubscribe => Some (subscribe_arrayChange t, [])
  | ADispose => Some (dispose_arrayChange t, [])
  end.
End array.

Arguments tarray : clear implicits.
Arguments notification : clear implicits.
Arguments native : clear implicits.
Arguments array_op : clear implicits.
