(* ===== verification/KoArrayFacts.v ===== *)
(** * Knockout: the changes an observable array reports

    The cached differences of [push], [unshift], [pop], [shift] and [splice]
    meet the contract of an array difference (KoCompare.v), so what the
    [arrayChange] listeners receive is right whichever way it was obtained. *)
From stdpp Require Import base gmap list.
From Stdlib Require Import ZArith Lia.
From S2P Require Import Prelude KoCompare KoArray.

Section facts.
Context {V : Type} `{EqDecision V}.
Implicit Types (old l raw items : list V) (script : list (entry V)).

(** ** A contiguous range replaced *)

Lemma increasing_seq i s n : i ≤ s → increasing_from i (seq s n).
Proof.
  revert i s. induction n as [|n IH]; intros i s Hi; simpl; [done|]. split; [done|].
  by apply IH.
Qed.

Lemma drop_range l P s d :
  (∀ j, j < length l → P j = bool_decide (s ≤ j < s + d)) → s + d ≤ length l →
  drop_positions P 0 l = take s l ++ drop (s + d) l.
Proof.
  intros HP Hlen. rewrite <-(take_drop s l) at 1. rewrite drop_positions_app.
  rewrite drop_positions_none.
  2:{ intros j Hj. rewrite length_take in Hj. rewrite HP by lia.
      apply bool_decide_eq_false. lia. }
  f_equal. rewrite <-(take_drop d (drop s l)), drop_positions_app, drop_drop.
  rewrite drop_positions_all, drop_positions_none; [done| |].
  - intros j Hj. rewrite !length_take, ?length_drop in Hj. rewrite HP by lia.
    apply bool_decide_eq_false. lia.
  - intros j Hj. rewrite !length_take, ?length_drop in Hj. rewrite HP by lia.
    apply bool_decide_eq_true. lia.
Qed.

Lemma reported_range st script s n :
  positions st script = seq s n → ∀ j, reported st script j = bool_decide (s ≤ j < s + n).
Proof.
  intros Hp j. unfold reported. rewrite Hp. apply bool_decide_ext. rewrite elem_of_seq. done.
Qed.

(** [items] in place of the [d] elements from [s] on. *)
Definition spliced l s d items : list V := take s l ++ items ++ drop (s + d) l.

(** A script of just those deletions and additions describes the change. *)
Lemma range_describes old s d items script :
  s + d ≤ length old →
  positions Deleted script = seq s d → positions Added script = seq s (length items) →
  (∀ e, e ∈ script → e_status e = Deleted →
     ∃ i, e_index e = Some i ∧ old !! i = Some (e_value e)) →
  (∀ e, e ∈ script → e_status e = Added →
     ∃ k, e_index e = Some (s + k) ∧ items !! k = Some (e_value e)) →
  describes old (spliced old s d items) script.
Proof.
  intros Hlen Hd Ha Hde Had. unfold spliced.
  assert (length (take s old) = s) as Hs by (rewrite length_take; lia).
  split; try done.
  - rewrite (drop_range old _ s d) by (intros; by apply reported_range || done).
    rewrite (drop_range (take s old ++ items ++ drop (s + d) old) _ s (length items)).
    + rewrite take_app_length' by lia. f_equal.
      rewrite app_assoc. symmetry. apply drop_app_length'. rewrite length_app. lia.
    + intros. by apply reported_range.
    + rewrite !length_app. lia.
  - intros e He Hst. destruct (Had e He Hst) as (k & Hi & Hk). exists (s + k). split; [done|].
    rewrite lookup_app_r by lia. rewrite Hs. replace (s + k - s) with k by lia.
    rewrite lookup_app_l; [done|]. by eapply lookup_lt_Some.
  - rewrite Hd. apply increasing_seq. lia.
  - rewrite Ha. apply increasing_seq. lia.
Qed.

Lemma no_moves_paired script : (∀ e, e ∈ script → e_moved e = None) → moves_paired script.
Proof. intros H e j He Hj. by rewrite H in Hj. Qed.

(** ** [push] and [unshift] *)

Lemma positions_added_from off items :
  positions Added (added_from off items) = seq off (length items) ∧
  positions Deleted (added_from off items) = [].
Proof.
  revert off. induction items as [|v items IH]; intros off; [done|].
  destruct (IH (S off)) as [Ha Hd]. unfold positions in *. csimpl. by rewrite Ha, Hd.
Qed.

Lemma elem_of_added_from off items e :
  e ∈ added_from off items →
  e_status e = Added ∧ e_moved e = None ∧
  ∃ k, e_index e = Some (off + k) ∧ items !! k = Some (e_value e).
Proof.
  revert off. induction items as [|v items IH]; intros off; simpl.
  { intros He. by apply elem_of_nil in He. }
  intros [->|He]%elem_of_cons.
  - split_and!; [done|done|]. exists 0. split; [simpl; f_equal; lia|done].
  - destruct (IH _ He) as (? & ? & k & Hi & Hk). split_and!; [done|done|].
    exists (S k). split; [rewrite Hi; f_equal; lia|done].
Qed.

Lemma added_from_describes old s items :
  s ≤ length old →
  describes old (spliced old s 0 items) (added_from s items) ∧
  moves_paired (added_from s items).
Proof.
  intros Hs. destruct (positions_added_from s items) as [Ha Hd]. split.
  - apply range_describes; [lia|done|done| |].
    + intros e He Hst. apply elem_of_added_from in He as [? _]. congruence.
    + intros e He _. by apply elem_of_added_from in He as (_ & _ & ?).
  - apply no_moves_paired. intros e He. by apply elem_of_added_from in He as (_ & ? & _).
Qed.

(** ** [pop] and [shift] *)

Lemma deleted_describes old i v :
  old !! i = Some v →
  describes old (spliced old i 1 []) [diff_entry Deleted v i] ∧
  moves_paired [diff_entry Deleted v i].
Proof.
  intros Hi. split.
  - apply range_describes; [apply lookup_lt_Some in Hi; lia|done|done| |].
    + intros e ->%list_elem_of_singleton _. by exists i.
    + by intros e ->%list_elem_of_singleton ?.
  - apply no_moves_paired. by intros e ->%list_elem_of_singleton.
Qed.

Lemma describes_nothing old : describes old old [] ∧ moves_paired (V:=V) [].
Proof.
  split; [|by intros e j He; apply elem_of_nil in He].
  split; try done; intros e He; by apply elem_of_nil in He.
Qed.

(** ** [splice] *)

(** The objects of [n] rounds from round [k] on: [d] deletions and the
    additions of [items], from position [s]. *)
Fixpoint splice_ext raw items (s d n k : nat) : list (entry V) :=
  match n with
  | 0 => []
  | S n' =>
      (if k <? d then
         match raw !! (s + k) with Some v => [diff_entry Deleted v (s + k)] | None => [] end
       else []) ++
      (if k <? length items then
         match items !! k with Some v => [diff_entry Added v (s + k)] | None => [] end
       else []) ++ splice_ext raw items s d n' (S k)
  end.

Lemma refs_from_app st off (l k : list (entry V)) :
  refs_from st off (l ++ k) = refs_from st off l ++ refs_from st (off + length l) k.
Proof.
  revert off. induction l as [|e l IH]; intros off; simpl; [by rewrite Nat.add_0_r|].
  rewrite IH. replace (S off + length l) with (off + S (length l)) by lia. by case_decide.
Qed.

Lemma splice_loop_ext raw items s d eD eA n k diff dels adds :
  (∀ j, (Z.of_nat (s + j) <? eD)%Z = (j <? d)) →
  (∀ j, (Z.of_nat (s + j) <? eA)%Z = (j <? length items)) →
  let ext := splice_ext raw items s d n k in
  splice_loop raw items eD eA n (s + k) k diff dels adds =
    (diff ++ ext, dels ++ refs_from Deleted (length diff) ext,
     adds ++ refs_from Added (length diff) ext).
Proof.
  intros HD HA. revert k diff dels adds. induction n as [|n IH]; intros k diff dels adds; simpl.
  { by rewrite !app_nil_r. }
  rewrite HD, HA. replace (S (s + k)) with (s + S k) by lia.
  destruct (k <? d), (k <? length items); try destruct (raw !! (s + k)) as [v|];
    try destruct (items !! k) as [w|]; rewrite IH; simpl; rewrite ?length_app; simpl;
    rewrite <-?app_assoc; simpl;
    rewrite ?Nat.add_1_r, ?(Nat.add_succ_r _ 0), ?Nat.add_0_r; repeat f_equal; lia.
Qed.

Lemma positions_diff_entry st st' (v : V) i script :
  positions st (diff_entry st' v i :: script) =
    if decide (st' = st) then i :: positions st script else positions st script.
Proof. unfold positions. csimpl. by case_decide. Qed.

Lemma positions_splice_ext raw items s d n k :
  s + d ≤ length raw →
  positions Deleted (splice_ext raw items s d n k) = seq (s + k) (Nat.min n (d - k)) ∧
  positions Added (splice_ext raw items s d n k) =
    seq (s + k) (Nat.min n (length items - k)).
Proof.
  intros Hlen. revert k. induction n as [|n IH]; intros k; [done|].
  destruct (IH (S k)) as [HD HA]. cbn [splice_ext]. rewrite !positions_app, HD, HA.
  replace (s + S k) with (S (s + k)) by lia.
  destruct (Nat.ltb_spec k d) as [Hd|Hd], (Nat.ltb_spec k (length items)) as [Ha|Ha].
  - destruct (lookup_lt_is_Some_2 raw (s + k)) as [v ->]; [lia|].
    destruct (lookup_lt_is_Some_2 items k) as [w ->]; [lia|]. split.
    + replace (Nat.min (S n) (d - k)) with (S (Nat.min n (d - S k))) by lia. done.
    + replace (Nat.min (S n) (length items - k)) with (S (Nat.min n (length items - S k))) by lia.
      done.
  - destruct (lookup_lt_is_Some_2 raw (s + k)) as [v ->]; [lia|]. split.
    + replace (Nat.min (S n) (d - k)) with (S (Nat.min n (d - S k))) by lia. done.
    + replace (Nat.min (S n) (length items - k)) with 0 by lia.
      replace (Nat.min n (length items - S k)) with 0 by lia. done.
  - destruct (lookup_lt_is_Some_2 items k) as [w ->]; [lia|]. split.
    + replace (Nat.min (S n) (d - k)) with 0 by lia.
      replace (Nat.min n (d - S k)) with 0 by lia. done.
    + replace (Nat.min (S n) (length items - k)) with (S (Nat.min n (length items - S k))) by lia.
      done.
  - split.
    + replace (Nat.min (S n) (d - k)) with 0 by lia.
      replace (Nat.min n (d - S k)) with 0 by lia. done.
    + replace (Nat.min (S n) (length items - k)) with 0 by lia.
      replace (Nat.min n (length items - S k)) with 0 by lia. done.
Qed.

Lemma elem_of_splice_ext raw items s d n k e :
  e ∈ splice_ext raw items s d n k →
  e_moved e = None ∧ e_status e ≠ Retained ∧ is_Some (e_index e) ∧
  (e_status e = Deleted → ∃ i, e_index e = Some i ∧ raw !! i = Some (e_value e)) ∧
  (e_status e = Added → ∃ j, e_index e = Some (s + j) ∧ items !! j = Some (e_value e)).
Proof.
  revert k. induction n as [|n IH]; intros k; simpl.
  { intros He. by apply elem_of_nil in He. }
  intros [He|[He|He]%elem_of_app]%elem_of_app; [| |by eapply IH].
  - destruct (k <? d); [|by apply elem_of_nil in He].
    destruct (raw !! (s + k)) eqn:Er; [|by apply elem_of_nil in He].
    apply list_elem_of_singleton in He as ->. split_and!; try done. by exists (s + k).
  - destruct (k <? length items); [|by apply elem_of_nil in He].
    destruct (items !! k) eqn:Er; [|by apply elem_of_nil in He].
    apply list_elem_of_singleton in He as ->. split_and!; try done. by exists k.
Qed.

Lemma splice_ext_moves raw items s d n k :
  let ext := splice_ext raw items s d n k in
  moves_inv Deleted Added ext (refs_from Deleted 0 ext) (refs_from Added 0 ext).
Proof.
  intros ext.
  assert (∀ e, e ∈ ext → e_moved e = None ∧ e_status e ≠ Retained ∧ is_Some (e_index e)) as Hext.
  { intros e He. apply elem_of_splice_ext in He as (? & ? & ? & _). done. }
  split; try apply refs_from_NoDup.
  - intros l (j & e & -> & He & Hst)%elem_of_refs_from. exists e. split_and!; try done.
    by apply Hext; eapply list_elem_of_lookup_2.
  - intros l (j & e & -> & He & Hst)%elem_of_refs_from. exists e. split_and!; try done.
    by apply Hext; eapply list_elem_of_lookup_2.
  - intros e He _. by apply Hext.
  - intros e He [m Hm]. destruct (Hext e He). congruence.
  - intros e j He Hj. destruct (Hext e He). congruence.
Qed.

(** The rounds of [splice], all of them, describe its change. *)
Lemma splice_ext_describes raw items s d n :
  s + d ≤ length raw → d ≤ n → length items ≤ n →
  let diff := findMovesInArrayComparison (splice_ext raw items s d n 0)
    (refs_from Deleted 0 (splice_ext raw items s d n 0))
    (refs_from Added 0 (splice_ext raw items s d n 0)) None in
  describes raw (spliced raw s d items) diff ∧ moves_paired diff.
Proof.
  intros Hlen Hd Ha diff.
  destruct (findMoves_spec Deleted Added None _ _ _ (or_intror (conj eq_refl eq_refl))
    (splice_ext_moves raw items s d n 0)) as [Hsame Hm].
  subst diff. split; [|done]. rewrite <-Hsame.
  destruct (positions_splice_ext raw items s d n 0 Hlen) as [HD HA].
  apply range_describes; [done| | | |].
  - rewrite HD. f_equal; lia.
  - rewrite HA. f_equal; lia.
  - intros e He. by apply elem_of_splice_ext in He as (_ & _ & _ & ? & _).
  - intros e He. by apply elem_of_splice_ext in He as (_ & _ & _ & _ & ?).
Qed.

Lemma splice_diff_describes raw args :
  describes raw (native_splice args raw) (splice_diff raw args) ∧
  moves_paired (splice_diff raw args).
Proof.
  unfold splice_diff, native_splice.
  set (len := Z.of_nat (length raw)).
  destruct args as [|start|start count items].
  - apply describes_nothing.
  - set (s := relative_index start len).
    assert (Z.of_nat s = Z.min (Z.max 0 (if (start <? 0)%Z then len + start else start)) len
            ∧ s ≤ length raw) as [Hs Hsl].
    { subst s. unfold relative_index. destruct (Z.ltb_spec start 0); lia. }
    rewrite <-Hs, Nat2Z.id. change (1 =? 1)%Z with true. cbv iota.
    match goal with |- context [splice_loop raw [] ?eD ?eA ?n s 0 _ _ _] =>
      pose proof (splice_loop_ext raw [] s (length raw - s) eD eA n 0 [] [] []) as E end.
    rewrite Nat.add_0_r in E. rewrite E; cbn [length].
    + cbn [app]. replace (take s raw) with (spliced raw s (length raw - s) []).
      * apply splice_ext_describes; simpl; lia.
      * unfold spliced. rewrite drop_ge by lia. by rewrite !app_nil_r.
    + intros j. destruct (Nat.ltb_spec j (length raw - s)), (Z.ltb_spec (Z.of_nat (s + j)) len); lia.
    + intros j. destruct (Nat.ltb_spec j 0), (Z.ltb_spec (Z.of_nat (s + j)) (Z.of_nat s + 1 - 2)); lia.
  - set (s := relative_index start len).
    set (d := Z.to_nat (Z.min (Z.max count 0) (len - Z.of_nat s))).
    assert (Z.of_nat s = Z.min (Z.max 0 (if (start <? 0)%Z then len + start else start)) len
            ∧ s ≤ length raw) as [Hs Hsl].
    { subst s. unfold relative_index. destruct (Z.ltb_spec start 0); lia. }
    rewrite <-Hs, Nat2Z.id.
    replace (2 + Z.of_nat (length items) =? 1)%Z with false by (symmetry; apply Z.eqb_neq; lia).
    match goal with |- context [splice_loop raw items ?eD ?eA ?n s 0 _ _ _] =>
      pose proof (splice_loop_ext raw items s d eD eA n 0 [] [] []) as E end.
    rewrite Nat.add_0_r in E. rewrite E.
    + cbn [app]. apply splice_ext_describes; lia.
    + intros j. destruct (Nat.ltb_spec j d),
        (Z.ltb_spec (Z.of_nat (s + j)) (Z.min (Z.of_nat s + count) len)); lia.
    + intros j. destruct (Nat.ltb_spec j (length items)),
        (Z.ltb_spec (Z.of_nat (s + j)) (Z.of_nat s + (2 + Z.of_nat (length items)) - 2)); lia.
Qed.

(** ** The other operations *)

Lemma known_diff_describes raw op diff :
  known_diff raw op = Some diff →
  describes raw (apply_native op raw) diff ∧ moves_paired diff.
Proof.
  destruct op as [args|args| | |args| |f]; simpl; intros [= <-].
  - replace (raw ++ args) with (spliced raw (length raw) 0 args).
    + by apply added_from_describes.
    + unfold spliced. by rewrite firstn_all, Nat.add_0_r, drop_all, app_nil_r.
  - replace (args ++ raw) with (spliced raw 0 0 args) by done.
    apply added_from_describes. lia.
  - destruct (raw !! (length raw - 1)) as [v|] eqn:E.
    + replace (take (length raw - 1) raw) with (spliced raw (length raw - 1) 1 []).
      * by apply deleted_describes.
      * unfold spliced. rewrite drop_ge by lia. by rewrite !app_nil_r.
    + apply lookup_ge_None in E. destruct raw; [apply describes_nothing|simpl in E; lia].
  - destruct raw as [|v raw]; [apply describes_nothing|].
    replace (drop 1 (v :: raw)) with (spliced (v :: raw) 0 1 []) by done.
    by apply deleted_describes.
  - apply splice_diff_describes.
Qed.

Lemma remove_loop_spec fuel (P : V → bool) pre rest removed :
  length rest ≤ fuel →
  remove_loop fuel P (pre ++ rest) (length pre) removed =
    Some (pre ++ List.filter (λ v, negb (P v)) rest, removed ++ List.filter P rest).
Proof.
  revert pre rest removed. induction fuel as [|fuel IH]; intros pre rest removed Hf.
  - destruct rest; [|simpl in Hf; lia]. simpl. rewrite lookup_ge_None_2 by (rewrite app_nil_r; lia).
    by rewrite !app_nil_r.
  - destruct rest as [|v rest].
    { simpl. rewrite lookup_ge_None_2 by (rewrite app_nil_r; lia). by rewrite !app_nil_r. }
    simpl in *. rewrite list_lookup_middle by done. destruct (P v); simpl.
    + rewrite delete_middle, IH by lia. by rewrite <-app_assoc.
    + replace (pre ++ v :: rest) with ((pre ++ [v]) ++ rest) by (by rewrite <-app_assoc).
      replace (S (length pre)) with (length (pre ++ [v])) by (rewrite length_app; simpl; lia).
      rewrite IH by lia. by rewrite <-app_assoc.
Qed.

(** ** The invariant between operations *)

Record quiescent (t : tarray V) : Prop := {
  qu_pending : pendingNotifications t = 0;
  qu_cached : cachedDiff t = None;
  qu_tracking : trackingChanges t = negb (Nat.eqb (listeners t) 0);
  qu_previous : trackingChanges t = true → previousContents t = contents t
}.

(** The differences an operation reports. *)
Definition changes_of (ns : list (notification V)) : list (list (entry V)) :=
  omap (λ n, match n with ArrayChange c => Some c | _ => None end) ns.

(** What the listeners to [arrayChange] are told of a change from [old] to
    [new]: one correct difference, or nothing if nothing changed. *)
Definition reports (old new : list V) (ns : list (notification V)) : Prop :=
  match changes_of ns with
  | [] => old = new
  | [script] => describes old new script ∧ moves_paired script ∧ script ≠ []
  | _ => False
  end.

Lemma describes_empty_eq old new : describes old new [] → old = new.
Proof.
  intros [Hsame _ _ _ _]. by rewrite !drop_positions_none in Hsame.
Qed.

(** The notification of a change from [old], with or without a cached
    difference. *)
Lemma valueHasMutated_reports old t :
  pendingNotifications t = 0 → trackingChanges t = negb (Nat.eqb (listeners t) 0) →
  (trackingChanges t = true → previousContents t = old) →
  (trackingChanges t = false → cachedDiff t = None) →
  (∀ diff, cachedDiff t = Some diff → describes old (contents t) diff ∧ moves_paired diff) →
  ∃ t' ns, valueHasMutated t = Some (t', ns) ∧ quiescent t' ∧
    contents t' = contents t ∧ listeners t' = listeners t ∧
    (0 < listeners t → reports old (contents t) ns) ∧ (listeners t = 0 → changes_of ns = []).
Proof.
  intros Hp Ht Hprev Hnc Hdiff. unfold valueHasMutated.
  destruct (trackingChanges t) eqn:Et.
  - symmetry in Ht. apply negb_true_iff in Ht. rewrite Ht. apply Nat.eqb_neq in Ht as Hl.
    assert (∃ script, getChanges t (S (pendingNotifications t)) = Some script ∧
      describes old (contents t) script ∧ moves_paired script) as (script & -> & Hd & Hm).
    { unfold getChanges. rewrite Hp, Hprev by done. destruct (cachedDiff t) as [diff|].
      - exists diff. split; [done|]. by apply Hdiff.
      - apply compareArrays_describes_moves. }
    cbn [mbind option_bind]. eexists _, _. split; [done|]. split_and!; try done.
    + split; simpl; try done. by rewrite Ht.
    + intros _. unfold reports. destruct script as [|e script]; [|done].
      by apply describes_empty_eq.
  - eexists _, _. split; [done|]. symmetry in Ht. apply negb_false_iff, Nat.eqb_eq in Ht.
    split_and!; try done; [|lia]. split; auto; [by rewrite Et, Ht|congruence].
Qed.

Lemma set_contents_reports l t :
  quiescent t →
  ∃ t' ns, valueHasMutated (set_contents l t) = Some (t', ns) ∧ quiescent t' ∧
    contents t' = l ∧ listeners t' = listeners t ∧
    (0 < listeners t → reports (contents t) l ns) ∧ (listeners t = 0 → changes_of ns = []).
Proof.
  intros [Hp Hc Ht Hprev].
  destruct (valueHasMutated_reports (contents t) (set_contents l t)) as (t' & ns & H); try done.
  - intros diff Hd. simpl in Hd. congruence.
  - by exists t', ns.
Qed.

Lemma reports_before old new v ns :
  reports old new (BeforeChange v :: ns) ↔ reports old new ns.
Proof. done. Qed.

Lemma native_method_reports op t :
  quiescent t →
  ∃ t' ns, native_method op t = Some (t', ns) ∧ quiescent t' ∧
    contents t' = apply_native op (contents t) ∧ listeners t' = listeners t ∧
    (0 < listeners t → reports (contents t) (contents t') ns) ∧
    (listeners t = 0 → changes_of ns = []).
Proof.
  intros Hq. pose proof Hq as [Hp Hc Ht Hprev]. unfold native_method, cacheDiffForKnownOperation.
  rewrite Hp. cbn [Nat.eqb negb]. rewrite orb_false_r.
  assert (∀ c, (c = None ∨ trackingChanges t = true ∧ c = known_diff (contents t) op) →
    ∃ t' ns, valueHasMutated (TArray (apply_native op (contents t)) (listeners t)
        (trackingChanges t) c 0 (previousContents t)) = Some (t', ns) ∧ quiescent t' ∧
      contents t' = apply_native op (contents t) ∧ listeners t' = listeners t ∧
      (0 < listeners t → reports (contents t) (contents t') ns) ∧
      (listeners t = 0 → changes_of ns = [])) as Hgo.
  { intros c Hcase.
    destruct (valueHasMutated_reports (contents t)
      (TArray (apply_native op (contents t)) (listeners t) (trackingChanges t) c 0
         (previousContents t))) as (t' & ns & E & Hq' & Hct & Hl & Hr & Hn); try done; simpl.
    - destruct Hcase as [->|[-> _]]; done.
    - intros diff ->. destruct Hcase as [?|[_ Hk]]; [done|]. by apply known_diff_describes.
    - exists t', ns. split; [done|]. rewrite Hct. done. }
  destruct (trackingChanges t) eqn:Et; cbn [negb].
  - destruct (known_diff (contents t) op) as [diff|] eqn:Ek.
    + destruct (Hgo (Some diff)) as (t' & ns & E & H); [by right|].
      unfold set_contents. cbn [listeners trackingChanges cachedDiff pendingNotifications
        previousContents contents]. rewrite E. by eexists _, _.
    + destruct (Hgo None) as (t' & ns & E & H); [by left|].
      unfold set_contents. rewrite Et, Hc, Hp, E. by eexists _, _.
  - destruct (Hgo None) as (t' & ns & E & H); [by left|].
    unfold set_contents. rewrite Et, Hc, Hp, E. by eexists _, _.
Qed.

(** ** Every operation *)

(** The contents after an operation. *)
Definition contents_after (op : array_op V) (l : list V) : list V :=
  match op with
  | ANative op => apply_native op l
  | ARemove P => List.filter (λ v, negb (P v)) l
  | ARemoveAll None => []
  | ARemoveAll (Some vs) => List.filter (λ v, negb (bool_decide (v ∈ vs))) l
  | AReplace a b => match arrayIndexOf l a with Some i => <[i := b]> l | None => l end
  | AWrite l' => l'
  | ASubscribe | ADispose => l
  end.

(** [remove] takes out the elements that satisfy the predicate and returns
    them, in order. *)
Lemma remove_spec P t :
  quiescent t →
  ∃ t' ns, remove P t = Some (t', ns, List.filter P (contents t)) ∧ quiescent t' ∧
    contents t' = List.filter (λ v, negb (P v)) (contents t) ∧ listeners t' = listeners t ∧
    (0 < listeners t → reports (contents t) (contents t') ns) ∧
    (listeners t = 0 → changes_of ns = []).
Proof.
  intros Hq. unfold remove.
  pose proof (remove_loop_spec (length (contents t)) P [] (contents t) [] (le_n _)) as Hloop.
  simpl in Hloop. rewrite Hloop. cbn [mbind option_bind].
  destruct (List.filter P (contents t)) as [|v vs] eqn:Ef.
  - exists t, []. assert (List.filter (λ v, negb (P v)) (contents t) = contents t) as Heq.
    { clear Hq Hloop. revert Ef. induction (contents t) as [|w l IH]; simpl; [done|].
      destruct (P w); [done|]. simpl. intros Ef. by rewrite IH. }
    by rewrite Heq.
  - destruct (set_contents_reports (List.filter (λ v, negb (P v)) (contents t)) t Hq)
      as (t' & ns & -> & Hq' & Hc & Hl & Hr & Hn).
    eexists _, _. split; [done|]. rewrite Hc. done.
Qed.

Lemma do_array_op_spec op t :
  quiescent t → (op = ADispose → 0 < listeners t) →
  ∃ t' ns, do_array_op op t = Some (t', ns) ∧ quiescent t' ∧
    contents t' = contents_after op (contents t) ∧
    (0 < listeners t → reports (contents t) (contents t') ns) ∧
    (listeners t = 0 → changes_of ns = []).
Proof.
  intros Hq Hdis. destruct op as [op|P|[vs|]|a b|l| |]; simpl.
  - destruct (native_method_reports op t Hq) as (t' & ns & E & ? & ? & _ & ? & ?).
    by exists t', ns.
  - destruct (remove_spec P t Hq) as (t' & ns & -> & ? & ? & _ & ? & ?). by eexists _, _.
  - unfold removeAll.
    destruct (remove_spec (λ v, bool_decide (v ∈ vs)) t Hq) as (t' & ns & -> & ? & ? & _ & ? & ?).
    by eexists _, _.
  - unfold removeAll. destruct (set_contents_reports [] t Hq) as (t' & ns & -> & ? & Hc & _ & ? & ?).
    eexists _, _. split; [done|]. by rewrite Hc.
  - unfold replace. destruct (arrayIndexOf (contents t) a) as [i|].
    + destruct (set_contents_reports (<[i:=b]> (contents t)) t Hq)
        as (t' & ns & -> & ? & Hc & _ & ? & ?). eexists _, _. split; [done|]. by rewrite Hc.
    + exists t, []. done.
  - unfold write_array. destruct (set_contents_reports l t Hq) as (t' & ns & -> & ? & Hc & _ & ? & ?).
    eexists _, _. split; [done|]. by rewrite Hc.
  - eexists _, _. split; [done|]. destruct Hq as [Hp Hc Ht Hprev].
    unfold subscribe_arrayChange, trackChanges. destruct (trackingChanges t) eqn:Et.
    + split_and!; try done. split; simpl; [done|done|by rewrite Et|by intros _; apply Hprev].
    + split_and!; try done.
  - eexists _, _. split; [done|]. destruct Hq as [Hp Hc Ht Hprev].
    unfold dispose_arrayChange. split_and!; try done.
    assert (trackingChanges t = true) as Et.
    { rewrite Ht. specialize (Hdis eq_refl). apply negb_true_iff, Nat.eqb_neq. lia. }
    split; simpl; [done|done| |by intros _; apply Hprev].
    by destruct (Nat.eqb (listeners t - 1) 0).
Qed.
End facts.

(** The array of the witnesses: four numbers, one listener. *)
Definition demo_array : tarray nat := subscribe_arrayChange (TArray [1; 2; 3; 4] 0 false None 0 []).

Lemma demo_array_quiescent : quiescent demo_array.
Proof. by split. Qed.

(** C11. Every operation on an observable array that has [arrayChange]
    listeners changes the contents as the native operation does and tells the
    listeners exactly one difference, which meets the contract of an array
    difference from the old contents to the new ones with its moves paired, or
    nothing when nothing changed; and the tracker is ready for the next
    operation.  This holds for the differences cached for [push], [unshift],
    [pop], [shift] and [splice] as for the compared ones. *)
Theorem array_changes_reported {V} `{EqDecision V} (op : array_op V) (t : tarray V) :
  quiescent t → 0 < listeners t →
  ∃ t' ns, do_array_op op t = Some (t', ns) ∧ quiescent t' ∧
    contents t' = contents_after op (contents t) ∧
    reports (contents t) (contents t') ns.
Proof.
  intros Hq Hl. destruct (do_array_op_spec op t Hq) as (t' & ns & E & ? & ? & Hr & _); [done|].
  exists t', ns. auto.
Qed.

Lemma array_changes_reported_witness :
  ∃ t' ns, do_array_op (ANative (Splice (Splice2 1 2 [3; 9]))) demo_array = Some (t', ns) ∧
    contents t' = [1; 3; 9; 4] ∧ reports [1; 2; 3; 4] (contents t') ns.
Proof.
  destruct (array_changes_reported (ANative (Splice (Splice2 1 2 [3; 9]))) demo_array
    demo_array_quiescent (le_n 1)) as (t' & ns & E & _ & Hc & Hr).
  exists t', ns. split; [exact E|]. split; [|exact Hr]. rewrite Hc. by vm_compute.
Defined.

(** [remove] takes out exactly the elements that satisfy the predicate,
    returns them in order, and notifies nobody when there are none. *)
Theorem remove_partitions {V} `{EqDecision V} (P : V → bool) (t : tarray V) :
  quiescent t →
  ∃ t' ns, remove P t = Some (t', ns, List.filter P (contents t)) ∧
    contents t' = List.filter (λ v, negb (P v)) (contents t) ∧
    (List.filter P (contents t) = [] → t' = t ∧ ns = []).
Proof.
  intros Hq. destruct (remove_spec P t Hq) as (t' & ns & E & _ & Hc & _).
  exists t', ns. split_and!; [done|done|]. intros Hnone. revert E. unfold remove.
  pose proof (remove_loop_spec (length (contents t)) P [] (contents t) [] (le_n _)) as Hloop.
  simpl in Hloop. rewrite Hloop. cbn [mbind option_bind].
  rewrite Hnone. by intros [= <- <-].
Qed.

Lemma remove_partitions_witness :
  ∃ t' ns, remove Nat.even demo_array = Some (t', ns, [2; 4]) ∧ contents t' = [1; 3].
Proof.
  destruct (remove_partitions Nat.even demo_array demo_array_quiescent) as (t' & ns & E & Hc & _).
  exists t', ns. split; [exact E|exact Hc].
Defined.
