(* ===== verification/KoTasks.v ===== *)
(** * Knockout: the task queue

    Models knockout-3.4.2.debug.js, lines 1035-1137 ([ko.tasks]).  A task is a
    name; what it does, namely schedule, cancel and [runEarly], and whether it
    throws at its end, is the page's code: [body] and [throws].  The scheduler
    is counted: [schedulerCalls] is the number of calls of [scheduledProcess]
    handed to it. *)
From stdpp Require Import base list sorting.
From Stdlib Require Import ZArith Lia.
From S2P Require Import Prelude.

Inductive action := ASchedule (t : nat) | ACancel (handle : Z) | ARunEarly.

(** An entry of the queue is a task and the handle that [schedule] returned for it, by
    which this call of [schedule] is known in the records: [scheduled], [ran] and
    [cancelled] are the calls of [schedule], the runs and the entries made null, and
    [deferred] the deferred errors, each newest first. *)
Inductive deferred_error := TaskError (t : nat) | TooMuchRecursion (groups : nat).

Record tasks := Tasks {
  taskQueue : list (option (nat * nat));        (* None: cancelled (null) *)
  nextHandle : nat;
  nextIndexToProcess : nat;
  schedulerCalls : nat;
  scheduled : list (nat * nat);
  ran : list (nat * nat);
  cancelled : list (nat * nat);
  deferred : list deferred_error
}.

Definition initial_tasks : tasks := Tasks [] 1 0 0 [] [] [] [].

Definition taskQueueLength (q : tasks) : nat := length (taskQueue q).

Definition schedule (t : nat) (q : tasks) : tasks * nat :=
  (Tasks (taskQueue q ++ [Some (nextHandle q, t)]) (S (nextHandle q)) (nextIndexToProcess q)
     (if Nat.eqb (taskQueueLength q) 0 then S (schedulerCalls q) else schedulerCalls q)
     ((nextHandle q, t) :: scheduled q) (ran q) (cancelled q) (deferred q),
   nextHandle q).

(** [handle - (nextHandle - taskQueueLength)] *)
Definition queue_index (handle : Z) (q : tasks) : Z :=
  handle - (Z.of_nat (nextHandle q) - Z.of_nat (taskQueueLength q)).

Definition cancel (handle : Z) (q : tasks) : tasks :=
  let index := queue_index handle q in
  if ((Z.of_nat (nextIndexToProcess q) <=? index) &&
      (index <? Z.of_nat (taskQueueLength q)))%Z then
    Tasks (<[Z.to_nat index := None]> (taskQueue q)) (nextHandle q) (nextIndexToProcess q)
      (schedulerCalls q) (scheduled q) (ran q)
      (match taskQueue q !! Z.to_nat index with Some (Some e) => e :: cancelled q | _ => cancelled q end)
      (deferred q)
  else q.

(** [nextIndexToProcess = taskQueueLength = taskQueue.length = 0] *)
Definition reset_queue (q : tasks) : tasks :=
  Tasks [] (nextHandle q) 0 (schedulerCalls q) (scheduled q) (ran q) (cancelled q) (deferred q).

Definition at_index (i : nat) (q : tasks) : tasks :=
  Tasks (taskQueue q) (nextHandle q) i (schedulerCalls q) (scheduled q) (ran q) (cancelled q) (deferred q).

Definition defer_error (e : deferred_error) (q : tasks) : tasks :=
  Tasks (taskQueue q) (nextHandle q) (nextIndexToProcess q) (schedulerCalls q) (scheduled q) (ran q)
    (cancelled q) (e :: deferred q).

Definition record_run (e : nat * nat) (q : tasks) : tasks :=
  Tasks (taskQueue q) (nextHandle q) (nextIndexToProcess q) (schedulerCalls q) (scheduled q)
    (e :: ran q) (cancelled q) (deferred q).

Definition max_groups : nat := 5000.

Section process.
Variable body : nat → list action.
Variable throws : nat → bool.

(** The actions of a task, [run_early] being [processTasks]. *)
Fixpoint run_actions (run_early : tasks → option tasks) (l : list action) (q : tasks)
    : option tasks :=
  match l with
  | [] => Some q
  | ASchedule t :: l' => run_actions run_early l' (fst (schedule t q))
  | ACancel h :: l' => run_actions run_early l' (cancel h q)
  | ARunEarly :: l' => q' ← run_early q; run_actions run_early l' q'
  end.

(** The loop of [processTasks]; [fuel] bounds its rounds and those of the
    loops nested in it. *)
Fixpoint process_loop (fuel mark countMarks : nat) (q : tasks) : option tasks :=
  if nextIndexToProcess q <? taskQueueLength q then
    match fuel with
    | 0 => None
    | S fuel' =>
        let i := nextIndexToProcess q in
        let q1 := at_index (S i) q in
        match taskQueue q !! i with
        | Some (Some e) =>
            let over := mark <? S i in
            if over && (max_groups <=? S countMarks) then
              Some (defer_error (TooMuchRecursion (S countMarks))
                      (at_index (taskQueueLength q1) q1))
            else
              let mark' := if over then taskQueueLength q1 else mark in
              let countMarks' := if over then S countMarks else countMarks in
              q2 ← run_actions
                     (λ q, if Nat.eqb (taskQueueLength q) 0 then Some q
                           else process_loop fuel' (taskQueueLength q) 0 q)
                     (body (snd e)) (record_run e q1);
              let q3 := if throws (snd e) then defer_error (TaskError (snd e)) q2 else q2 in
              process_loop fuel' mark' countMarks' q3
        | _ => process_loop fuel' mark countMarks q1
        end
    end
  else Some q.

Definition processTasks (fuel : nat) (q : tasks) : option tasks :=
  if Nat.eqb (taskQueueLength q) 0 then Some q
  else process_loop fuel (taskQueueLength q) 0 q.

Definition scheduledProcess (fuel : nat) (q : tasks) : option tasks :=
  reset_queue <$> processTasks fuel q.

(** What happens to the queue from outside. *)
Inductive task_op := OSchedule (t : nat) | OCancel (handle : Z) | ORunEarly | OScheduled.

Definition do_task_op (fuel : nat) (o : task_op) (q : tasks) : option tasks :=
  match o with
  | OSchedule t => Some (fst (schedule t q))
  | OCancel h => Some (cancel h q)
  | ORunEarly => processTasks fuel q
  | OScheduled => scheduledProcess fuel q
  end.

Fixpoint task_history (fuel : nat) (ops : list task_op) (q : tasks) : option tasks :=
  match ops with
  | [] => Some q
  | o :: ops' => q' ← do_task_op fuel o q; task_history fuel ops' q'
  end.

(** ** Invariant: tasks run in the order of the calls of [schedule], each at most once *)

(** The entries not looked at yet, and no entry was cancelled or skipped. *)
Definition waiting (q : tasks) : list (nat * nat) := omap id (drop (nextIndexToProcess q) (taskQueue q)).
Definition too_much (e : deferred_error) : bool := match e with TooMuchRecursion _ => true | TaskError _ => false end.
Definition lossless (q : tasks) : Prop := cancelled q = [] ∧ Forall (λ e, too_much e = false) (deferred q).

Record ordered (q : tasks) : Prop := {
  or_index : nextIndexToProcess q ≤ taskQueueLength q;
  or_handles : StronglySorted (λ a b, fst b < fst a) (scheduled q) ∧ Forall (λ e, fst e < nextHandle q) (scheduled q);
  or_sublist : rev (waiting q) ++ ran q `sublist_of` scheduled q;
  or_all : lossless q → rev (waiting q) ++ ran q = scheduled q
}.

Lemma ordered_initial : ordered initial_tasks.
Proof. split; [done|split; constructor|done|done]. Qed.

(** Operations that leave the queue and the records of calls and runs. *)
Lemma ordered_same q q' :
  ordered q → nextIndexToProcess q' ≤ taskQueueLength q' → nextHandle q' = nextHandle q → scheduled q' = scheduled q →
  rev (waiting q') ++ ran q' = rev (waiting q) ++ ran q → (lossless q' → lossless q) → ordered q'.
Proof. intros [H1 H2 H3 H4] Hi Eh Es Ew Hl. split; rewrite ?Eh, ?Es, ?Ew; auto. Qed.

Lemma waiting_schedule t q :
  nextIndexToProcess q ≤ taskQueueLength q → waiting (fst (schedule t q)) = waiting q ++ [(nextHandle q, t)].
Proof. intros Hi. unfold waiting, schedule, taskQueueLength in *. cbn. rewrite drop_app_le by done. by rewrite omap_app. Qed.

Lemma ordered_schedule t q : ordered q → ordered (fst (schedule t q)).
Proof.
  intros [H1 [H2 H2'] H3 H4]. split; rewrite ?waiting_schedule, ?rev_app_distr by done.
  - unfold taskQueueLength in *. cbn. rewrite length_app. cbn. lia.
  - cbn. split; constructor; [done|done|cbn; lia|]. eapply Forall_impl; [exact H2'|]. cbn. lia.
  - cbn. by apply sublist_skip.
  - intros Hl. cbn. by rewrite H4.
Qed.

Lemma cancel_length h q : taskQueueLength (cancel h q) = taskQueueLength q.
Proof.
  unfold cancel, taskQueueLength. case_match; simpl; [|done]. by rewrite length_insert.
Qed.

Lemma cancel_same h q :
  nextHandle (cancel h q) = nextHandle q ∧
  nextIndexToProcess (cancel h q) = nextIndexToProcess q ∧ ran (cancel h q) = ran q ∧ scheduled (cancel h q) = scheduled q.
Proof. unfold cancel. by case_match. Qed.

Lemma omap_insert_None (l : list (option (nat * nat))) j : omap id (<[j:=None]> l) `sublist_of` omap id l.
Proof.
  revert j. induction l as [|[e|] l IH]; intros [|j]; cbn; try done; [by apply sublist_cons|by apply sublist_skip].
Qed.

Lemma sublist_rev {A} (l k : list A) : l `sublist_of` k → rev l `sublist_of` rev k.
Proof.
  induction 1 as [|x l k _ IH|x l k _ IH]; cbn; [done|by apply sublist_app|by apply sublist_inserts_r].
Qed.

Lemma waiting_cancel h q :
  waiting (cancel h q) `sublist_of` waiting q ∧ (cancelled (cancel h q) = [] → waiting (cancel h q) = waiting q ∧ cancelled q = []).
Proof.
  unfold cancel. set (j := Z.to_nat (queue_index h q)).
  destruct (_ && _)%Z eqn:E; [|done]. apply andb_true_iff in E as [E1%Z.leb_le E2%Z.ltb_lt].
  unfold waiting; cbn. rewrite drop_insert_ge by (unfold j; lia). split; [apply omap_insert_None|].
  destruct (taskQueue q !! j) as [[e|]|] eqn:Ej; [done| |].
  - intros Hc. split; [|done]. f_equal. apply list_insert_id. rewrite lookup_drop. rewrite <- Ej. f_equal. unfold j. lia.
  - apply lookup_ge_None in Ej. unfold taskQueueLength in E2. unfold j in Ej. lia.
Qed.

Lemma ordered_cancel h q : ordered q → ordered (cancel h q).
Proof.
  intros [H1 H2 H3 H4]. destruct (cancel_same h q) as (En & Ei & Er & Es), (waiting_cancel h q) as [Hw Hc].
  split; rewrite ?cancel_length, ?En, ?Ei, ?Er, ?Es; [done|done| |].
  - etrans; [|exact H3]. apply sublist_app; [|done]. by apply sublist_rev.
  - intros [Ec Hd]. destruct (Hc Ec) as [-> Ec']. apply H4. split; [done|]. revert Hd. unfold cancel. by case_match.
Qed.

Lemma ordered_defer t q : ordered q → ordered (defer_error (TaskError t) q).
Proof. intros H. apply (ordered_same q); [done|apply H|done|done|done|]. by intros [? [_ ?]%Forall_cons]. Qed.

(** The rest of the queue is skipped. *)
Lemma ordered_skip n q : ordered q → ordered (defer_error (TooMuchRecursion n) (at_index (taskQueueLength q) q)).
Proof.
  intros [H1 H2 H3 H4]. assert (Hw : waiting (defer_error (TooMuchRecursion n) (at_index (taskQueueLength q) q)) = []).
  { unfold waiting. cbn. unfold taskQueueLength. by rewrite drop_all. }
  split; rewrite ?Hw; [done|done| |].
  - etrans; [|exact H3]. apply sublist_inserts_l. done.
  - by intros [_ [? _]%Forall_cons].
Qed.

(** Taking the next entry. *)
Lemma waiting_next q x :
  taskQueue q !! nextIndexToProcess q = Some x →
  waiting q = option_list x ++ waiting (at_index (S (nextIndexToProcess q)) q).
Proof. intros Hx. unfold waiting. cbn. rewrite (drop_S _ _ _ Hx). by destruct x. Qed.

Lemma ordered_null q :
  ordered q → taskQueue q !! nextIndexToProcess q = Some None → ordered (at_index (S (nextIndexToProcess q)) q).
Proof.
  intros H Hx. apply (ordered_same q); [done| |done|done| |done].
  - apply lookup_lt_Some in Hx. done.
  - by rewrite (waiting_next q _ Hx).
Qed.

Lemma ordered_record e q :
  ordered q → taskQueue q !! nextIndexToProcess q = Some (Some e) →
  ordered (record_run e (at_index (S (nextIndexToProcess q)) q)).
Proof.
  intros H Hx. apply (ordered_same q); [done| |done|done| |done].
  - apply lookup_lt_Some in Hx. done.
  - rewrite (waiting_next q _ Hx). cbn. by rewrite <- app_assoc.
Qed.

Lemma ordered_actions run l q q' :
  (∀ q q', ordered q → run q = Some q' → ordered q') →
  ordered q → run_actions run l q = Some q' → ordered q'.
Proof.
  intros Hrun. revert q. induction l as [|a l IH]; intros q Hq; simpl; [by intros [= <-]|].
  destruct a as [t|h|].
  - apply IH. by apply ordered_schedule.
  - apply IH. by apply ordered_cancel.
  - intros E. apply bind_Some in E as (q1 & E1 & E). eapply IH; [|exact E]. by eapply Hrun.
Qed.

Lemma ordered_loop fuel mark cm q q' :
  ordered q → process_loop fuel mark cm q = Some q' → ordered q' ∧ waiting q' = [].
Proof.
  revert mark cm q q'. induction fuel as [|fuel IH]; intros mark cm q q' Hq; simpl;
    destruct (Nat.ltb_spec (nextIndexToProcess q) (taskQueueLength q)) as [Hlt|Hge];
    try done; try (intros [= <-]; split; [done|]; unfold waiting; by rewrite drop_ge).
  destruct (taskQueue q !! nextIndexToProcess q) as [[e|]|] eqn:Hx.
  - destruct (_ && _).
    + intros [= <-]. split; [by apply (ordered_skip _ q)|]. unfold waiting, taskQueueLength. simpl. by rewrite drop_all.
    + intros E. apply bind_Some in E as (q2 & E2 & E). eapply IH; [|exact E].
      assert (ordered q2) as Hq2.
      { eapply ordered_actions; [|by apply ordered_record|exact E2].
        intros p p' Hp. simpl. destruct (Nat.eqb _ _); [by intros [= <-]|]. intros Ep. by eapply IH. }
      destruct (throws (snd e)); [by apply ordered_defer|done].
  - apply IH. by apply ordered_null.
  - apply lookup_ge_None in Hx. unfold taskQueueLength in Hlt. lia.
Qed.

Lemma ordered_process fuel q q' : ordered q → processTasks fuel q = Some q' → ordered q' ∧ waiting q' = [].
Proof.
  intros Hq. unfold processTasks. destruct (Nat.eqb_spec (taskQueueLength q) 0) as [Hl|_].
  - intros [= <-]. split; [done|]. unfold waiting. apply nil_length_inv in Hl. rewrite Hl. by rewrite drop_nil.
  - by apply ordered_loop.
Qed.

Lemma ordered_reset q : ordered q → waiting q = [] → ordered (reset_queue q).
Proof. intros H Hw. by apply (ordered_same q); [done|cbn; lia|done|done|rewrite Hw|]. Qed.

Lemma ordered_op fuel o q q' : ordered q → do_task_op fuel o q = Some q' → ordered q'.
Proof.
  intros Hq. destruct o; simpl.
  - intros [= <-]. by apply (ordered_schedule t q).
  - intros [= <-]. by apply ordered_cancel.
  - intros E. by eapply ordered_process.
  - intros (q1 & E & ->)%fmap_Some. apply (ordered_process fuel q) in E as [H1 Hw]; [|done]. by apply ordered_reset.
Qed.

Lemma ordered_history fuel ops q q' : ordered q → task_history fuel ops q = Some q' → ordered q'.
Proof.
  revert q. induction ops as [|o ops IH]; intros q Hq; simpl; [by intros [= <-]|].
  intros E. apply bind_Some in E as (q1 & E1 & E). eapply IH; [|exact E]. by eapply ordered_op.
Qed.
End process.

(** ** The loop ends *)

Section ends.
Variable body : nat → list action.
Variable throws : nat → bool.
(** No task runs the queue itself. *)
Hypothesis no_run_early : ∀ t, ARunEarly ∉ body t.

Lemma actions_return l q :
  ARunEarly ∉ l →
  ∃ q', (∀ run, run_actions run l q = Some q') ∧
    nextIndexToProcess q' = nextIndexToProcess q ∧ taskQueueLength q ≤ taskQueueLength q'.
Proof.
  revert q. induction l as [|a l IH]; intros q Hl; simpl; [by exists q|].
  apply not_elem_of_cons in Hl as [Ha Hl]. destruct a as [t|h|]; [| |done].
  - destruct (IH (fst (schedule t q)) Hl) as (q' & E & Ei & Hlen). exists q'.
    split_and!; [done|done|]. revert Hlen. unfold taskQueueLength; simpl. rewrite length_app. simpl. lia.
  - destruct (IH (cancel h q) Hl) as (q' & E & Ei & Hlen). exists q'.
    rewrite cancel_length in Hlen. destruct (cancel_same h q) as (_ & Ec & _).
    split_and!; [done|congruence|done].
Qed.

(** One round of the loop. *)
Lemma loop_step fuel mark cm q :
  nextIndexToProcess q < taskQueueLength q →
  let i := nextIndexToProcess q in
  let q1 := at_index (S i) q in
  process_loop body throws (S fuel) mark cm q =
    match taskQueue q !! i with
    | Some (Some e) =>
        if (mark <? S i) && (max_groups <=? S cm) then
          Some (defer_error (TooMuchRecursion (S cm)) (at_index (taskQueueLength q1) q1))
        else
          q2 ← run_actions
                 (λ q, if Nat.eqb (taskQueueLength q) 0 then Some q
                       else process_loop body throws fuel (taskQueueLength q) 0 q)
                 (body (snd e)) (record_run e q1);
          process_loop body throws fuel (if mark <? S i then taskQueueLength q1 else mark)
            (if mark <? S i then S cm else cm)
            (if throws (snd e) then defer_error (TaskError (snd e)) q2 else q2)
    | _ => process_loop body throws fuel mark cm q1
    end.
Proof. intros Hlt. cbn [process_loop]. by rewrite (proj2 (Nat.ltb_lt _ _) Hlt). Qed.

(** The rounds left are measured by the groups left, then the entries up to
    the mark, then the entries. *)
Lemma loop_returns g : ∀ r l mark cm q,
  max_groups ≤ cm + g → mark - nextIndexToProcess q = r →
  taskQueueLength q - nextIndexToProcess q = l →
  nextIndexToProcess q ≤ taskQueueLength q →
  ∃ fuel q', ∀ more, process_loop body throws (fuel + more) mark cm q = Some q'.
Proof.
  induction g as [g IHg] using lt_wf_ind. induction r as [r IHr] using lt_wf_ind.
  induction l as [l IHl] using lt_wf_ind. intros mark cm q Hg Hr Hl Hi.
  destruct (Nat.ltb_spec (nextIndexToProcess q) (taskQueueLength q)) as [Hlt|Hge].
  2:{ exists 0, q. intros [|more]; simpl; by rewrite (proj2 (Nat.ltb_ge _ _) Hge). }
  pose proof (λ fuel, loop_step fuel mark cm q Hlt) as Hstep. cbv zeta in Hstep.
  set (i := nextIndexToProcess q) in *. set (q1 := at_index (S i) q) in *.
  assert (taskQueueLength q1 = taskQueueLength q) as Hl1 by done.
  assert (nextIndexToProcess q1 = S i) as Hi1 by done.
  assert (∃ fuel q', ∀ more, process_loop body throws (fuel + more) mark cm q1 = Some q') as (fs & qs & Hskip).
  { destruct (decide (i < mark)) as [Hm|Hm].
    - eapply (IHr (mark - S i)); [lia|exact Hg|lia|reflexivity|lia].
    - eapply (IHl (taskQueueLength q - S i)); [lia|exact Hg|lia|lia|lia]. }
  destruct (taskQueue q !! i) as [[e|]|].
  2-3: exists (S fs), qs; intros more; by rewrite Nat.add_succ_l, Hstep.
  destruct ((mark <? S i) && (max_groups <=? S cm)) eqn:Eover.
  { exists 1. eexists. intros more. by rewrite Nat.add_succ_l, Hstep. }
  destruct (actions_return (body (snd e)) (record_run e q1) (no_run_early (snd e)))
    as (q2 & Erun & Ei2 & Hlen2).
  set (q3 := if throws (snd e) then defer_error (TaskError (snd e)) q2 else q2).
  assert (nextIndexToProcess q3 = S i ∧ taskQueueLength q ≤ taskQueueLength q3) as [Hi3 Hl3].
  { subst q3. by destruct (throws (snd e)). }
  assert (∃ fuel q', ∀ more, process_loop body throws (fuel + more)
    (if mark <? S i then taskQueueLength q1 else mark) (if mark <? S i then S cm else cm) q3
    = Some q') as (f3 & q' & E3).
  { destruct (Nat.ltb_spec mark (S i)) as [Hm|Hm].
    - apply andb_false_iff in Eover as [?|Ecm]; [done|]. apply Nat.leb_gt in Ecm.
      eapply (IHg (g - 1)); [lia|lia|reflexivity|reflexivity|lia].
    - eapply (IHr (mark - S i)); [lia|exact Hg|lia|reflexivity|lia]. }
  exists (S f3), q'. intros more. rewrite Nat.add_succ_l, Hstep, Erun. exact (E3 more).
Qed.
End ends.

(** ** Witness data: task 0 schedules task 1 and throws; task 2 schedules
    itself again. *)
Definition demo_body (t : nat) : list action :=
  match t with 0 => [ASchedule 1] | 2 => [ASchedule 2] | _ => [] end.
Definition demo_throws (t : nat) : bool := Nat.eqb t 0.

(** C16. In every history that returns, whatever is scheduled, cancelled, run early or run
    by the scheduler, also from inside tasks, the tasks that ran are, in this order, some
    of those that calls of [schedule] were given, each call counting once; and when no
    entry was cancelled and none skipped after 5000 groups, they are all of them but the
    last ones, which wait in the queue in their order. *)
Theorem tasks_run_in_order body throws fuel ops q :
  task_history body throws fuel ops initial_tasks = Some q →
  NoDup (fst <$> scheduled q) ∧ ran q `sublist_of` scheduled q ∧
  (cancelled q = [] → (∀ n, TooMuchRecursion n ∉ deferred q) → scheduled q = rev (waiting q) ++ ran q).
Proof.
  intros E. destruct (ordered_history _ _ _ _ _ _ ordered_initial E) as [_ [Hs _] Hr Ha]. split; [|split].
  - clear -Hs. induction Hs as [|[h t] l Hs IH Hl]; cbn; constructor; [|done].
    intros ([h' t'] & -> & Hin)%list_elem_of_fmap. rewrite Forall_forall in Hl. specialize (Hl _ Hin). cbn in Hl. lia.
  - etrans; [|exact Hr]. by apply sublist_inserts_l.
  - intros Hc Hd. symmetry. apply Ha. split; [done|]. apply Forall_forall. intros [t|n] Hin; [done|by destruct (Hd n)].
Qed.

Lemma tasks_run_in_order_witness :
  ∃ q, task_history demo_body demo_throws 10 [OSchedule 0; OSchedule 5; OCancel 2; OSchedule 7;
         OScheduled] initial_tasks = Some q ∧
    ran q = [(4, 1); (3, 7); (1, 0)] ∧ scheduled q = [(4, 1); (3, 7); (2, 5); (1, 0)] ∧
    ran q `sublist_of` scheduled q.
Proof.
  destruct (task_history _ _ _ _ _) as [q|] eqn:E; [|vm_compute in E; discriminate E].
  exists q. split; [reflexivity|]. pose proof (tasks_run_in_order _ _ _ _ _ E) as (_ & Hn & _).
  split; [|split; [|exact Hn]]; vm_compute in E; by injection E as <-.
Defined.

(** The handle [schedule] returns cancels exactly its task, while that is
    still waiting, after any number of further schedulings: its entry becomes
    null and no other entry changes. *)
Theorem cancel_hits_its_task q t ts q1 h q2 :
  taskQueueLength q < nextHandle q → nextIndexToProcess q ≤ taskQueueLength q → schedule t q = (q1, h) →
  q2 = fold_left (λ q t, fst (schedule t q)) ts q1 →
  taskQueue (cancel (Z.of_nat h) q2) = <[taskQueueLength q := None]> (taskQueue q2) ∧
  taskQueue q2 !! taskQueueLength q = Some (Some (h, t)).
Proof.
  intros Hl Hi Es ->. injection Es as <- <-.
  assert (∀ ts q1, let q2 := fold_left (λ q t, fst (schedule t q)) ts q1 in
    (∃ k, taskQueue q2 = taskQueue q1 ++ k ∧ length k = length ts) ∧ nextHandle q2 = nextHandle q1 + length ts ∧
    nextIndexToProcess q2 = nextIndexToProcess q1) as Hfold.
  { clear. induction ts as [|t ts IH]; intros q1; cbn [fold_left].
    - simpl. split_and!; [exists []; by rewrite app_nil_r|lia|done].
    - destruct (IH (fst (schedule t q1))) as ((k & E1 & El) & E2 & E3). cbv zeta. rewrite E1, E2, E3. simpl.
      split_and!; [|lia|done]. eexists (_ :: k). rewrite <-app_assoc. split; [done|]. simpl. lia. }
  match goal with |- context [fold_left _ ts ?q1] => destruct (Hfold ts q1) as ((k & Eq & Ek) & En & Ei);
    set (q2 := fold_left _ ts q1) in * end.
  simpl in Eq, En, Ei.
  assert (taskQueueLength q2 = taskQueueLength q + 1 + length ts) as El.
  { unfold taskQueueLength. rewrite Eq, !length_app, Ek. simpl. lia. }
  split.
  - unfold cancel, queue_index. rewrite En, El, Ei.
    rewrite (proj2 (Z.leb_le _ _)), (proj2 (Z.ltb_lt _ _)) by lia. cbn [andb taskQueue].
    do 2 f_equal. lia.
  - rewrite Eq, <-app_assoc. by apply list_lookup_middle.
Qed.

Lemma cancel_hits_its_task_witness :
  taskQueue (cancel 2 (fst (schedule 8 (fst (schedule 7 (fst (schedule 9 initial_tasks))))))) = [Some (1, 9); None; Some (3, 8)].
Proof.
  refine (proj1 (cancel_hits_its_task (fst (schedule 9 initial_tasks)) 7 [8] _ 2 _ _ _ eq_refl eq_refl)); cbn; lia.
Defined.

(** C17. When no task calls [runEarly] itself, processing the queue ends, also when tasks
    keep scheduling tasks: after 5000 groups the rest is skipped.  There is a bound on
    the rounds from which on every bound gives the same queue.  (Tasks that call
    [runEarly] can nest without end: each nested processing has a limit of its own.) *)
Theorem processTasks_ends body throws q :
  (∀ t, ARunEarly ∉ body t) → nextIndexToProcess q ≤ taskQueueLength q →
  ∃ fuel q', ∀ more, processTasks body throws (fuel + more) q = Some q'.
Proof.
  intros Hno Hi. unfold processTasks. destruct (Nat.eqb (taskQueueLength q) 0).
  - by exists 0, q.
  - eapply (loop_returns body throws Hno max_groups); [lia|reflexivity|reflexivity|done].
Qed.

Lemma processTasks_ends_witness :
  ∃ fuel q', ∀ more, processTasks demo_body demo_throws (fuel + more) (fst (schedule 2 initial_tasks)) = Some q'.
Proof.
  apply processTasks_ends; [|by vm_compute; lia].
  intros [|[|[|t]]]; simpl; rewrite ?list_elem_of_singleton; solve [done | apply not_elem_of_nil].
Defined.
