(* ===== verification/KoStore.v ===== *)
(** * Knockout: observables, computed observables and dependency detection

    Models knockout-3.4.2.debug.js, lines 1218-1222 (value comparison),
    1259-1410 (subscriptions), 1440-1496 (dependency detection), 1505-1551
    (observables), 1862-2250 (computed observables) and 2250-2320 (pure and
    deferred ones), without rate limiting, throttling and deferred updates:
    no [limit] is installed, so [_evalDelayed], [_notificationIsPending] and
    [_changeSubscriptions] are undefined everywhere.

    Objects live in a store, as they are shared and mutated.  The functions a
    page passes in (read and write functions, subscription callbacks) are
    programs over the library's own operations: the type [prog].  The library's
    functions are written with open recursion, [rec] being the call of any of
    them; [exec] ties the knot with a bound on the depth of calls. *)
From stdpp Require Import base gmap strings list sorting.
From Stdlib Require Import ZArith Lia.
From S2P Require Import Prelude.

Local Open Scope js_scope.

(** ** Values and client code *)

Inductive value :=
  | VUndef | VNull | VBool (b : bool) | VNum (n : Z) | VStr (s : string)
  | VObj (n : nat)              (* an object the library knows nothing about *)
  | VSubscribable (x : nat)     (* a subscribable, observable or computed *)
  | VSubscription (n : nat).

#[export] Instance value_eq_dec : EqDecision value.
Proof. solve_decision. Defined.

Definition truthy (v : value) : bool :=
  match v with
  | VUndef | VNull => false
  | VBool b => b
  | VNum n => negb (n =? 0)%Z
  | VStr s => negb (bool_decide (s = ""))
  | _ => true
  end.

Definition is_primitive (v : value) : bool :=
  match v with
  | VUndef | VNull | VBool _ | VNum _ | VStr _ => true
  | _ => false
  end.

Definition valuesArePrimitiveAndEqual (a b : value) : bool :=
  if is_primitive a then bool_decide (a = b) else false.

(** The option [disposeWhenNodeIsRemoved]: absent, [true], or a node. *)
Inductive node_option := NoNode | NoSpecificNode | Node (n : nat).

(** Client code: a result, a thrown value, or an operation and what follows. *)
Inductive prog :=
  | Ret (v : value)
  | Throw (v : value)
  | Vis (c : cmd) (k : value → prog)
with cmd :=
  | ReadC (x : nat)                                   (* x() *)
  | WriteC (x : nat) (v : value)                      (* x(v) *)
  | PeekC (x : nat)                                   (* x.peek() *)
  | NotifyC (x : nat) (v : value) (event : string)    (* x.notifySubscribers(v, event) *)
  | SubscribeC (x : nat) (callback : value → prog) (event : string)
  | DisposeSubscriptionC (n : nat)
  | DisposeC (x : nat)
  | NewSubscribableC
  | NewObservableC (v : value)
  | NewComputedC (read : prog) (write : option (value → prog)) (pure deferEvaluation : bool)
      (node : node_option) (disposeWhen : option prog)
  | NotifyAlwaysC (x : nat) (always : bool)           (* x.extend({notify: ..}) *)
  | IgnoreC (p : prog)                                (* ko.ignoreDependencies(p) *)
  | DependenciesCountC                                (* ko.computedContext.. *)
  | IsInitialC
  | DetachNodeC (n : nat)                             (* remove a node from the document *)
  | CleanNodeC (n : nat)                              (* ko.cleanNode(n) *)
  | CatchC (p : prog) (handler : value → prog).       (* try {p} catch (e) {..} *)

Inductive exn := EThrown (v : value) | ETypeError | ENoWriteFunction | EPureRecursion.

(** ** The store *)

(** What a subscription calls: client code, or the [evaluatePossiblyAsync] of a
    computed. *)
Inductive callback := CbClient (f : value → prog) | CbEvaluate (c : nat).

Record subscription := Subscription {
  sub_target : nat;
  sub_event : string;
  sub_callback : callback;
  sub_isDisposed : bool
}.

(** An entry of [dependencyTracking]: a subscription ([tk_sub]) with its
    [_order] and [_version], or the plain object of a sleeping computed. *)
Record tracking := Tracking {
  tk_target : nat;
  tk_sub : option nat;
  tk_order : nat;
  tk_version : nat
}.

(** [computedObservable[computedState]], with the options it was made of;
    [dependencyTracking] is [None] when null and maps ids to references. *)
Record cstate := CState {
  latestValue : value;
  isStale : bool;
  isDirty : bool;
  isBeingEvaluated : bool;
  suppressDisposal : bool;
  isDisposed : bool;
  pure : bool;
  isSleeping : bool;
  readFunction : prog;
  writeFunction : option (value → prog);
  deferEvaluation : bool;
  disposeWhenNodeIsRemoved : option nat;
  disposeWhen : option prog;
  hasNodeCallback : bool;
  dependencyTracking : option (gmap nat nat);
  dependenciesCount : nat
}.

Inductive kind := KSubscribable | KObservable (latest : value) | KComputed (c : cstate).

Record obj := Obj {
  o_subscriptions : gmap string (list nat);
  o_version : nat;
  o_id : option nat;
  o_always : bool;        (* equalityComparer is null *)
  o_kind : kind
}.

(** [dependencyDetectionContext] *)
Record context := Context_ {
  ctx_computed : nat;
  ctx_candidates : gmap nat (option nat);   (* None: crossed off (null) *)
  ctx_count : nat
}.

(** What [begin] is given: [isInitial] is [None] when undefined. *)
Record frame := Frame { fr_ctx : nat; fr_computed : nat; fr_isInitial : option bool }.

Record store := Store {
  st_objs : gmap nat obj;
  st_subs : gmap nat subscription;
  st_tracks : gmap nat tracking;
  st_ctxs : gmap nat context;
  st_next : nat;                       (* the next unused reference *)
  st_current : option frame;           (* currentFrame *)
  st_outer : list (option frame);      (* outerFrames, innermost first *)
  st_lastId : nat;
  st_detached : gset nat;              (* nodes outside the document *)
  st_nodeCallbacks : gmap nat (list nat);
  st_log : list (nat * value)          (* callbacks called, newest first *)
}.

Definition empty_store : store := Store ∅ ∅ ∅ ∅ 0 None [] 0 ∅ ∅ [].

(** Setters. *)
Definition set_objs (f : gmap nat obj → gmap nat obj) (s : store) : store :=
  Store (f (st_objs s)) (st_subs s) (st_tracks s) (st_ctxs s) (st_next s) (st_current s)
    (st_outer s) (st_lastId s) (st_detached s) (st_nodeCallbacks s) (st_log s).
Definition set_subs (f : gmap nat subscription → gmap nat subscription) (s : store) : store :=
  Store (st_objs s) (f (st_subs s)) (st_tracks s) (st_ctxs s) (st_next s) (st_current s)
    (st_outer s) (st_lastId s) (st_detached s) (st_nodeCallbacks s) (st_log s).
Definition set_tracks (f : gmap nat tracking → gmap nat tracking) (s : store) : store :=
  Store (st_objs s) (st_subs s) (f (st_tracks s)) (st_ctxs s) (st_next s) (st_current s)
    (st_outer s) (st_lastId s) (st_detached s) (st_nodeCallbacks s) (st_log s).
Definition set_ctxs (f : gmap nat context → gmap nat context) (s : store) : store :=
  Store (st_objs s) (st_subs s) (st_tracks s) (f (st_ctxs s)) (st_next s) (st_current s)
    (st_outer s) (st_lastId s) (st_detached s) (st_nodeCallbacks s) (st_log s).
Definition bump_next (s : store) : store :=
  Store (st_objs s) (st_subs s) (st_tracks s) (st_ctxs s) (S (st_next s)) (st_current s)
    (st_outer s) (st_lastId s) (st_detached s) (st_nodeCallbacks s) (st_log s).
Definition set_frames (cur : option frame) (outer : list (option frame)) (s : store) : store :=
  Store (st_objs s) (st_subs s) (st_tracks s) (st_ctxs s) (st_next s) cur
    outer (st_lastId s) (st_detached s) (st_nodeCallbacks s) (st_log s).
Definition bump_id (s : store) : store :=
  Store (st_objs s) (st_subs s) (st_tracks s) (st_ctxs s) (st_next s) (st_current s)
    (st_outer s) (S (st_lastId s)) (st_detached s) (st_nodeCallbacks s) (st_log s).
Definition detach (n : nat) (s : store) : store :=
  Store (st_objs s) (st_subs s) (st_tracks s) (st_ctxs s) (st_next s) (st_current s)
    (st_outer s) (st_lastId s) ({[n]} ∪ st_detached s) (st_nodeCallbacks s) (st_log s).
Definition set_nodeCallbacks (f : gmap nat (list nat) → gmap nat (list nat)) (s : store) : store :=
  Store (st_objs s) (st_subs s) (st_tracks s) (st_ctxs s) (st_next s) (st_current s)
    (st_outer s) (st_lastId s) (st_detached s) (f (st_nodeCallbacks s)) (st_log s).
Definition add_log (n : nat) (v : value) (s : store) : store :=
  Store (st_objs s) (st_subs s) (st_tracks s) (st_ctxs s) (st_next s) (st_current s)
    (st_outer s) (st_lastId s) (st_detached s) (st_nodeCallbacks s) ((n, v) :: st_log s).

Definition with_subscriptions (f : gmap string (list nat) → gmap string (list nat)) (o : obj) : obj :=
  Obj (f (o_subscriptions o)) (o_version o) (o_id o) (o_always o) (o_kind o).
Definition with_kind (k : kind) (o : obj) : obj :=
  Obj (o_subscriptions o) (o_version o) (o_id o) (o_always o) k.
Definition with_id (i : nat) (o : obj) : obj :=
  Obj (o_subscriptions o) (o_version o) (Some i) (o_always o) (o_kind o).
Definition with_always (b : bool) (o : obj) : obj :=
  Obj (o_subscriptions o) (o_version o) (o_id o) b (o_kind o).
Definition bump_version (o : obj) : obj :=
  Obj (o_subscriptions o) (S (o_version o)) (o_id o) (o_always o) (o_kind o).

Definition with_latest (v : value) (c : cstate) : cstate :=
  CState v (isStale c) (isDirty c) (isBeingEvaluated c) (suppressDisposal c) (isDisposed c)
    (pure c) (isSleeping c) (readFunction c) (writeFunction c) (deferEvaluation c)
    (disposeWhenNodeIsRemoved c) (disposeWhen c) (hasNodeCallback c)
    (dependencyTracking c) (dependenciesCount c).
Definition with_evaluating (b : bool) (c : cstate) : cstate :=
  CState (latestValue c) (isStale c) (isDirty c) b (suppressDisposal c) (isDisposed c)
    (pure c) (isSleeping c) (readFunction c) (writeFunction c) (deferEvaluation c)
    (disposeWhenNodeIsRemoved c) (disposeWhen c) (hasNodeCallback c)
    (dependencyTracking c) (dependenciesCount c).
Definition with_suppress (b : bool) (c : cstate) : cstate :=
  CState (latestValue c) (isStale c) (isDirty c) (isBeingEvaluated c) b (isDisposed c)
    (pure c) (isSleeping c) (readFunction c) (writeFunction c) (deferEvaluation c)
    (disposeWhenNodeIsRemoved c) (disposeWhen c) (hasNodeCallback c)
    (dependencyTracking c) (dependenciesCount c).
Definition with_sleeping (b : bool) (c : cstate) : cstate :=
  CState (latestValue c) (isStale c) (isDirty c) (isBeingEvaluated c) (suppressDisposal c)
    (isDisposed c) (pure c) b (readFunction c) (writeFunction c) (deferEvaluation c)
    (disposeWhenNodeIsRemoved c) (disposeWhen c) (hasNodeCallback c)
    (dependencyTracking c) (dependenciesCount c).
Definition with_nodeCallback (c : cstate) : cstate :=
  CState (latestValue c) (isStale c) (isDirty c) (isBeingEvaluated c) (suppressDisposal c)
    (isDisposed c) (pure c) (isSleeping c) (readFunction c) (writeFunction c) (deferEvaluation c)
    (disposeWhenNodeIsRemoved c) (disposeWhen c) true
    (dependencyTracking c) (dependenciesCount c).
(** [state.isStale = state.isDirty = false] *)
Definition fresh (c : cstate) : cstate :=
  CState (latestValue c) false false (isBeingEvaluated c) (suppressDisposal c) (isDisposed c)
    (pure c) (isSleeping c) (readFunction c) (writeFunction c) (deferEvaluation c)
    (disposeWhenNodeIsRemoved c) (disposeWhen c) (hasNodeCallback c)
    (dependencyTracking c) (dependenciesCount c).
Definition with_tracking (t : option (gmap nat nat)) (n : nat) (c : cstate) : cstate :=
  CState (latestValue c) (isStale c) (isDirty c) (isBeingEvaluated c) (suppressDisposal c)
    (isDisposed c) (pure c) (isSleeping c) (readFunction c) (writeFunction c) (deferEvaluation c)
    (disposeWhenNodeIsRemoved c) (disposeWhen c) (hasNodeCallback c) t n.
(** The assignments at the end of [dispose]. *)
Definition disposed (c : cstate) : cstate :=
  CState (latestValue c) false false (isBeingEvaluated c) (suppressDisposal c)
    true (pure c) false (readFunction c) (writeFunction c) (deferEvaluation c)
    None (disposeWhen c) (hasNodeCallback c) None 0.

(** ** Effects: state, exceptions, and [None] past the bound *)

Definition M (A : Type) : Type := store → option (store * (A + exn)).

#[export] Instance M_ret : MRet M := λ A a s, Some (s, inl a).
#[export] Instance M_bind : MBind M := λ A B f m s,
  match m s with
  | Some (s', inl a) => f a s'
  | Some (s', inr e) => Some (s', inr e)
  | None => None
  end.

Definition throw {A} (e : exn) : M A := λ s, Some (s, inr e).
Definition get : M store := λ s, Some (s, inl s).
Definition modify (f : store → store) : M unit := λ s, Some (f s, inl tt).
Definition out_of_fuel {A} : M A := λ _, None.

(** [try {m} finally {f}]: an exception of [f] replaces the outcome of [m]. *)
Definition finally {A} (m : M A) (f : M unit) : M A := λ s,
  match m s with
  | Some (s', r) =>
      match f s' with
      | Some (s'', inl _) => Some (s'', r)
      | Some (s'', inr e) => Some (s'', inr e)
      | None => None
      end
  | None => None
  end.

(** [try {m} catch (e) {h}], with the errors of the library as values. *)
Definition exn_value (e : exn) : value :=
  match e with EThrown v => v | _ => VStr "Error" end.
Definition catch {A} (m : M A) (h : value → M A) : M A := λ s,
  match m s with
  | Some (s', inr e) => h (exn_value e) s'
  | r => r
  end.

Fixpoint for_each {A} (f : A → M unit) (l : list A) : M unit :=
  match l with
  | [] => mret tt
  | a :: l' => f a;; for_each f l'
  end.

(** The property lookup [t[r]] on an object that must be there. *)
Definition the {A} (o : option A) : M A :=
  match o with Some a => mret a | None => throw ETypeError end.

Definition get_obj (x : nat) : M obj := s ← get; the (st_objs s !! x).
Definition get_sub (n : nat) : M subscription := s ← get; the (st_subs s !! n).
Definition get_track (t : nat) : M tracking := s ← get; the (st_tracks s !! t).
Definition get_ctx (t : nat) : M context := s ← get; the (st_ctxs s !! t).
Definition upd_obj (x : nat) (f : obj → obj) : M unit := modify (set_objs (alter f x)).
Definition upd_ctx (t : nat) (f : context → context) : M unit := modify (set_ctxs (alter f t)).

Definition get_comp (c : nat) : M cstate :=
  o ← get_obj c;
  match o_kind o with KComputed st => mret st | _ => throw ETypeError end.
Definition on_comp (f : cstate → cstate) (o : obj) : obj :=
  match o_kind o with KComputed st => with_kind (KComputed (f st)) o | _ => o end.
Definition upd_comp (c : nat) (f : cstate → cstate) : M unit := upd_obj c (on_comp f).

Definition new_ref : M nat := s ← get; modify bump_next;; mret (st_next s).
Definition new_track (t : tracking) : M nat :=
  r ← new_ref; modify (set_tracks <[r := t]>);; mret r.

(** [objectForEach] over an object whose properties are ids: in the order of
    the ids. *)
Definition id_le {A} (a b : nat * A) : Prop := a.1 ≤ b.1.
#[export] Instance id_le_dec {A} (a b : nat * A) : Decision (id_le a b).
Proof. unfold id_le. apply _. Defined.
Definition entries {A} (m : gmap nat A) : list (nat * A) := merge_sort id_le (map_to_list m).

(** ** The functions of the library, with open recursion *)

Inductive call :=
  | CRun (p : prog)
  | CRead (x : nat) | CWrite (x : nat) (v : value) | CPeek (x : nat) (evaluate : bool)
  | CNotify (x : nat) (v : value) (event : string)
  | CSubscribe (x : nat) (cb : callback) (event : string)
  | CDisposeSubscription (n : nat)
  | CGetVersion (x : nat)
  | CEvaluate (c : nat) (notifyChange : bool)
  | CDispose (c : nat).

Section functions.
Variable rec : call → M value.

Definition hasSubscriptionsForEvent (o : obj) (event : string) : bool :=
  match o_subscriptions o !! event with Some (_ :: _) => true | _ => false end.

Definition isDifferent (o : obj) (old new : value) : bool :=
  o_always o || negb (valuesArePrimitiveAndEqual old new).

(** *** Dependency detection *)

Definition begin (fr : option frame) : M unit :=
  modify (λ s, set_frames fr (st_current s :: st_outer s) s).
Definition end_ : M unit :=
  modify (λ s, match st_outer s with
               | f :: outer => set_frames f outer s
               | [] => set_frames None [] s
               end).

Definition ignore {A} (m : M A) : M A := finally (begin None;; m) end_.

(** [trackingObj._order = count++; trackingObj._version = target.getVersion()] *)
Definition addDependencyTracking (c id target t : nat) : M unit :=
  st ← get_comp c;
  if pure st && bool_decide (target = c) then throw EPureRecursion
  else
    m ← the (dependencyTracking st);
    upd_comp c (with_tracking (Some (<[id := t]> m)) (S (dependenciesCount st)));;
    modify (set_tracks (alter (λ k,
      Tracking (tk_target k) (tk_sub k) (dependenciesCount st) (tk_version k)) t));;
    v ← rec (CGetVersion target);
    let version := match v with VNum n => Z.to_nat n | _ => 0 end in
    modify (set_tracks (alter (λ k,
      Tracking (tk_target k) (tk_sub k) (tk_order k) version) t)).

(** [subscribeToDependency(target)]: the subscription as a tracking object. *)
Definition subscribeToDependency (c target : nat) : M nat :=
  v ← rec (CSubscribe target (CbEvaluate c) "change");
  match v with
  | VSubscription n => new_track (Tracking target (Some n) 0 0)
  | _ => throw ETypeError
  end.

Definition computedBeginDependencyDetectionCallback (t subscribable id : nat) : M unit :=
  ctx ← get_ctx t;
  let c := ctx_computed ctx in
  st ← get_comp c;
  if isDisposed st then mret tt
  else
    match (if Nat.eqb (ctx_count ctx) 0 then None else mjoin (ctx_candidates ctx !! id)) with
    | Some candidate =>
        addDependencyTracking c id subscribable candidate;;
        upd_ctx t (λ x, Context_ (ctx_computed x) (<[id := None]> (ctx_candidates x))
                          (ctx_count x - 1))
    | None =>
        m ← the (dependencyTracking st);
        match m !! id with
        | Some _ => mret tt
        | None =>
            tk ← (if isSleeping st then new_track (Tracking subscribable None 0 0)
                  else subscribeToDependency c subscribable);
            addDependencyTracking c id subscribable tk
        end
    end.

Definition registerDependency (x : nat) : M unit :=
  s ← get;
  match st_current s with
  | None => mret tt
  | Some fr =>
      o ← get_obj x;
      id ← match o_id o with
           | Some id => mret id
           | None =>
               modify bump_id;;
               upd_obj x (with_id (S (st_lastId s)));;
               mret (S (st_lastId s))
           end;
      computedBeginDependencyDetectionCallback (fr_ctx fr) x id
  end.

(** *** Subscriptions *)

(** [ko.subscription]'s callback. *)
Definition call_back (cb : callback) (v : value) : M value :=
  match cb with
  | CbClient f => rec (CRun (f v))
  | CbEvaluate c => rec (CEvaluate c true)     (* evaluatePossiblyAsync *)
  end.

Definition notify_one (v : value) (n : nat) : M unit :=
  sub ← get_sub n;
  if sub_isDisposed sub then mret tt
  else modify (add_log n v);; call_back (sub_callback sub) v;; mret tt.

Definition updateVersion (x : nat) : M unit := upd_obj x bump_version.

Definition notifySubscribers (x : nat) (v : value) (event : string) : M unit :=
  (if bool_decide (event = "change") then updateVersion x else mret tt);;
  o ← get_obj x;
  if hasSubscriptionsForEvent o event then
    let subs := default [] (o_subscriptions o !! event) in
    finally (begin None;; for_each (notify_one v) subs) end_
  else mret tt.

(** [haveDependenciesChanged()], over the entries as they are at the start. *)
Fixpoint any_changed (l : list (nat * nat)) : M bool :=
  match l with
  | [] => mret false
  | (_, t) :: l' =>
      k ← get_track t;
      v ← rec (CGetVersion (tk_target k));
      if bool_decide (v = VNum (Z.of_nat (tk_version k))) then any_changed l'
      else mret true
  end.

Definition haveDependenciesChanged (c : nat) : M bool :=
  st ← get_comp c;
  any_changed (entries (default ∅ (dependencyTracking st))).

(** [dependeciesOrder] as an array: position [_order] holds the id. *)
Fixpoint dependency_order (l : list (nat * nat)) : M (gmap nat nat * nat) :=
  match l with
  | [] => mret (∅, 0)
  | (id, t) :: l' =>
      k ← get_track t;
      '(m, len) ← dependency_order l';
      mret (match m !! tk_order k with Some _ => m | None => <[tk_order k := id]> m end,
            Nat.max len (S (tk_order k)))
  end.

Definition wake_dependency (c : nat) (arr : gmap nat nat) (order : nat) : M unit :=
  id ← the (arr !! order);
  st ← get_comp c;
  m ← the (dependencyTracking st);
  t ← the (m !! id);
  k ← get_track t;
  t' ← subscribeToDependency c (tk_target k);
  modify (set_tracks (alter (λ k',
    Tracking (tk_target k') (tk_sub k') order (tk_version k)) t'));;
  st' ← get_comp c;
  m' ← the (dependencyTracking st');
  upd_comp c (with_tracking (Some (<[id := t']> m')) (dependenciesCount st')).

(** [beforeSubscriptionAdd] of a pure computed. *)
Definition wake_up (c : nat) (event : string) : M unit :=
  st ← get_comp c;
  if negb (isDisposed st) && isSleeping st && bool_decide (event = "change") then
    upd_comp c (with_sleeping false);;
    changed ← (if isStale st then mret true else haveDependenciesChanged c);
    (if changed : bool then
       upd_comp c (with_tracking None 0);;
       v ← rec (CEvaluate c false);
       if truthy v then updateVersion c else mret tt
     else
       st' ← get_comp c;
       '(arr, len) ← dependency_order (entries (default ∅ (dependencyTracking st')));
       for_each (wake_dependency c arr) (seq 0 len));;
    st'' ← get_comp c;
    if isDisposed st'' then mret tt
    else rec (CNotify c (latestValue st'') "awake");; mret tt
  else mret tt.

Definition beforeSubscriptionAdd (x : nat) (event : string) : M unit :=
  o ← get_obj x;
  match o_kind o with
  | KComputed st =>
      if pure st then wake_up x event
      else if deferEvaluation st &&
              (bool_decide (event = "change") || bool_decide (event = "beforeChange"))
      then rec (CPeek x false);; mret tt
      else mret tt
  | _ => mret tt
  end.

Definition subscribe (x : nat) (cb : callback) (event : string) : M value :=
  beforeSubscriptionAdd x event;;
  n ← new_ref;
  modify (set_subs <[n := Subscription x event cb false]>);;
  upd_obj x (with_subscriptions (λ m, <[event := default [] (m !! event) ++ [n]]> m));;
  mret (VSubscription n).

(** [arrayRemoveItem]: the first occurrence. *)
Fixpoint arrayRemoveItem (n : nat) (l : list nat) : list nat :=
  match l with
  | [] => []
  | m :: l' => if Nat.eqb m n then l' else m :: arrayRemoveItem n l'
  end.

(** Turn one dependency of a computed that falls asleep into a plain object. *)
Definition sleep_dependency (c : nat) (e : nat * nat) : M unit :=
  let '(id, t) := e in
  k ← get_track t;
  match tk_sub k with
  | None => mret tt
  | Some n =>
      t' ← new_track (Tracking (tk_target k) None (tk_order k) (tk_version k));
      st ← get_comp c;
      m ← the (dependencyTracking st);
      upd_comp c (with_tracking (Some (<[id := t']> m)) (dependenciesCount st));;
      rec (CDisposeSubscription n);; mret tt
  end.

(** [afterSubscriptionRemove] of a pure computed. *)
Definition fall_asleep (c : nat) (event : string) : M unit :=
  st ← get_comp c;
  o ← get_obj c;
  if negb (isDisposed st) && bool_decide (event = "change") &&
     negb (hasSubscriptionsForEvent o "change") then
    for_each (sleep_dependency c) (entries (default ∅ (dependencyTracking st)));;
    upd_comp c (with_sleeping true);;
    rec (CNotify c VUndef "asleep");; mret tt
  else mret tt.

Definition afterSubscriptionRemove (x : nat) (event : string) : M unit :=
  o ← get_obj x;
  match o_kind o with
  | KComputed st => if pure st then fall_asleep x event else mret tt
  | _ => mret tt
  end.

(** [ko.subscription.prototype.dispose] *)
Definition dispose_subscription (n : nat) : M unit :=
  sub ← get_sub n;
  modify (set_subs (alter (λ s,
    Subscription (sub_target s) (sub_event s) (sub_callback s) true) n));;
  upd_obj (sub_target sub) (with_subscriptions (alter (arrayRemoveItem n) (sub_event sub)));;
  afterSubscriptionRemove (sub_target sub) (sub_event sub).

(** *** Computed observables *)

Definition dispose_entry (e : nat * nat) : M unit :=
  k ← get_track e.2;
  match tk_sub k with
  | Some n => rec (CDisposeSubscription n);; mret tt
  | None => mret tt
  end.

(** [computedFn.dispose] *)
Definition dispose_computed (c : nat) : M unit :=
  st ← get_comp c;
  (if negb (isSleeping st) then
     for_each dispose_entry (entries (default ∅ (dependencyTracking st)))
   else mret tt);;
  st' ← get_comp c;
  (match disposeWhenNodeIsRemoved st' with
   | Some n =>
       if hasNodeCallback st' then
         modify (set_nodeCallbacks (alter (arrayRemoveItem c) n))
       else mret tt
   | None => mret tt
   end);;
  upd_comp c disposed.

(** [computedDisposeDependencyCallback] *)
Definition dispose_candidate (e : nat * option nat) : M unit :=
  match e.2 with
  | Some t => dispose_entry (e.1, t)
  | None => mret tt
  end.

(** The [finally] of [evaluateImmediate_CallReadThenEndDependencyDetection]. *)
Definition end_evaluation (c t : nat) : M unit :=
  end_;;
  ctx ← get_ctx t;
  st ← get_comp c;
  (if negb (Nat.eqb (ctx_count ctx) 0) && negb (isSleeping st) then
     for_each dispose_candidate (entries (ctx_candidates ctx))
   else mret tt);;
  upd_comp c fresh.

(** What [evaluateImmediate_CallReadWithDependencyDetection] does with the new
    value: whether it differs from the old one. *)
Definition store_value (c : nat) (notifyChange : bool) (newValue : value) : M bool :=
  st ← get_comp c;
  o ← get_obj c;
  if isDifferent o (latestValue st) newValue then
    (if negb (isSleeping st) then rec (CNotify c (latestValue st) "beforeChange");; mret tt
     else mret tt);;
    upd_comp c (with_latest newValue);;
    st' ← get_comp c;
    (if isSleeping st' then updateVersion c
     else if notifyChange then rec (CNotify c (latestValue st') "change");; mret tt
     else mret tt);;
    mret true
  else mret false.

Definition evaluateImmediate_CallReadWithDependencyDetection (c : nat) (notifyChange : bool)
    : M bool :=
  st ← get_comp c;
  let isInitial := if pure st then None else Some (Nat.eqb (dependenciesCount st) 0) in
  t ← new_ref;
  modify (set_ctxs <[t := Context_ c (Some <$> default ∅ (dependencyTracking st))
                            (dependenciesCount st)]>);;
  begin (Some (Frame t c isInitial));;
  upd_comp c (with_tracking (Some ∅) 0);;
  newValue ← finally (rec (CRun (readFunction st))) (end_evaluation c t);
  changed ← store_value c notifyChange newValue;
  (if bool_decide (isInitial = Some true) then
     st' ← get_comp c;
     rec (CNotify c (latestValue st') "awake");; mret tt
   else mret tt);;
  mret changed.

(** [state.disposeWhenNodeIsRemoved && !attached || disposeWhen && disposeWhen()] *)
Definition should_dispose (c : nat) : M bool :=
  st ← get_comp c;
  s ← get;
  if match disposeWhenNodeIsRemoved st with
     | Some n => n ∈? st_detached s
     | None => false
     end
  then mret true
  else match disposeWhen st with
       | Some p => v ← rec (CRun p); mret (truthy v)
       | None => mret false
       end.

Definition evaluateImmediate (c : nat) (notifyChange : bool) : M value :=
  st ← get_comp c;
  if isBeingEvaluated st then mret VUndef
  else if isDisposed st then mret VUndef
  else
    go ← should_dispose c;
    st1 ← get_comp c;
    if go && negb (suppressDisposal st1) then rec (CDispose c);; mret VUndef
    else
      (if go : bool then mret tt else upd_comp c (with_suppress false));;
      upd_comp c (with_evaluating true);;
      changed ← finally (evaluateImmediate_CallReadWithDependencyDetection c notifyChange)
                  (upd_comp c (with_evaluating false));
      st2 ← get_comp c;
      (if Nat.eqb (dependenciesCount st2) 0 then rec (CDispose c);; mret tt else mret tt);;
      mret (VBool changed).

(** *** Reading and writing *)

Definition read (x : nat) : M value :=
  o ← get_obj x;
  match o_kind o with
  | KSubscribable => throw ETypeError       (* not a function *)
  | KObservable _ =>
      registerDependency x;;
      o' ← get_obj x;
      match o_kind o' with KObservable v => mret v | _ => throw ETypeError end
  | KComputed _ =>
      registerDependency x;;
      st ← get_comp x;
      go ← (if isDirty st then mret true
            else if isSleeping st then haveDependenciesChanged x else mret false);
      (if go : bool then rec (CEvaluate x false);; mret tt else mret tt);;
      st' ← get_comp x;
      mret (latestValue st')
  end.

Definition set_latest (v : value) (o : obj) : obj :=
  match o_kind o with KObservable _ => with_kind (KObservable v) o | _ => o end.

Definition write (x : nat) (v : value) : M value :=
  o ← get_obj x;
  match o_kind o with
  | KSubscribable => throw ETypeError
  | KObservable latest =>
      (if isDifferent o latest v then
         rec (CNotify x latest "beforeChange");;
         upd_obj x (set_latest v);;
         rec (CNotify x v "change");; mret tt
       else mret tt);;
      mret (VSubscribable x)
  | KComputed st =>
      match writeFunction st with
      | Some f => rec (CRun (f v));; mret (VSubscribable x)
      | None => throw ENoWriteFunction
      end
  end.

Definition peek (x : nat) (evaluate : bool) : M value :=
  o ← get_obj x;
  match o_kind o with
  | KSubscribable => throw ETypeError
  | KObservable v => mret v
  | KComputed st =>
      go ← (if isDirty st && (evaluate || Nat.eqb (dependenciesCount st) 0) then mret true
            else if isSleeping st then haveDependenciesChanged x else mret false);
      (if go : bool then rec (CEvaluate x false);; mret tt else mret tt);;
      st' ← get_comp x;
      mret (latestValue st')
  end.

Definition getVersion (x : nat) : M value :=
  o ← get_obj x;
  (match o_kind o with
   | KComputed st =>
       if pure st && isSleeping st then
         go ← (if isStale st then mret true else haveDependenciesChanged x);
         if go : bool then rec (CEvaluate x false);; mret tt else mret tt
       else mret tt
   | _ => mret tt
   end);;
  o' ← get_obj x;
  mret (VNum (Z.of_nat (o_version o'))).

(** *** Construction *)

Definition new_obj (k : kind) : M nat :=
  x ← new_ref;
  modify (set_objs <[x := Obj {["change" := []]} 1 None false k]>);;
  mret x.

Definition isActive (st : cstate) : bool := isDirty st || negb (Nat.eqb (dependenciesCount st) 0).

Definition new_computed (rd : prog) (wr : option (value → prog)) (pure_ defer : bool)
    (node : node_option) (dw : option prog) : M value :=
  let n := match node with Node n => Some n | _ => None end in
  let suppress := match node with NoNode => false | _ => true end in
  c ← new_obj (KComputed (CState VUndef true true false suppress false pure_ pure_ rd wr
                 (defer && negb pure_) n dw false (Some ∅) 0));
  (if negb pure_ && negb defer then rec (CEvaluate c false);; mret tt else mret tt);;
  st ← get_comp c;
  (match disposeWhenNodeIsRemoved st with
   | Some n =>
       if isActive st then
         modify (set_nodeCallbacks (λ m, <[n := default [] (m !! n) ++ [c]]> m));;
         upd_comp c with_nodeCallback
       else mret tt
   | None => mret tt
   end);;
  mret (VSubscribable c).

(** *** Client code *)

Definition run_cmd (c : cmd) : M value :=
  match c with
  | ReadC x => rec (CRead x)
  | WriteC x v => rec (CWrite x v)
  | PeekC x => rec (CPeek x false)
  | NotifyC x v event => rec (CNotify x v event)
  | SubscribeC x f event => rec (CSubscribe x (CbClient f) event)
  | DisposeSubscriptionC n => rec (CDisposeSubscription n)
  | DisposeC x => rec (CDispose x)
  | NewSubscribableC => x ← new_obj KSubscribable; mret (VSubscribable x)
  | NewObservableC v => x ← new_obj (KObservable v); mret (VSubscribable x)
  | NewComputedC rd wr p d n dw => new_computed rd wr p d n dw
  | NotifyAlwaysC x b => upd_obj x (with_always b);; mret (VSubscribable x)
  | IgnoreC p => ignore (rec (CRun p))
  | DependenciesCountC =>
      s ← get;
      match st_current s with
      | None => mret VUndef
      | Some fr => st ← get_comp (fr_computed fr); mret (VNum (Z.of_nat (dependenciesCount st)))
      end
  | IsInitialC =>
      s ← get;
      match st_current s with
      | Some (Frame _ _ (Some b)) => mret (VBool b)
      | _ => mret VUndef
      end
  | DetachNodeC n => modify (detach n);; mret VUndef
  | CleanNodeC n =>
      s ← get;
      for_each (λ c, rec (CDispose c);; mret tt) (default [] (st_nodeCallbacks s !! n));;
      mret VUndef
  | CatchC p h => catch (rec (CRun p)) (λ v, rec (CRun (h v)))
  end.

Definition run_prog (p : prog) : M value :=
  match p with
  | Ret v => mret v
  | Throw v => throw (EThrown v)
  | Vis c k => v ← run_cmd c; rec (CRun (k v))
  end.

Definition do_call (c : call) : M value :=
  match c with
  | CRun p => run_prog p
  | CRead x => read x
  | CWrite x v => write x v
  | CPeek x evaluate => peek x evaluate
  | CNotify x v event => notifySubscribers x v event;; mret VUndef
  | CSubscribe x cb event => subscribe x cb event
  | CDisposeSubscription n => dispose_subscription n;; mret VUndef
  | CGetVersion x => getVersion x
  | CEvaluate c notifyChange => evaluateImmediate c notifyChange
  | CDispose c => dispose_computed c;; mret VUndef
  end.
End functions.

(** A call with at most [fuel] nested calls. *)
Fixpoint exec (fuel : nat) (c : call) : M value :=
  match fuel with
  | 0 => out_of_fuel
  | S fuel' => do_call (exec fuel') c
  end.
