(* ===== verification/KoStoreFacts.v ===== *)
(** * Knockout: what every call keeps

    A relation between the stores before and after, shown for every function
    of KoStore.v by one induction on the depth of calls: the dependency
    detection frames and the evaluation flags are restored, also when client
    code throws; versions do not decrease; ids stay and are distinct; what is
    disposed stays disposed, and the callback of a disposed subscription is not
    called. *)
From stdpp Require Import base gmap strings list sorting.
From Stdlib Require Import ZArith Lia.
From S2P Require Import Prelude KoStore.

(** ** Calls that keep a relation *)

Definition keeps {A} (R : store → store → Prop) (m : M A) : Prop :=
  ∀ s s' r, m s = Some (s', r) → R s s'.

Section keeps.
Context (R : store → store → Prop) `{!PreOrder R}.

Lemma keeps_ret {A} (a : A) : keeps R (mret a).
Proof. intros s s' r [= <- <-]. reflexivity. Qed.
Lemma keeps_throw {A} e : keeps R (throw (A:=A) e).
Proof. intros s s' r [= <- <-]. reflexivity. Qed.
Lemma keeps_get : keeps R get.
Proof. intros s s' r [= <- <-]. reflexivity. Qed.
Lemma keeps_the {A} (o : option A) : keeps R (the o).
Proof. destruct o; [apply keeps_ret|apply keeps_throw]. Qed.
Lemma keeps_fuel {A} : keeps R (out_of_fuel (A:=A)).
Proof. by intros s s' r. Qed.
Lemma keeps_modify f : (∀ s, R s (f s)) → keeps R (modify f).
Proof. intros H s s' r [= <- <-]. apply H. Qed.

Lemma keeps_bind {A B} (m : M A) (f : A → M B) :
  keeps R m → (∀ a, keeps R (f a)) → keeps R (m ≫= f).
Proof.
  intros Hm Hf s s' r. unfold mbind, M_bind.
  destruct (m s) as [[s1 [a|e]]|] eqn:E; [|intros [= <- <-]; by eapply Hm|done].
  intros E'. etrans; [by eapply Hm|by eapply Hf].
Qed.

(** A bind whose continuation may use what the first part says of the state. *)
Lemma keeps_get_bind {B} (f : store → M B) :
  (∀ s s' r, f s s = Some (s', r) → R s s') → keeps R (get ≫= f).
Proof. intros Hf s s' r E. by eapply Hf. Qed.

Lemma keeps_finally {A} (m : M A) (f : M unit) :
  keeps R m → keeps R f → keeps R (finally m f).
Proof.
  intros Hm Hf s s' r. unfold finally. destruct (m s) as [[s1 r1]|] eqn:E; [|done].
  destruct (f s1) as [[s2 [[]|e]]|] eqn:E2; [| |done]; intros [= <- <-];
    (etrans; [by eapply Hm|by eapply Hf]).
Qed.

Lemma keeps_catch {A} (m : M A) h : keeps R m → (∀ v, keeps R (h v)) → keeps R (catch m h).
Proof.
  intros Hm Hh s s' r. unfold catch. destruct (m s) as [[s1 [a|e]]|] eqn:E; [| |done].
  - intros [= <- <-]. by eapply Hm.
  - intros E'. etrans; [by eapply Hm|by eapply Hh].
Qed.

Lemma keeps_for_each {A} (f : A → M unit) l : (∀ a, keeps R (f a)) → keeps R (for_each f l).
Proof.
  intros Hf. induction l as [|a l IH]; [apply keeps_ret|]. simpl.
  apply keeps_bind; [apply Hf|intros; apply IH].
Qed.

Lemma keeps_get_obj x : keeps R (get_obj x).
Proof. apply keeps_bind; [apply keeps_get|intros; apply keeps_the]. Qed.
Lemma keeps_get_sub x : keeps R (get_sub x).
Proof. apply keeps_bind; [apply keeps_get|intros; apply keeps_the]. Qed.
Lemma keeps_get_track x : keeps R (get_track x).
Proof. apply keeps_bind; [apply keeps_get|intros; apply keeps_the]. Qed.
Lemma keeps_get_ctx x : keeps R (get_ctx x).
Proof. apply keeps_bind; [apply keeps_get|intros; apply keeps_the]. Qed.
Lemma keeps_get_comp x : keeps R (get_comp x).
Proof.
  apply keeps_bind; [apply keeps_get_obj|]. intros o.
  destruct (o_kind o); first [apply keeps_ret|apply keeps_throw].
Qed.
End keeps.

(** ** The relation *)

(** [c'] is a later state of the computed state [c]. *)
Record comp_evolves (c c' : cstate) : Prop := {
  ce_disposed : isDisposed c = true → isDisposed c' = true;
  ce_evaluating : isBeingEvaluated c' = isBeingEvaluated c;
  ce_pure : pure c' = pure c;
  ce_read : readFunction c' = readFunction c;
  ce_write : writeFunction c' = writeFunction c
}.

Definition kind_evolves (k k' : kind) : Prop :=
  match k, k' with
  | KSubscribable, KSubscribable | KObservable _, KObservable _ => True
  | KComputed c, KComputed c' => comp_evolves c c'
  | _, _ => False
  end.

Record obj_evolves (o o' : obj) : Prop := {
  oe_version : o_version o ≤ o_version o';
  oe_id i : o_id o = Some i → o_id o' = Some i;
  oe_kind : kind_evolves (o_kind o) (o_kind o')
}.

Record sub_evolves (n n' : subscription) : Prop := {
  se_target : sub_target n' = sub_target n;
  se_event : sub_event n' = sub_event n;
  se_callback : sub_callback n' = sub_callback n;
  se_disposed : sub_isDisposed n = true → sub_isDisposed n' = true
}.

Definition map_evolves {A} (R : A → A → Prop) (m m' : gmap nat A) : Prop :=
  ∀ x a, m !! x = Some a → ∃ a', m' !! x = Some a' ∧ R a a'.

(** The callbacks called between the two stores were of no subscription that
    was disposed before. *)
Definition log_evolves (s s' : store) : Prop :=
  ∃ l, st_log s' = l ++ st_log s ∧
    ∀ n v sub, (n, v) ∈ l → st_subs s !! n = Some sub → sub_isDisposed sub = false.

Record evolves (s s' : store) : Prop := {
  ev_current : st_current s' = st_current s;
  ev_outer : st_outer s' = st_outer s;
  ev_lastId : st_lastId s ≤ st_lastId s';
  ev_objs : map_evolves obj_evolves (st_objs s) (st_objs s');
  ev_subs : map_evolves sub_evolves (st_subs s) (st_subs s');
  ev_log : log_evolves s s'
}.

(** A store whose references are below [st_next] and whose ids are distinct
    and at most [st_lastId]. *)
Record wf (s : store) : Prop := {
  wf_objs x : st_next s ≤ x → st_objs s !! x = None;
  wf_subs x : st_next s ≤ x → st_subs s !! x = None;
  wf_ids x y ox oy i : st_objs s !! x = Some ox → st_objs s !! y = Some oy →
    o_id ox = Some i → o_id oy = Some i → x = y;
  wf_last x o i : st_objs s !! x = Some o → o_id o = Some i → i ≤ st_lastId s
}.

Definition progress (s s' : store) : Prop := wf s → wf s' ∧ evolves s s'.

#[export] Instance comp_evolves_preorder : PreOrder comp_evolves.
Proof.
  split; [by split|]. intros a b c [] []. split; try congruence. eauto.
Qed.
#[export] Instance kind_evolves_preorder : PreOrder kind_evolves.
Proof.
  split; [intros []; simpl; try done; reflexivity|].
  intros [] [] []; simpl; try done. intros. by etrans.
Qed.
#[export] Instance obj_evolves_preorder : PreOrder obj_evolves.
Proof.
  split; [by split|]. intros a b c [] []. split; [lia|eauto|by etrans].
Qed.
#[export] Instance sub_evolves_preorder : PreOrder sub_evolves.
Proof.
  split; [by split|]. intros a b c [] []. split; try congruence. eauto.
Qed.
#[export] Instance map_evolves_preorder {A} (R : A → A → Prop) `{!PreOrder R} :
  PreOrder (map_evolves R).
Proof.
  split; [intros m x a H; exists a; by split|].
  intros m1 m2 m3 H12 H23 x a Ha. destruct (H12 x a Ha) as (b & Hb & ?).
  destruct (H23 x b Hb) as (c & Hc & ?). exists c. split; [done|]. by etrans.
Qed.

#[export] Instance evolves_preorder : PreOrder evolves.
Proof.
  split.
  - intros s. split; try done. exists []. split; [done|]. intros n v sub Hin.
    by apply elem_of_nil in Hin.
  - intros s1 s2 s3 [?? Hl Ho Hs (l & El & Hlog)] [?? Hl' Ho' Hs' (l' & El' & Hlog')].
    split; [congruence|congruence|lia|by etrans|by etrans|].
    exists (l' ++ l). split; [by rewrite El', El, app_assoc|].
    intros n v sub [Hin|Hin]%elem_of_app Hsub; [|by eapply Hlog].
    destruct (Hs n sub Hsub) as (sub' & Hsub' & [_ _ _ Hd]).
    destruct (sub_isDisposed sub) eqn:E; [|done].
    rewrite <-(Hlog' n v sub' Hin Hsub'). symmetry. by apply Hd.
Qed.

#[export] Instance progress_preorder : PreOrder progress.
Proof.
  split; [intros s Hwf; split; [done|reflexivity]|].
  intros s1 s2 s3 H12 H23 Hwf. destruct (H12 Hwf) as [Hwf2 E12].
  destruct (H23 Hwf2) as [Hwf3 E23]. split; [done|]. by etrans.
Qed.

(** ** Single updates *)

Lemma log_same s s' : st_log s' = st_log s → log_evolves s s'.
Proof.
  intros E. exists []. split; [done|]. intros n v sub Hin. by apply elem_of_nil in Hin.
Qed.

(** An update of the fields the relation does not look at. *)
Lemma progress_other s s' :
  st_objs s' = st_objs s → st_subs s' = st_subs s → st_next s ≤ st_next s' →
  st_current s' = st_current s → st_outer s' = st_outer s → st_lastId s' = st_lastId s →
  st_log s' = st_log s → progress s s'.
Proof.
  intros Eo Es Hn Ec Eu Ei El [Ho Hs Hi Hl]. split.
  - split; rewrite ?Eo, ?Es, ?Ei; [intros x Hx; apply Ho; lia|intros x Hx; apply Hs; lia|done..].
  - split; rewrite ?Eo, ?Es, ?Ei; try done. by apply log_same.
Qed.

Lemma wf_alter_obj s x f :
  (∀ o, st_objs s !! x = Some o → o_id (f o) = o_id o) → wf s → wf (set_objs (alter f x) s).
Proof.
  intros Hf [Ho Hs Hi Hl].
  assert (∀ y o, alter f x (st_objs s) !! y = Some o →
    ∃ o0, st_objs s !! y = Some o0 ∧ o_id o = o_id o0) as Hinv.
  { intros y o. rewrite lookup_alter_Some. intros [(-> & o0 & H0 & ->)|[_ H0]].
    - exists o0. split; [done|]. by apply Hf.
    - by exists o. }
  split; simpl; try done.
  - intros y Hy. apply lookup_alter_None. by apply Ho.
  - intros y z oy oz i (oy0 & Hy0 & ->)%Hinv (oz0 & Hz0 & ->)%Hinv. by eapply Hi.
  - intros y o i (o0 & H0 & ->)%Hinv. by eapply Hl.
Qed.

Lemma progress_alter_obj s x f :
  (∀ o, obj_evolves o (f o) ∧ o_id (f o) = o_id o) → progress s (set_objs (alter f x) s).
Proof.
  intros Hf Hwf. split.
  - apply wf_alter_obj; [|done]. intros o _. apply Hf.
  - split; simpl; try done; [|by apply log_same].
    intros y o Hy. destruct (decide (x = y)) as [->|Hne].
    + exists (f o). rewrite lookup_alter_eq, Hy. split; [done|]. apply Hf.
    + exists o. rewrite lookup_alter_ne by done. by split.
Qed.

Lemma keeps_upd_obj x f :
  (∀ o, obj_evolves o (f o) ∧ o_id (f o) = o_id o) → keeps progress (upd_obj x f).
Proof. intros Hf. apply keeps_modify. intros s. by apply progress_alter_obj. Qed.

Lemma on_comp_evolves f o :
  (∀ c, comp_evolves c (f c)) → obj_evolves o (on_comp f o) ∧ o_id (on_comp f o) = o_id o.
Proof.
  intros Hf. unfold on_comp. destruct (o_kind o) eqn:E; [done..|]. split; [|done].
  split; [done|done|]. rewrite E. apply Hf.
Qed.

Lemma keeps_upd_comp x f : (∀ c, comp_evolves c (f c)) → keeps progress (upd_comp x f).
Proof. intros Hf. apply keeps_upd_obj. intros o. by apply on_comp_evolves. Qed.

Lemma keeps_new_ref : keeps progress new_ref.
Proof.
  apply keeps_bind; [apply _|apply keeps_get, _|intros s].
  apply keeps_bind; [apply _| |intros; apply keeps_ret, _].
  apply keeps_modify. intros s0. apply progress_other; simpl; try done; lia.
Qed.

Lemma keeps_set_tracks f : keeps progress (modify (set_tracks f)).
Proof. apply keeps_modify. intros s. by apply progress_other. Qed.
Lemma keeps_set_ctxs f : keeps progress (modify (set_ctxs f)).
Proof. apply keeps_modify. intros s. by apply progress_other. Qed.
Lemma keeps_set_nodeCallbacks f : keeps progress (modify (set_nodeCallbacks f)).
Proof. apply keeps_modify. intros s. by apply progress_other. Qed.
Lemma keeps_detach n : keeps progress (modify (detach n)).
Proof. apply keeps_modify. intros s. by apply progress_other. Qed.

Lemma keeps_new_track t : keeps progress (new_track t).
Proof.
  apply keeps_bind; [apply _|apply keeps_new_ref|intros r].
  apply keeps_bind; [apply _|apply keeps_set_tracks|intros; apply keeps_ret, _].
Qed.

(** A new object is put at an unused reference. *)
Lemma keeps_new_obj k : keeps progress (new_obj k).
Proof.
  intros s s' r [= <- <-] [Ho Hs Hi Hl].
  set (o := Obj _ _ _ _ _).
  assert (∀ y oy, <[st_next s := o]> (st_objs s) !! y = Some oy →
    st_objs s !! y = Some oy ∨ o_id oy = None) as Hinv.
  { intros y oy. rewrite lookup_insert_Some. intros [[_ <-]|[_ ?]]; [by right|by left]. }
  split.
  - split; simpl.
    + intros x Hx. rewrite lookup_insert_ne by lia. apply Ho. lia.
    + intros x Hx. apply Hs. lia.
    + intros x y ox oy i [Hx|Hx]%Hinv [Hy|Hy]%Hinv; try congruence. by eapply Hi.
    + intros x ox i [Hx|Hx]%Hinv; [by eapply Hl|congruence].
  - split; simpl; try done; [|by apply log_same].
    intros x ox Hx. exists ox. split; [|reflexivity]. rewrite lookup_insert_ne; [done|].
    intros <-. rewrite Ho in Hx by lia. done.
Qed.

(** A new subscription likewise. *)
Lemma keeps_new_sub {B} (g : nat → subscription) (K : nat → M B) :
  (∀ n, keeps progress (K n)) →
  keeps progress (n ← new_ref; modify (set_subs <[n := g n]>);; K n).
Proof.
  intros HK. assert (keeps progress (n ← new_ref; modify (set_subs <[n := g n]>);; mret n)) as H.
  { intros s s' r [= <- <-] [Ho Hs Hi Hl]. split.
    - split; simpl; try done.
      + intros x Hx. apply Ho. lia.
      + intros x Hx. rewrite lookup_insert_ne by lia. apply Hs. lia.
    - split; simpl; try done; [|by apply log_same].
      intros x sub Hx. exists sub. split; [|reflexivity]. rewrite lookup_insert_ne; [done|].
      intros <-. rewrite Hs in Hx by lia. done. }
  intros s s' r E. eapply (keeps_bind progress _ K H HK s s' r). exact E.
Qed.

(** Disposing a subscription. *)
Lemma keeps_dispose_sub n :
  keeps progress (modify (set_subs (alter (λ s,
    Subscription (sub_target s) (sub_event s) (sub_callback s) true) n))).
Proof.
  apply keeps_modify. intros s [Ho Hs Hi Hl]. split.
  - split; simpl; try done. intros x Hx. apply lookup_alter_None. by apply Hs.
  - split; simpl; try done; [|by apply log_same].
    intros x sub Hx. destruct (decide (n = x)) as [->|Hne].
    + eexists. rewrite lookup_alter_eq, Hx. split; [done|]. by split.
    + exists sub. rewrite lookup_alter_ne by done. by split.
Qed.

(** An object without an id gets the next one. *)
Lemma keeps_new_id x {B} (K : nat → M B) :
  (∀ id, keeps progress (K id)) →
  keeps progress (s ← get; o ← get_obj x;
    id ← match o_id o with
         | Some id => mret id
         | None => modify bump_id;; upd_obj x (with_id (S (st_lastId s)));; mret (S (st_lastId s))
         end; K id).
Proof.
  intros HK. apply keeps_get_bind. intros s s' r.
  unfold get_obj. simpl. unfold mbind at 1, M_bind at 1. unfold mbind at 1, M_bind at 1. simpl.
  destruct (st_objs s !! x) as [o|] eqn:Eo; simpl; [|intros [= <- <-]; reflexivity].
  destruct (o_id o) as [id|] eqn:Ei; simpl; [by apply HK|].
  unfold mbind, M_bind. simpl. intros E. etrans; [|eapply HK; exact E].
  intros [Ho Hs Hi Hl].
  assert (∀ y oy i, alter (with_id (S (st_lastId s))) x (st_objs s) !! y = Some oy →
    o_id oy = Some i → (y = x ∧ i = S (st_lastId s)) ∨
      (∃ oy0, st_objs s !! y = Some oy0 ∧ o_id oy0 = Some i)) as Hinv.
  { intros y oy i. rewrite lookup_alter_Some. intros [(-> & o0 & H0 & ->)|[_ H0]] Hid.
    - left. by injection Hid as <-.
    - right. by exists oy. }
  split.
  - split; simpl; try done.
    + intros y Hy. apply lookup_alter_None. by apply Ho.
    + intros y z oy oz i Hy Hz Hyi Hzi.
      destruct (Hinv y oy i Hy Hyi) as [[-> Ey]|(oy0 & Hy0 & Hi0)],
        (Hinv z oz i Hz Hzi) as [[-> Ez]|(oz0 & Hz0 & Hi1)]; try done.
      * subst. pose proof (Hl _ _ _ Hz0 Hi1); lia.
      * subst. pose proof (Hl _ _ _ Hy0 Hi0); lia.
      * by eapply Hi.
    + intros y oy i Hy Hyi. destruct (Hinv y oy i Hy Hyi) as [[_ ->]|(o0 & H0 & Hi0)]; [lia|].
      pose proof (Hl _ _ _ H0 Hi0). lia.
  - split; simpl; try done; [lia| |by apply log_same].
    intros y oy Hy. destruct (decide (x = y)) as [<-|Hne].
    + assert (oy = o) as -> by congruence. exists (with_id (S (st_lastId s)) o).
      rewrite lookup_alter_eq, Hy. split; [done|]. split; [done|congruence|].
      change (o_kind (with_id (S (st_lastId s)) o)) with (o_kind o). reflexivity.
    + exists oy. rewrite lookup_alter_ne by done. by split.
Qed.

(** ** Frames *)

Definition framed (fr : option frame) (s : store) : store :=
  set_frames fr (st_current s :: st_outer s) s.

(** What happens between [begin] and [end_] is progress once the frame is
    taken off. *)
Lemma progress_unframe fr s s' :
  progress (framed fr s) s' →
  wf s → st_outer s' = st_current s :: st_outer s ∧
    wf (set_frames (st_current s) (st_outer s) s') ∧
    evolves s (set_frames (st_current s) (st_outer s) s').
Proof.
  intros Hp Hwf. assert (wf (framed fr s)) as Hwf' by (destruct Hwf; by split).
  destruct (Hp Hwf') as [[Ho Hs Hi Hl] [Ec Eo ? ? ? ?]]. split; [by rewrite Eo|].
  split; [by split|by split].
Qed.

Lemma end_frame fr s s' r s'' :
  progress (framed fr s) s' → end_ s' = Some (s'', r) → progress s s''.
Proof.
  intros Hp E Hwf. destruct (progress_unframe fr s s' Hp Hwf) as (Eo & Hw & He).
  unfold end_, modify in E. rewrite Eo in E. by injection E as <- <-.
Qed.

Lemma keeps_bracket {A} fr (m : M A) :
  keeps progress m → keeps progress (finally (begin fr;; m) end_).
Proof.
  intros Hm s s' r. unfold finally, begin, mbind, M_bind, modify.
  fold (framed fr s). destruct (m (framed fr s)) as [[s1 r1]|] eqn:E1; [|done].
  destruct (end_ s1) as [[s2 r2]|] eqn:E2; [|done].
  intros E. assert (s' = s2) as -> by (destruct r2; by injection E).
  eapply end_frame; [|exact E2]. by eapply Hm.
Qed.

(** The frame of an evaluation: begun, then closed by a [finally] that goes on
    with [rest]. *)
Lemma keeps_frame {A B} fr (g : M unit) (m : M A) (rest : M unit) (K : A → M B) :
  keeps progress g → (∀ s, ∃ s', g s = Some (s', inl tt)) →
  keeps progress m → keeps progress rest → (∀ a, keeps progress (K a)) →
  keeps progress (begin fr;; g;; finally m (end_;; rest) ≫= K).
Proof.
  intros Hg Hgok Hm Hrest HK s s' r. unfold begin, mbind, M_bind, modify.
  fold (framed fr s). destruct (Hgok (framed fr s)) as [s1 E1]. rewrite E1.
  unfold finally. destruct (m s1) as [[s2 r2]|] eqn:E2; [|done].
  destruct (end_ s2) as [[s3 [[]|e]]|] eqn:E3; [| |done]; last by unfold end_, modify in E3.
  assert (progress s s3) as H3.
  { eapply end_frame; [|exact E3]. etrans; [by eapply Hg|by eapply Hm]. }
  destruct (rest s3) as [[s4 [[]|e]]|] eqn:E4; [| |done].
  - assert (progress s s4) as H4 by (etrans; [done|by eapply Hrest]).
    destruct r2 as [a|e]; [|by intros [= <- <-]].
    intros E. etrans; [exact H4|by eapply HK].
  - intros [= <- <-]. etrans; [exact H3|by eapply Hrest].
Qed.

(** ** Every function keeps the relation *)

Ltac evolve_comp :=
  intros ?; first [by split | (intros; split; simpl; congruence)].

Ltac keeps_step :=
  lazymatch goal with
  | |- keeps _ (mret _) => apply keeps_ret, _
  | |- keeps _ (throw _) => apply keeps_throw, _
  | |- keeps _ get => apply keeps_get, _
  | |- keeps _ (the _) => apply keeps_the, _
  | |- keeps _ (get_obj _) => apply keeps_get_obj, _
  | |- keeps _ (get_sub _) => apply keeps_get_sub, _
  | |- keeps _ (get_track _) => apply keeps_get_track, _
  | |- keeps _ (get_ctx _) => apply keeps_get_ctx, _
  | |- keeps _ (get_comp _) => apply keeps_get_comp, _
  | |- keeps _ (new_track _) => apply keeps_new_track
  | |- keeps _ (modify (set_tracks _)) => apply keeps_set_tracks
  | |- keeps _ (modify (set_ctxs _)) => apply keeps_set_ctxs
  | |- keeps _ (modify (set_nodeCallbacks _)) => apply keeps_set_nodeCallbacks
  | |- keeps _ (modify (detach _)) => apply keeps_detach
  | |- keeps _ (upd_ctx _ _) => apply keeps_set_ctxs
  | |- keeps _ (upd_comp _ _) => apply keeps_upd_comp; evolve_comp
  | |- keeps _ (new_obj _) => apply keeps_new_obj
  | |- keeps _ new_ref => apply keeps_new_ref
  | |- keeps _ (for_each _ _) => apply keeps_for_each; [apply _|intros]
  | |- keeps _ (if ?b then _ else _) => destruct b
  | |- keeps _ (match ?x with _ => _ end) => destruct x
  | |- keeps _ (_ ≫= _) => apply keeps_bind; [apply _| |intros]
  end.

Section functions.
Variable rec : call → M value.
Hypothesis Hrec : ∀ c, keeps progress (rec c).

Hint Resolve Hrec : core.
Ltac go := repeat (first [apply Hrec | keeps_step]).

Lemma keeps_addDependencyTracking c id target t :
  keeps progress (addDependencyTracking rec c id target t).
Proof. unfold addDependencyTracking. go. Qed.

Lemma keeps_subscribeToDependency c target : keeps progress (subscribeToDependency rec c target).
Proof. unfold subscribeToDependency. go. Qed.

Lemma keeps_detection_callback t x id :
  keeps progress (computedBeginDependencyDetectionCallback rec t x id).
Proof.
  unfold computedBeginDependencyDetectionCallback.
  repeat first [apply keeps_addDependencyTracking | apply keeps_subscribeToDependency | keeps_step].
Qed.

Lemma keeps_registerDependency x : keeps progress (registerDependency rec x).
Proof.
  apply keeps_get_bind. intros s s' r. destruct (st_current s) as [fr|]; [|intros [= <- <-]; reflexivity].
  pose proof (keeps_new_id x
    (λ id, computedBeginDependencyDetectionCallback rec (fr_ctx fr) x id)) as H.
  intros E. apply (H (λ id, keeps_detection_callback _ _ _) s s' r). exact E.
Qed.

(** The callback of a subscription that is not disposed is logged and called. *)
Lemma keeps_notify_one v n : keeps progress (notify_one rec v n).
Proof.
  unfold notify_one, get_sub. intros s s' r. unfold mbind at 1, M_bind at 1.
  unfold mbind at 1, M_bind at 1. simpl.
  destruct (st_subs s !! n) as [sub|] eqn:En; simpl; [|intros [= <- <-]; reflexivity].
  destruct (sub_isDisposed sub) eqn:Ed; [intros [= <- <-]; reflexivity|].
  unfold mbind at 1, M_bind at 1. simpl. intros E.
  assert (keeps progress (call_back rec (sub_callback sub) v;; mret tt)) as Hk.
  { apply keeps_bind; [apply _| |intros; apply keeps_ret, _].
    unfold call_back. destruct (sub_callback sub); apply Hrec. }
  transitivity (add_log n v s); [|by eapply Hk].
  intros Hwf. split; [destruct Hwf; by split|]. split; try done.
  exists [(n, v)]. split; [done|]. intros n' v' sub' Hin Hsub'.
  apply list_elem_of_singleton in Hin as [= -> ->]. congruence.
Qed.

Lemma keeps_updateVersion x : keeps progress (updateVersion x).
Proof.
  apply keeps_upd_obj. intros o. split; [|done]. split; simpl; [lia|done|].
  change (o_kind (bump_version o)) with (o_kind o). reflexivity.
Qed.

Lemma keeps_notifySubscribers x v event : keeps progress (notifySubscribers rec x v event).
Proof.
  unfold notifySubscribers.
  repeat first [apply keeps_updateVersion | apply keeps_bracket | apply keeps_notify_one
    | keeps_step].
Qed.

Lemma keeps_any_changed l : keeps progress (any_changed rec l).
Proof. induction l as [|[id t] l IH]; simpl; repeat first [apply Hrec|apply IH|keeps_step]. Qed.

Lemma keeps_haveDependenciesChanged c : keeps progress (haveDependenciesChanged rec c).
Proof. unfold haveDependenciesChanged. repeat first [apply keeps_any_changed|keeps_step]. Qed.

Lemma keeps_dependency_order l : keeps progress (dependency_order l).
Proof. induction l as [|[id t] l IH]; simpl; repeat first [apply IH|keeps_step]. Qed.

Lemma keeps_wake_dependency c arr order : keeps progress (wake_dependency rec c arr order).
Proof. unfold wake_dependency. repeat first [apply keeps_subscribeToDependency|keeps_step]. Qed.

Lemma keeps_wake_up c event : keeps progress (wake_up rec c event).
Proof.
  unfold wake_up.
  repeat first [apply Hrec | apply keeps_haveDependenciesChanged | apply keeps_updateVersion
    | apply keeps_dependency_order | apply keeps_wake_dependency | keeps_step].
Qed.

Lemma keeps_beforeSubscriptionAdd x event : keeps progress (beforeSubscriptionAdd rec x event).
Proof.
  unfold beforeSubscriptionAdd. repeat first [apply Hrec|apply keeps_wake_up|keeps_step].
Qed.

Lemma keeps_with_subscriptions x f : keeps progress (upd_obj x (with_subscriptions f)).
Proof.
  apply keeps_upd_obj. intros o. split; [|done]. split; [done|done|].
  change (o_kind (with_subscriptions f o)) with (o_kind o). reflexivity.
Qed.

Lemma keeps_subscribe x cb event : keeps progress (subscribe rec x cb event).
Proof.
  unfold subscribe. apply keeps_bind; [apply _|apply keeps_beforeSubscriptionAdd|intros].
  apply (keeps_new_sub (λ n, Subscription x event cb false)). intros n.
  apply keeps_bind; [apply _|apply keeps_with_subscriptions|intros; apply keeps_ret, _].
Qed.

Lemma keeps_sleep_dependency c e : keeps progress (sleep_dependency rec c e).
Proof. unfold sleep_dependency. destruct e. repeat first [apply Hrec|keeps_step]. Qed.

Lemma keeps_afterSubscriptionRemove x event :
  keeps progress (afterSubscriptionRemove rec x event).
Proof.
  unfold afterSubscriptionRemove, fall_asleep.
  repeat first [apply Hrec|apply keeps_sleep_dependency|keeps_step].
Qed.

Lemma keeps_dispose_subscription n : keeps progress (dispose_subscription rec n).
Proof.
  unfold dispose_subscription.
  repeat first [apply keeps_dispose_sub | apply keeps_with_subscriptions
    | apply keeps_afterSubscriptionRemove | keeps_step].
Qed.

Lemma keeps_dispose_entry e : keeps progress (dispose_entry rec e).
Proof. unfold dispose_entry. repeat first [apply Hrec|keeps_step]. Qed.

Lemma keeps_dispose_computed c : keeps progress (dispose_computed rec c).
Proof. unfold dispose_computed. repeat first [apply keeps_dispose_entry|keeps_step]. Qed.

Lemma keeps_store_value c nc v : keeps progress (store_value rec c nc v).
Proof. unfold store_value. repeat first [apply Hrec|apply keeps_updateVersion|keeps_step]. Qed.

Lemma keeps_call_read c nc :
  keeps progress (evaluateImmediate_CallReadWithDependencyDetection rec c nc).
Proof.
  unfold evaluateImmediate_CallReadWithDependencyDetection, end_evaluation.
  apply keeps_bind; [apply _|keeps_step|intros st].
  apply keeps_bind; [apply _|keeps_step|intros t].
  apply keeps_bind; [apply _|keeps_step|intros _].
  apply keeps_frame.
  - keeps_step.
  - intros s. by eexists.
  - apply Hrec.
  - repeat first [apply keeps_dispose_entry | (unfold dispose_candidate; keeps_step) | keeps_step].
  - intros v. repeat first [apply Hrec|apply keeps_store_value|keeps_step].
Qed.

Lemma keeps_should_dispose c : keeps progress (should_dispose rec c).
Proof. unfold should_dispose. repeat first [apply Hrec|keeps_step]. Qed.

(** The flag [isBeingEvaluated] is set for the evaluation of [c] and cleared
    after it, whatever its outcome. *)
Definition not_evaluating (c : nat) (s : store) : Prop :=
  ∀ o st, st_objs s !! c = Some o → o_kind o = KComputed st → isBeingEvaluated st = false.

Lemma on_comp_id f o : o_id (on_comp f o) = o_id o.
Proof. unfold on_comp. by destruct (o_kind o). Qed.

Lemma on_comp_kind f o :
  o_kind (on_comp f o) = match o_kind o with KComputed st => KComputed (f st) | k => k end.
Proof. unfold on_comp. by destruct (o_kind o) eqn:E; rewrite ?E. Qed.

Lemma evaluating_bracket c s s2 :
  not_evaluating c s →
  progress (set_objs (alter (on_comp (with_evaluating true)) c) s) s2 →
  progress s (set_objs (alter (on_comp (with_evaluating false)) c) s2).
Proof.
  intros Hne Hp Hwf. set (s1 := set_objs _ s) in Hp.
  assert (wf s1) as Hwf1 by (apply wf_alter_obj; [intros; apply on_comp_id|done]).
  destruct (Hp Hwf1) as [Hwf2 [? ? ? Hobj Hsub Hlog]].
  split; [apply wf_alter_obj; [intros; apply on_comp_id|done]|]. split; try done. simpl.
  intros x o Hx. destruct (decide (c = x)) as [<-|Hcx].
  - destruct (Hobj c (on_comp (with_evaluating true) o)) as (o2 & Ho2 & [Hv Hid Hk]).
    { subst s1. simpl. by rewrite lookup_alter_eq, Hx. }
    exists (on_comp (with_evaluating false) o2). rewrite lookup_alter_eq, Ho2. split; [done|].
    split; rewrite ?on_comp_id; [| |].
    + revert Hv. unfold on_comp. by destruct (o_kind o), (o_kind o2).
    + intros i Hi. apply Hid. by rewrite on_comp_id.
    + revert Hk. rewrite !on_comp_kind.
      destruct (o_kind o) eqn:Ek, (o_kind o2); try done.
      intros [Hd _ Hpu Hr Hw]. split; simpl in *; try done. symmetry. by eapply Hne.
  - destruct (Hobj x o) as (o2 & Ho2 & He).
    { subst s1. simpl. by rewrite lookup_alter_ne. }
    exists o2. by rewrite lookup_alter_ne.
Qed.

Lemma keeps_evaluation {A B} c (body : M A) (K : A → M B) s s' r :
  keeps progress body → (∀ a, keeps progress (K a)) → not_evaluating c s →
  (upd_comp c (with_evaluating true);;
   finally body (upd_comp c (with_evaluating false)) ≫= K) s = Some (s', r) →
  progress s s'.
Proof.
  intros Hbody HK Hne. unfold upd_comp, upd_obj, modify, finally, mbind, M_bind.
  destruct (body _) as [[s2 r2]|] eqn:E; [|done].
  assert (progress s (set_objs (alter (on_comp (with_evaluating false)) c) s2)) as H2.
  { apply evaluating_bracket; [done|]. by eapply Hbody. }
  destruct r2 as [a|e].
  - intros E'. etrans; [exact H2|by eapply HK].
  - by intros [= <- <-].
Qed.

Lemma not_evaluating_progress c s s' :
  wf s → progress s s' → not_evaluating c s →
  (∃ o st, st_objs s !! c = Some o ∧ o_kind o = KComputed st) → not_evaluating c s'.
Proof.
  intros Hwf Hp Hne (o & st & Ho & Hk). destruct (Hp Hwf) as [_ He].
  destruct (ev_objs _ _ He c o Ho) as (o' & Ho' & [_ _ Hkind]). rewrite Hk in Hkind.
  intros o2 st2 Ho2 Hk2. assert (o2 = o') as -> by congruence. rewrite Hk2 in Hkind.
  destruct Hkind as [_ Hev _ _ _]. rewrite Hev. by eapply Hne.
Qed.

Lemma get_comp_inv c s s' r :
  get_comp c s = Some (s', r) →
  s' = s ∧ ∀ st, r = inl st → ∃ o, st_objs s !! c = Some o ∧ o_kind o = KComputed st.
Proof.
  unfold get_comp, get_obj, mbind, M_bind. simpl.
  destruct (st_objs s !! c) as [o|]; simpl; [|by intros [= <- <-]].
  destruct (o_kind o) eqn:Ek; intros [= <- <-]; split; try done.
  intros st' [= <-]. by exists o.
Qed.

Lemma keeps_evaluateImmediate c nc : keeps progress (evaluateImmediate rec c nc).
Proof.
  intros s s' r E Hwf. revert E. unfold evaluateImmediate at 1. unfold mbind at 1, M_bind at 1.
  destruct (get_comp c s) as [[s0 r0]|] eqn:E0; [|done].
  destruct (get_comp_inv _ _ _ _ E0) as [-> Hst]. clear E0.
  destruct r0 as [st|e]; [|intros [= <- <-]; by apply (reflexivity (R:=progress))].
  destruct (Hst st eq_refl) as (o & Ho & Hk). clear Hst.
  destruct (isBeingEvaluated st) eqn:Ee; [intros [= <- <-]; by apply (reflexivity (R:=progress))|].
  destruct (isDisposed st); [intros [= <- <-]; by apply (reflexivity (R:=progress))|].
  unfold mbind at 1, M_bind at 1.
  destruct (should_dispose rec c s) as [[s1 [go|e]]|] eqn:E1; [| |done].
  2:{ intros [= <- <-]. by eapply keeps_should_dispose. }
  assert (progress s s1) as H1 by (by eapply keeps_should_dispose).
  assert (not_evaluating c s) as Hne0.
  { intros o' st' Ho' Hk'. congruence. }
  assert (not_evaluating c s1) as Hne1.
  { eapply not_evaluating_progress; [done|done|done|by exists o, st]. }
  intros E. cut (progress s s'); [by intros Hp; apply Hp|]. etrans; [exact H1|].
  revert E. unfold mbind at 1, M_bind at 1.
  destruct (get_comp c s1) as [[s0 r0]|] eqn:E2; [|done].
  destruct (get_comp_inv _ _ _ _ E2) as [-> Hst2].
  destruct r0 as [st1|e]; [|intros [= <- <-]; reflexivity].
  destruct (go && negb (suppressDisposal st1)).
  { intros E. eapply (keeps_bind progress); [apply Hrec|intros; apply keeps_ret, _|exact E]. }
  assert (∀ (X : M unit), keeps progress X →
    ∀ s2 r2, X s1 = Some (s2, r2) → progress s1 s2 ∧ (wf s1 → not_evaluating c s2)) as HX.
  { intros X HkX s2 r2 EX. split; [by eapply HkX|]. intros Hwf1.
    destruct (Hst2 st1 eq_refl) as (o1 & Ho1 & Hk1).
    eapply not_evaluating_progress; [done|by eapply HkX|done|by exists o1, st1]. }
  unfold mbind at 1, M_bind at 1.
  match goal with |- context [(if go then ?a else ?b) s1] =>
    assert (keeps progress (if go then a else b)) as HG by (destruct go; keeps_step);
    destruct ((if go then a else b) s1) as [[s2 [[]|e]]|] eqn:E3; [| |done];
    destruct (HX _ HG _ _ E3) as [H2 Hne2] end.
  - intros E. etrans; [exact H2|]. destruct (H1 Hwf) as [Hwf1 _].
    eapply keeps_evaluation; [| |by apply Hne2|exact E]; [apply keeps_call_read|].
    intros a. cbv beta. repeat first [apply Hrec|keeps_step].
  - intros [= <- <-]. exact H2.
Qed.

Lemma keeps_read x : keeps progress (read rec x).
Proof.
  unfold read. repeat first [apply Hrec | apply keeps_registerDependency
    | apply keeps_haveDependenciesChanged | keeps_step].
Qed.

Lemma keeps_write x v : keeps progress (write rec x v).
Proof.
  unfold write.
  assert (keeps progress (upd_obj x (set_latest v))) as Hset.
  { apply keeps_upd_obj. intros o. unfold set_latest. destruct (o_kind o) eqn:Ek; [done| |done].
    split; [|done]. split; [done|done|]. by rewrite Ek. }
  repeat first [apply Hrec | apply Hset | keeps_step].
Qed.

Lemma keeps_peek x e : keeps progress (peek rec x e).
Proof.
  unfold peek. repeat first [apply Hrec|apply keeps_haveDependenciesChanged|keeps_step].
Qed.

Lemma keeps_getVersion x : keeps progress (getVersion rec x).
Proof.
  unfold getVersion. repeat first [apply Hrec|apply keeps_haveDependenciesChanged|keeps_step].
Qed.

Lemma keeps_new_computed rd wr p d n dw : keeps progress (new_computed rec rd wr p d n dw).
Proof. unfold new_computed. repeat first [apply Hrec|keeps_step]. Qed.

Lemma keeps_always x b : keeps progress (upd_obj x (with_always b)).
Proof.
  apply keeps_upd_obj. intros o. split; [|done]. split; [done|done|].
  change (o_kind (with_always b o)) with (o_kind o). reflexivity.
Qed.

Lemma keeps_run_cmd c : keeps progress (run_cmd rec c).
Proof.
  destruct c; simpl; try apply Hrec;
    try (by repeat first [apply Hrec|apply keeps_new_computed|apply keeps_always|keeps_step]).
  - by apply keeps_bracket.
  - apply keeps_catch; [apply _|apply Hrec|intros; apply Hrec].
Qed.

Lemma keeps_do_call c : keeps progress (do_call rec c).
Proof.
  destruct c; simpl; try by first [apply keeps_read|apply keeps_write|apply keeps_peek
    |apply keeps_subscribe|apply keeps_getVersion|apply keeps_evaluateImmediate].
  - destruct p; simpl; repeat first [apply Hrec|apply keeps_run_cmd|keeps_step].
  - apply keeps_bind; [apply _|apply keeps_notifySubscribers|intros; apply keeps_ret, _].
  - apply keeps_bind; [apply _|apply keeps_dispose_subscription|intros; apply keeps_ret, _].
  - apply keeps_bind; [apply _|apply keeps_dispose_computed|intros; apply keeps_ret, _].
Qed.
End functions.

Lemma exec_progress fuel c : keeps progress (exec fuel c).
Proof.
  revert c. induction fuel as [|fuel IH]; intros c; [apply keeps_fuel|].
  apply keeps_do_call, IH.
Qed.

(** ** Evaluating binds *)

Lemma bind_inl {A B} (m : M A) (f : A → M B) s s' a :
  m s = Some (s', inl a) → (m ≫= f) s = f a s'.
Proof. intros E. unfold mbind, M_bind. by rewrite E. Qed.

Lemma bind_assoc {A B C} (m : M A) (f : A → M B) (g : B → M C) s :
  ((m ≫= f) ≫= g) s = (m ≫= λ a, f a ≫= g) s.
Proof. unfold mbind, M_bind. by destruct (m s) as [[? []]|]. Qed.

(** ** More depth gives the same result *)

(** [m2] returns whatever [m1] returns. *)
Definition refines {A} (m1 m2 : M A) : Prop := ∀ s r, m1 s = Some r → m2 s = Some r.

Lemma refines_refl {A} (m : M A) : refines m m.
Proof. by intros s r. Qed.

Lemma refines_bind {A B} (m1 m2 : M A) (f1 f2 : A → M B) :
  refines m1 m2 → (∀ a, refines (f1 a) (f2 a)) → refines (m1 ≫= f1) (m2 ≫= f2).
Proof.
  intros Hm Hf s r. unfold mbind, M_bind. destruct (m1 s) as [[s1 [a|e]]|] eqn:E; [| |done];
    rewrite (Hm _ _ E); [apply Hf|done].
Qed.

Lemma refines_finally {A} (m1 m2 : M A) f1 f2 :
  refines m1 m2 → refines f1 f2 → refines (finally m1 f1) (finally m2 f2).
Proof.
  intros Hm Hf s r. unfold finally. destruct (m1 s) as [[s1 r1]|] eqn:E; [|done].
  rewrite (Hm _ _ E). destruct (f1 s1) as [[s2 r2]|] eqn:E2; [|done]. by rewrite (Hf _ _ E2).
Qed.

Lemma refines_catch {A} (m1 m2 : M A) h1 h2 :
  refines m1 m2 → (∀ v, refines (h1 v) (h2 v)) → refines (catch m1 h1) (catch m2 h2).
Proof.
  intros Hm Hh s r. unfold catch. destruct (m1 s) as [[s1 [a|e]]|] eqn:E; [| |done];
    rewrite (Hm _ _ E); [done|apply Hh].
Qed.

Lemma refines_for_each {A} (f1 f2 : A → M unit) l :
  (∀ a, refines (f1 a) (f2 a)) → refines (for_each f1 l) (for_each f2 l).
Proof.
  intros Hf. induction l as [|a l IH]; [apply refines_refl|]. simpl.
  by apply refines_bind; [|intros].
Qed.

Section monotone.
Variables rec1 rec2 : call → M value.
Hypothesis Hrec : ∀ c, refines (rec1 c) (rec2 c).

Ltac refine_step :=
  lazymatch goal with
  | |- refines ?m ?m => apply refines_refl
  | |- refines (rec1 _) (rec2 _) => apply Hrec
  | |- refines (_ ≫= _) (_ ≫= _) => apply refines_bind; [|intros]
  | |- refines (finally _ _) (finally _ _) => apply refines_finally
  | |- refines (catch _ _) (catch _ _) => apply refines_catch; [|intros]
  | |- refines (for_each _ ?l) (for_each _ ?l) => apply refines_for_each; intros
  | |- refines (if ?b then _ else _) (if ?b then _ else _) => destruct b
  | |- refines (match ?x with _ => _ end) (match ?x with _ => _ end) => destruct x
  end.
Ltac refine_all := repeat refine_step.

Lemma refines_addDependencyTracking c id t k :
  refines (addDependencyTracking rec1 c id t k) (addDependencyTracking rec2 c id t k).
Proof. unfold addDependencyTracking. refine_all. Qed.

Lemma refines_registerDependency x :
  refines (registerDependency rec1 x) (registerDependency rec2 x).
Proof.
  unfold registerDependency, computedBeginDependencyDetectionCallback, subscribeToDependency.
  repeat first [apply refines_addDependencyTracking|refine_step].
Qed.

Lemma refines_any_changed l : refines (any_changed rec1 l) (any_changed rec2 l).
Proof. induction l as [|[] l IH]; simpl; repeat first [apply IH|refine_step]. Qed.

Lemma refines_haveDependenciesChanged c :
  refines (haveDependenciesChanged rec1 c) (haveDependenciesChanged rec2 c).
Proof. unfold haveDependenciesChanged. repeat first [apply refines_any_changed|refine_step]. Qed.

Lemma refines_subscribe x cb e : refines (subscribe rec1 x cb e) (subscribe rec2 x cb e).
Proof.
  unfold subscribe, beforeSubscriptionAdd, wake_up, wake_dependency, subscribeToDependency.
  repeat first [apply refines_haveDependenciesChanged|refine_step].
Qed.

Lemma refines_dispose_subscription n :
  refines (dispose_subscription rec1 n) (dispose_subscription rec2 n).
Proof.
  unfold dispose_subscription, afterSubscriptionRemove, fall_asleep, sleep_dependency. refine_all.
Qed.

Lemma refines_dispose_computed c : refines (dispose_computed rec1 c) (dispose_computed rec2 c).
Proof. unfold dispose_computed, dispose_entry. refine_all. Qed.

Lemma refines_evaluateImmediate c nc :
  refines (evaluateImmediate rec1 c nc) (evaluateImmediate rec2 c nc).
Proof.
  unfold evaluateImmediate, should_dispose, evaluateImmediate_CallReadWithDependencyDetection,
    store_value, end_evaluation, dispose_candidate, dispose_entry. refine_all.
Qed.

Lemma refines_run_cmd c : refines (run_cmd rec1 c) (run_cmd rec2 c).
Proof. destruct c; simpl; unfold new_computed, ignore; refine_all. Qed.

Lemma refines_do_call c : refines (do_call rec1 c) (do_call rec2 c).
Proof.
  destruct c; simpl.
  - destruct p; simpl; repeat first [apply refines_run_cmd|refine_step].
  - unfold read. repeat first [apply refines_registerDependency
      |apply refines_haveDependenciesChanged|refine_step].
  - unfold write. refine_all.
  - unfold peek. repeat first [apply refines_haveDependenciesChanged|refine_step].
  - unfold notifySubscribers, notify_one, call_back. refine_all.
  - apply refines_subscribe.
  - repeat first [apply refines_dispose_subscription|refine_step].
  - unfold getVersion. repeat first [apply refines_haveDependenciesChanged|refine_step].
  - apply refines_evaluateImmediate.
  - repeat first [apply refines_dispose_computed|refine_step].
Qed.
End monotone.

Lemma exec_mono fuel fuel' c : fuel ≤ fuel' → refines (exec fuel c) (exec fuel' c).
Proof.
  revert fuel' c. induction fuel as [|fuel IH]; intros fuel' c Hle; [by intros s r|].
  destruct fuel' as [|fuel']; [lia|]. simpl. apply refines_do_call. intros c'. apply IH. lia.
Qed.

(** ** A page for the witnesses

    Observable 0 holds 1; computed 1 adds 10 to it; a client subscription to
    the computed writes what it is given into observable 5. *)

Definition plus_ten (v : value) : prog :=
  match v with VNum n => Ret (VNum (n + 10)) | _ => Throw VUndef end.

Definition demo_setup : prog :=
  Vis (NewObservableC (VNum 1)) (λ _,
  Vis (NewComputedC (Vis (ReadC 0) plus_ten) None false false NoNode None) (λ _,
  Vis (NewObservableC VNull) (λ o,
  Vis (SubscribeC 1 (λ v, match o with
                          | VSubscribable y => Vis (WriteC y v) Ret
                          | _ => Ret VUndef
                          end) "change") Ret))).

Definition demo_store : store :=
  match exec 40 (CRun demo_setup) empty_store with Some (s, _) => s | None => empty_store end.

Definition value_of (s : store) (x : nat) : option value :=
  o ← st_objs s !! x;
  match o_kind o with
  | KObservable v => Some v
  | KComputed c => Some (latestValue c)
  | KSubscribable => None
  end.

Lemma wf_empty : wf empty_store.
Proof. by split. Qed.

Lemma wf_demo : wf demo_store.
Proof.
  unfold demo_store. destruct (exec 40 (CRun demo_setup) empty_store) as [[s r]|] eqn:E;
    [|apply wf_empty]. by eapply exec_progress; [|apply wf_empty].
Qed.

(** The same with the client's subscription disposed. *)
Definition demo_store2 : store :=
  match exec 40 (CDisposeSubscription 6) demo_store with Some (s, _) => s | None => empty_store end.

Lemma wf_demo2 : wf demo_store2.
Proof.
  unfold demo_store2. destruct (exec 40 (CDisposeSubscription 6) demo_store) as [[s r]|] eqn:E;
    [|apply wf_empty]. by eapply exec_progress; [|apply wf_demo].
Qed.

(** Writing the observable updates the computed and calls the subscription. *)
Example demo_write :
  match exec 40 (CWrite 0 (VNum 5)) demo_store with
  | Some (s, inl _) => value_of s 1 = Some (VNum 15) ∧
      (∃ x, value_of s x = Some (VNum 15) ∧ x ≠ 1)
  | _ => False
  end.
Proof. vm_compute. split; [done|]. exists 5. by vm_compute. Qed.

(** C10. Whatever is called, and whether it returns or throws (client callbacks
    and read functions may throw at any point), dependency detection is left as
    it was found: the current frame and the outer frames are the same, and
    every computed has the evaluation flag it had. *)
Theorem exec_restores_detection fuel c s s' r :
  wf s → exec fuel c s = Some (s', r) →
  st_current s' = st_current s ∧ st_outer s' = st_outer s ∧
  ∀ x o st, st_objs s !! x = Some o → o_kind o = KComputed st →
    ∃ o' st', st_objs s' !! x = Some o' ∧ o_kind o' = KComputed st' ∧
      isBeingEvaluated st' = isBeingEvaluated st.
Proof.
  intros Hwf E. destruct (exec_progress _ _ _ _ _ E Hwf) as [_ [Hc Ho _ Hobjs _ _]].
  split_and!; [done|done|]. intros x o st Hx Hk.
  destruct (Hobjs x o Hx) as (o' & Hx' & [_ _ Hkind]). rewrite Hk in Hkind.
  destruct (o_kind o') as [| |st'] eqn:Ek'; [done|done|].
  exists o', st'. split_and!; [done|done|]. apply Hkind.
Qed.

(** The observable [x] is read in a callback that throws. *)
Lemma exec_restores_detection_witness :
  ∃ s' r, exec 40 (CRun (Vis (NewComputedC (Vis (ReadC 0) Throw) None false false NoNode None)
                           Ret)) demo_store = Some (s', r) ∧
    st_current s' = st_current demo_store ∧ st_outer s' = st_outer demo_store.
Proof.
  destruct (exec 40 _ demo_store) as [[s' r]|] eqn:E; [|vm_compute in E; discriminate E].
  exists s', r. split; [reflexivity|].
  destruct (exec_restores_detection _ _ _ _ _ wf_demo E) as (Hc & Ho & _).
  split; [exact Hc|exact Ho].
Defined.

(** A disposed subscription stays disposed and its callback is not called
    again, whatever runs; a disposed computed stays disposed. *)
Theorem exec_disposed_silent fuel c s s' r :
  wf s → exec fuel c s = Some (s', r) →
  (∀ n sub, st_subs s !! n = Some sub → sub_isDisposed sub = true →
     (∃ sub', st_subs s' !! n = Some sub' ∧ sub_isDisposed sub' = true) ∧
     ∃ l, st_log s' = l ++ st_log s ∧ ∀ v, (n, v) ∉ l) ∧
  (∀ x o st, st_objs s !! x = Some o → o_kind o = KComputed st → isDisposed st = true →
     ∃ o' st', st_objs s' !! x = Some o' ∧ o_kind o' = KComputed st' ∧ isDisposed st' = true).
Proof.
  intros Hwf E. destruct (exec_progress _ _ _ _ _ E Hwf) as [_ [_ _ _ Hobjs Hsubs (l & El & Hl)]].
  split.
  - intros n sub Hn Hd. split.
    + destruct (Hsubs n sub Hn) as (sub' & Hn' & [_ _ _ Hdis]). exists sub'. auto.
    + exists l. split; [done|]. intros v Hin. by rewrite (Hl n v sub Hin Hn) in Hd.
  - intros x o st Hx Hk Hd.
    destruct (Hobjs x o Hx) as (o' & Hx' & [_ _ Hkind]). rewrite Hk in Hkind.
    destruct (o_kind o') as [| |st'] eqn:Ek'; [done|done|].
    exists o', st'. split_and!; [done|done|]. by apply Hkind.
Qed.

Lemma exec_disposed_silent_witness :
  ∃ s' r, exec 40 (CWrite 0 (VNum 5)) demo_store2 = Some (s', r) ∧
    ∃ l, st_log s' = l ++ st_log demo_store2 ∧ ∀ v, (6, v) ∉ l.
Proof.
  destruct (exec 40 _ demo_store2) as [[s' r]|] eqn:E; [|vm_compute in E; discriminate E].
  exists s', r. split; [reflexivity|].
  destruct (exec_disposed_silent _ _ _ _ _ wf_demo2 E) as [Hs _].
  destruct (st_subs demo_store2 !! 6) as [sub|] eqn:Es; [|vm_compute in Es; discriminate Es].
  apply (Hs 6 sub Es). vm_compute in Es. injection Es as <-. reflexivity.
Defined.

(** Versions never decrease, and the ids that key the dependencies are
    given once and stay distinct: no two objects ever share one. *)
Theorem exec_versions_and_ids fuel c s s' r :
  wf s → exec fuel c s = Some (s', r) →
  (∀ x o, st_objs s !! x = Some o → ∃ o', st_objs s' !! x = Some o' ∧
     o_version o ≤ o_version o' ∧ (∀ i, o_id o = Some i → o_id o' = Some i)) ∧
  (∀ x y ox oy i, st_objs s' !! x = Some ox → st_objs s' !! y = Some oy →
     o_id ox = Some i → o_id oy = Some i → x = y).
Proof.
  intros Hwf E. destruct (exec_progress _ _ _ _ _ E Hwf) as [Hwf' [_ _ _ Hobjs _ _]]. split.
  - intros x o Hx. destruct (Hobjs x o Hx) as (o' & Hx' & [Hv Hi _]). by exists o'.
  - apply Hwf'.
Qed.

Lemma exec_versions_and_ids_witness :
  ∃ s' r, exec 40 (CWrite 0 (VNum 5)) demo_store = Some (s', r) ∧
    ∃ o', st_objs s' !! 0 = Some o' ∧ 1 ≤ o_version o'.
Proof.
  destruct (exec 40 _ demo_store) as [[s' r]|] eqn:E; [|vm_compute in E; discriminate E].
  exists s', r. split; [reflexivity|].
  destruct (exec_versions_and_ids _ _ _ _ _ wf_demo E) as [Hv _].
  destruct (st_objs demo_store !! 0) as [o|] eqn:Eo; [|vm_compute in Eo; discriminate Eo].
  destruct (Hv 0 o Eo) as (o' & Ho' & Hle & _). exists o'. split; [exact Ho'|].
  vm_compute in Eo. injection Eo as <-. exact Hle.
Defined.

(** The depth of calls only decides whether a result is reached: two
    depths that reach one reach the same. *)
Theorem exec_depth_irrelevant fuel1 fuel2 c s r1 r2 :
  exec fuel1 c s = Some r1 → exec fuel2 c s = Some r2 → r1 = r2.
Proof.
  intros E1 E2. destruct (Nat.le_ge_cases fuel1 fuel2) as [Hle|Hle].
  - apply (exec_mono _ _ _ Hle) in E1. congruence.
  - apply (exec_mono _ _ _ Hle) in E2. congruence.
Qed.

Lemma exec_depth_irrelevant_witness :
  ∃ r1 r2, exec 12 (CWrite 0 (VNum 5)) demo_store = Some r1 ∧
    exec 40 (CWrite 0 (VNum 5)) demo_store = Some r2 ∧ r1 = r2.
Proof.
  destruct (exec 12 _ demo_store) as [r1|] eqn:E1; [|vm_compute in E1; discriminate E1].
  destruct (exec 40 (CWrite 0 (VNum 5)) demo_store) as [r2|] eqn:E2;
    [|vm_compute in E2; discriminate E2].
  exists r1, r2. split; [reflexivity|]. split; [reflexivity|]. exact (exec_depth_irrelevant _ _ _ _ _ _ E1 E2).
Defined.

(** Writing an observable: a primitive equal to the one it holds changes
    nothing and calls nothing; otherwise, when nobody listens, exactly the
    value and the version change; and a computed without a write function
    refuses. *)
Theorem write_observable fuel s x o v :
  st_objs s !! x = Some o → 2 ≤ fuel →
  match o_kind o with
  | KObservable latest =>
      (isDifferent o latest v = false →
         exec fuel (CWrite x v) s = Some (s, inl (VSubscribable x))) ∧
      (isDifferent o latest v = true →
         hasSubscriptionsForEvent o "change" = false →
         hasSubscriptionsForEvent o "beforeChange" = false →
         exec fuel (CWrite x v) s =
           Some (set_objs <[x := bump_version (with_kind (KObservable v) o)]> s,
                 inl (VSubscribable x)))
  | KComputed st =>
      writeFunction st = None → exec fuel (CWrite x v) s = Some (s, inr ENoWriteFunction)
  | KSubscribable => True
  end.
Proof.
  intros Hx Hfuel. destruct fuel as [|[|fuel]]; [lia|lia|].
  assert (∀ s0 o0, st_objs s0 !! x = Some o0 → get_obj x s0 = Some (s0, inl o0)) as Hget.
  { intros s0 o0 H0. unfold get_obj, mbind, M_bind. simpl. by rewrite H0. }
  cbn [exec do_call]. unfold write. rewrite (bind_inl _ _ _ _ _ (Hget s o Hx)).
  destruct (o_kind o) as [|latest|st] eqn:Ek; [done| |by intros ->].
  split; intros Hd; rewrite Hd; [done|]. intros Hc Hb.
  set (o2 := bump_version (with_kind (KObservable v) o)).
  assert (notifySubscribers (exec fuel) x latest "beforeChange" s = Some (s, inl tt)) as H1.
  { unfold notifySubscribers. rewrite bool_decide_eq_false_2 by done.
    rewrite (bind_inl (mret tt) _ s s tt eq_refl), (bind_inl _ _ _ _ _ (Hget s o Hx)). by rewrite Hb. }
  set (s1 := set_objs (alter (set_latest v) x) s).
  set (s2 := set_objs (alter bump_version x) s1).
  assert (st_objs s2 !! x = Some o2) as Hx2.
  { subst s2 s1. simpl. rewrite !lookup_alter_eq, Hx. simpl. unfold set_latest. by rewrite Ek. }
  assert (notifySubscribers (exec fuel) x v "change" s1 = Some (s2, inl tt)) as H2.
  { unfold notifySubscribers. rewrite bool_decide_eq_true_2 by done.
    rewrite (bind_inl (updateVersion x) _ s1 s2 tt eq_refl), (bind_inl _ _ _ _ _ (Hget s2 o2 Hx2)).
    change (hasSubscriptionsForEvent o2 "change") with (hasSubscriptionsForEvent o "change").
    by rewrite Hc. }
  cbn [do_call]. rewrite !bind_assoc, (bind_inl _ _ _ _ _ H1).
  rewrite (bind_inl (mret VUndef) _ s s VUndef eq_refl).
  rewrite !bind_assoc, (bind_inl (upd_obj x (set_latest v)) _ s s1 tt eq_refl).
  rewrite !bind_assoc, (bind_inl _ _ _ _ _ H2). unfold mbind, M_bind, mret, M_ret.
  do 2 f_equal. subst s2 s1. unfold set_objs; simpl. f_equal. apply map_eq. intros y.
  destruct (decide (x = y)) as [<-|Hne].
  - rewrite !lookup_alter_eq, lookup_insert_eq, Hx. simpl. unfold set_latest. by rewrite Ek.
  - by rewrite !lookup_alter_ne, lookup_insert_ne.
Qed.

Lemma write_observable_witness :
  exec 2 (CWrite 5 VNull) demo_store = Some (demo_store, inl (VSubscribable 5)).
Proof.
  destruct (st_objs demo_store !! 5) as [o|] eqn:E; [|vm_compute in E; discriminate E].
  pose proof (write_observable 2 demo_store 5 o VNull E (le_n 2)) as H.
  vm_compute in E. injection E as <-. simpl in H. apply H. reflexivity.
Defined.
