(* ===== verification/KoWp.v ===== *)
(** * Knockout: total correctness of the library's functions

    [wp m Q s]: with enough depth of calls, [m] returns normally from [s], and
    its result and final store satisfy [Q].  The rules follow the functions of
    KoStore.v; the depth is existential, so they compose without bookkeeping. *)
From Stdlib Require Import ZArith Lia.
From stdpp Require Import base gmap strings list.
From S2P Require Import Prelude KoStore KoStoreFacts.

Definition wp {A} (m : (call → M value) → M A) (Q : A → store → Prop) (s : store) : Prop :=
  ∃ fuel s' a, (∀ f, fuel ≤ f → m (exec f) s = Some (s', inl a)) ∧ Q a s'.

Section rules.
Context {A : Type}.
Implicit Types (s : store) (Q : A → store → Prop).

Lemma wp_mono (m : (call → M value) → M A) (P Q : A → store → Prop) s :
  wp m P s → (∀ a s', P a s' → Q a s') → wp m Q s.
Proof. intros (fuel & s' & a & H & HP) HQ. exists fuel, s', a. auto. Qed.

Lemma wp_ret (a : A) Q s : Q a s → wp (λ _, mret a) Q s.
Proof. intros HQ. by exists 0, s, a. Qed.

Lemma wp_bind {B} (m : (call → M value) → M B) (k : (call → M value) → B → M A) Q s :
  wp m (λ b s1, wp (λ rec, k rec b) Q s1) s → wp (λ rec, m rec ≫= k rec) Q s.
Proof.
  intros (f1 & s1 & b & H1 & f2 & s2 & a & H2 & HQ). exists (f1 `max` f2), s2, a.
  split; [|done]. intros f Hf. unfold mbind, M_bind. rewrite H1 by lia. apply H2. lia.
Qed.

Lemma wp_finally (m : (call → M value) → M A) (g : (call → M value) → M unit) Q s :
  wp m (λ a s1, wp g (λ _ s2, Q a s2) s1) s → wp (λ rec, finally (m rec) (g rec)) Q s.
Proof.
  intros (f1 & s1 & a & H1 & f2 & s2 & [] & H2 & HQ). exists (f1 `max` f2), s2, a.
  split; [|done]. intros f Hf. unfold finally. rewrite H1, H2 by lia. done.
Qed.

Lemma wp_the (o : option A) a Q s : o = Some a → Q a s → wp (λ _, the o) Q s.
Proof. intros -> HQ. by apply wp_ret. Qed.
End rules.

Lemma wp_get (Q : store → store → Prop) s : Q s s → wp (λ _, get) Q s.
Proof. intros HQ. by exists 0, s, s. Qed.

Lemma wp_modify f (Q : unit → store → Prop) s : Q tt (f s) → wp (λ _, modify f) Q s.
Proof. intros HQ. by exists 0, (f s), tt. Qed.

(** A recursive call is one more level of depth. *)
Lemma wp_call c (Q : value → store → Prop) s :
  wp (λ rec, do_call rec c) Q s → wp (λ rec, rec c) Q s.
Proof.
  intros (fuel & s' & a & H & HQ). exists (S fuel), s', a. split; [|done].
  intros [|f] Hf; [lia|]. simpl. apply H. lia.
Qed.

Lemma wp_get_obj x o (Q : obj → store → Prop) s :
  st_objs s !! x = Some o → Q o s → wp (λ _, get_obj x) Q s.
Proof. intros Hx HQ. exists 0, s, o. split; [|done]. intros. unfold get_obj, mbind, M_bind. simpl. by rewrite Hx. Qed.

Lemma wp_get_sub n sub (Q : subscription → store → Prop) s :
  st_subs s !! n = Some sub → Q sub s → wp (λ _, get_sub n) Q s.
Proof. intros Hx HQ. exists 0, s, sub. split; [|done]. intros. unfold get_sub, mbind, M_bind. simpl. by rewrite Hx. Qed.

Lemma wp_get_track t tk (Q : tracking → store → Prop) s :
  st_tracks s !! t = Some tk → Q tk s → wp (λ _, get_track t) Q s.
Proof. intros Hx HQ. exists 0, s, tk. split; [|done]. intros. unfold get_track, mbind, M_bind. simpl. by rewrite Hx. Qed.

Lemma wp_get_ctx t cx (Q : context → store → Prop) s :
  st_ctxs s !! t = Some cx → Q cx s → wp (λ _, get_ctx t) Q s.
Proof. intros Hx HQ. exists 0, s, cx. split; [|done]. intros. unfold get_ctx, mbind, M_bind. simpl. by rewrite Hx. Qed.

(** The state of a computed. *)
Definition comp (s : store) (c : nat) : option cstate :=
  o ← st_objs s !! c; match o_kind o with KComputed st => Some st | _ => None end.

Lemma comp_Some s c st :
  comp s c = Some st ↔ ∃ o, st_objs s !! c = Some o ∧ o_kind o = KComputed st.
Proof.
  unfold comp. destruct (st_objs s !! c) as [o|]; simpl.
  - destruct (o_kind o) eqn:E; split; try done.
    1-2: intros (o' & [= <-] & E'); congruence.
    + intros [= ->]. by exists o.
    + intros (o' & [= <-] & E'). congruence.
  - split; [done|]. by intros (? & ? & ?).
Qed.

Lemma wp_get_comp c st (Q : cstate → store → Prop) s :
  comp s c = Some st → Q st s → wp (λ _, get_comp c) Q s.
Proof.
  intros (o & Hx & Hk)%comp_Some HQ. exists 0, s, st. split; [|done]. intros.
  unfold get_comp, get_obj, mbind, M_bind. simpl. rewrite Hx. simpl. by rewrite Hk.
Qed.

Lemma wp_new_ref (Q : nat → store → Prop) s : Q (st_next s) (bump_next s) → wp (λ _, new_ref) Q s.
Proof. intros HQ. by exists 0, (bump_next s), (st_next s). Qed.

Lemma wp_new_track t (Q : nat → store → Prop) s :
  Q (st_next s) (set_tracks <[st_next s := t]> (bump_next s)) → wp (λ _, new_track t) Q s.
Proof. intros HQ. by eexists 0, _, (st_next s). Qed.

(** A loop keeps an invariant indexed by the part done and the part to do. *)
Lemma wp_for_each {A} (f : (call → M value) → A → M unit) (I : list A → list A → store → Prop)
    (Q : unit → store → Prop) l s :
  I [] l s → (∀ done s', I done [] s' → Q tt s') →
  (∀ done a todo s, l = done ++ a :: todo → I done (a :: todo) s →
     wp (λ rec, f rec a) (λ _ s', I (done ++ [a]) todo s') s) →
  wp (λ rec, for_each (f rec) l) Q s.
Proof.
  intros H0 HQ Hstep.
  assert (∀ todo done s, l = done ++ todo → I done todo s →
    wp (λ rec, for_each (f rec) todo) (λ _ s', ∃ done, I done [] s') s) as H.
  { clear s H0 HQ. induction todo as [|a todo IH]; intros done s El HI; simpl.
    - apply wp_ret. by exists done.
    - eapply (wp_bind (λ rec, f rec a) (λ rec _, for_each (f rec) todo)).
      eapply wp_mono; [by apply (Hstep done a todo)|]. intros [] s1 HI1. cbn beta.
      apply (IH (done ++ [a])); [by rewrite <-app_assoc|done]. }
  eapply wp_mono; [by apply (H l [])|]. intros [] s1 [d HI]. by eapply HQ.
Qed.

Lemma wp_ext {A} (m m' : (call → M value) → M A) (Q : A → store → Prop) s :
  (∀ rec, m rec s = m' rec s) → wp m' Q s → wp m Q s.
Proof.
  intros E (fuel & s' & a & H & HQ). exists fuel, s', a. split; [|done]. intros f Hf. rewrite E. by apply H.
Qed.

(** What a function keeps, at the end of a run that returns. *)
Lemma wp_keeps {A} (m : (call → M value) → M A) (Q : A → store → Prop) s :
  (∀ fuel, keeps progress (m (exec fuel))) → wf s → wp m Q s →
  wp m (λ a s', Q a s' ∧ wf s' ∧ evolves s s') s.
Proof.
  intros Hm Hwf (fuel & s' & a & H & HQ). exists fuel, s', a. split; [done|]. split; [done|].
  eapply Hm; [|done]. apply (H fuel). lia.
Qed.
