(* ===== verification/KoSheet.v ===== *)
(** * Knockout: the spreadsheet a page of observables implements

    The abstract specification: inputs with values and formulas over the cells
    made before them.  A formula is a read function that only reads, possibly
    other cells for other values ([reader]).  A page's script makes cells,
    writes inputs, reads cells and subscribes callbacks; [sheet_runs] is what
    the specification says it does, a store implements a sheet when every cell
    has its value and every formula is subscribed to exactly what it read. *)
From Stdlib Require Import ZArith Lia.
From stdpp Require Import functions.
From stdpp Require Import base gmap strings list.
From S2P Require Import Prelude KoStore KoStoreFacts KoWp.

(** ** Programs that only read *)

(** [p] reads objects that satisfy [P] and returns. *)
Inductive reader (P : nat → Prop) : prog → Prop :=
  | reader_ret v : reader P (Ret v)
  | reader_read x k : P x → (∀ v, reader P (k v)) → reader P (Vis (ReadC x) k).

(** What it returns and what it reads when the objects' values are [env]. *)
Fixpoint outcome (env : nat → value) (p : prog) : value :=
  match p with
  | Ret v => v
  | Vis (ReadC x) k => outcome env (k (env x))
  | _ => VUndef
  end.

Fixpoint reads (env : nat → value) (p : prog) : list nat :=
  match p with
  | Vis (ReadC x) k => x :: reads env (k (env x))
  | _ => []
  end.

Lemma reader_weaken (P P' : nat → Prop) p : (∀ x, P x → P' x) → reader P p → reader P' p.
Proof. intros HP. induction 1; constructor; auto. Qed.

Lemma reader_reads P p env : reader P p → ∀ x, x ∈ reads env p → P x.
Proof.
  induction 1 as [v|x k HP _ IH]; intros y; simpl; [by intros ?%elem_of_nil|].
  intros [->|Hy]%elem_of_cons; [done|by eapply IH].
Qed.

Lemma outcome_ext P p env env' :
  reader P p → (∀ x, x ∈ reads env p → env x = env' x) →
  outcome env p = outcome env' p ∧ reads env p = reads env' p.
Proof.
  induction 1 as [v|x k HP _ IH]; intros He; simpl; [done|].
  rewrite <-(He x) by by left.
  destruct (IH (env x)) as [H1 H2]; [intros y Hy; apply He; by right|].
  by rewrite H1, H2.
Qed.

(** ** Sheets *)

Inductive cell := Input (v : value) | Formula (p : prog).
Abbreviation sheet := (gmap nat cell).

(** The value of a cell; a formula over earlier cells needs no more levels
    than its own number. *)
Fixpoint cell_at (n : nat) (sh : sheet) (x : nat) : value :=
  match n with
  | 0 => VUndef
  | S n' =>
      match sh !! x with
      | Some (Input v) => v
      | Some (Formula p) => outcome (cell_at n' sh) p
      | None => VUndef
      end
  end.
Definition value_at (sh : sheet) (x : nat) : value := cell_at (S x) sh x.

(** Formulas read cells made before them. *)
Definition sheet_wf (sh : sheet) : Prop :=
  ∀ c p, sh !! c = Some (Formula p) → reader (λ x, x < c ∧ is_Some (sh !! x)) p.

Lemma cell_at_enough sh : sheet_wf sh → ∀ n x, x < n → cell_at n sh x = value_at sh x.
Proof.
  intros Hwf. assert (∀ n m x, x < n → x < m → cell_at n sh x = cell_at m sh x) as H.
  { induction n as [|n IH]; intros [|m] x Hn Hm; [lia|lia|lia|]. simpl.
    destruct (sh !! x) as [[v|p]|] eqn:Ex; [done| |done].
    eapply outcome_ext; [by apply Hwf|]. intros y Hy.
    destruct (reader_reads _ _ _ (Hwf x p Ex) y Hy) as [Hyx _]. apply IH; lia. }
  intros n x Hx. apply H; lia.
Qed.

(** The equation of a cell. *)
Lemma value_at_eq sh x :
  sheet_wf sh →
  value_at sh x = match sh !! x with
                  | Some (Input v) => v
                  | Some (Formula p) => outcome (value_at sh) p
                  | None => VUndef
                  end.
Proof.
  intros Hwf. unfold value_at at 1. simpl. destruct (sh !! x) as [[v|p]|] eqn:Ex; [done| |done].
  eapply outcome_ext; [by apply Hwf|]. intros y Hy.
  destruct (reader_reads _ _ _ (Hwf x p Ex) y Hy) as [Hyx _]. by apply cell_at_enough.
Qed.

(** ** What a script does to a sheet

    References are chosen by the implementation: a new cell is above all
    others. *)
Definition is_new (sh : sheet) (x : nat) : Prop := ∀ y, is_Some (sh !! y) → y < x.

Inductive sheet_runs : sheet → prog → sheet → value → Prop :=
  | runs_ret sh v : sheet_runs sh (Ret v) sh v
  | runs_input sh v x k sh' r :
      is_new sh x → sheet_runs (<[x := Input v]> sh) (k (VSubscribable x)) sh' r →
      sheet_runs sh (Vis (NewObservableC v) k) sh' r
  | runs_formula sh p x k sh' r :
      is_new sh x → sheet_runs (<[x := Formula p]> sh) (k (VSubscribable x)) sh' r →
      sheet_runs sh (Vis (NewComputedC p None false false NoNode None) k) sh' r
  | runs_read sh x k sh' r :
      sheet_runs sh (k (value_at sh x)) sh' r → sheet_runs sh (Vis (ReadC x) k) sh' r
  | runs_peek sh x k sh' r :
      sheet_runs sh (k (value_at sh x)) sh' r → sheet_runs sh (Vis (PeekC x) k) sh' r
  | runs_write sh x v k sh' r :
      sheet_runs (<[x := Input v]> sh) (k (VSubscribable x)) sh' r →
      sheet_runs sh (Vis (WriteC x v) k) sh' r
  | runs_subscribe sh x f e n k sh' r :
      sheet_runs sh (k (VSubscription n)) sh' r → sheet_runs sh (Vis (SubscribeC x f e) k) sh' r.

(** Scripts that keep to the discipline of a sheet, whatever references they
    are given: they write inputs only, their formulas read earlier cells, and
    their callbacks only read. *)
Inductive disciplined : sheet → prog → Prop :=
  | disc_ret sh v : disciplined sh (Ret v)
  | disc_input sh v k :
      (∀ x, is_new sh x → disciplined (<[x := Input v]> sh) (k (VSubscribable x))) →
      disciplined sh (Vis (NewObservableC v) k)
  | disc_formula sh p k :
      reader (λ x, is_Some (sh !! x)) p →
      (∀ x, is_new sh x → disciplined (<[x := Formula p]> sh) (k (VSubscribable x))) →
      disciplined sh (Vis (NewComputedC p None false false NoNode None) k)
  | disc_read sh x k :
      is_Some (sh !! x) → disciplined sh (k (value_at sh x)) → disciplined sh (Vis (ReadC x) k)
  | disc_peek sh x k :
      is_Some (sh !! x) → disciplined sh (k (value_at sh x)) → disciplined sh (Vis (PeekC x) k)
  | disc_write sh x old v k :
      sh !! x = Some (Input old) → disciplined (<[x := Input v]> sh) (k (VSubscribable x)) →
      disciplined sh (Vis (WriteC x v) k)
  | disc_subscribe sh x f e k :
      is_Some (sh !! x) → (∀ v, reader (λ y, is_Some (sh !! y)) (f v)) →
      (∀ n, disciplined sh (k (VSubscription n))) →
      disciplined sh (Vis (SubscribeC x f e) k).
