(* ===== verification/KoSheetInv.v ===== *)
(** * Knockout: the structure behind a sheet

    [structure mid tbl s]: subscriptions, tracking objects and computeds of the
    store fit together, [tbl c] being the dependencies the computed [c] is
    subscribed to.  [mid] is a computed that is being evaluated, whose
    [dependencyTracking] is in flux.  The lemmas follow the updates the library
    makes. *)
From Stdlib Require Import ZArith Lia.
From stdpp Require Import functions.
From stdpp Require Import base gmap strings list.
From S2P Require Import Prelude KoStore KoStoreFacts KoWp KoSheet.

(** The value of an object, as the read functions see it. *)
Definition env (s : store) (x : nat) : value := default VUndef (value_of s x).
Definition readable (s : store) (x : nat) : Prop := is_Some (value_of s x).

(** An ordinary computed: awake, eager, without owner nodes or conditions. *)
Record plain (st : cstate) : Prop := {
  pl_pure : pure st = false;
  pl_awake : isSleeping st = false;
  pl_eager : deferEvaluation st = false;
  pl_node : disposeWhenNodeIsRemoved st = None;
  pl_when : disposeWhen st = None
}.

(** The state of a computed [c]: a disposed one is a constant. *)
Record comp_ok (mid : option nat) (tbl : nat → gmap nat nat) (c : nat) (st : cstate) : Prop := {
  co_plain : plain st;
  co_disposed : isDisposed st = true →
    tbl c = ∅ ∧ readFunction st = Ret (latestValue st) ∧ dependencyTracking st = None;
  co_live : isDisposed st = false → mid ≠ Some c →
    dependencyTracking st = Some (tbl c) ∧ dependenciesCount st = size (tbl c)
}.

(** An object's lists hold its live subscriptions, each once. *)
Record listing (s : store) : Prop := {
  ls_list x o e L n : st_objs s !! x = Some o → o_subscriptions o !! e = Some L → n ∈ L →
    ∃ cb, st_subs s !! n = Some (Subscription x e cb false);
  ls_nodup x o e L : st_objs s !! x = Some o → o_subscriptions o !! e = Some L → NoDup L;
  ls_listed n x e cb : st_subs s !! n = Some (Subscription x e cb false) →
    ∃ o L, st_objs s !! x = Some o ∧ o_subscriptions o !! e = Some L ∧ n ∈ L
}.

Record structure (mid : option nat) (tbl : nat → gmap nat nat) (s : store) : Prop := {
  sr_wf : wf s;
  sr_tracks t : st_next s ≤ t → st_tracks s !! t = None;
  sr_kind x o : st_objs s !! x = Some o → o_kind o ≠ KSubscribable;
  sr_listing : listing s;
  sr_client n x e f b : st_subs s !! n = Some (Subscription x e (CbClient f) b) →
    ∀ v, reader (readable s) (f v);
  sr_tracked n x e c : st_subs s !! n = Some (Subscription x e (CbEvaluate c) false) →
    e = "change" ∧ ∃ id t tk, tbl c !! id = Some t ∧ st_tracks s !! t = Some tk ∧ tk_sub tk = Some n;
  sr_table c id t : tbl c !! id = Some t →
    ∃ n tk o, st_tracks s !! t = Some tk ∧ tk_sub tk = Some n ∧
      st_objs s !! tk_target tk = Some o ∧ o_id o = Some id ∧ tk_target tk < c ∧
      st_subs s !! n = Some (Subscription (tk_target tk) "change" (CbEvaluate c) false) ∧
      is_Some (comp s c);
  sr_comp c st : comp s c = Some st →
    comp_ok mid tbl c st ∧ reader (λ x, x < c ∧ readable s x) (readFunction st)
}.

Lemma sr_list mid tbl s : structure mid tbl s → ∀ x o e L n,
  st_objs s !! x = Some o → o_subscriptions o !! e = Some L → n ∈ L →
  ∃ cb, st_subs s !! n = Some (Subscription x e cb false).
Proof. intros H. apply (ls_list _ (sr_listing _ _ _ H)). Qed.

Lemma sr_listed mid tbl s : structure mid tbl s → ∀ n x e cb,
  st_subs s !! n = Some (Subscription x e cb false) →
  ∃ o L, st_objs s !! x = Some o ∧ o_subscriptions o !! e = Some L ∧ n ∈ L.
Proof. intros H. apply (ls_listed _ (sr_listing _ _ _ H)). Qed.

(** The live subscriptions of an object to an event. *)
Lemma sr_members mid tbl s x o e n :
  structure mid tbl s → st_objs s !! x = Some o →
  n ∈ default [] (o_subscriptions o !! e) ↔ ∃ cb, st_subs s !! n = Some (Subscription x e cb false).
Proof.
  intros Hs Hx. split.
  - destruct (o_subscriptions o !! e) as [L|] eqn:HL; simpl; [|by intros ?%elem_of_nil]. by eapply sr_list.
  - intros [cb Hn]. destruct (sr_listed _ _ _ Hs n x e cb Hn) as (o' & L & Ho & HL & Hin).
    assert (o' = o) as -> by congruence. by rewrite HL.
Qed.

(** ** Looking at changed stores *)

Lemma readable_obj s x o :
  st_objs s !! x = Some o → o_kind o ≠ KSubscribable → readable s x.
Proof. unfold readable, value_of. intros ->. simpl. destruct (o_kind o); [done|by eexists..]. Qed.

Lemma structure_readable mid tbl s x o :
  structure mid tbl s → st_objs s !! x = Some o → readable s x.
Proof. intros Hs Hx. eapply readable_obj; [done|]. by eapply sr_kind. Qed.

Lemma readable_is_obj s x : readable s x → ∃ o, st_objs s !! x = Some o.
Proof. intros [v Hv]. unfold value_of in Hv. destruct (st_objs s !! x) as [o|]; [by exists o|done]. Qed.

Lemma readable_mono s s' :
  (∀ x, readable s x → readable s' x) → ∀ c p,
  reader (λ x, x < c ∧ readable s x) p → reader (λ x, x < c ∧ readable s' x) p.
Proof. intros H c p. apply reader_weaken. intros x [? ?]. auto. Qed.

Lemma comp_alter s f x c :
  comp (set_objs (alter f x) s) c =
    if decide (c = x) then o ← st_objs s !! x; match o_kind (f o) with KComputed st => Some st | _ => None end
    else comp s c.
Proof.
  unfold comp. simpl. destruct (decide (c = x)) as [->|Hne].
  - rewrite lookup_alter_eq. by destruct (st_objs s !! x).
  - by rewrite lookup_alter_ne by done.
Qed.

(** *** Attributes of the objects *)

(** The objects are the same, and the attribute [f] of each. *)
Definition same_attr {A} (f : obj → A) (s s' : store) : Prop :=
  ∀ y, f <$> st_objs s' !! y = f <$> st_objs s !! y.

Lemma same_attr_to {A} (f : obj → A) s s' y o :
  same_attr f s s' → st_objs s !! y = Some o → ∃ o', st_objs s' !! y = Some o' ∧ f o' = f o.
Proof.
  intros H Hy. specialize (H y). rewrite Hy in H. destruct (st_objs s' !! y) as [o'|]; [|done].
  exists o'. split; [done|]. by injection H.
Qed.

Lemma same_attr_sym {A} (f : obj → A) s s' : same_attr f s s' → same_attr f s' s.
Proof. intros H y. by rewrite H. Qed.

Lemma same_attr_from {A} (f : obj → A) s s' y o' :
  same_attr f s s' → st_objs s' !! y = Some o' → ∃ o, st_objs s !! y = Some o ∧ f o = f o'.
Proof. intros H%same_attr_sym. by apply same_attr_to. Qed.

Lemma same_attr_objs {A} (f : obj → A) s s' : st_objs s' = st_objs s → same_attr f s s'.
Proof. intros E y. by rewrite E. Qed.

Lemma same_attr_alter {A} (f : obj → A) s s' g x :
  st_objs s' = alter g x (st_objs s) → (∀ o, st_objs s !! x = Some o → f (g o) = f o) → same_attr f s s'.
Proof.
  intros E Hg y. rewrite E. destruct (decide (y = x)) as [->|Hne].
  - rewrite lookup_alter_eq. destruct (st_objs s !! x) as [o|]; [|done]. simpl. by rewrite Hg.
  - by rewrite lookup_alter_ne.
Qed.

Lemma kinds_comp s s' c : same_attr o_kind s s' → comp s' c = comp s c.
Proof.
  intros H. unfold comp. specialize (H c).
  destruct (st_objs s' !! c), (st_objs s !! c); simplify_eq/=; by rewrite ?H.
Qed.

Lemma kinds_value s s' x : same_attr o_kind s s' → value_of s' x = value_of s x.
Proof.
  intros H. unfold value_of. specialize (H x).
  destruct (st_objs s' !! x), (st_objs s !! x); simplify_eq/=; by rewrite ?H.
Qed.

Lemma kinds_readable s s' x : same_attr o_kind s s' → readable s x → readable s' x.
Proof. intros H. unfold readable. by rewrite (kinds_value s s'). Qed.

Lemma ids_wf s s' :
  same_attr o_id s s' → (∀ n, st_next s' ≤ n → st_subs s' !! n = None) →
  st_next s ≤ st_next s' → st_lastId s ≤ st_lastId s' → wf s → wf s'.
Proof.
  intros Hid Hsub Hn Hl [W1 W2 W3 W4]. split; [|done|..].
  - intros y Hy. destruct (st_objs s' !! y) as [o'|] eqn:E; [|done].
    destruct (same_attr_from _ _ _ _ _ Hid E) as (o & Ho & _). rewrite W1 in Ho by lia. done.
  - intros x y ox oy i Hx Hy Hi Hj.
    destruct (same_attr_from _ _ _ _ _ Hid Hx) as (ox' & Hx' & Ex), (same_attr_from _ _ _ _ _ Hid Hy) as (oy' & Hy' & Ey).
    eapply (W3 x y ox' oy' i); congruence.
  - intros x o i Hx Hi. destruct (same_attr_from _ _ _ _ _ Hid Hx) as (o' & Hx' & Ex).
    etrans; [eapply (W4 x o' i)|]; congruence.
Qed.

(** *** Lists of subscriptions *)

Lemma listing_same s s' :
  same_attr o_subscriptions s s' → st_subs s' = st_subs s → listing s → listing s'.
Proof.
  intros Ho Es [H1 H2 H3]. split; rewrite ?Es.
  - intros x o' e L n Hx. destruct (same_attr_from _ _ _ _ _ Ho Hx) as (o & Hx' & <-). by eapply H1.
  - intros x o' e L Hx. destruct (same_attr_from _ _ _ _ _ Ho Hx) as (o & Hx' & <-). by eapply H2.
  - intros n x e cb Hn. destruct (H3 n x e cb Hn) as (o & L & Hx & HL & Hin).
    destruct (same_attr_to _ _ _ _ _ Ho Hx) as (o' & Hx' & E). exists o', L. by rewrite E.
Qed.

(** The new last element of the subscriptions of an event. *)
Definition add_subscription (e : string) (n : nat) : obj → obj :=
  with_subscriptions (λ m, <[e := default [] (m !! e) ++ [n]]> m).

Lemma listing_subscribe s s' x e cb o n :
  st_objs s !! x = Some o → st_subs s !! n = None →
  st_objs s' = alter (add_subscription e n) x (st_objs s) →
  st_subs s' = <[n := Subscription x e cb false]> (st_subs s) → listing s → listing s'.
Proof.
  intros Hx Hn Eo Es [H1 H2 H3].
  assert (∀ k sub, st_subs s !! k = Some sub → st_subs s' !! k = Some sub) as Hmono.
  { intros k sub Hk. rewrite Es, lookup_insert_ne; [done|]. intros ->. congruence. }
  assert (∀ k e' L, o_subscriptions o !! e' = Some L → k ∈ L →
    ∃ cb, st_subs s' !! k = Some (Subscription x e' cb false)) as Hold.
  { intros k e' L HL Hk. destruct (H1 x o e' L k Hx HL Hk) as [cb' Hcb]. exists cb'. by apply Hmono. }
  split; rewrite Eo.
  - intros y o' e' L k [(<- & o0 & Ho & ->)|[_ Hy]]%lookup_alter_Some HL Hk.
    + assert (o0 = o) as -> by congruence. simpl in HL. apply lookup_insert_Some in HL as [[<- <-]|[_ HL]].
      * apply elem_of_app in Hk as [Hk| ->%list_elem_of_singleton].
        -- destruct (o_subscriptions o !! e) eqn:E; [by eapply Hold|by apply elem_of_nil in Hk].
        -- exists cb. by rewrite Es, lookup_insert_eq.
      * by eapply Hold.
    + destruct (H1 y o' e' L k Hy HL Hk) as [cb' Hcb]. exists cb'. by apply Hmono.
  - intros y o' e' L [(<- & o0 & Ho & ->)|[_ Hy]]%lookup_alter_Some HL; [|by eapply H2].
    assert (o0 = o) as -> by congruence. simpl in HL. apply lookup_insert_Some in HL as [[<- <-]|[_ HL]]; [|by eapply H2].
    destruct (o_subscriptions o !! e) as [L0|] eqn:E; simpl; [|apply NoDup_singleton].
    apply NoDup_app. split_and!; [by eapply H2| |apply NoDup_singleton].
    intros k Hk ->%list_elem_of_singleton. destruct (H1 x o e L0 n Hx E Hk) as [cb' Hcb]. congruence.
  - intros k y e' cb'. rewrite Es. intros [[<- [= <- <- <-]]|[_ Hk]]%lookup_insert_Some.
    + exists (add_subscription e n o). rewrite lookup_alter_eq, Hx. eexists. split; [done|]. simpl.
      rewrite lookup_insert_eq. split; [done|]. apply elem_of_app. right. by left.
    + destruct (H3 k y e' cb' Hk) as (o0 & L & Hy & HL & Hin). destruct (decide (y = x)) as [->|Hne].
      * assert (o0 = o) as -> by congruence. exists (add_subscription e n o). rewrite lookup_alter_eq, Hx.
        simpl. destruct (decide (e' = e)) as [->|].
        -- eexists. split; [done|]. rewrite lookup_insert_eq, HL. split; [done|]. apply elem_of_app. by left.
        -- exists L. split; [done|]. by rewrite lookup_insert_ne.
      * exists o0, L. by rewrite lookup_alter_ne.
Qed.

Lemma elem_of_arrayRemoveItem n m l : NoDup l → m ∈ arrayRemoveItem n l ↔ m ∈ l ∧ m ≠ n.
Proof.
  induction 1 as [|k l Hk _ IH]; simpl.
  - split; [by intros ?%elem_of_nil|by intros [?%elem_of_nil _]].
  - destruct (Nat.eqb_spec k n) as [->|Hne]; rewrite ?elem_of_cons, ?IH.
    + split; [intros Hm; split; [by right|by intros ->]|]. by intros [[?|?] ?].
    + split; [by intros [->|[??]]; auto|]. intros [[?|?] ?]; auto.
Qed.

Lemma NoDup_arrayRemoveItem n l : NoDup l → NoDup (arrayRemoveItem n l).
Proof.
  induction 1 as [|k l Hk Hl IH]; simpl; [constructor|]. destruct (Nat.eqb k n); [done|].
  constructor; [|done]. rewrite elem_of_arrayRemoveItem by done. by intros [? _].
Qed.

(** The store after [dispose] of the subscription [n] to [x]. *)
Definition disposed_sub (n x : nat) (e : string) (s : store) : store :=
  set_objs (alter (with_subscriptions (alter (arrayRemoveItem n) e)) x)
    (set_subs (alter (λ s, Subscription (sub_target s) (sub_event s) (sub_callback s) true) n) s).

Lemma disposed_sub_live n x e s k sub :
  sub_isDisposed sub = false →
  st_subs (disposed_sub n x e s) !! k = Some sub ↔ st_subs s !! k = Some sub ∧ k ≠ n.
Proof.
  intros Hd. simpl. destruct (decide (k = n)) as [->|Hne].
  - rewrite lookup_alter_eq. split; [|by intros [_ ?]].
    destruct (st_subs s !! n); simpl; [intros [= <-]; done|done].
  - rewrite lookup_alter_ne by done. tauto.
Qed.

Lemma listing_dispose s n x e cb :
  st_subs s !! n = Some (Subscription x e cb false) → listing s → listing (disposed_sub n x e s).
Proof.
  intros Hn [H1 H2 H3]. split.
  - intros y o' e' L k Hy HL Hk.
    assert (∃ o0 L0, st_objs s !! y = Some o0 ∧ o_subscriptions o0 !! e' = Some L0 ∧ k ∈ L0 ∧ k ≠ n)
      as (o0 & L0 & Hy0 & HL0 & Hk0 & Hkn).
    { simpl in Hy. apply lookup_alter_Some in Hy as [(<- & o0 & Ho & ->)|[Hne Hy]].
      - simpl in HL. apply lookup_alter_Some in HL as [(-> & L0 & HL0 & ->)|[Hne HL]].
        + apply elem_of_arrayRemoveItem in Hk as [Hk Hkn]; [by exists o0, L0|by eapply H2].
        + exists o0, L. split_and!; [done..|]. intros ->. destruct (H1 x o0 e' L n Ho HL Hk). congruence.
      - exists o', L. split_and!; [done..|]. intros ->. destruct (H1 y o' e' L n Hy HL Hk). congruence. }
    destruct (H1 y o0 e' L0 k Hy0 HL0 Hk0) as [cb' Hcb]. exists cb'. by apply disposed_sub_live.
  - intros y o' e' L Hy HL. simpl in Hy. apply lookup_alter_Some in Hy as [(<- & o0 & Ho & ->)|[_ Hy]]; [|by eapply H2].
    simpl in HL. apply lookup_alter_Some in HL as [(-> & L0 & HL0 & ->)|[_ HL]]; [apply NoDup_arrayRemoveItem|];
      by eapply H2.
  - intros k y e' cb' [Hk Hne]%disposed_sub_live; [|done].
    destruct (H3 k y e' cb' Hk) as (o0 & L & Hy & HL & Hin). simpl. destruct (decide (y = x)) as [->|Hyx].
    + rewrite lookup_alter_eq, Hy. simpl. destruct (decide (e' = e)) as [->|].
      * eexists _, _. split; [done|]. simpl. rewrite lookup_alter_eq, HL. split; [done|].
        apply elem_of_arrayRemoveItem; [by eapply H2|done].
      * eexists _, L. split; [done|]. simpl. by rewrite lookup_alter_ne.
    + exists o0, L. by rewrite lookup_alter_ne.
Qed.

(** ** The updates the library makes *)

(** Stores that agree on objects, subscriptions and tracking. *)
Lemma structure_same mid tbl s s' :
  st_objs s' = st_objs s → st_subs s' = st_subs s → st_tracks s' = st_tracks s →
  st_next s ≤ st_next s' → st_lastId s ≤ st_lastId s' →
  structure mid tbl s → structure mid tbl s'.
Proof.
  intros Ho Hs Ht Hn Hl [H1 H2 H3 H4 H7 H8 H9 H10].
  assert (same_attr o_kind s s') as Hk by by apply same_attr_objs.
  split; rewrite ?Ho, ?Hs, ?Ht; try done.
  - apply (ids_wf s); try done; [by apply same_attr_objs|]. intros n Hnn. rewrite Hs. apply H1. lia.
  - intros t Htt. apply H2. lia.
  - apply (listing_same s); try done. by apply same_attr_objs.
  - intros n x e f b Hn' v. eapply reader_weaken; [|by eapply H7]. intros y. by apply kinds_readable.
  - intros c id t Hct. rewrite (kinds_comp s s' c Hk). by apply H9.
  - intros c st. rewrite (kinds_comp s s' c Hk). intros Hcs. destruct (H10 c st Hcs). split; [done|].
    eapply readable_mono; [|done]. intros x. by apply kinds_readable.
Qed.

(** The changes of one object that leave its id and subscriptions alone. *)
Definition kind_ok mid tbl (x : nat) (k k' : kind) : Prop :=
  match k, k' with
  | KObservable _, KObservable _ => True
  | KComputed st, KComputed st' => comp_ok mid tbl x st' ∧ readFunction st' = readFunction st
  | _, _ => False
  end.

Lemma kind_ok_object mid tbl x k k' : kind_ok mid tbl x k k' → k' ≠ KSubscribable.
Proof. by destruct k, k'. Qed.

Lemma structure_alter mid tbl s x f :
  (∀ o, st_objs s !! x = Some o → o_id (f o) = o_id o ∧ o_subscriptions (f o) = o_subscriptions o ∧
     kind_ok mid tbl x (o_kind o) (o_kind (f o))) →
  structure mid tbl s → structure mid tbl (set_objs (alter f x) s).
Proof.
  intros Hf [H1 H2 H3 H4 H7 H8 H9 H10]. set (s' := set_objs _ s).
  assert (same_attr o_id s s') as Hid by (eapply same_attr_alter; [done|]; intros; by apply Hf).
  assert (∀ y o', st_objs s' !! y = Some o' → o_kind o' ≠ KSubscribable) as Hkind.
  { intros y o'. simpl. intros [(-> & o & Ho & ->)|[_ Ho]]%lookup_alter_Some; [|by eapply H3].
    eapply kind_ok_object. by apply Hf. }
  assert (∀ y, readable s y → readable s' y) as Hread.
  { intros y [o Hy]%readable_is_obj. destruct (same_attr_to _ _ _ _ _ Hid Hy) as (o' & Hy' & _).
    eapply readable_obj; [exact Hy'|by eapply Hkind]. }
  split; try done.
  - apply (ids_wf s); try done; simpl; try lia. apply H1.
  - apply (listing_same s); try done. eapply same_attr_alter; [done|]. intros; by apply Hf.
  - intros n y e g b Hn v. eapply reader_weaken; [apply Hread|by eapply H7].
  - intros c id t Hct. destruct (H9 c id t Hct) as (n & tk & o & ? & ? & Eo & Hoid & ? & ? & [st Hc]).
    destruct (same_attr_to _ _ _ _ _ Hid Eo) as (o' & Ey & Hi). exists n, tk, o'. rewrite Hi. split_and!; try done.
    unfold s'. rewrite comp_alter. destruct (decide (c = x)) as [->|]; [|by exists st].
    apply comp_Some in Hc as (oc & Hxo & Hk). rewrite Hxo. simpl. destruct (Hf oc Hxo) as (_ & _ & Hk').
    rewrite Hk in Hk'. destruct (o_kind (f oc)); [done..|]. by eexists.
  - intros c st. unfold s'. rewrite comp_alter. destruct (decide (c = x)) as [->|Hne].
    + destruct (st_objs s !! x) as [o|] eqn:Ex; [|done]. simpl. destruct (Hf o eq_refl) as (_ & _ & Hk).
      destruct (o_kind (f o)) as [| |st'] eqn:Ek'; [done..|]. intros [= ->].
      destruct (o_kind o) as [| |st0] eqn:Ek; [done..|]. destruct Hk as [Hok Hr]. split; [done|].
      rewrite Hr. destruct (H10 x st0) as [_ Hrd]; [apply comp_Some; by exists o|].
      eapply readable_mono; [apply Hread|done].
    + intros Hc. destruct (H10 c st Hc) as [Hok Hr]. split; [done|].
      eapply readable_mono; [apply Hread|done].
Qed.

(** The changes of a tracking object's order and version. *)
Lemma structure_retrack mid tbl s t f :
  (∀ tk, tk_target (f tk) = tk_target tk ∧ tk_sub (f tk) = tk_sub tk) →
  structure mid tbl s → structure mid tbl (set_tracks (alter f t) s).
Proof.
  intros Hf [Hwf H2 H3 H4 H7 H8 H9 H10].
  assert (∀ u tk, st_tracks s !! u = Some tk → ∃ tk', alter f t (st_tracks s) !! u = Some tk' ∧
    tk_target tk' = tk_target tk ∧ tk_sub tk' = tk_sub tk) as Hfwd.
  { intros u tk Hu. destruct (decide (u = t)) as [->|Hne].
    - rewrite lookup_alter_eq, Hu. exists (f tk). by destruct (Hf tk).
    - rewrite lookup_alter_ne by done. by exists tk. }
  split; simpl; try done.
  - destruct Hwf. by split.
  - intros u Hu. apply lookup_alter_None. by apply H2.
  - by apply (listing_same s).
  - intros n x e c Hn. destruct (H8 n x e c Hn) as (-> & id & u & tk & Hc & Hu & Ht).
    split; [done|]. destruct (Hfwd u tk Hu) as (tk' & Hu' & _ & Hs). exists id, u, tk'. by rewrite Hs.
  - intros c id u Hc. destruct (H9 c id u Hc) as (n & tk & o & Hu & ? & ? & ? & ? & ? & ?).
    destruct (Hfwd u tk Hu) as (tk' & Hu' & Ht & Hs). exists n, tk', o. by rewrite Ht, Hs.
Qed.

(** A first id for an object. *)
Definition numbered (x : nat) (s : store) : store :=
  set_objs (alter (with_id (S (st_lastId s))) x) (bump_id s).

Lemma wf_numbered s x : wf s → wf (numbered x s).
Proof.
  intros [W1 W2 W3 W4].
  assert (∀ y o' i, st_objs (numbered x s) !! y = Some o' → o_id o' = Some i →
    y = x ∧ i = S (st_lastId s) ∨ ∃ o, st_objs s !! y = Some o ∧ o_id o = Some i ∧ i ≤ st_lastId s) as Hinv.
  { intros y o' i. simpl. intros [(-> & o & Ho & ->)|[_ Ho]]%lookup_alter_Some Hi; simpl in Hi.
    - left. split; [done|congruence].
    - right. exists o'. split_and!; [done..|]. by eapply W4. }
  split; simpl.
  - intros y Hy. apply lookup_alter_None. by apply W1.
  - done.
  - intros y z oy oz i Hy Hz Hi Hj.
    destruct (Hinv y oy i Hy Hi) as [[-> E]|(oy' & ? & ? & ?)], (Hinv z oz i Hz Hj) as [[-> E']|(oz' & ? & ? & ?)];
      [done|lia|lia|by eapply W3].
  - intros y oy i Hy Hi. destruct (Hinv y oy i Hy Hi) as [[_ E]|(oy' & ? & ? & ?)]; lia.
Qed.

Lemma structure_new_id mid tbl s x o :
  st_objs s !! x = Some o → o_id o = None → structure mid tbl s → structure mid tbl (numbered x s).
Proof.
  intros Hx Hid [H1 H2 H3 H4 H7 H8 H9 H10]. set (s' := numbered x s).
  assert (same_attr o_kind s s') as Hk by by eapply same_attr_alter.
  split; try done.
  - by apply wf_numbered.
  - intros y o' Hy. destruct (same_attr_from _ _ _ _ _ Hk Hy) as (o0 & Ey & <-). by eapply H3.
  - apply (listing_same s); try done. by eapply same_attr_alter.
  - intros n y e g b Hn v. eapply reader_weaken; [|by eapply H7]. intros z. by apply kinds_readable.
  - intros c id t Hc. rewrite (kinds_comp s s' c Hk).
    destruct (H9 c id t Hc) as (n & tk & o0 & ? & ? & Eo & Hi & ? & ? & ?). exists n, tk, o0.
    split_and!; try done. simpl. rewrite lookup_alter_ne; [done|]. intros ->. congruence.
  - intros c st. rewrite (kinds_comp s s' c Hk). intros Hc. destruct (H10 c st Hc). split; [done|].
    eapply readable_mono; [|done]. intros z. by apply kinds_readable.
Qed.

(** A new subscription, possibly with a new tracking object. *)
Lemma structure_subscribe mid tbl tbl' s s' x e cb o :
  structure mid tbl s → st_objs s !! x = Some o →
  st_objs s' = alter (add_subscription e (st_next s)) x (st_objs s) →
  st_subs s' = <[st_next s := Subscription x e cb false]> (st_subs s) →
  (∀ t tk, st_tracks s !! t = Some tk → st_tracks s' !! t = Some tk) →
  (∀ t, st_next s' ≤ t → st_tracks s' !! t = None) →
  st_next s < st_next s' → st_lastId s' = st_lastId s →
  (∀ f, cb = CbClient f → ∀ v, reader (readable s) (f v)) →
  (∀ c id t, tbl c !! id = Some t → tbl' c !! id = Some t) →
  (∀ c, cb = CbEvaluate c → e = "change" ∧ ∃ id t tk,
     tbl' c !! id = Some t ∧ st_tracks s' !! t = Some tk ∧ tk_sub tk = Some (st_next s)) →
  (∀ c id t, tbl' c !! id = Some t → tbl c !! id = Some t ∨
     ∃ tk o, st_tracks s' !! t = Some tk ∧ tk_sub tk = Some (st_next s) ∧ tk_target tk = x ∧
       st_objs s !! x = Some o ∧ o_id o = Some id ∧ x < c ∧ e = "change" ∧ cb = CbEvaluate c ∧
       is_Some (comp s c)) →
  (∀ c st, comp s c = Some st → comp_ok mid tbl c st → comp_ok mid tbl' c st) →
  structure mid tbl' s'.
Proof.
  intros [H1 H2 H3 H4 H7 H8 H9 H10] Hx Eo Es Et Ef Hn El Hcl Hmono Hev Hnew Hok.
  assert (same_attr o_kind s s') as Hk by by eapply same_attr_alter.
  assert (same_attr o_id s s') as Hid by by eapply same_attr_alter.
  assert (st_subs s !! st_next s = None) as Hfresh by by apply (wf_subs _ H1).
  assert (∀ n sub, st_subs s !! n = Some sub → st_subs s' !! n = Some sub) as Hsubs.
  { intros n sub Hsn. rewrite Es, lookup_insert_ne; [done|]. intros <-. congruence. }
  split.
  - apply (ids_wf s); try done; try lia. intros n Hnn. rewrite Es, lookup_insert_ne by lia. apply H1. lia.
  - done.
  - intros y o' Hy. destruct (same_attr_from _ _ _ _ _ Hk Hy) as (o0 & Ey & <-). by eapply H3.
  - by eapply (listing_subscribe s s').
  - intros n y e' g b. rewrite Es. intros Hn' v. eapply reader_weaken; [intros z; by apply kinds_readable|].
    apply lookup_insert_Some in Hn' as [[<- [= <- <- -> <-]]|[_ Hn']]; [by eapply Hcl|by eapply H7].
  - intros n y e' c. rewrite Es. intros [[<- [= <- <- ->]]|[_ Hn']]%lookup_insert_Some; [by apply Hev|].
    destruct (H8 n y e' c Hn') as (-> & id & t & tk & Hc & Ht & Hsn). split; [done|].
    exists id, t, tk. auto.
  - intros c id t Hc. rewrite (kinds_comp s s' c Hk).
    destruct (Hnew c id t Hc) as [Hc'|(tk & o0 & Ht & Hs & <- & Ho & Hi & Hlt & -> & -> & Hcc)].
    + destruct (H9 c id t Hc') as (n & tk & o0 & Ht & Hs & Ho & Hi & Hlt & Hsn & Hcc).
      destruct (same_attr_to _ _ _ _ _ Hid Ho) as (o' & Ho' & Hi'). exists n, tk, o'. rewrite Hi'. auto 10.
    + destruct (same_attr_to _ _ _ _ _ Hid Ho) as (o' & Ho' & Hi'). exists (st_next s), tk, o'. rewrite Hi'.
      split_and!; try done. by rewrite Es, lookup_insert_eq.
  - intros c st. rewrite (kinds_comp s s' c Hk). intros Hc. destruct (H10 c st Hc) as [Hc1 Hc2].
    split; [by apply Hok|]. eapply readable_mono; [|done]. intros z. by apply kinds_readable.
Qed.

(** The end of a subscription of [c]'s. *)
Lemma structure_dispose mid tbl s c id t tk n :
  mid = Some c → structure mid tbl s → tbl c !! id = Some t →
  st_tracks s !! t = Some tk → tk_sub tk = Some n →
  structure mid (<[c := delete id (tbl c)]> tbl) (disposed_sub n (tk_target tk) "change" s).
Proof.
  intros -> Hstr Hid Ht Hn. pose proof Hstr as [H1 H2 H3 H4 H7 H8 H9 H10].
  destruct (H9 c id t Hid) as (n' & tk' & o & Ht' & Hn' & Ho & Hoid & Hlt & Hsub & [st Hst]).
  assert (tk' = tk) as -> by congruence. assert (n' = n) as -> by congruence. clear Ht' Hn'.
  set (x := tk_target tk) in *. set (s' := disposed_sub n x "change" s).
  assert (same_attr o_kind s s') as Hk by by eapply same_attr_alter.
  assert (same_attr o_id s s') as Hids by by eapply same_attr_alter.
  assert (∀ d i u, <[c := delete id (tbl c)]> tbl d !! i = Some u ↔ tbl d !! i = Some u ∧ ¬ (d = c ∧ i = id)) as Htbl.
  { intros d i u. destruct (decide (d = c)) as [->|Hne].
    - rewrite fn_lookup_insert, lookup_delete_Some. split; intros [Ha Hb]; (split; [|done || intros [_ ->]]);
        try done. intros ->. by apply Hb.
    - rewrite fn_lookup_insert_ne by done. split; [|by intros [? _]]. intros ?. split; [done|by intros [-> _]]. }
  split; try done.
  - apply (ids_wf s); try done. simpl. intros y Hy. apply lookup_alter_None. by apply H1.
  - intros y o' Hy. destruct (same_attr_from _ _ _ _ _ Hk Hy) as (o0 & Ey & <-). by eapply H3.
  - by eapply listing_dispose.
  - intros k y e' g b Hkk v. eapply reader_weaken; [intros z; by apply kinds_readable|].
    simpl in Hkk. apply lookup_alter_Some in Hkk as [(-> & sub0 & Hk0 & Heq)|[_ Hk0]]; [|by eapply H7].
    rewrite Hsub in Hk0. by injection Hk0 as <-.
  - intros k y e' d [Hkk Hne]%disposed_sub_live; [|done].
    destruct (H8 k y e' d Hkk) as (-> & i & u & tku & Hd & Hu & Hku). split; [done|]. exists i, u, tku.
    split_and!; try done. apply Htbl. split; [done|]. intros [-> ->]. congruence.
  - intros d i u [Hd Hni]%Htbl. rewrite (kinds_comp s s' d Hk).
    destruct (H9 d i u Hd) as (k & tku & o0 & Hu & Hku & Eo & Hi & Hlt' & Hks & Hcc).
    destruct (same_attr_to _ _ _ _ _ Hids Eo) as (o' & Ey' & Hi'). exists k, tku, o'. rewrite Hi'. split_and!; try done.
    apply disposed_sub_live; [done|]. split; [done|]. intros ->. rewrite Hsub in Hks. injection Hks as Htx <-.
    apply Hni. split; [done|]. rewrite <-Htx in Eo. congruence.
  - intros d st0. rewrite (kinds_comp s s' d Hk). intros Hd. destruct (H10 d st0 Hd) as [[C1 C2 C3] Hr].
    split; [|eapply readable_mono; [intros z; by apply kinds_readable|done]]. split; [done| |].
    + intros Hdis. destruct (C2 Hdis) as (Htb & ? & ?). split; [|done].
      destruct (decide (d = c)) as [->|]; [|by rewrite fn_lookup_insert_ne].
      rewrite fn_lookup_insert, Htb. apply delete_empty.
    + intros Hdis Hmid. rewrite fn_lookup_insert_ne by congruence. by apply C3.
Qed.

(** A new observable or computed. *)
Definition new_object (k : kind) (s : store) : store :=
  set_objs <[st_next s := Obj {["change" := []]} 1 None false k]> (bump_next s).

Lemma new_object_lookup k s y o :
  st_objs (new_object k s) !! y = Some o ↔
    y = st_next s ∧ o = Obj {["change" := []]} 1 None false k ∨ y ≠ st_next s ∧ st_objs s !! y = Some o.
Proof. simpl. rewrite lookup_insert_Some. split; [intros [[<- <-]|[? ?]]; auto|intros [[-> ->]|[? ?]]; auto]. Qed.

Lemma listing_new k s : st_objs s !! st_next s = None → listing s → listing (new_object k s).
Proof.
  intros Hx [H1 H2 H3]. split.
  - intros y o e L n [[-> ->]|[_ Hy]]%new_object_lookup HL Hin; [|by eapply H1].
    simpl in HL; apply lookup_singleton_Some in HL as [_ <-]. by apply elem_of_nil in Hin.
  - intros y o e L [[-> ->]|[_ Hy]]%new_object_lookup HL; [|by eapply H2].
    simpl in HL; apply lookup_singleton_Some in HL as [_ <-]. constructor.
  - intros n y e cb Hn. destruct (H3 n y e cb Hn) as (o & L & Hy & ? & ?). exists o, L. split; [|done].
    apply new_object_lookup. right. split; [|done]. intros ->. congruence.
Qed.

Lemma wf_new k s : wf s → wf (new_object k s).
Proof.
  intros [W1 W2 W3 W4]. split.
  - intros y Hy. simpl in *. rewrite lookup_insert_ne by lia. apply W1. lia.
  - intros y Hy. simpl in *. apply W2. lia.
  - intros y z oy oz i [[-> ->]|[_ Hy]]%new_object_lookup [[-> ->]|[_ Hz]]%new_object_lookup; try done.
    by eapply W3.
  - intros y oy i [[-> ->]|[_ Hy]]%new_object_lookup; [done|by eapply W4].
Qed.

Lemma structure_new tbl s k :
  structure None tbl s → k ≠ KSubscribable →
  (∀ st, k = KComputed st → plain st ∧ isDisposed st = false ∧ dependencyTracking st = Some ∅ ∧
     dependenciesCount st = 0 ∧ reader (readable s) (readFunction st)) →
  structure None tbl (new_object k s).
Proof.
  intros [H1 H2 H3 H4 H7 H8 H9 H10] Hk Hnew. set (x := st_next s).
  assert (st_objs s !! x = None) as Hx by by apply (wf_objs _ H1).
  assert (∀ y o', st_objs s !! y = Some o' → st_objs (new_object k s) !! y = Some o') as Hfwd.
  { intros y o' Hy. apply new_object_lookup. right. split; [|done]. intros ->. unfold x in Hx. congruence. }
  assert (∀ y, readable s y → readable (new_object k s) y) as Hread.
  { intros y [o' Hy]%readable_is_obj. eapply readable_obj; [by apply Hfwd|by eapply H3]. }
  assert (tbl x = ∅) as Htx.
  { apply map_eq. intros i. rewrite lookup_empty. destruct (tbl x !! i) as [t|] eqn:Et; [|done].
    destruct (H9 x i t Et) as (_ & _ & _ & _ & _ & _ & _ & _ & _ & [st Hc]).
    apply comp_Some in Hc as (? & ? & _). congruence. }
  split; try done.
  - by apply wf_new.
  - simpl. intros t Ht. apply H2. lia.
  - intros y o' [[-> ->]|[_ Hy]]%new_object_lookup; [done|by eapply H3].
  - by apply listing_new.
  - intros n y e f b Hn v. eapply reader_weaken; [apply Hread|by eapply H7].
  - intros c id t Hc. destruct (H9 c id t Hc) as (n & tk & o' & ? & ? & ? & ? & ? & ? & [st Hst]).
    exists n, tk, o'. split_and!; auto. exists st. apply comp_Some in Hst as (o & ? & ?).
    apply comp_Some. exists o. auto.
  - intros c st (o' & [[-> ->]|[_ Hc]]%new_object_lookup & Hkc)%comp_Some.
    + simpl in Hkc. destruct (Hnew st Hkc) as (Hp & Hd & Ht & Hn & Hr). split.
      * split; [done|congruence|]. intros _ _. fold x. by rewrite Htx, Ht, Hn, map_size_empty.
      * eapply reader_weaken; [|exact Hr]. intros y Hy. split; [|by apply Hread].
        destruct (readable_is_obj s y Hy) as [oy Hoy].
        destruct (decide (st_next s ≤ y)); [|lia]. by rewrite (wf_objs _ H1) in Hoy.
    + destruct (H10 c st) as [Hok Hr]; [apply comp_Some; eauto|]. split; [done|by eapply readable_mono].
Qed.
