(* ===== verification/KoSheetRun.v ===== *)
(** * Knockout: evaluating and notifying in a sheet

    The functions of KoStore.v on the stores of KoSheetInv.v: what a read
    function reads becomes what its computed is subscribed to, and when a
    notification returns, every computed that could be out of date has been
    evaluated again. *)
From Stdlib Require Import ZArith Lia.
From stdpp Require Import functions.
From stdpp Require Import base gmap strings sorting list.
From S2P Require Import Prelude KoStore KoStoreFacts KoWp KoSheet KoSheetInv.

Lemma value_comp s x st : comp s x = Some st → value_of s x = Some (latestValue st).
Proof. intros (o & Ho & Hk)%comp_Some. unfold value_of. rewrite Ho. simpl. by rewrite Hk. Qed.

(** ** Reading outside an evaluation *)

Definition is_clean (s : store) (x : nat) : Prop := ∀ st, comp s x = Some st → isDirty st = false.

Lemma structure_awake mid tbl s x st :
  structure mid tbl s → comp s x = Some st → isSleeping st = false ∧ pure st = false ∧ deferEvaluation st = false.
Proof. intros Hs Hx. destruct (sr_comp _ _ _ Hs x st Hx) as [[[]] _]. done. Qed.


Lemma wp_read_value mid tbl s x o (Q : value → store → Prop) :
  structure mid tbl s → st_objs s !! x = Some o → is_clean s x → Q (env s x) s →
  match o_kind o with
  | KSubscribable => False
  | KObservable _ =>
      wp (λ _, o' ← get_obj x;
         match o_kind o' with KObservable v => mret v | _ => throw ETypeError end) Q s
  | KComputed _ =>
      wp (λ rec, st ← get_comp x;
         go ← (if isDirty st then mret true
               else if isSleeping st then haveDependenciesChanged rec x else mret false);
         (if go : bool then rec (CEvaluate x false);; mret tt else mret tt);;
         st' ← get_comp x;
         mret (latestValue st')) Q s
  end.
Proof.
  intros Hs Hx Hc HQ. pose proof (sr_kind _ _ _ Hs x o Hx) as Hk.
  destruct (o_kind o) as [|v|st] eqn:Ek; [done| |].
  - apply wp_bind. eapply wp_get_obj; [done|]. cbn beta. rewrite Ek. apply wp_ret.
    by assert (env s x = v) as <- by (unfold env, value_of; rewrite Hx; simpl; by rewrite Ek).
  - assert (comp s x = Some st) as Hst by (apply comp_Some; eauto).
    destruct (structure_awake _ _ _ _ _ Hs Hst) as (Ha & _ & _).
    apply wp_bind. eapply wp_get_comp; [done|]. cbn beta. rewrite (Hc st Hst), Ha.
    apply wp_bind, wp_ret. cbn beta. apply wp_bind, wp_ret. cbn beta.
    apply wp_bind. eapply wp_get_comp; [done|]. apply wp_ret.
    unfold env in HQ. by rewrite (value_comp s x st Hst) in HQ.
Qed.

Lemma wp_read_quiet mid tbl s x (Q : value → store → Prop) :
  structure mid tbl s → st_current s = None → readable s x → is_clean s x → Q (env s x) s →
  wp (λ rec, rec (CRead x)) Q s.
Proof.
  intros Hs Hcur [o Hx]%readable_is_obj Hc HQ. apply wp_call. simpl. unfold read.
  apply wp_bind. eapply wp_get_obj; [done|]. cbn beta.
  pose proof (wp_read_value _ _ s x o Q Hs Hx Hc HQ) as Hv.
  destruct (o_kind o) as [|v|st]; [done| |].
  all: apply wp_bind; unfold registerDependency; apply wp_bind, wp_get; cbn beta; rewrite Hcur;
    apply wp_ret; exact Hv.
Qed.

(** A program that only reads, run outside an evaluation, changes nothing. *)
Lemma wp_run_quiet mid tbl s p (Q : value → store → Prop) :
  structure mid tbl s → st_current s = None → reader (λ x, readable s x ∧ is_clean s x) p →
  Q (outcome (env s) p) s → wp (λ rec, rec (CRun p)) Q s.
Proof.
  intros Hs Hcur Hp. induction Hp as [v|x k [Hr Hc] _ IH]; intros HQ; apply wp_call; simpl.
  - by apply wp_ret.
  - eapply wp_bind, wp_read_quiet; [done..|]. by apply IH.
Qed.

(** ** Notifications that reach only client code *)

(** The stores agree but for the log. *)
Record only_log (s s' : store) : Prop := {
  ol_objs : st_objs s' = st_objs s;
  ol_subs : st_subs s' = st_subs s;
  ol_tracks : st_tracks s' = st_tracks s;
  ol_ctxs : st_ctxs s' = st_ctxs s;
  ol_next : st_next s' = st_next s;
  ol_current : st_current s' = st_current s;
  ol_outer : st_outer s' = st_outer s;
  ol_lastId : st_lastId s' = st_lastId s
}.

#[export] Instance only_log_preorder : PreOrder only_log.
Proof.
  split; [by split|]. intros s1 s2 s3 [] []. split; congruence.
Qed.

Lemma structure_only_log mid tbl s s' : only_log s s' → structure mid tbl s → structure mid tbl s'.
Proof. intros []. apply structure_same; try done; lia. Qed.

Lemma comp_same s s' c : st_objs s' = st_objs s → comp s' c = comp s c.
Proof. unfold comp. by intros ->. Qed.
Lemma value_same s s' x : st_objs s' = st_objs s → value_of s' x = value_of s x.
Proof. unfold value_of. by intros ->. Qed.

Lemma clean_same s s' x : st_objs s' = st_objs s → is_clean s x → is_clean s' x.
Proof. unfold is_clean. intros E H st. rewrite (comp_same _ _ _ E). apply H. Qed.

(** A client's callback during a notification. *)
Lemma wp_client mid tbl s n x e f v (Q : unit → store → Prop) :
  structure mid tbl s → st_current s = None → (∀ y, is_clean s y) →
  st_subs s !! n = Some (Subscription x e (CbClient f) false) →
  (∀ s', only_log s s' → Q tt s') → wp (λ rec, notify_one rec v n) Q s.
Proof.
  intros Hs Hcur Hcl Hn HQ. unfold notify_one. apply wp_bind. eapply wp_get_sub; [done|]. cbn.
  apply wp_bind, wp_modify. cbn. apply wp_bind. set (s1 := add_log n v s).
  assert (only_log s s1) as Hl by done.
  eapply wp_run_quiet; [by eapply structure_only_log|done| |].
  - eapply reader_weaken; [|by eapply sr_client]. intros y Hy. split; [|by apply (clean_same s)].
    unfold readable in *. by rewrite (value_same s s1).
  - cbn. apply wp_ret. by apply HQ.
Qed.

Lemma wp_notify_other mid tbl s x v e o (Q : value → store → Prop) :
  e ≠ "change" → structure mid tbl s → st_objs s !! x = Some o → (∀ y, is_clean s y) →
  (∀ a s', only_log s s' → Q a s') → wp (λ rec, rec (CNotify x v e)) Q s.
Proof.
  intros He Hs Hx Hcl HQ. apply wp_call. simpl. apply wp_bind. unfold notifySubscribers.
  rewrite bool_decide_eq_false_2 by done. apply wp_bind, wp_ret. cbn.
  apply wp_bind. eapply wp_get_obj; [done|]. cbn.
  destruct (hasSubscriptionsForEvent o e); [|apply wp_ret, wp_ret, HQ; reflexivity].
  apply (wp_finally (λ rec, begin None;; for_each (notify_one rec v) (default [] (o_subscriptions o !! e)))
           (λ _, end_)).
  apply wp_bind, wp_modify. cbn. set (s1 := set_frames None (st_current s :: st_outer s) s).
  eapply (wp_for_each (λ rec, notify_one rec v) (λ _ _ s2, only_log s1 s2)); [reflexivity| |].
  - intros _ s2 []. apply wp_modify, wp_ret, HQ. simpl in *. rewrite ol_outer0.
    by split; simpl; rewrite ?ol_current0.
  - intros l n todo s2 El Hl. destruct Hl as [] eqn:El2. clear El2.
    assert (structure mid tbl s2) as Hs2.
    { eapply structure_same; [..|exact Hs]; simpl in *; try congruence; lia. }
    destruct (o_subscriptions o !! e) as [L|] eqn:EL; simpl in El; [|by destruct l].
    destruct (sr_list _ _ _ Hs x o e L n Hx EL) as [cb Hcb].
    { rewrite El. apply elem_of_app. right. by left. }
    destruct cb as [f|c].
    + eapply wp_client; [exact Hs2|simpl in *; congruence| | |].
      * intros y. eapply clean_same; [|apply Hcl]. simpl in *. congruence.
      * simpl in *. rewrite ol_subs0. exact Hcb.
      * intros s3 Hl3. etrans; [|exact Hl3]. by split.
    + by destruct (sr_tracked _ _ _ Hs n x e c Hcb).
Qed.

(** ** What the evaluation of [c] leaves alone *)

(** From [s] to [s'] values, the other computeds, the targets of tracking
    objects and the live subscriptions of others are kept. *)
Record calm (c : nat) (s s' : store) : Prop := {
  ca_comp d : d ≠ c → comp s' d = comp s d;
  ca_value x : value_of s' x = value_of s x;
  ca_tracks t tk : st_tracks s !! t = Some tk →
    ∃ tk', st_tracks s' !! t = Some tk' ∧ tk_target tk' = tk_target tk;
  ca_subs n sub : st_subs s !! n = Some sub → sub_isDisposed sub = false →
    sub_callback sub ≠ CbEvaluate c → st_subs s' !! n = Some sub
}.

#[export] Instance calm_preorder c : PreOrder (calm c).
Proof.
  split.
  - intros s. split; try done. intros t tk Ht. by exists tk.
  - intros s1 s2 s3 [C1 V1 T1 S1] [C2 V2 T2 S2]. split.
    + intros d Hd. by rewrite C2, C1.
    + intros x. by rewrite V2, V1.
    + intros t tk Ht. destruct (T1 t tk Ht) as (tk2 & Ht2 & E2).
      destruct (T2 t tk2 Ht2) as (tk3 & Ht3 & E3). exists tk3. split; [done|congruence].
    + intros n sub Hn Hd Hc. by apply S2; [apply S1|..].
Qed.

Lemma calm_same c s s' :
  st_objs s' = st_objs s → st_tracks s' = st_tracks s → st_subs s' = st_subs s → calm c s s'.
Proof.
  intros Eo Et Es. split; rewrite ?Et, ?Es; try done.
  - intros d _. by apply comp_same.
  - intros x. by apply value_same.
  - intros t tk Ht. by exists tk.
Qed.

(** An update of [c]'s own state that keeps its value. *)
Lemma calm_upd_comp c f s :
  (∀ st, latestValue (f st) = latestValue st) → calm c s (set_objs (alter (on_comp f) c) s).
Proof.
  intros Hf. split; try done.
  - intros d Hd. rewrite comp_alter. by destruct (decide (d = c)).
  - intros x. unfold value_of. simpl. destruct (decide (x = c)) as [->|Hne].
    + rewrite lookup_alter_eq. destruct (st_objs s !! c) as [o|]; [|done]. simpl.
      unfold on_comp. destruct (o_kind o) eqn:E; simpl; rewrite ?E; try done. by rewrite Hf.
    + by rewrite lookup_alter_ne.
  - intros t tk Ht. by exists tk.
Qed.

Lemma comp_upd_comp c f s st :
  comp s c = Some st → comp (set_objs (alter (on_comp f) c) s) c = Some (f st).
Proof.
  intros (o & Ho & Hk)%comp_Some. rewrite comp_alter. rewrite decide_True by done.
  rewrite Ho. simpl. unfold on_comp. by rewrite Hk.
Qed.

Lemma calm_retrack c f t s :
  (∀ tk, tk_target (f tk) = tk_target tk) → calm c s (set_tracks (alter f t) s).
Proof.
  intros Hf. split; try done. intros u tk Hu. simpl. destruct (decide (u = t)) as [->|Hne].
  - rewrite lookup_alter_eq, Hu. eexists. split; [done|]. apply Hf.
  - rewrite lookup_alter_ne by done. by exists tk.
Qed.

(** An update of an object that keeps its kind. *)
Lemma calm_alter c x f s : (∀ o, o_kind (f o) = o_kind o) → calm c s (set_objs (alter f x) s).
Proof.
  intros Hf. split; try done.
  - intros d _. rewrite comp_alter. unfold comp. destruct (decide (d = x)) as [->|]; [|done].
    destruct (st_objs s !! x); [|done]. simpl. by rewrite Hf.
  - intros y. unfold value_of. simpl. destruct (decide (y = x)) as [->|Hne].
    + rewrite lookup_alter_eq. destruct (st_objs s !! x) as [o|]; [|done]. simpl. by rewrite Hf.
    + by rewrite lookup_alter_ne.
  - intros t tk Ht. by exists tk.
Qed.

Lemma comp_alter_kind x f s c : (∀ o, o_kind (f o) = o_kind o) → comp (set_objs (alter f x) s) c = comp s c.
Proof.
  intros Hf. rewrite comp_alter. unfold comp. destruct (decide (c = x)) as [->|]; [|done].
  destruct (st_objs s !! x); [|done]. simpl. by rewrite Hf.
Qed.

(** ** Dependencies *)

(** What [c] is subscribed to, as its tracking objects say. *)
Definition deps (s : store) (st : cstate) : list nat :=
  omap (λ e, tk_target <$> st_tracks s !! e.2) (map_to_list (default ∅ (dependencyTracking st))).

Lemma elem_of_deps s st x :
  x ∈ deps s st ↔ ∃ id t tk, default ∅ (dependencyTracking st) !! id = Some t ∧
    st_tracks s !! t = Some tk ∧ tk_target tk = x.
Proof.
  unfold deps. rewrite list_elem_of_omap. split.
  - intros ([id t] & Hin & He). apply elem_of_map_to_list in Hin. simpl in He.
    destruct (st_tracks s !! t) as [tk|] eqn:Et; [|done]. simpl in He. exists id, t, tk. split_and!; congruence.
  - intros (id & t & tk & Hid & Ht & <-). exists (id, t).
    split; [by apply elem_of_map_to_list|]. simpl. by rewrite Ht.
Qed.

(** A computed has the value of its read function and is subscribed to exactly
    what that read. *)
Definition consistent (s : store) (c : nat) : Prop :=
  match comp s c with
  | None => True
  | Some st =>
      latestValue st = outcome (env s) (readFunction st) ∧
      Forall (λ x, x ∈ deps s st) (reads (env s) (readFunction st)) ∧
      Forall (λ x, x ∈ reads (env s) (readFunction st)) (deps s st)
  end.

#[export] Instance consistent_dec s c : Decision (consistent s c).
Proof. unfold consistent. destruct (comp s c); apply _. Defined.

Lemma consistent_Some s c st :
  comp s c = Some st → consistent s c ↔
    latestValue st = outcome (env s) (readFunction st) ∧
    ∀ x, x ∈ reads (env s) (readFunction st) ↔ x ∈ deps s st.
Proof.
  intros E. unfold consistent. rewrite E, !Forall_forall. split.
  - intros (Hl & H1 & H2). split; [done|]. intros x. split; auto.
  - intros [Hl H]. split_and!; [done|intros x; apply H..].
Qed.

(** The subscriptions of [d] that were live still are. *)
Definition keeps_live (s s' : store) (d : nat) : Prop :=
  ∀ n x e, st_subs s !! n = Some (Subscription x e (CbEvaluate d) false) →
    st_subs s' !! n = Some (Subscription x e (CbEvaluate d) false).

Lemma calm_keeps_live c s s' d : calm c s s' → d ≠ c → keeps_live s s' d.
Proof. intros [_ _ _ H] Hd n x e Hn. apply H; [done..|]. simpl. congruence. Qed.

Lemma calm_consistent mid tbl c s s' d :
  calm c s s' → structure mid tbl s → mid = Some c ∨ mid = None → d ≠ c →
  consistent s' d ↔ consistent s d.
Proof.
  intros [C V T _] Hs Hmid Hd. unfold consistent. rewrite (C d Hd).
  destruct (comp s d) as [st|] eqn:Ed; [|done].
  destruct (sr_comp _ _ _ Hs d st Ed) as [[_ Hdis Hlive] Hr].
  assert (outcome (env s) (readFunction st) = outcome (env s') (readFunction st) ∧
    reads (env s) (readFunction st) = reads (env s') (readFunction st)) as [<- <-].
  { eapply outcome_ext; [exact Hr|]. intros x _. unfold env. by rewrite V. }
  assert (∀ x, x ∈ deps s' st ↔ x ∈ deps s st) as Hdeps.
  { intros x. rewrite !elem_of_deps. split; intros (id & t & tk & Hid & Ht & Hx).
    - assert (tbl d !! id = Some t) as Htbl.
      { destruct (isDisposed st) eqn:Edis.
        - destruct (Hdis eq_refl) as (_ & _ & E). rewrite E in Hid. done.
        - destruct (Hlive eq_refl) as [E _]; [destruct Hmid; congruence|]. by rewrite E in Hid. }
      destruct (sr_table _ _ _ Hs d id t Htbl) as (n & tk0 & o & Ht0 & _).
      destruct (T t tk0 Ht0) as (tk' & Ht' & E'). exists id, t, tk0. split_and!; [done..|]. congruence.
    - destruct (T t tk Ht) as (tk' & Ht' & E'). exists id, t, tk'. split_and!; [done..|]. congruence. }
  rewrite !Forall_forall. setoid_rewrite Hdeps. done.
Qed.

(** Every computed is consistent, or was not and was left alone. *)
Definition better (s s' : store) : Prop :=
  ∀ d, consistent s' d ∨ (¬ consistent s d ∧ keeps_live s s' d).

#[export] Instance better_preorder : PreOrder better.
Proof.
  split.
  - intros s d. destruct (decide (consistent s d)); [by left|]. right. split; [done|by intros ???].
  - intros s1 s2 s3 H12 H23 d. destruct (H23 d) as [?|[Hn3 Hk3]]; [by left|].
    destruct (H12 d) as [?|[Hn2 Hk2]]; [done|]. right. split; [done|].
    intros n x e Hn. by apply Hk3, Hk2.
Qed.

(** ** Recording what a read function reads *)

Lemma table_target mid tbl s c id u tk x o :
  structure mid tbl s → tbl c !! id = Some u → st_tracks s !! u = Some tk →
  st_objs s !! x = Some o → o_id o = Some id → tk_target tk = x.
Proof.
  intros Hs Hu Ht Ho Hid. destruct (sr_table _ _ _ Hs c id u Hu) as (n & tk' & o' & Ht' & _ & Ho' & Hid' & _).
  assert (tk' = tk) as -> by congruence. by eapply (wf_ids _ (sr_wf _ _ _ Hs)).
Qed.

Lemma wp_getVersion mid tbl s x o (Q : value → store → Prop) :
  structure mid tbl s → st_objs s !! x = Some o → (∀ v, Q (VNum v) s) → wp (λ rec, rec (CGetVersion x)) Q s.
Proof.
  intros Hs Hx HQ. apply wp_call. simpl. unfold getVersion. apply wp_bind. eapply wp_get_obj; [done|]. cbn beta.
  assert (wp (λ rec, match o_kind o with
   | KComputed st =>
       if pure st && isSleeping st then
         go ← (if isStale st then mret true else haveDependenciesChanged rec x);
         if go : bool then rec (CEvaluate x false);; mret tt else mret tt
       else mret tt
   | _ => mret tt
   end) (λ _ s', s' = s) s) as H.
  { destruct (o_kind o) as [| |st] eqn:Ek; [by apply wp_ret..|].
    assert (comp s x = Some st) as Hst by (apply comp_Some; eauto).
    destruct (structure_awake _ _ _ _ _ Hs Hst) as (Ha & Hp & _). rewrite Hp. by apply wp_ret. }
  apply wp_bind. eapply wp_mono; [exact H|]. intros _ s' ->.
  apply wp_bind. eapply wp_get_obj; [done|]. by apply wp_ret.
Qed.

(** The store after [addDependencyTracking]. *)
Definition tracked_store (c id u : nat) (m : gmap nat nat) (k order ver : nat) (s : store) : store :=
  set_tracks (alter (λ t, Tracking (tk_target t) (tk_sub t) (tk_order t) ver) u)
    (set_tracks (alter (λ t, Tracking (tk_target t) (tk_sub t) order (tk_version t)) u)
       (set_objs (alter (on_comp (with_tracking (Some (<[id := u]> m)) k)) c) s)).

Lemma wp_addDependencyTracking mid tbl s c id x u st m o (Q : unit → store → Prop) :
  comp s c = Some st → pure st = false → dependencyTracking st = Some m →
  x ≠ c → st_objs s !! x = Some o →
  (∀ order ver, structure mid tbl (tracked_store c id u m (S (dependenciesCount st)) order ver s)) →
  (∀ order ver, Q tt (tracked_store c id u m (S (dependenciesCount st)) order ver s)) →
  wp (λ rec, addDependencyTracking rec c id x u) Q s.
Proof.
  intros Hc Hp Hm Hxc Hx Hs HQ. unfold addDependencyTracking.
  apply wp_bind. eapply wp_get_comp; [done|]. cbn beta. rewrite Hp. cbn [andb].
  apply wp_bind. eapply wp_the; [exact Hm|]. cbn beta.
  apply wp_bind, wp_modify. cbn beta. apply wp_bind, wp_modify. cbn beta.
  set (s2 := set_tracks _ _). apply wp_bind.
  eapply (wp_getVersion mid tbl s2 x o).
  - specialize (Hs (dependenciesCount st)). unfold tracked_store in Hs.
    (* the version of [s2] is the one it had *)
    destruct (st_tracks s2 !! u) as [tk|] eqn:Eu.
    + specialize (Hs (tk_version tk)). eapply structure_same; [..|exact Hs]; try done.
      simpl. apply map_eq. intros v. unfold s2 in Eu. simpl in Eu. destruct (decide (v = u)) as [->|Hne].
      * rewrite !lookup_alter_eq. rewrite lookup_alter_eq in Eu. destruct (st_tracks s !! u); [|done].
        simpl in *. by injection Eu as <-.
      * by rewrite !lookup_alter_ne by done.
    + specialize (Hs 0). eapply structure_same; [..|exact Hs]; try done.
      simpl. apply map_eq. intros v. unfold s2 in Eu. simpl in Eu. destruct (decide (v = u)) as [->|Hne].
      * rewrite !lookup_alter_eq. rewrite lookup_alter_eq in Eu. by destruct (st_tracks s !! u).
      * by rewrite !lookup_alter_ne by done.
  - unfold s2. simpl. rewrite lookup_alter_ne by done. exact Hx.
  - intros v. cbn beta. apply wp_modify. apply (HQ _ (Z.to_nat v)).
Qed.

(** [subscribe] on an object that needs no waking. *)
Definition subscribed (x : nat) (e : string) (cb : callback) (s : store) : store :=
  set_objs (alter (add_subscription e (st_next s)) x)
    (set_subs <[st_next s := Subscription x e cb false]> (bump_next s)).

Lemma wp_subscribe mid tbl s x e cb o (Q : value → store → Prop) :
  structure mid tbl s → st_objs s !! x = Some o →
  Q (VSubscription (st_next s)) (subscribed x e cb s) → wp (λ rec, rec (CSubscribe x cb e)) Q s.
Proof.
  intros Hs Hx HQ. apply wp_call. simpl. unfold subscribe. apply wp_bind.
  assert (wp (λ rec, beforeSubscriptionAdd rec x e) (λ _ s', s' = s) s) as H.
  { unfold beforeSubscriptionAdd. apply wp_bind. eapply wp_get_obj; [done|]. cbn beta.
    destruct (o_kind o) as [| |st] eqn:Ek; [by apply wp_ret..|].
    assert (comp s x = Some st) as Hst by (apply comp_Some; eauto).
    destruct (structure_awake _ _ _ _ _ Hs Hst) as (Ha & Hp & Hd). rewrite Hp, Hd. by apply wp_ret. }
  eapply wp_mono; [exact H|]. intros _ s' ->. cbn beta. apply wp_bind, wp_new_ref. cbn beta.
  apply wp_bind, wp_modify. cbn beta. apply wp_bind, wp_modify. cbn beta. apply wp_ret. exact HQ.
Qed.

Section reading.
Context (s0 : store) (c t : nat) (ini : option bool) (tbl0 : nat → gmap nat nat) (st0 : cstate).
Hypothesis alive : isDisposed st0 = false.
Hypothesis st0_plain : plain st0.

(** The candidates not crossed off. *)
Definition unused (cand : gmap nat (option nat)) : gmap nat nat := omap id cand.

(** [R] has been read since [s0], when the evaluation of [c] began: it is what
    [c] depends on now; the rest of the old dependencies are candidates. *)
Record reading (m : gmap nat nat) (cand : gmap nat (option nat)) (R : list nat) (s : store) : Prop := {
  rd_current : st_current s = Some (Frame t c ini);
  rd_outer : st_outer s = st_outer s0;
  rd_calm : calm c s0 s;
  rd_comp : comp s c = Some (with_tracking (Some m) (size m) st0);
  rd_ctx : st_ctxs s !! t = Some (Context_ c cand (size (unused cand)));
  rd_disj : m ##ₘ unused cand;
  rd_read x : x ∈ R ↔ ∃ id u tk, m !! id = Some u ∧ st_tracks s !! u = Some tk ∧ tk_target tk = x
}.

Definition fits m cand (s : store) : Prop := structure (Some c) (<[c := m ∪ unused cand]> tbl0) s.

Lemma unused_cross cand id : unused (<[id := None]> cand) = delete id (unused cand).
Proof.
  unfold unused. apply map_eq. intros i. rewrite lookup_omap. destruct (decide (i = id)) as [->|Hne].
  - by rewrite lookup_insert_eq, lookup_delete_eq.
  - by rewrite lookup_insert_ne, lookup_delete_ne, lookup_omap by done.
Qed.

Lemma candidate_lookup cand i :
  (if Nat.eqb (size (unused cand)) 0 then None else mjoin (cand !! i)) = unused cand !! i.
Proof.
  unfold unused. destruct (Nat.eqb_spec (size (omap id cand)) 0) as [E|_].
  - apply map_size_empty_iff in E. by rewrite E, lookup_empty.
  - rewrite lookup_omap. by destruct (cand !! i) as [[]|].
Qed.

(** A structure only sees the dependencies pointwise. *)
Lemma structure_tbl mid tbl tbl' s :
  (∀ d, tbl d = tbl' d) → structure mid tbl s → structure mid tbl' s.
Proof.
  intros E [H1 H2 H3 H4 H7 H8 H9 H10]. split; try done.
  - intros n x e d Hn. destruct (H8 n x e d Hn) as (-> & i & u & tk & Hd & ?). split; [done|].
    exists i, u, tk. by rewrite <-E.
  - intros d i u. rewrite <-E. apply H9.
  - intros d st Hd. destruct (H10 d st Hd) as [[Hp Hdis Hlive] Hr]. split; [|done].
    split; [done|..]; rewrite <-E; done.
Qed.

(** Changes of the computed in evaluation. *)
Lemma structure_upd_mid tbl s f st :
  comp s c = Some st → isDisposed (f st) = false → plain (f st) → readFunction (f st) = readFunction st →
  structure (Some c) tbl s → structure (Some c) tbl (set_objs (alter (on_comp f) c) s).
Proof.
  intros (o & Ho & Hk)%comp_Some Hd Hp Hr. apply structure_alter. intros o'.
  rewrite Ho. intros [= <-]. unfold on_comp. rewrite Hk. simpl. split_and!; try done. split; [done|congruence|done].
Qed.

Lemma rd_read_old m cand R s x id u tk :
  reading m cand R s → m !! id = Some u → st_tracks s !! u = Some tk → tk_target tk = x → x ∈ R.
Proof. intros H ? ? ?. apply (rd_read _ _ _ _ H). eauto 10. Qed.

Lemma tracked_fits m cand m' cand' R s id u k order ver :
  reading m cand R s → fits m' cand' s →
  fits m' cand' (tracked_store c id u m k order ver s).
Proof.
  intros H Hf. unfold tracked_store.
  apply structure_retrack; [done|]. apply structure_retrack; [done|].
  eapply (structure_upd_mid _ _ _ _ (rd_comp _ _ _ _ H)); [done|by destruct st0_plain; split|done|done].
Qed.

Lemma reading_tracked m cand cand' R s x id u order ver tk g :
  reading m cand R s → m !! id = None → st_tracks s !! u = Some tk → tk_target tk = x →
  <[id := u]> m ##ₘ unused cand' →
  g (st_ctxs s) !! t = Some (Context_ c cand' (size (unused cand'))) →
  reading (<[id := u]> m) cand' (R ++ [x])
    (set_ctxs g (tracked_store c id u m (S (size m)) order ver s)).
Proof.
  intros H Hid Hu Ht Hdisj Hg.
  set (f := λ t, Tracking (tk_target t) (tk_sub t) (tk_order t) ver).
  set (h := λ t, Tracking (tk_target t) (tk_sub t) order (tk_version t)).
  assert (∀ v tkv, alter f u (alter h u (st_tracks s)) !! v = Some tkv →
    ∃ tkv0, st_tracks s !! v = Some tkv0 ∧ tk_target tkv = tk_target tkv0) as Hback.
  { intros v tkv. destruct (decide (v = u)) as [->|Hne].
    - rewrite !lookup_alter_eq, Hu. simpl. intros [= <-]. by exists tk.
    - rewrite !lookup_alter_ne by done. by exists tkv. }
  assert (∀ v tkv, st_tracks s !! v = Some tkv → ∃ tkv', alter f u (alter h u (st_tracks s)) !! v = Some tkv' ∧
    tk_target tkv' = tk_target tkv) as Hforth.
  { intros v tkv Hv. destruct (decide (v = u)) as [->|Hne].
    - rewrite !lookup_alter_eq, Hv. by eexists.
    - rewrite !lookup_alter_ne by done. by exists tkv. }
  split.
  - apply H.
  - apply H.
  - etrans; [apply H|]. etrans; [apply (calm_upd_comp c (with_tracking (Some (<[id:=u]> m)) (S (size m)))); done|].
    etrans; [by apply (calm_retrack c h u)|]. etrans; [by apply (calm_retrack c f u)|]. by apply calm_same.
  - rewrite (comp_same (set_objs (alter (on_comp (with_tracking (Some (<[id := u]> m)) (S (size m)))) c) s));
      [|done]. erewrite comp_upd_comp by apply H. by rewrite map_size_insert_None.
  - exact Hg.
  - done.
  - intros y. rewrite elem_of_app, (rd_read _ _ _ _ H), list_elem_of_singleton. simpl. split.
    + intros [(i & v & tkv & Hi & Hv & Hy)| ->].
      * destruct (Hforth v tkv Hv) as (tkv' & Hv' & E). exists i, v, tkv'.
        rewrite lookup_insert_ne by congruence. split_and!; [done..|congruence].
      * destruct (Hforth u tk Hu) as (tkv' & Hv' & E). exists id, u, tkv'.
        rewrite lookup_insert_eq. split_and!; [done..|congruence].
    + intros (i & v & tkv & Hi & Hv & Hy). destruct (Hback v tkv Hv) as (tkv0 & Hv0 & E).
      apply lookup_insert_Some in Hi as [[-> ->]|[_ Hi]]; [right|left].
      * congruence.
      * exists i, v, tkv0. split_and!; [done..|congruence].
Qed.

(** Using an old dependency again. *)
Lemma reuse_fits m cand id u s :
  m ##ₘ unused cand → unused cand !! id = Some u → fits m cand s →
  fits (<[id := u]> m) (<[id := None]> cand) s ∧ <[id := u]> m ##ₘ unused (<[id := None]> cand).
Proof.
  intros Hd Hu Hf. rewrite unused_cross. split.
  - eapply structure_tbl; [|exact Hf]. intros d. destruct (decide (d = c)) as [->|Hne];
      [|by rewrite !fn_lookup_insert_ne]. rewrite !fn_lookup_insert. unfold fits in Hf.
    rewrite unused_cross. apply map_eq. intros i. rewrite !lookup_union.
    destruct (decide (i = id)) as [->|Hi].
    + rewrite lookup_insert_eq, lookup_delete_eq, Hu.
      by rewrite (map_disjoint_Some_r _ _ _ _ Hd Hu).
    + by rewrite lookup_insert_ne, lookup_delete_ne by done.
  - apply map_disjoint_insert_l_2; [apply lookup_delete_eq|].
    by apply map_disjoint_delete_r.
Qed.

(** Subscribing to a new one. *)
Lemma subscribe_fits m cand R s x id o :
  reading m cand R s → fits m cand s → st_objs s !! x = Some o → x < c → o_id o = Some id →
  m !! id = None → unused cand !! id = None →
  fits (<[id := S (st_next s)]> m) cand
    (set_tracks <[S (st_next s) := Tracking x (Some (st_next s)) 0 0]>
      (bump_next (subscribed x "change" (CbEvaluate c) s))).
Proof.
  intros H Hf Hx Hlt Hid Hm Hun. set (t' := S (st_next s)).
  assert (st_tracks s !! t' = None) as Ht' by (apply (sr_tracks _ _ _ Hf); unfold t'; lia).
  eapply (structure_subscribe (Some c) (<[c := m ∪ unused cand]> tbl0)
    (<[c := <[id := t']> m ∪ unused cand]> tbl0) s _ x "change" (CbEvaluate c) o);
    [exact Hf|done|done|done|..].
  - intros u tk Hu. simpl. rewrite lookup_insert_ne; [done|]. intros <-. congruence.
  - intros u Hu. simpl in *. rewrite lookup_insert_ne by (unfold t'; lia).
    apply (sr_tracks _ _ _ Hf). lia.
  - simpl. lia.
  - done.
  - done.
  - intros d i u. destruct (decide (d = c)) as [->|Hne]; [|by rewrite !fn_lookup_insert_ne].
    rewrite !fn_lookup_insert, <-insert_union_l. destruct (decide (i = id)) as [->|Hi].
    + rewrite lookup_union, Hm, Hun. done.
    + by rewrite lookup_insert_ne.
  - intros d [= <-]. split; [done|]. exists id, t'. eexists.
    rewrite fn_lookup_insert, <-insert_union_l, lookup_insert_eq. split; [done|]. simpl.
    by rewrite lookup_insert_eq.
  - intros d i u. destruct (decide (d = c)) as [->|Hne]; [|rewrite !fn_lookup_insert_ne by done; by left].
    rewrite !fn_lookup_insert, <-insert_union_l.
    intros [[<- <-]|[_ Hi]]%lookup_insert_Some; [right|by left].
    exists (Tracking x (Some (st_next s)) 0 0), o. simpl. rewrite lookup_insert_eq.
    split_and!; try done. rewrite (rd_comp _ _ _ _ H). by eexists.
  - intros d st Hd [Hp Hdis Hlive]. split; [done|..].
    + intros E. destruct (decide (d = c)) as [->|Hne].
      * rewrite (rd_comp _ _ _ _ H) in Hd. injection Hd as <-. simpl in E. congruence.
      * rewrite fn_lookup_insert_ne in * by done. by apply Hdis.
    + intros E Hne. rewrite fn_lookup_insert_ne in * by congruence. by apply Hlive.
Qed.

Lemma reading_same m cand R s s' :
  reading m cand R s → st_current s' = st_current s → st_outer s' = st_outer s →
  st_objs s' = st_objs s → st_tracks s' = st_tracks s → st_subs s' = st_subs s →
  st_ctxs s' = st_ctxs s → reading m cand R s'.
Proof.
  intros [] Ec Eo Eb Et Es Ex. split; rewrite ?Ec, ?Eo, ?Et, ?Ex; try done.
  - etrans; [done|by apply calm_same].
  - by rewrite (comp_same s).
Qed.

Lemma calm_subscribed x e cb s : cb = CbEvaluate c → wf s → calm c s (subscribed x e cb s).
Proof.
  intros -> Hwf. etrans; [|by apply (calm_alter c x)]. split; try done.
  - intros u tk Hu. by exists tk.
  - intros n sub Hn Hd Hc. simpl. rewrite lookup_insert_ne; [done|]. intros <-.
    rewrite (wf_subs _ Hwf) in Hn by lia. done.
Qed.

(** What has been read so far, and the structure. *)
Definition read_so_far (R : list nat) (s : store) : Prop :=
  ∃ m cand, reading m cand R s ∧ fits m cand s.

(** A dependency that was there before the evaluation. *)
Lemma wp_candidate R s x id o m cand u :
  reading m cand R s → fits m cand s → st_objs s !! x = Some o → x < c → o_id o = Some id →
  unused cand !! id = Some u →
  wp (λ rec, addDependencyTracking rec c id x u;;
       upd_ctx t (λ y, Context_ (ctx_computed y) (<[id := None]> (ctx_candidates y)) (ctx_count y - 1)))
    (λ _ s', read_so_far (R ++ [x]) s') s.
Proof.
  intros H Hf Hx Hlt Hid Hu.
  assert (m !! id = None) as Hm by (by apply (map_disjoint_Some_r _ _ _ _ (rd_disj _ _ _ _ H) Hu)).
  assert ((<[c := m ∪ unused cand]> tbl0 c) !! id = Some u) as Htb.
  { rewrite fn_lookup_insert, lookup_union, Hm, Hu. done. }
  destruct (sr_table _ _ _ Hf c id u Htb) as (n & tk & _ & Ht & _).
  pose proof (table_target _ _ _ _ _ _ _ _ _ Hf Htb Ht Hx Hid) as Htx.
  destruct (reuse_fits m cand id u s (rd_disj _ _ _ _ H) Hu Hf) as [Hf' Hd'].
  apply wp_bind. eapply wp_addDependencyTracking; [apply H|by destruct st0_plain|done|lia|done|..].
  - intros order ver. by eapply tracked_fits.
  - intros order ver. cbn [dependenciesCount with_tracking]. apply wp_modify.
    exists (<[id := u]> m), (<[id := None]> cand). split.
    + eapply reading_tracked; try done. simpl. rewrite lookup_alter_eq, (rd_ctx _ _ _ _ H). simpl.
      do 2 f_equal. rewrite unused_cross, map_size_delete_Some by done. lia.
    + eapply structure_same; [..|eapply (tracked_fits _ _ _ _ _ _ id u _ order ver H Hf')]; done.
Qed.

(** A dependency read before in this evaluation. *)
Lemma read_again R s x id o m cand u :
  reading m cand R s → fits m cand s → st_objs s !! x = Some o → o_id o = Some id →
  unused cand !! id = None → m !! id = Some u → read_so_far (R ++ [x]) s.
Proof.
  intros H Hf Hx Hid Hu Hm. exists m, cand. split; [|done].
  assert ((<[c := m ∪ unused cand]> tbl0 c) !! id = Some u) as Htb.
  { rewrite fn_lookup_insert, lookup_union, Hm, Hu. done. }
  destruct (sr_table _ _ _ Hf c id u Htb) as (n & tk & _ & Ht & _).
  pose proof (table_target _ _ _ _ _ _ _ _ _ Hf Htb Ht Hx Hid) as Htx.
  assert (x ∈ R) as HxR by (apply (rd_read _ _ _ _ H); eauto 10).
  destruct H. split; try done. intros y. rewrite <-rd_read0, elem_of_app, list_elem_of_singleton.
  split; [|auto]. by intros [?| ->].
Qed.

(** The store after [subscribeToDependency], with the new tracking object. *)
Definition tracking_new (x : nat) (s : store) : store :=
  let s1 := subscribed x "change" (CbEvaluate c) s in
  set_tracks <[S (st_next s) := Tracking x (Some (st_next s)) 0 0]> (bump_next s1).

Lemma reading_new R s x m cand :
  reading m cand R s → fits m cand s → reading m cand R (tracking_new x s).
Proof.
  intros H Hf. unfold tracking_new. set (s1 := subscribed x "change" (CbEvaluate c) s). set (s2 := set_tracks _ _).
  assert (st_tracks s !! S (st_next s) = None) as Ht' by (apply (sr_tracks _ _ _ Hf); lia).
  assert (calm c s s2) as Hcalm.
  { etrans; [apply (calm_subscribed x "change" (CbEvaluate c) s); [done|apply Hf]|].
    split; try done. intros u tk Hu'. exists tk. simpl. rewrite lookup_insert_ne; [done|].
    intros <-. simpl in Hu'. congruence. }
  assert (comp s2 c = comp s c) as Hcomp.
  { unfold s2. rewrite (comp_same s1) by done. unfold s1, subscribed.
    rewrite comp_alter_kind by done. by apply comp_same. }
  destruct H. split; try done.
  - by etrans.
  - by rewrite Hcomp.
  - intros y. rewrite rd_read0. split; intros (i & v & tk & Hi & Hv & Hy); exists i, v, tk;
      (split_and!; [done| |done]); simpl in *.
    + rewrite lookup_insert_ne; [done|]. intros <-. congruence.
    + rewrite lookup_insert_ne in Hv; [done|]. intros <-.
      destruct (sr_table _ _ _ Hf c i (S (st_next s))) as (? & ? & ? & ? & _); [|congruence].
      rewrite fn_lookup_insert, lookup_union, Hi. by destruct (unused cand !! i).
Qed.

(** A dependency read for the first time. *)
Lemma wp_new_dependency R s x id o m cand :
  reading m cand R s → fits m cand s → st_objs s !! x = Some o → x < c → o_id o = Some id →
  unused cand !! id = None → m !! id = None →
  wp (λ rec, tk ← subscribeToDependency rec c x; addDependencyTracking rec c id x tk)
    (λ _ s', read_so_far (R ++ [x]) s') s.
Proof.
  intros H Hf Hx Hlt Hid Hu Hm. apply wp_bind. unfold subscribeToDependency. apply wp_bind.
  eapply wp_subscribe; [done..|]. apply wp_new_track. cbn beta. set (t' := S (st_next s)).
  change (set_tracks _ _) with (tracking_new x s). set (s2 := tracking_new x s).
  assert (fits (<[id := t']> m) cand s2) as Hf2 by (eapply (subscribe_fits m cand R s x id o); done).
  assert (reading m cand R s2) as H2 by by apply reading_new.
  eapply (wp_addDependencyTracking (Some c) (<[c := <[id := t']> m ∪ unused cand]> tbl0) s2 c id x t' _ m
    (add_subscription "change" (st_next s) o));
    [apply H2|by destruct st0_plain|done|lia| | |].
  - simpl. by rewrite lookup_alter_eq, Hx.
  - intros order ver. by eapply tracked_fits.
  - intros order ver. exists (<[id := t']> m), cand. split; [|by eapply tracked_fits].
    eapply (reading_tracked m cand cand R s2 x id t' order ver _ (λ m, m)); [done|done| | | |].
    + simpl. by rewrite lookup_insert_eq.
    + done.
    + by apply map_disjoint_insert_l_2; [|apply H].
    + simpl. by rewrite (rd_ctx _ _ _ _ H).
Qed.

Lemma wp_detect R s x id o :
  read_so_far R s → st_objs s !! x = Some o → x < c → o_id o = Some id →
  wp (λ rec, computedBeginDependencyDetectionCallback rec t x id) (λ _ s', read_so_far (R ++ [x]) s') s.
Proof.
  intros (m & cand & H & Hf) Hx Hlt Hid. unfold computedBeginDependencyDetectionCallback.
  apply wp_bind. eapply wp_get_ctx; [apply H|]. cbn [ctx_computed ctx_count ctx_candidates].
  apply wp_bind. eapply wp_get_comp; [apply H|]. cbn [isDisposed with_tracking]. rewrite alive.
  rewrite candidate_lookup. destruct (unused cand !! id) as [u|] eqn:Hu; [by eapply wp_candidate|].
  apply wp_bind. eapply wp_the; [done|]. cbn beta. destruct (m !! id) as [u|] eqn:Hm.
  - apply wp_ret. by eapply read_again.
  - assert (isSleeping (with_tracking (Some m) (size m) st0) = false) as -> by apply st0_plain.
    by eapply wp_new_dependency.
Qed.

Lemma wp_register R s x o :
  read_so_far R s → st_objs s !! x = Some o → x < c →
  wp (λ rec, registerDependency rec x) (λ _ s', read_so_far (R ++ [x]) s') s.
Proof.
  intros (m & cand & H & Hf) Hx Hlt. unfold registerDependency. apply wp_bind, wp_get. cbn beta.
  rewrite (rd_current _ _ _ _ H). cbn [fr_ctx]. apply wp_bind. eapply wp_get_obj; [done|]. cbn beta.
  destruct (o_id o) as [id|] eqn:Hid.
  - apply wp_bind, wp_ret. cbn beta. eapply wp_detect; [by exists m, cand|done..].
  - apply wp_bind. apply wp_bind, wp_modify. cbn beta. apply wp_bind, wp_modify. cbn beta.
    apply wp_ret. cbn beta. set (s1 := set_objs _ _).
    eapply (wp_detect R s1 x _ (with_id (S (st_lastId s)) o)).
    + exists m, cand. split; [|by eapply structure_new_id].
      destruct H. split; try done.
      * etrans; [exact rd_calm0|]. etrans; [by apply (calm_same c s (bump_id s))|]. by apply calm_alter.
      * unfold s1. rewrite comp_alter_kind by done. by rewrite (comp_same s).
    + simpl. by rewrite lookup_alter_eq, Hx.
    + done.
    + done.
Qed.

Hypothesis clean0 : ∀ x, x < c → is_clean s0 x.

Lemma wp_read_tracked R s x :
  read_so_far R s → readable s0 x → x < c →
  wp (λ rec, rec (CRead x)) (λ a s', a = env s0 x ∧ read_so_far (R ++ [x]) s') s.
Proof.
  intros Hs Hr Hlt. destruct Hs as (m & cand & H & Hf).
  assert (∀ s', read_so_far (R ++ [x]) s' → env s' x = env s0 x ∧ is_clean s' x ∧ readable s' x) as Hs'.
  { intros s' (m' & cand' & H' & _). destruct (rd_calm _ _ _ _ H') as [C V _ _]. split_and!.
    - unfold env. by rewrite V.
    - intros st. rewrite C by lia. by apply clean0.
    - unfold readable. by rewrite V. }
  assert (readable s x) as [o Hx]%readable_is_obj.
  { unfold readable. by rewrite (ca_value _ _ _ (rd_calm _ _ _ _ H)). }
  apply wp_call. simpl. unfold read. apply wp_bind. eapply wp_get_obj; [done|]. cbn beta.
  assert (∀ s', read_so_far (R ++ [x]) s' → ∃ o', st_objs s' !! x = Some o' ∧
    match o_kind o, o_kind o' with
    | KObservable _, KObservable _ | KComputed _, KComputed _ => True | _, _ => False end) as Hkind.
  { intros s' Hs2. destruct (Hs' s' Hs2) as (He & _ & [o' Ho']%readable_is_obj). exists o'. split; [done|].
    destruct Hs2 as (m' & cand' & H' & Hf').
    pose proof (ca_comp _ _ _ (rd_calm _ _ _ _ H) x ltac:(lia)) as C1.
    pose proof (ca_comp _ _ _ (rd_calm _ _ _ _ H') x ltac:(lia)) as C2.
    pose proof (sr_kind _ _ _ Hf x o Hx) as Hk1. pose proof (sr_kind _ _ _ Hf' x o' Ho') as Hk2.
    unfold comp in C1, C2. rewrite Hx in C1. rewrite Ho' in C2. rewrite <-C2 in C1. simpl in C1.
    by destruct (o_kind o), (o_kind o'). }
  pose proof (sr_kind _ _ _ Hf x o Hx) as Hk.
  destruct (o_kind o) as [|v|st] eqn:Ek; [done| |].
  all: apply wp_bind; eapply wp_mono; [eapply wp_register; [by exists m, cand|done..]|];
    intros [] s' Hs2; cbn beta in Hs2 |- *;
    destruct (Hs' s' Hs2) as (He & Hc & Hr'), (Hkind s' Hs2) as (o' & Ho' & Hk');
    pose proof Hs2 as (m' & cand' & H' & Hf');
    pose proof (wp_read_value _ _ s' x o' (λ a s'', a = env s0 x ∧ read_so_far (R ++ [x]) s'') Hf' Ho' Hc) as Hv;
    destruct (o_kind o'); try done; apply Hv; by split.
Qed.

Lemma wp_run_tracked p : ∀ R s,
  reader (λ x, x < c ∧ readable s0 x) p → read_so_far R s →
  wp (λ rec, rec (CRun p)) (λ a s', a = outcome (env s0) p ∧ read_so_far (R ++ reads (env s0) p) s') s.
Proof.
  intros R s Hp Hs. revert R s Hs. induction Hp as [v|x k [Hlt Hr] _ IH]; intros R s Hs; apply wp_call; simpl.
  - apply wp_ret. by rewrite app_nil_r.
  - apply wp_bind. eapply wp_mono; [by apply wp_read_tracked|]. intros a s' [-> Hs'].
    eapply wp_mono; [by apply (IH (env s0 x) (R ++ [x]))|]. intros a s'' [-> Hs''].
    split; [done|]. by rewrite <-app_assoc in Hs''.
Qed.
End reading.

(** ** Disposing what was not read again *)

Lemma wp_dispose_sub mid tbl s n x e cb o (Q : value → store → Prop) :
  st_subs s !! n = Some (Subscription x e cb false) → st_objs s !! x = Some o →
  structure mid tbl s → Q VUndef (disposed_sub n x e s) → wp (λ rec, rec (CDisposeSubscription n)) Q s.
Proof.
  intros Hn Hx Hs HQ. apply wp_call. simpl. apply wp_bind. unfold dispose_subscription.
  apply wp_bind. eapply wp_get_sub; [done|]. cbn [sub_target sub_event].
  apply wp_bind, wp_modify. cbn beta. apply wp_bind, wp_modify. cbn beta.
  change (set_objs _ _) with (disposed_sub n x e s). unfold afterSubscriptionRemove.
  apply wp_bind. eapply (wp_get_obj x).
  - simpl. by rewrite lookup_alter_eq, Hx.
  - cbn beta. destruct (o_kind _) as [| |st] eqn:Ek; [by apply wp_ret, wp_ret..|].
    simpl in Ek. assert (comp s x = Some st) as Hst by (apply comp_Some; eauto).
    destruct (structure_awake _ _ _ _ _ Hs Hst) as (_ & Hp & _). rewrite Hp. by apply wp_ret, wp_ret.
Qed.

Lemma calm_disposed c n x e y e' s :
  st_subs s !! n = Some (Subscription y e' (CbEvaluate c) false) → calm c s (disposed_sub n x e s).
Proof.
  intros Hn. unfold disposed_sub. etrans; [|by apply calm_alter]. split; try done.
  - intros t tk Ht. by exists tk.
  - intros k sub Hk Hd Hc. simpl. rewrite lookup_alter_ne; [done|]. intros <-.
    rewrite Hn in Hk. injection Hk as <-. done.
Qed.

Lemma entries_to_map {A} (m : gmap nat A) : NoDup (entries m).*1 ∧ list_to_map (entries m) = m.
Proof.
  assert (entries m ≡ₚ map_to_list m) as Hp by apply merge_sort_Permutation.
  assert (NoDup (entries m).*1) as Hn by (rewrite Hp; apply NoDup_fst_map_to_list).
  split; [done|]. rewrite (list_to_map_proper (entries m) (map_to_list m)) by done.
  apply list_to_map_to_list.
Qed.

(** The parts of the store that disposing leaves. *)
Record same_frame (s s' : store) : Prop := {
  sf_current : st_current s' = st_current s;
  sf_outer : st_outer s' = st_outer s;
  sf_tracks : st_tracks s' = st_tracks s;
  sf_comp d : comp s' d = comp s d
}.

#[export] Instance same_frame_preorder : PreOrder same_frame.
Proof. split; [by split|]. intros s1 s2 s3 [] []. split; try congruence. Qed.

Lemma wp_dispose_candidates c tbl0 m cand s :
  m ##ₘ unused cand → structure (Some c) (<[c := m ∪ unused cand]> tbl0) s →
  wp (λ rec, for_each (dispose_candidate rec) (entries cand))
    (λ _ s', structure (Some c) (<[c := m]> tbl0) s' ∧ calm c s s' ∧ same_frame s s') s.
Proof.
  intros Hd Hs. destruct (entries_to_map cand) as [Hnd Hmap].
  eapply (wp_for_each (λ rec, dispose_candidate rec) (λ _ todo s',
    structure (Some c) (<[c := m ∪ unused (list_to_map todo)]> tbl0) s' ∧ calm c s s' ∧ same_frame s s')).
  - rewrite Hmap. split_and!; [done|reflexivity..].
  - intros _ s' (H1 & H2 & H3). split_and!; [|done..]. eapply structure_tbl; [|exact H1]. intros d.
    destruct (decide (d = c)) as [->|Hne]; [|by rewrite !fn_lookup_insert_ne].
    rewrite !fn_lookup_insert. simpl. unfold unused. by rewrite omap_empty, (right_id_L ∅ (∪)).
  - intros l [id [u|]] todo s1 El (H1 & H2 & H3); unfold dispose_candidate; simpl.
    all: rewrite El, fmap_app in Hnd; apply NoDup_app in Hnd as (_ & _ & Hnd); simpl in Hnd;
      apply NoDup_cons in Hnd as [Hid Hnd].
    all: assert (unused (list_to_map todo) !! id = None) as Hno by
      (unfold unused; rewrite lookup_omap, not_elem_of_list_to_map_1 by done; done).
    + assert (m !! id = None) as Hm.
      { apply (map_disjoint_Some_r _ _ id u Hd). unfold unused. rewrite lookup_omap, <-Hmap, El.
        rewrite list_to_map_app, lookup_union_r; [by simpl; rewrite lookup_insert_eq|].
        apply not_elem_of_list_to_map_1. intros Hin.
        destruct (entries_to_map cand) as [Hn2 _]. rewrite El, fmap_app in Hn2.
        apply NoDup_app in Hn2 as (_ & Hx & _). apply (Hx id Hin). by left. }
      assert ((<[c := m ∪ unused (list_to_map ((id, Some u) :: todo))]> tbl0 c) !! id = Some u) as Htb.
      { rewrite fn_lookup_insert, lookup_union, Hm. unfold unused. simpl.
        by rewrite lookup_omap, lookup_insert_eq. }
      destruct (sr_table _ _ _ H1 c id u Htb) as (n & tk & o & Ht & Htn & Ho & _ & _ & Hsub & _).
      unfold dispose_entry. apply wp_bind. eapply wp_get_track; [done|]. cbn beta. rewrite Htn.
      apply wp_bind. eapply wp_dispose_sub; [done..|]. apply wp_ret. split_and!.
      * eapply structure_tbl; [|eapply structure_dispose; [done|exact H1|exact Htb|done..]].
        intros d. destruct (decide (d = c)) as [->|Hne]; [|by rewrite !fn_lookup_insert_ne].
        rewrite !fn_lookup_insert, delete_union, (delete_id m) by done. f_equal.
        unfold unused. simpl. rewrite (omap_insert_Some _ _ _ (Some u) u) by done.
        apply delete_insert_id. exact Hno.
      * etrans; [exact H2|]. by eapply calm_disposed.
      * etrans; [exact H3|]. split; try done. intros d. unfold disposed_sub.
        rewrite comp_alter_kind by done. by apply comp_same.
    + apply wp_ret. split_and!; [|done..]. eapply structure_tbl; [|exact H1].
      intros d. destruct (decide (d = c)) as [->|Hne]; [|by rewrite !fn_lookup_insert_ne].
      rewrite !fn_lookup_insert. f_equal. simpl. rewrite unused_cross. by apply delete_id.
Qed.

(** ** One evaluation of a read function *)

Lemma structure_open tbl s c : structure None tbl s → structure (Some c) tbl s.
Proof.
  intros [H1 H2 H3 H4 H7 H8 H9 H10]. split; try done.
  intros d st Hd. destruct (H10 d st Hd) as [[Hp Hdis Hlive] Hr]. split; [|done].
  split; [done|done|]. intros E _. by apply Hlive.
Qed.

Lemma structure_close tbl s c st :
  structure (Some c) tbl s → comp s c = Some st → isDisposed st = false →
  dependencyTracking st = Some (tbl c) → dependenciesCount st = size (tbl c) → structure None tbl s.
Proof.
  intros [H1 H2 H3 H4 H7 H8 H9 H10] Hc Ha Ht Hn. split; try done.
  intros d st' Hd. destruct (H10 d st' Hd) as [[Hp Hdis Hlive] Hr]. split; [|done].
  split; [done|done|]. intros E _. destruct (decide (d = c)) as [->|Hne].
  - assert (st' = st) as -> by congruence. done.
  - apply Hlive; [done|congruence].
Qed.

(** The evaluation from [begin] to the end of its [finally]. *)
Definition call_read (c : nat) (rec : call → M value) : M value :=
  st ← get_comp c;
  t ← new_ref;
  modify (set_ctxs <[t := Context_ c (Some <$> default ∅ (dependencyTracking st))
                            (dependenciesCount st)]>);;
  begin (Some (Frame t c (Some (Nat.eqb (dependenciesCount st) 0))));;
  upd_comp c (with_tracking (Some ∅) 0);;
  finally (rec (CRun (readFunction st))) (end_evaluation rec c t).

Record evaluated (tbl : nat → gmap nat nat) (c : nat) (st : cstate) (s s' : store) : Prop := {
  ev_structure : ∃ m, structure None (<[c := m]> tbl) s' ∧
    comp s' c = Some (fresh (with_tracking (Some m) (size m) st));
  ev_calm : calm c s s';
  ev_reads st' : comp s' c = Some st' →
    ∀ x, x ∈ reads (env s) (readFunction st) ↔ x ∈ deps s' st';
  ev_cur : st_current s' = st_current s;
  ev_out : st_outer s' = st_outer s
}.

Lemma wp_end_evaluation tbl c st s0 s t ini R f outer :
  isDisposed st = false → plain st → st_outer s0 = f :: outer →
  read_so_far s0 c t ini tbl st R s →
  wp (λ rec, end_evaluation rec c t)
    (λ _ s', (∃ m, structure None (<[c := m]> tbl) s' ∧
        comp s' c = Some (fresh (with_tracking (Some m) (size m) st)) ∧
        ∀ x, x ∈ R ↔ x ∈ deps s' (fresh (with_tracking (Some m) (size m) st))) ∧
      calm c s s' ∧ st_current s' = f ∧ st_outer s' = outer) s.
Proof.
  intros Ha Hp Hout (m & cand & H & Hf). unfold end_evaluation.
  apply wp_bind, wp_modify. cbn beta. rewrite (rd_outer _ _ _ _ _ _ _ _ _ H), Hout.
  set (s1 := set_frames f outer s).
  apply wp_bind. eapply (wp_get_ctx t); [apply H|]. cbn [ctx_count ctx_candidates].
  apply wp_bind. eapply wp_get_comp; [rewrite (comp_same s) by done; apply H|]. cbn beta.
  assert (isSleeping (with_tracking (Some m) (size m) st) = false) as -> by apply Hp. cbn [negb].
  rewrite andb_true_r.
  assert (structure (Some c) (<[c := m ∪ unused cand]> tbl) s1) as Hs1 by (by eapply structure_same; [..|exact Hf]).
  apply wp_bind. eapply (wp_mono _ (λ _ s', structure (Some c) (<[c := m]> tbl) s' ∧ calm c s1 s' ∧ same_frame s1 s')).
  { destruct (Nat.eqb_spec (size (unused cand)) 0) as [E|E]; cbn [negb].
    - apply wp_ret. apply map_size_empty_iff in E. rewrite E, (right_id_L ∅ (∪)) in Hs1.
      split_and!; [done|reflexivity..].
    - apply wp_dispose_candidates; [apply H|done]. }
  intros [] s2 (H1 & H2 & H3). cbn beta. apply wp_modify. set (s3 := set_objs _ s2).
  assert (comp s2 c = Some (with_tracking (Some m) (size m) st)) as Hc2.
  { rewrite (sf_comp _ _ H3), (comp_same s) by done. apply H. }
  assert (comp s3 c = Some (fresh (with_tracking (Some m) (size m) st))) as Hc3 by by apply comp_upd_comp.
  split_and!.
  - exists m. split_and!; [|done|].
    + eapply structure_close; [|exact Hc3|done|..].
      * eapply structure_upd_mid; [exact Hc2|done|by destruct Hp; split|done|exact H1].
      * simpl. by rewrite fn_lookup_insert.
      * simpl. by rewrite fn_lookup_insert.
    + intros x. rewrite (rd_read _ _ _ _ _ _ _ _ _ H), elem_of_deps. simpl.
      by rewrite (sf_tracks _ _ H3).
  - etrans; [by apply (calm_same c s s1)|]. etrans; [exact H2|]. by apply calm_upd_comp.
  - simpl. by rewrite (sf_current _ _ H3).
  - simpl. by rewrite (sf_outer _ _ H3).
Qed.

Lemma wp_call_read tbl c st s (Q : value → store → Prop) :
  structure None tbl s → comp s c = Some st → isDisposed st = false →
  (∀ x, x < c → is_clean s x) →
  (∀ s', evaluated tbl c st s s' → Q (outcome (env s) (readFunction st)) s') →
  wp (call_read c) Q s.
Proof.
  intros Hs Hc Ha Hclean HQ. destruct (sr_comp _ _ _ Hs c st Hc) as [[Hp _ Hlive] Hr].
  destruct (Hlive Ha) as [Ht Hn]; [done|]. unfold call_read.
  apply wp_bind. eapply wp_get_comp; [done|]. cbn beta. apply wp_bind, wp_new_ref. cbn beta.
  apply wp_bind, wp_modify. cbn beta. apply wp_bind, wp_modify. cbn beta. apply wp_bind, wp_modify. cbn beta.
  rewrite Ht. change (default ∅ (Some (tbl c))) with (tbl c). set (t := st_next s).
  set (ini := Some (Nat.eqb (dependenciesCount st) 0)).
  set (sa := set_frames _ _ _). set (s0 := set_objs _ sa).
  assert (unused (Some <$> tbl c) = tbl c) as Hun.
  { unfold unused. apply map_eq. intros i. rewrite lookup_omap, lookup_fmap. by destruct (tbl c !! i). }
  assert (comp sa c = Some st) as Hca by (by rewrite (comp_same s)).
  assert (calm c s s0) as Hcalm0.
  { etrans; [by apply (calm_same c s sa)|]. by apply calm_upd_comp. }
  assert (read_so_far s0 c t ini tbl st [] s0) as H0.
  { exists ∅, (Some <$> tbl c). split; [split|].
    - done.
    - done.
    - reflexivity.
    - unfold s0. erewrite comp_upd_comp by done. by rewrite map_size_empty.
    - unfold s0, sa. simpl. by rewrite lookup_insert_eq, Hun, Hn.
    - apply map_disjoint_empty_l.
    - intros x. split; [by intros ?%elem_of_nil|]. intros (? & ? & ? & E & _). done.
    - unfold fits. rewrite Hun, (left_id_L ∅ (∪)). eapply structure_tbl.
      { intros d. instantiate (1 := tbl). destruct (decide (d = c)) as [->|];
          [by rewrite fn_lookup_insert|by rewrite fn_lookup_insert_ne]. }
      eapply structure_upd_mid; [exact Hca|done|by destruct Hp; split|done|].
      apply structure_open. eapply structure_same; [..|exact Hs]; try done. simpl. lia. }
  assert (∀ x, env s0 x = env s x) as Henv by (intros x; unfold env; by rewrite (ca_value _ _ _ Hcalm0)).
  destruct (outcome_ext _ _ (env s) (env s0) Hr) as [Eo Er]; [by intros|].
  apply (wp_finally (λ rec, rec (CRun (readFunction st))) (λ rec, end_evaluation rec c t)).
  eapply wp_mono; [eapply (wp_run_tracked s0 c t ini tbl st Ha Hp)|].
  - intros x Hx st' Hst'. apply (Hclean x Hx). rewrite <-Hst'. symmetry. apply (ca_comp _ _ _ Hcalm0). lia.
  - eapply reader_weaken; [|exact Hr]. intros x [Hx Hrx]. split; [done|]. unfold readable.
    by rewrite (ca_value _ _ _ Hcalm0).
  - exact H0.
  - cbn beta. intros a s1 [-> H1]. rewrite <-Eo, <-Er in *. simpl in H1.
    eapply wp_mono; [by eapply (wp_end_evaluation tbl c st s0 s1 t ini)|].
    intros [] s2 ((m & Hm & Hcm & Hd) & Hcal & Hcu & Hou). cbn beta. apply HQ. split; try done.
    + by exists m.
    + etrans; [exact Hcalm0|]. etrans; [|exact Hcal]. destruct H1 as (m1 & cand1 & H1 & _). apply H1.
    + intros st' Hst'. rewrite Hcm in Hst'. by injection Hst' as <-.
Qed.

(** ** Stores at rest *)

Definition at_rest (s : store) : Prop := ∃ tbl, structure None tbl s.
Definition all_clean (s : store) : Prop := ∀ x, is_clean s x.
Definition quiet_from (k : nat) (s : store) : Prop :=
  ∀ d st, k ≤ d → comp s d = Some st → isBeingEvaluated st = false.

(** From [s] to [s'] nothing got worse, and below [lo] nothing changed. *)
Record settles (lo : nat) (s s' : store) : Prop := {
  se_rest : at_rest s';
  se_clean : all_clean s';
  se_better : better s s';
  se_comp y : y < lo → comp s' y = comp s y;
  se_inputs y : comp s y = None → comp s' y = None ∧ value_of s' y = value_of s y;
  se_dom y : is_Some (st_objs s' !! y) → is_Some (st_objs s !! y)
}.

Lemma settles_trans lo s1 s2 s3 : settles lo s1 s2 → settles lo s2 s3 → settles lo s1 s3.
Proof.
  intros [] []. split; try done; auto.
  - by etrans.
  - intros y Hy. rewrite se_comp1 by done. auto.
  - intros y Hy. destruct (se_inputs0 y Hy) as [H1 H2]. destruct (se_inputs1 y H1) as [H3 H4].
    split; [done|congruence].
Qed.

Lemma settles_weaken lo lo' s s' : lo' ≤ lo → settles lo s s' → settles lo' s s'.
Proof. intros Hle []. split; try done. intros y Hy. apply se_comp0. lia. Qed.

(** Consistency looks at the value, the read function and the dependencies. *)
Definition same_state (st st' : cstate) : Prop :=
  latestValue st' = latestValue st ∧ readFunction st' = readFunction st ∧
  default ∅ (dependencyTracking st') = default ∅ (dependencyTracking st).

Lemma consistent_ext s s' d :
  match comp s d, comp s' d with
  | Some st, Some st' => same_state st st'
  | None, None => True
  | _, _ => False
  end →
  (∀ x, value_of s' x = value_of s x) → st_tracks s' = st_tracks s →
  (∀ st, comp s d = Some st → ∃ P, reader P (readFunction st)) →
  consistent s' d ↔ consistent s d.
Proof.
  unfold consistent. intros Hc Hv Ht Hr. destruct (comp s d) as [st|], (comp s' d) as [st'|]; try done.
  destruct Hc as (-> & -> & Htr). destruct (Hr st eq_refl) as [P HP].
  destruct (outcome_ext P (readFunction st) (env s) (env s') HP) as [<- <-].
  { intros x _. unfold env. by rewrite Hv. }
  assert (deps s' st' = deps s st) as -> by (unfold deps; by rewrite Htr, Ht). done.
Qed.

Lemma structure_reader mid tbl s c st :
  structure mid tbl s → comp s c = Some st → ∃ P, reader P (readFunction st).
Proof. intros Hs Hc. destruct (sr_comp _ _ _ Hs c st Hc). eauto. Qed.

(** Updates that keep everything consistency looks at. *)
Lemma consistent_alter tbl s x f :
  structure None tbl s →
  (∀ o, st_objs s !! x = Some o →
     match o_kind o, o_kind (f o) with
     | KObservable v, KObservable v' => v' = v
     | KComputed st, KComputed st' => same_state st st'
     | _, _ => False
     end) →
  ∀ d, consistent (set_objs (alter f x) s) d ↔ consistent s d.
Proof.
  intros Hs Hf d. apply consistent_ext.
  - rewrite comp_alter. destruct (decide (d = x)) as [->|]; [|by destruct (comp s d)].
    unfold comp. destruct (st_objs s !! x) as [o|]; [|done]. simpl. specialize (Hf o eq_refl).
    by destruct (o_kind o), (o_kind (f o)).
  - intros y. unfold value_of. simpl. destruct (decide (y = x)) as [->|Hne]; [|by rewrite lookup_alter_ne].
    rewrite lookup_alter_eq. destruct (st_objs s !! x) as [o|]; [|done]. simpl. specialize (Hf o eq_refl).
    destruct (o_kind o), (o_kind (f o)); try done; [by rewrite Hf|]. by destruct Hf as [-> _].
  - done.
  - intros st. by eapply structure_reader.
Qed.

(** Stores whose objects have the same states, with the same tracking objects. *)
Lemma consistent_alike tbl s s' d :
  structure None tbl s → same_attr o_kind s s' → st_tracks s' = st_tracks s →
  consistent s' d ↔ consistent s d.
Proof.
  intros Hs Hk Et. apply consistent_ext; try done.
  - rewrite (kinds_comp s s') by done. by destruct (comp s d).
  - intros x. by apply kinds_value.
  - intros st. by eapply structure_reader.
Qed.

Lemma consistent_same tbl s s' d :
  structure None tbl s → st_objs s' = st_objs s → st_tracks s' = st_tracks s →
  consistent s' d ↔ consistent s d.
Proof. intros Hs Eo. eapply consistent_alike; [done|by apply same_attr_objs]. Qed.

Lemma settles_refl lo s : at_rest s → all_clean s → settles lo s s.
Proof. intros. split; try done. Qed.

Lemma settles_alike tbl lo s s' :
  structure None tbl s → structure None tbl s' → all_clean s → same_attr o_kind s s' →
  st_tracks s' = st_tracks s → st_subs s' = st_subs s → settles lo s s'.
Proof.
  intros Hs Hs' Hc Hk Et Es. split.
  - by exists tbl.
  - intros x st. rewrite (kinds_comp s s') by done. apply Hc.
  - intros d. destruct (decide (consistent s d)) as [?|?].
    + left. by apply (consistent_alike tbl s).
    + right. split; [done|]. intros k x e. by rewrite Es.
  - intros y _. by apply kinds_comp.
  - intros y Hy. by rewrite (kinds_comp s), (kinds_value s).
  - intros y [o Ho]. destruct (same_attr_from _ _ _ _ _ Hk Ho) as (o' & ? & _). by exists o'.
Qed.

Lemma settles_only_log lo s s' : at_rest s → all_clean s → only_log s s' → settles lo s s'.
Proof.
  intros [tbl Hs] Hc Hl. eapply (settles_alike tbl); try done; try apply Hl.
  - by eapply structure_only_log.
  - apply same_attr_objs, Hl.
Qed.

(** The evaluation flags after a call are those before. *)
Lemma quiet_evolves k s s' :
  evolves s s' → (∀ y, is_Some (st_objs s' !! y) → is_Some (st_objs s !! y)) →
  quiet_from k s → quiet_from k s'.
Proof.
  intros Hev Hdom Hq d st' Hd (o' & Ho' & Hk')%comp_Some.
  destruct (Hdom d) as [o Ho]; [by eexists|].
  destruct (ev_objs _ _ Hev d o Ho) as (o2 & Ho2 & [_ _ Hk]). assert (o2 = o') as -> by congruence.
  rewrite Hk' in Hk. destruct (o_kind o) as [| |st] eqn:Ek; [done..|].
  rewrite (ce_evaluating _ _ Hk). apply (Hq d); [done|]. apply comp_Some. eauto.
Qed.
