(* ===== verification/KoSheetSettle.v ===== *)
(** * Knockout: notifications settle

    By induction from the newest computed to the oldest: notifying a change
    evaluates every subscribed computed again, and an evaluation notifies what
    depends on it, so when the call returns nothing is out of date. *)
From Stdlib Require Import ZArith Lia.
From stdpp Require Import functions.
From stdpp Require Import base gmap strings sorting list.
From S2P Require Import Prelude KoStore KoStoreFacts KoWp KoSheet KoSheetInv KoSheetRun.

Section settle.
(** Objects are below [B]. *)
Context (B : nat).
Definition bounded (s : store) : Prop := ∀ y, is_Some (st_objs s !! y) → y < B.

Definition notify_settles (x : nat) : Prop := ∀ s v o,
  at_rest s → all_clean s → quiet_from (S x) s → bounded s → st_objs s !! x = Some o →
  wp (λ rec, rec (CNotify x v "change"))
    (λ _ s', settles (S x) s s' ∧
       ∀ n d, st_subs s !! n = Some (Subscription x "change" (CbEvaluate d) false) → consistent s' d) s.

Definition evaluate_settles (c : nat) (nc : bool) : Prop := ∀ s st,
  at_rest s → (∀ y, y ≠ c → is_clean s y) → quiet_from c s → bounded s → comp s c = Some st →
  (isDisposed st = true → isDirty st = false) →
  nc = true ∨ (∀ n e d, st_subs s !! n ≠ Some (Subscription c e (CbEvaluate d) false)) →
  wp (λ rec, rec (CEvaluate c nc)) (λ _ s', settles c s s' ∧ consistent s' c) s.

(** What the loop over the subscriptions has done. *)
Record notified (x : nat) (s0 : store) (l : list nat) (s : store) : Prop := {
  nf_settles : settles (S x) s0 s;
  nf_evolves : evolves s0 s;
  nf_wf : wf s;
  nf_done n d : n ∈ l → st_subs s0 !! n = Some (Subscription x "change" (CbEvaluate d) false) →
    consistent s d
}.

Lemma better_consistent s s' d : better s s' → consistent s d → consistent s' d.
Proof. intros H Hd. by destruct (H d) as [?|[? _]]. Qed.

(** The state after one more callback. *)
Lemma notified_step x s0 l s s' n :
  notified x s0 l s → settles (S x) s s' → evolves s s' → wf s' →
  (∀ d, st_subs s0 !! n = Some (Subscription x "change" (CbEvaluate d) false) → consistent s' d) →
  notified x s0 (l ++ [n]) s'.
Proof.
  intros [] Hs Hev Hwf Hn. split; [by eapply settles_trans|by etrans|done|].
  intros k d [Hk| ->%list_elem_of_singleton]%elem_of_app Hsub; [|by apply Hn].
  eapply better_consistent; [apply Hs|by eapply nf_done0].
Qed.

Lemma notify_loop x v s0 l n s :
  (∀ d, x < d → evaluate_settles d true) →
  st_current s0 = None → quiet_from (S x) s0 → bounded s0 → notified x s0 l s →
  (∃ cb, st_subs s0 !! n = Some (Subscription x "change" cb false)) → at_rest s0 →
  wp (λ rec, notify_one rec v n) (λ _ s', notified x s0 (l ++ [n]) s') s.
Proof.
  intros IH Hcur Hq Hb Hnf [cb Hcb] [tbl0 Hs0].
  pose proof (nf_settles _ _ _ _ Hnf) as Hse. destruct (se_rest _ _ _ Hse) as [tbl Hs].
  destruct (ev_subs _ _ (nf_evolves _ _ _ _ Hnf) n _ Hcb) as (sub & Hsub & [T1 T2 T3 T4]). simpl in *.
  assert (sub = Subscription x "change" cb (sub_isDisposed sub)) as Esub
    by (destruct sub; simpl in *; congruence).
  destruct (sub_isDisposed sub) eqn:Edis.
  - (* disposed meanwhile: the computed was evaluated *)
    unfold notify_one. apply wp_bind. eapply wp_get_sub; [done|]. cbn beta. rewrite Edis.
    apply wp_ret. eapply notified_step; [done| |reflexivity|apply Hs|].
    + apply settles_refl; [by exists tbl|apply Hse].
    + intros d Hd. destruct (se_better _ _ _ Hse d) as [?|[_ Hk]]; [done|].
      rewrite (Hk n x "change" Hd) in Hsub. injection Hsub as <-. done.
  - rewrite Esub in Hsub. clear sub T1 T2 T3 T4 Edis Esub.
    eapply wp_mono; [eapply (wp_keeps (λ rec, notify_one rec v n)
      (λ _ s', settles (S x) s s' ∧ ∀ d, cb = CbEvaluate d → consistent s' d))|].
    + intros fuel. apply keeps_notify_one. apply exec_progress.
    + apply Hs.
    + destruct cb as [f|d].
      * eapply wp_client; [exact Hs| |apply Hse|exact Hsub|].
        -- rewrite (ev_current _ _ (nf_evolves _ _ _ _ Hnf)). done.
        -- intros s' Hl. split; [|done]. apply settles_only_log; [by exists tbl|apply Hse|done].
      * destruct (sr_tracked _ _ _ Hs n x "change" d Hsub) as (_ & id & t & tk & Ht & Htk & Hn).
        destruct (sr_table _ _ _ Hs d id t Ht) as (n' & tk' & o & Htk' & Hn' & _ & _ & Hlt & Hsub' & [st Hst]).
        assert (tk' = tk) as -> by congruence. assert (n' = n) as -> by congruence.
        rewrite Hsub in Hsub'. injection Hsub' as Ex. rewrite <-Ex in Hlt.
        unfold notify_one. apply wp_bind. eapply wp_get_sub; [done|]. cbn.
        apply wp_bind, wp_modify. cbn beta. apply wp_bind. set (s1 := add_log n v s).
        assert (only_log s s1) as Hl by done.
        assert (settles (S x) s s1) as Hs1 by (apply settles_only_log; [by exists tbl|apply Hse|done]).
        eapply wp_mono; [apply (IH d Hlt s1 st)|].
        -- apply Hs1.
        -- intros y _. apply Hs1.
        -- intros e st' He. rewrite (comp_same s) by done.
           eapply (quiet_evolves (S x) s0 s); [apply Hnf|apply Hse|exact Hq|lia].
        -- intros y Hy. apply Hb. by apply (se_dom _ _ _ Hse).
        -- by rewrite (comp_same s).
        -- intros _. by apply (se_clean _ _ _ Hse d).
        -- by left.
        -- intros a s' [H1 H2]. cbn beta. apply wp_ret. split; [|by intros d' [= <-]].
           eapply settles_trans; [exact Hs1|]. eapply settles_weaken; [|exact H1]. lia.
    + intros [] s' ([H1 H2] & Hwf & Hev). eapply notified_step; [done..|].
      intros d Hd. apply H2. rewrite Hcb in Hd. by injection Hd.
Qed.

Lemma structure_bump tbl s x :
  structure None tbl s → structure None tbl (set_objs (alter bump_version x) s).
Proof.
  intros Hs. apply structure_alter; [|done]. intros o Ho. split_and!; [done..|]. simpl.
  destruct (o_kind o) as [| |st] eqn:Ek; [by eapply sr_kind|done|]. split; [|done].
  assert (comp s x = Some st) as Hc by (apply comp_Some; eauto). apply (sr_comp _ _ _ Hs x st Hc).
Qed.

(** What [end_] leaves alone. *)
Lemma wp_end (Q : unit → store → Prop) s :
  (∀ s', st_objs s' = st_objs s → st_subs s' = st_subs s → st_tracks s' = st_tracks s →
     st_next s' = st_next s → st_lastId s' = st_lastId s → Q tt s') →
  wp (λ _, end_) Q s.
Proof. intros HQ. apply wp_modify. destruct (st_outer s); by apply HQ. Qed.

Lemma no_subscribers o e : hasSubscriptionsForEvent o e = false → default [] (o_subscriptions o !! e) = [].
Proof. unfold hasSubscriptionsForEvent. by destruct (o_subscriptions o !! e) as [[]|]. Qed.

Lemma notify_from x : (∀ d, x < d → evaluate_settles d true) → notify_settles x.
Proof.
  intros IH s v o [tbl Hs] Hcl Hq Hb Hx. apply wp_call. simpl. apply wp_bind. unfold notifySubscribers.
  rewrite bool_decide_eq_true_2 by done. apply wp_bind. unfold updateVersion. apply wp_modify. cbn beta.
  set (s1 := set_objs (alter bump_version x) s).
  assert (structure None tbl s1) as Hs1 by by apply structure_bump.
  assert (same_attr o_kind s s1) as Hk1 by by eapply same_attr_alter.
  apply wp_bind. eapply (wp_get_obj x _ _ s1); [unfold s1; simpl; by rewrite lookup_alter_eq, Hx|]. cbn beta.
  pose proof (λ n, sr_members None tbl s x o "change" n Hs Hx) as Hsubs.
  destruct (hasSubscriptionsForEvent (bump_version o) "change") eqn:Ehas.
  2:{ apply wp_ret, wp_ret. split; [by eapply settles_alike|]. intros n d Hn.
      apply no_subscribers in Ehas. simpl in Ehas. rewrite Ehas in Hsubs.
      exfalso. eapply not_elem_of_nil, Hsubs. by eexists. }
  set (L := default [] (o_subscriptions (bump_version o) !! "change")).
  apply (wp_finally (λ rec, begin None;; for_each (notify_one rec v) L) (λ _, end_)).
  apply wp_bind, wp_modify. cbn beta. set (s2 := set_frames None _ s1).
  assert (structure None tbl s2) as Hs2 by by eapply structure_same; [..|exact Hs1].
  assert (same_attr o_kind s s2) as Hk2 by done.
  assert (settles (S x) s s2) as Hset2 by by eapply settles_alike.
  eapply (wp_for_each (λ rec, notify_one rec v) (λ l todo s', L = l ++ todo ∧ notified x s2 l s')).
  - split; [done|]. split; [apply settles_refl; [by exists tbl|apply Hset2]|reflexivity|apply Hs2|].
    intros n d Hn. by apply elem_of_nil in Hn.
  - intros l s3 [El Hnf]. rewrite app_nil_r in El. subst l. apply wp_end. intros s4 E1 E2 E3 E4 E5. apply wp_ret.
    pose proof (nf_settles _ _ _ _ Hnf) as H3. destruct (se_rest _ _ _ H3) as [tbl3 Hs3].
    assert (structure None tbl3 s4) as Hs4 by (eapply structure_same; [..|exact Hs3]; rewrite ?E4, ?E5; done).
    assert (settles (S x) s3 s4) as H34.
    { eapply settles_alike; try done; [apply H3|by apply same_attr_objs]. }
    split; [by eapply settles_trans; [|eapply settles_trans]|]. intros n d Hn.
    eapply better_consistent; [apply H34|]. eapply (nf_done _ _ _ _ Hnf n); [|done]. apply Hsubs. by eexists.
  - intros l n todo s3 El [_ Hnf]. eapply wp_mono; [eapply (notify_loop x v s2 l n s3)|].
    + done.
    + done.
    + intros d st Hd. rewrite (kinds_comp s) by done. by apply Hq.
    + intros y Hy. by apply Hb, (se_dom _ _ _ Hset2).
    + done.
    + apply Hsubs. change (default [] (o_subscriptions o !! "change")) with L. rewrite El. apply elem_of_app. right. by left.
    + by exists tbl.
    + intros [] s4 Hnf4. split; [|done]. rewrite El, <-app_assoc. done.
Qed.

(** ** Evaluating *)

(** What follows the read function in an evaluation. *)
Definition after_read (c : nat) (nc : bool) (st : cstate) (rec : call → M value) (newValue : value) : M bool :=
  changed ← store_value rec c nc newValue;
  (if bool_decide (Some (Nat.eqb (dependenciesCount st) 0) = Some true) then
     st' ← get_comp c;
     rec (CNotify c (latestValue st') "awake");; mret tt
   else mret tt);;
  mret changed.

Lemma evaluation_parts rec c nc s st :
  comp s c = Some st → pure st = false →
  evaluateImmediate_CallReadWithDependencyDetection rec c nc s =
    (newValue ← call_read c rec; after_read c nc st rec newValue) s.
Proof.
  intros Hc Hp. assert (get_comp c s = Some (s, inl st)) as Hget.
  { pose proof Hc as (o & Ho & Hk)%comp_Some. unfold get_comp, get_obj, mbind, M_bind. simpl.
    rewrite Ho. simpl. by rewrite Hk. }
  unfold evaluateImmediate_CallReadWithDependencyDetection, call_read, after_read.
  rewrite bind_assoc, !(bind_inl (get_comp c) _ s s st Hget), Hp. reflexivity.
Qed.

(** An update of [c] that keeps its value, read function and dependencies. *)
Lemma upd_comp_settles tbl s c f st :
  structure None tbl s → comp s c = Some st → comp_ok None tbl c (f st) → same_state st (f st) →
  (∀ y, y ≠ c → is_clean s y) → isDirty (f st) = false →
  let s' := set_objs (alter (on_comp f) c) s in
  settles c s s' ∧ structure None tbl s' ∧ comp s' c = Some (f st) ∧
  ∀ d, consistent s' d ↔ consistent s d.
Proof.
  intros Hs Hc Hok Hsame Hcl Hd s'. pose proof Hc as (o & Ho & Hk)%comp_Some.
  assert (structure None tbl s') as Hs'.
  { apply structure_alter; [|done]. intros o'. rewrite Ho. intros [= <-]. unfold on_comp. rewrite Hk.
    simpl. split_and!; [done..|apply Hsame]. }
  assert (∀ d, consistent s' d ↔ consistent s d) as Hcon.
  { eapply consistent_alter; [done|]. intros o'. rewrite Ho. intros [= <-]. unfold on_comp. by rewrite Hk. }
  assert (comp s' c = Some (f st)) as Hc' by by apply comp_upd_comp.
  assert (∀ d, d ≠ c → comp s' d = comp s d) as Hcomp.
  { intros d Hne. unfold s'. rewrite comp_alter. by destruct (decide (d = c)). }
  assert (∀ y, y ≠ c → value_of s' y = value_of s y) as Hval.
  { intros y Hne. unfold value_of, s'. simpl. by rewrite lookup_alter_ne. }
  split_and!; try done. split.
  - by exists tbl.
  - intros y st'. destruct (decide (y = c)) as [->|Hne].
    + rewrite Hc'. by intros [= <-].
    + rewrite Hcomp by done. by apply Hcl.
  - intros d. destruct (decide (consistent s d)); [left; by apply Hcon|]. right. split; [done|by intros ???].
  - intros y Hy. apply Hcomp. lia.
  - intros y Hy. destruct (decide (y = c)) as [->|Hne]; [congruence|]. rewrite Hcomp, Hval by done. done.
  - intros y. unfold s'. simpl. destruct (decide (y = c)) as [->|]; [by rewrite Ho|by rewrite lookup_alter_ne].
Qed.

(** A change of one value: a computed that may be out of date has read it, and
    is subscribed to it. *)
Lemma value_change tbl s s' x d :
  structure None tbl s → comp s' d = comp s d → st_tracks s' = st_tracks s →
  (∀ y, y ≠ x → value_of s' y = value_of s y) → consistent s d →
  consistent s' d ∨ ∃ n, st_subs s !! n = Some (Subscription x "change" (CbEvaluate d) false).
Proof.
  intros Hs Hcd Ht Hv Hd. destruct (comp s d) as [std|] eqn:Ed.
  2:{ left. unfold consistent. by rewrite Hcd. }
  apply (consistent_Some _ _ _ Ed) in Hd as [Hl Hr]. destruct (sr_comp _ _ _ Hs d std Ed) as [[_ Hdis Hlive] Hrd].
  destruct (decide (x ∈ reads (env s) (readFunction std))) as [Hin|Hin].
  - right. apply Hr, elem_of_deps in Hin as (id & t & tk & Hid & Htk & Htg).
    assert (tbl d !! id = Some t) as Htb.
    { destruct (isDisposed std) eqn:Edis.
      - destruct (Hdis eq_refl) as (_ & _ & E). by rewrite E in Hid.
      - destruct (Hlive eq_refl) as [E _]; [done|]. by rewrite E in Hid. }
    destruct (sr_table _ _ _ Hs d id t Htb) as (n & tk' & _ & Htk' & _ & _ & _ & _ & Hsub & _).
    assert (tk' = tk) as -> by congruence. rewrite Htg in Hsub. by exists n.
  - left. apply (consistent_Some _ _ std Hcd).
    destruct (outcome_ext _ _ (env s) (env s') Hrd) as [<- <-].
    { intros y Hy. unfold env. rewrite Hv; [done|]. intros ->. done. }
    split; [done|]. unfold deps. by rewrite Ht.
Qed.

(** The new value put in place: only the computeds that read [c] can be out of
    date, and they are subscribed to it. *)
Lemma latest_settles tbl s c st v :
  structure None tbl s → comp s c = Some st → all_clean s → isDisposed st = false →
  v = outcome (env s) (readFunction st) →
  (∀ x, x ∈ reads (env s) (readFunction st) ↔ x ∈ deps s st) →
  let s' := set_objs (alter (on_comp (with_latest v)) c) s in
  structure None tbl s' ∧ all_clean s' ∧ comp s' c = Some (with_latest v st) ∧ consistent s' c ∧
  (∀ d, d ≠ c → comp s' d = comp s d ∧ value_of s' d = value_of s d) ∧
  ∀ d, d ≠ c → consistent s d → consistent s' d ∨
    ∃ n, st_subs s !! n = Some (Subscription c "change" (CbEvaluate d) false).
Proof.
  intros Hs Hc Hcl Ha Hv Hreads s'. pose proof Hc as (o & Ho & Hk)%comp_Some.
  destruct (sr_comp _ _ _ Hs c st Hc) as [Hok Hr].
  assert (structure None tbl s') as Hs'.
  { apply structure_alter; [|done]. intros o'. rewrite Ho. intros [= <-]. unfold on_comp. rewrite Hk.
    simpl. split_and!; [done|done| |done]. destruct Hok as [Hp Hdis Hlive]. split; [by destruct Hp; split| |].
    - simpl. congruence.
    - simpl. done. }
  assert (comp s' c = Some (with_latest v st)) as Hc' by by apply comp_upd_comp.
  assert (∀ d, d ≠ c → comp s' d = comp s d ∧ value_of s' d = value_of s d) as Hoth.
  { intros d Hne. unfold s'. rewrite comp_alter, decide_False by done. split; [done|].
    unfold value_of. simpl. by rewrite lookup_alter_ne. }
  split_and!; try done.
  - intros y st'. destruct (decide (y = c)) as [->|Hne].
    + rewrite Hc'. intros [= <-]. exact (Hcl c st Hc).
    + rewrite (proj1 (Hoth y Hne)). apply Hcl.
  - apply (consistent_Some _ _ _ Hc'). simpl. destruct (outcome_ext _ _ (env s) (env s') Hr) as [<- <-].
    + intros x Hx. destruct (reader_reads _ _ _ Hr x Hx). unfold env. destruct (Hoth x) as [_ ->]; [lia|done].
    + split; [done|]. exact Hreads.
  - intros d Hne Hd. apply (value_change tbl s s'); try done; [by apply Hoth|]. intros y Hy. by apply Hoth.
Qed.

(** From before the assignment of the new value to after its notification. *)
Lemma assigned_settles tbl s c st v s5 :
  structure None tbl s → comp s c = Some st → all_clean s → isDisposed st = false →
  v = outcome (env s) (readFunction st) →
  (∀ x, x ∈ reads (env s) (readFunction st) ↔ x ∈ deps s st) →
  let s4 := set_objs (alter (on_comp (with_latest v)) c) s in
  settles (S c) s4 s5 →
  (∀ n d, st_subs s !! n = Some (Subscription c "change" (CbEvaluate d) false) → consistent s5 d) →
  settles c s s5 ∧ consistent s5 c ∧ comp s5 c = Some (with_latest v st).
Proof.
  intros Hs Hc Hcl Ha Hv Hr s4 H45 Hn.
  destruct (latest_settles tbl s c st v Hs Hc Hcl Ha Hv Hr) as (Hs4 & Hcl4 & Hc4 & Hcon & Hoth & Hdep).
  fold s4 in Hs4, Hcl4, Hc4, Hcon, Hoth, Hdep. pose proof H45 as [R5 C5 B5 P5 I5 D5].
  assert (consistent s5 c) as Hc5 by by eapply better_consistent.
  split_and!; [|done|rewrite P5 by lia; done]. split; try done.
  - intros d. destruct (decide (d = c)) as [->|Hne]; [by left|].
    destruct (B5 d) as [?|[Hn5 Hk5]]; [by left|]. destruct (decide (consistent s d)) as [Hd|Hd]; [|by right].
    destruct (Hdep d Hne Hd) as [?|[n Hsub]]; [done|]. left. by eapply Hn.
  - intros y Hy. rewrite P5 by lia. apply Hoth. lia.
  - intros y Hy. destruct (decide (y = c)) as [->|Hne]; [congruence|].
    destruct (Hoth y Hne) as [E1 E2]. destruct (I5 y) as [H1 H2]; [by rewrite E1|].
    split; [done|congruence].
  - intros y Hy. apply D5 in Hy. revert Hy. unfold s4. simpl. destruct (decide (y = c)) as [->|].
    + intros _. apply comp_Some in Hc as (o & Ho & _). by rewrite Ho.
    + by rewrite lookup_alter_ne.
Qed.

Lemma wp_store_value tbl s c nc st v :
  (nc = true → notify_settles c) →
  structure None tbl s → comp s c = Some st → all_clean s → isDisposed st = false →
  quiet_from (S c) s → bounded s →
  v = outcome (env s) (readFunction st) →
  (∀ x, x ∈ reads (env s) (readFunction st) ↔ x ∈ deps s st) →
  nc = true ∨ (∀ n e d, st_subs s !! n ≠ Some (Subscription c e (CbEvaluate d) false)) →
  wp (λ rec, store_value rec c nc v)
    (λ _ s', settles c s s' ∧ consistent s' c ∧ comp s' c = Some (with_latest v st)) s.
Proof.
  intros HN Hs Hc Hcl Ha Hq Hb Hv Hr Hnc. pose proof Hc as (o & Ho & Hk)%comp_Some.
  destruct (structure_awake _ _ _ _ _ Hs Hc) as (Haw & _ & _).
  unfold store_value. apply wp_bind. eapply wp_get_comp; [done|]. cbn beta.
  apply wp_bind. eapply wp_get_obj; [done|]. cbn beta.
  destruct (isDifferent o (latestValue st) v) eqn:Ed.
  - apply wp_bind. rewrite Haw. cbn [negb]. apply wp_bind.
    eapply (wp_notify_other None tbl); [done..|]. intros _ s3 Hl3. cbn beta. apply wp_ret.
    pose proof (settles_only_log c s s3 (ex_intro _ tbl Hs) Hcl Hl3) as H3.
    pose proof Hl3 as [E1 E2 E3 _ E5 _ _ E8].
    assert (structure None tbl s3) as Hs3 by by eapply structure_only_log.
    assert (comp s3 c = Some st) as Hc3 by by rewrite (comp_same s).
    assert (env s3 = env s) as He by (unfold env, value_of; by rewrite E1).
    assert (∀ st', deps s3 st' = deps s st') as Hde by (intros; unfold deps; by rewrite E3).
    apply wp_bind, wp_modify. cbn beta. set (s4 := set_objs _ s3).
    destruct (latest_settles tbl s3 c st v Hs3 Hc3) as (Hs4 & Hcl4 & Hc4 & _ & Hoth & _);
      [apply H3|done|by rewrite He|by rewrite He, Hde|]. fold s4 in Hs4, Hcl4, Hc4, Hoth.
    apply wp_bind. eapply wp_get_comp; [exact Hc4|]. cbn beta.
    assert (isSleeping (with_latest v st) = false) as -> by exact Haw. apply wp_bind.
    assert (wp (λ rec, if nc then rec (CNotify c (latestValue (with_latest v st)) "change");; mret tt else mret tt)
      (λ _ s5, settles (S c) s4 s5 ∧ ∀ n d,
         st_subs s4 !! n = Some (Subscription c "change" (CbEvaluate d) false) → consistent s5 d) s4) as Hwp.
    { destruct nc.
      - apply wp_bind. eapply wp_mono; [eapply (HN eq_refl s4)|].
        + by exists tbl.
        + done.
        + intros d st' Hd. destruct (Hoth d) as [-> _]; [lia|]. rewrite (comp_same s) by done. by apply Hq.
        + intros y. unfold s4. simpl. rewrite E1. destruct (decide (y = c)) as [->|].
          * intros _. apply Hb. by rewrite Ho.
          * rewrite lookup_alter_ne by done. apply Hb.
        + unfold s4. simpl. by rewrite lookup_alter_eq, E1, Ho.
        + intros a s5 H5. cbn beta in H5 |- *. by apply wp_ret.
      - apply wp_ret. split; [by apply settles_refl; [exists tbl|]|]. intros n d. unfold s4. simpl. rewrite E2.
        intros Hn. destruct Hnc as [?|Hno]; [done|]. by destruct (Hno n "change" d). }
    eapply wp_mono; [exact Hwp|]. intros [] s5 [H5 Hn5]. cbn beta. apply wp_ret.
    destruct (assigned_settles tbl s3 c st v s5 Hs3 Hc3) as (H35 & Hc5 & Hst5); try done.
    + apply H3.
    + by rewrite He.
    + by rewrite He, Hde.
    + split_and!; [|done..]. by eapply settles_trans.
  - apply wp_ret. assert (latestValue st = v) as El.
    { unfold isDifferent in Ed. apply orb_false_iff in Ed as [_ Ed]. apply negb_false_iff in Ed.
      unfold valuesArePrimitiveAndEqual in Ed. destruct (is_primitive (latestValue st)); [|done].
      by apply bool_decide_eq_true in Ed. }
    assert (with_latest v st = st) as -> by (rewrite <-El; by destruct st).
    split_and!; [apply settles_refl; [by exists tbl|done]| |done].
    apply (consistent_Some _ _ _ Hc). split; [congruence|exact Hr].
Qed.

Lemma wp_after_read tbl s c nc stp st v :
  (nc = true → notify_settles c) →
  structure None tbl s → comp s c = Some st → all_clean s → isDisposed st = false →
  quiet_from (S c) s → bounded s →
  v = outcome (env s) (readFunction st) →
  (∀ x, x ∈ reads (env s) (readFunction st) ↔ x ∈ deps s st) →
  nc = true ∨ (∀ n e d, st_subs s !! n ≠ Some (Subscription c e (CbEvaluate d) false)) →
  wp (λ rec, after_read c nc stp rec v)
    (λ _ s', settles c s s' ∧ consistent s' c ∧ comp s' c = Some (with_latest v st)) s.
Proof.
  intros HN Hs Hc Hcl Ha Hq Hb Hv Hr Hnc. unfold after_read. apply wp_bind.
  eapply wp_mono; [by eapply wp_store_value|]. intros b s5 (H5 & Hc5 & Hst5). cbn beta.
  destruct (se_rest _ _ _ H5) as [tbl5 Hs5]. pose proof Hst5 as (o5 & Ho5 & _)%comp_Some.
  apply wp_bind. case_bool_decide.
  - apply wp_bind. eapply wp_get_comp; [done|]. cbn beta. apply wp_bind.
    eapply (wp_notify_other None tbl5); [done|done|done|apply H5|]. intros _ s6 H6. cbn beta.
    apply wp_ret. cbn beta. apply wp_ret. pose proof H6 as [E1 E2 E3 _ _ _ _ _].
    pose proof (settles_only_log c s5 s6 (ex_intro _ tbl5 Hs5) (se_clean _ _ _ H5) H6) as H56.
    split_and!; [by eapply settles_trans|by eapply better_consistent; [apply H56|]|by rewrite (comp_same s5)].
  - apply wp_ret. cbn beta. by apply wp_ret.
Qed.

Lemma calm_dom mid tbl c s s' y :
  calm c s s' → structure mid tbl s' → is_Some (st_objs s' !! y) → is_Some (st_objs s !! y).
Proof.
  intros Hc Hs [o Ho]. pose proof (structure_readable _ _ _ _ _ Hs Ho) as Hr. unfold readable in Hr.
  rewrite (ca_value _ _ _ Hc) in Hr. by apply readable_is_obj.
Qed.

(** What [c] does to itself before it settles does not matter. *)
Lemma calm_settles tbl mid2 tbl2 c s s2 s' :
  structure None tbl s → structure mid2 tbl2 s2 → calm c s s2 → is_Some (comp s c) →
  settles c s2 s' → consistent s' c → settles c s s'.
Proof.
  intros Hs Hs2 Hk [st Hc] [R C B5 P I D] Hcon. split; try done.
  - intros d. destruct (decide (d = c)) as [->|Hne]; [by left|].
    destruct (B5 d) as [?|[Hn Hkl]]; [by left|right]. split.
    + contradict Hn. apply (calm_consistent None tbl c s s2 d); auto.
    + intros n x e Hsub. apply Hkl. by eapply calm_keeps_live.
  - intros y Hy. rewrite P by done. apply (ca_comp _ _ _ Hk). lia.
  - intros y Hy. destruct (decide (y = c)) as [->|Hne]; [congruence|].
    destruct (I y) as [E1 E2]; [by rewrite (ca_comp _ _ _ Hk)|]. split; [done|].
    rewrite E2. apply (ca_value _ _ _ Hk).
  - intros y Hy. eapply calm_dom; [done..|]. by apply D.
Qed.

(** Nothing else subscribes to [c] while it is evaluated. *)
Lemma calm_unread tbl tc c s s2 :
  structure None tbl s → structure None (<[c := tc]> tbl) s2 → calm c s s2 →
  (∀ n e d, st_subs s !! n ≠ Some (Subscription c e (CbEvaluate d) false)) →
  ∀ n e d, st_subs s2 !! n ≠ Some (Subscription c e (CbEvaluate d) false).
Proof.
  intros Hs Hs2 Hcalm Hno n e d Hn.
  destruct (sr_tracked _ _ _ Hs2 n c e d Hn) as (_ & id & t & tk & Hid & Ht & Htn).
  destruct (sr_table _ _ _ Hs2 d id t Hid) as (n' & tk' & _ & Ht' & Htn' & _ & _ & Hlt & Hsub & _).
  assert (tk' = tk) as -> by congruence. assert (n' = n) as -> by congruence.
  rewrite Hn in Hsub. injection Hsub as Htg _. rewrite <-Htg in Hlt.
  rewrite fn_lookup_insert_ne in Hid by lia.
  destruct (sr_table _ _ _ Hs d id t Hid) as (n0 & tk0 & _ & Ht0 & _ & _ & _ & _ & Hsub0 & _).
  destruct (ca_tracks _ _ _ Hcalm t tk0 Ht0) as (tk1 & Ht1 & E1).
  assert (tk_target tk0 = c) as E0 by congruence. rewrite E0 in Hsub0. by apply Hno in Hsub0.
Qed.

Lemma comp_ok_flags mid tbl c st st' :
  comp_ok mid tbl c st → (plain st → plain st') → isDisposed st' = isDisposed st →
  latestValue st' = latestValue st → readFunction st' = readFunction st →
  dependencyTracking st' = dependencyTracking st → dependenciesCount st' = dependenciesCount st →
  comp_ok mid tbl c st'.
Proof. intros [Hp Hd Hl] H1 E1 E2 E3 E4 E5. split; rewrite ?E1, ?E2, ?E3, ?E4, ?E5; auto. Qed.

(** The flags of a computed. *)
Lemma upd_flags tbl s c f st :
  structure None tbl s → comp s c = Some st → (∀ st, latestValue (f st) = latestValue st) →
  comp_ok None tbl c (f st) → readFunction (f st) = readFunction st →
  let s' := set_objs (alter (on_comp f) c) s in
  structure None tbl s' ∧ comp s' c = Some (f st) ∧ calm c s s'.
Proof.
  intros Hs Hc Hl Hok Hr s'. pose proof Hc as (o & Ho & Hk)%comp_Some. split_and!.
  - apply structure_alter; [|done]. intros o'. rewrite Ho. intros [= <-]. unfold on_comp. by rewrite Hk.
  - by apply comp_upd_comp.
  - by apply calm_upd_comp.
Qed.

(** A computed without dependencies is disposed: it is a constant. *)
Lemma wp_dispose_constant s c st (Q : value → store → Prop) :
  at_rest s → comp s c = Some st → all_clean s → isDisposed st = false →
  dependenciesCount st = 0 → consistent s c →
  (∀ s', settles c s s' → consistent s' c → Q VUndef s') → wp (λ rec, rec (CDispose c)) Q s.
Proof.
  intros [tbl Hs] Hc Hcl Ha Hn Hcon HQ. destruct (sr_comp _ _ _ Hs c st Hc) as [[Hp _ Hlive] Hr].
  destruct (Hlive Ha) as [Ht Hsz]; [done|]. rewrite Hn in Hsz. symmetry in Hsz.
  apply map_size_empty_iff in Hsz. rewrite Hsz in Ht.
  apply (consistent_Some _ _ _ Hc) in Hcon as [Hl Hrd].
  assert (readFunction st = Ret (latestValue st)) as Hret.
  { destruct Hr as [v|x k Hx Hk]; simpl in *; [by rewrite Hl|].
    assert (x ∈ deps s st) as Hin by (apply Hrd; by left).
    apply elem_of_deps in Hin as (id & t & tk & Hid & _). by rewrite Ht in Hid. }
  apply wp_call. simpl. apply wp_bind. unfold dispose_computed.
  apply wp_bind. eapply wp_get_comp; [done|]. cbn beta. rewrite (pl_awake _ Hp), Ht. cbn [negb].
  assert (entries (default ∅ (Some (∅ : gmap nat nat))) = []) as -> by
    (unfold entries; simpl; by rewrite map_to_list_empty).
  apply wp_bind, wp_ret. cbn beta. apply wp_bind. eapply wp_get_comp; [done|]. cbn beta.
  rewrite (pl_node _ Hp). apply wp_bind, wp_ret. cbn beta. apply wp_modify. cbn beta. apply wp_ret.
  destruct (upd_comp_settles tbl s c disposed st Hs Hc) as (H1 & _ & _ & Hd).
  - split; [destruct Hp; by split| |done]. intros _. by split_and!.
  - split_and!; [done..|]. simpl. by rewrite Ht.
  - intros y _. apply Hcl.
  - done.
  - apply HQ; [done|]. apply Hd. by apply (consistent_Some _ _ _ Hc).
Qed.

(** The evaluation proper, between the two settings of the flag. *)
Lemma wp_evaluation tbl s c nc st :
  (nc = true → notify_settles c) →
  structure None tbl s → comp s c = Some st → (∀ y, y ≠ c → is_clean s y) → isDisposed st = false →
  quiet_from (S c) s → bounded s →
  nc = true ∨ (∀ n e d, st_subs s !! n ≠ Some (Subscription c e (CbEvaluate d) false)) →
  wp (λ rec, evaluateImmediate_CallReadWithDependencyDetection rec c nc)
    (λ _ s', settles c s s' ∧ consistent s' c ∧
       ∃ st', comp s' c = Some st' ∧ isDisposed st' = false ∧ plain st') s.
Proof.
  intros HN Hs Hc Hcl Ha Hq Hb Hnc.
  destruct (structure_awake _ _ _ _ _ Hs Hc) as (_ & Hp & _).
  destruct (sr_comp _ _ _ Hs c st Hc) as [[Hpl _ _] Hr].
  apply (wp_ext _ (λ rec, newValue ← call_read c rec; after_read c nc st rec newValue));
    [intros rec; by apply evaluation_parts|]. apply wp_bind.
  eapply (wp_call_read tbl c st s); [done..|intros x Hx; apply Hcl; lia|].
  intros s2 [(m & Hs2 & Hc2) Hcalm Hreads _ _]. cbn beta.
  set (st2 := fresh (with_tracking (Some m) (size m) st)) in *.
  assert (∀ x, env s2 x = env s x) as He by (intros x; unfold env; by rewrite (ca_value _ _ _ Hcalm)).
  destruct (outcome_ext _ _ (env s) (env s2) Hr) as [Eo Er]; [by intros|].
  eapply wp_mono; [eapply (wp_after_read _ s2 c nc st st2)|].
  - done.
  - exact Hs2.
  - done.
  - intros y st'. destruct (decide (y = c)) as [->|Hne].
    + rewrite Hc2. by intros [= <-].
    + rewrite (ca_comp _ _ _ Hcalm) by done. by apply Hcl.
  - done.
  - intros d st' Hd. rewrite (ca_comp _ _ _ Hcalm) by lia. by apply Hq.
  - intros y Hy. apply Hb. by eapply calm_dom.
  - exact Eo.
  - intros x. change (readFunction st2) with (readFunction st). rewrite <-Er. by apply Hreads.
  - destruct Hnc as [?|Hno]; [by left|right]. exact (calm_unread _ _ _ _ _ Hs Hs2 Hcalm Hno).
  - intros b s5 (H5 & Hc5 & Hst5). cbn beta. split_and!; [|done|].
    + eapply (calm_settles tbl); eauto.
    + eexists. split; [exact Hst5|]. split; [done|]. by destruct Hpl; split.
Qed.

Lemma disposed_consistent tbl s c st :
  structure None tbl s → comp s c = Some st → isDisposed st = true → consistent s c.
Proof.
  intros Hs Hc Ha. destruct (sr_comp _ _ _ Hs c st Hc) as [[_ Hcd _] _].
  apply (consistent_Some _ _ _ Hc). destruct (Hcd Ha) as (_ & E1 & E2). rewrite E1. split; [done|].
  intros x. simpl. rewrite elem_of_deps, E2. split; [by intros ?%elem_of_nil|]. by intros (? & ? & ? & ? & _).
Qed.

Lemma wp_should_dispose s c st :
  comp s c = Some st → plain st → wp (λ rec, should_dispose rec c) (λ go s', go = false ∧ s' = s) s.
Proof.
  intros Hc Hp. unfold should_dispose. apply wp_bind. eapply wp_get_comp; [done|]. cbn beta.
  apply wp_bind, wp_get. cbn beta. rewrite (pl_node _ Hp), (pl_when _ Hp). by apply wp_ret.
Qed.

(** After the evaluation: the flag, and the disposal of a constant. *)
Lemma wp_evaluated s c st b :
  at_rest s → all_clean s → comp s c = Some st → isDisposed st = false → plain st → consistent s c →
  wp (λ _, upd_comp c (with_evaluating false))
    (λ _, wp (λ rec, st2 ← get_comp c;
       (if Nat.eqb (dependenciesCount st2) 0 then rec (CDispose c);; mret tt else mret tt);; mret (VBool b))
     (λ _ s', settles c s s' ∧ consistent s' c)) s.
Proof.
  intros [tbl Hs] Hcl Hc Ha Hp Hcon. apply wp_modify.
  destruct (upd_comp_settles tbl s c (with_evaluating false) st Hs Hc) as (H6 & Hs6 & Hst6 & Hd6).
  { destruct (sr_comp _ _ _ Hs c st Hc) as [Hok _]. eapply comp_ok_flags; try exact Hok; try done.
    intros []; by split. }
  { by split_and!. }
  { intros y _. apply Hcl. }
  { exact (Hcl c st Hc). }
  set (s6 := set_objs _ s) in *. assert (consistent s6 c) as Hc6 by by apply Hd6.
  apply wp_bind. eapply wp_get_comp; [exact Hst6|]. cbn beta. apply wp_bind.
  destruct (Nat.eqb_spec (dependenciesCount (with_evaluating false st)) 0) as [E|E].
  - apply wp_bind. eapply wp_dispose_constant; [by exists tbl|exact Hst6|apply H6|done|done|done|].
    intros s7 H7 Hc7. cbn beta. apply wp_ret. cbn beta. apply wp_ret.
    split; [by eapply settles_trans|done].
  - apply wp_ret. cbn beta. by apply wp_ret.
Qed.

Lemma evaluate_from c nc : (nc = true → notify_settles c) → evaluate_settles c nc.
Proof.
  intros HN s st [tbl Hs] Hcl Hq Hb Hc Hdis Hnc.
  apply wp_call. simpl. unfold evaluateImmediate.
  apply wp_bind. eapply wp_get_comp; [done|]. cbn beta. rewrite (Hq c st) by done.
  destruct (sr_comp _ _ _ Hs c st Hc) as [Hok Hr]. pose proof Hok as [Hp _ _].
  destruct (isDisposed st) eqn:Ha.
  { apply wp_ret. split; [|by eapply disposed_consistent]. apply settles_refl; [by exists tbl|].
    intros y. destruct (decide (y = c)) as [->|]; [|by apply Hcl]. intros st'. rewrite Hc.
    intros [= <-]. by apply Hdis. }
  apply wp_bind. eapply wp_mono; [by eapply wp_should_dispose|].
  intros go s' [-> ->]. cbn beta. apply wp_bind. eapply wp_get_comp; [done|]. cbn [andb].
  apply wp_bind, wp_modify. cbn beta.
  destruct (upd_flags tbl s c (with_suppress false) st) as (Hs1 & Hc1 & Hk1);
    [done..|eapply comp_ok_flags; try exact Hok; try done; intros []; by split|done|].
  set (s1 := set_objs _ s) in *. apply wp_bind, wp_modify. cbn beta.
  destruct (upd_flags tbl s1 c (with_evaluating true) (with_suppress false st)) as (Hs2 & Hc2 & Hk2);
    [done..|eapply comp_ok_flags; try exact Hok; try done; intros []; by split|done|].
  set (s2 := set_objs _ s1) in *. assert (calm c s s2) as Hk by by etrans.
  apply wp_bind.
  apply (wp_finally (λ rec, evaluateImmediate_CallReadWithDependencyDetection rec c nc)
           (λ _, upd_comp c (with_evaluating false))).
  eapply wp_mono; [eapply (wp_evaluation tbl s2 c nc _ HN Hs2 Hc2)|].
  - intros y Hy st'. rewrite (ca_comp _ _ _ Hk) by done. by apply Hcl.
  - done.
  - intros d st' Hd. rewrite (ca_comp _ _ _ Hk) by lia. apply Hq. lia.
  - intros y Hy. apply Hb. by eapply calm_dom.
  - done.
  - intros b s5 (H5 & Hc5 & st5 & Hst5 & Ha5 & Hp5). cbn beta.
    eapply wp_mono; [eapply (wp_evaluated s5 c st5 b); [apply H5|apply H5|done..]|].
    intros [] s6 Hs6. cbn beta. eapply wp_mono; [exact Hs6|]. intros _ s7 [H7 Hc7]. split; [|done].
    eapply (calm_settles tbl); eauto. by eapply settles_trans.
Qed.

(** ** Every notification and evaluation settles *)

Theorem all_settle : ∀ k c, B ≤ c + k → notify_settles c ∧ evaluate_settles c true.
Proof.
  induction k as [|k IH]; intros c Hk.
  - assert (notify_settles c) as HN.
    { intros s v o Hr Hcl Hq Hb Ho. assert (c < B) by (apply Hb; by rewrite Ho). lia. }
    split; [done|]. by apply evaluate_from.
  - assert (notify_settles c) as HN by (apply notify_from; intros d Hd; apply IH; lia).
    split; [done|]. by apply evaluate_from.
Qed.
End settle.
