(* ===== verification/KoSheetFacts.v ===== *)
(** * Knockout: observables and computeds implement a sheet

    A store implements a sheet when every cell has its value and every formula
    is subscribed to exactly the cells it read.  Every script that keeps to the
    discipline of a sheet runs to its end, returns what the sheet returns, and
    leaves a store that implements the resulting sheet. *)
From Stdlib Require Import ZArith Lia.
From stdpp Require Import functions.
From stdpp Require Import base gmap strings sorting list.
From S2P Require Import Prelude KoStore KoStoreFacts KoWp KoSheet KoSheetInv KoSheetRun KoSheetSettle.

(** The cell an object is. *)
Definition cell_of (s : store) (x : nat) : option cell :=
  o ← st_objs s !! x;
  match o_kind o with
  | KSubscribable => None
  | KObservable v => Some (Input v)
  | KComputed st => Some (Formula (readFunction st))
  end.

Record implements (sh : sheet) (s : store) : Prop := {
  im_rest : at_rest s;
  im_clean : all_clean s;
  im_consistent d : consistent s d;
  im_quiet : quiet_from 0 s;
  im_current : st_current s = None;
  im_cells x : cell_of s x = sh !! x
}.

Lemma cell_of_obj s x c : cell_of s x = Some c → ∃ o, st_objs s !! x = Some o ∧
  match c with Input v => o_kind o = KObservable v
             | Formula p => ∃ st, o_kind o = KComputed st ∧ readFunction st = p end.
Proof.
  unfold cell_of. destruct (st_objs s !! x) as [o|]; [|done]. simpl. intros E. exists o. split; [done|].
  destruct (o_kind o); simplify_eq/=; eauto.
Qed.

Lemma obj_of_cell sh s x : implements sh s → is_Some (sh !! x) → ∃ o, st_objs s !! x = Some o.
Proof. intros H [c Hc]. rewrite <-(im_cells _ _ H) in Hc. apply cell_of_obj in Hc as (o & ? & _). by exists o. Qed.

Lemma cell_of_readable sh s x : implements sh s → is_Some (sh !! x) ↔ readable s x.
Proof.
  intros H. destruct (im_rest _ _ H) as [tbl Hs]. split.
  - intros [o Ho]%(obj_of_cell sh s x H). by eapply structure_readable.
  - intros [o Ho]%readable_is_obj. rewrite <-(im_cells _ _ H). unfold cell_of. rewrite Ho. simpl.
    pose proof (sr_kind _ _ _ Hs x o Ho). destruct (o_kind o); [done|by eexists..].
Qed.

Lemma implements_wf sh s : implements sh s → sheet_wf sh.
Proof.
  intros H c p Hc. pose proof Hc as Hc2. rewrite <-(im_cells _ _ H) in Hc2.
  apply cell_of_obj in Hc2 as (o & Ho & st & Hk & <-). destruct (im_rest _ _ H) as [tbl Hs].
  destruct (sr_comp _ _ _ Hs c st) as [_ Hr]; [apply comp_Some; eauto|].
  eapply reader_weaken; [|exact Hr]. intros x [Hx Hrx]. split; [done|]. by apply (cell_of_readable sh s x H).
Qed.

(** The objects have the values of the sheet. *)
Lemma implements_value sh s : implements sh s → ∀ x, is_Some (sh !! x) → env s x = value_at sh x.
Proof.
  intros H x. induction x as [x IH] using lt_wf_ind. intros [c Hc].
  rewrite value_at_eq by by eapply implements_wf. rewrite Hc. pose proof Hc as Hc2.
  rewrite <-(im_cells _ _ H) in Hc2. apply cell_of_obj in Hc2 as (o & Ho & Hk). destruct c as [v|p].
  - unfold env, value_of. rewrite Ho. simpl. by rewrite Hk.
  - destruct Hk as (st & Hk & <-). assert (comp s x = Some st) as Hst by (apply comp_Some; eauto).
    pose proof (im_consistent _ _ H x) as Hcon. apply (consistent_Some _ _ _ Hst) in Hcon as [Hl _].
    unfold env. rewrite (value_comp s x st Hst). simpl. rewrite Hl.
    destruct (im_rest _ _ H) as [tbl Hs]. destruct (sr_comp _ _ _ Hs x st Hst) as [_ Hr].
    apply (outcome_ext _ _ _ _ Hr). intros y Hy. destruct (reader_reads _ _ _ Hr y Hy) as [Hyx Hry].
    apply IH; [done|]. by apply (cell_of_readable sh s y H).
Qed.

Lemma is_new_next sh s : implements sh s → is_new sh (st_next s).
Proof.
  intros H y [o Ho]%(obj_of_cell sh s y H). destruct (im_rest _ _ H) as [tbl Hs].
  destruct (decide (st_next s ≤ y)); [|lia]. rewrite (wf_objs _ (sr_wf _ _ _ Hs)) in Ho by done. done.
Qed.

Lemma at_rest_bounded s : at_rest s → bounded (st_next s) s.
Proof.
  intros [tbl Hs] y [o Ho]. destruct (decide (st_next s ≤ y)); [|lia].
  rewrite (wf_objs _ (sr_wf _ _ _ Hs)) in Ho by done. done.
Qed.

(** A call that settles keeps the cells. *)
Lemma settles_cells lo s s' : evolves s s' → settles lo s s' → ∀ x, cell_of s' x = cell_of s x.
Proof.
  intros Hev Hse x. unfold cell_of. destruct (st_objs s !! x) as [o|] eqn:Ho; simpl.
  - destruct (ev_objs _ _ Hev x o Ho) as (o' & Ho' & [_ _ Hk]). rewrite Ho'. simpl.
    destruct (o_kind o) as [|v|st] eqn:Ek, (o_kind o') as [|v'|st'] eqn:Ek'; try done.
    + assert (comp s x = None) as Hn by (unfold comp; rewrite Ho; simpl; by rewrite Ek).
      destruct (se_inputs _ _ _ Hse x Hn) as [_ Hv]. unfold value_of in Hv. rewrite Ho, Ho' in Hv. simpl in Hv.
      rewrite Ek, Ek' in Hv. congruence.
    + simpl in Hk. by rewrite (ce_read _ _ Hk).
  - destruct (st_objs s' !! x) eqn:Ho'; [|done]. destruct (se_dom _ _ _ Hse x); [by eexists|congruence].
Qed.

(** ** Writing an input *)

Lemma write_implements sh s x old v :
  implements sh s → sh !! x = Some (Input old) →
  wp (λ rec, rec (CWrite x v)) (λ a s', a = VSubscribable x ∧ implements (<[x := Input v]> sh) s') s.
Proof.
  intros H Hx. pose proof H as [[tbl Hs] Hcl Hcon Hq Hcur Hcells].
  pose proof Hx as Hx2. rewrite <-Hcells in Hx2. apply cell_of_obj in Hx2 as (o & Ho & Hk).
  apply wp_call. simpl. unfold write. apply wp_bind. eapply wp_get_obj; [done|]. cbn beta. rewrite Hk.
  apply wp_bind. destruct (isDifferent o old v) eqn:Ed.
  2:{ apply wp_ret. cbn beta. apply wp_ret. split; [done|]. assert (old = v) as <-.
      { unfold isDifferent in Ed. apply orb_false_iff in Ed as [_ Ed]. apply negb_false_iff in Ed.
        unfold valuesArePrimitiveAndEqual in Ed. destruct (is_primitive old); [|done].
        by apply bool_decide_eq_true in Ed. }
      by rewrite insert_id. }
  apply wp_bind. eapply (wp_notify_other None tbl); [done..|]. intros _ s1 H1. cbn beta.
  pose proof H1 as [E1 E2 E3 _ _ E6 _ _]. apply wp_bind, wp_modify. cbn beta.
  set (s2 := set_objs (alter (set_latest v) x) s1).
  assert (structure None tbl s1) as Hs1 by by eapply structure_only_log.
  assert (st_objs s1 !! x = Some o) as Ho1 by by rewrite E1.
  assert (comp s1 x = None) as Hn1 by (unfold comp; rewrite Ho1; simpl; by rewrite Hk).
  assert (set_latest v o = with_kind (KObservable v) o) as Eset by (unfold set_latest; by rewrite Hk).
  assert (structure None tbl s2) as Hs2.
  { apply structure_alter; [|done]. intros o'. rewrite Ho1. intros [= <-]. rewrite Eset. by rewrite Hk. }
  assert (∀ d, comp s2 d = comp s d) as Hcomp.
  { intros d. unfold s2. rewrite comp_alter. destruct (decide (d = x)) as [->|]; [|by apply comp_same].
    rewrite Ho1. simpl. rewrite Eset. simpl. by rewrite <-(comp_same s s1 x E1). }
  assert (∀ y, y ≠ x → value_of s2 y = value_of s y) as Hval.
  { intros y Hne. unfold value_of, s2. simpl. by rewrite lookup_alter_ne, E1. }
  assert (∀ d, consistent s2 d ∨ ∃ n, st_subs s2 !! n = Some (Subscription x "change" (CbEvaluate d) false)) as Hdep.
  { intros d. simpl. rewrite E2. eapply (value_change tbl s s2); [done|apply Hcomp|done|done|apply Hcon]. }
  apply wp_bind. eapply wp_mono; [eapply wp_keeps; [intros fuel; apply exec_progress|apply Hs2|]|].
  - eapply (proj1 (all_settle (st_next s2) (st_next s2) x ltac:(lia))).
    + by exists tbl.
    + intros y st. rewrite Hcomp. apply Hcl.
    + intros d st _. rewrite Hcomp. apply Hq. lia.
    + apply at_rest_bounded. by exists tbl.
    + unfold s2. simpl. by rewrite lookup_alter_eq, Ho1.
  - intros a s3 ((H3 & Hn3) & Hwf3 & Hev). cbn beta. apply wp_ret. cbn beta. apply wp_ret. split; [done|].
    split.
    + apply H3.
    + apply H3.
    + intros d. destruct (Hdep d) as [?|[n Hn]]; [by eapply better_consistent; [apply H3|]|by eapply Hn3].
    + eapply quiet_evolves; [exact Hev|apply H3|]. intros d st _. rewrite Hcomp. apply Hq. lia.
    + rewrite (ev_current _ _ Hev). simpl. congruence.
    + intros y. rewrite (settles_cells _ _ _ Hev H3). destruct (decide (y = x)) as [->|Hne].
      * rewrite lookup_insert_eq. unfold cell_of, s2. simpl. rewrite lookup_alter_eq, Ho1. simpl.
        by rewrite Eset.
      * rewrite lookup_insert_ne, <-Hcells by done. unfold cell_of, s2. simpl.
        by rewrite lookup_alter_ne, E1.
Qed.

(** ** New cells *)

Lemma no_subscriptions tbl s n x e cb :
  structure None tbl s → st_objs s !! x = None → st_subs s !! n ≠ Some (Subscription x e cb false).
Proof. intros Hs Hx Hn. destruct (sr_listed _ _ _ Hs n x e cb Hn) as (o & _ & Ho & _). congruence. Qed.

Lemma new_object_facts k s :
  at_rest s → let x := st_next s in let s1 := new_object k s in
  (∀ d, d ≠ x → comp s1 d = comp s d) ∧ (∀ y, y ≠ x → value_of s1 y = value_of s y) ∧
  (∀ y, y ≠ x → cell_of s1 y = cell_of s y) ∧ st_objs s !! x = None ∧
  st_objs s1 !! x = Some (Obj {["change" := []]} 1 None false k).
Proof.
  intros [tbl Hs] x s1. assert (∀ y, y ≠ x → st_objs s1 !! y = st_objs s !! y) as H.
  { intros y Hne. unfold s1. simpl. by rewrite lookup_insert_ne. }
  unfold comp, value_of, cell_of. split_and!.
  1-3: intros y Hne; by rewrite H.
  - apply (wf_objs _ (sr_wf _ _ _ Hs)). unfold x. lia.
  - unfold s1, x. simpl. by rewrite lookup_insert_eq.
Qed.

Lemma input_implements sh s v :
  implements sh s → implements (<[st_next s := Input v]> sh) (new_object (KObservable v) s).
Proof.
  intros [Hr Hcl Hcon Hq Hcur Hcells]. destruct (new_object_facts (KObservable v) s Hr) as (Hc & Hv & Hce & Hx & Ho).
  destruct Hr as [tbl Hs]. set (s1 := new_object _ s) in *. set (x := st_next s) in *.
  assert (comp s1 x = None) as Hcx by (unfold comp; by rewrite Ho).
  assert (∀ d, comp s1 d = comp s d) as Hc'.
  { intros d. destruct (decide (d = x)) as [->|]; [|by apply Hc]. unfold comp. by rewrite Hx, Ho. }
  split.
  - exists tbl. by apply structure_new.
  - intros y st. rewrite Hc'. apply Hcl.
  - intros d. destruct (value_change tbl s s1 x d) as [?|[n Hn]]; [done|apply Hc'|done|done|apply Hcon|done|].
    by eapply no_subscriptions in Hn.
  - intros d st Hd. rewrite Hc'. by apply Hq.
  - done.
  - intros y. destruct (decide (y = x)) as [->|Hne].
    + rewrite lookup_insert_eq. unfold cell_of. by rewrite Ho.
    + rewrite lookup_insert_ne by done. rewrite Hce by done. apply Hcells.
Qed.

Lemma formula_implements sh s p :
  implements sh s → reader (λ x, is_Some (sh !! x)) p →
  wp (λ rec, new_computed rec p None false false NoNode None)
    (λ a s', a = VSubscribable (st_next s) ∧ implements (<[st_next s := Formula p]> sh) s') s.
Proof.
  intros H Hp. pose proof H as [Hr Hcl Hcon Hq Hcur Hcells]. unfold new_computed. cbn [negb andb].
  set (st0 := CState _ _ _ _ _ _ _ _ _ _ _ _ _ _ _ _).
  destruct (new_object_facts (KComputed st0) s Hr) as (Hc & Hv & Hce & Hx & Ho).
  destruct Hr as [tbl Hs]. set (x := st_next s) in *. set (s1 := new_object (KComputed st0) s) in *.
  apply wp_bind. unfold new_obj. apply wp_bind, wp_new_ref. cbn beta. apply wp_bind, wp_modify. cbn beta.
  apply wp_ret. cbn beta. change (set_objs _ (bump_next s)) with s1.
  assert (structure None tbl s1) as Hs1.
  { apply structure_new; [done..|]. intros st [= <-]. split_and!; [by split|done..|].
    eapply reader_weaken; [|exact Hp]. intros y. by apply (cell_of_readable sh s y H). }
  assert (comp s1 x = Some st0) as Hcx by (unfold comp; by rewrite Ho).
  apply wp_bind, wp_bind. eapply wp_mono.
  { eapply wp_keeps; [intros fuel; apply exec_progress|apply Hs1|].
    apply (evaluate_from (S x) x false ltac:(done) s1 st0).
    - by exists tbl.
    - intros y Hy st. rewrite Hc by done. apply Hcl.
    - intros d st Hd. destruct (decide (d = x)) as [->|Hne].
      + rewrite Hcx. by intros [= <-].
      + rewrite Hc by done. apply Hq. lia.
    - intros y [o' Hy]. apply (at_rest_bounded s1); [by exists tbl|by eexists].
    - done.
    - done.
    - right. intros n e d. by apply (no_subscriptions tbl s). }
  intros a s2 ((H2 & Hc2) & Hwf & Hev). cbn beta. apply wp_ret. cbn beta.
  assert (∃ st, comp s2 x = Some st ∧ disposeWhenNodeIsRemoved st = None) as (st & Hst & Hnode).
  { destruct (ev_objs _ _ Hev x _ Ho) as (o' & Ho' & [_ _ Hk]). simpl in Hk.
    destruct (o_kind o') as [| |st'] eqn:Ek; [done..|]. exists st'.
    assert (comp s2 x = Some st') as Hst' by (apply comp_Some; eauto). split; [done|].
    destruct (se_rest _ _ _ H2) as [tbl2 Hs2]. by destruct (sr_comp _ _ _ Hs2 x st' Hst') as [[[]] _]. }
  apply wp_bind. eapply wp_get_comp; [exact Hst|]. cbn beta. rewrite Hnode. apply wp_bind, wp_ret. cbn beta.
  apply wp_ret. split; [done|]. split.
  - apply H2.
  - apply H2.
  - intros d. destruct (decide (d = x)) as [->|Hne]; [done|].
    destruct (value_change tbl s s1 x d) as [?|[n Hn]]; [done|by apply Hc|done|done|apply Hcon| |].
    + by eapply better_consistent; [apply H2|].
    + by eapply no_subscriptions in Hn.
  - eapply quiet_evolves; [exact Hev|apply H2|]. intros d st' _. destruct (decide (d = x)) as [->|Hne].
    + rewrite Hcx. by intros [= <-].
    + rewrite Hc by done. apply Hq. lia.
  - by rewrite (ev_current _ _ Hev).
  - intros y. rewrite (settles_cells _ _ _ Hev H2). destruct (decide (y = x)) as [->|Hne].
    + rewrite lookup_insert_eq. unfold cell_of. by rewrite Ho.
    + rewrite lookup_insert_ne, Hce by done. apply Hcells.
Qed.

(** ** Reading and subscribing *)

Lemma read_implements sh s x :
  implements sh s → is_Some (sh !! x) →
  wp (λ rec, rec (CRead x)) (λ a s', a = value_at sh x ∧ s' = s) s ∧
  wp (λ rec, rec (CPeek x false)) (λ a s', a = value_at sh x ∧ s' = s) s.
Proof.
  intros H Hx. pose proof (implements_value sh s H x Hx) as Hv. destruct (im_rest _ _ H) as [tbl Hs].
  split.
  - eapply wp_read_quiet; [done|apply H|by apply (cell_of_readable sh s x H)|apply H|done].
  - destruct (obj_of_cell sh s x H Hx) as [o Ho]. apply wp_call. simpl. unfold peek.
    apply wp_bind. eapply wp_get_obj; [done|]. cbn beta. pose proof (sr_kind _ _ _ Hs x o Ho).
    unfold env, value_of in Hv. rewrite Ho in Hv. simpl in Hv.
    destruct (o_kind o) as [|v|st] eqn:Ek; [done|by apply wp_ret|]. simpl in Hv.
    assert (comp s x = Some st) as Hst by (apply comp_Some; eauto).
    destruct (structure_awake _ _ _ _ _ Hs Hst) as (Ha & _ & _).
    rewrite (im_clean _ _ H x st Hst), Ha. cbn [andb]. apply wp_bind, wp_ret. cbn beta.
    apply wp_bind, wp_ret. cbn beta. apply wp_bind. eapply wp_get_comp; [done|]. by apply wp_ret.
Qed.

Lemma subscribe_implements sh s x f e :
  implements sh s → is_Some (sh !! x) → (∀ v, reader (λ y, is_Some (sh !! y)) (f v)) →
  implements sh (subscribed x e (CbClient f) s).
Proof.
  intros H Hx Hf. pose proof H as [[tbl Hs] Hcl Hcon Hq Hcur Hcells].
  destruct (obj_of_cell sh s x H Hx) as [o Ho]. set (s1 := subscribed _ _ _ s).
  assert (same_attr o_kind s s1) as Hk by by eapply same_attr_alter.
  pose proof (λ d, kinds_comp s s1 d Hk) as Hc.
  split.
  - exists tbl. eapply (structure_subscribe None tbl tbl s s1 x e (CbClient f) o); try done.
    + intros t Ht. apply (sr_tracks _ _ _ Hs). simpl in Ht. lia.
    + simpl. lia.
    + intros f' [= <-] v. eapply reader_weaken; [|apply Hf]. intros y. by apply (cell_of_readable sh s y H).
    + auto.
  - intros y st. rewrite Hc. apply Hcl.
  - intros d. apply (consistent_ext s s1 d); [|..|apply Hcon].
    + rewrite Hc. destruct (comp s d); [by split_and!|done].
    + intros y. by apply kinds_value.
    + done.
    + intros st Hd. destruct (sr_comp _ _ _ Hs d st Hd) as [_ Hr]. by eexists.
  - intros d st Hd. rewrite Hc. by apply Hq.
  - done.
  - intros y. rewrite <-Hcells. unfold cell_of. specialize (Hk y).
    destruct (st_objs s1 !! y), (st_objs s !! y); simplify_eq/=; by rewrite ?Hk.
Qed.

(** ** Scripts *)

Lemma wp_script sh p s :
  implements sh s → disciplined sh p →
  wp (λ rec, rec (CRun p)) (λ r s', ∃ sh', sheet_runs sh p sh' r ∧ implements sh' s') s.
Proof.
  intros H Hd. revert s H. induction Hd as
    [sh v|sh v k _ IH|sh p k Hp _ IH|sh x k Hx _ IH|sh x k Hx _ IH|sh x old v k Hx _ IH|sh x f e k Hx Hf _ IH];
    intros s H; apply wp_call; simpl; [|apply wp_bind..].
  - apply wp_ret. exists sh. split; [constructor|done].
  - apply wp_bind. unfold new_obj. apply wp_bind, wp_new_ref. cbn beta. apply wp_bind, wp_modify. cbn beta.
    apply wp_ret. cbn beta. apply wp_ret. pose proof (is_new_next sh s H) as Hn.
    eapply wp_mono; [apply (IH _ Hn); by apply input_implements|].
    intros r s' (sh' & Hr & H'). exists sh'. split; [by econstructor|done].
  - eapply wp_mono; [by eapply formula_implements|]. intros a s1 [-> H1]. cbn beta.
    pose proof (is_new_next sh s H) as Hn. eapply wp_mono; [by apply (IH _ Hn)|].
    intros r s' (sh' & Hr & H'). exists sh'. split; [by econstructor|done].
  - eapply wp_mono; [by apply (read_implements sh)|]. intros a s1 [-> ->]. cbn beta.
    eapply wp_mono; [by apply IH|]. intros r s' (sh' & Hr & H'). exists sh'. split; [by constructor|done].
  - eapply wp_mono; [by apply (read_implements sh)|]. intros a s1 [-> ->]. cbn beta.
    eapply wp_mono; [by apply IH|]. intros r s' (sh' & Hr & H'). exists sh'. split; [by constructor|done].
  - eapply wp_mono; [by eapply write_implements|]. intros a s1 [-> H1]. cbn beta.
    eapply wp_mono; [by apply IH|]. intros r s' (sh' & Hr & H'). exists sh'. split; [by constructor|done].
  - destruct (obj_of_cell sh s x H Hx) as [o Ho]. destruct (im_rest _ _ H) as [tbl Hs].
    eapply wp_subscribe; [done..|]. cbn beta.
    eapply wp_mono; [apply (IH (st_next s)); by apply subscribe_implements|].
    intros r s' (sh' & Hr & H'). exists sh'. split; [by econstructor|done].
Qed.

Lemma implements_empty : implements ∅ empty_store.
Proof.
  split; try done.
  - exists (λ _, ∅). split; try done; apply wf_empty.
Qed.

(** What a formula is subscribed to. *)
Lemma deps_subscriptions tbl s c st :
  structure None tbl s → comp s c = Some st →
  ∀ x, x ∈ deps s st ↔ ∃ n e, st_subs s !! n = Some (Subscription x e (CbEvaluate c) false).
Proof.
  intros Hs Hc x. destruct (sr_comp _ _ _ Hs c st Hc) as [[_ Hdis Hlive] _].
  assert (default ∅ (dependencyTracking st) = tbl c) as Ht.
  { destruct (isDisposed st); [by destruct (Hdis eq_refl) as (-> & _ & ->)|].
    by destruct (Hlive eq_refl) as [-> _]. }
  rewrite elem_of_deps, Ht. split.
  - intros (id & t & tk & Hid & Htk & <-).
    destruct (sr_table _ _ _ Hs c id t Hid) as (n & tk' & _ & Htk' & _ & _ & _ & _ & Hn & _).
    assert (tk' = tk) as -> by congruence. by exists n, "change".
  - intros (n & e & Hn). destruct (sr_tracked _ _ _ Hs n x e c Hn) as (_ & id & t & tk & Hid & Htk & Hsub).
    destruct (sr_table _ _ _ Hs c id t Hid) as (n' & tk' & _ & Htk' & Hsub' & _ & _ & _ & Hn' & _).
    exists id, t, tk. split_and!; [done..|]. congruence.
Qed.

(** A page: [c] is [b] unless [a] is zero, [d] is [c], and a callback of [d]
    reads everything.  It writes [a] and reads [d]. *)
Definition if_zero (b : nat) (v : value) : prog :=
  match v with VNum 0 => Ret v | _ => Vis (ReadC b) Ret end.

Definition on_ref (k : nat → prog) (v : value) : prog :=
  match v with VSubscribable x => k x | _ => Ret VUndef end.

Definition computed_of (p : prog) (k : nat → prog) : prog :=
  Vis (NewComputedC p None false false NoNode None) (on_ref k).

Definition sheet_page : prog :=
  Vis (NewObservableC (VNum 1)) (on_ref (λ a,
  Vis (NewObservableC (VNum 7)) (on_ref (λ b,
  computed_of (Vis (ReadC a) (if_zero b)) (λ c,
  computed_of (Vis (ReadC c) Ret) (λ d,
  Vis (SubscribeC d (λ _, Vis (ReadC c) (if_zero b)) "change") (λ _,
  Vis (WriteC a (VNum 0)) (λ _, Vis (ReadC d) Ret)))))))).

Definition sheet_store : store :=
  match exec 60 (CRun sheet_page) empty_store with Some (s, _) => s | None => empty_store end.

Ltac known := rewrite ?lookup_insert_is_Some'; tauto.

Lemma reader_if_zero (P : nat → Prop) x b : P x → P b → reader P (Vis (ReadC x) (if_zero b)).
Proof.
  intros Hx Hb. constructor; [done|]. intros v.
  assert (reader P (Vis (ReadC b) Ret)) as H by (constructor; [done|constructor]).
  destruct v as [| | |[]| | | |]; simpl; try exact H. constructor.
Qed.

Lemma sheet_page_disciplined : disciplined ∅ sheet_page.
Proof.
  constructor. intros a _. constructor. intros b Hb. constructor; [apply reader_if_zero; known|].
  intros c Hc. constructor; [constructor; [known|constructor]|]. intros d Hd.
  assert (a < b) by (apply Hb; known). assert (a < c) by (apply Hc; known). assert (a < d) by (apply Hd; known).
  constructor; [known|intros _; apply reader_if_zero; known|]. intros _.
  apply (disc_write _ _ (VNum 1)).
  - rewrite !lookup_insert_ne by lia. by rewrite lookup_insert_eq.
  - constructor; [known|]. constructor.
Qed.

(** After the page's script its store implements a sheet with the two inputs
    and the two formulas. *)
Lemma sheet_store_implements :
  ∃ sh, implements sh sheet_store ∧ sh !! 0 = Some (Input (VNum 0)) ∧ sh !! 1 = Some (Input (VNum 7)) ∧
    sh !! 2 = Some (Formula (Vis (ReadC 0) (if_zero 1))) ∧ is_Some (sh !! 8).
Proof.
  destruct (wp_script ∅ sheet_page empty_store implements_empty sheet_page_disciplined)
    as (fuel & s' & r & Hf & sh & _ & H).
  assert (s' = sheet_store) as ->.
  { unfold sheet_store. destruct (exec 60 (CRun sheet_page) empty_store) as [[s2 r2]|] eqn:E;
      [|by vm_compute in E].
    apply (exec_mono 60 (fuel `max` 60)) in E; [|lia]. rewrite Hf in E by lia. by injection E as -> _. }
  exists sh. rewrite <-!(im_cells _ _ H). split_and!; [done|by vm_compute..|by eexists; vm_compute].
Qed.

(** ** What the library promises to a page *)

(** C1. A script that makes inputs and formulas, writes inputs, reads cells
    and subscribes callbacks, run on a store that implements a sheet, runs to
    its end; it returns what the sheet returns, and the store then implements
    the sheet the script makes.  So what the script itself reads is never out of
    date; a callback that runs in the middle of a write may still read old values
    ([callback_reads_old_value]). *)
Theorem script_refines_sheet sh p s :
  implements sh s → disciplined sh p →
  ∃ fuel s' r sh', (∀ f, fuel ≤ f → exec f (CRun p) s = Some (s', inl r)) ∧
    sheet_runs sh p sh' r ∧ implements sh' s'.
Proof.
  intros H Hd. destruct (wp_script sh p s H Hd) as (fuel & s' & r & Hf & sh' & Hr & H').
  by exists fuel, s', r, sh'.
Qed.

Lemma script_refines_sheet_witness :
  ∃ fuel s' r sh', (∀ f, fuel ≤ f → exec f (CRun sheet_page) empty_store = Some (s', inl r)) ∧
    sheet_runs ∅ sheet_page sh' r ∧ implements sh' s'.
Proof. exact (script_refines_sheet _ _ _ implements_empty sheet_page_disciplined). Defined.

(** C2. Writing an input returns, and afterwards every cell reads as the sheet
    with the new input says: the change has reached every formula. *)
Theorem write_reaches_every_cell sh s x old v :
  implements sh s → sh !! x = Some (Input old) →
  ∃ fuel s', (∀ f, fuel ≤ f → exec f (CWrite x v) s = Some (s', inl (VSubscribable x))) ∧
    ∀ y, is_Some (sh !! y) →
      ∃ fuel', ∀ f, fuel' ≤ f → exec f (CRead y) s' = Some (s', inl (value_at (<[x := Input v]> sh) y)).
Proof.
  intros H Hx. destruct (write_implements sh s x old v H Hx) as (fuel & s' & r & Hf & -> & H').
  exists fuel, s'. split; [done|]. intros y Hy.
  destruct (proj1 (read_implements _ s' y H' ltac:(known))) as (fuel' & s2 & r & Hf' & -> & ->). by exists fuel'.
Qed.

Lemma write_reaches_every_cell_witness :
  ∃ sh fuel s', value_at (<[0 := Input (VNum 3)]> sh) 2 = VNum 7 ∧
    (∀ f, fuel ≤ f → exec f (CWrite 0 (VNum 3)) sheet_store = Some (s', inl (VSubscribable 0))) ∧
    ∃ fuel', ∀ f, fuel' ≤ f → exec f (CRead 2) s' = Some (s', inl (VNum 7)).
Proof.
  destruct sheet_store_implements as (sh & H & H0 & H1 & H2 & _).
  destruct (write_reaches_every_cell sh sheet_store 0 (VNum 0) (VNum 3) H H0) as (fuel & s' & Hf & Hr).
  assert (value_at (<[0 := Input (VNum 3)]> sh) 2 = VNum 7) as E.
  { unfold value_at. simpl. rewrite lookup_insert_ne, H2 by done. simpl. rewrite lookup_insert_eq. simpl.
    by rewrite lookup_insert_ne, H1. }
  exists sh, fuel, s'. split; [exact E|]. split; [exact Hf|]. rewrite <-E. apply Hr. rewrite H2. by eexists.
Defined.

(** What a formula of a sheet reads is what its computed is subscribed to. *)
Lemma implements_subscriptions sh s c p :
  implements sh s → sh !! c = Some (Formula p) →
  ∀ x, x ∈ reads (value_at sh) p ↔ ∃ n e, st_subs s !! n = Some (Subscription x e (CbEvaluate c) false).
Proof.
  intros H Hc x. destruct (im_rest _ _ H) as [tbl Hs].
  pose proof Hc as Hc'. rewrite <-(im_cells _ _ H) in Hc'. apply cell_of_obj in Hc' as (o & Ho & st & Hk & <-).
  assert (comp s c = Some st) as Hst by (apply comp_Some; eauto).
  rewrite <-(deps_subscriptions tbl s c st Hs Hst).
  pose proof (im_consistent _ _ H c) as Hcon. apply (consistent_Some _ _ _ Hst) in Hcon as [_ <-].
  pose proof (implements_wf _ _ H c _ Hc) as Hr.
  destruct (outcome_ext _ _ (value_at sh) (env s) Hr) as [_ ->]; [|done].
  intros y [_ Hy]%(reader_reads _ _ _ Hr). symmetry. by apply implements_value.
Qed.

(** The live subscriptions of the computed [c] in the list of the object [x]. *)
Definition subscribed_to (s : store) (c x : nat) : Prop :=
  ∃ o n, st_objs s !! x = Some o ∧ n ∈ default [] (o_subscriptions o !! "change") ∧
    st_subs s !! n = Some (Subscription x "change" (CbEvaluate c) false).

Lemma implements_subscribed sh s c p :
  implements sh s → sh !! c = Some (Formula p) → ∀ x, x ∈ reads (value_at sh) p ↔ subscribed_to s c x.
Proof.
  intros H Hc x. rewrite (implements_subscriptions sh s c p H Hc x). destruct (im_rest _ _ H) as [tbl Hs]. split.
  - intros (n & e & Hn). pose proof (sr_tracked _ _ _ Hs n x e c Hn) as [-> _].
    destruct (sr_listed _ _ _ Hs n x _ _ Hn) as (o & L & Ho & HL & Hin). exists o, n. by rewrite HL.
  - intros (o & n & _ & _ & Hn). by exists n, "change".
Qed.

(** C3. After a script that keeps to the discipline of a sheet, run from nothing, each
    computed it made has live subscriptions in the lists of exactly the objects that its
    read function reads with the values the script leaves: evaluations and notifications
    left none that is stale and none is missing. *)
Theorem formula_subscriptions_exact p :
  disciplined ∅ p →
  ∃ fuel s r sh, (∀ f, fuel ≤ f → exec f (CRun p) empty_store = Some (s, inl r)) ∧ sheet_runs ∅ p sh r ∧
    ∀ c q, sh !! c = Some (Formula q) → ∀ x, x ∈ reads (value_at sh) q ↔ subscribed_to s c x.
Proof.
  intros Hd. destruct (wp_script ∅ p empty_store implements_empty Hd) as (fuel & s & r & Hf & sh & Hr & H).
  exists fuel, s, r, sh. split; [done|]. split; [done|]. intros c q Hc. by eapply implements_subscribed.
Qed.

Lemma formula_subscriptions_exact_witness :
  ∃ fuel s r sh, (∀ f, fuel ≤ f → exec f (CRun sheet_page) empty_store = Some (s, inl r)) ∧ sheet_runs ∅ sheet_page sh r ∧
    ∀ c q, sh !! c = Some (Formula q) → ∀ x, x ∈ reads (value_at sh) q ↔ subscribed_to s c x.
Proof. exact (formula_subscriptions_exact sheet_page sheet_page_disciplined). Defined.

(** A callback of [a], made before the computed [c] first reads [a], runs before [c] is
    evaluated again: it still reads 0, and keeps it in [o]. *)
Definition old_value_page : prog :=
  Vis (NewObservableC (VNum 0)) (on_ref (λ a,
  Vis (NewObservableC (VNum 0)) (on_ref (λ b,
  Vis (NewObservableC VUndef) (on_ref (λ o,
  computed_of (Vis (ReadC b) (λ v, match v with VNum 0 => Ret (VNum 0) | _ => Vis (ReadC a) Ret end)) (λ c,
  Vis (SubscribeC a (λ _, Vis (ReadC c) (λ v, Vis (WriteC o v) Ret)) "change") (λ _,
  Vis (WriteC b (VNum 1)) (λ _, Vis (WriteC a (VNum 5)) (λ _,
  Vis (ReadC o) (λ seen, match seen with VNum 0 => Vis (ReadC c) Ret | _ => Ret seen end))))))))))).

Example callback_reads_old_value : option_map snd (exec 60 (CRun old_value_page) empty_store) = Some (inl (VNum 5)).
Proof. vm_compute. reflexivity. Qed.
