(* ===== verification/KoForeach.v ===== *)
(** * Arrays and document nodes: [ko.utils.setDomNodeChildrenFromArrayMapping]

    Models the part of knockout-3.4.2.debug.js that keeps the children of an
    element in step with an array, under the bindings [foreach] and [options]:
    setDomNodeChildrenFromArrayMapping, mapNodeAndRefreshWhenChanged, and the
    functions on nodes they use (fixUpContinuousNodeArray, replaceDomNodes,
    removeNode, insertAfter and prepend).  The edit script comes from [KoCompare].

    The container is an element (not a pair of comments) of the document, its
    [children] a list of nodes.  The objects [mapData], which the result of one
    call shares with the next, are entries of a store, named by their position.
    The page's code is a parameter: [mapping] makes the nodes of a value, for the
    [n]-th time it is called; [depends] and [reads_index] tell whether it reads
    observables and the index.  Callbacks are recorded in a trace.  [None] is an
    exception. *)
From stdpp Require Import base list.
From Stdlib Require Import Lia.
From S2P Require Import Prelude KoCompare.

Local Open Scope js_scope.

(** ** Nodes *)

Section nodes.
Context {node : Type} `{EqDecision node}.
Implicit Types (children l : list node) (n : node).

(** The siblings of [n] from [n] on. *)
Fixpoint siblings_from n children : list node :=
  match children with
  | [] => []
  | c :: children' => if decide (c = n) then children else siblings_from n children'
  end.

Definition nextSibling n children : option node := head (tail (siblings_from n children)).

Definition removeChild n children : list node := List.filter (λ c, negb (bool_decide (c = n))) children.

Fixpoint put_before n ref children : list node :=
  match children with
  | [] => [n]
  | c :: children' => if decide (c = ref) then n :: children else c :: put_before n ref children'
  end.

(** [parent.insertBefore(n, ref)] and, without [ref], [parent.appendChild(n)]: the
    node is first taken from where it is. *)
Definition insertBefore n (ref : option node) children : list node :=
  match (if decide (ref = Some n) then nextSibling n children else ref) with
  | Some r => put_before n r (removeChild n children)
  | None => removeChild n children ++ [n]
  end.

Definition prepend n children : list node := insertBefore n (head children) children.

(** [ko.virtualElements.insertAfter(container, n, insertAfterNode)] *)
Definition insertAfter n (insertAfterNode : option node) children : list node :=
  match insertAfterNode with
  | None => prepend n children
  | Some a => insertBefore n (nextSibling a children) children
  end.

(** [ko.removeNode], of which the cleaning of data is left out. *)
Definition removeNode n children : list node := removeChild n children.
Definition removeNodes l children : list node := fold_left (λ c n, removeNode n c) l children.

Definition replaceDomNodes (old new : list node) children : list node :=
  match old with
  | [] => children
  | insertionPoint :: _ =>
      removeNodes old (fold_left (λ c n, insertBefore n (Some insertionPoint) c) new children)
  end.

(** [while (l.length > 1 && last.parentNode !== parent) l.length--], on the
    reversed array. *)
Fixpoint drop_detached (l : list node) children : list node :=
  match l with
  | n :: ((_ :: _) as l') => if bool_decide (n ∈ children) then l else drop_detached l' children
  | _ => l
  end.

(** [while (current !== last) { push(current); current = current.nextSibling }];
    running out of siblings is an exception. *)
Fixpoint up_to (last : node) (siblings : list node) : option (list node) :=
  match siblings with
  | [] => None
  | c :: siblings' => if decide (c = last) then Some [last] else cons c <$> up_to last siblings'
  end.

Definition fixUpContinuousNodeArray (l : list node) children : option (list node) :=
  let a := drop_while (λ n, bool_decide (n ∉ children)) l in
  let b := rev (drop_detached (rev a) children) in
  match b, rev b with
  | current :: _ :: _, last :: _ => up_to last (siblings_from current children)
  | _, _ => Some b
  end.
End nodes.

(** ** Items, their computeds and the result of a call *)

Section foreach.
Context {V node : Type} `{EqDecision V, EqDecision node}.

(** The page's code.  [mapping value index nodes n]: the nodes made of the value
    by the [n]-th call. *)
Context (mapping : V → nat → list node → nat → list node).
Context (depends reads_index : V → bool).

(** An object [mapData].  [i_value] is what its computed maps; its [arrayEntry]
    is that value, or the dummy value once it is [deleted]; [index] is the value
    of [indexObservable], [active] whether [dependentObservable] is there. *)
Record item := Item {
  i_value : V;
  deleted : bool;
  index : nat;
  mappedNodes : option (list node);
  active : bool;
  suppressed : bool;                    (* suppressDisposalUntilDisposeWhenReturnsFalse *)
  initialized : bool
}.

Definition arrayEntry (it : item) : option V := if deleted it then None else Some (i_value it).
Definition nodes_of (it : item) : list node := default [] (mappedNodes it).

Definition set_nodes (l : list node) (it : item) : item :=
  Item (i_value it) (deleted it) (index it) (Some l) (active it) (suppressed it) (initialized it).
Definition set_index (i : nat) (it : item) : item :=
  Item (i_value it) (deleted it) i (mappedNodes it) (active it) (suppressed it) (initialized it).
Definition set_active (b : bool) (it : item) : item :=
  Item (i_value it) (deleted it) (index it) (mappedNodes it) b (suppressed it) (initialized it).
Definition set_suppressed (b : bool) (it : item) : item :=
  Item (i_value it) (deleted it) (index it) (mappedNodes it) (active it) b (initialized it).
Definition set_initialized (it : item) : item :=
  Item (i_value it) (deleted it) (index it) (mappedNodes it) (active it) (suppressed it) true.
Definition set_deleted (it : item) : item :=
  Item (i_value it) true (index it) (mappedNodes it) (active it) (suppressed it) (initialized it).

(** What the page sees: [callbackAfterAddingNodes] with a value, its nodes and
    its index, and the callbacks of the options with a node, the position in the
    edit script and the entry. *)
Inductive callback := BeforeMove | BeforeRemove | AfterMove | AfterAdd.
Inductive event :=
  | Adding (v : option V) (l : list node) (i : nat)
  | Called (c : callback) (n : node) (i : nat) (v : option V).

Record state := State {
  children : list node;
  items : list item;
  mapping_result : option (list nat);   (* lastMappingResultDomDataKey *)
  mapped : nat;                         (* calls of mapping so far *)
  trace : list event                    (* newest first *)
}.

Definition set_children (c : list node) (s : state) : state :=
  State c (items s) (mapping_result s) (mapped s) (trace s).
Definition upd_item (x : nat) (f : item → item) (s : state) : state :=
  State (children s) (alter f x (items s)) (mapping_result s) (mapped s) (trace s).
Definition set_result (l : list nat) (s : state) : state :=
  State (children s) (items s) (Some l) (mapped s) (trace s).
Definition log (e : event) (s : state) : state :=
  State (children s) (items s) (mapping_result s) (mapped s) (e :: trace s).
Definition new_item (it : item) (s : state) : state :=
  State (children s) (items s ++ [it]) (mapping_result s) (mapped s) (trace s).

(** One call of [mapping]. *)
Definition call_mapping (it : item) (old : list node) (s : state) : list node * state :=
  (mapping (i_value it) (index it) old (mapped s),
   State (children s) (items s) (mapping_result s) (S (mapped s)) (trace s)).

(** [mapNodeAndRefreshWhenChanged], which evaluates its computed: there are no
    nodes yet, so nothing is replaced. *)
Definition mapNodeAndRefreshWhenChanged (x : nat) (s : state) : option state :=
  it ← items s !! x;
  let '(newMappedNodes, s1) := call_mapping it [] s in
  Some (upd_item x (λ it, set_suppressed true (set_active (depends (i_value it) || reads_index (i_value it))
    (set_nodes newMappedNodes it))) s1).

(** The computed of an item is evaluated again.  When none of its nodes is in the
    document it is disposed instead, unless they never were. *)
Definition refresh (x : nat) (s : state) : option state :=
  it ← items s !! x;
  if active it then
    let attached := existsb (λ n, bool_decide (n ∈ children s)) (nodes_of it) in
    if negb attached && negb (suppressed it) then Some (upd_item x (set_active false) s)
    else
      old ← fixUpContinuousNodeArray (nodes_of it) (children s);
      let '(new, s1) := call_mapping it old s in
      let s2 :=
        match old with
        | [] => s1
        | _ => log (Adding (Some (i_value it)) new (index it))
                 (set_children (replaceDomNodes old new (children s1)) s1)
        end in
      Some (upd_item x (λ it, set_suppressed (suppressed it && negb attached) (set_nodes new it)) s2)
  else Some s.

(** [indexObservable(i)]: a change is seen by a computed that read the index. *)
Definition write_index (x i : nat) (s : state) : option state :=
  it ← items s !! x;
  let s1 := upd_item x (set_index i) s in
  if negb (index it =? i) && reads_index (i_value it) then refresh x s1 else Some s1.

(** [fixUpContinuousNodeArray(mapData.mappedNodes, domNode)] *)
Definition fix_up (x : nat) (s : state) : option state :=
  it ← items s !! x;
  l ← fixUpContinuousNodeArray (nodes_of it) (children s);
  Some (upd_item x (set_nodes l) s).

(** ** One call *)

Record options := Options {
  dontLimitMoves : bool;
  beforeMove : bool; beforeRemove : bool; afterMove : bool; afterAdd : bool
}.

(** The local variables; the sparse arrays of items for callbacks are lists of
    positions and items. *)
Record locals := Locals {
  lastMappingResultIndex : nat;
  newMappingResultIndex : nat;
  newMappingResult : list nat;
  nodesToDelete : list node;
  itemsToProcess : list nat;
  itemsForBeforeRemoveCallbacks : list (nat * nat);
  itemsForMoveCallbacks : list (nat * nat);
  itemsForAfterAddCallbacks : list (nat * nat)
}.

Definition itemMovedOrRetained (lastMappingResult : list nat) (editScriptIndex oldPosition : nat)
    (l : locals) (s : state) : option (locals * state) :=
  mapData ← lastMappingResult !! oldPosition;
  let moves := if newMappingResultIndex l =? oldPosition then itemsForMoveCallbacks l
               else itemsForMoveCallbacks l ++ [(editScriptIndex, mapData)] in
  s1 ← write_index mapData (newMappingResultIndex l) s;
  s2 ← fix_up mapData s1;
  Some (Locals (lastMappingResultIndex l) (S (newMappingResultIndex l)) (newMappingResult l ++ [mapData])
          (nodesToDelete l) (itemsToProcess l ++ [mapData]) (itemsForBeforeRemoveCallbacks l) moves
          (itemsForAfterAddCallbacks l), s2).

(** The case "deleted" of an entry that has not moved. *)
Definition itemDeleted (o : options) (lastMappingResult : list nat) (editScriptIndex : nat) (l : locals)
    (s : state) : option (locals * state) :=
  mapData ← lastMappingResult !! lastMappingResultIndex l;
  s1 ← fix_up mapData (upd_item mapData (set_active false) s);
  it ← items s1 !! mapData;
  match nodes_of it with
  | [] => Some (l, s1)
  | nodes =>
      if beforeRemove o then
        Some (Locals (lastMappingResultIndex l) (newMappingResultIndex l) (newMappingResult l ++ [mapData])
                (if deleted it then nodesToDelete l else nodesToDelete l ++ nodes)
                (itemsToProcess l ++ [mapData])
                (if deleted it then itemsForBeforeRemoveCallbacks l
                 else itemsForBeforeRemoveCallbacks l ++ [(editScriptIndex, mapData)])
                (itemsForMoveCallbacks l) (itemsForAfterAddCallbacks l), s1)
      else
        Some (Locals (lastMappingResultIndex l) (newMappingResultIndex l) (newMappingResult l)
                (nodesToDelete l ++ nodes) (itemsToProcess l) (itemsForBeforeRemoveCallbacks l)
                (itemsForMoveCallbacks l) (itemsForAfterAddCallbacks l), s1)
  end.

(** The case "added" of an entry that has not moved. *)
Definition itemAdded (isFirstExecution : bool) (v : V) (editScriptIndex : nat) (l : locals) (s : state)
    : locals * state :=
  let mapData := length (items s) in
  (Locals (lastMappingResultIndex l) (S (newMappingResultIndex l)) (newMappingResult l ++ [mapData])
     (nodesToDelete l) (itemsToProcess l ++ [mapData]) (itemsForBeforeRemoveCallbacks l)
     (itemsForMoveCallbacks l)
     (if isFirstExecution then itemsForAfterAddCallbacks l
      else itemsForAfterAddCallbacks l ++ [(editScriptIndex, mapData)]),
   new_item (Item v false (newMappingResultIndex l) None false false false) s).

Definition next_last (l : locals) : locals :=
  Locals (S (lastMappingResultIndex l)) (newMappingResultIndex l) (newMappingResult l) (nodesToDelete l)
    (itemsToProcess l) (itemsForBeforeRemoveCallbacks l) (itemsForMoveCallbacks l)
    (itemsForAfterAddCallbacks l).

(** The body of the loop over the edit script; the entries of [array] are values,
    those of the last array may be the dummy value [None]. *)
Definition process_entry (o : options) (isFirstExecution : bool) (lastMappingResult : list nat)
    (editScriptIndex : nat) (e : entry (option V)) (l : locals) (s : state) : option (locals * state) :=
  match e_status e with
  | Deleted =>
      '(l1, s1) ← match e_moved e with
                  | None => itemDeleted o lastMappingResult editScriptIndex l s
                  | Some _ => Some (l, s)
                  end;
      Some (next_last l1, s1)
  | Retained =>
      '(l1, s1) ← itemMovedOrRetained lastMappingResult editScriptIndex (lastMappingResultIndex l) l s;
      Some (next_last l1, s1)
  | Added =>
      match e_moved e, e_value e with
      | Some movedIndex, _ => itemMovedOrRetained lastMappingResult editScriptIndex movedIndex l s
      | None, Some v => Some (itemAdded isFirstExecution v editScriptIndex l s)
      | None, None => None                     (* no entry of [array] is the dummy value *)
      end
  end.

Fixpoint process_script (o : options) (isFirstExecution : bool) (lastMappingResult : list nat)
    (i : nat) (script : list (entry (option V))) (l : locals) (s : state) : option (locals * state) :=
  match script with
  | [] => Some (l, s)
  | e :: script' =>
      '(l1, s1) ← process_entry o isFirstExecution lastMappingResult i e l s;
      process_script o isFirstExecution lastMappingResult (S i) script' l1 s1
  end.

(** [callCallback(callback, items)] *)
Definition callCallback (enabled : bool) (c : callback) (l : list (nat * nat)) (s : state) : state :=
  if enabled then
    fold_left (λ s '(i, x),
      match items s !! x with
      | Some it => fold_left (λ s n, log (Called c n i (arrayEntry it)) s) (nodes_of it) s
      | None => s
      end) l s
  else s.

(** The loop over the nodes of an item: [nextNode] and [lastNode]. *)
Fixpoint place_nodes (l : list node) (nextNode lastNode : option node) (c : list node)
    : option node * option node * list node :=
  match l with
  | [] => (nextNode, lastNode, c)
  | n :: l' =>
      let c1 := if decide (Some n = nextNode) then c else insertAfter n lastNode c in
      place_nodes l' (nextSibling n c1) (Some n) c1
  end.

(** The loop over [itemsToProcess]. *)
Fixpoint place_items (l : list nat) (nextNode lastNode : option node) (s : state) : option state :=
  match l with
  | [] => Some s
  | x :: l' =>
      it0 ← items s !! x;
      s1 ← match mappedNodes it0 with
           | None => mapNodeAndRefreshWhenChanged x s
           | Some _ => Some s
           end;
      it ← items s1 !! x;
      let '(next, last, c) := place_nodes (nodes_of it) nextNode lastNode (children s1) in
      let s2 := set_children c s1 in
      let s3 := if initialized it then s2
                else upd_item x set_initialized
                       (log (Adding (arrayEntry it) (nodes_of it) (index it)) s2) in
      place_items l' next last s3
  end.

Definition setDomNodeChildrenFromArrayMapping (array : list V) (o : options) (s : state)
    : option state :=
  let isFirstExecution := match mapping_result s with None => true | Some _ => false end in
  let lastMappingResult := default [] (mapping_result s) in
  let lastArray := (λ x, items s !! x ≫= arrayEntry) <$> lastMappingResult in
  editScript ← compareArrays lastArray (Some <$> array) false (dontLimitMoves o);
  '(l, s1) ← process_script o isFirstExecution lastMappingResult 0 editScript
               (Locals 0 0 [] [] [] [] [] []) s;
  let s2 := callCallback (beforeMove o) BeforeMove (itemsForMoveCallbacks l)
              (set_result (newMappingResult l) s1) in
  let s3 := if beforeRemove o then s2 else set_children (removeNodes (nodesToDelete l) (children s2)) s2 in
  s4 ← place_items (itemsToProcess l) (head (children s3)) None s3;
  let s5 := callCallback (beforeRemove o) BeforeRemove (itemsForBeforeRemoveCallbacks l) s4 in
  let s6 := fold_left (λ s '(_, x), upd_item x set_deleted s) (itemsForBeforeRemoveCallbacks l) s5 in
  Some (callCallback (afterAdd o) AfterAdd (itemsForAfterAddCallbacks l)
          (callCallback (afterMove o) AfterMove (itemsForMoveCallbacks l) s6)).
End foreach.
