(* ===== verification/KoForeachScript.v ===== *)
(** * Where the entries of an edit script stand

    The contract of [KoCompare] that a reader of the script needs who walks both
    arrays along with it, as [KoForeach] does: the objects that are not added
    stand for the old array in order, those that are not deleted for the new one,
    the index of an object is its place in that order, and a moved addition names
    the place of one deletion, which no other object names. *)
From stdpp Require Import base list.
From Stdlib Require Import Lia.
From S2P Require Import Prelude KoCompare.

Section script.
Context {V : Type} `{EqDecision V}.
Implicit Types (script pre post : list (entry V)) (e : entry V).

(** How far a script has come in the old and in the new array. *)
Definition old_place pre : nat := length (without Added pre).
Definition new_place pre : nat := length (without Deleted pre).

Definition in_place script : Prop :=
  ∀ pre e post, script = pre ++ e :: post →
    (e_status e = Deleted → e_index e = Some (old_place pre)) ∧
    (e_status e = Added → e_index e = Some (new_place pre)).

Lemma in_place_snoc script e :
  in_place script →
  (e_status e = Deleted → e_index e = Some (old_place script)) →
  (e_status e = Added → e_index e = Some (new_place script)) → in_place (script ++ [e]).
Proof.
  intros H H1 H2 pre e' post Heq.
  destruct post as [|x post _] using rev_ind.
  - apply app_inj_tail in Heq as [-> ->]. by split.
  - change (pre ++ e' :: post ++ [x]) with (pre ++ (e' :: post) ++ [x]) in Heq.
    rewrite app_assoc in Heq. apply app_inj_tail in Heq as [-> _]. by apply (H pre e' post).
Qed.

Lemma in_place_moved script script' :
  Forall2 same_but_moved script script' → in_place script → in_place script'.
Proof.
  intros H Hp pre e post ->. apply Forall2_app_inv_r in H as (l & k & Hl & Hk & ->).
  apply Forall2_cons_inv_r in Hk as (e' & k' & (Hs & _ & Hi) & _ & ->).
  unfold old_place, new_place. rewrite <-Hs, <-Hi, <-(without_proper _ _ _ Hl), <-(without_proper _ _ _ Hl).
  by apply (Hp l e' k').
Qed.

Lemma path_in_place (sml big : list V) nsml nbig s b ext :
  opposite nsml nbig → path sml big false nsml nbig s b ext →
  s ≤ length sml ∧ b ≤ length big ∧ in_place (rev ext).
Proof.
  intros Hopp Hp. induction Hp as [|s b v ext Hv Hp IH|s b v ext Hv Hp IH|s b v ext Hv Hw Hp IH].
  - split_and!; [lia|lia|]. intros pre e post Heq. by destruct pre.
  - destruct IH as (IH1 & IH2 & IH3). apply lookup_lt_Some in Hv as Hb. split_and!; [done|lia|].
    simpl. destruct (path_without _ _ _ _ _ _ _ Hopp Hp) as [_ Hw].
    apply in_place_snoc; [done| |]; cbn [e_status e_index]; intros ->; unfold old_place, new_place;
      (destruct Hopp as [[H1 H2]|[H1 H2]]; try discriminate H1; subst nbig; rewrite Hw, length_take;
       f_equal; lia).
  - destruct IH as (IH1 & IH2 & IH3). apply lookup_lt_Some in Hv as Hs. split_and!; [lia|done|].
    simpl. destruct (path_without _ _ _ _ _ _ _ Hopp Hp) as [Hw _].
    apply in_place_snoc; [done| |]; cbn [e_status e_index]; intros ->; unfold old_place, new_place;
      (destruct Hopp as [[H1 H2]|[H1 H2]]; try discriminate H2; subst nsml; rewrite Hw, length_take;
       f_equal; lia).
  - destruct IH as (IH1 & IH2 & IH3). apply lookup_lt_Some in Hv as Hs, Hw as Hb.
    split_and!; [lia|lia|]. by apply in_place_snoc.
Qed.

(** The script of [compareArrays] without the option [sparse]. *)
Record walks_both (old new : list V) script : Prop := {
  wb_old : without Added script = old;
  wb_new : without Deleted script = new;
  wb_place : in_place script;
  wb_moves : moves_paired script
}.

Lemma compareArrays_walks (old new : list V) dlm :
  ∃ script, compareArrays old new false dlm = Some script ∧ walks_both old new script.
Proof.
  destruct (compareArrays_path old new false dlm)
    as (nsml & nbig & ext & script & Hopp & Hor & Hp & _ & Heq & Hsame & Hm).
  exists script. split; [done|]. destruct (path_without _ _ _ _ _ _ _ Hopp Hp) as [Hs Hb].
  rewrite !firstn_all in Hs, Hb.
  destruct (path_in_place _ _ _ _ _ _ _ Hopp Hp) as (_ & _ & Hplace).
  split; [..|by eapply in_place_moved|done]; rewrite <-(without_proper _ _ _ Hsame);
    destruct Hor as [(-> & Hso & Hlo)|(-> & Hso & Hlo)]; rewrite Hso in *; rewrite Hlo in *;
    (destruct Hopp as [[H1 ->]|[H1 ->]]; [|]; try discriminate H1; done).
Qed.

(** ** Reading a script from the front *)

Context (old new : list V) (script : list (entry V)).
Hypothesis walks : walks_both old new script.

Lemma old_place_app pre e :
  old_place (pre ++ [e]) = old_place pre + (if decide (e_status e = Added) then 0 else 1).
Proof.
  unfold old_place. rewrite without_app, without_one, length_app. by case_decide.
Qed.
Lemma new_place_app pre e :
  new_place (pre ++ [e]) = new_place pre + (if decide (e_status e = Deleted) then 0 else 1).
Proof.
  unfold new_place. rewrite without_app, without_one, length_app. by case_decide.
Qed.

Lemma entry_in_old pre e post :
  script = pre ++ e :: post → e_status e ≠ Added → old !! old_place pre = Some (e_value e).
Proof.
  intros Heq Hs. rewrite <-(wb_old _ _ _ walks), Heq. unfold old_place.
  change (e :: post) with ([e] ++ post). rewrite !without_app, without_one, decide_False by done.
  rewrite lookup_app_r by done. by rewrite Nat.sub_diag.
Qed.
Lemma entry_in_new pre e post :
  script = pre ++ e :: post → e_status e ≠ Deleted → new !! new_place pre = Some (e_value e).
Proof.
  intros Heq Hs. rewrite <-(wb_new _ _ _ walks), Heq. unfold new_place.
  change (e :: post) with ([e] ++ post). rewrite !without_app, without_one, decide_False by done.
  rewrite lookup_app_r by done. by rewrite Nat.sub_diag.
Qed.

(** ** Which place of the old array an entry deals with *)

Definition claim (place : nat) e : list nat :=
  match e_status e, e_moved e with
  | Retained, _ | Deleted, None => [place]
  | Added, Some j => [j]
  | _, _ => []
  end.

Fixpoint claims (place : nat) script : list nat :=
  match script with
  | [] => []
  | e :: script' =>
      claim place e ++ claims (if decide (e_status e = Added) then place else S place) script'
  end.

Lemma claims_app place pre post :
  claims place (pre ++ post) = claims place pre ++ claims (place + old_place pre) post.
Proof.
  revert place. induction pre as [|e pre IH]; intros place; simpl; [f_equal; unfold old_place; simpl; lia|].
  rewrite IH, <-app_assoc. do 3 f_equal. unfold old_place.
  change (e :: pre) with ([e] ++ pre). rewrite without_app, without_one, length_app.
  case_decide; simpl; lia.
Qed.
Lemma claims_snoc pre e : claims 0 (pre ++ [e]) = claims 0 pre ++ claim (old_place pre) e.
Proof. rewrite claims_app. simpl. by rewrite app_nil_r. Qed.

Lemma old_place_le pre post : old_place pre ≤ old_place (pre ++ post).
Proof. unfold old_place. rewrite without_app, length_app. lia. Qed.
Lemma new_place_le pre post : new_place pre ≤ new_place (pre ++ post).
Proof. unfold new_place. rewrite without_app, length_app. lia. Qed.

Lemma take_later i j e :
  script !! i = Some e → i < j → ∃ k, take j script = (take i script ++ [e]) ++ k.
Proof.
  intros Hi Hij. exists (drop (S i) (take j script)).
  rewrite <-(take_drop (S i) (take j script)) at 1. f_equal.
  rewrite take_take, Nat.min_l by lia. by rewrite (take_S_r _ _ e).
Qed.

Lemma old_place_lt i j e :
  script !! i = Some e → e_status e ≠ Added → i < j → old_place (take i script) < old_place (take j script).
Proof.
  intros Hi Hs [k ->]%(take_later _ _ e); [|done]. apply Nat.lt_le_trans with (old_place (take i script ++ [e])); [|apply old_place_le].
  rewrite old_place_app, decide_False by done. lia.
Qed.
Lemma new_place_lt i j e :
  script !! i = Some e → e_status e ≠ Deleted → i < j → new_place (take i script) < new_place (take j script).
Proof.
  intros Hi Hs [k ->]%(take_later _ _ e); [|done]. apply Nat.lt_le_trans with (new_place (take i script ++ [e])); [|apply new_place_le].
  rewrite new_place_app, decide_False by done. lia.
Qed.

Lemma at_place i e :
  script !! i = Some e →
  (e_status e = Deleted → e_index e = Some (old_place (take i script))) ∧
  (e_status e = Added → e_index e = Some (new_place (take i script))).
Proof. intros Hi. eapply (wb_place _ _ _ walks), eq_sym, take_drop_middle; done. Qed.

(** The deletion whose partner is an addition. *)
Lemma moved_partner i e j :
  script !! i = Some e → e_status e = Added → e_moved e = Some j →
  ∃ i' e', script !! i' = Some e' ∧ e_status e' = Deleted ∧ e_value e' = e_value e ∧
    j = old_place (take i' script) ∧ e_moved e' = Some (new_place (take i script)).
Proof.
  intros Hi Hs Hj. destruct (wb_moves _ _ _ walks e j) as (e' & He' & Hi' & Hm & Hv & Ho);
    [by eapply list_elem_of_lookup_2|done|].
  apply list_elem_of_lookup in He' as [i' He']. exists i', e'.
  assert (e_status e' = Deleted) as Hs' by (destruct Ho as [[? ?]|[? ?]]; congruence).
  pose proof (proj1 (at_place _ _ He') Hs') as H1. pose proof (proj2 (at_place _ _ Hi) Hs) as H2.
  split_and!; congruence.
Qed.

Lemma elem_of_claims p k :
  k ≤ length script → p ∈ claims 0 (take k script) →
  ∃ i e, i < k ∧ script !! i = Some e ∧ p ∈ claim (old_place (take i script)) e.
Proof.
  induction k as [|k IH]; intros Hk Hp; [by apply not_elem_of_nil in Hp|].
  destruct (lookup_lt_is_Some_2 script k) as [e He]; [lia|].
  rewrite (take_S_r _ _ e He), claims_snoc in Hp. apply elem_of_app in Hp as [Hp|Hp].
  - destruct IH as (i & e' & ? & ? & ?); [lia|done|]. exists i, e'. split_and!; [lia|done..].
  - exists k, e. split_and!; [lia|done..].
Qed.

Lemma elem_of_claim p q e :
  p ∈ claim q e →
  (p = q ∧ e_status e ≠ Added ∧ (e_status e = Deleted → e_moved e = None)) ∨
  (e_status e = Added ∧ e_moved e = Some p).
Proof.
  unfold claim. destruct (e_status e), (e_moved e); intros H;
    try (apply not_elem_of_nil in H; done); apply list_elem_of_singleton in H as ->;
    first [left; split_and!; congruence | right; split; congruence].
Qed.

Lemma claims_distinct i i' e e' p :
  script !! i = Some e → script !! i' = Some e' → i < i' →
  p ∈ claim (old_place (take i script)) e → p ∈ claim (old_place (take i' script)) e' → False.
Proof.
  assert (∀ i e i' e', script !! i = Some e → script !! i' = Some e' → e_status e ≠ Added →
            e_status e' ≠ Added → old_place (take i script) = old_place (take i' script) → e = e') as Hinj.
  { clear. intros i e i' e' He He' Hs Hs' Heq. destruct (lt_eq_lt_dec i i') as [[H| ->]|H]; [|congruence|].
    - eapply old_place_lt in H; [|done..]. lia.
    - eapply old_place_lt in H; [|done..]. lia. }
  intros He He' Hlt [(-> & Hs & Hm)|[Hs Hm]]%elem_of_claim [(Heq & Hs' & Hm')|[Hs' Hm']]%elem_of_claim.
  - eapply old_place_lt in Hlt; [|done..]. lia.
  - destruct (moved_partner _ _ _ He' Hs' Hm') as (k & e2 & H1 & H2 & H3 & H4 & H5).
    assert (e = e2) as -> by (eapply Hinj; eauto; congruence). specialize (Hm H2). congruence.
  - destruct (moved_partner _ _ _ He Hs Hm) as (k & e2 & H1 & H2 & H3 & H4 & H5).
    assert (e' = e2) as -> by (eapply Hinj; eauto; congruence). specialize (Hm' H2). congruence.
  - destruct (moved_partner _ _ _ He Hs Hm) as (k & e2 & H1 & H2 & H3 & H4 & H5).
    destruct (moved_partner _ _ _ He' Hs' Hm') as (k' & e2' & H1' & H2' & H3' & H4' & H5').
    assert (e2 = e2') as <- by (eapply Hinj; eauto; congruence).
    eapply new_place_lt in Hlt; [|done|congruence]. rewrite H5 in H5'. simplify_eq. lia.
Qed.

Lemma claim_NoDup q e : NoDup (claim q e).
Proof. unfold claim. destruct (e_status e), (e_moved e); first [apply NoDup_nil_2|apply NoDup_singleton]. Qed.

Lemma claims_NoDup k : k ≤ length script → NoDup (claims 0 (take k script)).
Proof.
  induction k as [|k IH]; intros Hk; [apply NoDup_nil_2|].
  destruct (lookup_lt_is_Some_2 script k) as [e He]; [lia|].
  rewrite (take_S_r _ _ e He), claims_snoc. apply NoDup_app. split_and!; [apply IH; lia| |apply claim_NoDup].
  intros p (i & e' & Hi & He' & Hp)%elem_of_claims Hp'; [|lia].
  by apply (claims_distinct i k e' e p).
Qed.

(** Every place of the old array is passed by one entry. *)
Lemma place_passed k p :
  k ≤ length script → p < old_place (take k script) →
  ∃ i e, script !! i = Some e ∧ e_status e ≠ Added ∧ old_place (take i script) = p.
Proof.
  induction k as [|k IH]; intros Hk Hp; [unfold old_place in Hp; simpl in Hp; lia|].
  destruct (lookup_lt_is_Some_2 script k) as [e He]; [lia|].
  rewrite (take_S_r _ _ e He), old_place_app in Hp.
  destruct (decide (p < old_place (take k script))); [apply IH; lia|].
  case_decide; [lia|]. exists k, e. split_and!; [done..|lia].
Qed.

Lemma old_place_bound i e :
  script !! i = Some e → e_status e ≠ Added → old_place (take i script) < length old.
Proof.
  intros Hi Hs. apply lookup_lt_Some with (e_value e).
  eapply entry_in_old; [symmetry; by apply take_drop_middle|done].
Qed.

Lemma claims_all : claims 0 script ≡ₚ seq 0 (length old).
Proof.
  rewrite <-(firstn_all script) at 1. apply NoDup_Permutation; [by apply claims_NoDup|apply NoDup_seq|].
  intros p. rewrite elem_of_seq. split.
  - intros (i & e & _ & He & Hp)%elem_of_claims; [|done].
    apply elem_of_claim in Hp as [(-> & Hs & _)|[Hs Hm]].
    + apply old_place_bound in He; [lia|done].
    + destruct (moved_partner _ _ _ He Hs Hm) as (i' & e' & He' & Hs' & _ & -> & _).
      apply old_place_bound in He'; [lia|congruence].
  - intros [_ Hp]. simpl in Hp. rewrite firstn_all.
    assert (p < old_place (take (length script) script)) as Hp'.
    { rewrite firstn_all. unfold old_place. by rewrite (wb_old _ _ _ walks). }
    apply place_passed in Hp' as (i & e & He & Hs & <-); [|done].
    assert (∀ i e q, script !! i = Some e → q ∈ claim (old_place (take i script)) e → q ∈ claims 0 script) as Hin.
    { clear. intros i e q He Hq. rewrite <-(take_drop_middle _ _ _ He). rewrite claims_app. simpl.
      rewrite !elem_of_app. auto. }
    destruct (e_status e) eqn:Hst; [done| |].
    all: destruct (e_moved e) as [j|] eqn:Hm; try (eapply Hin; [done|]; unfold claim; rewrite Hst, ?Hm; left).
    destruct (wb_moves _ _ _ walks e j) as (e' & He' & Hi' & Hm' & Hv & Ho);
      [by eapply list_elem_of_lookup_2|done|].
    apply list_elem_of_lookup in He' as [i' He'].
    assert (e_status e' = Added) as Hs' by (destruct Ho as [[? ?]|[? ?]]; congruence).
    eapply Hin; [done|]. rewrite (proj1 (at_place _ _ He) Hst) in Hm'. unfold claim. rewrite Hs', Hm'. left.
Qed.
End script.
