(* ===== verification/KoForeachNodes.v ===== *)
(** * The functions on nodes of [KoForeach]

    What they do to the list of children of an element: where a node goes, what
    is left when nodes are removed, the run of siblings that
    fixUpContinuousNodeArray finds, and the loop that puts the nodes of an item
    in place. *)
From stdpp Require Import base list.
From Stdlib Require Import Lia.
From S2P Require Import Prelude KoForeach.

Section nodes.
Context {node : Type} `{EqDecision node}.
Implicit Types (c l t T R A B : list node) (n x : node).

(** ** Sublists *)

Lemma sublist_filter_stronger (P Q : node → Prop) `{∀ x, Decision (P x), ∀ x, Decision (Q x)} l :
  (∀ x, x ∈ l → P x → Q x) → filter P l `sublist_of` filter Q l.
Proof.
  induction l as [|x l IH]; intros H1; [done|]. rewrite !filter_cons.
  assert (filter P l `sublist_of` filter Q l) by (apply IH; intros; apply H1; [by right|done]).
  specialize (H1 x (list_elem_of_here _ _)).
  repeat case_decide; first [done|by constructor|tauto].
Qed.

Lemma filter_iff_in (P Q : node → Prop) `{∀ n, Decision (P n), ∀ n, Decision (Q n)} c :
  (∀ n, n ∈ c → P n ↔ Q n) → filter P c = filter Q c.
Proof.
  induction c as [|n c IH]; intros H1; [done|]. rewrite !filter_cons, IH by (intros; apply H1; by right).
  specialize (H1 n (list_elem_of_here _ _)). repeat case_decide; tauto.
Qed.

Lemma sublist_middle c1 c2 A B x :
  NoDup (c1 ++ x :: c2) → A ++ x :: B `sublist_of` c1 ++ x :: c2 →
  A `sublist_of` c1 ∧ B `sublist_of` c2.
Proof.
  intros Hnd H. apply sublist_app_cons_l in H as (k1 & k2 & Heq & H1 & H2).
  assert (k1 = c1 ∧ k2 = c2) as [-> ->]; [|done].
  clear H1 H2. revert c1 Hnd Heq. induction k1 as [|y k1 IH]; intros c1 Hnd Heq.
  - destruct c1 as [|z c1]; [by simplify_eq/=|]. simplify_eq/=.
    apply NoDup_cons in Hnd as [Hz _]. destruct Hz. apply elem_of_app. right. left.
  - destruct c1 as [|z c1].
    + simplify_eq/=. apply NoDup_cons in Hnd as [Hx _]. destruct Hx.
      apply elem_of_app. right. left.
    + simplify_eq/=. apply NoDup_cons in Hnd as [_ Hnd].
      by destruct (IH c1 Hnd ltac:(done)) as [-> ->].
Qed.

(** ** Siblings, insertion and removal *)

Lemma siblings_from_app n c1 c2 : n ∉ c1 → siblings_from n (c1 ++ n :: c2) = n :: c2.
Proof.
  induction c1 as [|y c1 IH]; intros Hn; simpl; [by rewrite decide_True|].
  apply not_elem_of_cons in Hn as [? ?]. rewrite decide_False by done. by apply IH.
Qed.

Lemma nextSibling_app n c1 c2 : n ∉ c1 → nextSibling n (c1 ++ n :: c2) = head c2.
Proof. intros. unfold nextSibling. by rewrite siblings_from_app. Qed.

Lemma removeChild_filter n c : removeChild n c = filter (λ x, x ≠ n) c.
Proof.
  induction c as [|y c IH]; simpl; [done|]. rewrite filter_cons, IH.
  destruct (decide (y = n)) as [->|?].
  - rewrite bool_decide_true by done. simpl. by rewrite decide_False by tauto.
  - rewrite bool_decide_false by done. simpl. by rewrite decide_True.
Qed.

Lemma filter_id (P : node → Prop) `{∀ x, Decision (P x)} l : (∀ x, x ∈ l → P x) → filter P l = l.
Proof.
  induction l as [|y l IH]; intros Hl; [done|]. rewrite filter_cons_True by (apply Hl; left).
  f_equal. apply IH. intros. apply Hl. by right.
Qed.
Lemma filter_none (P : node → Prop) `{∀ x, Decision (P x)} l : (∀ x, x ∈ l → ¬ P x) → filter P l = [].
Proof.
  induction l as [|y l IH]; intros Hl; [done|]. rewrite filter_cons_False by (apply Hl; left).
  apply IH. intros. apply Hl. by right.
Qed.

Lemma removeNodes_filter l c : removeNodes l c = filter (λ x, x ∉ l) c.
Proof.
  unfold removeNodes, removeNode. revert c. induction l as [|n l IH]; intros c; simpl.
  - rewrite filter_id; [done|]. intros x _. apply not_elem_of_nil.
  - rewrite IH, removeChild_filter, list_filter_filter.
    apply list_filter_iff. intros x. rewrite not_elem_of_cons. tauto.
Qed.

Lemma put_before_app n r c1 c2 : r ∉ c1 → put_before n r (c1 ++ r :: c2) = c1 ++ n :: r :: c2.
Proof.
  induction c1 as [|y c1 IH]; intros Hr; simpl; [by rewrite decide_True|].
  apply not_elem_of_cons in Hr as [? ?]. rewrite decide_False by done. f_equal. by apply IH.
Qed.

(** A node is put in front of the first one of [R]. *)
Lemma insertBefore_app n T R :
  NoDup (T ++ R) → n ∉ T → head R ≠ Some n →
  insertBefore n (head R) (T ++ R) = T ++ n :: filter (λ x, x ≠ n) R.
Proof.
  intros Hnd Hn HR. apply NoDup_app in Hnd as (_ & Hd & _).
  unfold insertBefore. rewrite decide_False by done. rewrite removeChild_filter, filter_app.
  rewrite (filter_id _ T) by (intros x Hx ->; done).
  destruct R as [|r R]; simpl; [by rewrite filter_nil, app_nil_r|].
  rewrite filter_cons_True by (intros ->; done). apply put_before_app.
  intros Hr. by apply (Hd r Hr); left.
Qed.

(** One round of the loop over the nodes of an item: what is in place stays. *)
Lemma place_node n T R :
  NoDup (T ++ R) → n ∉ T →
  (if decide (Some n = head R) then T ++ R else insertAfter n (last T) (T ++ R)) =
  T ++ n :: filter (λ x, x ≠ n) R.
Proof.
  intros Hnd Hn. case_decide as Hh.
  - destruct R as [|r R]; [done|]. simplify_eq/=. do 2 f_equal.
    rewrite filter_cons_False by tauto. rewrite filter_id; [done|]. intros x Hx ->.
    apply NoDup_app in Hnd as (_ & _ & [? _]%NoDup_cons). done.
  - unfold insertAfter. destruct T as [|a T _] using rev_ind; simpl.
    + apply (insertBefore_app n []); [done..|congruence].
    + rewrite last_snoc, <-app_assoc. simpl. rewrite nextSibling_app.
      * change (T ++ a :: R) with (T ++ [a] ++ R). rewrite app_assoc.
        rewrite insertBefore_app by (done || congruence). by rewrite <-app_assoc.
      * rewrite <-app_assoc in Hnd. intros Ha. apply NoDup_app in Hnd as (_ & Hd & _).
        apply (Hd a Ha). left.
Qed.

(** The nodes of an item follow [T], in their order; the rest keeps its own. *)
Lemma place_nodes_app l : ∀ T R,
  NoDup (T ++ R) → NoDup l → (∀ n, n ∈ l → n ∉ T) →
  ∃ R', R' = filter (λ x, x ∉ l) R ∧
    place_nodes l (head R) (last T) (T ++ R) = (head R', last (T ++ l), (T ++ l) ++ R').
Proof.
  induction l as [|n l IH]; intros T R Hnd Hl Hd; simpl.
  { exists R. split; [|by rewrite app_nil_r].
    rewrite filter_id; [done|]. intros ? _. apply not_elem_of_nil. }
  apply NoDup_cons in Hl as [Hnl Hl].
  assert (n ∉ T) as HnT by (apply Hd; left).
  rewrite place_node by done.
  set (R1 := filter (λ x, x ≠ n) R).
  assert (NoDup ((T ++ [n]) ++ R1)) as Hnd1.
  { apply NoDup_app in Hnd as (HT & Hdis & HR). rewrite <-app_assoc. apply NoDup_app. split_and!; [done| |].
    - intros y Hy [->|[? ?]%list_elem_of_filter]%elem_of_cons; [done|]. by apply (Hdis y).
    - simpl. apply NoDup_cons. split; [|by apply NoDup_filter].
      intros [? _]%list_elem_of_filter. done. }
  destruct (IH (T ++ [n]) R1) as (R' & HR' & Heq); [done..| |].
  { intros y Hy [?| ->%list_elem_of_singleton]%elem_of_app; [|done]. apply (Hd y); [by right|done]. }
  exists R'. split.
  - rewrite HR'. unfold R1. rewrite list_filter_filter. apply list_filter_iff.
    intros x. rewrite not_elem_of_cons. tauto.
  - rewrite nextSibling_app by done. rewrite last_snoc, <-!app_assoc in Heq. simpl in Heq.
    rewrite Heq, <-!app_assoc. done.
Qed.

(** ** Replacing a run of siblings *)

Lemma insert_all c1 ref c2 new :
  NoDup (c1 ++ ref :: c2) → NoDup new → (∀ n, n ∈ new → n ∉ c1 ++ ref :: c2) →
  fold_left (λ c n, insertBefore n (Some ref) c) new (c1 ++ ref :: c2) = c1 ++ new ++ ref :: c2.
Proof.
  revert c1. induction new as [|n new IH]; intros c1 Hc Hnew Hd; simpl; [done|].
  apply NoDup_cons in Hnew as [Hn Hnew].
  assert (n ∉ c1 ++ ref :: c2) as Hn' by (apply Hd; left).
  assert (insertBefore n (Some ref) (c1 ++ ref :: c2) = (c1 ++ [n]) ++ ref :: c2) as ->.
  { etrans; [apply (insertBefore_app n c1 (ref :: c2)); [done|..]|].
    - intros ?. apply Hn', elem_of_app. by left.
    - intros [= ->]. apply Hn', elem_of_app. right. left.
    - rewrite <-app_assoc. simpl. do 2 f_equal. apply filter_id. intros x Hx ->.
      apply Hn', elem_of_app. by right. }
  rewrite IH; [by rewrite <-app_assoc| |done|].
  - apply NoDup_app in Hc as (H1 & H2 & H3). apply not_elem_of_app in Hn' as [? ?].
    rewrite <-app_assoc. apply NoDup_app. split_and!; [done| |by apply NoDup_cons].
    intros y Hy [->|?]%elem_of_cons; [done|]. by apply (H2 y).
  - intros y Hy. specialize (Hd y (list_elem_of_further _ _ _ Hy)).
    apply not_elem_of_app in Hd as [? ?]. rewrite <-app_assoc.
    apply not_elem_of_app. split; [done|]. apply not_elem_of_cons. split; [|done]. by intros ->.
Qed.

Lemma replaceDomNodes_app c1 old c2 new :
  NoDup (c1 ++ old ++ c2) → NoDup new → (∀ n, n ∈ new → n ∉ c1 ++ old ++ c2) → old ≠ [] →
  replaceDomNodes old new (c1 ++ old ++ c2) = c1 ++ new ++ c2.
Proof.
  intros Hc Hnew Hd Hold. destruct old as [|ref old]; [done|]. unfold replaceDomNodes.
  rewrite removeNodes_filter. simpl in *. rewrite insert_all by done.
  apply NoDup_app in Hc as (H1 & H2 & H3). change (ref :: old ++ c2) with ((ref :: old) ++ c2) in *.
  apply NoDup_app in H3 as (_ & H4 & _).
  rewrite !filter_app. f_equal; [|f_equal].
  - apply filter_id. intros x Hx Hxo. apply (H2 x Hx), elem_of_app. by left.
  - apply filter_id. intros x Hx Hxo. apply (Hd x Hx). rewrite !elem_of_app. auto.
  - rewrite filter_none by tauto. apply filter_id. intros x Hx Hxo. by apply (H4 x).
Qed.

(** ** The run of an item's nodes *)

(** [l] is the run of [c] from the first to the last node of [F]. *)
Record run F l c c1 c2 : Prop := Run {
  run_eq : c = c1 ++ l ++ c2;
  run_sublist : F `sublist_of` l;
  run_head : head l = head F;
  run_last : last l = last F
}.

Lemma run_exists F c : F `sublist_of` c → ∃ l c1 c2, run F l c c1 c2.
Proof.
  intros H. destruct F as [|x F]; [by exists [], c, []; split; rewrite ?app_nil_r|].
  destruct F as [|y F _] using rev_ind.
  - apply sublist_cons_l in H as (c1 & c2 & -> & _). by exists [x], c1, c2.
  - apply sublist_cons_l in H as (c1 & c' & -> & H).
    apply sublist_app_cons_l in H as (m & c2 & -> & Hm & _).
    exists (x :: m ++ [y]), c1, c2. split; simpl; rewrite <-?app_assoc; try done.
    + apply sublist_skip. by apply sublist_app.
    + change (x :: m ++ [y]) with ((x :: m) ++ [y]). change (x :: F ++ [y]) with ((x :: F) ++ [y]).
      by rewrite !last_snoc.
Qed.

Lemma drop_while_all d (p : node → bool) : Forall (λ z, p z = true) d → drop_while p d = [].
Proof. induction 1 as [|z d Hz _ IH]; simpl; [done|]. by rewrite Hz. Qed.
Lemma drop_while_app d l (p : node → bool) x :
  Forall (λ z, p z = true) d → p x = false → drop_while p (d ++ x :: l) = x :: l.
Proof. induction 1 as [|z d Hz _ IH]; intros Hx; simpl; [by rewrite Hx|]. rewrite Hz. by apply IH. Qed.

Lemma drop_detached_app q l y c : Forall (λ z, z ∉ c) q → y ∈ c → drop_detached (q ++ y :: l) c = y :: l.
Proof.
  induction 1 as [|z q Hz _ IH]; intros Hy; simpl.
  - destruct l; [done|]. by rewrite bool_decide_true.
  - rewrite bool_decide_false, IH by done. by destruct (q ++ y :: l) eqn:?; [destruct q|].
Qed.

Lemma up_to_app y l c : y ∉ l → up_to y (l ++ y :: c) = Some (l ++ [y]).
Proof.
  induction l as [|x l IH]; intros Hy; simpl; [by rewrite decide_True|].
  apply not_elem_of_cons in Hy as [? ?]. rewrite decide_False, IH by done. done.
Qed.

Lemma fixUp_between l c x y :
  NoDup c → head (filter (λ n, n ∈ c) l) = Some x → last (filter (λ n, n ∈ c) l) = Some y →
  ∀ l', (x = y ∧ l' = [x]) ∨ (∃ c1 m c2, c = c1 ++ x :: m ++ y :: c2 ∧ l' = x :: m ++ [y]) →
  fixUpContinuousNodeArray l c = Some l'.
Proof.
  intros Hc Hx Hy l' Hl'. unfold fixUpContinuousNodeArray.
  assert (x ∈ c) as Hxc.
  { destruct (filter _ l) as [|z F] eqn:HF; [done|]. simplify_eq/=.
    assert (x ∈ filter (λ n, n ∈ c) l) as [? _]%list_elem_of_filter by (rewrite HF; left). done. }
  apply head_filter_Some in Hx as (d & l2 & -> & Hd).
  rewrite filter_app, (filter_none _ d) in Hy by (by apply Forall_forall). cbn [app] in Hy.
  assert (y ∈ c) as Hyc.
  { apply last_Some in Hy as [F HF].
    assert (y ∈ filter (λ n, n ∈ c) (x :: l2)) as [? _]%list_elem_of_filter; [|done].
    rewrite HF. apply elem_of_app. right. left. }
  rewrite drop_while_app.
  2:{ eapply Forall_impl; [exact Hd|]. intros z Hz. by rewrite bool_decide_true. }
  2:{ apply bool_decide_false. tauto. }
  apply last_filter_Some in Hy as (p & q & Heq & Hq). rewrite Heq, rev_app_distr.
  change (rev (y :: q)) with (rev q ++ [y]). rewrite <-app_assoc.
  change ([y] ++ rev p) with (y :: rev p). rewrite drop_detached_app; [|by apply Forall_rev|done].
  assert (rev (y :: rev p) = p ++ [y]) as -> by (simpl; by rewrite rev_involutive).
  destruct p as [|x' p]; simpl in Heq; injection Heq as <- ->; cbn [app].
  { destruct Hl' as [[_ ->]|(c1 & m & c2 & -> & _)]; [done|].
    exfalso. apply NoDup_app in Hc as (_ & _ & [Hc _]%NoDup_cons).
    apply Hc, elem_of_app. right. left. }
  destruct (p ++ [y]) as [|z p'] eqn:Hp; [by destruct p|].
  rewrite <-Hp, app_comm_cons, rev_unit. cbn [app].
  destruct Hl' as [[<- ->]|(c1 & m & c2 & -> & ->)].
  - apply list_elem_of_split in Hxc as (c1 & c2 & ->). apply NoDup_app in Hc as (_ & Hc & _).
    rewrite siblings_from_app by (intros Hx; apply (Hc x Hx); left). simpl. by rewrite decide_True.
  - rewrite siblings_from_app.
    + apply (up_to_app y (x :: m) c2). intros Hym. apply NoDup_app in Hc as (_ & _ & Hc).
      rewrite app_comm_cons in Hc. apply NoDup_app in Hc as (_ & Hc & _). apply (Hc y Hym). left.
    + intros Hx. apply NoDup_app in Hc as (_ & Hc & _). apply (Hc x Hx). left.
Qed.

(** [fixUpContinuousNodeArray] finds the run of the nodes that are still there. *)
Lemma fixUp_run F l l' c c1 c2 :
  NoDup c → F = filter (λ n, n ∈ c) l → run F l' c c1 c2 → fixUpContinuousNodeArray l c = Some l'.
Proof.
  intros Hc HF [Heq Hsub Hh Hl]. unfold fixUpContinuousNodeArray.
  assert (NoDup l') as Hl' by (rewrite Heq in Hc; apply NoDup_app in Hc as (_ & _ & [? _]%NoDup_app); done).
  destruct (head F) as [x|] eqn:HhF.
  2:{ destruct F; [|done]. destruct l'; [|done]. rewrite drop_while_all; [done|].
      apply Forall_forall. intros z Hz. rewrite bool_decide_true; [done|]. intros Hzc.
      by eapply (filter_nil_not_elem_of (λ n, n ∈ c) l z). }
  assert (∃ y, last F = Some y) as [y Hy].
  { destruct F as [|? F]; [done|]. destruct F as [|y F _] using rev_ind; [by eexists|].
    exists y. by rewrite app_comm_cons, last_snoc. }
  rewrite Hy in Hl. apply (fixUp_between l c x y Hc); [congruence|congruence|].
  destruct l' as [|x' l']; [done|]. simplify_eq/=.
  destruct l' as [|y' l' _] using rev_ind; simplify_eq/=.
  { left. by simplify_eq/=. }
  rewrite app_comm_cons, last_snoc in Hl. simplify_eq. right. exists c1, l', c2.
  by rewrite <-app_assoc.
Qed.

(** ** The nodes of all items among the children *)

(** The nodes [t] of the items, in their order, those that are children standing
    among the children [c] in that order. *)
Record placed t c : Prop := Placed {
  placed_tracked : NoDup t;
  placed_children : NoDup c;
  placed_order : filter (λ n, n ∈ c) t `sublist_of` c
}.

Definition foreign t c : list node := filter (λ n, n ∉ t) c.

Lemma attached_all l c : l ⊆ c → filter (λ n, n ∈ c) l = l.
Proof. intros H. apply filter_id. intros x Hx. by apply H. Qed.

Lemma run_splits FA F FB l c c1 c2 :
  NoDup c → FA ++ F ++ FB `sublist_of` c → run F l c c1 c2 → F ≠ [] →
  FA `sublist_of` c1 ∧ FB `sublist_of` c2.
Proof.
  intros Hc Hs [-> _ Hh Hl] HF. split.
  - destruct F as [|x F]; [done|]. destruct l as [|x' l]; [done|]. simplify_eq/=.
    by apply sublist_middle in Hs as [? _].
  - destruct F as [|y F _] using rev_ind; [done|].
    rewrite last_snoc in Hl. apply last_Some in Hl as [l' ->].
    rewrite <-!app_assoc, (app_assoc c1) in Hc. rewrite <-!app_assoc, (app_assoc FA), (app_assoc c1) in Hs.
    by apply sublist_middle in Hs as [_ ?].
Qed.

Lemma NoDup_replace A h l B :
  NoDup (A ++ h ++ B) → NoDup l → (∀ n, n ∈ l → n ∉ A ++ B) → NoDup (A ++ l ++ B).
Proof.
  intros (HA & HAB & (_ & _ & HB)%NoDup_app)%NoDup_app Hl Hd. apply NoDup_app. split_and!; [done| |].
  - intros x Hx Hx'. apply elem_of_app in Hx' as [Hx'|Hx'].
    + apply (Hd x Hx'), elem_of_app. by left.
    + apply (HAB x Hx), elem_of_app. by right.
  - apply NoDup_app. split_and!; [done| |done]. intros x Hx HxB. apply (Hd x Hx), elem_of_app. by right.
Qed.

Lemma foreign_weaken t t' c : (∀ n, n ∈ c → n ∈ t → n ∈ t') → foreign t' c `sublist_of` foreign t c.
Proof. intros H. apply sublist_filter_stronger. intros x Hx Hn Ht. by apply Hn, H. Qed.

Lemma elem_of_run F l c c1 c2 x : run F l c c1 c2 → x ∈ F → x ∈ l.
Proof. intros [_ H _ _] Hx. by eapply elem_of_sublist. Qed.

(** The nodes of one item are brought up to date. *)
Lemma placed_fixUp A h B c :
  placed (A ++ h ++ B) c →
  ∃ l c1 c2, fixUpContinuousNodeArray h c = Some l ∧ c = c1 ++ l ++ c2 ∧
    (l = [] ↔ ∀ n, n ∈ h → n ∉ c) ∧ placed (A ++ l ++ B) c ∧
    (foreign (A ++ l ++ B) c) `sublist_of` (foreign (A ++ h ++ B) c).
Proof.
  intros [Ht Hc Ho]. rewrite !filter_app in Ho.
  set (F := filter (λ n, n ∈ c) h) in *.
  assert (F `sublist_of` c) as HF.
  { etrans; [|exact Ho]. apply sublist_inserts_l, sublist_inserts_r. done. }
  destruct (run_exists _ _ HF) as (l & c1 & c2 & Hrun). exists l, c1, c2.
  pose proof Hrun as [Heq _ Hh _].
  split; [by eapply fixUp_run|]. split; [done|].
  assert (l ⊆ c) as Hlc by (intros x Hx; rewrite Heq, !elem_of_app; auto).
  assert (∀ x, x ∈ h → x ∈ c → x ∈ l) as Hhl.
  { intros x Hx Hxc. apply (elem_of_run _ _ _ _ _ _ Hrun). by apply list_elem_of_filter. }
  assert (NoDup l) as Hl by (rewrite Heq in Hc; apply NoDup_app in Hc as (_ & _ & [? _]%NoDup_app); done).
  split; [|split].
  - split.
    + intros -> n Hn Hnc. apply (not_elem_of_nil n), (Hhl n Hn Hnc).
    + intros H. assert (F = []) as HF0 by (apply filter_none; done). rewrite HF0 in Hh. by destruct l.
  - destruct (decide (F = [])) as [HF0|HF0].
    { rewrite HF0 in Hh. assert (l = []) as -> by by destruct l. split; [|done|].
      - eapply NoDup_replace; [done|constructor|]. intros n Hn. by apply not_elem_of_nil in Hn.
      - rewrite !filter_app. by rewrite HF0 in Ho. }
    destruct (run_splits _ _ _ _ _ _ _ Hc Ho Hrun HF0) as [HA HB].
    split; [|done|].
    + eapply NoDup_replace; [done..|]. intros n Hn Hn'. specialize (Hlc n Hn) as Hnc.
      rewrite Heq in Hc. apply NoDup_app in Hc as (_ & Hc1 & (_ & Hc2 & _)%NoDup_app).
      apply elem_of_app in Hn' as [Hn'|Hn'].
      * eapply Hc1; [eapply elem_of_sublist; [|exact HA]; by apply list_elem_of_filter|].
        apply elem_of_app. by left.
      * apply (Hc2 n Hn). eapply elem_of_sublist; [|exact HB]. by apply list_elem_of_filter.
    + rewrite !filter_app, (attached_all l) by done.
      pose proof (sublist_app _ _ _ _ HA (sublist_app _ _ _ _ (reflexivity l) HB)) as Hs.
      by rewrite <-Heq in Hs.
  - apply foreign_weaken. intros n Hn. rewrite !elem_of_app. intuition.
Qed.

(** They are replaced, in the document. *)
Lemma placed_replace A l B c1 c2 new :
  placed (A ++ l ++ B) (c1 ++ l ++ c2) → l ≠ [] → NoDup new →
  (∀ n, n ∈ new → (n ∉ c1 ++ l ++ c2) ∧ (n ∉ A ++ l ++ B)) →
  placed (A ++ new ++ B) (c1 ++ new ++ c2) ∧
  (foreign (A ++ new ++ B) (c1 ++ new ++ c2)) `sublist_of` (foreign (A ++ l ++ B) (c1 ++ l ++ c2)).
Proof.
  intros [Ht Hc Ho] Hl Hnew Hd.
  assert (∀ n, n ∈ new → (n ∉ A) ∧ (n ∉ B) ∧ (n ∉ c1) ∧ (n ∉ c2)) as Hd'.
  { intros n Hn. destruct (Hd n Hn) as [H1 H2]. rewrite !not_elem_of_app in H1, H2. tauto. }
  assert (l ⊆ c1 ++ l ++ c2) as Hlc by (intros x Hx; rewrite !elem_of_app; auto).
  rewrite !filter_app, (attached_all l) in Ho by done.
  assert (run l l (c1 ++ l ++ c2) c1 c2) as Hrun by done.
  destruct (run_splits _ _ _ _ _ _ _ Hc Ho Hrun Hl) as [HA HB].
  split; [split|].
  - eapply NoDup_replace; [done..|]. intros n Hn. rewrite not_elem_of_app. apply Hd' in Hn. tauto.
  - eapply NoDup_replace; [done..|]. intros n Hn. rewrite not_elem_of_app. apply Hd' in Hn. tauto.
  - rewrite !filter_app, (attached_all new) by (intros x Hx; rewrite !elem_of_app; auto).
    repeat apply sublist_app; [|done|].
    + etrans; [|exact HA]. apply sublist_filter_stronger. intros x Hx. rewrite !elem_of_app.
      intros [?|[?|?]]; [by left| |by auto]. exfalso. by destruct (Hd' x) as (?&?&?&?).
    + etrans; [|exact HB]. apply sublist_filter_stronger. intros x Hx. rewrite !elem_of_app.
      intros [?|[?|?]]; [by left| |by auto]. exfalso. by destruct (Hd' x) as (?&?&?&?).
  - unfold foreign. rewrite !filter_app. apply sublist_app; [|rewrite (filter_none _ new)].
    + apply sublist_filter_stronger. intros x Hx. rewrite !not_elem_of_app. intros (?&?&?).
      split_and!; try done. intros Hxl. apply NoDup_app in Hc as (_ & Hc & _).
      apply (Hc x Hx), elem_of_app. by left.
    + apply sublist_inserts_l. apply sublist_filter_stronger. intros x Hx.
      rewrite !not_elem_of_app. intros (?&?&?). split_and!; try done. intros Hxl.
      apply NoDup_app in Hc as (_ & _ & (_ & Hc & _)%NoDup_app). by apply (Hc x Hxl).
    + intros x Hx. rewrite !not_elem_of_app. tauto.
Qed.

(** They are replaced when none of them is in the document. *)
Lemma placed_detached A B c new :
  placed (A ++ [] ++ B) c → NoDup new → (∀ n, n ∈ new → (n ∉ c) ∧ (n ∉ A ++ B)) →
  placed (A ++ new ++ B) c ∧ (foreign (A ++ new ++ B) c) `sublist_of` (foreign (A ++ [] ++ B) c).
Proof.
  intros [Ht Hc Ho] Hnew Hd. split; [split|].
  - eapply NoDup_replace; [done..|]. intros n Hn. by apply Hd.
  - done.
  - rewrite !filter_app in *. rewrite (filter_none _ new); [done|]. intros x Hx. by apply Hd.
  - apply foreign_weaken. intros n Hn. rewrite !elem_of_app. intros [?|[[]%not_elem_of_nil|?]]; auto.
Qed.
End nodes.
