(* ===== verification/KoForeachItems.v ===== *)
(** * The items of [KoForeach] and the invariant of the element

    Between two calls the element has the items [ids] of the last one; the
    invariant [wf] says how their nodes stand among its children.  Evaluating the
    computed of an item, writing its index and bringing its nodes up to date keep
    the invariant, touch no other item, and leave the other children in place. *)
From stdpp Require Import base list.
From Stdlib Require Import Lia.
From S2P Require Import Prelude KoForeach KoForeachNodes.

Section items.
Context {V node : Type} `{EqDecision V, EqDecision node}.
Context (mapping : V → nat → list node → nat → list node).
Context (depends reads_index : V → bool).

(** The call of [mapping] that made a node, if one did: every call makes new
    nodes, each of them once. *)
Context (born : node → option nat).
Hypothesis mapping_fresh : ∀ v i old k,
  NoDup (mapping v i old k) ∧ ∀ n, n ∈ mapping v i old k → born n = Some k.

Abbreviation state := (state (V := V) (node := node)).
Abbreviation item := (item (V := V) (node := node)).
Implicit Types (s : state) (it : item) (x y : nat) (ids : list nat) (n : node).

Definition nodes_at s x : list node :=
  match items s !! x with Some it => nodes_of it | None => [] end.
Definition tracked s ids : list node := ids ≫= nodes_at s.
Definition strangers s ids : list node := foreign (tracked s ids) (children s).

Record wf ids s : Prop := Wf {
  wf_ids : NoDup ids;
  wf_items : ∀ x, x ∈ ids →
    ∃ it, items s !! x = Some it ∧ is_Some (mappedNodes it) ∧ (deleted it = true → active it = false);
  wf_placed : placed (tracked s ids) (children s);
  wf_born : ∀ n k, n ∈ children s ∨ n ∈ tracked s ids → born n = Some k → k < mapped s
}.

(** What an operation on the item [x] leaves. *)
Definition kept it it' : Prop :=
  i_value it' = i_value it ∧ deleted it' = deleted it ∧ index it' = index it ∧
  initialized it' = initialized it ∧ (active it' = true → active it = true).

Record evolves ids x s s' : Prop := Evolves {
  ev_wf : wf ids s';
  ev_others : ∀ y, y ≠ x → items s' !! y = items s !! y;
  ev_length : length (items s') = length (items s);
  ev_item : ∀ it, items s !! x = Some it → ∃ it', items s' !! x = Some it' ∧ kept it it';
  ev_strangers : strangers s' ids `sublist_of` strangers s ids;
  ev_result : mapping_result s' = mapping_result s;
  ev_mapped : mapped s ≤ mapped s'
}.

#[local] Instance kept_pre : PreOrder kept.
Proof.
  unfold kept. split; [by intros it|].
  intros a b c (?&?&?&?&?) (?&?&?&?&?). split_and!; try congruence. auto.
Qed.

Lemma evolves_refl ids x s : wf ids s → evolves ids x s s.
Proof. intros. split; try done. intros it Hit. by exists it. Qed.

Lemma evolves_trans ids x s1 s2 s3 : evolves ids x s1 s2 → evolves ids x s2 s3 → evolves ids x s1 s3.
Proof.
  intros [? Ho1 Hl1 Hi1 Hs1 Hr1 Hm1] [? Ho2 Hl2 Hi2 Hs2 Hr2 Hm2].
  split; [done| |congruence| |by etrans|congruence|lia].
  - intros y Hy. by rewrite Ho2, Ho1.
  - intros it (it1 & H1 & ?)%Hi1. apply Hi2 in H1 as (it2 & H2 & ?).
    exists it2. split; [done|]. by etrans.
Qed.

(** ** The nodes of one item among those of all *)

Lemma tracked_ext ids s s' :
  (∀ x, x ∈ ids → nodes_at s' x = nodes_at s x) → tracked s' ids = tracked s ids.
Proof.
  unfold tracked. induction ids as [|x ids IH]; intros H; simpl; [done|].
  rewrite (H x (list_elem_of_here _ _)). f_equal. apply IH. intros. apply H. by right.
Qed.

Lemma tracked_app s ids ids' : tracked s (ids ++ ids') = tracked s ids ++ tracked s ids'.
Proof. apply bind_app. Qed.

Lemma elem_of_tracked s ids n : n ∈ tracked s ids ↔ ∃ x, n ∈ nodes_at s x ∧ x ∈ ids.
Proof. apply list_elem_of_bind. Qed.

Lemma tracked_split ids x s :
  NoDup ids → x ∈ ids →
  ∃ A B, ∀ s', (∀ y, y ≠ x → nodes_at s' y = nodes_at s y) →
    tracked s' ids = A ++ nodes_at s' x ++ B.
Proof.
  intros Hnd (a & b & ->)%list_elem_of_split. exists (tracked s a), (tracked s b). intros s' H.
  apply NoDup_app in Hnd as (_ & Hd & [Hb _]%NoDup_cons).
  rewrite tracked_app. f_equal; [|unfold tracked; simpl; f_equal].
  - apply tracked_ext. intros y Hy. apply H. intros ->. apply (Hd x Hy). left.
  - apply tracked_ext. intros y Hy. apply H. by intros ->.
Qed.

Lemma nodes_at_eq s s' x : items s' !! x = items s !! x → nodes_at s' x = nodes_at s x.
Proof. unfold nodes_at. by intros ->. Qed.

Lemma upd_item_others x y f s : y ≠ x → items (upd_item x f s) !! y = items s !! y.
Proof. intros. by apply list_lookup_alter_ne. Qed.
Lemma upd_item_here x f s it : items s !! x = Some it → items (upd_item x f s) !! x = Some (f it).
Proof. intros H. cbn. by rewrite list_lookup_alter_eq, H. Qed.
Lemma upd_item_length x f s : length (items (upd_item x f s)) = length (items s).
Proof. apply length_alter. Qed.

(** An update that leaves the nodes of the item alone. *)
Lemma upd_item_nodes x f s y :
  (∀ it, nodes_of (f it) = nodes_of it) → nodes_at (upd_item x f s) y = nodes_at s y.
Proof.
  intros Hf. unfold nodes_at. destruct (decide (y = x)) as [->|]; [|by rewrite upd_item_others].
  destruct (items s !! x) as [it|] eqn:Hit; [by rewrite (upd_item_here _ _ _ _ Hit)|].
  cbn. by rewrite list_lookup_alter_eq, Hit.
Qed.

Lemma upd_item_wf ids x f s :
  (∀ it, mappedNodes (f it) = mappedNodes it) →
  (∀ it, (deleted it = true → active it = false) → deleted (f it) = true → active (f it) = false) →
  wf ids s → wf ids (upd_item x f s).
Proof.
  intros Hn Hd [Hids Hit Hp Hb].
  assert (tracked (upd_item x f s) ids = tracked s ids) as Ht.
  { apply tracked_ext. intros y _. apply upd_item_nodes. intros it. unfold nodes_of. by rewrite Hn. }
  split; rewrite ?Ht; try done. intros y (it & Hy & ? & ?)%Hit.
  destruct (decide (y = x)) as [->|]; [|rewrite upd_item_others by done; by exists it].
  exists (f it). rewrite (upd_item_here _ _ _ _ Hy), Hn. split_and!; auto.
Qed.

Lemma upd_item_strangers ids x f s :
  (∀ it, mappedNodes (f it) = mappedNodes it) → strangers (upd_item x f s) ids = strangers s ids.
Proof.
  intros Hn. unfold strangers. f_equal. apply tracked_ext. intros y _. apply upd_item_nodes.
  intros it. unfold nodes_of. by rewrite Hn.
Qed.

Lemma upd_item_evolves ids x f s :
  (∀ it, mappedNodes (f it) = mappedNodes it) → (∀ it, kept it (f it)) →
  wf ids s → evolves ids x s (upd_item x f s).
Proof.
  intros Hn Hk Hwf. split; try done.
  - apply upd_item_wf; [done| |done]. intros it H. destruct (Hk it) as (_ & -> & _ & _ & Ha).
    intros ?%H. apply not_true_is_false. intros ?%Ha. congruence.
  - intros y Hy. by apply upd_item_others.
  - apply upd_item_length.
  - intros it Hit. exists (f it). split; [by apply upd_item_here|done].
  - by rewrite upd_item_strangers.
Qed.

(** ** One item gets other nodes *)

(** Giving the item [x], which stands between [A] and [B], the nodes [l], the
    children becoming [c]. *)
Lemma wf_nodes ids x s s' it it' A B l :
  wf ids s → x ∈ ids → items s !! x = Some it → kept it it' →
  (∀ s', (∀ y, y ≠ x → nodes_at s' y = nodes_at s y) → tracked s' ids = A ++ nodes_at s' x ++ B) →
  items s' = <[x := it']> (items s) → mappedNodes it' = Some l →
  placed (A ++ l ++ B) (children s') →
  foreign (A ++ l ++ B) (children s') `sublist_of` foreign (A ++ nodes_at s x ++ B) (children s) →
  mapping_result s' = mapping_result s → mapped s ≤ mapped s' →
  (∀ n k, n ∈ children s' ∨ n ∈ l → born n = Some k → k < mapped s') →
  evolves ids x s s'.
Proof.
  intros [Hids Hit Hp Hb] Hx Hsx Hk HAB Heq Hl Hp' Hf Hr Hm Hborn.
  assert (items s' !! x = Some it') as Hx' by (rewrite Heq; apply list_lookup_insert_eq; by eapply lookup_lt_Some).
  assert (∀ y, y ≠ x → items s' !! y = items s !! y) as Ho.
  { intros y Hy. rewrite Heq. by apply list_lookup_insert_ne. }
  assert (nodes_at s' x = l) as Hn by (unfold nodes_at, nodes_of; by rewrite Hx', Hl).
  assert (tracked s' ids = A ++ l ++ B) as Ht.
  { rewrite <-Hn. apply HAB. intros y Hy. by apply nodes_at_eq, Ho. }
  pose proof (HAB s (λ _ _, eq_refl)) as Hts.
  split; rewrite ?Ht; try done.
  - split; rewrite ?Ht; try done.
    + intros y Hy. destruct (decide (y = x)) as [->|Hne]; [|rewrite Ho by done; by apply Hit].
      destruct (Hit x Hx) as (it0 & Hit0 & _ & Hd). rewrite Hsx in Hit0. simplify_eq.
      destruct Hk as (_ & Hkd & _ & _ & Hka). exists it'. split_and!; [done|by rewrite Hl|].
      rewrite Hkd. intros ?%Hd. apply not_true_is_false. intros ?%Hka. congruence.
    + intros n k [Hnc|Hnt]; [by apply Hborn; left|]. intros Hbk.
      rewrite !elem_of_app in Hnt. destruct Hnt as [Hnt|[Hnt|Hnt]]; [|by eapply Hborn; eauto|].
      all: apply Nat.lt_le_trans with (mapped s); [|done]; eapply Hb; [right|done].
      all: rewrite Hts, !elem_of_app; auto.
  - rewrite Heq. apply length_insert.
  - intros it0 Hit0. rewrite Hsx in Hit0. simplify_eq. by exists it'.
  - unfold strangers. by rewrite Ht, Hts.
Qed.

Lemma upd_item_insert x f s it : items s !! x = Some it → items (upd_item x f s) = <[x := f it]> (items s).
Proof.
  intros H. cbn. apply list_eq. intros y. destruct (decide (y = x)) as [->|].
  - rewrite list_lookup_alter_eq, H, list_lookup_insert_eq; [done|by eapply lookup_lt_Some].
  - by rewrite list_lookup_alter_ne, list_lookup_insert_ne.
Qed.

(** [fixUpContinuousNodeArray] of an item. *)
Lemma fix_up_evolves ids x s :
  wf ids s → x ∈ ids →
  ∃ s' l, fix_up x s = Some s' ∧ evolves ids x s s' ∧ children s' = children s ∧ mapped s' = mapped s ∧
    fixUpContinuousNodeArray (nodes_at s x) (children s) = Some l ∧ nodes_at s' x = l.
Proof.
  intros Hwf Hx. pose proof Hwf as [Hids Hit Hp Hb].
  destruct (Hit x Hx) as (it & Hsx & _).
  destruct (tracked_split ids x s Hids Hx) as (A & B & HAB).
  rewrite (HAB s (λ _ _, eq_refl)) in Hp.
  destruct (placed_fixUp _ _ _ _ Hp) as (l & c1 & c2 & Hfix & Hc & _ & Hp' & Hf).
  assert (nodes_of it = nodes_at s x) as Hn by (unfold nodes_at; by rewrite Hsx).
  exists (upd_item x (set_nodes l) s), l. unfold fix_up. rewrite Hsx. cbn [mbind option_bind].
  rewrite Hn, Hfix. cbn [mbind option_bind].
  split_and!; try done.
  - eapply (wf_nodes _ _ _ _ it); [done..| |exact HAB|by apply upd_item_insert|done|exact Hp'|done|done|done|].
    + by destruct it.
    + intros n k [Hn'|Hn'] Hk; eapply Hb; try done; [by left|].
      left. rewrite Hc, !elem_of_app. auto.
  - unfold nodes_at. by rewrite (upd_item_here _ _ _ _ Hsx).
Qed.

Lemma mapping_fresh_nodes v i old s ids n :
  wf ids s → n ∈ mapping v i old (mapped s) → (n ∉ children s) ∧ (n ∉ tracked s ids).
Proof.
  intros Hwf Hn. destruct (mapping_fresh v i old (mapped s)) as [_ Hb]. apply Hb in Hn.
  split; intros H; [assert (mapped s < mapped s)|assert (mapped s < mapped s)]; try lia;
    eapply (wf_born _ _ Hwf n); eauto.
Qed.

(** The computed of an item is evaluated again. *)
Lemma refresh_evolves ids x s :
  wf ids s → x ∈ ids → ∃ s', refresh mapping x s = Some s' ∧ evolves ids x s s'.
Proof.
  intros Hwf Hx. pose proof Hwf as [Hids Hit Hp Hb].
  destruct (Hit x Hx) as (it & Hsx & _). unfold refresh. rewrite Hsx. cbn [mbind option_bind].
  destruct (active it); [|exists s; split; [done|by apply evolves_refl]].
  set (attached := existsb _ _).
  destruct (negb attached && negb (suppressed it)).
  { exists (upd_item x (set_active false) s). split; [done|]. apply upd_item_evolves; try done. }
  destruct (tracked_split ids x s Hids Hx) as (A & B & HAB).
  pose proof (HAB s (λ _ _, eq_refl)) as Hts. rewrite Hts in Hp.
  destruct (placed_fixUp _ _ _ _ Hp) as (l & c1 & c2 & Hfix & Hc & _ & Hp' & Hf).
  assert (nodes_of it = nodes_at s x) as Hn by (unfold nodes_at; by rewrite Hsx).
  rewrite Hn, Hfix. cbn [mbind option_bind call_mapping].
  set (new := mapping (i_value it) (index it) l (mapped s)).
  destruct (mapping_fresh (i_value it) (index it) l (mapped s)) as [Hnd Hborn].
  assert (∀ n, n ∈ new → (n ∉ children s) ∧ (n ∉ A ++ l ++ B)) as Hfresh.
  { intros n Hn'. destruct (mapping_fresh_nodes _ _ _ _ _ _ Hwf Hn') as [H1 H2]. split; [done|].
    rewrite Hts, !elem_of_app in H2. rewrite !elem_of_app. intros [?|[?|?]]; try tauto.
    apply H1. rewrite Hc, !elem_of_app. auto. }
  set (s2 := match l with [] => _ | _ => _ end).
  eexists. split; [reflexivity|].
  assert (placed (A ++ new ++ B) (children s2) ∧
          foreign (A ++ new ++ B) (children s2) `sublist_of` foreign (A ++ l ++ B) (children s)) as [Hp2 Hf2].
  { destruct l as [|a l].
    - apply placed_detached; [done..|]. intros n Hn'. by apply Hfresh.
    - subst s2. cbn [children log set_children]. rewrite Hc in *.
      rewrite replaceDomNodes_app; [|apply Hp'|done|intros n Hn'; by apply Hfresh|done].
      by apply placed_replace. }
  assert (items s2 = items s ∧ mapping_result s2 = mapping_result s ∧ mapped s2 = S (mapped s) ∧
          ∀ n, n ∈ children s2 → n ∈ children s ∨ n ∈ new) as (Hi2 & Hr2 & Hm2 & Hc2).
  { destruct l as [|a l]; [split_and!; try done; by left|]. split_and!; [done..|].
    intros n. subst s2. cbn [children log set_children]. rewrite Hc in *.
    rewrite replaceDomNodes_app; [|apply Hp'|done|intros m Hm; by apply Hfresh|done].
    rewrite !elem_of_app. tauto. }
  apply (wf_nodes ids x s _ it (set_suppressed (suppressed it && negb attached) (set_nodes new it)) A B new);
    [done..| |exact HAB| |done|exact Hp2|by etrans|exact Hr2|cbn [mapped upd_item]; lia|].
  - by destruct it.
  - rewrite (upd_item_insert _ _ _ it) by congruence. f_equal. exact Hi2.
  - intros n k Hn' Hk. cbn [mapped upd_item]. rewrite Hm2.
    assert (n ∈ children s ∨ n ∈ new) as [H|H%Hborn] by (destruct Hn' as [?%Hc2|?]; auto).
    + apply Nat.lt_lt_succ_r. eapply Hb; [by left|done].
    + simplify_eq. lia.
Qed.

(** [indexObservable(i)] *)
Lemma write_index_evolves ids x i s :
  wf ids s → x ∈ ids →
  ∃ s', write_index mapping reads_index x i s = Some s' ∧ evolves ids x (upd_item x (set_index i) s) s' ∧
    ((∀ v, reads_index v = false) → s' = upd_item x (set_index i) s).
Proof.
  intros Hwf Hx. destruct (wf_items _ _ Hwf x Hx) as (it & Hsx & _).
  assert (wf ids (upd_item x (set_index i) s)) as Hwf' by (apply upd_item_wf; done).
  unfold write_index. rewrite Hsx. cbn [mbind option_bind].
  destruct (negb (index it =? i) && reads_index (i_value it)) eqn:Hc.
  - destruct (refresh_evolves ids x _ Hwf' Hx) as (s' & Hs' & He). exists s'. split_and!; [done..|].
    intros Hr. rewrite Hr, andb_false_r in Hc. done.
  - eexists. split_and!; [done|by apply evolves_refl|done].
Qed.

(** ** A page that leaves the nodes alone *)

(** The children are the items' nodes and then [r]. *)
Definition tidy ids (r : list node) s : Prop := children s = tracked s ids ++ r.

(** The nodes of the item are what [mapping] made of its value, at its index if
    [mapping] reads that. *)
Definition made it : Prop :=
  ∃ i old k, mappedNodes it = Some (mapping (i_value it) i old k) ∧
             (reads_index (i_value it) = true → i = index it).
Definition awake it : Prop := reads_index (i_value it) = true → deleted it = false → active it = true.

Lemma fixUp_whole (A h B : list node) :
  NoDup (A ++ h ++ B) → fixUpContinuousNodeArray h (A ++ h ++ B) = Some h.
Proof.
  intros Hnd. eapply (fixUp_run h); [done| |by split].
  symmetry. apply attached_all. intros n Hn. rewrite !elem_of_app. auto.
Qed.

(** The place of an item's nodes. *)
Lemma tidy_split ids r x s :
  wf ids s → tidy ids r s → x ∈ ids →
  ∃ A B, children s = A ++ nodes_at s x ++ B ++ r ∧ NoDup (A ++ nodes_at s x ++ B ++ r) ∧
    ∀ s', (∀ y, y ≠ x → nodes_at s' y = nodes_at s y) →
      children s' = A ++ nodes_at s' x ++ B ++ r → tidy ids r s'.
Proof.
  intros Hwf Ht Hx. destruct (tracked_split ids x s (wf_ids _ _ Hwf) Hx) as (A & B & HAB).
  exists A, B. assert (children s = A ++ nodes_at s x ++ B ++ r) as Hc.
  { rewrite Ht, (HAB s) by done. by rewrite <-!app_assoc. }
  split_and!; [done|by rewrite <-Hc; apply (wf_placed _ _ Hwf)|].
  intros s' Ho Hc'. unfold tidy. rewrite Hc', (HAB s') by done. by rewrite <-!app_assoc.
Qed.

Lemma fix_up_tidy ids r x s s' it :
  wf ids s → tidy ids r s → x ∈ ids → items s !! x = Some it → fix_up x s = Some s' →
  tidy ids r s' ∧ items s' !! x = Some (set_nodes (nodes_of it) it).
Proof.
  intros Hwf Ht Hx Hit Hf. destruct (tidy_split _ _ _ _ Hwf Ht Hx) as (A & B & Hc & Hnd & Hs').
  assert (nodes_at s x = nodes_of it) as Hn by (unfold nodes_at; by rewrite Hit).
  unfold fix_up in Hf. rewrite Hit in Hf. cbn [mbind option_bind] in Hf.
  rewrite Hc, <-Hn, fixUp_whole in Hf by done. cbn [mbind option_bind] in Hf. simplify_eq.
  split; [|rewrite <-Hn; by apply upd_item_here]. apply Hs'.
  - intros y Hy. by apply nodes_at_eq, upd_item_others.
  - assert (nodes_at (upd_item x (set_nodes (nodes_at s x)) s) x = nodes_at s x) as ->; [|exact Hc].
    rewrite Hn. unfold nodes_at. by rewrite (upd_item_here _ _ _ _ Hit).
Qed.

Lemma refresh_tidy ids r x s s' it :
  wf ids s → tidy ids r s → x ∈ ids → items s !! x = Some it → nodes_of it ≠ [] →
  refresh mapping x s = Some s' →
  tidy ids r s' ∧
  (s' = s ∧ active it = false ∨
   ∃ it' old k, items s' !! x = Some it' ∧ mappedNodes it' = Some (mapping (i_value it) (index it) old k) ∧
     i_value it' = i_value it ∧ index it' = index it ∧ deleted it' = deleted it ∧ active it' = active it).
Proof.
  intros Hwf Ht Hx Hit Hne Hr. destruct (tidy_split _ _ _ _ Hwf Ht Hx) as (A & B & Hc & Hnd & Hs').
  assert (nodes_at s x = nodes_of it) as Hn by (unfold nodes_at; by rewrite Hit).
  unfold refresh in Hr. rewrite Hit in Hr. cbn [mbind option_bind] in Hr.
  destruct (active it) eqn:Ha; [|simplify_eq; by auto].
  assert (existsb (λ n, bool_decide (n ∈ children s)) (nodes_of it) = true) as Hat.
  { apply existsb_exists. destruct (nodes_of it) as [|n l]; [done|]. exists n. split; [by left|].
    apply bool_decide_true. rewrite Hc, Hn. rewrite !elem_of_app. right. left. left. }
  rewrite Hat in Hr. cbn [negb andb] in Hr. rewrite Hc, <-Hn, fixUp_whole in Hr by done.
  cbn [mbind option_bind call_mapping] in Hr.
  destruct (nodes_at s x) as [|n l] eqn:Hnx; [congruence|]. rewrite <-Hnx in *.
  set (new := mapping (i_value it) (index it) (nodes_at s x) (mapped s)) in *.
  destruct (mapping_fresh (i_value it) (index it) (nodes_at s x) (mapped s)) as [Hndn _]. fold new in Hndn.
  assert (∀ m, m ∈ new → m ∉ children s) as Hfresh by (intros m Hm; by eapply mapping_fresh_nodes in Hm as [? _]).
  injection Hr as Hr.
  assert (∃ it', items s' !! x = Some it' ∧ mappedNodes it' = Some new ∧
    i_value it' = i_value it ∧ index it' = index it ∧ deleted it' = deleted it ∧ active it' = active it)
    as (it' & Hit' & Hn' & Hkeep).
  { eexists. subst s'. split; [apply upd_item_here; exact Hit|]. done. }
  split; [|right; exists it', (nodes_at s x), (mapped s); by rewrite <-Ha].
  assert (nodes_at s' x = new) as Hnew by (unfold nodes_at, nodes_of; by rewrite Hit', Hn').
  apply Hs'.
  - intros y Hy. subst s'. unfold nodes_at. by rewrite upd_item_others.
  - rewrite Hnew. subst s'. cbn [children upd_item log set_children]. rewrite Hc. apply replaceDomNodes_app; try done.
    + intros m Hm. rewrite <-Hc. by apply Hfresh.
    + by rewrite Hnx.
Qed.

Lemma write_index_tidy ids r x i s s' it :
  wf ids s → tidy ids r s → x ∈ ids → items s !! x = Some it → nodes_of it ≠ [] →
  write_index mapping reads_index x i s = Some s' →
  tidy ids r s' ∧
  (deleted it = false → made it → awake it → ∃ it', items s' !! x = Some it' ∧ made it' ∧ awake it').
Proof.
  intros Hwf Ht Hx Hit Hne Hw. unfold write_index in Hw. rewrite Hit in Hw. cbn [mbind option_bind] in Hw.
  set (s1 := upd_item x (set_index i) s) in *.
  assert (wf ids s1) as Hwf1 by (apply upd_item_wf; done).
  assert (tidy ids r s1) as Ht1.
  { unfold tidy. rewrite (tracked_ext ids s); [exact Ht|]. intros y _. by apply upd_item_nodes. }
  assert (items s1 !! x = Some (set_index i it)) as Hit1 by by apply upd_item_here.
  destruct (negb (index it =? i) && reads_index (i_value it)) eqn:Hb.
  - destruct (refresh_tidy ids r x s1 s' _ Hwf1 Ht1 Hx Hit1 Hne Hw) as [Ht' Hcase]. split; [done|].
    apply andb_true_iff in Hb as [_ Hri]. intros Hd Hm Haw. specialize (Haw Hri Hd).
    destruct Hcase as [[_ ?]|(it' & old & k & Hit' & Hn' & Hv & Hi & Hdel & Hac)]; [cbn in *; congruence|].
    cbn in *. exists it'. split; [done|]. split.
    + exists i, old, k. rewrite Hv, Hi. done.
    + intros _ _. congruence.
  - simplify_eq. split; [done|]. intros Hd (j & old & k & Hn' & Hj) Haw. exists (set_index i it).
    split; [done|]. split; [|done]. exists j, old, k. split; [done|]. cbn. intros Hri. rewrite (Hj Hri).
    rewrite Hri, andb_true_r in Hb. apply negb_false_iff, Nat.eqb_eq in Hb. done.
Qed.
End items.
