(* ===== verification/KoForeachPlace.v ===== *)
(** * The last loop of [KoForeach]: the items' nodes are put in place

    The loop over itemsToProcess makes the nodes of new items and moves every
    node to its place: what it has passed stands first, the rest of the children
    keeps its order behind it. *)
From stdpp Require Import base list.
From Stdlib Require Import Lia.
From S2P Require Import Prelude KoForeach KoForeachNodes KoForeachItems.

Section place.
Context {V node : Type} `{EqDecision V, EqDecision node}.
Context (mapping : V → nat → list node → nat → list node).
Context (depends reads_index : V → bool).
Context (born : node → option nat).
Hypothesis mapping_fresh : ∀ v i old k,
  NoDup (mapping v i old k) ∧ ∀ n, n ∈ mapping v i old k → born n = Some k.

Abbreviation state := (state (V := V) (node := node)).
Abbreviation item := (item (V := V) (node := node)).
Implicit Types (s : state) (it : item) (x y : nat) (ids l : list nat) (n : node) (T R c : list node).

(** What the loop does to an item. *)
Definition rendered it it' : Prop :=
  i_value it' = i_value it ∧ deleted it' = deleted it ∧ index it' = index it ∧
  match mappedNodes it with
  | Some h => mappedNodes it' = Some h ∧ active it' = active it
  | None => ∃ k, mappedNodes it' = Some (mapping (i_value it) (index it) [] k) ∧
                 active it' = depends (i_value it) || reads_index (i_value it)
  end.

Definition unmapped s x : bool :=
  match items s !! x with
  | Some it => match mappedNodes it with None => true | Some _ => false end
  | None => false
  end.
Definition unmapped_in s ids : nat := length (List.filter (unmapped s) ids).

(** All nodes known so far were made by an earlier call. *)
Definition known_before s c : Prop := ∀ n k, n ∈ c → born n = Some k → k < mapped s.

Lemma make_nodes x s it0 :
  items s !! x = Some it0 →
  ∃ s1 it,
    match mappedNodes it0 with
    | None => mapNodeAndRefreshWhenChanged mapping depends reads_index x s
    | Some _ => Some s
    end = Some s1 ∧
    items s1 = <[x := it]> (items s) ∧ children s1 = children s ∧ mapping_result s1 = mapping_result s ∧
    rendered it0 it ∧ mapped s1 = mapped s + (if unmapped s x then 1 else 0) ∧
    (NoDup (nodes_at s x) → NoDup (nodes_of it)) ∧
    (∀ n, n ∈ nodes_of it → n ∈ nodes_at s x ∨ born n = Some (mapped s) ∧ mapped s < mapped s1).
Proof.
  intros Hx. unfold unmapped, rendered, nodes_at. rewrite Hx. destruct (mappedNodes it0) as [h|] eqn:Hn.
  - exists s, it0. rewrite list_insert_id by done. rewrite Hn. split_and!; auto; lia.
  - unfold mapNodeAndRefreshWhenChanged. rewrite Hx. cbn [mbind option_bind call_mapping].
    destruct (mapping_fresh (i_value it0) (index it0) [] (mapped s)) as [Hnd Hborn].
    eexists _, _. split; [done|]. split; [by rewrite (upd_item_insert _ _ _ it0)|].
    cbn [children mapping_result mapped upd_item]. split_and!; try done; [by eexists|lia|].
    intros n Hn'. right. split; [by apply Hborn|lia].
Qed.

(** What the loop starts from: [T] is in place, [R] and the nodes of the items [l]
    are not. *)
Record ready T R l s : Prop := Ready {
  rd_children : children s = T ++ R;
  rd_nodup : NoDup (T ++ R);
  rd_list : NoDup l;
  rd_items : ∀ x, x ∈ l → is_Some (items s !! x);
  rd_tracked : NoDup (tracked s l);
  rd_apart : ∀ n, n ∈ tracked s l → n ∉ T;
  rd_known : known_before s (T ++ R ++ tracked s l)
}.

(** The store after one round, in which [x] gets the nodes of [it]. *)
Lemma round_store x it ns c s s1 :
  items s1 = <[x := it]> (items s) → is_Some (items s !! x) →
  let s2 := set_children c s1 in
  let s3 := if initialized it then s2 else upd_item x set_initialized (log (Adding (arrayEntry it) ns (index it)) s2) in
  (∃ it3, items s3 !! x = Some it3 ∧ i_value it3 = i_value it ∧ deleted it3 = deleted it ∧ index it3 = index it ∧
     mappedNodes it3 = mappedNodes it ∧ active it3 = active it) ∧
  (∀ y, y ≠ x → items s3 !! y = items s !! y) ∧ children s3 = c ∧ mapping_result s3 = mapping_result s1 ∧
  mapped s3 = mapped s1 ∧ length (items s3) = length (items s).
Proof.
  intros Hi [it0 Hx] s2 s3.
  assert (items s2 !! x = Some it) as Hx1 by (cbn; rewrite Hi; apply list_lookup_insert_eq; by eapply lookup_lt_Some).
  assert (∀ y, y ≠ x → items s2 !! y = items s !! y) as Ho by (intros y Hy; cbn; by rewrite Hi, list_lookup_insert_ne).
  assert (length (items s2) = length (items s)) as Hl by (cbn; rewrite Hi; apply length_insert).
  subst s3. destruct (initialized it).
  - split_and!; try done. by exists it.
  - split_and!; try done.
    + exists (set_initialized it). split; [by apply upd_item_here|done].
    + intros y Hy. etrans; [by apply upd_item_others|by apply Ho].
    + cbn. by rewrite length_alter.
Qed.

Lemma place_item x l T R s :
  ready T R (x :: l) s →
  ∃ s3 h R1, place_items mapping depends reads_index (x :: l) (head R) (last T) s =
      place_items mapping depends reads_index l (head R1) (last (T ++ h)) s3 ∧
    ready (T ++ h) R1 l s3 ∧ R1 = filter (λ n, n ∉ h) R ∧ nodes_at s3 x = h ∧
    (∃ it0 it3, items s !! x = Some it0 ∧ items s3 !! x = Some it3 ∧ rendered it0 it3) ∧
    (∀ y, y ≠ x → items s3 !! y = items s !! y) ∧
    mapping_result s3 = mapping_result s ∧ mapped s3 = mapped s + (if unmapped s x then 1 else 0) ∧
    length (items s3) = length (items s) ∧
    (∀ n, n ∈ h → n ∈ nodes_at s x ∨ born n = Some (mapped s)) ∧ NoDup h ∧ ∀ n, n ∈ h → n ∉ T.
Proof.
  intros [Hc Hnd Hl Hits Htr Hd Hk]. apply NoDup_cons in Hl as [Hxl Hl].
  destruct (Hits x (list_elem_of_here _ _)) as [it0 Hx].
  change (tracked s (x :: l)) with (nodes_at s x ++ tracked s l) in *.
  apply NoDup_app in Htr as (Hndx & Hxd & Htr).
  destruct (make_nodes x s it0 Hx) as (s1 & it & Hmk & Hi1 & Hc1 & Hr1 & Hren & Hm1 & Hndit & Hsrc).
  specialize (Hndit Hndx).
  assert (items s1 !! x = Some it) as Hx1 by (rewrite Hi1; apply list_lookup_insert_eq; by eapply lookup_lt_Some).
  assert (∀ n, n ∈ nodes_of it → (n ∉ T) ∧ (n ∉ tracked s l)) as Hnew.
  { intros n [Hn|[Hn _]]%Hsrc.
    - split; [apply Hd, elem_of_app; by left|by apply Hxd].
    - split; intros Hin; apply (Nat.lt_irrefl (mapped s)), (Hk n); try done; rewrite !elem_of_app; auto. }
  destruct (place_nodes_app (nodes_of it) T R) as (R1 & HR1 & Hpl); [done..|by apply Hnew|].
  cbn [place_items]. rewrite Hx. cbn [mbind option_bind]. rewrite Hmk. cbn [mbind option_bind].
  rewrite Hx1. cbn [mbind option_bind]. rewrite Hc1, Hc, Hpl.
  destruct (round_store x it (nodes_of it) ((T ++ nodes_of it) ++ R1) s s1 Hi1) as
    ((it3 & Hx3 & ? & ? & ? & Hmn & Hac) & Ho3 & Hc3 & Hr3 & Hm3 & Hl3); [by eexists|].
  set (s3 := if initialized it then _ else _) in *. clearbody s3.
  assert (∀ y, y ∈ l → items s3 !! y = items s !! y) as Hl3' by (intros y Hy; apply Ho3; by intros ->).
  assert (tracked s3 l = tracked s l) as Ht3 by (apply tracked_ext; intros y Hy; by apply nodes_at_eq, Hl3').
  exists s3, (nodes_of it), R1. split; [done|]. split.
  - split; rewrite ?Ht3; try done.
    + rewrite HR1, <-app_assoc. apply NoDup_app in Hnd as (HT & HTR & HR).
      apply NoDup_app. split_and!; [done| |apply NoDup_app; split_and!; [done| |by apply NoDup_filter]].
      * intros n HnT [Hn|[_ Hn]%list_elem_of_filter]%elem_of_app; [by destruct (Hnew n Hn)|by apply (HTR n)].
      * intros n Hn [? _]%list_elem_of_filter. done.
    + intros y Hy. rewrite Hl3' by done. apply Hits. by right.
    + intros n Hn. rewrite not_elem_of_app. split; [apply Hd, elem_of_app; by right|].
      intros Hn'. by destruct (Hnew n Hn').
    + intros n k Hn Hb. rewrite Hm3. rewrite HR1, !elem_of_app, list_elem_of_filter in Hn.
      assert (n ∈ T ++ R ++ nodes_at s x ++ tracked s l ∨ born n = Some (mapped s) ∧ mapped s < mapped s1) as [H'|[H' ?]].
      { rewrite !elem_of_app. destruct Hn as [[?|[?|[? ?]]%Hsrc]|[[_ ?]|?]]; tauto. }
      * specialize (Hk n k H' Hb). lia.
      * by simplify_eq.
  - split_and!; try done; try congruence.
    + unfold nodes_at, nodes_of. by rewrite Hx3, Hmn.
    + exists it0, it3. split_and!; [done..|]. destruct Hren as (?&?&?&Hren). unfold rendered.
      rewrite Hmn, Hac. split_and!; congruence || done.
    + intros n [?|[? _]]%Hsrc; auto.
    + intros n Hn. by destruct (Hnew n Hn).
Qed.

Lemma unmapped_in_cons x l s s3 :
  (∀ y, y ∈ l → items s3 !! y = items s !! y) →
  unmapped_in s (x :: l) = (if unmapped s x then 1 else 0) + unmapped_in s3 l.
Proof.
  intros Hl. unfold unmapped_in. cbn [List.filter]. rewrite (filter_ext_in (unmapped s3) (unmapped s) l).
  - by destruct (unmapped s x).
  - intros y Hy%list_elem_of_In. unfold unmapped. by rewrite Hl.
Qed.

Lemma place_items_spec l : ∀ T R s,
  ready T R l s →
  ∃ s', place_items mapping depends reads_index l (head R) (last T) s = Some s' ∧
    children s' = T ++ tracked s' l ++ filter (λ n, n ∉ tracked s' l) R ∧
    NoDup (tracked s' l) ∧ (∀ n, n ∈ tracked s' l → n ∉ T) ∧
    known_before s' (T ++ R ++ tracked s' l) ∧
    length (items s') = length (items s) ∧ (∀ y, y ∉ l → items s' !! y = items s !! y) ∧
    (∀ x it, x ∈ l → items s !! x = Some it → ∃ it', items s' !! x = Some it' ∧ rendered it it') ∧
    mapping_result s' = mapping_result s ∧ mapped s' = mapped s + unmapped_in s l ∧
    (∀ n, n ∈ tracked s' l → n ∈ tracked s l ∨ ∃ k, born n = Some k ∧ mapped s ≤ k).
Proof.
  induction l as [|x l IH]; intros T R s Hrd.
  { exists s. cbn. rewrite filter_id by (intros n _; apply not_elem_of_nil). destruct Hrd.
    split_and!; try done; try lia; [intros x it Hx; by apply not_elem_of_nil in Hx|by left]. }
  destruct (place_item x l T R s Hrd) as (s3 & h & R1 & Heq & Hrd3 & HR1 & Hn3 & (it0 & it3 & Hx & Hx3 & Hren) & Ho3 & Hr3 & Hm3 & Hl3 & Hsrc & Hndh & HhT).
  pose proof (rd_list _ _ _ _ Hrd) as [Hxl Hl]%NoDup_cons. pose proof (rd_known _ _ _ _ Hrd) as Hk.
  assert (∀ y, y ∈ l → items s3 !! y = items s !! y) as Hl3' by (intros y Hy; apply Ho3; by intros ->).
  assert (tracked s3 l = tracked s l) as Ht3 by (apply tracked_ext; intros y Hy; by apply nodes_at_eq, Hl3').
  destruct (IH (T ++ h) R1 s3 Hrd3) as (s' & Hs' & Hc' & Hnd' & Hd' & Hk' & Hl' & Ho' & Hit' & Hr' & Hm' & Hsrc').
  assert (nodes_at s' x = h) as Hn' by (rewrite <-Hn3; by apply nodes_at_eq, Ho').
  pose proof (unmapped_in_cons x l s s3 Hl3') as Hun.
  exists s'. change (tracked s' (x :: l)) with (nodes_at s' x ++ tracked s' l).
  change (tracked s (x :: l)) with (nodes_at s x ++ tracked s l) in *. rewrite Hn'.
  split_and!; [congruence| | | | |congruence| | |congruence|lia|].
  - rewrite Hc', HR1, list_filter_filter, <-!app_assoc. do 3 f_equal.
    apply list_filter_iff. intros n. rewrite not_elem_of_app. tauto.
  - apply NoDup_app. split_and!; [done| |done]. intros n Hn Hn2. apply (Hd' n Hn2), elem_of_app. by right.
  - intros n [Hn|Hn]%elem_of_app HT; [by apply (HhT n)|]. apply (Hd' n Hn), elem_of_app. by left.
  - intros n k Hn Hb. rewrite !elem_of_app in Hn. destruct Hn as [Hn|[Hn|[Hn|Hn]]].
    2:{ assert (k < mapped s); [|lia]. eapply Hk; [|done]. rewrite !elem_of_app. auto. }
    all: eapply Hk'; [|done]; rewrite !elem_of_app; auto.
  - intros y [Hy1 Hy2]%not_elem_of_cons. by rewrite Ho', Ho3.
  - intros y ity [->|Hy]%elem_of_cons Hity.
    + exists it3. rewrite Ho' by done. by simplify_eq.
    + rewrite <-Hl3' in Hity by done. by apply Hit'.
  - intros n [Hn|Hn]%elem_of_app.
    + apply Hsrc in Hn as [?|?]; [left; apply elem_of_app; by left|right; by exists (mapped s)].
    + apply Hsrc' in Hn as [Hn|(k & ? & ?)]; [|right; exists k; split; [done|lia]].
      left. rewrite Ht3 in Hn. apply elem_of_app. by right.
Qed.
End place.
