(* ===== verification/KoForeachWalk.v ===== *)
(** * The loop of [KoForeach] over the edit script

    What holds when a prefix of the script has been processed: which items have
    been dealt with, which of them are in the new result, which are dropped, and
    that the new result shows the beginning of the new array. *)
From stdpp Require Import base list.
From Stdlib Require Import Lia.
From S2P Require Import Prelude KoCompare KoForeach KoForeachScript KoForeachNodes KoForeachItems.

Section walk.
Context {V node : Type} `{EqDecision V, EqDecision node}.
Context (mapping : V → nat → list node → nat → list node).
Context (depends reads_index : V → bool).
Context (born : node → option nat).
Hypothesis mapping_fresh : ∀ v i old k,
  NoDup (mapping v i old k) ∧ ∀ n, n ∈ mapping v i old k → born n = Some k.

Abbreviation state := (state (V := V) (node := node)).
Abbreviation item := (item (V := V) (node := node)).
Abbreviation wf := (wf born).
Abbreviation locals := (locals (node := node)).
Implicit Types (s : state) (it : item) (x y p : nat) (C res D W : list nat) (l : locals).

(** ** The call on one item of the last result *)

Definition no_reads : Prop := ∀ v, reads_index v = false.

Record touched ids x s s' : Prop := Touched {
  tc_wf : wf ids s';
  tc_others : ∀ y, y ≠ x → items s' !! y = items s !! y;
  tc_length : length (items s') = length (items s);
  tc_item : ∀ it, items s !! x = Some it →
    ∃ it', items s' !! x = Some it' ∧ i_value it' = i_value it ∧ deleted it' = deleted it ∧
           (active it' = true → active it = true);
  tc_strangers : strangers s' ids `sublist_of` strangers s ids;
  tc_result : mapping_result s' = mapping_result s;
  tc_mapped : mapped s ≤ mapped s';
  tc_calm : no_reads → children s' = children s ∧ mapped s' = mapped s ∧
    fixUpContinuousNodeArray (nodes_at s x) (children s) = Some (nodes_at s' x);
  tc_tidy : ∀ r, tidy ids r s → nodes_at s x ≠ [] → tidy ids r s'
}.

Abbreviation made := (made mapping reads_index).
Abbreviation awake := (awake (node := node) reads_index).

Lemma nodes_at_item s x it : items s !! x = Some it → nodes_at s x = nodes_of it.
Proof. intros H. unfold nodes_at. by rewrite H. Qed.

Lemma made_set_nodes it : made it → made (set_nodes (nodes_of it) it).
Proof. intros (i & old & k & Hn & Hi). exists i, old, k. split; [|done]. cbn. unfold nodes_of. by rewrite Hn. Qed.

Lemma itemMovedOrRetained_spec ids i p x l s :
  wf ids s → ids !! p = Some x →
  ∃ s' moves,
    itemMovedOrRetained mapping reads_index ids i p l s =
      Some (Locals (lastMappingResultIndex l) (S (newMappingResultIndex l)) (newMappingResult l ++ [x])
              (nodesToDelete l) (itemsToProcess l ++ [x]) (itemsForBeforeRemoveCallbacks l) moves
              (itemsForAfterAddCallbacks l), s') ∧
    touched ids x s s' ∧
    (∀ it', items s' !! x = Some it' → index it' = newMappingResultIndex l) ∧
    (∀ r it, tidy ids r s → items s !! x = Some it → nodes_of it ≠ [] → deleted it = false → made it → awake it →
       ∃ it', items s' !! x = Some it' ∧ made it' ∧ awake it').
Proof.
  intros Hwf Hp. assert (x ∈ ids) as Hx by (by eapply list_elem_of_lookup_2).
  destruct (wf_items _ _ _ Hwf x Hx) as (it & Hsx & _).
  set (k := newMappingResultIndex l).
  destruct (write_index_evolves _ reads_index _ mapping_fresh ids x k s Hwf Hx) as (s1 & Hw & [He1 Ho1 Hl1 Hi1 Hs1 Hr1 Hm1] & Hcalm).
  destruct (fix_up_evolves _ ids x s1 He1 Hx) as (s2 & ns & Hf & [He2 Ho2 Hl2 Hi2 Hs2 Hr2 Hm2] & Hc & Hmm & Hfix & Hn).
  assert (∀ r it, tidy ids r s → items s !! x = Some it → nodes_of it ≠ [] → tidy ids r s2 ∧
    (deleted it = false → made it → awake it → ∃ it', items s2 !! x = Some it' ∧ made it' ∧ awake it')) as Htidy.
  { intros r it0 Ht Hit0 Hne.
    destruct (write_index_tidy _ reads_index _ mapping_fresh ids r x k s s1 it0 Hwf Ht Hx Hit0 Hne Hw) as [Ht1 Hm].
    destruct (wf_items _ _ _ He1 x Hx) as (it1 & Hit1 & _).
    destruct (fix_up_tidy _ ids r x s1 s2 it1 He1 Ht1 Hx Hit1 Hf) as [Ht2 Hit2]. split; [done|].
    intros Hd Hma Haw. destruct (Hm Hd Hma Haw) as (it2 & E & ? & ?). rewrite Hit1 in E. simplify_eq.
    eexists. split; [done|]. by split; [apply made_set_nodes|]. }
  exists s2. eexists. split; [|split; [|split]].
  - unfold itemMovedOrRetained. fold k. rewrite Hp. cbn [mbind option_bind]. rewrite Hw. cbn [mbind option_bind].
    rewrite Hf. done.
  - split; try done.
    + intros y Hy. by rewrite Ho2, Ho1, upd_item_others.
    + by rewrite Hl2, Hl1, upd_item_length.
    + intros it0 Hit0. apply (upd_item_here _ (set_index k)) in Hit0.
      apply Hi1 in Hit0 as (it1 & E1 & ?&?&?&?&?). apply Hi2 in E1 as (it2 & E2 & ?&?&?&?&?).
      exists it2. split_and!; [done|by etrans|by etrans|auto].
    + etrans; [done|]. etrans; [done|]. by rewrite upd_item_strangers.
    + by rewrite Hr2, Hr1.
    + cbn in Hm1. lia.
    + intros Hnr. specialize (Hcalm Hnr). rewrite Hc, Hmm, Hn, <-Hfix, Hcalm. split_and!; [done..|]. f_equal.
      symmetry. by apply upd_item_nodes.
    + intros r Ht Hne. rewrite (nodes_at_item _ _ _ Hsx) in Hne. by destruct (Htidy r it Ht Hsx Hne).
  - intros it' Hit'. apply (upd_item_here _ (set_index k)) in Hsx.
    destruct (Hi1 _ Hsx) as (it1 & E1 & ?&?&Hk1&?). destruct (Hi2 _ E1) as (it2 & E2 & ?&?&Hk2&?).
    rewrite E2 in Hit'. simplify_eq. by rewrite Hk2, Hk1.
  - intros r it0 Ht Hit0 Hne Hd Hma Haw. destruct (Htidy r it0 Ht Hit0 Hne) as [_ H]. by apply H.
Qed.

(** An item of the last result is given up: its computed is disposed. *)
Lemma give_up_spec ids x s :
  wf ids s → x ∈ ids →
  ∃ s', fix_up x (upd_item x (set_active false) s) = Some s' ∧ touched ids x s s' ∧
    (∃ it', items s' !! x = Some it' ∧ active it' = false) ∧
    (∀ r it, tidy ids r s → items s !! x = Some it → made it → ∃ it', items s' !! x = Some it' ∧ made it').
Proof.
  intros Hwf Hx. destruct (wf_items _ _ _ Hwf x Hx) as (it & Hsx & _).
  assert (wf ids (upd_item x (set_active false) s)) as Hwf' by (apply upd_item_wf; done).
  destruct (fix_up_evolves _ ids x _ Hwf' Hx) as (s2 & ns & Hf & [He2 Ho2 Hl2 Hi2 Hs2 Hr2 Hm2] & Hc & Hmm & Hfix & Hn).
  assert (∀ r it, tidy ids r s → items s !! x = Some it → tidy ids r s2 ∧
    (made it → ∃ it', items s2 !! x = Some it' ∧ made it')) as Htidy.
  { intros r it0 Ht Hit0.
    destruct (fix_up_tidy _ ids r x _ s2 (set_active false it0) Hwf') as [Ht2 Hit2]; [|done|by apply upd_item_here|done|].
    { unfold tidy. rewrite (tracked_ext ids s); [exact Ht|]. intros y _. by apply upd_item_nodes. }
    split; [done|]. intros Hma. eexists. split; [done|].
    by apply (made_set_nodes (set_active false it0)). }
  exists s2. split; [done|]. apply (upd_item_here _ (set_active false)) in Hsx as Hsx'.
  apply Hi2 in Hsx' as (it2 & E2 & ?&?&?&?&Ha). split; [|split].
  - split; try done.
    + intros y Hy. by rewrite Ho2, upd_item_others.
    + by rewrite Hl2, upd_item_length.
    + intros it0 Hit0. rewrite Hsx in Hit0. simplify_eq. exists it2. split_and!; try done. intros ?%Ha. done.
    + by rewrite upd_item_strangers in Hs2.
    + intros Hnr. split_and!; [done..|]. rewrite Hn, <-Hfix. f_equal. symmetry. by apply upd_item_nodes.
    + intros r Ht _. by destruct (Htidy r it Ht Hsx).
  - exists it2. split; [done|]. apply not_true_is_false. intros ?%Ha. done.
  - intros r it0 Ht Hit0 Hma. destruct (Htidy r it0 Ht Hit0) as [_ H']. by apply H'.
Qed.

(** ** Where the loop stands *)

Section from_state.
Context (ids : list nat) (s0 : state).
Hypothesis wf0 : wf ids s0.
Abbreviation n0 := (length (items s0)).

Definition at_places C : list nat := omap (λ p, ids !! p) C.

Lemma at_places_app C C' : at_places (C ++ C') = at_places C ++ at_places C'.
Proof. apply omap_app. Qed.

Lemma elem_of_at_places x C : x ∈ at_places C ↔ ∃ p, p ∈ C ∧ ids !! p = Some x.
Proof. apply list_elem_of_omap. Qed.

Lemma old_item x : x ∈ ids → x < n0.
Proof. intros (it & Hit & _)%(wf_items _ _ _ wf0). by eapply lookup_lt_Some. Qed.

Lemma not_at_places C p x : ids !! p = Some x → p ∉ C → x ∉ at_places C.
Proof.
  intros Hp HpC (q & Hq & Hqx)%elem_of_at_places. assert (p = q) as ->; [|done].
  eapply NoDup_lookup; [exact (wf_ids _ _ _ wf0)|done..].
Qed.

(** The store, when the places [C] of the last result have been dealt with. *)
Record store_ok C s : Prop := Store {
  so_wf : wf ids s;
  so_length : n0 ≤ length (items s);
  so_strangers : strangers s ids `sublist_of` strangers s0 ids;
  so_result : mapping_result s = mapping_result s0;
  so_mapped : mapped s0 ≤ mapped s;
  so_untouched : ∀ p x, p ∉ C → ids !! p = Some x → items s !! x = items s0 !! x;
  so_old : ∀ x it, items s0 !! x = Some it →
    ∃ it', items s !! x = Some it' ∧ i_value it' = i_value it ∧ deleted it' = deleted it ∧
           (active it' = true → active it = true);
  so_new : ∀ y it, n0 ≤ y → items s !! y = Some it → mappedNodes it = None ∧ deleted it = false;
  so_calm : no_reads → children s = children s0 ∧ mapped s = mapped s0 ∧
    ∀ p x, p ∈ C → ids !! p = Some x →
      fixUpContinuousNodeArray (nodes_at s0 x) (children s0) = Some (nodes_at s x);
  so_tidy : ∀ r, tidy ids r s0 → (∀ x, x ∈ ids → nodes_at s0 x ≠ []) → tidy ids r s
}.

Lemma store_start : store_ok [] s0.
Proof.
  split; try done.
  - intros x it Hit. by exists it.
  - intros y it Hy Hit%lookup_lt_Some. lia.
  - intros _. split_and!; [done..|]. intros p x Hp. by apply not_elem_of_nil in Hp.
Qed.

Lemma store_touch C p x s s' :
  store_ok C s → ids !! p = Some x → p ∉ C → touched ids x s s' → store_ok (C ++ [p]) s'.
Proof.
  intros [Hwf Hlen Hstr Hres Hmap Hun Hold Hnew Hcalm Htd] Hp HpC [Hwf' Ho Hl Hi Hs Hr Hm Hc Htd'].
  assert (x ∈ ids) as Hx by (by eapply list_elem_of_lookup_2).
  assert (∀ q, q ∈ C ∨ q ∉ C ++ [p] → ∀ y, ids !! q = Some y → y ≠ x) as Hne.
  { intros q Hq y Hy ->. assert (p = q) as <- by (eapply NoDup_lookup; [exact (wf_ids _ _ _ wf0)|done..]).
    destruct Hq as [|[]]; [done|]. apply elem_of_app. right. left. }
  split; try done; [lia|by etrans|congruence|lia| | | | |].
  - intros q y Hq Hy. rewrite Ho by (eapply Hne; eauto). eapply Hun; [|done].
    intros ?. apply Hq, elem_of_app. by left.
  - intros y it (it1 & H1 & ?&?&?)%Hold. destruct (decide (y = x)) as [->|Hyx].
    + destruct (Hi _ H1) as (it2 & E2 & ?&?&?). exists it2. split_and!; [done|congruence..|auto].
    + exists it1. rewrite Ho by done. done.
  - intros y it Hy. rewrite Ho; [by apply Hnew|]. intros ->. apply old_item in Hx. lia.
  - intros Hnr. destruct (Hcalm Hnr) as (H1 & H2 & H3). destruct (Hc Hnr) as (H4 & H5 & H6).
    split_and!; [congruence..|]. intros q y Hq Hy. apply elem_of_app in Hq as [Hq|Hq].
    + rewrite (H3 q y Hq Hy). f_equal. symmetry. apply nodes_at_eq, Ho. eapply Hne; eauto.
    + apply list_elem_of_singleton in Hq as ->. rewrite Hp in Hy. simplify_eq.
      rewrite <-H6, H1. f_equal. symmetry. apply nodes_at_eq. by apply (Hun p).
  - intros r Ht Hsome. apply Htd'; [by apply Htd|]. rewrite (nodes_at_eq s0 s x) by (by apply (Hun p)).
    by apply Hsome.
Qed.

Lemma store_new C v k s : store_ok C s → store_ok C (new_item (Item v false k None false false false) s).
Proof.
  intros [Hwf Hlen Hstr Hres Hmap Hun Hold Hnew Hcalm Htd]. set (s' := new_item _ s).
  assert (∀ y, y < length (items s) → items s' !! y = items s !! y) as Ho.
  { intros y Hy. by apply lookup_app_l. }
  assert (∀ x, x ∈ ids → items s' !! x = items s !! x) as Ho'.
  { intros x Hx. apply Ho. apply old_item in Hx. lia. }
  assert (tracked s' ids = tracked s ids) as Ht' by (apply tracked_ext; intros x Hx; by apply nodes_at_eq, Ho').
  split; try done.
  - destruct Hwf as [Hids Hit Hp Hb]. split; rewrite ?Ht'; try done. intros x Hx. rewrite Ho' by done. by apply Hit.
  - cbn. rewrite length_app. simpl. lia.
  - unfold strangers. by rewrite Ht'.
  - intros p x Hp Hx. rewrite Ho' by (by eapply list_elem_of_lookup_2). by eapply Hun.
  - intros x it Hit. apply lookup_lt_Some in Hit as Hlt. rewrite Ho by lia. by apply Hold.
  - intros y it Hy Hit. destruct (decide (y < length (items s))) as [Hlt|Hge].
    + rewrite Ho in Hit by done. by apply (Hnew y).
    + cbn in Hit. rewrite lookup_app_r in Hit by lia. apply list_lookup_singleton_Some in Hit as [_ <-]. done.
  - intros Hnr. destruct (Hcalm Hnr) as (?&?&H). split_and!; [done..|]. intros p x Hp Hx.
    rewrite (H p x Hp Hx). f_equal. symmetry. apply nodes_at_eq, Ho'. by eapply list_elem_of_lookup_2.
  - intros r Ht Hne. unfold tidy. rewrite Ht'. by apply Htd.
Qed.

(** The new result [res] and the dropped items [D], when the places [C] have been
    dealt with; the items [W] of the result wait for the callback beforeRemove. *)
Record lists_ok C res D W s : Prop := Lists {
  lo_all : res ++ D ≡ₚ at_places C ++ seq n0 (length (items s) - n0);
  lo_dead : ∀ x, x ∈ D → ∃ it, items s !! x = Some it ∧ active it = false;
  lo_waiting : ∀ x, x ∈ W →
    x ∈ res ∧ ∃ it, items s !! x = Some it ∧ active it = false ∧ is_Some (mappedNodes it)
}.

(** The values and positions a result shows, those of the items [W] and of the
    deleted ones left out. *)
Definition shown_at W s x : option (V * nat) :=
  it ← items s !! x;
  if deleted it || bool_decide (x ∈ W) then None else Some (i_value it, index it).
Definition shown_but W s res : list (V * nat) := omap (shown_at W s) res.

Lemma lists_start : lists_ok [] [] [] [] s0.
Proof.
  split; [by rewrite Nat.sub_diag| |]; intros x Hx; by apply not_elem_of_nil in Hx.
Qed.

Lemma omap_ext_in {A B} (f g : A → option B) (k : list A) :
  (∀ a, a ∈ k → f a = g a) → omap f k = omap g k.
Proof.
  induction k as [|a k IH]; intros H; csimpl; [done|]. rewrite (H a (list_elem_of_here _ _)), IH; [done|].
  intros. apply H. by right.
Qed.

Lemma lists_new C res D W s x :
  store_ok C s → lists_ok C res D W s → x ∈ res ++ D → x ∈ at_places C ∨ n0 ≤ x < length (items s).
Proof.
  intros Hs [Hall _ _] Hx. rewrite Hall, elem_of_app, elem_of_seq in Hx.
  destruct Hs. destruct Hx; [by left|right; lia].
Qed.

(** The items dealt with are not touched again. *)
Lemma lists_keep C res D W s s' :
  (∀ y, y ∈ res ++ D → items s' !! y = items s !! y) → length (items s') = length (items s) →
  lists_ok C res D W s →
  lists_ok C res D W s' ∧ tracked s' D = tracked s D ∧ shown_but W s' res = shown_but W s res.
Proof.
  intros Hk Hl [Hall Hdead Hw]. split; [split|split].
  - by rewrite Hl.
  - intros x Hx. rewrite Hk by (apply elem_of_app; by right). by apply Hdead.
  - intros x Hx. destruct (Hw x Hx) as [Hr ?]. by rewrite Hk by (apply elem_of_app; by left).
  - apply tracked_ext. intros x Hx. apply nodes_at_eq, Hk, elem_of_app. by right.
  - apply omap_ext_in. intros x Hx. unfold shown_at. by rewrite Hk by (apply elem_of_app; by left).
Qed.

Lemma touch_others C p x res D W s s' y :
  store_ok C s → lists_ok C res D W s → ids !! p = Some x → p ∉ C → touched ids x s s' →
  y ∈ res ++ D → items s' !! y = items s !! y.
Proof.
  intros Hs Hlo Hp HpC Ht Hy. apply (tc_others _ _ _ _ Ht). intros ->.
  destruct (lists_new _ _ _ _ _ _ Hs Hlo Hy) as [H|H]; [by eapply not_at_places in H|].
  apply list_elem_of_lookup_2, old_item in Hp. lia.
Qed.

Lemma lists_touch C p x res D W s s' :
  store_ok C s → lists_ok C res D W s → ids !! p = Some x → p ∉ C → touched ids x s s' →
  lists_ok C res D W s' ∧ tracked s' D = tracked s D ∧ shown_but W s' res = shown_but W s res.
Proof.
  intros Hs Hlo Hp HpC Ht. apply lists_keep; [|apply (tc_length _ _ _ _ Ht)|done].
  intros y. by eapply touch_others.
Qed.

Lemma at_places_one p x : ids !! p = Some x → at_places [p] = [x].
Proof. intros H. unfold at_places. csimpl. by rewrite H. Qed.

Lemma lists_add_res C p x res D W s :
  ids !! p = Some x → lists_ok C res D W s → lists_ok (C ++ [p]) (res ++ [x]) D W s.
Proof.
  intros Hp [Hall Hdead Hw]. split; [|done|].
  - rewrite at_places_app, (at_places_one _ _ Hp).
    rewrite <-!app_assoc. cbn [app]. rewrite <-!Permutation_middle. by rewrite Hall.
  - intros y Hy. destruct (Hw y Hy) as [? ?]. split; [|done]. apply elem_of_app. by left.
Qed.
Lemma lists_add_dead C p x res D W s :
  ids !! p = Some x → (∃ it, items s !! x = Some it ∧ active it = false) →
  lists_ok C res D W s → lists_ok (C ++ [p]) res (D ++ [x]) W s.
Proof.
  intros Hp Hx [Hall Hdead Hw]. split; [|intros y [Hy|Hy]%elem_of_app|done].
  - rewrite at_places_app, (at_places_one _ _ Hp). rewrite app_assoc, Hall, <-!app_assoc.
    f_equiv. by rewrite Permutation_app_comm.
  - by apply Hdead.
  - by apply list_elem_of_singleton in Hy as ->.
Qed.
Lemma lists_add_waiting C res D W s x :
  x ∈ res → (∃ it, items s !! x = Some it ∧ active it = false ∧ is_Some (mappedNodes it)) →
  lists_ok C res D W s → lists_ok C res D (W ++ [x]) s.
Proof.
  intros Hr Hx [Hall Hdead Hw]. split; try done. intros y [Hy|Hy]%elem_of_app; [by apply Hw|].
  by apply list_elem_of_singleton in Hy as ->.
Qed.

Lemma shown_snoc W s res x : shown_but W s (res ++ [x]) = shown_but W s res ++ from_option (λ a, [a]) [] (shown_at W s x).
Proof. unfold shown_but. rewrite omap_app. f_equal. Qed.
Lemma shown_waiting W s res x : x ∉ res → shown_but (W ++ [x]) s res = shown_but W s res.
Proof.
  intros Hx. apply omap_ext_in. intros y Hy. unfold shown_at. destruct (items s !! y); [|done]. cbn [mbind option_bind].
  rewrite (bool_decide_ext (y ∈ W ++ [x]) (y ∈ W)); [done|]. rewrite elem_of_app, list_elem_of_singleton.
  split; [|by left]. intros [?| ->]; done.
Qed.
End from_state.
End walk.
