(* ===== verification/KoForeachRun.v ===== *)
(** * One entry of the edit script

    Each case of the loop of [KoForeach] keeps what [progress] says of a prefix of
    the script; the whole script gives the new result. *)
From stdpp Require Import base list.
From Stdlib Require Import Lia.
From S2P Require Import Prelude KoCompare KoForeach KoForeachScript KoForeachNodes KoForeachItems KoForeachWalk.

Section run.
Context {V node : Type} `{EqDecision V, EqDecision node}.
Context (mapping : V → nat → list node → nat → list node).
Context (depends reads_index : V → bool).
Context (born : node → option nat).
Hypothesis mapping_fresh : ∀ v i old k,
  NoDup (mapping v i old k) ∧ ∀ n, n ∈ mapping v i old k → born n = Some k.

Abbreviation state := (state (V := V) (node := node)).
Abbreviation item := (item (V := V) (node := node)).
Abbreviation wf := (wf born).
Abbreviation locals := (locals (node := node)).
Abbreviation touched := (touched reads_index born).

Context (o : options) (array : list V) (ids : list nat) (s0 : state).
Hypothesis wf0 : wf ids s0.
Abbreviation lastArray := ((λ x, items s0 !! x ≫= arrayEntry) <$> ids).
Context (script : list (entry (option V))).
Hypothesis walks : walks_both lastArray (Some <$> array) script.

Abbreviation store_ok := (store_ok reads_index born ids s0).
Abbreviation lists_ok := (lists_ok ids s0).
Implicit Types (s : state) (x y p i : nat) (D : list nat) (l : locals) (v : V) (pre post : list (entry (option V))).

Definition waiting l : list nat := snd <$> itemsForBeforeRemoveCallbacks l.

Abbreviation made := (made mapping reads_index).
Abbreviation awake := (awake (node := node) reads_index).

(** The children of the element are the nodes [mapping] made, and [r]. *)
Definition all_made (r : list node) : Prop :=
  tidy ids r s0 ∧ (∀ v i old k, mapping v i old k ≠ []) ∧
  ∀ x it, x ∈ ids → items s0 !! x = Some it → made it ∧ awake it.

Record progress pre l s D : Prop := Progress {
  pr_store : store_ok (claims 0 pre) s;
  pr_lists : lists_ok (claims 0 pre) (newMappingResult l) D (waiting l) s;
  pr_last : lastMappingResultIndex l = old_place pre;
  pr_new : newMappingResultIndex l = new_place pre;
  pr_process : itemsToProcess l = newMappingResult l;
  pr_delete : if beforeRemove o then tracked s D = [] else nodesToDelete l = tracked s D ∧ waiting l = [];
  pr_shown : shown_but (waiting l) s (newMappingResult l) =
             zip (take (new_place pre) array) (seq 0 (new_place pre));
  pr_full : beforeRemove o = false → length (newMappingResult l) = new_place pre;
  pr_made : ∀ r, all_made r → ∀ x it, x ∈ newMappingResult l → x ∈ ids → items s !! x = Some it →
    made it ∧ (x ∈ waiting l ∨ awake it);
  pr_same : (∀ e, e ∈ pre → e_status e = Added → is_Some (e_moved e)) → length (items s) = length (items s0)
}.

Lemma all_made_nodes r x : all_made r → x ∈ ids → nodes_at s0 x ≠ [].
Proof.
  intros (_ & Hf & Hm) Hx. destruct (wf_items _ _ _ wf0 x Hx) as (it & Hit & _).
  rewrite (nodes_at_item _ _ _ Hit). destruct (Hm x it Hx Hit) as [(i & old & k & Hn & _) _].
  unfold nodes_of. rewrite Hn. apply Hf.
Qed.
Lemma all_made_tidy r C s : all_made r → store_ok C s → tidy ids r s.
Proof. intros Hr Hs. apply (so_tidy _ _ _ _ _ _ Hs); [apply Hr|]. intros x. by eapply all_made_nodes. Qed.

Lemma progress_start : progress [] (Locals 0 0 [] [] [] [] [] []) s0 [].
Proof.
  split; try done; [by apply store_start|by apply lists_start|by destruct (beforeRemove o)|].
  intros r _ x it Hx. by apply not_elem_of_nil in Hx.
Qed.

Lemma zip_snoc k v : array !! k = Some v →
  zip (take (S k) array) (seq 0 (S k)) = zip (take k array) (seq 0 k) ++ [(v, k)].
Proof.
  intros H. rewrite (take_S_r _ _ _ H), seq_S. rewrite zip_with_app; [done|].
  apply lookup_lt_Some in H. rewrite length_take, length_seq. lia.
Qed.

Lemma old_entry p ov : lastArray !! p = Some ov → ∃ x, ids !! p = Some x ∧ items s0 !! x ≫= arrayEntry = ov.
Proof. rewrite list_lookup_fmap, fmap_Some. intros (x & ? & ->). by exists x. Qed.

(** An item that a step takes up is in none of the lists yet. *)
Lemma not_listed pre l s D p x :
  progress pre l s D → ids !! p = Some x → p ∉ claims 0 pre → x ∉ newMappingResult l ++ D.
Proof.
  intros Hp Hx HpC Hin.
  destruct (lists_new _ _ _ _ _ _ _ _ _ _ (pr_store _ _ _ _ Hp) (pr_lists _ _ _ _ Hp) Hin) as [H|H].
  - by eapply not_at_places in H.
  - apply list_elem_of_lookup_2, (old_item _ _ _ wf0) in Hx. lia.
Qed.

Lemma not_waiting pre l s D x : progress pre l s D → x ∉ newMappingResult l → x ∉ waiting l.
Proof. intros Hp Hx Hw. by apply (lo_waiting _ _ _ _ _ _ _ (pr_lists _ _ _ _ Hp)) in Hw as [? _]. Qed.

(** ** Retained and moved items *)

(** What the item shows, and that its nodes are still those of its value. *)
Lemma kept_shown pre p x v l s s' D :
  progress pre l s D → ids !! p = Some x → p ∉ claims 0 pre → touched ids x s s' →
  items s0 !! x ≫= arrayEntry = Some v →
  (∀ it', items s' !! x = Some it' → index it' = newMappingResultIndex l) →
  shown_at (waiting l) s' x = Some (v, new_place pre).
Proof.
  intros Hpr Hp HpC Htc Hv Hidx.
  pose proof (not_listed _ _ _ _ _ _ Hpr Hp HpC) as [Hnl _]%not_elem_of_app.
  destruct (items s0 !! x) as [it0|] eqn:Hit0; [|done]. cbn in Hv. unfold arrayEntry in Hv.
  destruct (deleted it0) eqn:Hd0; [done|]. simplify_eq.
  rewrite <-(so_untouched _ _ _ _ _ _ (pr_store _ _ _ _ Hpr) _ _ HpC Hp) in Hit0.
  destruct (tc_item _ _ _ _ _ _ Htc _ Hit0) as (it' & Hit' & Hv' & Hd' & _).
  unfold shown_at. rewrite Hit'. cbn [mbind option_bind].
  rewrite Hd', Hd0, Hv', (Hidx _ Hit'), (pr_new _ _ _ _ Hpr).
  rewrite bool_decide_false; [done|]. by eapply not_waiting.
Qed.

Lemma kept_made pre p x v l s s' D r :
  progress pre l s D → ids !! p = Some x → p ∉ claims 0 pre → items s0 !! x ≫= arrayEntry = Some v → all_made r →
  (∀ r it, tidy ids r s → items s !! x = Some it → nodes_of it ≠ [] → deleted it = false → made it → awake it →
     ∃ it', items s' !! x = Some it' ∧ made it' ∧ awake it') →
  ∃ it', items s' !! x = Some it' ∧ made it' ∧ awake it'.
Proof.
  intros Hpr Hp HpC Hv Hr Hmade. assert (x ∈ ids) as Hx by (by eapply list_elem_of_lookup_2).
  destruct (wf_items _ _ _ wf0 x Hx) as (it0 & Hit0 & _). rewrite Hit0 in Hv.
  destruct (proj2 (proj2 Hr) x it0 Hx Hit0) as [Hm Ha].
  apply (Hmade r it0); try done.
  - eapply all_made_tidy; [done|apply Hpr].
  - by rewrite (so_untouched _ _ _ _ _ _ (pr_store _ _ _ _ Hpr) _ _ HpC Hp).
  - rewrite <-(nodes_at_item _ _ _ Hit0). by eapply all_made_nodes.
  - cbn in Hv. unfold arrayEntry in Hv. by destruct (deleted it0).
Qed.

Lemma progress_kept pre e i p x v l s D :
  progress pre l s D → ids !! p = Some x → p ∉ claims 0 pre →
  items s0 !! x ≫= arrayEntry = Some v → array !! new_place pre = Some v →
  claim (old_place pre) e = [p] → e_status e ≠ Deleted →
  ∃ l' s', itemMovedOrRetained mapping reads_index ids i p l s = Some (l', s') ∧
    progress (pre ++ [e]) (if decide (e_status e = Added) then l' else next_last l') s' D.
Proof.
  intros Hpr Hp HpC Hv Ha Hcl Hst.
  destruct (itemMovedOrRetained_spec mapping reads_index born mapping_fresh ids i p x l s)
    as (s' & moves & Heq & Htc & Hidx & Hmade); [apply Hpr|done|].
  eexists _, s'. split; [exact Heq|].
  pose proof (kept_shown _ _ _ _ _ _ _ _ Hpr Hp HpC Htc Hv Hidx) as Hx.
  assert (∀ r, all_made r → ∃ it', items s' !! x = Some it' ∧ made it' ∧ awake it') as Hmx by (intros r Hr; by eapply kept_made).
  destruct Hpr as [Hst0 Hlo Hl Hn Hpp Hdel Hsh Hfull Hpm Hsame].
  destruct (lists_touch _ _ _ _ wf0 _ _ _ _ _ _ _ _ Hst0 Hlo Hp HpC Htc) as (Hlo' & Htr & Hsh').
  set (l1 := Locals _ _ _ _ _ _ _ _).
  assert (∀ l2, l2 = l1 ∨ l2 = next_last l1 →
            lastMappingResultIndex l2 = old_place (pre ++ [e]) → progress (pre ++ [e]) l2 s' D) as H.
  { intros l2 Hl2 Hlast.
    assert (new_place (pre ++ [e]) = S (new_place pre)) as Hnp by (rewrite new_place_app, decide_False by done; lia).
    assert (newMappingResult l2 = newMappingResult l ++ [x] ∧ waiting l2 = waiting l ∧
            newMappingResultIndex l2 = S (newMappingResultIndex l) ∧ itemsToProcess l2 = itemsToProcess l ++ [x] ∧
            nodesToDelete l2 = nodesToDelete l) as (H1 & H2 & H3 & H4 & H5) by (by destruct Hl2 as [-> | ->]).
    split; rewrite ?H1, ?H2, ?H3, ?H4, ?H5, ?claims_snoc, ?Hcl, ?Hnp.
    - by eapply store_touch.
    - by apply lists_add_res.
    - done.
    - by rewrite Hn.
    - by rewrite Hpp.
    - by rewrite Htr.
    - rewrite shown_snoc, Hsh', Hsh, Hx. by rewrite (zip_snoc _ v).
    - intros Hb. rewrite length_app, Hfull by done. simpl. lia.
    - intros r Hr y it Hy Hyi Hit. apply elem_of_app in Hy as [Hy|Hy].
      + apply (Hpm r Hr y it Hy Hyi). rewrite <-(touch_others _ _ _ _ wf0 _ _ _ _ _ _ _ _ _ Hst0 Hlo Hp HpC Htc); [done|].
        apply elem_of_app. by left.
      + apply list_elem_of_singleton in Hy as ->. destruct (Hmx r Hr) as (it' & E & ? & ?).
        rewrite Hit in E. simplify_eq. auto.
    - intros Hall. rewrite (tc_length _ _ _ _ _ _ Htc). apply Hsame. intros e' He'. apply Hall, elem_of_app. by left. }
  apply H; case_decide; auto; cbn; rewrite Hl, old_place_app.
  - by rewrite decide_True by done.
  - rewrite decide_False by done. lia.
Qed.

(** ** Deleted items *)

Lemma progress_passed pre e l s D :
  progress pre l s D → e_status e = Deleted → claim (old_place pre) e = [] → progress (pre ++ [e]) (next_last l) s D.
Proof.
  intros [Hst Hlo Hl Hn Hpp Hdel Hsh Hfull Hpm Hsame] Hs Hc.
  split; rewrite ?claims_snoc, ?Hc, ?app_nil_r, ?new_place_app, ?(decide_True _ _ Hs), ?Nat.add_0_r; try done.
  - cbn. rewrite Hl, old_place_app, Hs, decide_False by done. lia.
  - intros Hall. apply Hsame. intros e' He'. apply Hall, elem_of_app. by left.
Qed.

(** What stays the same when the item [x] has been given up. *)
Lemma progress_given_up pre e p x l s s' D :
  progress pre l s D → ids !! p = Some x → p ∉ claims 0 pre → touched ids x s s' →
  e_status e = Deleted → claim (old_place pre) e = [p] →
  store_ok (claims 0 (pre ++ [e])) s' ∧ lists_ok (claims 0 pre) (newMappingResult l) D (waiting l) s' ∧
  tracked s' D = tracked s D ∧
  claims 0 (pre ++ [e]) = claims 0 pre ++ [p] ∧ new_place (pre ++ [e]) = new_place pre ∧
  S (lastMappingResultIndex l) = old_place (pre ++ [e]) ∧
  shown_but (waiting l) s' (newMappingResult l) = zip (take (new_place pre) array) (seq 0 (new_place pre)) ∧
  (∀ r, all_made r → ∀ x it, x ∈ newMappingResult l → x ∈ ids → items s' !! x = Some it →
     made it ∧ (x ∈ waiting l ∨ awake it)).
Proof.
  intros [Hst Hlo Hl Hn Hpp Hdel Hsh _ Hpm _] Hp HpC Htc Hs Hc.
  destruct (lists_touch _ _ _ _ wf0 _ _ _ _ _ _ _ _ Hst Hlo Hp HpC Htc) as (Hlo' & Htr & Hsh').
  rewrite claims_snoc, Hc, new_place_app, old_place_app, Hs, Hl, decide_True, decide_False, Nat.add_0_r by done.
  split_and!; try done; [by eapply store_touch|lia|by rewrite Hsh'|].
  intros r Hr y it Hy Hyi Hit. apply (Hpm r Hr y it Hy Hyi).
  rewrite <-(touch_others _ _ _ _ wf0 _ _ _ _ _ _ _ _ _ Hst Hlo Hp HpC Htc); [done|]. apply elem_of_app. by left.
Qed.

(** It is enough to look at the lists. *)
Lemma progress_given_up_end pre e p x it' l l' s s' D D' :
  progress pre l s D → ids !! p = Some x → p ∉ claims 0 pre → touched ids x s s' →
  e_status e = Deleted → claim (old_place pre) e = [p] →
  items s' !! x = Some it' → (∀ r, all_made r → made it') →
  lastMappingResultIndex l' = lastMappingResultIndex l →
  newMappingResultIndex l' = newMappingResultIndex l → itemsToProcess l' = newMappingResult l' →
  lists_ok (claims 0 pre ++ [p]) (newMappingResult l') D' (waiting l') s' →
  (if beforeRemove o then tracked s' D' = [] else nodesToDelete l' = tracked s' D' ∧ waiting l' = []) →
  shown_but (waiting l') s' (newMappingResult l') = shown_but (waiting l) s' (newMappingResult l) →
  (beforeRemove o = false → length (newMappingResult l') = length (newMappingResult l)) →
  (∀ y, y ∈ waiting l → y ∈ waiting l') →
  (∀ y, y ∈ newMappingResult l' → y ∈ newMappingResult l ∨ y = x ∧ (x ∈ waiting l' ∨ deleted it' = true)) →
  progress (pre ++ [e]) (next_last l') s' D'.
Proof.
  intros Hpr Hp HpC Htc Hs Hcl Hit' Hmx E1 E2 E3 E4 E5 E6 E7 E8 E9.
  destruct (progress_given_up _ _ _ _ _ _ _ _ Hpr Hp HpC Htc Hs Hcl) as (Hst & Hlo & Htr & HC & Hnp & Hl1 & Hsh & Hpm).
  destruct Hpr as [_ _ Hl Hn Hpp Hdel _ Hfull _ Hsame]. rewrite <-HC in E4.
  split; rewrite ?Hnp; [done|done| |by cbn; rewrite E2|done|done| | | |]; cbn; [by rewrite E1|by etrans; [exact E6|]| | |].
  - intros Hb. by rewrite E7, Hfull.
  - intros r Hr y it [Hy|[-> Hy]]%E9 Hyi Hit.
    + destruct (Hpm r Hr y it Hy Hyi Hit) as [? [?|?]]; [|by auto]. split; [done|left]. by apply E8.
    + rewrite Hit' in Hit. simplify_eq. split; [by eapply Hmx|]. destruct Hy as [?|Hd]; [by left|right].
      intros _. congruence.
  - intros Hall. rewrite (tc_length _ _ _ _ _ _ Htc). apply Hsame. intros e' He'. apply Hall, elem_of_app. by left.
Qed.

Lemma progress_deleted pre e i p x l s D :
  progress pre l s D → ids !! p = Some x → p ∉ claims 0 pre → p = old_place pre →
  claim (old_place pre) e = [p] → e_status e = Deleted →
  ∃ l' s' D', itemDeleted o ids i l s = Some (l', s') ∧ progress (pre ++ [e]) (next_last l') s' D'.
Proof.
  intros Hpr Hp HpC -> Hcl Hs.
  assert (x ∈ ids) as Hx by (by eapply list_elem_of_lookup_2).
  destruct (give_up_spec mapping reads_index born ids x s) as (s' & Hfix & Htc & (it' & Hit' & Hact) & Hmade); [apply Hpr|done|].
  pose proof (not_listed _ _ _ _ _ _ Hpr Hp HpC) as [Hnr HnD]%not_elem_of_app.
  destruct (progress_given_up _ _ _ _ _ _ _ _ Hpr Hp HpC Htc Hs Hcl) as (Hst & Hlo & Htr & HC & Hnp & Hl1 & Hsh & Hpm).
  assert (∀ r, all_made r → made it') as Hmx.
  { intros r Hr. destruct (wf_items _ _ _ wf0 x Hx) as (it0 & Hit0 & _).
    destruct (proj2 (proj2 Hr) x it0 Hx Hit0) as [Hm0 _].
    destruct (Hmade r it0) as (it2 & E & ?); [by eapply all_made_tidy, Hpr| |done|].
    - by rewrite (so_untouched _ _ _ _ _ _ (pr_store _ _ _ _ Hpr) _ _ HpC Hp).
    - rewrite Hit' in E. by simplify_eq. }
  pose proof (λ l' D', progress_given_up_end _ _ _ _ _ _ l' _ _ _ D' Hpr Hp HpC Htc Hs Hcl Hit' Hmx) as Hend.
  destruct Hpr as [_ _ Hl Hn Hpp Hdel _ Hfull _ _].
  unfold itemDeleted. rewrite Hl, Hp. cbn [mbind option_bind]. rewrite Hfix. cbn [mbind option_bind].
  rewrite Hit'. cbn [mbind option_bind].
  assert (nodes_at s' x = nodes_of it') as Hnx by (unfold nodes_at; by rewrite Hit').
  assert (∃ it, items s' !! x = Some it ∧ active it = false) as Hdead by by exists it'.
  destruct (nodes_of it') as [|n ns] eqn:Hns; [|destruct (beforeRemove o) eqn:Hbr; [destruct (deleted it') eqn:Hdel'|]];
    eexists _, s', _; (split; [reflexivity|]); apply Hend; try done.
  - by apply lists_add_dead.
  - assert (tracked s' (D ++ [x]) = tracked s D) as ->; [|done].
    rewrite tracked_app, Htr. cbn. by rewrite Hnx, !app_nil_r.
  - by left.
  - cbn. by rewrite Hpp.
  - by apply lists_add_res.
  - by rewrite Htr.
  - cbn [newMappingResult]. rewrite shown_snoc. unfold waiting. cbn [itemsForBeforeRemoveCallbacks]. unfold shown_at. rewrite Hit'. cbn [mbind option_bind].
    rewrite Hdel'. cbn. by rewrite app_nil_r.
  - intros y [Hy| ->%list_elem_of_singleton]%elem_of_app; auto.
  - cbn. by rewrite Hpp.
  - unfold waiting. cbn [newMappingResult itemsForBeforeRemoveCallbacks]. rewrite fmap_app.
    apply lists_add_waiting; [apply elem_of_app; right; left| |by apply lists_add_res].
    exists it'. split_and!; [done..|]. unfold nodes_of in Hns. by destruct (mappedNodes it').
  - by rewrite Htr.
  - unfold waiting. cbn [newMappingResult itemsForBeforeRemoveCallbacks]. rewrite fmap_app.
    cbn [fmap list_fmap snd]. rewrite shown_snoc, shown_waiting by done.
    unfold shown_at. rewrite Hit'. cbn [mbind option_bind]. rewrite (bool_decide_true (x ∈ _)).
    + rewrite orb_true_r. cbn. by rewrite app_nil_r.
    + apply elem_of_app. right. left.
  - intros y Hy. unfold waiting. cbn [itemsForBeforeRemoveCallbacks]. rewrite fmap_app, elem_of_app. by left.
  - intros y [Hy| ->%list_elem_of_singleton]%elem_of_app; [by left|]. right. split; [done|left].
    unfold waiting. cbn [itemsForBeforeRemoveCallbacks]. rewrite fmap_app, elem_of_app. right. left.
  - by apply lists_add_dead.
  - destruct Hdel as [-> ?]. split; [|done]. cbn. rewrite tracked_app, Htr. cbn. by rewrite Hnx, app_nil_r.
  - by left.
Qed.

(** ** Added items *)

Lemma progress_added pre e i b v l s D :
  progress pre l s D → array !! new_place pre = Some v → claim (old_place pre) e = [] → e_status e = Added → e_moved e = None →
  ∃ l' s', itemAdded b v i l s = (l', s') ∧ progress (pre ++ [e]) l' s' D.
Proof.
  intros Hpr Ha Hcl Hs Hmv. eexists _, _. split; [reflexivity|].
  destruct Hpr as [Hst Hlo Hl Hn Hpp Hdel Hsh Hfull Hpm _]. set (s' := new_item _ s). set (x := length (items s)).
  assert (claims 0 (pre ++ [e]) = claims 0 pre) as HC by (by rewrite claims_snoc, Hcl, app_nil_r).
  assert (new_place (pre ++ [e]) = S (new_place pre)) as Hnp by (rewrite new_place_app, Hs, decide_False by done; lia).
  assert (∀ y, y ∈ newMappingResult l ++ D → items s' !! y = items s !! y) as Hk.
  { intros y Hy. apply lookup_app_l.
    destruct (lists_new _ _ _ _ _ _ _ _ _ _ Hst Hlo Hy) as [(q & _ & Hq)%elem_of_at_places|]; [|lia].
    apply list_elem_of_lookup_2, (old_item _ _ _ wf0) in Hq. pose proof (so_length _ _ _ _ _ _ Hst). lia. }
  assert (tracked s' D = tracked s D) as Htr.
  { apply tracked_ext. intros y Hy. apply nodes_at_eq, Hk, elem_of_app. by right. }
  assert (items s' !! x = Some (Item v false (new_place pre) None false false false)) as Hx.
  { cbn. rewrite Hn. apply list_lookup_middle. done. }
  assert (x ∉ waiting l) as Hxw.
  { intros Hw. destruct (lo_waiting _ _ _ _ _ _ _ Hlo x Hw) as [_ (it & Hit%lookup_lt_Some & _)]. unfold x in Hit. lia. }
  split; rewrite ?HC, ?Hnp, ?Htr; cbn [lastMappingResultIndex newMappingResultIndex newMappingResult nodesToDelete itemsToProcess];
    change (waiting (Locals _ _ _ _ _ _ _ _)) with (waiting l).
  - by apply store_new.
  - destruct Hlo as [Hall Hdead Hw]. split.
    + rewrite <-app_assoc. cbn [app]. rewrite <-Permutation_middle, Hall.
      cbn [items new_item s']. rewrite length_app. cbn [length].
      replace (length (items s) + 1 - length (items s0)) with (S (length (items s) - length (items s0)))
        by (pose proof (so_length _ _ _ _ _ _ Hst); lia).
      rewrite seq_S. replace (length (items s0) + _) with x by (pose proof (so_length _ _ _ _ _ _ Hst); lia).
      by rewrite (app_assoc (at_places ids _)), <-Permutation_cons_append.
    + intros y Hy. rewrite Hk by (apply elem_of_app; by right). by apply Hdead.
    + intros y Hy. destruct (Hw y Hy) as [? ?]. rewrite Hk by (apply elem_of_app; by left).
      split; [apply elem_of_app; by left|done].
  - rewrite Hl, old_place_app, Hs, decide_True by done. lia.
  - by rewrite Hn.
  - by rewrite Hpp.
  - done.
  - rewrite shown_snoc, (zip_snoc _ v) by done. f_equal.
    + rewrite <-Hsh. apply omap_ext_in. intros y Hy. unfold shown_at. by rewrite Hk by (apply elem_of_app; by left).
    + unfold shown_at. rewrite Hx. cbn. by rewrite bool_decide_false.
  - intros Hb. rewrite length_app, Hfull by done. simpl. lia.
  - intros r Hr y it [Hy|Hy]%elem_of_app Hyi Hit.
    + rewrite Hk in Hit by (apply elem_of_app; by left). by apply (Hpm r Hr y it).
    + apply list_elem_of_singleton in Hy as ->. apply (old_item _ _ _ wf0) in Hyi.
      pose proof (so_length _ _ _ _ _ _ Hst). unfold x in Hyi. lia.
  - intros Hall. destruct (Hall e) as [? ?]; [apply elem_of_app; right; left|done|congruence].
Qed.

(** ** The loop *)

Lemma claim_new pre e post p :
  script = pre ++ e :: post → claim (old_place pre) e = [p] → p ∉ claims 0 pre.
Proof.
  intros Heq Hcl. assert (NoDup (claims 0 script)) as Hnd by (rewrite (claims_all _ _ _ walks); apply NoDup_seq).
  rewrite Heq, claims_app in Hnd. simpl in Hnd. rewrite Hcl in Hnd.
  apply NoDup_app in Hnd as (_ & Hd & _). intros Hp. apply (Hd p Hp). left.
Qed.

Lemma new_value pre e post :
  script = pre ++ e :: post → e_status e ≠ Deleted →
  ∃ v, e_value e = Some v ∧ array !! new_place pre = Some v.
Proof.
  intros Heq Hs. pose proof (entry_in_new _ _ _ walks _ _ _ Heq Hs) as H.
  rewrite list_lookup_fmap, fmap_Some in H. destruct H as (v & ? & ?). by exists v.
Qed.

Lemma progress_step pre e post b l s D :
  script = pre ++ e :: post → progress pre l s D →
  ∃ l' s' D', process_entry mapping reads_index o b ids (length pre) e l s = Some (l', s') ∧
    progress (pre ++ [e]) l' s' D'.
Proof.
  intros Heq Hpr. unfold process_entry.
  assert (∀ p, claim (old_place pre) e = [p] → p ∉ claims 0 pre) as Hnew by (intros p; by eapply claim_new).
  destruct (e_status e) eqn:Hs.
  - destruct (new_value _ _ _ Heq) as (v & Hv & Ha); [by rewrite Hs|].
    destruct (e_moved e) as [p|] eqn:Hm.
    + assert (claim (old_place pre) e = [p]) as Hcl by (unfold claim; by rewrite Hs, Hm).
      assert (script !! length pre = Some e) as Hat by (rewrite Heq; by apply list_lookup_middle).
      destruct (moved_partner _ _ _ walks _ _ _ Hat Hs Hm) as (i' & e' & He' & Hs' & Hv' & -> & _).
      pose proof (entry_in_old _ _ _ walks _ _ _ (eq_sym (take_drop_middle _ _ _ He'))) as Hold.
      rewrite Hs', Hv', Hv in Hold. apply old_entry in Hold as (x & Hx & Hxv); [|done].
      destruct (progress_kept pre e (length pre) (old_place (take i' script)) x v l s D) as (l' & s' & He & Hpr'); try done; [by apply Hnew|by rewrite Hs|].
      rewrite Hs, decide_True in Hpr' by done. by exists l', s', D.
    + rewrite Hv. destruct (progress_added pre e (length pre) b v l s D) as (l' & s' & He & Hpr'); try done.
      { unfold claim. by rewrite Hs, Hm. }
      exists l', s', D. by rewrite He.
  - destruct (e_moved e) eqn:Hm; cbn [mbind option_bind].
    + exists (next_last l), s, D. split; [done|]. apply progress_passed; [done..|]. unfold claim. by rewrite Hs, Hm.
    + pose proof (entry_in_old _ _ _ walks _ _ _ Heq) as Hold. rewrite Hs in Hold.
      apply old_entry in Hold as (x & Hx & _); [|done].
      assert (claim (old_place pre) e = [old_place pre]) as Hcl by (unfold claim; by rewrite Hs, Hm).
      destruct (progress_deleted pre e (length pre) (old_place pre) x l s D Hpr Hx (Hnew _ Hcl) eq_refl Hcl Hs) as (l' & s' & D' & He & Hpr').
      rewrite He. cbn [mbind option_bind]. by exists (next_last l'), s', D'.
  - destruct (new_value _ _ _ Heq) as (v & Hv & Ha); [by rewrite Hs|].
    pose proof (entry_in_old _ _ _ walks _ _ _ Heq) as Hold. rewrite Hs, Hv in Hold.
    apply old_entry in Hold as (x & Hx & Hxv); [|done].
    assert (claim (old_place pre) e = [old_place pre]) as Hcl by (unfold claim; by rewrite Hs).
    destruct (progress_kept pre e (length pre) (old_place pre) x v l s D) as (l' & s' & He & Hpr'); try done; [by apply Hnew|by rewrite Hs|].
    rewrite Hs, decide_False in Hpr' by done. rewrite (pr_last _ _ _ _ Hpr), He. cbn [mbind option_bind].
    by exists (next_last l'), s', D.
Qed.

Lemma process_script_spec b post : ∀ pre l s D,
  script = pre ++ post → progress pre l s D →
  ∃ l' s' D', process_script mapping reads_index o b ids (length pre) post l s = Some (l', s') ∧
    progress script l' s' D'.
Proof.
  induction post as [|e post IH]; intros pre l s D Heq Hpr; cbn [process_script].
  - rewrite app_nil_r in Heq. subst pre. by exists l, s, D.
  - destruct (progress_step _ _ _ b _ _ _ Heq Hpr) as (l1 & s1 & D1 & He & Hpr1).
    rewrite He. cbn [mbind option_bind].
    destruct (IH (pre ++ [e]) l1 s1 D1) as (l' & s' & D' & Hps & Hpr'); [by rewrite <-app_assoc|done|].
    exists l', s', D'. split; [|done]. rewrite length_app, Nat.add_1_r in Hps. done.
Qed.
End run.
