(* ===== verification/KoForeachFacts.v ===== *)
(** * The children of the element follow the array

    The theorems about [KoForeach]: in every state the page can bring an element
    to, [setDomNodeChildrenFromArrayMapping] returns, the children are the nodes
    of the array's items in its order followed by the nodes that are no item's,
    every item knows its position, what stays keeps its nodes, what goes is
    disposed. *)
From stdpp Require Import base list.
From Stdlib Require Import Lia.
From S2P Require Import Prelude KoCompare KoForeach KoForeachScript.
From S2P Require Import KoForeachNodes KoForeachItems KoForeachPlace KoForeachWalk KoForeachRun.

Section facts.
Context {V node : Type} `{EqDecision V, EqDecision node}.
Context (mapping : V → nat → list node → nat → list node).
Context (depends reads_index : V → bool).
Context (born : node → option nat).

(** Every call of [mapping] makes new nodes, each of them once. *)
Definition makes_new_nodes : Prop := ∀ v i old k,
  NoDup (mapping v i old k) ∧ ∀ n, n ∈ mapping v i old k → born n = Some k.

Abbreviation state := (state (V := V) (node := node)).
Abbreviation item := (item (V := V) (node := node)).
Abbreviation locals := (locals (node := node)).
Abbreviation setChildren := (setDomNodeChildrenFromArrayMapping mapping depends reads_index).
Implicit Types (s : state) (it : item) (x y : nat) (n : node) (array : list V) (o : options) (c : list node).

(** The items of the last result, their nodes, what they show, and the other
    children of the element. *)
Definition result_of s : list nat := default [] (mapping_result s).
Definition rendering s : list node := tracked s (result_of s).
Definition shown s : list (V * nat) := shown_but [] s (result_of s).
Definition rest s : list node := strangers s (result_of s).

(** The invariant between calls. *)
Record ok s : Prop := Ok {
  ok_wf : wf born (result_of s) s;
  ok_dropped : ∀ x it, x ∉ result_of s → items s !! x = Some it → active it = false
}.

(** ** The parts of a call that touch no node *)

Record same_but_trace s s' : Prop := SameButTrace {
  sbt_children : children s' = children s;
  sbt_items : items s' = items s;
  sbt_result : mapping_result s' = mapping_result s;
  sbt_mapped : mapped s' = mapped s
}.

#[local] Instance same_but_trace_pre : PreOrder same_but_trace.
Proof. split; [by intros s|]. intros s1 s2 s3 [] []. split; congruence. Qed.

Lemma callCallback_same b k l s : same_but_trace s (callCallback b k l s).
Proof.
  unfold callCallback. destruct b; [|done]. revert s. induction l as [|[i x] l IH]; intros s; simpl; [done|].
  etrans; [|apply IH]. destruct (items s !! x) as [it|]; [|done].
  generalize (nodes_of it). intros ns. revert s. induction ns as [|n ns IHn]; intros s; simpl; [done|].
  etrans; [|apply IHn]. done.
Qed.

(** The items that are called [deleted] from now on. *)
Lemma fold_deleted (l : list (nat * nat)) : ∀ s s',
  s' = fold_left (λ s '(_, x), upd_item x set_deleted s) l s →
  children s' = children s ∧ mapping_result s' = mapping_result s ∧ mapped s' = mapped s ∧
  ∀ y, items s' !! y = (if bool_decide (y ∈ snd <$> l) then set_deleted else id) <$> items s !! y.
Proof.
  induction l as [|[i x] l IH]; intros s s' ->; simpl.
  - split_and!; try done. intros y. by rewrite option_fmap_id.
  - destruct (IH (upd_item x set_deleted s) _ eq_refl) as (H1 & H2 & H3 & H4). split_and!; try done.
    intros y. rewrite H4. destruct (decide (y = x)) as [->|Hne].
    + rewrite (bool_decide_true (x ∈ x :: _)) by left. cbn [items upd_item]. rewrite list_lookup_alter_eq.
      destruct (items s !! x) as [it|]; [|done]. simpl. by case_bool_decide.
    + rewrite upd_item_others by done. f_equal. rewrite (bool_decide_ext (y ∈ snd <$> l) (y ∈ x :: (snd <$> l))); [done|].
      rewrite elem_of_cons. split; [by right|]. by intros [?|?].
Qed.

(** ** The script and what is left of the last result *)

Context (mapping_fresh : makes_new_nodes).

Section call.
Context (array : list V) (o : options) (s0 : state).
Hypothesis ok0 : ok s0.
Abbreviation ids := (result_of s0).
Context (script : list (entry (option V))).
Hypothesis walks : walks_both ((λ x, items s0 !! x ≫= arrayEntry) <$> ids) (Some <$> array) script.
Context (l : locals) (s1 : state) (D : list nat).
Hypothesis Hpr : progress mapping reads_index born o array ids s0 script l s1 D.
Abbreviation res := (newMappingResult l).

Lemma call_listed : res ++ D ≡ₚ ids ++ seq (length (items s0)) (length (items s1) - length (items s0)).
Proof.
  rewrite (lo_all _ _ _ _ _ _ _ (pr_lists _ _ _ _ _ _ _ _ _ _ _ Hpr)). f_equiv.
  unfold at_places. rewrite (claims_all _ _ _ walks), length_fmap. clear.
  assert (∀ k, omap (λ p, ids !! p) (seq k (length ids - k)) = drop k ids) as H.
  { intros k. remember (length ids - k) as m eqn:Hm. revert k Hm. induction m as [|m IH]; intros k Hm; csimpl.
    - by rewrite drop_ge by lia.
    - destruct (lookup_lt_is_Some_2 ids k) as [x Hx]; [lia|]. rewrite Hx, IH by lia. symmetry. by apply drop_S. }
  specialize (H 0). rewrite Nat.sub_0_r, drop_0 in H. by rewrite H.
Qed.

Lemma call_new x it : x ∉ ids → x ∈ res ++ D → items s1 !! x = Some it → mappedNodes it = None ∧ deleted it = false.
Proof.
  rewrite call_listed, elem_of_app, elem_of_seq. intros ? [|[? _]] ?; [done|].
  by apply (so_new _ _ _ _ _ _ (pr_store _ _ _ _ _ _ _ _ _ _ _ Hpr) x).
Qed.

Lemma call_NoDup : NoDup (res ++ D).
Proof.
  rewrite call_listed. apply NoDup_app. split_and!; [apply (wf_ids _ _ _ (ok_wf _ ok0))| |apply NoDup_seq].
  intros x (it & Hit%lookup_lt_Some & _)%(wf_items _ _ _ (ok_wf _ ok0)) [? _]%elem_of_seq. lia.
Qed.

Lemma call_items x : x ∈ res ++ D → is_Some (items s1 !! x).
Proof.
  rewrite call_listed, elem_of_app, elem_of_seq. intros [Hx|Hx].
  - destruct (wf_items _ _ _ (so_wf _ _ _ _ _ _ (pr_store _ _ _ _ _ _ _ _ _ _ _ Hpr)) x Hx) as (it & ? & _). by exists it.
  - apply lookup_lt_is_Some_2. pose proof (so_length _ _ _ _ _ _ (pr_store _ _ _ _ _ _ _ _ _ _ _ Hpr)). lia.
Qed.

Lemma call_tracked : tracked s1 res ++ tracked s1 D ≡ₚ tracked s1 ids.
Proof.
  rewrite <-tracked_app. unfold tracked at 1. rewrite call_listed. fold (tracked s1 (ids ++ seq (length (items s0)) (length (items s1) - length (items s0)))).
  rewrite tracked_app. assert (tracked s1 (seq (length (items s0)) (length (items s1) - length (items s0))) = []) as ->; [|by rewrite app_nil_r].
  unfold tracked. apply elem_of_nil_inv. intros n (x & Hn & [Hx _]%elem_of_seq)%list_elem_of_bind.
  unfold nodes_at in Hn. destruct (items s1 !! x) as [it|] eqn:Hit; [|by apply not_elem_of_nil in Hn].
  destruct (so_new _ _ _ _ _ _ (pr_store _ _ _ _ _ _ _ _ _ _ _ Hpr) x it Hx Hit) as [Hm _].
  unfold nodes_of in Hn. rewrite Hm in Hn. by apply not_elem_of_nil in Hn.
Qed.

Abbreviation W := (waiting l).

Lemma unlisted_tracked_dead : filter (λ n, n ∉ tracked s1 D) (children s1) =
  if beforeRemove o then children s1 else filter (λ n, n ∉ nodesToDelete l) (children s1).
Proof.
  pose proof (pr_delete _ _ _ _ _ _ _ _ _ _ _ Hpr) as Hd. destruct (beforeRemove o).
  - rewrite Hd. apply filter_id. intros n _. apply not_elem_of_nil.
  - by destruct Hd as [-> _].
Qed.

(** The loop that puts the nodes in place, after the removals. *)
Lemma call_place s3 :
  items s3 = items s1 → mapped s3 = mapped s1 →
  children s3 = filter (λ n, n ∉ tracked s1 D) (children s1) →
  ∃ s4, place_items mapping depends reads_index res (head (children s3)) None s3 = Some s4 ∧
    children s4 = tracked s4 res ++ strangers s1 ids ∧ NoDup (children s4) ∧
    (∀ n k, n ∈ children s4 → born n = Some k → k < mapped s4) ∧
    (∀ y, y ∉ res → items s4 !! y = items s1 !! y) ∧
    (∀ x it, x ∈ res → items s1 !! x = Some it → ∃ it', items s4 !! x = Some it' ∧ rendered mapping depends reads_index it it') ∧
    mapping_result s4 = mapping_result s3 ∧ mapped s4 = mapped s1 + unmapped_in s1 res ∧
    (∀ n, n ∈ tracked s1 D → n ∉ children s4).
Proof.
  intros Hi Hm Hc.
  assert (wf born ids s1) as [_ _ [Ht1 Hc1 _] Hb1] by apply (so_wf _ _ _ _ _ _ (pr_store _ _ _ _ _ _ _ _ _ _ _ Hpr)).
  assert (∀ x, nodes_at s3 x = nodes_at s1 x) as Hn3 by (intros x; unfold nodes_at; by rewrite Hi).
  assert (tracked s3 res = tracked s1 res) as Ht3 by by apply tracked_ext.
  pose proof call_NoDup as (HndR & _ & _)%NoDup_app.
  pose proof call_tracked as Hperm.
  assert (NoDup (tracked s1 res ++ tracked s1 D)) as Hnd by by rewrite Hperm.
  assert (∀ n, n ∈ tracked s1 ids ↔ n ∈ tracked s1 res ∨ n ∈ tracked s1 D) as Hel.
  { intros n. by rewrite <-Hperm, elem_of_app. }
  destruct (place_items_spec mapping depends reads_index born mapping_fresh res [] (children s3) s3)
    as (s4 & Hs4 & Hc4 & Hnd4 & _ & Hk4 & Hl4 & Ho4 & Hi4 & Hr4 & Hm4 & Hsrc).
  { split; try done.
    - rewrite Hc. by apply NoDup_filter.
    - intros x Hx. rewrite Hi. apply call_items, elem_of_app. by left.
    - rewrite Ht3. by apply NoDup_app in Hnd as (? & _).
    - intros n _. apply not_elem_of_nil.
    - rewrite Ht3, Hc. intros n k Hn Hk. rewrite Hm. eapply Hb1; [|done]. cbn [app] in Hn.
      apply elem_of_app in Hn as [[_ ?]%list_elem_of_filter|Hn]; [by left|right]. apply Hel. by left. }
  exists s4. split_and!; try done.
  - rewrite Hc4. cbn [app]. f_equal. rewrite Hc, list_filter_filter. apply filter_iff_in. intros n Hn.
    rewrite Hel. assert (n ∈ tracked s4 res ↔ n ∈ tracked s1 res); [|tauto]. split.
    + intros [?|(k & Hk & Hle)]%Hsrc; [by rewrite <-Ht3|]. specialize (Hb1 n k (or_introl Hn) Hk). lia.
    + intros (x & Hx & Hxr)%elem_of_tracked. apply elem_of_tracked. exists x. split; [|done].
      unfold nodes_at in *. destruct (items s1 !! x) as [it|] eqn:Hit; [|by apply not_elem_of_nil in Hx].
      rewrite <-Hi in Hit. destruct (Hi4 x it Hxr Hit) as (it' & -> & _ & _ & _ & Hmn).
      unfold nodes_of in *. destruct (mappedNodes it) as [h|]; [|by apply not_elem_of_nil in Hx].
      destruct Hmn as [-> _]. done.
  - rewrite Hc4. cbn [app]. apply NoDup_app. split_and!; [done| |].
    + intros n Hn [? _]%list_elem_of_filter. done.
    + apply NoDup_filter. rewrite Hc. by apply NoDup_filter.
  - intros n k Hn. apply (Hk4 n k). rewrite Hc4 in Hn. cbn [app] in *. rewrite elem_of_app in *.
    destruct Hn as [?|[_ ?]%list_elem_of_filter]; auto.
  - intros y Hy. by rewrite Ho4, Hi.
  - intros x it Hx Hit. apply Hi4; [done|]. by rewrite Hi.
  - rewrite Hm4, Hm. unfold unmapped_in, unmapped. by rewrite Hi.
  - intros n Hn. rewrite Hc4, Hc. cbn [app]. intros [Hn'|[_ [? _]%list_elem_of_filter]%list_elem_of_filter]%elem_of_app; [|done].
    apply Hsrc in Hn' as [Hn'|(k & Hk & Hle)].
    + rewrite Ht3 in Hn'. apply NoDup_app in Hnd as (_ & Hd & _). by apply (Hd n).
    + assert (k < mapped s1); [|lia]. apply (Hb1 n); [right; apply Hel; by right|done].
Qed.

(** A call leaves the invariant and shows the array. *)
Record outcome s' : Prop := Outcome {
  oc_result : mapping_result s' = Some res;
  oc_ok : ok s';
  oc_children : children s' = tracked s' res ++ strangers s1 ids;
  oc_shown : shown s' = zip array (seq 0 (length array));
  oc_kept : ∀ x, x ∈ ids → nodes_at s' x = nodes_at s1 x;
  oc_dropped : ∀ x, x ∈ D → items s' !! x = items s1 !! x;
  oc_value : ∀ x it, x ∈ ids → items s1 !! x = Some it → ∃ it', items s' !! x = Some it' ∧ i_value it' = i_value it;
  oc_gone : ∀ n, n ∈ tracked s1 D → n ∉ children s';
  oc_mapped : mapped s' = mapped s1 + unmapped_in s1 res;
  oc_full : beforeRemove o = false → length res = length array;
  oc_made : ∀ r, all_made mapping reads_index ids s0 r →
    tidy res r s' ∧ ∀ x it, x ∈ res → items s' !! x = Some it → made mapping reads_index it ∧ awake reads_index it
}.

(** [mapping] is called for the items that were not in the last result. *)
Lemma unmapped_count : unmapped_in s1 res = length (filter (λ x, x ∉ ids) res).
Proof.
  assert (∀ x, x ∈ res → unmapped s1 x = bool_decide (x ∉ ids)) as H.
  { intros x Hx. unfold unmapped. destruct (call_items x) as [it Hit]; [apply elem_of_app; by left|]. rewrite Hit.
    destruct (decide (x ∈ ids)) as [Hi|Hi].
    - destruct (wf_items _ _ _ (so_wf _ _ _ _ _ _ (pr_store _ _ _ _ _ _ _ _ _ _ _ Hpr)) x Hi) as (it0 & E & [h Hh] & _).
      rewrite Hit in E. simplify_eq. rewrite Hh, bool_decide_false; [done|]. tauto.
    - destruct (call_new x it) as [-> _]; [done|apply elem_of_app; by left|done|]. by rewrite bool_decide_true. }
  unfold unmapped_in. generalize H. generalize res. clear. intros l. induction l as [|x l IH]; intros H; [done|].
  cbn [List.filter]. rewrite (H x (list_elem_of_here _ _)), filter_cons.
  specialize (IH (λ y Hy, H y (list_elem_of_further _ _ _ Hy))).
  case_bool_decide; [rewrite decide_True by done; simpl; by rewrite IH|rewrite decide_False by tauto; exact IH].
Qed.

(** The items of the result after the callbacks: those that waited are [deleted]. *)
Lemma result_item s4 s' x :
  (∀ x it, x ∈ res → items s1 !! x = Some it → ∃ it', items s4 !! x = Some it' ∧ rendered mapping depends reads_index it it') →
  (∀ y, items s' !! y = (if bool_decide (y ∈ W) then set_deleted else id) <$> items s4 !! y) →
  x ∈ res →
  ∃ it it', items s1 !! x = Some it ∧ items s' !! x = Some it' ∧ i_value it' = i_value it ∧
    index it' = index it ∧ deleted it' = deleted it || bool_decide (x ∈ W) ∧ is_Some (mappedNodes it') ∧
    (∀ h, mappedNodes it = Some h → mappedNodes it' = Some h ∧ active it' = active it) ∧
    (mappedNodes it = None → ∃ k, mappedNodes it' = Some (mapping (i_value it) (index it) [] k) ∧
       active it' = depends (i_value it) || reads_index (i_value it)).
Proof.
  intros Hi4 Hi Hx. destruct (call_items x) as [it Hit]; [apply elem_of_app; by left|].
  destruct (Hi4 x it Hx Hit) as (it4 & Hit4 & H1 & H2 & H3 & H4). exists it.
  exists ((if bool_decide (x ∈ W) then set_deleted else id) it4). rewrite Hi, Hit4.
  assert (is_Some (mappedNodes it4)) by (destruct (mappedNodes it); [destruct H4; by eexists|destruct H4 as (k & -> & _); by eexists]).
  assert (∀ h, mappedNodes it = Some h → mappedNodes it4 = Some h ∧ active it4 = active it)
    by (intros h Hh; by rewrite Hh in H4).
  assert (mappedNodes it = None → ∃ k, mappedNodes it4 = Some (mapping (i_value it) (index it) [] k) ∧
       active it4 = depends (i_value it) || reads_index (i_value it)) by (intros Hn; by rewrite Hn in H4).
  case_bool_decide; split_and!; try done; cbn.
  - by rewrite orb_true_r.
  - by rewrite orb_false_r.
Qed.

Lemma result_origin x :
  x ∈ res → (x ∈ ids ∧ x ∉ D) ∨ ((x ∉ ids) ∧ ∀ it, items s1 !! x = Some it → mappedNodes it = None ∧ deleted it = false).
Proof.
  intros Hx. destruct (decide (x ∈ ids)); [left; split; [done|]|right; split; [done|]].
  - intros HD. pose proof call_NoDup as (_ & Hd & _)%NoDup_app. by apply (Hd x).
  - intros it. apply call_new; [done|]. apply elem_of_app. by left.
Qed.

Lemma deleted_inactive x it it' :
  x ∈ res → items s1 !! x = Some it → deleted it || bool_decide (x ∈ W) = true →
  (∀ h, mappedNodes it = Some h → mappedNodes it' = Some h ∧ active it' = active it) → active it' = false.
Proof.
  intros Hx Hit Hdel Hh.
  assert (is_Some (mappedNodes it) ∧ active it = false) as [[h Hm] Ha]; [|by destruct (Hh h Hm) as [_ ->]].
  case_bool_decide as Hw.
  - apply (lo_waiting _ _ _ _ _ _ _ (pr_lists _ _ _ _ _ _ _ _ _ _ _ Hpr)) in Hw as (_ & it0 & E & ? & ?).
    rewrite Hit in E. by simplify_eq.
  - rewrite orb_false_r in Hdel. destruct (result_origin x Hx) as [[Hi _]|[_ Hn]].
    + destruct (wf_items _ _ _ (so_wf _ _ _ _ _ _ (pr_store _ _ _ _ _ _ _ _ _ _ _ Hpr)) x Hi) as (it0 & E & ? & Hd).
      rewrite Hit in E. simplify_eq. auto.
    + destruct (Hn it Hit). congruence.
Qed.

Lemma unlisted_inactive x it : x ∉ res → items s1 !! x = Some it → active it = false.
Proof.
  intros Hx Hit. destruct (decide (x ∈ D)) as [HD|HD].
  { destruct (lo_dead _ _ _ _ _ _ _ (pr_lists _ _ _ _ _ _ _ _ _ _ _ Hpr) x HD) as (it0 & E & ?). congruence. }
  assert (x ∉ res ++ D) as Hn by (by apply not_elem_of_app). rewrite call_listed in Hn.
  apply not_elem_of_app in Hn as [Hids Hs]. rewrite elem_of_seq in Hs.
  assert (x < length (items s0)) as Hlt by (apply lookup_lt_Some in Hit; lia).
  apply lookup_lt_is_Some_2 in Hlt as [it0 Hit0].
  destruct (so_old _ _ _ _ _ _ (pr_store _ _ _ _ _ _ _ _ _ _ _ Hpr) x it0 Hit0) as (it1 & E & _ & _ & Ha).
  rewrite Hit in E. simplify_eq. apply not_true_is_false. intros Hac%Ha.
  by rewrite (ok_dropped _ ok0 x it0 Hids Hit0) in Hac.
Qed.

Lemma strangers_tidy r s xs : wf born xs s → tidy xs r s → strangers s xs = r.
Proof.
  intros Hwf Ht. pose proof (placed_children _ _ (wf_placed _ _ _ Hwf)) as Hnd. unfold strangers, foreign.
  rewrite Ht in *. apply NoDup_app in Hnd as (_ & Hd & _).
  rewrite filter_app, filter_none by tauto. apply filter_id. intros n Hn Hn'. by apply (Hd n).
Qed.

Lemma result_made r x it it' :
  all_made mapping reads_index ids s0 r → x ∈ res → items s1 !! x = Some it →
  i_value it' = i_value it ∧ index it' = index it ∧ deleted it' = deleted it || bool_decide (x ∈ W) ∧
    is_Some (mappedNodes it') ∧
    (∀ h, mappedNodes it = Some h → mappedNodes it' = Some h ∧ active it' = active it) ∧
    (mappedNodes it = None → ∃ k, mappedNodes it' = Some (mapping (i_value it) (index it) [] k) ∧
       active it' = depends (i_value it) || reads_index (i_value it)) →
  made mapping reads_index it' ∧ awake reads_index it'.
Proof.
  intros Hr Hx Hit (Hv & Hi & Hd & _ & Hs & Hn). destruct (result_origin x Hx) as [[Hxi _]|[_ Hnew]].
  - destruct (pr_made _ _ _ _ _ _ _ _ _ _ _ Hpr r Hr x it Hx Hxi Hit) as [(j & old & k & Hm & Hj) Haw].
    destruct (Hs _ Hm) as [Hm' Ha']. split.
    + exists j, old, k. by rewrite Hv, Hi.
    + unfold awake. rewrite Hv, Hd, Ha'. intros Hri Hdel. apply orb_false_iff in Hdel as [Hdel Hw].
      apply bool_decide_eq_false in Hw. destruct Haw as [?|Haw]; [done|]. by apply Haw.
  - destruct (Hn (proj1 (Hnew it Hit))) as (k & Hm & Ha). split.
    + exists (index it), [], k. by rewrite Hv, Hi.
    + unfold awake. rewrite Hv, Ha. intros -> _. by rewrite orb_true_r.
Qed.

(** What a call that ends in [s'] leaves. *)
Lemma call_end s4 s' :
  children s4 = tracked s4 res ++ strangers s1 ids → NoDup (children s4) →
  (∀ n k, n ∈ children s4 → born n = Some k → k < mapped s4) →
  (∀ y, y ∉ res → items s4 !! y = items s1 !! y) →
  (∀ x it, x ∈ res → items s1 !! x = Some it → ∃ it', items s4 !! x = Some it' ∧ rendered mapping depends reads_index it it') →
  mapping_result s4 = Some res → mapped s4 = mapped s1 + unmapped_in s1 res →
  (∀ n, n ∈ tracked s1 D → n ∉ children s4) →
  children s' = children s4 → mapping_result s' = mapping_result s4 → mapped s' = mapped s4 →
  (∀ y, items s' !! y = (if bool_decide (y ∈ W) then set_deleted else id) <$> items s4 !! y) →
  outcome s'.
Proof.
  intros Hc4 Hnd4 Hk4 Ho4 Hi4 Hr4 Hm4 Hg4 Hc Hr Hm Hi.
  assert (result_of s' = res) as Hres by (unfold result_of; by rewrite Hr, Hr4).
  assert (tracked s' res = tracked s4 res) as Ht.
  { apply tracked_ext. intros x _. unfold nodes_at. rewrite Hi. destruct (items s4 !! x) as [it|]; [|done].
    simpl. by case_bool_decide. }
  pose proof (so_wf _ _ _ _ _ _ (pr_store _ _ _ _ _ _ _ _ _ _ _ Hpr)) as Hwf1.
  pose proof (lo_waiting _ _ _ _ _ _ _ (pr_lists _ _ _ _ _ _ _ _ _ _ _ Hpr)) as HW.
  assert (∀ y, y ∉ res → items s' !! y = items s1 !! y) as Ho'.
  { intros y Hy. rewrite Hi, Ho4, bool_decide_false by (done || by intros [? _]%HW). by rewrite option_fmap_id. }
  pose proof (λ x, result_item s4 s' x Hi4 Hi) as Hit'.
  pose proof call_NoDup as (HndR & HRD & _)%NoDup_app.
  assert (new_place script = length array) as Hnp.
  { unfold new_place. by rewrite (wb_new _ _ _ walks), length_fmap. }
  split; try congruence.
  - split; rewrite Hres.
    + split; [done| | |].
      * intros x Hx. destruct (Hit' x Hx) as (it & it' & E1 & E2 & E3 & E4 & E5 & E6 & E7 & E8).
        exists it'. split_and!; [done..|]. rewrite E5. intros Hdel. by eapply deleted_inactive.
      * split; rewrite ?Ht, ?Hc; [by rewrite Hc4 in Hnd4; apply NoDup_app in Hnd4 as [? _]|done|].
        rewrite Hc4, attached_all; [by apply sublist_inserts_r|].
        intros n Hn. apply elem_of_app. by left.
      * intros n k Hn. rewrite Hm. apply Hk4. rewrite Hc, Ht in Hn. destruct Hn as [?|?]; [done|].
        rewrite Hc4. apply elem_of_app. by left.
    + intros x it Hx. rewrite Ho' by done. by apply unlisted_inactive.
  - unfold shown. rewrite Hres. pose proof (pr_shown _ _ _ _ _ _ _ _ _ _ _ Hpr) as Hsh.
    rewrite Hnp, firstn_all in Hsh. rewrite <-Hsh. apply omap_ext_in. intros x Hx.
    destruct (Hit' x Hx) as (it & it' & E1 & E2 & E3 & E4 & E5 & _).
    unfold shown_at. rewrite E1, E2. cbn [mbind option_bind]. rewrite E3, E4, E5.
    rewrite (bool_decide_false (x ∈ [])) by apply not_elem_of_nil. by rewrite orb_false_r.
  - intros x Hx. destruct (decide (x ∈ res)) as [Hr'|Hr']; [|by apply nodes_at_eq, Ho'].
    destruct (Hit' x Hr') as (it & it' & E1 & E2 & E3 & E4 & E5 & E6 & E7 & E8).
    destruct (wf_items _ _ _ Hwf1 x Hx) as (it0 & E0 & [h Hh] & _). rewrite E1 in E0. simplify_eq.
    unfold nodes_at, nodes_of. rewrite E1, E2. destruct (E7 h Hh) as [-> _]. by rewrite Hh.
  - intros x Hx. apply Ho'. intros Hr'. by apply (HRD x).
  - intros x it Hx Hit. destruct (decide (x ∈ res)) as [Hr'|Hr']; [|exists it; by rewrite Ho'].
    destruct (Hit' x Hr') as (it1 & it' & E1 & E2 & E3 & _). rewrite Hit in E1. simplify_eq. by exists it'.
  - intros n Hn. rewrite Hc. by apply Hg4.
  - rewrite <-Hnp. apply (pr_full _ _ _ _ _ _ _ _ _ _ _ Hpr).
  - intros r Hall. split.
    + unfold tidy. rewrite Hc, Ht, Hc4. f_equal. apply strangers_tidy; [done|].
      eapply all_made_tidy; [exact (ok_wf _ ok0)|exact Hall|exact (pr_store _ _ _ _ _ _ _ _ _ _ _ Hpr)].
    + intros x it' Hx Hitx. destruct (Hit' x Hx) as (it & it2 & E1 & E2 & Hrest). rewrite E2 in Hitx. simplify_eq.
      by eapply result_made.
Qed.
End call.

(** ** A call *)

Lemma call_script array o s :
  ok s → ∃ script l s1 D s',
    compareArrays ((λ x, items s !! x ≫= arrayEntry) <$> result_of s) (Some <$> array) false (dontLimitMoves o) = Some script ∧
    walks_both ((λ x, items s !! x ≫= arrayEntry) <$> result_of s) (Some <$> array) script ∧
    progress mapping reads_index born o array (result_of s) s script l s1 D ∧
    setChildren array o s = Some s' ∧ outcome array o s l s1 D s'.
Proof.
  intros Hok.
  destruct (compareArrays_walks ((λ x, items s !! x ≫= arrayEntry) <$> result_of s) (Some <$> array) (dontLimitMoves o))
    as (script & Hcmp & Hwalks).
  set (first := match mapping_result s with None => true | Some _ => false end).
  destruct (process_script_spec mapping reads_index born mapping_fresh o array (result_of s) s (ok_wf _ Hok) script
              Hwalks first script [] (Locals 0 0 [] [] [] [] [] []) s [])
    as (l & s1 & D & Hps & Hpr); [done|by apply progress_start, ok_wf|].
  unfold setDomNodeChildrenFromArrayMapping.
  set (s2 := callCallback (beforeMove o) BeforeMove (itemsForMoveCallbacks l) (set_result (newMappingResult l) s1)).
  assert (same_but_trace (set_result (newMappingResult l) s1) s2) as [Hc2 Hi2 Hr2 Hm2] by apply callCallback_same.
  set (s3 := if beforeRemove o then s2 else set_children (removeNodes (nodesToDelete l) (children s2)) s2).
  destruct (call_place array o s Hok script Hwalks l s1 D Hpr s3) as (s4 & Hs4 & Hc4 & Hnd4 & Hk4 & Ho4 & Hi4 & Hr4 & Hm4 & Hg4).
  { unfold s3. destruct (beforeRemove o); [done|]. exact Hi2. }
  { unfold s3. destruct (beforeRemove o); [done|]. exact Hm2. }
  { rewrite (unlisted_tracked_dead _ _ _ _ _ _ _ Hpr). unfold s3. destruct (beforeRemove o); [exact Hc2|].
    cbn. rewrite removeNodes_filter. by rewrite Hc2. }
  set (s5 := callCallback (beforeRemove o) BeforeRemove (itemsForBeforeRemoveCallbacks l) s4).
  assert (same_but_trace s4 s5) as [Hc5 Hi5 Hr5 Hm5] by apply callCallback_same.
  set (s6 := fold_left (λ s '(_, x), upd_item x set_deleted s) (itemsForBeforeRemoveCallbacks l) s5).
  destruct (fold_deleted (itemsForBeforeRemoveCallbacks l) s5 s6 eq_refl) as (Hc6 & Hr6 & Hm6 & Hi6).
  set (s' := callCallback (afterAdd o) AfterAdd (itemsForAfterAddCallbacks l)
          (callCallback (afterMove o) AfterMove (itemsForMoveCallbacks l) s6)).
  assert (same_but_trace s6 s') as [Hc7 Hi7 Hr7 Hm7] by (etrans; [|apply callCallback_same]; apply callCallback_same).
  exists script, l, s1, D, s'. split; [done|]. split; [done|]. split; [done|]. split.
  - fold (result_of s). rewrite Hcmp. cbn [mbind option_bind]. cbn [length] in Hps. fold first. rewrite Hps.
    cbn [mbind option_bind]. fold s2. fold s3. rewrite (pr_process _ _ _ _ _ _ _ _ _ _ _ Hpr).
    rewrite Hs4. done.
  - eapply (call_end _ _ _ Hok _ Hwalks _ _ _ Hpr s4); try done; try congruence.
    + rewrite Hr4. unfold s3. by destruct (beforeRemove o).
    + intros y. by rewrite Hi7, Hi6, Hi5.
Qed.

Lemma call_returns array o s :
  ok s → ∃ script l s1 D s',
    walks_both ((λ x, items s !! x ≫= arrayEntry) <$> result_of s) (Some <$> array) script ∧
    progress mapping reads_index born o array (result_of s) s script l s1 D ∧
    setChildren array o s = Some s' ∧ outcome array o s l s1 D s'.
Proof.
  intros Hok. destruct (call_script array o s Hok) as (script & l & s1 & D & s' & _ & H).
  by exists script, l, s1, D, s'.
Qed.
End facts.
