(* ===== verification/KoForeachPage.v ===== *)
(** * Histories of an element under [foreach]

    What a page can do to the element between two calls, and what every call then
    shows. *)
From stdpp Require Import base list relations.
From Stdlib Require Import Lia.
From S2P Require Import Prelude KoCompare KoMoves KoForeach KoForeachScript.
From S2P Require Import KoForeachNodes KoForeachItems KoForeachPlace KoForeachWalk KoForeachRun KoForeachFacts.

(** Removing from both sides of a sublist. *)
Lemma sublist_filter_mono {A} (P : A → Prop) `{∀ a, Decision (P a)} (k l : list A) :
  k `sublist_of` l → filter P k `sublist_of` filter P l.
Proof.
  induction 1 as [|a k l _ IH|a k l _ IH]; [done| |]; rewrite !filter_cons; case_decide;
    first [by constructor|done].
Qed.

Section page.
Context {V node : Type} `{EqDecision V, EqDecision node}.
Context (mapping : V → nat → list node → nat → list node).
Context (depends reads_index : V → bool).
Context (born : node → option nat).

Abbreviation state := (state (V := V) (node := node)).
Abbreviation item := (item (V := V) (node := node)).
Abbreviation setChildren := (setDomNodeChildrenFromArrayMapping mapping depends reads_index).
Implicit Types (s : state) (it : item) (x y : nat) (n : node) (array : list V) (o : options) (c : list node).

(** The array has a new value; an observable that an item's mapping read changes;
    code of the page removes a child, or inserts a node that is no item's. *)
Inductive page_step s : state → Prop :=
  | page_update array o s' : setChildren array o s = Some s' → page_step s s'
  | page_change x s' : refresh mapping x s = Some s' → page_step s s'
  | page_remove n : page_step s (set_children (removeNode n (children s)) s)
  | page_insert n ref :
      n ∉ children s → n ∉ rendering s → (∀ k, born n = Some k → k < mapped s) →
      (∀ r, ref = Some r → r ∈ children s) →
      page_step s (set_children (insertBefore n ref (children s)) s).

(** The element before the binding: its children were not made by [mapping]. *)
Definition start c : state := State c [] None 0 [].
Definition page_reaches s : Prop :=
  ∃ c, NoDup c ∧ (∀ n, n ∈ c → born n = None) ∧ rtc page_step (start c) s.

Lemma start_ok c : NoDup c → (∀ n, n ∈ c → born n = None) → ok born (start c).
Proof.
  intros Hc Hb. split; [split|]; try done; [apply NoDup_nil_2| | |].
  - intros x Hx. by apply not_elem_of_nil in Hx.
  - split; [apply NoDup_nil_2|done|]. apply sublist_nil_l.
  - intros n k [Hn|Hn]; [by rewrite Hb|by apply not_elem_of_nil in Hn].
Qed.

(** Changing the children only. *)
Lemma set_children_ok c s :
  ok born s → placed (rendering s) c → (∀ n k, n ∈ c → born n = Some k → k < mapped s) →
  ok born (set_children c s).
Proof.
  intros [[Hids Hit Hp Hb] Hd] Hc Hbc. split; [split|]; try done.
  intros n k [Hn|Hn] Hk; [by apply (Hbc n)|apply (Hb n); [by right|done]].
Qed.

Lemma remove_ok n s : ok born s → ok born (set_children (removeNode n (children s)) s).
Proof.
  intros Hok. pose proof (wf_placed _ _ _ (ok_wf _ _ Hok)) as [Ht Hc Ho].
  unfold removeNode. rewrite removeChild_filter. apply set_children_ok; [done| |].
  - split; [done|by apply NoDup_filter|].
    assert (filter (λ m, m ∈ filter (λ m, m ≠ n) (children s)) (rendering s) =
            filter (λ m, m ≠ n) (filter (λ m, m ∈ children s) (rendering s))) as ->.
    { rewrite list_filter_filter. apply list_filter_iff. intros m. by rewrite list_elem_of_filter. }
    by apply sublist_filter_mono.
  - intros m k [_ Hm]%list_elem_of_filter. apply (wf_born _ _ _ (ok_wf _ _ Hok)). by left.
Qed.

Lemma put_before_inserts n r c : r ∈ c → ∃ c1 c2, c = c1 ++ c2 ∧ put_before n r c = c1 ++ n :: c2.
Proof.
  induction c as [|a c IH]; intros Hr; [by apply not_elem_of_nil in Hr|]. simpl.
  case_decide as Ha; [by exists [], (a :: c)|].
  apply elem_of_cons in Hr as [->|Hr]; [done|].
  destruct (IH Hr) as (c1 & c2 & -> & ->). by exists (a :: c1), c2.
Qed.

Lemma insertBefore_inserts n ref c :
  n ∉ c → (∀ r, ref = Some r → r ∈ c) → ∃ c1 c2, c = c1 ++ c2 ∧ insertBefore n ref c = c1 ++ n :: c2.
Proof.
  intros Hn Hr. unfold insertBefore.
  assert (ref ≠ Some n) as Hne by (intros ->; by apply Hn, Hr). rewrite decide_False by done.
  rewrite removeChild_filter, filter_id by (by intros x Hx ->).
  destruct ref as [r|]; [by apply put_before_inserts, Hr|]. exists c, []. by rewrite app_nil_r.
Qed.

Lemma insert_ok n ref s :
  ok born s → n ∉ children s → n ∉ rendering s → (∀ k, born n = Some k → k < mapped s) →
  (∀ r, ref = Some r → r ∈ children s) → ok born (set_children (insertBefore n ref (children s)) s).
Proof.
  intros Hok Hn Hr Hb Href. pose proof (wf_placed _ _ _ (ok_wf _ _ Hok)) as [Ht Hc Ho].
  destruct (insertBefore_inserts n ref _ Hn Href) as (c1 & c2 & Heq & ->). apply set_children_ok; [done| |].
  - split; [done| |].
    + rewrite Heq in Hc, Hn. rewrite <-Permutation_middle. by apply NoDup_cons.
    + assert (filter (λ m, m ∈ c1 ++ n :: c2) (rendering s) = filter (λ m, m ∈ children s) (rendering s)) as ->.
      { apply filter_iff_in. intros m Hm. rewrite Heq, !elem_of_app, elem_of_cons. split; [|tauto].
        intros [?|[->|?]]; [by left|done|by right]. }
      etrans; [exact Ho|]. rewrite Heq. apply sublist_app; [done|]. by apply sublist_cons.
  - intros m k Hm Hk. rewrite elem_of_app, elem_of_cons in Hm. destruct Hm as [Hm|[->|Hm]]; [|by apply Hb|];
      (eapply (wf_born _ _ _ (ok_wf _ _ Hok)); [left; rewrite Heq, elem_of_app; eauto|done]).
Qed.

Context (mapping_fresh : makes_new_nodes mapping born).

Lemma refresh_ok x s s' : ok born s → refresh mapping x s = Some s' → ok born s'.
Proof.
  intros Hok Hr. destruct (decide (x ∈ result_of s)) as [Hx|Hx].
  - destruct (refresh_evolves mapping born mapping_fresh _ x s (ok_wf _ _ Hok) Hx) as (s2 & Hs2 & He).
    rewrite Hr in Hs2. simplify_eq. unfold result_of in *. destruct He as [Hwf Ho Hl Hi Hs Hres Hm].
    split; unfold result_of; rewrite Hres; [done|]. intros y it Hy. rewrite Ho; [by apply (ok_dropped _ _ Hok)|].
    by intros ->.
  - unfold refresh in Hr. destruct (items s !! x) as [it|] eqn:Hit; [|done]. cbn [mbind option_bind] in Hr.
    rewrite (ok_dropped _ _ Hok x it Hx Hit) in Hr. by simplify_eq.
Qed.

Lemma page_step_ok s s' : ok born s → page_step s s' → ok born s'.
Proof.
  intros Hok [array o s2 Hs|x s2 Hs|n|n ref H1 H2 H3 H4].
  - destruct (call_returns mapping depends reads_index born mapping_fresh array o s Hok)
      as (script & l & s1 & D & s3 & _ & _ & Hs3 & Ho). rewrite Hs in Hs3. simplify_eq. apply Ho.
  - by eapply refresh_ok.
  - by apply remove_ok.
  - by apply insert_ok.
Qed.

Lemma page_reaches_ok s : page_reaches s → ok born s.
Proof.
  intros (c & Hc & Hb & Hs). assert (ok born (start c)) as H0 by by apply start_ok.
  induction Hs as [|s1 s2 s3 H12 _ IH]; [done|]. apply IH. by eapply page_step_ok.
Qed.

(** ** What a call shows *)

Lemma length_omap_le {A B} (f : A → option B) (l : list A) : length (omap f l) ≤ length l.
Proof. induction l as [|a l IH]; csimpl; [done|]. destruct (f a); simpl; lia. Qed.

(** A list of which nothing is left out. *)
Lemma omap_full {A B} (f : A → option B) (l : list A) :
  length (omap f l) = length l → ∀ p a, l !! p = Some a → ∃ b, f a = Some b ∧ omap f l !! p = Some b.
Proof.
  induction l as [|a l IH]; intros Hl p a' Hp; [done|]. csimpl in *.
  destruct (f a) as [b|] eqn:Hf; simpl in *.
  - destruct p as [|p]; simplify_eq/=; [by exists b|]. apply IH; [lia|done].
  - pose proof (length_omap_le f l). lia.
Qed.

Lemma shown_item array s p x :
  shown s = zip array (seq 0 (length array)) → length (result_of s) = length array → result_of s !! p = Some x →
  ∃ it v, items s !! x = Some it ∧ array !! p = Some v ∧ i_value it = v ∧ index it = p.
Proof.
  intros Hs Hl Hp. unfold shown, shown_but in Hs.
  destruct (omap_full (shown_at [] s) (result_of s)) with p x as ([v i] & Hf & Hat); [|done|].
  { rewrite Hs, length_zip_with, length_seq, Hl. lia. }
  rewrite Hs in Hat. unfold shown_at in Hf. destruct (items s !! x) as [it|]; [|done]. cbn [mbind option_bind] in Hf.
  destruct (deleted it || _); [done|]. injection Hf as <- <-. exists it, (i_value it).
  apply lookup_zip_with_Some in Hat as (v & j & [= <- <-] & Hv & [-> _]%lookup_seq). done.
Qed.

(** The array of the last call, when no item waits to be removed. *)
Lemma last_array_shown s :
  length (shown s) = length (result_of s) →
  (λ x, items s !! x ≫= arrayEntry) <$> result_of s = Some <$> (fst <$> shown s).
Proof.
  intros Hl. unfold shown, shown_but in *. apply list_eq. intros p. rewrite !list_lookup_fmap.
  destruct (result_of s !! p) as [x|] eqn:Hp.
  - destruct (omap_full (shown_at [] s) _ Hl p x Hp) as ([v i] & Hf & ->). cbn. f_equal.
    unfold shown_at in Hf. destruct (items s !! x) as [it|]; [|done]. cbn in *. unfold arrayEntry.
    destruct (deleted it); [done|]. cbn in Hf. destruct (bool_decide _); [done|]. by simplify_eq.
  - apply lookup_ge_None_1 in Hp. rewrite (lookup_ge_None_2 (omap _ _)); [done|]. lia.
Qed.

(** Updates of the array and changes of what the mapping reads. *)
Inductive data_step s : state → Prop :=
  | data_update array o s' : setChildren array o s = Some s' → data_step s s'
  | data_change x s' : refresh mapping x s = Some s' → data_step s s'.

Definition neat c s : Prop :=
  ok born s ∧ tidy (result_of s) c s ∧
  ∀ x it, x ∈ result_of s → items s !! x = Some it → made mapping reads_index it ∧ awake reads_index it.

Context (fruitful : ∀ v i old k, mapping v i old k ≠ []).

Lemma start_neat c : NoDup c → (∀ n, n ∈ c → born n = None) → neat c (start c).
Proof.
  intros. split; [by apply start_ok|]. split; [done|]. intros x it Hx. by apply not_elem_of_nil in Hx.
Qed.

Lemma neat_update c array o s s' : neat c s → setChildren array o s = Some s' → neat c s'.
Proof.
  intros (Hok & Ht & Hm) Hs.
  destruct (call_returns mapping depends reads_index born mapping_fresh array o s Hok)
    as (script & l & s1 & D & s2 & _ & _ & Hs2 & Ho). rewrite Hs in Hs2. simplify_eq.
  destruct (oc_made _ _ _ _ _ _ _ _ _ _ Ho c) as [Ht' Hm']; [by split_and!|].
  assert (result_of s2 = newMappingResult l) as Hr by (unfold result_of; by rewrite (oc_result _ _ _ _ _ _ _ _ _ _ Ho)).
  split; [apply Ho|]. by rewrite Hr.
Qed.

Lemma neat_change c x s s' : neat c s → refresh mapping x s = Some s' → neat c s'.
Proof.
  intros (Hok & Ht & Hm) Hs. pose proof (refresh_ok _ _ _ Hok Hs) as Hok'.
  destruct (decide (x ∈ result_of s)) as [Hx|Hx].
  - destruct (refresh_evolves mapping born mapping_fresh _ x s (ok_wf _ _ Hok) Hx) as (s2 & Hs2 & [_ Ho _ _ _ Hr _]).
    rewrite Hs in Hs2. simplify_eq.
    assert (result_of s2 = result_of s) as Hres by (unfold result_of; by rewrite Hr).
    destruct (wf_items _ _ _ (ok_wf _ _ Hok) x Hx) as (it & Hit & _).
    destruct (Hm x it Hx Hit) as [(j & old & k & Hn & Hj) Haw].
    destruct (refresh_tidy mapping born mapping_fresh _ c x s s2 it (ok_wf _ _ Hok) Ht Hx Hit) as [Ht' Hcase];
      [unfold nodes_of; rewrite Hn; apply fruitful|done|].
    split; [done|]. rewrite Hres. split; [done|]. intros y it2 Hy Hit2.
    destruct (decide (y = x)) as [->|Hne]; [|rewrite Ho in Hit2 by done; by apply (Hm y)].
    destruct Hcase as [[-> _]|(it' & old' & k' & Hit' & Hn' & Hv & Hi & Hd & Ha)]; [by apply (Hm x)|].
    rewrite Hit' in Hit2. simplify_eq. split.
    + exists (index it), old', k'. by rewrite Hv, Hi.
    + unfold awake. by rewrite Hv, Hd, Ha.
  - unfold refresh in Hs. destruct (items s !! x) as [it|] eqn:Hit; [|done]. cbn [mbind option_bind] in Hs.
    rewrite (ok_dropped _ _ Hok x it Hx Hit) in Hs. by simplify_eq.
Qed.

Lemma neat_reaches c s : NoDup c → (∀ n, n ∈ c → born n = None) → rtc data_step (start c) s → neat c s.
Proof.
  intros Hc Hb Hs. pose proof (start_neat c Hc Hb) as H0.
  induction Hs as [|s1 s2 s3 H12 _ IH]; [done|]. apply IH. destruct H12; [by eapply neat_update|by eapply neat_change].
Qed.
End page.

(** ** The theorems *)

Section theorems.
Context {V node : Type} `{EqDecision V, EqDecision node}.
Implicit Types (mapping : V → nat → list node → nat → list node) (depends reads_index : V → bool).

(** C4. With a mapping that makes new nodes at each call, after any history in which the
    array and what mappings read changed, children were removed and nodes that are no
    item's were inserted anywhere (the page never puts an item's nodes in another place),
    setDomNodeChildrenFromArrayMapping returns: the children are the nodes of the result's
    items in its order and then the nodes that are no item's, in theirs; the items show
    the array, each at its position, and there are as many as the array is long when there
    is no beforeRemove. *)
Theorem foreach_shows_array mapping depends reads_index born array o s :
  makes_new_nodes mapping born → page_reaches mapping depends reads_index born s →
  ∃ s', setDomNodeChildrenFromArrayMapping mapping depends reads_index array o s = Some s' ∧
    page_reaches mapping depends reads_index born s' ∧
    children s' = rendering s' ++ rest s' ∧ NoDup (children s') ∧ rest s' `sublist_of` rest s ∧
    shown s' = zip array (seq 0 (length array)) ∧
    (beforeRemove o = false → length (result_of s') = length array).
Proof.
  intros Hf Hs. pose proof (page_reaches_ok _ _ _ _ Hf s Hs) as Hok.
  destruct (call_returns mapping depends reads_index born Hf array o s Hok)
    as (script & l & s1 & D & s' & Hw & Hpr & Hs' & Ho).
  exists s'. assert (page_reaches mapping depends reads_index born s') as Hreach.
  { destruct Hs as (c & ? & ? & Hrtc). exists c. split_and!; [done..|]. eapply rtc_r; [exact Hrtc|].
    by eapply page_update. }
  assert (result_of s' = newMappingResult l) as Hr by (unfold result_of; by rewrite (oc_result _ _ _ _ _ _ _ _ _ _ Ho)).
  pose proof (placed_children _ _ (wf_placed _ _ _ (ok_wf _ _ (oc_ok _ _ _ _ _ _ _ _ _ _ Ho)))) as Hnd.
  assert (rest s' = strangers s1 (result_of s)) as Hrest.
  { unfold rest, strangers at 1, foreign. rewrite Hr. rewrite (oc_children _ _ _ _ _ _ _ _ _ _ Ho) in *.
    apply NoDup_app in Hnd as (_ & Hd & _). rewrite filter_app, filter_none by tauto. apply filter_id.
    intros n Hn Hn'. by apply (Hd n). }
  split_and!; try done.
  - rewrite Hrest. unfold rendering. rewrite Hr. apply (oc_children _ _ _ _ _ _ _ _ _ _ Ho).
  - rewrite Hrest. apply (so_strangers _ _ _ _ _ _ (pr_store _ _ _ _ _ _ _ _ _ _ _ Hpr)).
  - apply (oc_shown _ _ _ _ _ _ _ _ _ _ Ho).
  - rewrite Hr. apply (oc_full _ _ _ _ _ _ _ _ _ _ Ho).
Qed.

(** C6. What happens to the items of the last result, when no mapping reads its index,
    each call makes new nodes and the page has changed as for [foreach_shows_array]: their
    nodes are what fixUpContinuousNodeArray makes of them; an item that stays keeps its
    value, so nothing of it is mapped again, and [mapping] is called once for each new
    item; an item that goes has its computed disposed and none of its nodes is a child any
    more. *)
Theorem foreach_keeps_or_disposes mapping depends reads_index born array o s s' :
  makes_new_nodes mapping born → page_reaches mapping depends reads_index born s →
  (∀ v, reads_index v = false) →
  setDomNodeChildrenFromArrayMapping mapping depends reads_index array o s = Some s' →
  mapped s' = mapped s + length (filter (λ x, x ∉ result_of s) (result_of s')) ∧
  ∀ x it, x ∈ result_of s → items s !! x = Some it →
    ∃ it', items s' !! x = Some it' ∧
      fixUpContinuousNodeArray (nodes_of it) (children s) = Some (nodes_of it') ∧
      (x ∈ result_of s' → i_value it' = i_value it) ∧
      (x ∉ result_of s' → active it' = false ∧ ∀ n, n ∈ nodes_of it' → n ∉ children s').
Proof.
  intros Hf Hs Hnr Heq. pose proof (page_reaches_ok _ _ _ _ Hf s Hs) as Hok.
  destruct (call_returns mapping depends reads_index born Hf array o s Hok)
    as (script & l & s1 & D & s2 & Hw & Hpr & Hs2 & Ho). rewrite Heq in Hs2. simplify_eq.
  pose proof (pr_store _ _ _ _ _ _ _ _ _ _ _ Hpr) as Hst.
  assert (result_of s2 = newMappingResult l) as Hr by (unfold result_of; by rewrite (oc_result _ _ _ _ _ _ _ _ _ _ Ho)).
  destruct (so_calm _ _ _ _ _ _ Hst Hnr) as (Hc & Hm & Hfix). split.
  { rewrite (oc_mapped _ _ _ _ _ _ _ _ _ _ Ho), Hm, Hr. f_equal. by eapply unmapped_count. }
  intros x it Hx Hit. apply list_elem_of_lookup in Hx as Hp. destruct Hp as [p Hp].
  assert (p ∈ claims 0 script) as HpC.
  { rewrite (claims_all _ _ _ Hw), length_fmap, elem_of_seq. apply lookup_lt_Some in Hp. lia. }
  pose proof (Hfix p x HpC Hp) as Hfx. rewrite (nodes_at_item _ _ _ Hit) in Hfx.
  pose proof (oc_kept _ _ _ _ _ _ _ _ _ _ Ho x Hx) as Hk.
  destruct (so_old _ _ _ _ _ _ Hst x it Hit) as (it1 & Hit1 & Hv1 & _).
  destruct (oc_value _ _ _ _ _ _ _ _ _ _ Ho x it1 Hx Hit1) as (it' & Hit' & Hv').
  exists it'. rewrite (nodes_at_item _ _ _ Hit') in Hk. split_and!; [done|by rewrite Hfx, Hk|congruence|].
  rewrite Hr. intros Hout. assert (x ∈ D) as HD.
  { assert (x ∈ newMappingResult l ++ D) as Hin; [|by apply elem_of_app in Hin as [?|?]].
    erewrite call_listed by done. apply elem_of_app. by left. }
  split.
  - destruct (lo_dead _ _ _ _ _ _ _ (pr_lists _ _ _ _ _ _ _ _ _ _ _ Hpr) x HD) as (it2 & Hit2 & Ha).
    rewrite (oc_dropped _ _ _ _ _ _ _ _ _ _ Ho x HD) in Hit'. congruence.
  - intros n Hn. apply (oc_gone _ _ _ _ _ _ _ _ _ _ Ho). apply elem_of_tracked. exists x. split; [by rewrite <-Hk|done].
Qed.

(** C5. With a mapping that makes new nodes, and at least one, at each call, and without
    beforeRemove: as long as only the array and what the mapping reads change, the
    children are the concatenation of what [mapping] makes of the array's values, in
    order, in front of the children there were; a mapping that reads its index has seen
    the present position. *)
Theorem foreach_is_map mapping depends reads_index born array o c s :
  makes_new_nodes mapping born → (∀ v i old k, mapping v i old k ≠ []) →
  NoDup c → (∀ n, n ∈ c → born n = None) →
  rtc (data_step mapping depends reads_index) (start c) s → beforeRemove o = false →
  ∃ s' nodes, setDomNodeChildrenFromArrayMapping mapping depends reads_index array o s = Some s' ∧
    children s' = concat nodes ++ c ∧ length nodes = length array ∧
    ∀ p v l, array !! p = Some v → nodes !! p = Some l →
      ∃ i old k, l = mapping v i old k ∧ (reads_index v = true → i = p).
Proof.
  intros Hf Hne Hc Hb Hs Ho. pose proof (neat_reaches _ _ _ _ Hf Hne c s Hc Hb Hs) as Hneat.
  destruct (call_returns mapping depends reads_index born Hf array o s (proj1 Hneat))
    as (script & l & s1 & D & s' & _ & _ & Hs' & Hout).
  destruct (neat_update mapping depends reads_index born Hf Hne c array o s s' Hneat Hs') as (Hok' & Ht' & Hm').
  assert (result_of s' = newMappingResult l) as Hr by (unfold result_of; by rewrite (oc_result _ _ _ _ _ _ _ _ _ _ Hout)).
  pose proof (oc_full _ _ _ _ _ _ _ _ _ _ Hout Ho) as Hfull. rewrite <-Hr in Hfull.
  exists s', (nodes_at s' <$> result_of s'). split_and!; [done| |by rewrite length_fmap|].
  - rewrite Ht'. f_equal. unfold tracked. generalize (result_of s'). clear. intros ids.
    induction ids as [|x ids IH]; [done|]. csimpl. by rewrite IH.
  - intros p v nodes Hv Hn. rewrite list_lookup_fmap, fmap_Some in Hn. destruct Hn as (x & Hx & ->).
    destruct (shown_item array s' p x) as (it & v' & Hit & Hv' & <- & Hi);
      [apply (oc_shown _ _ _ _ _ _ _ _ _ _ Hout)|done|done|].
    rewrite Hv in Hv'. simplify_eq.
    destruct (Hm' x it) as [(i & old & k & Hmn & Hidx) _]; [by eapply list_elem_of_lookup_2|done|].
    exists i, old, k. rewrite (nodes_at_item _ _ _ Hit). unfold nodes_of. by rewrite Hmn.
Qed.

(** Without the limit on moves, an array whose values are those shown in another
    order: no mapping is called, and the items are the same ones. *)
Theorem foreach_reorders mapping depends reads_index born array o s :
  makes_new_nodes mapping born → page_reaches mapping depends reads_index born s →
  (∀ v, reads_index v = false) → dontLimitMoves o = true →
  length (shown s) = length (result_of s) → array ≡ₚ fst <$> shown s →
  ∃ s', setDomNodeChildrenFromArrayMapping mapping depends reads_index array o s = Some s' ∧
    mapped s' = mapped s ∧ result_of s' ≡ₚ result_of s.
Proof.
  intros Hf Hs Hnr Hdl Hfull Hperm. pose proof (page_reaches_ok _ _ _ _ Hf s Hs) as Hok.
  destruct (call_script mapping depends reads_index born Hf array o s Hok)
    as (script & l & s1 & D & s' & Hcmp & Hw & Hpr & Hs' & Ho).
  exists s'. split; [done|]. rewrite Hdl, (last_array_shown s Hfull) in Hcmp.
  apply compareArrays_permutation in Hcmp as Hall; [|by rewrite Hperm].
  assert (length (items s1) = length (items s)) as Hlen.
  { apply (pr_same _ _ _ _ _ _ _ _ _ _ _ Hpr). intros e He Hst. apply Hall; [done|congruence]. }
  assert (newMappingResult l ++ D ≡ₚ result_of s) as Hres.
  { erewrite call_listed by done. by rewrite Hlen, Nat.sub_diag, app_nil_r. }
  assert (length array ≤ length (newMappingResult l)) as Hle.
  { pose proof (oc_shown _ _ _ _ _ _ _ _ _ _ Ho) as Hsh. unfold shown, result_of in Hsh.
    rewrite (oc_result _ _ _ _ _ _ _ _ _ _ Ho) in Hsh.
    assert (length (zip array (seq 0 (length array))) = length array) as Hz by (rewrite length_zip_with, length_seq; lia).
    rewrite <-Hsh in Hz. rewrite <-Hz. apply length_omap_le. }
  assert (D = []) as ->.
  { apply Permutation_length in Hres, Hperm. rewrite length_app in Hres. rewrite length_fmap in Hperm.
    apply nil_length_inv. lia. }
  rewrite app_nil_r in Hres. split.
  - rewrite (oc_mapped _ _ _ _ _ _ _ _ _ _ Ho).
    destruct (so_calm _ _ _ _ _ _ (pr_store _ _ _ _ _ _ _ _ _ _ _ Hpr) Hnr) as (_ & -> & _).
    assert (unmapped_in s1 (newMappingResult l) = 0) as ->; [|lia].
    erewrite unmapped_count by done. rewrite filter_none; [done|]. intros x. rewrite Hres. tauto.
  - unfold result_of at 1. by rewrite (oc_result _ _ _ _ _ _ _ _ _ _ Ho).
Qed.
End theorems.

(** ** An example *)

(** Nodes that remember the call that made them, and a number. *)
Definition demo_node : Type := option nat * nat.
Definition demo_mapping (v i : nat) (old : list demo_node) (k : nat) : list demo_node :=
  [(Some k, 2 * v); (Some k, 2 * v + 1)].
Definition demo_depends (v : nat) : bool := Nat.even v.
Definition demo_page : Type := state (V := nat) (node := demo_node).
Definition demo_set (array : list nat) (o : options) (s : demo_page) : option demo_page :=
  setDomNodeChildrenFromArrayMapping demo_mapping demo_depends (λ _, false) array o s.
Definition demo_options : options := Options false false false false false.
Definition demo_start : demo_page := start ([(None, 0)] : list demo_node).
Definition demo_shown : demo_page := default demo_start (demo_set [1; 2; 3] demo_options demo_start).
(** The page has removed the second node of the first item. *)
Definition demo_state : demo_page := set_children (removeNode (Some 0, 3) (children demo_shown)) demo_shown.

Lemma demo_new : makes_new_nodes demo_mapping fst.
Proof.
  intros v i old k. split.
  - apply NoDup_cons. split; [|apply NoDup_singleton]. intros [=]%list_elem_of_singleton. lia.
  - intros n [->|[->|[]%not_elem_of_nil]%elem_of_cons]%elem_of_cons; done.
Qed.

Lemma demo_update : demo_set [1; 2; 3] demo_options demo_start = Some demo_shown.
Proof. vm_compute. reflexivity. Qed.

Lemma demo_reaches : page_reaches demo_mapping demo_depends (λ _, false) fst demo_state.
Proof.
  exists [(None, 0)]. split_and!; [apply NoDup_singleton|by intros n ->%list_elem_of_singleton|].
  eapply rtc_l; [eapply page_update, demo_update|]. eapply rtc_l; [|apply rtc_refl].
  apply (page_remove _ _ _ _ demo_shown (Some 0, 3)).
Qed.

Lemma foreach_shows_array_witness :
  ∃ s', demo_set [3; 1; 4] demo_options demo_state = Some s' ∧ shown s' = [(3, 0); (1, 1); (4, 2)].
Proof.
  destruct (foreach_shows_array demo_mapping demo_depends (λ _, false) fst [3; 1; 4] demo_options demo_state
              demo_new demo_reaches) as (s' & H & _ & _ & _ & _ & Hs & _).
  exists s'. split; [exact H|exact Hs].
Defined.

Definition demo_next : demo_page := default demo_state (demo_set [3; 1; 4] demo_options demo_state).

Lemma demo_next_set : demo_set [3; 1; 4] demo_options demo_state = Some demo_next.
Proof. vm_compute. reflexivity. Qed.

Lemma foreach_keeps_or_disposes_witness :
  mapped demo_next = mapped demo_state + length (filter (λ x, x ∉ result_of demo_state) (result_of demo_next)).
Proof.
  apply (foreach_keeps_or_disposes demo_mapping demo_depends (λ _, false) fst [3; 1; 4] demo_options
    demo_state demo_next demo_new demo_reaches (λ _, eq_refl) demo_next_set).
Defined.

Lemma foreach_is_map_witness :
  ∃ s' nodes, demo_set [3; 1; 4] demo_options demo_shown = Some s' ∧ children s' = concat nodes ++ [(None, 0)] ∧
    length nodes = 3.
Proof.
  destruct (foreach_is_map demo_mapping demo_depends (λ _, false) fst [3; 1; 4] demo_options [(None, 0)] demo_shown
              demo_new) as (s' & nodes & H1 & H2 & H3 & _).
  - done.
  - apply NoDup_singleton.
  - by intros n ->%list_elem_of_singleton.
  - eapply rtc_once, data_update, demo_update.
  - done.
  - exists s', nodes. split; [exact H1|split; [exact H2|exact H3]].
Defined.

Example demo_children :
  children <$> demo_set [3; 1; 4] demo_options demo_state =
  Some [(Some 2, 6); (Some 2, 7); (Some 0, 2); (Some 3, 8); (Some 3, 9); (None, 0)].
Proof. vm_compute. reflexivity. Qed.

Lemma foreach_reorders_witness :
  ∃ s', demo_set [3; 1; 2] (Options true false false false false) demo_state = Some s' ∧ mapped s' = 3.
Proof.
  destruct (foreach_reorders demo_mapping demo_depends (λ _, false) fst [3; 1; 2]
              (Options true false false false false) demo_state demo_new demo_reaches (λ _, eq_refl) eq_refl)
    as (s' & H1 & H2 & _).
  - reflexivity.
  - vm_compute. apply (Permutation_cons_append [1; 2] 3).
  - exists s'. split; [exact H1|exact H2].
Defined.
