(* ===== verification/KoToJS.v ===== *)
(** * knockout: plain copies of view models

    Models ko.toJS of knockout-3.4.2.debug.js: mapJsObjectGraph over a graph of shared
    objects, which may have cycles, with observables anywhere in it.  The objects of the
    page are a list, named by position, as are its observables with their current values
    (reading one has no effect on the graph); the copies are a second list. *)
From stdpp Require Import base strings list.
From Stdlib Require Import ZArith Lia.
From S2P Require Import Prelude.

Local Open Scope nat_scope.

(** ** Graphs *)

(** [Func]: a function that is no observable. *)
Inductive js := Undefined | Null | Bool (b : bool) | Num (z : Z) | Str (s : string) | Func (f : nat) | Obs (x : nat) | Ref (o : nat).

(** [Opaque]: a regular expression, a date, a wrapped string, number or boolean.  The
    properties of an object are those [for in] finds; an array has items and perhaps a
    property [toJSON]. *)
Inductive node := Plain (props : list (string * js)) | Array (items : list js) (toJSON : option js) | Opaque.
Record graph := Graph { objects : list node; observables : list js }.

Inductive key := Name (s : string) | Index (i : nat).
(** A value of the copy: [Out], an object of the copy; [Same], an object of the page. *)
Inductive out := OUndefined | ONull | OBool (b : bool) | ONum (z : Z) | OStr (s : string) | OFunc (f : nat) | OObs (x : nat)
  | Same (o : nat) | Out (n : nat).
Record copy := Copy { is_array : bool; properties : list (key * out) }.

(** [typeof v == 'function'] *)
Definition is_function (v : js) : bool := match v with Func _ | Obs _ => true | _ => false end.
Definition key_of_item (i : nat) (v : js) : key * js := (Index i, v).
(** [visitPropertiesOrArrayEntries] *)
Definition entries (nd : node) : list (key * js) :=
  match nd with
  | Plain props => (λ p, (Name (fst p), snd p)) <$> props
  | Array items toJSON => imap key_of_item items ++ match toJSON with
      | Some f => if is_function f then [(Name "toJSON", f)] else []
      | None => []
      end
  | Opaque => []
  end.

(** [objectLookup] *)
Abbreviation lookup_table := (list (nat * nat)).
Definition saved (t : lookup_table) (o : nat) : option nat := snd <$> List.find (λ kv, fst kv =? o) t.
Definition save (o n : nat) (t : lookup_table) : lookup_table :=
  match saved t o with
  | Some _ => (λ kv, if fst kv =? o then (o, n) else kv) <$> t
  | None => t ++ [(o, n)]
  end.

Record mapping := Mapping { visited : lookup_table; copies : list copy }.

Section graph.
Context (G : graph).

Definition maxNestedObservableDepth : nat := 10.
Fixpoint unwrap_from (i : nat) (v : js) : js :=
  match i, v with
  | S i', Obs x => unwrap_from i' (default Undefined (observables G !! x))
  | _, _ => v
  end.
(** The callback of [toJS]. *)
Definition unwrap (v : js) : js := unwrap_from maxNestedObservableDepth v.

(** The object of a value that can have properties. *)
Definition canHaveProperties (v : js) : option (nat * node) :=
  match v with
  | Ref o => match objects G !! o with Some Opaque | None => None | Some nd => Some (o, nd) end
  | _ => None
  end.

(** A value that is passed on as it is. *)
Definition as_it_is (v : js) : out :=
  match v with
  | Undefined => OUndefined | Null => ONull | Bool b => OBool b | Num z => ONum z | Str s => OStr s
  | Func f => OFunc f | Obs x => OObs x | Ref o => Same o
  end.

Definition put_property (n : nat) (k : key) (q : out) (st : mapping) : mapping :=
  Mapping (visited st) (alter (λ c, Copy (is_array c) (properties c ++ [(k, q)])) n (copies st)).

Section visitor.
(** [mapJsObjectGraph] of a property's value *)
Context (rec : js → mapping → option (mapping * out)).

(** The visitor, for the copy [n] and one entry. *)
Definition visit (n : nat) (k : key) (v : js) (st : mapping) : option mapping :=
  let p := unwrap v in
  match p with
  | Bool _ | Num _ | Str _ | Func _ | Obs _ => Some (put_property n k (as_it_is p) st)
  | Undefined | Null | Ref _ =>
      match (match p with Ref o => saved (visited st) o | _ => None end) with
      | Some m => Some (put_property n k (Out m) st)
      | None => match rec p st with Some (st', q) => Some (put_property n k q st') | None => None end
      end
  end.
Fixpoint visit_all (n : nat) (l : list (key * js)) (st : mapping) : option mapping :=
  match l with
  | [] => Some st
  | (k, v) :: l' => match visit n k v st with Some st' => visit_all n l' st' | None => None end
  end.
End visitor.

Definition new_copy (o : nat) (nd : node) (st : mapping) : mapping :=
  Mapping (save o (length (copies st)) (visited st))
    (copies st ++ [Copy (match nd with Array _ _ => true | _ => false end) []]).

(** [None]: the recursion is deeper than [fuel]. *)
Fixpoint mapJsObjectGraph (fuel : nat) (rootObject : js) (st : mapping) : option (mapping * out) :=
  match fuel with
  | 0 => None
  | S fuel' =>
      let v := unwrap rootObject in
      match canHaveProperties v with
      | None => Some (st, as_it_is v)
      | Some (o, nd) =>
          let n := length (copies st) in
          match visit_all (mapJsObjectGraph fuel') n (entries nd) (new_copy o nd st) with
          | Some st' => Some (st', Out n)
          | None => None
          end
      end
  end.

Definition toJS (rootObject : js) : option (mapping * out) :=
  mapJsObjectGraph (S (length (objects G))) rootObject (Mapping [] []).
End graph.
