(* ===== verification/KoToJSFacts.v ===== *)
(** * knockout: plain copies of view models are copies

    ko.toJS ends on every graph, also with cycles, and what it returns is the graph that
    can be reached, with the observables replaced by what they hold. *)
From stdpp Require Import base strings list sets.
From Stdlib Require Import ZArith Lia.
From S2P Require Import Prelude KoToJS.

Local Open Scope nat_scope.

Section graph.
Context (G : graph) (root : js).
Implicit Types (st : mapping) (t : lookup_table) (v : js).

#[local] Abbreviation unwrap := (unwrap G).

(** The objects that the root leads to, through observables and properties. *)
Inductive reaches : nat → Prop :=
  | reaches_root o : unwrap root = Ref o → reaches o
  | reaches_property o nd k v o' :
      reaches o → objects G !! o = Some nd → (k, v) ∈ entries nd → unwrap v = Ref o' → reaches o'.

(** What stands in the copy for a value. *)
Definition image t v (q : out) : Prop :=
  match unwrap v with
  | Ref o => match canHaveProperties G (Ref o) with Some _ => ∃ n, (o, n) ∈ t ∧ q = Out n | None => q = Same o end
  | p => q = as_it_is p
  end.

Definition property_of t (e : key * js) (p : key * out) : Prop := fst p = fst e ∧ image t (snd e) (snd p).
Definition copied t (nd : node) (c : copy) : Prop :=
  is_array c = (match nd with Array _ _ => true | _ => false end) ∧ Forall2 (property_of t) (entries nd) (properties c).

(** The copies are numbered in the order of the table; all are complete but those of the
    objects that are being visited. *)
Record ok (open : list nat) st : Prop := {
  ok_keys : NoDup (visited st).*1;
  ok_numbers : (visited st).*2 = seq 0 (length (copies st));
  ok_objects o : o ∈ (visited st).*1 → reaches o ∧ ∃ nd, canHaveProperties G (Ref o) = Some (o, nd);
  ok_done o n : (o, n) ∈ visited st → o ∉ open →
    ∃ nd c, objects G !! o = Some nd ∧ copies st !! n = Some c ∧ copied (visited st) nd c
}.

(** The table grows, and the copies of some objects stay. *)
Record grows (keeps : nat → Prop) st st' : Prop := {
  gr_table : ∃ l, visited st' = visited st ++ l;
  gr_keeps o n : keeps o → (o, n) ∈ visited st → copies st' !! n = copies st !! n
}.

Lemma grows_refl keeps st : grows keeps st st.
Proof. split; [exists []; by rewrite app_nil_r | done]. Qed.
Lemma grows_trans keeps st st' st'' : grows keeps st st' → grows keeps st' st'' → grows keeps st st''.
Proof.
  intros [[l Hl] H] [[l' Hl'] H']. split; [exists (l ++ l'); by rewrite Hl', Hl, app_assoc|].
  intros o n Ho Hn. rewrite (H' o n Ho), (H o n Ho Hn); [done|]. rewrite Hl. apply elem_of_app. by left.
Qed.
Lemma grows_in keeps st st' x : grows keeps st st' → x ∈ visited st → x ∈ visited st'.
Proof. intros [[l ->] _] H. apply elem_of_app. by left. Qed.

Lemma image_mono t t' v q : t ⊆ t' → image t v q → image t' v q.
Proof.
  intros Ht. unfold image. destruct (unwrap v); try done. destruct (canHaveProperties _ _); [|done].
  intros (n & Hn & ->). exists n. by split; [apply Ht|].
Qed.
Lemma copied_mono t t' nd c : t ⊆ t' → copied t nd c → copied t' nd c.
Proof.
  intros Ht [H1 H2]. split; [done|]. eapply Forall2_impl; [exact H2|]. intros e p [E Hi]. split; [done | by eapply image_mono].
Qed.

Lemma saved_spec t o : NoDup t.*1 → ∀ n, saved t o = Some n ↔ (o, n) ∈ t.
Proof.
  intros Hd n. unfold saved. induction t as [|[o' n'] t IH]; simpl; [by split; [|intros ?%elem_of_nil]|].
  apply NoDup_cons in Hd as [Ho Hd]. rewrite elem_of_cons. destruct (Nat.eqb_spec o' o) as [->|Hne]; simpl.
  - split; [intros [= ->]; by left|]. intros [[= ->]|Hin]; [done|]. exfalso. apply Ho. apply list_elem_of_fmap. by exists (o, n).
  - rewrite (IH Hd). split; [by right|]. intros [[= -> ->]|Hin]; done.
Qed.
Lemma saved_none t o : NoDup t.*1 → saved t o = None ↔ o ∉ t.*1.
Proof.
  intros Hd. rewrite list_elem_of_fmap. split.
  - intros Hn ([o' n] & -> & Hin). apply (saved_spec t _ Hd) in Hin. simpl in Hn. congruence.
  - intros Hn. destruct (saved t o) as [n|] eqn:E; [|done]. exfalso. apply Hn. exists (o, n). split; [done|]. by apply saved_spec.
Qed.
Lemma save_new t o n : NoDup t.*1 → o ∉ t.*1 → save o n t = t ++ [(o, n)].
Proof. intros Hd Ho. unfold save. by rewrite (proj2 (saved_none t o Hd) Ho). Qed.

Lemma unwrap_twice v : match unwrap v with Obs _ => True | p => unwrap p = p end.
Proof. by destruct (unwrap v). Qed.

Lemma numbers_inj t : NoDup t.*1 → t.*2 = seq 0 (length t) → ∀ o o' n, (o, n) ∈ t → (o', n) ∈ t → o = o'.
Proof.
  intros Hd Hs o o' n H H'. apply list_elem_of_lookup in H as [i Hi]. apply list_elem_of_lookup in H' as [j Hj].
  assert (E : ∀ i o n, t !! i = Some (o, n) → n = i).
  { intros i0 o0 n0 Hi0. assert (Hn : t.*2 !! i0 = Some n0) by by rewrite list_lookup_fmap, Hi0.
    rewrite Hs in Hn. apply lookup_seq in Hn as [-> _]. done. }
  pose proof (E _ _ _ Hi) as E1. pose proof (E _ _ _ Hj) as E2. subst i j. congruence.
Qed.

(** ** One property *)

Lemma put_lookup n k q st n' :
  copies (put_property n k q st) !! n' =
    if decide (n = n') then (λ c, Copy (is_array c) (properties c ++ [(k, q)])) <$> copies st !! n' else copies st !! n'.
Proof. unfold put_property. cbn [copies]. rewrite list_lookup_alter. case_decide; by subst. Qed.

(** A property is put on the copy of an object that is being visited. *)
Lemma put_ok open o n k q st :
  ok open st → o ∈ open → (o, n) ∈ visited st → ok open (put_property n k q st).
Proof.
  intros [H1 H2 H3 H4] Ho Hn. assert (Hlen : length (copies st) = length (visited st)).
  { rewrite <- (length_seq (length (copies st)) 0), <- H2. apply length_fmap. }
  split; cbn [put_property visited]; [done| |done|].
  - unfold put_property. cbn [copies]. by rewrite length_alter.
  - intros o' n' Hin Ho'. destruct (H4 o' n' Hin Ho') as (nd & c & E1 & E2 & E3). exists nd, c. split; [done|]. split; [|done].
    rewrite put_lookup, decide_False; [done|]. intros ->. apply Ho'.
    rewrite (numbers_inj (visited st) H1 ltac:(by rewrite H2, Hlen) o' o n' Hin Hn). done.
Qed.
Lemma visited_bound open st : ok open st → length (visited st) ≤ length (objects G).
Proof.
  intros [H1 _ H3 _]. rewrite <- (length_fmap fst (visited st)), <- (length_seq (length (objects G)) 0).
  apply submseteq_length, NoDup_submseteq; [done|]. intros o Ho. apply elem_of_seq.
  destruct (H3 o Ho) as [_ [nd Hnd]]. simpl in Hnd. destruct (objects G !! o) eqn:E; [|done]. apply lookup_lt_Some in E. lia.
Qed.

(** What a call does to a state: it ends, with an image of the value. *)
Definition maps_to (open : list nat) (rec : js → mapping → option (mapping * out)) v st : Prop :=
  ∃ st' q, rec v st = Some (st', q) ∧ ok open st' ∧ grows (λ o, o ∈ open) st st' ∧ image (visited st') v q.

(** A recursive call that may be made. *)
Definition callable v st : Prop := ∀ o, unwrap v = Ref o → reaches o ∧ o ∉ (visited st).*1.

Section visits.
Context (fuel : nat) (rec : js → mapping → option (mapping * out)).
Context (Hrec : ∀ open v st, ok open st → callable v st → length (objects G) < fuel + length (visited st) → maps_to open rec v st).

(** The copies of the other objects that are being visited stay. *)
Definition others (open : list nat) (o : nat) : nat → Prop := λ o', o' ∈ open ∧ o' ≠ o.

Lemma put_grows open o n k q st : ok open st → (o, n) ∈ visited st → grows (others open o) st (put_property n k q st).
Proof.
  intros H Hn. split; [exists []; by rewrite app_nil_r|]. intros o' n' [_ Hne] Hn'.
  rewrite put_lookup, decide_False; [done|]. intros ->. apply Hne.
  apply (numbers_inj (visited st) (ok_keys _ _ H)) with n'; [|done..].
  rewrite (ok_numbers _ _ H). f_equal. by rewrite <- (length_seq (length (copies st)) 0), <- (ok_numbers _ _ H), length_fmap.
Qed.

Lemma visit_spec open o nd n k v st :
  ok open st → o ∈ open → (o, n) ∈ visited st → objects G !! o = Some nd → reaches o → (k, v) ∈ entries nd →
  length (objects G) < fuel + length (visited st) →
  ∃ st' q, visit G rec n k v st = Some st' ∧ ok open st' ∧ grows (others open o) st st' ∧ image (visited st') v q ∧
    copies st' !! n = (λ c, Copy (is_array c) (properties c ++ [(k, q)])) <$> copies st !! n.
Proof.
  intros Hok Ho Hn Hnd Hr Hin Hf.
  assert (Hput : ∀ q, image (visited st) v q → ∃ st' q', Some (put_property n k q st) = Some st' ∧ ok open st' ∧
    grows (others open o) st st' ∧ image (visited st') v q' ∧
    copies st' !! n = (λ c, Copy (is_array c) (properties c ++ [(k, q')])) <$> copies st !! n).
  { intros q Hq. exists (put_property n k q st), q. split; [done|]. split; [by eapply put_ok|].
    split; [by apply put_grows|]. split; [done|]. by rewrite put_lookup, decide_True. }
  assert (Hcall : ∀ p, p = unwrap v → unwrap p = p → (∀ o', p = Ref o' → o' ∉ (visited st).*1) →
    ∃ st' q, match rec p st with Some (st1, q) => Some (put_property n k q st1) | None => None end = Some st' ∧ ok open st' ∧
      grows (others open o) st st' ∧ image (visited st') v q ∧
      copies st' !! n = (λ c, Copy (is_array c) (properties c ++ [(k, q)])) <$> copies st !! n).
  { intros p Ep Ei Hv. destruct (Hrec open p st Hok) as (st1 & q & -> & Hok1 & Hg & Hi); [|done|].
    - intros o' Eo'. rewrite Ei in Eo'. split; [|by apply Hv]. eapply reaches_property; try done. by rewrite <- Ep.
    - assert (Hn1 : (o, n) ∈ visited st1) by by eapply grows_in.
      exists (put_property n k q st1), q. split; [done|]. split; [by eapply put_ok|]. split.
      + eapply grows_trans; [|by apply put_grows]. destruct Hg as [Ht Hk]. split; [done|]. intros o' n' [Ho' _]. by apply Hk.
      + split; [|by rewrite put_lookup, decide_True, (gr_keeps _ _ _ Hg o n Ho Hn)].
        unfold image in *. rewrite Ei in Hi. by rewrite <- Ep. }
  unfold visit. fold unwrap. pose proof (unwrap_twice v) as Hu.
  destruct (unwrap v) as [| |b|z|x|f|x|o'] eqn:Ev.
  all: try (apply Hput; unfold image; by rewrite Ev).
  1,2: by apply Hcall.
  destruct (saved (visited st) o') as [m|] eqn:Es.
  - apply Hput. unfold image. rewrite Ev. apply (saved_spec _ _ (ok_keys _ _ Hok)) in Es.
    destruct (ok_objects _ _ Hok o') as [_ [nd' Hnd']]; [apply list_elem_of_fmap; by exists (o', m)|]. rewrite Hnd'. by exists m.
  - apply Hcall; [done|done|]. intros o2 [= <-]. by apply (saved_none _ _ (ok_keys _ _ Hok)).
Qed.

Lemma grows_length keeps st st' : grows keeps st st' → length (visited st) ≤ length (visited st').
Proof. intros [[l ->] _]. rewrite length_app. lia. Qed.

Lemma visit_all_spec open o nd n l st c :
  ok open st → o ∈ open → (o, n) ∈ visited st → objects G !! o = Some nd → reaches o → l ⊆ entries nd →
  length (objects G) < fuel + length (visited st) → copies st !! n = Some c →
  ∃ st' props, visit_all G rec n l st = Some st' ∧ ok open st' ∧ grows (others open o) st st' ∧
    copies st' !! n = Some (Copy (is_array c) (properties c ++ props)) ∧ Forall2 (property_of (visited st')) l props.
Proof.
  intros Hok Ho Hn Hnd Hr. revert st c Hok Hn. induction l as [|[k v] l IH]; intros st c Hok Hn Hl Hf Hc.
  - exists st, []. split; [done|]. split; [done|]. split; [apply grows_refl|]. rewrite app_nil_r. by destruct c.
  - destruct (visit_spec open o nd n k v st) as (st1 & q & E & Hok1 & Hg1 & Hi & Hc1); try done; [apply Hl; by left|].
    simpl. rewrite E. rewrite Hc in Hc1. simpl in Hc1.
    assert (Hf1 : length (objects G) < fuel + length (visited st1)) by (pose proof (grows_length _ _ _ Hg1); lia).
    destruct (IH st1 _ Hok1 (grows_in _ _ _ _ Hg1 Hn) (λ x Hx, Hl x (list_elem_of_further _ _ _ Hx)) Hf1 Hc1)
      as (st2 & props & E2 & Hok2 & Hg2 & Hc2 & Hp).
    exists st2, ((k, q) :: props). split; [done|]. split; [done|]. split; [by eapply grows_trans|]. split.
    + rewrite Hc2. simpl. by rewrite <- app_assoc.
    + constructor; [|done]. split; [done|]. simpl. eapply image_mono; [|exact Hi]. intros x. by eapply grows_in.
Qed.
End visits.

(** A new copy, of an object that is visited from now on. *)
Lemma new_copy_ok open o nd st :
  ok open st → reaches o → canHaveProperties G (Ref o) = Some (o, nd) → o ∉ (visited st).*1 →
  let st1 := new_copy o nd st in
  ok (o :: open) st1 ∧ visited st1 = visited st ++ [(o, length (copies st))] ∧
  grows (λ o', o' ∈ open) st st1 ∧
  copies st1 !! length (copies st) = Some (Copy (match nd with Array _ _ => true | _ => false end) []).
Proof.
  intros Hok Hr Hnd Ho st1. pose proof Hok as [H1 H2 H3 H4].
  assert (Ev : visited st1 = visited st ++ [(o, length (copies st))]) by by apply save_new.
  assert (Hlt : ∀ o' n', (o', n') ∈ visited st → n' < length (copies st)).
  { intros o' n' Hin. assert (Hn : n' ∈ (visited st).*2) by (apply list_elem_of_fmap; by exists (o', n')).
    rewrite H2 in Hn. apply elem_of_seq in Hn. lia. }
  split; [split|].
  - rewrite Ev, fmap_app. apply NoDup_app. split; [done|]. split; [|apply NoDup_singleton].
    intros x Hx ->%list_elem_of_singleton. done.
  - rewrite Ev, fmap_app, H2. unfold st1, new_copy. cbn [copies]. rewrite length_app. simpl. by rewrite seq_app.
  - intros o'. rewrite Ev, fmap_app, elem_of_app. intros [Hin|Hin]; [by apply H3|].
    apply list_elem_of_singleton in Hin. simpl in Hin. subst o'. by split; [|exists nd].
  - intros o' n'. rewrite Ev. intros [Hin|Hin]%elem_of_app Hno.
    + destruct (H4 o' n' Hin) as (nd' & c & E1 & E2 & E3); [intros ?; apply Hno; by right|]. exists nd', c.
      split; [done|]. split; [by apply lookup_app_l_Some|]. eapply copied_mono; [|exact E3]. intros x Hx. rewrite ?Ev. apply elem_of_app. by left.
    + apply list_elem_of_singleton in Hin. injection Hin as -> ->. destruct Hno. by left.
  - split; [done|]. split; [|by apply list_lookup_middle]. split; [by exists [(o, length (copies st))]|].
    intros o' n' _ Hin. apply lookup_app_l. by eapply Hlt.
Qed.

(** Once all its properties are there the object is no longer being visited. *)
Lemma close_ok open o nd n c st :
  ok (o :: open) st → (o, n) ∈ visited st → objects G !! o = Some nd → copies st !! n = Some c → copied (visited st) nd c → ok open st.
Proof.
  intros [H1 H2 H3 H4] Hn Hnd Hc Hcop. split; [done..|]. intros o' n' Hin Hno. destruct (decide (o' = o)) as [->|Hne].
  - assert (n' = n) as ->.
    { pose proof (proj2 (saved_spec _ o H1 n) Hn). pose proof (proj2 (saved_spec _ o H1 n') Hin). congruence. }
    by exists nd, c.
  - apply (H4 o' n' Hin). by intros [?|?]%elem_of_cons.
Qed.

Lemma map_spec fuel open v st :
  ok open st → callable v st → length (objects G) < fuel + length (visited st) → maps_to open (mapJsObjectGraph G fuel) v st.
Proof.
  revert open v st. induction fuel as [|fuel IH]; intros open v st Hok Hv Hf.
  { pose proof (visited_bound open st Hok). lia. }
  unfold maps_to. cbn [mapJsObjectGraph]. fold unwrap.
  destruct (canHaveProperties G (unwrap v)) as [[o nd]|] eqn:Hnd.
  - assert (Ev : unwrap v = Ref o ∧ objects G !! o = Some nd).
    { unfold canHaveProperties in Hnd. destruct (unwrap v); try done. destruct (objects G !! o0) as [[]|] eqn:E; try done; by injection Hnd as <- <-. }
    destruct Ev as [Ev Eo]. destruct (Hv o Ev) as [Hr Hno]. rewrite Ev in Hnd.
    destruct (new_copy_ok open o nd st Hok Hr Hnd Hno) as (Hok1 & Ev1 & Hg1 & Hc1).
    set (st1 := new_copy o nd st) in *. set (n := length (copies st)) in *.
    assert (Hn1 : (o, n) ∈ visited st1) by (rewrite Ev1; apply elem_of_app; right; by left).
    assert (Hf1 : length (objects G) < fuel + length (visited st1)) by (rewrite Ev1, length_app; simpl; lia).
    destruct (visit_all_spec fuel (mapJsObjectGraph G fuel) IH (o :: open) o nd n (entries nd) st1 _ Hok1 (list_elem_of_here _ _)
      Hn1 Eo Hr (reflexivity _) Hf1 Hc1) as (st2 & props & -> & Hok2 & Hg2 & Hc2 & Hp).
    assert (Hn2 : (o, n) ∈ visited st2) by by eapply grows_in.
    exists st2, (Out n). split; [done|]. split; [|split].
    + by eapply close_ok.
    + split.
      * destruct Hg1 as [[l1 E1] _], Hg2 as [[l2 E2] _]. exists (l1 ++ l2). by rewrite E2, E1, app_assoc.
      * intros o' n' Ho' Hin. rewrite (gr_keeps _ _ _ Hg2 o' n'), (gr_keeps _ _ _ Hg1 o' n'); [done..| |by eapply grows_in].
        split; [by right|]. intros ->. apply Hno, list_elem_of_fmap. by exists (o, n').
    + unfold image. rewrite Ev, Hnd. by exists n.
  - exists st, (as_it_is (unwrap v)). split; [done|]. split; [done|]. split; [apply grows_refl|]. unfold image.
    destruct (unwrap v); try done. by rewrite Hnd.
Qed.

Lemma toJS_visits :
  ∃ st q, toJS G root = Some (st, q) ∧ image (visited st) root q ∧
    NoDup (visited st).*1 ∧ (visited st).*2 = seq 0 (length (copies st)) ∧
    (∀ o, o ∈ (visited st).*1 ↔ reaches o ∧ ∃ nd, canHaveProperties G (Ref o) = Some (o, nd)) ∧
    (∀ o n, (o, n) ∈ visited st → ∃ nd c, objects G !! o = Some nd ∧ copies st !! n = Some c ∧ copied (visited st) nd c).
Proof.
  destruct (map_spec (S (length (objects G))) [] root (Mapping [] [])) as (st & q & E & Hok & _ & Hi).
  - split; simpl; try done; [apply NoDup_nil_2 | by intros ? ?%elem_of_nil | by intros ? ? ?%elem_of_nil].
  - intros o Ho. split; [by apply reaches_root | apply not_elem_of_nil].
  - simpl. lia.
  - exists st, q. split; [exact E|]. split; [done|]. destruct Hok as [H1 H2 H3 H4]. split; [done|]. split; [done|].
    assert (H5 : ∀ o n, (o, n) ∈ visited st → ∃ nd c, objects G !! o = Some nd ∧ copies st !! n = Some c ∧ copied (visited st) nd c).
    { intros o n Hin. apply (H4 o n Hin), not_elem_of_nil. }
    split; [|done]. intros o. split; [apply H3|]. intros [Hr [nd Hnd]]. revert nd Hnd.
    assert (Himg : ∀ v q', image (visited st) v q' → ∀ o nd, unwrap v = Ref o → canHaveProperties G (Ref o) = Some (o, nd) → o ∈ (visited st).*1).
    { intros v q' Hv o' nd Eo Hnd. unfold image in Hv. rewrite Eo, Hnd in Hv. destruct Hv as (n & Hn & _).
      apply list_elem_of_fmap. by exists (o', n). }
    induction Hr as [o Ho|o nd0 k v o' Hr IH Hnd0 Hin Hv]; intros nd Hnd; [by eapply Himg|].
    assert (Hc : o ∈ (visited st).*1).
    { apply (IH nd0). simpl. rewrite Hnd0. destruct nd0; [done|done|by apply elem_of_nil in Hin]. }
    apply list_elem_of_fmap in Hc as ([o1 n] & -> & Hin1). destruct (H5 o1 n Hin1) as (nd1 & c & E1 & _ & _ & Hp).
    simpl in Hnd0. rewrite Hnd0 in E1. injection E1 as <-. apply list_elem_of_lookup in Hin as [i Hi'].
    destruct (Forall2_lookup_l _ _ _ _ _ Hp Hi') as ([k' q'] & _ & _ & Hq). by eapply Himg.
Qed.

(** ** What a copy is, said without the functions of the code *)

(** [w] is reached from [v] by reading [n] observables. *)
Inductive follows : nat → js → js → Prop :=
  | follows_none v : follows 0 v v
  | follows_read n x w : follows n (default Undefined (observables G !! x)) w → follows (S n) (Obs x) w.
(** The value in the observable [v], in an observable in it and so on, at most ten deep;
    any other value is its own. *)
Definition holds v w : Prop := ∃ n, n ≤ 10 ∧ follows n v w ∧ (n = 10 ∨ ∀ x, w ≠ Obs x).

Definition has_properties (o : nat) : Prop :=
  match objects G !! o with Some (Plain _) | Some (Array _ _) => True | _ => False end.
Definition holds_function v : Prop := ∃ x, v = Func x ∨ v = Obs x.
(** [v] is in a property of [nd]. *)
Definition has_value (nd : node) v : Prop :=
  match nd with
  | Plain props => v ∈ props.*2
  | Array items toJSON => v ∈ items ∨ toJSON = Some v ∧ holds_function v
  | Opaque => False
  end.
Inductive led_to : nat → Prop :=
  | led_root o : holds root (Ref o) → led_to o
  | led_property o nd v o' : led_to o → objects G !! o = Some nd → has_value nd v → holds v (Ref o') → led_to o'.

(** The value [q] stands for [v], when the objects are copied as the table [t] says. *)
Definition stands_for t v (q : out) : Prop :=
  ∃ w, holds v w ∧
    match w with
    | Undefined => q = OUndefined | Null => q = ONull | Bool b => q = OBool b | Num z => q = ONum z
    | Str x => q = OStr x | Func f => q = OFunc f | Obs x => q = OObs x
    | Ref o => has_properties o ∧ (∃ n, (o, n) ∈ t ∧ q = Out n) ∨ ¬ has_properties o ∧ q = Same o
    end.
Definition is_copy t (nd : node) (c : copy) : Prop :=
  match nd with
  | Plain props =>
      is_array c = false ∧ Forall2 (λ p e, fst e = Name (fst p) ∧ stands_for t (snd p) (snd e)) props (properties c)
  | Array items toJSON =>
      is_array c = true ∧ ∃ own extra, properties c = own ++ extra ∧ length own = length items ∧
        (∀ i v, items !! i = Some v → ∃ q, own !! i = Some (Index i, q) ∧ stands_for t v q) ∧
        ((∃ v q, toJSON = Some v ∧ holds_function v ∧ extra = [(Name "toJSON", q)] ∧ stands_for t v q) ∨
         (∀ v, toJSON = Some v → ¬ holds_function v) ∧ extra = [])
  | Opaque => False
  end.

Lemma unwrap_from_follows n v : ∃ m, m ≤ n ∧ follows m v (unwrap_from G n v) ∧ (m = n ∨ ∀ x, unwrap_from G n v ≠ Obs x).
Proof.
  revert v. induction n as [|n IH]; intros v; [exists 0; split; [lia|]; split; [constructor | by left]|].
  destruct v as [| |b|z|x|f|x|o]; try (exists 0; split; [lia|]; split; [constructor | by right]).
  destruct (IH (default Undefined (observables G !! x))) as (m & Hm & Hf & H). exists (S m). cbn [unwrap_from].
  split; [lia|]. split; [by constructor|]. destruct H as [->|H]; [by left | by right].
Qed.
Lemma follows_unique d n m v w w' :
  follows n v w → follows m v w' → (n = d ∨ ∀ x, w ≠ Obs x) → (m = d ∨ ∀ x, w' ≠ Obs x) → n ≤ d → m ≤ d → w = w'.
Proof.
  intros H. revert d m. induction H as [v|n x w H IH]; intros d m H' Hw Hw' Hn Hm.
  - inversion H' as [|m' x w2 H2]; subst; [done|]. destruct Hw as [<-|Hw]; [lia | by destruct (Hw x)].
  - inversion H' as [|m' x2 w2 H2]; subst; [destruct Hw' as [<-|Hw']; [lia | by destruct (Hw' x)]|].
    destruct d as [|d]; [lia|]. apply (IH d m'); [done| | |lia|lia].
    + destruct Hw as [[= ->]|?]; [by left | by right].
    + destruct Hw' as [[= ->]|?]; [by left | by right].
Qed.
Lemma holds_unwrap v w : holds v w ↔ unwrap v = w.
Proof.
  destruct (unwrap_from_follows 10 v) as (m & Hm & Hf & H). change (unwrap_from G 10 v) with (unwrap v) in *. split.
  - intros (n & Hn & Hf' & H'). by eapply (follows_unique 10 m n v).
  - intros <-. by exists m.
Qed.

Lemma node_has_properties o nd : canHaveProperties G (Ref o) = Some (o, nd) ↔ objects G !! o = Some nd ∧ nd ≠ Opaque.
Proof. simpl. destruct (objects G !! o) as [[]|]; (split; [by intros [= <-] | by intros [[= <-] ?]]). Qed.
Lemma has_properties_spec o : has_properties o ↔ ∃ nd, canHaveProperties G (Ref o) = Some (o, nd).
Proof.
  setoid_rewrite node_has_properties. unfold has_properties. destruct (objects G !! o) as [nd|].
  - split; [intros H; exists nd; by destruct nd | intros (nd' & [= <-] & H); by destruct nd].
  - split; [done | by intros (nd & ? & _)].
Qed.
Lemma image_stands t v q : image t v q → stands_for t v q.
Proof.
  unfold image, stands_for. intros H. exists (unwrap v). split; [by apply holds_unwrap|].
  destruct (unwrap v) as [| | | | | | |o]; try done. pose proof (has_properties_spec o) as Ho.
  destruct (canHaveProperties G (Ref o)) as [[o' nd]|] eqn:E; [left|right]; (split; [|done]).
  - apply Ho. exists nd. rewrite <- E. simpl in E |- *. by destruct (objects G !! o) as [[]|]; simplify_eq.
  - by intros [nd Hnd]%Ho.
Qed.
Lemma is_function_spec v : is_function v = true ↔ holds_function v.
Proof.
  unfold holds_function. destruct v as [| |b|z|x|f|x|o]; split; try done; try (by intros (x' & [?|?])); intros _;
    [exists f; by left | exists x; by right].
Qed.

Lemma copied_is_copy t o nd c : canHaveProperties G (Ref o) = Some (o, nd) → copied t nd c → is_copy t nd c.
Proof.
  intros [_ Hnd]%node_has_properties [Ha Hp]. destruct nd as [props|items f|]; cbn [is_copy entries] in *; [| |done].
  - split; [done|]. rewrite Forall2_fmap_l in Hp. eapply Forall2_impl; [exact Hp|]. intros p e [Hk Hi%image_stands]. done.
  - split; [done|]. apply Forall2_app_inv_l in Hp as (own & extra & Hown & Hextra & E). exists own, extra. split; [done|].
    split; [by rewrite <- (Forall2_length _ _ _ Hown), length_imap|]. split.
    + intros i v Hv. destruct (Forall2_lookup_l _ _ _ i (Index i, v) Hown) as ([k q] & Hq & Hk & Hi%image_stands).
      { by rewrite list_lookup_imap, Hv. }
      simpl in Hk, Hi. subst k. by exists q.
    + destruct f as [v|]; [|right; split; [done | by inversion Hextra]]. destruct (is_function v) eqn:Ef.
      * left. inversion Hextra as [|? [k q] ? ? [Hk Hi%image_stands] Hn]; subst. inversion Hn; subst. simpl in Hk, Hi. subst k.
        exists v, q. by rewrite <- is_function_spec.
      * right. split; [|by inversion Hextra]. intros v' [= <-] Hv%is_function_spec. congruence.
Qed.

Lemma entries_values nd v : has_value nd v ↔ ∃ k, (k, v) ∈ entries nd.
Proof.
  destruct nd as [props|items f|]; cbn [has_value entries].
  - rewrite list_elem_of_fmap. split.
    + intros ([s w] & -> & Hin). exists (Name s). apply list_elem_of_fmap. by exists (s, w).
    + intros (k & ([s w] & [= -> ->] & Hin)%list_elem_of_fmap). by exists (s, w).
  - setoid_rewrite elem_of_app. split.
    + intros [[i Hi]%list_elem_of_lookup|[-> Hf%is_function_spec]].
      * exists (Index i). left. apply list_elem_of_lookup. exists i. by rewrite list_lookup_imap, Hi.
      * exists (Name "toJSON"). right. rewrite Hf. by left.
    + intros (k & [Hin|Hin]).
      * left. apply list_elem_of_lookup in Hin as [i Hi]. rewrite list_lookup_imap in Hi. apply fmap_Some in Hi as (w & Hw & [= -> ->]).
        apply list_elem_of_lookup. by exists i.
      * right. destruct f as [w|]; [|by apply elem_of_nil in Hin]. destruct (is_function w) eqn:Ef; [|by apply elem_of_nil in Hin].
        apply list_elem_of_singleton in Hin as [= -> ->]. by rewrite <- is_function_spec.
  - split; [done|]. by intros (k & ?%elem_of_nil).
Qed.
Lemma led_reaches o : led_to o ↔ reaches o.
Proof.
  split.
  - induction 1 as [o H%holds_unwrap|o nd v o' _ IH Ho [k Hv]%entries_values H%holds_unwrap]; [by constructor|]. by eapply reaches_property.
  - induction 1 as [o H%holds_unwrap|o nd k v o' _ IH Ho Hv H%holds_unwrap]; [by constructor|].
    eapply led_property; [done|done| |done]. apply entries_values. by exists k.
Qed.

(** C12. toJS copies a view model: it returns on every graph of objects, also on cycles, and
    the copy is the part of the graph that the root leads to, with every observable
    replaced by what it holds, through observables in observables at most ten deep.
    There is one copy for each object that can have properties, numbered in the order
    of the table, so shared objects stay shared and cycles are kept; a copy has the
    properties of its object in their order, each with what stands for its value; what
    cannot have properties is passed on. *)
Theorem toJS_copies :
  ∃ st q, toJS G root = Some (st, q) ∧ stands_for (visited st) root q ∧
    NoDup (visited st).*1 ∧ (visited st).*2 = seq 0 (length (copies st)) ∧
    (∀ o, o ∈ (visited st).*1 ↔ led_to o ∧ has_properties o) ∧
    (∀ o n, (o, n) ∈ visited st → ∃ nd c, objects G !! o = Some nd ∧ copies st !! n = Some c ∧ is_copy (visited st) nd c).
Proof.
  destruct toJS_visits as (st & q & E & Hi & H1 & H2 & H3 & H4). exists st, q. split; [done|]. split; [by apply image_stands|].
  split; [done|]. split; [done|]. split; [intros o; by rewrite H3, led_reaches, has_properties_spec|].
  intros o n Hin. destruct (H4 o n Hin) as (nd & c & Ho & Hc & Hcop). exists nd, c. split; [done|]. split; [done|].
  assert (o ∈ (visited st).*1) as [_ [nd' Hnd]]%H3 by (apply list_elem_of_fmap; by exists (o, n)).
  apply (copied_is_copy _ o); [|done]. apply node_has_properties in Hnd as [Hnd ?]. apply node_has_properties.
  rewrite Ho in Hnd. by simplify_eq.
Qed.
End graph.
