(* ===== verification/KoBindings.v ===== *)
(** * knockout: the bindings of a node

    Models topologicalSortBindings and applyBindingsToNodeInternal of
    knockout-3.4.2.debug.js: the order in which the bindings of a node are initialised,
    by what their handlers say they come after, and what is called.  The handlers are an
    argument; what the functions [init] and [update] of a handler do when they are called
    is part of it.  A computed that calls [update] again later, and the bindings a
    provider reads from the markup, are outside; names every object inherits are not used
    as bindings. *)
From stdpp Require Import base strings list.
From Stdlib Require Import Lia.
From S2P Require Import Prelude.

Local Open Scope nat_scope.

(** What a call of [init] or [update] does; [init] may claim the descendants. *)
Inductive outcome := Done (controlsDescendantBindings : bool) | Throws.
Record handler := Handler { after : option (list string); init : option outcome; update : option outcome }.

Record search := Search { result : list string; considered : list string; stack : list string }.

Section sort.
Context (getBindingHandler : string → option handler) (bindings : list string).

(** The outcome of a search: out of fuel, a cycle with the stack, or a state. *)
Abbreviation searched := (option (list string + search)).

Section push.
Context (pushBinding : string → search → searched).

(** [arrayForEach(binding['after'], ..)] *)
Fixpoint push_dependencies (deps : list string) (s : search) : searched :=
  match deps with
  | [] => Some (inr s)
  | dep :: deps' =>
      if bool_decide (dep ∈ bindings) then
        if bool_decide (dep ∈ stack s) then Some (inl (stack s))
        else match pushBinding dep s with
             | Some (inr s') => push_dependencies deps' s'
             | r => r
             end
      else push_dependencies deps' s
  end.
End push.

Definition consider (key : string) (s : search) : search := Search (result s) (key :: considered s) (stack s).
Definition add_result (key : string) (s : search) : search := Search (result s ++ [key]) (considered s) (stack s).
Definition push_stack (key : string) (s : search) : search := Search (result s) (considered s) (stack s ++ [key]).
Definition pop_stack (s : search) : search := Search (result s) (considered s) (removelast (stack s)).

Fixpoint pushBinding (fuel : nat) (key : string) (s : search) : searched :=
  match fuel with
  | 0 => None
  | S fuel' =>
      if bool_decide (key ∈ considered s) then Some (inr s)
      else match getBindingHandler key with
           | None => Some (inr (consider key s))
           | Some binding =>
               match after binding with
               | None => Some (inr (consider key (add_result key s)))
               | Some deps =>
                   match push_dependencies (pushBinding fuel') deps (push_stack key s) with
                   | Some (inr s') => Some (inr (consider key (add_result key (pop_stack s'))))
                   | r => r
                   end
               end
           end
  end.

(** [objectForEach(bindings, pushBinding)] *)
Fixpoint push_all (fuel : nat) (keys : list string) (s : search) : searched :=
  match keys with
  | [] => Some (inr s)
  | key :: keys' =>
      match pushBinding fuel key s with
      | Some (inr s') => push_all fuel keys' s'
      | r => r
      end
  end.

(** The keys in order, or the stack of the error. *)
Definition topologicalSortBindings : option (list string + list string) :=
  match push_all (S (length bindings)) bindings (Search [] [] []) with
  | Some (inr s) => Some (inr (result s))
  | Some (inl cycle) => Some (inl cycle)
  | None => None
  end.

(** ** Applying the bindings *)

Inductive binding_error :=
  | AlreadyBound                               (* You cannot apply bindings multiple times .. *)
  | Cyclic (cycle : list string)
  | NotForVirtualElements (key : string)
  | MultipleControl (first second : string)
  | InUserCode (key : string).

Inductive call := Init (key : string) | Update (key : string).

(** [is_comment]: the node is a virtual element; [allowed]: [allowedBindings]. *)
Context (is_comment : bool) (allowed : string → bool).

(** What is called, the binding that controls the descendants, and an error. *)
Record applied := Applied { calls : list call; controls : option string; error : option binding_error }.

Definition with_error (e : binding_error) (a : applied) : applied := Applied (calls a) (controls a) (Some e).
Definition with_call (c : call) (a : applied) : applied := Applied (calls a ++ [c]) (controls a) (error a).

Definition run_init (key : string) (h : handler) (a : applied) : applied :=
  match init h with
  | None => a
  | Some o =>
      let a1 := with_call (Init key) a in
      match o with
      | Throws => with_error (InUserCode key) a1
      | Done false => a1
      | Done true =>
          match controls a1 with
          | Some first => with_error (MultipleControl first key) a1
          | None => Applied (calls a1) (Some key) (error a1)
          end
      end
  end.
Definition run_update (key : string) (h : handler) (a : applied) : applied :=
  match update h with
  | None => a
  | Some o =>
      let a1 := with_call (Update key) a in
      match o with Throws => with_error (InUserCode key) a1 | Done _ => a1 end
  end.

(** The body of the loop over the ordered bindings, which an error leaves. *)
Definition apply_one (a : applied) (key : string) : applied :=
  match error a, getBindingHandler key with
  | None, Some h =>
      if is_comment && negb (allowed key) then with_error (NotForVirtualElements key) a
      else
        let a1 := run_init key h a in
        match error a1 with Some _ => a1 | None => run_update key h a1 end
  | _, _ => a
  end.

(** [applyBindingsToNodeInternal], for a node that is bound or not and bindings that are
    given or come from the provider: whether the node is bound then, and what was done;
    the descendants are bound too if no binding controls them. *)
Definition applyBindingsToNodeInternal (alreadyBound sourceBindings : bool) : option (bool * applied) :=
  let none := Applied [] None None in
  if negb sourceBindings && alreadyBound then Some (alreadyBound, with_error AlreadyBound none)
  else
    let bound := alreadyBound || negb sourceBindings in
    match topologicalSortBindings with
    | None => None
    | Some (inl cycle) => Some (bound, with_error (Cyclic cycle) none)
    | Some (inr keys) => Some (bound, fold_left apply_one keys none)
    end.
Definition shouldBindDescendants (a : applied) : bool := match controls a with None => true | Some _ => false end.
End sort.
