(* ===== verification/KoBindingsFacts.v ===== *)
(** * knockout: the order of a node's bindings

    The search ends, finds every cycle, and puts each binding after those it asks for;
    the calls of the handlers follow that order. *)
From stdpp Require Import base strings list sets relations.
From Stdlib Require Import Lia.
From S2P Require Import Prelude KoBindings.

Local Open Scope nat_scope.

Section sort.
Context (getBindingHandler : string → option handler) (bindings : list string).
Implicit Types (s : search) (k : string).

(** [a] says that it comes after the binding [b] of the same node. *)
Definition comes_after (a b : string) : Prop :=
  a ∈ bindings ∧ b ∈ bindings ∧ ∃ h deps, getBindingHandler a = Some h ∧ after h = Some deps ∧ b ∈ deps.
Definition has_handler k : Prop := getBindingHandler k ≠ None.

(** Every key stands behind the ones it comes after. *)
Definition ordered (l : list string) : Prop :=
  ∀ l1 k l2 dep, l = l1 ++ k :: l2 → comes_after k dep → has_handler dep → dep ∈ l1.
Definition chain (l : list string) : Prop := ∀ i a b, l !! i = Some a → l !! S i = Some b → comes_after a b.

Record inv s : Prop := {
  in_nodup : NoDup (result s);
  in_result k : k ∈ result s ↔ k ∈ considered s ∧ has_handler k;
  in_bindings k : k ∈ considered s ∨ k ∈ stack s → k ∈ bindings;
  in_ordered : ordered (result s);
  in_stack : NoDup (stack s);
  in_apart k : k ∈ stack s → k ∉ considered s;
  in_chain : chain (stack s)
}.

(** The stack of an error holds a cycle. *)
Definition cyclic (c : list string) : Prop := ∃ k, k ∈ c ∧ tc comes_after k k.

Lemma ordered_snoc l k : ordered l → (∀ dep, comes_after k dep → has_handler dep → dep ∈ l) → ordered (l ++ [k]).
Proof.
  intros Hl Hk l1 k' l2 dep E Hdep Hh. destruct l2 as [|x l2 _] using rev_ind.
  - apply app_inj_tail in E as [-> ->]. by apply Hk.
  - assert (E' : l ++ [k] = (l1 ++ k' :: l2) ++ [x]) by (rewrite E, <- app_assoc; done).
    apply app_inj_tail in E' as [-> ->]. by eapply Hl.
Qed.


Lemma chain_reaches l i n a b : chain l → l !! i = Some a → l !! (i + S n) = Some b → tc comes_after a b.
Proof.
  intros Hc. revert i a. induction n as [|n IH]; intros i a Ha Hb.
  - apply tc_once. eapply Hc; [done|]. by rewrite Nat.add_1_r in Hb.
  - destruct (lookup_lt_is_Some_2 l (S i)) as [c Hi]; [apply lookup_lt_Some in Hb; lia|].
    eapply tc_l; [by eapply Hc|]. apply (IH (S i) c Hi). by rewrite Nat.add_succ_r in Hb.
Qed.

(** The last of a chain comes after one of its elements. *)
Lemma chain_cyclic l k dep : chain (l ++ [k]) → comes_after k dep → dep ∈ l ++ [k] → cyclic (l ++ [k]).
Proof.
  intros Hc Hk Hin. exists dep. split; [done|]. apply list_elem_of_lookup in Hin as [i Hi].
  assert (Hlast : (l ++ [k]) !! length l = Some k) by by apply list_lookup_middle.
  destruct (decide (i = length l)) as [->|Hne].
  - rewrite Hlast in Hi. injection Hi as <-. by apply tc_once.
  - assert (Hlt : i < length l) by (apply lookup_lt_Some in Hi; rewrite length_app in Hi; simpl in Hi; lia).
    eapply tc_r; [|exact Hk]. apply (chain_reaches (l ++ [k]) i (length l - S i)); [done|done|].
    by replace (i + S (length l - S i)) with (length l) by lia.
Qed.

Lemma chain_snoc l k : chain l → (∀ a, last l = Some a → comes_after a k) → chain (l ++ [k]).
Proof.
  intros Hc Hk i a b Ha Hb. assert (Hlt : S i < length (l ++ [k])) by by eapply lookup_lt_Some.
  rewrite length_app in Hlt. simpl in Hlt. rewrite lookup_app_l in Ha by lia.
  destruct (decide (S i = length l)) as [E|Hne].
  - rewrite E, list_lookup_middle in Hb by done. injection Hb as <-. apply Hk. rewrite last_lookup. by rewrite <- E.
  - rewrite lookup_app_l in Hb by lia. by eapply Hc.
Qed.

Lemma stack_bound s : inv s → length (stack s) ≤ length bindings.
Proof. intros H. apply submseteq_length, NoDup_submseteq; [apply H|]. intros k Hk. apply H. by right. Qed.

(** What a search does: it does not run out of fuel; it goes on with more considered, or
    it has found a cycle. *)
Definition goes_on s (goal : search → Prop) (r : option (list string + search)) : Prop :=
  match r with
  | None => False
  | Some (inl c) => cyclic c
  | Some (inr s') => inv s' ∧ stack s' = stack s ∧ considered s ⊆ considered s' ∧ goal s'
  end.

Definition pushable k s : Prop := k ∈ bindings ∧ (k ∉ stack s) ∧ ∀ a, last (stack s) = Some a → comes_after a k.

Section dependencies.
Context (fuel : nat) (push : string → search → option (list string + search)).
Context (Hpush : ∀ k s, inv s → pushable k s → length bindings < fuel + length (stack s) → goes_on s (λ s', k ∈ considered s') (push k s)).

Lemma push_dependencies_spec k h all deps s :
  inv s → last (stack s) = Some k → getBindingHandler k = Some h → after h = Some all → deps ⊆ all → k ∈ bindings →
  length bindings < fuel + length (stack s) →
  goes_on s (λ s', ∀ dep, dep ∈ deps → dep ∈ bindings → dep ∈ considered s') (push_dependencies bindings push deps s).
Proof.
  intros Hinv Hl Hh Ha Hd Hk Hf. revert s Hinv Hl Hf. induction deps as [|dep deps IH]; intros s Hinv Hl Hf; simpl.
  { split; [done|]. split; [done|]. split; [done|]. by intros ? ?%elem_of_nil. }
  assert (Hd' : deps ⊆ all) by (intros x Hx; apply Hd; by right). specialize (IH Hd').
  case_bool_decide as Hb.
  - assert (Hedge : comes_after k dep) by (split_and!; [done|done|]; exists h, all; split_and!; [done|done|]; apply Hd; by left).
    case_bool_decide as Hs.
    + destruct (stack s) as [|x l _] eqn:Es using rev_ind; [by apply elem_of_nil in Hs|].
      rewrite last_snoc in Hl. injection Hl as ->. eapply chain_cyclic; [rewrite <- Es; apply Hinv | exact Hedge | exact Hs].
    + assert (Hp : pushable dep s). { split; [done|]. split; [done|]. intros a Hl'. rewrite Hl in Hl'. by injection Hl' as <-. }
      pose proof (Hpush dep s Hinv Hp Hf) as H. destruct (push dep s) as [[c|s1]|]; [done| |done].
      destruct H as (Hinv1 & Es & Hc & Hdep). rewrite <- Es in Hl, Hf. specialize (IH s1 Hinv1 Hl Hf).
      unfold goes_on in *. destruct (push_dependencies _ _ _ _) as [[c|s2]|]; [done| |done].
      destruct IH as (Hinv2 & Es2 & Hc2 & Hdeps). split; [done|]. split; [by rewrite Es2|]. split; [set_solver|].
      intros d [->|Hin]%elem_of_cons Hdb; [by apply Hc2 | by apply Hdeps].
  - specialize (IH s Hinv Hl Hf). unfold goes_on in *. destruct (push_dependencies _ _ _ _) as [[c|s2]|]; [done| |done].
    destruct IH as (Hinv2 & Es2 & Hc2 & Hdeps). do 3 (split; [done|]). intros d [->|Hin]%elem_of_cons Hdb; [done | by apply Hdeps].
Qed.
End dependencies.

(** A key is done when what it comes after has been considered. *)
Lemma consider_inv k s :
  inv s → k ∈ bindings → k ∉ stack s → k ∉ considered s → has_handler k →
  (∀ dep, comes_after k dep → dep ∈ considered s) → inv (consider k (add_result k s)).
Proof.
  intros [H1 H2 H3 H4 H5 H6 H7] Hb Hs Hc Hh Hd. split; cbn [consider add_result result considered stack]; [| | | |done| |done].
  - apply NoDup_app. split; [done|]. split; [|apply NoDup_singleton]. intros x Hx ->%list_elem_of_singleton. by apply Hc, H2.
  - intros k'. rewrite elem_of_app, list_elem_of_singleton, elem_of_cons, H2. split; [|tauto].
    intros [[? ?]| ->]; tauto.
  - intros k'. rewrite elem_of_cons. intros [[->|Hin]|Hin]; [done|apply H3; by left|apply H3; by right].
  - apply ordered_snoc; [done|]. intros dep Hdep Hh'. apply H2. split; [by apply Hd | done].
  - intros k' Hin. apply not_elem_of_cons. split; [|by apply H6]. by intros ->.
Qed.

Lemma skip_inv k s : inv s → k ∈ bindings → k ∉ stack s → ¬ has_handler k → inv (consider k s).
Proof.
  intros [H1 H2 H3 H4 H5 H6 H7] Hb Hs Hh. split; cbn [consider result considered stack]; [done| | |done|done| |done].
  - intros k'. rewrite elem_of_cons, H2. split; [tauto|]. intros [[->|?] ?]; tauto.
  - intros k'. rewrite elem_of_cons. intros [[->|Hin]|Hin]; [done|apply H3; by left|apply H3; by right].
  - intros k' Hin. apply not_elem_of_cons. split; [|by apply H6]. by intros ->.
Qed.

Lemma push_spec fuel k s :
  inv s → pushable k s → length bindings < fuel + length (stack s) →
  goes_on s (λ s', k ∈ considered s') (pushBinding getBindingHandler bindings fuel k s).
Proof.
  revert k s. induction fuel as [|fuel IH]; intros k s Hinv (Hb & Hs & Hl) Hf.
  { pose proof (stack_bound s Hinv). lia. }
  cbn [pushBinding]. case_bool_decide as Hc; [by do 3 (split; [done|])|].
  destruct (getBindingHandler k) as [h|] eqn:Hh.
  2:{ split; [apply skip_inv; try done; by intros ?|]. split; [done|]. split; [set_solver|]. by left. }
  assert (Hhas : has_handler k) by (unfold has_handler; by rewrite Hh).
  destruct (after h) as [deps|] eqn:Ha.
  - assert (Hinv1 : inv (push_stack k s)).
    { destruct Hinv as [H1 H2 H3 H4 H5 H6 H7]. split; cbn [push_stack result considered stack]; [done|done| |done| | |].
      - intros k'. rewrite elem_of_app, list_elem_of_singleton. intros [Hin|[Hin| ->]]; [apply H3; by left|apply H3; by right|done].
      - apply NoDup_app. split; [done|]. split; [|apply NoDup_singleton]. by intros x Hx ->%list_elem_of_singleton.
      - intros k'. rewrite elem_of_app, list_elem_of_singleton. intros [Hin| ->]; [by apply H6 | done].
      - by apply chain_snoc. }
    pose proof (push_dependencies_spec fuel (pushBinding getBindingHandler bindings fuel) IH k h deps deps (push_stack k s) Hinv1) as H.
    unfold push_stack at 1 2 in H. cbn [stack] in H. rewrite last_snoc, length_app in H. simpl in H.
    specialize (H eq_refl Hh Ha (reflexivity _) Hb ltac:(lia)).
    destruct (push_dependencies _ _ _ _) as [[c|s2]|]; [done| |done]. destruct H as (Hinv2 & Es & Hcs & Hd).
    cbn [push_stack stack considered] in Es, Hcs.
    assert (Hpop : inv (pop_stack s2) ∧ stack (pop_stack s2) = stack s).
    { destruct Hinv2 as [H1 H2 H3 H4 H5 H6 H7]. cbn [pop_stack stack]. rewrite Es, removelast_last. split; [|done].
      destruct Hinv as [_ _ G3 _ G5 _ G7]. split; cbn [pop_stack result considered stack]; try done.
      - intros k' [Hin|Hin]; [apply H3; by left|]. rewrite Es, removelast_last in Hin. apply G3. by right.
      - by rewrite Es, removelast_last.
      - intros k'. rewrite Es, removelast_last. intros Hin. apply H6. rewrite Es. apply elem_of_app. by left.
      - by rewrite Es, removelast_last. }
    destruct Hpop as [Hinv3 Es3]. split.
    + apply consider_inv; [done|done|by rewrite Es3| |done|].
      * cbn [pop_stack considered]. apply (in_apart _ Hinv2). rewrite Es. apply elem_of_app. right. by left.
      * intros dep (_ & Hdb & h' & deps' & E1 & E2 & Hin). rewrite Hh in E1. injection E1 as <-. rewrite Ha in E2. injection E2 as <-.
        cbn [pop_stack considered]. by apply Hd.
    + split; [exact Es3|]. split; [|by left]. cbn [consider add_result pop_stack considered]. set_solver.
  - split; [|split; [done|]; split; [set_solver | by left]]. apply consider_inv; try done.
    intros dep (_ & _ & h' & deps' & E1 & E2 & _). rewrite Hh in E1. injection E1 as <-. congruence.
Qed.

Lemma push_all_spec fuel keys s :
  inv s → stack s = [] → keys ⊆ bindings → length bindings < fuel →
  goes_on s (λ s', ∀ k, k ∈ keys → k ∈ considered s') (push_all getBindingHandler bindings fuel keys s).
Proof.
  revert s. induction keys as [|k keys IH]; intros s Hinv Hs Hk Hf; simpl.
  { do 3 (split; [done|]). by intros ? ?%elem_of_nil. }
  assert (Hp : pushable k s) by (split; [apply Hk; by left | rewrite Hs; split; [apply not_elem_of_nil | done]]).
  pose proof (push_spec fuel k s Hinv Hp ltac:(lia)) as H.
  destruct (pushBinding _ _ _ _ _) as [[c|s1]|]; [done| |done]. destruct H as (Hinv1 & Es & Hc & Hk1).
  specialize (IH s1 Hinv1 ltac:(by rewrite Es) ltac:(intros x Hx; apply Hk; by right) Hf). unfold goes_on in *.
  destruct (push_all _ _ _ _ _) as [[c|s2]|]; [done| |done]. destruct IH as (Hinv2 & Es2 & Hc2 & Hks).
  split; [done|]. split; [by rewrite Es2|]. split; [set_solver|]. intros x [->|Hin]%elem_of_cons; [by apply Hc2 | by apply Hks].
Qed.

Lemma tc_out a b : tc comes_after a b → ∃ d, comes_after a d.
Proof. by destruct 1; eexists. Qed.

(** In an order nothing comes after itself. *)
Lemma ordered_before l l1 l2 a b :
  ordered l → NoDup l → l = l1 ++ a :: l2 → tc comes_after a b → has_handler b → b ∈ l1.
Proof.
  intros Ho Hn E Ht Hb. revert l1 l2 E. induction Ht as [a b Hab|a c b Hac Ht IH]; intros l1 l2 E; [by eapply Ho|].
  assert (Hc : has_handler c).
  { destruct (tc_out _ _ Ht) as (d & _ & _ & h & _ & E1 & _).
    unfold has_handler. by rewrite E1. }
  pose proof (Ho _ _ _ _ E Hac Hc) as Hin. apply list_elem_of_split in Hin as (m1 & m2 & ->).
  assert (Hin : b ∈ m1) by (apply (IH Hb m1 (m2 ++ a :: l2)); by rewrite E, <- app_assoc).
  apply elem_of_app. by left.
Qed.

Lemma push_all_bindings :
  goes_on (Search [] [] []) (λ s', ∀ k, k ∈ bindings → k ∈ considered s')
    (push_all getBindingHandler bindings (S (length bindings)) bindings (Search [] [] [])).
Proof.
  assert (Hinv : inv (Search [] [] [])).
  { split; cbn [result considered stack]; try apply NoDup_nil_2; try done.
    - intros k. split; [by intros ?%elem_of_nil | by intros [?%elem_of_nil _]].
    - intros k. by intros [?%elem_of_nil|?%elem_of_nil].
    - intros [|] k l2 dep; discriminate.
    - intros k ?%elem_of_nil. done. }
  apply push_all_spec; [exact Hinv|done|done|lia].
Qed.
Lemma sort_ends : topologicalSortBindings getBindingHandler bindings ≠ None.
Proof. unfold topologicalSortBindings. pose proof push_all_bindings as H. by destruct (push_all _ _ _ _ _) as [[]|]. Qed.

Lemma sorted_handlers keys k : topologicalSortBindings getBindingHandler bindings = Some (inr keys) → k ∈ keys → has_handler k.
Proof.
  unfold topologicalSortBindings. pose proof push_all_bindings as H. destruct (push_all _ _ _ _ _) as [[c|s]|]; [done| |done].
  intros [= <-] Hk. destruct H as ([_ H2 _ _ _ _ _] & _). by apply H2 in Hk as [_ Hk].
Qed.

(** C15. The bindings of a node are put in an order that serves every handler: the search
    returns; it throws exactly when some bindings of the node come after each other in a
    circle, and then the reported keys contain one that does; otherwise each binding that
    has a handler is there once, behind all the bindings of the node that its handler says
    it comes after. *)
Theorem bindings_sorted :
  match topologicalSortBindings getBindingHandler bindings with
  | None => False
  | Some (inl reported) => ∃ k, k ∈ reported ∧ tc comes_after k k
  | Some (inr keys) =>
      (∀ k, ¬ tc comes_after k k) ∧ NoDup keys ∧ (∀ k, k ∈ keys ↔ k ∈ bindings ∧ has_handler k) ∧
      ∀ before k behind dep, keys = before ++ k :: behind → comes_after k dep → has_handler dep → dep ∈ before
  end.
Proof.
  unfold topologicalSortBindings. pose proof push_all_bindings as H.
  destruct (push_all _ _ _ _ _) as [[c|s]|]; [done| |done]. destruct H as ([H1 H2 H3 H4 _ _ _] & _ & _ & Hall).
  split; [|split; [done|split; [|done]]].
  - intros k Ht. destruct (tc_out _ _ Ht) as (d & Hb & _ & h & _ & E1 & _). assert (Hh : has_handler k) by (unfold has_handler; by rewrite E1).
    assert (Hin : k ∈ result s) by (apply H2; split; [by apply Hall | done]).
    apply list_elem_of_split in Hin as (l1 & l2 & E). pose proof (ordered_before _ _ _ _ _ H4 H1 E Ht Hh) as Hin.
    rewrite E in H1. apply NoDup_app in H1 as (_ & Hno & _). apply (Hno k Hin). by left.
  - intros k. rewrite H2. split; intros [Hin Hh]; (split; [|done]); [apply H3; by left | by apply Hall].
Qed.

(** ** The calls *)

(** What a handler is called for, when nothing throws. *)
Definition handler_calls k : list call :=
  match getBindingHandler k with
  | Some h => (match init h with Some _ => [Init k] | None => [] end) ++ (match update h with Some _ => [Update k] | None => [] end)
  | None => []
  end.
Definition claims k : bool :=
  match getBindingHandler k with Some h => match init h with Some (Done b) => b | _ => false end | None => false end.

Section apply.
Context (is_comment : bool) (allowed : string → bool).
#[local] Abbreviation one := (apply_one getBindingHandler is_comment allowed).

Lemma apply_stuck l a e : error a = Some e → fold_left one l a = a.
Proof.
  revert a. induction l as [|k l IH]; intros a He; [done|]. simpl. unfold apply_one at 2. rewrite He. by apply IH.
Qed.

(** One binding: it is called for as its handler says, or an error ends the calls. *)
Lemma apply_one_spec a k :
  error a = None →
  match error (one a k) with
  | None => calls (one a k) = calls a ++ handler_calls k ∧
      (is_comment = true → has_handler k → allowed k = true) ∧
      if claims k then controls a = None ∧ controls (one a k) = Some k else controls (one a k) = controls a
  | Some e => ∃ l, l `prefix_of` handler_calls k ∧ calls (one a k) = calls a ++ l
  end.
Proof.
  intros He. unfold apply_one, handler_calls, claims, has_handler. rewrite He.
  destruct (getBindingHandler k) as [h|]; [|by rewrite app_nil_r, He].
  destruct (is_comment && negb (allowed k)) eqn:Hv; cbn [with_error error calls].
  { exists []. split; [apply prefix_nil | by rewrite app_nil_r]. }
  assert (Hal : is_comment = true → Some h ≠ None → allowed k = true).
  { intros Hi _. rewrite Hi in Hv. simpl in Hv. by apply negb_false_iff in Hv. }
  unfold run_init, run_update. destruct a as [cs ct er]. cbn [error calls controls with_call with_error] in *. subst er.
  destruct (init h) as [[[]|]|]; cbn [error calls controls with_call with_error].
  - destruct ct as [first|]; cbn [error calls controls with_call with_error].
    + exists [Init k]. split; [by apply prefix_app_r|done].
    + destruct (update h) as [[]|]; cbn [error calls controls with_call with_error]; rewrite <- ?app_assoc; [done| |done].
      exists [Init k; Update k]. by split.
  - destruct (update h) as [[]|]; cbn [error calls controls with_call with_error]; rewrite <- ?app_assoc; [done| |done].
    exists [Init k; Update k]. by split.
  - exists [Init k]. split; [by apply prefix_app_r|done].
  - destruct (update h) as [[]|]; cbn [error calls controls with_call with_error]; rewrite ?app_nil_r; [done| |done].
    exists [Update k]. by split.
Qed.

Lemma apply_all_spec l a :
  error a = None →
  match error (fold_left one l a) with
  | None => calls (fold_left one l a) = calls a ++ mjoin (handler_calls <$> l) ∧
      (is_comment = true → ∀ k, k ∈ l → has_handler k → allowed k = true) ∧
      option_list (controls (fold_left one l a)) = option_list (controls a) ++ List.filter claims l
  | Some e => ∃ cs, cs `prefix_of` mjoin (handler_calls <$> l) ∧ calls (fold_left one l a) = calls a ++ cs
  end.
Proof.
  revert a. induction l as [|k l IH]; intros a He.
  { cbn. rewrite He, !app_nil_r. split; [done|]. split; [|done]. by intros _ ? ?%elem_of_nil. }
  cbn [fold_left]. pose proof (apply_one_spec a k He) as H. destruct (error (one a k)) as [e|] eqn:E1.
  - rewrite (apply_stuck l _ e E1), E1. destruct H as (cs & Hp & ->). exists cs. split; [|done]. csimpl. by apply prefix_app_r.
  - destruct H as (Hc & Ha & Hct). specialize (IH _ E1). destruct (error (fold_left one l (one a k))) as [e|].
    + destruct IH as (cs & Hp & ->). exists (handler_calls k ++ cs). csimpl. split; [by apply prefix_app|]. by rewrite Hc, app_assoc.
    + destruct IH as (Hc' & Ha' & Hct'). csimpl. split; [by rewrite Hc', Hc, app_assoc|]. split.
      * intros Hi k' [->|Hin]%elem_of_cons; [by apply Ha | by apply Ha'].
      * rewrite Hct'. destruct (claims k); [|by rewrite Hct]. destruct Hct as [-> ->]. done.
Qed.

(** Only the test before the loop says that a node is bound already. *)
Lemma apply_not_bound l a : error a ≠ Some AlreadyBound → error (fold_left one l a) ≠ Some AlreadyBound.
Proof.
  revert a. induction l as [|k l IH]; intros a Ha; [done|]. cbn [fold_left]. apply IH. unfold apply_one.
  destruct (error a) as [e|] eqn:Ee; [by rewrite Ee|]. destruct (getBindingHandler k) as [h|]; [|by rewrite Ee].
  destruct (is_comment && _); [done|]. unfold run_init, run_update. destruct a as [cs ct er].
  cbn in Ee. subst er.
  destruct (init h) as [[[]|]|], (update h) as [[]|], ct; cbn; done || congruence.
Qed.

(** Applying the bindings of a node returns, and does what the handlers ask for in that
    order: without an error every binding's init is called once and then its update, all
    bindings are allowed on a virtual element, and at most one claims the descendants,
    which are bound exactly when none does; an error leaves a beginning of these calls
    and no more.  A node is bound by its own bindings only once. *)
Theorem bindings_applied alreadyBound sourceBindings :
  match applyBindingsToNodeInternal getBindingHandler bindings is_comment allowed alreadyBound sourceBindings with
  | None => False
  | Some (bound, a) =>
      bound = alreadyBound || negb sourceBindings ∧
      (error a = Some AlreadyBound ↔ alreadyBound = true ∧ sourceBindings = false) ∧
      match error a with
      | None =>
          ∃ keys, topologicalSortBindings getBindingHandler bindings = Some (inr keys) ∧
            calls a = mjoin (handler_calls <$> keys) ∧
            (is_comment = true → ∀ k, k ∈ keys → allowed k = true) ∧
            List.filter claims keys = option_list (controls a) ∧
            (shouldBindDescendants a = true ↔ List.filter claims keys = [])
      | Some _ =>
          calls a = [] ∨ ∃ keys, topologicalSortBindings getBindingHandler bindings = Some (inr keys) ∧
            calls a `prefix_of` mjoin (handler_calls <$> keys)
      end
  end.
Proof.
  unfold applyBindingsToNodeInternal. destruct (negb sourceBindings && alreadyBound) eqn:Hb.
  { cbn. split; [by destruct sourceBindings, alreadyBound|]. split; [by destruct sourceBindings, alreadyBound | by left]. }
  assert (Hno : ¬ (alreadyBound = true ∧ sourceBindings = false)) by (intros [-> ->]; done).
  destruct (topologicalSortBindings getBindingHandler bindings) as [[c|keys]|] eqn:Et; [| |by destruct (sort_ends Et)].
  { cbn. split; [done|]. split; [split; [done | by intros ?%Hno] | by left]. }
  split; [done|]. split.
  { split; [|by intros ?%Hno]. intros E. by destruct (apply_not_bound keys (Applied [] None None) ltac:(done)). }
  pose proof (apply_all_spec keys (Applied [] None None) eq_refl) as H.
  destruct (error (fold_left one keys (Applied [] None None))) as [e|].
  - destruct H as (cs & Hp & E). right. exists keys. split; [done|]. by rewrite E.
  - destruct H as (Hc & Ha & Hct). exists keys. split; [done|]. split; [exact Hc|]. split.
    + intros Hi k Hk. apply Ha; [done|done|]. by eapply sorted_handlers.
    + split; [by symmetry|]. change (List.filter claims keys) with (option_list None ++ List.filter claims keys).
      cbn [controls] in Hct. rewrite <- Hct. unfold shouldBindDescendants. by destruct (controls _).
Qed.
End apply.
End sort.
