(* ===== verification/JqCallbacks.v ===== *)
(** * Lists of callbacks: [jQuery.Callbacks]

    Models jQuery.Callbacks of jquery-3.3.1.js: the variables of one list, and what
    each of its methods does to them.  Firing calls functions that may use the list
    again, so the loop is cut where it calls one: [outer] and [inner] are the tests
    of its two loops, [returned] what follows a call.  [JqDeferred] runs them. *)
From stdpp Require Import base list.
From Stdlib Require Import ZArith Lia.
From S2P Require Import Prelude.

Section callbacks.
Context {data fn : Type} `{EqDecision fn}.

Record flags := Flags { once : bool; keeps_memory : bool; unique : bool; stopOnFalse : bool }.

(** The variables of a list.  [memory] is [None] when it is [undefined], [false] or
    the empty string, [items] is [None] when [list] is the empty string. *)
Record cblist := CbList {
  options : flags;
  firing : bool;
  memory : option data;
  fired : bool;
  locked : bool;
  items : option (list fn);
  queue : list data;
  firingIndex : Z
}.
Implicit Types (c : cblist) (f : fn) (d : data) (l : list fn).

Definition Callbacks (o : flags) : cblist := CbList o false None false false (Some []) [] (-1).

Definition list_of c : list fn := default [] (items c).

Definition set_items (l : option (list fn)) c : cblist :=
  CbList (options c) (firing c) (memory c) (fired c) (locked c) l (queue c) (firingIndex c).
Definition set_index (i : Z) c : cblist :=
  CbList (options c) (firing c) (memory c) (fired c) (locked c) (items c) (queue c) i.
Definition set_memory (m : option data) c : cblist :=
  CbList (options c) (firing c) m (fired c) (locked c) (items c) (queue c) (firingIndex c).
Definition set_queue (q : list data) c : cblist :=
  CbList (options c) (firing c) (memory c) (fired c) (locked c) (items c) q (firingIndex c).
Definition set_firing (b : bool) c : cblist :=
  CbList (options c) b (memory c) (fired c) (locked c) (items c) (queue c) (firingIndex c).
Definition set_locked c : cblist :=
  CbList (options c) (firing c) (memory c) (fired c) true (items c) (queue c) (firingIndex c).

(** ** The methods *)

(** What [add] is given: functions, arrays of such, and anything else. *)
Inductive arg := AFun (f : fn) | AList (l : list arg) | AOther.

Fixpoint functions_of (a : arg) : list fn :=
  match a with
  | AFun f => [f]
  | AList l => flat_map functions_of l
  | AOther => []
  end.

Definition has (f : option fn) c : bool :=
  match f with
  | Some f => bool_decide (f ∈ list_of c)
  | None => negb (bool_decide (list_of c = []))
  end.

Definition push c f : cblist :=
  if unique (options c) && has (Some f) c then c else set_items (Some (list_of c ++ [f])) c.

(** [add]; the second component tells whether it then fires. *)
Definition add (args : list arg) c : cblist * bool :=
  match items c with
  | None => (c, false)
  | Some l =>
      let fires := match memory c with Some _ => negb (firing c) | None => false end in
      let c1 := match memory c with
                | Some d => if fires then set_queue (queue c ++ [d]) (set_index (Z.of_nat (length l) - 1) c) else c
                | None => c
                end in
      (fold_left push (flat_map functions_of args) c1, fires)
  end.

(** [while ((index = jQuery.inArray(arg, list, index)) > -1)], from the position [p]
    on, with the index [i] of the function that is being called. *)
Fixpoint remove_from (f : fn) (p : nat) (l : list fn) (i : Z) : list fn * Z :=
  match l with
  | [] => ([], i)
  | x :: l' =>
      if decide (x = f) then remove_from f p l' (if Z.leb (Z.of_nat p) i then i - 1 else i)
      else let '(l'', i') := remove_from f (S p) l' i in (x :: l'', i')
  end.

Definition remove_one c f : cblist :=
  match items c with
  | None => c
  | Some l => let '(l', i) := remove_from f 0 l (firingIndex c) in set_index i (set_items (Some l') c)
  end.
Definition remove (fs : list fn) c : cblist := fold_left remove_one fs c.

Definition empty c : cblist := match items c with None => c | Some _ => set_items (Some []) c end.

Definition disable c : cblist := set_memory None (set_items None (set_queue [] (set_locked c))).
Definition disabled c : bool := match items c with None => true | Some _ => false end.

Definition lock c : cblist :=
  let c1 := set_queue [] (set_locked c) in
  match memory c1 with
  | None => if firing c1 then c1 else set_items None c1
  | Some _ => c1
  end.

(** [fireWith]; the second component tells whether it then fires. *)
Definition fireWith (d : data) c : cblist * bool :=
  if locked c then (c, false) else (set_queue (queue c ++ [d]) c, negb (firing c)).

(** ** [fire] *)

Definition fire_start c : cblist :=
  CbList (options c) true (memory c) true (locked c || once (options c)) (items c) (queue c) (firingIndex c).

(** [queue.length], and then [memory = queue.shift()] *)
Definition outer c : option cblist :=
  match queue c with
  | [] => None
  | d :: q => Some (set_memory (Some d) (set_queue q c))
  end.

(** [++firingIndex < list.length]: the function that is called, if there is one. *)
Definition inner c : cblist * option fn :=
  let i := (firingIndex c + 1)%Z in
  (set_index i c, if Z.ltb i 0 then None else list_of c !! Z.to_nat i).

(** After a call that has returned [false] or something else. *)
Definition returned (is_false : bool) c : cblist :=
  if is_false && stopOnFalse (options c)
  then set_memory None (set_index (Z.of_nat (length (list_of c))) c) else c.

Definition fire_end c : cblist :=
  let c1 := if keeps_memory (options c) then c else set_memory None c in
  let c2 := set_firing false c1 in
  if locked c2 then set_items (match memory c2 with Some _ => Some [] | None => None end) c2 else c2.
End callbacks.

Arguments cblist : clear implicits.
Arguments arg : clear implicits.

Section remove.
Context {data fn : Type} `{EqDecision fn}.
Implicit Types (c : cblist data fn) (f : fn) (l : list fn).

Lemma remove_from_list f p l i : (remove_from f p l i).1 = filter (.≠ f) l.
Proof.
  revert p i. induction l as [|x l IH]; intros p i; simpl; [done|]. destruct (decide (x = f)) as [->|Hne].
  - rewrite IH, filter_cons_False; [done | by intros []].
  - specialize (IH (S p) i). destruct (remove_from f (S p) l i). simpl in *. by rewrite IH, filter_cons_True.
Qed.

Lemma remove_from_behind f p l i : (i < Z.of_nat p)%Z → (remove_from f p l i).2 = i.
Proof.
  revert p. induction l as [|x l IH]; intros p Hi; simpl; [done|]. destruct (decide (x = f)).
  - destruct (Z.leb_spec (Z.of_nat p) i); [lia | by apply IH].
  - specialize (IH (S p)). destruct (remove_from f (S p) l i). simpl in *. apply IH. lia.
Qed.

(** What is before the position, and what is behind it, as far as it is in the list. *)
Lemma remove_from_place f p l i :
  (Z.of_nat p - 1 ≤ i)%Z →
  let n := Z.to_nat (i + 1 - Z.of_nat p) in
  let i' := (remove_from f p l i).2 in
  (Z.of_nat p - 1 ≤ i')%Z ∧
  drop (Z.to_nat (i' + 1 - Z.of_nat p)) (filter (.≠ f) l) = filter (.≠ f) (drop n l) ∧
  take (Z.to_nat (i' + 1 - Z.of_nat p)) (filter (.≠ f) l) = filter (.≠ f) (take n l).
Proof.
  revert p i. induction l as [|x l IH]; intros p i Hi n i'.
  - unfold i', n. change (filter (.≠ f) []) with (@nil fn). rewrite !drop_nil, !take_nil. done.
  - unfold i', n. simpl. destruct (decide (x = f)) as [->|Hne].
    + rewrite filter_cons_False by (by intros []). destruct (Z.leb_spec (Z.of_nat p) i) as [Hp|Hp].
      * destruct (IH p (i - 1)%Z) as (H1 & H2 & H3); [lia|]. split; [done|]. rewrite H2, H3.
        replace (Z.to_nat (i + 1 - Z.of_nat p)) with (S (Z.to_nat (i - 1 + 1 - Z.of_nat p))) by lia.
        simpl. rewrite filter_cons_False by (by intros []). done.
      * destruct (IH p i) as (H1 & H2 & H3); [lia|]. split; [done|]. rewrite H2, H3.
        replace (Z.to_nat (i + 1 - Z.of_nat p)) with 0 by lia. simpl. rewrite !drop_0.
        by rewrite filter_cons_False by (by intros []).
    + rewrite filter_cons_True by done. destruct (Z.leb_spec (Z.of_nat p) i) as [Hp|Hp].
      * destruct (IH (S p) i) as (H1 & H2 & H3); [lia|]. destruct (remove_from f (S p) l i) as [l' j]. simpl in *.
        split; [lia|]. replace (Z.to_nat (j + 1 - Z.of_nat p)) with (S (Z.to_nat (j + 1 - Z.of_nat (S p)))) by lia.
        replace (Z.to_nat (i + 1 - Z.of_nat p)) with (S (Z.to_nat (i + 1 - Z.of_nat (S p)))) by lia.
        simpl. rewrite filter_cons_True by done. by rewrite H2, H3.
      * pose proof (remove_from_behind f (S p) l i) as H. destruct (remove_from f (S p) l i) as [l' j]. simpl in *.
        rewrite H by lia. split; [done|]. replace (Z.to_nat (i + 1 - Z.of_nat p)) with 0 by lia.
        simpl. by rewrite filter_cons_True.
Qed.

Lemma remove_one_place c f :
  (-1 ≤ firingIndex c)%Z → let c' := remove_one c f in
  (-1 ≤ firingIndex c')%Z ∧ list_of c' = filter (.≠ f) (list_of c) ∧
  drop (Z.to_nat (firingIndex c' + 1)) (list_of c') = filter (.≠ f) (drop (Z.to_nat (firingIndex c + 1)) (list_of c)) ∧
  take (Z.to_nat (firingIndex c' + 1)) (list_of c') = filter (.≠ f) (take (Z.to_nat (firingIndex c + 1)) (list_of c)).
Proof.
  intros Hi. unfold remove_one, list_of. destruct (items c) as [l|] eqn:E; simpl; [|rewrite E; simpl; by rewrite !drop_nil, !take_nil].
  pose proof (remove_from_list f 0 l (firingIndex c)) as Hl. pose proof (remove_from_place f 0 l (firingIndex c)) as Hp.
  destruct (remove_from f 0 l (firingIndex c)) as [l' i]. simpl in *. subst l'.
  destruct Hp as (H1 & H2 & H3); [lia|]. rewrite !Z.sub_0_r in *. auto.
Qed.

(** Removing functions while a list is being fired neither skips nor repeats one: the
    functions that are still to be called are the same without the removed ones, in the
    same order, and so are those that have been called. *)
Theorem remove_keeps_place fs c :
  (-1 ≤ firingIndex c)%Z → let c' := remove fs c in
  list_of c' = filter (.∉ fs) (list_of c) ∧
  drop (Z.to_nat (firingIndex c' + 1)) (list_of c') = filter (.∉ fs) (drop (Z.to_nat (firingIndex c + 1)) (list_of c)) ∧
  take (Z.to_nat (firingIndex c' + 1)) (list_of c') = filter (.∉ fs) (take (Z.to_nat (firingIndex c + 1)) (list_of c)).
Proof.
  unfold remove. revert c. induction fs as [|f fs IH]; intros c Hi; simpl.
  - assert (E : ∀ l, filter (.∉ []) l = l) by (intros l; induction l as [|x l IH]; [done | rewrite filter_cons_True by apply not_elem_of_nil; by rewrite IH]). by rewrite !E.
  - destruct (remove_one_place c f Hi) as (Hi' & E1 & E2 & E3). destruct (IH _ Hi') as (H1 & H2 & H3).
    assert (E : ∀ l, filter (.∉ fs) (filter (.≠ f) l) = filter (.∉ f :: fs) l).
    { intros l. rewrite list_filter_filter. apply list_filter_iff. intros g. rewrite elem_of_cons. tauto. }
    by rewrite H2, H3, H1, E2, E3, E1, !E.
Qed.
End remove.

(** The list is at its second function; the first and the third are removed. *)
Lemma remove_keeps_place_witness :
  let c := CbList (Flags false false false false) true (Some 0) true false (Some [1; 2; 3; 4; 1]) [] 1 in
  remove [1; 3] c = CbList (Flags false false false false) true (Some 0) true false (Some [2; 4]) [] 0 ∧
  drop (Z.to_nat (firingIndex (remove [1; 3] c) + 1)) (list_of (remove [1; 3] c)) = [4].
Proof.
  intros c. split; [by vm_compute|]. assert (Hc : (-1 ≤ firingIndex c)%Z) by by vm_compute.
  destruct (remove_keeps_place [1; 3] c Hc) as (_ & -> & _). by vm_compute.
Defined.
