(* ===== verification/JqDeferred.v ===== *)
(** * Deferred objects: [jQuery.Deferred], [then] and [pipe]

    Models jQuery.Deferred of jquery-3.3.1.js as a machine that takes one step at a
    time, so that what a page can see in the middle of a call is a state too.  A
    deferred is six lists of callbacks ([JqCallbacks]) and a state.  Functions of the
    page are numbers whose bodies are programs over the methods, and a page holds the
    functions that jQuery hands out ([pfn]); the functions that jQuery puts into lists
    itself ([fn]) no page gets hold of.  An exception leaves the frames it passes, the
    loop of [fire] among them; what waits for a timeout is a queue. *)
From stdpp Require Import base list functions relations.
From Stdlib Require Import ZArith Lia.
From S2P Require Import Prelude JqCallbacks.

(** [tuples], and the lists of a deferred: [tuple[2]] and, of handlers, [tuple[3]];
    [Own] is a list that the page makes with [jQuery.Callbacks]. *)
Inductive action := Notify | Resolve | Reject.
Inductive lid := Lid (d : nat) (a : action) (handlers : bool) | Own (n : nat).

(** Functions a page can hold: its own, [deferred.notify], [resolve] and [reject], and
    the functions that [then] gives to the [then] of an object of the page. *)
Inductive pfn := Page (n : nat) | Settle (d : nat) (a : action) | Given (k : nat).

(** [resolve(depth, deferred, Identity, special)] in a call of [then], or the same with
    [Thrower]. *)
Record resolver := Resolver { r_chain : nat; r_depth : nat; r_throws : bool; r_special : bool }.

(** What a resolver of [then] calls: a function of the page, [Identity], [Thrower], or
    a resolver of another call of [then]. *)
Inductive handler := Calls (p : pfn) | Identity | Thrower | Deeper (r : resolver).

(** Functions in a list: those of a page, and those that jQuery puts there. *)
Inductive fn :=
  | Visible (p : pfn)
  | SetState (d : nat) (a : action)                    (* state = stateString *)
  | Disable (l : lid) | Lock (l : lid) | FireList (l : lid)
  | First (c : nat) (a : action) (h : handler)         (* resolve(0, newDefer, handler) *)
  | Piped (n : nat) (a : action) (f : option pfn)      (* what pipe adds *)
  | Forward (n : nat) (a : action).                    (* newDefer.notify, resolve, reject *)

#[export] Instance action_eq_dec : EqDecision action.
Proof. solve_decision. Defined.
#[export] Instance lid_eq_dec : EqDecision lid.
Proof. solve_decision. Defined.
#[export] Instance pfn_eq_dec : EqDecision pfn.
Proof. solve_decision. Defined.
#[export] Instance resolver_eq_dec : EqDecision resolver.
Proof. solve_decision. Defined.
#[export] Instance handler_eq_dec : EqDecision handler.
Proof. solve_decision. Defined.
#[export] Instance fn_eq_dec : EqDecision fn.
Proof. solve_decision. Defined.

(** Values: [Promise] is the promise of a deferred, [Thenable] an object of the page
    with the method [then]. *)
Inductive value :=
  | Undefined | VFalse | Plain (n : nat) | StateIs (s : option action)
  | Deferred (d : nat) | Promise (d : nat) | Func (p : pfn) | Thenable (p : pfn)
  | OwnList (n : nat) | TypeError.

#[export] Instance value_eq_dec : EqDecision value.
Proof. solve_decision. Defined.

(** A context and the arguments. *)
Definition data : Type := value * list value.
Definition cbs : Type := cblist data fn.

(** ** Code of the page *)

Inductive op :=
  | NewDeferred (func : option pfn)                          (* jQuery.Deferred(func) *)
  | Listen (d : nat) (a : action) (args : list (arg pfn))    (* progress, done, fail *)
  | Always (d : nat) (args : list (arg pfn))
  | SettleWith (d : nat) (a : action) (dat : data)           (* notifyWith, resolveWith, rejectWith *)
  | State (d : nat)
  | PromiseOf (d : nat)
  | Then (d : nat) (onFulfilled onRejected onProgress : value)
  | Catch (d : nat) (f : value)
  | Pipe (d : nat) (fnDone fnFail fnProgress : value)
  | Apply (p : pfn) (dat : data)
  | Load (n : nat) | Store (n : nat) (v : value)             (* variables of the page *)
  | NewCallbacks (o : flags)
  | LAdd (n : nat) (args : list (arg pfn)) | LRemove (n : nat) (ps : list pfn) | LEmpty (n : nat)
  | LDisable (n : nat) | LLock (n : nat) | LFireWith (n : nat) (dat : data)
  | LHas (n : nat) (p : option pfn).

Inductive prog := Return (v : value) | Throw (v : value) | Op (o : op) (k : value → prog).

(** ** The state *)

(** The variables of one call of [then] that its resolvers share: the deferred it was
    called on, [maxDepth] and [newDefer]. *)
Record chain := Chain { parent : nat; maxDepth : nat; newDefer : nat }.

(** A call of [process] at depth 0 that waits for its timeout. *)
Record task := Task { t_chain : nat; t_action : action; t_handler : handler; t_data : data }.

(** What happened: [then] was called, a function was put into a list, a list called
    one, an exception left the loop of a list, a timeout was asked for, a handler was
    called, and what a handler for fulfilment or rejection answered. *)
Inductive event :=
  | Thened (c d : nat) (onFulfilled onRejected : handler)
  | Added (l : lid) (f : fn)
  | Ran (l : lid) (f : fn) (dat : data)
  | Escaped (l : lid)
  | Queued (t : task)
  | Handled (t : task)
  | Answered (t : task) (v : value)
  | Threw (t : task) (e : value).

#[export] Instance task_eq_dec : EqDecision task.
Proof. solve_decision. Defined.
#[export] Instance event_eq_dec : EqDecision event.
Proof. solve_decision. Defined.

(** Who made a deferred; of those that [then] and [pipe] make, a page gets the promise only. *)
Inductive kind := OfPage | OfThen | OfPipe.
#[export] Instance kind_eq_dec : EqDecision kind.
Proof. solve_decision. Defined.

Record world := World {
  kinds : list kind;               (* of the deferreds that have been made *)
  lists : lid → cbs;
  states : nat → option action;
  chains : list chain;
  timers : list task;
  given : list resolver;
  owned : nat;
  vars : nat → value;
  trace : list event               (* oldest first *)
}.

Definition deferreds (w : world) : nat := length (kinds w).

Definition set_list (l : lid) (c : cbs) (w : world) : world :=
  World (kinds w) (<[l:=c]> (lists w)) (states w) (chains w) (timers w) (given w)
    (owned w) (vars w) (trace w).
Definition set_state (d : nat) (s : option action) (w : world) : world :=
  World (kinds w) (lists w) (<[d:=s]> (states w)) (chains w) (timers w) (given w)
    (owned w) (vars w) (trace w).
Definition logs (es : list event) (w : world) : world :=
  World (kinds w) (lists w) (states w) (chains w) (timers w) (given w)
    (owned w) (vars w) (trace w ++ es).
Abbreviation log e := (logs [e]).
Definition set_chains (cs : list chain) (w : world) : world :=
  World (kinds w) (lists w) (states w) cs (timers w) (given w) (owned w) (vars w) (trace w).
Definition set_timers (ts : list task) (w : world) : world :=
  World (kinds w) (lists w) (states w) (chains w) ts (given w) (owned w) (vars w) (trace w).
Definition set_given (gs : list resolver) (w : world) : world :=
  World (kinds w) (lists w) (states w) (chains w) (timers w) gs (owned w) (vars w) (trace w).
Definition set_owned (n : nat) (w : world) : world :=
  World (kinds w) (lists w) (states w) (chains w) (timers w) (given w) n (vars w) (trace w).
Definition set_var (n : nat) (v : value) (w : world) : world :=
  World (kinds w) (lists w) (states w) (chains w) (timers w) (given w) (owned w)
    (<[n:=v]> (vars w)) (trace w).
Definition set_kinds (ks : list kind) (w : world) : world :=
  World ks (lists w) (states w) (chains w) (timers w) (given w) (owned w) (vars w) (trace w).

(** Where the machine is, and the calls that are under way: a list that is being
    fired, a program, the [process] of a resolver (while its handler runs, and while
    it passes the result on), a function that [pipe] added, a method that returns [v]
    when it has fired, and one that has functions left to add. *)
Inductive phase := Handling | Passing.
Inductive frame :=
  | FLoop (l : lid)
  | FBind (k : value → prog)
  | FProcess (depth : nat) (t : task) (ph : phase)
  | FPiped (n : nat) (a : action) (dat : data)
  | FDone (v : value)
  | FAdds (adds : list (lid * list fn)) (v : value).
Inductive control :=
  | Eval (p : prog) | Call (p : pfn) (dat : data) | Resolving (r : resolver) (dat : data)
  | Adding (adds : list (lid * list fn)) (v : value)
  | Next (l : lid)
  | Ret (v : value) | Exn (v : value).

Record config := Config { ctrl : control; stack : list frame; now : world }.

(** ** Lists in the world *)

(** [queue.length], and then the loop over the list, or the end of [fire] *)
Definition fire_turn (l : lid) (st : list frame) (w : world) : config :=
  match outer (lists w l) with
  | Some c => Config (Next l) st (set_list l c w)
  | None => Config (Ret Undefined) st (set_list l (fire_end (lists w l)) w)
  end.

(** Goes on with [fire] if a method has to; the method returns [v]. *)
Definition fire_if (b : bool) (l : lid) (v : value) (st : list frame) (w : world) : config :=
  if b then fire_turn l (FDone v :: st) (set_list l (fire_start (lists w l)) w)
  else Config (Ret v) st w.

(** [add] of a list, with the functions in its arguments. *)
Definition added_to (l : lid) (fs : list fn) (w : world) : world * bool :=
  let '(c, b) := add (AFun <$> fs) (lists w l) in
  (set_list l c (logs (match items (lists w l) with Some _ => Added l <$> fs | None => [] end) w), b).

Definition add_to (l : lid) (fs : list fn) (v : value) (st : list frame) (w : world) : config :=
  let '(w', b) := added_to l fs w in fire_if b l v st w'.

Definition fire_with (l : lid) (dat : data) (v : value) (st : list frame) (w : world) : config :=
  let '(c, b) := fireWith dat (lists w l) in fire_if b l v st (set_list l c w).

(** ** [jQuery.Deferred()] *)

Definition flags_of (a : action) : flags :=
  match a with Notify => Flags false true false false | _ => Flags true true false false end.

(** [tuples[3 - i]] *)
Definition other (a : action) : action :=
  match a with Resolve => Reject | Reject => Resolve | Notify => Notify end.

(** What the constructor adds to the list of an action. *)
Definition builtins (d : nat) (a : action) : list fn :=
  match a with
  | Notify => []
  | _ => [SetState d a; Disable (Lid d (other a) false); Disable (Lid d (other a) true);
          Lock (Lid d Notify false); Lock (Lid d Notify true)]
  end ++ [FireList (Lid d a true)].

Definition new_lists (d : nat) (w : world) (a : action) : world :=
  fst (added_to (Lid d a false) (builtins d a)
         (set_list (Lid d a true) (Callbacks (flags_of a)) (set_list (Lid d a false) (Callbacks (flags_of a)) w))).

Definition new_deferred (k : kind) (w : world) : nat * world :=
  let d := deferreds w in
  (d, set_state d None
        (fold_left (new_lists d) [Notify; Resolve; Reject]
           (set_kinds (kinds w ++ [k]) w))).

(** [deferred.notify], [resolve] and [reject] *)
Definition settle (d : nat) (a : action) (dat : data) (st : list frame) (w : world) : config :=
  fire_with (Lid d a false) (if decide (dat.1 = Deferred d) then (Undefined, dat.2) else dat) dat.1 st w.

(** ** [then] *)

Definition handler_of (v : value) (default : handler) : handler :=
  match v with Func p => Calls p | _ => default end.

(** The deferred of the result, and the resolvers that go into the three lists of
    handlers, one after the other. *)
Definition then_op (d : nat) (onFulfilled onRejected onProgress : handler) (st : list frame) (w : world) : config :=
  let '(n, w1) := new_deferred OfThen w in
  let c := length (chains w1) in
  Config (Adding [(Lid d Notify true, [First c Notify onProgress]);
                  (Lid d Resolve true, [First c Resolve onFulfilled]);
                  (Lid d Reject true, [First c Reject onRejected])] (Promise n)) st
    (log (Thened c d onFulfilled onRejected) (set_chains (chains w1 ++ [Chain d 0 n]) w1)).

Definition is_special (t : task) : bool := bool_decide (t_action t = Notify).

Definition type_error (st : list frame) (w : world) : config := Config (Exn TypeError) st w.

(** [process], and in it [mightThrow], up to the call of the handler; only what runs
    from a timeout is logged. *)
Definition log_first (depth : nat) (e : event) (w : world) : world := if depth =? 0 then log e w else w.

Definition process (depth : nat) (t : task) (st : list frame) (w : world) : config :=
  match chains w !! t_chain t with
  | None => type_error st w
  | Some ch =>
      if depth <? maxDepth ch then Config (Ret Undefined) st w
      else
        let st' := FProcess depth t Handling :: st in
        let w' := log_first depth (Handled t) w in
        match t_handler t with
        | Calls p => Config (Call p (t_data t)) st' w'
        | Identity => Config (Ret (default Undefined (head (t_data t).2))) st' w'
        | Thrower => Config (Exn (default Undefined (head (t_data t).2))) st' w'
        | Deeper r => Config (Resolving r (t_data t)) st' w'
        end
  end.

(** A call of a resolver: at depth 0 [process] waits for its timeout. *)
Definition task_of (r : resolver) (dat : data) : task :=
  Task (r_chain r) (if r_special r then Notify else if r_throws r then Reject else Resolve)
    (if r_throws r then Thrower else Identity) dat.

Definition queue_task (t : task) (w : world) : world := log (Queued t) (set_timers (timers w ++ [t]) w).

Definition resolving (r : resolver) (dat : data) (st : list frame) (w : world) : config :=
  if r_depth r =? 0 then Config (Ret Undefined) st (queue_task (task_of r dat) w)
  else process (r_depth r) (task_of r dat) st w.

(** Values with a method [then]: what a call of it with [fs] does. *)
Definition call_then (v : value) (resolvers : list resolver) (st : list frame) (w : world) : config :=
  match v with
  | Promise d | Deferred d =>
      let at_ i := from_option Deeper Identity (resolvers !! i) in
      if d <? deferreds w
      then then_op d (at_ 0) (from_option Deeper Thrower (resolvers !! 1)) (at_ 2) st w
      else type_error st w
  | Thenable p =>
      Config (Call p (v, Func ∘ Given <$> seq (length (given w)) (length resolvers))) st
        (set_given (given w ++ resolvers) w)
  | _ => type_error st w
  end.

Definition is_thenable (v : value) : bool :=
  match v with Promise _ | Deferred _ | Thenable _ => true | _ => false end.

(** [mightThrow] when the handler has returned [v]. *)
Definition handled (depth : nat) (t : task) (v : value) (st : list frame) (w : world) : config :=
  let st' := FProcess depth t Passing :: st in
  match chains w !! t_chain t with
  | None => type_error st w
  | Some (Chain d m n) =>
      if decide (v = Promise n) then type_error st' w
      else if is_thenable v then
        if is_special t then
          call_then v [Resolver (t_chain t) m false true; Resolver (t_chain t) m true true] st' w
        else
          call_then v [Resolver (t_chain t) (S m) false false; Resolver (t_chain t) (S m) true false;
                       Resolver (t_chain t) (S m) false true] st'
            (set_chains (<[t_chain t := Chain d (S m) n]> (chains w)) w)
      else
        fire_with (Lid n (if is_special t then Notify else Resolve) false)
          (if decide (t_handler t = Identity) then t_data t else (Undefined, [v])) Undefined st' w
  end.

(** The [catch] of [process]. *)
Definition caught (depth : nat) (t : task) (e : value) (st : list frame) (w : world) : config :=
  match chains w !! t_chain t with
  | Some (Chain _ m n) =>
      if m <=? depth + 1
      then fire_with (Lid n Reject false) (if decide (t_handler t = Thrower) then t_data t else (Undefined, [e]))
             Undefined st w
      else Config (Ret Undefined) st w
  | None => type_error st w
  end.

(** ** [pipe] *)

(** What [pipe] adds to the lists, once its function has returned [v]. *)
Definition piped (n : nat) (a : action) (dat : data) (v : value) (st : list frame) (w : world) : config :=
  match v with
  | Promise d | Deferred d =>
      if d <? deferreds w
      then Config (Adding ((λ a, (Lid d a false, [Forward n a])) <$> [Notify; Resolve; Reject]) Undefined) st w
      else type_error st w
  | _ => fire_with (Lid n a false) (dat.1, [v]) Undefined st w
  end.

Definition pfn_of (v : value) : option pfn := match v with Func p => Some p | _ => None end.

Definition pipe_op (d : nat) (fnDone fnFail fnProgress : value) (st : list frame) (w : world) : config :=
  let '(n, w1) := new_deferred OfPipe w in
  Config (Adding [(Lid d Notify false, [Piped n Notify (pfn_of fnProgress)]);
                  (Lid d Resolve false, [Piped n Resolve (pfn_of fnDone)]);
                  (Lid d Reject false, [Piped n Reject (pfn_of fnFail)])] (Promise n)) st w1.

(** ** Methods that a page calls *)

(** A page can settle only deferreds it has made. *)
Definition can_settle (d : nat) (w : world) : bool := bool_decide (kinds w !! d = Some OfPage).

Definition visible (args : list (arg pfn)) : list fn := Visible <$> flat_map functions_of args.

(** Methods of the page's own lists, which have no loop. *)
Definition own (n : nat) (f : cbs → cbs) (st : list frame) (w : world) : config :=
  Config (Ret (OwnList n)) st (set_list (Own n) (f (lists w (Own n))) w).

Definition deferred_op (d : nat) (o : op) (st : list frame) (w : world) : config :=
  match o with
  | Listen _ a args => add_to (Lid d a false) (visible args) (Promise d) st w
  | Always _ args => Config (Adding [(Lid d Resolve false, visible args); (Lid d Reject false, visible args)] (Promise d)) st w
  | State _ => Config (Ret (StateIs (states w d))) st w
  | PromiseOf _ => Config (Ret (Promise d)) st w
  | Then _ f r p => then_op d (handler_of f Identity) (handler_of r Thrower) (handler_of p Identity) st w
  | Catch _ f => then_op d Identity (handler_of f Thrower) Identity st w
  | Pipe _ f r p => pipe_op d f r p st w
  | SettleWith _ a dat =>
      if can_settle d w then fire_with (Lid d a false) dat (Deferred d) st w else type_error st w
  | _ => type_error st w
  end.

Definition own_op (n : nat) (o : op) (st : list frame) (w : world) : config :=
  match o with
  | LAdd _ args => add_to (Own n) (visible args) (OwnList n) st w
  | LRemove _ ps => own n (remove (Visible <$> ps)) st w
  | LEmpty _ => own n empty st w
  | LDisable _ => own n disable st w
  | LLock _ => own n lock st w
  | LFireWith _ dat => fire_with (Own n) dat (OwnList n) st w
  | LHas _ p => Config (Ret (if has (Visible <$> p) (lists w (Own n)) then Plain 1 else VFalse)) st w
  | _ => type_error st w
  end.

(** A deferred or list that does not exist cannot be named. *)
Definition do_op (o : op) (st : list frame) (w : world) : config :=
  match o with
  | NewDeferred func =>
      let '(d, w1) := new_deferred OfPage w in
      match func with
      | Some p => Config (Call p (Deferred d, [Deferred d])) (FDone (Deferred d) :: st) w1
      | None => Config (Ret (Deferred d)) st w1
      end
  | Listen d _ _ | Always d _ | SettleWith d _ _ | State d | PromiseOf d | Then d _ _ _ | Catch d _ | Pipe d _ _ _ =>
      if d <? deferreds w then deferred_op d o st w else type_error st w
  | Apply p dat => Config (Call p dat) st w
  | Load n => Config (Ret (vars w n)) st w
  | Store n v => Config (Ret v) st (set_var n v w)
  | NewCallbacks o =>
      Config (Ret (OwnList (owned w))) st (set_list (Own (owned w)) (Callbacks o) (set_owned (S (owned w)) w))
  | LAdd n _ | LRemove n _ | LEmpty n | LDisable n | LLock n | LFireWith n _ | LHas n _ =>
      if n <? owned w then own_op n o st w else type_error st w
  end.

(** ** One step *)

Section machine.
(** The bodies of the functions of the page. *)
Context (page : nat → data → prog).

Definition call (p : pfn) (dat : data) (st : list frame) (w : world) : config :=
  match p with
  | Page n => Config (Eval (page n dat)) st w
  | Settle d a => if can_settle d w then settle d a dat st w else type_error st w
  | Given k => match given w !! k with
               | Some r => Config (Resolving r dat) st w
               | None => type_error st w
               end
  end.

(** The list [l] calls [f].  The functions that set the state, disable and lock lists
    and set a timeout return to the loop at once. *)
Definition run_fn (l : lid) (f : fn) (dat : data) (st : list frame) (w : world) : config :=
  match f with
  | Visible p => Config (Call p dat) (FLoop l :: st) w
  | SetState d a => Config (Next l) st (set_state d (Some a) w)
  | Disable l' => Config (Next l) st (set_list l' (disable (lists w l')) w)
  | Lock l' => Config (Next l) st (set_list l' (lock (lists w l')) w)
  | FireList l' => fire_with l' dat dat.1 (FLoop l :: st) w
  | First c a h => Config (Next l) st (queue_task (Task c a h dat) w)
  | Piped n a (Some p) => Config (Call p dat) (FPiped n a dat :: FLoop l :: st) w
  | Piped n a None => fire_with (Lid n a false) dat Undefined (FLoop l :: st) w
  | Forward n a => settle n a dat (FLoop l :: st) w
  end.

Definition next (l : lid) (st : list frame) (w : world) : config :=
  let '(c, f) := inner (lists w l) in
  match f with
  | Some f =>
      let dat := default (Undefined, []) (memory c) in
      run_fn l f dat st (log (Ran l f dat) (set_list l c w))
  | None => fire_turn l st (set_list l (set_index (-1) c) w)
  end.

Definition step_return (v : value) (fr : frame) (st : list frame) (w : world) : config :=
  match fr with
  | FLoop l => Config (Next l) st (set_list l (returned (bool_decide (v = VFalse)) (lists w l)) w)
  | FBind k => Config (Eval (k v)) st w
  | FProcess depth t Handling => handled depth t v st (log_first depth (Answered t v) w)
  | FProcess _ _ Passing => Config (Ret Undefined) st w
  | FPiped n a dat => piped n a dat v st w
  | FDone v' => Config (Ret v') st w
  | FAdds adds v' => Config (Adding adds v') st w
  end.

Definition step_throw (e : value) (fr : frame) (st : list frame) (w : world) : config :=
  match fr with
  | FLoop l => Config (Exn e) st (log (Escaped l) w)
  | FProcess depth t ph =>
      if is_special t then Config (Exn e) st w
      else caught depth t e st
             (match ph with Handling => log_first depth (Threw t e) w | Passing => w end)
  | _ => Config (Exn e) st w
  end.

Definition step (x : config) : option config :=
  let st := stack x in
  let w := now x in
  match ctrl x with
  | Eval (Return v) => Some (Config (Ret v) st w)
  | Eval (Throw v) => Some (Config (Exn v) st w)
  | Eval (Op o k) => Some (do_op o (FBind k :: st) w)
  | Call p dat => Some (call p dat st w)
  | Resolving r dat => Some (resolving r dat st w)
  | Adding [] v => Some (Config (Ret v) st w)
  | Adding ((l, fs) :: adds) v => Some (add_to l fs Undefined (FAdds adds v :: st) w)
  | Next l => Some (next l st w)
  | Ret v => match st with fr :: st' => Some (step_return v fr st' w) | [] => None end
  | Exn e => match st with fr :: st' => Some (step_throw e fr st' w) | [] => None end
  end.

(** The page's scripts and event handlers, and the timeouts, run when nothing else does. *)
Definition idle (x : config) : Prop := stack x = [] ∧ ∃ v, ctrl x = Ret v ∨ ctrl x = Exn v.

Definition timeout (t : task) (w : world) : config := process 0 t [] w.

Inductive runs (x : config) : config → Prop :=
  | runs_step y : step x = Some y → runs x y
  | runs_script p : idle x → runs x (Config (Eval p) [] (now x))
  | runs_timer t ts :
      idle x → timers (now x) = t :: ts → runs x (timeout t (set_timers ts (now x))).

(** For examples: [n] steps, starting the timers that wait when nothing runs. *)
Fixpoint run (n : nat) (x : config) : config :=
  match n with
  | 0 => x
  | S n' =>
      match step x with
      | Some y => run n' y
      | None =>
          match timers (now x) with
          | [] => x
          | t :: ts => run n' (timeout t (set_timers ts (now x)))
          end
      end
  end.
End machine.

(** A page that has not made a deferred yet. *)
Definition start : config :=
  Config (Ret Undefined) []
    (World [] (λ _, Callbacks (Flags false false false false)) (λ _, None) [] [] [] 0 (λ _, Undefined) []).

Definition reachable (page : nat → data → prog) : config → Prop := rtc (runs page) start.
