(* ===== verification/JqDeferredInv.v ===== *)
(** * Deferred objects: what every step preserves

    The four states that a list with [once] and [memory] can be in, what a deferred
    looks like before and after it is settled ([pending], [started]), and the
    invariant of the machine of [JqDeferred]: which lists are firing, what is in
    them, and that every deferred is pending or settled, or is the one that is
    being settled. *)
From stdpp Require Import base list functions relations.
From Stdlib Require Import ZArith Lia.
From S2P Require Import Prelude JqCallbacks JqDeferred.

(** ** The states of a list *)

Definition once_memory : flags := Flags true true false false.
Definition unfired (fs : list fn) : cbs := CbList once_memory false None false false (Some fs) [] (-1).
Definition looping (dat : data) (fs : list fn) (i : Z) : cbs :=
  CbList once_memory true (Some dat) true true (Some fs) [] i.
Definition at_rest (dat : data) : cbs := CbList once_memory false (Some dat) true true (Some []) [] (-1).
Definition off : cbs := CbList once_memory false None false true None [] (-1).

Lemma functions_of_funs (fs : list fn) : flat_map functions_of (AFun <$> fs) = fs.
Proof. induction fs as [|f fs IH]; [done|]. cbn. by f_equal. Qed.

(** Pushing changes nothing but the items, and only adds to these. *)
Lemma push_only (fs : list fn) (c : cbs) : fold_left push fs c = set_items (items (fold_left push fs c)) c.
Proof.
  revert c. induction fs as [|f fs IH]; intros c; simpl; [by destruct c|].
  rewrite IH. unfold push. by destruct (_ && _).
Qed.

Lemma push_elem (fs : list fn) (c : cbs) f : f ∈ list_of (fold_left push fs c) → f ∈ list_of c ∨ f ∈ fs.
Proof.
  revert c. induction fs as [|g fs IH]; intros c; simpl; [auto|].
  intros Hf. apply IH in Hf as [Hf|]; [|right; by apply list_elem_of_further].
  unfold push in Hf. destruct (_ && _); [by left|]. unfold list_of in *. simpl in *.
  rewrite elem_of_app, list_elem_of_singleton in Hf. rewrite elem_of_cons. tauto.
Qed.

Lemma push_all (fs : list fn) (c : cbs) l :
  unique (options c) = false → items c = Some l → fold_left push fs c = set_items (Some (l ++ fs)) c.
Proof.
  revert c l. induction fs as [|f fs IH]; simpl; intros c l Hu Hl.
  - rewrite app_nil_r, <- Hl. by destruct c.
  - unfold push at 2, list_of. rewrite Hu, Hl. simpl.
    rewrite (IH _ (l ++ [f])); [by rewrite <- app_assoc | done..].
Qed.

Lemma add_unfired fs fs' : add (AFun <$> fs') (unfired fs) = (unfired (fs ++ fs'), false).
Proof. unfold add. rewrite functions_of_funs. simpl. by rewrite (push_all _ _ fs). Qed.
Lemma add_looping dat fs i fs' : add (AFun <$> fs') (looping dat fs i) = (looping dat (fs ++ fs') i, false).
Proof. unfold add. rewrite functions_of_funs. simpl. by rewrite (push_all _ _ fs). Qed.
Lemma add_at_rest dat fs' :
  add (AFun <$> fs') (at_rest dat) = (CbList once_memory false (Some dat) true true (Some fs') [dat] (-1), true).
Proof. unfold add. rewrite functions_of_funs. simpl. by rewrite (push_all _ _ []). Qed.
Lemma add_off fs' : add (AFun <$> fs') off = (off, false).
Proof. done. Qed.

(** ** What a trace says of a list *)

Definition runs_of (l : lid) (es : list event) : list (fn * data) :=
  omap (λ e, match e with Ran l' f dat => if decide (l' = l) then Some (f, dat) else None | _ => None end) es.
Definition adds_of (l : lid) (es : list event) : list fn :=
  omap (λ e, match e with Added l' f => if decide (l' = l) then Some f else None | _ => None end) es.

(** Events that say nothing of lists. *)
Definition silent (e : event) : Prop :=
  match e with Added _ _ | Ran _ _ _ | Escaped _ => False | _ => True end.

Lemma runs_of_app l es es' : runs_of l (es ++ es') = runs_of l es ++ runs_of l es'.
Proof. apply omap_app. Qed.
Lemma adds_of_app l es es' : adds_of l (es ++ es') = adds_of l es ++ adds_of l es'.
Proof. apply omap_app. Qed.
Lemma adds_of_added l l' fs : adds_of l (Added l' <$> fs) = if decide (l' = l) then fs else [].
Proof.
  unfold adds_of. induction fs as [|f fs IH]; cbn; [by destruct (decide _)|].
  rewrite IH. by destruct (decide (l' = l)).
Qed.
Lemma runs_of_added l l' fs : runs_of l (Added l' <$> fs) = [].
Proof. induction fs as [|f fs IH]; [done | exact IH]. Qed.
Lemma silent_nothing l e : silent e → runs_of l [e] = [] ∧ adds_of l [e] = [].
Proof. by destruct e. Qed.
Lemma elem_runs l f dat es : (f, dat) ∈ runs_of l es ↔ Ran l f dat ∈ es.
Proof.
  unfold runs_of. rewrite list_elem_of_omap. split.
  - intros ([] & Hin & E); simplify_eq. case_decide; by simplify_eq.
  - intros Hin. exists (Ran l f dat). by rewrite decide_True.
Qed.
Lemma elem_adds l f es : f ∈ adds_of l es ↔ Added l f ∈ es.
Proof.
  unfold adds_of. rewrite list_elem_of_omap. split.
  - intros ([] & Hin & E); simplify_eq. case_decide; by simplify_eq.
  - intros Hin. exists (Added l f). by rewrite decide_True.
Qed.

(** ** A deferred *)

Abbreviation main d a := (Lid d a false).
Abbreviation hand d a := (Lid d a true).

Section world.
Context (w : world).

(** Nothing has been called; [b] tells whether the list has been disabled. *)
Definition quiet_side (b : bool) (l : lid) : Prop :=
  runs_of l (trace w) = [] ∧ lists w l = if b then off else unfired (adds_of l (trace w)).

Definition pending (d : nat) : Prop :=
  states w d = None ∧ ∀ a h, a ≠ Notify → quiet_side false (Lid d a h).

(** A list that fires or has fired [dat]: it has called the first of what was added. *)
Inductive firing_side (dat : data) (l : lid) : Prop :=
  | side_looping i fs :
      (-1 ≤ i < Z.of_nat (length fs))%Z → lists w l = looping dat fs i →
      (runs_of l (trace w)).*1 ++ drop (Z.to_nat (i + 1)) fs = adds_of l (trace w) → firing_side dat l
  | side_at_rest :
      lists w l = at_rest dat → (runs_of l (trace w)).*1 = adds_of l (trace w) → firing_side dat l.

(** How many functions the list of the action has called. *)
Definition called (d : nat) (a : action) : nat := length (runs_of (main d a) (trace w)).

Record started (d : nat) (a : action) (dat : data) : Prop := {
  st_action : a ≠ Notify;
  st_main : firing_side dat (main d a);
  st_state : states w d = if 1 <=? called d a then Some a else None;
  st_other : quiet_side (2 <=? called d a) (main d (other a));
  st_others : quiet_side (3 <=? called d a) (hand d (other a));
  st_hand : if 6 <=? called d a then firing_side dat (hand d a) else quiet_side false (hand d a);
  st_data f dat' h : (f, dat') ∈ runs_of (Lid d a h) (trace w) → dat' = dat
}.

Definition calm (d : nat) : Prop := pending d ∨ ∃ a dat, started d a dat ∧ 6 ≤ called d a.

Definition born (l : lid) : Prop := match l with Lid d _ _ => d < deferreds w | Own n => n < owned w end.

#[global] Instance born_dec l : Decision (born l).
Proof. destruct l; simpl; apply _. Defined.

(** What is put into a list after its deferred has been made. *)
Definition user (f : fn) : Prop :=
  match f with Visible _ => True | Piped n _ _ | Forward n _ => kinds w !! n = Some OfPipe | _ => False end.
Definition addable (l : lid) (f : fn) : Prop :=
  match l with
  | Lid _ _ false => user f
  | Lid _ a true => ∃ c h, f = First c a h
  | Own _ => ∃ p, f = Visible p
  end.
Definition shape (l : lid) (f : fn) : Prop :=
  addable l f ∨ match l with Lid d a false => f ∈ builtins d a | _ => False end.

(** [ls] are the lists whose loops are under way. *)
Record sound (ls : list lid) : Prop := {
  s_unborn l : ¬ born l → firing (lists w l) = false ∧ runs_of l (trace w) = [] ∧ adds_of l (trace w) = [];
  s_items l f : f ∈ list_of (lists w l) → f ∈ adds_of l (trace w);
  s_shape l f : f ∈ adds_of l (trace w) → shape l f;
  s_builtins d a : d < deferreds w → a ≠ Notify →
    ∃ fs, adds_of (main d a) (trace w) = builtins d a ++ fs ∧ Forall user fs;
  s_nodup : NoDup ls;
  s_firing l : firing (lists w l) = true ↔ l ∈ ls ∨ Escaped l ∈ trace w;
  s_escaped l : l ∈ ls → Escaped l ∉ trace w;
  s_hand d a : Escaped (hand d a) ∉ trace w
}.
End world.

(** ** Worlds that agree on a list *)

Record same (l : lid) (w w' : world) : Prop := {
  same_list : lists w' l = lists w l;
  same_runs : runs_of l (trace w') = runs_of l (trace w);
  same_adds : adds_of l (trace w') = adds_of l (trace w);
  same_escaped : Escaped l ∈ trace w' ↔ Escaped l ∈ trace w
}.

#[export] Instance same_preorder l : PreOrder (same l).
Proof.
  split; [done|]. intros w1 w2 w3 [] []. split; congruence || tauto.
Qed.

(** Deferreds are only made. *)
Definition kinds_le (w w' : world) : Prop := kinds w `prefix_of` kinds w'.
Lemma kinds_le_eq w w' : kinds w' = kinds w → kinds_le w w'.
Proof. by intros E; unfold kinds_le; rewrite E. Qed.
Lemma kinds_le_deferreds w w' : kinds_le w w' → deferreds w ≤ deferreds w'.
Proof. apply prefix_length. Qed.
Lemma kinds_deferreds w w' : kinds w' = kinds w → deferreds w' = deferreds w.
Proof. unfold deferreds. by intros ->. Qed.
Lemma kind_born w n k : kinds w !! n = Some k → n < deferreds w.
Proof. apply lookup_lt_Some. Qed.
Create HintDb jq.
#[export] Hint Resolve kind_born kinds_le_eq kinds_le_deferreds kinds_deferreds : jq.

Section same_worlds.
Context (w w' : world).

Lemma same_quiet_side b l : same l w w' → quiet_side w b l → quiet_side w' b l.
Proof. intros [E1 E2 E3 _] [H1 H2]. split; [congruence|]. by rewrite E1, E3. Qed.

Lemma same_firing_side dat l : same l w w' → firing_side w dat l → firing_side w' dat l.
Proof.
  intros [E1 E2 E3 _] [i fs Hi Hl Hr | Hl Hr]; rewrite <- E1, <- E2, <- E3 in *;
    [by eapply side_looping | by eapply side_at_rest].
Qed.

Definition same_deferred (d : nat) : Prop :=
  states w' d = states w d ∧ ∀ a h, a ≠ Notify → same (Lid d a h) w w'.

Lemma same_called d a : a ≠ Notify → same_deferred d → called w' d a = called w d a.
Proof. intros Ha [_ H]. unfold called. by rewrite (same_runs _ _ _ (H a false Ha)). Qed.

Lemma other_not_notify a : a ≠ Notify → other a ≠ Notify.
Proof. by destruct a. Qed.

Lemma same_started d a dat : same_deferred d → started w d a dat → started w' d a dat.
Proof.
  intros Hs H. pose proof (st_action _ _ _ _ H) as Ha. pose proof (other_not_notify a Ha) as Ho.
  pose proof (same_called d a Ha Hs) as Hc. destruct Hs as [Hst Hs], H.
  split; rewrite ?Hc; [done | by eapply same_firing_side; eauto | by rewrite Hst
    | by eapply same_quiet_side; eauto | by eapply same_quiet_side; eauto | |].
  - destruct (6 <=? _); [by eapply same_firing_side; eauto | by eapply same_quiet_side; eauto].
  - intros f dat' h. rewrite (same_runs _ _ _ (Hs a h Ha)). eauto.
Qed.

Lemma same_calm d : same_deferred d → calm w d → calm w' d.
Proof.
  intros Hs [[H1 H2]|(a & dat & H & Hj)].
  - left. destruct Hs as [E Hs]. split; [congruence|]. intros a h Ha. by eapply same_quiet_side; eauto.
  - right. exists a, dat. pose proof (same_called d a (st_action _ _ _ _ H) Hs) as Hc.
    rewrite Hc. split; [by apply same_started | done].
Qed.

Lemma user_mono f : kinds_le w w' → user w f → user w' f.
Proof. intros Hk. destruct f; simpl; try done; intros; by eapply prefix_lookup_Some. Qed.
Lemma addable_mono l f : kinds_le w w' → addable w l f → addable w' l f.
Proof. destruct l as [d a []|]; simpl; eauto using user_mono. Qed.
Lemma shape_mono l f : kinds_le w w' → shape w l f → shape w' l f.
Proof. intros ? [|]; [left; by eapply addable_mono | by right]. Qed.
Lemma born_mono l : deferreds w ≤ deferreds w' → owned w ≤ owned w' → born w l → born w' l.
Proof. destruct l; simpl; lia. Qed.

Lemma sound_same ls :
  (∀ l, same l w w') → kinds w' = kinds w → owned w ≤ owned w' → sound w ls → sound w' ls.
Proof.
  intros Hs Hk Ho []. pose proof (kinds_deferreds _ _ Hk) as Hd. pose proof (kinds_le_eq _ _ Hk) as Hle.
  split; intros *; rewrite ?(same_list _ _ _ (Hs _)), ?(same_runs _ _ _ (Hs _)),
    ?(same_adds _ _ _ (Hs _)), ?(same_escaped _ _ _ (Hs _)); eauto.
  - intros Hb. apply s_unborn0. intros Hb'. apply Hb. eapply born_mono; eauto. lia.
  - intros Hf. eapply shape_mono; eauto.
  - rewrite Hd. intros Hlt Ha. destruct (s_builtins0 d a Hlt Ha) as (fs & E & Hf). exists fs. split; [done|].
    eapply Forall_impl; [done|]. intros. by eapply user_mono.
Qed.

(** A change of the list [l] alone. *)
Lemma sound_change ls ls' l fs :
  sound w ls → born w l → kinds w' = kinds w → owned w' = owned w → (∀ l', l' ≠ l → same l' w w') →
  adds_of l (trace w') = adds_of l (trace w) ++ fs → Forall (addable w l) fs →
  (∀ f, f ∈ list_of (lists w' l) → f ∈ list_of (lists w l) ∨ f ∈ fs) →
  NoDup ls' → (∀ l', l' ≠ l → l' ∈ ls' ↔ l' ∈ ls) →
  (firing (lists w' l) = true ↔ l ∈ ls' ∨ Escaped l ∈ trace w') → (l ∈ ls' → Escaped l ∉ trace w') →
  (∀ d a, l = hand d a → Escaped l ∉ trace w') → sound w' ls'.
Proof.
  intros H Hb Hk Ho Hs Ea Hfs Hitems Hnd Hls Hf He Hh.
  pose proof (kinds_deferreds _ _ Hk) as Hd. pose proof (kinds_le_eq _ _ Hk) as Hle.
  assert (Hsh : ∀ f, f ∈ fs → addable w' l f).
  { intros f Hin. rewrite Forall_forall in Hfs. eapply addable_mono; [done|by apply Hfs]. }
  split; [intros l' Hn | intros l' f Hin | intros l' f Hin | intros d a Hlt Ha | done | intros l' | intros l' Hin | intros d a].
  - assert (¬ born w l') as Hn' by (intros ?; apply Hn; eapply born_mono; [| |done]; lia).
    assert (l' ≠ l) as Hne by congruence. destruct (Hs l' Hne) as [-> -> -> _]. by eapply s_unborn.
  - destruct (decide (l' = l)) as [->|Hne].
    + rewrite Ea, elem_of_app. destruct (Hitems _ Hin); [left; by eapply s_items | by right].
    + destruct (Hs l' Hne) as [E _ -> _]. rewrite E in Hin. by eapply s_items.
  - destruct (decide (l' = l)) as [->|Hne].
    + rewrite Ea, elem_of_app in Hin. destruct Hin; [|left; auto].
      eapply shape_mono; [done|by eapply s_shape].
    + destruct (Hs l' Hne) as [_ _ E _]. rewrite E in Hin. eapply shape_mono; [done|by eapply s_shape].
  - rewrite Hd in Hlt. destruct (s_builtins _ _ H d a Hlt Ha) as (us & E & Hus).
    assert (Hus' : Forall (user w') us).
    { eapply Forall_impl; [done|]. intros. by eapply user_mono. }
    destruct (decide (main d a = l)) as [<-|Hne].
    + exists (us ++ fs). rewrite Ea, E, app_assoc. split; [done|]. rewrite Forall_app. split; [done|].
      by rewrite Forall_forall.
    + exists us. destruct (Hs _ Hne) as [_ _ -> _]. done.
  - destruct (decide (l' = l)) as [->|Hne]; [done|]. destruct (Hs l' Hne) as [-> _ _ ->].
    rewrite (s_firing _ _ H), Hls; done.
  - destruct (decide (l' = l)) as [->|Hne]; [by apply He|]. destruct (Hs l' Hne) as [_ _ _ ->].
    apply (s_escaped _ _ H). by apply Hls.
  - destruct (decide (hand d a = l)) as [<-|Hne]; [by eapply Hh|]. destruct (Hs _ Hne) as [_ _ _ ->].
    by eapply s_hand.
Qed.
End same_worlds.

(** ** What methods of lists do to a world *)

#[export] Instance silent_dec e : Decision (silent e).
Proof. destruct e; simpl; apply _. Defined.

(** The events that say nothing of lists. *)
Definition notes (es : list event) : list event := filter silent es.
Lemma notes_app es es' : notes (es ++ es') = notes es ++ notes es'.
Proof. apply filter_app. Qed.
Lemma notes_added l fs : notes (Added l <$> fs) = [].
Proof. induction fs as [|f fs IH]; [done | exact IH]. Qed.

(** The events other than additions and exceptions. *)
Definition is_call (e : event) : Prop := match e with Added _ _ | Escaped _ => False | _ => True end.
#[export] Instance is_call_dec e : Decision (is_call e).
Proof. destruct e; simpl; apply _. Defined.
Definition calls (es : list event) : list event := filter is_call es.
Lemma calls_app es es' : calls (es ++ es') = calls es ++ calls es'.
Proof. apply filter_app. Qed.
Lemma calls_added l fs : calls (Added l <$> fs) = [].
Proof. induction fs as [|f fs IH]; [done | exact IH]. Qed.
Lemma runs_of_calls l es : runs_of l (calls es) = runs_of l es.
Proof.
  unfold calls. induction es as [|e es IH]; [done|].
  destruct (decide (is_call e)); [rewrite filter_cons_True by done | rewrite filter_cons_False by done].
  - change (runs_of l ([e] ++ filter is_call es) = runs_of l ([e] ++ es)). by rewrite !runs_of_app, IH.
  - rewrite IH. by destruct e.
Qed.
Lemma same_calls_runs es es' l : calls es' = calls es → runs_of l es' = runs_of l es.
Proof. intros E. by rewrite <- runs_of_calls, E, runs_of_calls. Qed.

(** Nothing but lists changes. *)
Record only_lists (w w' : world) : Prop := {
  ol_kinds : kinds w' = kinds w;
  ol_states : states w' = states w;
  ol_chains : chains w' = chains w;
  ol_timers : timers w' = timers w;
  ol_given : given w' = given w;
  ol_owned : owned w' = owned w;
  ol_notes : notes (trace w') = notes (trace w);
  ol_trace : trace w `prefix_of` trace w'
}.
#[export] Instance only_lists_preorder : PreOrder only_lists.
Proof. split; [done|]. intros w1 w2 w3 [] []. split; try congruence. by etrans. Qed.

(** [w'] differs from [w] in the list [l], to which [fs] has been added. *)
Record touches (l : lid) (fs : list fn) (w w' : world) : Prop := {
  to_lists : only_lists w w';
  to_same l' : l' ≠ l → same l' w w';
  to_adds : adds_of l (trace w') = adds_of l (trace w) ++ fs;
  to_items f : f ∈ list_of (lists w' l) → f ∈ list_of (lists w l) ∨ f ∈ fs
}.

Lemma ol_deferreds w w' : only_lists w w' → deferreds w' = deferreds w.
Proof. intros H. apply kinds_deferreds, H. Qed.
Lemma ol_le w w' : only_lists w w' → kinds_le w w'.
Proof. intros H. apply kinds_le_eq, H. Qed.
Lemma only_lists_born w w' l : only_lists w w' → born w l → born w' l.
Proof. intros H. apply born_mono; [rewrite (ol_deferreds _ _ H) | rewrite (ol_owned _ _ H)]; lia. Qed.

Lemma touches_trans l fs fs' w1 w2 w3 :
  touches l fs w1 w2 → touches l fs' w2 w3 → touches l (fs ++ fs') w1 w3.
Proof.
  intros [] []. split; [by etrans | intros l' Hl; etrans; eauto | by rewrite to_adds1, to_adds0, app_assoc |].
  intros f Hf. rewrite elem_of_app. destruct (to_items1 f Hf) as [Hf'|]; [|tauto]. destruct (to_items0 f Hf'); tauto.
Qed.

Lemma touches_set l c es w :
  (∀ e, e ∈ es → match e with Added l' _ | Ran l' _ _ | Escaped l' => l' = l | _ => False end) →
  (∀ f, f ∈ list_of c → f ∈ list_of (lists w l) ∨ f ∈ adds_of l es) →
  touches l (adds_of l es) w (set_list l c (logs es w)).
Proof.
  intros Hes Hc. split.
  - split; try done; [|by exists es]. simpl. rewrite notes_app.
    replace (notes es) with (@nil event); [by rewrite app_nil_r|].
    symmetry. apply elem_of_nil_inv. intros e. unfold notes. rewrite list_elem_of_filter.
    intros [H1 H2]. specialize (Hes e H2). by destruct e.
  - intros l' Hl. split; simpl.
    + by rewrite fn_lookup_insert_ne.
    + rewrite runs_of_app. enough (runs_of l' es = []) as -> by apply app_nil_r.
      apply elem_of_nil_inv. intros [f dat]. rewrite elem_runs. intros H. by specialize (Hes _ H).
    + rewrite adds_of_app. enough (adds_of l' es = []) as -> by apply app_nil_r.
      apply elem_of_nil_inv. intros f. rewrite elem_adds. intros H. by specialize (Hes _ H).
    + rewrite elem_of_app. split; [|tauto]. intros [|H]; [done|]. by specialize (Hes _ H).
  - simpl. apply adds_of_app.
  - simpl. rewrite fn_lookup_insert. done.
Qed.

(** The lists whose loops are under way, innermost first. *)
Definition loops_of (st : list frame) : list lid :=
  omap (λ fr, match fr with FLoop l => Some l | _ => None end) st.
Definition loops (x : config) : list lid :=
  match ctrl x with Next l => [l] | _ => [] end ++ loops_of (stack x).

Lemma loops_of_app st st' : loops_of (st ++ st') = loops_of st ++ loops_of st'.
Proof. apply omap_app. Qed.

Section touched.
Context (l : lid) (fs : list fn) (w w' : world).
Hypothesis Ht : touches l fs w w'.
Hypothesis Hb : born w l.
Hypothesis Hfs : Forall (addable w l) fs.
Hypothesis He : Escaped l ∈ trace w' ↔ Escaped l ∈ trace w.

Lemma touches_sound ls ls' :
  sound w ls → NoDup ls' → (∀ l', l' ≠ l → l' ∈ ls' ↔ l' ∈ ls) →
  (firing (lists w' l) = true ↔ l ∈ ls' ∨ Escaped l ∈ trace w') → (l ∈ ls' → Escaped l ∉ trace w') → sound w' ls'.
Proof.
  intros H. intros. destruct Ht as [[] Hsame Ha Hi].
  eapply (sound_change w w' ls ls' l fs); eauto. intros d a ->. rewrite He. by eapply s_hand.
Qed.

Lemma touches_sound_keep ls :
  firing (lists w' l) = firing (lists w l) → sound w ls → sound w' ls.
Proof.
  intros Hf H. eapply touches_sound; [done | by eapply s_nodup | done | |].
  - rewrite Hf, He. by eapply s_firing.
  - rewrite He. by eapply s_escaped.
Qed.

Lemma touches_sound_start ls :
  firing (lists w l) = false → firing (lists w' l) = true → sound w ls → sound w' (l :: ls).
Proof.
  intros Hf Hf' H. assert (¬ (l ∈ ls ∨ Escaped l ∈ trace w)) as Hn.
  { rewrite <- (s_firing _ _ H), Hf. done. }
  eapply touches_sound; [done | | | |].
  - apply NoDup_cons. split; [tauto | by eapply s_nodup].
  - intros l' Hl. rewrite elem_of_cons. tauto.
  - rewrite elem_of_cons. tauto.
  - rewrite He. tauto.
Qed.

Lemma touches_sound_end ls :
  firing (lists w' l) = false → sound w (l :: ls) → sound w' ls.
Proof.
  intros Hf H. pose proof (s_nodup _ _ H) as [Hn Hnd]%NoDup_cons.
  pose proof (s_escaped _ _ H l (list_elem_of_here _ _)) as Hne.
  eapply touches_sound; [done | done | | |].
  - intros l' Hl. rewrite elem_of_cons. tauto.
  - rewrite Hf, He. split; [done | tauto].
  - done.
Qed.
End touched.

(** What a method that may fire [l] leads to. *)
Record fires (l : lid) (fs : list fn) (w : world) (st : list frame) (x : config) : Prop := {
  fi_touches : touches l fs w (now x);
  fi_sound : sound (now x) (loops x);
  fi_escaped : Escaped l ∈ trace (now x) ↔ Escaped l ∈ trace w;
  fi_calls : calls (trace (now x)) = calls (trace w);
  fi_stack : stack x = st ∨ ∃ v, stack x = FDone v :: st;
  fi_ctrl : ctrl x = Next l ∨ ∃ v, ctrl x = Ret v
}.

Lemma set_list_touches l c w :
  (∀ f, f ∈ list_of c → f ∈ list_of (lists w l)) → touches l [] w (set_list l c w).
Proof.
  intros Hc. replace (set_list l c w) with (set_list l c (logs [] w)).
  - apply (touches_set l c [] w); [by intros e ?%elem_of_nil | auto].
  - unfold set_list. simpl. by rewrite app_nil_r.
Qed.

Lemma fire_turn_fires l st w :
  born w l → sound w (l :: loops_of st) → fires l [] w st (fire_turn l st w).
Proof.
  intros Hb H. assert (Hf : firing (lists w l) = true).
  { apply (s_firing _ _ H). left. apply list_elem_of_here. }
  unfold fire_turn, outer. destruct (queue (lists w l)) as [|d q].
  - assert (touches l [] w (set_list l (fire_end (lists w l)) w)) as Ht.
    { apply set_list_touches. unfold fire_end. destruct (keeps_memory _), (locked _); simpl; try done.
      - intros f. unfold list_of at 1. simpl. destruct (memory _); intros Hin%elem_of_nil; done.
      - intros f. unfold list_of at 1. simpl. intros Hin%elem_of_nil; done. }
    split; simpl; eauto. eapply (touches_sound_end l [] w); [done | done | constructor | done | | done].
    simpl. rewrite fn_lookup_insert.
    unfold fire_end. by destruct (keeps_memory _), (locked _).
  - assert (touches l [] w (set_list l (set_memory (Some d) (set_queue q (lists w l))) w)) as Ht
      by by apply set_list_touches.
    split; simpl; eauto. eapply (touches_sound_keep l [] w); [done | done | constructor | done | | done].
    simpl. by rewrite fn_lookup_insert.
Qed.

Lemma fire_if_fires b l v st fs w w' :
  born w l → Forall (addable w l) fs → touches l fs w w' → (Escaped l ∈ trace w' ↔ Escaped l ∈ trace w) →
  calls (trace w') = calls (trace w) →
  firing (lists w' l) = firing (lists w l) → (b = true → firing (lists w l) = false) → sound w (loops_of st) →
  fires l fs w st (fire_if b l v st w').
Proof.
  intros Hb Hfs Ht He Hr Hf Hbf H. destruct b; simpl.
  - set (w1 := set_list l (fire_start (lists w' l)) w').
    assert (Ht1 : touches l fs w w1).
    { replace fs with (fs ++ []) by apply app_nil_r. eapply touches_trans; [done|]. by apply set_list_touches. }
    assert (He1 : Escaped l ∈ trace w1 ↔ Escaped l ∈ trace w) by done.
    assert (born w1 l) as Hb1.
    { eapply only_lists_born; [apply Ht1 | done]. }
    assert (sound w1 (l :: loops_of (FDone v :: st))) as H1.
    { simpl. eapply touches_sound_start; eauto. subst w1. simpl. by rewrite fn_lookup_insert. }
    destruct (fire_turn_fires l (FDone v :: st) w1 Hb1 H1) as [Ht2 Hs2 He2 Hr2 Hst Hc].
    split; [|done|tauto|etrans; [exact Hr2 | exact Hr]| |done].
    + replace fs with (fs ++ []) by apply app_nil_r. by eapply touches_trans.
    + unfold fire_turn. destruct (outer _); eauto.
  - split; simpl; eauto. by eapply touches_sound_keep.
Qed.

Lemma add_to_fires l fs v st w :
  born w l → Forall (addable w l) fs → sound w (loops_of st) →
  ∃ fs', (fs' = fs ∨ fs' = [] ∧ items (lists w l) = None) ∧ fires l fs' w st (add_to l fs v st w).
Proof.
  intros Hb Hfs H. unfold add_to, added_to, add. rewrite functions_of_funs.
  destruct (items (lists w l)) as [its|] eqn:Ei.
  - exists fs. split; [by left|]. cbv zeta. match goal with |- context [fold_left push fs ?c] => set (c1 := c) end.
    assert (Hc1 : list_of c1 = list_of (lists w l) ∧ firing c1 = firing (lists w l)).
    { subst c1. destruct (memory _); [destruct (negb _)|]; done. }
    rewrite (push_only fs c1). eapply fire_if_fires; eauto.
    + set (its' := items _).
      rewrite <- (decide_True (P := l = l) fs [] eq_refl) at 1. rewrite <- adds_of_added. apply touches_set.
      * intros e (f & -> & _)%list_elem_of_fmap. done.
      * intros f Hin. rewrite adds_of_added, decide_True by done. destruct Hc1 as [<- _].
        apply (push_elem fs c1). rewrite push_only. done.
    + simpl. rewrite elem_of_app. split; [|tauto]. intros [|(f & ? & _)%list_elem_of_fmap]; done.
    + simpl. by rewrite calls_app, calls_added, app_nil_r.
    + simpl. rewrite fn_lookup_insert. simpl. tauto.
    + destruct (memory _), (firing _); done.
  - exists []. split; [by right|]. eapply fire_if_fires; eauto; simpl.
    + replace (logs [] w) with w by (unfold logs; destruct w; simpl; by rewrite app_nil_r).
      by apply set_list_touches.
    + by rewrite app_nil_r.
    + by rewrite app_nil_r.
    + by rewrite fn_lookup_insert.
    + done.
Qed.

Lemma fire_with_fires l dat v st w :
  born w l → sound w (loops_of st) → fires l [] w st (fire_with l dat v st w).
Proof.
  intros Hb H. unfold fire_with, fireWith. destruct (locked (lists w l)).
  - eapply fire_if_fires; eauto; simpl; try done; [by apply set_list_touches|]. by rewrite fn_lookup_insert.
  - eapply fire_if_fires; eauto; simpl; try done; [by apply set_list_touches| |].
    + by rewrite fn_lookup_insert.
    + by destruct (firing _).
Qed.

(** ** One list of a deferred changes *)

(** [w'] is [w] but for the list [l] and its events, and [l] is quiet or firing as before. *)
Record keeps (l : lid) (w w' : world) : Prop := {
  ke_states : states w' = states w;
  ke_same l' : l' ≠ l → same l' w w';
  ke_runs : runs_of l (trace w') = runs_of l (trace w);
  ke_quiet b : quiet_side w b l → quiet_side w' b l;
  ke_firing dat : firing_side w dat l → firing_side w' dat l
}.

Section keeping.
Context (l : lid) (w w' : world) (H : keeps l w w').

Lemma keeps_quiet b l' : quiet_side w b l' → quiet_side w' b l'.
Proof.
  destruct (decide (l' = l)) as [->|Hl]; [by apply (ke_quiet _ _ _ H)|].
  apply same_quiet_side. by apply (ke_same _ _ _ H).
Qed.
Lemma keeps_firing dat l' : firing_side w dat l' → firing_side w' dat l'.
Proof.
  destruct (decide (l' = l)) as [->|Hl]; [by apply (ke_firing _ _ _ H)|].
  apply same_firing_side. by apply (ke_same _ _ _ H).
Qed.
Lemma keeps_runs l' : runs_of l' (trace w') = runs_of l' (trace w).
Proof.
  destruct (decide (l' = l)) as [->|Hl]; [by apply (ke_runs _ _ _ H)|].
  apply same_runs. by apply (ke_same _ _ _ H).
Qed.

Lemma keeps_started d a dat : started w d a dat → started w' d a dat.
Proof.
  intros []. assert (Hc : ∀ a, called w' d a = called w d a) by (intros ?; unfold called; by rewrite keeps_runs).
  split; rewrite ?Hc; [done | by apply keeps_firing | by rewrite (ke_states _ _ _ H)
    | by apply keeps_quiet | by apply keeps_quiet | |].
  - destruct (6 <=? _); [by apply keeps_firing | by apply keeps_quiet].
  - intros f dat' h. rewrite keeps_runs. eauto.
Qed.

Lemma keeps_calm d : calm w d → calm w' d.
Proof.
  intros [[E Hq]|(a & dat & Hs & Hj)].
  - left. split; [by rewrite (ke_states _ _ _ H)|]. intros. by apply keeps_quiet, Hq.
  - right. exists a, dat. unfold called. rewrite keeps_runs. split; [by apply keeps_started | done].
Qed.
End keeping.

Lemma touches_keeps l fs w w' :
  touches l fs w w' → runs_of l (trace w') = runs_of l (trace w) →
  (∀ b, quiet_side w b l → quiet_side w' b l) → (∀ dat, firing_side w dat l → firing_side w' dat l) → keeps l w w'.
Proof. intros [[] ? ? ?]. by split. Qed.

Lemma add_to_keeps l fs v st w : quiet_side w true l ∨ quiet_side w false l ∨ (∃ dat, firing_side w dat l) →
  let x := add_to l fs v st w in
  runs_of l (trace (now x)) = runs_of l (trace w) ∧
  (∀ b, quiet_side w b l → quiet_side (now x) b l) ∧ (∀ dat, firing_side w dat l → firing_side (now x) dat l).
Proof.
  intros Hl. unfold add_to, added_to.
  assert (Hr : runs_of l (trace w ++ (Added l <$> fs)) = runs_of l (trace w)).
  { by rewrite runs_of_app, runs_of_added, app_nil_r. }
  assert (Ha : adds_of l (trace w ++ (Added l <$> fs)) = adds_of l (trace w) ++ fs).
  { by rewrite adds_of_app, adds_of_added, decide_True. }
  destruct Hl as [[E1 E2]|[[E1 E2]|(dat0 & [i gs Hi E2 E3|E2 E3])]]; rewrite E2.
  - rewrite add_off. simpl. rewrite app_nil_r. split; [done|].
    unfold quiet_side. simpl. rewrite fn_lookup_insert, app_nil_r. split.
    + intros b [H1 H2]. split; [done|]. by rewrite <- H2, E2.
    + intros dat [i' gs' _ H2 _|H2 _]; rewrite E2 in H2; done.
  - rewrite add_unfired. simpl. rewrite Hr. split; [done|]. split.
    + intros b [_ H2]. split; simpl; [by rewrite Hr, E1|]. rewrite fn_lookup_insert, Ha. rewrite E2 in H2. by destruct b.
    + intros dat [i' gs' _ H2 _|H2 _]; rewrite E2 in H2; done.
  - rewrite add_looping. simpl. rewrite Hr. split; [done|]. split.
    + intros b [_ H2]. rewrite E2 in H2. by destruct b.
    + intros dat [i' gs' _ H2 _|H2 _]; rewrite E2 in H2; simplify_eq.
      eapply side_looping; simpl; [ | by rewrite fn_lookup_insert | ]; [rewrite length_app; lia|].
      rewrite Hr, Ha, drop_app_le by lia. by rewrite app_assoc, E3.
  - rewrite add_at_rest. simpl. unfold fire_turn. simpl. rewrite !fn_lookup_insert. simpl. rewrite Hr. split; [done|]. split.
    + intros b [_ H2]. rewrite E2 in H2. by destruct b.
    + intros dat [i' gs' _ H2 _|H2 _]; rewrite E2 in H2; simplify_eq.
      eapply (side_looping _ _ _ (-1) fs); simpl; [lia | by rewrite !fn_lookup_insert |].
      by rewrite Hr, Ha, E3.
Qed.

(** Settling a pending deferred opens a window in which nothing else runs. *)
Lemma fire_pending d a dat v st w :
  a ≠ Notify → pending w d →
  let x := fire_with (main d a) dat v st w in
  ctrl x = Next (main d a) ∧ started (now x) d a dat ∧ called (now x) d a = 0.
Proof.
  intros Ha [Es Hq]. destruct (Hq a false Ha) as [E1 E2].
  unfold fire_with, fireWith. rewrite E2. simpl. unfold fire_turn. simpl. rewrite !fn_lookup_insert. simpl.
  split; [done|]. unfold called. simpl. rewrite E1. simpl. split; [|done].
  assert (Hne : ∀ l', l' ≠ main d a → same l' w
    (set_list (main d a) (looping dat (adds_of (main d a) (trace w)) (-1)) w)).
  { intros l' Hl. split; simpl; try done. by rewrite fn_lookup_insert_ne. }
  assert (Hside : ∀ a' h, a' ≠ Notify → Lid d a' h ≠ main d a →
    quiet_side (set_list (main d a) (looping dat (adds_of (main d a) (trace w)) (-1)) w) false (Lid d a' h)).
  { intros a' h Ha' Hne'. eapply same_quiet_side; [by apply Hne | by apply Hq]. }
  apply (same_started (set_list (main d a) (looping dat (adds_of (main d a) (trace w)) (-1)) w));
    [|split; unfold called; simpl; rewrite ?E1; simpl; [done | | done | | | |] ].
  2: { apply (side_looping _ _ _ (-1) (adds_of (main d a) (trace w))); simpl; [lia | by rewrite fn_lookup_insert | by rewrite E1]. }
  2, 3: apply Hside; [by apply other_not_notify | by destruct a].
  2: by apply Hside.
  - split; [done|]. intros a' h Ha'. split; simpl; try done.
    destruct (decide (Lid d a' h = main d a)) as [->|Hn]; [by rewrite !fn_lookup_insert|].
    by rewrite !fn_lookup_insert_ne.
  - intros f dat' h. destruct (Hq a h Ha) as [-> _]. intros Hin%elem_of_nil. done.
Qed.

Lemma fire_locked l dat v st w :
  locked (lists w l) = true → let x := fire_with l dat v st w in ctrl x = Ret v ∧ stack x = st ∧ keeps l w (now x).
Proof.
  intros Hl. unfold fire_with, fireWith. rewrite Hl. simpl. split; [done|]. split; [done|].
  assert (Hs : ∀ l', same l' w (set_list l (lists w l) w)).
  { intros l'. split; simpl; try done. destruct (decide (l' = l)) as [->|]; [by rewrite fn_lookup_insert|].
    by rewrite fn_lookup_insert_ne. }
  split; [done | by intros | done | |]; intros *; [apply same_quiet_side | apply same_firing_side]; apply Hs.
Qed.

(** ** The invariant *)

Definition adds_ok (w : world) (adds : list (lid * list fn)) : Prop :=
  Forall (λ p, born w p.1 ∧ Forall (addable w p.1) p.2) adds.
Definition chain_ok (w : world) (ch : chain) : Prop := parent ch < deferreds w ∧ kinds w !! newDefer ch = Some OfThen.

(** No function that a list of handlers calls can throw, and none runs code of the page. *)
Definition frame_ok (w : world) (fr : frame) : Prop :=
  match fr with
  | FLoop l => match l with Lid _ _ h => h = false | Own _ => True end
  | FAdds adds _ => adds_ok w adds
  | FPiped n _ _ => kinds w !! n = Some OfPipe
  | _ => True
  end.
Definition ctrl_ok (w : world) (c : control) : Prop := match c with Adding adds _ => adds_ok w adds | _ => True end.

(** [d] is being settled: five functions of jQuery run first, then the handlers. *)
Definition window (x : config) (d : nat) : Prop :=
  ∃ a dat, started (now x) d a dat ∧ called (now x) d a < 6 ∧ ctrl x = Next (main d a).

Record inv (x : config) : Prop := {
  in_sound : sound (now x) (loops x);
  in_deferreds d : d < deferreds (now x) → calm (now x) d ∨ window x d;
  in_chains : Forall (chain_ok (now x)) (chains (now x));
  in_frames : Forall (frame_ok (now x)) (stack x);
  in_ctrl : ctrl_ok (now x) (ctrl x)
}.

(** What holds of a world while no list is at its next function. *)
Record quiet (w : world) (st : list frame) : Prop := {
  qu_sound : sound w (loops_of st);
  qu_calm d : d < deferreds w → calm w d;
  qu_chains : Forall (chain_ok w) (chains w);
  qu_frames : Forall (frame_ok w) st
}.

Lemma adds_ok_mono w w' adds :
  kinds_le w w' → owned w ≤ owned w' → adds_ok w adds → adds_ok w' adds.
Proof.
  intros Hd Ho H. eapply Forall_impl; [exact H|]. intros [l fs] [Hb Hf].
  split; [by eapply born_mono; [apply kinds_le_deferreds| |]|].
  eapply Forall_impl; [exact Hf|]. intros f. by apply addable_mono.
Qed.
Lemma frame_ok_mono w w' fr :
  kinds_le w w' → owned w ≤ owned w' → frame_ok w fr → frame_ok w' fr.
Proof. destruct fr; simpl; try done; [by intros; eapply prefix_lookup_Some | by apply adds_ok_mono]. Qed.
Lemma chain_ok_mono w w' ch : kinds_le w w' → chain_ok w ch → chain_ok w' ch.
Proof.
  intros Hle [H1 H2]. split; [|by eapply prefix_lookup_Some]. pose proof (kinds_le_deferreds _ _ Hle). lia.
Qed.
Lemma ctrl_ok_mono w w' c :
  kinds_le w w' → owned w ≤ owned w' → ctrl_ok w c → ctrl_ok w' c.
Proof. destruct c; simpl; try done. by apply adds_ok_mono. Qed.

Lemma inv_of_quiet c st w :
  quiet w st → ctrl_ok w c → match c with Next _ => False | _ => True end → inv (Config c st w).
Proof.
  intros [] Hc Hn. split; simpl; auto. unfold loops. simpl. by destruct c.
Qed.

Lemma quiet_inv c st w :
  inv (Config c st w) → match c with Next _ => False | _ => True end → quiet w st.
Proof.
  intros [H1 H2 H3 H4 H5] Hn. simpl in *. split; auto.
  - unfold loops in H1. simpl in H1. by destruct c.
  - intros d Hd. destruct (H2 d Hd) as [|(a & dat & _ & _ & E)]; [done|]. simpl in E. by subst c.
Qed.

(** Frames that are no loops come and go. *)
Lemma quiet_push fr st w :
  match fr with FLoop _ => False | _ => True end → frame_ok w fr → quiet w st → quiet w (fr :: st).
Proof. intros Hl Hf []. split; auto. by destruct fr. Qed.
Lemma quiet_pop fr st w :
  match fr with FLoop _ => False | _ => True end → quiet w (fr :: st) → quiet w st ∧ frame_ok w fr.
Proof. intros Hl []. apply Forall_cons in qu_frames0 as [? ?]. by destruct fr. Qed.

Lemma quiet_same w w' st :
  (∀ l, same l w w') → states w' = states w → kinds w' = kinds w → owned w ≤ owned w' →
  Forall (chain_ok w) (chains w') → quiet w st → quiet w' st.
Proof.
  intros Hs Es Ek Ho Hc []. pose proof (kinds_le_eq _ _ Ek) as Hle. split.
  - by eapply sound_same.
  - intros d. rewrite (kinds_deferreds _ _ Ek). intros Hd. eapply same_calm; [|by apply qu_calm0]. split; [by rewrite Es | done].
  - eapply Forall_impl; [done|]. intros ch. by apply chain_ok_mono.
  - eapply Forall_impl; [done|]. intros fr. by apply frame_ok_mono.
Qed.

Lemma same_logs e w l : silent e → same l w (log e w).
Proof.
  intros He. destruct (silent_nothing l e He) as [E1 E2]. split; simpl; [done | | |].
  - by rewrite runs_of_app, E1, app_nil_r.
  - by rewrite adds_of_app, E2, app_nil_r.
  - rewrite elem_of_app, list_elem_of_singleton. split; [|tauto]. intros [|<-]; done.
Qed.

Lemma quiet_log e w st : silent e → quiet w st → quiet (log e w) st.
Proof. intros He H. eapply (quiet_same w); [|done..| |done]; [by intros; apply same_logs | apply H]. Qed.

(** ** The methods of lists keep the invariant *)

Definition settles (l : lid) (d : nat) : Prop := match l with Lid d' a _ => d' = d ∧ a ≠ Notify | Own _ => False end.
#[export] Instance settles_dec l d : Decision (settles l d).
Proof. destruct l; simpl; apply _. Defined.

Lemma touches_calm l fs w w' d : touches l fs w w' → ¬ settles l d → calm w d → calm w' d.
Proof.
  intros [[] Hs _ _] Hn. apply same_calm. split; [congruence|]. intros a h Ha. apply Hs.
  intros <-. by apply Hn.
Qed.

(** After a method that may fire [l], if the deferred of [l] is calm or in its window. *)
Lemma fires_inv l fs w st x :
  (∀ d, d < deferreds w → ¬ settles l d → calm w d) → Forall (chain_ok w) (chains w) → Forall (frame_ok w) st →
  fires l fs w st x →
  (∀ d, d < deferreds w → settles l d → calm (now x) d ∨ window x d) → inv x.
Proof.
  intros Hc Hch Hf [Ht H1 _ _ Hst Hct] Hd. pose proof (to_lists _ _ _ _ Ht) as Hol.
  pose proof (ol_le _ _ Hol) as Hle. split; [done | | | |].
  - intros d. rewrite (ol_deferreds _ _ Hol). intros Hlt. destruct (decide (settles l d)); [by apply Hd|].
    left. eapply touches_calm; eauto.
  - rewrite (ol_chains _ _ Hol). eapply Forall_impl; [done|]. intros ch. by apply chain_ok_mono.
  - assert (Forall (frame_ok (now x)) st).
    { eapply Forall_impl; [done|]. intros fr. apply frame_ok_mono; [done|]. by rewrite (ol_owned _ _ Hol). }
    destruct Hst as [->|[v ->]]; [done | by constructor].
  - by destruct Hct as [->|[v ->]].
Qed.

Lemma calm_side w d a h : calm w d → a ≠ Notify →
  quiet_side w true (Lid d a h) ∨ quiet_side w false (Lid d a h) ∨ ∃ dat, firing_side w dat (Lid d a h).
Proof.
  intros [[_ Hq]|(a' & dat & [] & Hj)] Ha; [right; left; by apply Hq|].
  replace (2 <=? called w d a') with true in * by (symmetry; apply Nat.leb_le; lia).
  replace (3 <=? called w d a') with true in * by (symmetry; apply Nat.leb_le; lia).
  replace (6 <=? called w d a') with true in * by (symmetry; apply Nat.leb_le; lia).
  destruct (decide (a = a')) as [->|Hne]; [right; right; destruct h; eauto|].
  replace a with (other a') by (by destruct a, a'). left. by destruct h.
Qed.

Lemma inv_add_to l fs v st w :
  quiet w st → born w l → Forall (addable w l) fs → inv (add_to l fs v st w).
Proof.
  intros Hq Hb Hfs. destruct (add_to_fires l fs v st w Hb Hfs (qu_sound _ _ Hq)) as (fs' & _ & Hx).
  eapply fires_inv; [intros; by apply Hq | apply Hq | apply Hq | exact Hx|]. intros d Hd Hsl. left. destruct l as [d' a h|n]; [|done].
  destruct Hsl as [-> Ha]. pose proof (qu_calm _ _ Hq d Hd) as Hc.
  destruct (add_to_keeps _ fs v st w (calm_side w d a h Hc Ha)) as (H1 & H2 & H3).
  eapply (keeps_calm (Lid d a h) w); [|done]. eapply touches_keeps; [apply Hx | done..].
Qed.

Lemma started_locked w d a dat h : started w d a dat → 6 ≤ called w d a → ∀ a', a' ≠ Notify →
  locked (lists w (Lid d a' h)) = true.
Proof.
  intros Hs Hj a' Ha'. assert (Hc : calm w d) by (right; eauto). destruct Hs.
  destruct (decide (a' = a)) as [->|Hne].
  - replace (6 <=? called w d a) with true in * by (symmetry; apply Nat.leb_le; lia).
    assert (firing_side w dat (Lid d a h)) as [i fs _ -> _| -> _] by (by destruct h); done.
  - replace a' with (other a) by (by destruct a, a').
    replace (2 <=? called w d a) with true in * by (symmetry; apply Nat.leb_le; lia).
    replace (3 <=? called w d a) with true in * by (symmetry; apply Nat.leb_le; lia).
    assert (quiet_side w true (Lid d (other a) h)) as [_ ->] by (by destruct h). done.
Qed.

Lemma inv_fire_with l dat v st w :
  quiet w st → born w l → match l with Lid _ a true => a = Notify | _ => True end →
  inv (fire_with l dat v st w).
Proof.
  intros Hq Hb Hl. pose proof (fire_with_fires l dat v st w Hb (qu_sound _ _ Hq)) as Hx.
  eapply fires_inv; [intros; by apply Hq | apply Hq | apply Hq | exact Hx|]. intros d Hd Hsl. destruct l as [d' a h|n]; [|done].
  destruct Hsl as [-> Ha]. destruct h; [done|].
  destruct (qu_calm _ _ Hq d Hd) as [Hp|(a' & dat' & Hs & Hj)].
  - right. destruct (fire_pending d a dat v st w Ha Hp) as (E1 & E2 & E3). exists a, dat. rewrite E3. auto with lia.
  - left. pose proof (started_locked w d a' dat' false Hs Hj a Ha) as Hlk.
    destruct (fire_locked _ dat v st w Hlk) as (_ & _ & Hk). eapply keeps_calm; [done|]. right. eauto.
Qed.

Lemma inv_settle d a dat st w : quiet w st → d < deferreds w → inv (settle d a dat st w).
Proof. intros. by apply inv_fire_with. Qed.

(** ** A new deferred *)

Definition fresh (d : nat) (a : action) (h : bool) : cbs :=
  CbList (flags_of a) false None false false (Some (if h then [] else builtins d a)) [] (-1).

(** No event names [l], which is not firing. *)
Definition pristine (w : world) (l : lid) : Prop :=
  runs_of l (trace w) = [] ∧ adds_of l (trace w) = [] ∧ Escaped l ∉ trace w.
Definition new_list (d : nat) (a : action) (h : bool) (w : world) : Prop :=
  lists w (Lid d a h) = fresh d a h ∧ runs_of (Lid d a h) (trace w) = [] ∧
  adds_of (Lid d a h) (trace w) = (if h then [] else builtins d a) ∧ Escaped (Lid d a h) ∉ trace w.

Lemma new_lists_eq d w a :
  let w1 := set_list (hand d a) (Callbacks (flags_of a)) (set_list (main d a) (Callbacks (flags_of a)) w) in
  new_lists d w a = set_list (main d a) (fresh d a false) (logs (Added (main d a) <$> builtins d a) w1).
Proof.
  unfold new_lists, added_to. simpl. rewrite fn_lookup_insert_ne by done. rewrite fn_lookup_insert.
  unfold add. rewrite functions_of_funs. simpl. rewrite (push_all _ _ []) by (by destruct a). by destruct a.
Qed.

Lemma new_lists_only d w a : only_lists w (new_lists d w a).
Proof.
  rewrite new_lists_eq. split; try done; simpl; [|by eexists]. by rewrite notes_app, notes_added, app_nil_r.
Qed.

Lemma new_lists_calls d w a : calls (trace (new_lists d w a)) = calls (trace w).
Proof. rewrite new_lists_eq. simpl. by rewrite calls_app, calls_added, app_nil_r. Qed.

Lemma escaped_added l l' fs w : Escaped l ∈ trace w ++ (Added l' <$> fs) ↔ Escaped l ∈ trace w.
Proof. rewrite elem_of_app. split; [|tauto]. intros [|(f & ? & _)%list_elem_of_fmap]; done. Qed.

Lemma new_lists_other d a w l : (∀ h, l ≠ Lid d a h) → same l w (new_lists d w a).
Proof.
  intros Hl. rewrite new_lists_eq. split; simpl.
  - by rewrite !fn_lookup_insert_ne by auto.
  - by rewrite runs_of_app, runs_of_added, app_nil_r.
  - rewrite adds_of_app, adds_of_added, decide_False, app_nil_r; auto.
  - apply escaped_added.
Qed.

Lemma new_lists_this d a h w : pristine w (Lid d a h) → new_list d a h (new_lists d w a).
Proof.
  intros (E1 & E2 & E3). rewrite new_lists_eq. split; [|split; [|split]]; simpl.
  - destruct h; [rewrite fn_lookup_insert_ne by done|]; by rewrite fn_lookup_insert.
  - by rewrite runs_of_app, runs_of_added, E1.
  - rewrite adds_of_app, adds_of_added, E2. destruct h; [by rewrite decide_False | by rewrite decide_True].
  - by rewrite escaped_added.
Qed.

Lemma new_list_same d a h w w' : same (Lid d a h) w w' → new_list d a h w → new_list d a h w'.
Proof. intros [E1 E2 E3 E4] (H1 & H2 & H3 & H4). unfold new_list. by rewrite E1, E2, E3, E4. Qed.
Lemma pristine_same l w w' : same l w w' → pristine w l → pristine w' l.
Proof. intros [E1 E2 E3 E4] (H1 & H2 & H3). unfold pristine. by rewrite E2, E3, E4. Qed.

(** What [jQuery.Deferred()] changes. *)
Record makes (k : kind) (d : nat) (w w' : world) : Prop := {
  ma_kinds : kinds w' = kinds w ++ [k];
  ma_states : states w' = <[d:=None]> (states w);
  ma_chains : chains w' = chains w;
  ma_timers : timers w' = timers w;
  ma_given : given w' = given w;
  ma_owned : owned w' = owned w;
  ma_notes : notes (trace w') = notes (trace w);
  ma_calls : calls (trace w') = calls (trace w);
  ma_trace : trace w `prefix_of` trace w';
  ma_same l : (∀ a h, l ≠ Lid d a h) → same l w w';
  ma_new a h : new_list d a h w'
}.

Lemma new_deferred_makes b w ls :
  sound w ls → let '(d, w') := new_deferred b w in d = deferreds w ∧ makes b d w w'.
Proof.
  intros H. unfold new_deferred. split; [done|]. set (d := deferreds w).
  set (w0 := set_kinds _ w).
  assert (Hp : ∀ a h, pristine w (Lid d a h)).
  { intros a h. destruct (s_unborn _ _ H (Lid d a h)) as (E1 & E2 & E3); [simpl; unfold d; lia|].
    split; [done|]. split; [done|]. intros He.
    assert (firing (lists w (Lid d a h)) = true) by (apply (s_firing _ _ H); by right). congruence. }
  assert (Hs0 : ∀ l, same l w w0) by done.
  simpl. set (w1 := new_lists d w0 Notify). set (w2 := new_lists d w1 Resolve). set (w3 := new_lists d w2 Reject).
  assert (Hol : only_lists w0 w3).
  { transitivity w2; [|apply new_lists_only]. transitivity w1; apply new_lists_only. }
  destruct Hol.
  assert (Hlast : ∀ l, same l w3 (set_state d None w3)) by done.
  split; try done.
  - simpl. fold w1 w2 w3. by rewrite ol_states0.
  - transitivity (calls (trace w2)); [apply new_lists_calls|].
    transitivity (calls (trace w1)); [apply new_lists_calls | apply (new_lists_calls d w0)].
  - intros l Hl. transitivity w3; [|done]. transitivity w2; [|by apply new_lists_other].
    transitivity w1; [|by apply new_lists_other].
    transitivity w0; [done | by apply (new_lists_other _ _ w0)].
  - intros a h. apply (new_list_same _ _ _ w3); [done|].
    assert (Hother : ∀ w a a' h, a' ≠ a → same (Lid d a' h) w (new_lists d w a)).
    { intros w' a1 a2 h' Hne. apply new_lists_other. intros h2. congruence. }
    assert (Hp1 : ∀ a h, a ≠ Notify → pristine w1 (Lid d a h)).
    { intros a' h' Ha'. apply (pristine_same _ w0); [by apply Hother | apply Hp]. }
    destruct a.
    + apply (new_list_same _ _ _ w2); [by apply Hother|]. apply (new_list_same _ _ _ w1); [by apply Hother|].
      apply new_lists_this, Hp.
    + apply (new_list_same _ _ _ w2); [by apply Hother|]. by apply new_lists_this, Hp1.
    + apply new_lists_this. apply (pristine_same _ w1); [by apply Hother | by apply Hp1].
Qed.

Lemma makes_pending k d w w' : makes k d w w' → pending w' d.
Proof.
  intros []. split; [by rewrite ma_states0, fn_lookup_insert|].
  intros a h Ha. destruct (ma_new0 a h) as (E1 & E2 & E3 & _). split; [done|]. rewrite E1, E3.
  unfold fresh, unfired. by destruct a, h.
Qed.

Lemma makes_deferreds k d w w' : makes k d w w' → deferreds w' = S (deferreds w) ∧ kinds_le w w'.
Proof. intros H. unfold deferreds, kinds_le. rewrite (ma_kinds _ _ _ _ H), length_app. split; [simpl; lia | by eexists]. Qed.

Lemma makes_sound k d w w' ls : d = deferreds w → makes k d w w' → sound w ls → sound w' ls.
Proof.
  intros Hd Hm H. destruct (makes_deferreds _ _ _ _ Hm) as [Ed Hle]. destruct Hm.
  assert (Hcase : ∀ l, (∃ a h, l = Lid d a h) ∨ same l w w').
  { intros [d' a h|n]; [destruct (decide (d' = d)) as [->|]; [left; eauto|]|]; right; apply ma_same0; congruence. }
  assert (Hborn : ∀ l, born w l → born w' l) by (intros; eapply born_mono; [| |done]; lia).
  assert (Hno : ∀ a h, Lid d a h ∉ ls).
  { intros a h Hin. pose proof (s_firing _ _ H (Lid d a h)) as Hf.
    destruct (s_unborn _ _ H (Lid d a h)) as (E & _); [simpl; lia|]. rewrite E in Hf. assert (false = true) as [=] by (apply Hf; by left). }
  split; [| | | | by eapply s_nodup | | |].
  - intros l Hl. destruct (Hcase l) as [(a & h & ->)|[-> -> -> _]]; [exfalso; apply Hl; simpl; lia|].
    eapply s_unborn; eauto.
  - intros l f Hf. destruct (Hcase l) as [(a & h & ->)|[E _ -> _]].
    + destruct (ma_new0 a h) as (E1 & _ & -> & _). by rewrite E1 in Hf.
    + rewrite E in Hf. by eapply s_items.
  - intros l f Hf. destruct (Hcase l) as [(a & h & ->)|[_ _ E _]].
    + destruct (ma_new0 a h) as (_ & _ & E1 & _). rewrite E1 in Hf. destruct h; [by apply elem_of_nil in Hf | by right].
    + rewrite E in Hf. eapply shape_mono; [done|by eapply s_shape].
  - intros d' a Hlt Ha. destruct (Hcase (main d' a)) as [(a' & h & E)|[_ _ E _]].
    + simplify_eq. destruct (ma_new0 a' false) as (_ & _ & -> & _). exists []. by rewrite app_nil_r.
    + assert (d' ≠ d).
      { intros ->. destruct (s_unborn _ _ H (main d a)) as (_ & _ & E0); [simpl; lia|].
        destruct (ma_new0 a false) as (_ & _ & E1 & _). rewrite E, E0 in E1. by destruct a. }
      rewrite E. destruct (s_builtins _ _ H d' a) as (fs & E1 & Hfs); [lia | done|]. exists fs. split; [done|].
      eapply Forall_impl; [done|]. intros f. by apply user_mono.
  - intros l. destruct (Hcase l) as [(a & h & ->)|[-> _ _ ->]]; [|by eapply s_firing].
    destruct (ma_new0 a h) as (-> & _ & _ & He). specialize (Hno a h). simpl. split; [done | tauto].
  - intros l Hl. destruct (Hcase l) as [(a & h & ->)|[_ _ _ ->]]; [by apply ma_new0 | by eapply s_escaped].
  - intros d' a'. destruct (Hcase (hand d' a')) as [(a & h & E)|[_ _ _ ->]]; [|by eapply s_hand].
    rewrite E. by apply ma_new0.
Qed.

Lemma quiet_new_deferred b w st :
  quiet w st → let '(d, w') := new_deferred b w in d = deferreds w ∧ makes b d w w' ∧ quiet w' st.
Proof.
  intros [Hs Hc Hch Hf]. pose proof (new_deferred_makes b w _ Hs) as Hm. destruct (new_deferred b w) as [d w'].
  destruct Hm as [Hd Hm]. destruct (makes_deferreds _ _ _ _ Hm) as [Ed Hle]. split; [done|]. split; [done|]. split.
  - by eapply makes_sound.
  - intros d' Hlt. rewrite Ed in Hlt. destruct (decide (d' = d)) as [->|Hne].
    + left. by eapply makes_pending.
    + eapply same_calm; [|apply Hc; lia]. split; [by rewrite (ma_states _ _ _ _ Hm), fn_lookup_insert_ne|].
      intros a h _. apply (ma_same _ _ _ _ Hm). congruence.
  - rewrite (ma_chains _ _ _ _ Hm). eapply Forall_impl; [done|]. intros ch. by apply chain_ok_mono.
  - eapply Forall_impl; [done|]. intros fr.
    apply frame_ok_mono; [done|]. by rewrite (ma_owned _ _ _ _ Hm).
Qed.
