(* ===== verification/JqDeferredStep.v ===== *)
(** * Deferred objects: every reachable state satisfies the invariant

    A list calls its next function ([next]), a frame gets its answer, and so the
    invariant of [JqDeferredInv] is kept by every step, script and timeout. *)
From stdpp Require Import base list functions relations.
From Stdlib Require Import ZArith Lia.
From S2P Require Import Prelude JqCallbacks JqDeferred JqDeferredInv.

(** ** The next function of a list *)

(** Before the functions of [w] go on: [l] is at its next function. *)
Record at_next (l : lid) (st : list frame) (w : world) : Prop := {
  an_sound : sound w (l :: loops_of st);
  an_chains : Forall (chain_ok w) (chains w);
  an_frames : Forall (frame_ok w) st
}.

Lemma at_next_born l st w : at_next l st w → born w l ∧ firing (lists w l) = true.
Proof.
  intros [H _ _]. assert (firing (lists w l) = true) as Hf.
  { apply (s_firing _ _ H). left. apply list_elem_of_here. }
  split; [|done]. destruct (decide (born w l)) as [|Hn]; [done|].
  destruct (s_unborn _ _ H l Hn) as [E _]. congruence.
Qed.

(** The world in which [l] calls [f]. *)
Definition ran_world (l : lid) (f : fn) (dat : data) (c : cbs) (w : world) : world :=
  log (Ran l f dat) (set_list l c w).

Lemma ran_touches l f dat c w :
  (∀ g, g ∈ list_of c → g ∈ list_of (lists w l)) → touches l [] w (ran_world l f dat c w).
Proof.
  intros Hc. apply (touches_set l c [Ran l f dat] w).
  - intros e ->%list_elem_of_singleton. done.
  - intros g Hg. left. auto.
Qed.

(** The list of a settled deferred is at its next function. *)
Lemma side_next w dat l :
  firing_side w dat l → firing (lists w l) = true →
  ∃ i fs, lists w l = looping dat fs i ∧ (-1 ≤ i < Z.of_nat (length fs))%Z ∧
    (runs_of l (trace w)).*1 ++ drop (Z.to_nat (i + 1)) fs = adds_of l (trace w) ∧
    inner (lists w l) = (looping dat fs (i + 1), adds_of l (trace w) !! length (runs_of l (trace w))).
Proof.
  intros [i fs Hi E Hr|E Hr] Hf; [|by rewrite E in Hf]. exists i, fs. split; [done|]. split; [done|]. split; [done|].
  unfold inner. rewrite E. simpl. destruct (Z.ltb_spec (i + 1) 0); [lia|]. f_equal.
  rewrite <- Hr, lookup_app_r by (rewrite length_fmap; lia). rewrite length_fmap, Nat.sub_diag, lookup_drop.
  f_equal. unfold list_of. simpl. lia.
Qed.

(** The list calls [f], which is next. *)
Lemma side_runs w dat l f i fs :
  lists w l = looping dat fs i → (-1 ≤ i < Z.of_nat (length fs))%Z →
  (runs_of l (trace w)).*1 ++ drop (Z.to_nat (i + 1)) fs = adds_of l (trace w) →
  adds_of l (trace w) !! length (runs_of l (trace w)) = Some f →
  let w' := ran_world l f dat (looping dat fs (i + 1)) w in
  firing_side w' dat l ∧ touches l [] w w' ∧ runs_of l (trace w') = runs_of l (trace w) ++ [(f, dat)].
Proof.
  intros E Hi Hr Hf w'.
  assert (Hf' : fs !! Z.to_nat (i + 1) = Some f).
  { rewrite <- Hr, lookup_app_r in Hf by (rewrite length_fmap; lia).
    rewrite length_fmap, Nat.sub_diag, lookup_drop in Hf. rewrite <- Hf. f_equal. lia. }
  assert (Hruns : runs_of l (trace w') = runs_of l (trace w) ++ [(f, dat)]).
  { subst w'. simpl. rewrite runs_of_app. f_equal. cbn. by rewrite decide_True. }
  assert (Ht : touches l [] w w') by (apply ran_touches; by rewrite E).
  split; [|done]. apply (side_looping _ _ _ (i + 1) fs).
  - apply lookup_lt_Some in Hf'. lia.
  - subst w'. simpl. by rewrite fn_lookup_insert.
  - rewrite Hruns, (to_adds _ _ _ _ Ht), app_nil_r, <- Hr, fmap_app, <- app_assoc. f_equal. simpl.
    rewrite (drop_S fs f (Z.to_nat (i + 1))) by done. do 2 f_equal. lia.
Qed.

Lemma touches_at_next l m fs st w w' :
  touches m fs w w' → born w m → Forall (addable w m) fs → (Escaped m ∈ trace w' ↔ Escaped m ∈ trace w) →
  firing (lists w' m) = firing (lists w m) → at_next l st w → at_next l st w'.
Proof.
  intros Ht Hb Hfs He Hf []. pose proof (to_lists _ _ _ _ Ht) as []. split.
  - by eapply touches_sound_keep.
  - rewrite ol_chains. eapply Forall_impl; [done|]. intros ch. apply chain_ok_mono; auto with jq.
  - eapply Forall_impl; [done|]. intros fr. apply frame_ok_mono; auto with jq; lia.
Qed.

Lemma ran_at_next l f dat c st w :
  (∀ g, g ∈ list_of c → g ∈ list_of (lists w l)) → firing c = firing (lists w l) →
  at_next l st w → at_next l st (ran_world l f dat c w).
Proof.
  intros Hc Hf H. eapply (touches_at_next l l []); [by apply ran_touches | by eapply at_next_born | constructor | | | done].
  - simpl. rewrite elem_of_app, list_elem_of_singleton. split; [|tauto]. by intros [|].
  - simpl. by rewrite fn_lookup_insert.
Qed.

(** A settled deferred stays settled when one of its lists goes on. *)
Lemma settled_runs w w' d a dat h extra :
  started w d a dat → 6 ≤ called w d a → states w' = states w → touches (Lid d a h) [] w w' →
  firing_side w' dat (Lid d a h) → runs_of (Lid d a h) (trace w') = runs_of (Lid d a h) (trace w) ++ extra →
  (∀ p, p ∈ extra → p.2 = dat) → started w' d a dat ∧ 6 ≤ called w' d a.
Proof.
  intros [] Hj Es Ht Hside Hr Hextra.
  assert (Hsame : ∀ a' h', Lid d a' h' ≠ Lid d a h → same (Lid d a' h') w w') by (intros; by apply Ht).
  assert (Hc : 6 ≤ called w' d a).
  { unfold called in *. destruct h; [by rewrite (same_runs _ _ _ (Hsame a false ltac:(done)))|].
    rewrite Hr, length_app. lia. }
  replace (6 <=? called w d a) with true in * by (symmetry; apply Nat.leb_le; lia).
  replace (3 <=? called w d a) with true in * by (symmetry; apply Nat.leb_le; lia).
  replace (2 <=? called w d a) with true in * by (symmetry; apply Nat.leb_le; lia).
  replace (1 <=? called w d a) with true in * by (symmetry; apply Nat.leb_le; lia).
  split; [|done]. split; [done | | | | | |].
  - destruct h; [|done]. eapply same_firing_side; [|done]. by apply Hsame.
  - replace (1 <=? called w' d a) with true by (symmetry; apply Nat.leb_le; lia). congruence.
  - replace (2 <=? called w' d a) with true by (symmetry; apply Nat.leb_le; lia).
    eapply same_quiet_side; [|done]. apply Hsame. by destruct a.
  - replace (3 <=? called w' d a) with true by (symmetry; apply Nat.leb_le; lia).
    eapply same_quiet_side; [|done]. apply Hsame. by destruct a.
  - replace (6 <=? called w' d a) with true by (symmetry; apply Nat.leb_le; lia).
    destruct h; [done|]. eapply same_firing_side; [|done]. by apply Hsame.
  - intros f dat' h'. destruct (decide (h' = h)) as [->|Hne].
    + rewrite Hr, elem_of_app. intros [|Hin]; [eauto | by apply (Hextra _ Hin)].
    + rewrite (same_runs _ _ _ (Hsame a h' ltac:(congruence))). eauto.
Qed.

Lemma firing_settled w d a h : calm w d → a ≠ Notify → firing (lists w (Lid d a h)) = true →
  ∃ dat, started w d a dat ∧ 6 ≤ called w d a ∧ firing_side w dat (Lid d a h).
Proof.
  intros [[_ Hq]|(a' & dat & Hs & Hj)] Ha Hf; [by rewrite (proj2 (Hq a h Ha)) in Hf|].
  pose proof Hs as []. exists dat.
  replace (6 <=? called w d a') with true in * by (symmetry; apply Nat.leb_le; lia).
  replace (3 <=? called w d a') with true in * by (symmetry; apply Nat.leb_le; lia).
  replace (2 <=? called w d a') with true in * by (symmetry; apply Nat.leb_le; lia).
  destruct (decide (a = a')) as [->|Hne]; [split; [done|]; by destruct h|].
  replace a with (other a') in Hf by (by destruct a, a').
  assert (quiet_side w true (Lid d (other a') h)) as [_ E] by (by destruct h). by rewrite E in Hf.
Qed.

(** ** The end of a list *)

Lemma inv_fire_turn l st w :
  at_next l st w → (∀ d, d < deferreds w → calm w d) → (inner (lists w l)).2 = None →
  inv (fire_turn l st (set_list l (set_index (-1) (inner (lists w l)).1) w)).
Proof.
  intros Hn Hc Hi. destruct (at_next_born _ _ _ Hn) as [Hb Hf]. set (c := set_index (-1) (inner (lists w l)).1).
  assert (Hcl : list_of c = list_of (lists w l) ∧ firing c = firing (lists w l)) by done.
  set (w1 := set_list l c w).
  assert (Ht : touches l [] w w1) by by apply set_list_touches.
  assert (Hn1 : at_next l st w1).
  { eapply touches_at_next; [done | done | constructor | done | | done]. simpl. by rewrite fn_lookup_insert. }
  assert (Hx : fires l [] w st (fire_turn l st w1)).
  { destruct (fire_turn_fires l st w1) as [Ht' H1 H2 H3 H4 H5]; [done | apply Hn1|].
    split; try done. by apply (touches_trans l [] [] w w1). }
  eapply fires_inv; [auto | apply Hn | apply Hn | exact Hx|]. intros d Hd Hsl. left.
  destruct l as [d' a h|n]; [|done]. destruct Hsl as [-> Ha].
  destruct (firing_settled w d a h (Hc d Hd) Ha Hf) as (dat & Hs & Hj & Hside).
  destruct (side_next w dat _ Hside Hf) as (i & fs & E & Hil & Hr & Ei).
  assert (Hnone : adds_of (Lid d a h) (trace w) !! length (runs_of (Lid d a h) (trace w)) = None).
  { by rewrite Ei in Hi. }
  assert (Hall : (runs_of (Lid d a h) (trace w)).*1 = adds_of (Lid d a h) (trace w)).
  { apply lookup_ge_None in Hnone. rewrite <- Hr, length_app, length_fmap in Hnone.
    rewrite <- Hr. destruct (drop _ fs); [by rewrite app_nil_r | simpl in Hnone; lia]. }
  destruct (settled_runs w (now (fire_turn (Lid d a h) st w1)) d a dat h []) as [Hs' Hj'].
  - done.
  - done.
  - apply (ol_states _ _ (to_lists _ _ _ _ (fi_touches _ _ _ _ _ Hx))).
  - apply Hx.
  - assert (Ex : now (fire_turn (Lid d a h) st w1) = set_list (Lid d a h) (at_rest dat) w1).
    { unfold fire_turn. assert (lists w1 (Lid d a h) = set_index (-1) (looping dat fs (i + 1))) as ->; [|done].
      unfold w1, c. rewrite Ei. cbn. by rewrite fn_lookup_insert. }
    rewrite Ex. apply side_at_rest; simpl; [by rewrite fn_lookup_insert | done].
  - rewrite app_nil_r. unfold fire_turn. by destruct (outer _).
  - by intros p ?%elem_of_nil.
  - right. eauto.
Qed.

(** ** A list calls a function *)

Lemma inner_some (c c' : cbs) f :
  inner c = (c', Some f) → c' = set_index (firingIndex c + 1) c ∧ f ∈ list_of c.
Proof.
  unfold inner. destruct (Z.ltb _ _); [done|]. intros [= <- Hf]. split; [done|]. by eapply list_elem_of_lookup_2.
Qed.

Lemma ran_calm l st w c f :
  at_next l st w → (∀ d, d < deferreds w → calm w d) → inner (lists w l) = (c, Some f) →
  let w' := ran_world l f (default (Undefined, []) (memory c)) c w in
  at_next l st w' ∧ (∀ d, d < deferreds w' → calm w' d) ∧
  (addable w' l f ∨ ∃ d, l = main d Notify ∧ f = FireList (hand d Notify)).
Proof.
  intros Hn Hc Hi w'. destruct (at_next_born _ _ _ Hn) as [Hb Hf]. destruct (inner_some _ _ _ Hi) as [Ec Hin].
  assert (Hci : list_of c = list_of (lists w l) ∧ firing c = firing (lists w l)) by (by subst c).
  assert (Hn' : at_next l st w').
  { apply ran_at_next; [by destruct Hci as [-> _] | by apply Hci | done]. }
  assert (Ht : touches l [] w w') by (apply ran_touches; by destruct Hci as [-> _]).
  split; [done|].
  assert (Hcase : ∀ d a h, l = Lid d a h → a ≠ Notify →
    ∃ dat, started w d a dat ∧ 6 ≤ called w d a ∧ started w' d a dat ∧ 6 ≤ called w' d a ∧
      adds_of l (trace w) !! length (runs_of l (trace w)) = Some f).
  { intros d a h -> Ha. destruct (firing_settled w d a h (Hc d Hb) Ha Hf) as (dat & Hs & Hj & Hside).
    destruct (side_next w dat _ Hside Hf) as (i & fs & E & Hil & Hr & Ei). rewrite Hi in Ei. injection Ei as Ec' Ef.
    destruct (side_runs w dat _ f i fs E Hil Hr (eq_sym Ef)) as (Hs' & Ht' & Hr').
    assert (Ew : w' = ran_world (Lid d a h) f dat (looping dat fs (i + 1)) w) by (unfold w'; by rewrite Ec').
    rewrite <- Ew in *. exists dat.
    destruct (settled_runs w w' d a dat h [(f, dat)]) as [Hs1 Hj1]; try done.
    by intros p ->%list_elem_of_singleton. }
  split.
  - intros d Hd. destruct (decide (settles l d)) as [Hsl|Hsl]; [|by eapply touches_calm; [|done|apply Hc]].
    destruct l as [d' a h|n]; [|done]. destruct Hsl as [-> Ha].
    destruct (Hcase d a h eq_refl Ha) as (dat & _ & _ & Hs & Hj & _). right. eauto.
  - assert (Hsh : shape w l f) by (eapply s_shape; [apply Hn|]; eapply s_items; [apply Hn | done]).
    destruct Hsh as [Ha|Hbi]; [left; eapply addable_mono; [by apply kinds_le_eq|exact Ha]|].
    destruct l as [d a []|n]; try done. destruct (decide (a = Notify)) as [->|Ha].
    + right. exists d. split; [done|]. by apply list_elem_of_singleton in Hbi.
    + left. destruct (Hcase d a false eq_refl Ha) as (dat & Hs & Hj & _ & _ & Hadd).
      destruct (s_builtins _ _ (an_sound _ _ _ Hn) d a Hb Ha) as (us & E & Hus).
      unfold called in Hj. rewrite E, lookup_app_r in Hadd by (by destruct a).
      rewrite Forall_forall in Hus. eapply (addable_mono w); [by apply kinds_le_eq|]. apply Hus. by eapply list_elem_of_lookup_2.
Qed.

Lemma inv_next_at l st w :
  at_next l st w → (∀ d, d < deferreds w → calm w d) → inv (Config (Next l) st w).
Proof. intros [] Hc. split; simpl; auto. Qed.

Lemma at_next_quiet l st w :
  at_next l st w → (∀ d, d < deferreds w → calm w d) → frame_ok w (FLoop l) → quiet w (FLoop l :: st).
Proof. intros [] Hc Hf. by split; [|done|done|constructor]. Qed.

Lemma at_next_same l st w w' :
  (∀ l, same l w w') → kinds w' = kinds w → owned w' = owned w → chains w' = chains w →
  at_next l st w → at_next l st w'.
Proof.
  intros Hs Ed Eo Ec []. split.
  - eapply sound_same; eauto. lia.
  - rewrite Ec. eapply Forall_impl; [done|]. intros ch. apply chain_ok_mono; auto with jq.
  - eapply Forall_impl; [done|]. intros fr. apply frame_ok_mono; auto with jq; lia.
Qed.

Lemma queue_same t w l : same l w (queue_task t w).
Proof. transitivity (set_timers (timers w ++ [t]) w); [done | by apply same_logs]. Qed.

Lemma inv_run_fn l f dat st w :
  at_next l st w → (∀ d, d < deferreds w → calm w d) →
  addable w l f ∨ (∃ d, l = main d Notify ∧ f = FireList (hand d Notify)) →
  inv (run_fn l f dat st w).
Proof.
  intros Hn Hc [Ha|(d & -> & ->)].
  2: { destruct (at_next_born _ _ _ Hn) as [Hb _]. simpl. apply inv_fire_with; [|done..]. by apply at_next_quiet. }
  assert (Hu : match f with First _ _ _ => True ∧ True | _ => frame_ok w (FLoop l) ∧ user w f end).
  { destruct l as [d a []|n]; simpl in *; [by destruct Ha as (c & h & ->) | by destruct f | by destruct Ha as [p ->]]. }
  destruct f as [p|d a|m|m|m|c a h|n a [p|]|n a]; simpl; destruct Hu as [Hfr Hu]; try done.
  - by apply inv_of_quiet; [apply at_next_quiet|..].
  - apply inv_next_at; [eapply at_next_same; [apply queue_same|done..]|]. intros d Hd.
    eapply same_calm; [|by apply Hc]. split; [done|]. intros. apply queue_same.
  - apply inv_of_quiet; [|done..]. apply quiet_push; [done..|]. by apply at_next_quiet.
  - apply inv_fire_with; [by apply at_next_quiet | by eapply kind_born | done].
  - apply inv_settle; [by apply at_next_quiet | by eapply kind_born].
Qed.

(** ** The window: a deferred is being settled *)

(** [Disable] and [Lock] change one list, which is not firing. *)
Lemma set_list_keeps_loops m c l st w :
  (∀ f, f ∈ list_of c → f ∈ list_of (lists w m)) → firing c = firing (lists w m) → born w m →
  at_next l st w → at_next l st (set_list m c w).
Proof.
  intros Hc Hf Hb. apply (touches_at_next l m []); [by apply set_list_touches | done | constructor | done |].
  simpl. by rewrite fn_lookup_insert.
Qed.

Lemma disable_fewer (c : cbs) f : f ∈ list_of (disable c) → f ∈ list_of c.
Proof. by intros ?%elem_of_nil. Qed.
Lemma lock_fewer (c : cbs) f : f ∈ list_of (lock c) → f ∈ list_of c.
Proof.
  unfold lock. simpl. destruct (memory c); [done|]. destruct (firing c); [done|]. by intros ?%elem_of_nil.
Qed.
Lemma lock_firing (c : cbs) : firing (lock c) = firing c.
Proof. unfold lock. simpl. destruct (memory c); [done|]. by destruct (firing c) eqn:E. Qed.

(** What the deferred [d] looks like when [j] of the functions of [a] have been called. *)
Record settling (w : world) (d : nat) (a : action) (dat : data) (j : nat) : Prop := {
  se_action : a ≠ Notify;
  se_main : firing_side w dat (main d a);
  se_called : called w d a = j;
  se_state : states w d = if 1 <=? j then Some a else None;
  se_other : quiet_side w (2 <=? j) (main d (other a));
  se_others : quiet_side w (3 <=? j) (hand d (other a));
  se_hand : if 6 <=? j then firing_side w dat (hand d a) else quiet_side w false (hand d a);
  se_data f dat' h : (f, dat') ∈ runs_of (Lid d a h) (trace w) → dat' = dat
}.

Lemma started_settling w d a dat : started w d a dat ↔ settling w d a dat (called w d a).
Proof. split; intros []; by split. Qed.

(** One of the five functions has changed the world [w] to [w'], which is of one list [m]
    or the state of [d]. *)
Lemma settling_same w w' d a dat j m :
  settling w d a dat j → (∀ l, l ≠ m → same l w w') → (∀ a' h, a' ≠ Notify → m ≠ Lid d a' h) → states w' d = states w d →
  settling w' d a dat j.
Proof.
  intros Hs Hsame Hm Es. pose proof (se_called _ _ _ _ _ Hs) as <-. apply started_settling in Hs.
  assert (Hd : same_deferred w w' d).
  { split; [done|]. intros a' h Ha'. apply Hsame. intros E. by apply (Hm a' h). }
  rewrite <- (same_called w w' d a (st_action _ _ _ _ Hs) Hd).
  apply started_settling. by eapply same_started.
Qed.

(** The function that is next has been called, and has not done anything yet. *)
Lemma window_ran w d a dat st :
  at_next (main d a) st w → started w d a dat → called w d a < 6 →
  ∃ f w', builtins d a !! called w d a = Some f ∧ next (main d a) st w = run_fn (main d a) f dat st w' ∧
    at_next (main d a) st w' ∧ touches (main d a) [] w w' ∧ states w' = states w ∧
    called w' d a = S (called w d a) ∧ firing_side w' dat (main d a) ∧
    (∀ f dat' h, (f, dat') ∈ runs_of (Lid d a h) (trace w') → dat' = dat).
Proof.
  intros Hn Hs Hj. pose proof (st_action _ _ _ _ Hs) as Ha. destruct (at_next_born _ _ _ Hn) as [Hb Hf].
  destruct (side_next w dat _ (st_main _ _ _ _ Hs) Hf) as (i & fs & E & Hil & Hr & Ei).
  destruct (s_builtins _ _ (an_sound _ _ _ Hn) d a Hb Ha) as (us & Eus & _).
  assert (∃ f, builtins d a !! called w d a = Some f) as [f Hbf].
  { apply lookup_lt_is_Some. by destruct a. }
  assert (Ef : adds_of (main d a) (trace w) !! length (runs_of (main d a) (trace w)) = Some f).
  { rewrite Eus. by apply lookup_app_l_Some. }
  destruct (side_runs w dat _ f i fs E Hil Hr Ef) as (Hs' & Ht' & Hr').
  exists f, (ran_world (main d a) f dat (looping dat fs (i + 1)) w).
  split; [done|]. split; [unfold next; by rewrite Ei, Ef|].
  split; [|split; [exact Ht'|split; [done|split; [|split; [exact Hs'|]]]]].
  - apply ran_at_next; [by rewrite E | by rewrite E | done].
  - unfold called. rewrite Hr', length_app. simpl. lia.
  - intros g dat' h. destruct h.
    + rewrite (same_runs _ _ _ (to_same _ _ _ _ Ht' (hand d a) ltac:(done))). by apply (st_data _ _ _ _ Hs).
    + rewrite Hr', elem_of_app, list_elem_of_singleton.
      intros [Hin|[= -> ->]]; [by eapply (st_data _ _ _ _ Hs) | done].
Qed.

Lemma set_list_same m c w l : l ≠ m → same l w (set_list m c w).
Proof. intros Hl. split; simpl; try done. by rewrite fn_lookup_insert_ne. Qed.

Lemma disable_quiet w m : quiet_side w false m → quiet_side (set_list m (disable (lists w m)) w) true m.
Proof. intros [E1 E2]. split; [done|]. simpl. by rewrite fn_lookup_insert, E2. Qed.

(** What the function at position [j] does. *)
Definition window_effect (d : nat) (a : action) (j : nat) (w : world) : world :=
  match j with
  | 0 => set_state d (Some a) w
  | 1 => set_list (main d (other a)) (disable (lists w (main d (other a)))) w
  | 2 => set_list (hand d (other a)) (disable (lists w (hand d (other a)))) w
  | 3 => set_list (main d Notify) (lock (lists w (main d Notify))) w
  | _ => set_list (hand d Notify) (lock (lists w (hand d Notify))) w
  end.

Lemma builtins_settle d a j f :
  a ≠ Notify → j < 5 → builtins d a !! j = Some f →
  ∀ dat st w, run_fn (main d a) f dat st w = Config (Next (main d a)) st (window_effect d a j w).
Proof. intros Ha Hj Hf. destruct a; [done|..]; do 5 (destruct j as [|j]; [by injection Hf as <-|]); lia. Qed.

Lemma window_effect_same d a j w l :
  l ≠ (match j with 1 => main d (other a) | 2 => hand d (other a) | 3 => main d Notify | _ => hand d Notify end) →
  same l w (window_effect d a j w).
Proof. do 4 (destruct j as [|j]; [by apply set_list_same || done|]). by apply set_list_same. Qed.

Lemma window_effect_states d a j w d' :
  states (window_effect d a j w) d' = if decide (j = 0 ∧ d' = d) then Some a else states w d'.
Proof.
  destruct j as [|j]; [|rewrite decide_False by lia; by destruct j as [|[|[|]]]].
  simpl. destruct (decide (d' = d)) as [->|Hne].
  - by rewrite fn_lookup_insert, decide_True.
  - rewrite fn_lookup_insert_ne, decide_False; [done | tauto | congruence].
Qed.

Lemma window_effect_at_next d a j l st w :
  a ≠ Notify → d < deferreds w → at_next l st w → at_next l st (window_effect d a j w).
Proof.
  intros Ha Hd Hn. destruct j as [|[|[|[|j]]]].
  - by apply (at_next_same l st w).
  - apply set_list_keeps_loops; [apply disable_fewer | done | done | done].
  - apply set_list_keeps_loops; [apply disable_fewer | done | done | done].
  - apply set_list_keeps_loops; [apply lock_fewer | apply lock_firing | done | done].
  - apply set_list_keeps_loops; [apply lock_fewer | apply lock_firing | done | done].
Qed.

(** One more of the five has run. *)
Lemma window_effect_settling w d a dat j :
  j < 5 → a ≠ Notify → called w d a = S j → firing_side w dat (main d a) →
  (∀ f dat' h, (f, dat') ∈ runs_of (Lid d a h) (trace w) → dat' = dat) →
  states w d = (if 1 <=? j then Some a else None) →
  quiet_side w (2 <=? j) (main d (other a)) → quiet_side w (3 <=? j) (hand d (other a)) → quiet_side w false (hand d a) →
  settling (window_effect d a j w) d a dat (S j).
Proof.
  intros Hj Ha Hc Hside Hdat Hst Ho Hos Hh.
  assert (Hne1 : other a ≠ a) by by destruct a. assert (Hne2 : other a ≠ Notify) by by destruct a.
  assert (Hsame : ∀ l, (∀ h, l ≠ Lid d (other a) h) → (∀ h, l ≠ Lid d Notify h) → same l w (window_effect d a j w)).
  { intros l H1 H2. apply window_effect_same. destruct j as [|[|[|[|]]]]; auto. }
  assert (Hm : ∀ h, same (Lid d a h) w (window_effect d a j w)) by (intros h; apply Hsame; congruence).
  split; [done | | | | | | |].
  - eapply same_firing_side; [apply Hm | done].
  - unfold called. by rewrite (same_runs _ _ _ (Hm false)).
  - rewrite window_effect_states. destruct j as [|j]; [by rewrite decide_True | by rewrite decide_False by lia].
  - destruct (decide (j = 1)) as [->|]; [by apply disable_quiet|].
    replace (2 <=? S j) with (2 <=? j) by (do 2 (destruct j as [|j]; [done|]); done).
    eapply same_quiet_side; [|exact Ho]. apply window_effect_same. destruct j as [|[|[|[|]]]]; congruence.
  - destruct (decide (j = 2)) as [->|]; [by apply disable_quiet|].
    replace (3 <=? S j) with (3 <=? j) by (do 3 (destruct j as [|j]; [done|]); done).
    eapply same_quiet_side; [|exact Hos]. apply window_effect_same. destruct j as [|[|[|[|]]]]; congruence.
  - replace (6 <=? S j) with false by (symmetry; apply Nat.leb_gt; lia).
    eapply same_quiet_side; [apply Hm | done].
  - intros f dat' h. rewrite (same_runs _ _ _ (Hm h)). eauto.
Qed.

(** The handlers are fired when the five have run. *)
Lemma settling_fires w d a dat v st :
  a ≠ Notify → called w d a = 6 → firing_side w dat (main d a) →
  (∀ f dat' h, (f, dat') ∈ runs_of (Lid d a h) (trace w) → dat' = dat) →
  states w d = Some a → quiet_side w true (main d (other a)) → quiet_side w true (hand d (other a)) →
  quiet_side w false (hand d a) →
  settling (now (fire_with (hand d a) dat v st w)) d a dat 6.
Proof.
  intros Ha Hc Hside Hdat Hst Ho Hos [E1 E2].
  assert (Hne : other a ≠ a) by by destruct a.
  assert (Hx : ∃ c1 c2, now (fire_with (hand d a) dat v st w) =
     set_list (hand d a) (looping dat (adds_of (hand d a) (trace w)) (-1)) (set_list (hand d a) c1 (set_list (hand d a) c2 w))).
  { unfold fire_with, fireWith. rewrite E2. simpl. unfold fire_turn. simpl. rewrite !fn_lookup_insert. simpl. eauto. }
  destruct Hx as (c1 & c2 & ->). set (w' := set_list _ _ _).
  assert (Hsame : ∀ l, l ≠ hand d a → same l w w').
  { intros l Hl. subst w'. do 3 (etrans; [|by apply set_list_same]). done. }
  split; [done | | | done | | | |].
  - eapply same_firing_side; [by apply Hsame | done].
  - done.
  - eapply same_quiet_side; [apply Hsame; congruence | done].
  - eapply same_quiet_side; [apply Hsame; congruence | done].
  - apply (side_looping _ _ _ (-1) (adds_of (hand d a) (trace w))); [lia | subst w'; simpl; by rewrite fn_lookup_insert|].
    simpl. by rewrite E1.
  - exact Hdat.
Qed.

Lemma inv_window d a dat st w :
  inv (Config (Next (main d a)) st w) → d < deferreds w → started w d a dat → called w d a < 6 → inv (next (main d a) st w).
Proof.
  intros [H1 H2 H3 H4 _] Hd Hs Hj. simpl in *.
  assert (Hn : at_next (main d a) st w) by by split.
  pose proof (st_action _ _ _ _ Hs) as Ha. assert (Hne : other a ≠ a) by by destruct a.
  assert (Hcalm : ∀ d', d' < deferreds w → d' ≠ d → calm w d').
  { intros d' Hd' Hne'. destruct (H2 d' Hd') as [|(a' & dat' & _ & _ & E)]; [done|]. simpl in E. congruence. }
  destruct (window_ran w d a dat st Hn Hs Hj) as (f & w' & Hf & -> & Hn' & Ht & Es & Hc' & Hside & Hdat).
  pose proof (ol_deferreds _ _ (to_lists _ _ _ _ Ht)) as Ed.
  assert (Hcalm' : ∀ d', d' < deferreds w' → d' ≠ d → calm w' d').
  { intros d' Hd' Hne'. eapply touches_calm; [done | by intros [? _] | apply Hcalm; [lia|done]]. }
  assert (Hq : ∀ b m, m ≠ main d a → quiet_side w b m → quiet_side w' b m).
  { intros b m Hm. apply same_quiet_side. by apply Ht. }
  pose proof (Hq _ (main d (other a)) ltac:(congruence) (st_other _ _ _ _ Hs)) as Ho.
  pose proof (Hq _ (hand d (other a)) ltac:(congruence) (st_others _ _ _ _ Hs)) as Hos.
  pose proof (st_hand _ _ _ _ Hs) as Hh. rewrite (proj2 (Nat.leb_gt _ _) Hj) in Hh.
  apply (Hq _ (hand d a)) in Hh; [|done]. pose proof (st_state _ _ _ _ Hs) as Hst. rewrite <- Es in Hst.
  destruct (decide (called w d a < 5)) as [Hj5|Hj5].
  - rewrite (builtins_settle d a (called w d a)) by done.
    set (w2 := window_effect d a (called w d a) w').
    assert (Hn2 : at_next (main d a) st w2) by (apply window_effect_at_next; [done | lia | done]).
    assert (Hset : settling w2 d a dat (S (called w d a))) by by apply window_effect_settling.
    assert (Hd2 : deferreds w2 = deferreds w') by (unfold w2; by destruct (called w d a) as [|[|[|[|]]]]).
    split; simpl; [apply Hn2 | | apply Hn2 | apply Hn2 | done].
    intros d' Hd'. rewrite Hd2 in Hd'. destruct (decide (d' = d)) as [->|Hne'].
    + right. exists a, dat. simpl. rewrite (se_called _ _ _ _ _ Hset). split; [|split; [lia|done]].
      apply started_settling. by rewrite (se_called _ _ _ _ _ Hset).
    + left. eapply same_calm; [|by apply Hcalm']. split.
      * unfold w2. rewrite window_effect_states, decide_False; [done | tauto].
      * intros a' h Ha'. apply window_effect_same. destruct (called w d a) as [|[|[|[|]]]]; congruence.
  - assert (called w d a = 5) as E5 by lia. rewrite E5 in *.
    assert (f = FireList (hand d a)) as -> by (destruct a; [done | by injection Hf as <-..]). simpl.
    assert (Hset := settling_fires w' d a dat dat.1 (FLoop (main d a) :: st) Ha Hc' Hside Hdat Hst Ho Hos Hh).
    eapply fires_inv; [| apply Hn' | | apply fire_with_fires; [simpl; lia | apply Hn'] |].
    + intros d' Hd' Hns. apply Hcalm'; [done|]. intros ->. by apply Hns.
    + constructor; [done | apply Hn'].
    + intros d' Hd' [-> _]. left. right. exists a, dat. rewrite (se_called _ _ _ _ _ Hset). split; [|lia].
      apply started_settling. by rewrite (se_called _ _ _ _ _ Hset).
Qed.

Lemma inv_next l st w : inv (Config (Next l) st w) → inv (next l st w).
Proof.
  intros H. pose proof H as [H1 H2 H3 H4 _]. simpl in *. assert (Hn : at_next l st w) by by split.
  assert (Hcase : (∀ d, d < deferreds w → calm w d) ∨
    ∃ d a dat, l = main d a ∧ d < deferreds w ∧ started w d a dat ∧ called w d a < 6).
  { destruct l as [d0 a0 h0|n].
    2: { left. intros d Hd. destruct (H2 d Hd) as [|(a & dat & _ & _ & E)]; [done|]. by simpl in E. }
    destruct (decide (d0 < deferreds w)) as [Hd0|].
    2: { by destruct (at_next_born _ _ _ Hn) as [Hb _]. }
    destruct (H2 d0 Hd0) as [Hc0|(a & dat & Hs & Hj & E)]; simpl in *.
    - left. intros d Hd. destruct (H2 d Hd) as [|(a & dat & _ & _ & E)]; [done|]. simpl in E. by simplify_eq.
    - right. exists d0, a, dat. split; [congruence|done]. }
  destruct Hcase as [Hc|(d & a & dat & -> & Hd & Hs & Hj)]; [|by eapply inv_window].
  unfold next. destruct (inner (lists w l)) as [c [f|]] eqn:Ei.
  - destruct (ran_calm l st w c f Hn Hc Ei) as (Hn' & Hc' & Ha). by apply inv_run_fn.
  - pose proof (inv_fire_turn l st w Hn Hc) as Hx. rewrite Ei in Hx. by apply Hx.
Qed.

(** ** Chains of [then] *)

Lemma inv_type_error st w : quiet w st → inv (type_error st w).
Proof. intros H. by apply inv_of_quiet. Qed.

Lemma inv_then d f r p st w : quiet w st → d < deferreds w → inv (then_op d f r p st w).
Proof.
  intros H Hd. unfold then_op. pose proof (quiet_new_deferred OfThen w st H) as Hn.
  destruct (new_deferred OfThen w) as [n w1]. destruct Hn as (En & Hm & Hq).
  destruct (makes_deferreds _ _ _ _ Hm) as [Ed Hle].
  apply inv_of_quiet; [|simpl | done].
  - apply quiet_log; [done|]. eapply (quiet_same w1); try done.
    simpl. rewrite Forall_app. split; [apply Hq|]. constructor; [|done]. split; simpl; [lia|].
    rewrite (ma_kinds _ _ _ _ Hm), En. by apply list_lookup_middle.
  - unfold adds_ok. simpl.
    assert (Hd1 : d < deferreds w1) by lia. repeat constructor; simpl; eauto.
Qed.

Lemma inv_pipe d f r p st w : quiet w st → d < deferreds w → inv (pipe_op d f r p st w).
Proof.
  intros H Hd. unfold pipe_op. pose proof (quiet_new_deferred OfPipe w st H) as Hn.
  destruct (new_deferred OfPipe w) as [n w1]. destruct Hn as (En & Hm & Hq).
  destruct (makes_deferreds _ _ _ _ Hm) as [Ed Hle].
  assert (Hk : kinds w1 !! n = Some OfPipe) by (rewrite (ma_kinds _ _ _ _ Hm), En; by apply list_lookup_middle).
  apply inv_of_quiet; [done|simpl | done]. unfold adds_ok. repeat constructor; simpl; done || lia.
Qed.

Lemma quiet_log_first depth e w st : silent e → quiet w st → quiet (log_first depth e w) st.
Proof. intros He H. unfold log_first. destruct (_ =? _); [by apply quiet_log | done]. Qed.

Lemma inv_process depth t st w : quiet w st → inv (process depth t st w).
Proof.
  intros H. unfold process. destruct (chains w !! t_chain t) as [ch|]; [|by apply inv_type_error].
  destruct (_ <? _); [by apply inv_of_quiet|].
  assert (quiet (log_first depth (Handled t) w) (FProcess depth t Handling :: st)).
  { apply quiet_push; [done..|]. by apply quiet_log_first. }
  destruct (t_handler t); by apply inv_of_quiet.
Qed.

Lemma quiet_queue t w st : quiet w st → quiet (queue_task t w) st.
Proof. intros H. apply (quiet_same w); try done; [by intros; apply queue_same | apply H]. Qed.

Lemma inv_resolving r dat st w : quiet w st → inv (resolving r dat st w).
Proof.
  intros H. unfold resolving. destruct (_ =? _); [|by apply inv_process]. apply inv_of_quiet; [|done..].
  by apply quiet_queue.
Qed.

Lemma inv_call_then v rs st w : quiet w st → inv (call_then v rs st w).
Proof.
  intros H. destruct v; simpl; try by apply inv_type_error.
  - destruct (Nat.ltb_spec d (deferreds w)); [by apply inv_then | by apply inv_type_error].
  - destruct (Nat.ltb_spec d (deferreds w)); [by apply inv_then | by apply inv_type_error].
  - apply inv_of_quiet; [|done..]. eapply (quiet_same w); try done. apply H.
Qed.

Lemma chain_newDefer w st c d m n :
  quiet w st → chains w !! c = Some (Chain d m n) → d < deferreds w ∧ kinds w !! n = Some OfThen.
Proof. intros H Hc. pose proof (qu_chains _ _ H) as Hf. rewrite Forall_forall in Hf. by apply list_elem_of_lookup_2, Hf in Hc. Qed.

Lemma quiet_deeper w st c d m n :
  quiet w st → d < deferreds w → kinds w !! n = Some OfThen → quiet (set_chains (<[c := Chain d m n]> (chains w)) w) st.
Proof.
  intros H Hd Hn. eapply (quiet_same w); try done. simpl.
  rewrite list_insert_alter. apply Forall_alter; [apply H|]. intros ch Hch _. by split.
Qed.

Lemma inv_handled depth t v st w : quiet w st → inv (handled depth t v st w).
Proof.
  intros H. unfold handled. destruct (chains w !! t_chain t) as [[d m n]|] eqn:Ec; [|by apply inv_type_error].
  destruct (chain_newDefer _ _ _ _ _ _ H Ec) as [Hd Hn].
  assert (Hp : quiet w (FProcess depth t Passing :: st)) by by apply quiet_push.
  destruct (decide (v = Promise n)); [by apply inv_type_error|].
  destruct (is_thenable v); [|by apply inv_fire_with; [|eapply kind_born|]].
  destruct (is_special t); apply inv_call_then; [done|].
  by apply quiet_deeper.
Qed.

Lemma inv_caught depth t e st w : quiet w st → inv (caught depth t e st w).
Proof.
  intros H. unfold caught. destruct (chains w !! t_chain t) as [[d m n]|] eqn:Ec; [|by apply inv_type_error].
  destruct (chain_newDefer _ _ _ _ _ _ H Ec) as [Hd Hn].
  destruct (_ <=? _); [by apply inv_fire_with; [|eapply kind_born|] | by apply inv_of_quiet].
Qed.

Lemma inv_piped n a dat v st w : quiet w st → kinds w !! n = Some OfPipe → inv (piped n a dat v st w).
Proof.
  intros H Hn. unfold piped. destruct v as [| | | |d|d| | | |]; try by (apply inv_fire_with; [|eapply kind_born|]).
  - destruct (Nat.ltb_spec d (deferreds w)); [|by apply inv_type_error]. apply inv_of_quiet; [done| |done].
    unfold adds_ok. by repeat constructor.
  - destruct (Nat.ltb_spec d (deferreds w)); [|by apply inv_type_error]. apply inv_of_quiet; [done| |done].
    unfold adds_ok. by repeat constructor.
Qed.

(** ** Lists of the page *)

Lemma remove_from_fewer (f : fn) p l i g : g ∈ (remove_from f p l i).1 → g ∈ l.
Proof.
  revert p i. induction l as [|x l IH]; intros p i; simpl; [done|].
  destruct (decide (x = f)); [intros Hg; apply list_elem_of_further; by eapply IH|].
  specialize (IH (S p) i). destruct (remove_from f (S p) l i) as [l' i']. simpl in *.
  rewrite !elem_of_cons. tauto.
Qed.

Lemma remove_fewer fs (c : cbs) :
  firing (remove fs c) = firing c ∧ ∀ g, g ∈ list_of (remove fs c) → g ∈ list_of c.
Proof.
  unfold remove. revert c. induction fs as [|f fs IH]; intros c; simpl; [done|].
  destruct (IH (remove_one c f)) as [E Hg].
  assert (firing (remove_one c f) = firing c ∧ ∀ g, g ∈ list_of (remove_one c f) → g ∈ list_of c) as [E1 Hg1].
  { unfold remove_one, list_of. destruct (items c) as [l|] eqn:Ei; [|by rewrite Ei].
    pose proof (remove_from_fewer f 0 l (firingIndex c)) as Hr. destruct (remove_from _ _ _ _) as [l' i]. simpl in *.
    auto. }
  split; [congruence|]. auto.
Qed.

Lemma inv_own n f st w :
  quiet w st → n < owned w → (∀ c, firing (f c) = firing c ∧ ∀ g, g ∈ list_of (f c) → g ∈ list_of c) → inv (own n f st w).
Proof.
  intros [H1 H2 H3 H4] Hn Hf. destruct (Hf (lists w (Own n))) as [Ef Hg].
  assert (Ht : touches (Own n) [] w (set_list (Own n) (f (lists w (Own n))) w)) by by apply set_list_touches.
  apply inv_of_quiet; [|done..]. split.
  - eapply touches_sound_keep; [done | done | constructor | done | | done]. simpl. by rewrite fn_lookup_insert.
  - intros d Hd. eapply touches_calm; [exact Ht | by intros [] | by apply H2].
  - done.
  - eapply Forall_impl; [done|]. intros fr. by apply frame_ok_mono; [apply kinds_le_eq|].
Qed.

Lemma inv_new_callbacks o st w :
  quiet w st → quiet (set_list (Own (owned w)) (Callbacks o) (set_owned (S (owned w)) w)) st.
Proof.
  intros [H1 H2 H3 H4]. set (n := owned w). set (w1 := set_owned (S n) w).
  assert (Hs : sound w1 (loops_of st)) by (apply (sound_same w w1); simpl; [done | done | lia | done]).
  assert (Ht : touches (Own n) [] w1 (set_list (Own n) (Callbacks o) w1)).
  { apply set_list_touches. by intros f ?%elem_of_nil. }
  destruct (s_unborn _ _ H1 (Own n)) as [Ef _]; [simpl; lia|].
  split.
  - eapply touches_sound_keep; [done | simpl; lia | constructor | done | | done]. simpl. by rewrite fn_lookup_insert, Ef.
  - intros d Hd. eapply touches_calm; [done | by intros []|]. by apply (same_calm w); [|apply H2].
  - done.
  - eapply Forall_impl; [done|]. intros fr. apply frame_ok_mono; simpl; [by apply kinds_le_eq | lia].
Qed.

Lemma visible_user w args : Forall (user w) (visible args).
Proof. apply Forall_forall. intros f (p & -> & _)%list_elem_of_fmap. done. Qed.

Lemma visible_own w n args : Forall (addable w (Own n)) (visible args).
Proof. apply Forall_forall. intros f (p & -> & _)%list_elem_of_fmap. simpl. eauto. Qed.

Lemma inv_deferred_op d o st w : quiet w st → d < deferreds w → inv (deferred_op d o st w).
Proof.
  intros H Hd. destruct o; simpl; try by apply inv_type_error.
  - apply inv_add_to; [done..|]. apply visible_user.
  - apply inv_of_quiet; [done| |done]. unfold adds_ok. repeat constructor; simpl; try done; apply visible_user.
  - destruct (can_settle d w); [by apply inv_fire_with | by apply inv_type_error].
  - by apply inv_of_quiet.
  - by apply inv_of_quiet.
  - by apply inv_then.
  - by apply inv_then.
  - by apply inv_pipe.
Qed.

Lemma inv_own_op n o st w : quiet w st → n < owned w → inv (own_op n o st w).
Proof.
  intros H Hn. destruct o; simpl; try by apply inv_type_error.
  - apply inv_add_to; [done..|]. apply visible_own.
  - apply inv_own; [done..|]. intros c. apply remove_fewer.
  - apply inv_own; [done..|]. intros c. unfold empty. destruct (items c); [|done]. split; [done|].
    by intros g ?%elem_of_nil.
  - apply inv_own; [done..|]. intros c. split; [done|]. by intros g ?%elem_of_nil.
  - apply inv_own; [done..|]. intros c. split; [apply lock_firing | apply lock_fewer].
  - by apply inv_fire_with.
  - by apply inv_of_quiet.
Qed.

Lemma inv_do_op o st w : quiet w st → inv (do_op o st w).
Proof.
  intros H.
  assert (Hdef : ∀ d, inv (if d <? deferreds w then deferred_op d o st w else type_error st w)).
  { intros d. destruct (Nat.ltb_spec d (deferreds w)); [by apply inv_deferred_op | by apply inv_type_error]. }
  assert (Hown : ∀ n, inv (if n <? owned w then own_op n o st w else type_error st w)).
  { intros n. destruct (Nat.ltb_spec n (owned w)); [by apply inv_own_op | by apply inv_type_error]. }
  destruct o; try apply Hdef; try apply Hown; unfold do_op.
  - pose proof (quiet_new_deferred OfPage w st H) as Hn. destruct (new_deferred OfPage w) as [d w1].
    destruct Hn as (_ & _ & Hq). destruct func; apply inv_of_quiet; try done. by apply quiet_push.
  - by apply inv_of_quiet.
  - by apply inv_of_quiet.
  - apply inv_of_quiet; [|done..]. apply (quiet_same w); try done. apply H.
  - apply inv_of_quiet; [|done..]. by apply inv_new_callbacks.
Qed.

(** ** Every step *)

Section machine.
Context (page : nat → data → prog).

Lemma inv_call p dat st w : quiet w st → inv (call page p dat st w).
Proof.
  intros H. destruct p as [n|d a|k]; simpl.
  - by apply inv_of_quiet.
  - unfold can_settle. destruct (bool_decide_reflect (kinds w !! d = Some OfPage)); [|by apply inv_type_error].
    apply inv_settle; [done | by eapply kind_born].
  - destruct (given w !! k); [by apply inv_of_quiet | by apply inv_type_error].
Qed.

(** A function has returned to the loop that called it. *)
Lemma inv_loop_return v l st w :
  quiet w (FLoop l :: st) → inv (Config (Next l) st (set_list l (returned (bool_decide (v = VFalse)) (lists w l)) w)).
Proof.
  intros [H1 H2 H3 H4]. assert (Hn : at_next l st w) by (apply Forall_cons in H4 as [_ H4]; by split).
  destruct (at_next_born _ _ _ Hn) as [Hb Hf]. set (c := returned _ _). set (w' := set_list l c w).
  assert (Hc : firing c = firing (lists w l) ∧ list_of c = list_of (lists w l)).
  { subst c. unfold returned. by destruct (_ && _). }
  assert (Ht : touches l [] w w') by (apply set_list_touches; by destruct Hc as [_ ->]).
  apply inv_next_at.
  - apply set_list_keeps_loops; [by destruct Hc as [_ ->] | by apply Hc | done | done].
  - intros d Hd. destruct (decide (settles l d)) as [Hsl|Hsl]; [|by eapply touches_calm; [|done|apply H2]].
    destruct l as [d' a h|n]; [|done]. destruct Hsl as [-> Ha].
    destruct (firing_settled w d a h (H2 d Hd) Ha Hf) as (dat & _ & _ & Hside).
    destruct (side_next w dat _ Hside Hf) as (i & fs & E & _).
    eapply (same_calm w); [|by apply H2]. split; [done|]. intros a' h' _.
    destruct (decide (Lid d a' h' = Lid d a h)) as [->|Hne]; [|by apply Ht].
    split; try done. simpl. rewrite fn_lookup_insert. subst c. rewrite E. unfold returned. simpl. by rewrite andb_false_r.
Qed.

Lemma inv_step_return v fr st w : quiet w (fr :: st) → inv (step_return v fr st w).
Proof.
  intros H. destruct fr as [l|k|depth t ph|n a dat|v'|adds v']; [by apply inv_loop_return|..];
    (apply quiet_pop in H as [H Hf]; [|done]); simpl.
  - by apply inv_of_quiet.
  - destruct ph; [|by apply inv_of_quiet]. apply inv_handled. by apply quiet_log_first.
  - by apply inv_piped.
  - by apply inv_of_quiet.
  - by apply inv_of_quiet.
Qed.

(** An exception leaves the loop, which stays under way. *)
Lemma quiet_escaped l st w : quiet w (FLoop l :: st) → quiet (log (Escaped l) w) st.
Proof.
  intros [H1 H2 H3 H4]. apply Forall_cons in H4 as [Hfr H4].
  assert (Hn : at_next l st w) by by split. destruct (at_next_born _ _ _ Hn) as [Hb Hf].
  pose proof (s_nodup _ _ H1) as [Hnl Hnd]%NoDup_cons.
  assert (Hs : ∀ l', l' ≠ l → same l' w (log (Escaped l) w)).
  { intros l' Hl. split; simpl; [done | | |].
    - by rewrite runs_of_app, app_nil_r.
    - by rewrite adds_of_app, app_nil_r.
    - rewrite elem_of_app, list_elem_of_singleton. split; [|tauto]. intros [|[= ->]]; done. }
  assert (Er : runs_of l (trace (log (Escaped l) w)) = runs_of l (trace w)) by (simpl; by rewrite runs_of_app, app_nil_r).
  assert (Ea : adds_of l (trace (log (Escaped l) w)) = adds_of l (trace w)) by (simpl; by rewrite adds_of_app, app_nil_r).
  split.
  - apply (sound_change w _ (l :: loops_of st) _ l []).
    1-5: done.
    + by rewrite Ea, app_nil_r.
    + constructor.
    + by left.
    + done.
    + intros l' Hl. rewrite elem_of_cons. tauto.
    + simpl. rewrite Hf, elem_of_app, list_elem_of_singleton. tauto.
    + done.
    + intros d a ->. done.
  - intros d Hd. eapply (keeps_calm l w); [|by apply H2]. split; [done | done | done | |].
    + intros b [E1 E2]. split; [by rewrite Er | by rewrite Ea].
    + intros dat [i fs Hi E Hr|E Hr]; [eapply side_looping | eapply side_at_rest]; rewrite ?Er, ?Ea; eauto.
  - done.
  - eapply Forall_impl; [done|]. intros fr. by apply frame_ok_mono; [apply kinds_le_eq|].
Qed.

Lemma inv_step_throw e fr st w : quiet w (fr :: st) → inv (step_throw e fr st w).
Proof.
  intros H. destruct fr as [l|k|depth t ph|n a dat|v'|adds v'];
    [apply inv_of_quiet; [by apply quiet_escaped|done..]|..];
    (apply quiet_pop in H as [H Hf]; [|done]); simpl; try by apply inv_of_quiet.
  destruct (is_special t); [by apply inv_of_quiet|]. apply inv_caught. destruct ph; [by apply quiet_log_first | done].
Qed.

Lemma inv_step x y : step page x = Some y → inv x → inv y.
Proof.
  destruct x as [c st w]. unfold step. simpl. intros E H.
  assert (Hq : match c with Next _ => True | _ => quiet w st end).
  { destruct c; try done; by apply (quiet_inv _ _ _ H). }
  destruct c as [p|p dat|r dat|adds v|l|v|v].
  - destruct p; injection E as <-; [by apply inv_of_quiet | by apply inv_of_quiet|]. apply inv_do_op. by apply quiet_push.
  - injection E as <-. by apply inv_call.
  - injection E as <-. by apply inv_resolving.
  - pose proof (in_ctrl _ H) as Ha. simpl in Ha. destruct adds as [|[l fs] adds]; injection E as <-; [by apply inv_of_quiet|].
    apply Forall_cons in Ha as [[Hb Hfs] Ha]. apply inv_add_to; [|done..]. by apply quiet_push.
  - injection E as <-. by apply inv_next.
  - destruct st as [|fr st]; [done|]. injection E as <-. by apply inv_step_return.
  - destruct st as [|fr st]; [done|]. injection E as <-. by apply inv_step_throw.
Qed.

Lemma idle_quiet x : idle x → inv x → quiet (now x) [].
Proof. destruct x as [c st w]. intros [E (v & [E'|E'])] H; simpl in *; subst; by apply (quiet_inv _ _ _ H). Qed.

Lemma inv_runs x y : runs page x y → inv x → inv y.
Proof.
  intros Hr H. destruct Hr as [y Hs|p Hi|t ts Hi Ht].
  - by eapply inv_step.
  - apply inv_of_quiet; [by apply idle_quiet | done..].
  - apply inv_process. eapply (quiet_same (now x)); try done; [|by apply idle_quiet].
    by apply (idle_quiet x Hi H).
Qed.

Lemma inv_start : inv start.
Proof.
  split; simpl; [|unfold deferreds; simpl; lia|constructor..|done]. split; simpl.
  - done.
  - intros l f Hf. by apply elem_of_nil in Hf.
  - intros l f Hf. by apply elem_of_nil in Hf.
  - unfold deferreds. simpl. lia.
  - constructor.
  - intros l. split; [done|]. intros [H|H]; by apply elem_of_nil in H.
  - intros l Hl. by apply elem_of_nil in Hl.
  - intros d a Hl. by apply elem_of_nil in Hl.
Qed.

Lemma inv_later x y : rtc (runs page) x y → inv x → inv y.
Proof. induction 1 as [|x y z Hxy _ IH]; [done|]. intros H. by eapply IH, inv_runs. Qed.

Lemma reachable_inv x : reachable page x → inv x.
Proof. intros H. by eapply inv_later; [|apply inv_start]. Qed.
End machine.
