(* ===== verification/JqDeferredFacts.v ===== *)
(** * Deferred objects: settled once, callbacks in order

    What the invariant of [JqDeferredStep] means for a page: a deferred is settled
    once and for all, every callback of either side gets the same data, callbacks
    run in the order they were added and none is left out, and what an exception in
    one of them does. *)
From stdpp Require Import base list functions relations.
From Stdlib Require Import ZArith Lia.
From S2P Require Import Prelude JqCallbacks JqDeferred JqDeferredInv JqDeferredStep.

(** ** Steps that call no function of a list *)

Record grows (w w' : world) : Prop := {
  gr_trace : trace w `prefix_of` trace w';
  gr_runs l : runs_of l (trace w') = runs_of l (trace w)
}.
#[export] Instance grows_preorder : PreOrder grows.
Proof. split; [done|]. intros w1 w2 w3 [] []. split; [by etrans | congruence]. Qed.

Lemma grows_same w w' : trace w' = trace w → grows w w'.
Proof. intros E. split; by rewrite E. Qed.

Lemma grows_logs w es : (∀ l, runs_of l es = []) → grows w (logs es w).
Proof. intros Hr. split; simpl; [by eexists|]. intros l. by rewrite runs_of_app, Hr, app_nil_r. Qed.

Lemma grows_log_first depth e w : silent e → grows w (log_first depth e w).
Proof.
  intros He. unfold log_first. destruct (_ =? _); [|done]. apply grows_logs. intros l. by apply silent_nothing.
Qed.

Lemma grows_fires l fs w st x : fires l fs w st x → grows w (now x).
Proof.
  intros [Ht _ _ Hr _ _]. split; [apply (to_lists _ _ _ _ Ht)|]. intros l'.
  by apply same_calls_runs.
Qed.

Lemma grows_makes k d w w' : makes k d w w' → grows w w'.
Proof. intros Hm. split; [apply Hm|]. intros l. by apply same_calls_runs, Hm. Qed.

Section quiet_growth.
Context (st : list frame) (w : world) (H : quiet w st).

Lemma grows_add_to l fs v : born w l → Forall (addable w l) fs → grows w (now (add_to l fs v st w)).
Proof.
  intros Hb Hfs. destruct (add_to_fires l fs v st w Hb Hfs (qu_sound _ _ H)) as (fs' & _ & Hx). by eapply grows_fires.
Qed.
Lemma grows_fire_with l dat v : born w l → grows w (now (fire_with l dat v st w)).
Proof. intros Hb. eapply grows_fires, fire_with_fires; [done | apply H]. Qed.

Lemma grows_new b : let '(d, w') := new_deferred b w in d = deferreds w ∧ grows w w' ∧ chains w' = chains w.
Proof.
  pose proof (quiet_new_deferred b w st H) as Hn. destruct (new_deferred b w) as [d w']. destruct Hn as (Hd & Hm & _).
  split; [done|]. split; [by eapply grows_makes | apply Hm].
Qed.

Lemma grows_then d f r p : grows w (now (then_op d f r p st w)).
Proof.
  unfold then_op. pose proof (grows_new OfThen) as Hn. destruct (new_deferred OfThen w) as [n w1]. destruct Hn as (_ & Hg & _).
  simpl. transitivity w1; [done|]. etrans; [|by apply grows_logs]. by apply grows_same.
Qed.
Lemma grows_pipe d f r p : grows w (now (pipe_op d f r p st w)).
Proof.
  unfold pipe_op. pose proof (grows_new OfPipe) as Hn. destruct (new_deferred OfPipe w) as [n w1]. by destruct Hn as (_ & Hg & _).
Qed.
Lemma grows_process depth t : grows w (now (process depth t st w)).
Proof.
  unfold process. destruct (chains w !! t_chain t); [|done]. destruct (_ <? _); [done|].
  destruct (t_handler t); by apply grows_log_first.
Qed.
Lemma grows_resolving r dat : grows w (now (resolving r dat st w)).
Proof.
  unfold resolving. destruct (_ =? _); [|apply grows_process]. simpl. unfold queue_task.
  etrans; [|by apply grows_logs]. by apply grows_same.
Qed.
Lemma grows_call_then v rs : grows w (now (call_then v rs st w)).
Proof.
  destruct v; simpl; try done; try (destruct (_ <? _); [apply grows_then | done]).
Qed.
Lemma grows_piped n a dat v : kinds w !! n = Some OfPipe → grows w (now (piped n a dat v st w)).
Proof.
  intros Hn. unfold piped. destruct v as [| | | |d|d| | | |]; try (by apply grows_fire_with; eapply kind_born);
    destruct (d <? deferreds w); done.
Qed.
Lemma grows_caught depth t e : grows w (now (caught depth t e st w)).
Proof.
  unfold caught. destruct (chains w !! t_chain t) as [[d m n]|] eqn:Ec; [|done].
  destruct (chain_newDefer _ _ _ _ _ _ H Ec). destruct (_ <=? _); [by apply grows_fire_with; eapply kind_born | done].
Qed.
End quiet_growth.

Lemma grows_handled depth t v st w : quiet w st → grows w (now (handled depth t v st w)).
Proof.
  intros H. unfold handled. destruct (chains w !! t_chain t) as [[d m n]|] eqn:Ec; [|done].
  destruct (chain_newDefer _ _ _ _ _ _ H Ec) as [Hd Hn].
  assert (Hp : quiet w (FProcess depth t Passing :: st)) by by apply quiet_push.
  destruct (decide (v = Promise n)); [done|]. destruct (is_thenable v); [|by apply grows_fire_with; [|eapply kind_born]].
  destruct (is_special t); [by apply grows_call_then|].
  etrans; [|apply grows_call_then]; [by apply grows_same|]. by apply quiet_deeper.
Qed.

Lemma grows_deferred_op d o st w : quiet w st → d < deferreds w → grows w (now (deferred_op d o st w)).
Proof.
  intros H Hd. destruct o; unfold deferred_op; try done.
  - apply grows_add_to; [done..|]. apply visible_user.
  - destruct (can_settle d w); [by apply grows_fire_with | done].
  - by apply grows_then.
  - by apply grows_then.
  - by apply grows_pipe.
Qed.

Lemma grows_own_op n o st w : quiet w st → n < owned w → grows w (now (own_op n o st w)).
Proof.
  intros H Hn. destruct o; simpl; try done; try (by apply grows_same).
  - apply grows_add_to; [done..|]. apply visible_own.
  - by apply grows_fire_with.
Qed.

Lemma grows_do_op o st w : quiet w st → grows w (now (do_op o st w)).
Proof.
  intros H.
  assert (Hdef : ∀ d, grows w (now (if d <? deferreds w then deferred_op d o st w else type_error st w))).
  { intros d. destruct (Nat.ltb_spec d (deferreds w)); [by apply grows_deferred_op | done]. }
  assert (Hown : ∀ n, grows w (now (if n <? owned w then own_op n o st w else type_error st w))).
  { intros n. destruct (Nat.ltb_spec n (owned w)); [by apply grows_own_op | done]. }
  destruct o; try apply Hdef; try apply Hown; unfold do_op; try by apply grows_same.
  pose proof (grows_new st w H OfPage) as Hn. destruct (new_deferred OfPage w) as [d w1].
  destruct Hn as (_ & Hg & _). by destruct func.
Qed.

Section machine.
Context (page : nat → data → prog).

Lemma grows_call p dat st w : quiet w st → grows w (now (call page p dat st w)).
Proof.
  intros H. destruct p as [n|d a|k]; simpl; [done| |by destruct (given w !! k)].
  unfold can_settle. destruct (bool_decide_reflect (kinds w !! d = Some OfPage)); [|done].
  apply grows_fire_with; [done | by eapply kind_born].
Qed.

Lemma grows_step_return v fr st w : quiet w (fr :: st) → grows w (now (step_return v fr st w)).
Proof.
  intros H. destruct fr as [l|k|depth t ph|n a dat|v'|adds v']; simpl; try by apply grows_same.
  - apply quiet_pop in H as [H _]; [|done]. destruct ph; [|done].
    etrans; [|apply grows_handled]; [by apply grows_log_first | by apply quiet_log_first].
  - apply quiet_pop in H as [H Hf]; [|done]. by apply grows_piped.
Qed.

Lemma grows_step_throw e fr st w : quiet w (fr :: st) → grows w (now (step_throw e fr st w)).
Proof.
  intros H. destruct fr as [l|k|depth t ph|n a dat|v'|adds v']; simpl; try by apply grows_same.
  - by apply grows_logs.
  - apply quiet_pop in H as [H _]; [|done]. destruct (is_special t); [done|]. destruct ph; [|by apply grows_caught].
    etrans; [|apply grows_caught]; [by apply grows_log_first | by apply quiet_log_first].
Qed.

(** A list that is not at its next function calls none in a step. *)
Lemma step_grows x y :
  step page x = Some y → inv x → match ctrl x with Next _ => True | _ => grows (now x) (now y) end.
Proof.
  destruct x as [c st w]. unfold step. simpl. intros E H.
  assert (Hq : match c with Next _ => True | _ => quiet w st end).
  { destruct c; try done; by apply (quiet_inv _ _ _ H). }
  destruct c as [p|p dat|r dat|adds v|l|v|v]; [| | | |done| |].
  - destruct p; injection E as <-; [done..|]. apply grows_do_op. by apply quiet_push.
  - injection E as <-. by apply grows_call.
  - injection E as <-. by apply grows_resolving.
  - pose proof (in_ctrl _ H) as Ha. simpl in Ha. destruct adds as [|[l fs] adds]; injection E as <-; [done|].
    apply Forall_cons in Ha as [[Hb Hfs] Ha]. apply grows_add_to; [|done..]. by apply quiet_push.
  - destruct st as [|fr st]; [done|]. injection E as <-. by apply grows_step_return.
  - destruct st as [|fr st]; [done|]. injection E as <-. by apply grows_step_throw.
Qed.

(** What a function of a list is about exists. *)
Definition callable (w : world) (f : fn) : Prop :=
  match f with FireList l' => born w l' | Piped n _ _ | Forward n _ => kinds w !! n = Some OfPipe | _ => True end.

(** A list that is at its next function calls that one only. *)
Lemma next_shape l st w c f :
  at_next l st w → inner (lists w l) = (c, Some f) →
  callable w f.
Proof.
  intros Hn Hi. destruct (at_next_born _ _ _ Hn) as [Hb _]. destruct (inner_some _ _ _ Hi) as [_ Hin].
  assert (shape w l f) as [Ha|Ha].
  { eapply s_shape; [apply Hn|]. eapply s_items; [apply Hn | done]. }
  - destruct l as [d a []|n]; simpl in Ha; [by destruct Ha as (? & ? & ->) | by destruct f | by destruct Ha as [? ->]].
  - destruct l as [d a []|n]; try done. revert f Hi Hin Ha. intros f _ _. revert f. apply Forall_forall.
    by destruct a; repeat constructor.
Qed.

Lemma grows_run_fn l f dat st w :
  at_next l st w → callable w f →
  grows w (now (run_fn l f dat st w)).
Proof.
  intros Hn Hf. assert (Hfire : ∀ l' dat v, born w l' → grows w (now (fire_with l' dat v (FLoop l :: st) w))).
  { intros l' dat' v Hb. eapply grows_fires, fire_with_fires; [done | apply Hn]. }
  destruct f as [p|d a|m|m|m|c a h|n a [p|]|n a]; simpl; try by apply grows_same.
  - by apply Hfire.
  - unfold queue_task. etrans; [|by apply grows_logs]. by apply grows_same.
  - apply Hfire. by eapply kind_born.
  - apply Hfire. by eapply kind_born.
Qed.

Lemma next_grows l st w :
  at_next l st w → trace w `prefix_of` trace (now (next l st w)) ∧
    ∀ l', l' ≠ l → runs_of l' (trace (now (next l st w))) = runs_of l' (trace w).
Proof.
  intros Hn. unfold next. destruct (inner (lists w l)) as [c [f|]] eqn:Ei.
  - set (w' := log _ _). assert (Ht : touches l [] w w').
    { apply ran_touches. destruct (inner_some _ _ _ Ei) as [-> _]. done. }
    destruct (inner_some _ _ _ Ei) as [Ec _].
    assert (Hn' : at_next l st w') by (apply ran_at_next; by subst c).
    assert (Hg : grows w' (now (run_fn l f (default (Undefined, []) (memory c)) st w'))).
    { apply grows_run_fn; [done|]. exact (next_shape _ _ _ _ _ Hn Ei). }
    split; [etrans; [apply Ht | apply Hg]|]. intros l' Hl. rewrite (gr_runs _ _ Hg). by apply same_runs, Ht.
  - assert (Hg : grows w (now (fire_turn l st (set_list l (set_index (-1) c) w)))).
    { unfold fire_turn. by destruct (outer _); apply grows_same. }
    split; [apply Hg|]. intros l' _. apply Hg.
Qed.

Lemma runs_trace x y : inv x → runs page x y → trace (now x) `prefix_of` trace (now y).
Proof.
  intros H [z Hs|p Hi|t ts Hi Ht]; [|done|].
  - destruct (ctrl x) as [| | | |l| |] eqn:Ec; try (pose proof (step_grows x z Hs H) as Hg; rewrite Ec in Hg; apply Hg).
    destruct x as [c st w]. simpl in Ec. subst c. injection Hs as <-. apply next_grows. by split; apply H.
  - assert (Hg : grows (set_timers ts (now x)) (now (timeout t (set_timers ts (now x))))) by apply grows_process.
    apply Hg.
Qed.

Lemma later_trace x y : inv x → rtc (runs page) x y → trace (now x) `prefix_of` trace (now y).
Proof.
  intros H Hr. revert H. induction Hr as [|x y z Hxy _ IH]; intros H; [done|].
  etrans; [by eapply runs_trace | by eapply IH, inv_runs].
Qed.

Lemma later_runs x y l f dat :
  inv x → rtc (runs page) x y → (f, dat) ∈ runs_of l (trace (now x)) → (f, dat) ∈ runs_of l (trace (now y)).
Proof.
  intros H Hr. rewrite !elem_runs. intros Hin. destruct (later_trace x y H Hr) as [es ->]. rewrite elem_of_app. by left.
Qed.

(** ** What a settled deferred has done *)

(** The side of a deferred in which something has been called. *)
Lemma ran_side x d a h f dat :
  inv x → a ≠ Notify → Ran (Lid d a h) f dat ∈ trace (now x) → started (now x) d a dat.
Proof.
  intros H Ha Hran. apply elem_runs in Hran. assert (Hd : d < deferreds (now x)).
  { destruct (decide (d < deferreds (now x))) as [|Hn]; [done|].
    destruct (s_unborn _ _ (in_sound _ H) (Lid d a h) Hn) as (_ & E & _). rewrite E in Hran. by apply elem_of_nil in Hran. }
  assert (Hs : ∃ a' dat', started (now x) d a' dat').
  { destruct (in_deferreds _ H d Hd) as [[[_ Hq]|(a' & dat' & Hs & _)]|(a' & dat' & Hs & _)]; eauto.
    destruct (Hq a h Ha) as [E _]. rewrite E in Hran. by apply elem_of_nil in Hran. }
  destruct Hs as (a' & dat' & Hs). pose proof Hs as [].
  destruct (decide (a = a')) as [->|Hne].
  - by rewrite (st_data f dat h Hran).
  - replace a with (other a') in Hran by (by destruct a, a'). exfalso.
    destruct h; [destruct st_others as [E _] | destruct st_other as [E _]]; rewrite E in Hran; by apply elem_of_nil in Hran.
Qed.

Lemma started_of_state x d a :
  inv x → d < deferreds (now x) → states (now x) d = Some a →
  ∃ dat, started (now x) d a dat ∧ (SetState d a, dat) ∈ runs_of (main d a) (trace (now x)).
Proof.
  intros H Hd Es.
  assert (Hs : ∃ a' dat', started (now x) d a' dat').
  { destruct (in_deferreds _ H d Hd) as [[[E _]|(a' & dat' & Hs & _)]|(a' & dat' & Hs & _)]; eauto; congruence. }
  destruct Hs as (a' & dat & Hs). pose proof Hs as []. rewrite Es in st_state.
  destruct (Nat.leb_spec 1 (called (now x) d a')) as [Hc|]; [|done]. injection st_state as <-.
  exists dat. split; [done|]. unfold called in Hc.
  destruct (s_builtins _ _ (in_sound _ H) d a Hd st_action) as (us & E & _).
  assert (Hpre : (runs_of (main d a) (trace (now x))).*1 `prefix_of` builtins d a ++ us).
  { rewrite <- E. destruct st_main as [i fs _ _ <-|_ ->]; [by eexists | done]. }
  destruct (runs_of (main d a) (trace (now x))) as [|[f dat'] rs] eqn:Er; [simpl in Hc; lia|].
  destruct Hpre as [k Hk]. rewrite (st_data f dat' false) by (rewrite Er; apply list_elem_of_here).
  destruct a; [done|..]; injection Hk as <- _; apply list_elem_of_here.
Qed.

Lemma started_unique w d a dat a' dat' :
  started w d a dat → started w d a' dat' → a' = a ∧ dat' = dat.
Proof.
  intros Hs Hs'. pose proof (st_main _ _ _ _ Hs') as Hm'. pose proof (st_action _ _ _ _ Hs') as Ha'.
  destruct Hs as [Ha Hm0 _ Ho _ _ _]. assert (Hm : memory (lists w (main d a)) = Some dat).
  { by destruct Hm0 as [i fs _ -> _| -> _]. }
  assert (a' = a) as ->.
  { destruct (decide (a' = a)) as [|Hne]; [done|]. exfalso.
    replace a' with (other a) in Hm' by (by destruct a, a').
    destruct Ho as [_ E]. destruct Hm' as [i fs _ E' _|E' _]; rewrite E' in E; by destruct (2 <=? _). }
  split; [done|]. destruct Hm' as [i fs _ E' _|E' _]; rewrite E' in Hm; by injection Hm.
Qed.

(** ** Theorems *)

(** C31. A deferred is settled once and for all, whatever its callbacks, its handlers and
    the page do, before, after or while it is settled: once its state is resolved or
    rejected it stays so, and in the whole history all functions that its done and fail
    lists and the handlers of [then] have been called for belong to the same of the two
    sides and get the same context and arguments. *)
Theorem settled_once d x y :
  reachable page x → rtc (runs page) x y → d < deferreds (now x) →
  (∀ a, states (now x) d = Some a → states (now y) d = Some a) ∧
  (∀ a h f dat a' h' f' dat', a ≠ Notify → a' ≠ Notify →
     Ran (Lid d a h) f dat ∈ trace (now y) → Ran (Lid d a' h') f' dat' ∈ trace (now y) → a' = a ∧ dat' = dat).
Proof.
  intros Hx Hr Hd. assert (H : inv x) by by eapply reachable_inv. assert (H' : inv y) by by eapply inv_later.
  assert (Huniq : ∀ a dat a' dat', started (now y) d a dat → started (now y) d a' dat' → a' = a ∧ dat' = dat).
  { intros a dat a' dat' Hs Hs'. by eapply started_unique. }
  split.
  - intros a Es. destruct (started_of_state x d a H Hd Es) as (dat & Hs & Hran).
    pose proof (later_runs x y _ _ _ H Hr Hran) as Hran'. apply elem_runs in Hran' as Hran2.
    pose proof (ran_side y d a false _ _ H' (st_action _ _ _ _ Hs) Hran2) as Hsy.
    rewrite (st_state _ _ _ _ Hsy). unfold called. destruct (runs_of (main d a) (trace (now y))); [|done].
    by apply elem_of_nil in Hran'.
  - intros a h f dat a' h' f' dat' Ha Ha' Hran Hran'. eapply Huniq; by eapply ran_side.
Qed.

(** C32. The callbacks of a settled deferred run in the order they were added, those added
    before it was settled and those added later alike, each once and none of the other
    side: between scripts all of them have run, unless an exception of one of them has
    left the list for good. *)
Theorem deferred_callbacks_in_order d a x :
  reachable page x → d < deferreds (now x) → states (now x) d = Some a →
  (runs_of (main d a) (trace (now x))).*1 `prefix_of` adds_of (main d a) (trace (now x)) ∧
  (idle x → Escaped (main d a) ∉ trace (now x) →
   (runs_of (main d a) (trace (now x))).*1 = adds_of (main d a) (trace (now x))) ∧
  runs_of (main d (other a)) (trace (now x)) = [].
Proof.
  intros Hx Hd Es. assert (H : inv x) by by eapply reachable_inv.
  destruct (started_of_state x d a H Hd Es) as (dat & Hs & _). split; [|split].
  - destruct (st_main _ _ _ _ Hs) as [i fs _ _ <-|_ ->]; [by eexists | done].
  - intros Hi He. destruct (st_main _ _ _ _ Hs) as [i fs _ E _|_ ->]; [|done]. exfalso.
    assert (firing (lists (now x) (main d a)) = true) as [Hl|]%(s_firing _ _ (in_sound _ H)) by (by rewrite E); [|done].
    unfold loops in Hl. destruct Hi as (E1 & v & E2). rewrite E1 in Hl.
    destruct E2 as [E2|E2]; rewrite E2 in Hl; by apply elem_of_nil in Hl.
  - apply (st_other _ _ _ _ Hs).
Qed.

(** C35. An exception that leaves a callback of a list, while nothing else of it is under
    way, ends the list: it never calls a function again, not even those that were added
    and not those that will be. *)
Theorem exception_ends_list l x y :
  reachable page x → rtc (runs page) x y → Escaped l ∈ trace (now x) →
  runs_of l (trace (now y)) = runs_of l (trace (now x)).
Proof.
  intros Hx Hr. apply reachable_inv in Hx. revert Hx. induction Hr as [|x y z Hxy _ IH]; intros H He; [done|].
  assert (H' : inv y) by by eapply inv_runs. pose proof (runs_trace x y H Hxy) as [es E].
  rewrite IH; [|done | rewrite E, elem_of_app; by left].
  assert (Hn : l ∉ loops x) by (intros Hl; by apply (s_escaped _ _ (in_sound _ H) l Hl)).
  destruct Hxy as [y Hs|p Hi|t ts Hi Ht]; [|done|].
  - destruct (ctrl x) as [| | | |l'| |] eqn:Ec; try (pose proof (step_grows x y Hs H) as Hg; rewrite Ec in Hg; apply Hg).
    destruct x as [c st w]. simpl in Ec. subst c. injection Hs as <-. apply next_grows; [by split; apply H|].
    intros ->. apply Hn. apply list_elem_of_here.
  - assert (Hg : grows (set_timers ts (now x)) (now (timeout t (set_timers ts (now x))))) by apply grows_process.
    apply Hg.
Qed.
End machine.

(** ** A page *)

Lemma step_none page x : step page x = None → idle x.
Proof.
  destruct x as [c st w]. unfold step. simpl.
  destruct c as [[]| | |[|[] ]| |v|v]; try done; (destruct st; [|done]); intros _; split; eauto.
Qed.

Lemma run_runs page n x : rtc (runs page) x (run page n x).
Proof.
  revert x. induction n as [|n IH]; intros x; simpl; [done|].
  destruct (step page x) as [y|] eqn:E; [eapply rtc_l; [by apply runs_step | apply IH]|].
  destruct (timers (now x)) as [|t ts] eqn:Et; [done|].
  eapply rtc_l; [apply (runs_timer page x t ts); [by eapply step_none | done] | apply IH].
Qed.

(** Its script makes a deferred, calls [then], adds two functions with [done], resolves
    the deferred and rejects it, and adds another function. *)
Definition demo_page (n : nat) (dat : data) : prog :=
  match n with 2 => Throw (Plain 13) | _ => Return (Plain (n + 8)) end.

Definition script (os : list op) : prog := fold_right (λ o p, Op o (λ _, p)) (Return Undefined) os.

Definition demo_ops (f : nat) : list op :=
  [NewDeferred None; Then 0 (Func (Page 0)) Undefined Undefined;
   Listen 0 Resolve [AFun (Page 1); AList [AFun (Page f)]];
   SettleWith 0 Resolve (Undefined, [Plain 7]); SettleWith 0 Reject (Undefined, [Plain 9]);
   Listen 0 Resolve [AFun (Page 4)]].

Definition demo (f n : nat) : config :=
  run demo_page n (Config (Eval (script (demo_ops f))) [] (now start)).

Lemma demo_reachable f n : reachable demo_page (demo f n).
Proof.
  eapply rtc_l; [|apply run_runs]. apply (runs_script demo_page start). split; [done|]. exists Undefined. by left.
Qed.


Lemma idle_run page n x : bool_decide (stack (run page n x) = []) = true →
  match ctrl (run page n x) with Ret _ | Exn _ => true | _ => false end = true → idle (run page n x).
Proof. intros E%bool_decide_eq_true Hc. split; [done|]. destruct (ctrl _) as [| | | | |v|v]; try done; exists v; auto. Qed.

(** After it, another script. *)
Definition demo_more (f : nat) (os : list op) (n : nat) : config :=
  run demo_page n (Config (Eval (script os)) [] (now (demo f 300))).

Lemma demo_later f os n : idle (demo f 300) → rtc (runs demo_page) (demo f 300) (demo_more f os n).
Proof. intros Hi. eapply rtc_l; [by apply runs_script | apply run_runs]. Qed.

(** Decides a goal by computing. *)
Ltac computed := match goal with |- ?P => apply (bool_decide_unpack P); by vm_compute end.

Lemma settled_once_witness :
  states (now (demo 3 60)) 0 = Some Resolve ∧ states (now (run demo_page 100 (demo 3 60))) 0 = Some Resolve.
Proof.
  split; [by vm_compute|].
  apply (settled_once demo_page 0 (demo 3 60) (run demo_page 100 (demo 3 60)));
    [apply demo_reachable | apply run_runs | vm_compute; lia | by vm_compute].
Defined.

(** The three functions of the page, in the order they were added. *)
Lemma deferred_callbacks_in_order_witness :
  drop 6 (runs_of (main 0 Resolve) (trace (now (demo 3 300)))).*1 = [Visible (Page 1); Visible (Page 3); Visible (Page 4)] ∧
  (runs_of (main 0 Resolve) (trace (now (demo 3 300)))).*1 = adds_of (main 0 Resolve) (trace (now (demo 3 300))).
Proof.
  split; [by vm_compute|].
  apply (deferred_callbacks_in_order demo_page 0 Resolve (demo 3 300));
    [apply demo_reachable | vm_compute; lia | by vm_compute | by apply idle_run |].
  computed.
Defined.

(** The second function has thrown; a function that is added later is not called. *)
Lemma exception_ends_list_witness :
  Added (main 0 Resolve) (Visible (Page 4)) ∈ trace (now (demo_more 2 [Listen 0 Resolve [AFun (Page 4)]] 100)) ∧
  runs_of (main 0 Resolve) (trace (now (demo_more 2 [Listen 0 Resolve [AFun (Page 4)]] 100))) =
  runs_of (main 0 Resolve) (trace (now (demo 2 300))).
Proof.
  split; [computed|].
  apply (exception_ends_list demo_page); [apply demo_reachable | by apply demo_later, idle_run |].
  computed.
Defined.
