(* ===== verification/JqThen.v ===== *)
(** * [then]: one handler, once

    The invariant of the calls of [then]: which resolvers are in which lists, that
    what lists call is what waits for a timeout, and that a chain is not closed to its
    first handler before that has run.  With it, [then] calls one of its two handlers,
    once, with the data its deferred was settled with. *)
From stdpp Require Import base list functions relations.
From Stdlib Require Import ZArith Lia.
From S2P Require Import Prelude JqCallbacks JqDeferred JqDeferredInv JqDeferredStep JqDeferredFacts.

(** ** What a trace says of timeouts *)

Definition normal (t : task) : Prop := t_action t ≠ Notify.
#[export] Instance normal_dec t : Decision (normal t).
Proof. unfold normal. apply _. Defined.

Definition queued (es : list event) : list task := omap (λ e, match e with Queued t => Some t | _ => None end) es.
Definition handled_of (es : list event) : list task := omap (λ e, match e with Handled t => Some t | _ => None end) es.
Definition normals (ts : list task) : list task := filter normal ts.

(** The resolvers that lists have called, as the tasks they ask for. *)
Definition firsts (es : list event) : list task :=
  omap (λ e, match e with Ran _ (First c a h) dat => Some (Task c a h dat) | _ => None end) es.

(** A handler of the chain [c] has returned an object with a method [then]. *)
Definition answered (es : list event) (c : nat) : Prop :=
  ∃ t v, Answered t v ∈ es ∧ normal t ∧ t_chain t = c ∧ is_thenable v = true.

(** A resolver that belongs to no notification is made for such an object. *)
Definition good (es : list event) (r : resolver) : Prop :=
  r_special r = false → 0 < r_depth r ∧ answered es (r_chain r).
Definition hgood (es : list event) (h : handler) : Prop := match h with Deeper r => good es r | _ => True end.

Definition handler_for (a : action) (f r : handler) : handler := match a with Reject => r | _ => f end.

(** What is in the list [l]. *)
Definition first_ok (w : world) (l : lid) (g : fn) : Prop :=
  match g with
  | First c a h =>
      ∃ ch f r, chains w !! c = Some ch ∧ l = hand (parent ch) a ∧ Thened c (parent ch) f r ∈ trace w ∧
        (a ≠ Notify → h = handler_for a f r) ∧ hgood (trace w) h
  | _ => True
  end.

(** The resolvers of [then] that are still to be added. *)
Definition is_resolver (g : fn) : Prop := match g with First _ _ _ => True | _ => False end.
#[export] Instance is_resolver_dec g : Decision (is_resolver g).
Proof. destruct g; simpl; apply _. Defined.

Definition spread (adds : list (lid * list fn)) : list (lid * fn) := p ← adds; pair p.1 <$> filter is_resolver p.2.
Definition frame_adds (fr : frame) : list (lid * fn) := match fr with FAdds adds _ => spread adds | _ => [] end.
Definition ctrl_adds (c : control) : list (lid * fn) := match c with Adding adds _ => spread adds | _ => [] end.
Definition waits (x : config) : list (lid * fn) := ctrl_adds (ctrl x) ++ (stack x ≫= frame_adds).

(** The resolver of [then] for [a] in the chain [c]. *)
Definition is_first (c : nat) (a : action) (g : fn) : Prop :=
  match g with First c' a' _ => c' = c ∧ a' = a | _ => False end.
#[export] Instance is_first_dec c a g : Decision (is_first c a g).
Proof. destruct g; simpl; apply _. Defined.

(** How often that resolver is in what was added to its list, and in what waits to be. *)
Definition times (ws : list (lid * fn)) (c : nat) (a : action) (d : nat) (w : world) : nat :=
  length (filter (is_first c a) (adds_of (hand d a) (trace w) ++ ws.*2)).

Record then_ok (ws : list (lid * fn)) (w : world) : Prop := {
  ti_thened c d f r : Thened c d f r ∈ trace w → ∃ ch, chains w !! c = Some ch ∧ parent ch = d;
  ti_unique c d f r d' f' r' :
    Thened c d f r ∈ trace w → Thened c d' f' r' ∈ trace w → d' = d ∧ f' = f ∧ r' = r;
  ti_first l g : g ∈ adds_of l (trace w) ∨ (l, g) ∈ ws → first_ok w l g;
  ti_ran l g dat : Ran l g dat ∈ trace w → g ∈ adds_of l (trace w);
  ti_times c d f r a : Thened c d f r ∈ trace w → a ≠ Notify →
    times ws c a d w = 1 ∨ times ws c a d w = 0 ∧ ∃ g dat, Ran (main d (other a)) g dat ∈ trace w;
  ti_queue : normals (queued (trace w)) = normals (firsts (trace w));
  ti_order : normals (queued (trace w)) = normals (handled_of (trace w)) ++ normals (timers w);
  ti_timers : Forall (λ t, hgood (trace w) (t_handler t)) (timers w);
  ti_given : Forall (good (trace w)) (given w);
  ti_closed c ch : chains w !! c = Some ch → 0 < maxDepth ch → answered (trace w) c;
  ti_answers t v : Answered t v ∈ trace w ∨ Threw t v ∈ trace w → normal t → Handled t ∈ trace w;
  ti_new : NoDup (newDefer <$> chains w)
}.

(** ** The calls that are under way *)

Definition frame_good (es : list event) (fr : frame) : Prop :=
  match fr with
  | FProcess depth t _ =>
      hgood es (t_handler t) ∧ (normal t → if depth =? 0 then Handled t ∈ es else answered es (t_chain t))
  | _ => True
  end.
Definition ctrl_good (es : list event) (c : control) : Prop :=
  match c with Resolving r _ => good es r | _ => True end.

(** Additions by [then] go to lists of handlers, and nothing they lead to can throw. *)
Definition plain_adds (adds : list (lid * list fn)) : Prop := Forall (λ p, Forall (λ g, ¬ is_resolver g) p.2) adds.
Definition hand_adds (adds : list (lid * list fn)) : Prop :=
  Forall (λ p, match p.1 with Lid _ _ true => True | _ => False end) adds.
Definition frame_plain (fr : frame) : Prop := match fr with FAdds adds _ => plain_adds adds | _ => True end.
Definition ctrl_plain (c : control) : Prop := match c with Adding adds _ => plain_adds adds | _ => True end.
Definition ctrl_safe (c : control) : Prop :=
  match c with Ret _ => True | Next (Lid _ _ true) => True | _ => False end.

Inductive zone : control → list frame → Prop :=
  | zone_plain c st : ctrl_plain c → Forall frame_plain st → zone c st
  | zone_adding adds v st : hand_adds adds → Forall frame_plain st → zone (Adding adds v) st
  | zone_add c adds v st : ctrl_safe c → hand_adds adds → Forall frame_plain st → zone c (FAdds adds v :: st)
  | zone_fire c v' adds v st :
      ctrl_safe c → hand_adds adds → Forall frame_plain st → zone c (FDone v' :: FAdds adds v :: st).

Record then_inv (x : config) : Prop := {
  th_ok : then_ok (waits x) (now x);
  th_frames : Forall (frame_good (trace (now x))) (stack x);
  th_ctrl : ctrl_good (trace (now x)) (ctrl x);
  th_zone : zone (ctrl x) (stack x)
}.

(** ** Worlds with the same calls *)

Lemma calls_omap {A} (F : event → option A) es :
  (∀ e, ¬ is_call e → F e = None) → omap F (calls es) = omap F es.
Proof.
  intros HF. unfold calls. induction es as [|e es IH]; [done|].
  destruct (decide (is_call e)) as [|Hn].
  - rewrite filter_cons_True by done. cbn. by rewrite IH.
  - rewrite filter_cons_False by done. cbn. by rewrite IH, HF.
Qed.
Lemma elem_calls e es : is_call e → e ∈ calls es ↔ e ∈ es.
Proof. intros He. unfold calls. rewrite list_elem_of_filter. tauto. Qed.

Section same_calls.
Context (es es' : list event) (E : calls es' = calls es).
Lemma same_elem e : is_call e → e ∈ es' ↔ e ∈ es.
Proof. intros He. by rewrite <- (elem_calls e es'), E, elem_calls. Qed.
Lemma same_omap {A} (F : event → option A) : (∀ e, ¬ is_call e → F e = None) → omap F es' = omap F es.
Proof. intros HF. by rewrite <- (calls_omap F es'), E, calls_omap. Qed.
Lemma same_queued : queued es' = queued es.
Proof. apply same_omap. by intros []. Qed.
Lemma same_handled : handled_of es' = handled_of es.
Proof. apply same_omap. by intros []. Qed.
Lemma same_firsts : firsts es' = firsts es.
Proof. apply same_omap. by intros []. Qed.
Lemma same_answered c : answered es c → answered es' c.
Proof. intros (t & v & Ht & H). exists t, v. by rewrite same_elem. Qed.
End same_calls.

Lemma answered_app es es' c : answered es c → answered (es ++ es') c.
Proof. intros (t & v & Ht & H). exists t, v. rewrite elem_of_app. auto. Qed.

(** A trace that goes on. *)
Definition goes_on (es es' : list event) : Prop :=
  (∀ c, answered es c → answered es' c) ∧ (∀ t, Handled t ∈ es → Handled t ∈ es').
Lemma goes_on_app es es' : goes_on es (es ++ es').
Proof. split; [intros c; apply answered_app|]. intros t. rewrite elem_of_app. by left. Qed.
Lemma goes_on_calls es es' : calls es' = calls es → goes_on es es'.
Proof. intros E. split; [intros c; by apply same_answered|]. intros t. by rewrite (same_elem es es' E). Qed.

Section monotone.
Context (es es' : list event) (Ho : goes_on es es').
Lemma good_mono r : good es r → good es' r.
Proof. intros H Hr. destruct (H Hr). split; [done|]. by apply Ho. Qed.
Lemma hgood_mono h : hgood es h → hgood es' h.
Proof. destruct h; simpl; try done. apply good_mono. Qed.
Lemma frame_good_mono fr : frame_good es fr → frame_good es' fr.
Proof.
  destruct fr; simpl; try done. intros [H1 H2]. split; [by apply hgood_mono|]. intros Hn. specialize (H2 Hn).
  destruct (_ =? _); by apply Ho.
Qed.
Lemma ctrl_good_mono c : ctrl_good es c → ctrl_good es' c.
Proof. destruct c; simpl; try done. apply good_mono. Qed.
End monotone.

Lemma first_ok_mono w w' l g :
  goes_on (trace w) (trace w') →
  (∀ c d f r, Thened c d f r ∈ trace w → Thened c d f r ∈ trace w') →
  (∀ c ch, chains w !! c = Some ch → ∃ ch', chains w' !! c = Some ch' ∧ parent ch' = parent ch) →
  first_ok w l g → first_ok w' l g.
Proof.
  intros Ho Ht Hc. destruct g; simpl; try done. intros (ch & f & r & E & -> & Hin & Hh & Hg).
  destruct (Hc _ _ E) as (ch' & E' & Ep). exists ch', f, r. rewrite Ep. repeat (split; auto). by eapply hgood_mono.
Qed.

(** Worlds that differ in nothing that [then] sees. *)
Record alike (w w' : world) : Prop := {
  al_calls : calls (trace w') = calls (trace w);
  al_chains : chains w' = chains w;
  al_timers : timers w' = timers w;
  al_given : given w' = given w;
  al_adds l : ∃ fs, adds_of l (trace w') = adds_of l (trace w) ++ fs ∧ Forall (λ g, ¬ is_resolver g) fs
}.

Lemma not_resolver_first c a (fs : list fn) : Forall (λ g, ¬ is_resolver g) fs → filter (is_first c a) fs = [].
Proof.
  intros H. apply elem_of_nil_inv. intros g. rewrite list_elem_of_filter. intros [Hg Hin].
  rewrite Forall_forall in H. apply (H g Hin). by destruct g.
Qed.

Lemma alike_ok ws w w' : alike w w' → then_ok ws w → then_ok ws w'.
Proof.
  intros [Ec Ech Et Eg Ha] []. pose proof (same_elem _ _ Ec) as Hel.
  assert (Ho : goes_on (trace w) (trace w')) by by apply goes_on_calls.
  split; rewrite ?(same_queued _ _ Ec), ?(same_firsts _ _ Ec), ?(same_handled _ _ Ec), ?Ech, ?Et, ?Eg; try done.
  - intros *. rewrite Hel by done. eauto.
  - intros *. rewrite !Hel by done. eauto.
  - intros l g Hg. eapply (first_ok_mono w); [done | by intros; rewrite Hel | rewrite Ech; eauto |].
    destruct (Ha l) as (fs & E & Hfs). rewrite E, elem_of_app in Hg.
    destruct Hg as [[Hg|Hg]|Hg]; [by apply ti_first0; left | | by apply ti_first0; right].
    rewrite Forall_forall in Hfs. apply Hfs in Hg. by destruct g.
  - intros l g dat. rewrite Hel by done. intros Hr. destruct (Ha l) as (fs & -> & _). rewrite elem_of_app. left. eauto.
  - intros c d f r a. rewrite Hel by done. intros Hin Hna.
    assert (times ws c a d w' = times ws c a d w) as ->.
    { unfold times. destruct (Ha (hand d a)) as (fs & -> & Hfs). rewrite !filter_app, (not_resolver_first c a fs) by done.
      by rewrite app_nil_r. }
    destruct (ti_times0 c d f r a Hin Hna) as [|[H0 (g & dat & Hr)]]; [by left|]. right. split; [done|].
    exists g, dat. by rewrite Hel.
  - eapply Forall_impl; [done|]. intros t. by apply hgood_mono.
  - eapply Forall_impl; [done|]. intros t. by apply good_mono.
  - intros c ch E Hm. apply Ho. eauto.
  - intros t v. rewrite !Hel by done. eauto.
Qed.

#[export] Instance alike_preorder : PreOrder alike.
Proof.
  split.
  - intros w. split; try done. intros l. exists []. by rewrite app_nil_r.
  - intros w1 w2 w3 [E1 E2 E3 E4 Ha] [E1' E2' E3' E4' Ha']. split; try congruence. intros l.
    destruct (Ha l) as (fs & E & Hf), (Ha' l) as (fs' & E' & Hf'). exists (fs ++ fs').
    by rewrite E', E, app_assoc, Forall_app.
Qed.

Lemma alike_same w w' :
  trace w' = trace w → chains w' = chains w → timers w' = timers w → given w' = given w → alike w w'.
Proof. intros E. split; rewrite ?E; try done. intros l. exists []. by rewrite app_nil_r. Qed.

Lemma alike_log e w : ¬ is_call e → match e with Added _ _ => False | _ => True end → alike w (log e w).
Proof.
  intros Hc He. split; simpl; try done.
  - rewrite calls_app. unfold calls at 2. by rewrite filter_cons_False, app_nil_r.
  - intros l. exists []. rewrite adds_of_app. split; [|done]. f_equal. by destruct e.
Qed.

Lemma alike_fires l fs w st x : fires l fs w st x → Forall (λ g, ¬ is_resolver g) fs → alike w (now x).
Proof.
  intros [Ht _ _ Ec _ _] Hfs. pose proof (to_lists _ _ _ _ Ht) as []. split; try done.
  intros l'. destruct (decide (l' = l)) as [->|Hl]; [exists fs; by split; [apply Ht|]|].
  exists []. rewrite app_nil_r. split; [by apply same_adds, Ht | done].
Qed.

Lemma alike_makes k d w w' ls : makes k d w w' → sound w ls → d = deferreds w → alike w w'.
Proof.
  intros Hm H Hd. split; try apply Hm. intros l.
  assert (Hcase : (∃ a h, l = Lid d a h) ∨ ∀ a h, l ≠ Lid d a h).
  { destruct l as [d' a h|n]; [|by right]. destruct (decide (d' = d)) as [->|]; [left; eauto | right; congruence]. }
  destruct Hcase as [(a & h & ->)|Hn].
  - destruct (ma_new _ _ _ _ Hm a h) as (_ & _ & -> & _). destruct (s_unborn _ _ H (Lid d a h)) as (_ & _ & ->); [simpl; lia|].
    exists (if h then [] else builtins d a). split; [done|]. destruct h; [constructor|]. by destruct a; repeat constructor; intros [].
  - exists []. rewrite app_nil_r. split; [by apply same_adds, Hm | constructor].
Qed.

(** ** Calls that do not wait for additions *)

Record then_quiet (w : world) (st : list frame) : Prop := {
  tq_ok : then_ok [] w;
  tq_frames : Forall (frame_good (trace w)) st;
  tq_plain : Forall frame_plain st
}.

Lemma spread_plain adds : plain_adds adds → spread adds = [].
Proof.
  intros H. apply elem_of_nil_inv. intros [l g] Hin. unfold spread in Hin.
  apply list_elem_of_bind in Hin as ([l' fs] & Hin & Hp). apply list_elem_of_fmap in Hin as (g' & E & Hg).
  simplify_eq. apply list_elem_of_filter in Hg as [Hr Hg]. unfold plain_adds in H. rewrite Forall_forall in H.
  specialize (H _ Hp). simpl in H. rewrite Forall_forall in H. by apply (H g').
Qed.

Lemma frames_plain st : Forall frame_plain st → st ≫= frame_adds = [].
Proof.
  induction 1 as [|fr st Hf _ IH]; [done|]. rewrite bind_cons, IH, app_nil_r.
  destruct fr; try done. by apply spread_plain.
Qed.

Lemma waits_plain c st w : ctrl_plain c → Forall frame_plain st → waits (Config c st w) = [].
Proof.
  intros Hc Hst. unfold waits. cbn [ctrl stack]. rewrite frames_plain, app_nil_r by done. destruct c; try done. by apply spread_plain.
Qed.

Lemma then_inv_quiet c st w : then_quiet w st → ctrl_good (trace w) c → ctrl_plain c → then_inv (Config c st w).
Proof. intros [] Hg Hc. split; simpl; [by rewrite waits_plain | done..|]. by constructor. Qed.

(** Where the additions of [then] are not under way. *)
Lemma then_quiet_inv c st w :
  then_inv (Config c st w) → ctrl_plain c → ¬ ctrl_safe c → then_quiet w st.
Proof.
  intros [H1 H2 _ H4] Hc Hs. simpl in *.
  assert (Hp : Forall frame_plain st).
  { inversion H4; subst; try done. }
  split; try done. by rewrite waits_plain in H1.
Qed.

Lemma then_quiet_alike w w' st : alike w w' → then_quiet w st → then_quiet w' st.
Proof.
  intros Ha [Hok Hg Hp]. split; [by eapply alike_ok | | done].
  eapply Forall_impl; [exact Hg|]. intros fr. apply frame_good_mono, goes_on_calls, Ha.
Qed.

Lemma then_quiet_push fr w st : frame_good (trace w) fr → frame_plain fr → then_quiet w st → then_quiet w (fr :: st).
Proof. intros Hf Hp []. by split; [|constructor..]. Qed.
Lemma then_quiet_pop fr w st : then_quiet w (fr :: st) → then_quiet w st ∧ frame_good (trace w) fr ∧ frame_plain fr.
Proof. intros [H1 [H2 H3]%Forall_cons [H4 H5]%Forall_cons]. done. Qed.

Lemma then_fires l fs w st x :
  then_quiet w st → fires l fs w st x → Forall (λ g, ¬ is_resolver g) fs → then_inv x.
Proof.
  intros H Hx Hfs. assert (Hq : then_quiet (now x) st) by (eapply then_quiet_alike; [by eapply alike_fires | done]).
  destruct x as [c st' w']. simpl in *.
  assert (Hq' : then_quiet w' st').
  { destruct (fi_stack _ _ _ _ _ Hx) as [E|[v E]]; simpl in E; subst st'; [done | by apply then_quiet_push]. }
  destruct (fi_ctrl _ _ _ _ _ Hx) as [E|[v E]]; simpl in E; subst c; by apply then_inv_quiet.
Qed.

(** ** More events *)

Lemma queued_app es es' : queued (es ++ es') = queued es ++ queued es'.
Proof. apply omap_app. Qed.
Lemma handled_app es es' : handled_of (es ++ es') = handled_of es ++ handled_of es'.
Proof. apply omap_app. Qed.
Lemma firsts_app es es' : firsts (es ++ es') = firsts es ++ firsts es'.
Proof. apply omap_app. Qed.
Lemma normals_app ts ts' : normals (ts ++ ts') = normals ts ++ normals ts'.
Proof. apply filter_app. Qed.

(** Calls that neither add anything nor call [then]. *)
Definition no_news (e : event) : Prop := match e with Added _ _ | Thened _ _ _ _ => False | _ => True end.

Lemma no_news_adds es l : Forall no_news es → adds_of l es = [].
Proof. induction 1 as [|e es He _ IH]; [done|]. by destruct e. Qed.
Lemma no_news_thened es c d f r es' : Forall no_news es → Thened c d f r ∈ es' ++ es ↔ Thened c d f r ∈ es'.
Proof.
  intros H. rewrite elem_of_app. split; [|tauto]. intros [|Hin]; [done|]. rewrite Forall_forall in H. by apply H in Hin.
Qed.

Lemma then_ok_more ws w w' es :
  then_ok ws w → trace w' = trace w ++ es → chains w' = chains w → given w' = given w → Forall no_news es →
  (∀ l g dat, Ran l g dat ∈ es → g ∈ adds_of l (trace w)) →
  normals (queued es) = normals (firsts es) →
  normals (queued (trace w)) ++ normals (queued es) =
    normals (handled_of (trace w)) ++ normals (handled_of es) ++ normals (timers w') →
  Forall (λ t, hgood (trace w) (t_handler t)) (timers w') →
  (∀ t v, Answered t v ∈ es ∨ Threw t v ∈ es → normal t → Handled t ∈ trace w) → then_ok ws w'.
Proof.
  intros H Et Ec Eg Hn Hr Hq Ho Ht Hans.
  assert (Hop : goes_on (trace w) (trace w')) by (rewrite Et; apply goes_on_app).
  assert (Ha : ∀ l, adds_of l (trace w') = adds_of l (trace w)).
  { intros l. by rewrite Et, adds_of_app, (no_news_adds es), app_nil_r. }
  assert (Hth : ∀ c d f r, Thened c d f r ∈ trace w' ↔ Thened c d f r ∈ trace w).
  { intros. rewrite Et. by apply no_news_thened. }
  destruct H. split; rewrite ?Ec, ?Eg.
  - intros *. rewrite Hth. eauto.
  - intros *. rewrite !Hth. eauto.
  - intros l g. rewrite Ha. intros Hg. eapply (first_ok_mono w); [done | by intros; rewrite Hth | rewrite Ec; eauto | eauto].
  - intros l g dat. rewrite Ha, Et, elem_of_app. intros [|]; eauto.
  - intros c d f r a. rewrite Hth. intros Hin Hna. unfold times. rewrite Ha.
    destruct (ti_times0 c d f r a Hin Hna) as [|[H0 (g & dat & Hg)]]; [by left|]. right. split; [done|].
    exists g, dat. rewrite Et, elem_of_app. by left.
  - by rewrite Et, queued_app, firsts_app, !normals_app, ti_queue0, Hq.
  - by rewrite Et, queued_app, handled_app, !normals_app, <- app_assoc.
  - eapply Forall_impl; [exact Ht|]. intros t. by apply hgood_mono.
  - eapply Forall_impl; [exact ti_given0|]. intros t. by apply good_mono.
  - intros c ch E Hm. apply Hop. eauto.
  - intros t v Hv Hnt. apply Hop. rewrite Et, !elem_of_app in Hv. destruct Hv as [[|]|[|]]; eauto.
  - done.
Qed.

(** Events among which is no answer. *)
Ltac no_answer :=
  intros ? ? [Hv|Hv]; repeat (apply elem_of_cons in Hv as [Hv|Hv]; [discriminate Hv|]); by apply elem_of_nil in Hv.

Lemma then_ok_chains ws w c d m m' n :
  then_ok ws w → chains w !! c = Some (Chain d m n) → answered (trace w) c →
  then_ok ws (set_chains (<[c := Chain d m' n]> (chains w)) w).
Proof.
  intros [] Ec Ho.
  assert (Hlk : ∀ c' ch, chains w !! c' = Some ch → ∃ ch', <[c := Chain d m' n]> (chains w) !! c' = Some ch' ∧ parent ch' = parent ch).
  { intros c' ch E. destruct (decide (c' = c)) as [->|Hne].
    - rewrite list_lookup_insert_eq by (by eapply lookup_lt_Some). exists (Chain d m' n). split; [done|].
      rewrite Ec in E. by injection E as <-.
    - rewrite list_lookup_insert_ne by done. eauto. }
  split; simpl; try done.
  - intros c' d' f r Hin. destruct (ti_thened0 _ _ _ _ Hin) as (ch & E & Ep). destruct (Hlk _ _ E) as (ch' & E' & Ep').
    exists ch'. split; [done|]. congruence.
  - intros l g Hg. eapply (first_ok_mono w); [by split | done | exact Hlk | by apply ti_first0].
  - intros c' ch E Hm. destruct (decide (c' = c)) as [->|Hne]; [done|]. rewrite list_lookup_insert_ne in E by done. by eapply ti_closed0.
  - rewrite list_fmap_insert, list_insert_id; [done|]. by rewrite list_lookup_fmap, Ec.
Qed.

Lemma then_ok_given ws w gs : then_ok ws w → Forall (good (trace w)) gs → then_ok ws (set_given (given w ++ gs) w).
Proof. intros [] Hg. split; try done. simpl. by rewrite Forall_app. Qed.

(** ** A list calls a function *)

Lemma then_ok_ran ws w w' l g dat :
  then_ok ws w → trace w' = trace w ++ [Ran l g dat] → chains w' = chains w → given w' = given w → timers w' = timers w →
  g ∈ adds_of l (trace w) → ¬ is_resolver g → then_ok ws w'.
Proof.
  intros H Et Ec Eg Eti Hin Hg. eapply then_ok_more; try done.
  - by repeat constructor.
  - intros l' g' dat' [= -> -> ->]%list_elem_of_singleton. done.
  - by destruct g.
  - rewrite Eti. simpl. rewrite app_nil_r. apply H.
  - rewrite Eti. apply H.
  - no_answer.
Qed.

Lemma then_ok_first ws w w' l c a h dat :
  let t := Task c a h dat in
  then_ok ws w → trace w' = trace w ++ [Ran l (First c a h) dat; Queued t] → chains w' = chains w →
  given w' = given w → timers w' = timers w ++ [t] → First c a h ∈ adds_of l (trace w) → then_ok ws w'.
Proof.
  intros t H Et Ec Eg Eti Hin. eapply then_ok_more; try done.
  - by repeat constructor.
  - intros l' g' dat'. rewrite elem_of_cons, list_elem_of_singleton. by intros [[= -> -> ->]|].
  - rewrite Eti, normals_app, (ti_order _ _ H), <- app_assoc. done.
  - rewrite Eti, Forall_app. split; [apply H|]. constructor; [|done].
    destruct (ti_first _ _ H l (First c a h)) as (? & ? & ? & _ & _ & _ & _ & Hg); [by left | done].
  - no_answer.
Qed.

Lemma then_ok_special ws w t :
  then_ok ws w → ¬ normal t → hgood (trace w) (t_handler t) → then_ok ws (queue_task t w).
Proof.
  intros H Ht Hg. assert (Hn : normals [t] = []) by (unfold normals; by rewrite filter_cons_False).
  eapply (then_ok_more ws w _ [Queued t]); try done.
  - by repeat constructor.
  - intros l' g' dat' ?%list_elem_of_singleton. done.
  - change (queued [Queued t]) with [t]. change (handled_of [Queued t]) with (@nil task). simpl.
    by rewrite normals_app, Hn, !app_nil_r, (ti_order _ _ H).
  - simpl. rewrite Forall_app. split; [apply H|]. by constructor.
  - no_answer.
Qed.

(** ** At most one handler of a chain *)

Lemma filter_length_le {A} (P Q : A → Prop) `{∀ x, Decision (P x), ∀ x, Decision (Q x)} (l : list A) :
  (∀ x, x ∈ l → P x → Q x) → length (filter P l) ≤ length (filter Q l).
Proof.
  induction l as [|x l IH]; intros HPQ; [done|].
  assert (Hl : length (filter P l) ≤ length (filter Q l)) by (apply IH; intros; apply HPQ; [by apply list_elem_of_further|done]).
  rewrite !filter_cons. destruct (decide (P x)) as [Hx|]; [rewrite decide_True by (apply HPQ; [apply list_elem_of_here|done])|destruct (decide (Q x))];
    simpl; lia.
Qed.

Lemma firsts_count es c a l :
  (∀ l' h dat, Ran l' (First c a h) dat ∈ es → l' = l) →
  length (filter (λ t, t_chain t = c ∧ t_action t = a) (firsts es)) = length (filter (is_first c a) (runs_of l es).*1).
Proof.
  induction es as [|e es IH]; intros Hl; [done|].
  assert (Hes : ∀ l' h dat, Ran l' (First c a h) dat ∈ es → l' = l).
  { intros l' h dat Hin. eapply Hl. by apply list_elem_of_further. }
  specialize (IH Hes). change (e :: es) with ([e] ++ es).
  rewrite firsts_app, runs_of_app, fmap_app, !filter_app, !length_app, IH. f_equal. clear IH Hes.
  destruct e as [| |l' g dat| | | | |]; try done.
  assert (Er : (runs_of l [Ran l' g dat]).*1 = if decide (l' = l) then [g] else []) by (cbn; by destruct (decide _)).
  rewrite Er. destruct (decide (is_first c a g)) as [Hg|Hg].
  - destruct g as [| | | | |c' a' h| |]; try done. destruct Hg as [-> ->].
    rewrite decide_True by (eapply Hl; apply list_elem_of_here).
    change (firsts [Ran l' (First c a h) dat]) with [Task c a h dat].
    rewrite (filter_cons_True (is_first c a)) by done. by rewrite filter_cons_True.
  - assert (filter (is_first c a) (if decide (l' = l) then [g] else []) = []) as ->.
    { destruct (decide _); [by rewrite filter_cons_False | done]. }
    destruct g as [| | | | |c' a' h| |]; try done.
    change (firsts [Ran l' (First c' a' h) dat]) with [Task c' a' h dat]. by rewrite filter_cons_False.
Qed.

Lemma elem_firsts t es : t ∈ firsts es ↔ ∃ l, Ran l (First (t_chain t) (t_action t) (t_handler t)) (t_data t) ∈ es.
Proof.
  unfold firsts. rewrite list_elem_of_omap. split.
  - intros ([| |l g dat| | | | |] & Hin & E); simplify_eq. destruct g; simplify_eq. simpl. eauto.
  - intros [l Hin]. eexists. split; [exact Hin|]. by destruct t.
Qed.

Lemma first_run ws w l c a h dat :
  then_ok ws w → Ran l (First c a h) dat ∈ trace w →
  ∃ ch f r, chains w !! c = Some ch ∧ l = hand (parent ch) a ∧ Thened c (parent ch) f r ∈ trace w ∧
    (a ≠ Notify → h = handler_for a f r) ∧ hgood (trace w) h.
Proof. intros H Hr. apply (ti_first _ _ H l (First c a h)). left. by eapply ti_ran. Qed.

(** The list of handlers of a settled deferred has called a part of what was added. *)
Lemma hand_prefix w d a dat : started w d a dat → (runs_of (hand d a) (trace w)).*1 `prefix_of` adds_of (hand d a) (trace w).
Proof.
  intros []. destruct (6 <=? called w d a).
  - destruct st_hand as [i fs _ _ <-|_ ->]; [by eexists | done].
  - destruct st_hand as [-> _]. apply prefix_nil.
Qed.

Lemma chain_once x ws c :
  inv x → then_ok ws (now x) → length (filter (λ t, t_chain t = c) (normals (firsts (trace (now x))))) ≤ 1.
Proof.
  intros Hi H. set (w := now x).
  destruct (filter (λ t, t_chain t = c) (normals (firsts (trace w)))) as [|t ts] eqn:E; [simpl; lia|]. rewrite <- E.
  assert (Ht : t ∈ filter (λ t, t_chain t = c) (normals (firsts (trace w)))) by (rewrite E; apply list_elem_of_here).
  apply list_elem_of_filter in Ht as [Hc [Hn Ht]%list_elem_of_filter]. apply elem_firsts in Ht as [l Hr].
  destruct (first_run _ _ _ _ _ _ _ H Hr) as (ch & f & r & Ech & -> & Hth & _). rewrite Hc in *.
  set (d := parent ch) in *. set (a := t_action t) in *.
  assert (Hs : started w d a (t_data t)) by by eapply ran_side.
  assert (Hl : ∀ l' h dat, Ran l' (First c a h) dat ∈ trace w → l' = hand d a).
  { intros l' h dat Hr'. destruct (first_run _ _ _ _ _ _ _ H Hr') as (ch' & _ & _ & Ech' & -> & _).
    rewrite Ech in Ech'. by injection Ech' as <-. }
  unfold normals. rewrite list_filter_filter.
  etrans; [apply (filter_length_le _ (λ t, t_chain t = c ∧ t_action t = a))|].
  { intros t' Ht' [Hc' Hn']. split; [done|].
    apply elem_firsts in Ht' as [l' Hr']. destruct (first_run _ _ _ _ _ _ _ H Hr') as (ch' & _ & _ & Ech' & -> & _).
    rewrite Hc', Ech in Ech'. injection Ech' as <-.
    assert (Hs' : started w (parent ch) (t_action t') (t_data t')) by by eapply ran_side.
    by destruct (started_unique _ _ _ _ _ _ Hs Hs'). }
  rewrite (firsts_count _ _ _ (hand d a)) by done. destruct (hand_prefix _ _ _ _ Hs) as [k Hk].
  assert (Hlt : length (filter (is_first c a) (runs_of (hand d a) (trace w)).*1) ≤ times ws c a d w).
  { unfold times. rewrite Hk, !filter_app, !length_app. lia. }
  pose proof (ti_times _ _ H c d f r a Hth Hn) as Hone. fold w in Hone. destruct Hone as [|[? _]]; lia.
Qed.

(** ** The methods keep the invariant *)

Lemma then_type_error w st : then_quiet w st → then_inv (type_error st w).
Proof. intros H. by apply then_inv_quiet. Qed.

Lemma then_fire_with l dat v st w :
  quiet w st → then_quiet w st → born w l → then_inv (fire_with l dat v st w).
Proof. intros Hq H Hb. eapply then_fires; [done | apply fire_with_fires; [done | apply Hq] | constructor]. Qed.

(** The first handler of a chain finds it closed. *)
Lemma timeout_closed x t ts ch :
  inv x → then_ok [] (now x) → timers (now x) = t :: ts → normal t → chains (now x) !! t_chain t = Some ch →
  maxDepth ch = 0.
Proof.
  intros Hi H Et Hn Hc. destruct (maxDepth ch) as [|m] eqn:Em; [done|]. exfalso.
  destruct (ti_closed _ _ H (t_chain t) ch Hc) as (t' & v' & Hans & Hn' & Hc' & _); [lia|].
  pose proof (ti_answers _ _ H t' v' (or_introl Hans) Hn') as Hin.
  pose proof (chain_once x [] (t_chain t) Hi H) as Hone. rewrite <- (ti_queue _ _ H), (ti_order _ _ H), Et in Hone.
  rewrite filter_app, length_app in Hone.
  assert (Hin' : t' ∈ filter (λ t0, t_chain t0 = t_chain t) (normals (handled_of (trace (now x))))).
  { apply list_elem_of_filter. split; [done|]. apply list_elem_of_filter. split; [done|].
    unfold handled_of. rewrite list_elem_of_omap. by exists (Handled t'). }
  assert (1 ≤ length (filter (λ t0, t_chain t0 = t_chain t) (normals (handled_of (trace (now x)))))).
  { destruct (filter _ _); [by apply elem_of_nil in Hin' | simpl; lia]. }
  assert (Ht : normals (t :: ts) = t :: normals ts) by (unfold normals; by rewrite filter_cons_True).
  rewrite Ht, filter_cons_True in Hone by done. simpl in Hone. lia.
Qed.

(** A task of a handler is about a chain that exists. *)
Lemma timer_chain w t ts :
  then_ok [] w → timers w = t :: ts → normal t → ∃ ch, chains w !! t_chain t = Some ch.
Proof.
  intros H Et Hn. assert (Ht : t ∈ normals (firsts (trace w))).
  { rewrite <- (ti_queue _ _ H), (ti_order _ _ H), Et, elem_of_app. right.
    apply list_elem_of_filter. split; [done | apply list_elem_of_here]. }
  apply list_elem_of_filter in Ht as [_ [l Hr]%elem_firsts]. destruct (first_run _ _ _ _ _ _ _ H Hr) as (ch & _ & _ & E & _).
  eauto.
Qed.

Lemma then_timeout x t ts :
  inv x → then_quiet (now x) [] → timers (now x) = t :: ts → then_inv (timeout t (set_timers ts (now x))).
Proof.
  intros Hi [H _ _] Et. set (w := set_timers ts (now x)).
  pose proof (ti_timers _ _ H) as Hg. rewrite Et in Hg. apply Forall_cons in Hg as [Hg Hgs].
  assert (Hskip : ¬ normal t → then_quiet w []).
  { intros Hn. assert (Hnn : normals (t :: ts) = normals ts) by (unfold normals; by rewrite filter_cons_False).
    split; [|constructor..]. eapply (then_ok_more [] (now x) _ []); try done; simpl.
    - by rewrite app_nil_r.
    - by intros ? ? ? ?%elem_of_nil.
    - by rewrite app_nil_r, (ti_order _ _ H), Et, Hnn.
    - no_answer. }
  unfold timeout, process. destruct (chains w !! t_chain t) as [ch|] eqn:Ec.
  2: { apply then_type_error, Hskip. intros Hn. destruct (timer_chain _ _ _ H Et Hn) as [ch E]. simpl in Ec. congruence. }
  destruct (Nat.ltb_spec 0 (maxDepth ch)) as [Hm|_].
  { apply then_inv_quiet; [|done..]. apply Hskip. intros Hn.
    pose proof (timeout_closed x t ts ch Hi H Et Hn Ec). lia. }
  assert (Hq : then_quiet (log (Handled t) w) [FProcess 0 t Handling]).
  { split; [|constructor; [|constructor]|by repeat constructor].
    - eapply (then_ok_more [] (now x) _ [Handled t]); try done.
      + by repeat constructor.
      + by intros ? ? ? ?%list_elem_of_singleton.
      + change (queued [Handled t]) with (@nil task). change (handled_of [Handled t]) with [t].
        change (timers _) with ts. change (normals []) with (@nil task).
        rewrite app_nil_r, (ti_order _ _ H), Et. f_equal. apply (normals_app [t] ts).
      + no_answer.
    - split; [eapply hgood_mono; [|done]; apply goes_on_app|].
      intros Hn. simpl. rewrite elem_of_app, list_elem_of_singleton. by right. }
  unfold log_first. simpl Nat.eqb. cbv iota.
  destruct (t_handler t) eqn:Eh; apply then_inv_quiet; try done.
  simpl. pose proof (tq_frames _ _ Hq) as [[Hr _] _]%Forall_cons. by rewrite Eh in Hr.
Qed.

Lemma then_process depth t st w :
  then_quiet w st → 0 < depth → hgood (trace w) (t_handler t) → (normal t → answered (trace w) (t_chain t)) →
  then_inv (process depth t st w).
Proof.
  intros H Hd Hg Ho. unfold process. destruct (chains w !! t_chain t) as [ch|]; [|by apply then_type_error].
  destruct (_ <? _); [by apply then_inv_quiet|].
  unfold log_first. rewrite (proj2 (Nat.eqb_neq depth 0)) by lia.
  assert (then_quiet w (FProcess depth t Handling :: st)).
  { apply then_quiet_push; [|done..]. split; [done|]. by rewrite (proj2 (Nat.eqb_neq depth 0)) by lia. }
  destruct (t_handler t) eqn:E; by apply then_inv_quiet.
Qed.

Lemma task_of_normal r dat : normal (task_of r dat) ↔ r_special r = false.
Proof. unfold normal, task_of. simpl. by destruct (r_special r), (r_throws r). Qed.
Lemma task_of_good r dat es : hgood es (t_handler (task_of r dat)).
Proof. unfold task_of. simpl. by destruct (r_throws r). Qed.

Lemma then_resolving r dat st w :
  then_quiet w st → good (trace w) r → then_inv (resolving r dat st w).
Proof.
  intros H Hg. unfold resolving. destruct (Nat.eqb_spec (r_depth r) 0) as [E|Hd].
  - apply then_inv_quiet; [|done..].
    assert (Hn : ¬ normal (task_of r dat)).
    { rewrite task_of_normal. intros Hr. destruct (Hg Hr). lia. }
    split; [| |apply H].
    + apply then_ok_special; [apply H | done | apply task_of_good].
    + eapply Forall_impl; [apply H|]. intros fr. apply frame_good_mono, goes_on_app.
  - apply then_process; [done | lia | apply task_of_good|]. rewrite task_of_normal. intros Hr. by apply Hg.
Qed.

(** ** [then] *)

Lemma then_new_deferred b w st :
  quiet w st → then_quiet w st →
  let '(n, w1) := new_deferred b w in n = deferreds w ∧ makes b n w w1 ∧ then_quiet w1 st ∧ chains w1 = chains w.
Proof.
  intros Hq H. pose proof (quiet_new_deferred b w st Hq) as Hn. destruct (new_deferred b w) as [n w1].
  destruct Hn as (E & Hm & _). split; [done|]. split; [done|]. split; [|apply Hm].
  eapply then_quiet_alike; [|done]. eapply alike_makes; [done | apply Hq | done].
Qed.

(** A new chain, whose resolvers wait to be added. *)
Lemma then_ok_new w d n f r p :
  then_ok [] w → hgood (trace w) f → hgood (trace w) r → hgood (trace w) p → n ∉ newDefer <$> chains w →
  let c := length (chains w) in
  then_ok [(hand d Notify, First c Notify p); (hand d Resolve, First c Resolve f); (hand d Reject, First c Reject r)]
    (log (Thened c d f r) (set_chains (chains w ++ [Chain d 0 n]) w)).
Proof.
  intros H Hf Hr Hp Hnew' c. set (w' := log _ _).
  assert (Hch : ∀ c' ch, chains w !! c' = Some ch → chains w' !! c' = Some ch).
  { intros c' ch E. simpl. by apply lookup_app_l_Some. }
  assert (Hnew : chains w' !! c = Some (Chain d 0 n)) by by apply list_lookup_middle.
  assert (Hth : Thened c d f r ∈ trace w') by (simpl; rewrite elem_of_app, list_elem_of_singleton; by right).
  assert (Hold : ∀ c' d' f' r', Thened c' d' f' r' ∈ trace w' → Thened c' d' f' r' ∈ trace w ∧ c' ≠ c ∨ (c' = c ∧ d' = d ∧ f' = f ∧ r' = r)).
  { intros c' d' f' r'. simpl. rewrite elem_of_app, list_elem_of_singleton. intros [Hin|E]; [left|right; by simplify_eq].
    split; [done|]. destruct (ti_thened _ _ H _ _ _ _ Hin) as (ch & E & _). apply lookup_lt_Some in E. lia. }
  assert (Ha : ∀ l, adds_of l (trace w') = adds_of l (trace w)) by (intros l; simpl; by rewrite adds_of_app, app_nil_r).
  assert (Hop : goes_on (trace w) (trace w')) by apply goes_on_app.
  assert (Hfirst : ∀ a h, hgood (trace w) h → (a ≠ Notify → h = handler_for a f r) → first_ok w' (hand d a) (First c a h)).
  { intros a h Hh Ea. exists (Chain d 0 n), f, r. repeat (split; [done|]). by eapply hgood_mono. }
  split.
  - intros c' d' f' r' [[Hin _]|(-> & -> & -> & ->)]%Hold; [|eauto].
    destruct (ti_thened _ _ H _ _ _ _ Hin) as (ch & E & Ep). eauto.
  - intros c' d1 f1 r1 d2 f2 r2 [[H1 Hne]|(-> & -> & -> & ->)]%Hold [[H2 Hne2]|(E & -> & -> & ->)]%Hold; try done.
    by eapply ti_unique.
  - intros l g. rewrite Ha. intros [Hg|Hg].
    + eapply (first_ok_mono w); [done | | eauto | by apply (ti_first _ _ H); left].
      intros *. simpl. rewrite elem_of_app. by left.
    + rewrite !elem_of_cons, elem_of_nil in Hg. destruct Hg as [[= -> ->]|[[= -> ->]|[[= -> ->]|[]]]]; by apply Hfirst.
  - intros l g dat. rewrite Ha. simpl. rewrite elem_of_app, list_elem_of_singleton. intros [|]; [by eapply ti_ran|done].
  - intros c' d' f' r' a Hin Hna. unfold times. rewrite Ha. apply Hold in Hin as [[Hin Hne]|(-> & -> & -> & ->)].
    + assert (filter (is_first c' a) [First c Notify p; First c Resolve f; First c Reject r] = []) as Ez.
      { rewrite !filter_cons_False; [done|..]; simpl; intros [E _]; by apply Hne. }
      destruct (ti_times _ _ H c' d' f' r' a Hin Hna) as [E|[E (g & dat & Hg)]]; [left | right; split]; unfold times in *;
        rewrite filter_app, length_app in *; simpl fmap; rewrite ?Ez; [exact E | exact E|].
      exists g, dat. simpl. rewrite elem_of_app. by left.
    + left. rewrite filter_app, length_app.
      assert (filter (is_first c a) (adds_of (hand d a) (trace w)) = []) as ->.
      { apply elem_of_nil_inv. intros g. rewrite list_elem_of_filter. intros [Hg Hin'].
        destruct g as [| | | | |c' a' h| |]; try done. destruct Hg as [-> ->].
        destruct (ti_first _ _ H (hand d a) (First c a h)) as (ch & _ & _ & E & _); [by left|].
        apply lookup_lt_Some in E. unfold c in E. lia. }
      simpl. destruct a; [done|..]; by rewrite ?filter_cons_False, ?filter_cons_True, ?filter_cons_False by (by split || by intros [_ ?]).
  - simpl. rewrite queued_app, firsts_app, !app_nil_r. apply H.
  - simpl. rewrite queued_app, handled_app, !app_nil_r. apply H.
  - simpl. eapply Forall_impl; [apply H|]. intros t. by apply hgood_mono.
  - simpl. eapply Forall_impl; [apply H|]. intros t. by apply good_mono.
  - intros c' ch E Hm. destruct (decide (c' = c)) as [->|Hne]; [rewrite Hnew in E; injection E as <-; simpl in Hm; lia|].
    apply Hop. eapply (ti_closed _ _ H c' ch); [|done]. simpl in E. rewrite lookup_app_Some in E.
    destruct E as [|[Hge E]]; [done|]. apply list_lookup_singleton_Some in E. fold c in Hge, E. lia.
  - intros t v. simpl. rewrite !elem_of_app, !list_elem_of_singleton. intros [[|]|[|]] Hn; try done; left; by eapply ti_answers; eauto.
  - simpl. rewrite fmap_app. apply NoDup_app. split; [apply H|]. split; [|apply NoDup_singleton].
    intros m Hm ->%list_elem_of_singleton. done.
Qed.

Lemma then_then_op d f r p st w :
  quiet w st → then_quiet w st → hgood (trace w) f → hgood (trace w) r → hgood (trace w) p →
  then_inv (then_op d f r p st w).
Proof.
  intros Hq H Hf Hr Hp. unfold then_op. pose proof (then_new_deferred OfThen w st Hq H) as Hn.
  destruct (new_deferred OfThen w) as [n w1]. destruct Hn as (En & Hm & [H1 H2 H3] & Ec).
  assert (Ho : goes_on (trace w) (trace w1)) by apply goes_on_calls, Hm.
  assert (Hnew : n ∉ newDefer <$> chains w1).
  { rewrite Ec. intros (ch & -> & Hch)%list_elem_of_fmap. pose proof (qu_chains _ _ Hq) as Hf'.
    rewrite Forall_forall in Hf'. destruct (Hf' ch Hch) as [_ Hk%kind_born]. lia. }
  split; simpl.
  - unfold waits. cbn [ctrl stack ctrl_adds]. rewrite frames_plain by done.
    apply (then_ok_new w1 d n f r p); [done|by eapply hgood_mono..|done].
  - eapply Forall_impl; [exact H2|]. intros fr. apply frame_good_mono, goes_on_app.
  - done.
  - apply zone_adding; [|done]. by repeat constructor.
Qed.

(** ** Additions *)

Lemma is_first_resolver c a g : is_first c a g → is_resolver g.
Proof. by destruct g. Qed.

Lemma filter_resolvers c a (fs : list fn) : filter (is_first c a) fs = filter (is_first c a) (filter is_resolver fs).
Proof.
  rewrite list_filter_filter. apply list_filter_iff. intros g. pose proof (is_first_resolver c a g). tauto.
Qed.

Lemma off_side w d a h : calm w d → a ≠ Notify → items (lists w (Lid d a h)) = None →
  ∃ g dat, Ran (main d (other a)) g dat ∈ trace w.
Proof.
  intros Hc Ha Hi. destruct Hc as [[_ Hq]|(a' & dat & Hs & Hj)]; [by rewrite (proj2 (Hq a h Ha)) in Hi|].
  assert (Hne : a ≠ a').
  { intros ->. destruct Hs. replace (6 <=? called w d a') with true in * by (symmetry; apply Nat.leb_le; lia).
    assert (firing_side w dat (Lid d a' h)) as [i fs _ E _|E _] by (by destruct h); by rewrite E in Hi. }
  pose proof (st_action _ _ _ _ Hs). replace (other a) with a' by (by destruct a, a').
  unfold called in Hj. destruct (runs_of (main d a') (trace w)) as [|[g dat'] rs] eqn:E; [simpl in Hj; lia|].
  exists g, dat'. apply elem_runs. rewrite E. apply list_elem_of_here.
Qed.

(** The resolvers in [fs] go into the list of handlers [l]. *)
Lemma then_ok_added l fs fs' ws w w' :
  then_ok ((pair l <$> filter is_resolver fs) ++ ws) w → (fs' = fs ∨ fs' = [] ∧ items (lists w l) = None) →
  (∀ d a, l = hand d a → d < deferreds w → calm w d) → (∀ d a, l = hand d a → d < deferreds w) →
  calls (trace w') = calls (trace w) → chains w' = chains w → timers w' = timers w → given w' = given w →
  adds_of l (trace w') = adds_of l (trace w) ++ fs' → (∀ l', l' ≠ l → adds_of l' (trace w') = adds_of l' (trace w)) →
  then_ok ws w'.
Proof.
  intros H Hfs Hcalm Hborn Ec Ech Et Eg Ea Ea'. pose proof (same_elem _ _ Ec) as Hel.
  assert (Ho : goes_on (trace w) (trace w')) by by apply goes_on_calls.
  assert (Hmono : ∀ l g, first_ok w l g → first_ok w' l g).
  { intros. eapply (first_ok_mono w); [done | by intros; rewrite Hel | rewrite Ech; eauto | done]. }
  assert (Hin : ∀ g, g ∈ fs → is_resolver g → (l, g) ∈ (pair l <$> filter is_resolver fs) ++ ws).
  { intros g Hg Hr. rewrite elem_of_app. left. apply list_elem_of_fmap. exists g. by rewrite list_elem_of_filter. }
  assert (Hfs' : ∀ g, g ∈ fs' → g ∈ fs) by (destruct Hfs as [->|[-> _]]; [done | by intros g ?%elem_of_nil]).
  split; rewrite ?(same_queued _ _ Ec), ?(same_firsts _ _ Ec), ?(same_handled _ _ Ec), ?Ech, ?Et, ?Eg; try apply H.
  - intros *. rewrite Hel by done. apply H.
  - intros *. rewrite !Hel by done. apply H.
  - intros l' g Hg. apply Hmono. destruct (decide (is_resolver g)) as [Hr|Hr]; [|by destruct g].
    destruct Hg as [Hg|Hg]; [|apply (ti_first _ _ H); right; rewrite elem_of_app; by right].
    destruct (decide (l' = l)) as [->|Hne]; [|rewrite Ea' in Hg by done; apply (ti_first _ _ H); by left].
    rewrite Ea, elem_of_app in Hg. apply (ti_first _ _ H). destruct Hg as [|Hg]; [by left | right; auto].
  - intros l' g dat. rewrite Hel by done. intros Hg%(ti_ran _ _ H). destruct (decide (l' = l)) as [->|Hne];
      [rewrite Ea, elem_of_app; by left | by rewrite Ea'].
  - intros c d f r a. rewrite Hel by done. intros Hth Hna.
    destruct (decide (l = hand d a)) as [->|Hne].
    + assert (Hcount : times ((pair (hand d a) <$> filter is_resolver fs) ++ ws) c a d w =
        length (filter (is_first c a) (adds_of (hand d a) (trace w))) + length (filter (is_first c a) fs) + length (filter (is_first c a) ws.*2)).
      { unfold times. rewrite fmap_app, !filter_app, !length_app, <- list_fmap_compose.
        replace (snd ∘ pair (hand d a) <$> filter is_resolver fs) with (filter is_resolver fs) by (symmetry; apply list_fmap_id).
        rewrite <- filter_resolvers. lia. }
      assert (Hcount' : times ws c a d w' =
        length (filter (is_first c a) (adds_of (hand d a) (trace w))) + length (filter (is_first c a) fs') + length (filter (is_first c a) ws.*2)).
      { unfold times. rewrite Ea, !filter_app, !length_app. lia. }
      destruct Hfs as [->|[-> Hoff]]; [rewrite Hcount', <- Hcount|].
      * destruct (ti_times _ _ H c d f r a Hth Hna) as [|[? (g & dat & Hg)]]; [by left | right]. split; [done|].
        exists g, dat. by rewrite Hel.
      * pose proof (ti_times _ _ H c d f r a Hth Hna) as Ht. rewrite Hcount in Ht. simpl in Hcount'.
        destruct (decide (times ws c a d w' = 1)) as [|Hn1]; [by left|]. right. split; [destruct Ht as [?|[? _]]; lia|].
        destruct (off_side w d a true) as (g & dat & Hg); [by eapply Hcalm; eauto | done | done|].
        exists g, dat. by rewrite Hel.
    + assert (Hnone : filter (is_first c a) fs = []).
      { apply elem_of_nil_inv. intros g. rewrite list_elem_of_filter. intros [Hg Hin'].
        destruct g as [| | | | |c' a' h| |]; try done. destruct Hg as [-> ->].
        destruct (ti_first _ _ H l (First c a h)) as (ch & _ & _ & E & El & _); [right; by apply Hin|].
        destruct (ti_thened _ _ H _ _ _ _ Hth) as (ch' & E' & <-). rewrite E in E'. by injection E' as ->. }
      assert (Heq : times ws c a d w' = times ((pair l <$> filter is_resolver fs) ++ ws) c a d w).
      { unfold times. rewrite Ea' by done. rewrite fmap_app, !filter_app, !length_app, <- list_fmap_compose.
        replace (snd ∘ pair l <$> filter is_resolver fs) with (filter is_resolver fs) by (symmetry; apply list_fmap_id).
        by rewrite <- filter_resolvers, Hnone. }
      rewrite Heq. destruct (ti_times _ _ H c d f r a Hth Hna) as [|[? (g & dat & Hg)]]; [by left | right]. split; [done|].
      exists g, dat. by rewrite Hel.
  - eapply Forall_impl; [apply H|]. intros t. by apply hgood_mono.
  - eapply Forall_impl; [apply H|]. intros t. by apply good_mono.
  - intros c ch E Hm. apply Ho. by eapply (ti_closed _ _ H).
  - intros t v. rewrite !Hel by done. apply H.
Qed.

Lemma spread_cons l fs adds : spread ((l, fs) :: adds) = (pair l <$> filter is_resolver fs) ++ spread adds.
Proof. done. Qed.

Lemma then_adding l fs adds v st w :
  quiet w st → adds_ok w ((l, fs) :: adds) → then_inv (Config (Adding ((l, fs) :: adds) v) st w) →
  then_inv (add_to l fs Undefined (FAdds adds v :: st) w).
Proof.
  intros Hq [[Hb Hfs] Hadds]%Forall_cons H. simpl in Hb, Hfs.
  assert (Hq' : quiet w (FAdds adds v :: st)) by by apply quiet_push.
  destruct (add_to_fires l fs Undefined (FAdds adds v :: st) w Hb Hfs (qu_sound _ _ Hq')) as (fs' & Hfs' & Hx).
  destruct H as [H1 H2 _ H4]. simpl in H1, H2. inversion H4 as [c st0 Hc Hst|adds0 v0 st0 Hh Hst| |]; subst; [| |done|done].
  - simpl in Hc. apply Forall_cons in Hc as [Hpl Hpa]. simpl in Hpl.
    assert (Ht : then_quiet w st) by (split; [by rewrite waits_plain in H1; [|constructor|] | done | done]).
    eapply then_fires; [|exact Hx|]; [by apply then_quiet_push|]. destruct Hfs' as [->|[-> _]]; [done | constructor].
  - apply Forall_cons in Hh as [Hl Hh]. simpl in Hl. destruct l as [d a [|]|n]; try done.
    unfold waits in H1. cbn [ctrl stack ctrl_adds] in H1. rewrite frames_plain, app_nil_r, spread_cons in H1 by done.
    set (x := add_to _ _ _ _ _) in *. pose proof (to_lists _ _ _ _ (fi_touches _ _ _ _ _ Hx)) as Hol.
    assert (Hok : then_ok (spread adds) (now x)).
    { apply (then_ok_added (hand d a) fs fs' (spread adds) w (now x) H1 Hfs').
      - intros d' a' _ Hd. by apply Hq.
      - intros d' a' [= -> ->]. exact Hb.
      - apply Hx.
      - apply Hol.
      - apply Hol.
      - apply Hol.
      - apply Hx.
      - intros l' Hl'. by apply same_adds, Hx. }
    assert (Hw : waits x = spread adds).
    { unfold waits. destruct (fi_ctrl _ _ _ _ _ Hx) as [->|[v' ->]]; destruct (fi_stack _ _ _ _ _ Hx) as [->|[v2 ->]];
        cbn; rewrite frames_plain, app_nil_r by done; done. }
    assert (Hfr : Forall (frame_good (trace (now x))) st).
    { eapply Forall_impl; [exact H2|]. intros fr. apply frame_good_mono, goes_on_calls, Hx. }
    assert (Hsafe : ctrl_safe (ctrl x) ∧ ctrl_good (trace (now x)) (ctrl x)).
    { destruct (fi_ctrl _ _ _ _ _ Hx) as [->|[v' ->]]; done. }
    split; [by rewrite Hw | | apply Hsafe|].
    + destruct (fi_stack _ _ _ _ _ Hx) as [->|[v2 ->]]; by repeat constructor.
    + destruct (fi_stack _ _ _ _ _ Hx) as [->|[v2 ->]]; constructor; try done; apply Hsafe.
Qed.

(** ** The loop of a list *)

Lemma then_hand_turn l st w :
  then_inv (Config (Next l) st w) → (∃ d a, l = hand d a) → ∀ w' c, alike w w' → c = Next l ∨ (∃ v, c = Ret v) →
  then_inv (Config c st w').
Proof.
  intros [H1 H2 _ H4] (d & a & ->) w' c Ha Hc. simpl in *.
  assert (Hsafe : ctrl_safe c ∧ ctrl_plain c ∧ ctrl_good (trace w') c ∧ ctrl_adds c = []) by (by destruct Hc as [->|[v ->]]).
  destruct Hsafe as (Hs & Hp & Hg & Hcw). split; [| | done|]; simpl.
  - unfold waits in *. cbn [ctrl stack] in *. rewrite Hcw. by eapply alike_ok.
  - eapply Forall_impl; [exact H2|]. intros fr. apply frame_good_mono, goes_on_calls, Ha.
  - inversion H4; subst; by constructor.
Qed.

Lemma then_plain_turn l st w :
  then_inv (Config (Next l) st w) → (¬ ∃ d a, l = hand d a) → then_quiet w st.
Proof.
  intros H Hl. apply (then_quiet_inv _ _ _ H); [done|]. destruct l as [d a []|n]; [intros _; apply Hl; eauto | by intros []..].
Qed.

Lemma fire_turn_alike l st w w0 : alike w0 w → let x := fire_turn l st w in
  stack x = st ∧ alike w0 (now x) ∧ (ctrl x = Next l ∨ ∃ v, ctrl x = Ret v).
Proof.
  intros H. unfold fire_turn. destruct (outer _); simpl; (split; [done|]); (split; [etrans; [exact H|]; by apply alike_same|]); eauto.
Qed.

Lemma is_hand_dec (l : lid) : (∃ d a, l = hand d a) ∨ ¬ ∃ d a, l = hand d a.
Proof. destruct l as [d a []|n]; [left; eauto|right|right]; by intros (? & ? & ?). Qed.

(** What is in a list of handlers. *)
Lemma hand_resolver w ls d a f : sound w ls → f ∈ list_of (lists w (hand d a)) → ∃ c h, f = First c a h.
Proof. intros H Hf. destruct (s_shape _ _ H (hand d a) f) as [Ha|[]]; [by eapply s_items | exact Ha]. Qed.
Lemma plain_resolver w ls l f : sound w ls → f ∈ list_of (lists w l) → is_resolver f → ∃ d a, l = hand d a.
Proof.
  intros H Hf Hr. destruct (s_shape _ _ H l f) as [Ha|Ha]; [by eapply s_items| |]; destruct l as [d a []|n]; try done; eauto.
  - by destruct f.
  - by destruct Ha as [p ->].
  - assert (Hb : Forall (λ f, ¬ is_resolver f) (builtins d a)) by (by destruct a; repeat constructor; intros []).
    rewrite Forall_forall in Hb. by destruct (Hb f Ha).
Qed.

Lemma then_run_fn l f dat st w :
  at_next l st w → then_quiet w st → ¬ is_resolver f →
  callable w f →
  then_inv (run_fn l f dat st w).
Proof.
  intros Hn H Hr Hf.
  assert (Hq : then_quiet w (FLoop l :: st)) by by apply then_quiet_push.
  assert (Hfire : ∀ l' dat v, born w l' → then_inv (fire_with l' dat v (FLoop l :: st) w)).
  { intros l' dat' v Hb. eapply then_fires; [exact Hq | apply fire_with_fires; [done | apply Hn] | constructor]. }
  assert (Hal : ∀ w', alike w w' → then_inv (Config (Next l) st w')).
  { intros w' Ha. apply then_inv_quiet; [by eapply then_quiet_alike | done..]. }
  destruct f as [p|d a|m|m|m|c a h|n a [p|]|n a]; simpl; try (by apply Hal, alike_same); try done.
  - by apply then_inv_quiet.
  - by apply Hfire.
  - apply then_inv_quiet; [by apply then_quiet_push | done..].
  - apply Hfire. by eapply kind_born.
  - apply Hfire. by eapply kind_born.
Qed.

Lemma then_next l st w :
  at_next l st w → then_inv (Config (Next l) st w) → then_inv (next l st w).
Proof.
  intros Hn H. unfold next. destruct (inner (lists w l)) as [c [f|]] eqn:Ei.
  - destruct (inner_some _ _ _ Ei) as [Ec Hin]. set (dat := default _ _). set (w' := log _ _).
    assert (Hn' : at_next l st w') by (apply ran_at_next; by subst c).
    destruct (is_hand_dec l) as [Hh|Hh].
    + destruct Hh as (d & a & ->). destruct (hand_resolver w _ d a f (an_sound _ _ _ Hn) Hin) as (c' & h & ->). simpl.
      destruct H as [H1 H2 _ H4]. simpl in *.
      assert (Ho : ∀ es, goes_on (trace w) ((trace w ++ [Ran (hand d a) (First c' a h) dat]) ++ es)).
      { intros es. rewrite <- app_assoc. apply goes_on_app. }
      split; simpl; [|eapply Forall_impl; [exact H2|]; intros fr; apply frame_good_mono, Ho|done|].
      * unfold waits in *. cbn [ctrl stack ctrl_adds] in *.
        eapply (then_ok_first _ w _ (hand d a) c' a h dat); try done; simpl; [by rewrite <- app_assoc|].
        eapply s_items; [apply Hn | done].
      * inversion H4; subst; by constructor.
    + pose proof (then_plain_turn l st w H Hh) as Hq.
      assert (Hr : ¬ is_resolver f) by (intros Hr; apply Hh; eapply plain_resolver; [apply Hn | exact Hin | done]).
      apply then_run_fn; [done | | done | exact (next_shape _ _ _ _ _ Hn Ei)].
      destruct Hq as [H1 H2 H3]. split; [| |done].
      * eapply (then_ok_ran _ w _ l f dat); try done. eapply s_items; [apply Hn | done].
      * eapply Forall_impl; [exact H2|]. intros fr. apply frame_good_mono, goes_on_app.
  - assert (Ha : alike w (set_list l (set_index (-1) c) w)) by by apply alike_same.
    pose proof (fire_turn_alike l st _ w Ha) as (Est & Hal & Hc). destruct (fire_turn _ _ _) as [c' st' w']. simpl in *. subst st'.
    destruct (is_hand_dec l) as [Hh|Hh]; [by eapply then_hand_turn|].
    pose proof (then_quiet_alike _ _ _ Hal (then_plain_turn l st w H Hh)) as Hq.
    by destruct Hc as [->|[v ->]]; apply then_inv_quiet.
Qed.

(** ** Every step *)

Lemma then_caught depth t e st w : quiet w st → then_quiet w st → then_inv (caught depth t e st w).
Proof.
  intros Hq H. unfold caught. destruct (chains w !! t_chain t) as [[d m n]|] eqn:Ec; [|by apply then_type_error].
  destruct (chain_newDefer _ _ _ _ _ _ Hq Ec). destruct (_ <=? _); [by apply then_fire_with; [| |eapply kind_born] | by apply then_inv_quiet].
Qed.

Lemma then_call_then v rs st w :
  quiet w st → then_quiet w st → Forall (good (trace w)) rs → then_inv (call_then v rs st w).
Proof.
  intros Hq H Hrs.
  assert (Hat : ∀ i h, hgood (trace w) h → hgood (trace w) (from_option Deeper h (rs !! i))).
  { intros i h Hh. destruct (rs !! i) eqn:E; [|done]. simpl. rewrite Forall_forall in Hrs.
    by apply Hrs; eapply list_elem_of_lookup_2. }
  destruct v; unfold call_then; try by apply then_type_error.
  - destruct (d <? deferreds w); [|by apply then_type_error]. by apply then_then_op; [done|done|apply Hat..].
  - destruct (d <? deferreds w); [|by apply then_type_error]. by apply then_then_op; [done|done|apply Hat..].
  - apply then_inv_quiet; [|done..]. destruct H. split; try done. by apply then_ok_given.
Qed.

(** A frame in whose handler's answer the chain is at: [Answered] has been logged at depth 0. *)
Lemma then_handled depth t v st w :
  quiet w st → then_quiet w st → frame_good (trace w) (FProcess depth t Handling) →
  (normal t → is_thenable v = true → answered (trace w) (t_chain t)) → then_inv (handled depth t v st w).
Proof.
  intros Hq H Hg Ho. unfold handled. destruct (chains w !! t_chain t) as [[d m n]|] eqn:Ec; [|by apply then_type_error].
  destruct (chain_newDefer _ _ _ _ _ _ Hq Ec) as [Hd Hn].
  assert (Hp : quiet w (FProcess depth t Passing :: st)) by by apply quiet_push.
  assert (Htp : then_quiet w (FProcess depth t Passing :: st)) by by apply then_quiet_push.
  destruct (decide (v = Promise n)); [by apply then_type_error|].
  destruct (is_thenable v) eqn:Ev; [|by apply then_fire_with; [| |eapply kind_born]].
  unfold is_special. destruct (bool_decide_reflect (t_action t = Notify)) as [|Hna].
  - apply then_call_then; [done..|]. rewrite !Forall_cons. split; [done|]. split; [done | constructor].
  - specialize (Ho Hna eq_refl). apply then_call_then; [by apply quiet_deeper| |].
    + destruct Htp. split; try done. by eapply then_ok_chains.
    + rewrite !Forall_cons. split; [|split; [|split; [|done]]]; intros Hr; [..|done];
        (split; [simpl; lia | exact Ho]).
Qed.

Lemma then_pipe d f r p st w : quiet w st → then_quiet w st → then_inv (pipe_op d f r p st w).
Proof.
  intros Hq H. unfold pipe_op. pose proof (then_new_deferred OfPipe w st Hq H) as Hn.
  destruct (new_deferred OfPipe w) as [n w1]. destruct Hn as (_ & _ & Hq1 & _). apply then_inv_quiet; [done..|].
  by repeat constructor; intros [].
Qed.

Lemma then_piped n a dat v st w :
  quiet w st → then_quiet w st → kinds w !! n = Some OfPipe → then_inv (piped n a dat v st w).
Proof.
  intros Hq H Hn. unfold piped. destruct v as [| | | |d|d| | | |]; try by (apply then_fire_with; [| |eapply kind_born]).
  - destruct (d <? deferreds w); [|by apply then_type_error]. apply then_inv_quiet; [done..|]. by repeat constructor; intros [].
  - destruct (d <? deferreds w); [|by apply then_type_error]. apply then_inv_quiet; [done..|]. by repeat constructor; intros [].
Qed.

Lemma visible_plain args : Forall (λ g, ¬ is_resolver g) (visible args).
Proof. apply Forall_forall. intros f (p & -> & _)%list_elem_of_fmap. by intros []. Qed.

Lemma then_add_visible l args v st w :
  quiet w st → then_quiet w st → born w l → Forall (addable w l) (visible args) → then_inv (add_to l (visible args) v st w).
Proof.
  intros Hq H Hb Ha. destruct (add_to_fires l (visible args) v st w Hb Ha (qu_sound _ _ Hq)) as (fs' & Hfs & Hx).
  eapply then_fires; [done | exact Hx|]. destruct Hfs as [->|[-> _]]; [apply visible_plain | constructor].
Qed.

Lemma handler_of_good es v h : hgood es h → hgood es (handler_of v h).
Proof. by destruct v. Qed.

Lemma then_deferred_op d o st w : quiet w st → then_quiet w st → d < deferreds w → then_inv (deferred_op d o st w).
Proof.
  intros Hq H Hd. destruct o; unfold deferred_op; try by apply then_type_error.
  - apply then_add_visible; [done..|]. apply visible_user.
  - apply then_inv_quiet; [done..|]. repeat constructor; apply visible_plain.
  - destruct (can_settle d w); [by apply then_fire_with | by apply then_type_error].
  - by apply then_inv_quiet.
  - by apply then_inv_quiet.
  - by apply then_then_op; [done|done|apply handler_of_good..].
  - by apply then_then_op; [done|done| |apply handler_of_good|].
  - by apply then_pipe.
Qed.

Lemma then_alike_ret v w w' st : then_quiet w st → alike w w' → then_inv (Config (Ret v) st w').
Proof. intros H Ha. apply then_inv_quiet; [by eapply then_quiet_alike | done..]. Qed.

Lemma then_own_op n o st w : quiet w st → then_quiet w st → n < owned w → then_inv (own_op n o st w).
Proof.
  intros Hq H Hn. destruct o; unfold own_op; try by apply then_type_error.
  - apply then_add_visible; [done..|]. apply visible_own.
  - apply (then_alike_ret _ w); [done | by apply alike_same].
  - apply (then_alike_ret _ w); [done | by apply alike_same].
  - apply (then_alike_ret _ w); [done | by apply alike_same].
  - apply (then_alike_ret _ w); [done | by apply alike_same].
  - by apply then_fire_with.
  - by apply then_inv_quiet.
Qed.

Lemma then_do_op o st w : quiet w st → then_quiet w st → then_inv (do_op o st w).
Proof.
  intros Hq H.
  assert (Hdef : ∀ d, then_inv (if d <? deferreds w then deferred_op d o st w else type_error st w)).
  { intros d. destruct (Nat.ltb_spec d (deferreds w)); [by apply then_deferred_op | by apply then_type_error]. }
  assert (Hown : ∀ n, then_inv (if n <? owned w then own_op n o st w else type_error st w)).
  { intros n. destruct (Nat.ltb_spec n (owned w)); [by apply then_own_op | by apply then_type_error]. }
  destruct o; try apply Hdef; try apply Hown; unfold do_op.
  - pose proof (then_new_deferred OfPage w st Hq H) as Hn. destruct (new_deferred OfPage w) as [d w1].
    destruct Hn as (_ & _ & Hq1 & _). destruct func; apply then_inv_quiet; try done. by apply then_quiet_push.
  - by apply then_inv_quiet.
  - by apply then_inv_quiet.
  - apply (then_alike_ret _ w); [done | by apply alike_same].
  - apply (then_alike_ret _ w); [done | by apply alike_same].
Qed.

(** The answer of a handler. *)
Lemma then_quiet_answer depth t ph v e w st :
  then_quiet w st → frame_good (trace w) (FProcess depth t ph) → e = Answered t v ∨ e = Threw t v →
  goes_on (trace w) (trace (log_first depth e w)) ∧ then_quiet (log_first depth e w) st.
Proof.
  intros H [_ Hg] He. unfold log_first. destruct (depth =? 0); [|by split].
  assert (Hgo : goes_on (trace w) (trace (log e w))) by apply goes_on_app.
  split; [done|]. destruct H as [H1 H2 H3]. split; [| |done].
  - eapply (then_ok_more [] w _ [e]); try done.
    + constructor; [|done]. by destruct He as [-> | ->].
    + intros l g dat Hr%list_elem_of_singleton. subst e. by destruct He.
    + by destruct He as [-> | ->].
    + destruct He as [-> | ->]; simpl; rewrite app_nil_r; apply H1.
    + apply H1.
    + intros t' v' Hv Hn. rewrite !list_elem_of_singleton in Hv.
      assert (t' = t) as -> by (destruct He as [-> | ->], Hv as [Hv|Hv]; congruence). by apply Hg.
  - eapply Forall_impl; [exact H2|]. intros fr. by apply frame_good_mono.
Qed.

Lemma then_return v fr st w :
  quiet w (fr :: st) → then_inv (Config (Ret v) (fr :: st) w) → then_inv (step_return v fr st w).
Proof.
  intros Hq [H1 H2 _ H4]. simpl in *. apply Forall_cons in H2 as [Hfr Hfs].
  inversion H4 as [c st0 _ Hst| |c adds v0 st0 _ Hh Hst|c v0 adds v1 st0 _ Hh Hst]; subst.
  - assert (H : then_quiet w (fr :: st)) by (split; [by rewrite waits_plain in H1 | by constructor | done]).
    apply then_quiet_pop in H as (H & Hg & Hp). destruct fr as [l|k|depth t ph|n a dat|v'|adds v']; simpl.
    + apply then_inv_quiet; [|done..]. apply (then_quiet_alike w); [by apply alike_same | done].
    + by apply then_inv_quiet.
    + apply quiet_pop in Hq as [Hq _]; [|done]. destruct ph; [|by apply then_inv_quiet].
      destruct (then_quiet_answer depth t Handling v (Answered t v) w st H Hg) as [Hgo Hq']; [by left|].
      apply then_handled; [by apply quiet_log_first | done | by eapply frame_good_mono|].
      intros Hn Hv. destruct Hg as [_ Hg]. specialize (Hg Hn). unfold log_first in *.
      destruct (depth =? 0); [|done]. exists t, v. simpl. by rewrite elem_of_app, list_elem_of_singleton; auto.
    + apply quiet_pop in Hq as [Hq Hn]; [|done]. by apply then_piped.
    + by apply then_inv_quiet.
    + by apply then_inv_quiet.
  - split; [exact H1 | done | done|]. by apply zone_adding.
  - apply Forall_cons in Hfs as [_ Hfs]. split; [exact H1 | by constructor | done|]. by apply zone_add.
Qed.

Lemma then_throw e fr st w :
  quiet w (fr :: st) → then_inv (Config (Exn e) (fr :: st) w) → then_inv (step_throw e fr st w).
Proof.
  intros Hq H. assert (Hq' : then_quiet w (fr :: st)) by (apply (then_quiet_inv _ _ _ H); [done | by intros []]).
  apply then_quiet_pop in Hq' as (Ht & Hg & _). destruct fr as [l|k|depth t ph|n a dat|v'|adds v']; simpl; try by apply then_inv_quiet.
  - apply then_inv_quiet; [|done..]. eapply then_quiet_alike; [|done]. by apply alike_log; [intros []|].
  - apply quiet_pop in Hq as [Hq _]; [|done]. destruct (is_special t); [by apply then_inv_quiet|].
    destruct ph; [|by apply then_caught]. apply then_caught; [by apply quiet_log_first|].
    apply (then_quiet_answer depth t Handling e (Threw t e) w st Ht Hg). by right.
Qed.

Section machine.
Context (page : nat → data → prog).

Lemma then_call p dat st w : quiet w st → then_quiet w st → then_inv (call page p dat st w).
Proof.
  intros Hq H. destruct p as [n|d a|k]; simpl.
  - by apply then_inv_quiet.
  - unfold can_settle. destruct (bool_decide_reflect (kinds w !! d = Some OfPage)); [|by apply then_type_error].
    apply then_fire_with; [done | done | by eapply kind_born].
  - destruct (given w !! k) as [r|] eqn:E; [|by apply then_type_error]. apply then_inv_quiet; [done| |done]. simpl.
    pose proof (ti_given _ _ (tq_ok _ _ H)) as Hg. rewrite Forall_forall in Hg. by eapply Hg, list_elem_of_lookup_2.
Qed.

Lemma then_step x y : step page x = Some y → inv x → then_inv x → then_inv y.
Proof.
  destruct x as [c st w]. unfold step. simpl. intros E Hi H.
  assert (Hq : match c with Next _ => True | _ => quiet w st end).
  { destruct c; try done; by apply (quiet_inv _ _ _ Hi). }
  assert (Ht : ctrl_plain c → ¬ ctrl_safe c → then_quiet w st) by by apply then_quiet_inv.
  destruct c as [p|p dat|r dat|adds v|l|v|v].
  - specialize (Ht I (λ f, f)). destruct p; injection E as <-; [by apply then_inv_quiet | by apply then_inv_quiet|].
    apply then_do_op; [by apply quiet_push | by apply then_quiet_push].
  - specialize (Ht I (λ f, f)). injection E as <-. by apply then_call.
  - specialize (Ht I (λ f, f)). injection E as <-. apply then_resolving; [done | apply H].
  - destruct adds as [|[l fs] adds]; injection E as <-; [|by apply then_adding; [|apply Hi|]].
    destruct H as [H1 H2 _ H4]. split; [done..|]. simpl in *. constructor; [done|]. by inversion H4.
  - injection E as <-. apply then_next; [by split; apply Hi | done].
  - destruct st as [|fr st]; [done|]. injection E as <-. by apply then_return.
  - destruct st as [|fr st]; [done|]. injection E as <-. by apply then_throw.
Qed.

Lemma then_idle x : idle x → then_inv x → then_quiet (now x) [].
Proof.
  destruct x as [c st w]. intros [E (v & E')] [H1 H2 _ _]. simpl in *. subst st.
  split; [|constructor..]. destruct E' as [-> | ->]; by rewrite waits_plain in H1.
Qed.

Lemma then_runs x y : runs page x y → inv x → then_inv x → then_inv y.
Proof.
  intros Hr Hi H. destruct Hr as [y Hs|p Hid|t ts Hid Et].
  - by eapply then_step.
  - apply then_inv_quiet; [by apply then_idle | done..].
  - apply then_timeout; [done | by apply then_idle | done].
Qed.

Lemma then_start : then_inv start.
Proof.
  split; simpl; [|constructor|done|by constructor].
  split; simpl; try done; intros.
  - by match goal with H : _ ∈ [] |- _ => apply elem_of_nil in H end.
  - by match goal with H : _ ∈ [] |- _ => apply elem_of_nil in H end.
  - match goal with H : _ ∨ _ |- _ => destruct H as [H|H]; by apply elem_of_nil in H end.
  - by match goal with H : _ ∈ [] |- _ => apply elem_of_nil in H end.
  - by match goal with H : _ ∈ [] |- _ => apply elem_of_nil in H end.
  - match goal with H : _ ∨ _ |- _ => destruct H as [H|H]; by apply elem_of_nil in H end.
  - constructor.
Qed.

Lemma reachable_then x : reachable page x → inv x ∧ then_inv x.
Proof.
  intros H. unfold reachable in H. assert (Hx : inv start ∧ then_inv start) by (split; [apply inv_start | apply then_start]).
  revert Hx. induction H as [|x y z Hxy _ IH]; [done|]. intros [Hi Ht]. apply IH. split; [by eapply inv_runs | by eapply then_runs].
Qed.
End machine.
