(* ===== verification/JqThenFacts.v ===== *)
(** * [then]: what a page can rely on

    The theorem that [then] calls one handler, with witnesses. *)
From stdpp Require Import base list functions relations.
From Stdlib Require Import ZArith Lia.
From S2P Require Import Prelude JqCallbacks JqDeferred JqDeferredInv JqDeferredStep JqDeferredFacts JqThen.

Section machine.
Context (page : nat → data → prog).

(** The handlers of the chain [c] that have been called, for fulfilment and rejection. *)
Definition chain_handled (c : nat) (w : world) : list task :=
  filter (λ t, t_chain t = c) (normals (handled_of (trace w))).

Lemma chain_handled_first x ws c t :
  then_ok ws (now x) → t ∈ chain_handled c (now x) →
  t_chain t = c ∧ normal t ∧ t ∈ firsts (trace (now x)).
Proof.
  intros H [Hc Hn]%list_elem_of_filter. split; [done|].
  assert (Ht : t ∈ normals (firsts (trace (now x)))).
  { rewrite <- (ti_queue _ _ H), (ti_order _ _ H), elem_of_app. by left. }
  by apply list_elem_of_filter in Ht.
Qed.

Lemma first_data x ws c d f r t :
  inv x → then_ok ws (now x) → Thened c d f r ∈ trace (now x) → t_chain t = c → normal t → t ∈ firsts (trace (now x)) →
  started (now x) d (t_action t) (t_data t) ∧ t_handler t = handler_for (t_action t) f r ∧
  6 ≤ called (now x) d (t_action t).
Proof.
  intros Hi H Hth <- Hn [l Hr]%elem_firsts.
  destruct (first_run _ _ _ _ _ _ _ H Hr) as (ch & f' & r' & Ech & -> & Hth' & Hh & _).
  destruct (ti_unique _ _ H _ _ _ _ _ _ _ Hth Hth') as (<- & -> & ->).
  assert (Hs : started (now x) (parent ch) (t_action t) (t_data t)) by by eapply ran_side.
  split; [done|]. split; [by apply Hh|].
  pose proof (st_hand _ _ _ _ Hs) as Hha. destruct (Nat.leb_spec 6 (called (now x) (parent ch) (t_action t))); [done|].
  destruct Hha as [E _]. apply elem_runs in Hr. rewrite E in Hr. by apply elem_of_nil in Hr.
Qed.

Lemma idle_at_rest x l : idle x → inv x → firing (lists (now x) l) = true → Escaped l ∈ trace (now x).
Proof.
  intros Hid Hi Hf. apply (s_firing _ _ (in_sound _ Hi)) in Hf as [Hl|]; [|done].
  unfold loops in Hl. destruct Hid as (E & v & E2). rewrite E in Hl. destruct E2 as [E2|E2]; rewrite E2 in Hl; by apply elem_of_nil in Hl.
Qed.

(** C33. A call of [then] on a deferred has called at most one of its two handlers, at most
    once, in a timeout of its own: the one for the side the deferred was settled to, with
    the data it was settled with.  Once it is settled and no timeout is left, one has been
    called, whatever callbacks and handlers did, exceptions included. *)
Theorem then_calls_one_handler c d f r x :
  reachable page x → Thened c d f r ∈ trace (now x) → d < deferreds (now x) →
  let hs := chain_handled c (now x) in
  length hs ≤ 1 ∧
  (∀ t, t ∈ hs → states (now x) d = Some (t_action t) ∧ t_handler t = handler_for (t_action t) f r ∧
     Ran (main d (t_action t)) (SetState d (t_action t)) (t_data t) ∈ trace (now x)) ∧
  (idle x → timers (now x) = [] → states (now x) d ≠ None → hs ≠ []).
Proof.
  intros Hx Hth Hd hs. destruct (reachable_then page x Hx) as [Hi Ht]. pose proof (th_ok _ Ht) as H.
  split; [|split].
  - pose proof (chain_once x _ c Hi H) as Hone. rewrite <- (ti_queue _ _ H), (ti_order _ _ H), filter_app, length_app in Hone.
    unfold hs, chain_handled. lia.
  - intros t Hin. destruct (chain_handled_first _ _ _ _ H Hin) as (Hc & Hn & Hfi).
    destruct (first_data x _ c d f r t Hi H Hth Hc Hn Hfi) as (Hs & Hh & Hj).
    assert (Es : states (now x) d = Some (t_action t)).
    { rewrite (st_state _ _ _ _ Hs). destruct (Nat.leb_spec 1 (called (now x) d (t_action t))); [done|lia]. }
    split; [done|]. split; [done|].
    destruct (started_of_state x d _ Hi Hd Es) as (dat & Hs' & Hran).
    destruct (started_unique _ _ _ _ _ _ Hs Hs') as [_ <-]. by apply elem_runs.
  - intros Hid Etm Es. destruct (states (now x) d) as [a|] eqn:E; [|done].
    destruct (started_of_state x d a Hi Hd E) as (dat & Hs & _). pose proof (st_action _ _ _ _ Hs) as Ha.
    assert (Hj : 6 ≤ called (now x) d a).
    { destruct (in_deferreds _ Hi d Hd) as [[[E' _]|(a' & dat' & Hs' & Hj)]|(a' & dat' & _ & _ & Ec)]; [congruence| |].
      - by destruct (started_unique _ _ _ _ _ _ Hs' Hs) as [-> _].
      - destruct Hid as (_ & v & [Ev|Ev]); congruence. }
    pose proof (st_hand _ _ _ _ Hs) as Hha. destruct (Nat.leb_spec 6 (called (now x) d a)); [|lia].
    assert (Hall : (runs_of (hand d a) (trace (now x))).*1 = adds_of (hand d a) (trace (now x))).
    { destruct Hha as [i fs _ El _|_ ->]; [|done]. exfalso.
      apply (s_hand _ _ (in_sound _ Hi) d a), idle_at_rest; [done | done | by rewrite El]. }
    destruct (then_idle x Hid Ht) as [Hok _ _].
    destruct (ti_times _ _ Hok c d f r a Hth Ha) as [Hone|[_ (g & dat' & Hg)]].
    + unfold times in Hone. rewrite app_nil_r, <- Hall in Hone.
      destruct (filter (is_first c a) (runs_of (hand d a) (trace (now x))).*1) as [|g gs] eqn:Eg; [done|].
      assert (Hg : g ∈ g :: gs) by apply list_elem_of_here. rewrite <- Eg in Hg.
      apply list_elem_of_filter in Hg as [Hg ([g' dat'] & -> & Hr)%list_elem_of_fmap].
      destruct g' as [| | | | |c' a' h| |]; try done. destruct Hg as [-> ->]. apply elem_runs in Hr.
      assert (Hin : Task c a h dat' ∈ normals (firsts (trace (now x)))).
      { apply list_elem_of_filter. split; [done|]. apply elem_firsts. by exists (hand d a). }
      rewrite <- (ti_queue _ _ Hok), (ti_order _ _ Hok), Etm, app_nil_r in Hin.
      intros Enil. assert (Hnil : Task c a h dat' ∈ hs) by by apply list_elem_of_filter.
      rewrite Enil in Hnil. by apply elem_of_nil in Hnil.
    + assert (Hs' : started (now x) d (other a) dat') by (eapply ran_side; [done | by apply other_not_notify | done]).
      destruct (started_unique _ _ _ _ _ _ Hs Hs') as [E' _]. by destruct a.
Qed.
End machine.

Lemma then_calls_one_handler_witness :
  chain_handled 0 (now (demo 3 300)) = [Task 0 Resolve (Calls (Page 0)) (Undefined, [Plain 7])] ∧
  length (chain_handled 0 (now (demo 3 300))) ≤ 1 ∧ chain_handled 0 (now (demo 3 300)) ≠ [].
Proof.
  split; [by vm_compute|].
  destruct (then_calls_one_handler demo_page 0 0 (Calls (Page 0)) Thrower (demo 3 300)) as (H1 & _ & H2).
  - apply demo_reachable.
  - computed.
  - vm_compute. lia.
  - split; [exact H1|]. apply H2; [by apply idle_run | by vm_compute | by vm_compute].
Defined.
