(* ===== verification/JqResolve.v ===== *)
(** * [then]: what becomes of the deferred it returns

    The deferred that [then] makes is settled by the resolvers of its own call alone:
    no step but the answer of a handler of the chain ends its being pending, and a
    settled deferred stays as it is. *)
From stdpp Require Import base list functions relations.
From Stdlib Require Import ZArith Lia.
From S2P Require Import Prelude JqCallbacks JqDeferred JqDeferredInv JqDeferredStep JqDeferredFacts JqThen.

(** ** A deferred stays pending *)

Section pending.
Context (n : nat).

Lemma pending_touches l fs w w' :
  touches l fs w w' → ¬ settles l n → pending w n → pending w' n.
Proof.
  intros [Hol Hs _ _] Hn [E Hq]. split; [by rewrite (ol_states _ _ Hol)|].
  intros a h Ha. eapply same_quiet_side; [|by apply Hq]. apply Hs. intros <-. by apply Hn.
Qed.

Lemma pending_same w w' : (∀ l, same l w w') → states w' = states w → pending w n → pending w' n.
Proof.
  intros Hs Es [E Hq]. split; [by rewrite Es|]. intros a h Ha. eapply same_quiet_side; [apply Hs | by apply Hq].
Qed.

Lemma pending_log e w : silent e → pending w n → pending (log e w) n.
Proof. intros He. apply pending_same; [|done]. intros l. by apply same_logs. Qed.

Lemma pending_log_first depth e w : silent e → pending w n → pending (log_first depth e w) n.
Proof. intros He H. unfold log_first. destruct (_ =? _); [by apply pending_log | done]. Qed.

Lemma pending_fires l fs w st x : fires l fs w st x → ¬ settles l n → pending w n → pending (now x) n.
Proof. intros [Ht _ _ _ _ _]. by eapply pending_touches. Qed.

Lemma pending_add_to l fs v st w :
  quiet w st → born w l → Forall (addable w l) fs → pending w n → pending (now (add_to l fs v st w)) n.
Proof.
  intros Hq Hb Hfs H. destruct (add_to_fires l fs v st w Hb Hfs (qu_sound _ _ Hq)) as (fs' & _ & Hx).
  destruct (decide (settles l n)) as [Hs|Hs]; [|by eapply pending_fires].
  destruct l as [d a h|m]; [|done]. destruct Hs as [-> Ha]. destruct H as [E Hqs].
  assert (Hside : quiet_side w true (Lid n a h) ∨ quiet_side w false (Lid n a h) ∨ (∃ dat, firing_side w dat (Lid n a h))).
  { right. left. by apply Hqs. }
  destruct (add_to_keeps _ fs v st w Hside) as (H1 & H2 & H3).
  assert (Hk : keeps (Lid n a h) w (now (add_to (Lid n a h) fs v st w))) by (eapply touches_keeps; [apply Hx | done..]).
  split; [by rewrite (ke_states _ _ _ Hk)|]. intros a' h' Ha'. eapply keeps_quiet; [done | by apply Hqs].
Qed.

Lemma pending_fire_with l dat v st w :
  born w l → sound w (loops_of st) → ¬ settles l n → pending w n → pending (now (fire_with l dat v st w)) n.
Proof. intros Hb Hs. eapply pending_fires. by apply fire_with_fires. Qed.

Lemma pending_makes k d w w' : makes k d w w' → n ≠ d → pending w n → pending w' n.
Proof.
  intros Hm Hne [E Hq]. split; [by rewrite (ma_states _ _ _ _ Hm), fn_lookup_insert_ne|].
  intros a h Ha. eapply same_quiet_side; [|by apply Hq]. apply (ma_same _ _ _ _ Hm). congruence.
Qed.

Section quiet.
Context (w : world) (st : list frame) (Hq : quiet w st) (Hk : kinds w !! n = Some OfThen) (H : pending w n).

Lemma pending_new k : let '(d, w1) := new_deferred k w in d = deferreds w ∧ pending w1 n.
Proof using Type*.
  pose proof (quiet_new_deferred k w st Hq) as Hn. destruct (new_deferred k w) as [d w1]. destruct Hn as (-> & Hm & _).
  split; [done|]. eapply pending_makes; [done | | done]. apply kind_born in Hk. lia.
Qed.

Lemma pending_then d f r p : pending (now (then_op d f r p st w)) n.
Proof using Type*.
  unfold then_op. pose proof (pending_new OfThen) as Hn. destruct (new_deferred OfThen w) as [d' w1]. destruct Hn as [_ Hp].
  apply pending_log; [done|]. by apply (pending_same w1).
Qed.
Lemma pending_pipe d f r p : pending (now (pipe_op d f r p st w)) n.
Proof using Type*.
  unfold pipe_op. pose proof (pending_new OfPipe) as Hn. destruct (new_deferred OfPipe w) as [d' w1]. by destruct Hn.
Qed.
Lemma pending_process depth t : pending (now (process depth t st w)) n.
Proof using Type*.
  unfold process. destruct (chains w !! t_chain t); [|done]. destruct (_ <? _); [done|].
  destruct (t_handler t); by apply pending_log_first.
Qed.
Lemma pending_queue t : pending (queue_task t w) n.
Proof using Type*. apply (pending_same w); [by intros; apply queue_same | done | done]. Qed.
Lemma pending_resolving r dat : pending (now (resolving r dat st w)) n.
Proof using Type*. unfold resolving. destruct (_ =? _); [apply pending_queue | apply pending_process]. Qed.
Lemma pending_call_then v rs : pending (now (call_then v rs st w)) n.
Proof using Type*.
  destruct v; unfold call_then; try done; try (destruct (d <? deferreds w); [apply pending_then | done]).
Qed.

Lemma not_main m k a h : kinds w !! m = Some k → k ≠ OfThen → ¬ settles (Lid m a h) n.
Proof using Hk. intros Hm Hne [-> _]. congruence. Qed.

Lemma pending_piped m a dat v : kinds w !! m = Some OfPipe → pending (now (piped m a dat v st w)) n.
Proof using Type*.
  intros Hm. unfold piped.
  assert (Hf : ∀ dat' v', pending (now (fire_with (main m a) dat' v' st w)) n).
  { intros dat' v'. apply pending_fire_with; [by eapply kind_born | apply Hq | by eapply not_main | done]. }
  destruct v as [| | | |d|d| | | |]; try apply Hf; destruct (d <? deferreds w); done.
Qed.

(** The task [t] is not about the deferred. *)
Definition elsewhere (t : task) : Prop :=
  normal t → ∀ ch, chains w !! t_chain t = Some ch → newDefer ch ≠ n.

Lemma pending_caught depth t e : ¬ is_special t → elsewhere t → pending (now (caught depth t e st w)) n.
Proof using Type*.
  intros Hsp He. unfold caught. destruct (chains w !! t_chain t) as [[d m n']|] eqn:Ec; [|done].
  destruct (chain_newDefer _ _ _ _ _ _ Hq Ec) as [_ Hn']. destruct (_ <=? _); [|done].
  apply pending_fire_with; [by eapply kind_born | apply Hq | | done]. intros [-> _].
  eapply He; [|exact Ec|done]. intros E. apply Hsp. unfold is_special. by rewrite E.
Qed.
End quiet.

Lemma pending_handled depth t v st w :
  quiet w st → kinds w !! n = Some OfThen → pending w n → elsewhere w t → pending (now (handled depth t v st w)) n.
Proof.
  intros Hq Hk H He. unfold handled. destruct (chains w !! t_chain t) as [[d m n']|] eqn:Ec; [|done].
  destruct (chain_newDefer _ _ _ _ _ _ Hq Ec) as [Hd Hn'].
  assert (Hp : quiet w (FProcess depth t Passing :: st)) by by apply quiet_push.
  destruct (decide (v = Promise n')); [done|]. destruct (is_thenable v).
  - destruct (is_special t); [by apply pending_call_then|].
    apply pending_call_then; [by apply quiet_deeper | done|]. by apply (pending_same w).
  - apply pending_fire_with; [by eapply kind_born | apply Hp | | done]. unfold is_special.
    destruct (bool_decide_reflect (t_action t = Notify)) as [|Hn]; [by intros [_ ?]|]. intros [-> _].
    by apply (He Hn _ Ec).
Qed.
End pending.


Section machine.
Context (page : nat → data → prog) (n : nat).

Lemma pending_deferred_op d o st w :
  quiet w st → kinds w !! n = Some OfThen → d < deferreds w → pending w n → pending (now (deferred_op d o st w)) n.
Proof.
  intros Hq Hk Hd H. destruct o; unfold deferred_op; try done.
  - apply pending_add_to; [done..|apply visible_user | done].
  - unfold can_settle. destruct (bool_decide_reflect (kinds w !! d = Some OfPage)) as [Hp|]; [|done].
    apply pending_fire_with; [done | apply Hq | by eapply not_main | done].
  - by apply pending_then.
  - by apply pending_then.
  - by apply pending_pipe.
Qed.

Lemma pending_own_op m o st w :
  quiet w st → m < owned w → pending w n → pending (now (own_op m o st w)) n.
Proof.
  intros Hq Hm H. assert (Hset : ∀ c, pending (set_list (Own m) c w) n).
  { intros c. destruct H as [E Hp]. split; [done|]. intros a h Ha. eapply same_quiet_side; [|by apply Hp].
    by apply set_list_same. }
  destruct o; unfold own_op, own; try done; try apply Hset.
  - apply pending_add_to; [done..|apply visible_own | done].
  - apply pending_fire_with; [done | apply Hq | by intros [] | done].
Qed.

Lemma pending_do_op o st w :
  quiet w st → kinds w !! n = Some OfThen → pending w n → pending (now (do_op o st w)) n.
Proof.
  intros Hq Hk H.
  assert (Hdef : ∀ d, pending (now (if d <? deferreds w then deferred_op d o st w else type_error st w)) n).
  { intros d. destruct (Nat.ltb_spec d (deferreds w)); [by apply pending_deferred_op | done]. }
  assert (Hown : ∀ m, pending (now (if m <? owned w then own_op m o st w else type_error st w)) n).
  { intros m. destruct (Nat.ltb_spec m (owned w)); [by apply pending_own_op | done]. }
  destruct o; try apply Hdef; try apply Hown; unfold do_op.
  - pose proof (pending_new n w st Hq Hk H OfPage) as Hn. destruct (new_deferred OfPage w) as [d w1].
    destruct Hn as [_ Hn]. by destruct func.
  - done.
  - done.
  - by apply (pending_same n w).
  - destruct H as [E Hp]. split; [done|]. intros a h Ha. eapply same_quiet_side; [|by apply Hp].
    by split.
Qed.

Lemma pending_call p dat st w :
  quiet w st → kinds w !! n = Some OfThen → pending w n → pending (now (call page p dat st w)) n.
Proof.
  intros Hq Hk H. destruct p as [m|d a|k]; simpl; [done| |by destruct (given w !! k)].
  unfold can_settle. destruct (bool_decide_reflect (kinds w !! d = Some OfPage)) as [Hp|]; [|done].
  apply pending_fire_with; [by eapply kind_born | apply Hq | by eapply not_main | done].
Qed.

(** A list that is not about the deferred. *)
Lemma next_elsewhere l st w f :
  at_next l st w → f ∈ list_of (lists w l) → ¬ settles l n → kinds w !! n = Some OfThen →
  match f with
  | SetState d _ => d ≠ n
  | Disable m | Lock m | FireList m => ¬ settles m n
  | Piped m _ _ | Forward m _ => m ≠ n
  | _ => True
  end.
Proof.
  intros Hn Hin Hl Hk. destruct (s_shape _ _ (an_sound _ _ _ Hn) l f) as [Ha|Ha]; [eapply s_items; [apply Hn | done]| |].
  - destruct l as [d a []|m]; simpl in Ha; [by destruct Ha as (? & ? & ->)| |by destruct Ha as [? ->]].
    destruct f; simpl in *; try done; congruence.
  - destruct l as [d a []|m]; try done. revert f Hin Ha. intros f _. revert f. apply Forall_forall.
    destruct a; repeat constructor; simpl in *; try (by intros [? ?]); intros E; apply Hl; try (by destruct E); by rewrite E.
Qed.

Lemma pending_set_list m c w : ¬ settles m n → pending w n → pending (set_list m c w) n.
Proof.
  intros Hm [E Hp]. split; [done|]. intros a h Ha. eapply same_quiet_side; [|by apply Hp]. apply set_list_same.
  intros <-. by apply Hm.
Qed.

Lemma pending_next l st w :
  at_next l st w → kinds w !! n = Some OfThen → pending w n → pending (now (next l st w)) n.
Proof.
  intros Hn Hk H. assert (Hl : ¬ settles l n).
  { destruct (at_next_born _ _ _ Hn) as [_ Hf]. destruct l as [d a h|m]; [|by intros []]. intros [-> Ha].
    destruct H as [_ Hq]. by rewrite (proj2 (Hq a h Ha)) in Hf. }
  unfold next. destruct (inner (lists w l)) as [c [f|]] eqn:Ei.
  - destruct (inner_some _ _ _ Ei) as [Ec Hin]. set (dat := default _ _). set (w' := log _ _).
    assert (Hn' : at_next l st w') by (apply ran_at_next; by subst c).
    pose proof (next_shape l st w c f Hn Ei) as Hcall. pose proof (next_elsewhere l st w f Hn Hin Hl Hk) as He.
    assert (H' : pending w' n).
    { eapply (pending_touches n l []); [|done|exact H]. apply ran_touches. by subst c. }
    assert (Hfire : ∀ m v, born w' m → ¬ settles m n → pending (now (fire_with m dat v (FLoop l :: st) w')) n).
    { intros m v Hb Hm. apply pending_fire_with; [done | apply Hn' | done | done]. }
    destruct f as [p|d a|m|m|m|c' a h|m a [p|]|m a]; simpl; try done.
    + destruct H' as [E Hq]. split; [simpl; by rewrite fn_lookup_insert_ne | exact Hq].
    + by apply pending_set_list.
    + by apply pending_set_list.
    + by apply Hfire.
    + by apply pending_same with w'; [intros; apply queue_same| |].
    + apply Hfire; [by eapply kind_born | by intros [? _]].
    + apply pending_fire_with; [by eapply kind_born | apply Hn' | by intros [? _] | done].
  - unfold fire_turn. destruct (outer _); by repeat apply pending_set_list.
Qed.

(** The step is the answer of a handler of the chain that makes the deferred. *)
Definition about (w : world) (t : task) : Prop :=
  normal t ∧ ∃ ch, chains w !! t_chain t = Some ch ∧ newDefer ch = n.
Definition answering (x : config) : Prop :=
  match ctrl x, stack x with
  | (Ret _ | Exn _), FProcess _ t _ :: _ => about (now x) t
  | _, _ => False
  end.

Lemma about_or_elsewhere w t : about w t ∨ elsewhere n w t.
Proof.
  destruct (decide (normal t)) as [Hn|]; [|right; by intros ?].
  destruct (chains w !! t_chain t) as [ch|] eqn:E; [|right; intros _ ch; congruence].
  destruct (decide (newDefer ch = n)); [left; split; eauto | right; intros _ ch' E'; congruence].
Qed.

Lemma elsewhere_log_first depth e w t : elsewhere n w t → elsewhere n (log_first depth e w) t.
Proof. unfold log_first. by destruct (depth =? 0). Qed.

Lemma kinds_log_first depth e w : kinds (log_first depth e w) = kinds w.
Proof. unfold log_first. by destruct (depth =? 0). Qed.

Lemma pending_return v fr st w :
  quiet w (fr :: st) → kinds w !! n = Some OfThen → pending w n →
  pending (now (step_return v fr st w)) n ∨ answering (Config (Ret v) (fr :: st) w).
Proof.
  intros Hq Hk H. destruct fr as [l|k|depth t ph|m a dat|v'|adds v']; simpl; try by left.
  - left. destruct (decide (settles l n)) as [Hl|Hl]; [|by apply pending_set_list].
    destruct l as [d a h|m]; [|done]. destruct Hl as [-> Ha]. exfalso.
    assert (firing (lists w (Lid n a h)) = true) as Hf.
    { apply (s_firing _ _ (qu_sound _ _ Hq)). left. apply list_elem_of_here. }
    destruct H as [_ Hp]. by rewrite (proj2 (Hp a h Ha)) in Hf.
  - apply quiet_pop in Hq as [Hq _]; [|done]. destruct ph; [|by left].
    destruct (about_or_elsewhere w t) as [|He]; [by right | left].
    apply pending_handled; [by apply quiet_log_first | by rewrite kinds_log_first | by apply pending_log_first|].
    by apply elsewhere_log_first.
  - left. apply quiet_pop in Hq as [Hq Hm]; [|done]. by apply pending_piped.
Qed.

Lemma pending_throw e fr st w :
  quiet w (fr :: st) → kinds w !! n = Some OfThen → pending w n →
  pending (now (step_throw e fr st w)) n ∨ answering (Config (Exn e) (fr :: st) w).
Proof.
  intros Hq Hk H. destruct fr as [l|k|depth t ph|m a dat|v'|adds v']; simpl; try by left.
  - left. destruct H as [E Hp]. split; [done|]. intros a h Ha. destruct (Hp a h Ha) as [E1 E2].
    split; simpl; [by rewrite runs_of_app, E1 | by rewrite adds_of_app, app_nil_r].
  - apply quiet_pop in Hq as [Hq _]; [|done]. destruct (is_special t) eqn:Es; [by left|].
    destruct (about_or_elsewhere w t) as [|He]; [by right | left].
    assert (Hsp : ¬ is_special t) by (rewrite Es; by intros []).
    destruct ph; [|by apply pending_caught].
    apply pending_caught; [by apply quiet_log_first | by rewrite kinds_log_first
      | by apply pending_log_first | done | by apply elsewhere_log_first].
Qed.

Lemma pending_step x y :
  inv x → step page x = Some y → kinds (now x) !! n = Some OfThen → pending (now x) n →
  pending (now y) n ∨ answering x.
Proof.
  destruct x as [c st w]. unfold step. simpl. intros Hi E Hk H.
  assert (Hq : match c with Next _ => True | _ => quiet w st end).
  { destruct c; try done; by apply (quiet_inv _ _ _ Hi). }
  destruct c as [p|p dat|r dat|adds v|l|v|v].
  - left. destruct p; injection E as <-; [done..|]. apply pending_do_op; [by apply quiet_push | done | done].
  - left. injection E as <-. by apply pending_call.
  - left. injection E as <-. by eapply pending_resolving.
  - left. pose proof (in_ctrl _ Hi) as Ha. simpl in Ha. destruct adds as [|[l fs] adds]; injection E as <-; [done|].
    apply Forall_cons in Ha as [[Hb Hfs] Ha]. apply pending_add_to; [by apply quiet_push | done..].
  - left. injection E as <-. apply pending_next; [by split; apply Hi | done | done].
  - destruct st as [|fr st]; [done|]. injection E as <-. by apply pending_return.
  - destruct st as [|fr st]; [done|]. injection E as <-. by apply pending_throw.
Qed.
End machine.

(** ** A deferred stays settled *)

Lemma pending_not_started w d a dat : pending w d → started w d a dat → False.
Proof.
  intros [_ Hq] Hs. destruct (Hq a false (st_action _ _ _ _ Hs)) as [_ E].
  destruct (st_main _ _ _ _ Hs) as [i fs _ E' _|E' _]; by rewrite E' in E.
Qed.

Section settled.
Context (page : nat → data → prog).

(** A list that starts to be fired has called its first function after the next step. *)
Lemma started_first x y n a dat :
  inv x → runs page x y → n < deferreds (now x) → started (now x) n a dat → called (now x) n a = 0 →
  ∃ f, (f, dat) ∈ runs_of (main n a) (trace (now y)).
Proof.
  intros Hi Hr Hn Hs Hc. pose proof (st_action _ _ _ _ Hs) as Ha.
  assert (Hw : ctrl x = Next (main n a)).
  { destruct (in_deferreds _ Hi n Hn) as [[Hp|(a' & dat' & Hs' & Hj)]|(a' & dat' & Hs' & _ & E)].
    - by destruct (pending_not_started _ _ _ _ Hp Hs).
    - destruct (started_unique _ _ _ _ _ _ Hs Hs') as [-> _]. lia.
    - by destruct (started_unique _ _ _ _ _ _ Hs Hs') as [-> _]. }
  destruct Hr as [y Hst|p [_ (v & [E|E])]|t ts [_ (v & [E|E])] _]; [|congruence..].
  destruct x as [c st w]. simpl in Hw. subst c. injection Hst as <-. simpl in *.
  assert (Hat : at_next (main n a) st w) by (split; apply Hi).
  destruct (window_ran w n a dat st Hat Hs) as (f & w' & Hf & -> & _ & _ & _ & Hc' & _ & Hdat); [lia|].
  rewrite Hc in Hf. rewrite (builtins_settle n a 0 f) by (done || lia). simpl.
  unfold called in Hc'. destruct (runs_of (main n a) (trace w')) as [|[g dat'] rs] eqn:Er; [simpl in Hc'; lia|].
  exists g. rewrite <- (Hdat g dat' false) by (rewrite Er; apply list_elem_of_here). apply list_elem_of_here.
Qed.

Lemma started_kept x y n a dat :
  inv x → runs page x y → n < deferreds (now x) → started (now x) n a dat → started (now y) n a dat.
Proof.
  intros Hi Hr Hn Hs. pose proof (inv_runs page x y Hr Hi) as Hiy. pose proof (st_action _ _ _ _ Hs) as Ha.
  assert (Hran : ∃ f, (f, dat) ∈ runs_of (main n a) (trace (now y))).
  { destruct (runs_of (main n a) (trace (now x))) as [|[f dat'] rs] eqn:Er.
    - apply (started_first x y); [done..|]. unfold called. by rewrite Er.
    - assert (Hin : (f, dat') ∈ runs_of (main n a) (trace (now x))) by (rewrite Er; apply list_elem_of_here).
      exists f. rewrite <- (st_data _ _ _ _ Hs f dat' false Hin).
      apply (later_runs page x y); [done | by apply rtc_once | done]. }
  destruct Hran as [f Hran]. apply elem_runs in Hran. by eapply ran_side.
Qed.
End settled.
