(* ===== verification/JqFate.v ===== *)
(** * [then]: a handler's answer settles the deferred it returned

    What a step adds to the answers of handlers and to the handlers under way, the
    invariant that ties the deferred of every chain to them, and the theorem. *)
From stdpp Require Import base list functions relations.
From Stdlib Require Import ZArith Lia.
From S2P Require Import Prelude JqCallbacks JqDeferred JqDeferredInv JqDeferredStep JqDeferredFacts JqThen JqThenFacts JqResolve.

(** ** Answers, and handlers under way *)

Definition is_answer (e : event) : Prop :=
  match e with Handled t | Answered t _ | Threw t _ => normal t | _ => False end.
#[export] Instance is_answer_dec e : Decision (is_answer e).
Proof. destruct e; simpl; apply _. Defined.
Definition answers (es : list event) : list event := filter is_answer es.
Lemma answers_app es es' : answers (es ++ es') = answers es ++ answers es'.
Proof. apply filter_app. Qed.
Lemma answers_added l fs : answers (Added l <$> fs) = [].
Proof. induction fs as [|f fs IH]; [done | exact IH]. Qed.
Lemma elem_answers e es : is_answer e → e ∈ answers es ↔ e ∈ es.
Proof. intros He. unfold answers. rewrite list_elem_of_filter. tauto. Qed.

Definition first_frame (fr : frame) : Prop := match fr with FProcess 0 t _ => normal t | _ => False end.
#[export] Instance first_frame_dec fr : Decision (first_frame fr).
Proof. destruct fr as [| |[|] | | |]; simpl; apply _. Defined.
Definition first_frames (st : list frame) : list frame := filter first_frame st.

(** Nothing that the deferreds of chains depend on happens, but for new chains. *)
Record neutral (w : world) (st : list frame) (x : config) : Prop := {
  ne_answers : answers (trace (now x)) = answers (trace w);
  ne_frames : first_frames (stack x) = first_frames st;
  ne_chains : (newDefer <$> chains (now x)) = newDefer <$> chains w ∨
    (newDefer <$> chains (now x)) = (newDefer <$> chains w) ++ [deferreds w] ∧ pending (now x) (deferreds w)
}.

Lemma neutral_trace w st x : trace (now x) = trace w → stack x = st → chains (now x) = chains w → neutral w st x.
Proof. intros E1 E2 E3. split; [by rewrite E1 | by rewrite E2 | left; by rewrite E3]. Qed.

Lemma fire_turn_neutral l st w : neutral w st (fire_turn l st w).
Proof. unfold fire_turn. by destruct (outer _); apply neutral_trace. Qed.

Lemma fire_if_neutral b l v st w : neutral w st (fire_if b l v st w).
Proof.
  destruct b; [|by apply neutral_trace]. unfold fire_if.
  destruct (fire_turn_neutral l (FDone v :: st) (set_list l (fire_start (lists w l)) w)) as [H1 H2 H3].
  split; [exact H1 | exact H2 | exact H3].
Qed.

Lemma fire_with_neutral l dat v st w : neutral w st (fire_with l dat v st w).
Proof.
  unfold fire_with. destruct (fireWith dat (lists w l)) as [c b].
  destruct (fire_if_neutral b l v st (set_list l c w)) as [H1 H2 H3]. by split.
Qed.

Lemma add_to_neutral l fs v st w : neutral w st (add_to l fs v st w).
Proof.
  unfold add_to, added_to. destruct (add _ _) as [c b].
  match goal with |- neutral _ _ (fire_if b l v st ?w1) => destruct (fire_if_neutral b l v st w1) as [H1 H2 H3] end.
  split; [|exact H2|exact H3]. rewrite H1. simpl. rewrite answers_app.
  destruct (items _); [by rewrite answers_added, app_nil_r | by rewrite app_nil_r].
Qed.

Lemma new_deferred_neutral k w ls :
  sound w ls → let '(d, w1) := new_deferred k w in
  d = deferreds w ∧ answers (trace w1) = answers (trace w) ∧ chains w1 = chains w ∧ pending w1 d.
Proof.
  intros Hs. pose proof (new_deferred_makes k w ls Hs) as Hm. revert Hm.
  assert (H : ∀ d w a, answers (trace (new_lists d w a)) = answers (trace w)).
  { intros d w' a. rewrite new_lists_eq. simpl. by rewrite answers_app, answers_added, app_nil_r. }
  unfold new_deferred. set (d := deferreds w). intros [_ Hm]. split; [done|].
  split; [|split; [by rewrite (ma_chains _ _ _ _ Hm) | by eapply makes_pending]].
  simpl. by rewrite !H.
Qed.

Lemma then_op_neutral d f r p st w ls : sound w ls → neutral w st (then_op d f r p st w).
Proof.
  intros Hs. unfold then_op. pose proof (new_deferred_neutral OfThen w ls Hs) as Hn.
  destruct (new_deferred OfThen w) as [n w1]. destruct Hn as (-> & H1 & H2 & H3).
  split; simpl; [by rewrite answers_app, H1, app_nil_r | done | right].
  split; [by rewrite fmap_app, H2|]. apply pending_log; [done|]. by apply (pending_same _ w1).
Qed.

Lemma pipe_op_neutral d f r p st w ls : sound w ls → neutral w st (pipe_op d f r p st w).
Proof.
  intros Hs. unfold pipe_op. pose proof (new_deferred_neutral OfPipe w ls Hs) as Hn.
  destruct (new_deferred OfPipe w) as [n w1]. destruct Hn as (_ & H1 & H2 & _).
  split; simpl; [done|done|left; by rewrite H2].
Qed.

Lemma process_neutral depth t st w : depth ≠ 0 → neutral w st (process depth t st w).
Proof.
  intros Hd. unfold process. destruct (chains w !! t_chain t); [|by apply neutral_trace].
  destruct (_ <? _); [by apply neutral_trace|]. unfold log_first. rewrite (proj2 (Nat.eqb_neq depth 0)) by done.
  assert (Hf : first_frames (FProcess depth t Handling :: st) = first_frames st) by by destruct depth.
  destruct (t_handler t); (split; [done | exact Hf | by left]).
Qed.

Lemma resolving_neutral r dat st w : neutral w st (resolving r dat st w).
Proof.
  unfold resolving. destruct (Nat.eqb_spec (r_depth r) 0); [|by apply process_neutral].
  split; simpl; [by rewrite answers_app, app_nil_r | done | by left].
Qed.

Lemma call_then_neutral v rs st w ls : sound w ls → neutral w st (call_then v rs st w).
Proof.
  intros Hs. destruct v; unfold call_then; try (by apply neutral_trace);
    destruct (d <? deferreds w); (by eapply then_op_neutral) || by apply neutral_trace.
Qed.

Lemma piped_neutral n a dat v st w : neutral w st (piped n a dat v st w).
Proof.
  destruct v; unfold piped; try apply fire_with_neutral; by destruct (d <? deferreds w); apply neutral_trace.
Qed.

Lemma do_op_neutral o st w ls : sound w ls → neutral w st (do_op o st w).
Proof.
  intros Hs. destruct o; unfold do_op; try (by apply neutral_trace);
    try (destruct (_ <? _); [unfold deferred_op, own_op | by apply neutral_trace]);
    try (by apply neutral_trace); try apply add_to_neutral; try apply fire_with_neutral; try (by eapply then_op_neutral); try (by eapply pipe_op_neutral).
  - pose proof (new_deferred_neutral OfPage w ls Hs) as Hn. destruct (new_deferred OfPage w) as [n w1].
    destruct Hn as (_ & H1 & H2 & _). destruct func; (split; simpl; [done|done|left; by rewrite H2]).
  - destruct (can_settle d w); [apply fire_with_neutral | by apply neutral_trace].
Qed.

Lemma call_neutral page p dat st w : neutral w st (call page p dat st w).
Proof.
  destruct p as [n|d a|k]; simpl; [by apply neutral_trace | |].
  - destruct (can_settle d w); [apply fire_with_neutral | by apply neutral_trace].
  - by destruct (given w !! k); apply neutral_trace.
Qed.

Lemma neutral_from w w' st x :
  answers (trace w') = answers (trace w) → newDefer <$> chains w' = newDefer <$> chains w → deferreds w' = deferreds w →
  neutral w' st x → neutral w st x.
Proof. intros E1 E2 E3 []. split; [congruence | done | by rewrite <- E2, <- E3]. Qed.

Lemma next_neutral l st w : neutral w st (next l st w).
Proof.
  unfold next. destruct (inner (lists w l)) as [c [f|]].
  - set (dat := default _ _). set (w' := log _ _). apply (neutral_from w w'); [|done..|].
    { unfold w'. simpl. by rewrite answers_app, app_nil_r. }
    assert (Hf : ∀ m v, neutral w' st (fire_with m dat v (FLoop l :: st) w')).
    { intros m v. destruct (fire_with_neutral m dat v (FLoop l :: st) w') as [H1 H2 H3]. by split. }
    destruct f as [p|d a|m|m|m|c' a h|n a [p|]|n a]; simpl; try (by apply neutral_trace); try apply Hf.
    + by split; [|done|left].
    + split; simpl; [by rewrite !answers_app, !app_nil_r | done | by left].
    + by split; [|done|left].
    + unfold settle. case_decide; [|apply Hf].
      destruct (fire_with_neutral (main n a) (Undefined, dat.2) dat.1 (FLoop l :: st) w') as [H1 H2 H3]. by split.
  - apply (neutral_from w (set_list l (set_index (-1) c) w)); [done..|]. apply fire_turn_neutral.
Qed.

(** ** Frames that end *)

Lemma deeper_newDefer w c d m m' n :
  chains w !! c = Some (Chain d m n) → newDefer <$> <[c := Chain d m' n]> (chains w) = newDefer <$> chains w.
Proof. intros E. rewrite list_fmap_insert, list_insert_id; [done|]. by rewrite list_lookup_fmap, E. Qed.

Lemma handled_neutral depth t v st w ls ch :
  sound w ls → chains w !! t_chain t = Some ch → neutral w (FProcess depth t Passing :: st) (handled depth t v st w).
Proof.
  intros Hs Ec. unfold handled. rewrite Ec. destruct ch as [d m n].
  destruct (decide (v = Promise n)); [by apply neutral_trace|]. destruct (is_thenable v).
  - destruct (is_special t); [by eapply call_then_neutral|].
    eapply (neutral_from _ (set_chains _ _)); [done | by eapply deeper_newDefer | done|].
    eapply call_then_neutral. eapply (sound_same w); [done..|]. exact Hs.
  - apply fire_with_neutral.
Qed.

Lemma caught_neutral depth t e st w : neutral w st (caught depth t e st w).
Proof.
  unfold caught. destruct (chains w !! t_chain t) as [[d m n]|]; [|by apply neutral_trace].
  destruct (_ <=? _); [apply fire_with_neutral | by apply neutral_trace].
Qed.

Lemma log_first_neutral depth t e w :
  ¬ first_frame (FProcess depth t Handling) → e = Handled t ∨ (∃ v, e = Answered t v) ∨ (∃ v, e = Threw t v) →
  answers (trace (log_first depth e w)) = answers (trace w) ∧ chains (log_first depth e w) = chains w ∧
  deferreds (log_first depth e w) = deferreds w.
Proof.
  intros Hf He. unfold log_first. destruct depth as [|depth]; [|done]. simpl in *. split; [|done].
  rewrite answers_app. unfold answers at 2. rewrite filter_cons_False, app_nil_r; [done|].
  by destruct He as [-> |[[v ->]|[v ->]]].
Qed.

(** A frame that is not of the first handler of a chain. *)
Lemma return_neutral v fr st w ls :
  sound w ls → ¬ first_frame fr → neutral w st (step_return v fr st w).
Proof.
  intros Hs Hf. destruct fr as [l|k|depth t ph|n a dat|v'|adds v']; simpl; try (by apply neutral_trace).
  - destruct ph; [|by apply neutral_trace].
    destruct (log_first_neutral depth t (Answered t v) w) as (H1 & H2 & H3); [done | eauto|].
    apply (neutral_from w (log_first depth (Answered t v) w)); [done | by rewrite H2 | done|].
    assert (Hs' : sound (log_first depth (Answered t v) w) ls).
    { unfold log_first. destruct (_ =? _); [|done]. eapply (sound_same w); try done. intros l. by apply same_logs. }
    unfold handled. destruct (chains (log_first depth (Answered t v) w) !! t_chain t) as [ch|] eqn:Ec; [|by apply neutral_trace].
    pose proof (handled_neutral depth t v st _ ls ch Hs' Ec) as [N1 N2 N3]. unfold handled in N1, N2, N3. rewrite Ec in N1, N2, N3.
    split; [exact N1 | | exact N3]. rewrite N2. unfold first_frames. by rewrite filter_cons_False.
  - apply piped_neutral.
Qed.

Lemma throw_neutral e fr st w : ¬ first_frame fr → neutral w st (step_throw e fr st w).
Proof.
  intros Hf. destruct fr as [l|k|depth t ph|n a dat|v'|adds v']; simpl; try (by apply neutral_trace).
  - split; simpl; [by rewrite answers_app, app_nil_r | done | by left].
  - destruct (is_special t); [by apply neutral_trace|]. destruct ph; [|apply caught_neutral].
    destruct (log_first_neutral depth t (Threw t e) w) as (H1 & H2 & H3); [done | eauto|].
    apply (neutral_from w (log_first depth (Threw t e) w)); [done | by rewrite H2 | done|]. apply caught_neutral.
Qed.

(** ** The deferred of a chain *)

(** What [then] settles its deferred with when the handler of [t] returns [v] or throws [e]. *)
Definition resolve_data (t : task) (v : value) : data :=
  if decide (t_handler t = Identity) then t_data t else (Undefined, [v]).
Definition reject_data (t : task) (e : value) : data :=
  if decide (t_handler t = Thrower) then t_data t else (Undefined, [e]).

Definition unanswered (w : world) (t : task) : Prop := ∀ v, (Answered t v ∉ trace w) ∧ (Threw t v ∉ trace w).

(** The answer of the handler of [t] has settled [n], unless [then] waits for an object it returned. *)
Definition settled_by (w : world) (t : task) (n : nat) : Prop :=
  (∃ e, Threw t e ∈ trace w ∧ started w n Reject (reject_data t e)) ∨
  (∃ v, Answered t v ∈ trace w ∧
     if decide (v = Promise n) then started w n Reject (reject_data t TypeError)
     else if is_thenable v then True else started w n Resolve (resolve_data t v)).

Definition running (x : config) (t : task) (n : nat) : Prop :=
  FProcess 0 t Handling ∈ stack x ∧ pending (now x) n ∧ unanswered (now x) t.

(** The handler has returned the promise of [n] itself. *)
Definition self_resolving (x : config) (t : task) (n : nat) : Prop :=
  Answered t (Promise n) ∈ trace (now x) ∧ ctrl x = Exn TypeError ∧
  (∃ st, stack x = FProcess 0 t Passing :: st) ∧ pending (now x) n ∧
  (∀ ch, chains (now x) !! t_chain t = Some ch → maxDepth ch = 0).

(** What has become of the deferred [n] of the chain [c]. *)
Inductive fate (x : config) (c n : nat) : Prop :=
  | fate_none :
      (∀ t, Handled t ∈ trace (now x) → normal t → t_chain t ≠ c) → pending (now x) n → fate x c n
  | fate_handled t :
      Handled t ∈ trace (now x) → normal t → t_chain t = c →
      running x t n ∨ self_resolving x t n ∨ settled_by (now x) t n → fate x c n.

(** The frames of first handlers. *)
Definition handling (fr : frame) : Prop := match fr with FProcess 0 t Handling => normal t | _ => False end.
#[export] Instance handling_dec fr : Decision (handling fr).
Proof. destruct fr as [| |[|] ? []| | |]; simpl; apply _. Defined.

Record frames_ok (frs : list frame) (w : world) : Prop := {
  fr_handling t : FProcess 0 t Handling ∈ frs → unanswered w t;
  fr_passing t : FProcess 0 t Passing ∈ frs → ∃ v, Answered t v ∈ trace w;
  fr_nodup : NoDup (filter handling frs)
}.

Record fates (x : config) : Prop := {
  fa_chains c ch : chains (now x) !! c = Some ch → fate x c (newDefer ch);
  fa_frames : frames_ok (first_frames (stack x)) (now x)
}.

(** ** One handler of a chain *)

Lemma handled_chain x ws t :
  then_ok ws (now x) → Handled t ∈ trace (now x) → normal t → ∃ ch, chains (now x) !! t_chain t = Some ch.
Proof.
  intros H Hin Hn. assert (Ht : t ∈ normals (firsts (trace (now x)))).
  { rewrite <- (ti_queue _ _ H), (ti_order _ _ H), elem_of_app. left. apply list_elem_of_filter. split; [done|].
    unfold handled_of. rewrite list_elem_of_omap. by exists (Handled t). }
  apply list_elem_of_filter in Ht as [_ [l Hr]%elem_firsts]. destruct (first_run _ _ _ _ _ _ _ H Hr) as (ch & _ & _ & E & _). eauto.
Qed.

Lemma handled_unique x ws t t' :
  inv x → then_ok ws (now x) → Handled t ∈ trace (now x) → Handled t' ∈ trace (now x) → normal t → normal t' →
  t_chain t' = t_chain t → t' = t.
Proof.
  intros Hi H Ht Ht' Hn Hn' Hc. pose proof (chain_once x ws (t_chain t) Hi H) as Hone.
  rewrite <- (ti_queue _ _ H), (ti_order _ _ H), filter_app, length_app in Hone.
  assert (Hin : ∀ u, Handled u ∈ trace (now x) → normal u → t_chain u = t_chain t →
    u ∈ filter (λ t0, t_chain t0 = t_chain t) (normals (handled_of (trace (now x))))).
  { intros u Hu Hnu Hcu. apply list_elem_of_filter. split; [done|]. apply list_elem_of_filter. split; [done|].
    unfold handled_of. rewrite list_elem_of_omap. by exists (Handled u). }
  pose proof (Hin t Ht Hn eq_refl) as H1. pose proof (Hin t' Ht' Hn' Hc) as H2.
  destruct (filter _ (normals (handled_of _))) as [|u [|u' us]]; [by apply elem_of_nil in H1 | | simpl in Hone; lia].
  apply list_elem_of_singleton in H1 as ->. by apply list_elem_of_singleton in H2.
Qed.

(** A chain whose handler has not answered is at its first depth. *)
Lemma unanswered_closed x ws t ch :
  inv x → then_ok ws (now x) → Handled t ∈ trace (now x) → normal t → unanswered (now x) t →
  chains (now x) !! t_chain t = Some ch → maxDepth ch = 0 ∧ ¬ answered (trace (now x)) (t_chain t).
Proof.
  intros Hi H Ht Hn Hu Hc.
  assert (Hno : ¬ answered (trace (now x)) (t_chain t)).
  { intros (t' & v & Ha & Hn' & Hc' & _). pose proof (ti_answers _ _ H t' v (or_introl Ha) Hn') as Ht'.
    pose proof (handled_unique x ws t t' Hi H Ht Ht' Hn Hn' Hc') as ->. by destruct (Hu v). }
  split; [|done]. destruct (maxDepth ch) eqn:E; [done|]. exfalso. apply Hno. apply (ti_closed _ _ H _ ch Hc). lia.
Qed.

Lemma newDefer_inj w ws c c' ch ch' :
  then_ok ws w → chains w !! c = Some ch → chains w !! c' = Some ch' → newDefer ch = newDefer ch' → c = c'.
Proof.
  intros H E E' En. pose proof (ti_new _ _ H) as Hnd. rewrite NoDup_alt in Hnd.
  apply (Hnd c c' (newDefer ch)); rewrite list_lookup_fmap; [by rewrite E | by rewrite E', En].
Qed.

(** ** What one step leaves of a fate *)

Definition event_chain (e : event) : option nat :=
  match e with Handled t | Answered t _ | Threw t _ => Some (t_chain t) | _ => None end.

(** A first handler of the chain [c] ends here. *)
Definition ending (x : config) (c : nat) : Prop :=
  match ctrl x, stack x with
  | (Ret _ | Exn _), FProcess 0 t _ :: _ => normal t ∧ t_chain t = c
  | _, _ => False
  end.

Section one_step.
Context (page : nat → data → prog) (x y : config).
Hypothesis Hi : inv x.
Hypothesis Ht : then_inv x.
Hypothesis Hr : runs page x y.

Lemma chain_kind c ch : chains (now x) !! c = Some ch → kinds (now x) !! newDefer ch = Some OfThen.
Proof using Hi.
  intros Hc. pose proof (in_chains _ Hi) as Hch. rewrite Forall_forall in Hch.
  by apply (Hch ch); eapply list_elem_of_lookup_2.
Qed.

Lemma trace_kept e : e ∈ trace (now x) → e ∈ trace (now y).
Proof using Hi Hr. destruct (runs_trace page x y Hi Hr) as [es ->]. rewrite elem_of_app. by left. Qed.

Lemma settled_by_kept t c ch :
  chains (now x) !! c = Some ch → settled_by (now x) t (newDefer ch) → settled_by (now y) t (newDefer ch).
Proof using Hi Hr.
  intros Hc Hs. pose proof (kind_born _ _ _ (chain_kind c ch Hc)) as Hn. pose proof trace_kept as Hin.
  destruct Hs as [(e & He & Hs)|(v & Hv & Hs)]; [left; exists e | right; exists v]; (split; [auto|]).
  - by eapply started_kept.
  - destruct (decide _); [by eapply started_kept|]. destruct (is_thenable v); [done | by eapply started_kept].
Qed.

Lemma pending_runs n : kinds (now x) !! n = Some OfThen → pending (now x) n → pending (now y) n ∨ answering n x.
Proof using Hi Hr.
  intros Hk Hp. destruct Hr as [z Hs|p Hid|t ts Hid Et]; [by eapply pending_step | by left | left].
  apply pending_process; [|done|by apply (pending_same _ (now x))].
  pose proof (idle_quiet x Hid Hi) as Hq. eapply (quiet_same (now x)); try done. apply Hq.
Qed.

Lemma fate_kept c ch :
  chains (now x) !! c = Some ch → ¬ ending x c →
  (∀ e, is_answer e → e ∈ trace (now y) → e ∈ trace (now x) ∨ event_chain e ≠ Some c) →
  (∀ t, normal t → t_chain t = c → FProcess 0 t Handling ∈ stack x → FProcess 0 t Handling ∈ stack y) →
  fate x c (newDefer ch) → fate y c (newDefer ch).
Proof using Hi Ht Hr.
  intros Hc He Hev Hfr Hf. pose proof (chain_kind c ch Hc) as Hk.
  assert (Hans : answering (newDefer ch) x → ∃ t, Handled t ∈ trace (now x) ∧ normal t ∧ t_chain t = c ∧ ¬ unanswered (now x) t).
  { intros Ha. pose proof (th_frames _ Ht) as Hfg. unfold answering, ending in *.
    assert (Hst : ∃ depth t ph st, stack x = FProcess depth t ph :: st ∧ about (newDefer ch) (now x) t ∧
      (depth = 0 → ¬ (normal t ∧ t_chain t = c))).
    { destruct (ctrl x); try done; destruct (stack x) as [|[| |depth t ph| | |] st]; try done;
        exists depth, t, ph, st; (split; [done|]); (split; [done|]); by intros ->. }
    destruct Hst as (depth & t & ph & st & E & (Hn & ch' & Ec' & En) & Hd). rewrite E in Hfg.
    assert (t_chain t = c) as Htc by by eapply newDefer_inj; [apply Ht|..].
    apply Forall_cons in Hfg as [[_ Hg] _]. specialize (Hg Hn). destruct depth as [|depth]; [by destruct Hd|].
    destruct Hg as (t' & v & Ha' & Hn' & Hc' & _). exists t'. split; [by eapply ti_answers; [apply Ht|left|]|].
    split; [done|]. split; [congruence|]. intros Hu. by destruct (Hu v). }
  destruct Hf as [Hno Hp|t Hin Hn Htc [(Hst & Hp & Hu)|[Hself|Hs]]].
  - destruct (pending_runs _ Hk Hp) as [Hp'|Ha].
    + apply fate_none; [|done]. intros t Hin Hn Htc. destruct (Hev (Handled t) Hn Hin) as [Hin'|Hne]; [by eapply Hno|].
      simpl in Hne. congruence.
    + destruct (Hans Ha) as (t & Hin & Hn & Htc & _). by destruct (Hno t).
  - destruct (pending_runs _ Hk Hp) as [Hp'|Ha].
    + apply (fate_handled _ _ _ t); [by apply trace_kept | done | done | left]. split; [by apply Hfr|]. split; [done|].
      intros v. destruct (Hu v) as [Hu1 Hu2]. split; intros Hin'.
      * destruct (Hev (Answered t v) Hn Hin'); [done|]. simpl in *. congruence.
      * destruct (Hev (Threw t v) Hn Hin'); [done|]. simpl in *. congruence.
    + destruct (Hans Ha) as (t' & Hin' & Hn' & Htc' & Hu'). exfalso. apply Hu'.
      by rewrite (handled_unique x _ t t' Hi (th_ok _ Ht)) by congruence.
  - destruct Hself as (_ & E' & (st & E) & _). exfalso. apply He. unfold ending. rewrite E', E. by split.
  - apply (fate_handled _ _ _ t); [by apply trace_kept | done | done | right; right]. by eapply settled_by_kept.
Qed.

Lemma handled_born t : Handled t ∈ trace (now x) → normal t → t_chain t < length (chains (now x)).
Proof using Ht.
  intros Hin Hn. destruct (handled_chain x _ t (th_ok _ Ht) Hin Hn) as [ch E]. by eapply lookup_lt_Some.
Qed.

(** The chains of [y] are those of [x] and perhaps a new one. *)
Lemma fates_chains w st :
  neutral w st y → newDefer <$> chains w = newDefer <$> chains (now x) → deferreds w = deferreds (now x) →
  (∀ t, normal t → Handled t ∈ trace w → t_chain t < length (chains (now x))) →
  (∀ c ch, chains (now x) !! c = Some ch → fate y c (newDefer ch)) →
  ∀ c ch, chains (now y) !! c = Some ch → fate y c (newDefer ch).
Proof using Type.
  intros [Ha _ Hc] Ec Ed Hh Hold c ch Hch.
  assert (E : (newDefer <$> chains (now y)) !! c = Some (newDefer ch)) by by rewrite list_lookup_fmap, Hch.
  assert (Hfrom : (newDefer <$> chains (now x)) !! c = Some (newDefer ch) → fate y c (newDefer ch)).
  { rewrite list_lookup_fmap. intros (ch' & E1 & E2)%fmap_Some. rewrite E2. by apply Hold. }
  destruct Hc as [Hc|[Hc Hp]]; rewrite Hc, Ec in E; [by apply Hfrom|].
  apply lookup_app_Some in E as [E|[Hl E]]; [by apply Hfrom|]. rewrite length_fmap in Hl, E.
  apply list_lookup_singleton_Some in E as [E0 E]. rewrite <- E. apply fate_none; [|done].
  intros t Hin Hn <-. rewrite <- (elem_answers (Handled t)), Ha, elem_answers in Hin by done.
  specialize (Hh t Hn Hin). lia.
Qed.

Lemma handling_frames st : filter handling (first_frames st) = filter handling st.
Proof using Type.
  unfold first_frames. rewrite list_filter_filter. apply list_filter_iff. intros fr.
  destruct fr as [| |[|] ? []| | |]; simpl; tauto.
Qed.
End one_step.

(** ** Steps that end no handler and start none *)

Lemma first_frames_elem t ph st : normal t → FProcess 0 t ph ∈ first_frames st ↔ FProcess 0 t ph ∈ st.
Proof. intros Hn. unfold first_frames. rewrite list_elem_of_filter. simpl. tauto. Qed.

Lemma first_frames_normal t ph st : FProcess 0 t ph ∈ first_frames st → normal t.
Proof. unfold first_frames. rewrite list_elem_of_filter. by intros [H _]. Qed.

Lemma frames_ok_same frs w w' : answers (trace w') = answers (trace w) → Forall first_frame frs → frames_ok frs w → frames_ok frs w'.
Proof.
  intros E Hf [H1 H2 H3]. rewrite Forall_forall in Hf.
  assert (Hel : ∀ e, is_answer e → e ∈ trace w' ↔ e ∈ trace w) by (intros e He; by rewrite <- (elem_answers e), E, elem_answers).
  split; [| |done].
  - intros t Hin v. pose proof (Hf _ Hin) as Hn. rewrite !Hel by done. by apply H1.
  - intros t Hin. pose proof (Hf _ Hin) as Hn. destruct (H2 t Hin) as [v Hv]. exists v. by rewrite Hel.
Qed.

Lemma first_frames_all st : Forall first_frame (first_frames st).
Proof. apply Forall_forall. intros fr. unfold first_frames. rewrite list_elem_of_filter. tauto. Qed.

Lemma fates_neutral page x y :
  inv x → then_inv x → runs page x y → fates x → neutral (now x) (stack x) y → (∀ c, ¬ ending x c) → fates y.
Proof.
  intros Hi Ht Hr Hf Hn He. split.
  - eapply (fates_chains x y); [done..| |].
    + intros t Hnt Hin. by apply (handled_born x Ht).
    + intros c ch Hc. eapply (fate_kept page x y); try done; [| |by apply Hf].
      * intros e Hae. rewrite <- (elem_answers e) by done. rewrite (ne_answers _ _ _ Hn), elem_answers by done. by left.
      * intros t Hnt _. rewrite <- (first_frames_elem t Handling), <- (first_frames_elem t Handling (stack y)) by done.
        by rewrite (ne_frames _ _ _ Hn).
  - rewrite (ne_frames _ _ _ Hn). eapply frames_ok_same; [apply Hn | apply first_frames_all | apply Hf].
Qed.

(** ** A handler is called *)

Lemma process_first t st w ch :
  chains w !! t_chain t = Some ch → maxDepth ch = 0 →
  let y := process 0 t st w in
  stack y = FProcess 0 t Handling :: st ∧ now y = log (Handled t) w.
Proof.
  intros E Em. unfold process. rewrite E, Em. simpl. by destruct (t_handler t).
Qed.

(** A step that is about the handler of [t] only: [w] has its events, and [y] the frames of [st]. *)
Lemma fates_about page x y t ch w st :
  inv x → then_inv x → runs page x y → fates x → normal t → chains (now x) !! t_chain t = Some ch →
  neutral w st y → newDefer <$> chains w = newDefer <$> chains (now x) → deferreds w = deferreds (now x) →
  (∀ e, is_answer e → e ∈ trace w → e ∈ trace (now x) ∨ event_chain e = Some (t_chain t)) →
  (∀ c, ending x c → c = t_chain t) →
  (∀ t', normal t' → t_chain t' ≠ t_chain t → FProcess 0 t' Handling ∈ stack x → FProcess 0 t' Handling ∈ st) →
  fate y (t_chain t) (newDefer ch) → frames_ok (first_frames st) w → fates y.
Proof.
  intros Hi Ht Hr Hf Hnt Ech Hn Ec Ed Hev He Hst Hfate Hfr. split.
  - apply (fates_chains x y w st); [done..| |].
    + intros t' Hn' Hin. destruct (Hev (Handled t') Hn' Hin) as [Hin'|E]; [by apply (handled_born x Ht)|].
      simpl in E. injection E as ->. by eapply lookup_lt_Some.
    + intros c ch' Hc. destruct (decide (c = t_chain t)) as [->|Hne]; [congruence|].
      eapply (fate_kept page x y); try done; [| | |by apply Hf].
      * intros Hend. by apply Hne, He.
      * intros e Hae. rewrite <- (elem_answers e) by done. rewrite (ne_answers _ _ _ Hn), elem_answers by done.
        intros Hin. destruct (Hev e Hae Hin) as [|E]; [by left | right]. rewrite E. congruence.
      * intros t' Hn' Hc' Hin. rewrite <- (first_frames_elem t' Handling) by done.
        rewrite (ne_frames _ _ _ Hn), first_frames_elem by done. apply Hst; [done | congruence | done].
  - rewrite (ne_frames _ _ _ Hn). eapply frames_ok_same; [apply Hn | apply first_frames_all | done].
Qed.

(** The timeout of a handler, the first of its chain. *)
Lemma timer_first x t ts :
  inv x → then_ok [] (now x) → timers (now x) = t :: ts → normal t →
  ∀ t', Handled t' ∈ trace (now x) → normal t' → t_chain t' ≠ t_chain t.
Proof.
  intros Hi H Et Hn t' Hin Hn' Hc.
  pose proof (chain_once x [] (t_chain t) Hi H) as Hone. rewrite <- (ti_queue _ _ H), (ti_order _ _ H), Et in Hone.
  rewrite filter_app, length_app in Hone.
  assert (Hin' : t' ∈ filter (λ t0, t_chain t0 = t_chain t) (normals (handled_of (trace (now x))))).
  { apply list_elem_of_filter. split; [done|]. apply list_elem_of_filter. split; [done|].
    unfold handled_of. rewrite list_elem_of_omap. by exists (Handled t'). }
  assert (Ht : normals (t :: ts) = t :: normals ts) by (unfold normals; by rewrite filter_cons_True).
  rewrite Ht, filter_cons_True in Hone by done.
  destruct (filter _ (normals (handled_of _))); [by apply elem_of_nil in Hin' | simpl in Hone; lia].
Qed.

Lemma fates_timeout (page : nat → data → prog) x t ts :
  inv x → then_inv x → fates x → idle x → timers (now x) = t :: ts → fates (timeout t (set_timers ts (now x))).
Proof.
  intros Hi Ht Hf Hid Et. pose proof (runs_timer page x t ts Hid Et) as Hr. pose proof (proj1 Hid) as Est.
  set (w := set_timers ts (now x)) in *.
  assert (Hend : ∀ c, ¬ ending x c) by (intros c Hc; unfold ending in Hc; rewrite Est in Hc; by destruct (ctrl x)).
  destruct (decide (normal t)) as [Hn|Hn].
  - pose proof (tq_ok _ _ (then_idle x Hid Ht)) as Hok. destruct (timer_chain _ _ _ Hok Et Hn) as [ch Ech].
    pose proof (timeout_closed x t ts ch Hi Hok Et Hn Ech) as Em.
    destruct (process_first t [] w ch Ech Em) as [Es Ew]. fold (timeout t w) in Es, Ew.
    pose proof (timer_first x t ts Hi Hok Et Hn) as Hfirst.
    assert (Hu : unanswered (now x) t).
    { assert (Hno : Handled t ∉ trace (now x)) by (intros Hin; exact (Hfirst t Hin Hn eq_refl)).
      intros v. split; intros Hin; apply Hno, (ti_answers _ _ Hok t v); auto. }
    assert (Hu' : unanswered (now (timeout t w)) t).
    { intros v. rewrite Ew. simpl. rewrite !elem_of_app, !list_elem_of_singleton.
      destruct (Hu v). split; intros [|]; done. }
    eapply (fates_about page x _ t ch (log (Handled t) w) (FProcess 0 t Handling :: [])); try done.
    + split; [by rewrite Ew | by rewrite Es | left; by rewrite Ew].
    + intros e He. simpl. rewrite elem_of_app, list_elem_of_singleton. intros [| ->]; [by left | by right].
    + intros c Hc. by destruct (Hend c).
    + rewrite Est. by intros ? _ _ ?%elem_of_nil.
    + apply (fate_handled _ _ _ t); [rewrite Ew; simpl; rewrite elem_of_app, list_elem_of_singleton; by right | done..| left].
      split; [rewrite Es; apply list_elem_of_here|]. split; [|done].
      pose proof (fa_chains _ Hf _ _ Ech) as [_ Hp|t' Hin Hn' Hc' _]; [|by destruct (Hfirst t')].
      rewrite Ew. apply pending_log; [done|]. by apply (pending_same _ (now x)).
    + unfold first_frames. rewrite filter_cons_True by done. split.
      * intros t' [[= ->]|Hin%elem_of_nil]%elem_of_cons; [|done]. by rewrite Ew in Hu'.
      * intros t' [|Hin%elem_of_nil]%elem_of_cons; done.
      * rewrite filter_cons_True by done. apply NoDup_singleton.
  - eapply (fates_neutral page); try done. rewrite Est. unfold timeout, process.
    destruct (chains w !! t_chain t); [|by apply neutral_trace]. simpl. destruct (0 <? maxDepth c); [by apply neutral_trace|].
    assert (E : answers (trace w ++ [Handled t]) = answers (trace (now x))).
    { rewrite answers_app. unfold answers at 2. by rewrite filter_cons_False, app_nil_r. }
    assert (E' : first_frames [FProcess 0 t Handling] = first_frames []) by (unfold first_frames; by rewrite filter_cons_False).
    destruct (t_handler t); (split; [exact E | exact E' | by left]).
Qed.

(** ** A handler ends *)

Lemma frames_pop fr frs w : frames_ok (fr :: frs) w → frames_ok frs w.
Proof.
  intros [H1 H2 H3]. split.
  - intros t Hin. apply H1. by apply list_elem_of_further.
  - intros t Hin. apply H2. by apply list_elem_of_further.
  - destruct (decide (handling fr)); [rewrite filter_cons_True in H3 by done; by apply NoDup_cons in H3 as [_ H3]|].
    by rewrite filter_cons_False in H3.
Qed.

Lemma frames_answer t e v frs w :
  normal t → frames_ok (FProcess 0 t Handling :: frs) w → e = Answered t v ∨ e = Threw t v → frames_ok frs (log e w).
Proof.
  intros Hn H He. pose proof (fr_nodup _ _ H) as Hnd. rewrite filter_cons_True in Hnd by done.
  apply NoDup_cons in Hnd as [Hnt _]. apply frames_pop in H as [H1 H2 H3]. split; [| |done].
  - intros t' Hin v'. simpl. rewrite !elem_of_app, !list_elem_of_singleton. destruct (H1 t' Hin v') as [Ha Hb].
    assert (t' ≠ t).
    { intros ->. apply Hnt, list_elem_of_filter. done. }
    split; intros [|E]; try done; destruct He as [-> | ->]; congruence.
  - intros t' Hin. destruct (H2 t' Hin) as [v' Hv]. exists v'. simpl. rewrite elem_of_app. by left.
Qed.

Lemma frames_passing t v frs w :
  frames_ok frs w → Answered t v ∈ trace w → frames_ok (FProcess 0 t Passing :: frs) w.
Proof.
  intros [H1 H2 H3] Hin. split.
  - intros t' [E|Hin']%elem_of_cons; [congruence | by apply H1].
  - intros t' [[= ->]|Hin']%elem_of_cons; [eauto | by apply H2].
  - rewrite filter_cons_False by (by intros []). done.
Qed.

Section ends.
Context (page : nat → data → prog) (c : control) (t : task) (ph : phase) (st : list frame) (w : world).
Let x := Config c (FProcess 0 t ph :: st) w.
Hypothesis Hi : inv x.
Hypothesis Ht : then_inv x.
Hypothesis Hf : fates x.
Hypothesis Hn : normal t.

Lemma ending_handled : Handled t ∈ trace w.
Proof using Ht Hn.
  pose proof (th_frames _ Ht) as Hg. apply Forall_cons in Hg as [[_ Hg] _]. by apply Hg.
Qed.

Lemma ending_frames : frames_ok (FProcess 0 t ph :: first_frames st) w.
Proof using Hf Hn. pose proof (fa_frames _ Hf) as H. unfold x, first_frames in H. simpl in H. by rewrite filter_cons_True in H. Qed.

Lemma ending_fate ch :
  chains w !! t_chain t = Some ch →
  running x t (newDefer ch) ∨ self_resolving x t (newDefer ch) ∨ settled_by w t (newDefer ch).
Proof using Hi Ht Hf Hn.
  intros Ech. destruct (fa_chains _ Hf _ _ Ech) as [Hno _|t' Hin Hn' Hc Hcase].
  - by destruct (Hno t ending_handled Hn).
  - by rewrite (handled_unique x _ t t' Hi (th_ok _ Ht) ending_handled Hin Hn Hn' Hc) in Hcase.
Qed.

Lemma unanswered_pending ch : unanswered w t → chains w !! t_chain t = Some ch → pending w (newDefer ch).
Proof using Hi Ht Hf Hn.
  intros Hu Ech. destruct (ending_fate ch Ech) as [(_ & Hp & _)|[(Ha & _)|[(e & He & _)|(v' & Hv & _)]]]; [done|..].
  - by destruct (Hu (Promise (newDefer ch))).
  - by destruct (Hu e).
  - by destruct (Hu v').
Qed.

(** The step to [y] logs [es], all about [t], and leaves the frames of [st']. *)
Lemma fates_ending ch y es st' :
  runs page x y → chains w !! t_chain t = Some ch → neutral (logs es w) st' y →
  Forall (λ e, event_chain e = Some (t_chain t)) es →
  (st' = st ∨ st' = FProcess 0 t Passing :: st) →
  fate y (t_chain t) (newDefer ch) → frames_ok (first_frames st') (logs es w) → fates y.
Proof using Hi Ht Hf Hn.
  intros Hr Ech Hne Hes Hst Hfate Hfr. apply (fates_about page x y t ch (logs es w) st'); try done.
  - intros e He. simpl. rewrite elem_of_app. rewrite Forall_forall in Hes. intros [|Hin]; [by left | right; by apply Hes].
  - intros c' Hc'. unfold ending in Hc'. simpl in Hc'. by destruct c; try done; destruct Hc'.
  - intros t' Hn' Hc' [[= -> _]|Hin]%elem_of_cons; [done|].
    destruct Hst as [-> | ->]; [done | by apply list_elem_of_further].
Qed.
End ends.

Lemma not_special t : normal t → is_special t = false.
Proof. intros Hn. unfold is_special. by rewrite bool_decide_false. Qed.

Lemma answer_settles t v n w :
  pending w n → Answered t v ∈ trace w → v ≠ Promise n → is_thenable v = false →
  ∀ dat v' st, dat = resolve_data t v → settled_by (now (fire_with (main n Resolve) dat v' st w)) t n.
Proof.
  intros Hp Ha Hv Ht dat v' st ->. right. exists v. split.
  - unfold fire_with. destruct (fireWith _ _) as [c b]. unfold fire_if, fire_turn. destruct b; [|done].
    by destruct (outer _).
  - rewrite decide_False by done. rewrite Ht. by apply fire_pending.
Qed.

Lemma pending_rejects t e dat n w :
  pending w n → ∀ v' st, dat = reject_data t e →
  started (now (fire_with (main n Reject) dat v' st w)) n Reject (reject_data t e).
Proof. intros Hp v' st ->. by apply fire_pending. Qed.

Lemma fire_with_elem l dat v st w e : e ∈ trace w → e ∈ trace (now (fire_with l dat v st w)).
Proof.
  unfold fire_with. destruct (fireWith _ _) as [c b]. unfold fire_if, fire_turn. destruct b; [|done].
  by destruct (outer _).
Qed.

Lemma neutral_nothing w st y : neutral w st y → neutral (logs [] w) st y.
Proof. intros [H1 H2 H3]. split; [|done|done]. simpl. by rewrite app_nil_r. Qed.

Section endings.
Context (page : nat → data → prog) (t : task) (st : list frame) (w : world).
Hypothesis Hn : normal t.

Lemma fates_answered v :
  let x := Config (Ret v) (FProcess 0 t Handling :: st) w in
  inv x → then_inv x → fates x → fates (handled 0 t v st (log (Answered t v) w)).
Proof using Hn page.
  intros x Hi Ht Hf. set (w1 := log (Answered t v) w).
  assert (Hr : runs page x (handled 0 t v st w1)) by by apply runs_step.
  pose proof (ending_handled _ _ _ _ _ Ht Hn) as Hin. pose proof (ending_frames _ _ _ _ _ Hf Hn) as Hfr.
  destruct (handled_chain x _ t (th_ok _ Ht) Hin Hn) as [ch Ech].
  pose proof (fr_handling _ _ Hfr t (list_elem_of_here _ _)) as Hu.
  assert (Hfate : pending w (newDefer ch)) by by eapply unanswered_pending.
  destruct (unanswered_closed x _ t ch Hi (th_ok _ Ht) Hin Hn Hu Ech) as [Em _].
  assert (Hq : quiet w1 st).
  { apply quiet_log; [done|]. pose proof (quiet_inv _ _ _ Hi I) as Hq. by apply quiet_pop in Hq as [Hq _]. }
  assert (Ha : Answered t v ∈ trace w1) by (simpl; rewrite elem_of_app, list_elem_of_singleton; by right).
  pose proof (handled_neutral 0 t v st w1 _ ch (qu_sound _ _ Hq) Ech) as Hne.
  apply (fates_ending page _ t Handling st w Hi Ht Hf Hn ch _ [Answered t v] (FProcess 0 t Passing :: st)); try done.
  - by repeat constructor.
  - by right.
  - assert (Hp : pending w1 (newDefer ch)) by by apply pending_log.
    assert (Hin' : ∀ e, is_answer e → e ∈ trace w1 → e ∈ trace (now (handled 0 t v st w1))).
    { intros e He Hw. by rewrite <- (elem_answers e), (ne_answers _ _ _ Hne), elem_answers. }
    apply (fate_handled _ _ _ t); [by apply (trace_kept page x _ Hi Hr) | done | done|]. specialize (Hin' (Answered t v) Hn Ha).
    unfold handled in *. replace (chains w1 !! t_chain t) with (Some ch) in * by done. destruct ch as [d m n]. simpl in *. subst m.
    destruct (decide (v = Promise n)) as [->|Hne']; [right; left|right; right].
    + split; [done|]. split; [done|]. split; [by eexists|]. split; [done|]. simpl. rewrite Ech. by intros ch' [= <-].
    + rewrite (not_special t Hn) in *. destruct (is_thenable v) eqn:Et.
      * right. exists v. by rewrite decide_False, Et by done.
      * by apply (answer_settles t v).
  - unfold first_frames. rewrite filter_cons_True by done. apply (frames_passing t v); [|done].
    apply (frames_answer t _ v); [done | done | by left].
Qed.

Lemma fates_returned v :
  let x := Config (Ret v) (FProcess 0 t Passing :: st) w in
  inv x → then_inv x → fates x → fates (Config (Ret Undefined) st w).
Proof using Hn page.
  intros x Hi Ht Hf. assert (Hr : runs page x (Config (Ret Undefined) st w)) by by apply runs_step.
  pose proof (ending_handled _ _ _ _ _ Ht Hn) as Hin. pose proof (ending_frames _ _ _ _ _ Hf Hn) as Hfr.
  destruct (handled_chain x _ t (th_ok _ Ht) Hin Hn) as [ch Ech].
  destruct (fr_passing _ _ Hfr t (list_elem_of_here _ _)) as [v' Ha].
  apply (fates_ending page _ t Passing st w Hi Ht Hf Hn ch _ [] st); try done.
  - by apply neutral_nothing, neutral_trace.
  - by left.
  - destruct (ending_fate _ _ _ _ _ Hi Ht Hf Hn ch Ech) as [(_ & _ & Hu)|[(_ & E & _)|Hs]]; [by destruct (Hu v') | done|].
    apply (fate_handled _ _ _ t); [done..|]. right; right. by apply (settled_by_kept page x _ Hi Hr t _ ch Ech).
  - eapply frames_ok_same; [|apply first_frames_all | by eapply frames_pop]. simpl. by rewrite app_nil_r.
Qed.

Lemma fates_thrown e :
  let x := Config (Exn e) (FProcess 0 t Handling :: st) w in
  inv x → then_inv x → fates x → fates (caught 0 t e st (log (Threw t e) w)).
Proof using Hn page.
  intros x Hi Ht Hf. set (w1 := log (Threw t e) w).
  assert (Hr : runs page x (caught 0 t e st w1)).
  { apply runs_step. unfold step. simpl. by rewrite (not_special t Hn). }
  pose proof (ending_handled _ _ _ _ _ Ht Hn) as Hin. pose proof (ending_frames _ _ _ _ _ Hf Hn) as Hfr.
  destruct (handled_chain x _ t (th_ok _ Ht) Hin Hn) as [ch Ech].
  pose proof (fr_handling _ _ Hfr t (list_elem_of_here _ _)) as Hu.
  assert (Hp : pending w (newDefer ch)) by by eapply unanswered_pending.
  destruct (unanswered_closed x _ t ch Hi (th_ok _ Ht) Hin Hn Hu Ech) as [Em _].
  apply (fates_ending page _ t Handling st w Hi Ht Hf Hn ch _ [Threw t e] st); try done.
  - apply caught_neutral.
  - by repeat constructor.
  - by left.
  - apply (fate_handled _ _ _ t); [by apply (trace_kept page x _ Hi Hr) | done..|]. right; right. left. exists e.
    unfold caught. replace (chains w1 !! t_chain t) with (Some ch) by done. destruct ch as [d m n]. simpl in *. subst m. simpl.
    split; [apply fire_with_elem; simpl; rewrite elem_of_app, list_elem_of_singleton; by right|].
    apply pending_rejects; [by apply pending_log | done].
  - apply (frames_answer t _ e); [done | done | by right].
Qed.

Lemma fates_caught e :
  let x := Config (Exn e) (FProcess 0 t Passing :: st) w in
  inv x → then_inv x → fates x → fates (caught 0 t e st w).
Proof using Hn page.
  intros x Hi Ht Hf.
  assert (Hr : runs page x (caught 0 t e st w)).
  { apply runs_step. unfold step. simpl. by rewrite (not_special t Hn). }
  pose proof (ending_handled _ _ _ _ _ Ht Hn) as Hin. pose proof (ending_frames _ _ _ _ _ Hf Hn) as Hfr.
  destruct (handled_chain x _ t (th_ok _ Ht) Hin Hn) as [ch Ech].
  destruct (fr_passing _ _ Hfr t (list_elem_of_here _ _)) as [v' Ha].
  apply (fates_ending page _ t Passing st w Hi Ht Hf Hn ch _ [] st); try done.
  - apply neutral_nothing, caught_neutral.
  - by left.
  - apply (fate_handled _ _ _ t); [by apply (trace_kept page x _ Hi Hr) | done..|]. right; right.
    destruct (ending_fate _ _ _ _ _ Hi Ht Hf Hn ch Ech) as [(_ & _ & Hu)|[(Ha' & E & _ & Hp & Em)|Hs]]; [by destruct (Hu v') | |].
    + right. exists (Promise (newDefer ch)). split; [by apply (trace_kept page x _ Hi Hr)|]. rewrite decide_True by done.
      injection E as ->. specialize (Em ch Ech). unfold caught. simpl in Ech. rewrite Ech. destruct ch as [d m n]. simpl in *. subst m. simpl.
      by apply pending_rejects.
    + by apply (settled_by_kept page x _ Hi Hr t _ ch Ech).
  - eapply frames_ok_same; [|apply first_frames_all | by eapply frames_pop]. simpl. by rewrite app_nil_r.
Qed.
End endings.

(** ** Every step *)

Section machine.
Context (page : nat → data → prog).

Lemma not_ending c st w : match c with Ret _ | Exn _ => False | _ => True end → ∀ c', ¬ ending (Config c st w) c'.
Proof. intros Hc c' He. unfold ending in He. simpl in He. by destruct c. Qed.

Lemma not_first_ending c fr st w : ¬ first_frame fr → ∀ c', ¬ ending (Config c (fr :: st) w) c'.
Proof.
  intros Hf c' He. apply Hf. unfold ending in He. simpl in He.
  destruct c; try done; destruct fr as [| |[|]| | |]; try done; by destruct He.
Qed.

Lemma neutral_push x fr st w : ¬ first_frame fr → neutral w (fr :: st) x → neutral w st x.
Proof.
  intros Hf [H1 H2 H3]. split; [done| |done]. rewrite H2. unfold first_frames. by rewrite filter_cons_False.
Qed.
Lemma neutral_pop x fr st w : ¬ first_frame fr → neutral w st x → neutral w (fr :: st) x.
Proof.
  intros Hf [H1 H2 H3]. split; [done| |done]. rewrite H2. unfold first_frames. by rewrite filter_cons_False.
Qed.

Lemma fates_step x y : step page x = Some y → inv x → then_inv x → fates x → fates y.
Proof.
  intros E Hi Ht Hf. assert (Hr : runs page x y) by by apply runs_step.
  destruct x as [c st w]. assert (Hq : match c with Next _ => True | _ => quiet w st end).
  { destruct c; try done; by apply (quiet_inv _ _ _ Hi). }
  assert (Hside : neutral w st y → match c with Ret _ | Exn _ => False | _ => True end → fates y).
  { intros Hn Hc. eapply (fates_neutral page); try done. by apply not_ending. }
  unfold step in E. simpl in E. destruct c as [p|p dat|r dat|adds v|l|v|v].
  - apply Hside; [|done]. destruct p as [v|v|o k]; injection E as <-; [by apply neutral_trace..|].
    eapply (neutral_push _ (FBind k)); [by intros []|]. eapply do_op_neutral. by apply (qu_sound _ _ Hq).
  - apply Hside; [|done]. injection E as <-. apply call_neutral.
  - apply Hside; [|done]. injection E as <-. apply resolving_neutral.
  - apply Hside; [|done]. destruct adds as [|[l fs] adds]; injection E as <-; [by apply neutral_trace|].
    eapply (neutral_push _ (FAdds adds v)); [by intros []|]. apply add_to_neutral.
  - apply Hside; [|done]. injection E as <-. apply next_neutral.
  - destruct st as [|fr st]; [done|]. injection E as <-. destruct (decide (first_frame fr)) as [Hff|Hff].
    + destruct fr as [| |[|] t ph| | |]; try done. destruct ph; [by apply fates_answered | by eapply fates_returned].
    + eapply (fates_neutral page); try done; [|by apply not_first_ending]. apply neutral_pop; [done|].
      by eapply return_neutral; [apply (qu_sound _ _ Hq)|].
  - destruct st as [|fr st]; [done|]. injection E as <-. destruct (decide (first_frame fr)) as [Hff|Hff].
    + destruct fr as [| |[|] t ph| | |]; try done. simpl. rewrite (not_special t Hff).
      destruct ph; [by apply fates_thrown | by eapply fates_caught].
    + eapply (fates_neutral page); try done; [|by apply not_first_ending]. apply neutral_pop; [done|]. by apply throw_neutral.
Qed.

Lemma fates_runs x y : runs page x y → inv x → then_inv x → fates x → fates y.
Proof.
  intros Hr Hi Ht Hf. pose proof Hr as Hr'. destruct Hr as [y Hs|p Hid|t ts Hid Et].
  - by eapply fates_step.
  - pose proof (proj1 Hid) as E. eapply (fates_neutral page); try done; [by apply neutral_trace|].
    intros c He. unfold ending in He. rewrite E in He. by destruct (ctrl x).
  - by eapply (fates_timeout page).
Qed.

Lemma fates_start : fates start.
Proof.
  split; [done|]. split; simpl; [by intros t ?%elem_of_nil..|]. constructor.
Qed.

Lemma reachable_fates x : reachable page x → inv x ∧ then_inv x ∧ fates x.
Proof.
  intros H. unfold reachable in H. assert (Hx : inv start ∧ then_inv start ∧ fates start).
  { split; [apply inv_start|]. split; [apply then_start | apply fates_start]. }
  revert Hx. induction H as [|x y z Hxy _ IH]; [done|]. intros (Hi & Ht & Hf). apply IH.
  split; [by eapply inv_runs|]. split; [by eapply then_runs | by eapply fates_runs].
Qed.

Definition settled (w : world) (n : nat) (a : action) (dat : data) : Prop :=
  states w n = Some a ∧ Ran (main n a) (SetState n a) dat ∈ trace w.

Lemma started_settled x n a dat : inv x → idle x → n < deferreds (now x) → started (now x) n a dat → settled (now x) n a dat.
Proof.
  intros Hi Hid Hd Hs. assert (Es : states (now x) n = Some a).
  { rewrite (st_state _ _ _ _ Hs). destruct (in_deferreds _ Hi n Hd) as [[Hp|(a' & dat' & Hs' & Hj)]|(a' & dat' & _ & _ & E)].
    - by destruct (pending_not_started _ _ _ _ Hp Hs).
    - destruct (started_unique _ _ _ _ _ _ Hs' Hs) as [-> _]. destruct (Nat.leb_spec 1 (called (now x) n a')); [done | lia].
    - destruct Hid as (_ & v & [Ev|Ev]); congruence. }
  split; [done|]. destruct (started_of_state x n a Hi Hd Es) as (dat' & Hs' & Hr).
  destruct (started_unique _ _ _ _ _ _ Hs Hs') as [_ ->]. by apply elem_runs.
Qed.

(** C34. The deferred that a call of [then] returns is settled by the answer of the
    handler and by nothing else: before a handler has been called it is pending, and when
    a called one has ended and nothing runs, what it threw has rejected the deferred, what
    it returned has resolved it (the data it got, if it was missing), and its own promise
    has rejected it with a TypeError. When the handler returned another object with a
    method [then], such as a promise, nothing is said: that object decides, and may leave
    the deferred pending. *)
Theorem then_settles_result c ch x :
  reachable page x → chains (now x) !! c = Some ch → let n := newDefer ch in
  (chain_handled c (now x) = [] → states (now x) n = None) ∧
  (∀ t, t ∈ chain_handled c (now x) → idle x →
     (∃ e, Threw t e ∈ trace (now x) ∧ settled (now x) n Reject (reject_data t e)) ∨
     (∃ v, Answered t v ∈ trace (now x) ∧
        if decide (v = Promise n) then settled (now x) n Reject (reject_data t TypeError)
        else is_thenable v = true ∨ settled (now x) n Resolve (resolve_data t v))).
Proof.
  intros Hx Ech n. destruct (reachable_fates x Hx) as (Hi & Ht & Hf).
  pose proof (kind_born _ _ _ (chain_kind x Hi c ch Ech)) as Hn. pose proof (started_settled x n) as Hset.
  assert (Hin : ∀ t, t ∈ chain_handled c (now x) ↔ Handled t ∈ trace (now x) ∧ normal t ∧ t_chain t = c).
  { intros t. unfold chain_handled, normals, handled_of. rewrite !list_elem_of_filter, list_elem_of_omap. split.
    - intros (Hc & Hnt & e & He & E). destruct e; simplify_eq. done.
    - intros (He & Hnt & Hc). repeat (split; [done|]). by exists (Handled t). }
  destruct (fa_chains _ Hf c ch Ech) as [Hno Hp|t Hh Hnt Hc Hcase].
  - split; [intros _; apply Hp|]. intros t (He & Hnt & Hc)%Hin _. by destruct (Hno t).
  - split.
    { intros E. assert (Hnil : t ∈ chain_handled c (now x)) by by apply Hin. rewrite E in Hnil. by apply elem_of_nil in Hnil. }
    intros t' (Hh' & Hnt' & Hc')%Hin Hid. assert (t' = t) as -> by (apply (handled_unique x (waits x)); try done; [apply Ht | congruence]).
    destruct Hcase as [(Hst & _)|[(_ & _ & (st & Hst) & _)|[(e & He & Hs)|(v & Hv & Hs)]]].
    + rewrite (proj1 Hid) in Hst. by apply elem_of_nil in Hst.
    + by rewrite (proj1 Hid) in Hst.
    + left. exists e. split; [done|]. by apply Hset.
    + right. exists v. split; [done|]. destruct (decide _); [by apply Hset|].
      destruct (is_thenable v); [by left | right]. by apply Hset.
Qed.
End machine.

(** The handler has returned 8, and the deferred of the result is resolved with it. *)
Lemma then_settles_result_witness :
  ∃ v, Answered (Task 0 Resolve (Calls (Page 0)) (Undefined, [Plain 7])) v ∈ trace (now (demo 3 300)) ∧
    settled (now (demo 3 300)) 1 Resolve (Undefined, [Plain 8]).
Proof.
  exists (Plain 8). split; [computed|].
  destruct (then_settles_result demo_page 0 (Chain 0 0 1) (demo 3 300)) as [_ H].
  - apply demo_reachable.
  - by vm_compute.
  - destruct (H (Task 0 Resolve (Calls (Page 0)) (Undefined, [Plain 7]))) as [(e & He & _)|(v & Hv & Hs)].
    + computed.
    + by apply idle_run.
    + exfalso. revert He. vm_compute. intros He. repeat (apply elem_of_cons in He as [[=]|He]). by apply elem_of_nil in He.
    + assert (v = Plain 8) as ->.
      { revert Hv. vm_compute. intros Hv. repeat (apply elem_of_cons in Hv as [Hv|Hv]; [by simplify_eq|]). by apply elem_of_nil in Hv. }
      rewrite decide_False in Hs by done. destruct Hs as [|Hs]; [done | exact Hs].
Defined.
