(* ===== verification/JsString.v ===== *)
(** * Strings and numbers of JavaScript

    The part of the language's strings and number syntax the components use:
    strings are sequences of code units below 256, [\s] and [trim] follow the
    white space of that range, and [Number(s)] reads decimal literals. *)
From stdpp Require Import base strings list.
From Stdlib Require Import Ascii ZArith QArith Lia.
From S2P Require Import Prelude.

Local Open Scope nat_scope.

(** ** Characters *)

Definition code (c : ascii) : nat := nat_of_ascii c.

(** White space and line terminators below 256: tab to carriage return, space
    and no-break space. *)
Definition is_space (c : ascii) : bool :=
  let n := code c in ((9 <=? n) && (n <=? 13)) || (n =? 32) || (n =? 160).

Definition is_digit (c : ascii) : bool :=
  let n := code c in (48 <=? n) && (n <=? 57).

Definition digit_value (c : ascii) : Z := Z.of_nat (code c) - 48.

Definition is_upper (c : ascii) : bool := let n := code c in (65 <=? n) && (n <=? 90).
Definition is_lower (c : ascii) : bool := let n := code c in (97 <=? n) && (n <=? 122).
Definition is_alpha (c : ascii) : bool := is_upper c || is_lower c.

(** [\w] *)
Definition is_word (c : ascii) : bool := is_alpha c || is_digit c || (code c =? 95).

Definition to_upper (c : ascii) : ascii :=
  if is_lower c then ascii_of_nat (code c - 32) else c.
Definition to_lower (c : ascii) : ascii :=
  if is_upper c then ascii_of_nat (code c + 32) else c.

(** [c.toUpperCase()]: sharp s has two capitals; the micro sign and y with
    diaeresis, whose capitals are above 255, stay. *)
Definition upper_of (c : ascii) : list ascii :=
  let n := code c in
  if is_lower c || ((224 <=? n) && (n <=? 254) && negb (n =? 247)) then [ascii_of_nat (n - 32)]
  else if n =? 223 then ["S"; "S"]%char else [c].

(** ** Strings as lists of characters *)

Abbreviation chars := (list ascii).

Definition chars_of (s : string) : chars := String.list_ascii_of_string s.
Definition string_of (l : chars) : string := String.string_of_list_ascii l.

Definition toUpperCase (l : chars) : chars := mjoin (upper_of <$> l).

Lemma chars_of_string_of l : chars_of (string_of l) = l.
Proof. apply String.list_ascii_of_string_of_list_ascii. Qed.
Lemma string_of_chars_of s : string_of (chars_of s) = s.
Proof. apply String.string_of_list_ascii_of_string. Qed.

Definition trim (l : chars) : chars :=
  rev (drop_while is_space (rev (drop_while is_space l))).

(** [s.split(c)] for a one-character separator. *)
Fixpoint split_on (c : ascii) (l : chars) : list chars :=
  match l with
  | [] => [[]]
  | x :: l' =>
      let rest := split_on c l' in
      if bool_decide (x = c) then [] :: rest
      else match rest with
           | [] => [[x]]
           | w :: ws => (x :: w) :: ws
           end
  end.

Lemma split_on_nonempty c l : split_on c l ≠ [].
Proof.
  destruct l as [|x l]; simpl; [done|]. case_bool_decide; [done|].
  by destruct (split_on c l).
Qed.

(** [l.join(sep)] *)
Fixpoint join (sep : chars) (l : list chars) : chars :=
  match l with
  | [] => []
  | [w] => w
  | w :: l' => w ++ sep ++ join sep l'
  end.

Lemma join_split_on c l : join [c] (split_on c l) = l.
Proof.
  induction l as [|x l IH]; simpl; [done|].
  pose proof (split_on_nonempty c l).
  case_bool_decide as Hx; destruct (split_on c l) as [|w ws]; try done; simpl in *.
  - by subst.
  - destruct ws; simpl in *; congruence.
Qed.

(** ** Numbers *)

(** The value of a run of decimal digits. *)
Fixpoint digits_value (acc : Z) (l : chars) : Z :=
  match l with
  | [] => acc
  | c :: l' => digits_value (acc * 10 + digit_value c) l'
  end.

Fixpoint ten_to (n : nat) : positive :=
  match n with 0 => 1%positive | S n' => (10 * ten_to n')%positive end.

(** A decimal literal without a sign: digits, an optional point and digits,
    at least one digit in all.  The value and what follows. *)
Definition parse_unsigned (l : chars) : option (Q * chars) :=
  let ip := take_while is_digit l in
  let rest := drop_while is_digit l in
  match rest with
  | "."%char :: rest' =>
      let fp := take_while is_digit rest' in
      let rest'' := drop_while is_digit rest' in
      match ip, fp with
      | [], [] => None
      | _, _ => Some (Qmake (digits_value 0 (ip ++ fp)) (ten_to (length fp)), rest'')
      end
  | _ => match ip with [] => None | _ => Some (Qmake (digits_value 0 ip) 1, rest) end
  end.

Definition parse_signed (l : chars) : option (Q * chars) :=
  match l with
  | "-"%char :: l' => '(q, rest) ← parse_unsigned l'; Some (Qopp q, rest)
  | "+"%char :: l' => parse_unsigned l'
  | _ => parse_unsigned l
  end.

(** The exponent part [e+12]; what does not parse as one is left alone. *)
Definition apply_exponent (q : Q) (l : chars) : Q * chars :=
  match l with
  | c :: l' =>
      if bool_decide (to_lower c = "e"%char) then
        let '(neg, l'') :=
          match l' with
          | "-"%char :: r => (true, r)
          | "+"%char :: r => (false, r)
          | _ => (false, l')
          end in
        match take_while is_digit l'' with
        | [] => (q, l)
        | ds =>
            let k := Z.to_nat (digits_value 0 ds) in
            ((if neg : bool then Qmult q (Qmake 1 (ten_to k))
              else Qmult q (Qmake (Zpos (ten_to k)) 1)), drop_while is_digit l'')
        end
      else (q, l)
  | [] => (q, [])
  end.

(** [Number(s)] on decimal literals: [None] is [NaN].  The hexadecimal, octal
    and binary literals and [Infinity] are read as [NaN] here. *)
Definition Number (l : chars) : option Q :=
  match trim l with
  | [] => Some 0%Q
  | l' =>
      '(q, rest) ← parse_signed l';
      match apply_exponent q rest with
      | (q', []) => Some q'
      | _ => None
      end
  end.

(** [parseFloat(s)]: the longest prefix that is a decimal literal. *)
Definition parseFloat (l : chars) : option Q :=
  '(q, rest) ← parse_signed (drop_while is_space l);
  Some (fst (apply_exponent q rest)).

Example Number_ex1 : Number (chars_of " -12.50 ") = Some (Qmake (-1250) 100).
Proof. reflexivity. Qed.
Example Number_ex2 : Number (chars_of "12px") = None.
Proof. reflexivity. Qed.
Example parseFloat_ex : parseFloat (chars_of "12px") = Some (Qmake 12 1).
Proof. reflexivity. Qed.

(** ** Searching and replacing *)

Fixpoint is_prefix (p l : chars) : bool :=
  match p, l with
  | [], _ => true
  | c :: p', d :: l' => bool_decide (c = d) && is_prefix p' l'
  | _ :: _, [] => false
  end.

(** [/p/.test(l)] for a literal [p] *)
Fixpoint contains (p l : chars) : bool :=
  is_prefix p l || match l with [] => false | _ :: l' => contains p l' end.

(** [l.replace(/p/g, rep)] for a literal [p]; [skip] characters of a match are
    still to be dropped. *)
Fixpoint replace_from (p rep : chars) (skip : nat) (l : chars) : chars :=
  match l with
  | [] => []
  | c :: l' =>
      match skip with
      | S skip' => replace_from p rep skip' l'
      | 0 => if is_prefix p l then rep ++ replace_from p rep (length p - 1) l'
             else c :: replace_from p rep 0 l'
      end
  end.
Definition replace_all (p rep l : chars) : chars := replace_from p rep 0 l.

(** [l.lastIndexOf(c)] *)
Fixpoint last_index_of (c : ascii) (l : chars) : option nat :=
  match l with
  | [] => None
  | x :: l' =>
      match last_index_of c l' with
      | Some i => Some (S i)
      | None => if bool_decide (x = c) then Some 0 else None
      end
  end.

(** [l.split(/[sep]+/)] and [l.split(/[sep]/)] *)
Fixpoint split_by (sep : ascii → bool) (l : chars) : list chars :=
  match l with
  | [] => [[]]
  | x :: l' =>
      let rest := split_by sep l' in
      if sep x then [] :: rest
      else match rest with [] => [[x]] | w :: ws => (x :: w) :: ws end
  end.

Fixpoint split_runs (sep : ascii → bool) (in_run : bool) (l : chars) : list chars :=
  match l with
  | [] => [[]]
  | x :: l' =>
      if sep x then
        if in_run then split_runs sep true l' else [] :: split_runs sep true l'
      else match split_runs sep false l' with [] => [[x]] | w :: ws => (x :: w) :: ws end
  end.

(** The order of strings: by code units, a prefix first. *)
Fixpoint chars_leb (a b : chars) : bool :=
  match a, b with
  | [], _ => true
  | _ :: _, [] => false
  | x :: a', y :: b' =>
      if code x <? code y then true else if code y <? code x then false else chars_leb a' b'
  end.

Example replace_all_ex :
  string_of (replace_all (chars_of "{0}") (chars_of "5") (chars_of "at {0}, {0}")) = "at 5, 5".
Proof. reflexivity. Qed.
Example split_runs_ex :
  string_of <$> split_runs (λ c, is_space c || bool_decide (c = ","%char)) false (chars_of "3, 7")
  = ["3"; "7"].
Proof. reflexivity. Qed.

(** ** Numbers as strings *)

Definition digit_char (d : Z) : ascii := ascii_of_nat (48 + Z.to_nat d).

(** The decimal digits of a natural number, [n] of them. *)
Fixpoint digits_of (n : nat) (z : Z) (acc : chars) : chars :=
  match n with
  | 0 => acc
  | S n' => digits_of n' (z / 10) (digit_char (z mod 10) :: acc)
  end.

Fixpoint count_digits (fuel : nat) (z : Z) : nat :=
  match fuel with
  | 0 => 1
  | S fuel' => if (z <? 10)%Z then 1 else S (count_digits fuel' (z / 10))
  end.

Definition natural_string (z : Z) : chars :=
  digits_of (count_digits (Z.to_nat (Z.log2 (z + 1))) z) z [].

(** The number of decimals of [z / d], at most [fuel]. *)
Fixpoint decimals_of (fuel : nat) (z : Z) (d : Z) : nat :=
  match fuel with
  | 0 => 0
  | S fuel' => if (z mod d =? 0)%Z then 0 else S (decimals_of fuel' (z * 10) d)
  end.

(** [String(q)] for a number that is a finite decimal of the range JavaScript
    prints without an exponent. *)
Definition number_string (q : Q) : chars :=
  let n := Z.abs (Qnum q) in
  let d := Zpos (Qden q) in
  let k := decimals_of 20 n d in
  let scaled := (n * Zpos (ten_to k) / d)%Z in
  (if (Qnum q <? 0)%Z then ["-"%char] else []) ++
  natural_string (scaled / Zpos (ten_to k)) ++
  (if Nat.eqb k 0 then [] else "."%char :: digits_of k (scaled mod Zpos (ten_to k)) []).

Example number_string_ex :
  string_of (number_string (Qmake (-1250) 1000)) = "-1.25" ∧
  string_of (number_string (Qmake 524288 1)) = "524288" ∧ string_of (number_string 0) = "0".
Proof. split_and!; reflexivity. Qed.

(** ** Facts about characters *)

Lemma code_inj a b : code a = code b → a = b.
Proof.
  unfold code. intros H. rewrite <-(ascii_nat_embedding a), <-(ascii_nat_embedding b). by rewrite H.
Qed.

Lemma is_digit_code c : is_digit c = true ↔ 48 ≤ code c ≤ 57.
Proof. unfold is_digit. rewrite andb_true_iff, !Nat.leb_le. done. Qed.

Definition all_digits (l : chars) : Prop := Forall (λ c, is_digit c = true) l.

Lemma digits_value_app acc l k : digits_value acc (l ++ k) = digits_value (digits_value acc l) k.
Proof. revert acc. induction l as [|c l IH]; intros acc; simpl; [done|]. by rewrite IH. Qed.

Lemma digit_range c : is_digit c = true → (0 ≤ digit_value c < 10)%Z.
Proof. rewrite is_digit_code. unfold digit_value. lia. Qed.

Lemma digit_value_inj c d :
  is_digit c = true → is_digit d = true → digit_value c = digit_value d → c = d.
Proof.
  rewrite !is_digit_code. unfold digit_value. intros ? ? E. apply code_inj. lia.
Qed.
