(* ===== verification/PopperDom.v ===== *)
(** * Popper: measuring the document

    Models popper.js (EQueue.AdminWeb/Scripts), lines 83-660: the helpers that
    walk the element tree and compute rectangles.  The browser is the record
    [Dom]: the tree, the computed styles and the layout numbers the code reads.
    Coordinates are rationals: the code adds, subtracts and halves pixel
    numbers, which doubles represent exactly in the ranges a page has. *)
From stdpp Require Import base strings list.
From Stdlib Require Import QArith Qminmax Qround Lqa.
From S2P Require Import Prelude.

Local Open Scope Q_scope.

Definition Qltb (a b : Q) : bool := negb (Qle_bool b a).

Lemma Qltb_lt a b : Qltb a b = true ↔ a < b.
Proof.
  unfold Qltb. rewrite negb_true_iff, <-not_true_iff_false, Qle_bool_iff.
  split; [apply Qnot_le_lt|apply Qlt_not_le].
Qed.

Lemma Qltb_ge a b : Qltb a b = false ↔ b <= a.
Proof.
  unfold Qltb. rewrite negb_false_iff. apply Qle_bool_iff.
Qed.

Lemma Qltb_spec a b : BoolSpec (a < b) (b <= a) (Qltb a b).
Proof.
  destruct (Qltb a b) eqn:E; constructor; [by apply Qltb_lt|by apply Qltb_ge].
Qed.

(** JavaScript's truthiness of a number. *)
Definition truthy (q : Q) : bool := negb (Qeq_bool q 0).
(** [a || b] on numbers. *)
Definition num_or (a b : Q) : Q := if truthy a then a else b.

(** ** Rectangles *)

Record rect := Rect {
  r_top : Q; r_left : Q; r_width : Q; r_height : Q; r_right : Q; r_bottom : Q
}.

(** An object with only [top], [left], [width] and [height]. *)
Record box := Box { x_top : Q; x_left : Q; x_width : Q; x_height : Q }.

(** [getClientRect]: [_extends({}, offsets, {right, bottom})]. *)
Definition getClientRect (o : box) : rect :=
  Rect (x_top o) (x_left o) (x_width o) (x_height o)
    (x_left o + x_width o) (x_top o + x_height o).

(** The four properties [getClientRect] reads of a full rectangle. *)
Definition box_of (r : rect) : box := Box (r_top r) (r_left r) (r_width r) (r_height r).

Definition refresh (r : rect) : rect := getClientRect (box_of r).

(** The result of [getOffsetRectRelativeToArbitraryNode]: a rectangle with
    [marginTop] and [marginLeft]. *)
Record offset_rect := OffsetRect {
  o_rect : rect; o_marginTop : Q; o_marginLeft : Q
}.

(** ** The browser *)

Record Dom (node : Type) := {
  (** the tree *)
  nodeName : node → string;
  nodeType : node → nat;
  parentNode : node → option node;
  host : node → option node;
  parentElement : node → option node;
  nextElementSibling : node → option node;
  firstElementChild : node → option node;
  contains : node → node → bool;
  (** [compareDocumentPosition(..) & DOCUMENT_POSITION_FOLLOWING] *)
  following : node → node → bool;
  (** [Range.commonAncestorContainer] *)
  commonAncestorContainer : node → node → node;
  (** documents: the global one and the owner of a node *)
  document_body : node;
  document_documentElement : node;
  ownerDocument_body : node → node;
  ownerDocument_documentElement : node → node;
  ownerDocument_scrollingElement : node → option node;
  (** [element.body] of a node named [#document] *)
  document_node_body : node → node;
  (** computed styles: keywords, and lengths as [parseFloat] reads them *)
  computedStyle : node → string → string;
  styleFloat : node → string → Q;
  (** layout *)
  offsetParent : node → option node;
  scrollTop : node → Q;
  scrollLeft : node → Q;
  clientWidth : node → Q;
  clientHeight : node → Q;
  offsetWidth : node → Q;
  offsetHeight : node → Q;
  scrollWidth : node → Q;
  scrollHeight : node → Q;
  (** [element.getBoundingClientRect()] *)
  boundingClientRect : node → rect;
  window_innerWidth : Q;
  window_innerHeight : Q;
  (** browser detection *)
  isIE10 : bool;
  isIE11 : bool
}.

Arguments nodeName {node}.
Arguments nodeType {node}.
Arguments parentNode {node}.
Arguments host {node}.
Arguments parentElement {node}.
Arguments nextElementSibling {node}.
Arguments firstElementChild {node}.
Arguments contains {node}.
Arguments following {node}.
Arguments commonAncestorContainer {node}.
Arguments document_body {node}.
Arguments document_documentElement {node}.
Arguments ownerDocument_body {node}.
Arguments ownerDocument_documentElement {node}.
Arguments ownerDocument_scrollingElement {node}.
Arguments document_node_body {node}.
Arguments computedStyle {node}.
Arguments styleFloat {node}.
Arguments offsetParent {node}.
Arguments scrollTop {node}.
Arguments scrollLeft {node}.
Arguments clientWidth {node}.
Arguments clientHeight {node}.
Arguments offsetWidth {node}.
Arguments offsetHeight {node}.
Arguments scrollWidth {node}.
Arguments scrollHeight {node}.
Arguments boundingClientRect {node}.
Arguments window_innerWidth {node}.
Arguments window_innerHeight {node}.
Arguments isIE10 {node}.
Arguments isIE11 {node}.

(** [Math.max(..)] of several numbers. *)
Definition Qmax_list (l : list Q) (d : Q) : Q := fold_left Qmax l d.

Section dom.
Context {nodeD : Type} `{EqDecision nodeD}.
Variable D : Dom nodeD.
Implicit Types n el : nodeD.

Definition name_is (n : nodeD) (s : string) : bool := bool_decide (nodeName D n = s).

(** [getStyleComputedProperty(element, property)]; [None] is [undefined],
    read off the empty array returned for a node that is not an element. *)
Definition getStyleComputedProperty (el : nodeD) (property : string) : option string :=
  if negb (Nat.eqb (nodeType D el) 1) then None
  else Some (computedStyle D el property).

Definition getParentNode (el : nodeD) : option nodeD :=
  if name_is el "HTML" then Some el
  else match parentNode D el with
       | Some p => Some p
       | None => host D el
       end.

(** [/(auto|scroll|overlay)/.test(s)] *)
Fixpoint is_prefix_of (p s : string) : bool :=
  match p, s with
  | EmptyString, _ => true
  | String a p', String b s' => bool_decide (a = b) && is_prefix_of p' s'
  | String _ _, EmptyString => false
  end.

Fixpoint contains_string (p s : string) : bool :=
  is_prefix_of p s ||
  match s with EmptyString => false | String _ s' => contains_string p s' end.

Definition undefined_string (o : option string) : string := default "undefined" o.

Definition scrolls (el : nodeD) : bool :=
  let overflow := undefined_string (getStyleComputedProperty el "overflow") in
  let overflowX := undefined_string (getStyleComputedProperty el "overflowX") in
  let overflowY := undefined_string (getStyleComputedProperty el "overflowY") in
  let s := (overflow +:+ overflowY +:+ overflowX)%string in
  contains_string "auto" s || contains_string "scroll" s || contains_string "overlay" s.

(** [getScrollParent(element)]; an absent element is [None].  The recursion
    climbs the tree, [fuel] bounds the climb. *)
Fixpoint getScrollParent (fuel : nat) (el : option nodeD) : option nodeD :=
  match el with
  | None => Some (document_body D)
  | Some el =>
      if name_is el "HTML" || name_is el "BODY" then Some (ownerDocument_body D el)
      else if name_is el "#document" then Some (document_node_body D el)
      else if scrolls el then Some el
      else match fuel with
           | O => None
           | S fuel' => getScrollParent fuel' (getParentNode el)
           end
  end.

Definition isIE (version : option nat) : bool :=
  match version with
  | Some 11%nat => isIE11 D
  | Some 10%nat => isIE10 D
  | _ => isIE11 D || isIE10 D
  end.

(** The loop [while (offsetParent === noOffsetParent &&
    element.nextElementSibling)]: the element reached and its offset
    parent.  [fuel] bounds the walk through the siblings. *)
Fixpoint skip_hidden (fuel : nat) (noOffsetParent : option nodeD) (el : nodeD)
    : option (nodeD * option nodeD) :=
  if bool_decide (offsetParent D el = noOffsetParent) then
    match nextElementSibling D el with
    | Some el' =>
        match fuel with O => None | S fuel' => skip_hidden fuel' noOffsetParent el' end
    | None => Some (el, offsetParent D el)
    end
  else Some (el, offsetParent D el).

(** [getOffsetParent(element)]: [fuel] bounds the climb through tables and
    the walk through the siblings. *)
Fixpoint getOffsetParent (fuel : nat) (el : option nodeD) : option nodeD :=
  match el with
  | None => Some (document_documentElement D)
  | Some el =>
      let noOffsetParent := if isIE (Some 10%nat) then Some (document_body D) else None in
      '(el, op) ← skip_hidden fuel noOffsetParent el;
      match op with
      | None => Some (ownerDocument_documentElement D el)
      | Some p =>
          if bool_decide (nodeName D p = "") || name_is p "BODY" || name_is p "HTML"
          then Some (ownerDocument_documentElement D el)
          else if (name_is p "TD" || name_is p "TABLE") &&
                  bool_decide (getStyleComputedProperty p "position" = Some "static")
          then match fuel with
               | O => None
               | S fuel' => getOffsetParent fuel' (Some p)
               end
          else Some p
      end
  end.

Definition isOffsetContainer (fuel : nat) (el : nodeD) : option bool :=
  if name_is el "BODY" then Some false
  else if name_is el "HTML" then Some true
  else p ← getOffsetParent fuel (firstElementChild D el);
       Some (bool_decide (p = el)).

Fixpoint getRoot (fuel : nat) (n : nodeD) : option nodeD :=
  match parentNode D n with
  | Some p => match fuel with O => None | S fuel' => getRoot fuel' p end
  | None => Some n
  end.

(** [!element || !element.nodeType] *)
Definition not_a_node (el : option nodeD) : bool :=
  match el with None => true | Some el => Nat.eqb (nodeType D el) 0 end.

(** [findCommonOffsetParent]; [fuel] bounds the climb out of nested shadow
    trees. *)
Fixpoint findCommonOffsetParent (fuel : nat) (e1 e2 : option nodeD) : option nodeD :=
  if not_a_node e1 || not_a_node e2 then Some (document_documentElement D)
  else
    match e1, e2 with
    | Some e1, Some e2 =>
        let order := following D e1 e2 in
        let start := if order then e1 else e2 in
        let end_ := if order then e2 else e1 in
        let common := commonAncestorContainer D start end_ in
        if (bool_decide (e1 ≠ common) && bool_decide (e2 ≠ common)) ||
           contains D start end_ then
          is_container ← isOffsetContainer fuel common;
          if is_container : bool then Some common
          else getOffsetParent fuel (Some common)
        else
          match fuel with
          | O => None
          | S fuel' =>
              match getRoot fuel' e1 with
              | None => None
              | Some root1 =>
                  match host D root1 with
                  | Some h => findCommonOffsetParent fuel' (Some h) (Some e2)
                  | None =>
                      match getRoot fuel' e2 with
                      | None => None
                      | Some root2 =>
                          findCommonOffsetParent fuel' (Some e1) (host D root2)
                      end
                  end
              end
          end
    | _, _ => Some (document_documentElement D)
    end.

(** [getScroll(element, side)], [side] being ['top'] when [upper]. *)
Definition getScroll (el : nodeD) (upper : bool) : Q :=
  let read n := if upper then scrollTop D n else scrollLeft D n in
  if name_is el "BODY" || name_is el "HTML" then
    let html := ownerDocument_documentElement D el in
    read (default html (ownerDocument_scrollingElement D el))
  else read el.

Definition includeScroll (r : rect) (el : nodeD) (subtract : bool) : rect :=
  let st := getScroll el true in
  let sl := getScroll el false in
  let modifier := if subtract then -(1) else 1 in
  Rect (r_top r + st * modifier) (r_left r + sl * modifier) (r_width r) (r_height r)
    (r_right r + sl * modifier) (r_bottom r + st * modifier).

(** [getBordersSize(styles, axis)], [axis] being ['x'] when [x]. *)
Definition getBordersSize (el : nodeD) (x : bool) : Q :=
  if x then styleFloat D el "borderLeftWidth" + styleFloat D el "borderRightWidth"
  else styleFloat D el "borderTopWidth" + styleFloat D el "borderBottomWidth".

(** [getSize(axis, body, html, computedStyle)], [axis] being ['Height'] when
    [height]. *)
Definition getSize (height : bool) (body html : nodeD) : Q :=
  let off n := if height then offsetHeight D n else offsetWidth D n in
  let scr n := if height then scrollHeight D n else scrollWidth D n in
  let cli n := if height then clientHeight D n else clientWidth D n in
  Qmax_list [scr body; cli html; off html; scr html;
    if isIE (Some 10%nat) then
      off html + styleFloat D html (if height then "marginTop" else "marginLeft")
               + styleFloat D html (if height then "marginBottom" else "marginRight")
    else 0] (off body).

(** [getWindowSizes()]: [(height, width)]. *)
Definition getWindowSizes : Q * Q :=
  let body := document_body D in
  let html := document_documentElement D in
  (getSize true body html, getSize false body html).

(** A number that may be [NaN]: [None]. *)
Abbreviation num := (option Q).
Definition num_truthy (n : num) : bool := match n with Some q => truthy q | None => false end.
Definition num_sub (a b : num) : num := x ← a; y ← b; Some (x - y).

(** [sizes.width || element.clientWidth || result.right - result.left]:
    [result.right] is not set yet, so the last alternative is [NaN]. *)
Definition client_size (size client : Q) : num :=
  if truthy size then Some size else if truthy client then Some client else None.

(** [getBoundingClientRect(element)]; [None] when a coordinate of the result
    is [NaN]. *)
Definition getBoundingClientRect (el : nodeD) : option rect :=
  let raw := boundingClientRect D el in
  let rect0 :=
    if isIE (Some 10%nat) then
      let st := getScroll el true in
      let sl := getScroll el false in
      Rect (r_top raw + st) (r_left raw + sl) (r_width raw) (r_height raw)
        (r_right raw + sl) (r_bottom raw + st)
    else raw in
  let res_width := r_right rect0 - r_left rect0 in
  let res_height := r_bottom rect0 - r_top rect0 in
  let '(h_size, w_size) := if name_is el "HTML" then getWindowSizes else (0, 0) in
  let width := client_size w_size (clientWidth D el) in
  let height := client_size h_size (clientHeight D el) in
  let horizScrollbar := num_sub (Some (offsetWidth D el)) width in
  let vertScrollbar := num_sub (Some (offsetHeight D el)) height in
  if num_truthy horizScrollbar || num_truthy vertScrollbar then
    hs ← num_sub horizScrollbar (Some (getBordersSize el true));
    vs ← num_sub vertScrollbar (Some (getBordersSize el false));
    Some (getClientRect (Box (r_top rect0) (r_left rect0)
      (res_width - hs) (res_height - vs)))
  else Some (getClientRect (Box (r_top rect0) (r_left rect0) res_width res_height)).

Definition shift_rect (r : rect) (dy dx : Q) : rect :=
  Rect (r_top r - dy) (r_left r - dx) (r_width r) (r_height r)
    (r_right r - dx) (r_bottom r - dy).

(** [getOffsetRectRelativeToArbitraryNode(children, parent, fixedPosition)] *)
Definition getOffsetRectRelativeToArbitraryNode (fuel : nat)
    (children parent : nodeD) (fixedPosition : bool) : option offset_rect :=
  let isIE10 := isIE (Some 10%nat) in
  let isHTML := name_is parent "HTML" in
  childrenRect ← getBoundingClientRect children;
  parentRect ← getBoundingClientRect parent;
  scrollParent ← getScrollParent fuel (Some children);
  let borderTopWidth := styleFloat D parent "borderTopWidth" in
  let borderLeftWidth := styleFloat D parent "borderLeftWidth" in
  let clamp := fixedPosition && name_is parent "HTML" in
  let parent_top := if clamp then Qmax (r_top parentRect) 0 else r_top parentRect in
  let parent_left := if clamp then Qmax (r_left parentRect) 0 else r_left parentRect in
  let offsets := getClientRect (Box
    (r_top childrenRect - parent_top - borderTopWidth)
    (r_left childrenRect - parent_left - borderLeftWidth)
    (r_width childrenRect) (r_height childrenRect)) in
  let '(offsets, marginTop, marginLeft) :=
    if negb isIE10 && isHTML then
      let marginTop := styleFloat D parent "marginTop" in
      let marginLeft := styleFloat D parent "marginLeft" in
      (shift_rect offsets (borderTopWidth - marginTop) (borderLeftWidth - marginLeft),
       marginTop, marginLeft)
    else (offsets, 0, 0) in
  let scroll :=
    if isIE10 && negb fixedPosition then contains D parent scrollParent
    else bool_decide (parent = scrollParent) && negb (name_is scrollParent "BODY") in
  Some (OffsetRect (if scroll then includeScroll offsets parent false else offsets)
          marginTop marginLeft).

(** [getViewportOffsetRectRelativeToArtbitraryNode(element, excludeScroll)] *)
Definition getViewportOffsetRectRelativeToArtbitraryNode (fuel : nat)
    (el : nodeD) (excludeScroll : bool) : option rect :=
  let html := ownerDocument_documentElement D el in
  relativeOffset ← getOffsetRectRelativeToArbitraryNode fuel el html false;
  let width := Qmax (clientWidth D html) (num_or (window_innerWidth D) 0) in
  let height := Qmax (clientHeight D html) (num_or (window_innerHeight D) 0) in
  let st := if negb excludeScroll then getScroll html true else 0 in
  let sl := if negb excludeScroll then getScroll html false else 0 in
  Some (getClientRect (Box
    (st - r_top (o_rect relativeOffset) + o_marginTop relativeOffset)
    (sl - r_left (o_rect relativeOffset) + o_marginLeft relativeOffset)
    width height)).

(** [isFixed(element)]; [None] past the fuel, or past the root, where reading
    [nodeName] of [undefined] throws. *)
Fixpoint isFixed (fuel : nat) (el : nodeD) : option bool :=
  if name_is el "BODY" || name_is el "HTML" then Some false
  else if bool_decide (getStyleComputedProperty el "position" = Some "fixed") then Some true
  else match fuel with
       | O => None
       | S fuel' => p ← getParentNode el; isFixed fuel' p
       end.

(** The loop over [parentElement] while there is no transform: [Some None]
    when it runs off the root, [None] past the fuel. *)
Fixpoint climb_untransformed (fuel : nat) (el : option nodeD) : option (option nodeD) :=
  match el with
  | None => Some None
  | Some el =>
      if bool_decide (getStyleComputedProperty el "transform" = Some "none") then
        match fuel with
        | O => None
        | S fuel' => climb_untransformed fuel' (parentElement D el)
        end
      else Some (Some el)
  end.

Definition getFixedPositionOffsetParent (fuel : nat) (el : option nodeD) : option nodeD :=
  match el with
  | None => Some (document_documentElement D)
  | Some el =>
      match parentElement D el with
      | None => Some (document_documentElement D)
      | Some p =>
          if isIE None then Some (document_documentElement D)
          else el' ← climb_untransformed fuel (Some p);
               Some (default (document_documentElement D) el')
      end
  end.

(** The [boundariesElement] option. *)
Inductive boundaries_element :=
  | BViewport | BScrollParent | BWindow | BElement (n : nodeD).

(** Boundaries: [width] and [height] are absent ([None]) in the [HTML]
    case. *)
Record bounds := Bounds {
  b_top : Q; b_left : Q; b_right : Q; b_bottom : Q;
  b_width : option Q; b_height : option Q
}.

Definition bounds_of_rect (r : rect) : bounds :=
  Bounds (r_top r) (r_left r) (r_right r) (r_bottom r)
    (Some (r_width r)) (Some (r_height r)).

Definition pad_bounds (padding : Q) (b : bounds) : bounds :=
  Bounds (b_top b + padding) (b_left b + padding)
    (b_right b - padding) (b_bottom b - padding) (b_width b) (b_height b).

Definition getBoundaries (fuel : nat) (popper reference : nodeD) (padding : Q)
    (boundariesElement : boundaries_element) (fixedPosition : bool) : option bounds :=
  offsetParent ←
    (if fixedPosition then getFixedPositionOffsetParent fuel (Some popper)
     else findCommonOffsetParent fuel (Some popper) (Some reference));
  boundaries ←
    match boundariesElement with
    | BViewport =>
        bounds_of_rect <$>
          getViewportOffsetRectRelativeToArtbitraryNode fuel offsetParent fixedPosition
    | _ =>
        boundariesNode ←
          match boundariesElement with
          | BScrollParent =>
              n ← getScrollParent fuel (getParentNode reference);
              Some (if name_is n "BODY" then ownerDocument_documentElement D popper else n)
          | BElement n => Some n
          | _ => Some (ownerDocument_documentElement D popper)
          end;
        offsets ← getOffsetRectRelativeToArbitraryNode fuel boundariesNode offsetParent
                    fixedPosition;
        fixed ← (if name_is boundariesNode "HTML" then isFixed fuel offsetParent
                 else Some true);
        if negb fixed then
          let '(height, width) := getWindowSizes in
          let o := o_rect offsets in
          Some (Bounds (0 + (r_top o - o_marginTop offsets))
                  (0 + (r_left o - o_marginLeft offsets))
                  (width + r_left o) (height + r_top o) None None)
        else Some (bounds_of_rect (o_rect offsets))
    end;
  Some (pad_bounds padding boundaries).

(** [getReferenceOffsets(state, popper, reference, fixedPosition)] *)
Definition getReferenceOffsets (fuel : nat) (popper reference : nodeD)
    (fixedPosition : bool) : option offset_rect :=
  commonOffsetParent ←
    (if fixedPosition then getFixedPositionOffsetParent fuel (Some popper)
     else findCommonOffsetParent fuel (Some popper) (Some reference));
  getOffsetRectRelativeToArbitraryNode fuel reference commonOffsetParent fixedPosition.

(** [getOuterSizes(element)]: [(width, height)]. *)
Definition getOuterSizes (el : nodeD) : Q * Q :=
  let x := styleFloat D el "marginTop" + styleFloat D el "marginBottom" in
  let y := styleFloat D el "marginLeft" + styleFloat D el "marginRight" in
  (offsetWidth D el + y, offsetHeight D el + x).
End dom.

Arguments boundaries_element : clear implicits.
Arguments BViewport {nodeD}.
Arguments BScrollParent {nodeD}.
Arguments BWindow {nodeD}.
Arguments BElement {nodeD}.
