(* ===== verification/PopperPlacement.v ===== *)
(** * Popper: placements and offsets

    Models popper.js, lines 593-729 and 1315-1374: placement strings, opposite
    sides and variations, the automatic placement and the popper offsets that
    follow from a placement. *)
From stdpp Require Import base strings list sorting.
From Stdlib Require Import Ascii QArith Qminmax Qround Lqa.
From S2P Require Import Prelude JsString PopperDom.

Local Open Scope js_scope.
Local Open Scope Q_scope.

(** ** Placement strings *)

Definition split_dash (p : string) : list string :=
  string_of <$> split_on "-"%char (chars_of p).

(** [placement.split('-')[0]] *)
Definition basePlacement (p : string) : string := default "" (split_dash p !! 0%nat).
(** [placement.split('-')[1]]; [None] is [undefined]. *)
Definition variationOf (p : string) : option string := split_dash p !! 1%nat.

(** [variation ? `-${variation}` : ''] *)
Definition with_variation (base : string) (variation : option string) : string :=
  match variation with
  | None | Some EmptyString => base
  | Some v => (base +:+ "-" +:+ v)%string
  end.

Definition is_one_of (l : list string) (s : string) : bool := s ∈? l.

Inductive side := Top | Left | Right | Bottom.
Inductive measure := Width | Height.

#[export] Instance side_eq_dec : EqDecision side.
Proof. solve_decision. Defined.

Definition side_name (s : side) : string :=
  match s with Top => "top" | Left => "left" | Right => "right" | Bottom => "bottom" end.

Definition side_of (s : string) : option side :=
  if bool_decide (s = "top") then Some Top
  else if bool_decide (s = "left") then Some Left
  else if bool_decide (s = "right") then Some Right
  else if bool_decide (s = "bottom") then Some Bottom
  else None.

Definition opposite_side (s : side) : side :=
  match s with Top => Bottom | Bottom => Top | Left => Right | Right => Left end.

(** [rect[side]] and [rect[measurement]] *)
Definition get (r : rect) (s : side) : Q :=
  match s with Top => r_top r | Left => r_left r | Right => r_right r | Bottom => r_bottom r end.
Definition size (r : rect) (m : measure) : Q :=
  match m with Width => r_width r | Height => r_height r end.
(** [rect[side] = v] *)
Definition set (r : rect) (s : side) (v : Q) : rect :=
  match s with
  | Top => Rect v (r_left r) (r_width r) (r_height r) (r_right r) (r_bottom r)
  | Left => Rect (r_top r) v (r_width r) (r_height r) (r_right r) (r_bottom r)
  | Right => Rect (r_top r) (r_left r) (r_width r) (r_height r) v (r_bottom r)
  | Bottom => Rect (r_top r) (r_left r) (r_width r) (r_height r) (r_right r) v
  end.

(** [placement.replace(/left|right|bottom|top/g, matched => hash[matched])]:
    the leftmost match is replaced and the scan resumes after it. *)
Fixpoint opposite_scan (fuel : nat) (l : chars) : chars :=
  match fuel with
  | O => l
  | S fuel' =>
      match l with
      | [] => []
      | c :: l' =>
          match l with
          | "l"%char :: "e"%char :: "f"%char :: "t"%char :: r =>
              chars_of "right" ++ opposite_scan fuel' r
          | "r"%char :: "i"%char :: "g"%char :: "h"%char :: "t"%char :: r =>
              chars_of "left" ++ opposite_scan fuel' r
          | "b"%char :: "o"%char :: "t"%char :: "t"%char :: "o"%char :: "m"%char :: r =>
              chars_of "top" ++ opposite_scan fuel' r
          | "t"%char :: "o"%char :: "p"%char :: r =>
              chars_of "bottom" ++ opposite_scan fuel' r
          | _ => c :: opposite_scan fuel' l'
          end
      end
  end.

Definition getOppositePlacement (placement : string) : string :=
  let l := chars_of placement in string_of (opposite_scan (length l) l).

Definition getOppositeVariation (variation : string) : string :=
  if bool_decide (variation = "end") then "start"
  else if bool_decide (variation = "start") then "end"
  else variation.

Definition placements : list string :=
  ["auto-start"; "auto"; "auto-end"; "top-start"; "top"; "top-end";
   "right-start"; "right"; "right-end"; "bottom-end"; "bottom"; "bottom-start";
   "left-end"; "left"; "left-start"].

Definition validPlacements : list string := drop 3 placements.

(** [arr.indexOf(x)], [None] for -1 *)
Fixpoint index_of (l : list string) (x : string) : option nat :=
  match l with
  | [] => None
  | y :: l' => if bool_decide (y = x) then Some O else S <$> index_of l' x
  end.

(** [clockwise(placement, counter)]: [slice(index + 1)] and
    [slice(0, index)], [index] being -1 when the placement is not valid: then
    the whole list and the list without its last element. *)
Definition clockwise (placement : string) (counter : bool) : list string :=
  let arr :=
    match index_of validPlacements placement with
    | Some i => drop (S i) validPlacements ++ take i validPlacements
    | None => validPlacements ++ take (length validPlacements - 1) validPlacements
    end in
  if counter then rev arr else arr.

(** ** Automatic placement *)

Section auto.
(** One entry of [sortedAreas]: the area is [NaN] ([None]) when the width or
    the height is [undefined]. *)
Record area_entry := AreaEntry {
  a_key : string; a_width : option Q; a_height : option Q; a_area : option Q
}.

Definition getArea (width height : option Q) : option Q :=
  w ← width; h ← height; Some (w * h).

Definition area_entry_of (key : string) (width height : option Q) : area_entry :=
  AreaEntry key width height (getArea width height).

(** The comparator [(a, b) => b.area - a.area] puts [x] before [y]: the
    difference is positive; [NaN] compares as 0. *)
Definition area_after (y x : area_entry) : bool :=
  match a_area x, a_area y with
  | Some ax, Some ay => Qltb ay ax
  | _, _ => false
  end.

(** [sort] on the four entries, as the stable insertion sort. *)
Fixpoint insert_area (x : area_entry) (l : list area_entry) : list area_entry :=
  match l with
  | [] => [x]
  | y :: l' => if area_after y x then x :: l else y :: insert_area x l'
  end.

Definition sort_areas (l : list area_entry) : list area_entry :=
  fold_left (λ acc x, insert_area x acc) l [].

(** [x >= client] where [x] may be [undefined] *)
Definition at_least (x : option Q) (client : Q) : bool :=
  match x with Some q => Qle_bool client q | None => false end.

Definition area_rects (refRect : rect) (boundaries : bounds) : list area_entry :=
  [area_entry_of "top" (b_width boundaries) (Some (r_top refRect - b_top boundaries));
   area_entry_of "right" (Some (b_right boundaries - r_right refRect)) (b_height boundaries);
   area_entry_of "bottom" (b_width boundaries) (Some (b_bottom boundaries - r_bottom refRect));
   area_entry_of "left" (Some (r_left refRect - b_left boundaries)) (b_height boundaries)].

(** The part of [computeAutoPlacement] after the boundaries are known. *)
Definition choose_placement (placement : string) (refRect : rect) (boundaries : bounds)
    (popper_clientWidth popper_clientHeight : Q) : string :=
  let sortedAreas := sort_areas (area_rects refRect boundaries) in
  let filteredAreas :=
    List.filter (λ a, at_least (a_width a) popper_clientWidth &&
                      at_least (a_height a) popper_clientHeight) sortedAreas in
  let computedPlacement :=
    match filteredAreas, sortedAreas with
    | a :: _, _ => a_key a
    | [], a :: _ => a_key a
    | [], [] => ""
    end in
  with_variation computedPlacement (variationOf placement).

Context {nodeD : Type} `{EqDecision nodeD}.
Variable D : Dom nodeD.

Definition computeAutoPlacement (fuel : nat) (placement : string) (refRect : rect)
    (popper reference : nodeD) (boundariesElement : boundaries_element nodeD)
    (padding : Q) : option string :=
  if negb (contains_string "auto" placement) then Some placement
  else
    boundaries ← getBoundaries D fuel popper reference padding boundariesElement false;
    Some (choose_placement placement refRect boundaries
            (clientWidth D popper) (clientHeight D popper)).

(** [getPopperOffsets(popper, referenceOffsets, placement)], from the outer
    sizes of the popper. *)
Definition popper_offsets (width height : Q) (ref : rect) (placement : string) : box :=
  let placement := basePlacement placement in
  let isHoriz := is_one_of ["right"; "left"] placement in
  if isHoriz then
    Box (r_top ref + r_height ref / 2 - height / 2)
        (if bool_decide (placement = "left") then r_left ref - width else r_right ref)
        width height
  else
    Box (if bool_decide (placement = "top") then r_top ref - height else r_bottom ref)
        (r_left ref + r_width ref / 2 - width / 2)
        width height.

Definition getPopperOffsets (popper : nodeD) (ref : rect) (placement : string) : box :=
  let '(width, height) := getOuterSizes D popper in
  popper_offsets width height ref placement.
End auto.

Example opposite_ex : getOppositePlacement "bottom-start" = "top-start".
Proof. reflexivity. Qed.
Example clockwise_ex : clockwise "top" false =
  ["top-end"; "right-start"; "right"; "right-end"; "bottom-end"; "bottom";
   "bottom-start"; "left-end"; "left"; "left-start"; "top-start"].
Proof. reflexivity. Qed.
