(* ===== verification/PopperOffset.v ===== *)
(** * Popper: the [offset] option

    Models popper.js, lines 1007-1016 and 1498-1621: [isNumeric], [toValue] and
    [parseOffset], which read an offset such as ["10%p, 5 - 2vh"]. *)
From stdpp Require Import base strings list.
From Stdlib Require Import Ascii QArith Qminmax Qround Lqa.
From S2P Require Import Prelude JsString PopperDom PopperPlacement.

Local Open Scope Q_scope.

(** A fragment of the offset expression after [toValue]: a number, or the
    string itself when it is taken for an operator. *)
Inductive value := VNum (q : Q) | VStr (s : chars).

(** [isNumeric(n)]: [n !== '' && !isNaN(parseFloat(n)) && isFinite(n)]. *)
Definition isNumeric (v : value) : bool :=
  match v with
  | VNum _ => true
  | VStr s =>
      negb (bool_decide (s = [])) &&
      match parseFloat s with Some _ => true | None => false end &&
      match Number s with Some _ => true | None => false end
  end.

(** The number a numeric value stands for in an arithmetic expression. *)
Definition num_of (v : value) : Q :=
  match v with VNum q => q | VStr s => default 0 (Number s) end.

Definition optional (p : ascii → bool) (l : chars) : chars * chars :=
  match l with
  | c :: l' => if p c then ([c], l') else ([], l)
  | [] => ([], [])
  end.

(** The match of [str] against an optional sign, digits, an optional point,
    digits, and the rest: the number part and the unit. *)
Definition split_unit (str : chars) : chars * chars :=
  let '(sign, l) := optional (λ c, bool_decide (c = "-"%char) || bool_decide (c = "+"%char)) str in
  let ip := take_while is_digit l in
  let l := drop_while is_digit l in
  let '(dot, l) := optional (λ c, bool_decide (c = "."%char)) l in
  let fp := take_while is_digit l in
  let l := drop_while is_digit l in
  (sign ++ ip ++ dot ++ fp, l).

Section values.
Context {nodeD : Type}.
Variable D : Dom nodeD.

Definition viewport_height : Q :=
  Qmax (clientHeight D (document_documentElement D)) (num_or (window_innerHeight D) 0).
Definition viewport_width : Q :=
  Qmax (clientWidth D (document_documentElement D)) (num_or (window_innerWidth D) 0).

Definition toValue (str : chars) (measurement : measure)
    (popperOffsets referenceOffsets : rect) : value :=
  let '(num, unit) := split_unit str in
  match Number num with
  | None => VStr str
  | Some v =>
      if negb (truthy v) then VStr str
      else if bool_decide (head unit = Some "%"%char) then
        let element :=
          if bool_decide (unit = chars_of "%p") then popperOffsets else referenceOffsets in
        VNum (size (refresh element) measurement / 100 * v)
      else if bool_decide (unit = chars_of "vh") then VNum (viewport_height / 100 * v)
      else if bool_decide (unit = chars_of "vw") then VNum (viewport_width / 100 * v)
      else VNum v
  end.

Definition is_sign (c : ascii) : bool :=
  bool_decide (c = "+"%char) || bool_decide (c = "-"%char).

(** [offset.split(/(\+|\-)/)]: the separators are kept as fragments. *)
Fixpoint split_signs (l : chars) : list chars :=
  match l with
  | [] => [[]]
  | c :: l' =>
      let rest := split_signs l' in
      if is_sign c then [] :: [c] :: rest
      else match rest with
           | [] => [[c]]
           | w :: ws => (c :: w) :: ws
           end
  end.

(** [frag.search(/,|\s/) !== -1] *)
Definition has_divider (frag : chars) : bool :=
  existsb (λ c, bool_decide (c = ","%char) || is_space c) frag.

(** [fragments.indexOf(find(fragments, ..))]: the first fragment that is
    equal to the first one with a divider, which is that one itself. *)
Fixpoint find_divider (i : nat) (fragments : list chars) : option nat :=
  match fragments with
  | [] => None
  | f :: fs => if has_divider f then Some i else find_divider (S i) fs
  end.

(** [frag.split(/\s*,\s*|\s+/)] restricted to its first two parts: before the
    first match of the separator, and after it up to the next one. *)
Fixpoint before_divider (l : chars) : chars * chars :=
  match l with
  | [] => ([], [])
  | c :: l' =>
      if bool_decide (c = ","%char) || is_space c then ([], l)
      else let '(w, r) := before_divider l' in (c :: w, r)
  end.

(** What is left after the longest match of [\s*,\s*|\s+] at the start. *)
Definition skip_divider (l : chars) : chars :=
  match drop_while is_space l with
  | ","%char :: r => drop_while is_space r
  | r => r
  end.

Definition split_divider (l : chars) : chars * option chars :=
  let '(w, r) := before_divider l in
  match r with
  | [] => (w, None)
  | _ => (w, Some (fst (before_divider (skip_divider r))))
  end.

(** The two lists of fragments, one per axis.  The fragment at the divider
    has one, so its second part is never missing. *)
Definition split_ops (fragments : list chars) : list (list chars) :=
  match find_divider 0 fragments with
  | None => [fragments]
  | Some d =>
      let '(w1, w2) := split_divider (default [] (fragments !! d)) in
      [take d fragments ++ [w1];
       match w2 with Some w => [w] | None => [] end ++ drop (S d) fragments]
  end.

(** The reducer that merges a sign which is no operator with the fragment
    after it; the state is the array so far and [mergeWithPrevious]. *)
Definition merge_step (st : list chars * bool) (b : chars) : list chars * bool :=
  let '(a, mergeWithPrevious) := st in
  match last a with
  | Some w =>
      if bool_decide (w = []) && (bool_decide (b = ["+"%char]) || bool_decide (b = ["-"%char]))
      then (take (length a - 1) a ++ [b], true)
      else if mergeWithPrevious : bool then (take (length a - 1) a ++ [w ++ b], false)
      else (a ++ [b], mergeWithPrevious)
  | None =>
      if mergeWithPrevious : bool then (a, false) else (a ++ [b], mergeWithPrevious)
  end.

Definition merge_signs (op : list chars) : list chars :=
  fst (fold_left merge_step op ([], false)).

(** [op[index2 - 1] === '-'] *)
Definition is_minus (prev : option value) : bool :=
  match prev with Some (VStr s) => bool_decide (s = ["-"%char]) | _ => false end.

(** The sum over one list of fragments. *)
Fixpoint eval_op (prev : option value) (op : list value) (acc : Q) : Q :=
  match op with
  | [] => acc
  | frag :: rest =>
      let acc' :=
        if isNumeric frag then
          acc + num_of frag *
            (if is_minus prev then -(1) else 1)
        else acc in
      eval_op (Some frag) rest acc'
  end.

Definition parseOffset (offset : chars) (popperOffsets referenceOffsets : rect)
    (basePlacement : string) : Q * Q :=
  let useHeight := is_one_of ["right"; "left"] basePlacement in
  let fragments := trim <$> split_signs offset in
  let measurement_of (index : nat) :=
    if (if Nat.eqb index 1 then negb useHeight else useHeight) then Height else Width in
  let ops := split_ops fragments in
  let values index := (λ str, toValue str (measurement_of index) popperOffsets referenceOffsets)
                       <$> merge_signs (default [] (ops !! index)) in
  (eval_op None (values 0%nat) 0, eval_op None (values 1%nat) 0).
End values.
