(* ===== verification/Popper.v ===== *)
(** * Popper: the modifiers and the instance

    Models popper.js, lines 731-1306, 1376-1496, 1623-1818 and 2179-2345: the
    modifier pipeline, each modifier, the instance with its update, its
    destruction and its event listeners. *)
From stdpp Require Import base gmap strings list sorting.
From Stdlib Require Import Ascii ZArith QArith Qminmax Qround Lqa.
From S2P Require Import Prelude JsString PopperDom PopperPlacement PopperOffset.

Local Open Scope Q_scope.

(** ** Styles and attributes *)

(** A style value: a number, a number of pixels, a string, or the string
    [translate3d(left px, top px, 0)]. *)
Inductive sval :=
  | SNum (q : Q) | SPx (q : Q) | SStr (s : string) | STranslate3d (left top : Q).

(** An attribute value: [false] removes the attribute. *)
Inductive attr := AStr (s : string) | AFalse.

Abbreviation styles := (gmap string sval).

(** Inline style declarations: assigning the empty string removes the
    property, and reading an absent one gives the empty string. *)
Definition style_put (prop : string) (v : sval) (m : styles) : styles :=
  match v with SStr EmptyString => delete prop m | _ => <[prop := v]> m end.

Definition style_read (prop : string) (m : styles) : sval :=
  default (SStr "") (m !! prop).

(** No declaration is the empty string. *)
Definition style_wf (m : styles) : Prop := ∀ prop, m !! prop ≠ Some (SStr "").

(** The parts of the document that Popper writes. *)
Record page := Page {
  pg_style : styles;                (* popper.style *)
  pg_attrs : gmap string string;    (* attributes of popper *)
  pg_arrow : styles                 (* style of the arrow element *)
}.

Definition with_style (f : styles → styles) (p : page) : page :=
  Page (f (pg_style p)) (pg_attrs p) (pg_arrow p).
Definition with_attrs (f : gmap string string → gmap string string) (p : page) : page :=
  Page (pg_style p) (f (pg_attrs p)) (pg_arrow p).
Definition with_arrow (f : styles → styles) (p : page) : page :=
  Page (pg_style p) (pg_attrs p) (f (pg_arrow p)).

Definition pixel_properties : list string :=
  ["width"; "height"; "top"; "right"; "bottom"; "left"].

(** [isNumeric] on a style value. *)
Definition sval_numeric (v : sval) : bool :=
  match v with
  | SNum _ => true
  | SStr s => isNumeric (VStr (chars_of s))
  | SPx _ | STranslate3d _ _ => false
  end.

(** [styles[prop] + unit]; a numeric string gets the unit appended. *)
Definition add_px (v : sval) : sval :=
  match v with SNum q => SPx q | SStr s => SStr (s +:+ "px")%string | _ => v end.

(** [setStyles(element, styles)] *)
Definition setStyles (ss : list (string * sval)) (m : styles) : styles :=
  fold_left (λ m '(prop, v),
    style_put prop
      (if is_one_of pixel_properties prop && sval_numeric v then add_px v else v) m) ss m.

(** [setAttributes(element, attributes)] *)
Definition setAttributes (attrs : list (string * attr)) (m : gmap string string)
    : gmap string string :=
  fold_left (λ m '(prop, v),
    match v with AStr s => <[prop := s]> m | AFalse => delete prop m end) attrs m.

Section popper.
Context {nodeD : Type} `{EqDecision nodeD}.

(** ** Modifiers *)

Inductive behavior := BFlip | BClockwise | BCounterclockwise | BOrder (l : list string).
Inductive offset_option := OffNum (q : Q) | OffStr (s : string).
Inductive arrow_element := ArrowSelector (s : string) | ArrowNode (n : nodeD).

(** The [fn] of a modifier with the options it reads; [FnNone] is a value
    that is not a function. *)
Inductive modifier_fn :=
  | FnNone
  | FnShift
  | FnOffset (offset : offset_option)
  | FnPreventOverflow (priority : list side) (padding : Q)
      (boundariesElement : option (boundaries_element nodeD)) (escapeWithReference : bool)
  | FnKeepTogether
  | FnArrow (element : arrow_element)
  | FnFlip (behavior_ : behavior) (padding : Q)
      (boundariesElement : boundaries_element nodeD) (flipVariations : bool)
  | FnInner
  | FnHide
  | FnComputeStyle (gpuAcceleration : bool) (x y : string)
  | FnApplyStyle (gpuAcceleration : option bool).

Record modifier := Modifier {
  m_name : string;
  m_enabled : bool;
  m_order : Z;
  m_fn : modifier_fn
}.

Record instance := Instance {
  i_popper : nodeD;
  i_reference : nodeD;
  i_modifiers : list modifier
}.

(** The [data] object that runs through the modifiers.  [d_boundaries] holds
    the [boundaries] property that [preventOverflow] leaves on its modifier
    object, by the modifier's name; [d_page] is the document's part. *)
Record data := Data {
  d_instance : instance;
  d_styles : styles;
  d_arrowStyles : styles;
  d_attributes : gmap string attr;
  d_flipped : bool;
  d_hide : option bool;
  d_placement : string;
  d_originalPlacement : string;
  d_positionFixed : bool;
  d_popper : rect;
  d_position : string;
  d_reference : rect;
  d_arrow : styles;
  d_arrowElement : option nodeD;
  d_boundaries : gmap string bounds;
  d_page : page
}.

Definition set_popper (r : rect) (d : data) : data :=
  Data (d_instance d) (d_styles d) (d_arrowStyles d) (d_attributes d) (d_flipped d)
    (d_hide d) (d_placement d) (d_originalPlacement d) (d_positionFixed d)
    r (d_position d) (d_reference d) (d_arrow d) (d_arrowElement d)
    (d_boundaries d) (d_page d).
Definition set_reference (r : rect) (d : data) : data :=
  Data (d_instance d) (d_styles d) (d_arrowStyles d) (d_attributes d) (d_flipped d)
    (d_hide d) (d_placement d) (d_originalPlacement d) (d_positionFixed d)
    (d_popper d) (d_position d) r (d_arrow d) (d_arrowElement d)
    (d_boundaries d) (d_page d).
Definition set_placement (p : string) (d : data) : data :=
  Data (d_instance d) (d_styles d) (d_arrowStyles d) (d_attributes d) (d_flipped d)
    (d_hide d) p (d_originalPlacement d) (d_positionFixed d)
    (d_popper d) (d_position d) (d_reference d) (d_arrow d) (d_arrowElement d)
    (d_boundaries d) (d_page d).
Definition set_flipped (b : bool) (d : data) : data :=
  Data (d_instance d) (d_styles d) (d_arrowStyles d) (d_attributes d) b
    (d_hide d) (d_placement d) (d_originalPlacement d) (d_positionFixed d)
    (d_popper d) (d_position d) (d_reference d) (d_arrow d) (d_arrowElement d)
    (d_boundaries d) (d_page d).
Definition set_boundaries (name : string) (b : bounds) (d : data) : data :=
  Data (d_instance d) (d_styles d) (d_arrowStyles d) (d_attributes d) (d_flipped d)
    (d_hide d) (d_placement d) (d_originalPlacement d) (d_positionFixed d)
    (d_popper d) (d_position d) (d_reference d) (d_arrow d) (d_arrowElement d)
    (<[name := b]> (d_boundaries d)) (d_page d).
Definition set_hide (h : bool) (d : data) : data :=
  Data (d_instance d) (d_styles d) (d_arrowStyles d)
    (<["x-out-of-boundaries" := if h then AStr "" else AFalse]> (d_attributes d))
    (d_flipped d) (Some h) (d_placement d) (d_originalPlacement d) (d_positionFixed d)
    (d_popper d) (d_position d) (d_reference d) (d_arrow d) (d_arrowElement d)
    (d_boundaries d) (d_page d).
Definition set_arrow (el : nodeD) (a : styles) (d : data) : data :=
  Data (d_instance d) (d_styles d) (d_arrowStyles d) (d_attributes d) (d_flipped d)
    (d_hide d) (d_placement d) (d_originalPlacement d) (d_positionFixed d)
    (d_popper d) (d_position d) (d_reference d) a (Some el)
    (d_boundaries d) (d_page d).
Definition set_outputs (ss arrows : styles) (attrs : gmap string attr) (d : data) : data :=
  Data (d_instance d) ss arrows attrs (d_flipped d)
    (d_hide d) (d_placement d) (d_originalPlacement d) (d_positionFixed d)
    (d_popper d) (d_position d) (d_reference d) (d_arrow d) (d_arrowElement d)
    (d_boundaries d) (d_page d).
Definition set_page (p : page) (d : data) : data :=
  Data (d_instance d) (d_styles d) (d_arrowStyles d) (d_attributes d) (d_flipped d)
    (d_hide d) (d_placement d) (d_originalPlacement d) (d_positionFixed d)
    (d_popper d) (d_position d) (d_reference d) (d_arrow d) (d_arrowElement d)
    (d_boundaries d) p.

(** ** The browser *)

(** The document as laid out for the given inline styles. *)
Variable browser : page → Dom nodeD.
(** [popper.querySelector(selector)] *)
Variable querySelector : nodeD → string → option nodeD.
(** [typeof document.body.style[name] !== 'undefined'] *)
Variable style_supported : string → bool.
(** The bound of the climbs through the document. *)
Variable fuel : nat.

Definition dom (d : data) : Dom nodeD := browser (d_page d).

Definition capitalize (s : string) : string :=
  match s with EmptyString => EmptyString | String c r => String (to_upper c) r end.

(** [getSupportedPropertyName(property)]; [None] is [null]. *)
Definition getSupportedPropertyName (property : string) : option string :=
  let upperProp := capitalize property in
  head (List.filter style_supported
    [property; ("ms" +:+ upperProp)%string; ("Webkit" +:+ upperProp)%string;
     ("Moz" +:+ upperProp)%string; ("O" +:+ upperProp)%string]).

Definition find_modifier (name : string) (ms : list modifier) : option modifier :=
  head (List.filter (λ m, bool_decide (m_name m = name)) ms).

(** [findIndex(modifiers, 'name', ends)]; [None] is -1. *)
Definition findIndex (ms : list modifier) (ends : string) : option nat :=
  index_of (m_name <$> ms) ends.

Definition isModifierEnabled (ms : list modifier) (name : string) : bool :=
  existsb (λ m, m_enabled m && bool_decide (m_name m = name)) ms.

Definition isModifierRequired (ms : list modifier) (requestingName requestedName : string)
    : bool :=
  match find_modifier requestingName ms with
  | None => false
  | Some requesting =>
      existsb (λ m, bool_decide (m_name m = requestedName) && m_enabled m &&
                    (m_order m <? m_order requesting)%Z) ms
  end.

(** [modifiersToRun]: [slice(0, findIndex(..))], which is [slice(0, -1)] when
    [ends] is not the name of a modifier. *)
Definition modifiersToRun (ms : list modifier) (ends : option string) : list modifier :=
  match ends with
  | None => ms
  | Some e =>
      match findIndex ms e with
      | Some i => take i ms
      | None => take (length ms - 1) ms
      end
  end.

(** The body of the loop of [runModifiers], with [run] the call of a
    modifier's function. *)
Definition runModifiers_step (run : modifier → data → option data)
    (od : option data) (m : modifier) : option data :=
  d ← od;
  match m_fn m with
  | FnNone => Some d
  | _ =>
      if m_enabled m then
        run m (set_reference (refresh (d_reference d)) (set_popper (refresh (d_popper d)) d))
      else Some d
  end.

(** [runModifiers(modifiers, data, ends)] *)
Definition runModifiers (run : modifier → data → option data)
    (ms : list modifier) (d : data) (ends : option string) : option data :=
  fold_left (runModifiers_step run) (modifiersToRun ms ends) (Some d).

(** ** The modifiers without callbacks *)

Definition is_vertical (base : string) : bool := is_one_of ["top"; "bottom"] base.

Definition shift (d : data) : data :=
  match variationOf (d_placement d) with
  | None | Some EmptyString => d
  | Some shiftvariation =>
      let isVertical := is_vertical (basePlacement (d_placement d)) in
      let sd := if isVertical then Left else Top in
      let measurement := if isVertical then Width else Height in
      let r := d_reference d in
      if bool_decide (shiftvariation = "start") then
        set_popper (set (d_popper d) sd (get r sd)) d
      else if bool_decide (shiftvariation = "end") then
        set_popper (set (d_popper d) sd
          (get r sd + size r measurement - size (d_popper d) measurement)) d
      else d
  end.

Definition offset (o : offset_option) (d : data) : data :=
  let base := basePlacement (d_placement d) in
  let offsets :=
    match o with
    | OffNum q => (q, 0)
    | OffStr s =>
        match Number (chars_of s) with
        | Some q => (q, 0)
        | None => parseOffset (dom d) (chars_of s) (d_popper d) (d_reference d) base
        end
    end in
  let p := d_popper d in
  let '(o0, o1) := offsets in
  if bool_decide (base = "left") then
    set_popper (set (set p Top (r_top p + o0)) Left (r_left p - o1)) d
  else if bool_decide (base = "right") then
    set_popper (set (set p Top (r_top p + o0)) Left (r_left p + o1)) d
  else if bool_decide (base = "top") then
    set_popper (set (set p Left (r_left p + o0)) Top (r_top p - o1)) d
  else if bool_decide (base = "bottom") then
    set_popper (set (set p Left (r_left p + o0)) Top (r_top p + o1)) d
  else d.

(** [check.primary] and [check.secondary] of [preventOverflow], on one side. *)
Definition check_side (boundaries : bounds) (escapeWithReference : bool)
    (popper : rect) (placement : side) : rect :=
  let bound s := match s with
    | Top => b_top boundaries | Left => b_left boundaries
    | Right => b_right boundaries | Bottom => b_bottom boundaries end in
  match placement with
  | Left | Top =>
      let value :=
        if Qltb (get popper placement) (bound placement) && negb escapeWithReference
        then Qmax (get popper placement) (bound placement)
        else get popper placement in
      set popper placement value
  | Right | Bottom =>
      let mainSide := match placement with Right => Left | _ => Top end in
      let value :=
        if Qltb (bound placement) (get popper placement) && negb escapeWithReference
        then Qmin (get popper mainSide)
               (bound placement - match placement with Right => r_width popper | _ => r_height popper end)
        else get popper mainSide in
      set popper mainSide value
  end.

(** The loop [order.forEach(..)] of [preventOverflow]. *)
Definition confine (boundaries : bounds) (escapeWithReference : bool)
    (order : list side) (popper : rect) : rect :=
  fold_left (check_side boundaries escapeWithReference) order popper.

(** The three assignments that take the popper out of the flow, and the three
    that restore it. *)
Definition reset_style (transformProp : string) (m : styles) : styles :=
  style_put transformProp (SStr "") (style_put "left" (SStr "") (style_put "top" (SStr "") m)).

Definition restore_style (transformProp : string) (old m : styles) : styles :=
  style_put transformProp (style_read transformProp old)
    (style_put "left" (style_read "left" old) (style_put "top" (style_read "top" old) m)).

Definition preventOverflow (name : string) (priority : list side) (padding : Q)
    (boundariesElement : option (boundaries_element nodeD)) (escapeWithReference : bool)
    (d : data) : option data :=
  let inst := d_instance d in
  be ← match boundariesElement with
       | Some be => Some be
       | None => BElement <$> getOffsetParent (dom d) fuel (Some (i_popper inst))
       end;
  be ← match be with
       | BElement n =>
           if bool_decide (i_reference inst = n) then
             BElement <$> getOffsetParent (dom d) fuel (Some n)
           else Some be
       | _ => Some be
       end;
  let transformProp := default "null" (getSupportedPropertyName "transform") in
  let old := pg_style (d_page d) in
  let d1 := set_page (with_style (reset_style transformProp) (d_page d)) d in
  boundaries ← getBoundaries (dom d1) fuel (i_popper inst) (i_reference inst) padding be
                 (d_positionFixed d);
  let d2 := set_page (with_style (restore_style transformProp old) (d_page d1)) d1 in
  let d3 := set_boundaries name boundaries d2 in
  Some (set_popper (confine boundaries escapeWithReference priority (d_popper d)) d3).

Definition floorQ (q : Q) : Q := inject_Z (Qfloor q).
(** [Math.round]: the floor of [q + 1/2]. *)
Definition roundQ (q : Q) : Q := inject_Z (Qfloor (q + (1#2))).

Definition keep_together (vertical : bool) (reference popper : rect) : rect :=
  let sd := if vertical then Right else Bottom in
  let opSide := if vertical then Left else Top in
  let measurement := if vertical then Width else Height in
  let popper1 :=
    if Qltb (get popper sd) (floorQ (get reference opSide))
    then set popper opSide (floorQ (get reference opSide) - size popper measurement)
    else popper in
  if Qltb (floorQ (get reference sd)) (get popper1 opSide)
  then set popper1 opSide (floorQ (get reference sd))
  else popper1.

Definition keepTogether (d : data) : data :=
  set_popper (keep_together (is_vertical (basePlacement (d_placement d)))
                (d_reference d) (d_popper d)) d.

(** The popper of [arrow] after both conjunction tests, and the offset of the
    arrow element; [vertical] is [isVertical]. *)
Definition arrow_popper (vertical : bool) (arrowElementSize : Q) (reference popper : rect)
    : rect :=
  let sd := if vertical then Top else Left in
  let opSide := if vertical then Bottom else Right in
  let popper1 :=
    if Qltb (get reference opSide - arrowElementSize) (get popper sd)
    then set popper sd (get popper sd - (get popper sd - (get reference opSide - arrowElementSize)))
    else popper in
  let popper2 :=
    if Qltb (get popper1 opSide) (get reference sd + arrowElementSize)
    then set popper1 sd (get popper1 sd +
           (get reference sd + arrowElementSize - get popper1 opSide))
    else popper1 in
  refresh popper2.

Definition arrow_value (vertical : bool) (arrowElementSize marginSide borderSide : Q)
    (reference popper : rect) : Q :=
  let sd := if vertical then Top else Left in
  let len := if vertical then Height else Width in
  let center := get reference sd + size reference len / 2 - arrowElementSize / 2 in
  let sideValue := center - get popper sd - marginSide - borderSide in
  Qmax (Qmin (size popper len - arrowElementSize) sideValue) 0.

Definition arrow (element : arrow_element) (d : data) : data :=
  let inst := d_instance d in
  if negb (isModifierRequired (i_modifiers inst) "arrow" "keepTogether") then d
  else
    let found :=
      match element with
      | ArrowSelector s => querySelector (i_popper inst) s
      | ArrowNode n => if contains (dom d) (i_popper inst) n then Some n else None
      end in
    match found with
    | None => d
    | Some arrowElement =>
        let vertical := is_one_of ["left"; "right"] (basePlacement (d_placement d)) in
        let sizes := getOuterSizes (dom d) arrowElement in
        let arrowElementSize := if vertical then snd sizes else fst sizes in
        let popper := arrow_popper vertical arrowElementSize (d_reference d) (d_popper d) in
        let margin := styleFloat (dom d) (i_popper inst)
                        (if vertical then "marginTop" else "marginLeft") in
        let border := styleFloat (dom d) (i_popper inst)
                        (if vertical then "borderTopWidth" else "borderLeftWidth") in
        let sideValue := arrow_value vertical arrowElementSize margin border
                           (d_reference d) popper in
        set_arrow arrowElement
          (<[(if vertical then "top" else "left") := SNum (roundQ sideValue)]>
             {[ (if vertical then "left" else "top") := SStr "" ]})
          (set_popper popper d)
    end.

Definition inner (d : data) : option data :=
  let base := basePlacement (d_placement d) in
  let isHoriz := is_one_of ["left"; "right"] base in
  let subtractLength := negb (is_one_of ["top"; "left"] base) in
  let p := d_popper d in
  (* a base placement that is no side reads an undefined offset *)
  s ← side_of base;
  let value := get (d_reference d) s -
    (if subtractLength then size p (if isHoriz then Width else Height) else 0) in
  let p' := set p (if isHoriz then Left else Top) value in
  Some (set_popper (refresh p') (set_placement (getOppositePlacement (d_placement d)) d)).

Definition out_of_bounds (ref : rect) (bound : bounds) : bool :=
  Qltb (r_bottom ref) (b_top bound) || Qltb (b_right bound) (r_left ref) ||
  Qltb (b_bottom bound) (r_top ref) || Qltb (r_right ref) (b_left bound).

Definition hide (d : data) : option data :=
  let ms := i_modifiers (d_instance d) in
  if negb (isModifierRequired ms "hide" "preventOverflow") then Some d
  else
    m ← find_modifier "preventOverflow" ms;
    bound ← d_boundaries d !! m_name m;
    if out_of_bounds (d_reference d) bound then
      if bool_decide (d_hide d = Some true) then Some d else Some (set_hide true d)
    else
      if bool_decide (d_hide d = Some false) then Some d else Some (set_hide false d).

Definition computeStyle (gpuAcceleration : bool) (x y : string) (d : data) : option data :=
  applyStyleModifier ← find_modifier "applyStyle" (i_modifiers (d_instance d));
  let legacy := match m_fn applyStyleModifier with FnApplyStyle g => g | _ => None end in
  let gpu := default gpuAcceleration legacy in
  offsetParent ← getOffsetParent (dom d) fuel (Some (i_popper (d_instance d)));
  offsetParentRect ← getBoundingClientRect (dom d) offsetParent;
  let p := d_popper d in
  let o_left := floorQ (r_left p) in
  let o_top := roundQ (r_top p) in
  let o_bottom := roundQ (r_bottom p) in
  let o_right := floorQ (r_right p) in
  let sideA := if bool_decide (x = "bottom") then "top" else "bottom" in
  let sideB := if bool_decide (y = "right") then "left" else "right" in
  let top := if bool_decide (sideA = "bottom") then - r_height offsetParentRect + o_bottom
             else o_top in
  let left := if bool_decide (sideB = "right") then - r_width offsetParentRect + o_right
              else o_left in
  let base : styles := {[ "position" := SStr (d_position d) ]} in
  let ss : styles :=
    match gpu, getSupportedPropertyName "transform" with
    | true, Some prefixedProperty =>
        <["willChange" := SStr "transform"]>
          (<[sideB := SNum 0]> (<[sideA := SNum 0]>
            (<[prefixedProperty := STranslate3d left top]> base)))
    | _, _ =>
        <["willChange" := SStr (sideA +:+ ", " +:+ sideB)%string]>
          (<[sideB := SNum (left * (if bool_decide (sideB = "right") then -(1) else 1))]>
            (<[sideA := SNum (top * (if bool_decide (sideA = "bottom") then -(1) else 1))]>
              base))
    end in
  Some (set_outputs (d_styles d ∪ ss) (d_arrowStyles d ∪ d_arrow d)
          (d_attributes d ∪ {[ "x-placement" := AStr (d_placement d) ]}) d).

Definition applyStyle (d : data) : data :=
  let p1 := with_style (setStyles (map_to_list (d_styles d))) (d_page d) in
  let p2 := with_attrs (setAttributes (map_to_list (d_attributes d))) p1 in
  let p3 :=
    if bool_decide (d_arrowElement d = None) || bool_decide (d_arrowStyles d = ∅) then p2
    else with_arrow (setStyles (map_to_list (d_arrowStyles d))) p2 in
  set_page p3 d.

(** ** [flip] *)

Definition flip_order (b : behavior) (placement : string) : list string :=
  match b with
  | BFlip => [placement; getOppositePlacement placement]
  | BClockwise => clockwise placement false
  | BCounterclockwise => clockwise placement true
  | BOrder l => l
  end.

Definition floor_lt (a b : Q) : bool := (Qfloor a <? Qfloor b)%Z.

Definition overlapsRef (placement : string) (popper reference : rect) : bool :=
  (bool_decide (placement = "left") && floor_lt (r_left reference) (r_right popper)) ||
  (bool_decide (placement = "right") && floor_lt (r_left popper) (r_right reference)) ||
  (bool_decide (placement = "top") && floor_lt (r_top reference) (r_bottom popper)) ||
  (bool_decide (placement = "bottom") && floor_lt (r_top popper) (r_bottom reference)).

Definition overflows (s : side) (popper : rect) (b : bounds) : bool :=
  match s with
  | Left => floor_lt (r_left popper) (b_left b)
  | Right => floor_lt (b_right b) (r_right popper)
  | Top => floor_lt (r_top popper) (b_top b)
  | Bottom => floor_lt (b_bottom b) (r_bottom popper)
  end.

Definition overflowsBoundaries (placement : string) (popper : rect) (b : bounds) : bool :=
  (bool_decide (placement = "left") && overflows Left popper b) ||
  (bool_decide (placement = "right") && overflows Right popper b) ||
  (bool_decide (placement = "top") && overflows Top popper b) ||
  (bool_decide (placement = "bottom") && overflows Bottom popper b).

Definition flippedVariation (flipVariations : bool) (placement variation : string)
    (popper : rect) (b : bounds) : bool :=
  let isVertical := is_vertical placement in
  flipVariations &&
  ((isVertical && bool_decide (variation = "start") && overflows Left popper b) ||
   (isVertical && bool_decide (variation = "end") && overflows Right popper b) ||
   (negb isVertical && bool_decide (variation = "start") && overflows Top popper b) ||
   (negb isVertical && bool_decide (variation = "end") && overflows Bottom popper b)).

(** [_extends({}, data.offsets.popper, getPopperOffsets(..))]: [right] and
    [bottom] keep their old values. *)
Definition extend_popper (r : rect) (b : box) : rect :=
  Rect (x_top b) (x_left b) (x_width b) (x_height b) (r_right r) (r_bottom r).

(** The variables of [flip] that its [forEach] callback updates. *)
Record flip_state := FlipState {
  f_data : data; f_placement : string; f_variation : string
}.

Definition flip_step (run : modifier → data → option data) (boundaries : bounds)
    (flipVariations : bool) (flipOrder : list string) (st : flip_state) (index : nat)
    (step : string) : option flip_state :=
  if negb (bool_decide (f_placement st = step)) || Nat.eqb (length flipOrder) (S index)
  then Some st
  else
    let d := f_data st in
    let placement := basePlacement (d_placement d) in
    let variation := f_variation st in
    let p := d_popper d in
    let bad := overlapsRef placement p (d_reference d) ||
               overflowsBoundaries placement p boundaries in
    let flippedVar := flippedVariation flipVariations placement variation p boundaries in
    if bad || flippedVar then
      let placement' :=
        if bad then default "undefined" (flipOrder !! S index) else placement in
      let variation' := if flippedVar then getOppositeVariation variation else variation in
      let d1 := set_placement (with_variation placement' (Some variation')) (set_flipped true d) in
      let d2 := set_popper (extend_popper (d_popper d1)
        (getPopperOffsets (dom d1) (i_popper (d_instance d1)) (d_reference d1) (d_placement d1))) d1 in
      d3 ← runModifiers run (i_modifiers (d_instance d2)) d2 (Some "flip");
      Some (FlipState d3 placement' variation')
    else Some (FlipState d placement variation).

(** [flipOrder.forEach(..)] *)
Fixpoint flip_loop (run : modifier → data → option data) (boundaries : bounds)
    (flipVariations : bool) (flipOrder steps : list string) (index : nat) (st : flip_state)
    : option flip_state :=
  match steps with
  | [] => Some st
  | step :: steps' =>
      st' ← flip_step run boundaries flipVariations flipOrder st index step;
      flip_loop run boundaries flipVariations flipOrder steps' (S index) st'
  end.

Definition flip (run : modifier → data → option data) (b : behavior) (padding : Q)
    (boundariesElement : boundaries_element nodeD) (flipVariations : bool)
    (d : data) : option data :=
  if isModifierEnabled (i_modifiers (d_instance d)) "inner" then Some d
  else if d_flipped d && bool_decide (d_placement d = d_originalPlacement d) then Some d
  else
    boundaries ← getBoundaries (dom d) fuel (i_popper (d_instance d))
                   (i_reference (d_instance d)) padding boundariesElement (d_positionFixed d);
    let placement := basePlacement (d_placement d) in
    let variation := default "" (variationOf (d_placement d)) in
    let flipOrder := flip_order b placement in
    st ← flip_loop run boundaries flipVariations flipOrder flipOrder 0
           (FlipState d placement variation);
    Some (f_data st).

(** The call [fn(data, modifier)]; [depth] bounds the recursion of [flip]
    through [runModifiers]. *)
Fixpoint run_modifier (depth : nat) (m : modifier) (d : data) : option data :=
  match m_fn m with
  | FnNone => Some d
  | FnShift => Some (shift d)
  | FnOffset o => Some (offset o d)
  | FnPreventOverflow priority padding be escape =>
      preventOverflow (m_name m) priority padding be escape d
  | FnKeepTogether => Some (keepTogether d)
  | FnArrow element => Some (arrow element d)
  | FnFlip b padding be flipVariations =>
      match depth with
      | O => None
      | S depth' => flip (run_modifier depth') b padding be flipVariations d
      end
  | FnInner => inner d
  | FnHide => hide d
  | FnComputeStyle gpu x y => computeStyle gpu x y d
  | FnApplyStyle _ => Some (applyStyle d)
  end.
End popper.
