(* ===== verification/PopperInstance.v ===== *)
(** * Popper: the instance

    Models popper.js, lines 36-74 (the debounced update), 803-1005 (update,
    destruction, event listeners), 1065-1110 ([applyStyleOnLoad]) and
    2179-2345 (defaults and constructor). *)
From stdpp Require Import base gmap strings list sorting.
From Stdlib Require Import Ascii ZArith QArith Lia.
From S2P Require Import Prelude JsString PopperDom PopperPlacement PopperOffset Popper.

Local Open Scope nat_scope.

(** ** The debounced update: [microtaskDebounce] and [taskDebounce]

    Both keep a flag that is set by the first call and cleared by the scheduled
    callback, which then runs the function.  [db_queue] counts the callbacks
    handed to the scheduler and not run yet, [db_runs] the runs of [fn]. *)
Module Debounce.
Record state := State { db_called : bool; db_queue : nat; db_runs : nat }.

Definition init : state := State false 0 0.

(** The returned function is called. *)
Definition call (s : state) : state :=
  if db_called s then s else State true (S (db_queue s)) (db_runs s).

(** The scheduler runs one callback. *)
Definition fire (s : state) : option state :=
  match db_queue s with
  | 0 => None
  | S q => Some (State false q (S (db_runs s)))
  end.

Inductive step : state → state → Prop :=
  | step_call s : step s (call s)
  | step_fire s s' : fire s = Some s' → step s s'.
End Debounce.

Section instance.
Context {nodeD : Type} `{EqDecision nodeD}.
Variable browser : page → Dom nodeD.
Variable querySelector : nodeD → string → option nodeD.
Variable style_supported : string → bool.
Variable fuel depth : nat.

(** Event targets: windows and nodes; [defaultView] is the window of the
    node's document, or the global one. *)
Context {win : Type} `{EqDecision win}.
Variable defaultView : nodeD → win.

Inductive target := TWindow (w : win) | TNode (n : nodeD).

#[export] Instance target_eq_dec : EqDecision target.
Proof. solve_decision. Defined.

(** The listeners registered for [state.updateBound].  A second registration
    of the same callback for the same event does nothing. *)
Abbreviation listeners := (list (target * string)).

Definition addEventListener (t : target) (event : string) (ls : listeners) : listeners :=
  if decide ((t, event) ∈ ls) then ls else (t, event) :: ls.
Definition removeEventListener (t : target) (event : string) (ls : listeners) : listeners :=
  filter (λ x, x ≠ (t, event)) ls.

(** [this.state], with the listeners it has registered. *)
Record pstate := PState {
  isDestroyed : bool;
  isCreated : bool;
  eventsEnabled : bool;
  updateBound : bool;
  scrollParents : list target;
  scrollElement : option nodeD;
  registered : listeners
}.

Record options := Options {
  opt_placement : string;
  opt_positionFixed : bool;
  opt_eventsEnabled : bool;
  opt_removeOnDestroy : bool
}.

Record popper := Popper {
  p_instance : instance (nodeD:=nodeD);
  p_options : options;
  p_state : pstate;
  p_page : page;
  (** [this.popper.parentNode] is not null *)
  p_attached : bool
}.

(** What an update hands to the page's code. *)
Inductive callback := OnCreate (d : data (nodeD:=nodeD)) | OnUpdate (d : data (nodeD:=nodeD)).

Definition set_state (s : pstate) (p : popper) : popper :=
  Popper (p_instance p) (p_options p) s (p_page p) (p_attached p).

Definition flip_options (ms : list modifier) : option (boundaries_element nodeD * Q)%type :=
  m ← find_modifier "flip" ms;
  match m_fn m with FnFlip _ padding be _ => Some (be, padding) | _ => None end.

(** The data object at the start of an update. *)
Definition initial_data (p : popper) : option (data (nodeD:=nodeD)) :=
  let inst := p_instance p in
  let D := browser (p_page p) in
  reference ← getReferenceOffsets D fuel (i_popper inst) (i_reference inst)
                (opt_positionFixed (p_options p));
  '(be, padding) ← flip_options (i_modifiers inst);
  placement ← computeAutoPlacement D fuel (opt_placement (p_options p)) (o_rect reference)
                (i_popper inst) (i_reference inst) be padding;
  let pop := getClientRect (getPopperOffsets D (i_popper inst) (o_rect reference) placement) in
  Some (Data inst ∅ ∅ ∅ false None placement placement (opt_positionFixed (p_options p))
          pop (if opt_positionFixed (p_options p) then "fixed" else "absolute")
          (o_rect reference) ∅ None ∅ (p_page p)).

Definition run_modifiers (d : data) : option data :=
  runModifiers (run_modifier browser querySelector style_supported fuel depth)
    (i_modifiers (d_instance d)) d None.

(** [update()] *)
Definition update (p : popper) : option (popper * list callback) :=
  if isDestroyed (p_state p) then Some (p, [])
  else
    d ← initial_data p;
    d' ← run_modifiers d;
    let s := p_state p in
    let s' := PState (isDestroyed s) true (eventsEnabled s) (updateBound s)
                (scrollParents s) (scrollElement s) (registered s) in
    let p' := Popper (d_instance d') (p_options p) s' (d_page d') (p_attached p) in
    Some (p', [if isCreated s then OnUpdate d' else OnCreate d']).

(** ** Event listeners *)

(** [attachToScrollParents(scrollParent, event, callback, scrollParents)] *)
Fixpoint attachToScrollParents (D : Dom nodeD) (n : nat) (scrollParent : nodeD)
    (event : string) (ls : listeners) (parents : list target)
    : option (listeners * list target) :=
  let isBody := name_is D scrollParent "BODY" in
  let t := if isBody then TWindow (defaultView scrollParent) else TNode scrollParent in
  let ls1 := addEventListener t event ls in
  '(ls2, parents2) ←
    (if isBody then Some (ls1, parents)
     else match n with
          | 0 => None
          | S n' =>
              next ← getScrollParent D fuel (parentNode D scrollParent);
              attachToScrollParents D n' next event ls1 parents
          end);
  Some (ls2, parents2 ++ [t]).

Definition setupEventListeners (D : Dom nodeD) (reference : nodeD) (s : pstate)
    : option pstate :=
  let ls := addEventListener (TWindow (defaultView reference)) "resize" (registered s) in
  scrollEl ← getScrollParent D fuel (Some reference);
  '(ls', parents) ← attachToScrollParents D fuel scrollEl "scroll" ls (scrollParents s);
  Some (PState (isDestroyed s) (isCreated s) true true parents (Some scrollEl) ls').

Definition enableEventListeners (p : popper) : option popper :=
  if eventsEnabled (p_state p) then Some p
  else
    s ← setupEventListeners (browser (p_page p)) (i_reference (p_instance p)) (p_state p);
    Some (set_state s p).

Definition removeEventListeners (reference : nodeD) (s : pstate) : pstate :=
  let ls := removeEventListener (TWindow (defaultView reference)) "resize" (registered s) in
  let ls' := fold_left (λ ls t, removeEventListener t "scroll" ls) (scrollParents s) ls in
  PState (isDestroyed s) (isCreated s) false false [] None ls'.

Definition disableEventListeners (p : popper) : popper :=
  if eventsEnabled (p_state p) then
    set_state (removeEventListeners (i_reference (p_instance p)) (p_state p)) p
  else p.

(** [destroy()]; the last step throws on a detached popper ([None]). *)
Definition destroy (p : popper) : option popper :=
  let s := p_state p in
  let p1 := set_state (PState true (isCreated s) (eventsEnabled s) (updateBound s)
              (scrollParents s) (scrollElement s) (registered s)) p in
  let clear prop := style_put prop (SStr "") in
  let page1 :=
    if isModifierEnabled (i_modifiers (p_instance p)) "applyStyle" then
      with_style (λ m,
        clear (default "null" (getSupportedPropertyName style_supported "transform"))
          (clear "willChange" (clear "bottom" (clear "right" (clear "left" (clear "top"
            (clear "position" m)))))))
        (with_attrs (delete "x-placement") (p_page p1))
    else p_page p1 in
  let p2 := disableEventListeners
              (Popper (p_instance p1) (p_options p1) (p_state p1) page1 (p_attached p1)) in
  if opt_removeOnDestroy (p_options p2) then
    if p_attached p2 then
      Some (Popper (p_instance p2) (p_options p2) (p_state p2) (p_page p2) false)
    else None
  else Some p2.

(** ** The constructor *)

(** What a caller may override of a modifier: [_extends({}, defaults[name] ||
    {}, options.modifiers[name])].  A modifier that is no default one gives
    its order and function. *)
Record modifier_override := ModifierOverride {
  mo_enabled : option bool; mo_order : option Z; mo_fn : option (modifier_fn (nodeD:=nodeD))
}.

Definition extend_modifier (m : modifier (nodeD:=nodeD)) (o : modifier_override) : modifier :=
  Modifier (m_name m) (default (m_enabled m) (mo_enabled o))
    (default (m_order m) (mo_order o)) (default (m_fn m) (mo_fn o)).

(** [modifiers], lines 1841-2142, in the order of its keys. *)
Definition default_modifiers : list (modifier (nodeD:=nodeD)) :=
  [Modifier "shift" true 100 FnShift;
   Modifier "offset" true 200 (FnOffset (OffNum 0));
   Modifier "preventOverflow" true 300
     (FnPreventOverflow [Left; Right; Top; Bottom] 5 (Some BScrollParent) false);
   Modifier "keepTogether" true 400 FnKeepTogether;
   Modifier "arrow" true 500 (FnArrow (ArrowSelector "[x-arrow]"));
   Modifier "flip" true 600 (FnFlip BFlip 5 BViewport false);
   Modifier "inner" false 700 FnInner;
   Modifier "hide" true 800 FnHide;
   Modifier "computeStyle" true 850 (FnComputeStyle true "bottom" "right");
   Modifier "applyStyle" true 900 (FnApplyStyle None)].

Definition Defaults : options := Options "bottom" false true false.

(** The merge of the caller's modifiers into the defaults: the default names
    first, then the caller's other ones, in their order. *)
Definition merge_modifiers (user : list (string * modifier_override)) : list modifier :=
  let find name := head (List.filter (λ o, bool_decide (o.1 = name)) user) in
  ((λ m, match find (m_name m) with
         | Some (_, o) => extend_modifier m o
         | None => m
         end) <$> default_modifiers) ++
  ((λ '(name, o), extend_modifier (Modifier name false 0 FnNone) o) <$>
    List.filter (λ o, negb (existsb (λ m, bool_decide (m_name m = o.1)) default_modifiers)) user).

Definition order_le (a b : modifier (nodeD:=nodeD)) : Prop := (m_order a <= m_order b)%Z.

#[export] Instance order_le_dec a b : Decision (order_le a b).
Proof. unfold order_le. apply _. Defined.

(** [.sort((a, b) => a.order - b.order)]: a stable sort. *)
Definition sort_modifiers (ms : list modifier) : list modifier := merge_sort order_le ms.

(** [applyStyleOnLoad] *)
Definition applyStyleOnLoad (inst : instance) (o : options) (pg : page) : option page :=
  let D := browser pg in
  reference ← getReferenceOffsets D fuel (i_popper inst) (i_reference inst)
                (opt_positionFixed o);
  '(be, padding) ← flip_options (i_modifiers inst);
  placement ← computeAutoPlacement D fuel (opt_placement o) (o_rect reference)
                (i_popper inst) (i_reference inst) be padding;
  let pg1 := with_attrs <["x-placement" := placement]> pg in
  Some (with_style (setStyles
    [("position", SStr (if opt_positionFixed o then "fixed" else "absolute"))]) pg1).

Definition run_onLoad (inst : instance) (o : options) (opg : option page)
    (m : modifier (nodeD:=nodeD)) : option page :=
  pg ← opg;
  match m_enabled m, m_fn m with
  | true, FnApplyStyle _ => applyStyleOnLoad inst o pg
  | _, _ => Some pg
  end.

(** The constructor; the first [this.update()] is debounced and runs later. *)
Definition new_popper (reference pop : nodeD) (o : options)
    (user : list (string * modifier_override)) (pg : page) (attached : bool)
    : option popper :=
  let ms := sort_modifiers (merge_modifiers user) in
  let inst := Instance pop reference ms in
  let s0 := PState false false false false [] None [] in
  pg1 ← fold_left (run_onLoad inst o) ms (Some pg);
  let p0 := Popper inst o s0 pg1 attached in
  p1 ← (if opt_eventsEnabled o then enableEventListeners p0 else Some p0);
  let s := p_state p1 in
  Some (set_state (PState (isDestroyed s) (isCreated s) (opt_eventsEnabled o) (updateBound s)
                     (scrollParents s) (scrollElement s) (registered s)) p1).
End instance.
