(* ===== verification/PopperGeometry.v ===== *)
(** * Popper: the geometry the modifiers establish

    Facts about the pure arithmetic of Popper.v and PopperPlacement.v: what
    [confine] (the loop of preventOverflow), [keep_together], [arrow_popper],
    [arrow_value], [popper_offsets] and [out_of_bounds] guarantee about
    rectangles.  Q's equality is [==]. *)
From stdpp Require Import base gmap strings list sorting.
From Stdlib Require Import Ascii ZArith QArith Qminmax Qround Lqa.
From S2P Require Import Prelude JsString PopperDom PopperPlacement PopperOffset Popper.

Local Open Scope Q_scope.

(** ** Rectangles *)

(** [right] and [bottom] agree with the other properties. *)
Definition consistent (r : rect) : Prop :=
  r_right r == r_left r + r_width r ∧ r_bottom r == r_top r + r_height r.

Definition bound_on (b : bounds) (s : side) : Q :=
  match s with
  | Top => b_top b | Left => b_left b | Right => b_right b | Bottom => b_bottom b
  end.

(** The room between the boundaries is at least the size of the rectangle. *)
Definition fits (b : bounds) (r : rect) : Prop :=
  r_width r <= b_right b - b_left b ∧ r_height r <= b_bottom b - b_top b.

(** The rectangle with top-left corner and size of [r] respects the boundary
    on side [s]. *)
Definition respects (b : bounds) (r : rect) (s : side) : Prop :=
  match s with
  | Left => b_left b <= r_left r
  | Top => b_top b <= r_top r
  | Right => r_left r + r_width r <= b_right b
  | Bottom => r_top r + r_height r <= b_bottom b
  end.

(** ** [confine], one axis at a time *)

(** The coordinates the loop of preventOverflow passes through, started at
    [x0], for boundaries [lo] and [hi] and a length [len]: the first one, or
    the one on the boundary that was crossed. *)
Definition moved (lo hi len x0 x : Q) : Prop :=
  x == x0 ∨ (x0 < lo ∧ x == lo) ∨ (hi < x0 + len ∧ x == hi - len).

(** The value the primary and the secondary check compute. *)
Definition low_value (lo x : Q) : Q :=
  if Qltb x lo && negb false then Qmax x lo else x.
Definition high_value (hi len far x : Q) : Q :=
  if Qltb hi far && negb false then Qmin x (hi - len) else x.

Lemma low_value_moved lo hi len x0 x :
  len <= hi - lo → moved lo hi len x0 x →
  moved lo hi len x0 (low_value lo x) ∧ lo <= low_value lo x.
Proof.
  intros Hfit Hm. unfold low_value. rewrite andb_true_r.
  destruct (Qltb_spec x lo) as [Hlt|Hge]; [|done].
  destruct (Q.max_spec x lo) as [[? E]|[? E]]; [|lra].
  split; [|lra]. right; left. destruct Hm as [?|[[??]|[??]]]; split; lra.
Qed.

Lemma high_value_moved lo hi len far x0 x :
  far == x0 + len → len <= hi - lo → moved lo hi len x0 x →
  moved lo hi len x0 (high_value hi len far x) ∧ high_value hi len far x + len <= hi.
Proof.
  intros Hfar Hfit Hm. unfold high_value. rewrite andb_true_r.
  destruct (Qltb_spec hi far) as [Hlt|Hge].
  - destruct (Q.min_spec x (hi - len)) as [[? E]|[? E]].
    + destruct Hm as [?|[[??]|[??]]]; lra.
    + split; [right; right; split; lra|lra].
  - split; [done|]. destruct Hm as [?|[[??]|[??]]]; lra.
Qed.

(** A step on one side keeps the boundary of the other side respected. *)
Lemma low_value_high lo hi len x :
  len <= hi - lo → x + len <= hi → low_value lo x + len <= hi.
Proof.
  intros ??. unfold low_value. rewrite andb_true_r.
  destruct (Qltb_spec x lo); [|done].
  destruct (Q.max_spec x lo) as [[? E]|[? E]]; lra.
Qed.

Lemma high_value_low lo hi len far x :
  len <= hi - lo → lo <= x → lo <= high_value hi len far x.
Proof.
  intros ??. unfold high_value. rewrite andb_true_r.
  destruct (Qltb_spec hi far); [|done].
  destruct (Q.min_spec x (hi - len)) as [[? E]|[? E]]; lra.
Qed.

Section confine.
Variable b : bounds.
Variable r : rect.
Hypothesis Hr : consistent r.
Hypothesis Hfit : fits b r.

(** The states of the loop started at [r]: sizes, [right] and [bottom] are
    never written, and each coordinate has moved as little as it had to. *)
Record confined (r' : rect) : Prop := {
  cf_width : r_width r' = r_width r;
  cf_height : r_height r' = r_height r;
  cf_right : r_right r' = r_right r;
  cf_bottom : r_bottom r' = r_bottom r;
  cf_left : moved (b_left b) (b_right b) (r_width r) (r_left r) (r_left r');
  cf_top : moved (b_top b) (b_bottom b) (r_height r) (r_top r) (r_top r')
}.

Lemma confined_start : confined r.
Proof. split; try done; by left. Qed.

Lemma check_side_confined r' s :
  confined r' → confined (check_side b false r' s) ∧ respects b (check_side b false r' s) s.
Proof.
  destruct Hr as [Hrr Hrb], Hfit as [Hw Hh]. intros [Ew Eh Er Eb Hl Ht].
  destruct s; simpl.
  - destruct (low_value_moved _ _ _ _ _ Hh Ht) as [??]. split; [by split|done].
  - destruct (low_value_moved _ _ _ _ _ Hw Hl) as [??]. split; [by split|done].
  - rewrite Ew, Er. destruct (high_value_moved _ _ _ _ _ _ Hrr Hw Hl) as [??].
    split; [by split|done].
  - rewrite Eh, Eb. destruct (high_value_moved _ _ _ _ _ _ Hrb Hh Ht) as [??].
    split; [by split|done].
Qed.

Lemma check_side_respects r' s s' :
  confined r' → respects b r' s' → respects b (check_side b false r' s) s'.
Proof.
  destruct Hr as [Hrr Hrb], Hfit as [Hw Hh]. intros Hc Hs'.
  pose proof (check_side_confined r' s Hc) as [_ Hs]. destruct Hc as [Ew Eh Er Eb Hl Ht].
  destruct s, s'; simpl in *; try done; rewrite ?Ew, ?Eh, ?Er, ?Eb in *;
    first [by apply low_value_high | by apply high_value_low].
Qed.

Lemma confine_confined order r' :
  confined r' →
  confined (confine b false order r') ∧
  (∀ s, s ∈ order ∨ respects b r' s → respects b (confine b false order r') s).
Proof.
  unfold confine. revert r'. induction order as [|s order IH]; intros r' Hc; simpl.
  - split; [done|]. intros s [Hs|Hs]; [by apply elem_of_nil in Hs|done].
  - destruct (check_side_confined r' s Hc) as [Hc' Hs].
    destruct (IH _ Hc') as [Hc'' IHs]. split; [done|].
    intros s' [Hin|Hs']; apply IHs.
    + apply elem_of_cons in Hin as [->|Hin]; auto.
    + right. by apply check_side_respects.
Qed.
End confine.

(** ** [keepTogether] *)

(** The extent of a rectangle on one axis: its near side, its far side and its
    length. *)
Definition near (vertical : bool) : side := if vertical then Left else Top.
Definition far (vertical : bool) : side := if vertical then Right else Bottom.
Definition along (vertical : bool) : measure := if vertical then Width else Height.

Lemma consistent_far r v :
  consistent r → get r (far v) == get r (near v) + size r (along v).
Proof. intros [??]. by destruct v. Qed.

Lemma refresh_far r v : get (refresh r) (far v) = get r (near v) + size r (along v).
Proof. by destruct v. Qed.

Lemma refresh_near r v : get (refresh r) (near v) = get r (near v).
Proof. by destruct v. Qed.

Lemma refresh_consistent r : consistent (refresh r).
Proof. by split. Qed.

Lemma get_set_near v r q : get (set r (near v) q) (near v) = q.
Proof. by destruct v. Qed.
Lemma get_set_far v r q : get (set r (near v) q) (far v) = get r (far v).
Proof. by destruct v. Qed.
Lemma size_set v r s q : size (set r s q) v = size r v.
Proof. by destruct v, s. Qed.

Lemma floorQ_le a b : a <= b → floorQ a <= floorQ b.
Proof. intros. unfold floorQ. rewrite <-Zle_Qle. by apply Qfloor_resp_le. Qed.

Lemma keep_together_touches v ref r :
  consistent ref → consistent r → 0 <= size r (along v) → 0 <= size ref (along v) →
  let r' := refresh (keep_together v ref r) in
  floorQ (get ref (near v)) <= get r' (far v) ∧ get r' (near v) <= floorQ (get ref (far v)).
Proof.
  intros Href Hr Hlen Hlref r'. subst r'.
  pose proof (consistent_far _ v Href) as Ef. pose proof (consistent_far _ v Hr) as Er.
  assert (floorQ (get ref (near v)) <= floorQ (get ref (far v))) as Hfl
    by (apply floorQ_le; lra).
  rewrite refresh_far, refresh_near. unfold keep_together.
  fold (near v) (far v) (along v).
  destruct (Qltb_spec (get r (far v)) (floorQ (get ref (near v)))); cbv zeta;
    [rewrite get_set_near|];
    match goal with |- context [Qltb ?a ?b] => destruct (Qltb_spec a b) end;
    rewrite ?get_set_near, ?size_set; lra.
Qed.

(** ** [arrow] *)

Definition arrow_near (vertical : bool) : side := if vertical then Top else Left.
Definition arrow_far (vertical : bool) : side := if vertical then Bottom else Right.
Definition arrow_along (vertical : bool) : measure := if vertical then Height else Width.

Lemma arrow_axis v :
  arrow_near v = near (negb v) ∧ arrow_far v = far (negb v) ∧ arrow_along v = along (negb v).
Proof. by destruct v. Qed.

(** The popper is moved so that it shares the length of the arrow with the
    reference, provided the reference is as long as two arrows. *)
Lemma arrow_popper_shares v a ref r :
  consistent ref → consistent r → 0 <= a → a <= size r (arrow_along v) →
  2 * a <= size ref (arrow_along v) →
  let r' := arrow_popper v a ref r in
  get r' (arrow_near v) <= get ref (arrow_far v) - a ∧
  get ref (arrow_near v) + a <= get r' (arrow_near v) + size r' (arrow_along v) ∧
  size r' (arrow_along v) = size r (arrow_along v) ∧ consistent r'.
Proof.
  intros Href Hr Ha Hlen Hlref r'. subst r'.
  destruct (arrow_axis v) as (En & Ef & Ea).
  pose proof (consistent_far _ (negb v) Href) as Efr. pose proof (consistent_far _ (negb v) Hr) as Er.
  unfold arrow_popper. cbv zeta.
  fold (arrow_near v) (arrow_far v).
  rewrite En, Ef, Ea in *. set (w := negb v) in *. clearbody w. clear v En Ef Ea.
  assert (∀ r, size (refresh r) (along w) = size r (along w)) as Hs by (intros; by destruct w).
  rewrite refresh_near, Hs.
  destruct (Qltb_spec (get ref (far w) - a) (get r (near w)));
    [rewrite get_set_far, get_set_near|];
    match goal with |- context [Qltb ?a ?b] => destruct (Qltb_spec a b) end;
    rewrite ?get_set_near, ?size_set;
    (split_and!; [lra|lra|done|apply refresh_consistent]).
Qed.

(** The offset of the arrow stays in the popper, and the arrow at that offset
    points at the reference. *)
Lemma arrow_value_points v a m bd ref r :
  consistent ref → 0 <= a → a <= size r (arrow_along v) → a <= size ref (arrow_along v) →
  get r (arrow_near v) <= get ref (arrow_far v) - a →
  get ref (arrow_near v) + a <= get r (arrow_near v) + size r (arrow_along v) →
  let x := arrow_value v a m bd ref r in
  0 <= x ∧ x + a <= size r (arrow_along v) ∧
  (m + bd == 0 →
    get ref (arrow_near v) <= get r (arrow_near v) + x ∧
    get r (arrow_near v) + x + a <= get ref (arrow_far v)).
Proof.
  intros Href Ha Hlen Hlref Hn Hf x. subst x.
  destruct (arrow_axis v) as (En & Ef & Ea).
  pose proof (consistent_far _ (negb v) Href) as Efr.
  unfold arrow_value. cbv zeta. fold (arrow_near v) (arrow_along v).
  rewrite En, Ef, Ea in *. set (w := negb v) in *. clearbody w. clear v En Ef Ea.
  set (rn := get r (near w)) in *. set (fn := get ref (near w)) in *.
  set (ff := get ref (far w)) in *. set (rl := size r (along w)) in *.
  set (fl := size ref (along w)) in *.
  set (h := fl / 2). assert (h + h == fl) as Hh by (unfold h; field).
  set (k := a / 2). assert (k + k == a) as Hk by (unfold k; field).
  clearbody rn fn ff rl fl h k.
  destruct (Q.min_spec (rl - a) (fn + h - k - rn - m - bd)) as [[? E]|[? E]];
  match goal with |- context [Qmax ?p ?q] => destruct (Q.max_spec p q) as [[? E']|[? E']] end;
    (split; [lra|split; [lra|intros; split; lra]]).
Qed.

(** ** [popper_offsets] and placements *)

(** [p] names [s], with or without a variation. *)
Definition places_at (p : string) (s : side) : Prop := basePlacement p = side_name s.

(** The box lies against side [s] of [ref] and is centred along it. *)
Definition adjacent (s : side) (ref : rect) (x : box) : Prop :=
  match s with
  | Top => x_top x + x_height x == r_top ref ∧
           x_left x + x_width x / 2 == r_left ref + r_width ref / 2
  | Bottom => x_top x == r_bottom ref ∧
           x_left x + x_width x / 2 == r_left ref + r_width ref / 2
  | Left => x_left x + x_width x == r_left ref ∧
           x_top x + x_height x / 2 == r_top ref + r_height ref / 2
  | Right => x_left x == r_right ref ∧
           x_top x + x_height x / 2 == r_top ref + r_height ref / 2
  end.

Lemma popper_offsets_place w h ref p s :
  places_at p s → adjacent s ref (popper_offsets w h ref p).
Proof.
  unfold places_at, popper_offsets. cbv zeta. intros ->.
  unfold is_one_of. destruct s; cbn [side_name adjacent]; eval_tests; split; field.
Qed.

Lemma opposite_places p s :
  p ∈ validPlacements → places_at p s →
  places_at (getOppositePlacement p) (opposite_side s) ∧
  getOppositePlacement (getOppositePlacement p) = p ∧
  variationOf (getOppositePlacement p) = variationOf p.
Proof.
  unfold places_at. intros Hp Hs.
  repeat (apply elem_of_cons in Hp as [->|Hp]; [by destruct s|]).
  by apply elem_of_nil in Hp.
Qed.

(** ** The automatic placement *)

Definition area_ge (x y : area_entry) : Prop :=
  match a_area x, a_area y with Some a, Some b => b <= a | _, _ => False end.

Definition has_area (x : area_entry) : Prop := is_Some (a_area x).

Lemma insert_area_perm x l : insert_area x l ≡ₚ x :: l.
Proof.
  induction l as [|y l IH]; simpl; [done|].
  destruct (area_after y x); [done|]. rewrite IH. constructor.
Qed.

Lemma sort_areas_perm l : sort_areas l ≡ₚ l.
Proof.
  unfold sort_areas.
  assert (∀ acc, fold_left (λ acc x, insert_area x acc) l acc ≡ₚ acc ++ l) as H.
  { induction l as [|x l IH]; intros acc; simpl; [by rewrite app_nil_r|].
    rewrite IH, insert_area_perm. apply Permutation_middle. }
  apply H.
Qed.

Lemma insert_area_sorted x l :
  has_area x → Forall has_area l → StronglySorted area_ge l →
  StronglySorted area_ge (insert_area x l).
Proof.
  intros [ax Hx] Hl. induction 1 as [|y l Hs IH Hall]; simpl.
  - repeat constructor.
  - apply Forall_cons in Hl as [[ay Hy] Hl].
    unfold area_after. rewrite Hx, Hy. destruct (Qltb_spec ay ax) as [Hlt|Hge].
    + constructor; [by constructor|]. constructor.
      * unfold area_ge. rewrite Hx, Hy. lra.
      * eapply Forall_impl; [exact Hall|]. intros z. unfold area_ge. rewrite Hx, Hy.
        destruct (a_area z); [|done]. intros. lra.
    + constructor; [by apply IH|]. rewrite insert_area_perm. constructor; [|done].
      unfold area_ge. by rewrite Hx, Hy.
Qed.

Lemma sort_areas_sorted l :
  Forall has_area l → StronglySorted area_ge (sort_areas l).
Proof.
  intros Hl. unfold sort_areas.
  assert (∀ acc, Forall has_area acc → StronglySorted area_ge acc →
    StronglySorted area_ge (fold_left (λ acc x, insert_area x acc) l acc)) as H.
  { induction Hl as [|x l Hx Hl IH]; intros acc Ha Hs; simpl; [done|].
    apply IH; [rewrite insert_area_perm; by constructor|by apply insert_area_sorted]. }
  apply H; constructor.
Qed.

Lemma sorted_filter_head (P : area_entry → bool) l x k :
  StronglySorted area_ge l → List.filter P l = x :: k →
  x ∈ l ∧ P x = true ∧ ∀ y, y ∈ l → P y = true → y = x ∨ area_ge x y.
Proof.
  induction 1 as [|y l Hs IH Hall]; simpl; [done|]. destruct (P y) eqn:EP.
  - intros [= <- _]. split_and!; [left|done|].
    intros z [->|Hz]%elem_of_cons _; [by left|right]. by eapply Forall_forall in Hall.
  - intros Hx. destruct (IH Hx) as (Hin & HP & Hmax). split_and!; [by right|done|].
    intros z [->|Hz]%elem_of_cons HPz; [congruence|auto].
Qed.

(** Whether the popper of the given client sizes fits an area. *)
Definition area_fits (cw ch : Q) (a : area_entry) : bool :=
  at_least (a_width a) cw && at_least (a_height a) ch.

(** The entry [computeAutoPlacement] takes. *)
Lemma choose_placement_best placement ref b cw ch :
  is_Some (b_width b) → is_Some (b_height b) →
  ∃ a, a ∈ area_rects ref b ∧
    choose_placement placement ref b cw ch = with_variation (a_key a) (variationOf placement) ∧
    (∀ a', a' ∈ area_rects ref b → area_fits cw ch a' = true →
       area_fits cw ch a = true ∧ (a' = a ∨ area_ge a a')) ∧
    (area_fits cw ch a = false → ∀ a', a' ∈ area_rects ref b → a' = a ∨ area_ge a a').
Proof.
  intros [w Hw] [h Hh].
  pose proof (sort_areas_perm (area_rects ref b)) as Hp.
  assert (StronglySorted area_ge (sort_areas (area_rects ref b))) as Hs.
  { apply sort_areas_sorted. unfold area_rects. rewrite Hw, Hh. repeat constructor; eexists; done. }
  unfold choose_placement. fold (area_fits cw ch).
  destruct (List.filter (area_fits cw ch) _) as [|a k] eqn:Ef.
  - destruct (sort_areas (area_rects ref b)) as [|a k] eqn:Es.
    { apply Permutation_nil_l in Hp. discriminate Hp. }
    assert (∀ a', a' ∈ area_rects ref b → area_fits cw ch a' = false) as Hno.
    { intros a' Ha'. destruct (area_fits cw ch a') eqn:E; [|done].
      assert (a' ∈ List.filter (area_fits cw ch) (a :: k)) as Hin.
      { apply list_elem_of_In, filter_In. split; [|done].
        apply list_elem_of_In. by rewrite Hp. }
      rewrite Ef in Hin. by apply elem_of_nil in Hin. }
    exists a. split_and!.
    + rewrite <-Hp. left.
    + done.
    + intros a' Ha' E. by rewrite Hno in E.
    + intros _ a' Ha'. rewrite <-Hp in Ha'. apply elem_of_cons in Ha' as [->|Ha']; [by left|].
      right. inversion Hs as [|?? _ Hall]. by eapply Forall_forall in Hall.
  - destruct (sorted_filter_head _ _ _ _ Hs Ef) as (Hin & Hfits & Hmax).
    exists a. rewrite Hp in Hin. split_and!; [done|done| |congruence].
    intros a' Ha' E. split; [done|]. apply Hmax; [by rewrite Hp|done].
Qed.

(** ** [hide] *)

(** Two closed rectangles share a point. *)
Definition meets (r : rect) (b : bounds) : Prop :=
  ∃ x y, r_left r <= x <= r_right r ∧ b_left b <= x <= b_right b ∧
         r_top r <= y <= r_bottom r ∧ b_top b <= y <= b_bottom b.

Lemma out_of_bounds_meets r b :
  r_left r <= r_right r → r_top r <= r_bottom r →
  b_left b <= b_right b → b_top b <= b_bottom b →
  out_of_bounds r b = false ↔ meets r b.
Proof.
  intros Hx Hy Hbx Hby. unfold out_of_bounds. rewrite !orb_false_iff, !Qltb_ge. split.
  - intros [[[Hb Hl] Ht] Hr].
    exists (Qmax (r_left r) (b_left b)), (Qmax (r_top r) (b_top b)).
    destruct (Q.max_spec (r_left r) (b_left b)) as [[? E]|[? E]],
      (Q.max_spec (r_top r) (b_top b)) as [[? E']|[? E']]; split_and!; lra.
  - intros (x & y & ? & ? & ? & ?). split_and!; lra.
Qed.
