(* ===== verification/PopperFacts.v ===== *)
(** * Popper: the modifiers' theorems

    What preventOverflow, keepTogether, arrow, flip, hide and the automatic
    placement guarantee, from PopperGeometry.v; that the pipeline keeps the
    instance, and that the recursion of flip stops.  [demo_dom] is the page of
    the witnesses. *)
From stdpp Require Import base gmap strings list sorting.
From Stdlib Require Import Ascii ZArith QArith Qminmax Qround Lqa.
From S2P Require Import Prelude JsString PopperDom PopperPlacement PopperOffset Popper.
From S2P Require Import PopperInstance PopperGeometry.

Local Open Scope Q_scope.

(** ** A page

    [<html><body><popper/><reference/></body></html>], the popper 50 by 20, the
    reference 100 by 40 at (200, 0), in a window of 1000 by 500. *)
Definition demo_name (n : nat) : string :=
  match n with 0%nat => "HTML" | 1%nat => "BODY" | 9%nat => "#document" | _ => "DIV" end.
Definition demo_parent (n : nat) : option nat :=
  match n with 0%nat => Some 9%nat | 1%nat => Some 0%nat | 9%nat => None | _ => Some 1%nat end.
Definition demo_rect (n : nat) : rect :=
  match n with
  | 2%nat => Rect 0 0 50 20 50 20
  | 3%nat => Rect 0 200 100 40 300 40
  | _ => Rect 0 0 1000 500 1000 500
  end.
Definition demo_style (n : nat) (p : string) : string :=
  if bool_decide (p = "position") then "static"
  else if bool_decide (p = "transform") then "none" else "visible".

Definition demo_dom : Dom nat := {|
  nodeName := demo_name;
  nodeType n := if Nat.eqb n 9 then 9%nat else 1%nat;
  parentNode := demo_parent;
  host _ := None;
  parentElement n := if Nat.eqb n 0 then None else demo_parent n;
  nextElementSibling n := if Nat.eqb n 2 then Some 3%nat else None;
  firstElementChild n := match n with 0%nat => Some 1%nat | 1%nat => Some 2%nat | _ => None end;
  contains a b := Nat.eqb a b || Nat.eqb a 0 || (Nat.eqb a 1 && negb (Nat.eqb b 0));
  following a b := Nat.ltb a b;
  commonAncestorContainer a b := if Nat.leb a 1 then a else 1%nat;
  document_body := 1%nat;
  document_documentElement := 0%nat;
  ownerDocument_body _ := 1%nat;
  ownerDocument_documentElement _ := 0%nat;
  ownerDocument_scrollingElement _ := Some 0%nat;
  document_node_body _ := 1%nat;
  computedStyle := demo_style;
  styleFloat _ _ := 0;
  offsetParent n := if Nat.leb n 1 then None else Some 1%nat;
  scrollTop _ := 0;
  scrollLeft _ := 0;
  clientWidth n := r_width (demo_rect n);
  clientHeight n := r_height (demo_rect n);
  offsetWidth n := r_width (demo_rect n);
  offsetHeight n := r_height (demo_rect n);
  scrollWidth n := r_width (demo_rect n);
  scrollHeight n := r_height (demo_rect n);
  boundingClientRect := demo_rect;
  window_innerWidth := 1000;
  window_innerHeight := 500;
  isIE10 := false;
  isIE11 := false
|}.

(** ** Styles *)

Lemma style_put_read prop m : style_wf m → style_put prop (style_read prop m) m = m.
Proof.
  intros Hwf. unfold style_read, style_put. specialize (Hwf prop).
  destruct (m !! prop) as [v|] eqn:E; simpl.
  - destruct v as [| |[|]|]; try done; by apply insert_id.
  - by apply delete_id.
Qed.

Lemma lookup_style_put prop v m k :
  style_put prop v m !! k =
    if decide (prop = k) then match v with SStr EmptyString => None | _ => Some v end else m !! k.
Proof.
  unfold style_put. destruct (decide (prop = k)) as [->|Hne].
  - destruct v as [| |[|]|]; by rewrite ?lookup_delete_eq, ?lookup_insert_eq.
  - destruct v as [| |[|]|]; by rewrite ?lookup_delete_ne, ?lookup_insert_ne.
Qed.

Lemma lookup_read_put prop old m k :
  style_wf old →
  style_put prop (style_read prop old) m !! k =
    if decide (prop = k) then old !! k else m !! k.
Proof.
  intros Hwf. rewrite lookup_style_put. destruct (decide (prop = k)) as [->|]; [|done].
  unfold style_read. specialize (Hwf k). destruct (old !! k) as [v|]; simpl; [|done].
  by destruct v as [| |[|]|].
Qed.

(** Taking the popper out of the flow and putting it back keeps the style. *)
Lemma restore_reset transformProp m :
  style_wf m → restore_style transformProp m (reset_style transformProp m) = m.
Proof.
  intros Hwf. apply map_eq. intros k. unfold restore_style, reset_style.
  rewrite !lookup_read_put, !lookup_style_put by done. by repeat case_decide.
Qed.

(** ** The pipeline *)

Section pipeline.
Context {nodeD : Type} `{EqDecision nodeD}.
Variable browser : page → Dom nodeD.
Variable querySelector : nodeD → string → option nodeD.
Variable style_supported : string → bool.
Variable fuel : nat.

Abbreviation datum := (data (nodeD:=nodeD)).
Abbreviation modif := (modifier (nodeD:=nodeD)).
Abbreviation runner := (modif → datum → option datum).
Implicit Types (d : datum) (m : modif) (run : runner).

Lemma runModifiers_step_none run ms :
  fold_left (runModifiers_step run) ms None = None.
Proof. by induction ms. Qed.

(** An invariant of every modifier that is kept when the rectangles are
    refreshed is one of the pipeline. *)
Lemma runModifiers_inv (P : datum → Prop) run ms ends d d' :
  (∀ d r r', P d → P (set_reference r (set_popper r' d))) →
  (∀ m d d', m ∈ ms → P d → run m d = Some d' → P d') →
  P d → runModifiers run ms d ends = Some d' → P d'.
Proof.
  intros Hset Hrun. unfold runModifiers.
  assert (∀ m, m ∈ modifiersToRun ms ends → m ∈ ms) as Hsub.
  { intros m. unfold modifiersToRun.
    repeat break_goal; try done; intros Hm; by apply elem_of_take in Hm as (? & ? & _);
      eapply list_elem_of_lookup_2. }
  revert Hsub. generalize (modifiersToRun ms ends). intros l. revert d.
  induction l as [|m l IH]; intros d Hsub HP; cbn [fold_left].
  - by intros [= <-].
  - destruct (runModifiers_step run (Some d) m) as [d1|] eqn:E;
      [|by rewrite runModifiers_step_none].
    apply IH; [intros; apply Hsub; by right|].
    revert E. unfold runModifiers_step. simpl.
    assert (m ∈ ms) by (apply Hsub; left).
    destruct (m_fn m), (m_enabled m); intros; simplify_eq; try done;
      (eapply Hrun; [done| |done]); by apply Hset.
Qed.

(** The pipeline only calls the enabled functions of the modifiers it runs. *)
Lemma runModifiers_ext run1 run2 ms ends d :
  (∀ m d, m ∈ modifiersToRun ms ends → m_fn m ≠ FnNone → m_enabled m = true → run1 m d = run2 m d) →
  runModifiers run1 ms d ends = runModifiers run2 ms d ends.
Proof.
  unfold runModifiers. generalize (modifiersToRun ms ends) as l. generalize (Some d).
  intros od l. revert od. induction l as [|m l IH]; intros od Hrun; cbn [fold_left]; [done|].
  rewrite IH by (intros; apply Hrun; auto; by right). f_equal.
  unfold runModifiers_step. destruct od as [d1|]; [|done]. simpl.
  destruct (m_fn m) eqn:Ef, (m_enabled m) eqn:Ee; try done;
    (apply Hrun; [by left|by rewrite Ef|done]).
Qed.

Abbreviation run_mod := (run_modifier browser querySelector style_supported fuel).

(** ** Every modifier keeps the popper's instance *)

Definition at_instance (i : instance) (d : datum) : Prop := d_instance d = i.

Lemma flip_step_instance run b fv order st index step st' i :
  (∀ m d d', m ∈ i_modifiers i → at_instance i d → run m d = Some d' → at_instance i d') →
  at_instance i (f_data st) → flip_step browser run b fv order st index step = Some st' →
  at_instance i (f_data st').
Proof.
  intros Hrun Hi. unfold flip_step.
  destruct (_ || Nat.eqb _ _); [by intros [= <-]|].
  match goal with |- context [if ?c then _ else _] => destruct c end; [|by intros [= <-]].
  intros E. apply bind_Some in E as (d3 & E & [= <-]). simpl.
  eapply runModifiers_inv; [| | |exact E]; simpl.
  - intros ??? H. exact H.
  - intros m d d' Hm. apply Hrun. unfold at_instance in Hi. by rewrite Hi in Hm.
  - exact Hi.
Qed.

Lemma flip_loop_instance run b fv order steps index st st' i :
  (∀ m d d', m ∈ i_modifiers i → at_instance i d → run m d = Some d' → at_instance i d') →
  at_instance i (f_data st) →
  flip_loop browser run b fv order steps index st = Some st' → at_instance i (f_data st').
Proof.
  intros Hrun. revert index st. induction steps as [|s steps IH]; intros index st Hi; simpl.
  - by intros [= <-].
  - intros E. apply bind_Some in E as (st1 & E1 & E). eapply IH; [|exact E].
    by eapply flip_step_instance.
Qed.

Lemma flip_instance run b padding be fv d d' i :
  (∀ m d d', m ∈ i_modifiers i → at_instance i d → run m d = Some d' → at_instance i d') →
  at_instance i d → flip browser fuel run b padding be fv d = Some d' → at_instance i d'.
Proof.
  intros Hrun Hi. unfold flip.
  destruct (isModifierEnabled _ _); [by intros [= <-]|].
  destruct (d_flipped d && _); [by intros [= <-]|].
  intros E. apply bind_Some in E as (bd & _ & E). apply bind_Some in E as (st & E & [= <-]).
  by eapply flip_loop_instance; [| |exact E].
Qed.

(** Chase the binds and the tests of a modifier that returned. *)
Ltac chase :=
  repeat match goal with
  | E : (_ ≫= _) = Some _ |- _ => apply bind_Some in E as (? & ? & ?)
  | E : Some _ = Some _ |- _ => injection E as <-
  | E : (if ?c then _ else _) = Some _ |- _ => destruct c
  | E : (match ?c with _ => _ end) = Some _ |- _ => destruct c
  end; try done.

Lemma shift_instance d : d_instance (shift d) = d_instance d.
Proof. unfold shift. by repeat break_goal. Qed.
Lemma offset_instance o d : d_instance (offset browser o d) = d_instance d.
Proof. unfold offset. by repeat break_goal. Qed.
Lemma arrow_instance e d : d_instance (arrow browser querySelector e d) = d_instance d.
Proof. unfold arrow. by repeat break_goal. Qed.
Lemma preventOverflow_instance name order padding be esc d d' :
  preventOverflow browser style_supported fuel name order padding be esc d = Some d' →
  d_instance d' = d_instance d.
Proof. unfold preventOverflow. intros. chase. Qed.
Lemma inner_instance d d' : inner d = Some d' → d_instance d' = d_instance d.
Proof. unfold inner. intros. chase. Qed.
Lemma hide_instance d d' : hide d = Some d' → d_instance d' = d_instance d.
Proof. unfold hide. intros. chase. Qed.
Lemma computeStyle_instance gpu x y d d' :
  computeStyle browser style_supported fuel gpu x y d = Some d' →
  d_instance d' = d_instance d.
Proof. unfold computeStyle. intros. chase. Qed.

Lemma run_modifier_instance depth m d d' :
  run_mod depth m d = Some d' → d_instance d' = d_instance d.
Proof.
  revert m d d'. induction depth as [|depth IH]; intros m d d'; simpl;
    destruct (m_fn m); try (by intros [= <-]); try done;
    try (intros [= <-]; by first [apply shift_instance|apply offset_instance
      |apply arrow_instance]);
    try (by first [apply preventOverflow_instance|apply inner_instance|apply hide_instance
      |apply computeStyle_instance]).
  intros E. eapply (flip_instance _ _ _ _ _ _ _ (d_instance d)); [|done|exact E].
  intros m' d1 d1' _ Hi E1. unfold at_instance in *. by rewrite (IH _ _ _ E1).
Qed.
(** ** The recursion of [flip] *)

(** Two runners that agree on the modifiers before [flip] give the same
    flips. *)
Definition agree_before_flip (i : instance (nodeD:=nodeD)) run1 run2 : Prop :=
  ∀ m d, m ∈ modifiersToRun (i_modifiers i) (Some "flip") → run1 m d = run2 m d.

Lemma flip_step_ext run1 run2 b fv order st index step i :
  agree_before_flip i run1 run2 → at_instance i (f_data st) →
  flip_step browser run1 b fv order st index step =
  flip_step browser run2 b fv order st index step.
Proof.
  intros Hrun Hi. unfold flip_step. destruct (_ || Nat.eqb _ _); [done|].
  match goal with |- context [if ?c then _ else _] => destruct c end; [|done].
  match goal with |- runModifiers _ ?l ?dd ?e ≫= _ = _ =>
    rewrite (runModifiers_ext run1 run2 l e dd); [done|] end.
  intros m d Hm _ _. apply Hrun. unfold at_instance in Hi. simpl in Hm. by rewrite Hi in Hm.
Qed.

Lemma flip_loop_ext run1 run2 b fv order steps index st i :
  agree_before_flip i run1 run2 →
  (∀ m d d', run1 m d = Some d' → d_instance d' = d_instance d) →
  at_instance i (f_data st) →
  flip_loop browser run1 b fv order steps index st =
  flip_loop browser run2 b fv order steps index st.
Proof.
  intros Hrun Hkeep. revert index st.
  induction steps as [|s steps IH]; intros index st Hi; simpl; [done|].
  rewrite <-(flip_step_ext run1 run2 _ _ _ _ _ _ i) by done.
  destruct (flip_step browser run1 b fv order st index s) as [st1|] eqn:E; [|done].
  apply IH. eapply flip_step_instance; [|exact Hi|exact E].
  intros m d d' _ Hd E'. unfold at_instance in *. by rewrite (Hkeep _ _ _ E').
Qed.

Lemma flip_ext run1 run2 b padding be fv d :
  agree_before_flip (d_instance d) run1 run2 →
  (∀ m d d', run1 m d = Some d' → d_instance d' = d_instance d) →
  flip browser fuel run1 b padding be fv d = flip browser fuel run2 b padding be fv d.
Proof.
  intros Hrun Hkeep. unfold flip. repeat (case_match; [done|]).
  destruct (getBoundaries _ _ _ _ _ _ _) as [bd|]; [|done]. simpl.
  by rewrite (flip_loop_ext run1 run2 _ _ _ _ _ _ (d_instance d)).
Qed.

Definition is_flip (f : modifier_fn (nodeD:=nodeD)) : bool :=
  match f with FnFlip _ _ _ _ => true | _ => false end.

(** No function of a modifier placed before [flip] is a flip itself. *)
Definition one_flip (i : instance (nodeD:=nodeD)) : Prop :=
  ∀ m, m ∈ modifiersToRun (i_modifiers i) (Some "flip") → is_flip (m_fn m) = false.

Lemma run_modifier_plain k k' m d :
  is_flip (m_fn m) = false → run_mod k m d = run_mod k' m d.
Proof. intros Hf. destruct k, k'; simpl; by destruct (m_fn m). Qed.

Lemma run_modifier_stable k m d :
  one_flip (d_instance d) → run_mod (S k) m d = run_mod 1 m d.
Proof.
  intros Hone. simpl. destruct (m_fn m) eqn:Ef; try done.
  apply flip_ext.
  - intros m' d' Hm'. exact (run_modifier_plain k O m' d' (Hone m' Hm')).
  - apply run_modifier_instance.
Qed.

(** ** The outcome of [flip] *)

Lemma flip_loop_skip run b fv order steps index st :
  f_placement st ∉ steps → flip_loop browser run b fv order steps index st = Some st.
Proof.
  revert index. induction steps as [|s steps IH]; intros index Hst; simpl; [done|].
  apply not_elem_of_cons in Hst as [Hs Hst]. unfold flip_step.
  rewrite bool_decide_eq_false_2 by done. simpl. by apply IH.
Qed.

(** The data of a popper that is turned to the placement [p] with the
    variation [v], before the modifiers run on it again. *)
Definition turned (p v : string) (d : datum) : datum :=
  let d1 := set_placement (with_variation p (Some v)) (set_flipped true d) in
  set_popper (extend_popper (d_popper d1)
    (getPopperOffsets (dom browser d1) (i_popper (d_instance d1)) (d_reference d1)
       (d_placement d1))) d1.

(** The last placement to try is not acted on. *)
Lemma flip_step_last run b fv order st index step :
  length order = S index → flip_step browser run b fv order st index step = Some st.
Proof. intros Hl. unfold flip_step. rewrite Hl, Nat.eqb_refl. by rewrite orb_true_r. Qed.

(** Two placements to try: only the first one is acted on. *)
Lemma flip_step_first run b fv d v q :
  let p := basePlacement (d_placement d) in
  let bad := overlapsRef p (d_popper d) (d_reference d) ||
             overflowsBoundaries p (d_popper d) b in
  let var := flippedVariation fv p v (d_popper d) b in
  let p' := if bad then q else p in
  let v' := if var then getOppositeVariation v else v in
  flip_step browser run b fv [p; q] (FlipState d p v) 0 p =
    if bad || var then
      d3 ← runModifiers run (i_modifiers (d_instance d)) (turned p' v' d) (Some "flip");
      Some (FlipState d3 p' v')
    else Some (FlipState d p v).
Proof.
  intros p bad var p' v'. unfold flip_step. cbn [f_placement f_data f_variation].
  by rewrite bool_decide_eq_true_2.
Qed.

Lemma flip_loop_two run b fv d v q :
  let p := basePlacement (d_placement d) in
  flip_loop browser run b fv [p; q] [p; q] 0 (FlipState d p v) =
    flip_step browser run b fv [p; q] (FlipState d p v) 0 p.
Proof.
  intros p. cbn [flip_loop]. destruct (flip_step _ _ _ _ _ _ _ p) as [st|]; [|done].
  cbn [mbind option_bind]. by rewrite flip_step_last.
Qed.

Lemma clockwise_excludes p counter :
  p ∈ ["top"; "right"; "bottom"; "left"] → p ∉ clockwise p counter.
Proof.
  intros Hp.
  repeat (apply elem_of_cons in Hp as [->|Hp];
    [destruct counter; apply (bool_decide_unpack _); by vm_compute|]).
  by apply elem_of_nil in Hp.
Qed.
End pipeline.

(** ** Witness data: a popper below its reference on the page above *)

Definition demo_browser (_ : page) : Dom nat := demo_dom.
Definition demo_query (_ : nat) (s : string) : option nat :=
  if bool_decide (s = "[x-arrow]") then Some 4%nat else None.
Definition demo_supported (s : string) : bool := bool_decide (s = "transform").
Definition demo_instance : instance (nodeD:=nat) := Instance 2%nat 3%nat default_modifiers.
Definition demo_page : page := Page ∅ ∅ ∅.

(** The popper at [(left, top)], placed at [placement]. *)
Definition demo_data (placement : string) (left top : Q) : data (nodeD:=nat) :=
  Data demo_instance ∅ ∅ ∅ false None placement placement false
    (getClientRect (Box top left 50 20)) "absolute" (demo_rect 3) ∅ None ∅ demo_page.

(** C28. [preventOverflow] with escapeWithReference off, as it is by default, when its
    measuring returns, measures with the popper out of the flow and then restores its
    inline style; it records the boundaries it used, and when the popper (with consistent
    sides and sizes) fits between them, afterwards it respects the boundary on every side
    named by [priority], whatever their order, having moved only onto boundaries that it
    crossed. *)
Theorem preventOverflow_confines {nodeD} `{EqDecision nodeD} (browser : page → Dom nodeD)
    style_supported fuel name order padding be d d' :
  preventOverflow browser style_supported fuel name order padding be false d = Some d' →
  consistent (d_popper d) → style_wf (pg_style (d_page d)) →
  d_page d' = d_page d ∧
  ∃ b, d_boundaries d' !! name = Some b ∧
    (fits b (d_popper d) →
     confined b (d_popper d) (d_popper d') ∧
     ∀ s, s ∈ order → respects b (d_popper d') s).
Proof.
  unfold preventOverflow. intros E Hc Hwf.
  apply bind_Some in E as (e1 & _ & E). apply bind_Some in E as (e2 & _ & E).
  apply bind_Some in E as (b & _ & [= <-]). cbn -[confine]. split.
  - destruct (d_page d) as [st at_ ar]; unfold with_style; simpl in *.
    by rewrite restore_reset.
  - exists b. split; [by apply lookup_insert_eq|]. intros Hfit.
    destruct (confine_confined b _ Hc Hfit order _ (confined_start b _)) as [Hcf Hs].
    split; [done|]. intros s Hin. apply Hs. by left.
Qed.

Lemma preventOverflow_confines_witness :
  ∃ d' : data (nodeD:=nat),
    preventOverflow demo_browser demo_supported 20 "preventOverflow"
      [Left; Right; Top; Bottom] 5 (Some BScrollParent) false
      (demo_data "bottom" (-(30)) 40) = Some d' ∧
    ∃ b, d_boundaries d' !! "preventOverflow" = Some b ∧
      (fits b (getClientRect (Box 40 (-(30)) 50 20)) → respects b (d_popper d') Left).
Proof.
  destruct (preventOverflow _ _ _ _ _ _ _ _ _) as [d'|] eqn:E;
    [|vm_compute in E; discriminate E].
  exists d'. split; [done|].
  destruct (preventOverflow_confines _ _ _ _ _ _ _ _ _ E) as (_ & b & Hb & Hc).
  - split; reflexivity.
  - intros prop. vm_compute. discriminate.
  - exists b. split; [done|]. intros Hf. destruct (Hc Hf) as [_ Hs]. apply Hs. left.
Defined.

(** After [keepTogether], the refreshed popper and the reference, its sides
    rounded down, overlap or touch on the axis along the placement's side; the
    rest of the data is unchanged. *)
Theorem keepTogether_touches {nodeD} (d : data (nodeD:=nodeD)) :
  consistent (d_reference d) → consistent (d_popper d) →
  0 <= r_width (d_popper d) → 0 <= r_height (d_popper d) →
  0 <= r_width (d_reference d) → 0 <= r_height (d_reference d) →
  let v := is_vertical (basePlacement (d_placement d)) in
  let p := refresh (d_popper (keepTogether d)) in
  floorQ (get (d_reference d) (near v)) <= get p (far v) ∧
  get p (near v) <= floorQ (get (d_reference d) (far v)) ∧
  keepTogether d = set_popper (d_popper (keepTogether d)) d.
Proof.
  intros Hr Hp Hpw Hph Hrw Hrh v p.
  destruct (keep_together_touches v (d_reference d) (d_popper d)) as [??];
    [done|done|by destruct v|by destruct v|done].
Qed.

Lemma keepTogether_touches_witness :
  200 <= 350 ∧
  let p := refresh (d_popper (keepTogether (demo_data "bottom" 350 40))) in
  r_left p == 300 ∧
  floorQ 200 <= r_right p ∧ r_left p <= floorQ 300.
Proof.
  split; [by vm_compute|]. split; [by vm_compute|].
  edestruct (keepTogether_touches (demo_data "bottom" 350 40)) as (H1 & H2 & _);
    [by split|by split|by vm_compute..|].
  split; [exact H1|exact H2].
Defined.

(** C29. [arrow], when keepTogether is enabled before it, the element its selector names
    is found, popper and reference have consistent sides and sizes, and the arrow is not
    longer than the popper nor than half the reference: the popper is moved to share an
    arrow's length with the reference; there is a position that keeps the arrow inside the
    popper, and at which, without margin and border on the popper, it points at the
    reference; the value written is that position rounded to a whole pixel. *)
Theorem arrow_points_at_reference {nodeD} `{EqDecision nodeD} (browser : page → Dom nodeD)
    query el sel (d : data (nodeD:=nodeD)) :
  let v := is_one_of ["left"; "right"] (basePlacement (d_placement d)) in
  let sizes := getOuterSizes (dom browser d) el in
  let a := if v then snd sizes else fst sizes in
  let popper := d_popper (arrow browser query (ArrowSelector sel) d) in
  let ref := d_reference d in
  let pop := i_popper (d_instance d) in
  isModifierRequired (i_modifiers (d_instance d)) "arrow" "keepTogether" = true →
  query pop sel = Some el →
  consistent ref → consistent (d_popper d) → 0 <= a →
  a <= size (d_popper d) (arrow_along v) → 2 * a <= size ref (arrow_along v) →
  ∃ x,
    d_arrow (arrow browser query (ArrowSelector sel) d) !! (side_name (arrow_near v))
      = Some (SNum (roundQ x)) ∧
    consistent popper ∧
    0 <= x ∧ x + a <= size popper (arrow_along v) ∧
    (styleFloat (dom browser d) pop (if v then "marginTop" else "marginLeft") +
       styleFloat (dom browser d) pop (if v then "borderTopWidth" else "borderLeftWidth") == 0 →
     get ref (arrow_near v) <= get popper (arrow_near v) + x ∧
     get popper (arrow_near v) + x + a <= get ref (arrow_far v)).
Proof.
  intros v sizes a popper ref pop Hreq Hq Hr Hp Ha Hlen Hlr. subst popper.
  unfold arrow. rewrite Hreq. cbn [negb]. fold pop. rewrite Hq. fold sizes v a.
  destruct (arrow_popper_shares v a ref (d_popper d) Hr Hp Ha Hlen Hlr)
    as (H1 & H2 & Hs & Hc).
  cbn [d_popper set_arrow set_popper d_arrow]. fold ref.
  eexists. split; [|split; [exact Hc|]].
  - replace (side_name (arrow_near v)) with (if v then "top" else "left")%string
      by (by destruct v). apply lookup_insert_eq.
  - rewrite <-Hs in Hlen. apply arrow_value_points; try done. lra.
Qed.

Lemma arrow_points_at_reference_witness :
  ∃ x, d_arrow (arrow (λ _, demo_dom) (λ _ _, Some 2%nat) (ArrowSelector "")
         (set_popper (getClientRect (Box 40 250 60 20))
            (set_placement "right" (demo_data "right" 300 40)))) !! "top" = Some (SNum (roundQ x)) ∧
    0 <= x.
Proof.
  edestruct (arrow_points_at_reference (λ _, demo_dom) (λ _ _, Some 2%nat) 2%nat ""
    (set_popper (getClientRect (Box 40 250 60 20))
       (set_placement "right" (demo_data "right" 300 40)))) as (x & Hx & _ & H0 & _);
    [by vm_compute|done|by split|by split|by vm_compute|by vm_compute|by vm_compute|].
  exists x. split; [exact Hx|exact H0].
Defined.

(** The behaviours [clockwise] and [counterclockwise] of [flip] never flip:
    the list of placements they try leaves out the current one, and a step only
    acts when it meets the current one. *)
Theorem flip_clockwise_never_flips {nodeD} `{EqDecision nodeD} (browser : page → Dom nodeD)
    fuel run b padding be fv (d d' : data (nodeD:=nodeD)) :
  b = BClockwise ∨ b = BCounterclockwise →
  basePlacement (d_placement d) ∈ ["top"; "right"; "bottom"; "left"] →
  flip browser fuel run b padding be fv d = Some d' → d' = d.
Proof.
  intros Hb Hp. unfold flip.
  destruct (isModifierEnabled _ _); [by intros [= <-]|].
  destruct (d_flipped d && _); [by intros [= <-]|].
  intros E. apply bind_Some in E as (bd & _ & E). revert E.
  rewrite flip_loop_skip; [by intros [= <-]|].
  simpl. destruct Hb as [->| ->]; by apply clockwise_excludes.
Qed.

Lemma flip_clockwise_never_flips_witness :
  ∃ d', flip demo_browser 20 (λ _ d, Some d) BClockwise 5 BViewport false
          (demo_data "top" 225 (-(20))) = Some d' ∧
        d_placement d' = "top" ∧ r_top (d_popper d') == -(20).
Proof.
  destruct (flip _ _ _ _ _ _ _ _) as [d'|] eqn:E; [|vm_compute in E; discriminate E].
  exists d'. split; [done|].
  assert (d' = demo_data "top" 225 (-(20))) as ->; [|by split].
  eapply flip_clockwise_never_flips; [by left| |exact E]. left.
Defined.

(** The equation of [flip] with its default behaviour, when it is tried. *)
Lemma flip_default_equation {nodeD} `{EqDecision nodeD} (browser : page → Dom nodeD)
    fuel run padding be fv (d : data (nodeD:=nodeD)) bd :
  isModifierEnabled (i_modifiers (d_instance d)) "inner" = false →
  d_flipped d && bool_decide (d_placement d = d_originalPlacement d) = false →
  getBoundaries (dom browser d) fuel (i_popper (d_instance d)) (i_reference (d_instance d))
    padding be (d_positionFixed d) = Some bd →
  let p := basePlacement (d_placement d) in
  let v := default "" (variationOf (d_placement d)) in
  let bad := overlapsRef p (d_popper d) (d_reference d) ||
             overflowsBoundaries p (d_popper d) bd in
  let var := flippedVariation fv p v (d_popper d) bd in
  flip browser fuel run BFlip padding be fv d =
    if bad || var then
      runModifiers run (i_modifiers (d_instance d))
        (turned browser (if bad then getOppositePlacement p else p)
           (if var then getOppositeVariation v else v) d) (Some "flip")
    else Some d.
Proof.
  intros Hi Hf Hb p v bad var. unfold flip. rewrite Hi, Hf, Hb. cbn [mbind option_bind].
  fold p v. change (flip_order BFlip p) with [p; getOppositePlacement p].
  pose proof (flip_loop_two browser run bd fv d v (getOppositePlacement p)) as E.
  cbv zeta in E. rewrite flip_step_first in E. cbv zeta in E. fold p in E. fold bad var in E. rewrite E.
  destruct (bad || var); [|done]. cbn [mbind option_bind].
  match goal with |- (?x ≫= _) ≫= _ = _ => by destruct x end.
Qed.

(** ** Where a popper is, said without the tests of the code *)

Inductive variation := Centre | Start | End.
(** The twelve placements. *)
Definition placement_name (s : side) (x : variation) : string :=
  match s, x with
  | Top, Centre => "top" | Top, Start => "top-start" | Top, End => "top-end"
  | Left, Centre => "left" | Left, Start => "left-start" | Left, End => "left-end"
  | Right, Centre => "right" | Right, Start => "right-start" | Right, End => "right-end"
  | Bottom, Centre => "bottom" | Bottom, Start => "bottom-start" | Bottom, End => "bottom-end"
  end.
Definition across (s : side) : side := match s with Top => Bottom | Bottom => Top | Left => Right | Right => Left end.
Definition other_end (x : variation) : variation := match x with Centre => Centre | Start => End | End => Start end.
(** Where a popper is aligned at its start and its end. *)
Definition start_side (s : side) : side := match s with Top | Bottom => Left | Left | Right => Top end.
Definition end_side (s : side) : side := match s with Top | Bottom => Right | Left | Right => Bottom end.

(** In whole pixels: a popper on the side [s] of its reference reaches into it, and a
    popper crosses the boundary [s]. *)
Definition reaches_into (s : side) (popper reference : rect) : Prop :=
  match s with
  | Top => (Qfloor (r_top reference) < Qfloor (r_bottom popper))%Z
  | Bottom => (Qfloor (r_top popper) < Qfloor (r_bottom reference))%Z
  | Left => (Qfloor (r_left reference) < Qfloor (r_right popper))%Z
  | Right => (Qfloor (r_left popper) < Qfloor (r_right reference))%Z
  end.
Definition crosses (s : side) (popper : rect) (b : bounds) : Prop :=
  match s with
  | Top => (Qfloor (r_top popper) < Qfloor (b_top b))%Z
  | Bottom => (Qfloor (b_bottom b) < Qfloor (r_bottom popper))%Z
  | Left => (Qfloor (r_left popper) < Qfloor (b_left b))%Z
  | Right => (Qfloor (b_right b) < Qfloor (r_right popper))%Z
  end.

Lemma overflows_spec s p b : overflows s p b = true ↔ crosses s p b.
Proof. destruct s; apply Z.ltb_lt. Qed.
Lemma overlapsRef_spec s p r : overlapsRef (side_name s) p r = true ↔ reaches_into s p r.
Proof. unfold overlapsRef, floor_lt. destruct s; eval_tests; rewrite ?orb_false_r; apply Z.ltb_lt. Qed.
Lemma overflowsBoundaries_spec s p b : overflowsBoundaries (side_name s) p b = true ↔ crosses s p b.
Proof. rewrite <- overflows_spec. unfold overflowsBoundaries. destruct s; eval_tests; by rewrite ?orb_false_r. Qed.

Definition variation_name (x : variation) : string := match x with Centre => "" | Start => "start" | End => "end" end.
Lemma placement_base s x : basePlacement (placement_name s x) = side_name s.
Proof. by destruct s, x. Qed.
Lemma placement_variation s x : default "" (variationOf (placement_name s x)) = variation_name x.
Proof. by destruct s, x. Qed.
Lemma placement_composed s x : with_variation (side_name s) (Some (variation_name x)) = placement_name s x.
Proof. by destruct s, x. Qed.
Lemma placement_valid s x : placement_name s x ∈ validPlacements ∧ places_at (placement_name s x) s.
Proof. split; [apply (bool_decide_unpack _); by destruct s, x; vm_compute | by destruct s, x]. Qed.

Lemma flippedVariation_spec fv s x p b :
  flippedVariation fv (side_name s) (variation_name x) p b = true ↔
    fv = true ∧ (x = Start ∧ crosses (start_side s) p b ∨ x = End ∧ crosses (end_side s) p b).
Proof.
  setoid_rewrite <- overflows_spec. unfold flippedVariation. rewrite andb_true_iff. apply and_iff_compat_l.
  destruct s, x; unfold is_vertical, is_one_of; eval_tests; cbn; rewrite ?orb_false_r; intuition congruence.
Qed.

(** C30. [flip] with its default behaviour, on a popper at one of the twelve placements
    whose boundaries are found. It does nothing when the modifier inner is enabled or when
    the popper was turned before and is back at its original placement. Otherwise,
    measured in whole pixels: when the popper reaches into its reference or crosses the
    boundary of its side, it is put against the opposite side; when [flipVariations] is
    set and it crosses the boundary it is aligned to, it is aligned to the other end; in
    both cases the flag is set and the modifiers before [flip] run again, on data that is
    the same but for that; when neither is so, the data is unchanged. *)
Theorem flip_default_outcome {nodeD} `{EqDecision nodeD} (browser : page → Dom nodeD)
    fuel run padding be fv (d : data (nodeD:=nodeD)) bd s x :
  d_placement d = placement_name s x →
  getBoundaries (dom browser d) fuel (i_popper (d_instance d)) (i_reference (d_instance d))
    padding be (d_positionFixed d) = Some bd →
  let result := flip browser fuel run BFlip padding be fv d in
  let blocked := isModifierEnabled (i_modifiers (d_instance d)) "inner" = true ∨
                 d_flipped d = true ∧ d_placement d = d_originalPlacement d in
  let turns := reaches_into s (d_popper d) (d_reference d) ∨ crosses s (d_popper d) bd in
  let slides := fv = true ∧ (x = Start ∧ crosses (start_side s) (d_popper d) bd ∨
                             x = End ∧ crosses (end_side s) (d_popper d) bd) in
  (blocked ∨ ¬ turns ∧ ¬ slides → result = Some d) ∧
  (¬ blocked → turns ∨ slides → ∃ s' x' b,
     (turns → s' = across s) ∧ (¬ turns → s' = s) ∧ (slides → x' = other_end x) ∧ (¬ slides → x' = x) ∧
     adjacent s' (d_reference d) b ∧
     result = runModifiers run (i_modifiers (d_instance d))
       (set_popper (Rect (x_top b) (x_left b) (x_width b) (x_height b) (r_right (d_popper d)) (r_bottom (d_popper d)))
          (set_placement (placement_name s' x') (set_flipped true d))) (Some "flip")).
Proof.
  intros Hp Hb result blocked turns slides.
  assert (Hblocked : blocked → result = Some d).
  { intros [Hi|[Hf Ho]]; unfold result, flip; [by rewrite Hi|].
    destruct (isModifierEnabled _ _); [done|]. by rewrite Hf, bool_decide_eq_true_2. }
  assert (Heq : ¬ blocked → ∃ bad var : bool, (bad = true ↔ turns) ∧ (var = true ↔ slides) ∧
    result = if bad || var then runModifiers run (i_modifiers (d_instance d))
      (turned browser (side_name (if bad then across s else s)) (variation_name (if var then other_end x else x)) d) (Some "flip")
      else Some d).
  { intros Hn. exists (overlapsRef (side_name s) (d_popper d) (d_reference d) || overflowsBoundaries (side_name s) (d_popper d) bd).
    exists (flippedVariation fv (side_name s) (variation_name x) (d_popper d) bd).
    split; [by rewrite orb_true_iff, overlapsRef_spec, overflowsBoundaries_spec|]. split; [apply flippedVariation_spec|].
    unfold result. rewrite (flip_default_equation browser fuel run padding be fv d bd); [|..|exact Hb].
    - rewrite Hp, placement_base, placement_variation.
      replace (getOppositePlacement (side_name s)) with (side_name (across s)) by (by destruct s).
      replace (getOppositeVariation (variation_name x)) with (variation_name (other_end x)) by (by destruct x).
      by destruct (_ || overflowsBoundaries _ _ _), (flippedVariation _ _ _ _ _).
    - apply not_true_iff_false. intros ?. apply Hn. by left.
    - apply not_true_iff_false. intros [? ?%bool_decide_eq_true]%andb_true_iff. apply Hn. by right. }
  split.
  - intros [?|[Ht Hs]]; [by apply Hblocked|]. assert (Decision blocked) by (unfold blocked; apply _).
    destruct (decide blocked) as [?|Hn]; [by apply Hblocked|].
    destruct (Heq Hn) as (bad & var & Hbad & Hvar & ->).
    destruct bad; [by destruct Ht; apply Hbad|]. destruct var; [by destruct Hs; apply Hvar | done].
  - intros Hn Hts. destruct (Heq Hn) as (bad & var & Hbad & Hvar & ->).
    set (s' := if bad then across s else s). set (x' := if var then other_end x else x).
    exists s', x', (getPopperOffsets (dom browser d) (i_popper (d_instance d)) (d_reference d) (placement_name s' x')).
    assert (bad || var = true) as -> by (apply orb_true_iff; tauto).
    split; [intros ?%Hbad; by subst bad|]. split; [intros H1; destruct bad; [by destruct H1; apply Hbad | done]|].
    split; [intros ?%Hvar; by subst var|]. split; [intros H1; destruct var; [by destruct H1; apply Hvar | done]|].
    split.
    { unfold getPopperOffsets. destruct (getOuterSizes _ _). by apply popper_offsets_place, placement_valid. }
    unfold turned. by rewrite placement_composed.
Qed.

Lemma flip_default_outcome_witness :
  ∃ b d', flip demo_browser 20 (λ _ d, Some d) BFlip 5 BViewport false (demo_data "top" 225 (-(20))) = Some d' ∧
    d_placement d' = "bottom" ∧ adjacent Bottom (demo_rect 3) b ∧ x_top b = r_top (d_popper d').
Proof.
  destruct (getBoundaries demo_dom 20 2%nat 3%nat 5 BViewport false) as [bd|] eqn:E; [|vm_compute in E; discriminate E].
  destruct (flip_default_outcome demo_browser 20 (λ _ d, Some d) 5 BViewport false (demo_data "top" 225 (-(20))) bd Top Centre
    eq_refl E) as [_ H].
  vm_compute in E. injection E as <-. destruct H as (s' & x' & b & Hs & _ & _ & Hx & Hb & Hf).
  - intros [?|[? _]]; discriminate.
  - left. right. reflexivity.
  - rewrite Hs in Hf, Hb by (right; reflexivity). rewrite Hx in Hf by (intros [? _]; discriminate).
    exists b. eexists. split; [exact Hf|]. split; [reflexivity|]. split; [exact Hb | reflexivity].
Defined.

(** The recursion of the modifiers through [flip] has depth one: when no
    other flip runs before the modifier named "flip", the call of any modifier
    gives the same result at every recursion bound from 1 on, and it keeps the
    popper's instance. *)
Theorem run_modifier_bound {nodeD} `{EqDecision nodeD} (browser : page → Dom nodeD)
    query supported fuel k m (d : data (nodeD:=nodeD)) :
  one_flip (d_instance d) →
  run_modifier browser query supported fuel (S k) m d =
    run_modifier browser query supported fuel 1 m d ∧
  ∀ d', run_modifier browser query supported fuel (S k) m d = Some d' →
    d_instance d' = d_instance d.
Proof.
  intros Hone. split; [by apply run_modifier_stable|]. intros d'. apply run_modifier_instance.
Qed.

Lemma run_modifier_bound_witness :
  let flip_m := Modifier "flip" true 600 (FnFlip BFlip 5 BViewport false) in
  let run k := run_modifier demo_browser demo_query demo_supported 20 k flip_m
                 (demo_data "top" 225 (-(20))) in
  run 7%nat = run 1%nat ∧ d_placement <$> run 1%nat = Some "bottom".
Proof.
  split; [|by vm_compute].
  apply (run_modifier_bound demo_browser demo_query demo_supported 20 6 _
    (demo_data "top" 225 (-(20)))).
  intros m Hm. vm_compute in Hm.
  repeat (apply elem_of_cons in Hm as [->|Hm]; [done|]). by apply elem_of_nil in Hm.
Defined.

(** The attribute agrees with [data.hide]. *)
Definition hide_agrees {nodeD} (d : data (nodeD:=nodeD)) : Prop :=
  ∀ h, d_hide d = Some h →
    d_attributes d !! "x-out-of-boundaries" = Some (if h then AStr "" else AFalse).

(** [hide], run after preventOverflow, sets [data.hide] to false exactly
    when the reference and the boundaries preventOverflow recorded have a point
    in common, and keeps the attribute [x-out-of-boundaries] in step. *)
Theorem hide_iff_disjoint {nodeD} (d d' : data (nodeD:=nodeD)) m b :
  hide d = Some d' →
  isModifierRequired (i_modifiers (d_instance d)) "hide" "preventOverflow" = true →
  find_modifier "preventOverflow" (i_modifiers (d_instance d)) = Some m →
  d_boundaries d !! m_name m = Some b →
  r_left (d_reference d) <= r_right (d_reference d) →
  r_top (d_reference d) <= r_bottom (d_reference d) →
  b_left b <= b_right b → b_top b <= b_bottom b → hide_agrees d →
  (d_hide d' = Some false ↔ meets (d_reference d) b) ∧
  (d_hide d' = Some true ↔ ¬ meets (d_reference d) b) ∧ hide_agrees d'.
Proof.
  unfold hide. intros E Hreq Hm Hb Hx Hy Hbx Hby Hag.
  rewrite Hreq, Hm in E. cbn [negb mbind option_bind] in E. rewrite Hb in E.
  cbn [mbind option_bind] in E.
  pose proof (out_of_bounds_meets (d_reference d) b Hx Hy Hbx Hby) as Hmeets.
  assert (d_hide d' = Some (out_of_bounds (d_reference d) b) ∧ hide_agrees d') as [Hh Hag'].
  { destruct (out_of_bounds (d_reference d) b); case_bool_decide; injection E as <-;
      split; try done; intros h [= <-]; by apply lookup_insert_eq. }
  rewrite Hh, <-Hmeets. destruct (out_of_bounds _ _); split_and!; try done; naive_solver.
Qed.

Lemma hide_iff_disjoint_witness :
  ∃ d' : data (nodeD:=nat),
    hide (set_boundaries "preventOverflow" (Bounds 100 0 90 200 None None)
            (demo_data "top" 0 0)) = Some d' ∧ d_hide d' = Some true.
Proof.
  destruct (hide _) as [d'|] eqn:E; [|vm_compute in E; discriminate E].
  exists d'. split; [done|].
  eapply hide_iff_disjoint; [exact E|by vm_compute..|].
  intros (x & y & [Hx _] & [_ Hb] & _).
  assert (200 <= 90) as H by (eapply Qle_trans; [exact Hx|exact Hb]). by apply H.
Defined.

Lemma viewport_bounds_sized {nodeD} `{EqDecision nodeD} (D : Dom nodeD) fuel p r padding fixed b :
  getBoundaries D fuel p r padding BViewport fixed = Some b →
  is_Some (b_width b) ∧ is_Some (b_height b).
Proof.
  unfold getBoundaries. intros E. apply bind_Some in E as (op & _ & E).
  apply bind_Some in E as (b0 & E0 & [= <-]). apply fmap_Some in E0 as (r0 & _ & ->).
  by split; eexists.
Qed.

(** The automatic placement within the viewport: of the four areas beside
    the reference, the one chosen is large enough for the popper if any is, and
    then no other such area is larger; if none is, no area is larger.  The
    variation asked for is kept. *)
Theorem computeAutoPlacement_best {nodeD} `{EqDecision nodeD} (D : Dom nodeD) fuel placement
    ref p r padding result :
  contains_string "auto" placement = true →
  computeAutoPlacement D fuel placement ref p r BViewport padding = Some result →
  ∃ b a, getBoundaries D fuel p r padding BViewport false = Some b ∧
    a ∈ area_rects ref b ∧ result = with_variation (a_key a) (variationOf placement) ∧
    let fit := area_fits (clientWidth D p) (clientHeight D p) in
    (∀ a', a' ∈ area_rects ref b → fit a' = true → fit a = true ∧ (a' = a ∨ area_ge a a')) ∧
    (fit a = false → ∀ a', a' ∈ area_rects ref b → a' = a ∨ area_ge a a').
Proof.
  unfold computeAutoPlacement. intros -> E. simpl in E.
  apply bind_Some in E as (b & Hb & [= <-]).
  destruct (viewport_bounds_sized _ _ _ _ _ _ _ Hb) as [Hw Hh].
  destruct (choose_placement_best placement ref b (clientWidth D p) (clientHeight D p) Hw Hh)
    as (a & Ha & Hc & Hmax & Hno).
  exists b, a. done.
Qed.

Lemma computeAutoPlacement_best_witness :
  ∃ result, computeAutoPlacement demo_dom 20 "auto-start" (demo_rect 3) 2%nat 3%nat
    BViewport 5 = Some result ∧ result = "bottom-start" ∧
    ∃ b a, a ∈ area_rects (demo_rect 3) b ∧ result = with_variation (a_key a) (Some "start").
Proof.
  destruct (computeAutoPlacement _ _ _ _ _ _ _ _) as [res|] eqn:E;
    [|vm_compute in E; discriminate E].
  exists res. split; [done|].
  split; [vm_compute in E; congruence|].
  edestruct (computeAutoPlacement_best demo_dom) as (b & a & _ & Ha & Hr & _); [|exact E|]; [done|].
  exists b, a. done.
Defined.

(** With boundaries that have no [width] and [height], which is what
    [getBoundaries] returns for the document element of a popper that is not
    fixed, every area is [NaN] and the placement is always "top". *)
Lemma auto_placement_unsized placement ref t l r b cw ch :
  choose_placement placement ref (Bounds t l r b None None) cw ch =
    with_variation "top" (variationOf placement).
Proof. unfold choose_placement. simpl. by rewrite !andb_false_r. Qed.

(** [getBoundingClientRect] of an element with [clientWidth] 0 and a positive
    [offsetHeight] difference, a bordered empty one: the rectangle is [NaN]. *)
Lemma bounding_rect_empty_client {nodeD} `{EqDecision nodeD} (D : Dom nodeD) el :
  name_is D el "HTML" = false → clientWidth D el == 0 →
  truthy (clientHeight D el) = true → truthy (offsetHeight D el - clientHeight D el) = true →
  getBoundingClientRect D el = None.
Proof.
  intros Hn Hw Hh Ho. unfold getBoundingClientRect, client_size. rewrite Hn.
  assert (truthy (clientWidth D el) = false) as ->.
  { unfold truthy. apply negb_false_iff. by apply Qeq_bool_iff. }
  change (truthy 0) with false. rewrite Hh. simpl. by rewrite Ho.
Qed.

(** Where [getPopperOffsets] puts the popper for a placement and its
    opposite: against the named side of the reference and centred along it,
    with its outer sizes; the opposite placement of a valid one names the
    opposite side, keeps the variation and is undone by a second opposite. *)
Theorem getPopperOffsets_adjacent {nodeD} (D : Dom nodeD) p ref placement s :
  placement ∈ validPlacements → places_at placement s →
  adjacent s ref (getPopperOffsets D p ref placement) ∧
  adjacent (opposite_side s) ref (getPopperOffsets D p ref (getOppositePlacement placement)) ∧
  getOppositePlacement (getOppositePlacement placement) = placement ∧
  variationOf (getOppositePlacement placement) = variationOf placement.
Proof.
  intros Hv Hs. destruct (opposite_places placement s Hv Hs) as (Ho & Hoo & Hvar).
  unfold getPopperOffsets. destruct (getOuterSizes D p) as [w h].
  split_and!; try done; by apply popper_offsets_place.
Qed.

Lemma getPopperOffsets_adjacent_witness :
  x_top (getPopperOffsets demo_dom 2%nat (demo_rect 3) "top-end") + 20 == 0 ∧
  adjacent Top (demo_rect 3) (getPopperOffsets demo_dom 2%nat (demo_rect 3) "top-end").
Proof.
  split; [by vm_compute|].
  apply getPopperOffsets_adjacent; [|done].
  apply (bool_decide_unpack _). by vm_compute.
Defined.
