(* ===== verification/PopperLife.v ===== *)
(** * Popper: the life of an instance

    Sequences of the operations of PopperInstance.v: the debounced update, the
    callbacks, the event listeners and the destruction. *)
From stdpp Require Import base gmap strings list sorting relations.
From Stdlib Require Import Ascii ZArith QArith Lia.
From S2P Require Import Prelude JsString PopperDom PopperPlacement PopperOffset Popper.
From S2P Require Import PopperInstance PopperGeometry PopperFacts.

Local Open Scope nat_scope.

(** ** The debounced update *)

Section debounce.
Import Debounce.

Definition db_inv (s : state) : Prop := db_queue s = if db_called s then 1 else 0.

Lemma db_inv_reachable s : rtc step init s → db_inv s.
Proof.
  intros Hr. cut (∀ s0, db_inv s0 → rtc step s0 s → db_inv s); [intros H; by apply (H init)|].
  clear Hr. intros s0 H0 Hr. revert H0.
  induction Hr as [|s1 s2 s3 Hs _ IH]; [done|]. intros H1. apply IH.
  destruct Hs as [s1|s1 s2 E]; unfold db_inv, call, fire in *.
  - destruct (db_called s1) eqn:Ec; [by rewrite Ec|]. simpl. by rewrite H1.
  - destruct (db_queue s1) as [|q]; [done|]. injection E as <-. simpl.
    destruct (db_called s1); lia.
Qed.

Lemma calls_set n s : db_called s = true → Nat.iter n call s = s.
Proof. intros Hc. induction n as [|n IH]; simpl; [done|]. rewrite IH. unfold call. by rewrite Hc. Qed.
End debounce.

(** The debounced update in every reachable state: at most one run is
    scheduled, exactly when the flag is set; any number of calls made before
    the scheduler gets to it leads to a single run of the function, after which
    the flag is clear again. *)
Theorem debounce_runs_once s n :
  rtc Debounce.step Debounce.init s →
  Debounce.db_queue s ≤ 1 ∧ (Debounce.db_called s = true ↔ Debounce.db_queue s = 1) ∧
  Debounce.fire (Nat.iter (S n) Debounce.call s) =
    Some (Debounce.State false 0 (S (Debounce.db_runs s))).
Proof.
  intros Hr. pose proof (db_inv_reachable s Hr) as Hi. unfold db_inv in Hi.
  destruct (Debounce.db_called s) eqn:Ec.
  - split; [lia|]. split; [done|]. rewrite calls_set by done.
    unfold Debounce.fire. by rewrite Hi.
  - split; [lia|]. split; [rewrite Hi; by split|].
    rewrite Nat.iter_succ_r. rewrite calls_set; unfold Debounce.call; rewrite Ec; [|done].
    simpl. by rewrite Hi.
Qed.

Lemma debounce_runs_once_witness :
  rtc Debounce.step Debounce.init (Debounce.State true 1 0) ∧
  Debounce.fire (Debounce.State true 1 0) = Some (Debounce.State false 0 1).
Proof.
  assert (rtc Debounce.step Debounce.init (Debounce.State true 1 0)) as Hr
    by exact (rtc_once _ _ (Debounce.step_call Debounce.init)).
  split; [done|]. exact (proj2 (proj2 (debounce_runs_once _ 4 Hr))).
Defined.

Section life.
Context {nodeD : Type} `{EqDecision nodeD}.
Variable browser : page → Dom nodeD.
Variable querySelector : nodeD → string → option nodeD.
Variable style_supported : string → bool.
Variable fuel depth : nat.
Context {win : Type} `{EqDecision win}.
Variable defaultView : nodeD → win.

Abbreviation pop := (popper (nodeD:=nodeD) (win:=win)).
Abbreviation pst := (pstate (nodeD:=nodeD) (win:=win)).
Abbreviation call_back := (callback (nodeD:=nodeD)).
Implicit Types (p : pop) (s : pst).

(** ** Histories *)

(** What the page may do with a popper. *)
Inductive op := OpUpdate | OpEnable | OpDisable | OpDestroy.

#[export] Instance op_eq_dec : EqDecision op.
Proof. solve_decision. Defined.

Definition do_op (o : op) (p : pop) : option (pop * list call_back) :=
  match o with
  | OpUpdate => update browser querySelector style_supported fuel depth p
  | OpEnable => p' ← enableEventListeners browser fuel defaultView p; Some (p', [])
  | OpDisable => Some (disableEventListeners defaultView p, [])
  | OpDestroy => p' ← destroy style_supported defaultView p; Some (p', [])
  end.

Fixpoint history (ops : list op) (p : pop) : option (pop * list call_back) :=
  match ops with
  | [] => Some (p, [])
  | o :: ops' =>
      '(p1, c1) ← do_op o p;
      '(p2, c2) ← history ops' p1;
      Some (p2, c1 ++ c2)
  end.

(** ** The listeners *)

Definition resize_listener (p : pop) : target (nodeD:=nodeD) (win:=win) * string :=
  (TWindow (defaultView (i_reference (p_instance p))), "resize").

(** The registered listeners are the window's and one for each scroll parent
    in the state; a disabled popper has none. *)
Definition owns (w : target (nodeD:=nodeD) (win:=win) * string) (s : pst) : Prop :=
  (∀ x, x ∈ registered s → x = w ∨ ∃ t, t ∈ scrollParents s ∧ x = (t, "scroll")) ∧
  (eventsEnabled s = false → registered s = [] ∧ scrollParents s = []).

Definition owns_listeners (p : pop) : Prop := owns (resize_listener p) (p_state p).

Lemma addEventListener_elem (t : target) e (ls : list (target (nodeD:=nodeD) (win:=win) * string)) x :
  x ∈ addEventListener t e ls → x = (t, e) ∨ x ∈ ls.
Proof.
  unfold addEventListener. case_decide; [by right|].
  intros Hx. by apply elem_of_cons in Hx.
Qed.

Lemma attach_owns D n node e ls parents ls' parents' :
  attachToScrollParents fuel defaultView D n node e ls parents = Some (ls', parents') →
  (∀ t, t ∈ parents → t ∈ parents') ∧
  ∀ x, x ∈ ls' → x ∈ ls ∨ ∃ t, t ∈ parents' ∧ x = (t, e).
Proof.
  revert node ls parents ls' parents'.
  induction n as [|n IH]; intros node ls parents ls' parents'; simpl;
    destruct (name_is D node "BODY"); simpl; try done.
  - intros [= <- <-]. split; [intros; by apply elem_of_app; left|].
    intros x [->|Hx]%addEventListener_elem; [right|by left].
    eexists. split; [apply elem_of_app; right; left|done].
  - intros [= <- <-]. split; [intros; by apply elem_of_app; left|].
    intros x [->|Hx]%addEventListener_elem; [right|by left].
    eexists. split; [apply elem_of_app; right; left|done].
  - intros E. apply bind_Some in E as ([ls2 ps2] & E & [= <- <-]).
    apply bind_Some in E as (next & _ & E). destruct (IH _ _ _ _ _ E) as [Hsub Hx].
    split; [intros; apply elem_of_app; left; by apply Hsub|].
    intros x Hin. destruct (Hx x Hin) as [[->|Hls]%addEventListener_elem|(t & Ht & ->)].
    + right. eexists. split; [apply elem_of_app; right; left|done].
    + by left.
    + right. exists t. split; [by apply elem_of_app; left|done].
Qed.

Lemma update_instance p p' cs :
  update browser querySelector style_supported fuel depth p = Some (p', cs) →
  p_instance p' = p_instance p ∧ registered (p_state p') = registered (p_state p) ∧
  scrollParents (p_state p') = scrollParents (p_state p) ∧
  eventsEnabled (p_state p') = eventsEnabled (p_state p) ∧
  isDestroyed (p_state p') = isDestroyed (p_state p).
Proof.
  unfold update. destruct (isDestroyed (p_state p)) eqn:Ed.
  - intros [= <- <-]. done.
  - intros E. apply bind_Some in E as (d & Ed0 & E). apply bind_Some in E as (d' & Er & E).
    injection E as <- <-. simpl. split; [|done].
    unfold initial_data in Ed0. apply bind_Some in Ed0 as (? & _ & Ed0).
    apply bind_Some in Ed0 as ([be pad] & _ & Ed0). apply bind_Some in Ed0 as (? & _ & [= <-]).
    unfold run_modifiers in Er.
    eapply (runModifiers_inv (λ d, d_instance d = p_instance p)); [| | |exact Er]; [done| |done].
    intros m d1 d2 _ Hd1 E. by rewrite (run_modifier_instance _ _ _ _ _ _ _ _ E).
Qed.

Lemma removeEventListener_elem (t : target) e
    (ls : list (target (nodeD:=nodeD) (win:=win) * string)) x :
  x ∈ removeEventListener t e ls ↔ x ≠ (t, e) ∧ x ∈ ls.
Proof. unfold removeEventListener. by rewrite list_elem_of_filter. Qed.

Lemma remove_all_elem (ps : list (target (nodeD:=nodeD) (win:=win))) e ls x :
  x ∈ fold_left (λ ls t, removeEventListener t e ls) ps ls →
  x ∈ ls ∧ ∀ t, t ∈ ps → x ≠ (t, e).
Proof.
  revert ls. induction ps as [|t ps IH]; intros ls; simpl.
  - intros Hx. split; [done|]. intros t Ht. by apply elem_of_nil in Ht.
  - intros Hx. destruct (IH _ Hx) as [Hin Hne].
    apply removeEventListener_elem in Hin as [Hxt Hin]. split; [done|].
    intros t' [->|Ht']%elem_of_cons; auto.
Qed.

Lemma remove_owned p :
  owns_listeners p →
  registered (removeEventListeners defaultView (i_reference (p_instance p)) (p_state p)) = [].
Proof.
  intros [Hown _]. unfold removeEventListeners; simpl.
  apply elem_of_nil_inv. intros x Hx. apply remove_all_elem in Hx as [Hx Hne].
  apply removeEventListener_elem in Hx as [Hxr Hx].
  destruct (Hown x Hx) as [->|(t & Ht & ->)]; [done|]. by apply (Hne t Ht).
Qed.

Lemma disable_spec p :
  owns_listeners p →
  let p' := disableEventListeners defaultView p in
  registered (p_state p') = [] ∧ scrollParents (p_state p') = [] ∧
  eventsEnabled (p_state p') = false ∧ p_instance p' = p_instance p ∧
  isDestroyed (p_state p') = isDestroyed (p_state p) ∧
  isCreated (p_state p') = isCreated (p_state p) ∧ p_page p' = p_page p ∧
  p_options p' = p_options p ∧ p_attached p' = p_attached p.
Proof.
  intros Hown. unfold disableEventListeners. destruct (eventsEnabled (p_state p)) eqn:Ee.
  - split_and!; try done. by apply remove_owned.
  - destruct Hown as [_ H]. destruct (H Ee) as [??]. by split_and!.
Qed.

Lemma empty_owns p :
  registered (p_state p) = [] → scrollParents (p_state p) = [] → owns_listeners p.
Proof.
  intros Hr Hs. split; [|done]. intros x Hx. rewrite Hr in Hx. by apply elem_of_nil in Hx.
Qed.

Lemma enable_owns p p' :
  owns_listeners p → enableEventListeners browser fuel defaultView p = Some p' →
  owns_listeners p' ∧ p_instance p' = p_instance p.
Proof.
  intros Hown. unfold enableEventListeners. destruct (eventsEnabled (p_state p)) eqn:Ee.
  { by intros [= <-]. }
  destruct Hown as [_ H]. destruct (H Ee) as [Hr Hs].
  intros E. apply bind_Some in E as (s' & E & [= <-]). split; [|done].
  unfold setupEventListeners in E. apply bind_Some in E as (el & _ & E).
  apply bind_Some in E as ([ls ps] & E & [= <-]).
  destruct (attach_owns _ _ _ _ _ _ _ _ E) as [_ Hx]. split; [|done]. simpl.
  intros x Hin. destruct (Hx x Hin) as [[->|Hls]%addEventListener_elem|?]; [by left| |by right].
  rewrite Hr in Hls. by apply elem_of_nil in Hls.
Qed.

Lemma destroy_spec p p' :
  owns_listeners p → destroy style_supported defaultView p = Some p' →
  isDestroyed (p_state p') = true ∧ registered (p_state p') = [] ∧
  scrollParents (p_state p') = [] ∧ eventsEnabled (p_state p') = false ∧
  p_instance p' = p_instance p ∧
  p_attached p' = p_attached p && negb (opt_removeOnDestroy (p_options p)).
Proof.
  intros Hown. unfold destroy. cbv zeta.
  match goal with |- context [disableEventListeners defaultView ?q] =>
    assert (owns_listeners q) as Hq by exact Hown;
    pose proof (disable_spec q Hq) as Hd; cbv zeta in Hd;
    set (p2 := disableEventListeners defaultView q) in * end.
  simpl in Hd. destruct Hd as (? & ? & ? & ? & ? & ? & _ & Ho & Ha).
  rewrite Ho, Ha. clearbody p2.
  destruct (opt_removeOnDestroy _); [destruct (p_attached p); [|done]|];
    intros [= <-]; simpl; split_and!; try done. by rewrite Ha, andb_true_r.
Qed.

Lemma do_op_owns o p p' cs :
  owns_listeners p → do_op o p = Some (p', cs) → owns_listeners p'.
Proof.
  intros Hown. destruct o; simpl.
  - intros E. apply update_instance in E as (Hi & Hr & Hs & He & _).
    unfold owns_listeners, owns, resize_listener in *. by rewrite Hi, Hr, Hs, He.
  - intros E. apply bind_Some in E as (q & E & [= <- <-]). by apply (enable_owns p).
  - intros [= <- <-]. destruct (disable_spec p Hown) as (? & ? & _). by apply empty_owns.
  - intros E. apply bind_Some in E as (q & E & [= <- <-]).
    destruct (destroy_spec p q Hown E) as (_ & ? & ? & _). by apply empty_owns.
Qed.

Lemma history_inv (P : pop → Prop) :
  (∀ o p p' cs, P p → do_op o p = Some (p', cs) → P p') →
  ∀ ops p p' cs, P p → history ops p = Some (p', cs) → P p'.
Proof.
  intros Hop. induction ops as [|o ops IH]; intros p p' cs HP; simpl.
  - by intros [= <- <-].
  - intros E. apply bind_Some in E as ([p1 c1] & E1 & E).
    apply bind_Some in E as ([p2 c2] & E2 & [= <- <-]). eapply IH; [|exact E2]. by eapply Hop.
Qed.

(** ** The callbacks *)

(** The updates of a history before it destroys the popper. *)
Fixpoint live_updates (ops : list op) : nat :=
  match ops with
  | [] => 0
  | OpDestroy :: _ => 0
  | OpUpdate :: ops' => S (live_updates ops')
  | _ :: ops' => live_updates ops'
  end.

Lemma do_op_quiet o p p' cs :
  o ≠ OpUpdate → do_op o p = Some (p', cs) →
  cs = [] ∧ isCreated (p_state p') = isCreated (p_state p) ∧
  isDestroyed (p_state p') = (isDestroyed (p_state p) || bool_decide (o = OpDestroy)).
Proof.
  intros Ho. destruct o; [done|..]; simpl.
  - intros E. apply bind_Some in E as (q & E & [= <- <-]). split; [done|].
    unfold enableEventListeners in E. rewrite orb_false_r.
    destruct (eventsEnabled _); [by injection E as <-|].
    apply bind_Some in E as (s & E & [= <-]). simpl.
    unfold setupEventListeners in E. apply bind_Some in E as (el & _ & E).
    by apply bind_Some in E as ([ls ps] & _ & [= <-]).
  - intros [= <- <-]. split; [done|]. rewrite orb_false_r. unfold disableEventListeners.
    by destruct (eventsEnabled _).
  - intros E. apply bind_Some in E as (q & E & [= <- <-]). split; [done|].
    rewrite orb_true_r. revert E. unfold destroy. cbv zeta.
    match goal with |- context [disableEventListeners defaultView ?r] =>
      assert (isCreated (p_state (disableEventListeners defaultView r))
                = isCreated (p_state p)
              ∧ isDestroyed (p_state (disableEventListeners defaultView r)) = true) as [Hc Hd]
        by (unfold disableEventListeners; by destruct (eventsEnabled (p_state r)));
      set (p2 := disableEventListeners defaultView r) in * end.
    clearbody p2. repeat break_goal; intros [= <-]; done.
Qed.

(** [onCreate] the first time, [onUpdate] from then on. *)
Definition callbacks_for (created : bool) (ds : list (data (nodeD:=nodeD)))
    : list call_back :=
  match created, ds with
  | true, _ => OnUpdate <$> ds
  | false, [] => []
  | false, d :: ds' => OnCreate d :: (OnUpdate <$> ds')
  end.

Lemma history_callbacks ops p p' cs :
  history ops p = Some (p', cs) →
  if isDestroyed (p_state p) then cs = []
  else ∃ ds, length ds = live_updates ops ∧ cs = callbacks_for (isCreated (p_state p)) ds.
Proof.
  revert p p' cs. induction ops as [|o ops IH]; intros p p' cs; simpl.
  - intros [= <- <-]. destruct (isDestroyed _); [done|].
    exists []. by destruct (isCreated _).
  - intros E. apply bind_Some in E as ([p1 c1] & E1 & E).
    apply bind_Some in E as ([p2 c2] & E2 & [= <- <-]). specialize (IH _ _ _ E2).
    destruct (decide (o = OpUpdate)) as [->|Ho].
    + simpl in E1. pose proof (update_instance _ _ _ E1) as (_ & _ & _ & _ & Hd).
      rewrite Hd in IH. unfold update in E1.
      destruct (isDestroyed (p_state p)); [injection E1 as <- <-; by rewrite IH|].
      apply bind_Some in E1 as (d & _ & E1). apply bind_Some in E1 as (d' & _ & E1).
      injection E1 as <- <-. destruct IH as (ds & Hlen & ->).
      exists (d' :: ds). split; [by rewrite <-Hlen|]. by destruct (isCreated (p_state p)).
    + destruct (do_op_quiet o p p1 c1 Ho E1) as (-> & Hc & Hd).
      rewrite Hc, Hd in IH. destruct (isDestroyed (p_state p)); [done|]. simpl in *.
      destruct o; try done. rewrite IH. exists []. by destruct (isCreated _).
Qed.

(** ** The climbs end *)

(** A document of finite height: every parent is nearer to the root, and the
    bodies are named [BODY]. *)
Record finite_tree (D : Dom nodeD) (height : nodeD → nat) : Prop := {
  ft_parent el (q : nodeD) : parentNode D el = Some q → height q < height el;
  ft_host el (q : nodeD) : host D el = Some q → height q < height el;
  ft_body el : nodeName D (ownerDocument_body D el) = "BODY";
  ft_document_body : nodeName D (document_body D) = "BODY";
  ft_document_node el : nodeName D (document_node_body D el) = "BODY"
}.

Lemma getScrollParent_total D height n el :
  finite_tree D height → height el < n →
  ∃ sp, getScrollParent D n (Some el) = Some sp ∧
    (nodeName D sp = "BODY" ∨ height sp ≤ height el).
Proof.
  intros Ht. revert el. induction n as [|n IH]; intros el Hh; [lia|]. cbn [getScrollParent].
  destruct (name_is D el "HTML" || name_is D el "BODY") eqn:En.
  { eexists. split; [done|left]. apply Ht. }
  destruct (name_is D el "#document"); [eexists; split; [done|left]; apply Ht|].
  destruct (scrolls D el); [eexists; split; [done|by right]|].
  apply orb_false_iff in En as [En _]. apply bool_decide_eq_false in En.
  destruct (getParentNode D el) as [p|] eqn:Ep.
  - assert (height p < height el) as Hp.
    { unfold getParentNode, name_is in Ep. rewrite bool_decide_eq_false_2 in Ep by done.
      destruct (parentNode D el) eqn:E; [injection Ep as ->; by eapply ft_parent|].
      by eapply ft_host. }
    destruct (IH p) as (sp & E & Hsp); [lia|].
    exists sp. split; [done|]. destruct Hsp; [by left|right; lia].
  - exists (document_body D). split; [by destruct n|left]. apply Ht.
Qed.

Lemma attach_total D height n node e ls ps :
  finite_tree D height → (∀ m, height m < fuel) →
  nodeName D node = "BODY" ∨ height node < n →
  is_Some (attachToScrollParents fuel defaultView D n node e ls ps).
Proof.
  intros Ht Hfuel. revert node ls ps. induction n as [|n IH]; intros node ls ps Hn.
  - destruct Hn as [Hn|?]; [|lia]. simpl. unfold name_is.
    rewrite bool_decide_eq_true_2 by done. by eexists.
  - cbn [attachToScrollParents]. destruct (name_is D node "BODY") eqn:En; [by eexists|].
    destruct Hn as [Hn|Hn]; [by apply bool_decide_eq_false in En|].
    assert (∃ next, getScrollParent D fuel (parentNode D node) = Some next ∧
              (nodeName D next = "BODY" ∨ height next < n)) as (next & -> & Hnext).
    { destruct (parentNode D node) as [p|] eqn:Ep.
      - destruct (getScrollParent_total D height fuel p Ht (Hfuel p)) as (sp & E & Hsp).
        exists sp. split; [done|]. destruct Hsp as [?|Hsp]; [by left|right].
        pose proof (ft_parent D height Ht node p Ep). lia.
      - exists (document_body D). split; [by destruct fuel|left]. apply Ht. }
    cbn [mbind option_bind]. edestruct IH as [[ls2 ps2] ->]; [exact Hnext|]. by eexists.
Qed.

(** ** A new popper and a destroyed one *)

Lemma new_popper_owns reference pop0 o user pg attached p :
  new_popper browser fuel defaultView reference pop0 o user pg attached = Some p →
  owns_listeners p ∧ isCreated (p_state p) = false ∧ isDestroyed (p_state p) = false.
Proof.
  unfold new_popper. intros E. apply bind_Some in E as (pg1 & _ & E).
  apply bind_Some in E as (p1 & E & [= <-]). destruct (opt_eventsEnabled o) eqn:Eo.
  - set (p0 := Popper _ _ _ _ _) in E.
    assert (owns_listeners p0) as H0 by (by apply empty_owns).
    destruct (do_op_quiet OpEnable p0 p1 []) as (_ & Hc & Hd);
      [done|by simpl; rewrite E|]. simpl in Hc, Hd.
    destruct (enable_owns _ _ H0 E) as [[H1 _] _]. by repeat split.
  - injection E as <-. split; [|done]. by apply empty_owns.
Qed.

Definition cleared_properties : list string :=
  ["position"; "top"; "left"; "right"; "bottom"; "willChange"].

Lemma destroy_clears p p' :
  isModifierEnabled (i_modifiers (p_instance p)) "applyStyle" = true →
  destroy style_supported defaultView p = Some p' →
  (∀ prop, prop ∈ cleared_properties → pg_style (p_page p') !! prop = None) ∧
  pg_attrs (p_page p') !! "x-placement" = None.
Proof.
  intros Ha. unfold destroy. cbv zeta. cbn [set_state p_instance p_page]. rewrite Ha.
  match goal with |- context [disableEventListeners defaultView ?q] =>
    assert (p_page (disableEventListeners defaultView q) = p_page q) as Hp
      by (unfold disableEventListeners; by destruct (eventsEnabled (p_state q)));
    set (p2 := disableEventListeners defaultView q) in * end.
  clearbody p2. intros E.
  assert (p_page p' = p_page p2) as -> by (revert E; repeat break_goal; by intros [= <-]).
  rewrite Hp. cbn -[style_put cleared_properties]. split; [|apply lookup_delete_eq].
  intros prop Hprop. rewrite !lookup_style_put.
  repeat (apply elem_of_cons in Hprop as [->|Hprop]; [by repeat case_decide|]).
  by apply elem_of_nil in Hprop.
Qed.
End life.

(** ** Witness data *)

Definition demo_new : option (popper (nodeD:=nat) (win:=unit)) :=
  new_popper demo_browser 20 (λ _, tt) 3 2 (Options "bottom" false true true) [] demo_page true.

Abbreviation demo_history :=
  (history demo_browser demo_query demo_supported 20 3 (λ _, tt)).

(** From the constructor on, whatever sequence of updates, enabling,
    disabling and destruction follows: a popper whose events are disabled has
    no listener registered; disabling or destroying it leaves none; destroying
    it also removes the inline styles and the attribute Popper wrote, and the
    element itself exactly when asked to. *)
Theorem destroy_releases {nodeD} `{EqDecision nodeD} {win} `{EqDecision win} browser query
    supported fuel depth (defaultView : nodeD → win) reference pop0 o user pg attached p ops p' cs :
  new_popper browser fuel defaultView reference pop0 o user pg attached = Some p →
  history browser query supported fuel depth defaultView ops p = Some (p', cs) →
  (eventsEnabled (p_state p') = false → registered (p_state p') = []) ∧
  registered (p_state (disableEventListeners defaultView p')) = [] ∧
  ∀ p'', destroy supported defaultView p' = Some p'' →
    registered (p_state p'') = [] ∧ isDestroyed (p_state p'') = true ∧
    p_attached p'' = p_attached p' && negb (opt_removeOnDestroy (p_options p')) ∧
    (isModifierEnabled (i_modifiers (p_instance p')) "applyStyle" = true →
     (∀ prop, prop ∈ cleared_properties → pg_style (p_page p'') !! prop = None) ∧
     pg_attrs (p_page p'') !! "x-placement" = None).
Proof.
  intros Hnew Hops. destruct (new_popper_owns browser query supported fuel depth defaultView _ _ _ _ _ _ _ Hnew)
    as (Hown & _).
  assert (owns_listeners defaultView p') as Hown'.
  { eapply (history_inv browser query supported fuel depth defaultView
      (owns_listeners defaultView)); [|exact Hown|exact Hops].
    intros. by eapply do_op_owns. }
  split; [by intros He; apply Hown'|]. split; [by apply disable_spec|].
  intros p'' Hd. pose proof (destroy_spec _ _ _ _ Hown' Hd) as (H1 & H2 & _ & _ & _ & H3).
  split_and!; try done. intros Ha. by eapply destroy_clears.
Qed.

Lemma destroy_releases_witness :
  ∃ p p' cs p'', demo_new = Some p ∧ length (registered (p_state p)) = 2 ∧
    demo_history [OpUpdate; OpDisable; OpEnable; OpUpdate] p = Some (p', cs) ∧
    destroy demo_supported (λ _, tt) p' = Some p'' ∧ registered (p_state p'') = [].
Proof.
  destruct demo_new as [p|] eqn:E1; [|vm_compute in E1; discriminate E1].
  assert (length (registered (p_state p)) = 2) as Hl by (vm_compute in E1; by injection E1 as <-).
  destruct (demo_history [OpUpdate; OpDisable; OpEnable; OpUpdate] p) as [[p' cs]|] eqn:E2;
    [|vm_compute in E1; injection E1 as <-; vm_compute in E2; discriminate E2].
  destruct (destroy demo_supported (λ _, tt) p') as [p''|] eqn:E3.
  - exists p, p', cs, p''. split_and!; try done.
    edestruct (destroy_releases (nodeD:=nat) (win:=unit)) as (_ & _ & Hd); [exact E1|exact E2|].
    by apply Hd.
  - vm_compute in E1. injection E1 as <-. vm_compute in E2. injection E2 as <- <-.
    vm_compute in E3. discriminate E3.
Defined.

(** The callbacks of a new popper: over any history, one callback for each
    update made before the destruction; the first one is [onCreate], the others
    are [onUpdate]; after the destruction none. *)
Theorem callbacks_in_order {nodeD} `{EqDecision nodeD} {win} `{EqDecision win} browser query
    supported fuel depth (defaultView : nodeD → win) reference pop0 o user pg attached p ops p' cs :
  new_popper browser fuel defaultView reference pop0 o user pg attached = Some p →
  history browser query supported fuel depth defaultView ops p = Some (p', cs) →
  length cs = live_updates ops ∧
  (cs = [] ∨ ∃ d ds, cs = OnCreate d :: (OnUpdate <$> ds)) ∧
  ∀ ops' p'' cs', isDestroyed (p_state p') = true →
    history browser query supported fuel depth defaultView ops' p' = Some (p'', cs') → cs' = [].
Proof.
  intros Hnew Hops. destruct (new_popper_owns browser query supported fuel depth defaultView _ _ _ _ _ _ _ Hnew)
    as (_ & Hc & Hd).
  pose proof Hops as Hcs%history_callbacks.
  rewrite Hd, Hc in Hcs. destruct Hcs as (ds & Hlen & ->).
  split; [by rewrite <-Hlen; destruct ds; simpl; rewrite ?length_fmap|].
  split; [destruct ds as [|d ds]; [by left|right; by exists d, ds]|].
  intros ops' p'' cs' Hdes Hops'.
  apply history_callbacks in Hops' as H'. by rewrite Hdes in H'.
Qed.

Lemma callbacks_in_order_witness :
  ∃ p p' cs, demo_new = Some p ∧
    demo_history [OpUpdate; OpDisable; OpUpdate; OpDestroy; OpUpdate] p = Some (p', cs) ∧
    length cs = 2.
Proof.
  destruct demo_new as [p|] eqn:E1; [|vm_compute in E1; discriminate E1].
  destruct (demo_history [OpUpdate; OpDisable; OpUpdate; OpDestroy; OpUpdate] p)
    as [[p' cs]|] eqn:E2;
    [|vm_compute in E1; injection E1 as <-; vm_compute in E2; discriminate E2].
  exists p, p', cs. split_and!; try done.
  edestruct (callbacks_in_order (nodeD:=nat) (win:=unit)) as (Hl & _); [exact E1|exact E2|].
  exact Hl.
Defined.

(** Registering the listeners climbs the scroll parents of the reference;
    in a document of finite height the climb ends and reaches the window, for
    any bound above the height. *)
Theorem enableEventListeners_ends {nodeD} `{EqDecision nodeD} {win} `{EqDecision win}
    browser fuel (defaultView : nodeD → win) (p : popper (nodeD:=nodeD) (win:=win)) height :
  finite_tree (browser (p_page p)) height → (∀ m, height m < fuel) →
  ∃ p', enableEventListeners browser fuel defaultView p = Some p' ∧
    eventsEnabled (p_state p') = true.
Proof.
  intros Ht Hfuel. unfold enableEventListeners.
  destruct (eventsEnabled (p_state p)) eqn:Ee; [by exists p|].
  unfold setupEventListeners.
  destruct (getScrollParent_total _ height fuel (i_reference (p_instance p)) Ht (Hfuel _))
    as (sp & -> & Hsp). cbn [mbind option_bind].
  edestruct (attach_total fuel defaultView (browser (p_page p)) height fuel sp "scroll")
    as [[ls ps] ->]; [done|done|right; apply Hfuel|].
  by eexists.
Qed.

Lemma enableEventListeners_ends_witness :
  ∃ p p', demo_new = Some p ∧
    enableEventListeners demo_browser 20 (λ _, tt) (disableEventListeners (λ _, tt) p) = Some p'.
Proof.
  destruct demo_new as [p|] eqn:E1; [|vm_compute in E1; discriminate E1].
  destruct (enableEventListeners_ends demo_browser 20 (λ _, tt)
    (disableEventListeners (λ _, tt) p)
    (λ n, match n with 9 => 0 | 0 => 1 | 1 => 2 | _ => 3 end)) as (p' & E & _).
  - split; try done. intros el q.
    do 10 (destruct el as [|el]; [by intros [= <-]; simpl; lia|]). intros [= <-]. simpl. lia.
  - intros m. do 10 (destruct m as [|m]; [lia|]). lia.
  - by exists p, p'.
Defined.
