(* ===== verification/JsRegex.v ===== *)
(** * Regular expressions of JavaScript

    The regular expressions the validation code uses: character classes,
    sequence, alternatives, repetition and negative lookahead.  [ends r s]
    computes what can be left of [s] after a match of [r] at its start;
    [ends_spec] proves it against the denotation [matches_to].  [full_match] is
    [/^r$/.test(s)]. *)
From stdpp Require Import base strings list relations.
From Stdlib Require Import Ascii Lia.
From S2P Require Import Prelude JsString.

Local Open Scope js_scope.

Inductive regex :=
  | REmpty                                    (* the empty string *)
  | RChar (p : ascii → bool)
  | RSeq (r1 r2 : regex)
  | RAlt (r1 r2 : regex)
  | RStar (r : regex)
  | RUpTo (n : nat) (r : regex)               (* r{0,n} *)
  | RNotAhead (r : regex).                    (* (?!r) *)

(** ** Abbreviations of the syntax *)

Definition RPlus (r : regex) : regex := RSeq r (RStar r).
Definition ROpt (r : regex) : regex := RUpTo 1 r.
Fixpoint RTimes (n : nat) (r : regex) : regex :=
  match n with 0 => REmpty | S n' => RSeq r (RTimes n' r) end.
(** [r{n,m}] *)
Definition RBetween (n m : nat) (r : regex) : regex := RSeq (RTimes n r) (RUpTo (m - n) r).
Definition RAtLeast (n : nat) (r : regex) : regex := RSeq (RTimes n r) (RStar r).
Definition RLit (c : ascii) : regex := RChar (λ x, bool_decide (x = c)).
Definition ROneOf (s : string) : regex := RChar (λ x, x ∈? chars_of s).
Definition RRange (a b : ascii) : regex :=
  RChar (λ x, (code a <=? code x) && (code x <=? code b)).
Definition RDigit : regex := RChar is_digit.
Definition RNonSpace : regex := RChar (λ c, negb (is_space c)).
Definition RWord (s : string) : regex := foldr (λ c r, RSeq (RLit c) r) REmpty (chars_of s).
Definition RAny (l : list regex) : regex :=
  match l with [] => RNotAhead REmpty | r :: l' => foldl RAlt r l' end.
Definition RAll (l : list regex) : regex :=
  match l with [] => REmpty | r :: l' => foldl RSeq r l' end.

(** ** Denotation *)

(** [n] rounds of [R]. *)
Fixpoint rounds {A} (R : A → A → Prop) (n : nat) (x y : A) : Prop :=
  match n with
  | 0 => x = y
  | S n' => ∃ z, R x z ∧ rounds R n' z y
  end.

(** [r] matches the part of [s] before its rest [t]. *)
Fixpoint matches_to (r : regex) (s t : chars) : Prop :=
  match r with
  | REmpty => s = t
  | RChar p => ∃ c, s = c :: t ∧ p c = true
  | RSeq r1 r2 => ∃ u, matches_to r1 s u ∧ matches_to r2 u t
  | RAlt r1 r2 => matches_to r1 s t ∨ matches_to r2 s t
  | RStar r => ∃ n, rounds (matches_to r) n s t
  | RUpTo n r => ∃ k, k ≤ n ∧ rounds (matches_to r) k s t
  | RNotAhead r => s = t ∧ ¬ ∃ u, matches_to r s u
  end.

(** ** Matching *)

(** One round from each rest of a set, rounds that match nothing left out. *)
Definition proper_ends (f : chars → list chars) (s : chars) : list chars :=
  filter (λ t, length t < length s) (f s).

Definition next_level (f : chars → list chars) (l : list chars) : list chars :=
  remove_dups (mjoin (proper_ends f <$> l)).

(** What at most [n] rounds can leave. *)
Fixpoint levels (f : chars → list chars) (n : nat) (l : list chars) : list chars :=
  match n with
  | 0 => l
  | S n' => l ++ levels f n' (next_level f l)
  end.

Fixpoint ends (r : regex) (s : chars) : list chars :=
  match r with
  | REmpty => [s]
  | RChar p => match s with c :: s' => if p c then [s'] else [] | [] => [] end
  | RSeq r1 r2 => remove_dups (mjoin (ends r2 <$> ends r1 s))
  | RAlt r1 r2 => remove_dups (ends r1 s ++ ends r2 s)
  | RStar r => remove_dups (levels (ends r) (length s) [s])
  | RUpTo n r => remove_dups (levels (ends r) n [s])
  | RNotAhead r => match ends r s with [] => [s] | _ => [] end
  end.

(** [/^r$/.test(s)] *)
Definition full_match (r : regex) (s : chars) : bool := bool_decide ([] ∈ ends r s).

(** ** Correctness *)

Lemma rounds_length (R : chars → chars → Prop) n s t :
  (∀ s t, R s t → length t ≤ length s) → rounds R n s t → length t ≤ length s.
Proof.
  intros HR. revert s. induction n as [|n IH]; intros s; simpl; [by intros ->|].
  intros (u & ?%HR & ?%IH). lia.
Qed.

Lemma matches_to_length r s t : matches_to r s t → length t ≤ length s.
Proof.
  revert s t. induction r as [|p|r1 IH1 r2 IH2|r1 IH1 r2 IH2|r IH|n r IH|r IH]; intros s t; simpl.
  - by intros ->.
  - intros (c & -> & _). simpl. lia.
  - intros (u & ?%IH1 & ?%IH2). lia.
  - intros [?%IH1|?%IH2]; done.
  - intros [n Hn]. by eapply rounds_length.
  - intros (k & _ & Hn). by eapply rounds_length.
  - by intros [-> _].
Qed.

(** A round that matches nothing can be left out: the rest of the same length
    is the same rest. *)
Lemma matches_to_suffix r s t : matches_to r s t → t `suffix_of` s.
Proof.
  assert (∀ (R : chars → chars → Prop) n s t,
    (∀ s t, R s t → t `suffix_of` s) → rounds R n s t → t `suffix_of` s) as Hrounds.
  { intros R n s0 t0 HR. revert s0. induction n as [|n IH]; intros s0; simpl; [by intros ->|].
    intros (u & ?%HR & ?%IH). by trans u. }
  revert s t. induction r as [|p|r1 IH1 r2 IH2|r1 IH1 r2 IH2|r IH|n r IH|r IH]; intros s t; simpl.
  - by intros ->.
  - intros (c & -> & _). by apply suffix_cons_r.
  - intros (u & ?%IH1 & ?%IH2). by trans u.
  - intros [?%IH1|?%IH2]; done.
  - intros [n Hn]. by eapply Hrounds.
  - intros (k & _ & Hn). by eapply Hrounds.
  - by intros [-> _].
Qed.

Lemma suffix_length_eq (s t : chars) : t `suffix_of` s → length s ≤ length t → s = t.
Proof. intros [k ->] Hl. rewrite length_app in Hl. by destruct k; [|simpl in Hl; lia]. Qed.

Section star.
Context (R : chars → chars → Prop) (f : chars → list chars).
Hypothesis Hf : ∀ s t, t ∈ f s ↔ R s t.
Hypothesis HR : ∀ s t, R s t → t `suffix_of` s.

Definition shrinking (s t : chars) : Prop := R s t ∧ length t < length s.

Lemma elem_of_next_level l t : t ∈ next_level f l ↔ ∃ s, s ∈ l ∧ shrinking s t.
Proof.
  unfold next_level, proper_ends, shrinking. rewrite elem_of_remove_dups, list_elem_of_join.
  split.
  - intros (x & Ht & (s & -> & Hs)%list_elem_of_fmap). apply list_elem_of_filter in Ht as [? ?%Hf].
    by exists s.
  - intros (s & Hs & HRs & Hl). exists (filter (λ t, length t < length s) (f s)).
    split; [apply list_elem_of_filter; split; [done|by apply Hf]|].
    apply list_elem_of_fmap. by exists s.
Qed.

Lemma elem_of_levels n l t :
  t ∈ levels f n l ↔ ∃ k s, k ≤ n ∧ s ∈ l ∧ rounds shrinking k s t.
Proof.
  revert l. induction n as [|n IH]; intros l; simpl.
  - split; [intros Ht; by exists 0, t|]. intros (k & s & Hk & Hs & Hr).
    assert (k = 0) as -> by lia. by simpl in Hr; subst.
  - rewrite elem_of_app, IH. split.
    + intros [Ht|(k & s & Hk & Hs & Hr)]; [exists 0, t; split; [lia|done]|].
      apply elem_of_next_level in Hs as (s0 & Hs0 & Hsh).
      exists (S k), s0. split; [lia|]. split; [done|]. by exists s.
    + intros ([|k] & s & Hk & Hs & Hr); simpl in Hr; [subst; by left|].
      destruct Hr as (u & Hu & Hr). right. exists k, u. split; [lia|]. split; [|done].
      apply elem_of_next_level. by exists s.
Qed.

Lemma rounds_shrink k s t : rounds R k s t → ∃ k', k' ≤ k ∧ rounds shrinking k' s t.
Proof.
  revert s. induction k as [|k IH]; intros s; simpl; [intros ->; by exists 0|].
  intros (u & Hu & (k' & Hk & Hr)%IH).
  destruct (decide (length u < length s)) as [Hl|Hl].
  - exists (S k'). split; [lia|]. by exists u.
  - exists k'. split; [lia|].
    assert (s = u) as -> by (apply suffix_length_eq; [by apply HR|lia]). done.
Qed.

Lemma rounds_unshrink k s t : rounds shrinking k s t → rounds R k s t.
Proof.
  revert s. induction k as [|k IH]; intros s; simpl; [done|].
  intros (u & [Hu _] & Hr%IH). by exists u.
Qed.

Lemma rounds_shrinking_bound k s t : rounds shrinking k s t → k ≤ length s.
Proof.
  revert s. induction k as [|k IH]; intros s; simpl; [lia|].
  intros (u & [_ Hl] & Hr%IH). lia.
Qed.

Lemma elem_of_upto n s t :
  t ∈ remove_dups (levels f n [s]) ↔ ∃ k, k ≤ n ∧ rounds R k s t.
Proof.
  rewrite elem_of_remove_dups, elem_of_levels. split.
  - intros (k & u & Hk & ->%list_elem_of_singleton & Hr%rounds_unshrink). by exists k.
  - intros (k & Hk & (k' & Hk' & Hr)%rounds_shrink). exists k', s.
    split; [lia|]. split; [by apply list_elem_of_singleton|done].
Qed.

Lemma elem_of_star s t :
  t ∈ remove_dups (levels f (length s) [s]) ↔ ∃ k, rounds R k s t.
Proof.
  rewrite elem_of_upto. split; [intros (k & _ & Hr); by exists k|].
  intros (k & (k' & _ & Hr)%rounds_shrink). exists k'.
  split; [by eapply rounds_shrinking_bound|by apply rounds_unshrink].
Qed.
End star.

Lemma ends_spec r s t : t ∈ ends r s ↔ matches_to r s t.
Proof.
  revert s t. induction r as [|p|r1 IH1 r2 IH2|r1 IH1 r2 IH2|r IH|n r IH|r IH]; intros s t; simpl.
  - rewrite list_elem_of_singleton. split; congruence.
  - destruct s as [|c s]; [rewrite elem_of_nil; by split; [|intros (c & ? & _)]|].
    destruct (p c) eqn:Hc; [rewrite list_elem_of_singleton|rewrite elem_of_nil]; split.
    + intros ->. by exists c.
    + by intros (c' & [= -> ->] & _).
    + done.
    + intros (c' & [= -> ->] & ?). congruence.
  - rewrite elem_of_remove_dups, list_elem_of_join. split.
    + intros (x & Ht & (u & -> & Hu)%list_elem_of_fmap). exists u. by rewrite <-IH1, <-IH2.
    + intros (u & Hu%IH1 & Ht%IH2). exists (ends r2 u). split; [done|].
      apply list_elem_of_fmap. by exists u.
  - by rewrite elem_of_remove_dups, elem_of_app, IH1, IH2.
  - apply elem_of_star; [exact IH|]. apply matches_to_suffix.
  - apply elem_of_upto; [exact IH|]. apply matches_to_suffix.
  - destruct (ends r s) as [|u l] eqn:E.
    + rewrite list_elem_of_singleton. split; [|by intros [-> _]]. intros ->. split; [done|].
      intros (u & Hu%IH). rewrite E in Hu. by apply elem_of_nil in Hu.
    + rewrite elem_of_nil. split; [done|]. intros [_ []]. exists u. apply IH. rewrite E. by left.
Qed.

Lemma full_match_spec r s : full_match r s = true ↔ matches_to r s [].
Proof. unfold full_match. by rewrite bool_decide_eq_true, ends_spec. Qed.

(** ** Reading matches of the abbreviations *)

Lemma star_chars p s : (∃ n, rounds (matches_to (RChar p)) n s []) ↔ Forall (λ c, p c = true) s.
Proof.
  split.
  - intros [n Hn]. revert s Hn. induction n as [|n IH]; intros s; simpl; [by intros ->; constructor|].
    intros (u & (c & -> & Hc) & Hr%IH). by constructor.
  - induction 1 as [|c s Hc _ [n Hn]]; [by exists 0|]. exists (S n), s. split; [by exists c|done].
Qed.

(** A run of one class followed by anything. *)
Lemma star_chars_to p s t :
  matches_to (RStar (RChar p)) s t ↔ ∃ k, s = k ++ t ∧ Forall (λ c, p c = true) k.
Proof.
  split.
  - intros [n Hn]. revert s Hn. induction n as [|n IH]; intros s; simpl; [by intros ->; exists []|].
    intros (u & (c & -> & Hc) & (k & -> & Hk)%IH). exists (c :: k). split; [done|by constructor].
  - intros (k & -> & Hk). induction Hk as [|c k Hc _ [n Hn]]; [by exists 0|].
    exists (S n), (k ++ t). split; [by exists c|done].
Qed.

Lemma plus_chars_to p s t :
  matches_to (RPlus (RChar p)) s t ↔ ∃ k, s = k ++ t ∧ k ≠ [] ∧ Forall (λ c, p c = true) k.
Proof.
  unfold RPlus. change (matches_to (RSeq ?a ?b) s t) with (∃ u, matches_to a s u ∧ matches_to b u t).
  setoid_rewrite star_chars_to. split.
  - intros (u & (c & -> & Hc) & k & -> & Hk). exists (c :: k). split_and!; [done|done|by constructor].
  - intros (k & -> & Hne & Hk). destruct k as [|c k]; [done|]. apply Forall_cons in Hk as [Hc Hk].
    exists (k ++ t). split; [by exists c|by exists k].
Qed.

Lemma times_chars_to n p s t :
  matches_to (RTimes n (RChar p)) s t ↔
    ∃ k, s = k ++ t ∧ length k = n ∧ Forall (λ c, p c = true) k.
Proof.
  revert s. induction n as [|n IH]; intros s; simpl.
  - split; [intros ->; by exists []|]. intros (k & -> & Hl & _). by apply nil_length_inv in Hl as ->.
  - setoid_rewrite IH. split.
    + intros (u & (c & -> & Hc) & k & -> & Hl & Hk). exists (c :: k).
      split_and!; [done|simpl; lia|by constructor].
    + intros (k & -> & Hl & Hk). destruct k as [|c k]; [done|]. apply Forall_cons in Hk as [Hc Hk].
      exists (k ++ t). split; [by exists c|]. exists k. split_and!; [done|by injection Hl|done].
Qed.

Lemma opt_to r s t : matches_to (ROpt r) s t ↔ s = t ∨ matches_to r s t.
Proof.
  simpl. split.
  - intros (k & Hk & Hr). destruct k as [|[|k]]; simpl in Hr; [by left| |lia].
    destruct Hr as (u & Hu & ->). by right.
  - intros [->|H]; [by exists 0; split; [lia|]|]. exists 1. split; [lia|]. by exists t.
Qed.

Lemma lit_to c s t : matches_to (RLit c) s t ↔ s = c :: t.
Proof. simpl. setoid_rewrite bool_decide_eq_true. split; [by intros (c' & -> & ->)|intros ->; by exists c]. Qed.

Lemma seq_to r1 r2 s t : matches_to (RSeq r1 r2) s t ↔ ∃ u, matches_to r1 s u ∧ matches_to r2 u t.
Proof. done. Qed.

Lemma alt_to r1 r2 s t : matches_to (RAlt r1 r2) s t ↔ matches_to r1 s t ∨ matches_to r2 s t.
Proof. done. Qed.

Lemma digits_to s t :
  matches_to (RPlus RDigit) s t ↔ ∃ k, s = k ++ t ∧ k ≠ [] ∧ all_digits k.
Proof. apply plus_chars_to. Qed.

Lemma range_to a b s t :
  matches_to (RRange a b) s t ↔ ∃ c, s = c :: t ∧ code a ≤ code c ≤ code b.
Proof.
  simpl. setoid_rewrite andb_true_iff. setoid_rewrite Nat.leb_le. done.
Qed.

Lemma oneof_to l s t : matches_to (ROneOf l) s t ↔ ∃ c, s = c :: t ∧ c ∈ chars_of l.
Proof. simpl. setoid_rewrite bool_decide_eq_true. done. Qed.

Lemma word_to w s t : matches_to (RWord w) s t ↔ s = chars_of w ++ t.
Proof.
  unfold RWord. generalize (chars_of w) as l. intros l. revert s. induction l as [|c l IH]; intros s; [done|].
  change (matches_to _ s t)
    with (∃ u, matches_to (RLit c) s u ∧ matches_to (foldr (λ c r, RSeq (RLit c) r) REmpty l) u t).
  setoid_rewrite lit_to. setoid_rewrite IH. split; [by intros (u & -> & ->)|intros ->; by exists (l ++ t)].
Qed.

(** ** The language of an expression *)

(** Expressions that look at nothing but what they match. *)
Fixpoint plain (r : regex) : bool :=
  match r with
  | REmpty | RChar _ => true
  | RSeq r1 r2 | RAlt r1 r2 => plain r1 && plain r2
  | RStar r | RUpTo _ r => plain r
  | RNotAhead _ => false
  end.

Definition lang (r : regex) (s : chars) : Prop := matches_to r s [].

Lemma rounds_shift (R : chars → chars → Prop) n w :
  (∀ s t, R s t → t `suffix_of` s) → (∀ s t, R (s ++ w) (t ++ w) ↔ R s t) →
  ∀ s t, rounds R n (s ++ w) (t ++ w) ↔ rounds R n s t.
Proof.
  intros Hsuf HR. induction n as [|n IH]; intros s t; simpl.
  - split; [by intros ?%app_inv_tail|by intros ->].
  - split.
    + intros (u & Hu & Hr). assert ((t ++ w) `suffix_of` u) as [k ->].
      { clear -Hsuf Hr. revert u Hr. induction n as [|n IH]; intros u; simpl; [by intros ->|].
        intros (u' & ?%Hsuf & ?%IH). by trans u'. }
      rewrite app_assoc in Hu, Hr. exists (k ++ t). split; [by apply HR|by apply IH].
    + intros (u & Hu & Hr). exists (u ++ w). split; [by apply HR|by apply IH].
Qed.

(** What follows a match does not matter. *)
Lemma plain_shift r w : plain r = true → ∀ s t, matches_to r (s ++ w) (t ++ w) ↔ matches_to r s t.
Proof.
  induction r as [|p|r1 IH1 r2 IH2|r1 IH1 r2 IH2|r IH|n r IH|r IH]; intros Hp s t; simpl in Hp |- *.
  - split; [by intros ?%app_inv_tail|by intros ->].
  - split; [|by intros (c & -> & ?); exists c].
    intros (c & E & Hc). exists c. split; [|done]. by apply (app_inv_tail w).
  - apply andb_true_iff in Hp as [H1 H2]. split.
    + intros (u & Hu & Ht). destruct (matches_to_suffix _ _ _ Ht) as [k ->].
      rewrite app_assoc in Hu, Ht. exists (k ++ t). split; [by apply IH1|by apply IH2].
    + intros (u & Hu & Ht). exists (u ++ w). split; [by apply IH1|by apply IH2].
  - apply andb_true_iff in Hp as [H1 H2]. by rewrite IH1, IH2.
  - pose proof (λ n, rounds_shift _ n w (matches_to_suffix r) (IH Hp)) as Hn. by setoid_rewrite Hn.
  - pose proof (λ n, rounds_shift _ n w (matches_to_suffix r) (IH Hp)) as Hn. by setoid_rewrite Hn.
  - done.
Qed.

Lemma plain_to r s t : plain r = true → matches_to r s t ↔ ∃ k, s = k ++ t ∧ lang r k.
Proof.
  intros Hp. split.
  - intros H. destruct (matches_to_suffix _ _ _ H) as [k ->]. exists k. split; [done|].
    by apply (plain_shift r t Hp k []).
  - intros (k & -> & H). by apply (plain_shift r t Hp k []).
Qed.

Lemma lang_seq r1 r2 s :
  plain r1 = true → lang (RSeq r1 r2) s ↔ ∃ a b, s = a ++ b ∧ lang r1 a ∧ lang r2 b.
Proof.
  intros Hp. split.
  - intros (u & (k & -> & Hk)%plain_to & Hu); [|done]. by exists k, u.
  - intros (a & b & -> & Ha & Hb). exists b. split; [|done]. apply plain_to; [done|]. by exists a.
Qed.

Lemma lang_all l s :
  forallb plain l = true → lang (RAll l) s ↔ ∃ parts, s = mjoin parts ∧ Forall2 lang l parts.
Proof.
  intros Hl. destruct l as [|r l]; simpl.
  - unfold lang. simpl. split; [intros ->; by exists []|]. intros (parts & -> & H). by inversion H.
  - simpl in Hl. apply andb_true_iff in Hl as [Hr Hl]. revert r s Hr. induction l as [|r' l IH]; intros r s Hr; simpl.
    + split; [intros H; exists [s]; simpl; rewrite app_nil_r; auto|].
      intros (parts & -> & H). inversion H as [|? a ? ? Ha Hn]; subst. inversion Hn; subst. simpl. by rewrite app_nil_r.
    + simpl in Hl. apply andb_true_iff in Hl as [Hr' Hl]. rewrite IH; [|done|simpl; by rewrite Hr, Hr']. split.
      * intros (parts & -> & H). inversion H as [|? a ? parts' Ha Hp']; subst.
        apply lang_seq in Ha as (b & c & -> & Hb & Hc); [|done]. exists (b :: c :: parts').
        simpl. rewrite <-app_assoc. split; [done|]. by repeat constructor.
      * intros (parts & -> & H). inversion H as [|? b ? parts1 Hb Hp1]; subst.
        inversion Hp1 as [|? c ? parts2 Hc Hp2]; subst. exists ((b ++ c) :: parts2).
        simpl. rewrite <-app_assoc. split; [done|]. constructor; [|done]. apply lang_seq; [done|]. by exists b, c.
Qed.

Lemma lang_alt r1 r2 s : lang (RAlt r1 r2) s ↔ lang r1 s ∨ lang r2 s.
Proof. done. Qed.

Lemma lang_char p s : lang (RChar p) s ↔ ∃ c, s = [c] ∧ p c = true.
Proof. done. Qed.

Lemma lang_lit c s : lang (RLit c) s ↔ s = [c].
Proof. apply lit_to. Qed.

Lemma lang_word w s : lang (RWord w) s ↔ s = chars_of w.
Proof. unfold lang. rewrite word_to. by rewrite app_nil_r. Qed.

Lemma lang_range a b s : lang (RRange a b) s ↔ ∃ c, s = [c] ∧ code a ≤ code c ≤ code b.
Proof. apply range_to. Qed.

Lemma lang_opt r s : lang (ROpt r) s ↔ s = [] ∨ lang r s.
Proof. apply opt_to. Qed.

Lemma lang_times n p s :
  lang (RTimes n (RChar p)) s ↔ length s = n ∧ Forall (λ c, p c = true) s.
Proof.
  unfold lang. rewrite times_chars_to. split; [|intros [? ?]; exists s; by rewrite app_nil_r].
  intros (k & -> & ? & ?). by rewrite app_nil_r.
Qed.

Lemma lang_any r l s : lang (RAny (r :: l)) s ↔ Exists (λ r, lang r s) (r :: l).
Proof.
  simpl. revert r. induction l as [|r' l IH]; intros r; simpl; rewrite !Exists_cons.
  - rewrite Exists_nil. tauto.
  - rewrite IH, !Exists_cons, lang_alt. tauto.
Qed.

(** ** Matches that are not anchored at both ends *)

(** Some end part of the string satisfies [P]. *)
Fixpoint search (P : chars → bool) (s : chars) : bool :=
  P s || match s with [] => false | _ :: s' => search P s' end.

(** [/^r/.test(s)], [/r$/.test(s)] and [/r/.test(s)] *)
Definition prefix_match (r : regex) (s : chars) : bool := match ends r s with [] => false | _ => true end.
Definition suffix_match (r : regex) (s : chars) : bool := search (full_match r) s.
Definition part_match (r : regex) (s : chars) : bool := search (prefix_match r) s.

Lemma search_spec P s : search P s = true ↔ ∃ p q, s = p ++ q ∧ P q = true.
Proof.
  induction s as [|c s IH]; simpl; rewrite orb_true_iff.
  - split; [intros [H|H]; [by exists [], []|done]|]. intros (p & q & E & H).
    symmetry in E. apply app_eq_nil in E as [-> ->]. by left.
  - rewrite IH. split.
    + intros [H|(p & q & -> & H)]; [by exists [], (c :: s)|by exists (c :: p), q].
    + intros ([|d p] & q & E & H); simpl in E; [left; by subst|]. injection E as -> ->. right. eauto.
Qed.

Lemma prefix_match_spec r s : prefix_match r s = true ↔ ∃ t, matches_to r s t.
Proof.
  unfold prefix_match. destruct (ends r s) as [|t l] eqn:E.
  - split; [done|]. intros [t Ht%ends_spec]. rewrite E in Ht. by apply elem_of_nil in Ht.
  - split; [|done]. intros _. exists t. apply ends_spec. rewrite E. by left.
Qed.

Lemma suffix_match_spec r s : suffix_match r s = true ↔ ∃ p q, s = p ++ q ∧ matches_to r q [].
Proof. unfold suffix_match. rewrite search_spec. by setoid_rewrite full_match_spec. Qed.

Lemma part_match_spec r s : part_match r s = true ↔ ∃ p q t, s = p ++ q ∧ matches_to r q t.
Proof.
  unfold part_match. rewrite search_spec. setoid_rewrite prefix_match_spec. split.
  - intros (p & q & E & t & Ht). by exists p, q, t.
  - intros (p & q & t & E & Ht). exists p, q. eauto.
Qed.
