(* ===== verification/KoParse.v ===== *)
(** * knockout: reading the text of bindings

    Models parseObjectLiteral of knockout-3.4.2.debug.js: an attribute data-bind is split
    into tokens by one regular expression, and again from the slash on when what looked
    like a regular expression turns out to be a division. *)
From stdpp Require Import base strings list.
From Stdlib Require Import Ascii ZArith Lia.
From S2P Require Import Prelude JsString JsRegex.

Local Open Scope nat_scope.

(** ** The first match of an expression *)

(** The rests a matcher tries, in its order: repetition takes as much as it can. *)
Fixpoint greedy (f : chars → list chars) (n : nat) (s : chars) : list chars :=
  match n with
  | 0 => [s]
  | S n' => mjoin (greedy f n' <$> proper_ends f s) ++ [s]
  end.
Fixpoint tries (r : regex) (s : chars) : list chars :=
  match r with
  | REmpty => [s]
  | RChar p => match s with c :: s' => if p c then [s'] else [] | [] => [] end
  | RSeq r1 r2 => mjoin (tries r2 <$> tries r1 s)
  | RAlt r1 r2 => tries r1 s ++ tries r2 s
  | RStar r => greedy (tries r) (length s) s
  | RUpTo n r => greedy (tries r) n s
  | RNotAhead r => match tries r s with [] => [s] | _ => [] end
  end.
(** The rest behind a match at the start of the string. *)
Definition exec (r : regex) (s : chars) : option chars := head (tries r s).
Definition consumed (s t : chars) : chars := take (length s - length t) s.

(** [s.match(r)] with the flag g; no match, which is null, is the empty list. *)
Fixpoint match_all (fuel : nat) (r : regex) (s : chars) : list chars :=
  match fuel with
  | 0 => []
  | S fuel' =>
      match exec r s, s with
      | Some t, c :: s' => consumed s t :: match_all fuel' r (if length t <? length s then t else s')
      | Some t, [] => [[]]
      | None, c :: s' => match_all fuel' r s'
      | None, [] => []
      end
  end.
Definition match_global (r : regex) (s : chars) : list chars := match_all (S (length s)) r s.

(** ** Tokens *)

Definition double_quote : ascii := ascii_of_nat 34.
Definition single_quote : ascii := ascii_of_nat 39.
Definition backslash : ascii := ascii_of_nat 92.
Definition slash : ascii := "/".

Definition RNot (p : ascii → bool) : regex := RChar (λ c, negb (p c)).
(** [.] *)
Definition RDot : regex := RNot (λ c, (code c =? 10) || (code c =? 13)).
(** [(?:[^q\\]|\\.)*] between two [q] *)
Definition quoted (q : ascii) : regex :=
  RAll [RLit q; RStar (RAlt (RNot (λ c, bool_decide (c = q ∨ c = backslash))) (RSeq (RLit backslash) RDot)); RLit q].
Definition stringDouble : regex := quoted double_quote.
Definition stringSingle : regex := quoted single_quote.
(** The text of the source is a string, where [\w] is the letter. *)
Definition stringRegexp : regex := RSeq (quoted slash) (RStar (RLit "w")).
Definition specials (c : ascii) : bool :=
  bool_decide (c ∈ [","; double_quote; single_quote; "{"; "}"; "("; ")"; "/"; ":"; "["; "]"]%char).
Definition everyThingElse : regex :=
  RAll [RNot (λ c, is_space c || bool_decide (c ∈ [":"; ","; "/"]%char)); RStar (RNot specials);
        RNot (λ c, is_space c || specials c)].
Definition oneNotSpace : regex := RNonSpace.
Definition bindingToken : regex := RAny [stringDouble; stringSingle; stringRegexp; everyThingElse; oneNotSpace].

(** [match(divisionLookBehind)] and the test of the keywords; the lookup in an object
    also finds what every object inherits. *)
Definition inherited : list string :=
  ["constructor"; "toString"; "toLocaleString"; "valueOf"; "hasOwnProperty"; "isPrototypeOf"; "propertyIsEnumerable";
   "__proto__"; "__defineGetter__"; "__defineSetter__"; "__lookupGetter__"; "__lookupSetter__"].
Definition keywordRegexLookBehind (w : chars) : bool := bool_decide (string_of w ∈ ["in"; "return"; "typeof"] ++ inherited).
Definition before_division (c : ascii) : bool :=
  is_alpha c || is_digit c || bool_decide (c ∈ ["]"; ")"; double_quote; single_quote; "_"; "$"]%char).
Definition divisionLookBehind (tok : chars) : option chars :=
  match rev (take_while before_division (rev tok)) with [] => None | w => Some w end.
Definition is_division (previous : option chars) : bool :=
  match previous with
  | Some tok => match divisionLookBehind tok with Some w => negb (keywordRegexLookBehind w) | None => false end
  | None => false
  end.

(** [str.indexOf(tok)], None for -1 *)
Fixpoint indexOf (tok str : chars) : option nat :=
  if bool_decide (tok = take (length tok) str) then Some 0
  else match str with [] => None | _ :: str' => S <$> indexOf tok str' end.

(** ** The parser *)

Inductive entry := KeyValue (key value : chars) | Unknown (unknown : chars).
(** [key] is None while it is undefined or 0; an empty key is as good as none. *)
Record parser := Parser { result : list entry; key : option chars; values : list chars; depth : Z }.

Definition truthy (k : option chars) : bool := match k with Some (_ :: _) => true | _ => false end.
Definition end_entry (st : parser) : parser :=
  let value := mjoin (values st) in
  let e :=
    match key st with
    | Some (c :: k) => match values st with [] => Unknown (c :: k) | _ => KeyValue (c :: k) value end
    | _ => Unknown value
    end in
  Parser (result st ++ [e]) None [] 0.
Definition push_value (tok : chars) (st : parser) : parser := Parser (result st) (key st) (values st ++ [tok]) (depth st).
Definition change_depth (d : Z) (st : parser) : parser := Parser (result st) (key st) (values st) (depth st + d).
(** [tok.slice(1, -1)] *)
Definition unquoted (tok : chars) : chars := removelast (tail tok).

(** A round of the loop, when a slash is no division. *)
Definition on_token (st : parser) (tok : chars) : parser :=
  match tok with
  | [] => st
  | c :: _ =>
      if bool_decide (c = ","%char) then if (depth st <=? 0)%Z then end_entry st else push_value tok st
      else if bool_decide (c = ":"%char) then
        match values st with
        | [k] => if (depth st =? 0)%Z && negb (truthy (key st)) then Parser (result st) (Some k) [] (depth st) else push_value tok st
        | _ => push_value tok st
        end
      else if bool_decide (c ∈ ["("; "{"; "["]%char) then push_value tok (change_depth 1 st)
      else if bool_decide (c ∈ [")"; "}"; "]"]%char) then push_value tok (change_depth (-1) st)
      else if negb (truthy (key st)) && bool_decide (values st = []) && bool_decide (c = double_quote ∨ c = single_quote)
      then push_value (unquoted tok) st
      else push_value tok st
  end.

Definition comma : chars := [","%char].
Definition is_slashes (tok : chars) : bool := bool_decide (head tok = Some slash) && (1 <? length tok).

(** None: out of fuel, or a call of [push] on null. *)
Section loop.
Context (reparse : chars → parser → option (list entry)).

(** The rest of the tokens of [str], behind the token [previous]. *)
Fixpoint parse_tokens (str : chars) (previous : option chars) (toks : list chars) (st : parser) : option (list entry) :=
  match toks with
  | [] => Some (result st)
  | tok :: toks' =>
      if is_slashes tok && is_division previous then
        reparse (match indexOf tok str with Some i => drop (S i) str | None => str end) (push_value [slash] st)
      else parse_tokens str (Some tok) toks' (on_token st tok)
  end.
End loop.

Fixpoint parse (fuel : nat) (str : chars) (st : parser) : option (list entry) :=
  match fuel with
  | 0 => None
  | S fuel' =>
      match match_global bindingToken str with
      | [] => None
      | toks => parse_tokens (parse fuel') str None (toks ++ [comma]) st
      end
  end.

(** The text without spaces around it and without the braces of a whole literal. *)
Definition body (objectLiteralString : chars) : chars :=
  let str := trim objectLiteralString in
  if bool_decide (head str = Some "{"%char) then unquoted str else str.

Definition start : parser := Parser [] None [] 0.
Definition parseObjectLiteral (objectLiteralString : chars) : option (list entry) :=
  let str := body objectLiteralString in
  match match_global bindingToken str with
  | [] => Some []
  | _ => parse (S (length str)) str start
  end.
