(* ===== verification/KoParseFacts.v ===== *)
(** * knockout: reading the text of bindings, the theorems

    The loop that splits its text again behind each division is one pass of a lexer that
    knows divisions; from tokens that are bindings, the bindings are read. *)
From stdpp Require Import base strings list sets.
From Stdlib Require Import Ascii ZArith Lia.
From S2P Require Import Prelude JsString JsRegex KoParse.

Local Open Scope nat_scope.

(** ** The first match is a match *)

Lemma elem_of_greedy r n s t :
  (∀ s t, t ∈ tries r s ↔ matches_to r s t) →
  t ∈ greedy (tries r) n s ↔ ∃ k, k ≤ n ∧ rounds (shrinking (matches_to r)) k s t.
Proof.
  intros Hr. revert s. induction n as [|n IH]; intros s; cbn [greedy].
  - rewrite list_elem_of_singleton. split; [intros ->; by exists 0|]. by intros ([|k] & Hk & H); [|lia].
  - rewrite elem_of_app, list_elem_of_singleton, list_elem_of_join. split.
    + intros [(x & Ht & (u & -> & Hu)%list_elem_of_fmap)| ->]; [|exists 0; split; [lia|done]].
      apply IH in Ht as (k & Hk & Ht). apply list_elem_of_filter in Hu as [Hl Hu%Hr].
      exists (S k). split; [lia|]. by exists u.
    + intros ([|k] & Hk & H); simpl in H; [by right|]. destruct H as (u & [Hu Hl] & H). left.
      exists (greedy (tries r) n u). split; [apply IH; exists k; split; [lia|done]|].
      apply list_elem_of_fmap. exists u. split; [done|]. apply list_elem_of_filter. by split; [|apply Hr].
Qed.

Lemma tries_spec r s t : t ∈ tries r s ↔ matches_to r s t.
Proof.
  revert s t. induction r as [|p|r1 IH1 r2 IH2|r1 IH1 r2 IH2|r IH|n r IH|r IH]; intros s t; cbn [tries matches_to].
  - rewrite list_elem_of_singleton. split; congruence.
  - change (t ∈ ends (RChar p) s ↔ matches_to (RChar p) s t). apply ends_spec.
  - rewrite list_elem_of_join. split.
    + intros (x & Ht & (u & -> & Hu)%list_elem_of_fmap). exists u. by rewrite <- IH1, <- IH2.
    + intros (u & Hu%IH1 & Ht%IH2). exists (tries r2 u). split; [done|]. apply list_elem_of_fmap. by exists u.
  - by rewrite elem_of_app, IH1, IH2.
  - rewrite (elem_of_greedy r _ s t IH). split.
    + intros (k & _ & H). exists k. by eapply rounds_unshrink.
    + intros (k & (k' & _ & Hr)%(rounds_shrink _ (matches_to_suffix r))). exists k'.
      split; [by eapply rounds_shrinking_bound | done].
  - rewrite (elem_of_greedy r _ s t IH). split.
    + intros (k & Hk & H). exists k. split; [done|]. by eapply rounds_unshrink.
    + intros (k & Hk & (k' & Hk' & Hr)%(rounds_shrink _ (matches_to_suffix r))). exists k'. split; [lia|done].
  - destruct (tries r s) as [|u l] eqn:E.
    + rewrite list_elem_of_singleton. split; [|by intros [-> _]]. intros ->. split; [done|].
      intros (u & Hu%IH). rewrite E in Hu. by apply elem_of_nil in Hu.
    + rewrite elem_of_nil. split; [done|]. intros [_ []]. exists u. apply IH. rewrite E. by left.
Qed.

Lemma exec_some r s t : exec r s = Some t → matches_to r s t.
Proof. unfold exec. intros H. apply tries_spec. destruct (tries r s) as [|u l]; [done|]. injection H as ->. by left. Qed.
Lemma exec_none r s : exec r s = None ↔ ¬ ∃ t, matches_to r s t.
Proof.
  unfold exec. destruct (tries r s) as [|u l] eqn:E; cbn.
  - split; [|done]. intros _ [t Ht%tries_spec]. rewrite E in Ht. by apply elem_of_nil in Ht.
  - split; [done|]. intros []. exists u. apply tries_spec. rewrite E. by left.
Qed.

(** ** Tokens *)

Lemma quoted_to q s t :
  matches_to (quoted q) s t → ∃ u, s = q :: u ++ q :: t.
Proof.
  unfold quoted. cbn [RAll foldl]. rewrite !seq_to. intros (v & (u & Hu & Hv) & Ht).
  apply lit_to in Hu as ->. apply lit_to in Ht as ->. destruct (matches_to_suffix _ _ _ Hv) as [k ->]. by exists k.
Qed.

(** A token begins with no space, and a slash is followed by another if by anything. *)
Lemma token_to s t :
  matches_to bindingToken s t → ∃ c k, s = c :: k ++ t ∧ is_space c = false ∧ (c = slash → k ≠ [] → slash ∈ k).
Proof.
  unfold bindingToken. cbn [RAny foldl]. rewrite !alt_to.
  intros [[[[H|H]|H]|H]|H].
  - apply quoted_to in H as (u & ->). exists double_quote, (u ++ [double_quote]). by rewrite <- app_assoc.
  - apply quoted_to in H as (u & ->). exists single_quote, (u ++ [single_quote]). by rewrite <- app_assoc.
  - apply seq_to in H as (v & (u & ->)%quoted_to & Hv). destruct (matches_to_suffix _ _ _ Hv) as [k ->].
    exists slash, (u ++ slash :: k). split; [by rewrite <- app_assoc|]. split; [done|]. intros _ _. apply elem_of_app. right. by left.
  - unfold everyThingElse in H. cbn [RAll foldl] in H. rewrite !seq_to in H. destruct H as (v & (u & (c & -> & Hc) & Hv) & Ht).
    destruct (matches_to_suffix _ _ _ Hv) as [k ->], (matches_to_suffix _ _ _ Ht) as [k' ->].
    apply negb_true_iff, orb_false_iff in Hc as [Hs Hc]. exists c, (k ++ k'). rewrite <- app_assoc. split; [done|]. split; [done|].
    intros ->. done.
  - destruct H as (c & -> & Hc). exists c, []. split; [done|]. split; [by apply negb_true_iff | done].
Qed.

Lemma exec_space c s : is_space c = true → exec bindingToken (c :: s) = None.
Proof. intros Hc. apply exec_none. intros (t & (c' & k & [= <- _] & Hs & _)%token_to). by rewrite Hc in Hs. Qed.
Lemma exec_token c s :
  is_space c = false → ∃ k t, exec bindingToken (c :: s) = Some t ∧ s = k ++ t ∧ (c = slash → k ≠ [] → slash ∈ k).
Proof.
  intros Hc. destruct (exec bindingToken (c :: s)) as [t|] eqn:E.
  - apply exec_some, token_to in E as (c' & k & [= <- ->] & _ & Ht). by exists k, t.
  - apply exec_none in E as []. exists s. unfold bindingToken. cbn [RAny foldl]. rewrite !alt_to. right.
    exists c. by rewrite Hc.
Qed.

(** The tokens of a text. *)
Abbreviation tokens := (match_global bindingToken).

Lemma match_all_fuel n s : length s < n → match_all n bindingToken s = tokens s.
Proof.
  unfold match_global. remember (S (length s)) as m eqn:Em. assert (Hm : length s < m) by lia. clear Em. intros Hn.
  revert m s Hm Hn. induction n as [|n IH]; intros m s Hm Hn; [lia|]. destruct m as [|m]; [lia|]. cbn [match_all].
  destruct s as [|c s]; [done|]. simpl in Hm, Hn. destruct (is_space c) eqn:Hc.
  { rewrite exec_space by done. apply IH; lia. }
  destruct (exec_token c s Hc) as (k & t & -> & -> & _). rewrite length_app in *. f_equal. simpl length.
  rewrite length_app. destruct (Nat.ltb_spec (length t) (S (length k + length t))); apply IH; rewrite ?length_app; lia.
Qed.

Lemma tokens_space c s : is_space c = true → tokens (c :: s) = tokens s.
Proof. intros Hc. unfold match_global at 1. cbn [match_all]. rewrite exec_space by done. apply match_all_fuel. simpl. lia. Qed.
Lemma tokens_cons c k t : exec bindingToken (c :: k ++ t) = Some t → tokens (c :: k ++ t) = (c :: k) :: tokens t.
Proof.
  intros E. unfold match_global at 1. cbn [match_all]. rewrite E. f_equal.
  - unfold consumed. simpl length. rewrite length_app. replace (S (length k + length t) - length t) with (S (length k)) by lia.
    simpl. f_equal. apply take_app_length.
  - simpl length. rewrite length_app. destruct (Nat.ltb_spec (length t) (S (length k + length t))); [|lia].
    apply match_all_fuel. lia.
Qed.

Lemma tokens_some s c : c ∈ s → is_space c = false → tokens s ≠ [].
Proof.
  intros Hin Hc. induction s as [|d s IH]; [by apply elem_of_nil in Hin|]. destruct (is_space d) eqn:Hd.
  - rewrite tokens_space by done. apply IH. apply elem_of_cons in Hin as [<-|?]; [congruence | done].
  - destruct (exec_token d s Hd) as (k & t & E & -> & _). by rewrite (tokens_cons _ _ _ E).
Qed.

(** A text is a token and what follows, or begins with a space, or is empty. *)
Lemma token_ind (P : chars → Prop) :
  P [] → (∀ c s, is_space c = true → P s → P (c :: s)) →
  (∀ c k t, is_space c = false → exec bindingToken (c :: k ++ t) = Some t → (c = slash → k ≠ [] → slash ∈ k) →
    (∀ s, length s ≤ length (k ++ t) → P s) → P (c :: k ++ t)) →
  ∀ s, P s.
Proof.
  intros H0 Hs Ht s. induction s as [s IH] using (induction_ltof1 _ length). unfold ltof in IH.
  destruct s as [|c s]; [done|]. destruct (is_space c) eqn:Hc; [apply Hs; [done|]; apply IH; simpl; lia|].
  destruct (exec_token c s Hc) as (k & t & E & -> & Hsl). apply Ht; [done..|]. intros s Hl. apply IH. simpl. lia.
Qed.

Lemma indexOf_some tok p s : ∃ i, indexOf tok (p ++ tok ++ s) = Some i ∧ ∃ s', drop i (p ++ tok ++ s) = tok ++ s'.
Proof.
  induction p as [|c p IH]; cbn [app].
  - exists 0. split; [|by exists s]. destruct (tok ++ s) eqn:E; cbn [indexOf]; rewrite <- ?E, take_app_length; by rewrite bool_decide_eq_true_2.
  - cbn [indexOf]. case_bool_decide as H.
    + exists 0. split; [done|]. exists (drop (length tok) (c :: p ++ tok ++ s)). rewrite H at 2. symmetry. apply take_drop.
    + destruct IH as (i & -> & s' & E). exists (S i). split; [done|]. by exists s'.
Qed.

Lemma parse_unfold fuel str st :
  tokens str ≠ [] → parse (S fuel) str st = parse_tokens (parse fuel) str None (tokens str ++ [comma]) st.
Proof. intros H. cbn [parse]. by destruct (tokens str). Qed.

(** ** The parser returns *)

Lemma parse_ends fuel : ∀ str st, length str < fuel → tokens str ≠ [] → parse fuel str st ≠ None.
Proof.
  induction fuel as [|fuel IH]; intros str st Hf Hne; [lia|]. rewrite parse_unfold by done. clear Hne.
  assert (H : ∀ s previous st', s `suffix_of` str → parse_tokens (parse fuel) str previous (tokens s ++ [comma]) st' ≠ None).
  { intros s. induction s as [|c s Hc IHs|c k t Hc E Hsl IHs] using token_ind; intros previous st' Hs.
    - done.
    - rewrite tokens_space by done. apply IHs. trans (c :: s); [by exists [c]|done].
    - rewrite (tokens_cons _ _ _ E). cbn [app parse_tokens]. destruct (is_slashes _ && _) eqn:Hdiv.
      + apply andb_true_iff in Hdiv as [[Ec Hk]%andb_true_iff _]. apply bool_decide_eq_true in Ec. injection Ec as ->.
        destruct Hs as [p ->]. destruct (indexOf_some (slash :: k) p t) as (i & Ei & s' & Ed).
        change (slash :: k ++ t) with ((slash :: k) ++ t) in *. rewrite Ei.
        assert (Ed' : drop (S i) (p ++ (slash :: k) ++ t) = k ++ s').
        { rewrite <- Nat.add_1_r, <- drop_drop, Ed. done. }
        pose proof (length_drop (p ++ (slash :: k) ++ t) (S i)) as Hl. rewrite Ed' in *. apply IH.
        * rewrite Hl. rewrite length_app in *. simpl in *. lia.
        * apply (tokens_some _ slash); [|done]. apply elem_of_app. left. apply Hsl; [done|]. by intros ->.
      + apply IHs; [rewrite length_app; lia|]. trans (c :: k ++ t); [by exists (c :: k)|done]. }
  by apply H.
Qed.

(** ** The lexer *)

(** One pass over the text: a slash behind an operand is a division and a token of its
    own, another one begins a regular expression. *)
Fixpoint lex_from (fuel : nat) (previous : option chars) (s : chars) : list chars :=
  match fuel, s with
  | S fuel', c :: s' =>
      match exec bindingToken s with
      | None => lex_from fuel' previous s'
      | Some t =>
          let tok := consumed s t in
          if is_slashes tok && is_division previous then [slash] :: lex_from fuel' None s'
          else tok :: lex_from fuel' (Some tok) t
      end
  | _, _ => []
  end.
Definition lex (previous : option chars) (s : chars) : list chars := lex_from (length s) previous s.

(** Where a division is found, the text from there to the next slash does not occur
    earlier in [str], the text behind the division before. *)
Fixpoint in_place_from (fuel : nat) (str : chars) (previous : option chars) (s : chars) : bool :=
  match fuel, s with
  | S fuel', c :: s' =>
      match exec bindingToken s with
      | None => in_place_from fuel' str previous s'
      | Some t =>
          let tok := consumed s t in
          if is_slashes tok && is_division previous then
            bool_decide (indexOf tok str = Some (length str - length s)) && in_place_from fuel' s' None s'
          else in_place_from fuel' str (Some tok) t
      end
  | _, _ => true
  end.
Definition in_place (str : chars) (previous : option chars) (s : chars) : bool := in_place_from (length s) str previous s.

Lemma consumed_cons c k t : consumed (c :: k ++ t) t = c :: k.
Proof.
  unfold consumed. simpl length. rewrite length_app. replace (S (length k + length t) - length t) with (S (length k)) by lia.
  simpl. f_equal. apply take_app_length.
Qed.

Lemma lex_fuel n previous s : length s ≤ n → lex_from n previous s = lex previous s.
Proof.
  unfold lex. remember (length s) as m eqn:Em. assert (Hm : length s ≤ m) by lia. clear Em. revert m previous s Hm.
  induction n as [|n IH]; intros m previous [|c s] Hm Hn; simpl in Hm; [by destruct m|lia|by destruct m|]. destruct m as [|m]; [lia|].
  cbn [lex_from]. destruct (is_space c) eqn:Hc; [rewrite exec_space by done; apply IH; lia|].
  destruct (exec_token c s Hc) as (k & t & -> & -> & _). rewrite length_app in Hm. rewrite consumed_cons.
  destruct (_ && _); f_equal; apply IH; rewrite ?length_app; lia.
Qed.
Lemma in_place_fuel n str previous s : length s ≤ n → in_place_from n str previous s = in_place str previous s.
Proof.
  unfold in_place. remember (length s) as m eqn:Em. assert (Hm : length s ≤ m) by lia. clear Em. revert m str previous s Hm.
  induction n as [|n IH]; intros m str previous [|c s] Hm Hn; simpl in Hm; [by destruct m|lia|by destruct m|]. destruct m as [|m]; [lia|].
  cbn [in_place_from]. destruct (is_space c) eqn:Hc; [rewrite exec_space by done; apply IH; lia|].
  destruct (exec_token c s Hc) as (k & t & -> & -> & _). rewrite length_app in Hm. rewrite consumed_cons.
  destruct (_ && _); [f_equal|]; apply IH; rewrite ?length_app; lia.
Qed.

Lemma lex_space previous c s : is_space c = true → lex previous (c :: s) = lex previous s.
Proof. intros Hc. unfold lex at 1. simpl length. cbn [lex_from]. by rewrite exec_space. Qed.
Lemma in_place_space str previous c s : is_space c = true → in_place str previous (c :: s) = in_place str previous s.
Proof. intros Hc. unfold in_place at 1. simpl length. cbn [in_place_from]. by rewrite exec_space. Qed.
Lemma lex_token previous c k t :
  exec bindingToken (c :: k ++ t) = Some t →
  lex previous (c :: k ++ t) =
    if is_slashes (c :: k) && is_division previous then [slash] :: lex None (k ++ t) else (c :: k) :: lex (Some (c :: k)) t.
Proof.
  intros E. unfold lex at 1. simpl length. cbn [lex_from]. rewrite E, consumed_cons.
  destruct (_ && _); f_equal; apply lex_fuel; rewrite ?length_app; lia.
Qed.
Lemma in_place_token str previous c k t :
  exec bindingToken (c :: k ++ t) = Some t →
  in_place str previous (c :: k ++ t) =
    if is_slashes (c :: k) && is_division previous
    then bool_decide (indexOf (c :: k) str = Some (length str - length (c :: k ++ t))) && in_place (k ++ t) None (k ++ t)
    else in_place str (Some (c :: k)) t.
Proof.
  intros E. unfold in_place at 1. simpl length. cbn [in_place_from]. rewrite E, consumed_cons.
  destruct (_ && _); [f_equal|]; apply in_place_fuel; rewrite ?length_app; lia.
Qed.

Lemma on_slash st : on_token st [slash] = push_value [slash] st.
Proof. cbn [on_token]. eval_tests. by rewrite andb_false_r. Qed.

(** The loop and its restarts are the lexer. *)
Lemma parse_lexes fuel : ∀ str s previous st,
  s `suffix_of` str → length s ≤ fuel → in_place str previous s = true →
  parse_tokens (parse fuel) str previous (tokens s ++ [comma]) st = Some (result (fold_left on_token (lex previous s ++ [comma]) st)).
Proof.
  induction fuel as [|fuel IHf]; intros str s; induction s as [|c s Hc IHs|c k t Hc E Hsl IHs] using token_ind;
    intros previous st Hs Hf Hp; try done; try (simpl in Hf; lia).
  - rewrite lex_space, tokens_space by done. rewrite in_place_space in Hp by done. apply IHs; [|simpl in Hf; lia|done].
    trans (c :: s); [by exists [c]|done].
  - rewrite (tokens_cons _ _ _ E). rewrite (lex_token _ _ _ _ E). rewrite (in_place_token _ _ _ _ _ E) in Hp.
    cbn [app parse_tokens]. simpl in Hf. destruct (is_slashes _ && _) eqn:Hdiv.
    + apply andb_true_iff in Hp as [Hi%bool_decide_eq_true Hp]. rewrite Hi. destruct Hs as [p ->].
      assert (Ed : drop (S (length (p ++ c :: k ++ t) - length (c :: k ++ t))) (p ++ c :: k ++ t) = k ++ t).
      { rewrite length_app. replace (length p + length (c :: k ++ t) - length (c :: k ++ t)) with (length p) by lia.
        rewrite <- Nat.add_1_r, <- drop_drop, drop_app_length. done. }
      rewrite Ed. apply andb_true_iff in Hdiv as [[Ec Hk]%andb_true_iff _]. apply bool_decide_eq_true in Ec. injection Ec as ->.
      rewrite parse_unfold.
      2: { apply (tokens_some _ slash); [|done]. apply elem_of_app. left. apply Hsl; [done|]. by intros ->. }
      rewrite IHf; [|done|lia|done]. cbn [app fold_left]. by rewrite on_slash.
    + rewrite IHs; [done|rewrite length_app; lia| |rewrite length_app in Hf; lia|done].
      trans (c :: k ++ t); [by exists (c :: k)|done].
Qed.

(** The tokens keep every character but spaces. *)
Definition ink (s : chars) : chars := List.filter (λ c, negb (is_space c)) s.
Lemma ink_app s t : ink (s ++ t) = ink s ++ ink t.
Proof. apply List.filter_app. Qed.
Lemma lex_ink previous s : ink (mjoin (lex previous s)) = ink s.
Proof.
  remember (length s) as n eqn:En. assert (Hn : length s ≤ n) by lia. clear En. revert previous s Hn.
  induction n as [|n IH]; intros previous [|c s] Hn; simpl in Hn; try lia; try done.
  destruct (is_space c) eqn:Hc; [rewrite lex_space by done; rewrite IH by lia; unfold ink; cbn; by rewrite Hc|].
  destruct (exec_token c s Hc) as (k & t & E & -> & _). rewrite (lex_token _ _ _ _ E). rewrite length_app in Hn.
  destruct (is_slashes _ && _) eqn:Hdiv; cbn [mjoin list_join].
  - apply andb_true_iff in Hdiv as [[Ec _]%andb_true_iff _]. apply bool_decide_eq_true in Ec. injection Ec as ->.
    rewrite ink_app, IH by (rewrite length_app; lia). done.
  - rewrite ink_app, IH by lia. change (c :: k ++ t) with ((c :: k) ++ t). by rewrite ink_app.
Qed.

Lemma lex_nil previous s : lex previous s = [] ↔ tokens s = [].
Proof.
  induction s as [|c s Hc IHs|c k t Hc E _ _] using token_ind; [done|by rewrite lex_space, tokens_space|].
  rewrite (lex_token _ _ _ _ E), (tokens_cons _ _ _ E). by destruct (_ && _).
Qed.

(** What the parser makes of a list of tokens. *)
Definition assemble (toks : list chars) : list entry :=
  match toks with [] => [] | _ => result (fold_left on_token (toks ++ [comma]) start) end.

Lemma parse_is_lexer s :
  in_place (body s) None (body s) = true → parseObjectLiteral s = Some (assemble (lex None (body s))).
Proof.
  intros Hp. unfold parseObjectLiteral. pose proof (lex_nil None (body s)) as Hn.
  destruct (tokens (body s)) as [|tok toks] eqn:E; [by rewrite (proj2 Hn eq_refl)|].
  assert (Hl : lex None (body s) ≠ []) by (intros H%Hn; done). rewrite parse_unfold by (by rewrite E).
  rewrite parse_lexes by done. unfold assemble. by destruct (lex None (body s)).
Qed.

(** C13. Reading the text of an attribute always ends with a list of entries, also when what
    looked like a regular expression has to be read again as a division.  The entries are
    those a single pass of the lexer yields, which takes a slash behind an operand for a
    division, unless the text up to the next slash occurs already before a division; the
    tokens of that pass keep every character of the text but spaces. *)
Theorem parseObjectLiteral_lexes s :
  parseObjectLiteral s ≠ None ∧ ink (mjoin (lex None (body s))) = ink (body s) ∧
  (in_place (body s) None (body s) = true → parseObjectLiteral s = Some (assemble (lex None (body s)))).
Proof.
  split; [|split; [apply lex_ink | apply parse_is_lexer]]. unfold parseObjectLiteral.
  destruct (tokens (body s)) as [|tok toks] eqn:E; [done|]. apply parse_ends; [lia|]. by rewrite E.
Qed.

(** ** Bindings as tokens *)

Definition is_quote (c : ascii) : bool := bool_decide (c = double_quote ∨ c = single_quote).
Definition opens (c : ascii) : bool := bool_decide (c ∈ ["("; "{"; "["]%char).
Definition closes (c : ascii) : bool := bool_decide (c ∈ [")"; "}"; "]"]%char).

(** A key with its value, or a word alone. *)
Inductive binding := Pair (k : chars) (v : list chars) | Flag (w : chars).
Definition tokens_of (b : binding) : list chars :=
  match b with Pair k v => k :: [":"%char] :: v | Flag w => [w] end.
Fixpoint print (l : list binding) : list chars :=
  match l with
  | [] => []
  | [b] => tokens_of b
  | b :: l' => tokens_of b ++ comma :: print l'
  end.

(** A key may be quoted. *)
Definition name (tok : chars) : chars := match tok with c :: _ => if is_quote c then unquoted tok else tok | [] => [] end.
Definition read (b : binding) : entry := match b with Pair k v => KeyValue (name k) (mjoin v) | Flag w => Unknown (name w) end.

Definition is_word_token (tok : chars) : bool :=
  match tok with c :: _ => negb (bool_decide (c ∈ [","; ":"]%char) || opens c || closes c) | [] => false end.
(** As many brackets are closed as are opened, and commas are inside. *)
Fixpoint balanced (d : Z) (v : list chars) : bool :=
  match v with
  | [] => (d =? 0)%Z
  | [] :: _ => false
  | (c :: _) :: v' =>
      if bool_decide (c = ","%char) then (0 <? d)%Z && balanced d v'
      else balanced (if opens c then d + 1 else if closes c then d - 1 else d)%Z v'
  end.
Definition readable (b : binding) : Prop :=
  match b with
  | Pair k v => is_word_token k = true ∧ name k ≠ [] ∧ v ≠ [] ∧ balanced 0 v = true
  | Flag w => is_word_token w = true
  end.

Lemma on_word r tok :
  is_word_token tok = true → on_token (Parser r None [] 0) tok = Parser r None [name tok] 0.
Proof.
  destruct tok as [|c tok]; [done|]. unfold is_word_token, opens, closes, name, is_quote. intros H. cbn [on_token].
  apply negb_true_iff, orb_false_iff in H as [[H1 H2]%orb_false_iff H3]. rewrite H2, H3. apply bool_decide_eq_false in H1.
  rewrite (bool_decide_eq_false_2 (c = ","%char)), (bool_decide_eq_false_2 (c = ":"%char)) by (intros ->; set_solver).
  cbn [key values truthy negb andb]. rewrite (bool_decide_eq_true_2 (@nil chars = [])) by done.
  by destruct (bool_decide (c = double_quote ∨ _)).
Qed.

Lemma on_value r n vs d v :
  truthy (Some n) = true → balanced d v = true →
  fold_left on_token v (Parser r (Some n) vs d) = Parser r (Some n) (vs ++ v) 0.
Proof.
  intros Hn. revert vs d. induction v as [|[|c tok] v IH]; intros vs d Hb; cbn [balanced] in Hb; [|done|].
  - apply Z.eqb_eq in Hb as ->. by rewrite app_nil_r.
  - cbn [fold_left]. assert (H : ∃ d', balanced d' v = true ∧ on_token (Parser r (Some n) vs d) (c :: tok) = Parser r (Some n) (vs ++ [c :: tok]) d').
    { cbn [on_token depth key values result]. rewrite Hn. cbn [negb andb]. unfold opens, closes in Hb.
      destruct (bool_decide (c = ","%char)).
      - apply andb_true_iff in Hb as [Hd%Z.ltb_lt Hb]. rewrite (proj2 (Z.leb_gt d 0)) by done. by exists d.
      - destruct (bool_decide (c = ":"%char)) eqn:Ec; [|by destruct (bool_decide _); [|destruct (bool_decide _)]; eexists].
        apply bool_decide_eq_true in Ec as ->. exists d. split; [exact Hb|]. rewrite andb_false_r. by destruct vs as [|? []]. }
    destruct H as (d' & Hb' & ->). rewrite (IH _ _ Hb'), <- app_assoc. done.
Qed.

Lemma on_binding r b :
  readable b → fold_left on_token (tokens_of b ++ [comma]) (Parser r None [] 0) = Parser (r ++ [read b]) None [] 0.
Proof.
  destruct b as [k v|w]; cbn [readable tokens_of].
  - intros (Hk & Hn & Hv & Hb). cbn [app fold_left]. rewrite (on_word r k Hk).
    destruct (name k) as [|c n] eqn:En; [done|].
    change (on_token (Parser r None [c :: n] 0) [":"%char]) with (Parser r (Some (c :: n)) [] 0).
    rewrite fold_left_app, (on_value r (c :: n) [] 0 v) by done. cbn [fold_left app]. unfold read. rewrite En. by destruct v.
  - intros Hw. cbn [app fold_left]. rewrite (on_word r w Hw).
    change (on_token _ comma) with (Parser (r ++ [Unknown (name w ++ [])]) None [] 0). by rewrite app_nil_r.
Qed.

Lemma on_bindings r l :
  l ≠ [] → Forall readable l → fold_left on_token (print l ++ [comma]) (Parser r None [] 0) = Parser (r ++ (read <$> l)) None [] 0.
Proof.
  intros Hne Hl. revert r Hne. induction Hl as [|b l Hb Hl IH]; intros r Hne; [done|]. destruct l as [|b' l].
  - by apply on_binding.
  - change (print (b :: b' :: l)) with (tokens_of b ++ comma :: print (b' :: l)).
    replace ((tokens_of b ++ comma :: print (b' :: l)) ++ [comma]) with ((tokens_of b ++ [comma]) ++ print (b' :: l) ++ [comma])
      by (by rewrite <- !app_assoc).
    rewrite fold_left_app, on_binding, IH by done. cbn [fmap list_fmap]. by rewrite <- app_assoc.
Qed.

(** C14. What is written is read, provided that the text from a division to the next slash
    occurs nowhere earlier in what is left of the text (else see [division_in_string]):
    when the tokens of a text are bindings, keys with a colon and a value or words alone,
    with commas between them and none in a value outside brackets, then the parser returns
    these bindings in order, the quotes of a key removed and the tokens of each value
    joined. *)
Theorem bindings_read s l :
  in_place (body s) None (body s) = true → lex None (body s) = print l → Forall readable l →
  parseObjectLiteral s = Some (read <$> l).
Proof.
  intros Hp Hlex Hl. rewrite (parse_is_lexer s Hp), Hlex. f_equal. unfold assemble. destruct l as [|b l]; [done|].
  destruct (print (b :: l)) as [|tok toks] eqn:E; [by destruct b, l|]. rewrite <- E. unfold start. by rewrite on_bindings.
Qed.

(** A text with divisions, a regular expression with a comma and a quoted key. *)
Definition example_text : chars :=
  chars_of "{ text: name, visible: a / 2 > b / 3, 'attr': { title: t, size: /x,y/i.test(s) }, focus }".
Definition example_bindings : list binding :=
  [Pair (chars_of "text") [chars_of "name"];
   Pair (chars_of "visible") (chars_of <$> ["a"; "/"; "2 > b"; "/"; "3"]);
   Pair (chars_of "'attr'") (chars_of <$> ["{ title"; ":"; "t"; ","; "size"; ":"; "/x,y/"; "i.test"; "(s"; ")"; "}"]);
   Flag (chars_of "focus")].

Lemma bindings_read_witness :
  parseObjectLiteral example_text =
    Some [KeyValue (chars_of "text") (chars_of "name"); KeyValue (chars_of "visible") (chars_of "a/2 > b/3");
          KeyValue (chars_of "attr") (chars_of "{ title:t,size:/x,y/i.test(s)}"); Unknown (chars_of "focus")].
Proof.
  apply (bindings_read example_text example_bindings); [vm_compute; reflexivity..|].
  repeat constructor; vm_compute; congruence.
Defined.

(** ** Two texts that are misread *)

(** The text from a division to the next slash is in a string before it: part of the text
    is read twice. *)
Example division_in_string :
  parseObjectLiteral (chars_of "a: '/ 2/', b: x / 2/ 3") =
    Some [KeyValue (chars_of "a") (chars_of "'/ 2/'"); KeyValue (chars_of "b") (chars_of "x/2/'");
          KeyValue (chars_of "b") (chars_of "x/2/3")].
Proof. vm_compute. reflexivity. Qed.

(** A property that every object has is taken for a keyword before a regular expression:
    two bindings become one. *)
Example division_of_inherited_name :
  parseObjectLiteral (chars_of "a: b.constructor / c, d: e / 2") =
    Some [KeyValue (chars_of "a") (chars_of "b.constructor/ c, d: e /2")].
Proof. vm_compute. reflexivity. Qed.
