(* ===== verification/ValidatePage.v ===== *)
(** * jquery.validate: the form and the validation methods

    Models jquery.validate.js: the queries on the form ([elementValue],
    [findByName], [validationTargetFor], [checkable], [getLength], [depend],
    [optional]) and the methods of [$.validator.methods] that only read
    ([equalTo] and [remote] change the validator and are in [Validate]).

    A form is the list of its elements in document order; an element is named
    by its index.  What the page provides, its functions, its selectors and the
    browser's [Date], is an [environment]. *)
From stdpp Require Import base strings list.
From Stdlib Require Import Ascii ZArith QArith Lia.
From S2P Require Import Prelude JsString JsRegex.

Local Open Scope js_scope.
Local Open Scope nat_scope.

(** ** Data *)

(** A value a field has: [undefined], [null], a string or the array of a
    multiple select. *)
Inductive jval := VUndef | VNull | VStr (s : string) | VArr (l : list string).

(** The parameter of a rule: a boolean, a number ([None] is NaN), a string, an
    array, an object with [param] and [depends], the options of a remote
    request with the page function of its [data], a page function, or an element
    of the form. *)
#[warnings="-register-all"]
Inductive rvalue :=
  | RBool (b : bool) | RNum (q : option Q) | RStr (s : string) | RArr (l : list rvalue)
  | RObj (param depends : option rvalue)
  | ROptions (url : string) (data : option nat)
  | RFn (f : nat)
  | RElem (i : nat).

Inductive node_name := Input | Select | Textarea | OtherNode.

Record element := Element {
  ename : string;
  eid : string;
  etype : string;                      (* element.type *)
  enode : node_name;
  editable : bool;                     (* has the attribute contenteditable *)
  eignored : bool;                     (* matches settings.ignore *)
  eexcluded : bool;                    (* :submit, :reset, :image or :disabled *)
  evalue : string;                     (* its val(), or text() when editable *)
  eselected : list string;             (* the values of the selected options *)
  echecked : bool;
  badInput : option bool;              (* validity.badInput, if there is validity *)
  eclasses : list string;
  eattributes : list (string * string);
  edata : list (string * rvalue);      (* data attributes *)
  etitle : string;
  describedBy : list string;           (* aria-describedby *)
  ariaInvalid : option bool
}.

Abbreviation page := (list element).

(** The values a method can return. *)
Inductive mresult := MTrue | MFalse | MMismatch | MPending.

Definition of_bool (b : bool) : mresult := if b then MTrue else MFalse.

(** A method of the page for the value of element [i]: [None] if it throws,
    otherwise a boolean or "dependency-mismatch" (the inner [None]). *)
Abbreviation page_method := (page → jval → nat → element → rvalue → option (option bool)).

(** The page and the browser: selectors, functions used as parameters or
    normalizers, the strings a [Date] has, further methods. *)
Record environment := Environment {
  query : string → page → list nat;
  call_fn : nat → page → nat → rvalue;
  call_normalizer : nat → page → nat → jval → jval;
  remote_data : nat → page → list (string * string);
  date_string : string → string;                   (* new Date(value).toString() *)
  element_string : nat → string;                   (* String(element) *)
  custom_methods : list (string * page_method)     (* by addMethod *)
}.

Definition truthy (v : rvalue) : bool :=
  match v with
  | RBool b => b
  | RNum (Some q) => negb (Qeq_bool q 0)
  | RNum None => false
  | RStr s => negb (bool_decide (s = ""))
  | _ => true
  end.

(** ** Objects as maps: the properties in the order of their creation *)

Section objects.
Context {A : Type}.

Fixpoint obj_get (k : string) (o : list (string * A)) : option A :=
  match o with
  | [] => None
  | (k', v) :: o' => if bool_decide (k' = k) then Some v else obj_get k o'
  end.

Fixpoint obj_put (k : string) (v : A) (o : list (string * A)) : list (string * A) :=
  match o with
  | [] => [(k, v)]
  | (k', v') :: o' => if bool_decide (k' = k) then (k, v) :: o' else (k', v') :: obj_put k v o'
  end.

Definition obj_delete (k : string) (o : list (string * A)) : list (string * A) :=
  List.filter (λ kv, negb (bool_decide (fst kv = k))) o.

(** [$.extend(o, o2)] *)
Definition extend (o o2 : list (string * A)) : list (string * A) :=
  fold_left (λ o kv, obj_put (fst kv) (snd kv) o) o2 o.
End objects.

(** ** Queries on the form *)

Definition tests (pattern : string) (s : string) : bool := contains (chars_of pattern) (chars_of s).
Definition lower (s : string) : string := string_of (to_lower <$> chars_of s).

Definition checkable (e : element) : bool :=
  tests "radio" (lower (etype e)) || tests "checkbox" (lower (etype e)).

(** The positions of the elements that satisfy [P], in document order. *)
Fixpoint positions_from (P : element → bool) (i : nat) (p : page) : list nat :=
  match p with
  | [] => []
  | e :: p' => if P e then i :: positions_from P (S i) p' else positions_from P (S i) p'
  end.
Definition positions (P : element → bool) (p : page) : list nat := positions_from P 0 p.

Definition findByName (name : string) (p : page) : list nat :=
  positions (λ e, bool_decide (ename e = name)) p.

Definition ignored (p : page) (i : nat) : bool :=
  match p !! i with Some e => eignored e | None => true end.

Definition validationTargetFor (p : page) (i : nat) : option nat :=
  e ← p !! i;
  head (List.filter (λ j, negb (ignored p j)) (if checkable e then findByName (ename e) p else [i])).

(** [findByName(name).filter(":checked")] *)
Definition checked_of (name : string) (p : page) : list nat :=
  List.filter (λ j, match p !! j with Some e => echecked e | None => false end) (findByName name p).

(** [$(element).val()] *)
Definition jq_val (e : element) : jval :=
  match enode e with
  | Select =>
      if bool_decide (etype e = "select-multiple") then VArr (eselected e)
      else match eselected e with [] => VNull | s :: _ => VStr s end
  | _ => VStr (evalue e)
  end.

Definition fakepath : chars := chars_of "C:\fakepath\".

(** The file name in the value of a file field. *)
Definition file_name (val : chars) : chars :=
  if is_prefix fakepath val then drop 12 val
  else match last_index_of "/"%char val with
       | Some idx => drop (S idx) val
       | None =>
           match last_index_of "\"%char val with
           | Some idx => drop (S idx) val
           | None => val
           end
       end.

(** The value of a field that is neither checkable nor a number field. *)
Definition text_value (e : element) : jval :=
  match (if editable e then VStr (evalue e) else jq_val e) with
  | VStr s =>
      if bool_decide (etype e = "file") then VStr (string_of (file_name (chars_of s)))
      else VStr (string_of (List.filter (λ c, negb (code c =? 13)) (chars_of s)))
  | val => val
  end.

Definition elementValue (p : page) (e : element) : jval :=
  if bool_decide (etype e = "radio") || bool_decide (etype e = "checkbox") then
    match checked_of (ename e) p with
    | [] => VUndef
    | j :: _ => match p !! j with Some e' => VStr (evalue e') | None => VUndef end
    end
  else if bool_decide (etype e = "number") then
    match badInput e with
    | Some bad => if bad then VStr "NaN" else jq_val e
    | None => text_value e
    end
  else text_value e.

(** [value.length] *)
Definition val_length (v : jval) : nat :=
  match v with
  | VStr s => length (chars_of s)
  | VArr l => length l
  | _ => 0
  end.

Definition getLength (p : page) (v : jval) (e : element) : nat :=
  match enode e with
  | Select => length (eselected e)
  | Input => if checkable e then length (checked_of (ename e) p) else val_length v
  | _ => val_length v
  end.

Section methods.
Context (E : environment).

(** [depend(param, element)]; no parameter is [undefined]. *)
Definition depend (p : page) (param : option rvalue) (i : nat) : bool :=
  match param with
  | Some (RBool b) => b
  | Some (RStr s) => negb (bool_decide (query E s p = []))
  | Some (RFn f) => truthy (call_fn E f p i)
  | _ => true
  end.

Definition required (p : page) (v : jval) (i : nat) (e : element) (param : option rvalue) : mresult :=
  if depend p param i then
    match enode e with
    | Select => of_bool (0 <? val_length (jq_val e))
    | _ => if checkable e then of_bool (0 <? getLength p v e) else of_bool (0 <? val_length v)
    end
  else MMismatch.

(** [optional(element)] as a boolean: it is the string "dependency-mismatch"
    or [false]. *)
Definition optional (p : page) (i : nat) (e : element) : bool :=
  match required p (elementValue p e) i e None with MFalse => true | _ => false end.

(** [this.optional(element) || test] *)
Definition unless_optional (p : page) (i : nat) (e : element) (test : bool) : mresult :=
  if optional p i e then MMismatch else of_bool test.

(** ** Comparisons of a field's value with a parameter *)

(** A value as a string where JavaScript makes it one. *)
Definition val_string (v : jval) : string :=
  match v with
  | VStr s => s
  | VArr l => string_of (join [","%char] (chars_of <$> l))
  | VUndef => "undefined"
  | VNull => "null"
  end.

Definition val_number (v : jval) : option Q :=
  match v with
  | VUndef => None
  | VNull => Some 0%Q
  | _ => Number (chars_of (val_string v))
  end.

Definition param_number (r : rvalue) : option Q :=
  match r with
  | RNum q => q
  | RBool b => Some (if b then 1 else 0)%Q
  | RStr s => Number (chars_of s)
  | _ => None
  end.

Definition compare_with (num : Q → Q → bool) (str : chars → chars → bool) (v : jval) (r : rvalue) : bool :=
  match v, r with
  | (VStr _ | VArr _), RStr s => str (chars_of (val_string v)) (chars_of s)
  | _, _ =>
      match val_number v, param_number r with
      | Some x, Some y => num x y
      | _, _ => false                                (* a comparison with NaN *)
      end
  end.

(** [value >= param] and [value <= param]; a parameter that is an array or an
    object compares as NaN here. *)
Definition js_ge := compare_with (λ x y, Qle_bool y x) (λ a b, chars_leb b a).
Definition js_le := compare_with Qle_bool chars_leb.

(** [param[k]] *)
Definition param_at (r : rvalue) (k : nat) : rvalue :=
  match r with RArr l => default (RNum None) (l !! k) | _ => RNum None end.

(** [length >= param] and [length <= param] *)
Definition length_of (p : page) (v : jval) (e : element) : nat :=
  match v with VArr l => length l | _ => getLength p v e end.
Definition len_ge (n : nat) (r : rvalue) : bool :=
  match param_number r with Some q => Qle_bool q (inject_Z (Z.of_nat n)) | None => false end.
Definition len_le (n : nat) (r : rvalue) : bool :=
  match param_number r with Some q => Qle_bool (inject_Z (Z.of_nat n)) q | None => false end.

(** ** Regular expressions *)

Definition RAlnum : regex := RChar (λ c, is_alpha c || is_digit c).

Definition digits_regex : regex := RPlus RDigit.

Definition number_regex : regex :=
  RAll [ROpt (RAlt (RSeq (ROpt (RLit "-")) (RPlus RDigit))
                   (RAll [ROpt (RLit "-"); RBetween 1 3 RDigit;
                          RPlus (RSeq (RLit ",") (RTimes 3 RDigit))]));
        ROpt (RSeq (RLit ".") (RPlus RDigit))].

Definition dateISO_regex : regex :=
  RAll [RTimes 4 RDigit; ROneOf "/-";
        RAlt (RSeq (ROpt (RLit "0")) (RRange "1" "9")) (RSeq (RLit "1") (ROneOf "012"));
        ROneOf "/-";
        RAny [RSeq (ROpt (RLit "0")) (RRange "1" "9"); RSeq (ROneOf "12") (RRange "0" "9");
              RSeq (RLit "3") (ROneOf "01")]].

(** One label of a host name. *)
Definition email_label : regex :=
  RSeq RAlnum (ROpt (RSeq (RUpTo 61 (RAlt RAlnum (RLit "-"))) RAlnum)).

Definition email_regex : regex :=
  RAll [RPlus (RAlt RAlnum (ROneOf ".!#$%&'*+/=?^_`{|}~-")); RLit "@"; email_label;
        RStar (RSeq (RLit ".") email_label)].

(** [[a-z\u00a1-\uffff0-9]] under the flag [i], for code units below 256. *)
Definition RHost : regex := RChar (λ c, is_alpha c || is_digit c || (161 <=? code c)).
Definition RHostAlpha : regex := RChar (λ c, is_alpha c || (161 <=? code c)).
(** A word under the flag [i]. *)
Definition RWordI (s : string) : regex :=
  foldr (λ c r, RSeq (RChar (λ x, bool_decide (to_lower x = c))) r) REmpty (chars_of s).
Definition byte_group (n m : nat) : regex := RSeq (RLit ".") (RBetween n m RDigit).

Definition url_scheme : regex :=
  RSeq (ROpt (RSeq (RAlt (RSeq (RWordI "http") (ROpt (RWordI "s"))) (RWordI "ftp")) (RLit ":")))
       (RWord "//").
Definition url_user : regex :=
  ROpt (RAll [RPlus RNonSpace; ROpt (RSeq (RLit ":") (RStar RNonSpace)); RLit "@"]).
Definition url_address : regex :=
  RAll [RNotAhead (RSeq (RAlt (RWord "10") (RWord "127")) (RTimes 3 (byte_group 1 3)));
        RNotAhead (RSeq (RAlt (RWord "169.254") (RWord "192.168")) (RTimes 2 (byte_group 1 3)));
        RNotAhead (RAll [RWord "172.";
                         RAny [RSeq (RLit "1") (RRange "6" "9"); RSeq (RLit "2") RDigit;
                               RSeq (RLit "3") (RRange "0" "1")];
                         RTimes 2 (byte_group 1 3)]);
        RAny [RSeq (RRange "1" "9") (ROpt RDigit); RAll [RLit "1"; RDigit; RDigit];
              RAll [RLit "2"; ROneOf "01"; RDigit]; RSeq (RWord "22") (RRange "0" "3")];
        RTimes 2 (RSeq (RLit ".")
          (RAny [RSeq (ROpt (RLit "1")) (RBetween 1 2 RDigit);
                 RAll [RLit "2"; RRange "0" "4"; RDigit]; RSeq (RWord "25") (RRange "0" "5")]));
        RSeq (RLit ".")
          (RAny [RSeq (RRange "1" "9") (ROpt RDigit); RAll [RLit "1"; RDigit; RDigit];
                 RAll [RLit "2"; RRange "0" "4"; RDigit]; RSeq (RWord "25") (RRange "0" "4")])].
Definition url_label : regex := RSeq (RStar (RSeq RHost (RStar (RLit "-")))) (RPlus RHost).
Definition url_host : regex :=
  RAll [url_label; RStar (RSeq (RLit ".") url_label); RSeq (RLit ".") (RAtLeast 2 RHostAlpha);
        ROpt (RChar (λ c, negb ((code c =? 10) || (code c =? 13))))].
Definition url_regex : regex :=
  RAll [url_scheme; url_user; RAlt url_address url_host;
        ROpt (RSeq (RLit ":") (RBetween 2 5 RDigit));
        ROpt (RSeq (ROneOf "/?#") (RStar RNonSpace))].

Definition test_regex (r : regex) (v : jval) : bool := full_match r (chars_of (val_string v)).

(** ** [step] *)

(** The digits after the point at the end of a number's string; an exponent
    leaves none. *)
Definition decimalPlaces (s : chars) : nat :=
  match last_index_of "."%char s with
  | Some i => let d := drop (S i) s in if forallb is_digit d then length d else 0
  | None => 0
  end.

(** [Math.round] *)
Definition round (q : Q) : Z := ((2 * Qnum q + Zpos (Qden q)) / (2 * Zpos (Qden q)))%Z.

Definition toInt (decimals : nat) (q : option Q) : option Z :=
  (λ q, round (q * inject_Z (Zpos (ten_to decimals)))%Q) <$> q.

(** [a % b !== 0], NaN included *)
Definition not_multiple (a b : option Z) : bool :=
  match a, b with
  | Some a, Some b => if (b =? 0)%Z then true else negb (Z.rem a b =? 0)%Z
  | _, _ => true
  end.

Definition rvalue_string (r : rvalue) : string :=
  match r with
  | RNum (Some q) => string_of (number_string q)
  | RNum None => "NaN"
  | RStr s => s
  | RBool b => if b then "true" else "false"
  | RElem _ => "[object HTMLInputElement]"
  | _ => "[object Object]"
  end.

Definition step_supported (type : option string) : bool :=
  match type with
  | None => true
  | Some t => t ∈? [""; "text"; "number"; "range"]
  end.

Definition step (p : page) (v : jval) (i : nat) (e : element) (param : rvalue) : option mresult :=
  let type := obj_get "type" (eattributes e) in
  if step_supported type then
    let decimals := decimalPlaces (chars_of (rvalue_string param)) in
    let valid := negb ((decimals <? decimalPlaces (chars_of (val_string v))) ||
                       not_multiple (toInt decimals (val_number v)) (toInt decimals (param_number param))) in
    Some (unless_optional p i e valid)
  else None.                                      (* throws *)

(** ** [$.validator.methods] *)

(** A method that only reads; [None] if it throws.  [equalTo] and [remote] change
    the validator. *)
Definition reader := page → jval → nat → element → rvalue → option mresult.
Inductive method := Reads (f : reader) | EqualTo | Remote.

(** [this.optional(element) || test(value)] *)
Definition optional_or (test : page → jval → element → rvalue → bool) : method :=
  Reads (λ p v i e param, Some (unless_optional p i e (test p v e param))).

Definition builtin_methods : list (string * method) :=
  [("required", Reads (λ p v i e param, Some (required p v i e (Some param))));
   ("email", optional_or (λ _ v _ _, test_regex email_regex v));
   ("url", optional_or (λ _ v _ _, test_regex url_regex v));
   ("date", optional_or (λ _ v _ _, let s := date_string E (val_string v) in
                                    negb (tests "Invalid" s || tests "NaN" s)));
   ("dateISO", optional_or (λ _ v _ _, test_regex dateISO_regex v));
   ("number", optional_or (λ _ v _ _, test_regex number_regex v));
   ("digits", optional_or (λ _ v _ _, test_regex digits_regex v));
   ("minlength", optional_or (λ p v e param, len_ge (length_of p v e) param));
   ("maxlength", optional_or (λ p v e param, len_le (length_of p v e) param));
   ("rangelength", optional_or (λ p v e param,
      len_ge (length_of p v e) (param_at param 0) && len_le (length_of p v e) (param_at param 1)));
   ("min", optional_or (λ _ v _ param, js_ge v param));
   ("max", optional_or (λ _ v _ param, js_le v param));
   ("range", optional_or (λ _ v _ param, js_ge v (param_at param 0) && js_le v (param_at param 1)));
   ("step", Reads step); ("equalTo", EqualTo); ("remote", Remote)].

Definition methods : list (string * method) :=
  extend builtin_methods
    ((λ '(name, f), (name, Reads (λ p v i e param,
       (λ r, match r with Some b => of_bool b | None => MMismatch end) <$> f p v i e param)))
     <$> custom_methods E).
End methods.
