(* ===== verification/ValidateRules.v ===== *)
(** * jquery.validate: the rules of an element

    Models the collection of an element's rules in jquery.validate.js: by its
    classes ([classRules]), attributes ([attributeRules]), data ([dataRules]) and
    the settings ([staticRules]), their normalization ([normalizeRules]) and the
    plugin function [rules] with its commands [add] and [remove].  Collecting
    rules can change the page: an element whose dependency does not hold loses
    its classes ([resetElements]). *)
From stdpp Require Import base strings list.
From Stdlib Require Import Ascii ZArith QArith Lia.
From S2P Require Import Prelude JsString JsRegex ValidatePage.

Local Open Scope js_scope.
Local Open Scope nat_scope.

Abbreviation rules_object := (list (string * rvalue)).

(** A message: a string, or the function [$.validator.format] makes of one.  The
    messages of the settings for one name: one string for all methods, or one
    message per method. *)
Inductive message := MText (s : string) | MFormat (s : string).
Inductive name_messages := MAll (s : string) | MEach (o : list (string * message)).

(** The settings of a validator, with the parts of [$.validator] that pages
    change.  [submitHandler] is what that function returns, if there is one. *)
Record settings := Settings {
  s_rules : list (string * rules_object);
  s_messages : list (string * name_messages);
  s_groups : list (string * string);               (* name to group *)
  s_normalizer : option nat;
  errorClass : string;
  validClass : string;
  pendingClass : string;
  ignoreTitle : bool;
  focusInvalid_setting : bool;
  submitHandler : option (option bool);
  autoCreateRanges : bool;
  classRuleSettings : list (string * rules_object);
  default_messages : list (string * message)       (* $.validator.messages *)
}.

Definition set_rules (r : list (string * rules_object)) (S : settings) : settings :=
  Settings r (s_messages S) (s_groups S) (s_normalizer S) (errorClass S) (validClass S)
    (pendingClass S) (ignoreTitle S) (focusInvalid_setting S) (submitHandler S)
    (autoCreateRanges S) (classRuleSettings S) (default_messages S).

Definition set_messages (m : list (string * name_messages)) (S : settings) : settings :=
  Settings (s_rules S) m (s_groups S) (s_normalizer S) (errorClass S) (validClass S)
    (pendingClass S) (ignoreTitle S) (focusInvalid_setting S) (submitHandler S)
    (autoCreateRanges S) (classRuleSettings S) (default_messages S).

(** [classRuleSettings] as the file defines it. *)
Definition default_classRuleSettings : list (string * rules_object) :=
  (λ c, (c, [(c, RBool true)])) <$>
    ["required"; "email"; "url"; "date"; "dateISO"; "number"; "digits"; "creditcard"].

(** ** Classes of elements *)

Definition set_classes (l : list string) (e : element) : element :=
  Element (ename e) (eid e) (etype e) (enode e) (editable e) (eignored e) (eexcluded e) (evalue e)
    (eselected e) (echecked e) (badInput e) l (eattributes e) (edata e) (etitle e) (describedBy e)
    (ariaInvalid e).

Definition addClass (c : string) (e : element) : element :=
  if bool_decide (c = "") || (c ∈? eclasses e) then e
  else set_classes (eclasses e ++ [c]) e.

Definition removeClass (c : string) (e : element) : element :=
  set_classes (List.filter (λ x, negb (bool_decide (x = c))) (eclasses e)) e.

(** Apply [f] to the elements of a selection. *)
Definition each (f : element → element) (l : list nat) (p : page) : page :=
  fold_left (λ p i, alter f i p) l p.

(** The elements [highlight] and [unhighlight] work on. *)
Definition highlighted (p : page) (i : nat) : list nat :=
  match p !! i with
  | Some e => if bool_decide (etype e = "radio") then findByName (ename e) p else [i]
  | None => []
  end.

Definition highlight (i : nat) (errorClass validClass : string) (p : page) : page :=
  each (λ e, removeClass validClass (addClass errorClass e)) (highlighted p i) p.
Definition unhighlight (i : nat) (errorClass validClass : string) (p : page) : page :=
  each (λ e, addClass validClass (removeClass errorClass e)) (highlighted p i) p.

Definition resetElement (S : settings) (p : page) (i : nat) : page :=
  let p1 := unhighlight i (errorClass S) "" p in
  match p1 !! i with
  | Some e => each (removeClass (validClass S)) (findByName (ename e) p1) p1
  | None => p1
  end.
Definition resetElements (S : settings) (l : list nat) (p : page) : page :=
  fold_left (resetElement S) l p.

(** ** Where rules come from *)

(** [normalizeRule] of a string *)
Definition normalizeRule (data : string) : rules_object :=
  fold_left (λ o w, obj_put (string_of w) (RBool true) o) (split_by is_space (chars_of data)) [].

Definition classRules (S : settings) (e : element) : rules_object :=
  fold_left (λ o c, match obj_get c (classRuleSettings S) with
                    | Some r => extend o r
                    | None => o
                    end) (eclasses e) [].

Definition is_zero (v : rvalue) : bool :=
  match v with RNum (Some q) => Qeq_bool q 0 | _ => false end.

(** [Number(value)] *)
Definition to_number (v : rvalue) : option Q := param_number v.

Definition normalizeAttributeRule (rules : rules_object) (type : option string) (method : string)
    (value : option rvalue) : rules_object :=
  let numeric := (tests "min" method || tests "max" method || tests "step" method) &&
    match type with
    | None => true
    | Some t => tests "number" t || tests "range" t || tests "text" t
    end in
  let value :=
    if numeric then v ← value; q ← to_number v; Some (RNum (Some q)) else value in
  let otherwise :=
    match type with
    | Some t =>
        if bool_decide (t = method) && negb (bool_decide (t = "range"))
        then obj_put method (RBool true) rules else rules
    | None => rules
    end in
  match value with
  | Some v => if truthy v || is_zero v then obj_put method v rules else otherwise
  | None => otherwise
  end.

Definition attribute_value (e : element) (method : string) : option rvalue :=
  let attr := obj_get method (eattributes e) in
  if bool_decide (method = "required") then
    Some (RBool (match attr with Some _ => true | None => false end))
  else RStr <$> attr.

Definition bad_maxlength (v : rvalue) : bool :=
  let s := rvalue_string v in tests "-1" s || tests "2147483647" s || tests "524288" s.

Definition attributeRules (names : list string) (e : element) : rules_object :=
  let type := obj_get "type" (eattributes e) in
  let rules := fold_left (λ o m, normalizeAttributeRule o type m (attribute_value e m)) names [] in
  match obj_get "maxlength" rules with
  | Some v => if truthy v && bad_maxlength v then obj_delete "maxlength" rules else rules
  | None => rules
  end.

(** ["rule" + method.charAt(0).toUpperCase() + method.substring(1).toLowerCase()] *)
Definition data_key (prefix : string) (method : string) : string :=
  match chars_of method with
  | [] => prefix
  | c :: l => string_of (chars_of prefix ++ to_upper c :: (to_lower <$> l))
  end.

Definition dataRules (names : list string) (e : element) : rules_object :=
  let type := obj_get "type" (eattributes e) in
  fold_left (λ o m, normalizeAttributeRule o type m (obj_get (data_key "rule" m) (edata e))) names [].

Definition staticRules (S : settings) (e : element) : rules_object :=
  default [] (obj_get (ename e) (s_rules S)).

(** ** Normalization *)

Section rules.
Context (E : environment).

Definition keepRule (p : page) (i : nat) (depends : option rvalue) : bool :=
  match depends with
  | Some (RStr s) => negb (bool_decide (query E s p = []))
  | Some (RFn f) => truthy (call_fn E f p i)
  | _ => true
  end.

(** [val.param || val.depends] *)
Definition has_dependency (param depends : option rvalue) : bool :=
  match param with Some v => truthy v | None => false end ||
  match depends with Some v => truthy v | None => false end.

(** The dependency check of one rule. *)
Definition check_dependency (S : settings) (i : nat) (acc : page * rules_object)
    (kv : string * rvalue) : page * rules_object :=
  let '(p, rules) := acc in
  let '(prop, val) := kv in
  match val with
  | RBool false => (p, obj_delete prop rules)
  | RObj param depends =>
      if has_dependency param depends then
        if keepRule p i depends then (p, obj_put prop (default (RBool true) param) rules)
        else (resetElements S [i] p, obj_delete prop rules)
      else (p, rules)
  | _ => (p, rules)
  end.

Definition evaluate_parameter (p : page) (i : nat) (kv : string * rvalue) : string * rvalue :=
  match snd kv with
  | RFn f => if bool_decide (fst kv = "normalizer") then kv else (fst kv, call_fn E f p i)
  | _ => kv
  end.

Definition clean_length (rules : rules_object) (prop : string) : rules_object :=
  match obj_get prop rules with
  | Some v => if truthy v then obj_put prop (RNum (to_number v)) rules else rules
  | None => rules
  end.

Definition number_at (l : list rvalue) (k : nat) : rvalue := RNum (v ← l !! k; to_number v).

Definition is_bracket (c : ascii) : bool := bool_decide (c = "["%char) || bool_decide (c = "]"%char).
Definition is_separator (c : ascii) : bool := is_space c || bool_decide (c = ","%char).

Definition clean_range (rules : rules_object) (prop : string) : rules_object :=
  match obj_get prop rules with
  | Some (RArr l) => obj_put prop (RArr [number_at l 0; number_at l 1]) rules
  | Some (RStr s) =>
      if bool_decide (s = "") then rules
      else
        let parts := RStr ∘ string_of <$>
          split_runs is_separator false (List.filter (λ c, negb (is_bracket c)) (chars_of s)) in
        obj_put prop (RArr [number_at parts 0; number_at parts 1]) rules
  | _ => rules
  end.

(** One of the two pairs that [autoCreateRanges] joins. *)
Definition create_range (low high range : string) (rules : rules_object) : rules_object :=
  match obj_get low rules, obj_get high rules with
  | Some a, Some b => obj_delete high (obj_delete low (obj_put range (RArr [a; b]) rules))
  | _, _ => rules
  end.

Definition normalizeRules (S : settings) (rules : rules_object) (p : page) (i : nat)
    : page * rules_object :=
  let '(p1, rules1) := fold_left (check_dependency S i) rules (p, rules) in
  let rules2 := evaluate_parameter p1 i <$> rules1 in
  let rules3 := fold_left clean_length ["minlength"; "maxlength"] rules2 in
  let rules4 := fold_left clean_range ["rangelength"; "range"] rules3 in
  let rules5 :=
    if autoCreateRanges S then
      create_range "minlength" "maxlength" "rangelength" (create_range "min" "max" "range" rules4)
    else rules4 in
  (p1, rules5).

(** ** [$(element).rules()] *)

Definition to_front (prop : string) (rules : rules_object) : rules_object :=
  match obj_get prop rules with
  | Some v => if truthy v then extend [(prop, v)] (obj_delete prop rules) else rules
  | None => rules
  end.
Definition to_back (prop : string) (rules : rules_object) : rules_object :=
  match obj_get prop rules with
  | Some v => if truthy v then extend (obj_delete prop rules) [(prop, v)] else rules
  | None => rules
  end.

Definition collected (S : settings) (e : element) : rules_object :=
  let names := fst <$> methods E in
  extend (extend (extend (extend [] (classRules S e)) (attributeRules names e)) (dataRules names e))
    (staticRules S e).

Definition rules (S : settings) (p : page) (i : nat) : page * rules_object :=
  match p !! i with
  | None => (p, [])
  | Some e =>
      let '(p1, data) := normalizeRules S (collected S e) p i in
      (p1, to_back "remote" (to_front "required" data))
  end.

(** [$(element).rules("add", argument)] *)
Definition rules_add (S : settings) (e : element) (argument : rules_object)
    (messages : option (list (string * message))) : settings :=
  let existing := obj_delete "messages" (extend (staticRules S e) argument) in
  let S1 := set_rules (obj_put (ename e) existing (s_rules S)) S in
  match messages with
  | None => S1
  | Some ms =>
      let old := match obj_get (ename e) (s_messages S1) with Some (MEach o) => o | _ => [] end in
      set_messages (obj_put (ename e) (MEach (extend old ms)) (s_messages S1)) S1
  end.

(** [$(element).rules("remove")] and [$(element).rules("remove", names)] with
    the removed rules.  The object [staticRules] returns is the one in the
    settings, so deleting its properties changes the settings. *)
Definition rules_remove (S : settings) (e : element) (argument : option string)
    : settings * list (string * option rvalue) :=
  let existing := staticRules S e in
  let names := default "" argument in
  if bool_decide (names = "") then
    (set_rules (obj_delete (ename e) (s_rules S)) S, (λ '(k, v), (k, Some v)) <$> existing)
  else
    let '(remaining, filtered) :=
      fold_left (λ acc w, let '(ex, fl) := acc in
                          let m := string_of w in
                          (obj_delete m ex, obj_put m (obj_get m ex) fl))
        (split_by is_space (chars_of names)) (existing, []) in
    (match obj_get (ename e) (s_rules S) with
     | Some _ => set_rules (obj_put (ename e) remaining (s_rules S)) S
     | None => S
     end, filtered).
End rules.
