(* ===== verification/Validate.v ===== *)
(** * jquery.validate: the validator

    Models the validator of jquery.validate.js: checking elements and forms,
    messages, the error labels and classes on the page, remote requests and the
    handlers of the form's events.  The settings that change the appearance are
    the defaults: error labels are [label] elements after their field, there are
    no containers, wrappers, [errorPlacement], [success] or [showErrors]
    functions, and [debug] is off.  A request is live until it is answered,
    fails, or a new one on its port aborts it. *)
From stdpp Require Import base strings list gmap.
From Stdlib Require Import Ascii ZArith QArith Lia.
From S2P Require Import Prelude JsString JsRegex ValidatePage ValidateRules.

Local Open Scope js_scope.
Local Open Scope nat_scope.

(** ** State *)

(** An error label: an element with the error class in the form. *)
Record label := Label {
  lid : string; lfor : string; ltext : string; lshown : bool
}.

Record error := VError { emessage : string; eelement : nat; emethod : option string }.

(** The values of [invalid]. *)
Inductive flag := FMessage (s : string) | FBool (b : bool).

(** What [resetInternals] and [reset] clear. *)
Record results := Results {
  errorList : list error;
  errorMap : list (string * string);
  successList : list nat;
  toShow : list nat;                    (* labels *)
  toHide : list nat;
  currentElements : list nat
}.

(** The record behind an element's data [previousValue]. *)
Record previous := Previous {
  old : option (list (string * jval));
  pvalid : bool;
  pmessage : string;
  originalMessage : option message
}.

Record request := Request {
  rq_name : string;                     (* port: "validate" + name *)
  rq_element : nat;
  rq_previous : nat;
  rq_value : jval;
  rq_data : list (string * jval)        (* what it asks about *)
}.

Record requests := Requests {
  pendingRequest : nat;
  pending : list string;
  previousOf : list (nat * nat);        (* element to its record *)
  records : list previous;
  live : list request
}.

Inductive why := Validated | Unvalidated | Crashed.
Inductive output :=
  | Submitted (w : why) (p : page) (hidden : list string)
  | Handled                             (* submitHandler was called *)
  | InvalidForm.                        (* the event invalid-form *)

Record validator := Validator {
  v_page : page;
  labels : list label;
  v_settings : settings;
  res : results;
  req : requests;
  submitted : list (string * string);
  invalid : list (string * flag);
  formSubmitted : bool;
  cancelSubmit : bool;
  submitButton : option string;
  lastActive : option nat;
  equalToBlurs : list (nat * nat);      (* target and element *)
  hiddenInputs : list string;
  outputs : list output                 (* newest first *)
}.

Definition set_page (p : page) (v : validator) : validator :=
  Validator p (labels v) (v_settings v) (res v) (req v) (submitted v) (invalid v) (formSubmitted v)
    (cancelSubmit v) (submitButton v) (lastActive v) (equalToBlurs v) (hiddenInputs v) (outputs v).
Definition set_labels (l : list label) (v : validator) : validator :=
  Validator (v_page v) l (v_settings v) (res v) (req v) (submitted v) (invalid v) (formSubmitted v)
    (cancelSubmit v) (submitButton v) (lastActive v) (equalToBlurs v) (hiddenInputs v) (outputs v).
Definition set_settings (S : settings) (v : validator) : validator :=
  Validator (v_page v) (labels v) S (res v) (req v) (submitted v) (invalid v) (formSubmitted v)
    (cancelSubmit v) (submitButton v) (lastActive v) (equalToBlurs v) (hiddenInputs v) (outputs v).
Definition set_res (r : results) (v : validator) : validator :=
  Validator (v_page v) (labels v) (v_settings v) r (req v) (submitted v) (invalid v) (formSubmitted v)
    (cancelSubmit v) (submitButton v) (lastActive v) (equalToBlurs v) (hiddenInputs v) (outputs v).
Definition set_req (r : requests) (v : validator) : validator :=
  Validator (v_page v) (labels v) (v_settings v) (res v) r (submitted v) (invalid v) (formSubmitted v)
    (cancelSubmit v) (submitButton v) (lastActive v) (equalToBlurs v) (hiddenInputs v) (outputs v).
Definition set_submitted (s : list (string * string)) (v : validator) : validator :=
  Validator (v_page v) (labels v) (v_settings v) (res v) (req v) s (invalid v) (formSubmitted v)
    (cancelSubmit v) (submitButton v) (lastActive v) (equalToBlurs v) (hiddenInputs v) (outputs v).
Definition set_invalid (i : list (string * flag)) (v : validator) : validator :=
  Validator (v_page v) (labels v) (v_settings v) (res v) (req v) (submitted v) i (formSubmitted v)
    (cancelSubmit v) (submitButton v) (lastActive v) (equalToBlurs v) (hiddenInputs v) (outputs v).
Definition set_formSubmitted (b : bool) (v : validator) : validator :=
  Validator (v_page v) (labels v) (v_settings v) (res v) (req v) (submitted v) (invalid v) b
    (cancelSubmit v) (submitButton v) (lastActive v) (equalToBlurs v) (hiddenInputs v) (outputs v).
Definition set_cancelSubmit (b : bool) (v : validator) : validator :=
  Validator (v_page v) (labels v) (v_settings v) (res v) (req v) (submitted v) (invalid v)
    (formSubmitted v) b (submitButton v) (lastActive v) (equalToBlurs v) (hiddenInputs v) (outputs v).
Definition set_submitButton (b : option string) (v : validator) : validator :=
  Validator (v_page v) (labels v) (v_settings v) (res v) (req v) (submitted v) (invalid v)
    (formSubmitted v) (cancelSubmit v) b (lastActive v) (equalToBlurs v) (hiddenInputs v) (outputs v).
Definition set_lastActive (i : option nat) (v : validator) : validator :=
  Validator (v_page v) (labels v) (v_settings v) (res v) (req v) (submitted v) (invalid v)
    (formSubmitted v) (cancelSubmit v) (submitButton v) i (equalToBlurs v) (hiddenInputs v) (outputs v).
Definition set_blurs (l : list (nat * nat)) (v : validator) : validator :=
  Validator (v_page v) (labels v) (v_settings v) (res v) (req v) (submitted v) (invalid v)
    (formSubmitted v) (cancelSubmit v) (submitButton v) (lastActive v) l (hiddenInputs v) (outputs v).
Definition set_hidden (l : list string) (v : validator) : validator :=
  Validator (v_page v) (labels v) (v_settings v) (res v) (req v) (submitted v) (invalid v)
    (formSubmitted v) (cancelSubmit v) (submitButton v) (lastActive v) (equalToBlurs v) l (outputs v).
Definition emit (o : output) (v : validator) : validator :=
  Validator (v_page v) (labels v) (v_settings v) (res v) (req v) (submitted v) (invalid v)
    (formSubmitted v) (cancelSubmit v) (submitButton v) (lastActive v) (equalToBlurs v)
    (hiddenInputs v) (o :: outputs v).

Definition set_errorList (l : list error) (r : results) : results :=
  Results l (errorMap r) (successList r) (toShow r) (toHide r) (currentElements r).
Definition set_errorMap (m : list (string * string)) (r : results) : results :=
  Results (errorList r) m (successList r) (toShow r) (toHide r) (currentElements r).
Definition set_successList (l : list nat) (r : results) : results :=
  Results (errorList r) (errorMap r) l (toShow r) (toHide r) (currentElements r).
Definition set_toShow (l : list nat) (r : results) : results :=
  Results (errorList r) (errorMap r) (successList r) l (toHide r) (currentElements r).
Definition set_toHide (l : list nat) (r : results) : results :=
  Results (errorList r) (errorMap r) (successList r) (toShow r) l (currentElements r).
Definition set_currentElements (l : list nat) (r : results) : results :=
  Results (errorList r) (errorMap r) (successList r) (toShow r) (toHide r) l.

Definition upd_res (f : results → results) (v : validator) : validator := set_res (f (res v)) v.

(** [name in object]: also the properties every object inherits. *)
Definition object_prototype : list string :=
  ["constructor"; "toString"; "toLocaleString"; "valueOf"; "hasOwnProperty"; "isPrototypeOf";
   "propertyIsEnumerable"; "__proto__"; "__defineGetter__"; "__defineSetter__";
   "__lookupGetter__"; "__lookupSetter__"].
Definition in_object {A} (name : string) (o : list (string * A)) : bool :=
  (name ∈? object_prototype) || (name ∈? o.*1).

Definition name_of (v : validator) (i : nat) : string :=
  match v_page v !! i with Some e => ename e | None => "" end.

(** ** Messages *)

(** The parameters of a rule as [format] uses them. *)
Inductive format_params := PUndefined | PScalar (s : string) | PList (l : list string).

Definition params_of (r : rvalue) : format_params :=
  match r with
  | RArr l => PList (rvalue_string <$> l)
  | _ => PScalar (rvalue_string r)
  end.

(** ["{" + i + "}"] *)
Definition placeholder (i : nat) : chars :=
  "{"%char :: natural_string (Z.of_nat i) ++ ["}"%char].

Fixpoint replace_params (i : nat) (params : list string) (source : chars) : chars :=
  match params with
  | [] => source
  | n :: params' => replace_params (S i) params' (replace_all (placeholder i) (chars_of n) source)
  end.

(** [$.validator.format(source, params)], [rest] being the further arguments. *)
Definition format (source : string) (params : format_params) (rest : list string) : string :=
  match params with
  | PUndefined => source
  | PScalar s => string_of (replace_params 0 (s :: rest) (chars_of source))
  | PList l => string_of (replace_params 0 l (chars_of source))
  end.

(** The length of a [{12}] at the start of [l], or 0. *)
Definition placeholder_length (l : chars) : nat :=
  match l with
  | "{"%char :: l' =>
      match take_while is_digit l', drop_while is_digit l' with
      | _ :: _ as ds, "}"%char :: _ => length ds + 2
      | _, _ => 0
      end
  | _ => 0
  end.

(** [/\$?\{(\d+)\}/.test(message)] *)
Fixpoint has_placeholder (l : chars) : bool :=
  (0 <? placeholder_length l) || match l with [] => false | _ :: l' => has_placeholder l' end.

(** [message.replace(/\$?\{(\d+)\}/g, "{$1}")]: a dollar before a placeholder goes. *)
Fixpoint drop_dollars (l : chars) : chars :=
  match l with
  | [] => []
  | c :: l' =>
      if bool_decide (c = "$"%char) && (0 <? placeholder_length l') then drop_dollars l'
      else c :: drop_dollars l'
  end.

Definition default_message_table : list (string * message) :=
  [("required", MText "This field is required."); ("remote", MText "Please fix this field.");
   ("email", MText "Please enter a valid email address."); ("url", MText "Please enter a valid URL.");
   ("date", MText "Please enter a valid date."); ("dateISO", MText "Please enter a valid date (ISO).");
   ("number", MText "Please enter a valid number."); ("digits", MText "Please enter only digits.");
   ("equalTo", MText "Please enter the same value again.");
   ("maxlength", MFormat "Please enter no more than {0} characters.");
   ("minlength", MFormat "Please enter at least {0} characters.");
   ("rangelength", MFormat "Please enter a value between {0} and {1} characters long.");
   ("range", MFormat "Please enter a value between {0} and {1}.");
   ("max", MFormat "Please enter a value less than or equal to {0}.");
   ("min", MFormat "Please enter a value greater than or equal to {0}.");
   ("step", MFormat "Please enter a multiple of {0}.")].

(** The settings the file provides, for a page without its own. *)
Definition default_settings : settings :=
  Settings [] [] [] None "error" "valid" "pending" false true None false
    default_classRuleSettings default_message_table.

Definition customMessage (S : settings) (name method : string) : option message :=
  match obj_get name (s_messages S) with
  | Some (MAll s) => Some (MText s)
  | Some (MEach o) => obj_get method o
  | None => None
  end.

Definition customDataMessage (e : element) (method : string) : option message :=
  let text r := MText (rvalue_string r) in
  match obj_get (data_key "msg" method) (edata e) with
  | Some r => if truthy r then Some (text r) else text <$> obj_get "msg" (edata e)
  | None => text <$> obj_get "msg" (edata e)
  end.

Fixpoint findDefined {A} (l : list (option A)) : option A :=
  match l with
  | [] => None
  | Some x :: _ => Some x
  | None :: l' => findDefined l'
  end.

Section validator.
Context (E : environment).

Definition defaultMessage (S : settings) (i : nat) (e : element) (method : string)
    (params : format_params) : string :=
  let found := findDefined
    [customMessage S (ename e) method; customDataMessage e method;
     (if ignoreTitle S || bool_decide (etitle e = "") then None else Some (MText (etitle e)));
     obj_get method (default_messages S)] in
  match found with
  | Some (MFormat s) => format s params [element_string E i]
  | Some (MText s) =>
      if has_placeholder (chars_of s) then format (string_of (drop_dollars (chars_of s))) params []
      else s
  | None => "<strong>Warning: No message defined for " +:+ ename e +:+ "</strong>"
  end.

(** ** Error labels *)

Definition own_id (e : element) : string :=
  if checkable e || bool_decide (eid e = "") then ename e else eid e.

Definition idOrName (S : settings) (e : element) : string :=
  match obj_get (ename e) (s_groups S) with
  | Some g => if bool_decide (g = "") then own_id e else g
  | None => own_id e
  end.

Fixpoint label_positions (P : label → bool) (i : nat) (l : list label) : list nat :=
  match l with
  | [] => []
  | x :: l' => if P x then i :: label_positions P (S i) l' else label_positions P (S i) l'
  end.

(** [errors()]: every error label of the form. *)
Definition errors (v : validator) : list nat := seq 0 (length (labels v)).

Definition errorsFor (v : validator) (i : nat) : list nat :=
  match v_page v !! i with
  | None => []
  | Some e =>
      let name := idOrName (v_settings v) e in
      label_positions (λ l, bool_decide (lfor l = name) || (lid l ∈? describedBy e))
        0 (labels v)
  end.

Definition set_text (s : string) (l : label) : label := Label (lid l) (lfor l) s (lshown l).
Definition set_shown (b : bool) (l : label) : label := Label (lid l) (lfor l) (ltext l) b.

Definition each_label (f : label → label) (l : list nat) (v : validator) : validator :=
  set_labels (fold_left (λ ls i, alter f i ls) l (labels v)) v.

(** [toShow.add(error)], without duplicates *)
Definition add_all (l k : list nat) : list nat :=
  l ++ List.filter (λ i, i ∉? l) k.
Definition not_in (l k : list nat) : list nat :=
  List.filter (λ i, i ∉? k) l.

Definition hideThese (l : list nat) (v : validator) : validator :=
  each_label (λ x, set_shown false (set_text "" x)) l v.
Definition hideErrors (v : validator) : validator := hideThese (toHide (res v)) v.

Definition showLabel (i : nat) (text : string) (v : validator) : validator :=
  match v_page v !! i with
  | None => v
  | Some e =>
      match errorsFor v i with
      | [] =>
          let elementID := idOrName (v_settings v) e in
          let v1 := set_labels (labels v ++ [Label (elementID +:+ "-error") elementID text true]) v in
          upd_res (λ r, set_toShow (add_all (toShow r) [length (labels v)]) r) v1
      | found =>
          upd_res (λ r, set_toShow (add_all (toShow r) found) r) (each_label (set_text text) found v)
      end
  end.

Definition invalidElements (v : validator) : list nat := eelement <$> errorList (res v).
Definition validElements (v : validator) : list nat :=
  not_in (currentElements (res v)) (invalidElements v).

Definition show_error (v : validator) (x : error) : validator :=
  let S := v_settings v in
  showLabel (eelement x) (emessage x)
    (set_page (highlight (eelement x) (errorClass S) (validClass S) (v_page v)) v).

Definition unhighlight_one (v : validator) (i : nat) : validator :=
  let S := v_settings v in
  set_page (unhighlight i (errorClass S) (validClass S) (v_page v)) v.

Definition defaultShowErrors (v : validator) : validator :=
  let v1 := fold_left show_error (errorList (res v)) v in
  let v2 := fold_left unhighlight_one (validElements v1) v1 in
  let v3 := upd_res (λ r, set_toHide (not_in (toHide r) (toShow r)) r) v2 in
  let v4 := hideErrors v3 in
  each_label (set_shown true) (toShow (res v4)) v4.

(** [showErrors()] and [showErrors(errors)] *)
Definition showErrors (given : option (list (string * string))) (v : validator) : validator :=
  let v1 :=
    match given with
    | None => v
    | Some errs =>
        let m := extend (errorMap (res v)) errs in
        upd_res (λ r,
          set_successList (List.filter (λ i, negb (in_object (name_of v i) errs)) (successList r))
            (set_errorList (omap (λ '(name, text),
               (λ i, VError text i None) <$> head (findByName name (v_page v))) m)
               (set_errorMap m r))) v
    end in
  defaultShowErrors v1.

(** ** Bookkeeping *)

Definition resetInternals (v : validator) : validator :=
  upd_res (λ r, Results [] [] [] [] [] (currentElements r)) v.
Definition reset (v : validator) : validator :=
  upd_res (set_currentElements []) (resetInternals v).
Definition prepareForm (v : validator) : validator :=
  let v1 := reset v in upd_res (set_toHide (errors v1)) v1.
Definition prepareElement (i : nat) (v : validator) : validator :=
  let v1 := reset v in upd_res (set_toHide (errorsFor v1 i)) v1.

Definition size (v : validator) : nat := length (errorList (res v)).
Definition valid (v : validator) : bool := Nat.eqb (size v) 0.

(** [objectLength] of the rules and of [invalid] *)
Definition rules_length (o : rules_object) : nat :=
  length (List.filter (λ kv, match snd kv with RBool false => false | _ => true end) o).
Definition numberOfInvalids (v : validator) : nat :=
  length (List.filter (λ kv, match snd kv with FBool false => false | _ => true end) (invalid v)).

(** Whether an element is an input of the form that is not left out. *)
Definition selectable (e : element) : bool :=
  (match enode e with OtherNode => editable e | _ => true end) &&
  negb (eexcluded e) && negb (eignored e).

(** The filter of [elements()]: the page, the names seen and the elements kept. *)
Definition elements_step (S : settings) (acc : page * list string * list nat) (i : nat)
    : page * list string * list nat :=
  let '(p, seen, kept) := acc in
  match p !! i with
  | None => acc
  | Some e =>
      if (ename e ∈? object_prototype) || (ename e ∈? seen) then acc
      else
        let '(p', r) := rules E S p i in
        if Nat.eqb (rules_length r) 0 then (p', seen, kept)
        else (p', seen ++ [ename e], kept ++ [i])
  end.

Definition elements (v : validator) : validator * list nat :=
  let '(p, _, kept) :=
    fold_left (elements_step (v_settings v)) (positions selectable (v_page v)) (v_page v, [], []) in
  (set_page p v, kept).

Definition formatAndAdd (i : nat) (e : element) (method : string) (param : rvalue) (v : validator)
    : validator :=
  let text := defaultMessage (v_settings v) i e method (params_of param) in
  let v1 := upd_res (λ r,
    set_errorMap (obj_put (ename e) text (errorMap r))
      (set_errorList (errorList r ++ [VError text i (Some method)]) r)) v in
  set_submitted (obj_put (ename e) text (submitted v1)) v1.

(** ** Remote requests *)

Definition upd_req (f : requests → requests) (v : validator) : validator := set_req (f (req v)) v.

Definition startRequest (i : nat) (v : validator) : validator :=
  let name := name_of v i in
  if (name ∈? pending (req v)) then v
  else
    let v1 := upd_req (λ r, Requests (S (pendingRequest r)) (name :: pending r) (previousOf r)
                              (records r) (live r)) v in
    set_page (alter (addClass (pendingClass (v_settings v))) i (v_page v1)) v1.

(** The record of an element, made when there is none. *)
Fixpoint previous_index (i : nat) (l : list (nat * nat)) : option nat :=
  match l with
  | [] => None
  | (j, k) :: l' => if Nat.eqb j i then Some k else previous_index i l'
  end.

Definition previousValue (i : nat) (e : element) (v : validator) : validator * nat :=
  match previous_index i (previousOf (req v)) with
  | Some k => (v, k)
  | None =>
      let k := length (records (req v)) in
      let text := defaultMessage (v_settings v) i e "remote" PUndefined in
      (upd_req (λ r, Requests (pendingRequest r) (pending r) ((i, k) :: previousOf r)
                       (records r ++ [Previous None true text None]) (live r)) v, k)
  end.

Definition set_record (k : nat) (x : previous) (v : validator) : validator :=
  upd_req (λ r, Requests (pendingRequest r) (pending r) (previousOf r) (<[k := x]> (records r))
                  (live r)) v.

(** [settings.messages[name].remote] and its assignment; on a string the
    assignment does nothing. *)
Definition remote_message (S : settings) (name : string) : option message :=
  match obj_get name (s_messages S) with
  | Some (MEach o) => obj_get "remote" o
  | _ => None
  end.
Definition put_remote_message (name : string) (m : option message) (S : settings) : settings :=
  match obj_get name (s_messages S) with
  | Some (MAll s) => if bool_decide (s = "")
                     then set_messages (obj_put name (MEach (match m with
                            | Some x => [("remote", x)] | None => [] end)) (s_messages S)) S
                     else S
  | Some (MEach o) =>
      set_messages (obj_put name (MEach (match m with
        | Some x => obj_put "remote" x o
        | None => obj_delete "remote" o
        end)) (s_messages S)) S
  | None =>
      set_messages (obj_put name (MEach (match m with
        | Some x => [("remote", x)]
        | None => []
        end)) (s_messages S)) S
  end.

(** [$.extend({data: value}, param.data)], of which the code keeps [$.param] *)
Definition optionData (p : page) (value : jval) (param : rvalue) : list (string * jval) :=
  match param with
  | ROptions _ (Some f) =>
      extend [("data", value)] ((λ '(k, s), (k, VStr s)) <$> remote_data E f p)
  | _ => [("data", value)]
  end.

#[global] Instance jval_eq_dec : EqDecision jval.
Proof. solve_decision. Defined.

Definition is_empty_message (m : option message) : bool :=
  match m with None => true | Some (MText s) => bool_decide (s = "") | Some (MFormat _) => false end.

(** [$.ajax] in mode [abort]: the live request of the port is dropped. *)
Definition ajax (rq : request) (v : validator) : validator :=
  upd_req (λ r, Requests (pendingRequest r) (pending r) (previousOf r) (records r)
    (rq :: List.filter (λ x, negb (bool_decide (rq_name x = rq_name rq))) (live r))) v.

Definition remote (value : jval) (i : nat) (e : element) (param : rvalue) (v : validator)
    : validator * mresult :=
  if optional E (v_page v) i e then (v, MMismatch)
  else
    let '(v1, k) := previousValue i e v in
    match records (req v1) !! k with
    | None => (v1, MTrue)                            (* no such case *)
    | Some x =>
        let original := if is_empty_message (originalMessage x)
                        then remote_message (v_settings v1) (ename e) else originalMessage x in
        let v2 := set_settings (put_remote_message (ename e) (Some (MText (pmessage x))) (v_settings v1)) v1 in
        let data := optionData (v_page v2) value param in
        if bool_decide (old x = Some data) then
          (set_record k (Previous (old x) (pvalid x) (pmessage x) original) v2, of_bool (pvalid x))
        else
          let v3 := set_record k (Previous (Some data) (pvalid x) (pmessage x) original) v2 in
          let v4 := startRequest i v3 in
          (ajax (Request (ename e) i k value data) v4, MPending)
    end.

(** ** [equalTo] *)

Definition equalTo_target (p : page) (param : rvalue) : list nat :=
  match param with RStr s => query E s p | RElem i => [i] | _ => [] end.

(** [value === target.val()]; two arrays are never the same object. *)
Definition same_as_target (p : page) (value : jval) (param : rvalue) : bool :=
  let other := match equalTo_target p param with
               | t :: _ => match p !! t with Some e => jq_val e | None => VUndef end
               | [] => VUndef
               end in
  match value with VArr _ => false | _ => bool_decide (value = other) end.

Definition equalTo (value : jval) (i : nat) (param : rvalue) (v : validator) : validator * mresult :=
  let target := equalTo_target (v_page v) param in
  let unbound := List.filter (λ t, (t ∉? (equalToBlurs v).*1)) target in
  let v1 := match unbound with
            | [] => v
            | _ => set_blurs (equalToBlurs v ++ ((λ t, (t, i)) <$> target)) v
            end in
  (v1, of_bool (same_as_target (v_page v) value param)).

(** ** Checking *)

Inductive outcome := CTrue | CFalse | CUndefined | CThrow.

(** The loop over the rules; [mismatch] is [dependencyMismatch]. *)
Fixpoint check_rules (i : nat) (e : element) (val : jval) (rulesCount : nat) (rs : rules_object)
    (mismatch : bool) (v : validator) : validator * (outcome + bool) :=
  match rs with
  | [] => (v, inr mismatch)
  | (name, param) :: rs' =>
      let '(v1, result) :=
        match obj_get name (methods E) with
        | None => (v, None)
        | Some (Reads f) => (v, f (v_page v) val i e param)
        | Some EqualTo => let '(w, r) := equalTo val i param v in (w, Some r)
        | Some Remote => let '(w, r) := remote val i e param v in (w, Some r)
        end in
      match result with
      | None => (v1, inl CThrow)
      | Some MMismatch =>
          if Nat.eqb rulesCount 1 then check_rules i e val rulesCount rs' true v1
          else check_rules i e val rulesCount rs' false v1
      | Some MPending => (upd_res (λ r, set_toHide (not_in (toHide r) (errorsFor v1 i)) r) v1, inl CUndefined)
      | Some MFalse => (formatAndAdd i e name param v1, inl CFalse)
      | Some MTrue => check_rules i e val rulesCount rs' false v1
      end
  end.

(** The normalizer of an element: its own, or that of the settings. *)
Definition normalizer_of (S : settings) (rs : rules_object) : option nat :=
  match obj_get "normalizer" rs with
  | Some (RFn f) => Some f
  | _ => s_normalizer S
  end.

(** What [check] works on: the page after collecting the rules, the element, its
    (normalized) value, the number of rules and the rules; [None] is an
    exception. *)
Definition check_input (S : settings) (p : page) (t : nat)
    : page * option (element * jval * nat * rules_object) :=
  let '(p1, rs) := rules E S p t in
  (p1,
   e ← p1 !! t;
   let val := elementValue p1 e in
   match normalizer_of S rs with
   | None => Some (e, val, length rs, rs)
   | Some f =>
       match call_normalizer E f p1 t val with
       | VStr s => Some (e, VStr s, length rs, obj_delete "normalizer" rs)
       | _ => None
       end
   end).

Definition check (i : nat) (v : validator) : validator * outcome :=
  match validationTargetFor (v_page v) i with
  | None => (v, CThrow)                              (* the type of undefined *)
  | Some t =>
      let '(p, input) := check_input (v_settings v) (v_page v) t in
      let v0 := set_page p v in
      match input with
      | None => (v0, CThrow)
      | Some (e, val, rulesCount, rs) =>
          match check_rules t e val rulesCount rs false v0 with
          | (v1, inl o) => (v1, o)
          | (v1, inr true) => (v1, CUndefined)
          | (v1, inr false) =>
              (if Nat.eqb (rules_length rs) 0 then v1
               else upd_res (λ r, set_successList (successList r ++ [t]) r) v1, CTrue)
          end
      end
  end.

Fixpoint check_all (l : list nat) (v : validator) : validator * bool :=
  match l with
  | [] => (v, true)
  | i :: l' =>
      match check i v with
      | (v1, CThrow) => (v1, false)
      | (v1, _) => check_all l' v1
      end
  end.

(** [false]: an exception *)
Definition checkForm (v : validator) : validator * bool :=
  let '(v1, l) := elements (prepareForm v) in
  check_all l (upd_res (set_currentElements l) v1).

(** [form()]; [None] is an exception. *)
Definition form (v : validator) : validator * option bool :=
  match checkForm v with
  | (v1, false) => (v1, None)
  | (v1, true) =>
      let m := errorMap (res v1) in
      let v2 := set_invalid ((λ '(k, s), (k, FMessage s)) <$> m)
                  (set_submitted (extend (submitted v1) m) v1) in
      let v3 := if valid v2 then v2 else emit InvalidForm v2 in
      let v4 := showErrors None v3 in
      (v4, Some (valid v4))
  end.

(** ** Checking one element *)

Definition and_then (o : outcome) (b : bool) : bool :=
  match o with CTrue => b | _ => false end.

(** The loop over the groups in [element()]. *)
Fixpoint check_group (group name : string) (gs : list (string * string)) (result : bool)
    (v : validator) : validator * option bool :=
  match gs with
  | [] => (v, Some result)
  | (n, testgroup) :: gs' =>
      if bool_decide (testgroup = group) && negb (bool_decide (n = name)) then
        match findByName n (v_page v) with
        | [] => (v, None)                             (* checkable(undefined) throws *)
        | j :: _ =>
            match validationTargetFor (v_page v) j with
            | Some t =>
                if in_object (name_of v t) (invalid v) then
                  let v1 := upd_res (λ r, set_currentElements (currentElements r ++ [t]) r) v in
                  match check t v1 with
                  | (v2, CThrow) => (v2, None)
                  | (v2, o) => check_group group name gs' (and_then o result) v2
                  end
                else check_group group name gs' result v
            | None => check_group group name gs' result v
            end
        end
      else check_group group name gs' result v
  end.

Definition set_aria (b : option bool) (e : element) : element :=
  Element (ename e) (eid e) (etype e) (enode e) (editable e) (eignored e) (eexcluded e) (evalue e)
    (eselected e) (echecked e) (badInput e) (eclasses e) (eattributes e) (edata e) (etitle e)
    (describedBy e) b.

(** [element(element)]; [None] is an exception. *)
Definition element_ (i : nat) (v : validator) : validator * option bool :=
  match validationTargetFor (v_page v) i with
  | None => (set_invalid (obj_delete (name_of v i) (invalid v)) v, Some true)
  | Some t =>
      let v1 := upd_res (set_currentElements [t]) (prepareElement t v) in
      let name := name_of v1 t in
      let '(v2, grouped) :=
        match obj_get name (s_groups (v_settings v1)) with
        | Some g => if bool_decide (g = "") then (v1, Some true)
                    else check_group g name (s_groups (v_settings v1)) true v1
        | None => (v1, Some true)
        end in
      match grouped with
      | None => (v2, None)
      | Some result =>
          match check t v2 with
          | (v3, CThrow) => (v3, None)
          | (v3, o) =>
              let rs := match o with CFalse => false | _ => true end in
              let v4 := set_invalid (obj_put name (FBool (negb rs)) (invalid v3)) v3 in
              let v5 := showErrors None v4 in
              (set_page (alter (set_aria (Some (negb rs))) i (v_page v5)) v5, Some (result && rs))
          end
      end
  end.

(** [$(element).valid()] of one element, which also sets [errorList]. *)
Definition valid_element (i : nat) (v : validator) : validator :=
  match element_ i v with
  | (v1, Some true) => upd_res (set_errorList []) v1
  | (v1, _) => v1
  end.

Definition resetForm (v : validator) : validator :=
  let v1 := hideErrors (prepareForm (set_submitted [] (set_invalid [] v))) in
  let '(v2, l) := elements v1 in
  let v3 := upd_req (λ r, Requests (pendingRequest r) (pending r)
    (List.filter (λ '(i, _), (i ∉? l)) (previousOf r)) (records r) (live r)) v2 in
  set_page (resetElements (v_settings v3) l (each (set_aria None) l (v_page v3))) v3.

(** ** Submitting *)

(** [focusInvalid()]: the element that gets the focus becomes [lastActive]. *)
Definition findLastActive (v : validator) : option nat :=
  i ← lastActive v;
  if Nat.eqb (length (List.filter (λ x, bool_decide (name_of v (eelement x) = name_of v i))
                        (errorList (res v)))) 1
  then Some i else None.

Definition focusInvalid (v : validator) : validator :=
  if focusInvalid_setting (v_settings v) then
    match (match findLastActive v with
           | Some i => Some i
           | None => eelement <$> head (errorList (res v))
           end) with
    | Some i => if ignored (v_page v) i then v else set_lastActive (Some i) v
    | None => v
    end
  else v.

(** [handle()]: whether the browser submits the form. *)
Definition handle (v : validator) : validator * bool :=
  let v1 :=
    match submitButton v, submitHandler (v_settings v) with
    | Some name, Some _ => set_hidden (name :: hiddenInputs v) v
    | Some name, None => if formSubmitted v then set_hidden (name :: hiddenInputs v) v else v
    | None, _ => v
    end in
  match submitHandler (v_settings v) with
  | Some result =>
      (set_hidden (hiddenInputs v) (emit Handled v1),   (* the hidden input is removed *)
       match result with Some b => b | None => false end)
  | None => (v1, true)
  end.

(** The handler of the event [submit]: [None] is an exception, otherwise whether
    the form may be submitted, and whether it was validated. *)
Definition on_submit (v : validator) : validator * option (bool * why) :=
  if cancelSubmit v then
    let '(v1, b) := handle (set_cancelSubmit false v) in (v1, Some (b, Unvalidated))
  else
    match form v with
    | (v1, None) => (v1, None)
    | (v1, Some true) =>
        if Nat.eqb (pendingRequest (req v1)) 0
        then let '(v2, b) := handle v1 in (v2, Some (b, Validated))
        else (set_formSubmitted true v1, Some (false, Validated))
    | (v1, Some false) => (focusInvalid v1, Some (false, Validated))
    end.

Definition send (w : why) (v : validator) : validator :=
  emit (Submitted w (v_page v) (hiddenInputs v)) v.

(** The user submits the form: an exception in the handler does not keep the
    browser from submitting. *)
Definition user_submit (v : validator) : validator :=
  match on_submit v with
  | (v1, None) => send Crashed v1
  | (v1, Some (true, w)) => send w v1
  | (v1, Some (false, _)) => v1
  end.

(** [$(form).submit()]: an exception of the handler is one of the caller. *)
Definition script_submit (v : validator) : validator * bool :=
  match on_submit v with
  | (v1, None) => (v1, false)
  | (v1, Some (true, w)) => (send w v1, true)
  | (v1, Some (false, _)) => (v1, true)
  end.

Definition stopRequest (i : nat) (ok : bool) (v : validator) : validator :=
  let name := name_of v i in
  let v1 := upd_req (λ r, Requests (pendingRequest r - 1)
    (List.filter (λ n, negb (bool_decide (n = name))) (pending r)) (previousOf r) (records r) (live r)) v in
  let v2 := set_page (alter (removeClass (pendingClass (v_settings v))) i (v_page v1)) v1 in
  if Nat.eqb (pendingRequest (req v2)) 0 && formSubmitted v2 then
    if ok then
      match form v2 with
      | (v3, Some true) =>
          match script_submit v3 with
          | (v4, true) =>
              let v5 := match submitButton v4 with
                        | Some b => set_hidden (List.filter (λ n, negb (bool_decide (n = b))) (hiddenInputs v4)) v4
                        | None => v4
                        end in
              set_formSubmitted false v5
          | (v4, false) => v4
          end
      | (v3, _) => v3
      end
    else set_formSubmitted false (emit InvalidForm v2)
  else v2.

(** ** The answer to a remote request *)

Inductive response := RespBool (b : bool) | RespString (s : string) | RespNull.

Definition response_valid (r : response) : bool :=
  match r with RespBool b => b | RespString s => bool_decide (s = "true") | RespNull => false end.

(** [response || defaultMessage(..)] *)
Definition response_message (r : response) (fallback : string) : string :=
  match r with
  | RespString s => if bool_decide (s = "") then fallback else s
  | _ => fallback
  end.

(** The function [success] of a request. *)
Definition success (rq : request) (r : response) (v : validator) : validator :=
  let i := rq_element rq in
  let k := rq_previous rq in
  match v_page v !! i, records (req v) !! k with
  | Some e, Some x =>
      let name := ename e in
      let v1 := set_settings (put_remote_message name (originalMessage x) (v_settings v)) v in
      if response_valid r then
        let v2 := resetInternals v1 in
        let v3 := upd_res (λ s, set_successList [i] (set_toHide (errorsFor v2 i) s)) v2 in
        let v4 := showErrors None (set_invalid (obj_put name (FBool false) (invalid v3)) v3) in
        stopRequest i true (set_record k (Previous (old x) true (pmessage x) (originalMessage x)) v4)
      else
        let text := response_message r
          (defaultMessage (v_settings v1) i e "remote" (PScalar (val_string (rq_value rq)))) in
        let v2 := set_record k (Previous (old x) (pvalid x) text (originalMessage x)) v1 in
        let v3 := showErrors (Some [(name, text)])
                    (set_invalid (obj_put name (FBool true) (invalid v2)) v2) in
        stopRequest i false (set_record k (Previous (old x) false text (originalMessage x)) v3)
  | _, _ => v
  end.

Definition drop_request (name : string) (v : validator) : validator :=
  upd_req (λ r, Requests (pendingRequest r) (pending r) (previousOf r) (records r)
    (List.filter (λ x, negb (bool_decide (rq_name x = name))) (live r))) v.

Definition find_request (name : string) (v : validator) : option request :=
  List.find (λ x, bool_decide (rq_name x = name)) (live (req v)).

(** ** The handlers of the other events *)

Definition delegated (i : nat) (v : validator) (f : element → validator) : validator :=
  match v_page v !! i with
  | Some e => if eignored e then v else f e
  | None => v
  end.

Definition onfocusin (i : nat) (v : validator) : validator :=
  delegated i v (λ _, set_lastActive (Some i) v).

Definition onfocusout (i : nat) (v : validator) : validator :=
  delegated i v (λ e,
    if negb (checkable e) && (in_object (ename e) (submitted v) || negb (optional E (v_page v) i e))
    then fst (element_ i v) else v).

Definition excludedKeys : list nat := [16; 17; 18; 20; 35; 36; 37; 38; 39; 40; 45; 144; 225].

Definition onkeyup (i which keyCode : nat) (v : validator) : validator :=
  delegated i v (λ e,
    if (Nat.eqb which 9 && bool_decide (elementValue (v_page v) e = VStr "")) ||
       (keyCode ∈? excludedKeys) then v
    else if in_object (ename e) (submitted v) || in_object (ename e) (invalid v)
    then fst (element_ i v) else v).

Definition onclick (i : nat) (v : validator) : validator :=
  delegated i v (λ e, if in_object (ename e) (submitted v) then fst (element_ i v) else v).

(** A click on an option of select [i]: the option has no name, its parent has. *)
Definition onclick_option (i : nat) (v : validator) : validator :=
  delegated i v (λ _, if in_object (name_of v i) (submitted v) then fst (element_ i v) else v).

(** A click on a submit button. *)
Definition click_submit (name : string) (cancel : bool) (v : validator) : validator :=
  let v1 := set_submitButton (Some name) v in
  if cancel then set_cancelSubmit true v1 else v1.

(** A field of the form loses the focus: the bindings of [equalTo]. *)
Definition on_blur (i : nat) (v : validator) : validator :=
  fold_left (λ v '(t, j), if Nat.eqb t i then valid_element j v else v) (equalToBlurs v) v.

(** The user changes a field. *)
Definition set_field (value : string) (selected : list string) (checked : bool) (bad : option bool)
    (e : element) : element :=
  Element (ename e) (eid e) (etype e) (enode e) (editable e) (eignored e) (eexcluded e) value
    selected checked bad (eclasses e) (eattributes e) (edata e) (etitle e) (describedBy e)
    (ariaInvalid e).

Inductive event :=
  | Edit (i : nat) (value : string) (selected : list string) (checked : bool) (bad : option bool)
  | FocusIn (i : nat) | FocusOut (i : nat) | KeyUp (i which keyCode : nat) | Click (i : nat)
  | ClickOption (i : nat)
  | Blur (i : nat) | ClickSubmit (name : string) (cancel : bool) | Submit
  | Answer (name : string) (r : response) | Failure (name : string) | Reset.

Definition react (ev : event) (v : validator) : validator :=
  match ev with
  | Edit i value selected checked bad =>
      set_page (alter (set_field value selected checked bad) i (v_page v)) v
  | FocusIn i => onfocusin i v
  | FocusOut i => onfocusout i v
  | KeyUp i which keyCode => onkeyup i which keyCode v
  | Click i => onclick i v
  | ClickOption i => onclick_option i v
  | Blur i => on_blur i v
  | ClickSubmit name cancel => click_submit name cancel v
  | Submit => user_submit v
  | Answer name r =>
      match find_request name v with
      | Some rq => success rq r (drop_request name v)
      | None => v
      end
  | Failure name => drop_request name v
  | Reset => resetForm v
  end.

Definition history (evs : list event) (v : validator) : validator := fold_left (λ v ev, react ev v) evs v.
End validator.

(** A new validator. *)
Definition initial (p : page) (S : settings) : validator :=
  Validator p [] S (Results [] [] [] [] [] []) (Requests 0 [] [] [] []) [] [] false false None None
    [] [] [].
