(* ===== verification/ValidateFacts.v ===== *)
(** * jquery.validate: what a submitted form has passed

    The validator's operations change the fields of the form only in their
    validation classes ([same_fields]); the pending remote requests are counted
    exactly ([inv]); and a form leaves the page validated only when every rule
    of every element accepts it, the remote rules by an answer of the server for
    the value that is sent. *)
From stdpp Require Import base strings list gmap.
From Stdlib Require Import Ascii ZArith QArith Lia.
From S2P Require Import Prelude JsString JsRegex ValidatePage ValidateRules Validate.

Local Open Scope nat_scope.

(** ** Pages up to validation classes *)

Section same.
Context (S : settings).

Definition marks : list string := [errorClass S; validClass S; pendingClass S].

Definition core (e : element) : element :=
  set_aria None (set_classes (List.filter (λ c, negb (bool_decide (c ∈ marks))) (eclasses e)) e).

Definition same_fields (p q : page) : Prop := core <$> p = core <$> q.

#[global] Instance same_fields_equiv : Equivalence same_fields.
Proof. unfold same_fields. split; [by intros p|by intros p q|intros p q r; congruence]. Qed.

Lemma core_set_classes l e :
  List.filter (λ c, negb (bool_decide (c ∈ marks))) l =
    List.filter (λ c, negb (bool_decide (c ∈ marks))) (eclasses e) →
  core (set_classes l e) = core e.
Proof. intros H. unfold core, set_classes, set_aria; simpl. by rewrite H. Qed.

Lemma core_addClass c e : c ∈ marks ∨ c = "" → core (addClass c e) = core e.
Proof.
  intros H. unfold addClass. destruct (_ || _) eqn:Hc; [done|].
  apply orb_false_iff in Hc as [Hne%bool_decide_eq_false _]. destruct H as [H|H]; [|done].
  apply core_set_classes. rewrite List.filter_app. simpl.
  rewrite bool_decide_eq_true_2 by done. simpl. by rewrite app_nil_r.
Qed.

Lemma core_removeClass c e : c ∈ marks → core (removeClass c e) = core e.
Proof.
  intros H. apply core_set_classes.
  induction (eclasses e) as [|x l IH]; simpl; [done|].
  case_bool_decide as Hx; simpl.
  - subst. rewrite IH. by rewrite bool_decide_eq_true_2.
  - by rewrite IH.
Qed.

Lemma core_set_aria b e : core (set_aria b e) = core e.
Proof. done. Qed.

(** A change that keeps the core of one element keeps the fields. *)
Lemma same_fields_alter f i p : (∀ e, core (f e) = core e) → same_fields p (alter f i p).
Proof.
  intros H. unfold same_fields. apply list_eq. intros j. rewrite !list_lookup_fmap.
  destruct (decide (i = j)) as [<-|Hne].
  - rewrite list_lookup_alter_eq. destruct (p !! i); simpl; [by rewrite H|done].
  - by rewrite list_lookup_alter_ne.
Qed.

Lemma same_fields_each f l p : (∀ e, core (f e) = core e) → same_fields p (each f l p).
Proof.
  intros H. unfold each. revert p. induction l as [|i l IH]; intros p; simpl; [done|].
  etrans; [by apply same_fields_alter|apply IH].
Qed.

Lemma marks_error : errorClass S ∈ marks. Proof. unfold marks. set_solver. Qed.
Lemma marks_valid : validClass S ∈ marks. Proof. unfold marks. set_solver. Qed.
Lemma marks_pending : pendingClass S ∈ marks. Proof. unfold marks. set_solver. Qed.

Lemma same_highlight i p : same_fields p (highlight i (errorClass S) (validClass S) p).
Proof.
  apply same_fields_each. intros e. rewrite core_removeClass by apply marks_valid.
  apply core_addClass. left. apply marks_error.
Qed.

Lemma same_unhighlight i c p :
  c = "" ∨ c = validClass S → same_fields p (unhighlight i (errorClass S) c p).
Proof.
  intros Hc. apply same_fields_each. intros e. rewrite core_addClass.
  - apply core_removeClass, marks_error.
  - destruct Hc as [->| ->]; [by right|left; apply marks_valid].
Qed.

Lemma same_resetElement p i : same_fields p (resetElement S p i).
Proof.
  unfold resetElement. etrans; [by apply (same_unhighlight i ""); left|]. case_match; [|done].
  apply same_fields_each. intros e'. apply core_removeClass, marks_valid.
Qed.

Lemma same_resetElements l p : same_fields p (resetElements S l p).
Proof.
  unfold resetElements. revert p. induction l as [|i l IH]; intros p; simpl; [done|].
  etrans; [apply (same_resetElement p i)|apply IH].
Qed.

(** ** What the same fields determine *)

Lemma same_lookup p q i : same_fields p q → core <$> p !! i = core <$> q !! i.
Proof. intros H. rewrite <-!list_lookup_fmap. by rewrite H. Qed.

Lemma same_lookup_Some p q i e :
  same_fields p q → p !! i = Some e → ∃ e', q !! i = Some e' ∧ core e' = core e.
Proof.
  intros H He. pose proof (same_lookup p q i H) as Hl. rewrite He in Hl.
  destruct (q !! i) as [e'|]; [|done]. exists e'. split; [done|]. by apply (inj Some) in Hl.
Qed.

Lemma core_name e e' : core e = core e' → ename e = ename e'.
Proof. intros H. exact (f_equal ename H). Qed.
Lemma core_type e e' : core e = core e' → etype e = etype e'.
Proof. intros H. exact (f_equal etype H). Qed.
Lemma core_ignored e e' : core e = core e' → eignored e = eignored e'.
Proof. intros H. exact (f_equal eignored H). Qed.
End same.

(** The parts of a page that decide which element a name stands for. *)
Definition shape (e : element) : string * string * bool := (ename e, etype e, eignored e).

Lemma same_shape S p q : same_fields S p q → shape <$> p = shape <$> q.
Proof.
  intros H. apply list_eq. intros i. rewrite !list_lookup_fmap.
  pose proof (same_lookup S p q i H) as Hl. destruct (p !! i), (q !! i); try done.
  apply (inj Some) in Hl. unfold shape. simpl.
  by rewrite (core_name S _ _ Hl), (core_type S _ _ Hl), (core_ignored S _ _ Hl).
Qed.

Lemma shape_lookup (p q : page) i e :
  shape <$> p = shape <$> q → p !! i = Some e → ∃ e', q !! i = Some e' ∧ shape e' = shape e.
Proof.
  intros H He. pose proof (f_equal (.!! i) H) as Hl. simpl in Hl.
  rewrite !list_lookup_fmap, He in Hl. destruct (q !! i) as [e'|]; [|done].
  exists e'. split; [done|]. by apply (inj Some) in Hl.
Qed.

Lemma shape_positions P (p q : page) i :
  (∀ e e', shape e = shape e' → P e = P e') → shape <$> p = shape <$> q →
  positions_from P i p = positions_from P i q.
Proof.
  intros HP. revert i q. induction p as [|e p IH]; intros i [|e' q] H; try done.
  rewrite !fmap_cons in H. apply (inj2 cons) in H as [He Hq]. simpl.
  by rewrite (HP e e' He), (IH (Datatypes.S i) q Hq).
Qed.

Lemma shape_name e e' : shape e = shape e' → ename e = ename e'.
Proof. intros H. exact (f_equal (λ x, fst (fst x)) H). Qed.
Lemma shape_checkable e e' : shape e = shape e' → checkable e = checkable e'.
Proof. intros H. unfold checkable. by rewrite (f_equal (λ x, snd (fst x)) H : etype e = etype e'). Qed.
Lemma shape_ignored e e' : shape e = shape e' → eignored e = eignored e'.
Proof. intros H. exact (f_equal snd H). Qed.

Lemma shape_findByName n p q : shape <$> p = shape <$> q → findByName n p = findByName n q.
Proof. apply shape_positions. intros e e' H. by rewrite (shape_name e e' H). Qed.

Lemma shape_ignored_at p q i : shape <$> p = shape <$> q → ignored p i = ignored q i.
Proof.
  intros H. unfold ignored. destruct (p !! i) as [e|] eqn:He.
  - destruct (shape_lookup p q i e H He) as (e' & -> & Hs). symmetry. by apply shape_ignored.
  - assert (q !! i = None) as ->; [|done]. apply lookup_ge_None in He. apply lookup_ge_None.
    by rewrite <-(length_fmap shape q), <-H, length_fmap.
Qed.

Lemma shape_target p q i :
  shape <$> p = shape <$> q → validationTargetFor p i = validationTargetFor q i.
Proof.
  intros H. unfold validationTargetFor. destruct (p !! i) as [e|] eqn:He.
  - destruct (shape_lookup p q i e H He) as (e' & -> & Hs). simpl.
    rewrite (shape_checkable _ _ Hs), (shape_name _ _ Hs), (shape_findByName (ename e) p q H).
    f_equal. apply List.filter_ext. intros j. by rewrite (shape_ignored_at p q j H).
  - assert (q !! i = None) as ->; [|done]. apply lookup_ge_None in He. apply lookup_ge_None.
    by rewrite <-(length_fmap shape q), <-H, length_fmap.
Qed.

(** ** Operations that only touch the appearance *)

Section facts.
Context (E : environment).

Lemma check_dependency_same S i acc kv p :
  same_fields S p (fst acc) → same_fields S p (fst (check_dependency E S i acc kv)).
Proof.
  destruct acc as [q rs], kv as [prop val]. simpl. intros H.
  destruct val as [[]| | | |param depends| | |]; simpl; try done.
  destruct (has_dependency param depends); [|done]. destruct (keepRule E q i depends); [done|].
  simpl. etrans; [exact H|]. apply (same_resetElement S q i).
Qed.

Lemma rules_same S p i : same_fields S p (fst (rules E S p i)).
Proof.
  unfold rules. destruct (p !! i) as [e|]; [|done]. unfold normalizeRules.
  assert (∀ l acc, same_fields S p (fst acc) →
    same_fields S p (fst (fold_left (check_dependency E S i) l acc))) as Hfold.
  { intros l. induction l as [|kv l IH]; intros acc H; simpl; [done|].
    apply IH. by apply check_dependency_same. }
  specialize (Hfold (collected E S e) (p, collected E S e)). simpl in Hfold.
  destruct (fold_left _ _ _) as [p1 rs]. simpl in *. by apply Hfold.
Qed.

(** Messages play no role in the rules. *)
Definition same_settings (S S' : settings) : Prop := set_messages [] S = set_messages [] S'.

Lemma same_settings_messages S m : same_settings S (set_messages m S).
Proof. done. Qed.

Lemma same_settings_spec S S' : same_settings S S' → S' = set_messages (s_messages S') S.
Proof.
  intros H.
  transitivity (set_messages (s_messages S') (set_messages [] S')); [by destruct S'|].
  by rewrite <-H.
Qed.

#[global] Instance same_settings_equiv : Equivalence same_settings.
Proof. unfold same_settings. split; [by intros ?|by intros ??|intros ???; congruence]. Qed.

Lemma rules_settings S S' p i : same_settings S S' → rules E S p i = rules E S' p i.
Proof. by intros ->%same_settings_spec. Qed.

Lemma check_input_settings S S' p t :
  same_settings S S' → check_input E S p t = check_input E S' p t.
Proof. by intros ->%same_settings_spec. Qed.

Lemma same_fields_settings S S' p q : same_settings S S' → same_fields S p q → same_fields S' p q.
Proof. by intros ->%same_settings_spec. Qed.

(** [v'] differs from [v] at most in labels, classes and lists of results other
    than the errors. *)
Record quiet (v v' : validator) : Prop := {
  q_req : req v' = req v;
  q_page : same_fields (v_settings v) (v_page v) (v_page v');
  q_settings : v_settings v' = v_settings v;
  q_outputs : outputs v' = outputs v;
  q_errors : errorList (res v') = errorList (res v);
  q_errorMap : errorMap (res v') = errorMap (res v);
  q_formSubmitted : formSubmitted v' = formSubmitted v;
  q_cancel : cancelSubmit v' = cancelSubmit v
}.

#[global] Instance quiet_preorder : PreOrder quiet.
Proof.
  split; [by intros v; split|]. intros u v w H1 H2. destruct H1, H2.
  split; try (etrans; eassumption). etrans; [eassumption|]. by rewrite <-q_settings0.
Qed.

Lemma quiet_fold {A} (f : validator → A → validator) l v :
  (∀ v x, quiet v (f v x)) → quiet v (fold_left f l v).
Proof.
  intros H. revert v. induction l as [|x l IH]; intros v; simpl; [done|].
  etrans; [apply H|apply IH].
Qed.

Lemma quiet_page p v : same_fields (v_settings v) (v_page v) p → quiet v (set_page p v).
Proof. by split. Qed.

Lemma quiet_labels l v : quiet v (set_labels l v).
Proof. by split. Qed.

Lemma quiet_res f v :
  errorList (f (res v)) = errorList (res v) → errorMap (f (res v)) = errorMap (res v) →
  quiet v (upd_res f v).
Proof. by split. Qed.

Lemma quiet_showLabel i text v : quiet v (showLabel i text v).
Proof.
  unfold showLabel. case_match; [|done]. case_match.
  - etrans; [apply quiet_labels|by apply quiet_res].
  - etrans; [|by apply quiet_res]. apply quiet_labels.
Qed.

Lemma quiet_show_error v x : quiet v (show_error v x).
Proof.
  unfold show_error. etrans; [apply quiet_page, same_highlight|apply quiet_showLabel].
Qed.

Lemma quiet_defaultShowErrors v : quiet v (defaultShowErrors v).
Proof.
  unfold defaultShowErrors, hideErrors, hideThese, each_label.
  etrans; [apply (quiet_fold show_error); apply quiet_show_error|].
  etrans; [apply (quiet_fold unhighlight_one)|].
  { intros w i. apply quiet_page, same_unhighlight. by right. }
  etrans; [|apply quiet_labels]. etrans; [|apply quiet_labels]. by apply quiet_res.
Qed.

Lemma quiet_showErrors v : quiet v (showErrors None v).
Proof. apply quiet_defaultShowErrors. Qed.

Lemma quiet_equalTo value i param v : quiet v (fst (equalTo E value i param v)).
Proof. unfold equalTo. simpl. case_match; [done|by split]. Qed.

Lemma elements_same S l acc p :
  same_fields S p (fst (fst acc)) →
  same_fields S p (fst (fst (fold_left (elements_step E S) l acc))).
Proof.
  revert acc. induction l as [|i l IH]; intros [[q seen] kept] H; simpl; [done|]. apply IH.
  unfold elements_step. destruct (q !! i) as [e|]; [|exact H].
  destruct (_ || _); [exact H|].
  pose proof (rules_same S q i) as Hr. destruct (rules E S q i) as [q' r]. simpl in *.
  destruct (Nat.eqb _ _); simpl; by etrans.
Qed.

Lemma quiet_elements v : quiet v (fst (elements E v)).
Proof.
  unfold elements. pose proof (elements_same (v_settings v) (positions selectable (v_page v))
    (v_page v, [], []) (v_page v)) as H. simpl in H.
  destruct (fold_left _ _ _) as [[p seen] kept]. simpl in *. apply quiet_page. by apply H.
Qed.

(** ** The invariant of the remote requests *)

Definition target (p : page) (i : nat) : Prop := validationTargetFor p i = Some i.

(** Two elements with the same name are radio buttons or checkboxes. *)
Definition distinct_names (p : page) : Prop :=
  ∀ i j e e', p !! i = Some e → p !! j = Some e' → ename e = ename e' →
    i = j ∨ (checkable e = true ∧ checkable e' = true).

(** What the server has answered: the name, the data asked about, the verdict. *)
Abbreviation answers := (list (string * list (string * jval) * bool)).

Definition index_of (v : validator) (i : nat) : option nat := previous_index i (previousOf (req v)).

Record request_ok (v : validator) (rq : request) : Prop := {
  ro_pending : rq_name rq ∈ pending (req v);
  ro_target : target (v_page v) (rq_element rq);
  ro_name : name_of v (rq_element rq) = rq_name rq;
  ro_data : ∃ x, records (req v) !! rq_previous rq = Some x ∧ old x = Some (rq_data rq);
  ro_record : ∀ k, index_of v (rq_element rq) = Some k → k = rq_previous rq;
  ro_own : ∀ i, index_of v i = Some (rq_previous rq) → i = rq_element rq
}.

(** The record of an element is about its last request; when that is answered,
    the verdict it holds is the server's. *)
Record record_ok (acc : answers) (v : validator) (i k : nat) : Prop := {
  rc_target : target (v_page v) i;
  rc_record : ∃ x, records (req v) !! k = Some x ∧
    (name_of v i ∈ pending (req v) ∨
     ∃ d, old x = Some d ∧ (name_of v i, d, pvalid x) ∈ acc)
}.

Record inv (acc : answers) (v : validator) : Prop := {
  inv_count : pendingRequest (req v) = length (pending (req v));
  inv_nodup : NoDup (pending (req v));
  inv_names : distinct_names (v_page v);
  inv_live : ∀ rq, rq ∈ live (req v) → request_ok v rq;
  inv_records : ∀ i k, index_of v i = Some k → record_ok acc v i k;
  inv_inj : ∀ i j k, index_of v i = Some k → index_of v j = Some k → i = j
}.

Lemma name_of_shape v v' i : shape <$> v_page v = shape <$> v_page v' → name_of v i = name_of v' i.
Proof.
  intros H. unfold name_of. destruct (v_page v !! i) as [e|] eqn:He.
  - destruct (shape_lookup _ _ _ _ H He) as (e' & -> & Hs). symmetry. by apply shape_name.
  - assert (v_page v' !! i = None) as ->; [|done]. apply lookup_ge_None in He.
    apply lookup_ge_None. by rewrite <-(length_fmap shape (v_page v')), <-H, length_fmap.
Qed.

Lemma distinct_names_shape p q : shape <$> p = shape <$> q → distinct_names p → distinct_names q.
Proof.
  intros H Hd i j e e' Hi Hj Hn. symmetry in H.
  destruct (shape_lookup _ _ _ _ H Hi) as (f & Hf & Sf).
  destruct (shape_lookup _ _ _ _ H Hj) as (g & Hg & Sg).
  rewrite <-(shape_checkable _ _ Sf), <-(shape_checkable _ _ Sg).
  apply (Hd i j f g Hf Hg). rewrite (shape_name _ _ Sf), (shape_name _ _ Sg). done.
Qed.

(** The invariant reads the requests and the shape of the page. *)
Lemma inv_frame acc v v' :
  req v' = req v → shape <$> v_page v = shape <$> v_page v' → inv acc v → inv acc v'.
Proof.
  intros Hr Hs [Hc Hn Hd Hl Hre Hi].
  assert (∀ i, index_of v' i = index_of v i) as Hix by (intros; unfold index_of; by rewrite Hr).
  assert (∀ i, target (v_page v) i → target (v_page v') i) as Ht.
  { intros i. unfold target. by rewrite (shape_target _ _ i Hs). }
  split; rewrite ?Hr; try done.
  - by eapply distinct_names_shape.
  - intros rq Hrq. destruct (Hl rq Hrq) as [H1 H2 H3 H4 H5 H6].
    split; rewrite ?Hr; auto.
    + by rewrite <-(name_of_shape v v').
    + intros k. rewrite Hix. apply H5.
    + intros i. rewrite Hix. apply H6.
  - intros i k. rewrite Hix. intros Hk. destruct (Hre i k Hk) as [H1 H2].
    split; [auto|]. by rewrite Hr, <-(name_of_shape v v' i Hs).
  - intros i j k. rewrite !Hix. apply Hi.
Qed.

Lemma inv_quiet acc v v' : quiet v v' → inv acc v → inv acc v'.
Proof. intros [Hr Hp _ _ _ _ _ _]. apply inv_frame; [done|by eapply same_shape]. Qed.

Lemma inv_more acc acc' v : acc ⊆ acc' → inv acc v → inv acc' v.
Proof.
  intros Hsub [Hc Hn Hd Hl Hre Hi]. split; try done. intros i k Hk.
  destruct (Hre i k Hk) as [H1 (x & Hx & H2)]. split; [done|]. exists x. split; [done|].
  destruct H2 as [?|(d & ? & ?)]; [by left|]. right. exists d. auto.
Qed.

(** Targets are targets of themselves, and of one element per name. *)
Lemma positions_spec P i p j :
  j ∈ positions_from P i p ↔ ∃ e, i ≤ j ∧ p !! (j - i) = Some e ∧ P e = true.
Proof.
  revert i. induction p as [|e p IH]; intros i; simpl.
  - rewrite elem_of_nil. split; [done|]. intros (e & _ & He & _). by rewrite lookup_nil in He.
  - assert (j ∈ positions_from P (Datatypes.S i) p ↔
      ∃ e', i < j ∧ (e :: p) !! (j - i) = Some e' ∧ P e' = true) as IH'.
    { rewrite IH. split; intros (e' & Hj & He & HP); exists e'; split_and!; try done; try lia.
      - replace (j - i) with (Datatypes.S (j - Datatypes.S i)) by lia. done.
      - replace (j - i) with (Datatypes.S (j - Datatypes.S i)) in He by lia. done. }
    destruct (P e) eqn:He; [rewrite elem_of_cons|]; rewrite IH'; split.
    + intros [->|(e' & ? & ?)]; [exists e; by rewrite Nat.sub_diag|exists e'; split; [lia|done]].
    + intros (e' & Hj & Hl & HP). destruct (decide (j = i)); [by left|]. right. exists e'.
      split; [lia|done].
    + intros (e' & ? & ?). exists e'. split; [lia|done].
    + intros (e' & Hj & Hl & HP). destruct (decide (j = i)) as [->|]; [|exists e'; split; [lia|done]].
      rewrite Nat.sub_diag in Hl. simpl in Hl. congruence.
Qed.

Lemma findByName_spec n p j : j ∈ findByName n p ↔ ∃ e, p !! j = Some e ∧ ename e = n.
Proof.
  unfold findByName, positions. rewrite positions_spec. rewrite Nat.sub_0_r.
  setoid_rewrite bool_decide_eq_true. split; [intros (e & _ & ? & ?)|intros (e & ? & ?)];
    exists e; auto with lia.
Qed.

Lemma target_spec p i t e :
  validationTargetFor p i = Some t → p !! i = Some e →
  target p t ∧ ∃ e', p !! t = Some e' ∧ ename e' = ename e.
Proof.
  intros Ht He. unfold validationTargetFor in Ht. rewrite He in Ht. simpl in Ht.
  set (l := if checkable e then findByName (ename e) p else [i]) in *.
  assert (t ∈ List.filter (λ j, negb (ignored p j)) l) as Hin.
  { destruct (List.filter _ l); simpl in Ht; [done|]. injection Ht as ->. by left. }
  apply list_elem_of_In, List.filter_In in Hin as [Hin Hig]. apply list_elem_of_In in Hin.
  assert (∃ e', p !! t = Some e' ∧ ename e' = ename e) as (e' & He' & Hn).
  { subst l. destruct (checkable e); [by apply findByName_spec|].
    apply list_elem_of_singleton in Hin as ->. by exists e. }
  split; [|by exists e']. unfold target, validationTargetFor. rewrite He'. simpl.
  destruct (checkable e') eqn:Hc'.
  - rewrite Hn. destruct (checkable e) eqn:Hc; [done|]. subst l.
    apply list_elem_of_singleton in Hin as ->. rewrite He in He'. congruence.
  - simpl. by rewrite Hig.
Qed.

Lemma target_unique v i j :
  distinct_names (v_page v) → target (v_page v) i → target (v_page v) j →
  name_of v i = name_of v j → i = j.
Proof.
  intros Hd Hi Hj. unfold name_of.
  unfold target, validationTargetFor in Hi, Hj.
  destruct (v_page v !! i) as [e|] eqn:He; [|done].
  destruct (v_page v !! j) as [e'|] eqn:He'; [|done]. intros Hn.
  destruct (Hd i j e e' He He' Hn) as [?|[Hc Hc']]; [done|].
  simpl in Hi, Hj. rewrite Hc, Hn in Hi. rewrite Hc' in Hj. congruence.
Qed.

(** A new request for a target, with its record updated or made. *)
Lemma inv_new_request acc v v' t k x' data value :
  let name := name_of v t in
  inv acc v → target (v_page v) t → shape <$> v_page v = shape <$> v_page v' →
  (∀ i, index_of v' i = if decide (i = t) then Some k else index_of v i) →
  (index_of v t = Some k ∨ length (records (req v)) ≤ k) →
  records (req v') !! k = Some x' → old x' = Some data →
  (∀ j, j ≠ k → j < length (records (req v)) → records (req v') !! j = records (req v) !! j) →
  (pending (req v') = if bool_decide (name ∈ pending (req v)) then pending (req v)
                      else name :: pending (req v)) →
  pendingRequest (req v') = length (pending (req v')) →
  live (req v') = Request name t k value data ::
    List.filter (λ x, negb (bool_decide (rq_name x = name))) (live (req v)) →
  inv acc v'.
Proof.
  intros name [Hc Hn Hd Hl Hre Hi] Ht Hs Hix Hk Hx' Hold Hrec Hpe Hcount Hlive.
  assert (∀ n, n ∈ pending (req v) → n ∈ pending (req v')) as Hsub.
  { intros n. rewrite Hpe. case_bool_decide; [done|]. by right. }
  assert (name ∈ pending (req v')) as Hname.
  { rewrite Hpe. case_bool_decide; [done|by left]. }
  assert (∀ i, name_of v' i = name_of v i) as Hno by (intros i; symmetry; by apply name_of_shape).
  assert (∀ i, target (v_page v) i → target (v_page v') i) as Htg.
  { intros i. unfold target. by rewrite (shape_target _ _ i Hs). }
  (* the index k belongs to t alone *)
  assert (∀ i, i ≠ t → index_of v i ≠ Some k) as Hown.
  { intros i Hne Hik. destruct Hk as [Hk|Hk]; [by apply Hne, (Hi i t k)|].
    destruct (Hre i k Hik) as [_ (x & Hx & _)]. apply lookup_lt_Some in Hx. lia. }
  assert (∀ rq, rq ∈ live (req v) → rq_name rq ≠ name →
    rq_element rq ≠ t ∧ rq_previous rq ≠ k ∧ rq_previous rq < length (records (req v))) as Hother.
  { intros rq Hrq Hne. destruct (Hl rq Hrq) as [_ _ Hrn (x & Hx & _) _ Hro].
    apply lookup_lt_Some in Hx as Hlt. split_and!; [|intros Heq|done].
    - intros Heq. apply Hne. by rewrite <-Hrn, Heq.
    - destruct Hk as [Hk|Hk]; [|lia]. apply Hne. rewrite <-Hrn. f_equal. symmetry.
      apply Hro. by rewrite Heq. }
  split; try done.
  - rewrite Hpe. case_bool_decide; [done|by constructor].
  - by eapply distinct_names_shape.
  - intros rq. rewrite Hlive. intros [->|Hrq]%elem_of_cons.
    + split; simpl; auto.
      * by exists x'.
      * intros k'. rewrite Hix, decide_True by done. congruence.
      * intros i. rewrite Hix. destruct (decide (i = t)) as [Heq|Hne]; [intros _; exact Heq|]. intros ?. by destruct (Hown i).
    + apply list_elem_of_In, List.filter_In in Hrq as [Hrq Hne]. apply list_elem_of_In in Hrq.
      apply negb_true_iff, bool_decide_eq_false in Hne.
      destruct (Hother rq Hrq Hne) as (Het & Hpk & Hlt).
      destruct (Hl rq Hrq) as [H1 H2 H3 (x & Hx & Hxo) H5 H6]. split; auto.
      * by rewrite Hno.
      * exists x. split; [|done]. rewrite Hrec; done.
      * intros k'. rewrite Hix, decide_False by done. apply H5.
      * intros i. rewrite Hix. destruct (decide (i = t)); [|apply H6]. intros [= Hkk]. by destruct Hpk.
  - intros i k'. rewrite Hix. destruct (decide (i = t)) as [Hit|Hit].
    + intros [= <-]. subst i. split; [auto|]. exists x'. split; [done|]. left. by rewrite Hno.
    + intros Hik. destruct (Hre i k' Hik) as [H1 (x & Hx & H2)].
      apply lookup_lt_Some in Hx as Hlt. assert (k' ≠ k) as Hkk by (intros ->; by apply (Hown i)).
      split; [auto|]. exists x. rewrite Hrec by done. rewrite Hno. split; [done|].
      destruct H2 as [?|?]; [left; auto|by right].
  - intros i j k'. rewrite !Hix. destruct (decide (i = t)), (decide (j = t)); intros; simplify_eq; try done.
    + by destruct (Hown j).
    + by destruct (Hown i).
    + by eapply Hi.
Qed.

(** What checking may change besides the appearance: messages, requests. *)
Record advances (v v' : validator) : Prop := {
  ad_page : same_fields (v_settings v) (v_page v) (v_page v');
  ad_settings : same_settings (v_settings v) (v_settings v');
  ad_outputs : outputs v' = outputs v;
  ad_formSubmitted : formSubmitted v' = formSubmitted v;
  ad_cancel : cancelSubmit v' = cancelSubmit v;
  ad_pending : pending (req v) ⊆ pending (req v')
}.

#[global] Instance advances_preorder : PreOrder advances.
Proof.
  split; [by intros v; split|]. intros u v w [H1 H2 H3 H4 H5 H6] [G1 G2 G3 G4 G5 G6].
  split; [|by etrans|congruence|congruence|congruence|by etrans].
  etrans; [exact H1|]. eapply same_fields_settings; [symmetry; exact H2|exact G1].
Qed.

Lemma advances_quiet v v' : quiet v v' → advances v v'.
Proof. intros [Hr Hp Hs Ho _ _ Hf Hc]. split; try done; by rewrite ?Hs, ?Hr. Qed.

Lemma put_remote_message_same name m S : same_settings S (put_remote_message name m S).
Proof. unfold put_remote_message. repeat case_match; done. Qed.

Lemma inv_settings acc v S : inv acc v → inv acc (set_settings S v).
Proof. by apply inv_frame. Qed.

(** Updating what the invariant does not read of a record. *)
Lemma inv_set_record acc v k x y :
  inv acc v → records (req v) !! k = Some x → old y = old x →
  (pvalid y = pvalid x ∨
    ∀ i d, index_of v i = Some k → old x = Some d → (name_of v i, d, pvalid y) ∈ acc) →
  inv acc (set_record k y v).
Proof.
  intros [Hc Hn Hd Hl Hre Hi] Hx Hold Hval.
  assert (k < length (records (req v))) as Hlt by by eapply lookup_lt_Some.
  split; try done.
  - intros rq Hrq. destruct (Hl rq Hrq) as [H1 H2 H3 (z & Hz & Hzo) H5 H6]. split; try done.
    simpl. destruct (decide (rq_previous rq = k)) as [Heq|Hne].
    + rewrite Heq in Hz |- *. exists y. rewrite list_lookup_insert_eq by done. split; [done|]. rewrite Hold. congruence.
    + exists z. by rewrite list_lookup_insert_ne by done.
  - intros i k' Hik. destruct (Hre i k' Hik) as [H1 (z & Hz & H2)]. split; [done|].
    simpl. destruct (decide (k' = k)) as [->|Hne].
    + exists y. rewrite list_lookup_insert_eq by done. split; [done|].
      destruct H2 as [?|(d & Hzo & Hzv)]; [by left|]. right. exists d.
      assert (z = x) as -> by congruence. split; [congruence|].
      destruct Hval as [->|Hall]; [done|]. by apply (Hall i d).
    + exists z. by rewrite list_lookup_insert_ne by done.
Qed.

(** ** Remote checks *)

Definition verdict_ok (acc : answers) (p : page) (value : jval) (t : nat) (e : element)
    (param : rvalue) (v' : validator) (r : mresult) : Prop :=
  match r with
  | MMismatch => optional E p t e = true
  | MTrue => ename e ∈ pending (req v') ∨ (ename e, optionData E p value param, true) ∈ acc
  | MFalse => ename e ∈ pending (req v') ∨ (ename e, optionData E p value param, false) ∈ acc
  | MPending => ename e ∈ pending (req v')
  end.

Lemma startRequest_spec t v :
  let name := name_of v t in
  let v' := startRequest t v in
  same_fields (v_settings v) (v_page v) (v_page v') ∧
  pending (req v') = (if bool_decide (name ∈ pending (req v)) then pending (req v)
                      else name :: pending (req v)) ∧
  pendingRequest (req v') = (if bool_decide (name ∈ pending (req v)) then pendingRequest (req v)
                             else S (pendingRequest (req v))) ∧
  previousOf (req v') = previousOf (req v) ∧ records (req v') = records (req v) ∧
  live (req v') = live (req v) ∧ v_settings v' = v_settings v ∧ outputs v' = outputs v ∧
  res v' = res v ∧ formSubmitted v' = formSubmitted v ∧ cancelSubmit v' = cancelSubmit v.
Proof.
  cbv zeta. unfold startRequest. case_bool_decide; [done|]. simpl. split_and!; try done.
  apply same_fields_alter. intros e. apply core_addClass. left. apply marks_pending.
Qed.

Lemma previous_index_cons t k l i :
  previous_index i ((t, k) :: l) = if decide (i = t) then Some k else previous_index i l.
Proof.
  simpl. destruct (Nat.eqb_spec t i) as [->|]; [by rewrite decide_True|].
  by rewrite decide_False by done.
Qed.

(** Sending a request from a state in which the record is already written. *)
Lemma send_request acc v v3 t k y data value :
  inv acc v → target (v_page v) t → v_page v3 = v_page v →
  pendingRequest (req v3) = pendingRequest (req v) → pending (req v3) = pending (req v) →
  live (req v3) = live (req v) →
  (∀ i, index_of v3 i = if decide (i = t) then Some k else index_of v i) →
  (index_of v t = Some k ∨ length (records (req v)) ≤ k) →
  records (req v3) !! k = Some y → old y = Some data →
  (∀ j, j ≠ k → j < length (records (req v)) → records (req v3) !! j = records (req v) !! j) →
  let v' := ajax (Request (name_of v t) t k value data) (startRequest t v3) in
  inv acc v' ∧ name_of v t ∈ pending (req v') ∧ pending (req v) ⊆ pending (req v').
Proof.
  intros Hinv Ht Hp Hpr Hpe Hli Hix Hk Hy Hold Hrec v'.
  assert (name_of v3 t = name_of v t) as Hn by (unfold name_of; by rewrite Hp).
  destruct (startRequest_spec t v3) as (Hsf & H1 & H2 & H3 & H4 & H5 & _).
  rewrite Hn, Hpe in H1, H2. rewrite Hpr in H2.
  assert (pendingRequest (req v') = length (pending (req v'))) as Hcount.
  { unfold v', ajax. simpl. rewrite H1, H2, (inv_count _ _ Hinv). by case_bool_decide. }
  assert (inv acc v') as Hv'.
  { eapply (inv_new_request acc v v' t k y data value); try done.
    - unfold v', ajax. simpl. rewrite <-Hp. by eapply same_shape.
    - intros i. rewrite <-Hix. unfold index_of, v', ajax. simpl. by rewrite H3.
    - unfold v', ajax. simpl. by rewrite H4.
    - intros j Hj Hl. unfold v', ajax. simpl. rewrite H4. by apply Hrec.
    - unfold v', ajax. simpl. by rewrite H5, Hli. }
  split; [done|]. unfold v', ajax. simpl. rewrite H1.
  case_bool_decide as Hin; [done|]. split; [by left|]. intros n Hn'. by right.
Qed.

Lemma advances_send v v3 t rq :
  v_page v3 = v_page v → same_settings (v_settings v) (v_settings v3) → outputs v3 = outputs v →
  formSubmitted v3 = formSubmitted v → cancelSubmit v3 = cancelSubmit v →
  pending (req v) ⊆ pending (req (ajax rq (startRequest t v3))) →
  advances v (ajax rq (startRequest t v3)) ∧ res (ajax rq (startRequest t v3)) = res v3.
Proof.
  intros Hp Hs Ho Hf Hc Hpend.
  destruct (startRequest_spec t v3) as (G1 & _ & _ & _ & _ & _ & G2 & G3 & G4 & G5 & G6).
  split; [|exact G4]. split; [| |by rewrite <-Ho|by rewrite <-Hf|by rewrite <-Hc|exact Hpend].
  - simpl. rewrite <-Hp. eapply same_fields_settings; [symmetry; exact Hs|exact G1].
  - simpl. by rewrite G2.
Qed.

Lemma remote_spec acc v t e value param v' r :
  inv acc v → target (v_page v) t → name_of v t = ename e →
  remote E value t e param v = (v', r) →
  inv acc v' ∧ advances v v' ∧ res v' = res v ∧ verdict_ok acc (v_page v) value t e param v' r.
Proof.
  intros Hinv Ht Hn. unfold remote.
  destruct (optional E (v_page v) t e) eqn:Hopt; [by intros [= <- <-]|].
  unfold previousValue. destruct (previous_index t (previousOf (req v))) as [k|] eqn:Hix.
  - destruct (inv_records _ _ Hinv t k Hix) as [_ (x & Hx & Hcase)].
    cbn iota beta. rewrite Hx.
    assert (k < length (records (req v))) as Hlt by by eapply lookup_lt_Some.
    set (S2 := put_remote_message _ _ _). cbv zeta. cbn [v_page set_settings].
    case_bool_decide as Hold.
    + intros [= <- <-]. set (y := Previous _ _ _ _). split_and!.
      * apply (inv_set_record acc (set_settings S2 v) k x); [by apply inv_settings|done|done|by left].
      * split; try done. apply put_remote_message_same.
      * done.
      * destruct Hcase as [Hpend|(d & Hd & Hacc)].
        -- rewrite Hn in Hpend. by destruct (pvalid x); simpl; left.
        -- assert (d = optionData E (v_page v) value param) as -> by congruence.
           rewrite Hn in Hacc. by destruct (pvalid x); simpl; right.
    + set (y := Previous (Some _) _ _ _). intros [= <- <-]. rewrite <-Hn.
      set (v3 := set_record k y (set_settings S2 v)).
      destruct (send_request acc v v3 t k y (optionData E (v_page v) value param) value)
        as (H1 & H2 & H3); try done.
      * intros i. unfold index_of. simpl. by case_decide as Hi; [subst|].
      * by left.
      * simpl. by rewrite list_lookup_insert_eq.
      * intros j Hj _. simpl. by rewrite list_lookup_insert_ne.
      * destruct (advances_send v v3 t (Request (name_of v t) t k value
          (optionData E (v_page v) value param))); try done; [apply put_remote_message_same|].
        split_and!; [done|done|done|]. unfold verdict_ok. by rewrite <-Hn.
  - set (text := defaultMessage _ _ _ _ _ _). set (k := length (records (req v))).
    set (v1 := upd_req _ v). cbn iota beta.
    assert (records (req v1) !! k = Some (Previous None true text None)) as Hx.
    { unfold v1, upd_req. simpl. by rewrite lookup_app_r, Nat.sub_diag by done. }
    rewrite Hx. set (S2 := put_remote_message _ _ _). cbv zeta. cbn [v_page set_settings old].
    rewrite bool_decide_eq_false_2 by done.
    set (y := Previous (Some _) _ _ _). intros [= <- <-]. rewrite <-Hn.
    set (v3 := set_record k y (set_settings S2 v1)).
    destruct (send_request acc v v3 t k y (optionData E (v_page v) value param) value)
      as (H1 & H2 & H3); try done.
    + intros i. unfold index_of. simpl. apply previous_index_cons.
    + by right.
    + simpl. rewrite list_lookup_insert_eq; [done|]. rewrite length_app. simpl. lia.
    + intros j Hj Hl. simpl. rewrite list_lookup_insert_ne by done. by rewrite lookup_app_l.
    + destruct (advances_send v v3 t (Request (name_of v t) t k value
        (optionData E (v_page v) value param))); try done; [apply put_remote_message_same|].
        split_and!; [done|done|done|]. unfold verdict_ok. by rewrite <-Hn.
Qed.

(** ** Checking an element *)

(** Rule [r] accepts, or rejects, the value [val] of element [t] on page [q]; for
    the names in [pend] the server's verdict is awaited. *)
Definition accepts_rule (acc : answers) (pend : list string) (q : page) (val : jval) (t : nat) (e : element)
    (r : string * rvalue) : Prop :=
  match obj_get (fst r) (methods E) with
  | None => False
  | Some (Reads f) => f q val t e (snd r) = Some MTrue ∨ f q val t e (snd r) = Some MMismatch
  | Some EqualTo => same_as_target E q val (snd r) = true
  | Some Remote =>
      optional E q t e = true ∨ ename e ∈ pend ∨ (ename e, optionData E q val (snd r), true) ∈ acc
  end.

Definition rejects_rule (acc : answers) (pend : list string) (q : page) (val : jval) (t : nat) (e : element)
    (r : string * rvalue) : Prop :=
  match obj_get (fst r) (methods E) with
  | None => False
  | Some (Reads f) => f q val t e (snd r) = Some MFalse
  | Some EqualTo => same_as_target E q val (snd r) = false
  | Some Remote => ename e ∈ pend ∨ (ename e, optionData E q val (snd r), false) ∈ acc
  end.

(** Rule [r] asks the server and waits for the answer. *)
Definition awaits (pend : list string) (e : element) (r : string * rvalue) : Prop :=
  obj_get (fst r) (methods E) = Some Remote ∧ ename e ∈ pend.

Lemma accepts_mono acc pend pend' q val t e r :
  pend ⊆ pend' → accepts_rule acc pend q val t e r → accepts_rule acc pend' q val t e r.
Proof.
  unfold accepts_rule. intros H. destruct (obj_get _ _) as [[]|]; auto. intros [?|[?|?]]; auto.
Qed.

Lemma obj_get_Forall {A} (P : A → Prop) (o : list (string * A)) k x :
  Forall (λ kv, P (snd kv)) o → obj_get k o = Some x → P x.
Proof.
  induction 1 as [|[k' x'] o Hx _ IH]; simpl; [done|]. case_bool_decide; [by intros [= <-]|done].
Qed.

Lemma obj_put_Forall {A} (P : A → Prop) (o : list (string * A)) k x :
  Forall (λ kv, P (snd kv)) o → P x → Forall (λ kv, P (snd kv)) (obj_put k x o).
Proof.
  intros H Hx. induction H as [|[k' x'] o Hx' Ho IH]; simpl; [by repeat constructor|].
  case_bool_decide; by constructor.
Qed.

Lemma extend_Forall {A} (P : A → Prop) (o o2 : list (string * A)) :
  Forall (λ kv, P (snd kv)) o → Forall (λ kv, P (snd kv)) o2 →
  Forall (λ kv, P (snd kv)) (extend o o2).
Proof.
  intros Ho H2. unfold extend. revert o Ho.
  induction H2 as [|[k x] o2 Hx _ IH]; intros o Ho; simpl; [done|].
  apply IH. by apply obj_put_Forall.
Qed.

Lemma methods_not_pending name f q val t e param :
  obj_get name (methods E) = Some (Reads f) → f q val t e param ≠ Some MPending.
Proof.
  assert (∀ p i e b, unless_optional E p i e b ≠ MPending) as Huo.
  { intros p i e' b. unfold unless_optional, of_bool. by repeat case_match. }
  intros Hget. set (P := λ m : method, ∀ g, m = Reads g →
    ∀ q val t e param, g q val t e param ≠ Some MPending).
  refine (obj_get_Forall P _ _ _ _ Hget f eq_refl q val t e param). clear Hget.
  apply extend_Forall.
  - unfold builtin_methods, optional_or. repeat apply Forall_cons_2; try apply Forall_nil_2; simpl;
      intros g [= <-]; intros; try (intros [= Hp]; by apply Huo in Hp).
    + unfold required, of_bool. by repeat case_match.
    + unfold step. case_match; [intros [= Hp]; by apply Huo in Hp|done].
  - apply Forall_fmap, Forall_forall. intros [n h] _. simpl. intros g [= <-] ?????.
    intros (r & _ & Hr)%fmap_Some. unfold of_bool in Hr. by repeat case_match.
Qed.

Definition errors_same (v v' : validator) : Prop :=
  errorList (res v') = errorList (res v) ∧ errorMap (res v') = errorMap (res v).

(** What one rule's method does. *)
Definition run_method (t : nat) (e : element) (val : jval) (r : string * rvalue) (v : validator)
    : validator * option mresult :=
  match obj_get (fst r) (methods E) with
  | None => (v, None)
  | Some (Reads f) => (v, f (v_page v) val t e (snd r))
  | Some EqualTo => let '(w, x) := equalTo E val t (snd r) v in (w, Some x)
  | Some Remote => let '(w, x) := remote E val t e (snd r) v in (w, Some x)
  end.

Lemma run_method_spec acc t e val r v v' o :
  inv acc v → target (v_page v) t → name_of v t = ename e →
  run_method t e val r v = (v', o) →
  inv acc v' ∧ advances v v' ∧ errors_same v v' ∧
  match o with
  | None => True
  | Some MPending => awaits (pending (req v')) e r
  | Some MFalse => rejects_rule acc (pending (req v')) (v_page v) val t e r
  | Some _ => accepts_rule acc (pending (req v')) (v_page v) val t e r
  end.
Proof.
  intros Hinv Ht Hn. unfold run_method, accepts_rule, rejects_rule.
  destruct (obj_get (fst r) (methods E)) as [[f| |]|] eqn:Hm.
  - intros [= <- <-]. split_and!; [done|done|done|].
    destruct (f (v_page v) val t e (snd r)) as [[]|] eqn:Hf; try done.
    + by left.
    + by right.
    + by destruct (methods_not_pending _ _ _ _ _ _ _ Hm Hf).
  - pose proof (quiet_equalTo val t (snd r) v) as Hq.
    destruct (equalTo E val t (snd r) v) as [w x] eqn:Heq. simpl in Hq. intros [= <- <-].
    split_and!; [by eapply inv_quiet|by apply advances_quiet|split; apply Hq|].
    unfold equalTo in Heq. injection Heq as _ <-.
    by destruct (same_as_target E (v_page v) val (snd r)).
  - destruct (remote E val t e (snd r) v) as [w x] eqn:Heq. intros [= <- <-].
    destruct (remote_spec acc v t e val (snd r) w x Hinv Ht Hn Heq) as (H1 & H2 & H3 & H4).
    split_and!; [done|done|unfold errors_same; by rewrite H3|].
    destruct x; simpl in H4; [by right|done|by left|by split].
  - intros [= <- <-]. done.
Qed.

Lemma check_rules_cons t e val n r rs m v :
  check_rules E t e val n (r :: rs) m v =
    let '(v1, result) := run_method t e val r v in
    match result with
    | None => (v1, inl CThrow)
    | Some MMismatch =>
        if Nat.eqb n 1 then check_rules E t e val n rs true v1 else check_rules E t e val n rs false v1
    | Some MPending => (upd_res (λ r, set_toHide (not_in (toHide r) (errorsFor v1 t)) r) v1, inl CUndefined)
    | Some MFalse => (formatAndAdd E t e (fst r) (snd r) v1, inl CFalse)
    | Some MTrue => check_rules E t e val n rs false v1
    end.
Proof. by destruct r. Qed.

Lemma advances_target v v' t : advances v v' → target (v_page v) t → target (v_page v') t.
Proof. intros H. unfold target. by rewrite (shape_target _ _ t (same_shape _ _ _ (ad_page _ _ H))). Qed.

Lemma advances_name v v' t : advances v v' → name_of v' t = name_of v t.
Proof. intros H. symmetry. apply name_of_shape. eapply same_shape, H. Qed.

(** Some page with the fields of [v] satisfies [P]. *)
Definition on_fields (S : settings) (p : page) (P : page → Prop) : Prop :=
  ∃ q, same_fields S p q ∧ P q.

Lemma on_fields_advances v v' P :
  advances v v' → on_fields (v_settings v') (v_page v') P → on_fields (v_settings v) (v_page v) P.
Proof.
  intros H (q & Hq & HP). exists q. split; [|done].
  etrans; [apply H|]. eapply same_fields_settings; [symmetry; apply H|done].
Qed.

Lemma on_fields_here S p (P : page → Prop) : P p → on_fields S p P.
Proof. intros HP. by exists p. Qed.

Lemma formatAndAdd_errors t e name param v :
  ∃ text, errorList (res (formatAndAdd E t e name param v)) =
            errorList (res v) ++ [VError text t (Some name)] ∧
          errorMap (res (formatAndAdd E t e name param v)) = obj_put (ename e) text (errorMap (res v)).
Proof. by eexists. Qed.

Lemma advances_formatAndAdd t e name param v : advances v (formatAndAdd E t e name param v).
Proof. by split. Qed.

(** What the rules come to: all accept; all accept up to one that awaits the
    server; all accept up to [name], which rejects. *)
Section verdicts.
Context (acc : answers) (pend : list string) (S : settings) (p : page).
Context (val : jval) (t : nat) (e : element).

Definition all_accept (rs : rules_object) : Prop :=
  ∀ r, r ∈ rs → on_fields S p (λ q, accepts_rule acc pend q val t e r).
Definition one_awaits (rs : rules_object) : Prop :=
  ∃ pre r post, rs = pre ++ r :: post ∧ all_accept pre ∧ awaits pend e r.
Definition first_rejecting (rs : rules_object) (name : string) : Prop :=
  ∃ pre r post, rs = pre ++ r :: post ∧ all_accept pre ∧ fst r = name ∧
    on_fields S p (λ q, rejects_rule acc pend q val t e r).

Lemma all_accept_nil : all_accept [].
Proof. intros r Hr. by apply elem_of_nil in Hr. Qed.

Lemma all_accept_cons r rs :
  on_fields S p (λ q, accepts_rule acc pend q val t e r) → all_accept rs → all_accept (r :: rs).
Proof. intros H1 H2 r' [->|Hr']%elem_of_cons; [done|by apply H2]. Qed.
End verdicts.

Lemma on_fields_same S p q P : same_fields S p q → on_fields S q P → on_fields S p P.
Proof. intros H (r & Hr & HP). exists r. split; [by etrans|done]. Qed.

Lemma all_accept_same acc pend S p q val t e rs :
  same_fields S p q → all_accept acc pend S q val t e rs → all_accept acc pend S p val t e rs.
Proof. intros H Ha r Hr. eapply on_fields_same; [done|by apply Ha]. Qed.

Lemma first_rejecting_same acc pend S p q val t e rs name :
  same_fields S p q → first_rejecting acc pend S q val t e rs name →
  first_rejecting acc pend S p val t e rs name.
Proof.
  intros H (pre & r & post & -> & Hpre & Hr & Hrej). exists pre, r, post.
  split_and!; [done|by eapply all_accept_same|done|by eapply on_fields_same].
Qed.

Lemma one_awaits_same acc pend S p q val t e rs :
  same_fields S p q → one_awaits acc pend S q val t e rs → one_awaits acc pend S p val t e rs.
Proof.
  intros H (pre & r & post & -> & Hpre & Hr). exists pre, r, post.
  split_and!; [done|by eapply all_accept_same|done].
Qed.

Definition check_outcome (acc : answers) (v : validator) (t : nat) (e : element) (val : jval)
    (rs : rules_object) (v' : validator) (o : outcome + bool) : Prop :=
  let pend := pending (req v') in
  match o with
  | inr _ => errors_same v v' ∧ all_accept acc pend (v_settings v) (v_page v) val t e rs
  | inl CUndefined =>
      errors_same v v' ∧ one_awaits acc pend (v_settings v) (v_page v) val t e rs
  | inl CFalse =>
      ∃ text name, errorList (res v') = errorList (res v) ++ [VError text t (Some name)] ∧
        errorMap (res v') = obj_put (ename e) text (errorMap (res v)) ∧
        first_rejecting acc pend (v_settings v) (v_page v) val t e rs name
  | inl CTrue => False
  | inl CThrow => True
  end.

Lemma all_accept_advances acc pend v v1 val t e r rs :
  advances v v1 → accepts_rule acc pend (v_page v) val t e r →
  all_accept acc pend (v_settings v1) (v_page v1) val t e rs →
  all_accept acc pend (v_settings v) (v_page v) val t e (r :: rs).
Proof.
  intros Ha Hr Hall. apply all_accept_cons; [by apply on_fields_here|].
  intros r' Hr'. eapply on_fields_advances; [done|]. by apply Hall.
Qed.

Lemma check_outcome_cons acc v v1 t e val r rs v' o :
  advances v v1 → errors_same v v1 → advances v1 v' →
  accepts_rule acc (pending (req v1)) (v_page v) val t e r →
  check_outcome acc v1 t e val rs v' o → check_outcome acc v t e val (r :: rs) v' o.
Proof.
  intros Ha [He Hm] Ha' Hr Ho.
  eapply accepts_mono in Hr; [|exact (ad_pending _ _ Ha')].
  unfold check_outcome, errors_same in *. destruct o as [[]|b].
  - done.
  - destruct Ho as (text & name & H1 & H2 & pre & x & post & -> & Hpre & Hx & Hrej).
    exists text, name. rewrite H1, H2, He, Hm. split_and!; [done|done|].
    exists (r :: pre), x, post. split_and!; [done|by eapply all_accept_advances|done|].
    by eapply on_fields_advances.
  - rewrite <-He, <-Hm. destruct Ho as [Hs (pre & x & post & -> & Hpre & Hx)]. split; [done|].
    exists (r :: pre), x, post. split_and!; [done|by eapply all_accept_advances|done].
  - done.
  - rewrite <-He, <-Hm. destruct Ho as [Hs Hall]. split; [done|]. by eapply all_accept_advances.
Qed.

Lemma check_rules_spec acc t e val n rs m v v' o :
  inv acc v → target (v_page v) t → name_of v t = ename e →
  check_rules E t e val n rs m v = (v', o) →
  inv acc v' ∧ advances v v' ∧ check_outcome acc v t e val rs v' o.
Proof.
  revert m v. induction rs as [|r rs IH]; intros m v Hinv Ht Hn.
  { simpl. intros [= <- <-]. split_and!; [done|done|]. split; [done|]. apply all_accept_nil. }
  rewrite check_rules_cons. destruct (run_method t e val r v) as [v1 result] eqn:Hrun.
  destruct (run_method_spec acc t e val r v v1 result Hinv Ht Hn Hrun) as (Hi & Ha & He & Hres).
  assert (∀ m', check_rules E t e val n rs m' v1 = (v', o) →
    accepts_rule acc (pending (req v1)) (v_page v) val t e r →
    inv acc v' ∧ advances v v' ∧ check_outcome acc v t e val (r :: rs) v' o) as Hrest.
  { intros m' Hc Hr. destruct (IH m' v1) as (H1 & H2 & H3); try done.
    - by eapply advances_target.
    - by rewrite (advances_name _ _ _ Ha).
    - split_and!; [done|by etrans|]. by eapply check_outcome_cons. }
  destruct result as [[]|].
  - intros Hc. by apply (Hrest _ Hc).
  - intros [= <- <-]. split_and!.
    + by eapply inv_frame, Hi.
    + etrans; [exact Ha|apply advances_formatAndAdd].
    + destruct (formatAndAdd_errors t e (fst r) (snd r) v1) as (text & H1 & H2).
      exists text, (fst r). destruct He as [He1 He2]. rewrite H1, H2, He1, He2.
      split_and!; [done|done|]. exists [], r, rs.
      split_and!; [done|apply all_accept_nil|done|by apply on_fields_here].
  - destruct (Nat.eqb n 1); intros Hc; by apply (Hrest _ Hc).
  - intros [= <- <-]. split_and!.
    + by eapply inv_quiet, Hi; apply quiet_res.
    + etrans; [exact Ha|]. by apply advances_quiet, quiet_res.
    + split; [done|]. exists [], r, rs. split_and!; [done|apply all_accept_nil|done].
  - intros [= <- <-]. done.
Qed.

(** The verdict [P] on element [i], target [t], of the form [p]. *)
Definition judged (S : settings) (p : page) (i t : nat)
    (P : jval → element → rules_object → Prop) : Prop :=
  validationTargetFor p i = Some t ∧
  on_fields S p (λ q, ∃ p1 e val n rs,
    check_input E S q t = (p1, Some (e, val, n, rs)) ∧ P val e rs).

Lemma judged_same S p q i t (P Q : jval → element → rules_object → Prop) :
  same_fields S p q → (∀ val e rs, P val e rs → Q val e rs) →
  judged S q i t P → judged S p i t Q.
Proof.
  intros H HPQ (Ht & Hon). split; [by rewrite (shape_target p q i (same_shape _ _ _ H))|].
  eapply on_fields_same; [done|]. destruct Hon as (q' & Hq' & p1 & e & val & n & rs & Hin & HP).
  exists q'. split; [done|]. exists p1, e, val, n, rs. split; [done|]. by apply HPQ.
Qed.

(** Element [i] passes all its rules; awaits the server; is rejected by [name]. *)
Definition passes (acc : answers) (pend : list string) (S : settings) (p : page) (i t : nat) : Prop :=
  judged S p i t (λ val e rs, all_accept acc pend S p val t e rs).
Definition waits (acc : answers) (pend : list string) (S : settings) (p : page) (i t : nat) : Prop :=
  judged S p i t (λ val e rs, one_awaits acc pend S p val t e rs).
Definition fails (acc : answers) (pend : list string) (S : settings) (p : page) (i t : nat)
    (name : string) : Prop :=
  judged S p i t (λ val e rs, first_rejecting acc pend S p val t e rs name).

Lemma check_input_page S p t : same_fields S p (fst (check_input E S p t)).
Proof.
  unfold check_input. pose proof (rules_same S p t) as H.
  by destruct (rules E S p t) as [p1 rs].
Qed.

Lemma check_input_name S p t p1 e val n rs :
  check_input E S p t = (p1, Some (e, val, n, rs)) → p1 !! t = Some e.
Proof.
  unfold check_input. destruct (rules E S p t) as [q rs']. intros [= <- H].
  apply bind_Some in H as (e' & He & H). by repeat case_match; simplify_eq.
Qed.

Lemma check_spec acc i v v' o :
  inv acc v → check E i v = (v', o) →
  let pend := pending (req v') in
  let S := v_settings v in let p := v_page v in
  inv acc v' ∧ advances v v' ∧
  match o with
  | CTrue => errors_same v v' ∧ ∃ t, passes acc pend S p i t
  | CUndefined => errors_same v v' ∧ ∃ t, passes acc pend S p i t ∨ waits acc pend S p i t
  | CFalse =>
      ∃ text name t, errorList (res v') = errorList (res v) ++ [VError text t (Some name)] ∧
        errorMap (res v') = obj_put (name_of v t) text (errorMap (res v)) ∧
        fails acc pend S p i t name
  | CThrow => True
  end.
Proof.
  intros Hinv Hcheck. cbv zeta. revert Hcheck. unfold check.
  destruct (validationTargetFor (v_page v) i) as [t|] eqn:Htg; [|by intros [= <- <-]].
  pose proof (check_input_page (v_settings v) (v_page v) t) as Hsame.
  destruct (check_input E (v_settings v) (v_page v) t) as [p input] eqn:Hin. simpl in Hsame.
  assert (quiet v (set_page p v)) as Hq by by apply quiet_page.
  destruct input as [[[[e val] n] rs]|]; [|intros [= <- <-]; split_and!;
    [by eapply inv_quiet|by apply advances_quiet|done]].
  assert (target p t ∧ name_of (set_page p v) t = ename e) as [Ht Hn].
  { pose proof (check_input_name _ _ _ _ _ _ _ _ Hin) as He. unfold name_of. simpl. rewrite He.
    split; [|done]. unfold target. rewrite <-(shape_target _ _ t (same_shape _ _ _ Hsame)).
    destruct (v_page v !! i) as [e0|] eqn:He0; [|unfold validationTargetFor in Htg; by rewrite He0 in Htg].
    by destruct (target_spec _ _ _ _ Htg He0) as [? _]. }
  assert (name_of v t = ename e) as Hn'.
  { rewrite <-Hn. symmetry. exact (advances_name v (set_page p v) t (advances_quiet _ _ Hq)). }
  destruct (check_rules E t e val n rs false (set_page p v)) as [v1 o1] eqn:Hc.
  destruct (check_rules_spec acc t e val n rs false (set_page p v) v1 o1) as (H1 & H2 & H3);
    [by eapply inv_quiet|done|done|done|].
  assert (advances v v1) as Ha by (etrans; [by apply advances_quiet|done]).
  assert (∀ P : jval → element → rules_object → Prop, P val e rs →
    judged (v_settings v) (v_page v) i t P) as Hj.
  { intros P HP. split; [done|]. apply on_fields_here. by exists p, e, val, n, rs. }
  destruct o1 as [o1|[]]; simpl in H3.
  - intros [= <- <-]. split; [done|]. split; [done|]. destruct o1; simpl in H3; try done.
    + destruct H3 as (text & name & Hl & Hm & Hf). exists text, name, t.
      rewrite Hn'. split_and!; [done|done|]. apply Hj. by eapply first_rejecting_same.
    + destruct H3 as [? ?]. split; [done|]. exists t. right. apply Hj. by eapply one_awaits_same.
  - intros [= <- <-]. split; [done|]. split; [done|]. destruct H3 as [? ?]. split; [done|].
    exists t. left. apply Hj. by eapply all_accept_same.
  - destruct H3 as [Hes Hall]. assert (passes acc (pending (req v1)) (v_settings v) (v_page v) i t).
    { apply Hj. by eapply all_accept_same. }
    intros [= <- <-]. destruct (Nat.eqb (rules_length rs) 0);
      [split; [done|split; [done|split; [done|by exists t]]]|].
    split; [by eapply inv_frame, H1|]. split; [etrans; [exact Ha|by split]|].
    split; [exact Hes|by exists t].
Qed.

(** ** Checking a form *)

(** Which elements are judged how, in order: [errs] has one entry for each
    element that is rejected, naming the element and the rule. *)
Inductive report (acc : answers) (pend : list string) (S : settings) (p : page)
    : list nat → list error → Prop :=
  | report_nil : report acc pend S p [] []
  | report_passes i t l errs :
      passes acc pend S p i t → report acc pend S p l errs → report acc pend S p (i :: l) errs
  | report_waits i t l errs :
      waits acc pend S p i t → report acc pend S p l errs → report acc pend S p (i :: l) errs
  | report_fails i t name text l errs :
      fails acc pend S p i t name → report acc pend S p l errs →
      report acc pend S p (i :: l) (VError text t (Some name) :: errs).

Lemma all_accept_mono acc pend pend' S p val t e rs :
  pend ⊆ pend' → all_accept acc pend S p val t e rs → all_accept acc pend' S p val t e rs.
Proof.
  intros H Ha r Hr. destruct (Ha r Hr) as (q & Hq & Hacc). exists q. split; [done|].
  by eapply accepts_mono.
Qed.

Lemma passes_mono acc pend pend' S p q i t :
  pend ⊆ pend' → same_fields S p q → passes acc pend S q i t → passes acc pend' S p i t.
Proof.
  intros H Hs. apply judged_same; [done|]. intros. eapply all_accept_same; [done|].
  by eapply all_accept_mono.
Qed.

Lemma waits_mono acc pend pend' S p q i t :
  pend ⊆ pend' → same_fields S p q → waits acc pend S q i t → waits acc pend' S p i t.
Proof.
  intros H Hs. apply judged_same; [done|].
  intros val e rs (pre & r & post & -> & Hpre & Hr & Hin). exists pre, r, post.
  split_and!; [done|eapply all_accept_same; [done|]; by eapply all_accept_mono|].
  split; [done|by apply H].
Qed.

Lemma fails_mono acc pend pend' S p q i t name :
  pend ⊆ pend' → same_fields S p q → fails acc pend S q i t name → fails acc pend' S p i t name.
Proof.
  intros H Hs. apply judged_same; [done|].
  intros val e rs (pre & r & post & -> & Hpre & Hr & q' & Hq' & Hrej). exists pre, r, post.
  split_and!; [done|eapply all_accept_same; [done|]; by eapply all_accept_mono|done|].
  exists q'. split; [by etrans|]. revert Hrej. unfold rejects_rule.
  destruct (obj_get _ _) as [[]|]; auto. intros [?|?]; auto.
Qed.

Lemma report_advances acc v v1 l errs pend :
  advances v v1 → report acc pend (v_settings v1) (v_page v1) l errs →
  report acc pend (v_settings v) (v_page v) l errs.
Proof.
  intros Ha. pose proof (ad_page _ _ Ha) as Hp. pose proof (ad_settings _ _ Ha) as Hs.
  apply same_settings_spec in Hs. rewrite Hs.
  induction 1.
  - constructor.
  - eapply report_passes; [|done]. eapply (passes_mono _ pend); [done|exact Hp|done].
  - eapply report_waits; [|done]. eapply (waits_mono _ pend); [done|exact Hp|done].
  - eapply report_fails; [|done]. eapply (fails_mono _ pend); [done|exact Hp|done].
Qed.

Lemma check_all_spec acc l v v' b :
  inv acc v → check_all E l v = (v', b) →
  inv acc v' ∧ advances v v' ∧
  (b = true → ∃ errs, errorList (res v') = errorList (res v) ++ errs ∧
     report acc (pending (req v')) (v_settings v) (v_page v) l errs).
Proof.
  revert v v' b. induction l as [|i l IH]; intros v v' b Hinv.
  { simpl. intros [= <- <-]. split_and!; [done|done|]. intros _. exists [].
    split; [by rewrite app_nil_r|constructor]. }
  simpl. destruct (check E i v) as [v1 o] eqn:Hc.
  destruct (check_spec acc i v v1 o Hinv Hc) as (Hi & Ha & Ho).
  destruct (check_all E l v1) as [v2 b2] eqn:Hall.
  destruct (IH v1 v2 b2 Hi Hall) as (Hi2 & Ha2 & Hrep). assert (advances v v2) as Hav by by etrans.
  pose proof (ad_pending _ _ Ha2) as Hpend.
  assert (∀ errs, report acc (pending (req v2)) (v_settings v1) (v_page v1) l errs →
    report acc (pending (req v2)) (v_settings v) (v_page v) l errs) as Hback.
  { intros errs. by apply report_advances. }
  destruct o; intros Heq; simplify_eq; (split; [done|split; [done|]]).
  - intros ->. destruct Hrep as (errs & He & Hr); [done|]. destruct Ho as [[He1 _] (t & Hp)].
    exists errs. rewrite He, He1. split; [done|]. eapply report_passes; [|by apply Hback].
    by eapply passes_mono.
  - intros ->. destruct Hrep as (errs & He & Hr); [done|]. destruct Ho as (text & name & t & He1 & _ & Hf).
    exists (VError text t (Some name) :: errs). rewrite He, He1, <-app_assoc. split; [done|].
    eapply report_fails; [|by apply Hback]. by eapply fails_mono.
  - intros ->. destruct Hrep as (errs & He & Hr); [done|]. destruct Ho as [[He1 _] (t & Hp)].
    exists errs. rewrite He, He1. split; [done|]. destruct Hp as [Hp|Hp].
    + eapply report_passes; [|by apply Hback]. by eapply passes_mono.
    + eapply report_waits; [|by apply Hback]. by eapply waits_mono.
  - done.
Qed.

Lemma advances_res f v : advances v (upd_res f v).
Proof. by split. Qed.

Lemma advances_reset v : advances v (prepareForm v).
Proof. by split. Qed.

Lemma inv_res acc f v : inv acc v → inv acc (upd_res f v).
Proof. by apply inv_frame. Qed.

Lemma checkForm_spec acc v v' b :
  inv acc v → checkForm E v = (v', b) →
  inv acc v' ∧ advances v v' ∧
  (b = true → report acc (pending (req v')) (v_settings v) (v_page v) (snd (elements E v))
                (errorList (res v'))).
Proof.
  intros Hinv. unfold checkForm.
  assert (snd (elements E (prepareForm v)) = snd (elements E v)) as Hel.
  { unfold elements. simpl. by destruct (fold_left _ _ _) as [[p seen] kept]. }
  pose proof (quiet_elements (prepareForm v)) as Hq.
  destruct (elements E (prepareForm v)) as [v1 l]. simpl in Hel, Hq. subst l.
  set (l := snd (elements E v)). set (v2 := upd_res _ v1). intros Hc.
  assert (advances v v2) as Ha.
  { etrans; [apply advances_reset|]. etrans; [by apply advances_quiet|apply advances_res]. }
  destruct (check_all_spec acc l v2 v' b) as (H1 & H2 & H3); [|done|].
  { apply inv_res. eapply inv_quiet; [exact Hq|]. by eapply inv_frame, Hinv. }
  split; [done|]. split; [by etrans|]. intros Hb. destruct (H3 Hb) as (errs & He & Hr).
  assert (errorList (res v2) = []) as He2 by (unfold v2; simpl; by rewrite (q_errors _ _ Hq)).
  rewrite He, He2. by eapply report_advances.
Qed.

Lemma form_spec acc v v' o :
  inv acc v → form E v = (v', o) →
  inv acc v' ∧
  same_fields (v_settings v) (v_page v) (v_page v') ∧ same_settings (v_settings v) (v_settings v') ∧
  (outputs v' = outputs v ∨ outputs v' = InvalidForm :: outputs v) ∧
  formSubmitted v' = formSubmitted v ∧ cancelSubmit v' = cancelSubmit v ∧
  pending (req v) ⊆ pending (req v') ∧
  match o with
  | None => True
  | Some b =>
      report acc (pending (req v')) (v_settings v) (v_page v) (snd (elements E v))
        (errorList (res v')) ∧
      (b = true ↔ errorList (res v') = [])
  end.
Proof.
  intros Hinv. unfold form. destruct (checkForm E v) as [v1 b] eqn:Hc.
  destruct (checkForm_spec acc v v1 b Hinv Hc) as (Hi & [A1 A2 A3 A4 A5 A6] & Hrep).
  destruct b; [|intros [= <- <-]; split_and!; auto].
  set (v2 := set_invalid _ _). set (v3 := if valid v2 then v2 else emit InvalidForm v2).
  pose proof (quiet_showErrors v3) as Hq. set (v4 := showErrors None v3) in *.
  intros [= <- <-].
  assert (req v3 = req v1 ∧ v_page v3 = v_page v1 ∧ v_settings v3 = v_settings v1 ∧
    res v3 = res v1 ∧ formSubmitted v3 = formSubmitted v1 ∧ cancelSubmit v3 = cancelSubmit v1 ∧
    (outputs v3 = outputs v1 ∨ outputs v3 = InvalidForm :: outputs v1)) as
    (B1 & B2 & B3 & B4 & B5 & B6 & B7).
  { unfold v3. destruct (valid v2); split_and!; try done; auto. }
  destruct Hq as [Q1 Q2 Q3 Q4 Q5 Q6 Q7 Q8]. split_and!.
  - eapply (inv_frame _ v1); [by rewrite Q1, B1| |done]. rewrite <-B2. by eapply same_shape.
  - etrans; [exact A1|]. rewrite <-B2. eapply same_fields_settings; [|exact Q2].
    rewrite B3. by symmetry.
  - by rewrite Q3, B3.
  - rewrite Q4. destruct B7 as [->| ->]; rewrite A3; auto.
  - by rewrite Q7, B5.
  - by rewrite Q8, B6.
  - by rewrite Q1, B1.
  - rewrite Q1, B1, Q5, B4. by apply Hrep.
  - unfold valid, size. rewrite Q5, B4. destruct (errorList (res v1)); done.
Qed.

(** ** Histories *)

Context (S0 : settings).

(** A page whose every validated element passes its rules, the remote ones by
    answers of the server. *)
Definition page_ok (acc : answers) (p : page) : Prop :=
  ∃ v, same_settings S0 (v_settings v) ∧ same_fields S0 p (v_page v) ∧
    ∀ i, i ∈ snd (elements E v) → ∃ t, passes acc [] S0 p i t.

Definition outputs_ok (acc : answers) (v : validator) : Prop :=
  ∀ p h, Submitted Validated p h ∈ outputs v → page_ok acc p.

Record good (acc : answers) (v : validator) : Prop := {
  g_inv : inv acc v;
  g_settings : same_settings S0 (v_settings v);
  g_outputs : outputs_ok acc v
}.

Lemma good_advances acc v v' : good acc v → inv acc v' → advances v v' → good acc v'.
Proof.
  intros [Hi Hs Ho] Hi' [A1 A2 A3 _ _ _]. split; [done|by etrans|].
  intros p h. rewrite A3. apply Ho.
Qed.

Lemma good_frame acc v v' :
  req v' = req v → v_page v' = v_page v → v_settings v' = v_settings v → outputs v' = outputs v →
  good acc v → good acc v'.
Proof.
  intros Hr Hp Hs Ho [Hi Hst Hok]. split.
  - by eapply inv_frame; [..|exact Hi]; rewrite ?Hp.
  - by rewrite Hs.
  - intros p h. rewrite Ho. apply Hok.
Qed.

Lemma good_quiet acc v v' : quiet v v' → good acc v → good acc v'.
Proof.
  intros Hq Hg. eapply good_advances; [done|eapply inv_quiet; [done|apply Hg]|].
  by apply advances_quiet.
Qed.

Lemma good_emit acc v : good acc v → good acc (emit InvalidForm v).
Proof.
  intros [Hi Hs Ho]. split; [by eapply inv_frame, Hi|done|].
  intros p h [?|Hin]%elem_of_cons; [done|by eapply Ho].
Qed.

Lemma passes_settings acc pend S S' p i t :
  same_settings S S' → passes acc pend S p i t → passes acc pend S' p i t.
Proof. by intros ->%same_settings_spec. Qed.

Lemma report_all_pass acc S p l :
  report acc [] S p l [] → ∀ i, i ∈ l → ∃ t, passes acc [] S p i t.
Proof.
  intros H. remember ([] : list error) as errs0 eqn:He.
  induction H as [|i t l errs Hp _ IH|i t l errs Hw _ IH|]; simplify_eq; [intros i Hi; by apply elem_of_nil in Hi| |].
  - intros j [->|Hj]%elem_of_cons; [by exists t|]. by apply IH.
  - destruct Hw as (_ & q & _ & p1 & e & val & n & rs & _ & pre & r & post & _ & _ & _ & Hin).
    by apply elem_of_nil in Hin.
Qed.

(** A form found valid with nothing pending is as it should be. *)
Lemma form_page_ok acc v v' :
  good acc v → form E v = (v', Some true) → pendingRequest (req v') = 0 → page_ok acc (v_page v').
Proof.
  intros [Hi Hs Ho] Hf Hp.
  destruct (form_spec acc v v' _ Hi Hf) as (F1 & F2 & F3 & _ & _ & _ & _ & Hrep & Hb).
  assert (pending (req v') = []) as Hpe.
  { apply nil_length_inv. by rewrite <-(inv_count _ _ F1). }
  rewrite Hpe in Hrep. rewrite (proj1 Hb eq_refl) in Hrep.
  assert (same_fields S0 (v_page v') (v_page v)) as Hsame.
  { symmetry. eapply same_fields_settings; [by symmetry|done]. }
  exists v. split; [done|]. split; [done|]. intros i Hin.
  destruct (report_all_pass _ _ _ _ Hrep i Hin) as (t & Ht). exists t.
  eapply (passes_mono _ []); [done|exact Hsame|].
  eapply passes_settings; [by symmetry|done].
Qed.

Lemma good_form acc v : good acc v → good acc (fst (form E v)).
Proof.
  intros [Hi Hs Ho]. destruct (form E v) as [v' o] eqn:Hf. simpl.
  destruct (form_spec acc v v' _ Hi Hf) as (F1 & F2 & F3 & F4 & _). split; [done|by etrans|].
  intros p h Hin. destruct F4 as [F4|F4]; rewrite F4 in Hin; [by eapply Ho|].
  apply elem_of_cons in Hin as [?|?]; [done|by eapply Ho].
Qed.

Lemma handle_spec v :
  let v' := fst (handle v) in
  req v' = req v ∧ v_page v' = v_page v ∧ v_settings v' = v_settings v ∧
  (outputs v' = outputs v ∨ outputs v' = Handled :: outputs v).
Proof. unfold handle. cbv zeta. repeat case_match; simpl; auto. Qed.

Lemma good_handle acc v : good acc v → good acc (fst (handle v)).
Proof.
  intros [Hi Hs Ho]. destruct (handle_spec v) as (H1 & H2 & H3 & H4). split.
  - by eapply inv_frame; [..|exact Hi]; rewrite ?H2.
  - by rewrite H3.
  - intros p h Hin. destruct H4 as [H4|H4]; rewrite H4 in Hin; [by eapply Ho|].
    apply elem_of_cons in Hin as [?|?]; [done|by eapply Ho].
Qed.

Lemma good_send acc w v : good acc v → (w = Validated → page_ok acc (v_page v)) → good acc (send w v).
Proof.
  intros [Hi Hs Ho] Hw. split; [by eapply inv_frame, Hi|done|].
  intros p h [Heq|Hin]%elem_of_cons; [|by eapply Ho]. injection Heq as Hw' -> _. by apply Hw.
Qed.

(** The submit handler: a form it lets through as validated is as it should be. *)
Lemma on_submit_spec acc v v' o :
  good acc v → on_submit E v = (v', o) →
  good acc v' ∧ (∀ w, o = Some (true, w) → w = Validated → page_ok acc (v_page v')).
Proof.
  intros Hg. unfold on_submit. destruct (cancelSubmit v).
  - destruct (handle _) as [v1 b] eqn:Hh. intros [= <- <-]. split; [|intros ???; by simplify_eq].
    assert (v1 = fst (handle (set_cancelSubmit false v))) as -> by (by rewrite Hh).
    apply good_handle. by eapply good_frame, Hg.
  - pose proof (good_form acc v Hg) as Hgf.
    destruct (form E v) as [v1 [[]|]] eqn:Hf; simpl in Hgf.
    + destruct (Nat.eqb_spec (pendingRequest (req v1)) 0) as [Hp|Hp].
      * destruct (handle v1) as [v2 b] eqn:Hh. intros [= <- <-].
        assert (v2 = fst (handle v1)) as -> by by rewrite Hh. split; [by apply good_handle|].
        intros w _ _. destruct (handle_spec v1) as (_ & Hp' & _). rewrite Hp'. by apply (form_page_ok acc v).
      * intros [= <- <-]. split; [by eapply good_frame, Hgf|intros ???; by simplify_eq].
    + intros [= <- <-]. split; [|intros ???; by simplify_eq]. unfold focusInvalid.
      repeat case_match; try done; by eapply good_frame, Hgf.
    + intros [= <- <-]. done.
Qed.

Lemma good_user_submit acc v : good acc v → good acc (user_submit E v).
Proof.
  intros Hg. unfold user_submit. destruct (on_submit E v) as [v1 o] eqn:Ho.
  destruct (on_submit_spec acc v v1 o Hg Ho) as [H1 H2].
  destruct o as [[[] w]|]; [|done|].
  - apply good_send; [done|]. by apply H2.
  - by apply good_send.
Qed.

Lemma good_script_submit acc v : good acc v → good acc (fst (script_submit E v)).
Proof.
  intros Hg. unfold script_submit. destruct (on_submit E v) as [v1 o] eqn:Ho.
  destruct (on_submit_spec acc v v1 o Hg Ho) as [H1 H2].
  destruct o as [[[] w]|]; [|done|done]. simpl. apply good_send; [done|]. by apply H2.
Qed.

Lemma good_res acc f v : good acc v → good acc (upd_res f v).
Proof. by apply good_frame. Qed.
Lemma good_invalid acc x v : good acc v → good acc (set_invalid x v).
Proof. by apply good_frame. Qed.
Lemma good_alter acc f i v :
  (∀ e, core (v_settings v) (f e) = core (v_settings v) e) →
  good acc v → good acc (set_page (alter f i (v_page v)) v).
Proof. intros H. apply good_quiet, quiet_page. by apply same_fields_alter. Qed.

Lemma good_check acc i v : good acc v → good acc (fst (check E i v)).
Proof.
  intros Hg. destruct (check E i v) as [v' o] eqn:Hc.
  destruct (check_spec acc i v v' o (g_inv _ _ Hg) Hc) as (H1 & H2 & _). by eapply good_advances.
Qed.

Lemma good_check_group acc g n gs b v : good acc v → good acc (fst (check_group E g n gs b v)).
Proof.
  revert b v. induction gs as [|[m tg] gs IH]; intros b v Hg; simpl; [done|].
  destruct (_ && _); [|by apply IH]. destruct (findByName m (v_page v)) as [|j js]; [done|].
  destruct (validationTargetFor (v_page v) j) as [t|]; [|by apply IH].
  destruct (in_object _ _); [|by apply IH]. set (v1 := upd_res _ v).
  pose proof (good_check acc t v1 (good_res acc _ v Hg)) as H1.
  destruct (check E t v1) as [v2 []]; simpl in *; try (by apply IH); done.
Qed.

Lemma good_element acc i v : good acc v → good acc (fst (element_ E i v)).
Proof.
  intros Hg. unfold element_.
  destruct (validationTargetFor (v_page v) i) as [t|]; [|by apply good_invalid].
  set (v1 := upd_res (set_currentElements [t]) (prepareElement t v)).
  assert (good acc v1) as H1 by by repeat apply good_res.
  set (grp := match obj_get _ _ with Some _ => _ | None => _ end).
  assert (good acc (fst grp)) as H2.
  { unfold grp. destruct (obj_get _ _) as [g|]; [|done].
    destruct (bool_decide _); [done|]. by apply good_check_group. }
  destruct grp as [v2 [result|]]; simpl in *; [|done].
  pose proof (good_check acc t v2 H2) as H3. destruct (check E t v2) as [v3 o]. simpl in H3.
  assert (∀ b rs, good acc (fst (let v4 := set_invalid (obj_put (name_of v1 t) (FBool b) (invalid v3)) v3 in
      let v5 := showErrors None v4 in
      (set_page (alter (set_aria (Some b)) i (v_page v5)) v5, Some (result && rs))))) as H4.
  { intros b rs. cbv zeta. cbn [fst]. apply (good_alter acc (set_aria (Some b)) i (showErrors None _));
      [done|]. eapply good_quiet; [apply quiet_showErrors|]. by apply good_invalid. }
  destruct o; [apply (H4 false true)|apply (H4 true false)|apply (H4 false true)|done].
Qed.

Lemma good_valid_element acc i v : good acc v → good acc (valid_element E i v).
Proof.
  intros Hg. pose proof (good_element acc i v Hg) as H. unfold valid_element.
  destruct (element_ E i v) as [v1 [[]|]]; simpl in *; try done. by apply good_res.
Qed.

Hint Resolve good_res good_invalid good_form good_handle good_element good_valid_element
  good_user_submit : js.

Lemma previous_index_filter (l : list nat) i k prevs :
  previous_index i (List.filter (λ '(j, _), negb (bool_decide (j ∈ l))) prevs) = Some k →
  previous_index i prevs = Some k.
Proof.
  induction prevs as [|[j k'] prevs IH]; simpl; [done|].
  destruct (Nat.eqb_spec j i) as [->|Hne].
  - case_bool_decide as Hin; simpl; [|by rewrite Nat.eqb_refl].
    intros Hp. exfalso. clear IH. induction prevs as [|[j2 k2] prevs IH]; simpl in *; [done|].
    case_bool_decide as Hin2; simpl in *; [by apply IH|].
    destruct (Nat.eqb_spec j2 i); [by subst|by apply IH].
  - case_bool_decide; simpl; [done|]. rewrite (proj2 (Nat.eqb_neq _ _) Hne). done.
Qed.

Lemma inv_forget acc (l : list nat) v :
  inv acc v →
  inv acc (upd_req (λ r, Requests (pendingRequest r) (pending r)
    (List.filter (λ '(i, _), negb (bool_decide (i ∈ l))) (previousOf r)) (records r) (live r)) v).
Proof.
  intros [Hc Hn Hd Hl Hre Hi].
  assert (∀ i k, previous_index i (List.filter (λ '(i, _), negb (bool_decide (i ∈ l)))
    (previousOf (req v))) = Some k → index_of v i = Some k) as Hix.
  { intros i k. apply previous_index_filter. }
  split; try done.
  - intros rq Hrq. destruct (Hl rq Hrq) as [H1 H2 H3 H4 H5 H6]. split; try done.
    + intros k Hk. by apply H5, Hix.
    + intros i Hk. by apply H6, Hix.
  - intros i k Hk. by destruct (Hre i k (Hix i k Hk)).
  - intros i j k H1 H2. by eapply Hi; apply Hix.
Qed.

Lemma good_resetForm acc v : good acc v → good acc (resetForm E v).
Proof.
  intros Hg. unfold resetForm. set (v1 := hideErrors _).
  assert (good acc v1) as H1.
  { unfold v1, hideErrors, hideThese, each_label. eapply good_quiet; [apply quiet_labels|].
    by repeat apply good_res; eapply good_frame, Hg. }
  pose proof (quiet_elements v1) as Hq. destruct (elements E v1) as [v2 l]. simpl in Hq.
  assert (good acc v2) as H2 by by eapply good_quiet.
  set (v3 := upd_req _ v2). assert (good acc v3) as H3.
  { destruct H2 as [Hi Hs Ho]. split; [by apply inv_forget|done|done]. }
  eapply good_quiet; [|exact H3]. apply quiet_page.
  etrans; [|apply same_resetElements]. by apply same_fields_each.
Qed.

(** ** Answers *)

(** The bookkeeping of [stopRequest]. *)
Definition stopped (name : string) (v : validator) : validator :=
  upd_req (λ r, Requests (pendingRequest r - 1)
    (List.filter (λ n, negb (bool_decide (n = name))) (pending r)) (previousOf r) (records r) (live r)) v.

Lemma inv_stopped acc name v :
  inv acc v → name ∈ pending (req v) → (∀ rq, rq ∈ live (req v) → rq_name rq ≠ name) →
  (∀ j k, index_of v j = Some k → name_of v j = name →
     ∃ x d, records (req v) !! k = Some x ∧ old x = Some d ∧ (name, d, pvalid x) ∈ acc) →
  inv acc (stopped name v).
Proof.
  intros [Hc Hn Hd Hl Hre Hi] Hin Hlive Hrec.
  assert (∀ n, n ≠ name → n ∈ pending (req v) → n ∈ pending (req (stopped name v))) as Hkeep.
  { intros n Hne Hp. apply elem_of_List_filter. split; [done|]. by rewrite bool_decide_eq_false_2. }
  split; try done.
  - simpl. by rewrite filter_neq_length, Hc.
  - by apply NoDup_List_filter.
  - intros rq Hrq. destruct (Hl rq Hrq) as [H1 H2 H3 H4 H5 H6]. split; try done.
    apply Hkeep; [by apply Hlive|done].
  - intros i k Hk. destruct (Hre i k Hk) as [H1 (x & Hx & H2)]. split; [done|].
    destruct (decide (name_of v i = name)) as [Heq|Hne].
    + destruct (Hrec i k Hk Heq) as (x' & d & Hx' & Ho & Hacc). exists x'. split; [done|].
      right. exists d. split; [done|]. by rewrite (Heq : name_of (stopped name v) i = name).
    + exists x. split; [done|]. destruct H2 as [H2|H2]; [left; by apply Hkeep|by right].
Qed.

Lemma stopRequest_eq i ok v :
  let v2 := set_page (alter (removeClass (pendingClass (v_settings v))) i (v_page v))
              (stopped (name_of v i) v) in
  stopRequest E i ok v =
  if Nat.eqb (pendingRequest (req v2)) 0 && formSubmitted v2 then
    if ok then
      match form E v2 with
      | (v3, Some true) =>
          match script_submit E v3 with
          | (v4, true) =>
              let v5 := match submitButton v4 with
                        | Some b => set_hidden (List.filter (λ n, negb (bool_decide (n = b))) (hiddenInputs v4)) v4
                        | None => v4
                        end in
              set_formSubmitted false v5
          | (v4, false) => v4
          end
      | (v3, _) => v3
      end
    else set_formSubmitted false (emit InvalidForm v2)
  else v2.
Proof. done. Qed.

Lemma good_stopRequest acc i ok v :
  good acc (stopped (name_of v i) v) → good acc (stopRequest E i ok v).
Proof.
  intros Hg. rewrite stopRequest_eq. cbv zeta. set (v2 := set_page _ _).
  assert (good acc v2) as H2.
  { unfold v2. apply (good_alter acc _ i (stopped (name_of v i) v)); [|done].
    intros e. apply core_removeClass, marks_pending. }
  destruct (_ && _); [|done]. destruct ok.
  - pose proof (good_form acc v2 H2) as H3. destruct (form E v2) as [v3 [[]|]]; simpl in H3; try done.
    pose proof (good_script_submit acc v3 H3) as H4.
    destruct (script_submit E v3) as [v4 []]; simpl in H4; [|done].
    case_match; by eapply good_frame, H4.
  - apply (good_frame acc (emit InvalidForm v2)); [done..|]. by apply good_emit.
Qed.

Lemma page_ok_more acc acc' p : acc ⊆ acc' → page_ok acc p → page_ok acc' p.
Proof.
  intros Hsub (u & U1 & U2 & U3). exists u. split_and!; [done|done|]. intros i Hi.
  destruct (U3 i Hi) as (t & Ht). exists t. revert Ht. apply judged_same; [done|].
  intros val e rs Hall r Hr. destruct (Hall r Hr) as (q & Hq & Hacc). exists q. split; [done|].
  revert Hacc. unfold accepts_rule. destruct (obj_get _ _) as [[]|]; auto.
  intros [?|[?|?]]; auto.
Qed.

Lemma good_more acc acc' v : acc ⊆ acc' → good acc v → good acc' v.
Proof.
  intros Hsub [Hi Hs Ho]. split; [by eapply inv_more|done|]. intros p h Hin.
  eapply page_ok_more; [done|]. by eapply Ho.
Qed.

(** The state in which the answer to [rq] is handled: the verdict is noted, then
    the request is stopped. *)
Lemma good_answered acc v w k x y rq b :
  good acc v → rq ∈ live (req v) → k = rq_previous rq →
  records (req v) !! k = Some x → old y = old x → pvalid y = b →
  req w = req (drop_request (rq_name rq) v) → same_fields (v_settings v) (v_page v) (v_page w) →
  same_settings (v_settings v) (v_settings w) → outputs w = outputs v →
  let acc' := (rq_name rq, rq_data rq, b) :: acc in
  good acc' (stopped (name_of (set_record k y w) (rq_element rq)) (set_record k y w)).
Proof.
  intros [Hi Hs Ho] Hrq Hk Hx Hold Hb Hreq Hpage Hset Hout acc'.
  destruct (inv_live _ _ Hi rq Hrq) as [R1 R2 R3 (x0 & Hx0 & Hxo) R5 R6].
  assert (x0 = x) as -> by congruence.
  pose proof (same_shape _ _ _ Hpage) as Hshape.
  assert (name_of w (rq_element rq) = rq_name rq) as Hname.
  { rewrite <-(name_of_shape v w _ Hshape). done. }
  assert (∀ i, index_of w i = index_of v i) as Hix by (intros; unfold index_of; by rewrite Hreq).
  assert (inv acc' w) as Hw.
  { eapply (inv_frame _ (drop_request (rq_name rq) v)); [done|done|].
    eapply (inv_more acc); [intros z; by right|]. destruct Hi as [Hc Hn Hd Hl Hre Hinj].
    split; try done.
    - intros rq' [Hrq' _]%elem_of_List_filter. by destruct (Hl rq' Hrq').
    - intros i k' Hk'. by destruct (Hre i k' Hk'). }
  assert (inv acc' (set_record k y w)) as Hw2.
  { apply (inv_set_record acc' w k x); [done|by rewrite Hreq|done|]. right.
    intros i d Hik Hxd. rewrite Hix, Hk in Hik. pose proof (R6 i Hik) as ->.
    rewrite Hname, Hb. assert (d = rq_data rq) as -> by congruence. by left. }
  rewrite (Hname : name_of (set_record k y w) (rq_element rq) = rq_name rq).
  split; [|by etrans|].
  - apply inv_stopped; [done|by simpl; rewrite Hreq| |].
    + intros rq'. simpl. rewrite Hreq. intros [_ Hne]%elem_of_List_filter.
      by apply negb_true_iff, bool_decide_eq_false in Hne.
    + intros j k' Hjk Hjn. change (index_of w j = Some k') in Hjk.
      change (name_of w j = rq_name rq) in Hjn.
      assert (j = rq_element rq) as ->.
      { apply (target_unique w); [apply Hw| | |by rewrite Hname].
        - by apply (rc_target _ _ _ _ (inv_records _ _ Hw j k' Hjk)).
        - unfold target. by rewrite <-(shape_target _ _ _ Hshape). }
      rewrite Hix in Hjk. rewrite (R5 k' Hjk), <-Hk. exists y, (rq_data rq). simpl.
      rewrite Hreq. simpl. rewrite list_lookup_insert_eq by by eapply lookup_lt_Some.
      split_and!; [done|congruence|]. rewrite Hb. by left.
  - intros p h Hin. simpl in Hin. rewrite Hout in Hin. eapply (page_ok_more acc); [by right|].
    by eapply Ho.
Qed.

Lemma showErrors_frame given v :
  req (showErrors given v) = req v ∧
  same_fields (v_settings v) (v_page v) (v_page (showErrors given v)) ∧
  v_settings (showErrors given v) = v_settings v ∧ outputs (showErrors given v) = outputs v ∧
  cancelSubmit (showErrors given v) = cancelSubmit v.
Proof.
  unfold showErrors. set (v1 := match given with None => v | Some _ => _ end).
  assert (req v1 = req v ∧ v_page v1 = v_page v ∧ v_settings v1 = v_settings v ∧
    outputs v1 = outputs v ∧ cancelSubmit v1 = cancelSubmit v) as (H1 & H2 & H3 & H4 & H5) by (unfold v1; by destruct given).
  destruct (quiet_defaultShowErrors v1) as [Q1 Q2 Q3 Q4 _ _ _ Q8].
  rewrite Q1, Q3, Q4, Q8, H1, H3, H4, H5. split_and!; try done. by rewrite <-H2, <-H3.
Qed.

(** [success] marks the outcome and ends with [stopRequest]. *)
Lemma success_stops acc v rq r :
  good acc v → rq ∈ live (req v) →
  ∃ u, success E rq r (drop_request (rq_name rq) v) = stopRequest E (rq_element rq) (response_valid r) u ∧
    good ((rq_name rq, rq_data rq, response_valid r) :: acc) (stopped (name_of u (rq_element rq)) u) ∧
    outputs u = outputs v ∧ cancelSubmit u = cancelSubmit v ∧ same_fields S0 (v_page v) (v_page u).
Proof.
  intros Hg Hrq. pose proof (g_settings _ _ Hg) as HS. destruct (inv_live _ _ (g_inv _ _ Hg) rq Hrq) as [R1 R2 R3 (x & Hx & Hxo) R5 R6].
  assert (∃ e, v_page v !! rq_element rq = Some e) as [e He].
  { unfold target, validationTargetFor in R2. destruct (v_page v !! rq_element rq) as [e|]; [|done].
    by exists e. }
  unfold success. set (w := drop_request (rq_name rq) v).
  rewrite (He : v_page w !! rq_element rq = Some e), (Hx : records (req w) !! rq_previous rq = Some x).
  cbv zeta. set (w1 := set_settings (put_remote_message _ _ _) w).
  assert (same_settings (v_settings v) (v_settings w1)) as Hs1 by apply put_remote_message_same.
  destruct (response_valid r) eqn:Hb.
  - set (w3 := set_invalid _ _). destruct (showErrors_frame None w3) as (F1 & F2 & F3 & F4 & F5).
    set (w4 := showErrors None w3) in *. clearbody w4. set (y := Previous _ true _ _).
    eexists. split; [done|]. split; [|split_and!; [done|done|]; eapply same_fields_settings; [|exact F2]; symmetry; exact (transitivity HS Hs1)].
    eapply (good_answered acc v w4 _ x y rq true); try done.
    + eapply same_fields_settings; [|exact F2]. symmetry. exact Hs1.
    + by rewrite F3.
  - set (text := response_message _ _). set (y1 := Previous _ (pvalid x) text _).
    set (w2 := set_record (rq_previous rq) y1 w1).
    set (w3 := set_invalid _ w2).
    destruct (showErrors_frame (Some [(ename e, text)]) w3) as (F1 & F2 & F3 & F4 & F5).
    set (w4 := showErrors _ w3) in *. clearbody w4. set (y := Previous _ false _ _).
    assert (set_record (rq_previous rq) y w4 =
      set_record (rq_previous rq) y (set_req (req w) w4)) as ->.
    { unfold set_record, upd_req, set_req. simpl. rewrite F1. simpl. by rewrite list_insert_insert_eq. }
    eexists. split; [done|]. split; [|split_and!; [done|done|]; eapply same_fields_settings; [|exact F2]; symmetry; exact (transitivity HS Hs1)].
    eapply (good_answered acc v (set_req (req w) w4) _ x y rq false); try done.
    + eapply same_fields_settings; [|exact F2]. symmetry. exact Hs1.
    + simpl. by rewrite F3.
Qed.

Lemma good_success acc v rq r :
  good acc v → rq ∈ live (req v) →
  good ((rq_name rq, rq_data rq, response_valid r) :: acc)
    (success E rq r (drop_request (rq_name rq) v)).
Proof. intros Hg Hrq. destruct (success_stops acc v rq r Hg Hrq) as (u & -> & Hu & _). by apply good_stopRequest. Qed.

(** The answers among some events. *)
Definition answer_of (v : validator) (ev : event) : answers :=
  match ev with
  | Answer name r =>
      match find_request name v with
      | Some rq => [(rq_name rq, rq_data rq, response_valid r)]
      | None => []
      end
  | _ => []
  end.

Fixpoint answers_in (evs : list event) (v : validator) : answers :=
  match evs with
  | [] => []
  | ev :: evs' => answer_of v ev ++ answers_in evs' (react E ev v)
  end.

Lemma find_request_spec name v rq :
  find_request name v = Some rq → rq ∈ live (req v) ∧ rq_name rq = name.
Proof.
  unfold find_request. intros [H1 H2]%List.find_some. apply list_elem_of_In in H1.
  by apply bool_decide_eq_true in H2.
Qed.

Lemma good_delegated acc i v f :
  good acc v → (∀ e, good acc (f e)) → good acc (delegated i v f).
Proof. intros Hg Hf. unfold delegated. by repeat case_match. Qed.

Lemma good_react acc ev v : good acc v → good (answer_of v ev ++ acc) (react E ev v).
Proof.
  intros Hg. destruct ev as [i value sel chk bad|i|i|i wh kc|i|i|i|name cancel| |name r|name|]; simpl.
  - destruct Hg as [Hi Hs Ho]. split; [|done|done]. apply (inv_frame acc v); [done| |exact Hi]. simpl.
    apply list_eq. intros j. rewrite !list_lookup_fmap, list_lookup_alter.
    case_decide; [subst|done]. by destruct (v_page v !! j).
  - apply good_delegated; [done|]. intros _. by eapply good_frame, Hg.
  - apply good_delegated; [done|]. intros e. repeat case_match; auto with js.
  - apply good_delegated; [done|]. intros e. repeat case_match; auto with js.
  - apply good_delegated; [done|]. intros e. repeat case_match; auto with js.
  - apply good_delegated; [done|]. intros e. repeat case_match; auto with js.
  - unfold on_blur. generalize (equalToBlurs v) as l. intros l. revert v Hg.
    induction l as [|[t j] l IH]; intros v Hg; simpl; [done|].
    apply IH. case_match; auto with js.
  - unfold click_submit. case_match; by eapply good_frame, Hg.
  - auto with js.
  - destruct (find_request name v) as [rq|] eqn:Hf; [|done].
    apply find_request_spec in Hf as [Hrq <-]. by apply good_success.
  - destruct Hg as [[Hc Hn Hd Hl Hre Hi] Hs Ho]. split; [|done|done]. split; try done.
    + intros rq [Hrq _]%elem_of_List_filter. by destruct (Hl rq Hrq).
    + intros i k Hk. by destruct (Hre i k Hk).
  - by apply good_resetForm.
Qed.

Lemma good_history evs acc v : good acc v → good (answers_in evs v ++ acc) (history E evs v).
Proof.
  revert acc v. induction evs as [|ev evs IH]; intros acc v Hg; simpl; [done|].
  eapply good_more; [|apply (IH (answer_of v ev ++ acc)); by apply good_react].
  intros z. rewrite !elem_of_app. tauto.
Qed.

Lemma good_initial p : distinct_names p → good [] (initial p S0).
Proof.
  intros Hd. split; [|done|].
  - split; try done; try (by constructor).
    intros rq Hrq. by apply elem_of_nil in Hrq.
  - intros q h Hin. by apply elem_of_nil in Hin.
Qed.
End facts.
