(* ===== verification/ValidateForm.v ===== *)
(** * jquery.validate: the properties of the validator

    The theorems about reachable states of the validator of [Validate], from the
    invariant of [ValidateFacts]. *)
From stdpp Require Import base strings list gmap.
From Stdlib Require Import Ascii ZArith QArith Lia.
From S2P Require Import Prelude JsString JsRegex ValidatePage ValidateRules Validate ValidateFacts.

Local Open Scope nat_scope.

(** ** Witness data: a form with a name the server checks and an age *)

Definition text_field (name value : string) (classes : list string)
    (attrs : list (string * string)) : element :=
  Element name "" "text" Input false false false value [] false None classes attrs [] "" [] None.

Definition demo_env : environment :=
  Environment (λ _ _, []) (λ _ _ _, RBool true) (λ _ _ _ v, v) (λ _ _, []) (λ s, s)
    (λ _, "[object HTMLInputElement]") [].

Definition demo_settings : settings :=
  set_rules [("user", [("required", RBool true); ("remote", RStr "/check")]);
             ("age", [("min", RNum (Some (18#1)%Q)); ("required", RBool true)])] default_settings.

Definition demo_page : page :=
  [text_field "user" "bob" [] []; text_field "age" "7" ["digits"] [("type", "text")]].

Lemma demo_distinct : distinct_names demo_page.
Proof.
  intros i j e e' Hi Hj Hn.
  destruct i as [|[|i]], j as [|[|j]]; simplify_eq/=; try (by left);
    rewrite ?lookup_nil in *; simplify_eq/=; discriminate Hn.
Qed.

Definition demo : validator := initial demo_page demo_settings.

Section reachable.
Context (E : environment) (S0 : settings) (p : page).
Context (evs : list event).
Let v := history E evs (initial p S0).
Let acc := answers_in E evs (initial p S0).

Lemma reachable_good : distinct_names p → good E S0 acc v.
Proof.
  intros Hd. pose proof (good_history E S0 evs [] _ (good_initial E S0 p Hd)) as H.
  by rewrite app_nil_r in H.
Qed.
End reachable.

(** C19. Whatever the user, the page and the server do, a form that is submitted as
    validated passes: every element [elements()] selects (not ignored or disabled, with
    rules, of a name no object inherits, the first of each name) satisfies each of its
    rules (on the fields that are sent, up to validation classes), and each remote rule
    was answered "valid" by the server for exactly the data of the value that is sent.
    Fields that share a name must be radio buttons or checkboxes. *)
Theorem submission_validated (E : environment) (S0 : settings) (p : page) evs q hidden :
  distinct_names p →
  Submitted Validated q hidden ∈ outputs (history E evs (initial p S0)) →
  page_ok E S0 (answers_in E evs (initial p S0)) q.
Proof. intros Hd. apply (reachable_good E S0 p evs Hd). Qed.

Definition demo_events : list event :=
  [Submit; Edit 1 "20" [] false None; Submit; Answer "user" (RespBool true)].

Lemma submission_validated_witness :
  ∃ q, outputs (history demo_env demo_events demo) !! 0 = Some (Submitted Validated q []) ∧
    page_ok demo_env demo_settings [("user", [("data", VStr "bob")], true)] q.
Proof.
  destruct (outputs (history demo_env demo_events demo)) as [|[[] q h| |] l] eqn:Ho;
    try (vm_compute in Ho; discriminate Ho).
  exists q. assert (h = []) as -> by (vm_compute in Ho; congruence). split; [reflexivity|].
  refine (submission_validated demo_env demo_settings demo_page demo_events q [] demo_distinct _).
  unfold demo in Ho. rewrite Ho. by left.
Defined.

(** The number of pending requests is the number of fields that wait for the
    server, each counted once, in every reachable state: the clamp of
    [stopRequest] at 0 is never needed, and a request on its way belongs to a
    field that waits. *)
Theorem pending_requests_counted (E : environment) (S0 : settings) (p : page) evs :
  let v := history E evs (initial p S0) in
  distinct_names p →
  pendingRequest (req v) = length (pending (req v)) ∧ NoDup (pending (req v)) ∧
  ∀ rq, rq ∈ live (req v) →
    rq_name rq ∈ pending (req v) ∧ name_of v (rq_element rq) = rq_name rq.
Proof.
  intros v Hd. destruct (reachable_good E S0 p evs Hd) as [[Hc Hn _ Hl _ _] _ _].
  split_and!; [done|done|]. intros rq Hrq. by destruct (Hl rq Hrq).
Qed.

Lemma pending_requests_counted_witness :
  let v := history demo_env [Submit; Edit 0 "eve" [] false None; FocusOut 0] demo in
  pendingRequest (req v) = 1 ∧ length (live (req v)) = 1 ∧ NoDup (pending (req v)).
Proof.
  split; [reflexivity|]. split; [reflexivity|].
  exact (proj1 (proj2 (pending_requests_counted demo_env demo_settings demo_page
    [Submit; Edit 0 "eve" [] false None; FocusOut 0] demo_distinct))).
Defined.

(** C23. [form()] in any reachable state, when no method throws: of the elements that
    [elements()] selects (not ignored or disabled, with rules, of a name no object
    inherits, the first of each name) it reports, in their order, exactly those that fail,
    each with the first of its rules that rejects its value; the others pass or wait for
    the server; and the form is valid when none fails. Fields that share a name must be
    radio buttons or checkboxes. *)
Theorem form_reports (E : environment) (S0 : settings) (p : page) evs v' b :
  let v := history E evs (initial p S0) in
  distinct_names p → form E v = (v', Some b) →
  report E (answers_in E evs (initial p S0)) (pending (req v')) (v_settings v) (v_page v)
    (snd (elements E v)) (errorList (res v')) ∧
  (b = true ↔ errorList (res v') = []).
Proof.
  intros v Hd Hf. destruct (reachable_good E S0 p evs Hd) as [Hi _ _].
  destruct (form_spec E _ v v' _ Hi Hf) as (_ & _ & _ & _ & _ & _ & _ & H). exact H.
Qed.

Lemma form_reports_witness :
  ∃ v', form demo_env demo = (v', Some false) ∧
    errorList (res v') = [VError "Please enter a value greater than or equal to 18." 1 (Some "min")] ∧
    report demo_env [] ["user"] demo_settings demo_page [0; 1] (errorList (res v')).
Proof.
  destruct (form demo_env demo) as [v' [[]|]] eqn:Hf; try (vm_compute in Hf; discriminate Hf).
  exists v'. split; [reflexivity|].
  pose proof (proj1 (form_reports demo_env demo_settings demo_page [] v' false demo_distinct Hf)) as Hr.
  vm_compute in Hf. injection Hf as Hv. split; [by rewrite <-Hv|].
  rewrite <-Hv in Hr |- *. exact Hr.
Defined.

(** ** A request that fails *)

Lemma submit_blocked E S0 acc v n :
  good E S0 acc v → n ∈ pending (req v) → cancelSubmit v = false →
  let v' := user_submit E v in
  n ∈ pending (req v') ∧ cancelSubmit v' = false ∧
  ∀ q h, Submitted Validated q h ∈ outputs v' → Submitted Validated q h ∈ outputs v.
Proof.
  intros Hg Hn Hc. unfold user_submit, on_submit. rewrite Hc.
  destruct (form E v) as [v1 o] eqn:Hf.
  destruct (form_spec E acc v v1 o (g_inv _ _ _ _ Hg) Hf) as (F1 & _ & _ & F4 & _ & F6 & F7 & _).
  assert (n ∈ pending (req v1)) as Hn1 by by apply F7.
  assert (pendingRequest (req v1) ≠ 0) as Hp.
  { rewrite (inv_count _ _ F1). destruct (pending (req v1)); [by apply elem_of_nil in Hn1|done]. }
  assert (∀ q h, Submitted Validated q h ∈ outputs v1 → Submitted Validated q h ∈ outputs v) as Ho.
  { intros q h. destruct F4 as [->| ->]; [done|]. by intros [?|?]%elem_of_cons. }
  destruct o as [[]|].
  - rewrite (proj2 (Nat.eqb_neq _ _) Hp). simpl. split_and!; [done|by rewrite F6|done].
  - unfold focusInvalid. repeat case_match; simpl; (split_and!; [done|by rewrite F6|done]).
  - simpl. split_and!; [done|by rewrite F6|]. intros q h [?|Hin]%elem_of_cons; [done|by apply Ho].
Qed.

(** A remote request that fails is never answered, and its field counts as
    waiting for ever after: however often the user submits the form again, it is
    not submitted as validated. *)
Theorem failed_request_blocks (E : environment) (S0 : settings) (p : page) evs n k :
  let v := history E evs (initial p S0) in
  distinct_names p → n ∈ pending (req v) → cancelSubmit v = false →
  let w := history E (Failure n :: repeat Submit k) v in
  n ∈ pending (req w) ∧
  ∀ q h, Submitted Validated q h ∈ outputs w → Submitted Validated q h ∈ outputs v.
Proof.
  intros v Hd Hn Hc. simpl.
  pose proof (good_react E S0 _ (Failure n) v (reachable_good E S0 p evs Hd)) as Hg.
  simpl in Hg. set (u := drop_request n v) in *.
  assert (n ∈ pending (req u) ∧ cancelSubmit u = false ∧
    ∀ q h, Submitted Validated q h ∈ outputs u → Submitted Validated q h ∈ outputs v) as Hu by done.
  clearbody u. clear Hn Hc. revert u Hg Hu.
  induction k as [|k IH]; intros u Hg (H1 & H2 & H3); simpl; [done|].
  destruct (submit_blocked E S0 _ u n Hg H1 H2) as (G1 & G2 & G3).
  apply IH; [by apply good_user_submit|]. split_and!; [done|done|]. intros q h Hq. by apply H3, G3.
Qed.

Lemma failed_request_blocks_witness :
  let v := history demo_env [Edit 1 "20" [] false None; Submit] demo in
  "user" ∈ pending (req (history demo_env (Failure "user" :: repeat Submit 3) v)).
Proof.
  refine (proj1 (failed_request_blocks demo_env demo_settings demo_page
    [Edit 1 "20" [] false None; Submit] "user" 3 demo_distinct _ _)).
  - apply (bool_decide_unpack _). vm_compute. exact I.
  - reflexivity.
Defined.

(** ** The answer "valid" and the other fields *)

Lemma removeClass_not_elem c e : c ∉ eclasses (removeClass c e).
Proof.
  simpl. intros [_ Hc]%elem_of_List_filter. by rewrite bool_decide_eq_true_2 in Hc.
Qed.

Lemma removeClass_sub c c' e : c ∉ eclasses e → c ∉ eclasses (removeClass c' e).
Proof. simpl. by intros Hc [? _]%elem_of_List_filter. Qed.

Lemma addClass_not_elem c c' e : c ≠ c' → c ∉ eclasses e → c ∉ eclasses (addClass c' e).
Proof.
  intros Hne Hc. unfold addClass. destruct (_ || _); [done|]. simpl.
  rewrite elem_of_app, list_elem_of_singleton. by intros [?|?].
Qed.

(** Element [i] does not carry class [c]. *)
Definition unmarked (c : string) (p : page) (i : nat) : Prop :=
  ∀ e, p !! i = Some e → c ∉ eclasses e.

Lemma each_unmarked c f l p i :
  (∀ e, c ∉ eclasses e → c ∉ eclasses (f e)) → unmarked c p i → unmarked c (each f l p) i.
Proof.
  intros Hf. unfold each. revert p. induction l as [|j l IH]; intros p Hu; simpl; [done|].
  apply IH. intros e He. rewrite list_lookup_alter in He. case_decide as Heq.
  - subst. apply fmap_Some in He as (e0 & He0 & ->). by apply Hf, Hu.
  - by apply Hu.
Qed.

Lemma each_lookup_ne f l p i : i ∉ l → each f l p !! i = p !! i.
Proof.
  unfold each. revert p. induction l as [|j l IH]; intros p Hi; simpl; [done|].
  apply not_elem_of_cons in Hi as [Hj Hl]. rewrite IH by done. by rewrite list_lookup_alter_ne.
Qed.

Lemma each_marks c f l p i :
  (∀ e, c ∉ eclasses (f e)) → i ∈ l → unmarked c (each f l p) i.
Proof.
  intros Hf. unfold each. revert p. induction l as [|j l IH]; intros p Hi; [by apply elem_of_nil in Hi|].
  simpl. destruct (decide (i ∈ l)) as [Hl|Hl]; [by apply IH|].
  apply elem_of_cons in Hi as [->|?]; [|done].
  intros e He. change (fold_left _ l ?q) with (each f l q) in He.
  rewrite each_lookup_ne in He by done. rewrite list_lookup_alter_eq in He.
  apply fmap_Some in He as (e0 & _ & ->). apply Hf.
Qed.

Lemma highlighted_self p i e : p !! i = Some e → i ∈ highlighted p i.
Proof.
  intros He. unfold highlighted. rewrite He. case_bool_decide; [|by left].
  apply findByName_spec. by exists e.
Qed.

Lemma unhighlight_unmarked S p i j :
  errorClass S ≠ validClass S → i = j ∨ unmarked (errorClass S) p i →
  unmarked (errorClass S) (unhighlight j (errorClass S) (validClass S) p) i.
Proof.
  intros Hne H. unfold unhighlight.
  assert (∀ e, errorClass S ∉ eclasses (addClass (validClass S) (removeClass (errorClass S) e))) as Hf.
  { intros e. apply addClass_not_elem; [done|]. apply removeClass_not_elem. }
  destruct H as [<-|Hu]; [|by apply each_unmarked].
  destruct (p !! i) as [e|] eqn:He; [by eapply each_marks, highlighted_self|].
  unfold highlighted. rewrite He. simpl. intros e' He'. congruence.
Qed.

Lemma unhighlight_all S l v i :
  v_settings v = S → errorClass S ≠ validClass S → i ∈ l ∨ unmarked (errorClass S) (v_page v) i →
  let w := fold_left unhighlight_one l v in
  unmarked (errorClass S) (v_page w) i ∧ v_settings w = S ∧ labels w = labels v ∧ res w = res v ∧
  req w = req v ∧ formSubmitted w = formSubmitted v.
Proof.
  intros HS Hne. revert v HS. induction l as [|j l IH]; intros v HS Hi; simpl.
  - destruct Hi as [Hi|Hi]; [by apply elem_of_nil in Hi|done].
  - apply (IH (unhighlight_one v j)); [done|]. unfold unhighlight_one. simpl. rewrite HS.
    destruct (decide (i ∈ l)); [by left|]. right. apply unhighlight_unmarked; [done|].
    destruct Hi as [[->|?]%elem_of_cons|?]; [by left|done|by right].
Qed.

Lemma errorsFor_frame v v' i :
  v_page v' = v_page v → labels v' = labels v →
  s_groups (v_settings v') = s_groups (v_settings v) → errorsFor v' i = errorsFor v i.
Proof. intros H1 H2 H3. unfold errorsFor, idOrName. by rewrite H1, H2, H3. Qed.

Lemma alter_labels_ne f l (ls : list label) j :
  j ∉ l → fold_left (λ ls i, alter f i ls) l ls !! j = ls !! j.
Proof.
  revert ls. induction l as [|i l IH]; intros ls Hj; simpl; [done|].
  apply not_elem_of_cons in Hj as [Hi Hl]. rewrite IH by done. by rewrite list_lookup_alter_ne.
Qed.

(** Showing no errors: the checked elements lose the error class. *)
Lemma show_no_errors v i :
  let S := v_settings v in
  errorList (res v) = [] → toShow (res v) = [] → errorClass S ≠ validClass S →
  i ∈ currentElements (res v) →
  let w := defaultShowErrors v in
  unmarked (errorClass S) (v_page w) i ∧ v_settings w = S ∧ formSubmitted w = formSubmitted v ∧
  req w = req v ∧ ∀ j, j ∉ toHide (res v) → labels w !! j = labels v !! j.
Proof.
  intros S Hl Hs Hne Hi. unfold defaultShowErrors. rewrite Hl. cbn [fold_left].
  assert (i ∈ validElements v) as Hv.
  { unfold validElements, invalidElements, not_in. rewrite Hl. apply elem_of_List_filter.
    split; [done|]. apply negb_true_iff, bool_decide_eq_false_2, not_elem_of_nil. }
  destruct (unhighlight_all S (validElements v) v i eq_refl Hne (or_introl Hv))
    as (U1 & U2 & U3 & U4 & U5 & U6).
  set (u := fold_left unhighlight_one (validElements v) v) in *. clearbody u. cbv zeta.
  simpl. rewrite U4, Hs. simpl. split_and!; try done. intros j Hj.
  rewrite alter_labels_ne; [by rewrite U3|]. intros [? _]%elem_of_List_filter. done.
Qed.

(** When the server finds a field valid, every field of the last check loses
    its error class, also the fields that are still invalid, whose messages stay
    on the page. *)
Theorem valid_answer_unmarks (E : environment) (S0 : settings) (p : page) evs name r rq i :
  let v := history E evs (initial p S0) in
  let S := v_settings v in
  distinct_names p → errorClass S ≠ validClass S → formSubmitted v = false →
  find_request name v = Some rq → response_valid r = true → i ∈ currentElements (res v) →
  let v' := react E (Answer name r) v in
  unmarked (errorClass S) (v_page v') i ∧
  ∀ j, j ∉ errorsFor v (rq_element rq) → labels v' !! j = labels v !! j.
Proof.
  intros v S Hd Hne Hfs Hf Hr Hi. cbn [react]. rewrite Hf.
  pose proof (reachable_good E S0 p evs Hd) as Hg. fold v in Hg.
  apply find_request_spec in Hf as [Hrq <-].
  destruct (inv_live _ _ (g_inv _ _ _ _ Hg) rq Hrq) as [R1 R2 R3 (x & Hx & _) _ _].
  assert (∃ e, v_page v !! rq_element rq = Some e) as [e He].
  { unfold target, validationTargetFor in R2. destruct (v_page v !! rq_element rq) as [e|]; [|done].
    by exists e. }
  unfold success. set (w := drop_request (rq_name rq) v).
  rewrite (He : v_page w !! rq_element rq = Some e), (Hx : records (req w) !! rq_previous rq = Some x).
  cbv zeta. rewrite Hr. set (w1 := set_settings _ w).
  assert (errorClass (v_settings w1) = errorClass S ∧ validClass (v_settings w1) = validClass S ∧
    s_groups (v_settings w1) = s_groups S) as (He1 & Hv1 & Hg1).
  { unfold w1. simpl. fold S. pose proof (put_remote_message_same (ename e) (originalMessage x) S) as Hs.
    apply same_settings_spec in Hs. by rewrite Hs. }
  set (v3 := set_invalid _ _).
  assert (i ∈ currentElements (res v3)) as Hi3 by exact Hi.
  destruct (show_no_errors v3 i eq_refl eq_refl) as (D1 & D2 & D3 & D4 & D5).
  { change (v_settings v3) with (v_settings w1). by rewrite He1, Hv1. }
  { exact Hi3. }
  change (v_settings v3) with (v_settings w1) in D1, D2. rewrite He1 in D1.
  change (showErrors None v3) with (defaultShowErrors v3).
  set (u := defaultShowErrors v3) in *. clearbody u.
  rewrite stopRequest_eq. cbv zeta.
  match goal with |- context [_ && formSubmitted ?u'] =>
    replace (formSubmitted u') with false by (symmetry; transitivity (formSubmitted v3); [exact D3|exact Hfs])
  end.
  rewrite andb_false_r. simpl. split.
  - intros e' He'. rewrite list_lookup_alter in He'. case_decide as Heq; [|by apply D1].
    apply fmap_Some in He' as (e0 & He0 & ->). apply removeClass_sub. apply D1. congruence.
  - intros j Hj. apply D5. intros Hin. apply Hj.
    rewrite <-(errorsFor_frame v (resetInternals w1)); [exact Hin|done|done|exact Hg1].
Qed.

Lemma valid_answer_unmarks_witness :
  let v := history demo_env [Submit] (initial demo_page demo_settings) in
  unmarked "error" (v_page (react demo_env (Answer "user" (RespBool true)) v)) 1 ∧
  labels (react demo_env (Answer "user" (RespBool true)) v) !! 0 =
    Some (Label "age-error" "age" "Please enter a value greater than or equal to 18." true).
Proof.
  set (v := history demo_env [Submit] (initial demo_page demo_settings)).
  destruct (find_request "user" v) as [rq|] eqn:Hf; [|vm_compute in Hf; discriminate Hf].
  assert (formSubmitted v = false) as Hs by (vm_compute; reflexivity).
  assert (errorClass (v_settings v) ≠ validClass (v_settings v)) as Hne by (vm_compute; discriminate).
  assert (1 ∈ currentElements (res v)) as Hc.
  { apply (bool_decide_unpack _). vm_compute. exact I. }
  assert (errorClass (v_settings v) = "error") as He by (vm_compute; reflexivity).
  pose proof (valid_answer_unmarks demo_env demo_settings demo_page [Submit] "user" (RespBool true) rq 1
    demo_distinct Hne Hs Hf eq_refl Hc) as [H1 H2].
  split; [intros e Hi; rewrite <-He; exact (H1 e Hi)|]. rewrite H2; [vm_compute; reflexivity|].
  vm_compute in Hf. injection Hf as <-. apply (bool_decide_unpack _). vm_compute. exact I.
Defined.
