(* ===== verification/ValidateRulesFacts.v ===== *)
(** * jquery.validate: which rules and which elements are checked

    The order and precedence of an element's rules, and the elements a form
    check covers. *)
From stdpp Require Import base strings list.
From Stdlib Require Import Ascii ZArith QArith Lia.
From S2P Require Import Prelude JsString JsRegex ValidatePage ValidateRules Validate ValidateFacts.
From S2P Require Import ValidateForm.

Local Open Scope nat_scope.

(** ** Objects with distinct properties *)

Section objects.
Context {A : Type}.
Implicit Types (o : list (string * A)) (k : string).

Definition distinct_keys (o : list (string * A)) : Prop := NoDup o.*1.

Lemma obj_get_None o k : obj_get k o = None ↔ k ∉ o.*1.
Proof.
  induction o as [|[k' v] o IH]; csimpl; [split; [intros _; apply not_elem_of_nil|done]|].
  rewrite not_elem_of_cons. case_bool_decide as Hk.
  - split; [done|]. by intros [? _].
  - rewrite IH. split; [by split|by intros [_ ?]].
Qed.

Lemma obj_put_keys o k v : (obj_put k v o).*1 = if bool_decide (k ∈ o.*1) then o.*1 else o.*1 ++ [k].
Proof.
  induction o as [|[k' w] o IH]; csimpl.
  - reflexivity.
  - destruct (bool_decide_reflect (k' = k)) as [->|Hne].
    + rewrite bool_decide_eq_true_2; [done|by left].
    + csimpl. rewrite IH.
      destruct (decide (k ∈ o.*1)) as [Hin|Hin].
      * rewrite !bool_decide_eq_true_2; [done|by right|done].
      * rewrite !bool_decide_eq_false_2; [done| |done]. by intros [?|?]%elem_of_cons.
Qed.

Lemma distinct_put o k v : distinct_keys o → distinct_keys (obj_put k v o).
Proof.
  unfold distinct_keys. rewrite obj_put_keys. case_bool_decide as Hk; [done|].
  intros H. apply NoDup_app. split_and!; [done| |apply NoDup_singleton].
  intros x Hx ->%list_elem_of_singleton. done.
Qed.

Lemma obj_delete_keys o k : (obj_delete k o).*1 = List.filter (λ k', negb (bool_decide (k' = k))) o.*1.
Proof.
  unfold obj_delete. induction o as [|[k' v] o IH]; csimpl; [done|].
  destruct (negb _); csimpl; by rewrite IH.
Qed.

Lemma distinct_delete o k : distinct_keys o → distinct_keys (obj_delete k o).
Proof. unfold distinct_keys. rewrite obj_delete_keys. apply NoDup_List_filter. Qed.

Lemma distinct_extend o o2 : distinct_keys o → distinct_keys (extend o o2).
Proof.
  unfold extend. revert o. induction o2 as [|[k v] o2 IH]; intros o H; csimpl; [done|].
  apply IH. by apply distinct_put.
Qed.

Lemma obj_get_put o k k' v :
  obj_get k (obj_put k' v o) = if decide (k = k') then Some v else obj_get k o.
Proof.
  induction o as [|[k2 w] o IH]; csimpl.
  - case_bool_decide; case_decide; congruence.
  - case_bool_decide as H1; csimpl.
    + subst. case_bool_decide; case_decide; congruence.
    + case_bool_decide as H2; [|done]. subst. by rewrite decide_False by congruence.
Qed.

Lemma obj_get_extend o o2 k :
  distinct_keys o2 →
  obj_get k (extend o o2) = match obj_get k o2 with Some v => Some v | None => obj_get k o end.
Proof.
  unfold extend, distinct_keys. revert o.
  induction o2 as [|[k2 v] o2 IH]; intros o Hd; csimpl in *; [done|].
  apply NoDup_cons in Hd as [Hk Hd]. rewrite IH by done. rewrite obj_get_put.
  case_bool_decide as Heq.
  - subst. by rewrite (proj2 (obj_get_None o2 k)), decide_True by done.
  - destruct (obj_get k o2); [done|]. by rewrite decide_False by congruence.
Qed.

Lemma obj_put_fresh o k v : k ∉ o.*1 → obj_put k v o = o ++ [(k, v)].
Proof.
  induction o as [|[k' w] o IH]; csimpl; [done|]. intros [Hne Hk]%not_elem_of_cons.
  rewrite bool_decide_eq_false_2 by congruence. by rewrite IH.
Qed.

Lemma extend_fresh o o2 :
  distinct_keys o2 → (∀ k, k ∈ o2.*1 → k ∉ o.*1) → extend o o2 = o ++ o2.
Proof.
  unfold extend, distinct_keys. revert o.
  induction o2 as [|[k v] o2 IH]; intros o Hd Hfresh; csimpl in *; [by rewrite app_nil_r|].
  apply NoDup_cons in Hd as [Hk Hd]. rewrite obj_put_fresh by (apply Hfresh; by left).
  rewrite IH; [by rewrite <-app_assoc|done|].
  intros k' Hk'. rewrite fmap_app, elem_of_app. csimpl. intros [Hin|Hin].
  - by apply (Hfresh k'); [right|].
  - apply list_elem_of_singleton in Hin as ->. done.
Qed.

Lemma delete_not_in o k : k ∉ (obj_delete k o).*1.
Proof.
  rewrite obj_delete_keys. intros [_ H]%elem_of_List_filter. by rewrite bool_decide_eq_true_2 in H.
Qed.

Lemma obj_get_delete_ne o k k' : k ≠ k' → obj_get k (obj_delete k' o) = obj_get k o.
Proof.
  intros Hne. unfold obj_delete. induction o as [|[k2 v] o IH]; csimpl; [done|].
  case_bool_decide as H2; csimpl; rewrite IH; [|done]. subst. by rewrite bool_decide_eq_false_2.
Qed.

Lemma obj_get_app o o2 k :
  obj_get k (o ++ o2) = match obj_get k o with Some v => Some v | None => obj_get k o2 end.
Proof. induction o as [|[k2 v] o IH]; csimpl; [done|]. by case_bool_decide. Qed.
End objects.

(** ** The order of the rules *)

Lemma to_front_spec k v o :
  distinct_keys o → obj_get k o = Some v → truthy v = true →
  to_front k o = (k, v) :: obj_delete k o.
Proof.
  intros Hd Hg Ht. unfold to_front. rewrite Hg, Ht. rewrite extend_fresh; [done|by apply distinct_delete|].
  intros k' Hk' ->%list_elem_of_singleton. by apply delete_not_in in Hk'.
Qed.

Lemma to_back_spec k v o :
  distinct_keys o → obj_get k o = Some v → truthy v = true →
  to_back k o = obj_delete k o ++ [(k, v)].
Proof.
  intros Hd Hg Ht. unfold to_back. rewrite Hg, Ht. apply extend_fresh.
  - apply NoDup_singleton.
  - intros k' ->%list_elem_of_singleton. apply delete_not_in.
Qed.

Lemma distinct_to_front k o : distinct_keys o → distinct_keys (to_front k o).
Proof. intros H. unfold to_front. repeat case_match; try done. apply distinct_extend, NoDup_singleton. Qed.

Lemma distinct_to_back k o : distinct_keys o → distinct_keys (to_back k o).
Proof.
  intros H. unfold to_back. repeat case_match; try done. by apply distinct_extend, distinct_delete.
Qed.

Section rules.
Context (E : environment) (S : settings).

Lemma distinct_classRules e : distinct_keys (classRules S e).
Proof.
  unfold classRules. generalize (NoDup_nil_2 : distinct_keys ([] : rules_object)).
  generalize ([] : rules_object). induction (eclasses e) as [|c l IH]; intros o Ho; simpl; [done|].
  apply IH. case_match; [by apply distinct_extend|done].
Qed.

Lemma distinct_normalizeAttributeRule o t m val :
  distinct_keys o → distinct_keys (normalizeAttributeRule o t m val).
Proof.
  intros H. unfold normalizeAttributeRule. cbv zeta.
  match goal with |- context [match (if ?b then ?x else val) with _ => _ end] =>
    generalize (if b then x else val) as val' end. intros val'.
  assert (distinct_keys (match t with
    | Some t => if bool_decide (t = m) && negb (bool_decide (t = "range"))
                then obj_put m (RBool true) o else o
    | None => o end)) as Ho by (repeat case_match; try done; by apply distinct_put).
  destruct val' as [w|]; [|exact Ho]. destruct (_ || _); [by apply distinct_put|exact Ho].
Qed.

Lemma distinct_fold_rules (f : string → option rvalue) t l o :
  distinct_keys o →
  distinct_keys (fold_left (λ o m, normalizeAttributeRule o t m (f m)) l o).
Proof.
  revert o. induction l as [|m l IH]; intros o H; simpl; [done|].
  apply IH. by apply distinct_normalizeAttributeRule.
Qed.

Lemma distinct_attributeRules names e : distinct_keys (attributeRules names e).
Proof.
  unfold attributeRules. cbv zeta.
  pose proof (distinct_fold_rules (attribute_value e) (obj_get "type" (eattributes e)) names []
    (NoDup_nil_2 : distinct_keys ([] : rules_object))) as H.
  repeat case_match; try done. by apply distinct_delete.
Qed.

Lemma distinct_dataRules names e : distinct_keys (dataRules names e).
Proof. apply (distinct_fold_rules (λ m, obj_get (data_key "rule" m) (edata e))). apply NoDup_nil_2. Qed.

Lemma distinct_collected e : distinct_keys (collected E S e).
Proof. unfold collected. repeat apply distinct_extend. apply NoDup_nil_2. Qed.

Lemma distinct_check_dependency i acc kv :
  distinct_keys (snd acc) → distinct_keys (snd (check_dependency E S i acc kv)).
Proof.
  destruct acc as [p o], kv as [k val]. simpl. intros H.
  destruct val as [[]| | | |param depends| | |]; simpl; try done; [by apply distinct_delete|].
  repeat case_match; simpl; try done; [by apply distinct_put|by apply distinct_delete].
Qed.

Lemma distinct_normalizeRules o p i :
  distinct_keys o → distinct_keys (snd (normalizeRules E S o p i)).
Proof.
  intros H. unfold normalizeRules.
  assert (∀ l acc, distinct_keys (snd acc) →
    distinct_keys (snd (fold_left (check_dependency E S i) l acc))) as Hfold.
  { intros l. induction l as [|kv l IH]; intros acc Ha; simpl; [done|].
    apply IH. by apply distinct_check_dependency. }
  specialize (Hfold o (p, o) H). destruct (fold_left _ _ _) as [p1 o1]. simpl in *.
  assert (distinct_keys (evaluate_parameter E p1 i <$> o1)) as H2.
  { unfold distinct_keys. rewrite <-list_fmap_compose. erewrite list_fmap_ext; [exact Hfold|].
    intros _ [k v] _. simpl. unfold evaluate_parameter. simpl. by repeat case_match. }
  assert (∀ q k, distinct_keys q → distinct_keys (clean_length q k)) as Hl.
  { intros q k Hq. unfold clean_length. repeat case_match; try done. by apply distinct_put. }
  assert (∀ q k, distinct_keys q → distinct_keys (clean_range q k)) as Hr.
  { intros q k Hq. unfold clean_range. repeat case_match; try done; by apply distinct_put. }
  assert (∀ q a b c, distinct_keys q → distinct_keys (create_range a b c q)) as Hc.
  { intros q a b c Hq. unfold create_range. repeat case_match; try done.
    by apply distinct_delete, distinct_delete, distinct_put. }
  destruct (autoCreateRanges S); auto 10.
Qed.
End rules.

(** C24. The rules of an element: one parameter per method; where several sources
    give one, the settings win over the data attributes, those over the
    attributes, those over the classes; after normalization [required] is first
    and [remote] is last, so that the server is asked only about values that
    pass everything else. *)
Theorem rules_precedence_and_order (E : environment) (S : settings) p i e k :
  p !! i = Some e → distinct_keys (staticRules S e) →
  let names := (methods E).*1 in
  obj_get k (collected E S e) =
    findDefined [obj_get k (staticRules S e); obj_get k (dataRules names e);
                 obj_get k (attributeRules names e); obj_get k (classRules S e)] ∧
  let rs := snd (rules E S p i) in
  distinct_keys rs ∧
  (∀ v, obj_get "required" rs = Some v → truthy v = true → ∃ rest, rs = ("required", v) :: rest) ∧
  (∀ v, obj_get "remote" rs = Some v → truthy v = true → ∃ rest, rs = rest ++ [("remote", v)]).
Proof.
  intros He Hs names. split.
  { unfold collected. fold names.
    rewrite !obj_get_extend by (auto using distinct_dataRules, distinct_attributeRules, distinct_classRules).
    simpl. by repeat case_match. }
  unfold rules. rewrite He.
  pose proof (distinct_normalizeRules E S (collected E S e) p i (distinct_collected E S e)) as Hd.
  destruct (normalizeRules E S (collected E S e) p i) as [p1 data]. simpl in *.
  set (front := to_front "required" data). assert (distinct_keys front) as Hf by by apply distinct_to_front.
  split; [by apply distinct_to_back|].
  assert (obj_get "remote" (to_back "remote" front) = obj_get "remote" front ∧
    obj_get "required" (to_back "remote" front) = obj_get "required" front) as [Er Eq].
  { unfold to_back. destruct (obj_get "remote" front) as [v|] eqn:Hg; [|done].
    destruct (truthy v); [|done]. rewrite !obj_get_extend by apply NoDup_singleton. simpl.
    by rewrite obj_get_delete_ne. }
  split.
  - rewrite Eq. intros v Hv Ht.
    assert (∃ rest, front = ("required", v) :: rest) as [rest Hrest].
    { unfold front in Hv |- *. unfold to_front in *. destruct (obj_get "required" data) as [w|] eqn:Hg;
        [|congruence]. destruct (truthy w) eqn:Hw; [|congruence].
      pose proof (to_front_spec "required" w data Hd Hg Hw) as Hfr. unfold to_front in Hfr.
      rewrite Hg, Hw in Hfr. rewrite Hfr in Hv |- *. simpl in Hv. injection Hv as ->. by eexists. }
    rewrite Hrest. unfold to_back. repeat case_match; [|by eexists|by eexists].
    rewrite <-Hrest. assert (obj_get "remote" front = Some r) as Hg by (by rewrite Hrest).
    pose proof (to_back_spec "remote" r front Hf Hg H0) as Hb. unfold to_back in Hb.
    rewrite Hg, H0 in Hb. rewrite Hb, Hrest. simpl. by eexists.
  - rewrite Er. intros v Hv Ht. rewrite (to_back_spec _ v) by done. by eexists.
Qed.

Lemma rules_precedence_and_order_witness :
  let rs := snd (rules demo_env demo_settings demo_page 1) in
  rs = [("required", RBool true); ("digits", RBool true); ("min", RNum (Some (18#1)%Q))] ∧
  ∃ rest, rs = ("required", RBool true) :: rest.
Proof.
  intros rs. split; [vm_compute; reflexivity|].
  destruct (rules_precedence_and_order demo_env demo_settings demo_page 1
    (text_field "age" "7" ["digits"] [("type", "text")]) "min" eq_refl) as (_ & _ & H & _).
  - apply (bool_decide_unpack _). vm_compute. exact I.
  - apply H; vm_compute; reflexivity.
Defined.

(** ** The elements that are checked *)

Section elements.
Context (E : environment) (S : settings) (p0 : page).

Definition name_at (i : nat) : string := match p0 !! i with Some e => ename e | None => "" end.

(** Element [i] has no rules, on some page with the same fields. *)
Definition no_rules (i : nat) : Prop :=
  on_fields S p0 (λ q, rules_length (snd (rules E S q i)) = 0).

Definition covered (seen : list string) (i : nat) : Prop :=
  name_at i ∈ object_prototype ∨ name_at i ∈ seen ∨ no_rules i.

Record kept_ok (acc : page * list string * list nat) : Prop := {
  ko_page : same_fields S p0 (fst (fst acc));
  ko_seen : snd (fst acc) = name_at <$> snd acc;
  ko_distinct : NoDup (snd (fst acc));
  ko_names : ∀ n, n ∈ snd (fst acc) → n ∉ object_prototype
}.

Lemma elements_step_ok acc i :
  is_Some (p0 !! i) → kept_ok acc →
  let acc' := elements_step E S acc i in
  kept_ok acc' ∧ (∀ n, n ∈ snd (fst acc) → n ∈ snd (fst acc')) ∧ covered (snd (fst acc')) i ∧
  ∀ j, j ∈ snd acc' → j ∈ snd acc ∨ j = i.
Proof.
  destruct acc as [[q seen] kept]. intros [e0 He0] [Hp Hs Hd Hn]. simpl in *.
  destruct (same_lookup_Some S p0 q i e0 Hp He0) as (e & -> & Hc).
  assert (ename e = name_at i) as Hname.
  { unfold name_at. rewrite He0. by apply (core_name S). }
  rewrite Hname. destruct (_ || _) eqn:Hb.
  - split; [done|]. split; [done|]. split; [|auto].
    apply orb_true_iff in Hb as [Hb%bool_decide_eq_true|Hb%bool_decide_eq_true];
      [by left|right; by left].
  - apply orb_false_iff in Hb as [H1%bool_decide_eq_false H2%bool_decide_eq_false].
    pose proof (rules_same E S q i) as Hr. destruct (rules E S q i) as [q' r] eqn:Hrules.
    simpl in Hr. assert (same_fields S p0 q') as Hq' by by etrans.
    destruct (Nat.eqb_spec (rules_length r) 0) as [Hl|Hl]; simpl.
    + split; [done|]. split; [done|]. split; [|auto]. right. right. exists q.
      split; [done|]. by rewrite Hrules.
    + split; [|split; [|split]].
      * split; simpl; [done|by rewrite fmap_app, Hs| |].
        -- apply NoDup_app. split_and!; [done| |apply NoDup_singleton].
           intros x Hx ->%list_elem_of_singleton. done.
        -- intros n [?| ->%list_elem_of_singleton]%elem_of_app; [by apply Hn|done].
      * intros n ?. apply elem_of_app. by left.
      * right. left. apply elem_of_app. right. by apply list_elem_of_singleton.
      * intros j [?| ->%list_elem_of_singleton]%elem_of_app; auto.
Qed.

Lemma elements_fold_ok l acc :
  (∀ i, i ∈ l → is_Some (p0 !! i)) → kept_ok acc →
  let acc' := fold_left (elements_step E S) l acc in
  kept_ok acc' ∧ (∀ n, n ∈ snd (fst acc) → n ∈ snd (fst acc')) ∧
  (∀ i, i ∈ l → covered (snd (fst acc')) i) ∧ ∀ j, j ∈ snd acc' → j ∈ snd acc ∨ j ∈ l.
Proof.
  revert acc. induction l as [|i l IH]; intros acc Hl Hok; cbn [fold_left]; cbv zeta.
  - split_and!; [done|done| |auto]. intros i Hi. by apply elem_of_nil in Hi.
  - destruct (elements_step_ok acc i) as (H1 & H2 & H3 & H4); [apply Hl; by left|done|].
    destruct (IH (elements_step E S acc i)) as (G1 & G2 & G3 & G4); [|done|].
    { intros j Hj. apply Hl. by right. }
    split_and!; [done|auto| |].
    + intros j [->|Hj]%elem_of_cons; [|by apply G3].
      destruct H3 as [?|[?|?]]; [by left|right; left; auto|right; by right].
    + intros j Hj. destruct (G4 j Hj) as [Hj'|?]; [|right; by right].
      destruct (H4 j Hj') as [?| ->]; [by left|right; by left].
Qed.
End elements.

(** A form check covers the form: each element it picks is an input of the form
    that is not disabled or ignored, and no two have the same name; and the
    name of every such input that has rules is picked, except when it is the name
    of a property every object inherits. *)
Theorem form_check_covers (E : environment) (v : validator) :
  let S := v_settings v in let p := v_page v in let l := snd (elements E v) in
  NoDup (name_at p <$> l) ∧
  (∀ i, i ∈ l → ∃ e, p !! i = Some e ∧ selectable e = true ∧ ename e ∉ object_prototype) ∧
  (∀ i e, p !! i = Some e → selectable e = true → ename e ∉ object_prototype →
     ename e ∈ name_at p <$> l ∨ no_rules E S p i).
Proof.
  intros S p. unfold elements. fold S p.
  assert (∀ i, i ∈ positions selectable p ↔ ∃ e, p !! i = Some e ∧ selectable e = true) as Hpos.
  { intros i. unfold positions. rewrite positions_spec, Nat.sub_0_r.
    split; [intros (e & _ & ? & ?)|intros (e & ? & ?)]; exists e; auto with lia. }
  destruct (elements_fold_ok E S p (positions selectable p) (p, [], [])) as (H1 & H2 & H3 & H4).
  { intros i (e & He & _)%Hpos. by exists e. }
  { split; [done|done|constructor|]. intros n Hn. by apply elem_of_nil in Hn. }
  destruct (fold_left _ _ _) as [[q seen] kept]. simpl in *. destruct H1 as [K1 K2 K3 K4].
  simpl in *. subst seen. split_and!; [done| |].
  - intros i Hi. destruct (H4 i Hi) as [Hn|Hi']; [by apply elem_of_nil in Hn|].
    apply Hpos in Hi' as (e & He & Hs). exists e. split_and!; [done|done|].
    apply K4, list_elem_of_fmap. exists i. split; [|done]. unfold name_at. by rewrite He.
  - intros i e He Hs Hn. destruct (H3 i) as [Hc|[Hc|Hc]]; [apply Hpos; by exists e| | |by right].
    + destruct Hn. unfold name_at in Hc. by rewrite He in Hc.
    + left. unfold name_at in Hc at 1. by rewrite He in Hc.
Qed.
