(* ===== verification/ValidateMethods.v ===== *)
(** * jquery.validate: the values the methods accept

    What the regular expressions of [digits], [number] and [dateISO] come to in
    terms of digits and numbers, by the denotation of [JsRegex], and how [number]
    and the comparisons [min], [max] and [range] fit together. *)
From stdpp Require Import base strings list.
From Stdlib Require Import Ascii ZArith QArith Lia.
From S2P Require Import Prelude JsString JsRegex ValidatePage.

Local Open Scope nat_scope.

(** ** Characters *)

(** Evaluate the codes of literal characters. *)
Ltac eval_codes :=
  repeat match goal with
  | |- context [code (Ascii ?a ?b ?c ?d ?e ?f ?g ?h)] =>
      let n := eval vm_compute in (code (Ascii a b c d e f g h)) in
      change (code (Ascii a b c d e f g h)) with n
  | H : context [code (Ascii ?a ?b ?c ?d ?e ?f ?g ?h)] |- _ =>
      let n := eval vm_compute in (code (Ascii a b c d e f g h)) in
      change (code (Ascii a b c d e f g h)) with n in H
  end.

Lemma take_while_app {A} (p : A → bool) l k :
  Forall (λ x, p x = true) l → (∀ x, head k = Some x → p x = false) →
  take_while p (l ++ k) = l ∧ drop_while p (l ++ k) = k.
Proof.
  induction 1 as [|x l Hx _ IH]; intros Hk; simpl.
  - destruct k as [|y k]; [done|]. simpl. by rewrite (Hk y).
  - rewrite Hx. destruct (IH Hk) as [-> ->]. done.
Qed.

Lemma digit_not_space c : is_digit c = true → is_space c = false.
Proof.
  intros H%is_digit_code. unfold is_space.
  rewrite (proj2 (Nat.eqb_neq _ 32)), (proj2 (Nat.eqb_neq _ 160)) by lia.
  rewrite (proj2 (Nat.leb_gt _ 13)) by lia. by rewrite andb_false_r.
Qed.

(** [trim] does nothing to a string without white space. *)
Lemma trim_no_space l : Forall (λ c, is_space c = false) l → trim l = l.
Proof.
  intros H. unfold trim. rewrite (drop_while_none is_space l).
  - rewrite drop_while_none; [by rewrite rev_involutive|].
    intros x Hx. rewrite List.Forall_forall in H. apply H, List.in_rev.
    destruct (rev l); simpl in Hx; [done|]. injection Hx as ->. by left.
  - intros x Hx. destruct H; simpl in Hx; [done|]. by injection Hx as ->.
Qed.

(** ** [Number] of a decimal *)

Lemma parse_unsigned_int l :
  all_digits l → l ≠ [] → parse_unsigned l = Some (Qmake (digits_value 0 l) 1, []).
Proof.
  intros Hl Hne. unfold parse_unsigned.
  destruct (take_while_app is_digit l [] Hl) as [H1 H2]; [done|].
  rewrite app_nil_r in H1, H2. rewrite H1, H2. by destruct l.
Qed.

Lemma parse_unsigned_frac l k :
  all_digits l → all_digits k → k ≠ [] →
  parse_unsigned (l ++ "."%char :: k) =
    Some (Qmake (digits_value 0 (l ++ k)) (ten_to (length k)), []).
Proof.
  intros Hl Hk Hne. unfold parse_unsigned.
  destruct (take_while_app is_digit l ("."%char :: k) Hl) as [H1 H2]; [by intros x [= <-]|].
  rewrite H1, H2.
  destruct (take_while_app is_digit k [] Hk) as [H3 H4]; [done|]. rewrite app_nil_r in H3, H4.
  rewrite H3, H4. destruct l; [|done]. by destruct k.
Qed.

(** A decimal without sign: digits, or digits, a point and digits. *)
Definition decimal (l : chars) : Prop :=
  (all_digits l ∧ l ≠ []) ∨
  ∃ a b, l = a ++ "."%char :: b ∧ all_digits a ∧ all_digits b ∧ b ≠ [].

Lemma parse_unsigned_decimal l : decimal l → ∃ q, parse_unsigned l = Some (q, []).
Proof.
  intros [[H1 H2]|(a & b & -> & Ha & Hb & Hne)]; eexists.
  - by apply parse_unsigned_int.
  - by apply parse_unsigned_frac.
Qed.

Lemma decimal_head l c l' : decimal l → l = c :: l' → c = "."%char ∨ is_digit c = true.
Proof.
  intros [[H _]|(a & b & -> & Ha & _)] Heq.
  - subst. apply Forall_cons in H as [? _]. by right.
  - destruct a as [|d a]; simplify_eq/=; [by left|]. apply Forall_cons in Ha as [? _]. by right.
Qed.

Lemma decimal_no_space l : decimal l → Forall (λ c, is_space c = false) l.
Proof.
  assert (∀ k, all_digits k → Forall (λ c, is_space c = false) k) as Hd.
  { intros k Hk. eapply Forall_impl; [exact Hk|]. intros c. apply digit_not_space. }
  intros [[H _]|(a & b & -> & Ha & Hb & _)]; [by apply Hd|].
  apply Forall_app. split; [by apply Hd|]. constructor; [done|by apply Hd].
Qed.

Lemma parse_signed_decimal l : decimal l → parse_signed l = parse_unsigned l.
Proof.
  intros H. destruct l as [|c l]; [done|]. destruct (decimal_head _ c l H eq_refl) as [->|Hc]; [done|].
  apply is_digit_code in Hc. unfold parse_signed.
  destruct c as [[] [] [] [] [] [] [] []]; try done; unfold code in Hc; vm_compute in Hc; lia.
Qed.

Lemma Number_decimal l : decimal l → ∃ q, Number l = Some q.
Proof.
  intros H. destruct (parse_unsigned_decimal l H) as [q Hq]. exists q. unfold Number.
  rewrite trim_no_space by by apply decimal_no_space.
  destruct l as [|c k]; [by destruct H as [[_ ?]|([] & ? & ? & _)]|].
  by rewrite parse_signed_decimal, Hq.
Qed.

Lemma Number_negative l : decimal l → ∃ q, Number ("-"%char :: l) = Some q.
Proof.
  intros H. destruct (parse_unsigned_decimal l H) as [q Hq]. exists (Qopp q). unfold Number.
  rewrite trim_no_space by (constructor; [done|by apply decimal_no_space]).
  simpl. by rewrite Hq.
Qed.

(** A string with a comma is no number. *)
Lemma not_comma_digit c : is_digit c = true → c ≠ ","%char.
Proof. by intros Hc ->. Qed.

Lemma take_while_no_comma l : ","%char ∈ l → ","%char ∈ drop_while is_digit l.
Proof.
  intros H. rewrite <-(take_drop_while is_digit l) in H. apply elem_of_app in H as [H|H]; [|done].
  pose proof (take_while_all is_digit l) as Ha. rewrite Forall_forall in Ha.
  by apply Ha, not_comma_digit in H.
Qed.

Lemma parse_unsigned_comma l q rest :
  ","%char ∈ l → parse_unsigned l = Some (q, rest) → ","%char ∈ rest.
Proof.
  intros H%take_while_no_comma. unfold parse_unsigned.
  destruct (drop_while is_digit l) as [|c k] eqn:Hd; [by apply elem_of_nil in H|].
  destruct (ascii_dec c ".") as [->|Hc].
  - apply elem_of_cons in H as [?|H]; [done|]. apply take_while_no_comma in H.
    by destruct (take_while is_digit l), (take_while is_digit k); intros [= _ <-].
  - assert ((match take_while is_digit l with [] => None
      | _ => Some (Qmake (digits_value 0 (take_while is_digit l)) 1, c :: k) end) = Some (q, rest) →
      ","%char ∈ rest) as Hgoal by (destruct (take_while is_digit l); [done|by intros [= _ <-]]).
    destruct c as [[] [] [] [] [] [] [] []]; try exact Hgoal. by destruct Hc.
Qed.

Lemma parse_signed_comma l q rest :
  ","%char ∈ l → parse_signed l = Some (q, rest) → ","%char ∈ rest.
Proof.
  intros H. destruct l as [|c k]; [by apply elem_of_nil in H|].
  destruct (ascii_dec c "-") as [->|H1].
  { apply elem_of_cons in H as [?|H]; [done|]. simpl. intros ([q0 r0] & H2 & [= _ <-])%bind_Some.
    by eapply parse_unsigned_comma. }
  destruct (ascii_dec c "+") as [->|H2].
  { apply elem_of_cons in H as [?|H]; [done|]. by apply parse_unsigned_comma. }
  assert (parse_signed (c :: k) = parse_unsigned (c :: k)) as ->.
  { unfold parse_signed. destruct c as [[] [] [] [] [] [] [] []]; try reflexivity; done. }
  by apply parse_unsigned_comma.
Qed.

Lemma apply_exponent_comma q l q' rest :
  ","%char ∈ l → apply_exponent q l = (q', rest) → rest ≠ [].
Proof.
  intros H. destruct l as [|c k]; [by apply elem_of_nil in H|]. unfold apply_exponent.
  case_bool_decide as Hc; [|by intros [= _ <-]].
  apply elem_of_cons in H as [<-|H]; [done|].
  assert (∀ (sign : bool) m, ","%char ∈ m →
    match take_while is_digit m with
    | [] => (q, c :: k)
    | ds => let k0 := Z.to_nat (digits_value 0 ds) in
        ((if sign then Qmult q (Qmake 1 (ten_to k0)) else Qmult q (Qmake (Zpos (ten_to k0)) 1)),
         drop_while is_digit m)
    end = (q', rest) → rest ≠ []) as Hm.
  { intros sign m Hin. apply take_while_no_comma in Hin.
    destruct (take_while is_digit m); [by intros [= _ <-]|]. cbv zeta. intros [= _ <-] Hn.
    rewrite Hn in Hin. by apply elem_of_nil in Hin. }
  destruct k as [|d k]; [by apply elem_of_nil in H|].
  destruct (ascii_dec d "-") as [->|H1].
  { apply elem_of_cons in H as [?|H]; [done|]. by apply (Hm true). }
  destruct (ascii_dec d "+") as [->|H2].
  { apply elem_of_cons in H as [?|H]; [done|]. by apply (Hm false). }
  destruct d as [[] [] [] [] [] [] [] []]; try (by apply (Hm false)); done.
Qed.

Lemma trim_comma l : ","%char ∈ l → ","%char ∈ trim l.
Proof.
  assert (∀ k, ","%char ∈ k → ","%char ∈ drop_while is_space k) as Hd.
  { intros k H. rewrite <-(take_drop_while is_space k) in H. apply elem_of_app in H as [H|H]; [|done].
    pose proof (take_while_all is_space k) as Ha. rewrite Forall_forall in Ha. by apply Ha in H. }
  intros H. unfold trim. apply list_elem_of_In. rewrite <-List.in_rev. apply list_elem_of_In, Hd.
  apply list_elem_of_In. rewrite <-List.in_rev. by apply list_elem_of_In, Hd.
Qed.

Lemma Number_comma l : ","%char ∈ l → Number l = None.
Proof.
  intros H%trim_comma. unfold Number. destruct (trim l) as [|c k]; [by apply elem_of_nil in H|].
  destruct (parse_signed (c :: k)) as [[q rest]|] eqn:Hp; [|done]. simpl.
  pose proof (parse_signed_comma _ _ _ H Hp) as Hr.
  destruct (apply_exponent q rest) as [q' rest'] eqn:He.
  pose proof (apply_exponent_comma _ _ _ _ Hr He). by destruct rest'.
Qed.

(** ** Reading the expressions *)

(** The method [name] on a string value. *)
Definition method_on (E : environment) (name : string) (p : page) (i : nat) (e : element)
    (s : string) (param : rvalue) : option mresult :=
  match obj_get name (builtin_methods E) with
  | Some (Reads f) => f p (VStr s) i e param
  | _ => None
  end.

Lemma fraction_to u :
  matches_to (ROpt (RSeq (RLit ".") (RPlus RDigit))) u [] →
  u = [] ∨ ∃ k, u = "."%char :: k ∧ k ≠ [] ∧ all_digits k.
Proof.
  rewrite opt_to. intros [->|H]; [by left|]. right.
  apply seq_to in H as (w & ->%lit_to & (k & -> & Hne & Hk)%digits_to).
  exists k. by rewrite app_nil_r.
Qed.

Lemma decimal_app k u :
  k ≠ [] → all_digits k → (u = [] ∨ ∃ f, u = "."%char :: f ∧ f ≠ [] ∧ all_digits f) →
  decimal (k ++ u).
Proof.
  intros Hne Hk [->|(f & -> & Hf & Hfd)].
  - left. by rewrite app_nil_r.
  - right. by exists k, f.
Qed.

(** A value [number] accepts, without a comma, is a number. *)
Lemma number_match_readable s :
  matches_to number_regex s [] → s ≠ [] → ","%char ∉ s → ∃ q, Number s = Some q.
Proof.
  intros (u & HA & HB%fraction_to)%seq_to Hne Hcomma. apply opt_to in HA as [->|HA].
  - apply Number_decimal. destruct HB as [->|(k & -> & Hk & Hkd)]; [done|].
    right. exists [], k. split_and!; [done|constructor|done|done].
  - apply alt_to in HA as [HA|HA].
    + apply seq_to in HA as (w & Hsign & (k & -> & Hk & Hkd)%digits_to).
      pose proof (decimal_app k u Hk Hkd HB) as Hd.
      apply opt_to in Hsign as [->| ->%lit_to]; [by apply Number_decimal|by apply Number_negative].
    + destruct Hcomma. unfold RAll in HA. simpl foldl in HA.
      apply seq_to in HA as (w & HA & HP). apply seq_to in HP as (w' & Hc & _).
      apply seq_to in Hc as (w2 & ->%lit_to & _).
      assert ("," :: w2 `suffix_of` s)%char as [pre ->] by (by eapply matches_to_suffix).
      apply elem_of_app. right. by left.
Qed.

(** What [number] accepts and has no thousands separators is a number to
    JavaScript, so that [min], [max] and [range] compare it; and [digits]
    accepts exactly the non-empty strings of digits, which [Number] reads as the
    number they denote. *)
Theorem numbers_readable (s : string) :
  (test_regex number_regex (VStr s) = true → s ≠ "" → ","%char ∉ chars_of s →
     ∃ q, val_number (VStr s) = Some q) ∧
  (test_regex digits_regex (VStr s) = true ↔ chars_of s ≠ [] ∧ all_digits (chars_of s)) ∧
  (test_regex digits_regex (VStr s) = true →
     val_number (VStr s) = Some (inject_Z (digits_value 0 (chars_of s)))).
Proof.
  assert (test_regex digits_regex (VStr s) = true ↔ chars_of s ≠ [] ∧ all_digits (chars_of s)) as Hdig.
  { unfold test_regex. simpl. rewrite full_match_spec. unfold digits_regex. rewrite digits_to.
    split; [intros (k & -> & ? & ?)|intros [? ?]]; [by rewrite app_nil_r|].
    exists (chars_of s). by rewrite app_nil_r. }
  split_and!; [| exact Hdig |].
  - unfold test_regex. simpl. rewrite full_match_spec. intros H Hne Hc. apply number_match_readable; try done.
    intros Hs. apply Hne. by rewrite <-(string_of_chars_of s), Hs.
  - intros [Hne Hd]%Hdig. simpl. unfold Number.
    rewrite trim_no_space by (eapply Forall_impl; [exact Hd|]; intros c; apply digit_not_space).
    destruct (chars_of s) as [|c k] eqn:Hs; [done|].
    rewrite parse_signed_decimal by (by left). by rewrite parse_unsigned_int.
Qed.

Lemma numbers_readable_witness : ∃ q, val_number (VStr "-12.50") = Some q.
Proof.
  apply (proj1 (numbers_readable "-12.50")); [vm_compute; reflexivity|discriminate|].
  apply (bool_decide_unpack _). vm_compute. exact I.
Defined.

(** A number with thousands separators, which [number] accepts, is rejected by
    [min], [max] and [range] whatever their bounds: it is not a number to the
    comparison. *)
Theorem grouped_numbers_rejected (E : environment) p i e s q1 q2 :
  optional E p i e = false → test_regex number_regex (VStr s) = true → ","%char ∈ chars_of s →
  method_on E "number" p i e s (RBool true) = Some MTrue ∧
  method_on E "min" p i e s (RNum q1) = Some MFalse ∧
  method_on E "max" p i e s (RNum q2) = Some MFalse ∧
  method_on E "range" p i e s (RArr [RNum q1; RNum q2]) = Some MFalse.
Proof.
  intros Hopt Hnum Hc. unfold method_on. simpl. unfold unless_optional. rewrite Hopt, Hnum.
  unfold js_ge, js_le, compare_with. simpl. rewrite (Number_comma _ Hc). done.
Qed.

Definition price : element :=
  Element "price" "" "text" Input false false false "1,234" [] false None [] [] [] "" [] None.

Lemma grouped_numbers_rejected_witness :
  let E := Environment (λ _ _, []) (λ _ _ _, RBool true) (λ _ _ _ v, v) (λ _ _, []) (λ s, s)
             (λ _, "") [] in
  method_on E "number" [price] 0 price "1,234" (RBool true) = Some MTrue ∧
  method_on E "min" [price] 0 price "1,234" (RNum (Some (5#1)%Q)) = Some MFalse.
Proof.
  intros E.
  destruct (grouped_numbers_rejected E [price] 0 price "1,234" (Some (5#1)%Q) None) as (H1 & H2 & _).
  - vm_compute. reflexivity.
  - vm_compute. reflexivity.
  - apply (bool_decide_unpack _). vm_compute. exact I.
  - split; [exact H1|exact H2].
Defined.

(** ** Dates *)

(** One or two digits of a value from [lo] to [hi]. *)
Definition short_number (lo hi : Z) (l : chars) : Prop :=
  (length l = 1 ∨ length l = 2) ∧ all_digits l ∧ (lo ≤ digits_value 0 l ≤ hi)%Z.

Lemma short_number_1 lo hi c :
  short_number lo hi [c] ↔ is_digit c = true ∧ (lo ≤ Z.of_nat (code c) - 48 ≤ hi)%Z.
Proof.
  unfold short_number, all_digits. rewrite Forall_singleton. simpl. unfold digit_value.
  split; [intros (_ & ? & ?)|intros [? ?]]; split_and!; try done; try lia; by left.
Qed.

Lemma short_number_2 lo hi c d :
  short_number lo hi [c; d] ↔ is_digit c = true ∧ is_digit d = true ∧
    (lo ≤ (Z.of_nat (code c) - 48) * 10 + (Z.of_nat (code d) - 48) ≤ hi)%Z.
Proof.
  unfold short_number, all_digits. rewrite Forall_cons, Forall_singleton. simpl. unfold digit_value.
  split; [intros (_ & [? ?] & ?)|intros (? & ? & ?)]; split_and!; try done; try lia; by right.
Qed.

Lemma short_number_cases lo hi l :
  short_number lo hi l → (∃ c, l = [c]) ∨ ∃ c d, l = [c; d].
Proof.
  intros ([H|H] & _).
  - destruct l as [|c [|]]; try done. left. by exists c.
  - destruct l as [|c [|d [|]]]; try done. right. by exists c, d.
Qed.

(** [(0?[1-9]|...)]: the part with an optional zero. *)
Lemma one_to_nine_to s t :
  matches_to (RSeq (ROpt (RLit "0")) (RRange "1" "9")) s t ↔
    ∃ l, s = l ++ t ∧ short_number 1 9 l.
Proof.
  rewrite seq_to. split.
  - intros (u & Hz & (c & -> & Hc)%range_to). eval_codes.
    apply opt_to in Hz as [->| ->%lit_to].
    + exists [c]. split; [done|]. apply short_number_1. rewrite is_digit_code. eval_codes. lia.
    + exists ["0"%char; c]. split; [done|]. apply short_number_2. rewrite !is_digit_code. eval_codes. lia.
  - intros (l & -> & Hl). destruct (short_number_cases _ _ _ Hl) as [[c ->]|(c & d & ->)].
    + apply short_number_1 in Hl as [_ Hc]. exists (c :: t). split; [apply opt_to; by left|].
      apply range_to. exists c. split; [done|]. eval_codes. lia.
    + apply short_number_2 in Hl as (Hc%is_digit_code & Hd%is_digit_code & Hv).
      assert (c = "0"%char) as -> by (apply code_inj; eval_codes; lia).
      exists (d :: t). split; [apply opt_to; right; by apply lit_to|].
      apply range_to. exists d. split; [done|]. eval_codes. lia.
Qed.

Lemma month_to s t :
  matches_to (RAlt (RSeq (ROpt (RLit "0")) (RRange "1" "9")) (RSeq (RLit "1") (ROneOf "012"))) s t ↔
    ∃ l, s = l ++ t ∧ short_number 1 12 l.
Proof.
  rewrite alt_to, one_to_nine_to, seq_to. split.
  - intros [(l & -> & Hl & Hd & Hv)|(u & ->%lit_to & (c & -> & Hc)%oneof_to)].
    + exists l. split; [done|]. split_and!; [done|done|lia|lia].
    + exists ["1"%char; c]. split; [done|]. apply short_number_2.
      simpl in Hc. rewrite !elem_of_cons, elem_of_nil in Hc.
      destruct Hc as [->|[->|[->|[]]]]; eval_codes; (split_and!; [done|done|lia|lia]).
  - intros (l & -> & Hl). destruct (decide (digits_value 0 l ≤ 9)%Z) as [Hv|Hv].
    { left. exists l. destruct Hl as (H1 & H2 & H3 & H4). by split_and!. }
    right. destruct (short_number_cases _ _ _ Hl) as [[c ->]|(c & d & ->)].
    + apply short_number_1 in Hl as [Hc%is_digit_code _]. simpl in Hv. unfold digit_value in Hv. lia.
    + apply short_number_2 in Hl as (Hc%is_digit_code & Hd%is_digit_code & Hl).
      simpl in Hv. unfold digit_value in Hv.
      assert (c = "1"%char) as -> by (apply code_inj; eval_codes; lia). eval_codes.
      exists (d :: t). split; [by apply lit_to|]. apply oneof_to. exists d. split; [done|].
      assert (code d = 48 ∨ code d = 49 ∨ code d = 50) as [Hd'|[Hd'|Hd']] by lia;
        [rewrite (code_inj d "0" Hd')|rewrite (code_inj d "1" Hd')|rewrite (code_inj d "2" Hd')];
        apply (bool_decide_unpack _); vm_compute; exact I.
Qed.

Lemma day_to s t :
  matches_to (RAny [RSeq (ROpt (RLit "0")) (RRange "1" "9"); RSeq (ROneOf "12") (RRange "0" "9");
                    RSeq (RLit "3") (ROneOf "01")]) s t ↔
    ∃ l, s = l ++ t ∧ short_number 1 31 l.
Proof.
  unfold RAny. simpl foldl. rewrite !alt_to, one_to_nine_to, !seq_to. split.
  - intros [[(l & -> & Hl & Hd & Hv)|(u & (c & -> & Hc)%oneof_to & (d & -> & Hd)%range_to)]|
            (u & ->%lit_to & (c & -> & Hc)%oneof_to)].
    + exists l. split; [done|]. split_and!; [done|done|lia|lia].
    + exists [c; d]. split; [done|]. apply short_number_2. simpl in Hc. eval_codes.
      rewrite !elem_of_cons, elem_of_nil in Hc. rewrite (is_digit_code d).
      destruct Hc as [->|[->|[]]]; eval_codes; (split_and!; [done|lia|lia|lia|lia]).
    + exists ["3"%char; c]. split; [done|]. apply short_number_2.
      simpl in Hc. rewrite !elem_of_cons, elem_of_nil in Hc.
      destruct Hc as [->|[->|[]]]; eval_codes; (split_and!; [done|done|lia|lia]).
  - intros (l & -> & Hl). destruct (decide (digits_value 0 l ≤ 9)%Z) as [Hv|Hv].
    { left. left. exists l. destruct Hl as (H1 & H2 & H3 & H4). by split_and!. }
    destruct (short_number_cases _ _ _ Hl) as [[c ->]|(c & d & ->)].
    + apply short_number_1 in Hl as [Hc%is_digit_code _]. simpl in Hv. unfold digit_value in Hv. lia.
    + apply short_number_2 in Hl as (Hc%is_digit_code & Hd%is_digit_code & Hl).
      simpl in Hv. unfold digit_value in Hv.
      assert (code c = 49 ∨ code c = 50 ∨ code c = 51) as [Hc'|[Hc'|Hc']] by lia.
      * left. right. exists (d :: t). split; [|apply range_to; exists d; eval_codes; split; [done|lia]].
        apply oneof_to. exists c. split; [done|]. rewrite (code_inj c "1" Hc').
        apply (bool_decide_unpack _); vm_compute; exact I.
      * left. right. exists (d :: t). split; [|apply range_to; exists d; eval_codes; split; [done|lia]].
        apply oneof_to. exists c. split; [done|]. rewrite (code_inj c "2" Hc').
        apply (bool_decide_unpack _); vm_compute; exact I.
      * right. rewrite (code_inj c "3" Hc') in Hl |- *. exists (d :: t). split; [by apply lit_to|].
        apply oneof_to. exists d. split; [done|]. eval_codes.
        assert (code d = 48 ∨ code d = 49) as [Hd'|Hd'] by lia;
          [rewrite (code_inj d "0" Hd')|rewrite (code_inj d "1" Hd')];
          apply (bool_decide_unpack _); vm_compute; exact I.
Qed.

(** [dateISO] accepts exactly a year of four digits, a month from 1 to 12 and a
    day from 1 to 31, of one or two digits, with [-] or [/] between them: also
    days the month does not have. *)
Theorem dateISO_spec (s : string) :
  test_regex dateISO_regex (VStr s) = true ↔
  ∃ y m d sep1 sep2,
    chars_of s = y ++ sep1 :: m ++ sep2 :: d ∧ length y = 4 ∧ all_digits y ∧
    short_number 1 12 m ∧ short_number 1 31 d ∧
    (sep1 = "-"%char ∨ sep1 = "/"%char) ∧ (sep2 = "-"%char ∨ sep2 = "/"%char).
Proof.
  assert (∀ c, c ∈ chars_of "/-" ↔ c = "-"%char ∨ c = "/"%char) as Hsep.
  { intros c. simpl. rewrite !elem_of_cons, elem_of_nil. tauto. }
  unfold test_regex. simpl val_string. rewrite full_match_spec. unfold dateISO_regex, RAll. simpl foldl.
  setoid_rewrite seq_to. setoid_rewrite seq_to. setoid_rewrite seq_to. setoid_rewrite seq_to.
  split.
  - intros (u4 & (u3 & (u2 & (u1 & H1 & H2) & H3) & H4) & H5).
    apply (times_chars_to 4) in H1 as (y & -> & Hy & Hyd). apply oneof_to in H2 as (s1 & -> & Hs1).
    apply month_to in H3 as (m & -> & Hm). apply oneof_to in H4 as (s2 & -> & Hs2).
    apply day_to in H5 as (d & -> & Hd). exists y, m, d, s1, s2.
    rewrite app_nil_r. apply Hsep in Hs1, Hs2. by split_and!.
  - intros (y & m & d & s1 & s2 & -> & Hy & Hyd & Hm & Hd & Hs1%Hsep & Hs2%Hsep).
    exists d. split; [|apply day_to; exists d; by rewrite app_nil_r].
    exists (s2 :: d). split; [|apply oneof_to; by exists s2].
    exists (m ++ s2 :: d). split; [|apply month_to; by exists m].
    exists (s1 :: m ++ s2 :: d). split; [|apply oneof_to; by exists s1].
    apply (times_chars_to 4). by exists y.
Qed.
