(* ===== verification/JsDate.v ===== *)
(** * Dates of JavaScript

    [Date.UTC] and the getters [getUTCFullYear], [getUTCMonth] and [getUTCDate],
    by the language's own formulas: days are counted from 1970, months from 0.
    The getters invert [Date.UTC] on the dates of the calendar, and give a date
    of the calendar whatever the day. *)
From stdpp Require Import base list.
From Stdlib Require Import ZArith Lia.
From S2P Require Import Prelude.

Local Open Scope Z_scope.

Definition DayFromYear (y : Z) : Z :=
  365 * (y - 1970) + (y - 1969) / 4 - (y - 1901) / 100 + (y - 1601) / 400.

Definition InLeapYear (y : Z) : bool :=
  (y mod 4 =? 0) && (negb (y mod 100 =? 0) || (y mod 400 =? 0)).

Definition leap_day (leap : bool) : Z := if leap then 1 else 0.

(** The first day of a month within its year. *)
Definition month_start (leap : bool) (m : Z) : Z :=
  nth (Z.to_nat m) [0; 31; 59; 90; 120; 151; 181; 212; 243; 273; 304; 334] 365 +
  (if m <? 2 then 0 else leap_day leap).

Definition month_length (leap : bool) (m : Z) : Z :=
  if m =? 1 then 28 + leap_day leap
  else if (m =? 3) || (m =? 5) || (m =? 8) || (m =? 10) then 30 else 31.

Definition MakeDay (y m d : Z) : Z :=
  let ym := y + m / 12 in
  DayFromYear ym + month_start (InLeapYear ym) (m mod 12) + d - 1.

(** [Date.UTC(y, m, d, 12, 0, 0, 0)] as the day it falls on: years below 100
    are of the last century. *)
Definition UTC_day (y m d : Z) : Z :=
  MakeDay (if (0 <=? y) && (y <=? 99) then 1900 + y else y) m d.

(** The largest year that begins at or before a day. *)
Definition YearFromDay (t : Z) : Z :=
  let y := 1970 + t * 400 / 146097 in
  if DayFromYear (y + 1) <=? t then y + 1 else if t <? DayFromYear y then y - 1 else y.

Definition DayWithinYear (t : Z) : Z := t - DayFromYear (YearFromDay t).

(** The last month that begins at or before a day of the year. *)
Fixpoint last_month (leap : bool) (n : nat) (d : Z) : Z :=
  match n with
  | O => 0
  | S n' => if month_start leap (Z.of_nat n) <=? d then Z.of_nat n else last_month leap n' d
  end.

Definition MonthFromDay (t : Z) : Z := last_month (InLeapYear (YearFromDay t)) 11 (DayWithinYear t).
Definition DateFromDay (t : Z) : Z :=
  DayWithinYear t - month_start (InLeapYear (YearFromDay t)) (MonthFromDay t) + 1.

(** A date of the calendar, months counted from 0. *)
Definition calendar_date (y m d : Z) : Prop := 0 ≤ m < 12 ∧ 1 ≤ d ≤ month_length (InLeapYear y) m.

(** ** Years *)

Lemma DayFromYear_succ y : DayFromYear (y + 1) = DayFromYear y + 365 + leap_day (InLeapYear y).
Proof.
  unfold DayFromYear, leap_day, InLeapYear.
  destruct (Z.eqb_spec (y mod 4) 0), (Z.eqb_spec (y mod 100) 0), (Z.eqb_spec (y mod 400) 0); simpl;
    Z.div_mod_to_equations; lia.
Qed.

Lemma YearFromDay_spec t : DayFromYear (YearFromDay t) ≤ t < DayFromYear (YearFromDay t + 1).
Proof.
  unfold YearFromDay. set (y := 1970 + t * 400 / 146097).
  assert (DayFromYear (y - 1) ≤ t < DayFromYear (y + 1 + 1)) as [H1 H2] .
  { unfold y. generalize (Z.mul_div_le (t * 400) 146097 eq_refl) (Z.mul_succ_div_gt (t * 400) 146097 eq_refl).
    generalize (t * 400 / 146097) as q. intros q Hlo Hhi. clear y. unfold DayFromYear. Z.div_mod_to_equations. lia. }
  destruct (Z.leb_spec (DayFromYear (y + 1)) t); [done|].
  destruct (Z.ltb_spec t (DayFromYear y)); [|done]. by replace (y - 1 + 1) with y by lia.
Qed.

Lemma DayFromYear_mono y y' : y < y' → DayFromYear (y + 1) ≤ DayFromYear y'.
Proof.
  intros H. assert (∀ k : nat, DayFromYear (y + 1) ≤ DayFromYear (y + 1 + Z.of_nat k)) as Hk.
  { induction k as [|k IH]; [by rewrite Z.add_0_r|].
    replace (y + 1 + Z.of_nat (S k)) with (y + 1 + Z.of_nat k + 1) by lia. rewrite (DayFromYear_succ (y + 1 + _)).
    unfold leap_day. destruct (InLeapYear _); lia. }
  specialize (Hk (Z.to_nat (y' - y - 1))). by replace (y + 1 + Z.of_nat (Z.to_nat (y' - y - 1))) with y' in Hk by lia.
Qed.

Lemma YearFromDay_unique t y : DayFromYear y ≤ t < DayFromYear (y + 1) → YearFromDay t = y.
Proof.
  intros Hy. pose proof (YearFromDay_spec t) as Ht. set (z := YearFromDay t) in *.
  destruct (Z.lt_trichotomy z y) as [H|[H|H]]; [|done|]; apply DayFromYear_mono in H; lia.
Qed.

(** ** Months, by cases *)

Definition check_days (P : Z → bool) (n : nat) : bool := forallb P (Z.of_nat <$> seq 0 n).

Lemma check_days_spec P n : check_days P n = true → ∀ z, 0 ≤ z < Z.of_nat n → P z = true.
Proof.
  intros H z Hz. unfold check_days in H. rewrite forallb_forall in H. apply H, list_elem_of_In, list_elem_of_fmap.
  exists (Z.to_nat z). split; [lia|]. apply elem_of_seq. lia.
Qed.

Lemma last_month_spec leap d :
  0 ≤ d < 365 + leap_day leap →
  let m := last_month leap 11 d in
  0 ≤ m < 12 ∧ 1 ≤ d - month_start leap m + 1 ≤ month_length leap m.
Proof.
  intros Hd m.
  assert ((0 <=? m) && (m <? 12) && (1 <=? d - month_start leap m + 1) &&
    (d - month_start leap m + 1 <=? month_length leap m) = true) as H.
  { unfold m. clear m. destruct leap; simpl in Hd; revert d Hd.
    - apply (check_days_spec (λ d, _) 366). by vm_compute.
    - apply (check_days_spec (λ d, _) 365). by vm_compute. }
  rewrite !andb_true_iff, Z.leb_le, Z.ltb_lt, !Z.leb_le in H. lia.
Qed.

Lemma last_month_date leap m d :
  0 ≤ m < 12 → 1 ≤ d ≤ month_length leap m →
  0 ≤ month_start leap m + d - 1 < 365 + leap_day leap ∧ last_month leap 11 (month_start leap m + d - 1) = m.
Proof.
  intros Hm Hd.
  assert (∀ d, 0 ≤ d < 32 → negb ((1 <=? d) && (d <=? month_length leap m)) ||
    ((0 <=? month_start leap m + d - 1) && (month_start leap m + d - 1 <? 365 + leap_day leap) &&
     (last_month leap 11 (month_start leap m + d - 1) =? m)) = true) as H.
  { apply (check_days_spec (λ d, _) 32). revert m Hm Hd. clear. intros m Hm _. revert m Hm.
    apply (check_days_spec (λ m, check_days (λ d, _) 32) 12). by destruct leap; vm_compute. }
  assert (d < 32) as Hlt by (unfold month_length, leap_day in Hd; destruct leap; repeat case_match; lia).
  specialize (H d ltac:(lia)). apply orb_true_iff in H as [H|H].
  - apply negb_true_iff, andb_false_iff in H. rewrite !Z.leb_gt in H. lia.
  - rewrite !andb_true_iff, Z.leb_le, Z.ltb_lt, Z.eqb_eq in H. lia.
Qed.

(** ** The getters *)

Lemma getters_calendar t : calendar_date (YearFromDay t) (MonthFromDay t) (DateFromDay t).
Proof.
  pose proof (YearFromDay_spec t) as H. rewrite DayFromYear_succ in H.
  unfold calendar_date, DateFromDay, MonthFromDay, DayWithinYear in *.
  apply last_month_spec. lia.
Qed.

Lemma getters_MakeDay y m d :
  calendar_date y m d →
  YearFromDay (MakeDay y m d) = y ∧ MonthFromDay (MakeDay y m d) = m ∧ DateFromDay (MakeDay y m d) = d.
Proof.
  intros [Hm Hd]. destruct (last_month_date _ _ _ Hm Hd) as [Hr Hl].
  assert (MakeDay y m d = DayFromYear y + (month_start (InLeapYear y) m + d - 1)) as E.
  { unfold MakeDay. rewrite (Z.div_small m 12), (Z.mod_small m 12) by lia. rewrite Z.add_0_r. lia. }
  assert (YearFromDay (MakeDay y m d) = y) as Hy.
  { apply YearFromDay_unique. rewrite E, DayFromYear_succ. lia. }
  assert (DayWithinYear (MakeDay y m d) = month_start (InLeapYear y) m + d - 1) as Hw.
  { unfold DayWithinYear. rewrite Hy, E. lia. }
  unfold DateFromDay, MonthFromDay. rewrite Hy, Hw, Hl. split_and!; [done..|lia].
Qed.

(** A day counted from a year falls in it or later. *)
Lemma YearFromDay_MakeDay y m d : 0 ≤ m < 12 → 1 ≤ d → y ≤ YearFromDay (MakeDay y m d).
Proof.
  intros Hm Hd. set (t := MakeDay y m d).
  assert (0 ≤ month_start (InLeapYear y) m) as Hs.
  { unfold month_start, leap_day. apply Z.add_nonneg_nonneg; [|by destruct (m <? 2), (InLeapYear y)].
    apply Z.leb_le. revert m Hm t. intros m Hm _. revert m Hm.
    apply (check_days_spec (λ m, _) 12). by vm_compute. }
  assert (DayFromYear y ≤ t) as Ht.
  { unfold t, MakeDay. rewrite (Z.div_small m 12), (Z.mod_small m 12) by lia. rewrite Z.add_0_r. lia. }
  pose proof (YearFromDay_spec t) as Hy. destruct (Z.le_gt_cases y (YearFromDay t)) as [|H]; [done|].
  apply DayFromYear_mono in H. lia.
Qed.

(** [Date.UTC] takes the years below 100 for others; on the rest the getters
    give back exactly the dates of the calendar. *)
Lemma UTC_roundtrip y m d :
  0 ≤ y →
  YearFromDay (UTC_day y m d) = y ∧ MonthFromDay (UTC_day y m d) = m ∧ DateFromDay (UTC_day y m d) = d ↔
  100 ≤ y ∧ calendar_date y m d.
Proof.
  intros Hy. unfold UTC_day. destruct (Z.leb_spec y 99) as [H|H].
  - rewrite (proj2 (Z.leb_le 0 y)) by done. simpl. split; [|lia]. intros (Ey & Em & Ed).
    pose proof (getters_calendar (MakeDay (1900 + y) m d)) as [Hm Hd]. rewrite Em, Ed in *.
    pose proof (YearFromDay_MakeDay (1900 + y) m d Hm ltac:(lia)). lia.
  - rewrite andb_false_r. split; [|intros [_ Hc]; by apply getters_MakeDay].
    intros (Ey & Em & Ed). split; [lia|]. pose proof (getters_calendar (MakeDay y m d)) as Hc.
    by rewrite Ey, Em, Ed in Hc.
Qed.

Example UTC_ex : YearFromDay (UTC_day 2000 1 30) = 2000 ∧ MonthFromDay (UTC_day 2000 1 30) = 2 ∧
  DateFromDay (UTC_day 2000 1 30) = 1 ∧ MakeDay 1970 0 1 = 0 ∧ YearFromDay (UTC_day 70 0 1) = 1970.
Proof. split_and!; by vm_compute. Qed.
