(* ===== verification/AddNumbers.v ===== *)
(** * jquery.validate, additional methods: numbers with check digits

    Models the methods of additional-methods.js that compute a check digit:
    bank accounts, credit cards, tax and identity numbers, vehicle
    identification numbers.  Each is the function of a value that is not
    optional; a sum that meets something that is no number is [None], NaN. *)
From stdpp Require Import base strings list.
From Stdlib Require Import Ascii ZArith QArith Lia.
From S2P Require Import Prelude JsString JsRegex.

Local Open Scope js_scope.
Local Open Scope nat_scope.

(** ** Numbers read from characters *)

Definition not_space_char (c : ascii) : bool := negb (bool_decide (c = " "%char)).

(** [Number(c)] and [parseInt(c, 10)] of one character. *)
Definition char_number (c : ascii) : option Z :=
  if is_digit c then Some (digit_value c) else if is_space c then Some 0%Z else None.
Definition parse_digit (c : ascii) : option Z :=
  if is_digit c then Some (digit_value c) else None.

(** [Number(l)] of a string without a point, a sign or space: digits or NaN. *)
Definition digits_number (l : chars) : option Z :=
  match l with
  | [] => Some 0%Z
  | _ => if forallb is_digit l then Some (digits_value 0 l) else None
  end.

(** [sum = sum + factor * digit] over the factors and the digits. *)
Fixpoint weighted (digit : ascii → option Z) (factors : list Z) (l : chars) : option Z :=
  match factors, l with
  | f :: factors', c :: l' => d ← digit c; s ← weighted digit factors' l'; Some (f * d + s)%Z
  | _, _ => Some 0%Z
  end.

(** [n, n - 1, ...] *)
Fixpoint countdown (n : nat) : list Z :=
  match n with 0 => [] | S n' => Z.of_nat n :: countdown n' end.

(** [sum % m === r] *)
Definition rem_is (m r : Z) (sum : option Z) : bool :=
  match sum with Some s => (s mod m =? r)%Z | None => false end.

(** ** Dutch bank accounts *)

Definition bankaccountNL_regex (l : chars) : bool :=
  prefix_match (RTimes 9 RDigit) l ||
  suffix_match (RSeq (RTimes 3 (RSeq (RTimes 2 RDigit) (RLit " "))) (RTimes 3 RDigit)) l.

Definition bankaccountNL (value : chars) : bool :=
  if bankaccountNL_regex value then
    let account := List.filter not_space_char value in
    rem_is 11 0 (weighted char_number (countdown (length account)) account)
  else false.

Definition giroaccountNL (value : chars) : bool := full_match (RBetween 1 7 RDigit) value.

Definition bankorgiroaccountNL (value : chars) : bool := bankaccountNL value || giroaccountNL value.

(** ** Credit cards *)

(** What the digit counts: every other one twice, its digits added. *)
Definition luhn_digit (bEven : bool) (nDigit : Z) : Z :=
  if bEven then let d := (nDigit * 2)%Z in if (9 <? d)%Z then d - 9 else d else nDigit.

(** The loop, over the digits from the last to the first. *)
Fixpoint luhn_loop (l : chars) (bEven : bool) (nCheck : Z) : Z :=
  match l with
  | [] => nCheck
  | c :: l' => luhn_loop l' (negb bEven) (nCheck + luhn_digit bEven (digit_value c))
  end.

Definition is_card_char (c : ascii) : bool :=
  is_digit c || bool_decide (c = " "%char) || bool_decide (c = "-"%char).

Definition creditcard (value : chars) : bool :=
  if forallb is_card_char value then
    let digits := List.filter is_digit value in
    if (length digits <? 13) || (19 <? length digits) then false
    else (luhn_loop (rev digits) false 0 mod 10 =? 0)%Z
  else false.

Record card_types := CardTypes {
  mastercard : bool; visa : bool; amex : bool; dinersclub : bool;
  enroute : bool; discover : bool; jcb : bool; unknown : bool; all_types : bool
}.

Definition validTypes (param : card_types) : Z :=
  (let bit (b : bool) (n v : Z) := if b then Z.lor v n else v in
   if all_types param then 255
   else bit (unknown param) 128 (bit (jcb param) 64 (bit (discover param) 32 (bit (enroute param) 16
        (bit (dinersclub param) 8 (bit (amex param) 4 (bit (visa param) 2 (bit (mastercard param) 1 0))))))))%Z.

(** The cases in order: the bit, the beginning of the number, its length. *)
Definition card_cases : list (Z * regex * nat) :=
  [(1%Z, RSeq (RLit "5") (ROneOf "12345"), 16);
   (2%Z, RLit "4", 16);
   (4%Z, RSeq (RLit "3") (ROneOf "47"), 15);
   (8%Z, RSeq (RLit "3") (RAlt (RSeq (RLit "0") (ROneOf "012345")) (ROneOf "68")), 14);
   (16%Z, RSeq (RLit "2") (RAlt (RWord "014") (RWord "149")), 15);
   (32%Z, RWord "6011", 16);
   (64%Z, RLit "3", 16);
   (64%Z, RAlt (RWord "2131") (RWord "1800"), 15)].

Fixpoint first_card_case (cases : list (Z * regex * nat)) (types : Z) (digits : chars) : option bool :=
  match cases with
  | [] => None
  | (bit, start, len) :: cases' =>
      if negb (Z.land types bit =? 0)%Z && prefix_match start digits then Some (length digits =? len)
      else first_card_case cases' types digits
  end.

Definition creditcardtypes (param : card_types) (value : chars) : bool :=
  if forallb (λ c, is_digit c || bool_decide (c = "-"%char)) value then
    let digits := List.filter is_digit value in
    let types := validTypes param in
    default (negb (Z.land types 128 =? 0)%Z) (first_card_case card_cases types digits)
  else false.

(** ** Spanish companies *)

Definition in_class (s : string) (c : ascii) : bool := c ∈? chars_of s.

(** A class under the flag [i]. *)
Definition in_class_i (s : string) (c : ascii) : bool :=
  in_class s c || in_class s (to_upper c) || in_class s (to_lower c).

Definition cif_regex : regex :=
  RAll [RChar (in_class_i "ABCDEFGHJKLMNPQRSUVW"); RTimes 7 RDigit;
        RChar (in_class_i "0123456789ABCDEFGHIJ")].

(** [odd_sum] and [even_sum] together: the digits at 0, 2, ... count twice. *)
Fixpoint cif_sum (l : chars) (odd : bool) : Z :=
  match l with
  | [] => 0
  | c :: l' =>
      ((if odd then let n := digit_value c * 2 in if n <? 10 then n else n - 9 else digit_value c)
       + cif_sum l' (negb odd))%Z
  end.

Definition cif_control_digit (number : chars) : Z :=
  let d := (10 - cif_sum number true mod 10)%Z in if (9 <? d)%Z then 0 else d.

Definition char_at (s : string) (n : Z) : option ascii := chars_of s !! Z.to_nat n.

Definition cifES (value : chars) : bool :=
  if (length value =? 9) && full_match cif_regex value then
    let letter := take 1 value in
    let control := drop 8 value in
    let digit := cif_control_digit (take 7 (drop 1 value)) in
    let is_number := bool_decide (control = [digit_char digit]) in
    let is_letter := bool_decide (control = option_list (char_at "JABCDEFGHI" digit)) in
    if existsb (in_class "ABEH") letter then is_number
    else if existsb (in_class "KPQS") letter then is_letter
    else is_number || is_letter
  else false.

(** ** Brazilian taxpayers *)

Definition cpf_special (c : ascii) : bool := in_class "~!@#$%^&*()_+=`{}[]-|\:;'<>,./? " c.

(** [checkResult(sum, cn)] *)
Definition checkResult (sum cn : option Z) : bool :=
  match sum, cn with
  | Some s, Some c =>
      let result := (s * 10 mod 11)%Z in
      ((if (result =? 10) || (result =? 11) then 0 else result) =? c)%Z
  | _, _ => false
  end.

Definition cpfBR (value : chars) : bool :=
  let value := List.filter (λ c, negb (cpf_special c)) value in
  if length value =? 11 then
    let firstCN := parse_digit (nth 9 value zero) in
    let secondCN := parse_digit (nth 10 value zero) in
    if existsb (λ d, bool_decide (value = replicate 11 d)) (chars_of "0123456789") then false
    else if checkResult (weighted parse_digit (countdown 10) (take 9 value)) firstCN then
      checkResult (weighted parse_digit (countdown 11) (take 10 value)) secondCN
    else false
  else false.

(** ** Polish companies *)

Definition nip_steps : list Z := [6; 5; 7; 2; 3; 4; 5; 6; 7]%Z.

Definition nipPL (value : chars) : bool :=
  let value := List.filter is_digit value in
  if length value =? 10 then
    match weighted char_number nip_steps value with
    | Some intSum =>
        let int2 := (intSum mod 11)%Z in
        let intControlNr := if (int2 =? 10)%Z then 0%Z else int2 in
        bool_decide (Some intControlNr = parse_digit (nth 9 value zero))
    | None => false
    end
  else false.

(** ** Spanish persons *)

Definition nif_letters : string := "TRWAGMYFPDXBNJZSQVHLCKE".
Definition RUpper : regex := RChar is_upper.
Definition RUpperDigit : regex := RChar (λ c, is_upper c || is_digit c).

Definition nif_format : regex :=
  RAny [RAll [RUpper; RTimes 7 RDigit; RUpperDigit]; RSeq (RLit "T") (RTimes 8 RUpperDigit);
        RSeq (RTimes 8 RDigit) RUpper].

(** [letters.charAt(n % 23)] as a string; [charAt(NaN)] is the first. *)
Definition letter_mod23 (letters : string) (n : option Z) : chars :=
  option_list (char_at letters (from_option (λ n, n mod 23) 0 n)%Z).

Definition nifES (value : chars) : bool :=
  let value := toUpperCase value in
  if full_match nif_format value then
    if full_match (RSeq (RTimes 8 RDigit) RUpper) value then
      bool_decide (letter_mod23 nif_letters (digits_number (take 8 value)) = drop 8 value)
    else if existsb (in_class "KLM") (take 1 value) then
      bool_decide (drop 8 value = letter_mod23 nif_letters (digits_number (take 7 (drop 1 value))))
    else false
  else false.

Definition nie_letters : string := "TRWAGMYFPDXBNJZSQVHLCKET".
Definition nie_regex : regex :=
  RAll [RChar (in_class_i "MXYZ"); RBetween 7 8 RDigit; RChar (in_class_i nie_letters)].

(** [replace(/^[X]/, "0").replace(/^[Y]/, "1").replace(/^[Z]/, "2")] *)
Definition nie_prefix (value : chars) : chars :=
  match value with
  | "X"%char :: l => "0"%char :: l
  | "Y"%char :: l => "1"%char :: l
  | "Z"%char :: l => "2"%char :: l
  | _ => value
  end.

(** [parseInt(number, 10)] of a letter or digits, followed by digits *)
Definition nie_number (l : chars) : option Z :=
  match l with c :: _ => if is_digit c then digits_number l else None | [] => None end.

Definition nieES (value : chars) : bool :=
  let letter := toUpperCase (drop (length value - 1) value) in
  let value := toUpperCase value in
  if (10 <? length value) || (length value <? 9) || negb (full_match nie_regex value) then false
  else
    let value := nie_prefix value in
    let number := if length value =? 9 then take 8 value else take 9 value in
    bool_decide (letter_mod23 nie_letters (nie_number number) = letter).

(** ** International bank accounts *)

Definition RAlnumUpper : regex := RChar (λ c, is_digit c || is_upper c).

(** [bbancountrypatterns] *)
Definition bbancountrypatterns : list (string * regex) :=
  let D n := RTimes n RDigit in
  let L n := RTimes n RUpper in
  let A n := RTimes n RAlnumUpper in
  [("AL", RAll [D 8; A 16]); ("AD", RAll [D 8; A 12]); ("AT", D 16); ("AZ", RAll [A 4; D 20]);
   ("BE", D 12); ("BH", RAll [L 4; A 14]); ("BA", D 16); ("BR", RAll [D 23; L 1; A 1]);
   ("BG", RAll [L 4; D 6; A 8]); ("CR", D 17); ("HR", D 17); ("CY", RAll [D 8; A 16]); ("CZ", D 20);
   ("DK", D 14); ("DO", RAll [L 4; D 20]); ("EE", D 16); ("FO", D 14); ("FI", D 14);
   ("FR", RAll [D 10; A 11; D 2]); ("GE", RAll [A 2; D 16]); ("DE", D 18); ("GI", RAll [L 4; A 15]);
   ("GR", RAll [D 7; A 16]); ("GL", D 14); ("GT", RAll [A 4; A 20]); ("HU", D 24); ("IS", D 22);
   ("IE", RAll [A 4; D 14]); ("IL", D 19); ("IT", RAll [L 1; D 10; A 12]); ("KZ", RAll [D 3; A 13]);
   ("KW", RAll [L 4; A 22]); ("LV", RAll [L 4; A 13]); ("LB", RAll [D 4; A 20]); ("LI", RAll [D 5; A 12]);
   ("LT", D 16); ("LU", RAll [D 3; A 13]); ("MK", RAll [D 3; A 10; D 2]); ("MT", RAll [L 4; D 5; A 18]);
   ("MR", D 23); ("MU", RAll [L 4; D 19; L 3]); ("MC", RAll [D 10; A 11; D 2]); ("MD", RAll [A 2; D 18]);
   ("ME", D 18); ("NL", RAll [L 4; D 10]); ("NO", D 11); ("PK", RAll [A 4; D 16]); ("PS", RAll [A 4; D 21]);
   ("PL", D 24); ("PT", D 21); ("RO", RAll [L 4; A 16]); ("SM", RAll [L 1; D 10; A 12]);
   ("SA", RAll [D 2; A 18]); ("RS", D 18); ("SK", D 20); ("SI", D 15); ("ES", D 20); ("SE", D 20);
   ("CH", RAll [D 5; A 12]); ("TN", D 20); ("TR", RAll [D 5; A 17]); ("AE", RAll [D 3; D 16]);
   ("GB", RAll [L 4; D 14]); ("VG", RAll [A 4; D 16])].

(** A property of the object: its own, or one it inherits, which no pair of
    capital letters names. *)
Fixpoint assoc {A} (k : string) (l : list (string * A)) : option A :=
  match l with [] => None | (k', v) :: l' => if bool_decide (k' = k) then Some v else assoc k l' end.

Definition iban_alphabet : string := "0123456789ABCDEFGHIJKLMNOPQRSTUVWXYZ".

(** [String(alphabet.indexOf(c))] *)
Definition index_string (c : ascii) : chars :=
  match list_find (λ x, x = c) (chars_of iban_alphabet) with
  | Some (i, _) => natural_string (Z.of_nat i)
  | None => chars_of "-1"
  end.

(** [ibancheckdigits]: leading zeros are left out. *)
Fixpoint iban_digits (l : chars) (leadingZeroes : bool) : chars :=
  match l with
  | [] => []
  | c :: l' =>
      let leading := leadingZeroes && bool_decide (c = "0"%char) in
      (if leading then [] else index_string c) ++ iban_digits l' leading
  end.

(** [cRest]: the empty string at first, then the remainder of a number or NaN. *)
Inductive rest := RestEmpty | RestNumber (z : Z) | RestNaN.

Definition rest_string (r : rest) : chars :=
  match r with RestEmpty => [] | RestNumber z => natural_string z | RestNaN => chars_of "NaN" end.

Definition iban_step (r : rest) (cChar : ascii) : rest :=
  match digits_number (rest_string r ++ [cChar]) with
  | Some n => RestNumber (n mod 97)
  | None => RestNaN
  end.

Definition iban_checksum (l : chars) : rest :=
  fold_left iban_step (iban_digits (drop 4 l ++ take 4 l) true) RestEmpty.

(** The format the country prescribes, if it is known. *)
Definition iban_format (iban : chars) : bool :=
  match assoc (string_of (take 2 iban)) bbancountrypatterns with
  | Some bban => full_match (RAll [RTimes 2 RUpper; RTimes 2 RDigit; bban]) iban
  | None => true
  end.

Definition iban (value : chars) : bool :=
  let iban := toUpperCase (List.filter not_space_char value) in
  if length iban <? 5 then false
  else if iban_format iban then
    match iban_checksum iban with RestNumber z => (z =? 1)%Z | _ => false end
  else false.

(** ** Vehicle identification numbers *)

Definition vin_LL : string := "ABCDEFGHJKLMNPRSTUVWXYZ".
Definition vin_VL : list Z := [1; 2; 3; 4; 5; 6; 7; 8; 1; 2; 3; 4; 5; 7; 9; 2; 3; 4; 5; 6; 7; 8; 9]%Z.
Definition vin_FL : list Z := [8; 7; 6; 5; 4; 3; 2; 10; 0; 9; 8; 7; 6; 5; 4; 3; 2]%Z.

(** [rs]: a number until a character that has no value is added to it; then a
    string. *)
Inductive vin_sum := VinNumber (z : Z) | VinText (s : chars).

Definition vin_add (rs : vin_sum) (d : Z + ascii) : vin_sum :=
  match rs, d with
  | VinNumber z, inl n => VinNumber (z + n)
  | VinNumber z, inr c => VinText (natural_string z ++ [c])
  | VinText s, inl n => VinText (s ++ natural_string n)
  | VinText s, inr c => VinText (s ++ [c])
  end.

(** [cdv]: [undefined] or a one-character string; [isNaN(cdv)]. *)
Definition cdv_isNaN (cdv : option ascii) : bool :=
  match cdv with Some c => bool_decide (char_number c = None) | None => true end.

(** One round of the loop, at position [i]. *)
Definition vin_round (i : nat) (f : Z) (v : ascii) (st : vin_sum * option ascii) : vin_sum * option ascii :=
  let '(rs, cdv) := st in
  let cdv := if i =? 8 then Some v else cdv in
  match char_number v with
  | Some d => (vin_add rs (inl (d * f)%Z), cdv)
  | None =>
      match list_find (λ x, toUpperCase [v] = [x]) (chars_of vin_LL) with
      | Some (n, x) =>
          (vin_add rs (inl (nth n vin_VL 0 * f)%Z),
           if cdv_isNaN cdv && (n =? 8) then Some x else cdv)
      | None => (vin_add rs (inr v), cdv)
      end
  end.

Fixpoint vin_loop (i : nat) (fl : list Z) (v : chars) (st : vin_sum * option ascii) :=
  match fl, v with
  | f :: fl', c :: v' => vin_loop (S i) fl' v' (vin_round i f c st)
  | _, _ => st
  end.

(** [Number(s)]; a string of a VIN can be an octal literal, 0 and the letter O. *)
Fixpoint octal_value (acc : Z) (l : chars) : Z :=
  match l with [] => acc | c :: l' => octal_value (acc * 8 + digit_value c) l' end.

Definition vin_text_number (s : chars) : option Q :=
  match s with
  | "0"%char :: ("o" | "O")%char :: (_ :: _) as l =>
      let l := drop 2 l in
      if forallb (in_class "01234567") l then Some (inject_Z (octal_value 0 l)) else None
  | _ => Number s
  end.

(** [rs % 11 === 10], when [cd] becomes "X"; any other [cd] is a number, which
    no string equals. *)
Definition vin_is_ten (rs : vin_sum) : bool :=
  match rs with
  | VinNumber z => (z mod 11 =? 10)%Z
  | VinText s =>
      match vin_text_number s with
      | Some q => Qeq_bool (q - inject_Z (11 * (Qnum q / (11 * Zpos (Qden q))))) 10
      | None => false
      end
  end.

Definition vinUS (v : chars) : bool :=
  if length v =? 17 then
    let '(rs, cdv) := vin_loop 0 vin_FL v (VinNumber 0, None) in
    vin_is_ten rs && bool_decide (cdv = Some "X"%char)
  else false.
