(* ===== verification/AddFormats.v ===== *)
(** * jquery.validate, additional methods: formats

    Models the methods of additional-methods.js that test a value against a
    format: regular expressions, counts of words, dates.  The last section
    collects the methods with the way each treats an optional element. *)
From stdpp Require Import base strings list.
From Stdlib Require Import Ascii ZArith QArith Lia.
From S2P Require Import Prelude JsString JsRegex JsDate ValidatePage AddNumbers.

Local Open Scope js_scope.
Local Open Scope nat_scope.

(** ** Words *)

(** What is left after [/<.[^<>]*?>/] matches at its first character, if it
    does: any character but a line break, then none of the two brackets. *)
Fixpoint to_bracket (l : chars) : option chars :=
  match l with
  | [] => None
  | c :: l' => if bool_decide (c = ">"%char) then Some l'
               else if bool_decide (c = "<"%char) then None else to_bracket l'
  end.

Definition is_line_break (c : ascii) : bool := (code c =? 10) || (code c =? 13).

Definition tag_end (l : chars) : option chars :=
  match l with
  | "<"%char :: c :: l' => if is_line_break c then None else to_bracket l'
  | _ => None
  end.

(** [replace(/<.[^<>]*?>/g, " ")]; [skip] characters of a match are still to be
    dropped. *)
Fixpoint strip_tags (skip : nat) (l : chars) : chars :=
  match l with
  | [] => []
  | c :: l' =>
      match skip with
      | S skip' => strip_tags skip' l'
      | 0 => match tag_end l with
             | Some t => " "%char :: strip_tags (length l' - length t) l'
             | None => c :: strip_tags 0 l'
             end
      end
  end.

Fixpoint is_prefix_i (p l : chars) : bool :=
  match p, l with
  | [], _ => true
  | c :: p', d :: l' => bool_decide (to_lower c = to_lower d) && is_prefix_i p' l'
  | _ :: _, [] => false
  end.

(** [replace(/&nbsp;|&#160;/gi, " ")]: both entities have six characters. *)
Fixpoint strip_entities (skip : nat) (l : chars) : chars :=
  match l with
  | [] => []
  | c :: l' =>
      match skip with
      | S skip' => strip_entities skip' l'
      | 0 => if is_prefix_i (chars_of "&nbsp;") l || is_prefix_i (chars_of "&#160;") l
             then " "%char :: strip_entities 5 l' else c :: strip_entities 0 l'
      end
  end.

(** The punctuation below 256; 34 is the double quote. *)
Definition is_punctuation (c : ascii) : bool := in_class ".(),;:!?%#$'_+=/-" c || (code c =? 34).

Definition stripHtml (value : chars) : chars :=
  List.filter (λ c, negb (is_punctuation c)) (strip_entities 0 (strip_tags 0 value)).

(** [l.match(/\b\w+\b/g)] has the runs of word characters, or is [null]. *)
Fixpoint count_words (in_word : bool) (l : chars) : nat :=
  match l with
  | [] => 0
  | c :: l' => if is_word c then (if in_word then 0 else 1) + count_words true l' else count_words false l'
  end.

(** [stripHtml(value).match(...).length]; [None] if that throws. *)
Definition word_count (value : chars) : option nat :=
  match count_words false (stripHtml value) with 0 => None | n => Some n end.

Definition maxWords (value : chars) (params : rvalue) : option bool :=
  n ← word_count value; Some (len_le n params).
Definition minWords (value : chars) (params : rvalue) : option bool :=
  n ← word_count value; Some (len_ge n params).
Definition rangeWords (value : chars) (params : rvalue) : option bool :=
  n ← word_count value; Some (len_ge n (param_at params 0) && len_le n (param_at params 1)).

(** ** Regular expressions *)

(** The flag [i] on classes of ASCII letters. *)
Fixpoint icase (r : regex) : regex :=
  match r with
  | REmpty => REmpty
  | RChar p => RChar (λ c, p c || p (to_upper c) || p (to_lower c))
  | RSeq r1 r2 => RSeq (icase r1) (icase r2)
  | RAlt r1 r2 => RAlt (icase r1) (icase r2)
  | RStar r => RStar (icase r)
  | RUpTo n r => RUpTo n (icase r)
  | RNotAhead r => RNotAhead (icase r)
  end.

Definition RSpace : regex := RChar is_space.
Definition RLits (l : list string) : regex := RAny (RWord <$> l).

Definition alphanumeric : chars → bool := full_match (RPlus (RChar is_word)).

Definition bic_regex : regex :=
  RAll [RTimes 6 RUpper; RChar (λ c, is_upper c || in_class "23456789" c);
        RChar (λ c, is_upper c && negb (in_class "O" c) || in_class "123456789" c);
        ROpt (RAlt (RTimes 3 (RLit "X"))
          (RSeq (RChar (λ c, is_upper c && negb (in_class "X" c) || is_digit c)) (RTimes 2 RUpperDigit)))].
Definition bic (value : chars) : bool := full_match bic_regex (toUpperCase value).

Definition one_to (hi : ascii) : regex := RSeq (ROpt (RLit "0")) (RRange "1" hi).

Definition dateFA_regex : regex :=
  let small_day := RAlt (RSeq (ROneOf "12") RDigit) (one_to "9") in
  RAll [RRange "1" "4"; RTimes 3 RDigit; RLit "/";
        RAlt (RAll [one_to "6"; RLit "/"; RAlt (RSeq (RLit "3") (ROneOf "01")) small_day])
             (RAll [RAlt (RSeq (RLit "1") (RRange "0" "2")) (RSeq (ROpt (RLit "0")) (RRange "7" "9"));
                    RLit "/"; RAlt (RWord "30") small_day])].
Definition dateFA : chars → bool := full_match dateFA_regex.

Definition dateNL_regex : regex :=
  RAll [RAny [one_to "9"; RSeq (ROneOf "12") RDigit; RSeq (RLit "3") (ROneOf "01")]; ROneOf "./-";
        RAlt (one_to "9") (RSeq (RLit "1") (ROneOf "012")); ROneOf "./-";
        ROpt (RSeq (ROneOf "12") RDigit); RTimes 2 RDigit].
Definition dateNL : chars → bool := full_match dateNL_regex.

Definition dateITA_format : regex :=
  RAll [RBetween 1 2 RDigit; RLit "/"; RBetween 1 2 RDigit; RLit "/"; RTimes 4 RDigit].

Definition dateITA (value : chars) : bool :=
  if full_match dateITA_format value then
    match digits_value 0 <$> split_on "/" value with
    | [gg; mm; aaaa] =>
        let xdata := UTC_day aaaa (mm - 1) gg in
        ((YearFromDay xdata =? aaaa) && (MonthFromDay xdata =? mm - 1) && (DateFromDay xdata =? gg))%Z
    | _ => false
    end
  else false.

Definition integer : chars → bool := full_match (RSeq (ROpt (RLit "-")) (RPlus RDigit)).

Definition ipv4_byte : regex :=
  RAny [RSeq (RWord "25") (RRange "0" "5"); RAll [RLit "2"; RRange "0" "4"; RDigit];
        RAll [ROpt (ROneOf "01"); RDigit; ROpt RDigit]].
Definition ipv4 : chars → bool :=
  full_match (RAll [ipv4_byte; RLit "."; ipv4_byte; RLit "."; ipv4_byte; RLit "."; ipv4_byte]).

Definition lettersonly : chars → bool := full_match (RPlus (RChar is_alpha)).
Definition letterswithbasicpunc : chars → bool :=
  full_match (RPlus (RChar (λ c, is_alpha c || in_class "-.,()'" c || (code c =? 34) || is_space c))).

(** The beginning of Dutch numbers and the separators between digits. *)
Definition nl_separator : regex := ROpt (RAlt RSpace (RAll [ROpt RSpace; RLit "-"; ROpt RSpace])).
Definition nl_prefix : regex :=
  RAlt (RAll [RAlt (RLit "+") (RSeq (RWord "00") nl_separator); RWord "31"; nl_separator;
              ROpt (RSeq (RWord "(0)") (ROpt (RAlt (RLit "-") RSpace)))])
       (RLit "0").
Definition mobileNL : chars → bool :=
  full_match (RAll [nl_prefix; RLit "6"; RTimes 8 (RSeq nl_separator RDigit)]).
Definition phoneNL : chars → bool :=
  full_match (RAll [nl_prefix; RRange "1" "9"; RTimes 8 (RSeq nl_separator RDigit)]).

(** [phone_number.replace(/\(|\)|\s+|-/g, "")] *)
Definition clean_phone (l : chars) : chars :=
  List.filter (λ c, negb (in_class "()-" c || is_space c)) l.

Definition sp : regex := ROpt RSpace.
Definition uk_prefix : regex := RAlt (RAll [RAlt (RSeq (RWord "00") sp) (RLit "+"); RWord "44"; sp]) (RLit "0").

Definition mobileUK_regex : regex :=
  RAll [uk_prefix; RLit "7"; RAlt (RSeq (ROneOf "1345789") (RTimes 2 RDigit)) (RWord "624");
        sp; RTimes 3 RDigit; sp; RTimes 3 RDigit].
Definition phonesUK_regex : regex :=
  RSeq uk_prefix
    (RAny [RSeq (RLit "1") (RBetween 8 9 RDigit); RSeq (ROneOf "23") (RTimes 9 RDigit);
           RSeq (RLit "7") (RAlt (RSeq (ROneOf "1345789") (RTimes 8 RDigit)) (RSeq (RWord "624") (RTimes 6 RDigit)))]).
Definition phoneUK_regex : regex :=
  let D n := RTimes n RDigit in
  let close := RSeq (ROpt (RLit ")")) sp in
  RSeq (RAlt (RAll [RAlt (RSeq (RWord "00") sp) (RLit "+"); RWord "44"; sp]) (RSeq (ROpt (RLit "(")) (RLit "0")))
    (RAny [RAll [D 2; close; D 4; sp; D 4]; RAll [D 3; close; D 3; sp; RBetween 3 4 RDigit];
           RAll [D 4; close; RAlt (D 5) (RAll [D 3; sp; D 3])]; RAll [D 5; close; RBetween 4 5 RDigit]]).

Definition uk_number (r : regex) (phone_number : chars) : bool :=
  let l := clean_phone phone_number in (9 <? length l) && full_match r l.
Definition mobileUK := uk_number mobileUK_regex.
Definition phonesUK := uk_number phonesUK_regex.
Definition phoneUK := uk_number phoneUK_regex.

Definition us_code : regex :=
  RSeq (RRange "2" "9") (RAlt (RSeq (RChar (λ c, in_class "023456789" c)) RDigit)
                              (RSeq (RLit "1") (RChar (λ c, in_class "023456789" c)))).
Definition phoneUS_regex : regex :=
  RAll [ROpt (RAll [ROpt (RLit "+"); RLit "1"; ROpt (RLit "-")]);
        RAlt (RAll [RLit "("; us_code; RLit ")"]) us_code; ROpt (RLit "-"); us_code; ROpt (RLit "-");
        RTimes 4 RDigit].
Definition phoneUS (phone_number : chars) : bool :=
  let l := List.filter (λ c, negb (is_space c)) phone_number in (9 <? length l) && full_match phoneUS_regex l.

Definition mask_high : regex := RLits ["254"; "252"; "248"; "240"; "224"; "192"; "128"].
Definition mask_byte : regex := RLits ["254"; "252"; "248"; "240"; "224"; "192"; "128"; "0"].
(** Only the first alternative is anchored, and only at its start. *)
Definition netmask (value : chars) : bool :=
  prefix_match (RSeq mask_high (RWord ".0.0.0")) value ||
  part_match (RAll [RWord "255."; mask_byte; RWord ".0.0"]) value ||
  part_match (RAll [RWord "255.255."; mask_byte; RWord ".0"]) value ||
  part_match (RSeq (RWord "255.255.255.") mask_byte) value.

Definition nowhitespace : chars → bool := full_match (RPlus RNonSpace).

Definition postalcodeBR : chars → bool :=
  full_match (RAlt (RAll [RTimes 2 RDigit; RChar (λ c, negb (is_line_break c)); RTimes 3 RDigit; RLit "-"; RTimes 3 RDigit])
                   (RAll [RTimes 5 RDigit; ROpt (RLit "-"); RTimes 3 RDigit])).
Definition postalCodeCA : chars → bool :=
  full_match (icase (RAll [ROneOf "ABCEGHJKLMNPRSTVXY"; RDigit; ROneOf "ABCEGHJKLMNPRSTVWXYZ"; RStar (RLit " ");
                           RDigit; ROneOf "ABCEGHJKLMNPRSTVWXYZ"; RDigit])).
Definition postalcodeIT : chars → bool := full_match (RTimes 5 RDigit).
Definition postalcodeNL : chars → bool :=
  full_match (RAll [RRange "1" "9"; RTimes 3 RDigit; sp; RTimes 2 (RChar is_alpha)]).
Definition postcodeUK : chars → bool :=
  let A := RChar (λ c, is_upper c && negb (in_class "QVX" c)) in
  let B := RChar (λ c, is_upper c && negb (in_class "IJZ" c)) in
  full_match (icase (RAlt
    (RAll [RAny [RSeq A RDigit; RAll [A; RDigit; RDigit]; RSeq (RSeq A B) RDigit; RAll [A; B; RDigit; RDigit];
                 RAll [A; RDigit; ROneOf "ABCDEFGHJKSTUW"]; RAll [A; B; RDigit; ROneOf "ABEHMNPRVWXY"]];
           sp; RDigit; RTimes 2 (ROneOf "ABDEFGHJLNPQRSTUWXYZ")])
    (RAll [RWord "GIR"; sp; RWord "0AA"]))).

Definition time_rest : regex := RBetween 1 2 (RAll [RLit ":"; RRange "0" "5"; RDigit]).
Definition time : chars → bool :=
  full_match (RSeq (RAny [RSeq (ROneOf "01") RDigit; RSeq (RLit "2") (RRange "0" "3"); RDigit]) time_rest).
Definition time12h : chars → bool :=
  full_match (icase (RAll [RAlt (one_to "9") (RSeq (RLit "1") (ROneOf "012")); time_rest;
                           ROpt (RLit " "); ROneOf "AP"; RLit "M"])).

Definition zipcodeUS : chars → bool :=
  full_match (RSeq (RTimes 5 RDigit) (ROpt (RSeq (RLit "-") (RTimes 4 RDigit)))).
(** The braces of the source are escaped: they stand for themselves. *)
Definition ziprange : chars → bool :=
  full_match (RAll [RWord "90"; RRange "2" "5"; RDigit; RWord "{2}"; RLit "-"; RTimes 4 RDigit]).

(** The options of stateUS; one that is missing is false. *)
Record state_options := StateOptions {
  caseSensitive : bool; includeTerritories : bool; includeMilitary : bool
}.

(** The second letters of the abbreviations, by the first. *)
Definition state_regex (o : state_options) : regex :=
  let two (c s : string) := RSeq (RWord c) (ROneOf s) in
  let t := includeTerritories o in
  let m := includeMilitary o in
  RAny [two "A" (if t then if m then "AEKLPRSZ" else "KLRSZ" else if m then "AEKLPRZ" else "KLRZ");
        two "C" "AOT"; two "D" "CE"; RWord "FL"; if t then two "G" "AU" else RWord "GA"; RWord "HI";
        two "I" "ADLN"; two "K" "SY"; RWord "LA"; two "M" (if t then "ADEINOPST" else "ADEINOST");
        two "N" "CDEHJMVY"; two "O" "HKR"; if t then two "P" "AR" else RWord "PA"; RWord "RI";
        two "S" "CD"; two "T" "NX"; RWord "UT"; two "V" (if t then "AIT" else "AT"); two "W" "AIVY"].

Definition stateUS (o : state_options) (value : chars) : bool :=
  full_match (if caseSensitive o then state_regex o else icase (state_regex o)) value.

(** ** The methods *)

Section methods.
Context (E : environment).

(** [this.optional(element) || test] for a test that coerces the value to a
    string. *)
Definition format_method (test : chars → bool) : method :=
  optional_or E (λ _ v _ _, test (chars_of (val_string v))).

(** A method that calls a string's methods on the value: it throws on any other
    value, before it asks whether the element is optional ([first]) or after,
    and returns [skip] for an optional element. *)
Definition string_method (first : bool) (skip : mresult) (f : chars → rvalue → option bool) : method :=
  Reads (λ p v i e param,
    match v with
    | VStr s => if optional E p i e then Some skip else of_bool <$> f (chars_of s) param
    | _ => if negb first && optional E p i e then Some skip else None
    end).

(** One that never asks. *)
Definition always_method (f : chars → bool) : method :=
  Reads (λ _ v _ _ _, match v with VStr s => Some (of_bool (f (chars_of s))) | _ => None end).

Definition plain_test (f : chars → bool) (value : chars) (_ : rvalue) : option bool := Some (f value).

Definition additional_methods : list (string * method) :=
  [("maxWords", string_method false MMismatch maxWords);
   ("minWords", string_method false MMismatch minWords);
   ("rangeWords", string_method true MMismatch rangeWords);
   ("alphanumeric", format_method alphanumeric);
   ("bankaccountNL", string_method false MTrue (plain_test bankaccountNL));
   ("bankorgiroaccountNL", string_method false MMismatch (plain_test bankorgiroaccountNL));
   ("bic", string_method false MMismatch (plain_test bic));
   ("cifES", string_method false MTrue (plain_test cifES));
   ("cpfBR", always_method cpfBR);
   ("creditcard", string_method false MMismatch (plain_test creditcard));
   ("dateFA", format_method dateFA);
   ("dateITA", format_method dateITA);
   ("dateNL", format_method dateNL);
   ("giroaccountNL", format_method giroaccountNL);
   ("iban", string_method false MTrue (plain_test iban));
   ("integer", format_method integer);
   ("ipv4", format_method ipv4);
   ("lettersonly", format_method lettersonly);
   ("letterswithbasicpunc", format_method letterswithbasicpunc);
   ("mobileNL", format_method mobileNL);
   ("mobileUK", string_method true MMismatch (plain_test mobileUK));
   ("netmask", format_method netmask);
   ("nieES", string_method false MTrue (plain_test nieES));
   ("nifES", string_method false MTrue (plain_test nifES));
   ("nipPL", always_method nipPL);
   ("nowhitespace", format_method nowhitespace);
   ("phoneNL", format_method phoneNL);
   ("phonesUK", string_method true MMismatch (plain_test phonesUK));
   ("phoneUK", string_method true MMismatch (plain_test phoneUK));
   ("phoneUS", string_method true MMismatch (plain_test phoneUS));
   ("postalcodeBR", format_method postalcodeBR);
   ("postalCodeCA", format_method postalCodeCA);
   ("postalcodeIT", format_method postalcodeIT);
   ("postalcodeNL", format_method postalcodeNL);
   ("postcodeUK", format_method postcodeUK);
   ("time", format_method time);
   ("time12h", format_method time12h);
   ("vinUS", always_method vinUS);
   ("zipcodeUS", format_method zipcodeUS);
   ("ziprange", format_method ziprange)].

(** The methods of a page that loads the additional methods too. *)
Definition all_methods : list (string * method) := extend (methods E) additional_methods.
End methods.
