(* ===== verification/AddNumbersFacts.v ===== *)
(** * jquery.validate, additional methods: what the check digits catch

    The checks of AddNumbers.v against the errors they exist for: one wrong
    digit, two neighbours exchanged; the sum of an IBAN against the remainder
    of the number it spells; and the vehicle identification numbers that the
    code can accept. *)
From stdpp Require Import base strings list.
From Stdlib Require Import Ascii ZArith QArith Lia.
From S2P Require Import Prelude JsString JsRegex AddNumbers.

Local Open Scope js_scope.
Local Open Scope nat_scope.

(** ** Digits *)

Definition all_ten : list Z := [0; 1; 2; 3; 4; 5; 6; 7; 8; 9]%Z.

Lemma elem_of_all_ten d : (0 ≤ d < 10)%Z → d ∈ all_ten.
Proof.
  intros Hd. unfold all_ten. rewrite !elem_of_cons. lia.
Qed.

(** A property of pairs of digits, by cases. *)
Lemma digit_pairs (P : Z → Z → bool) :
  forallb (λ a, forallb (P a) all_ten) all_ten = true →
  ∀ a b, (0 ≤ a < 10)%Z → (0 ≤ b < 10)%Z → P a b = true.
Proof.
  intros H a b Ha%elem_of_all_ten Hb%elem_of_all_ten. rewrite forallb_forall in H.
  apply list_elem_of_In in Ha, Hb. specialize (H a Ha). rewrite forallb_forall in H. auto.
Qed.

Lemma digit_card_char c : is_digit c = true → is_card_char c = true.
Proof. unfold is_card_char. by intros ->. Qed.

Lemma digit_no_space c : is_digit c = true → not_space_char c = true.
Proof.
  intros H. unfold not_space_char. rewrite negb_true_iff, bool_decide_eq_false. by intros ->.
Qed.

Lemma filter_middle (P : ascii → bool) p c q :
  P c = true → List.filter P (p ++ c :: q) = List.filter P p ++ c :: List.filter P q.
Proof. intros Hc. rewrite List.filter_app. simpl. by rewrite Hc. Qed.

Lemma forallb_middle (P : ascii → bool) p c c' q :
  P c = true → P c' = true → forallb P (p ++ c :: q) = forallb P (p ++ c' :: q).
Proof. intros Hc Hc'. rewrite !forallb_app. simpl. by rewrite Hc, Hc'. Qed.

(** ** Credit cards *)

Lemma luhn_loop_add l e n m : luhn_loop l e (n + m) = (luhn_loop l e n + m)%Z.
Proof.
  revert e n. induction l as [|c l IH]; intros e n; simpl; [done|].
  rewrite <-IH. f_equal. lia.
Qed.

Definition flips (n : nat) (e : bool) : bool := if Nat.even n then e else negb e.

Lemma luhn_loop_app l k e n : luhn_loop (l ++ k) e n = luhn_loop k (flips (length l) e) (luhn_loop l e n).
Proof.
  revert e n. induction l as [|c l IH]; intros e n; [done|]. simpl length. simpl.
  rewrite IH. f_equal. unfold flips. rewrite Nat.even_succ, <-Nat.negb_even.
  destruct (Nat.even (length l)), e; done.
Qed.

Definition luhn_total (digits : chars) : Z := luhn_loop (rev digits) false 0.

(** The share of one digit in the total. *)
Lemma luhn_total_middle p c q :
  luhn_total (p ++ c :: q) =
    (luhn_loop (rev q) false 0 + luhn_digit (flips (length q) false) (digit_value c)
     + luhn_loop (rev p) (negb (flips (length q) false)) 0)%Z.
Proof.
  unfold luhn_total. rewrite rev_app_distr. simpl. rewrite <-app_assoc. simpl.
  rewrite luhn_loop_app, length_rev. simpl.
  set (x := luhn_loop (rev q) false 0). set (e := flips (length q) false).
  rewrite <-(Z.add_0_l (x + _)), luhn_loop_add. lia.
Qed.

Lemma luhn_digit_distinct e a b :
  (0 ≤ a < 10)%Z → (0 ≤ b < 10)%Z → a ≠ b →
  ((luhn_digit e a - luhn_digit e b) mod 10 ≠ 0)%Z.
Proof.
  intros Ha Hb Hab.
  assert ((a =? b) || negb ((luhn_digit e a - luhn_digit e b) mod 10 =? 0) = true)%Z as H.
  { destruct e.
    - apply (digit_pairs (λ a b, (a =? b) || negb ((luhn_digit true a - luhn_digit true b) mod 10 =? 0))%Z); [by vm_compute|done..].
    - apply (digit_pairs (λ a b, (a =? b) || negb ((luhn_digit false a - luhn_digit false b) mod 10 =? 0))%Z); [by vm_compute|done..]. }
  apply orb_true_iff in H as [H%Z.eqb_eq|H]; [done|]. apply negb_true_iff, Z.eqb_neq in H. done.
Qed.

(** Two totals that differ in one share. *)
Lemma same_rem m k k' x y :
  m ≠ 0%Z → ((k + x + k') mod m = 0)%Z →
  ((k + y + k') mod m = 0)%Z ↔ ((x - y) mod m = 0)%Z.
Proof.
  intros Hm Hx. rewrite Z.mod_divide in Hx |- * by done. rewrite !Z.mod_divide by done. split; intros Hy.
  - replace (x - y)%Z with ((k + x + k') - (k + y + k'))%Z by lia. by apply Z.divide_sub_r.
  - replace (k + y + k')%Z with ((k + x + k') - (x - y))%Z by lia. by apply Z.divide_sub_r.
Qed.

Lemma creditcard_total v :
  creditcard v = true ↔
    forallb is_card_char v = true ∧ (13 ≤ length (List.filter is_digit v) ≤ 19) ∧
    (luhn_total (List.filter is_digit v) mod 10 = 0)%Z.
Proof.
  unfold creditcard, luhn_total. destruct (forallb is_card_char v); [|split; [done|by intros [? _]]].
  destruct (_ || _) eqn:E.
  - split; [done|]. intros (_ & H & _). apply orb_true_iff in E as [?%Nat.ltb_lt|?%Nat.ltb_lt]; lia.
  - apply orb_false_iff in E as [?%Nat.ltb_ge ?%Nat.ltb_ge]. rewrite Z.eqb_eq. split; [tauto|lia].
Qed.

(** The neighbours' share, and when their exchange does not show. *)
Definition neighbours (e : bool) (a b : Z) : Z := (luhn_digit (negb e) a + luhn_digit e b)%Z.

Lemma neighbours_distinct e a b :
  (0 ≤ a < 10)%Z → (0 ≤ b < 10)%Z → a ≠ b →
  ((neighbours e a b - neighbours e b a) mod 10 = 0)%Z ↔ (a = 0 ∧ b = 9 ∨ a = 9 ∧ b = 0)%Z.
Proof.
  intros Ha Hb Hab.
  assert (∀ e, ((a =? b) || eqb ((neighbours e a b - neighbours e b a) mod 10 =? 0)
    ((a =? 0) && (b =? 9) || (a =? 9) && (b =? 0)))%Z = true) as H.
  { intros e'. revert Ha Hb. clear Hab. revert a b. apply digit_pairs. by destruct e'; vm_compute. }
  specialize (H e). apply orb_true_iff in H as [H%Z.eqb_eq|H%eqb_prop]; [done|].
  rewrite <-Z.eqb_eq, H. rewrite orb_true_iff, !andb_true_iff, !Z.eqb_eq. done.
Qed.

Lemma luhn_total_neighbours p a b q :
  luhn_total (p ++ a :: b :: q) =
    (luhn_loop (rev q) false 0 + neighbours (flips (length q) false) (digit_value a) (digit_value b)
     + luhn_loop (rev p) (flips (length q) false) 0)%Z.
Proof.
  change (p ++ a :: b :: q) with (p ++ [a] ++ b :: q). rewrite app_assoc, luhn_total_middle.
  rewrite rev_app_distr. simpl. set (e := flips (length q) false).
  rewrite negb_involutive, <-(Z.add_0_l (luhn_digit (negb e) _)), luhn_loop_add. unfold neighbours. lia.
Qed.

(** C26. The check of credit card numbers catches every error in one digit, and
    every exchange of two neighbouring digits but that of 0 and 9, which it
    never catches. *)
Theorem creditcard_catches_errors p a b q :
  is_digit a = true → is_digit b = true → a ≠ b →
  (creditcard (p ++ a :: q) = true → creditcard (p ++ b :: q) = false) ∧
  (creditcard (p ++ a :: b :: q) = true →
     creditcard (p ++ b :: a :: q) = true ↔
       digit_value a = 0%Z ∧ digit_value b = 9%Z ∨ digit_value a = 9%Z ∧ digit_value b = 0%Z).
Proof.
  intros Ha Hb Hab. pose proof (digit_range a Ha). pose proof (digit_range b Hb).
  assert (digit_value a ≠ digit_value b) as Hne by (intros E; by apply Hab, digit_value_inj).
  pose proof (digit_card_char a Ha). pose proof (digit_card_char b Hb). split.
  - intros (_ & _ & Hs)%creditcard_total. apply not_true_iff_false. intros (_ & _ & Hs')%creditcard_total.
    rewrite filter_middle, luhn_total_middle in Hs, Hs' by done.
    apply (same_rem 10 _ _ _ _ ltac:(done) Hs) in Hs'. by eapply luhn_digit_distinct in Hs'.
  - intros (Hc & Hl & Hs)%creditcard_total. rewrite creditcard_total, <-neighbours_distinct by done.
    rewrite forallb_app in Hc |- *. simpl in Hc |- *.
    rewrite !filter_middle in * by done. simpl in Hl, Hs |- *. rewrite Ha, Hb in *. simpl in Hc.
    rewrite !length_app in *. simpl in *. rewrite luhn_total_neighbours in *.
    rewrite (same_rem 10 _ _ _ _ ltac:(done) Hs). split; [by intros (_ & _ & ?)|]. intros Hd. split; [|split; [lia|done]].
    rewrite !andb_true_iff in *. tauto.
Qed.

Lemma creditcard_catches_errors_witness :
  creditcard (chars_of "4111-1111-1111-1111") = true ∧ creditcard (chars_of "4111-1111-1171-1111") = false ∧
  creditcard (chars_of "1411-1111-1111-1111") = false.
Proof.
  split; [by vm_compute|]. split.
  - exact (proj1 (creditcard_catches_errors (chars_of "4111-1111-11") "1"%char "7"%char (chars_of "1-1111")
      eq_refl eq_refl ltac:(done)) ltac:(by vm_compute)).
  - apply not_true_iff_false.
    intros H%(proj2 (creditcard_catches_errors [] "4"%char "1"%char (chars_of "11-1111-1111-1111")
      eq_refl eq_refl ltac:(done)) ltac:(by vm_compute)).
    destruct H as [[H _]|[H _]]; vm_compute in H; discriminate H.
Defined.

(** ** International bank accounts *)

(** The place of a character in the alphabet. *)
Definition alphabet_value (c : ascii) : option Z :=
  Z.of_nat ∘ fst <$> list_find (λ x, x = c) (chars_of iban_alphabet).

(** The number a string spells when letters stand for two digits. *)
Fixpoint spelled (acc : Z) (l : chars) : option Z :=
  match l with
  | [] => Some acc
  | c :: l' => v ← alphabet_value c; spelled (acc * (if (v <? 10)%Z then 10 else 100) + v) l'
  end.

Lemma below_range (P : Z → bool) n :
  forallb P (Z.of_nat <$> seq 0 n) = true → ∀ z, (0 ≤ z < Z.of_nat n)%Z → P z = true.
Proof.
  intros H z Hz. rewrite forallb_forall in H. apply H, list_elem_of_In, list_elem_of_fmap.
  exists (Z.to_nat z). split; [lia|]. apply elem_of_seq. lia.
Qed.

Lemma digits_value_shift acc l : digits_value acc l = (acc * 10 ^ Z.of_nat (length l) + digits_value 0 l)%Z.
Proof.
  revert acc. induction l as [|c l IH]; intros acc; [simpl; lia|].
  change (digits_value (acc * 10 + digit_value c) l = acc * 10 ^ Z.of_nat (S (length l)) + digits_value (0 * 10 + digit_value c) l)%Z.
  rewrite (IH (acc * 10 + _)%Z), (IH (0 * 10 + _)%Z). rewrite Nat2Z.inj_succ, Z.pow_succ_r by lia. lia.
Qed.

(** Numbers below 97 as strings. *)
Lemma natural_small z :
  (0 ≤ z < 97)%Z →
  forallb is_digit (natural_string z) = true ∧ digits_value 0 (natural_string z) = z ∧
  length (natural_string z) = if (z <? 10)%Z then 1 else 2.
Proof.
  intros Hz.
  assert (forallb is_digit (natural_string z) && (digits_value 0 (natural_string z) =? z)%Z &&
    (length (natural_string z) =? if (z <? 10)%Z then 1 else 2) = true) as H.
  { revert z Hz. apply (below_range (λ z, _) 97). by vm_compute. }
  rewrite !andb_true_iff, Z.eqb_eq, Nat.eqb_eq in H. tauto.
Qed.

Lemma digits_number_snoc l c :
  forallb is_digit l = true →
  digits_number (l ++ [c]) = if is_digit c then Some (digits_value 0 l * 10 + digit_value c)%Z else None.
Proof.
  intros Hl. unfold digits_number. destruct (l ++ [c]) as [|c' l'] eqn:E; [by destruct l|].
  rewrite <-E, forallb_app, Hl, digits_value_app. simpl. by destruct (is_digit c).
Qed.

Lemma iban_step_number z c :
  (0 ≤ z < 97)%Z →
  iban_step (RestNumber z) c = if is_digit c then RestNumber ((z * 10 + digit_value c) mod 97) else RestNaN.
Proof.
  intros (Hd & Hv & _)%natural_small. unfold iban_step. simpl. rewrite digits_number_snoc, Hv by done.
  by destruct (is_digit c).
Qed.

Lemma iban_steps_digits l z :
  forallb is_digit l = true →
  fold_left iban_step l (RestNumber (z mod 97)) = RestNumber (digits_value z l mod 97).
Proof.
  revert z. induction l as [|c l IH]; intros z Hl; simpl; [done|].
  apply andb_true_iff in Hl as [Hc Hl]. rewrite iban_step_number, Hc by (apply Z.mod_pos_bound; lia).
  rewrite <-IH by done. do 2 f_equal.
  rewrite <-(Zplus_mod_idemp_l (_ * 10)), Zmult_mod_idemp_l, Zplus_mod_idemp_l. done.
Qed.

Lemma iban_steps_NaN l : fold_left iban_step l RestNaN = RestNaN.
Proof. induction l as [|c l IH]; simpl; [done|]. by destruct (is_digit c). Qed.

Lemma alphabet_value_bound c v : alphabet_value c = Some v → (0 ≤ v < 36)%Z.
Proof.
  unfold alphabet_value. destruct (list_find _ _) as [[i x]|] eqn:E; [|done].
  apply list_find_Some in E as (Hi & _). apply lookup_lt_Some in Hi. simpl in *. intros [= <-]. lia.
Qed.

Lemma index_string_value c :
  index_string c = match alphabet_value c with Some v => natural_string v | None => chars_of "-1" end.
Proof. unfold index_string, alphabet_value. by destruct (list_find _ _) as [[]|]. Qed.

Lemma iban_letter z c :
  fold_left iban_step (index_string c) (RestNumber (z mod 97)) =
    match alphabet_value c with
    | Some v => RestNumber ((z * (if (v <? 10)%Z then 10 else 100) + v) mod 97)
    | None => RestNaN
    end.
Proof.
  rewrite index_string_value. destruct (alphabet_value c) as [v|] eqn:Ev.
  - apply alphabet_value_bound in Ev. destruct (natural_small v) as (Hd & Hv & Hl); [lia|].
    rewrite iban_steps_digits, digits_value_shift, Hv, Hl by done. by destruct (v <? 10)%Z.
  - simpl fold_left. rewrite iban_step_number by (apply Z.mod_pos_bound; lia). done.
Qed.

Lemma iban_checksum_number l z :
  fold_left iban_step (iban_digits l false) (RestNumber (z mod 97)) =
    match spelled z l with Some n => RestNumber (n mod 97) | None => RestNaN end.
Proof.
  revert z. induction l as [|c l IH]; intros z; [done|]. simpl iban_digits. rewrite fold_left_app, iban_letter.
  simpl spelled. destruct (alphabet_value c) as [v|]; simpl; [by rewrite IH|]. apply iban_steps_NaN.
Qed.

(** From the empty string: leading zeros do not count. *)
Definition rest_is_one (r : rest) : bool := match r with RestNumber z => (z =? 1)%Z | _ => false end.

Lemma iban_checksum_one l :
  rest_is_one (fold_left iban_step (iban_digits l true) RestEmpty) = true ↔
  ∃ n, spelled 0 l = Some n ∧ (n mod 97 = 1)%Z.
Proof.
  induction l as [|c l IH].
  - simpl. split; [done|]. by intros (n & [= <-] & ?).
  - simpl iban_digits. destruct (bool_decide_reflect (c = "0"%char)) as [->|Hc]; simpl andb; cbn iota.
    + apply IH.
    + assert (fold_left iban_step (index_string c) RestEmpty =
        fold_left iban_step (index_string c) (RestNumber (0 mod 97))) as E.
      { rewrite index_string_value. destruct (alphabet_value c) as [v|] eqn:Ev; [|done].
        apply alphabet_value_bound in Ev. destruct (natural_small v) as (Hd & _ & Hl); [lia|].
        destruct (natural_string v) as [|d ds]; [simpl in Hl; by destruct (v <? 10)%Z|]. by simpl. }
      rewrite fold_left_app, E, <-fold_left_app.
      change (index_string c ++ iban_digits l false) with (iban_digits (c :: l) false).
      rewrite iban_checksum_number. destruct (spelled 0 (c :: l)) as [n|]; simpl.
      * rewrite Z.eqb_eq. split; [by exists n|by intros (? & [= <-] & ?)].
      * split; [done|by intros (? & ? & _)].
Qed.

(** The account as it is checked: without spaces, in capitals. *)
Definition normal_iban (value : chars) : chars := toUpperCase (List.filter not_space_char value).

(** C25. iban accepts exactly the values that, without spaces and in capitals,
    have five characters or more, the format of their country if that is
    known, and spell, the first four characters moved to the end and letters
    read as two digits, a number with remainder 1 by 97.  The remainder taken
    digit by digit is that of the whole number, and any other character makes
    the check fail. *)
Theorem iban_remainder value :
  iban value = true ↔
    let i := normal_iban value in
    5 ≤ length i ∧ iban_format i = true ∧
    ∃ n, spelled 0 (drop 4 i ++ take 4 i) = Some n ∧ (n mod 97 = 1)%Z.
Proof.
  unfold iban. fold (normal_iban value). cbv zeta. set (i := normal_iban value).
  rewrite <-iban_checksum_one. unfold iban_checksum.
  destruct (Nat.ltb_spec (length i) 5); [split; [done|lia]|].
  destruct (iban_format i); [|split; [done|by intros (_ & ? & _)]].
  change (match ?r with RestNumber z => (z =? 1)%Z | _ => false end) with (rest_is_one r). tauto.
Qed.

Example iban_ex : iban (chars_of "GB82 west 1234 5698 7654 32") = true ∧ iban (chars_of "XX00") = false.
Proof. split; by vm_compute. Qed.

(** *** One wrong digit *)

(** What follows a digit scales its share by a power of ten. *)
Lemma spelled_shift l acc n : spelled acc l = Some n →
  ∃ k, ∀ acc', spelled acc' l = Some (n + (acc' - acc) * 10 ^ Z.of_nat k)%Z.
Proof.
  revert acc n. induction l as [|c l IH]; intros acc n; simpl.
  - intros [= <-]. exists 0. intros acc'. f_equal. lia.
  - destruct (alphabet_value c) as [v|]; [|done]. simpl. intros (k & Hk)%IH.
    exists ((if (v <? 10)%Z then 1 else 2) + k). intros acc'. rewrite Hk. f_equal.
    rewrite Nat2Z.inj_add, Z.pow_add_r by lia. destruct (v <? 10)%Z; lia.
Qed.

Lemma spelled_app l k acc : spelled acc (l ++ k) = n ← spelled acc l; spelled n k.
Proof. revert acc. induction l as [|c l IH]; intros acc; simpl; [done|]. destruct (alphabet_value c); simpl; [apply IH|done]. Qed.

Lemma pow_ten_prime_to_97 k x : (97 | x * 10 ^ Z.of_nat k)%Z → (97 | x)%Z.
Proof.
  induction k as [|k IH]; [by rewrite Z.mul_1_r|]. intros [y Hy]. apply IH.
  rewrite Nat2Z.inj_succ, Z.pow_succ_r in Hy by lia. exists (68 * y - 7 * (x * 10 ^ Z.of_nat k))%Z. lia.
Qed.

Lemma digit_in_alphabet c : is_digit c = true → alphabet_value c = Some (digit_value c).
Proof.
  intros Hc. assert (∀ c, negb (is_digit c) || bool_decide (alphabet_value c = Some (digit_value c)) = true) as H.
  { intros [[] [] [] [] [] [] [] []]; vm_compute; reflexivity. }
  specialize (H c). rewrite Hc in H. by apply bool_decide_eq_true in H.
Qed.

(** Moving the first characters to the end keeps what surrounds a character. *)
Lemma rotate_middle n (P Q : chars) :
  ∃ a b, ∀ c, drop n (P ++ c :: Q) ++ take n (P ++ c :: Q) = a ++ c :: b.
Proof.
  destruct (decide (length P < n)) as [Hn|Hn].
  - exists (drop (n - S (length P)) Q ++ P), (take (n - S (length P)) Q). intros c.
    replace n with (length P + S (n - S (length P))) at 1 2 by lia.
    rewrite drop_app_add, take_app_add. simpl. by rewrite <-app_assoc.
  - exists (drop n P), (Q ++ take n P). intros c.
    rewrite drop_app_le, take_app_le by lia. by rewrite <-app_assoc.
Qed.

Lemma normal_iban_middle p c q :
  is_digit c = true → normal_iban (p ++ c :: q) = normal_iban p ++ c :: normal_iban q.
Proof.
  intros Hc. unfold normal_iban. rewrite filter_middle by by apply digit_no_space.
  unfold toUpperCase. rewrite fmap_app, fmap_cons, join_app. simpl. f_equal.
  assert (upper_of c = [c]) as ->; [|done]. revert Hc. clear.
  assert (∀ c, negb (is_digit c) || bool_decide (upper_of c = [c]) = true) as H.
  { intros [[] [] [] [] [] [] [] []]; vm_compute; reflexivity. }
  intros Hc. specialize (H c). rewrite Hc in H. by apply bool_decide_eq_true in H.
Qed.

(** The check of an IBAN catches every error in one digit. *)
Theorem iban_catches_errors p c d q :
  is_digit c = true → is_digit d = true → c ≠ d →
  iban (p ++ c :: q) = true → iban (p ++ d :: q) = false.
Proof.
  intros Hc Hd Hcd (_ & _ & n & Hn & Hmod)%iban_remainder.
  apply not_true_iff_false. intros (_ & _ & n' & Hn' & Hmod')%iban_remainder.
  rewrite !normal_iban_middle in * by done.
  destruct (rotate_middle 4 (normal_iban p) (normal_iban q)) as (a & b & E). rewrite E in Hn, Hn'.
  rewrite spelled_app in Hn, Hn'. destruct (spelled 0 a) as [x|]; [|done]. simpl in Hn, Hn'.
  rewrite digit_in_alphabet in Hn, Hn' by done. simpl in Hn, Hn'.
  pose proof (digit_range c Hc) as Hrc. pose proof (digit_range d Hd) as Hrd.
  rewrite (proj2 (Z.ltb_lt _ _)) in Hn by lia. rewrite (proj2 (Z.ltb_lt _ _)) in Hn' by lia.
  destruct (spelled_shift _ _ _ Hn) as [k Hk]. rewrite Hk in Hn'. injection Hn' as <-.
  assert (97 | (digit_value d - digit_value c))%Z as [y Hy].
  { apply (pow_ten_prime_to_97 k). apply Z.mod_divide; [done|].
    rewrite (Z.mod_eq n), (Z.mod_eq (n + _)) in * by done.
    apply Z.mod_divide; [done|]. exists ((n + (x * 10 + digit_value d - (x * 10 + digit_value c)) * 10 ^ Z.of_nat k) / 97 - n / 97)%Z. lia. }
  apply Hcd, digit_value_inj; [done..|lia].
Qed.

Lemma iban_catches_errors_witness :
  iban (chars_of "GB82 WEST 1234 5698 7654 32") = true ∧ iban (chars_of "GB82 WEST 1234 5698 7554 32") = false.
Proof.
  split; [by vm_compute|].
  exact (iban_catches_errors (chars_of "GB82 WEST 1234 5698 7") "6"%char "5"%char (chars_of "54 32")
    eq_refl eq_refl ltac:(done) ltac:(by vm_compute)).
Defined.

(** ** Vehicle identification numbers *)

(** The value of a character of a VIN. *)
Definition vin_value (c : ascii) : option Z :=
  match char_number c with
  | Some d => Some d
  | None =>
      match list_find (λ x, toUpperCase [c] = [x]) (chars_of vin_LL) with
      | Some (n, _) => Some (nth n vin_VL 0%Z)
      | None => None
      end
  end.

Definition is_J (c : ascii) : bool := bool_decide (toUpperCase [c] = ["J"%char]).

Lemma vin_loop_app l1 l2 fl1 fl2 i st :
  length fl1 = length l1 →
  vin_loop i (fl1 ++ fl2) (l1 ++ l2) st = vin_loop (i + length l1) fl2 l2 (vin_loop i fl1 l1 st).
Proof.
  revert l1 i st. induction fl1 as [|f fl1 IH]; intros [|c l1] i st Hl; try done; simpl in *.
  - by rewrite Nat.add_0_r.
  - rewrite IH by lia. f_equal. lia.
Qed.

Lemma vin_round_value i f c z cdv v :
  vin_value c = Some v → ∃ cdv', vin_round i f c (VinNumber z, cdv) = (VinNumber (z + v * f), cdv').
Proof.
  unfold vin_value, vin_round. destruct (char_number c) as [d|].
  - intros [= ->]. by eexists.
  - destruct (list_find _ _) as [[n x]|]; [|done]. intros [= <-]. by eexists.
Qed.

Lemma vin_loop_sum l fl i z cdv s :
  weighted vin_value fl l = Some s → fst (vin_loop i fl l (VinNumber z, cdv)) = VinNumber (z + s).
Proof.
  revert fl i z cdv s. induction l as [|c l IH]; intros [|f fl] i z cdv s; cbn [weighted vin_loop];
    try (intros [= <-]; simpl; by rewrite Z.add_0_r).
  destruct (vin_value c) as [v|] eqn:Ev; [|done]. cbn [mbind option_bind].
  destruct (weighted vin_value fl l) as [s'|] eqn:Es; [|done]. cbn [mbind option_bind]. intros [= <-].
  destruct (vin_round_value i f c z cdv v Ev) as [cdv' ->]. rewrite (IH _ _ _ _ s') by done. f_equal. lia.
Qed.

(** The letter J is the one the code tests for. *)
Lemma find_J c n x :
  list_find (λ x, toUpperCase [c] = [x]) (chars_of vin_LL) = Some (n, x) →
  (n =? 8) = is_J c ∧ (n = 8 → x = "J"%char).
Proof.
  intros (Hn & Hc & _)%list_find_Some. unfold is_J. rewrite Hc.
  assert (∀ n x, chars_of vin_LL !! n = Some x → (n =? 8) = bool_decide ([x] = ["J"%char])) as H.
  { clear. intros n x Hn.
    do 23 (destruct n as [|n]; [vm_compute in Hn; injection Hn as <-; by vm_compute|]).
    apply lookup_lt_Some in Hn. vm_compute in Hn. lia. }
  split; [by apply H|]. intros ->. vm_compute in Hn. by injection Hn as <-.
Qed.

Lemma is_J_no_digit c : is_J c = true → char_number c = None ∧
  ∃ n, list_find (λ x, toUpperCase [c] = [x]) (chars_of vin_LL) = Some (n, "J"%char) ∧ n = 8.
Proof.
  assert (∀ c, negb (is_J c) || bool_decide (c = "J"%char) || bool_decide (c = "j"%char) = true) as H.
  { intros [[] [] [] [] [] [] [] []]; vm_compute; reflexivity. }
  intros Hc. specialize (H c). rewrite Hc, !orb_true_iff, !bool_decide_eq_true in H.
  destruct H as [[?| ->]| ->]; [done|..]; (split; [by vm_compute|]); exists 8; (split; [by vm_compute|done]).
Qed.

(** After position 8 the check character stays, unless it is no number and a J
    follows. *)
Lemma vin_loop_check l fl i rs c :
  8 < i → length l = length fl →
  snd (vin_loop i fl l (rs, Some c)) =
    Some (if existsb is_J l && cdv_isNaN (Some c) then "J"%char else c).
Proof.
  revert fl i rs c. induction l as [|v l IH]; intros [|f fl] i rs c Hi Hl; try done. simpl in Hl.
  cbn [vin_loop]. unfold vin_round. rewrite (proj2 (Nat.eqb_neq i 8)) by lia.
  destruct (is_J v) eqn:Ej.
  - destruct (is_J_no_digit v Ej) as (Hd & n & Hn & ->). rewrite Hd, Hn. simpl. rewrite Ej. simpl.
    rewrite andb_true_r. case_bool_decide as Hc; (rewrite IH; [|lia|lia]); simpl.
    + by destruct (existsb is_J l).
    + rewrite bool_decide_false by done. by rewrite andb_false_r.
  - simpl existsb. rewrite Ej. simpl orb. destruct (char_number v); [by apply IH; lia|].
    destruct (list_find _ _) as [[n x]|] eqn:Ef; [|by apply IH; lia].
    apply find_J in Ef as [E _]. rewrite E, Ej, andb_false_r. by apply IH; lia.
Qed.

(** vinUS accepts a value only if its ninth character is X and no J comes
    later: a number whose check digit is a digit is never valid, because the
    code compares that digit, a string, with a number.  With an X in place,
    and no J later, it accepts when the characters have values whose sum has
    remainder 10 by 11. *)
Theorem vinUS_accepts_X_only v :
  (vinUS v = true → length v = 17 ∧ v !! 8 = Some "X"%char ∧ existsb is_J (drop 9 v) = false) ∧
  ∀ s, weighted vin_value vin_FL v = Some s →
    length v = 17 → v !! 8 = Some "X"%char → existsb is_J (drop 9 v) = false →
    vinUS v = (s mod 11 =? 10)%Z.
Proof.
  unfold vinUS. destruct (Nat.eqb_spec (length v) 17) as [Hl|Hl]; [|by split].
  destruct (lookup_lt_is_Some_2 v 8) as [c Hc]; [lia|].
  set (st8 := vin_loop 0 (take 8 vin_FL) (take 8 v) (VinNumber 0, None)).
  assert (vin_loop 0 vin_FL v (VinNumber 0, None) =
    vin_loop 9 (drop 9 vin_FL) (drop 9 v) (vin_round 8 0 c st8)) as E.
  { rewrite <-(take_drop_middle v 8 c Hc) at 1. change vin_FL with (take 8 vin_FL ++ 0%Z :: drop 9 vin_FL) at 1.
    assert (length (take 8 v) = 8) as H8 by (rewrite length_take; lia).
    rewrite vin_loop_app by (by rewrite H8). by rewrite H8. }
  assert (∃ rs c', vin_round 8 0 c st8 = (rs, Some c') ∧ (c' = c ∨ c' = "J"%char ∧ is_J c = true))
    as (rs & c' & Er & Hc').
  { unfold vin_round. destruct st8 as [rs cdv]. cbn [Nat.eqb]. destruct (char_number c); [by eauto|].
    destruct (list_find _ _) as [[n x]|] eqn:Ef; [|by eauto]. destruct (find_J c n x Ef) as [EJ Ex].
    destruct (cdv_isNaN (Some c)), (Nat.eqb_spec n 8) as [->|]; simpl; eauto 6.
    exists (vin_add rs (inl (nth 8 vin_VL 0 * 0)%Z)), x. eauto. }
  assert (snd (vin_loop 0 vin_FL v (VinNumber 0, None)) =
    Some (if existsb is_J (drop 9 v) && cdv_isNaN (Some c') then "J"%char else c')) as Es.
  { rewrite E, Er. apply vin_loop_check; [lia|]. rewrite length_drop. simpl. lia. }
  destruct (vin_loop 0 vin_FL v _) as [total cdv] eqn:El. simpl in Es. subst cdv. split.
  - intros [_ Hx]%andb_true_iff. apply bool_decide_eq_true in Hx.
    destruct (existsb is_J (drop 9 v)) eqn:Ej; simpl in Hx.
    + destruct (bool_decide (char_number c' = None)) eqn:Hd; [done|]. injection Hx as ->. by vm_compute in Hd.
    + injection Hx as ->. by destruct Hc' as [<-|[? _]].
  - intros s Hs _ Hx Hj. rewrite Hx in Hc. injection Hc as <-. destruct Hc' as [->|[_ HJ]]; [|by vm_compute in HJ].
    rewrite Hj. simpl. pose proof (vin_loop_sum v vin_FL 0 0 None s Hs) as Hsum. rewrite El in Hsum.
    simpl in Hsum. subst total. by rewrite andb_true_r.
Qed.

Lemma vinUS_accepts_X_only_witness :
  vinUS (chars_of "1M8GDM9AXKP042788") = true ∧ vinUS (chars_of "11111111111111111") = false.
Proof.
  split.
  - rewrite (proj2 (vinUS_accepts_X_only (chars_of "1M8GDM9AXKP042788")) 351%Z eq_refl eq_refl eq_refl eq_refl).
    reflexivity.
  - apply not_true_iff_false. intros (_ & H & _)%(proj1 (vinUS_accepts_X_only _)). vm_compute in H. discriminate H.
Defined.

(** ** Dutch bank accounts *)

Lemma weighted_middle digit f1 x f2 p c q :
  length f1 = length p →
  weighted digit (f1 ++ x :: f2) (p ++ c :: q) =
    s1 ← weighted digit f1 p; d ← digit c; s2 ← weighted digit f2 q; Some (s1 + (x * d + s2))%Z.
Proof.
  revert p. induction f1 as [|f f1 IH]; intros [|a p] Hl; try done; simpl.
  destruct (digit a) as [da|]; simpl; [|done]. rewrite IH by (simpl in Hl; lia).
  destruct (weighted digit f1 p), (digit c), (weighted digit f2 q); simpl; try done. f_equal. lia.
Qed.

Lemma countdown_split n i :
  i < n → ∃ f1 f2, countdown n = f1 ++ Z.of_nat (n - i) :: f2 ∧ length f1 = i.
Proof.
  revert i. induction n as [|n IH]; intros i Hi; [lia|]. destruct i as [|i].
  - by exists [], (countdown n).
  - destruct (IH i) as (f1 & f2 & E & Hl); [lia|]. exists (Z.of_nat (S n) :: f1), f2.
    simpl. rewrite E, Hl. done.
Qed.

Lemma rem_is_Some m r o : rem_is m r o = true ↔ ∃ s, o = Some s ∧ (s mod m = r)%Z.
Proof.
  destruct o as [s|]; simpl.
  - rewrite Z.eqb_eq. split; [by exists s|by intros (? & [= <-] & ?)].
  - split; [done|by intros (? & ? & _)].
Qed.

(** A factor below 11 keeps the difference of two digits visible. *)
Lemma factor_shows x a b :
  (0 < x < 11)%Z → (0 ≤ a < 10)%Z → (0 ≤ b < 10)%Z → ((x * a - x * b) mod 11 = 0)%Z → a = b.
Proof.
  intros Hx Ha Hb [y Hy]%Z.mod_divide; [|done].
  assert (x = 1 ∨ x = 2 ∨ x = 3 ∨ x = 4 ∨ x = 5 ∨ x = 6 ∨ x = 7 ∨ x = 8 ∨ x = 9 ∨ x = 10)%Z as Hcases by lia.
  repeat destruct Hcases as [->|Hcases]; try subst x; lia.
Qed.

(** The check of Dutch bank accounts catches every error in one digit of an
    account of at most ten digits; but longer ones pass the format test, and
    there an error in the eleventh digit from the end is never caught. *)
Theorem bankaccountNL_catches_errors p c d q :
  is_digit c = true → is_digit d = true → c ≠ d →
  bankaccountNL (p ++ c :: q) = true →
  let before := length (List.filter not_space_char p) in
  let after := length (List.filter not_space_char q) in
  (before + after < 10 → bankaccountNL (p ++ d :: q) = false) ∧
  (after = 10 → bankaccountNL_regex (p ++ d :: q) = true → bankaccountNL (p ++ d :: q) = true).
Proof.
  intros Hc Hd Hcd H before after. unfold bankaccountNL in *.
  destruct (bankaccountNL_regex (p ++ c :: q)); [|done].
  rewrite !filter_middle in * by by apply digit_no_space.
  rewrite !length_app in *. simpl length in *. fold before after in H |- *.
  destruct (countdown_split (before + S after) before) as (f1 & f2 & E & Hl); [lia|].
  replace (before + S after - before) with (S after) in E by lia. rewrite E in *. set (x := Z.of_nat (S after)) in *.
  rewrite weighted_middle in H |- * by done. unfold char_number in *.
  pose proof (digit_range c Hc). pose proof (digit_range d Hd).
  apply rem_is_Some in H as (s & Hs & Hmod).
  destruct (weighted _ f1 _) as [s1|]; [|done]. rewrite Hc in Hs. rewrite Hd. simpl in Hs |- *.
  destruct (weighted _ f2 _) as [s2|]; [|done]. simpl in *. injection Hs as <-. split.
  - intros Hlen. destruct (bankaccountNL_regex _); [|done]. apply Z.eqb_neq. intros Hmod'.
    apply Hcd, digit_value_inj; [done..|]. apply (factor_shows x); [unfold x; lia|done..|].
    rewrite Z.add_assoc in Hmod, Hmod'. by apply (same_rem 11 _ _ _ _ ltac:(done) Hmod).
  - intros Ha ->. apply Z.eqb_eq. rewrite Z.add_assoc in Hmod |- *.
    apply (same_rem 11 _ _ _ _ ltac:(done) Hmod). unfold x. rewrite Ha.
    apply Z.mod_divide; [done|]. exists (digit_value c - digit_value d)%Z. lia.
Qed.

Lemma bankaccountNL_catches_errors_witness :
  bankaccountNL (chars_of "12 34 56 789") = true ∧ bankaccountNL (chars_of "12 34 56 788") = false ∧
  bankaccountNL (chars_of "10000000000") = true ∧ bankaccountNL (chars_of "90000000000") = true.
Proof.
  split; [by vm_compute|]. split; [|split; [by vm_compute|]].
  - exact (proj1 (bankaccountNL_catches_errors (chars_of "12 34 56 78") "9"%char "8"%char []
      eq_refl eq_refl ltac:(done) ltac:(by vm_compute)) ltac:(vm_compute; lia)).
  - exact (proj2 (bankaccountNL_catches_errors [] "1"%char "9"%char (chars_of "0000000000")
      eq_refl eq_refl ltac:(done) ltac:(by vm_compute)) eq_refl ltac:(by vm_compute)).
Defined.
