(* ===== verification/AddFormatsFacts.v ===== *)
(** * jquery.validate, additional methods: what the formats accept

    The language of the formats of AddFormats.v where it can be said in other
    words: real dates, addresses, network masks; the codes that can never be
    accepted; and the values on which a method throws. *)
From stdpp Require Import base strings list.
From Stdlib Require Import Ascii ZArith QArith Lia.
From S2P Require Import Prelude JsString JsRegex JsDate ValidatePage ValidateMethods AddNumbers AddFormats.

Local Open Scope js_scope.
Local Open Scope nat_scope.

(** ** Reading formats *)

(** The parts of a sequence. *)
Ltac parts_inv H :=
  repeat match type of H with
  | Forall2 _ (_ :: _) _ => apply Forall2_cons_inv_l in H as (? & ? & ? & H & ->)
  | Forall2 _ [] _ => apply Forall2_nil_inv_l in H as ->
  end.

Lemma lang_upto n p s : lang (RUpTo n (RChar p)) s ↔ length s ≤ n ∧ Forall (λ c, p c = true) s.
Proof.
  split.
  - intros (k & Hk & Hr). assert (lang (RTimes k (RChar p)) s) as [? ?]%lang_times; [|split; [lia|done]].
    clear Hk. revert s Hr. induction k as [|k IH]; intros s; [done|]. intros (u & Hu & Hr). exists u. split; [done|by apply IH].
  - intros [Hl Hs]. exists (length s). split; [done|]. clear Hl.
    induction Hs as [|c s Hc _ IH]; [done|]. exists s. split; [by exists c|done].
Qed.

Lemma lang_between n m p s :
  n ≤ m → lang (RBetween n m (RChar p)) s ↔ n ≤ length s ≤ m ∧ Forall (λ c, p c = true) s.
Proof.
  intros Hnm. unfold RBetween. rewrite lang_seq.
  2:{ clear. induction n; simpl; [done|]. by rewrite IHn. }
  setoid_rewrite lang_times. setoid_rewrite lang_upto. split.
  - intros (a & b & -> & [<- Ha] & Hb & Hb'). rewrite length_app. split; [lia|by apply Forall_app].
  - intros [Hl Hs]. exists (take n s), (drop n s). rewrite length_take, length_drop, take_drop.
    split_and!; [done|lia|by apply Forall_take|lia|by apply Forall_drop].
Qed.

Lemma digit_cases c : is_digit c = true → c ∈ chars_of "0123456789".
Proof.
  assert (∀ c, negb (is_digit c) || bool_decide (c ∈ chars_of "0123456789") = true) as H.
  { intros [[] [] [] [] [] [] [] []]; vm_compute; reflexivity. }
  intros Hc. specialize (H c). rewrite Hc in H. by apply bool_decide_eq_true in H.
Qed.

Lemma all_digits_check (P : ascii → bool) :
  forallb P (chars_of "0123456789") = true → ∀ c, is_digit c = true → P c = true.
Proof. intros H c Hc%digit_cases. rewrite forallb_forall in H. by apply H, list_elem_of_In. Qed.

(** ** ZIP codes *)

(** ziprange accepts 90, a digit from 2 to 5, a digit, the four characters
    "{2}-" and four digits; so it accepts no ZIP code, neither of five digits
    nor of nine. *)
Theorem ziprange_language s :
  (ziprange s = true ↔ ∃ a b k, s = chars_of "90" ++ a :: b :: chars_of "{2}-" ++ k ∧
    (50 ≤ code a ≤ 53) ∧ is_digit b = true ∧ length k = 4 ∧ all_digits k) ∧
  (zipcodeUS s = true → ziprange s = false).
Proof.
  assert (ziprange s = true ↔ ∃ a b k, s = chars_of "90" ++ a :: b :: chars_of "{2}-" ++ k ∧
    (50 ≤ code a ≤ 53) ∧ is_digit b = true ∧ length k = 4 ∧ all_digits k) as H.
  { unfold ziprange. rewrite full_match_spec. change (matches_to ?r s []) with (lang r s).
    rewrite lang_all by done. split.
    - intros (parts & -> & Hp). parts_inv Hp.
      repeat match goal with
      | H : lang (RWord _) _ |- _ => apply lang_word in H as ->
      | H : lang (RRange _ _) _ |- _ => apply lang_range in H as (a & -> & ?)
      | H : lang RDigit _ |- _ => apply lang_char in H as (b & -> & ?)
      | H : lang (RLit _) _ |- _ => apply lang_lit in H as ->
      | H : lang (RTimes _ _) _ |- _ => apply lang_times in H as [? ?]
      end.
      eval_codes. match goal with H : length ?k = 4 |- _ => exists a, b, k end. split_and!; try done; try lia. simpl. by rewrite app_nil_r.
    - intros (a & b & k & -> & Ha & Hb & Hl & Hk).
      exists [chars_of "90"; [a]; [b]; chars_of "{2}"; ["-"%char]; k]. split; [simpl; by rewrite app_nil_r|].
      repeat constructor; rewrite ?lang_word, ?lang_range, ?lang_lit; try done.
      + by exists a.
      + by exists b.
      + by apply lang_times. }
  split; [exact H|]. intros Hz. apply not_true_iff_false. intros (a & b & k & -> & _)%H.
  unfold zipcodeUS in Hz. apply full_match_spec, lang_seq in Hz as (u & v & E & Hu & Hv); [|done].
  apply lang_times in Hu as [Hl Hu].
  destruct u as [|? [|? [|? [|? [|c [|]]]]]]; try done. injection E as <- <- <- <- <- _.
  rewrite !Forall_cons in Hu. destruct Hu as (_ & _ & _ & _ & Hc & _). by vm_compute in Hc.
Qed.

Lemma ziprange_language_witness :
  zipcodeUS (chars_of "90210-1234") = true ∧ ziprange (chars_of "90210-1234") = false.
Proof. split; [by vm_compute|]. apply (proj2 (ziprange_language (chars_of "90210-1234"))). by vm_compute. Defined.

(** ** Addresses *)

(** A byte in decimal, of one to three digits. *)
Definition octet (k : chars) : Prop := all_digits k ∧ 1 ≤ length k ≤ 3 ∧ (digits_value 0 k <= 255)%Z.

(** The digit strings of length 1 to 3, by cases. *)
Lemma short_digits (P : chars → bool) :
  forallb (λ a, P [a] && forallb (λ b, P [a; b] && forallb (λ c, P [a; b; c]) (chars_of "0123456789"))
    (chars_of "0123456789")) (chars_of "0123456789") = true →
  ∀ k, all_digits k → 1 ≤ length k ≤ 3 → P k = true.
Proof.
  intros H k Hk Hl. destruct k as [|a k]; [simpl in Hl; lia|]. apply Forall_cons in Hk as [Ha Hk].
  pose proof (all_digits_check _ H a Ha) as [H1 H2]%andb_true_iff.
  destruct k as [|b k]; [done|]. apply Forall_cons in Hk as [Hb Hk].
  pose proof (all_digits_check _ H2 b Hb) as [H3 H4]%andb_true_iff.
  destruct k as [|c k]; [done|]. apply Forall_cons in Hk as [Hc _].
  destruct k; [|simpl in Hl; lia]. exact (all_digits_check _ H4 c Hc).
Qed.

Lemma ipv4_byte_octet k : lang ipv4_byte k ↔ octet k.
Proof.
  assert (∀ k, all_digits k → 1 ≤ length k ≤ 3 → lang ipv4_byte k ↔ (digits_value 0 k <= 255)%Z) as H.
  { intros l Hl Hn. unfold lang. rewrite <-full_match_spec, <-Z.leb_le.
    assert (eqb (full_match ipv4_byte l) (digits_value 0 l <=? 255)%Z = true) as ->%eqb_prop; [|done].
    revert l Hl Hn. apply (short_digits (λ k, eqb (full_match ipv4_byte k) (digits_value 0 k <=? 255)%Z)).
    by vm_compute. }
  unfold octet. split; [|intros (Hk & Hl & Hv); by apply H]. intros Hk.
  assert (all_digits k ∧ 1 ≤ length k ≤ 3) as [? ?]; [|split; [done|]; split; [done|]; by apply H]. revert Hk.
  unfold ipv4_byte. rewrite lang_any, !Exists_cons, Exists_nil. unfold all_digits.
  assert (∀ a b c, is_digit a = true → is_digit b = true → is_digit c = true →
    Forall (λ c, is_digit c = true) [a; b; c] ∧ 1 ≤ length [a; b; c] ≤ 3) as H3.
  { intros a b c Ha Hb Hc. split; [by repeat constructor|simpl; lia]. }
  assert (∀ lo hi c, 48 ≤ lo → hi ≤ 57 → lo ≤ code c ≤ hi → is_digit c = true) as Hr.
  { intros lo hi c ? ? ?. apply is_digit_code. lia. }
  intros [Hk|[Hk|[Hk|[]]]].
  - apply lang_seq in Hk as (a & b & -> & ->%lang_word & (c & -> & Hc)%lang_range); [|done].
    eval_codes. apply (H3 "2"%char "5"%char c); [done..|]. apply (Hr 48 53); [lia..|done].
  - apply lang_all in Hk as (parts & -> & Hp); [|done]. parts_inv Hp.
    repeat match goal with
    | H : lang (RLit _) _ |- _ => apply lang_lit in H as ->
    | H : lang (RRange _ _) _ |- _ => apply lang_range in H as (a & -> & ?)
    | H : lang RDigit _ |- _ => apply lang_char in H as (b & -> & ?)
    end. eval_codes. apply (H3 "2"%char a b); [done| |done]. apply (Hr 48 52); [lia..|done].
  - apply lang_all in Hk as (parts & -> & Hp); [|done]. parts_inv Hp.
    repeat match goal with
    | H : lang (ROpt _) _ |- _ => apply lang_upto in H as [? ?]
    | H : lang RDigit _ |- _ => apply lang_char in H as (b & -> & ?)
    end. simpl. rewrite app_nil_r, length_app. simpl. split; [|lia].
    apply Forall_app. split; [|by constructor].
    eapply Forall_impl; [eassumption|]. intros c Hc%bool_decide_eq_true. simpl in Hc.
    rewrite !elem_of_cons, elem_of_nil in Hc. by destruct Hc as [->|[->|[]]].
Qed.

(** ipv4 accepts exactly four numbers from 0 to 255 of at most three
    digits, with points between them. *)
Theorem ipv4_language s :
  ipv4 s = true ↔
  ∃ a b c d, s = a ++ "."%char :: b ++ "."%char :: c ++ "."%char :: d ∧
    octet a ∧ octet b ∧ octet c ∧ octet d.
Proof.
  unfold ipv4. rewrite full_match_spec. change (matches_to ?r s []) with (lang r s). rewrite lang_all by done. split.
  - intros (parts & -> & Hp).
    apply Forall2_cons_inv_l in Hp as (a & ? & Ha%ipv4_byte_octet & Hp & ->).
    apply Forall2_cons_inv_l in Hp as (? & ? & ->%lang_lit & Hp & ->).
    apply Forall2_cons_inv_l in Hp as (b & ? & Hb%ipv4_byte_octet & Hp & ->).
    apply Forall2_cons_inv_l in Hp as (? & ? & ->%lang_lit & Hp & ->).
    apply Forall2_cons_inv_l in Hp as (c & ? & Hc%ipv4_byte_octet & Hp & ->).
    apply Forall2_cons_inv_l in Hp as (? & ? & ->%lang_lit & Hp & ->).
    apply Forall2_cons_inv_l in Hp as (d & ? & Hd%ipv4_byte_octet & Hp & ->).
    apply Forall2_nil_inv_l in Hp as ->. exists a, b, c, d. split; [|done]. simpl. by rewrite app_nil_r.
  - intros (a & b & c & d & -> & Ha & Hb & Hc & Hd).
    exists [a; ["."%char]; b; ["."%char]; c; ["."%char]; d]. split; [simpl; by rewrite app_nil_r|].
    rewrite !Forall2_cons, !ipv4_byte_octet, !lang_lit. by split_and!.
Qed.

(** ** Network masks *)

(** The mask of a prefix of [n] bits, in decimal bytes. *)
Definition mask (n : nat) : chars :=
  let m := (2 ^ 32 - 2 ^ (32 - Z.of_nat n))%Z in
  join ["."%char] ((λ k, natural_string (m / 2 ^ k mod 256)) <$> [24; 16; 8; 0]%Z).

(** netmask accepts the masks of 1 to 31 bits, not those of 0 and 32; and it
    accepts whatever text contains the mask of a network of class A, B or C,
    because the alternatives but the first are not anchored. *)
Theorem netmask_language :
  (∀ n, n ≤ 32 → netmask (mask n) = (1 <=? n) && (n <=? 31)) ∧
  ∀ p q m, m ∈ [mask 8; mask 16; mask 24] → netmask (p ++ m ++ q) = true.
Proof.
  split.
  - intros n Hn. apply eqb_prop.
    assert (forallb (λ n, eqb (netmask (mask n)) ((1 <=? n) && (n <=? 31))) (seq 0 33) = true) as H
      by by vm_compute.
    rewrite forallb_forall in H. apply H, in_seq. lia.
  - intros p q m Hm.
    assert (∀ r, plain r = true → full_match r m = true → part_match r (p ++ m ++ q) = true) as H.
    { intros r Hr Hf%full_match_spec. apply part_match_spec. exists p, (m ++ q), q. split; [done|].
      apply plain_to; [done|]. by exists m. }
    unfold netmask. rewrite !orb_true_iff. rewrite !elem_of_cons, elem_of_nil in Hm.
    destruct Hm as [->|[->|[->|[]]]].
    + left. left. right. by apply H; vm_compute.
    + left. right. by apply H; vm_compute.
    + right. by apply H; vm_compute.
Qed.

Lemma netmask_language_witness :
  netmask (chars_of "255.255.255.252") = true ∧ netmask (chars_of "255.255.255.255") = false ∧
  netmask (chars_of "12255.255.0.0.1.2") = true.
Proof.
  split; [|split].
  - exact (proj1 netmask_language 30 ltac:(lia)).
  - exact (proj1 netmask_language 32 ltac:(lia)).
  - exact (proj2 netmask_language (chars_of "12") (chars_of ".1.2") (mask 16)
      ltac:(right; left)).
Defined.

(** ** Words *)

Lemma count_words_zero l : count_words false l = 0 ↔ Forall (λ c, is_word c = false) l.
Proof.
  induction l as [|c l IH]; simpl; [by split; [constructor|]|]. rewrite Forall_cons.
  destruct (is_word c); [split; [done|by intros [? _]]|]. rewrite IH. tauto.
Qed.

Lemma word_count_None value : word_count value = None ↔ Forall (λ c, is_word c = false) (stripHtml value).
Proof. unfold word_count. rewrite <-count_words_zero. by destruct (count_words _ _). Qed.

(** On an element that is not optional maxWords, minWords and rangeWords
    throw exactly when the value, without tags, entities and punctuation, has
    no word character: [match] gives [null] there. *)
Theorem word_methods_throw E p i e s param name f :
  optional E p i e = false →
  (name, f) ∈ [("maxWords", maxWords); ("minWords", minWords); ("rangeWords", rangeWords)] →
  ∃ g, obj_get name (additional_methods E) = Some (Reads g) ∧
    (g p (VStr s) i e param = None ↔ Forall (λ c, is_word c = false) (stripHtml (chars_of s))).
Proof.
  intros Ho Hf. rewrite !elem_of_cons, elem_of_nil in Hf.
  destruct Hf as [[= -> ->]|[[= -> ->]|[[= -> ->]|[]]]]; (eexists; split; [reflexivity|]); cbv beta;
    rewrite Ho, <-word_count_None; unfold maxWords, minWords, rangeWords; by destruct (word_count _).
Qed.

Definition words_demo : environment :=
  Environment (λ _ _, []) (λ _ _ _, RBool true) (λ _ _ _ v, v) (λ _ _, []) (λ s, s) (λ _, "") [].
Definition words_field (s : string) : element :=
  Element "words" "words" "text" Input false false false s [] false None [] [] [] "" [] None.

Lemma word_methods_throw_witness :
  ∃ g, obj_get "maxWords" (additional_methods words_demo) = Some (Reads g) ∧
    g [words_field "?!"] (VStr "?!") 0 (words_field "?!") (RNum (Some 3%Q)) = None.
Proof.
  destruct (word_methods_throw words_demo [words_field "?!"] 0 (words_field "?!") "?!" (RNum (Some 3%Q))
    "maxWords" maxWords) as (g & Hg & H).
  - vm_compute. reflexivity.
  - left.
  - exists g. split; [exact Hg|]. apply H. vm_compute. constructor.
Defined.

(** ** Italian dates *)

Lemma split_on_none c l : c ∉ l → split_on c l = [l].
Proof.
  induction l as [|x l IH]; intros Hc; [done|]. rewrite not_elem_of_cons in Hc. destruct Hc as [Hx Hl].
  simpl. rewrite bool_decide_eq_false_2 by done. by rewrite IH.
Qed.

Lemma split_on_cons c l k : c ∉ l → split_on c (l ++ c :: k) = l :: split_on c k.
Proof.
  induction l as [|x l IH]; intros Hc; simpl; [by rewrite bool_decide_eq_true_2|].
  rewrite not_elem_of_cons in Hc. destruct Hc as [Hx Hl].
  rewrite bool_decide_eq_false_2 by done. by rewrite IH.
Qed.

Lemma slash_no_digit l : all_digits l → "/"%char ∉ l.
Proof. unfold all_digits. intros Hl Hin. rewrite Forall_forall in Hl. by specialize (Hl _ Hin). Qed.

Lemma digits_value_bound l : all_digits l → (0 ≤ digits_value 0 l < 10 ^ Z.of_nat (length l))%Z.
Proof.
  assert (∀ acc, all_digits l → (0 ≤ acc)%Z →
    (0 ≤ digits_value acc l < (acc + 1) * 10 ^ Z.of_nat (length l))%Z) as H; [|intros Hl; specialize (H 0%Z Hl ltac:(lia)); lia].
  induction l as [|c l IH]; intros acc Hl Hacc; [simpl; lia|]. apply Forall_cons in Hl as [Hc Hl].
  pose proof (digit_range c Hc). specialize (IH (acc * 10 + digit_value c)%Z Hl ltac:(lia)).
  simpl length. rewrite Nat2Z.inj_succ, Z.pow_succ_r by lia. simpl digits_value.
  generalize dependent (10 ^ Z.of_nat (length l))%Z. intros z Hz. nia.
Qed.

Lemma dateITA_parts s :
  full_match dateITA_format s = true ↔
  ∃ g m y, s = g ++ "/"%char :: m ++ "/"%char :: y ∧ (all_digits g ∧ 1 ≤ length g ≤ 2) ∧
    (all_digits m ∧ 1 ≤ length m ≤ 2) ∧ (all_digits y ∧ length y = 4).
Proof.
  rewrite full_match_spec. change (matches_to ?r s []) with (lang r s). unfold dateITA_format.
  rewrite lang_all by done. split.
  - intros (parts & -> & Hp).
    apply Forall2_cons_inv_l in Hp as (g & ? & [? ?]%lang_between & Hp & ->); [|lia].
    apply Forall2_cons_inv_l in Hp as (? & ? & ->%lang_lit & Hp & ->).
    apply Forall2_cons_inv_l in Hp as (m & ? & [? ?]%lang_between & Hp & ->); [|lia].
    apply Forall2_cons_inv_l in Hp as (? & ? & ->%lang_lit & Hp & ->).
    apply Forall2_cons_inv_l in Hp as (y & ? & [? ?]%lang_times & Hp & ->).
    apply Forall2_nil_inv_l in Hp as ->. exists g, m, y. split; [|done]. simpl. by rewrite app_nil_r.
  - intros (g & m & y & -> & [? ?] & [? ?] & [? ?]). exists [g; ["/"%char]; m; ["/"%char]; y].
    split; [simpl; by rewrite app_nil_r|].
    rewrite !Forall2_cons, !lang_lit. rewrite !(lang_between 1 2 is_digit), (lang_times 4 is_digit) by lia.
    split_and!; try done; lia.
Qed.

(** C27. dateITA accepts exactly the dates of the calendar, written day, month
    and year with slashes, a day and a month of one or two digits and a year of
    four, from the year 100 on: earlier years [Date.UTC] takes for years of
    the twentieth century. *)
Theorem dateITA_language s :
  dateITA s = true ↔
  ∃ g m y, s = g ++ "/"%char :: m ++ "/"%char :: y ∧ (all_digits g ∧ 1 ≤ length g ≤ 2) ∧
    (all_digits m ∧ 1 ≤ length m ≤ 2) ∧ (all_digits y ∧ length y = 4) ∧
    (100 ≤ digits_value 0 y)%Z ∧
    calendar_date (digits_value 0 y) (digits_value 0 m - 1) (digits_value 0 g).
Proof.
  unfold dateITA. destruct (full_match dateITA_format s) eqn:Ef.
  - apply dateITA_parts in Ef as (g & m & y & -> & Hg & Hm & Hy).
    rewrite !split_on_cons, split_on_none by (apply slash_no_digit; tauto). simpl fmap. cbv iota.
    rewrite !andb_true_iff, !Z.eqb_eq, Logic.and_assoc, UTC_roundtrip by (apply digits_value_bound; tauto). split.
    + intros [? ?]. by exists g, m, y.
    + intros (g' & m' & y' & E & Hg' & Hm' & Hy' & H100 & Hc).
      assert (split_on "/" (g ++ "/"%char :: m ++ "/"%char :: y) = split_on "/" (g' ++ "/"%char :: m' ++ "/"%char :: y')) as E'
        by by rewrite E.
      rewrite !split_on_cons, !split_on_none in E' by (apply slash_no_digit; tauto). by injection E' as -> -> ->.
  - split; [done|]. intros (g & m & y & Hs & Hg & Hm & Hy & _).
    enough (full_match dateITA_format s = true) by congruence. apply dateITA_parts. by exists g, m, y.
Qed.
