(* ===== verification/Unobtrusive.v ===== *)
(** * jquery.validate.unobtrusive: rules from the attributes of the server

    Models jquery.validate.unobtrusive.js: the adapters that turn the attributes
    [data-val-*] a server writes into rules and messages, the functions that
    build adapters, parsing an element and a form, the record kept for a form
    ([validationInfo]) and its attachment to the form, and the three methods the
    file adds to the validator.

    Attributes are named in lower case, as documents keep them.  The elements of
    a page are those the validator selects; [:input] are those of them that are
    not merely editable.  An editable element without a property [name] is taken to
    have the name of its attribute already when it is parsed; in the browser it gets
    it from the validator's first call that sets it.  [:hidden] are the elements settings.ignore leaves out,
    its default being that selector.  A form is taken by itself, since no
    function of the file relates two forms. *)
From stdpp Require Import base strings list.
From Stdlib Require Import Ascii ZArith QArith Lia.
From S2P Require Import Prelude JsString JsRegex ValidatePage ValidateRules Validate.

Local Open Scope js_scope.
Local Open Scope nat_scope.

(** ** Strings *)

(** [value.replace(/^\s+|\s+$/g, "").split(/\s*,\s*/g)]: what is between the
    commas has no space at its ends. *)
Definition splitAndTrim (value : string) : list string :=
  string_of ∘ trim <$> split_on ","%char (trim (chars_of value)).

Definition escaped_characters : chars :=
  chars_of "!" ++ ascii_of_nat 34 :: chars_of "#$%&'()*+,./:;<=>?@[\]^`{|}~".
Definition escape_char (c : ascii) : chars := if c ∈? escaped_characters then ["\"%char; c] else [c].
Definition escapeAttributeValue (value : chars) : chars := mjoin (escape_char <$> value).

Definition getModelPrefix (fieldName : string) : string :=
  let l := chars_of fieldName in
  string_of (match last_index_of "."%char l with Some i => take (S i) l | None => [] end).

(** The replacement of a match by a string, in which [$$], [$&], [$`] and [$']
    stand for a dollar, the match, what precedes and what follows it. *)
Fixpoint expand_replacement (matched before after rep : chars) : chars :=
  match rep with
  | "$"%char :: (c :: l) as rest =>
      if bool_decide (c = "$"%char) then "$"%char :: expand_replacement matched before after l
      else if bool_decide (c = "&"%char) then matched ++ expand_replacement matched before after l
      else if bool_decide (c = "`"%char) then before ++ expand_replacement matched before after l
      else if bool_decide (c = "'"%char) then after ++ expand_replacement matched before after l
      else "$"%char :: c :: expand_replacement matched before after l
  | c :: l => c :: expand_replacement matched before after l
  | [] => []
  end.

(** [if (value.indexOf("*.") === 0) value.replace("*.", prefix)] *)
Definition appendModelPrefix (value prefix : string) : string :=
  let star := chars_of "*." in
  let l := chars_of value in
  if is_prefix star l then
    string_of (expand_replacement star [] (drop 2 l) (chars_of prefix) ++ drop 2 l)
  else value.

(** ** Adapters *)

(** The value of a rule as an adapter sets it, [undefined] included: a remote
    rule has its URL, its type, the element whose adapter made it and the names
    of the fields whose values its functions send. *)
Inductive rule_value :=
  | UUndefined | UTrue | UText (s : string) | UPair (min max : string)
  | UElement (i : nat)
  | URemote (url : option string) (type : string) (owner : nat) (fields : list string).

(** The object [options] an adapter gets; [form] is the page. *)
Record adapt_options := AdaptOptions {
  o_element : nat;
  o_field : element;
  o_form : page;
  o_message : string;
  o_params : list (string * option string);
  o_rules : list (string * rule_value);
  o_messages : list (string * string)
}.

(** An adapter; [adapt] is [None] if it throws, which it does before it changes
    anything. *)
Record adapter := Adapter {
  adapter_name : string;
  adapter_params : list string;
  adapt : adapt_options → option adapt_options
}.

(** [options.params.name]; the property [undefined] of no parameter. *)
Definition param (o : adapt_options) (name : string) : option string := mjoin (obj_get name (o_params o)).

(** A string that is there and not empty. *)
Definition given (s : option string) : option string :=
  s ← s; if bool_decide (s = "") then None else Some s.
Definition or_else (s : option string) (d : string) : string := default d (given s).

(** A property name that may be [undefined]. *)
Definition property (s : option string) : string := default "undefined" s.

Definition setValidationValues (o : adapt_options) (ruleName : option string) (value : rule_value)
    : adapt_options :=
  let name := property ruleName in
  AdaptOptions (o_element o) (o_field o) (o_form o) (o_message o) (o_params o)
    (obj_put name value (o_rules o))
    (match given (Some (o_message o)) with
     | Some m => obj_put name m (o_messages o)
     | None => o_messages o
     end).

(** [adapters.add] with and without parameters: [this.push] *)
Definition add (adapterName : string) (params : list string) (fn : adapt_options → option adapt_options)
    (adapters : list adapter) : list adapter :=
  adapters ++ [Adapter adapterName params fn].

Definition addBool (adapterName : string) (ruleName : option string) : list adapter → list adapter :=
  add adapterName [] (λ o, Some (setValidationValues o (Some (or_else ruleName adapterName)) UTrue)).

Definition adapt_min_max (minRuleName maxRuleName minMaxRuleName : option string) (o : adapt_options)
    : option adapt_options :=
  Some match given (param o "min"), given (param o "max") with
       | Some min, Some max => setValidationValues o minMaxRuleName (UPair min max)
       | Some min, None => setValidationValues o minRuleName (UText min)
       | None, Some max => setValidationValues o maxRuleName (UText max)
       | None, None => o
       end.

Definition addMinMax (adapterName : string)
    (minRuleName maxRuleName minMaxRuleName minAttribute maxAttribute : option string)
    : list adapter → list adapter :=
  add adapterName [or_else minAttribute "min"; or_else maxAttribute "max"]
    (adapt_min_max minRuleName maxRuleName minMaxRuleName).

Definition text_value_of (s : option string) : rule_value :=
  match s with Some s => UText s | None => UUndefined end.

Definition addSingleVal (adapterName : string) (attribute ruleName : option string)
    : list adapter → list adapter :=
  add adapterName [or_else attribute "val"]
    (λ o, Some (setValidationValues o (Some (or_else ruleName adapterName))
                  (text_value_of (param o (property attribute))))).

(** ** The adapters of the file *)

Definition is_input (e : element) : bool := match enode e with OtherNode => false | _ => true end.

(** [$(form).find(":input").filter("[name='..']")] *)
Definition fields_named (p : page) (name : string) : list nat :=
  positions (λ e, is_input e && bool_decide (ename e = name)) p.

(** Without the parameter [undefined.indexOf] throws. *)
Definition adapt_equalto (o : adapt_options) : option adapt_options :=
  other ← param o "other";
  let prefix := getModelPrefix (ename (o_field o)) in
  let fullOtherName := appendModelPrefix other prefix in
  Some (setValidationValues o (Some "equalTo")
    (match fields_named (o_form o) fullOtherName with i :: _ => UElement i | [] => UUndefined end)).

Definition is_checkbox (e : element) : bool :=
  match enode e with
  | Input => bool_decide (toUpperCase (chars_of (etype e)) = chars_of "CHECKBOX")
  | _ => false
  end.

Definition adapt_required (o : adapt_options) : option adapt_options :=
  Some (if is_checkbox (o_field o) then o else setValidationValues o (Some "required") UTrue).

(** The keys of [value.data]: each name once. *)
Definition data_names (names : list string) : list string :=
  (fold_left (λ o n, obj_put n tt o) names []).*1.

Definition adapt_remote (o : adapt_options) : option adapt_options :=
  let name := ename (o_field o) in
  let prefix := getModelPrefix name in
  let fields := splitAndTrim (or_else (param o "additionalfields") name) in
  Some (setValidationValues o (Some "remote")
    (URemote (param o "url") (or_else (param o "type") "GET") (o_element o)
       (data_names ((λ f, appendModelPrefix f prefix) <$> fields)))).

Definition set_given (o : adapt_options) (name ruleName : string) : adapt_options :=
  match given (param o name) with
  | Some s => setValidationValues o (Some ruleName) (UText s)
  | None => o
  end.

Definition adapt_password (o : adapt_options) : option adapt_options :=
  Some (set_given (set_given (set_given o "min" "minlength") "nonalphamin" "nonalphamin")
          "regex" "regex").

(** The adapters the file adds, in order; [has_extension]: the validator has a
    method [extension]. *)
Definition standard_adapters (has_extension : bool) : list adapter :=
  let a1 :=
    if has_extension then
      addSingleVal "extension" (Some "extension") None (addSingleVal "accept" (Some "mimtype") None [])
    else addSingleVal "extension" (Some "extension") (Some "accept") [] in
  let a2 := addSingleVal "regex" (Some "pattern") None a1 in
  let a3 := fold_left (λ l n, addBool n None l)
              ["creditcard"; "date"; "digits"; "email"; "number"; "url"] a2 in
  let a4 := addMinMax "range" (Some "min") (Some "max") (Some "range") None None
              (addMinMax "length" (Some "minlength") (Some "maxlength") (Some "rangelength") None None a3) in
  let a5 := addMinMax "maxlength" (Some "minlength") (Some "maxlength") None None None
              (addMinMax "minlength" (Some "minlength") None None None None a4) in
  let a6 := add "equalto" ["other"] adapt_equalto a5 in
  let a7 := add "required" [] adapt_required a6 in
  let a8 := add "remote" ["url"; "type"; "additionalfields"] adapt_remote a7 in
  add "password" ["min"; "nonalphamin"; "regex"] adapt_password a8.

(** ** Parsing *)

(** [$(element).attr(name)] *)
Definition attr (e : element) (name : string) : option string := obj_get (lower name) (eattributes e).

(** The object [options] for an adapter whose attribute is there. *)
Definition options_for (p : page) (i : nat) (e : element) (a : adapter) (message : string)
    (rules : list (string * rule_value)) (messages : list (string * string)) : adapt_options :=
  let prefix := "data-val-" +:+ adapter_name a +:+ "-" in
  AdaptOptions i e p message
    (fold_left (λ o n, obj_put n (attr e (prefix +:+ n)) o) (adapter_params a) []) rules messages.

(** The body of the loop over the adapters. *)
Definition apply_adapter (p : page) (i : nat) (e : element) (a : adapter)
    (rules : list (string * rule_value)) (messages : list (string * string))
    : option (list (string * rule_value) * list (string * string)) :=
  match attr e ("data-val-" +:+ adapter_name a) with
  | None => Some (rules, messages)
  | Some message =>
      o ← adapt a (options_for p i e a message rules messages);
      Some (o_rules o, o_messages o)
  end.

(** The loop: the objects it leaves, and whether it ended without an exception. *)
Fixpoint apply_adapters (p : page) (i : nat) (e : element) (adapters : list adapter)
    (rules : list (string * rule_value)) (messages : list (string * string))
    : list (string * rule_value) * list (string * string) * bool :=
  match adapters with
  | [] => (rules, messages, true)
  | a :: adapters' =>
      match apply_adapter p i e a rules messages with
      | None => (rules, messages, false)
      | Some (rules', messages') => apply_adapters p i e adapters' rules' messages'
      end
  end.

(** [$jQval.unobtrusive.options] *)
Record defaults := Defaults { d_errorClass : option string; d_errorElement : option string }.

(** The data of a form: the options collected for it. *)
Record options := Options {
  u_errorClass : string;
  u_errorElement : string;
  u_rules : list (string * list (string * rule_value));
  u_messages : list (string * list (string * string))
}.

(** A form: the data [unobtrusiveValidation], the settings of its validator if
    it has one, and the handlers of [reset.unobtrusiveValidation]. *)
Record form_state := FormState {
  u_data : option options;
  u_validator : option settings;
  u_resets : nat
}.

Definition new_form : form_state := FormState None None 0.

(** [validationInfo(form).options] *)
Definition validationInfo (d : defaults) (st : form_state) : options :=
  match u_data st with
  | Some o => o
  | None => Options (or_else (d_errorClass d) "input-validation-error")
              (or_else (d_errorElement d) "span") [] []
  end.

(** [$.extend(true, {}, options)], which leaves out properties whose value is
    [undefined]; the functions of a remote rule's data are named by the element
    whose adapter made them. *)
Definition copied_value (v : rule_value) : option rvalue :=
  match v with
  | UUndefined => None
  | UTrue => Some (RBool true)
  | UText s => Some (RStr s)
  | UPair min max => Some (RArr [RStr min; RStr max])
  | UElement j => Some (RElem j)
  | URemote url _ owner _ => Some (ROptions (default "" url) (Some owner))
  end.

Definition copied_rules (rules : list (string * rule_value)) : rules_object :=
  omap (λ '(name, v), pair name <$> copied_value v) rules.

(** The settings of a validator made with these options. *)
Definition settings_of (o : options) : settings :=
  let S0 := default_settings in
  Settings ((λ '(name, r), (name, copied_rules r)) <$> u_rules o)
    ((λ '(name, m), (name, MEach ((λ '(k, s), (k, MText s)) <$> m))) <$> u_messages o)
    (s_groups S0) (s_normalizer S0) (u_errorClass o) (validClass S0) (pendingClass S0) (ignoreTitle S0)
    (focusInvalid_setting S0) (submitHandler S0) (autoCreateRanges S0) (classRuleSettings S0)
    (default_messages S0).

(** [$form.validate(options)]: a form that has a validator keeps it. *)
Definition validate (o : options) (st : form_state) : form_state :=
  FormState (u_data st)
    (match u_validator st with Some S0 => Some S0 | None => Some (settings_of o) end) (u_resets st).

(** [attachValidation()]: [off] removes every handler of [onReset], since their
    proxies share its guid. *)
Definition attachValidation (o : options) (st : form_state) : form_state :=
  validate o (FormState (u_data st) (u_validator st) 1).

Section parsing.
Context (adapters : list adapter) (d : defaults) (p : page).

(** [parseElement(element, skipAttach)] and whether it returned. *)
Definition parseElement (i : nat) (skipAttach : bool) (st : form_state) : form_state * bool :=
  match p !! i with
  | None => (st, true)
  | Some e =>
      let valInfo := validationInfo d st in
      let '(rules, messages, ok) := apply_adapters p i e adapters [] [] in
      let rules := if ok then extend rules [("__dummy__", UTrue)] else rules in
      let o := Options (u_errorClass valInfo) (u_errorElement valInfo)
                 (obj_put (ename e) rules (u_rules valInfo))
                 (obj_put (ename e) messages (u_messages valInfo)) in
      let st1 := FormState (Some o) (u_validator st) (u_resets st) in
      if ok && negb skipAttach then (attachValidation o st1, ok) else (st1, ok)
  end.

Fixpoint parse_all (l : list nat) (st : form_state) : form_state * bool :=
  match l with
  | [] => (st, true)
  | i :: l' => match parseElement i true st with
               | (st1, true) => parse_all l' st1
               | (st1, false) => (st1, false)
               end
  end.

(** [[data-val=true]] *)
Definition has_data_val (e : element) : bool := bool_decide (attr e "data-val" = Some "true").

(** [parse(selector)] for the elements of the form below the selection, in
    document order: the form is attached if some element of it is marked. *)
Definition parse (selected : list nat) (st : form_state) : form_state * bool :=
  let marked := List.filter (λ i, match p !! i with Some e => has_data_val e | None => false end) selected in
  match parse_all marked st with
  | (st1, false) => (st1, false)
  | (st1, true) =>
      if existsb has_data_val p then
        let o := validationInfo d st1 in
        (attachValidation o (FormState (Some o) (u_validator st1) (u_resets st1)), true)
      else (st1, true)
  end.

(** [parse(document)] *)
Definition parse_document (st : form_state) : form_state * bool := parse (seq 0 (length p)) st.
End parsing.

(** ** The functions of a remote rule's data *)

(** [a || b] of two field values *)
Definition val_truthy (v : jval) : bool :=
  match v with VUndef | VNull => false | VStr s => negb (bool_decide (s = "")) | VArr _ => true end.
Definition or_val (a b : jval) : jval := if val_truthy a then a else b.

(** [.val()] of the first of these elements *)
Definition first_val (p : page) (l : list nat) : jval :=
  match l with
  | i :: _ => match p !! i with Some e => jq_val e | None => VUndef end
  | [] => VUndef
  end.

Definition only (P : element → bool) (p : page) (l : list nat) : list nat :=
  List.filter (λ i, match p !! i with Some e => P e | None => false end) l.

Definition has_type (t : string) (e : element) : bool :=
  match enode e with Input => bool_decide (etype e = t) | _ => false end.

Definition remote_field (p : page) (paramName : string) : jval :=
  let field := fields_named p paramName in
  if negb (bool_decide (only (has_type "checkbox") p field = [])) then
    or_val (or_val (first_val p (only echecked p field)) (first_val p (only eignored p field))) (VStr "")
  else if negb (bool_decide (only (has_type "radio") p field = [])) then
    or_val (first_val p (only echecked p field)) (VStr "")
  else first_val p field.

(** What [$.param] makes of it. *)
Definition param_string (v : jval) : string :=
  match v with VUndef | VNull => "" | _ => val_string v end.

(** The names of the fields the remote rule of element [owner] sends. *)
Definition remote_fields (o : options) (owner : nat) : option (list string) :=
  head (omap (λ '(_, r), match obj_get "remote" r with
                         | Some (URemote _ _ j fields) => if Nat.eqb j owner then Some fields else None
                         | _ => None
                         end) (u_rules o)).

(** ** The methods the file adds *)

Section methods.
(** The engine of regular expressions: [new RegExp(pattern).exec(value)] gives
    the start and the length of the match; it throws ([None]) if the pattern is
    not a regular expression. *)
Context (exec : string → chars → option (option (nat * nat))).

Definition dummy_method : page_method := λ _ _ _ _ _, Some (Some true).

Definition regex_method (E : environment) : page_method := λ p v i e params,
  if optional E p i e then Some (Some true)
  else
    found ← exec (rvalue_string params) (chars_of (val_string v));
    match found with
    | None => Some (Some false)
    | Some (index, len) =>
        if Nat.eqb index 0 then
          match v with
          | VUndef | VNull => None                     (* [value.length] throws *)
          | _ => Some (Some (Nat.eqb len (val_length v)))
          end
        else Some (Some false)
    end.

Definition nonalphamin_method : page_method := λ _ v _ _ nonalphamin,
  if truthy nonalphamin then
    match v with
    | VStr s =>
        match List.filter (λ c, negb (is_word c)) (chars_of s) with
        | [] => Some (Some false)                      (* [match] is [null] *)
        | l => Some (Some (len_ge (length l) nonalphamin))
        end
    | _ => None                                        (* no [value.match] *)
    end
  else Some (Some false).

(** The environment of the validator once the file has run: its methods are
    added, and a remote rule's functions read the form. *)
Definition unobtrusive_environment (E : environment) (o : options) : environment :=
  Environment (query E) (call_fn E) (call_normalizer E)
    (λ i p, match remote_fields o i with
            | Some names => (λ n, (n, param_string (remote_field p n))) <$> names
            | None => remote_data E i p
            end)
    (date_string E) (element_string E)
    (extend (custom_methods E)
       [("__dummy__", dummy_method); ("regex", regex_method E); ("nonalphamin", nonalphamin_method)]).
End methods.
