(* ===== verification/UnobtrusiveFacts.v ===== *)
(** * jquery.validate.unobtrusive: attributes and rules

    What the strings of the file stand for (a selector's attribute value, the
    name of a sibling field), and what parsing makes of a form: the rules and the
    messages of an element are those its attributes declare, the last declaration
    of a method counting, and they have the values the methods expect. *)
From stdpp Require Import base strings list.
From Stdlib Require Import Ascii ZArith QArith Lia.
From S2P Require Import Prelude JsString JsRegex ValidatePage ValidateRules Validate ValidateFacts.
From S2P Require Import ValidateForm ValidateRulesFacts Unobtrusive.

Local Open Scope nat_scope.

(** ** Attribute values in selectors *)

Definition is_hex (c : ascii) : bool :=
  let n := code c in is_digit c || ((65 <=? n) && (n <=? 70)) || ((97 <=? n) && (n <=? 102)).
Definition is_newline (c : ascii) : bool := let n := code c in (n =? 10) || (n =? 12) || (n =? 13).

(** The string between single quotes at the start of [l], as the grammar of CSS
    reads it, and what follows the closing quote.  A newline ends the selector
    in error; an escaped hexadecimal digit, which would be a code point, does
    not occur below. *)
Fixpoint read_string (l : chars) : option (chars * chars) :=
  match l with
  | [] => None
  | c :: l' =>
      if bool_decide (c = "'"%char) then Some ([], l')
      else if is_newline c then None
      else if bool_decide (c = "\"%char) then
        match l' with
        | d :: l'' => if is_hex d || is_newline d then None
                      else '(s, rest) ← read_string l''; Some (d :: s, rest)
        | [] => None
        end
      else '(s, rest) ← read_string l'; Some (c :: s, rest)
  end.

Lemma escaped_not_hex c : c ∈ escaped_characters → is_hex c = false ∧ is_newline c = false.
Proof.
  assert (Forall (λ c, is_hex c = false ∧ is_newline c = false) escaped_characters) as H.
  { apply (bool_decide_unpack _). vm_compute. exact I. }
  intros Hc. by apply (proj1 (Forall_forall _ _) H).
Qed.

Lemma read_escaped name rest :
  Forall (λ c, is_newline c = false) name →
  read_string (escapeAttributeValue name ++ "'"%char :: rest) = Some (name, rest).
Proof.
  unfold escapeAttributeValue. induction 1 as [|c name Hc _ IH]; [done|].
  csimpl. rewrite <-app_assoc. unfold escape_char at 1. case_bool_decide as He.
  - destruct (escaped_not_hex c He) as [Hh Hn].
    cbn -[is_newline is_hex]. rewrite Hh, Hn. simpl. by rewrite IH.
  - cbn -[is_newline is_hex]. rewrite !bool_decide_eq_false_2, Hc.
    + by rewrite IH.
    + intros ->. apply He. by apply (bool_decide_unpack _).
    + intros ->. apply He. by apply (bool_decide_unpack _).
Qed.

(** A field's name, escaped into an attribute selector, is read back as that
    very name, whatever characters it contains: the selectors [[name='..']] and
    [[data-valmsg-for='..']] the file builds find the field they are meant for
    and nothing of the name escapes the quotes. *)
Theorem selector_names_field (name rest : chars) :
  Forall (λ c, is_newline c = false) name →
  read_string (escapeAttributeValue name ++ "'"%char :: rest) = Some (name, rest) ∧
  Forall (λ c, is_newline c = false) (escapeAttributeValue name).
Proof.
  intros H. split; [by apply read_escaped|]. unfold escapeAttributeValue.
  induction H as [|c name Hc _ IH]; csimpl; [done|]. apply Forall_app. split; [|done].
  unfold escape_char. case_bool_decide; repeat constructor; done.
Qed.

Lemma selector_names_field_witness :
  let name := chars_of "Items[0].Size'x\y" in
  read_string (escapeAttributeValue name ++ chars_of "'] b") = Some (name, chars_of "] b").
Proof.
  refine (proj1 (selector_names_field (chars_of "Items[0].Size'x\y") (chars_of "] b") _)).
  apply (bool_decide_unpack _). vm_compute. exact I.
Defined.

(** ** Names of sibling fields *)

Lemma last_index_of_app c l k :
  c ∉ k → last_index_of c (l ++ c :: k) = Some (length l).
Proof.
  intros Hk. assert (last_index_of c k = None) as Hn.
  { induction k as [|x k IH]; [done|]. apply not_elem_of_cons in Hk as [Hx Hk]. simpl.
    rewrite (IH Hk). by rewrite bool_decide_eq_false_2. }
  induction l as [|x l IH]; simpl.
  - rewrite Hn. by rewrite bool_decide_eq_true_2.
  - by rewrite IH.
Qed.

Lemma last_index_of_none c l : c ∉ l → last_index_of c l = None.
Proof.
  induction l as [|x l IH]; [done|]. intros [Hx Hl]%not_elem_of_cons. simpl. rewrite (IH Hl).
  by rewrite bool_decide_eq_false_2.
Qed.

Lemma expand_plain m b a rep : "$"%char ∉ rep → expand_replacement m b a rep = rep.
Proof.
  induction rep as [|c rep IH]; [done|]. intros [Hc Hr]%not_elem_of_cons. specialize (IH Hr).
  destruct c as [[] [] [] [] [] [] [] []]; cbn [expand_replacement]; by rewrite IH.
Qed.

Lemma chars_of_app s t : chars_of (s +:+ t) = chars_of s ++ chars_of t.
Proof. unfold chars_of. induction s as [|c s IH]; simpl; [done|]. by rewrite IH. Qed.

Lemma string_of_app l k : string_of (l ++ k) = string_of l +:+ string_of k.
Proof. unfold string_of. induction l as [|c l IH]; simpl; [done|]. by rewrite IH. Qed.

Lemma is_prefix_app l k : is_prefix l (l ++ k) = true.
Proof. induction l as [|c l IH]; [done|]. cbn. by rewrite bool_decide_eq_true_2. Qed.

Lemma getModelPrefix_spec model last :
  "."%char ∉ chars_of last →
  getModelPrefix (model +:+ "." +:+ last) = model +:+ "." ∧ getModelPrefix last = "".
Proof.
  intros Hl. unfold getModelPrefix. split.
  - rewrite !chars_of_app. change (chars_of ".") with ["."%char]. cbn [app].
    rewrite last_index_of_app by done.
    replace (chars_of model ++ "."%char :: chars_of last)
      with ((chars_of model ++ ["."%char]) ++ chars_of last) by (by rewrite <-app_assoc).
    rewrite take_app_length' by (rewrite length_app; simpl; lia).
    by rewrite string_of_app, string_of_chars_of.
  - by rewrite last_index_of_none.
Qed.

(** The name [*.other] of an [equalto] or [remote] attribute stands for the
    sibling of the field: the same model prefix with the last part replaced.
    Other names stand for themselves.  (A dollar in the prefix would be read as a
    pattern of [String.replace].) *)
Theorem sibling_name (model last other : string) :
  "$"%char ∉ chars_of model → "."%char ∉ chars_of last →
  appendModelPrefix ("*." +:+ other) (getModelPrefix (model +:+ "." +:+ last)) =
    model +:+ "." +:+ other ∧
  appendModelPrefix ("*." +:+ other) (getModelPrefix last) = other ∧
  (is_prefix (chars_of "*.") (chars_of other) = false →
   ∀ prefix, appendModelPrefix other prefix = other).
Proof.
  intros Hm Hl. destruct (getModelPrefix_spec model last Hl) as [-> ->].
  unfold appendModelPrefix. rewrite !chars_of_app, is_prefix_app.
  change (drop 2 (chars_of "*." ++ chars_of other)) with (chars_of other).
  split_and!.
  - rewrite expand_plain.
    + rewrite <-app_assoc, !string_of_app, !string_of_chars_of. done.
    + rewrite elem_of_app. intros [?|H]; [done|]. by apply list_elem_of_singleton in H.
  - cbn. apply string_of_chars_of.
  - intros ->. done.
Qed.

(** ** What an element's attributes declare *)

(** A declaration: the method, its value, and the message that comes with it. *)
Abbreviation declaration := (string * rule_value * string)%type.

Section declared.
Context (has_extension : bool) (p : page) (i : nat) (e : element).

(** [data-val-adapter] and [data-val-adapter-parameter] *)
Definition present (adapter : string) : option string := attr e ("data-val-" +:+ adapter).
Definition argument (adapter name : string) : option string :=
  attr e (("data-val-" +:+ adapter +:+ "-") +:+ name).

Definition text_rule (method : string) (s : option string) : list (string * rule_value) :=
  match given s with Some s => [(method, UText s)] | None => [] end.

(** A lower and an upper bound: the one there is, or both. *)
Definition bounds_rule (low high both : string) (min max : option string) : list (string * rule_value) :=
  match given min, given max with
  | Some a, Some b => [(both, UPair a b)]
  | _, _ => text_rule low min ++ text_rule high max
  end.

Definition sibling (name : string) : string := appendModelPrefix name (getModelPrefix (ename e)).

(** The rules the attributes of an adapter stand for, the message apart; [None]
    if the parameter [other] is missing. *)
Definition boolean_adapters : list string := ["creditcard"; "date"; "digits"; "email"; "number"; "url"].

Definition meaning (adapter : string) : option (list (string * rule_value)) :=
  let arg := argument adapter in
  if bool_decide (adapter ∈ boolean_adapters) then Some [(adapter, UTrue)]
  else if bool_decide (adapter = "accept") then Some [("accept", text_value_of (arg "mimtype"))]
  else if bool_decide (adapter = "extension") then
    Some [(if has_extension then "extension" else "accept", text_value_of (arg "extension"))]
  else if bool_decide (adapter = "regex") then Some [("regex", text_value_of (arg "pattern"))]
  else if bool_decide (adapter = "length") then
    Some (bounds_rule "minlength" "maxlength" "rangelength" (arg "min") (arg "max"))
  else if bool_decide (adapter = "range") then
    Some (bounds_rule "min" "max" "range" (arg "min") (arg "max"))
  else if bool_decide (adapter = "minlength") then
    Some (bounds_rule "minlength" "undefined" "undefined" (arg "min") (arg "max"))
  else if bool_decide (adapter = "maxlength") then
    Some (bounds_rule "minlength" "maxlength" "undefined" (arg "min") (arg "max"))
  else if bool_decide (adapter = "equalto") then
    other ← arg "other";
    Some [("equalTo", match fields_named p (sibling other) with
                      | j :: _ => UElement j
                      | [] => UUndefined
                      end)]
  else if bool_decide (adapter = "required") then
    Some (if is_checkbox e then [] else [("required", UTrue)])
  else if bool_decide (adapter = "remote") then
    Some [("remote", URemote (arg "url") (or_else (arg "type") "GET") i
             (data_names (sibling <$> splitAndTrim (or_else (arg "additionalfields") (ename e)))))]
  else if bool_decide (adapter = "password") then
    Some (text_rule "minlength" (arg "min") ++ text_rule "nonalphamin" (arg "nonalphamin") ++
          text_rule "regex" (arg "regex"))
  else None.

(** The adapters in the order in which they are applied. *)
Definition adapter_order : list string :=
  (if has_extension then ["accept"; "extension"] else ["extension"]) ++ ["regex"] ++
  boolean_adapters ++
  ["length"; "range"; "minlength"; "maxlength"; "equalto"; "required"; "remote"; "password"].

(** The declarations of the element, in that order, up to one that throws. *)
Fixpoint declared_by (names : list string) : list declaration * bool :=
  match names with
  | [] => ([], true)
  | a :: names' =>
      match present a with
      | None => declared_by names'
      | Some message =>
          match meaning a with
          | None => ([], false)
          | Some ws => let '(ds, ok) := declared_by names' in
                       (((λ '(m, v), (m, v, message)) <$> ws) ++ ds, ok)
          end
      end
  end.
End declared.

(** A declaration carried out. *)
Definition put_declaration (acc : list (string * rule_value) * list (string * string))
    (d : declaration) : list (string * rule_value) * list (string * string) :=
  let '(m, v, message) := d in
  (obj_put m v (fst acc),
   match given (Some message) with Some x => obj_put m x (snd acc) | None => snd acc end).

(** An adapter does what its name means. *)
Class Means (b : bool) (a : adapter) : Prop :=
  means : ∀ p i e message r ms,
    match meaning b p i e (adapter_name a) with
    | None => adapt a (options_for p i e a message r ms) = None
    | Some ws =>
        ∃ o, adapt a (options_for p i e a message r ms) = Some o ∧
          (o_rules o, o_messages o) =
            fold_left put_declaration ((λ '(m, v), (m, v, message)) <$> ws) (r, ms)
    end.

Lemma param_spec p i e a message r ms n :
  n ∈ adapter_params a →
  param (options_for p i e a message r ms) n = argument e (adapter_name a) n.
Proof.
  intros Hn. unfold param, options_for, argument. cbn [o_params].
  assert (∀ l o, (n ∈ l ∨ obj_get n o = Some (attr e (("data-val-" +:+ adapter_name a +:+ "-") +:+ n))) →
    obj_get n (fold_left (λ o n, obj_put n (attr e (("data-val-" +:+ adapter_name a +:+ "-") +:+ n)) o) l o)
    = Some (attr e (("data-val-" +:+ adapter_name a +:+ "-") +:+ n))) as H.
  { intros l. induction l as [|x l IH]; intros o Ho; simpl.
    - destruct Ho as [Ho|Ho]; [by apply elem_of_nil in Ho|done].
    - apply IH. rewrite obj_get_put. case_decide as Hx; [subst; by right|].
      destruct Ho as [Ho|Ho]; [left|by right]. by apply elem_of_cons in Ho as [?|?]. }
  by rewrite H by by left.
Qed.

(** Decide the closed tests of a goal. *)
Ltac compute_tests :=
  repeat match goal with
  | |- context [if @bool_decide ?P ?D then _ else _] =>
      let b := eval vm_compute in (@bool_decide P D) in
      change (@bool_decide P D) with b; cbv iota
  end.

Ltac use_params :=
  repeat rewrite param_spec by (apply (bool_decide_unpack _); exact I); cbn [adapter_name].

Lemma means_min_max name low high both p i e message r ms :
  let a := Adapter name ["min"; "max"] (adapt_min_max low high both) in
  ∃ o, adapt a (options_for p i e a message r ms) = Some o ∧
    (o_rules o, o_messages o) =
      fold_left put_declaration
        ((λ '(m, v), (m, v, message)) <$>
          bounds_rule (property low) (property high) (property both)
            (argument e name "min") (argument e name "max")) (r, ms).
Proof.
  cbn [adapt]. unfold adapt_min_max, bounds_rule, text_rule. use_params.
  destruct (given (argument e name "min")), (given (argument e name "max")); eexists; by split.
Qed.

Lemma param_set_given o n m k : param (set_given o n m) k = param o k.
Proof. unfold set_given. by case_match. Qed.

Lemma set_given_spec o n m :
  (o_rules (set_given o n m), o_messages (set_given o n m)) =
    fold_left put_declaration ((λ '(m, v), (m, v, o_message o)) <$> text_rule m (param o n))
      (o_rules o, o_messages o).
Proof. unfold set_given, text_rule. by case_match. Qed.

Lemma message_set_given o n m : o_message (set_given o n m) = o_message o.
Proof. unfold set_given. by case_match. Qed.

Lemma means_password p i e message r ms :
  let a := Adapter "password" ["min"; "nonalphamin"; "regex"] adapt_password in
  let arg := argument e "password" in
  ∃ o, adapt a (options_for p i e a message r ms) = Some o ∧
    (o_rules o, o_messages o) =
      fold_left put_declaration
        ((λ '(m, v), (m, v, message)) <$>
          text_rule "minlength" (arg "min") ++ text_rule "nonalphamin" (arg "nonalphamin") ++
          text_rule "regex" (arg "regex")) (r, ms).
Proof.
  intros a arg. cbn [a adapt]. eexists. split; [reflexivity|].
  rewrite !set_given_spec, !param_set_given, !message_set_given. use_params.
  by rewrite !fmap_app, !fold_left_app.
Qed.

Lemma standard_adapters_mean b : Forall (Means b) (standard_adapters b).
Proof.
  destruct b; cbn -[options_for meaning]; repeat (apply Forall_cons; split); try apply Forall_nil_2;
    intros p i e message r ms; cbn [adapter_name]; unfold meaning; compute_tests.
  all: try (eexists; split; reflexivity).
  all: try apply means_min_max; try apply means_password.
  all: cbn [adapt].
  all: try (unfold adapt_equalto; use_params;
            destruct (argument e "equalto" "other"); [eexists; by split|done]).
  all: unfold adapt_required; cbn [o_field options_for];
    destruct (is_checkbox e); eexists; by split.
Qed.

Lemma apply_adapters_spec b p i e l r ms :
  Forall (Means b) l →
  let '(ds, ok) := declared_by b p i e (adapter_name <$> l) in
  apply_adapters p i e l r ms = (fold_left put_declaration ds (r, ms), ok).
Proof.
  intros Hl. revert r ms. induction Hl as [|a l Ha _ IH]; intros r ms; [done|].
  csimpl. unfold apply_adapter, present.
  destruct (attr e ("data-val-" +:+ adapter_name a)) as [message|]; [|apply IH].
  specialize (Ha p i e message r ms). destruct (meaning b p i e (adapter_name a)) as [ws|].
  - destruct Ha as (o & -> & Ho). simpl. specialize (IH (o_rules o) (o_messages o)).
    destruct (declared_by b p i e (adapter_name <$> l)) as [ds ok]. rewrite IH, Ho.
    by rewrite fold_left_app.
  - rewrite Ha. done.
Qed.

(** The declarations of an element, and whether parsing it returns. *)
Definition declarations (b : bool) (p : page) (i : nat) (e : element) : list declaration * bool :=
  declared_by b p i e (adapter_order b).

(** The value of a method is that of its last declaration; its message is the
    last one that is not empty. *)
Definition last_value (m : string) (ds : list declaration) : option rule_value :=
  last (omap (λ '(m', v, _), if decide (m' = m) then Some v else None) ds).
Definition last_message (m : string) (ds : list declaration) : option string :=
  last (omap (λ '(m', _, s), if decide (m' = m) then given (Some s) else None) ds).

Lemma last_app_or {A} (l k : list A) x :
  default x (last (l ++ k)) = default (default x (last l)) (last k).
Proof. rewrite last_app. by destruct (last k). Qed.

#[local] Arguments given : simpl never.

Lemma put_declarations_get ds r ms m :
  obj_get m (fst (fold_left put_declaration ds (r, ms))) =
    match last_value m ds with Some v => Some v | None => obj_get m r end ∧
  obj_get m (snd (fold_left put_declaration ds (r, ms))) =
    match last_message m ds with Some s => Some s | None => obj_get m ms end.
Proof.
  unfold last_value, last_message. revert r ms.
  induction ds as [|[[m' v] s] ds IH]; intros r ms; [done|]. cbn [fold_left put_declaration fst snd].
  destruct (IH (obj_put m' v r)
    (match given (Some s) with Some x => obj_put m' x ms | None => ms end)) as [-> ->].
  csimpl. rewrite obj_get_put. destruct (decide (m' = m)) as [->|Hm].
  - rewrite decide_True by done. rewrite last_cons. split; [by destruct (last _)|].
    destruct (given (Some s)) as [x|]; [|done]. rewrite last_cons, obj_get_put, decide_True by done.
    clear IH. by destruct (last _).
  - rewrite decide_False by congruence. split; [done|].
    destruct (given (Some s)); [|done]. by rewrite obj_get_put, decide_False by congruence.
Qed.

Lemma put_declarations_distinct ds r ms :
  distinct_keys r → distinct_keys ms →
  let acc := fold_left put_declaration ds (r, ms) in distinct_keys (fst acc) ∧ distinct_keys (snd acc).
Proof.
  revert r ms. induction ds as [|[[m v] s] ds IH]; intros r ms Hr Hms; [done|].
  cbn [fold_left put_declaration fst snd]. apply IH; [by apply distinct_put|].
  case_match; [by apply distinct_put|done].
Qed.

(** ** The options of a form *)

Section parse.
Context (b : bool) (d : defaults) (p : page).
Local Abbreviation adapters := (standard_adapters b).

(** What the options say about the element [i] of the page. *)
Record describes_element (o : options) (name : string) (i : nat) : Prop := {
  de_element : ∃ e, p !! i = Some e ∧ ename e = name;
  de_rules : ∃ rules, obj_get name (u_rules o) = Some rules ∧ distinct_keys rules ∧
    ∀ e, p !! i = Some e → ∀ m, obj_get m rules =
      if decide (m = "__dummy__") then Some UTrue else last_value m (fst (declarations b p i e));
  de_messages : ∃ messages, obj_get name (u_messages o) = Some messages ∧
    ∀ e, p !! i = Some e → ∀ m, obj_get m messages = last_message m (fst (declarations b p i e))
}.

Definition unchanged_at (n : string) (o o' : options) : Prop :=
  obj_get n (u_rules o') = obj_get n (u_rules o) ∧ obj_get n (u_messages o') = obj_get n (u_messages o).

Lemma parseElement_spec i skip st st' ok e :
  p !! i = Some e → parseElement adapters d p i skip st = (st', ok) →
  let o := validationInfo d st' in
  ok = snd (declarations b p i e) ∧ is_Some (u_data st') ∧
  (ok = true → describes_element o (ename e) i) ∧
  (∀ n, n ≠ ename e → unchanged_at n (validationInfo d st) o) ∧
  (skip = true → u_validator st' = u_validator st).
Proof.
  intros He. unfold parseElement. rewrite He.
  pose proof (apply_adapters_spec b p i e adapters [] [] (standard_adapters_mean b)) as Ha.
  assert (adapter_name <$> adapters = adapter_order b) as Hn by (by destruct b).
  rewrite Hn in Ha. change (declared_by b p i e (adapter_order b)) with (declarations b p i e) in Ha.
  pose proof (put_declarations_get (fst (declarations b p i e)) [] []) as Hget.
  destruct (put_declarations_distinct (fst (declarations b p i e)) [] [] (NoDup_nil_2) (NoDup_nil_2))
    as [Hdist _].
  destruct (declarations b p i e) as [ds ok'] eqn:Hd. cbn [fst snd] in *.
  destruct (fold_left put_declaration ds ([], [])) as [rules messages] eqn:Hf. rewrite Ha.
  cbn [fst snd obj_get] in Hget, Hdist.
  set (o := Options _ _ _ _). intros H.
  assert (ok = ok' ∧ u_data st' = Some o ∧ (skip = true → u_validator st' = u_validator st))
    as (-> & Ho & Hv).
  { destruct (ok' && negb skip) eqn:Hs; injection H as <- <-; split_and!; try done.
    intros ->. by rewrite andb_false_r in Hs. }
  assert (validationInfo d st' = o) as Hi by (unfold validationInfo; by rewrite Ho).
  cbv zeta. rewrite Hi. split_and!; [done|by eexists| | |done].
  - intros ->. split; [by exists e| |].
    + eexists. cbn [o u_rules]. rewrite obj_get_put, decide_True by done. split; [done|].
      split; [by apply distinct_extend|]. intros e' He' m. rewrite He in He'. injection He' as <-.
      rewrite Hd. rewrite obj_get_extend by apply NoDup_singleton. cbn [obj_get].
      rewrite (proj1 (Hget m)). case_bool_decide; case_decide; try congruence. cbn [fst].
      by destruct (last_value m ds).
    + eexists. cbn [o u_messages]. rewrite obj_get_put, decide_True by done. split; [done|].
      intros e' He' m. rewrite He in He'. injection He' as <-. rewrite Hd, (proj2 (Hget m)).
      cbn [fst]. by destruct (last_message m ds).
  - intros n Hne. unfold unchanged_at. cbn [o u_rules u_messages].
    by rewrite !obj_get_put, !decide_False by congruence.
Qed.

(** The last of these elements that has the name. *)
Definition last_named (l : list nat) (name : string) : option nat :=
  last (List.filter (λ i, match p !! i with Some e => bool_decide (ename e = name) | None => false end) l).

Lemma parse_all_spec l st st' :
  (∀ i, i ∈ l → is_Some (p !! i)) → parse_all adapters d p l st = (st', true) →
  u_validator st' = u_validator st ∧ (l ≠ [] → is_Some (u_data st')) ∧
  (∀ i e, i ∈ l → p !! i = Some e → snd (declarations b p i e) = true) ∧
  ∀ name, match last_named l name with
          | Some i => describes_element (validationInfo d st') name i
          | None => unchanged_at name (validationInfo d st) (validationInfo d st')
          end.
Proof.
  revert st. induction l as [|i l IH]; intros st Hl; cbn [parse_all].
  { intros [= <-]. split_and!; try done. intros i e Hi. by apply elem_of_nil in Hi. }
  destruct (Hl i (list_elem_of_here i l)) as [e He].
  destruct (parseElement adapters d p i true st) as [st1 ok] eqn:Hp.
  destruct (parseElement_spec i true st st1 ok e He Hp) as (-> & Hs & Hd & Hu & Hv).
  destruct (snd (declarations b p i e)) eqn:Hok; [|done]. intros Hpa.
  destruct (IH st1) as (IHv & IHs & IHd & IHn); [|done|].
  { intros j Hj. apply Hl. by right. }
  split_and!.
  - rewrite IHv. by apply Hv.
  - intros _. destruct l as [|j l']; [by simplify_eq/=|by apply IHs].
  - intros j e' [->|Hj]%elem_of_cons He'; [by simplify_eq|by apply (IHd j)].
  - intros name. specialize (IHn name). unfold last_named in *. cbn [List.filter]. rewrite He.
    case_bool_decide as Hname.
    + rewrite last_cons. destruct (last _) as [j|]; [done|]. subst.
      destruct (Hd eq_refl) as [D1 (rules & D2 & D3) (messages & D4 & D5)].
      destruct IHn as [N1 N2]. split; [done|exists rules|exists messages]; by rewrite ?N1, ?N2.
    + destruct (last _) as [j|]; [done|]. destruct IHn as [N1 N2].
      destruct (Hu name) as [U1 U2]; [done|]. split; congruence.
Qed.

Lemma parse_all_returns l st :
  snd (parse_all adapters d p l st) =
    forallb (λ i, match p !! i with Some e => snd (declarations b p i e) | None => true end) l.
Proof.
  revert st. induction l as [|i l IH]; intros st; [done|]. cbn [parse_all forallb].
  destruct (parseElement adapters d p i true st) as [st1 ok] eqn:Hp.
  assert (ok = match p !! i with Some e => snd (declarations b p i e) | None => true end) as ->.
  { destruct (p !! i) as [e|] eqn:He; [by apply (parseElement_spec i true st st1)|].
    unfold parseElement in Hp. rewrite He in Hp. by injection Hp. }
  destruct (match p !! i with Some e => _ | None => _ end); [apply IH|done].
Qed.

(** The elements of the page with [data-val=true]. *)
Definition marked : list nat :=
  List.filter (λ i, match p !! i with Some e => has_data_val e | None => false end) (seq 0 (length p)).

Lemma marked_lookup i : i ∈ marked ↔ ∃ e, p !! i = Some e ∧ has_data_val e = true.
Proof.
  unfold marked. rewrite elem_of_List_filter, elem_of_seq. split.
  - intros [_ H]. destruct (p !! i) as [e|]; [by exists e|done].
  - intros (e & He & H). rewrite He. split; [|done]. apply lookup_lt_Some in He. lia.
Qed.

Lemma existsb_marked : existsb has_data_val p = true ↔ marked ≠ [].
Proof.
  rewrite existsb_exists. split.
  - intros (e & [i He]%list_elem_of_In%list_elem_of_lookup & H) Hm.
    assert (i ∈ marked) as Hi by (apply marked_lookup; by exists e).
    rewrite Hm in Hi. by apply elem_of_nil in Hi.
  - intros H. destruct marked as [|i l] eqn:Hm; [done|].
    assert (i ∈ marked) as (e & He & Hv)%marked_lookup by (rewrite Hm; by left).
    exists e. split; [|done]. apply list_elem_of_In. by eapply list_elem_of_lookup_2.
Qed.

(** What a validator that is made of these options knows about an element. *)
Lemma copied_rules_get rules m :
  distinct_keys rules → obj_get m (copied_rules rules) = obj_get m rules ≫= copied_value.
Proof.
  unfold distinct_keys, copied_rules. induction rules as [|[m' v] rules IH]; csimpl; [done|].
  intros [Hm Hd]%NoDup_cons. specialize (IH Hd).
  destruct (copied_value v) as [r|] eqn:Hc; csimpl; case_bool_decide as Heq; csimpl; try done.
  subst. rewrite IH, Hc. rewrite (proj2 (obj_get_None rules m)) by done. done.
Qed.

Lemma obj_get_fmap {A B} (f : A → B) (o : list (string * A)) k :
  obj_get k ((λ '(k, v), (k, f v)) <$> o) = f <$> obj_get k o.
Proof. induction o as [|[k' v] o IH]; csimpl; [done|]. by case_bool_decide. Qed.

Lemma settings_describe o name i e :
  describes_element o name i → p !! i = Some e →
  let ds := fst (declarations b p i e) in
  (∀ m, obj_get m (staticRules (settings_of o) e) =
     if decide (m = "__dummy__") then Some (RBool true) else last_value m ds ≫= copied_value) ∧
  (∀ m, customMessage (settings_of o) name m = MText <$> last_message m ds) ∧
  is_Some (obj_get name (s_rules (settings_of o))).
Proof.
  intros [(e' & He' & Hname) (rules & R1 & R2 & R3) (messages & M1 & M2)] He.
  rewrite He in He'. injection He' as <-. intros ds. split_and!.
  - intros m. unfold staticRules, settings_of. cbn [s_rules]. rewrite obj_get_fmap, Hname, R1. csimpl.
    rewrite copied_rules_get, (R3 e He m) by done. by case_decide.
  - intros m. unfold customMessage, settings_of. cbn [s_messages]. rewrite obj_get_fmap, M1. csimpl.
    rewrite obj_get_fmap. by rewrite (M2 e He m).
  - unfold settings_of. cbn [s_rules]. rewrite obj_get_fmap, R1. by eexists.
Qed.
End parse.

(** ** A whole form *)

Lemma declared_by_returns b p i e names :
  snd (declared_by b p i e names) =
    forallb (λ a, match present e a with
                  | Some _ => bool_decide (is_Some (meaning b p i e a))
                  | None => true
                  end) names.
Proof.
  induction names as [|a names IH]; [done|]. cbn [declared_by forallb].
  destruct (present e a) as [s|]; [|done]. destruct (meaning b p i e a) as [ws|].
  - rewrite bool_decide_eq_true_2 by (by eexists). rewrite <-IH. by destruct (declared_by _ _ _ _ _).
  - by rewrite bool_decide_eq_false_2 by (by intros [? [=]]).
Qed.

Lemma meaning_known b p i e a :
  a ∈ adapter_order b → a ≠ "equalto" → is_Some (meaning b p i e a).
Proof.
  assert (Forall (λ a, a = "equalto" ∨ is_Some (meaning b p i e a)) (adapter_order b)) as H.
  { destruct b; cbn [adapter_order app boolean_adapters]; repeat (apply Forall_cons; split);
      try apply Forall_nil_2; unfold meaning; compute_tests; (by left) || (right; by eexists). }
  intros Ha Hne. by destruct (proj1 (Forall_forall _ _) H a Ha).
Qed.

Lemma declarations_return b p i e :
  snd (declarations b p i e) = true ↔
    (is_Some (present e "equalto") → is_Some (argument e "equalto" "other")).
Proof.
  unfold declarations. rewrite declared_by_returns, forallb_forall.
  assert (is_Some (meaning b p i e "equalto") ↔ is_Some (argument e "equalto" "other")) as Heq.
  { unfold meaning. compute_tests. destruct (argument e "equalto" "other"); simpl; [|done].
    split; intros _; by eexists. }
  split.
  - intros H [s Hs]. apply Heq. specialize (H "equalto"). rewrite Hs in H.
    eapply bool_decide_eq_true_1, H. apply list_elem_of_In.
    apply (bool_decide_unpack _). by destruct b.
  - intros H a Ha%list_elem_of_In. destruct (present e a) as [s|] eqn:Hs; [|done].
    apply bool_decide_eq_true_2. destruct (decide (a = "equalto")) as [->|Hne].
    + apply Heq, H. by eexists.
    + by apply meaning_known.
Qed.

Lemma parse_document_describes b d p st :
  parse_document (standard_adapters b) d p new_form = (st, true) → marked p ≠ [] →
  let o := validationInfo d st in
  u_data st = Some o ∧ u_validator st = Some (settings_of o) ∧
  ∀ name i, last_named p (marked p) name = Some i → describes_element b p o name i.
Proof.
  unfold parse_document, parse. fold (marked p). intros H Hm.
  destruct (parse_all (standard_adapters b) d p (marked p) new_form) as [st1 []] eqn:Hp; [|done].
  rewrite (proj2 (existsb_marked p) Hm) in H. injection H as <-.
  destruct (parse_all_spec b d p (marked p) new_form st1) as (Hv & Hs & _ & Hn); [|done|].
  { intros i (e & He & _)%marked_lookup. by eexists. }
  assert (u_validator st1 = None) as Hv1 by done.
  cbn [attachValidation validate u_validator u_data validationInfo]. rewrite Hv1.
  split_and!; [done|done|]. intros name i Hl. specialize (Hn name). by rewrite Hl in Hn.
Qed.

(** C21. Parsing a document: it throws exactly when a marked element has
    [data-val-equalto] without the field to compare with; otherwise the form gets
    a validator whose rules and messages for a name are those that the attributes
    of the last marked element with that name declare: for each method the value
    of its last declaration, in the order of the adapters, left out when it is
    undefined, and the last message that is not empty. *)
Theorem attributes_become_rules (b : bool) (d : defaults) (p : page) st ok :
  parse_document (standard_adapters b) d p new_form = (st, ok) → marked p ≠ [] →
  (ok = true ↔ ∀ i e, i ∈ marked p → p !! i = Some e →
     is_Some (present e "equalto") → is_Some (argument e "equalto" "other")) ∧
  (ok = true → ∃ S, u_validator st = Some S ∧
     ∀ name i e, last_named p (marked p) name = Some i → p !! i = Some e →
       let ds := fst (declarations b p i e) in
       (∀ m, obj_get m (staticRules S e) =
          if decide (m = "__dummy__") then Some (RBool true) else last_value m ds ≫= copied_value) ∧
       ∀ m, customMessage S name m = MText <$> last_message m ds).
Proof.
  unfold parse_document, parse. fold (marked p). intros H Hm.
  pose proof (parse_all_returns b d p (marked p) new_form) as Hr.
  destruct (parse_all (standard_adapters b) d p (marked p) new_form) as [st1 ok1] eqn:Hp.
  cbn [snd] in Hr. rewrite (proj2 (existsb_marked p) Hm) in H.
  assert (ok = ok1) as -> by (destruct ok1; by injection H). split.
  - rewrite Hr, forallb_forall. split.
    + intros Hall i e Hi He. apply declarations_return with b p i.
      specialize (Hall i (proj1 (list_elem_of_In _ _) Hi)). by rewrite He in Hall.
    + intros Hall i Hi%list_elem_of_In. destruct (p !! i) as [e|] eqn:He; [|done].
      apply declarations_return. by apply (Hall i).
  - intros ->. destruct (parse_document_describes b d p st) as (_ & Hv & Hn); [|done|].
    { unfold parse_document, parse. fold (marked p).
      by rewrite Hp, (proj2 (existsb_marked p) Hm). }
    eexists. split; [exact Hv|]. intros name i e Hl He.
    destruct (settings_describe b p _ name i e (Hn name i Hl) He) as (H1 & H2 & _). by split.
Qed.

(** ** The example of a registration form *)

Definition val_field (name type : string) (attributes : list (string * string)) : element :=
  Element name "" type Input false false false "" [] false None [] (("data-val", "true") :: attributes)
    [] "" [] None.

Definition email_field : element :=
  val_field "Input.Email" "text"
    [("data-val-email", "Not an address."); ("data-val-required", "Missing.")].
Definition password_field : element :=
  val_field "Input.Password" "password"
    [("data-val-length", "6 to 100."); ("data-val-length-max", "100"); ("data-val-length-min", "6");
     ("data-val-required", "Missing.")].
Definition confirm_field : element :=
  val_field "Input.Confirm" "password"
    [("data-val-equalto", "Different."); ("data-val-equalto-other", "*.Password")].
Definition register_page : page := [email_field; password_field; confirm_field].

Definition no_defaults : defaults := Defaults None None.

Definition registered : form_state :=
  fst (parse_document (standard_adapters false) no_defaults register_page new_form).

Lemma attributes_become_rules_witness :
  ∃ S, u_validator registered = Some S ∧
    obj_get "rangelength" (staticRules S (val_field "Input.Password" "" [])) =
      Some (RArr [RStr "6"; RStr "100"]) ∧
    customMessage S "Input.Confirm" "equalTo" = Some (MText "Different.").
Proof.
  destruct (attributes_become_rules false no_defaults register_page registered true
    ltac:(vm_compute; reflexivity) ltac:(vm_compute; discriminate)) as [_ H].
  destruct (H eq_refl) as (S & HS & Hd). exists S. split; [exact HS|]. split.
  - exact (proj1 (Hd "Input.Password" 1 password_field eq_refl eq_refl) "rangelength").
  - exact (proj2 (Hd "Input.Confirm" 2 confirm_field eq_refl eq_refl) "equalTo").
Defined.

(** ** The types of parsed rules *)

(** The parameters the methods of the validator expect: a flag, a text, two
    texts, a field of the form, or the request of an element.  The adapters
    [minlength] and [maxlength] leave out some names of rules, so that a rule
    can come to be called "undefined". *)
Definition flag_methods : list string := "required" :: "__dummy__" :: boolean_adapters.
Definition text_methods : list string := ["minlength"; "maxlength"; "min"; "max"; "nonalphamin"; "undefined"].
Definition pattern_methods : list string := ["regex"; "accept"; "extension"].
Definition pair_methods : list string := ["rangelength"; "range"; "undefined"].

Definition expects (p : page) (m : string) (r : rvalue) : Prop :=
  match r with
  | RBool true => m ∈ flag_methods
  | RStr s => (m ∈ text_methods ∧ s ≠ "") ∨ m ∈ pattern_methods
  | RArr [RStr a; RStr b] => m ∈ pair_methods ∧ a ≠ "" ∧ b ≠ ""
  | RElem j => m = "equalTo" ∧ ∃ e, p !! j = Some e ∧ is_input e = true
  | ROptions _ (Some i) => m = "remote" ∧ is_Some (p !! i)
  | _ => False
  end.

Definition typed_value (p : page) (m : string) (v : rule_value) : Prop :=
  ∀ r, copied_value v = Some r → expects p m r.

Lemma given_spec s x : given s = Some x ↔ s = Some x ∧ x ≠ "".
Proof.
  unfold given. destruct s as [s|]; simpl; [|by split; [|intros [[=] _]]].
  case_bool_decide; [split; [done|by intros [[= <-] ?]]|]. split; [by intros [= <-]|by intros [[= <-] _]].
Qed.

Lemma fields_named_inputs p name j js :
  fields_named p name = j :: js → ∃ e, p !! j = Some e ∧ is_input e = true.
Proof.
  intros H. assert (j ∈ fields_named p name) as Hj by (rewrite H; by left). clear H.
  unfold fields_named, positions in Hj. revert Hj.
  assert (∀ q k, j ∈ positions_from (λ e, is_input e && bool_decide (ename e = name)) k q →
    ∃ e, q !! (j - k) = Some e ∧ k ≤ j ∧ is_input e = true) as Hq.
  { induction q as [|e q IH]; intros k; cbn [positions_from]; [by intros ?%elem_of_nil|].
    destruct (is_input e && _) eqn:He.
    - intros [->|Hj]%elem_of_cons.
      + exists e. rewrite Nat.sub_diag. apply andb_prop in He as [He _]. by split_and!.
      + destruct (IH (S k) Hj) as (e' & H1 & H2 & H3). exists e'.
        replace (j - k) with (S (j - S k)) by lia. split_and!; [done|lia|done].
    - intros Hj. destruct (IH (S k) Hj) as (e' & H1 & H2 & H3). exists e'.
      replace (j - k) with (S (j - S k)) by lia. split_and!; [done|lia|done]. }
  intros Hj. destruct (Hq p 0 Hj) as (e & H1 & _ & H3). exists e. by rewrite Nat.sub_0_r in H1.
Qed.

Ltac known_name := apply (bool_decide_unpack _); vm_compute; exact I.

Lemma text_rule_typed p m s :
  m ∈ text_methods ∨ m ∈ pattern_methods → Forall (λ '(m, v), typed_value p m v) (text_rule m s).
Proof.
  intros Hm. unfold text_rule. destruct (given s) as [x|] eqn:Hx; repeat constructor.
  apply given_spec in Hx as [_ Hx]. intros r [= <-]. destruct Hm; [by left|by right].
Qed.

Lemma bounds_rule_typed p low high both min max :
  low ∈ text_methods → high ∈ text_methods → both ∈ pair_methods →
  Forall (λ '(m, v), typed_value p m v) (bounds_rule low high both min max).
Proof.
  intros Hl Hh Hb. unfold bounds_rule.
  destruct (given min) as [x|] eqn:Hx, (given max) as [y|] eqn:Hy;
    try (apply Forall_app; split; apply text_rule_typed; by left).
  apply given_spec in Hx as [_ Hx], Hy as [_ Hy]. repeat constructor. by intros r [= <-].
Qed.

Lemma pattern_typed p m s : m ∈ pattern_methods → typed_value p m (text_value_of s).
Proof. intros Hm r. destruct s; simpl; [intros [= <-]; by right|done]. Qed.

Lemma meaning_typed b p i e a ws :
  p !! i = Some e → meaning b p i e a = Some ws → Forall (λ '(m, v), typed_value p m v) ws.
Proof.
  intros He. unfold meaning. case_bool_decide as Hb.
  { intros [= <-]. repeat constructor. intros r [= <-]. unfold flag_methods. by do 2 right. }
  repeat (case_bool_decide;
    [first [intros [= <-]; first
       [ apply bounds_rule_typed; known_name
       | repeat constructor; apply pattern_typed; try destruct b; known_name
       | repeat (apply Forall_app; split); apply text_rule_typed; first [left; known_name|right; known_name]]
     |idtac]|]); try done.
  - intros (other & _ & [= <-])%bind_Some. repeat constructor. intros r.
    destruct (fields_named p (sibling e other)) as [|j js] eqn:Hj; [done|]. intros [= <-].
    split; [done|]. by eapply fields_named_inputs.
  - intros [= <-]. case_match; repeat constructor. intros r [= <-]. unfold expects. known_name.
  - intros [= <-]. repeat constructor. intros r [= <-]. split; [done|]. by eexists.
Qed.

(** Every rule of the options, and of the validator's settings, is typed. *)
Definition options_typed (p : page) (o : options) : Prop :=
  ∀ name rules, obj_get name (u_rules o) = Some rules →
    distinct_keys rules ∧ ∀ m v, obj_get m rules = Some v → typed_value p m v.
Definition settings_typed (p : page) (S : settings) : Prop :=
  ∀ name rules, obj_get name (s_rules S) = Some rules →
    ∀ m r, obj_get m rules = Some r → expects p m r.
Record form_typed (p : page) (st : form_state) : Prop := {
  ft_data : ∀ o, u_data st = Some o → options_typed p o;
  ft_validator : ∀ S, u_validator st = Some S → settings_typed p S
}.

Lemma settings_of_typed p o : options_typed p o → settings_typed p (settings_of o).
Proof.
  intros H name rules. unfold settings_of. cbn [s_rules]. rewrite obj_get_fmap.
  intros (rules' & Hr & ->)%fmap_Some m r. destruct (H name rules' Hr) as [Hd Ht].
  rewrite copied_rules_get by done. intros (v & Hv & Hc)%bind_Some. by apply (Ht m v).
Qed.

Lemma form_typed_attach p d st :
  form_typed p st →
  let o := validationInfo d st in
  form_typed p (attachValidation o (FormState (Some o) (u_validator st) (u_resets st))).
Proof.
  intros [H1 H2] o. assert (options_typed p o) as Ho.
  { unfold o, validationInfo. destruct (u_data st) eqn:Hd; [by apply H1|]. by intros name rules [=]. }
  split; cbn; [by intros ? [= <-]|]. destruct (u_validator st) as [S|].
  - intros ? [= <-]. by apply H2.
  - intros ? [= <-]. by apply settings_of_typed.
Qed.

Lemma declarations_typed b p i e names :
  p !! i = Some e → Forall (λ '(m, v, _), typed_value p m v) (fst (declared_by b p i e names)).
Proof.
  intros He. induction names as [|a names IH]; [constructor|]. cbn [declared_by].
  destruct (present e a) as [s|]; [|done].
  destruct (meaning b p i e a) as [ws|] eqn:Hm; [|constructor].
  destruct (declared_by b p i e names) as [ds ok]. simpl in *. apply Forall_app. split; [|done].
  apply Forall_fmap. eapply Forall_impl; [by apply (meaning_typed b p i e a)|]. by intros [m v].
Qed.

Lemma put_typed p m v (r : list (string * rule_value)) :
  typed_value p m v → (∀ m v, obj_get m r = Some v → typed_value p m v) →
  ∀ m' v', obj_get m' (obj_put m v r) = Some v' → typed_value p m' v'.
Proof. intros Hv Hr m' v'. rewrite obj_get_put. case_decide; [subst; by intros [= <-]|apply Hr]. Qed.

Lemma put_declarations_typed p ds r ms :
  Forall (λ '(m, v, _), typed_value p m v) ds →
  (∀ m v, obj_get m r = Some v → typed_value p m v) →
  ∀ m v, obj_get m (fst (fold_left put_declaration ds (r, ms))) = Some v → typed_value p m v.
Proof.
  intros H. revert r ms. induction H as [|[[m v] s] ds Hv _ IH]; intros r ms Hr; [done|].
  cbn [fold_left put_declaration fst snd]. apply IH. by apply put_typed.
Qed.

Lemma parseElement_typed b d p i skip st :
  form_typed p st → form_typed p (fst (parseElement (standard_adapters b) d p i skip st)).
Proof.
  intros [H1 H2]. unfold parseElement. destruct (p !! i) as [e|] eqn:He; [|done].
  pose proof (apply_adapters_spec b p i e _ [] [] (standard_adapters_mean b)) as Ha.
  pose proof (declarations_typed b p i e (adapter_name <$> standard_adapters b) He) as Ht.
  destruct (declared_by b p i e _) as [ds ok]. cbn [fst] in Ht.
  pose proof (put_declarations_typed p ds [] [] Ht (λ m v (H : obj_get m [] = Some v), ltac:(done))) as Hr.
  destruct (put_declarations_distinct ds [] [] (NoDup_nil_2) (NoDup_nil_2)) as [Hd _].
  rewrite Ha. clear Ha. destruct (fold_left put_declaration ds ([], [])) as [rules messages].
  cbn [fst] in Hr, Hd. set (o := Options _ _ _ _).
  assert (form_typed p (FormState (Some o) (u_validator st) (u_resets st))) as Ho.
  { split; [|exact H2]. intros ? [= <-] name r. cbn [o u_rules]. rewrite obj_get_put. case_decide.
    - intros [= <-]. destruct ok; [|done]. split; [by apply distinct_put|].
      apply put_typed; [|done]. intros ? [= <-]. unfold expects. known_name.
    - unfold validationInfo. destruct (u_data st) as [o'|]; [by apply H1|done]. }
  destruct (ok && negb skip); [|done].
  exact (form_typed_attach p d (FormState (Some o) (u_validator st) (u_resets st)) Ho).
Qed.

Lemma parse_typed b d p selected st :
  form_typed p st → form_typed p (fst (parse (standard_adapters b) d p selected st)).
Proof.
  intros H. unfold parse. set (l := List.filter _ selected).
  assert (∀ st, form_typed p st → form_typed p (fst (parse_all (standard_adapters b) d p l st))) as Hl.
  { induction l as [|i l IH]; intros st1 H1; [done|]. cbn [parse_all].
    pose proof (parseElement_typed b d p i true st1 H1) as Hp.
    destruct (parseElement _ _ _ _ _ _) as [st2 []]; [by apply IH|done]. }
  specialize (Hl st H). destruct (parse_all _ _ _ _ _) as [st1 []]; [|done]. cbn [fst] in *.
  destruct (existsb has_data_val p); [|done]. cbn [fst]. by apply form_typed_attach.
Qed.

(** A page's calls of the parser on a form. *)
Inductive call := ParseElement (i : nat) (skipAttach : bool) | Parse (selected : list nat).

Definition run_call (b : bool) (d : defaults) (p : page) (st : form_state) (c : call) : form_state :=
  match c with
  | ParseElement i skip => fst (parseElement (standard_adapters b) d p i skip st)
  | Parse selected => fst (parse (standard_adapters b) d p selected st)
  end.

(** C22. However a page calls the parser, every rule it collects, and every rule of the
    validator it makes, has a parameter of the shape its adapter gives, if it has one:
    true for the rules that are flags, a nonempty text for the lengths, a lone minimum or
    maximum and nonalphamin, a text that may be empty for patterns and extensions, two
    nonempty texts for ranges, an input of the form for [equalTo], and for a remote
    request an element of the form behind it. *)
Theorem parsed_rules_typed (b : bool) (d : defaults) (p : page) (calls : list call) :
  form_typed p (fold_left (run_call b d p) calls new_form).
Proof.
  assert (form_typed p new_form) as H by by split.
  revert H. generalize new_form. induction calls as [|[i skip|l] calls IH]; intros st H; [done| |];
    cbn [fold_left run_call]; apply IH; [by apply parseElement_typed|by apply parse_typed].
Qed.

(** A form keeps the rules it was attached with: whatever is parsed later,
    and however the page has changed, its validator is the same, since [validate]
    returns the validator there is. *)
Theorem attached_rules_final (b : bool) (d : defaults) (calls : list (page * call)) st S :
  u_validator st = Some S →
  u_validator (fold_left (λ st '(p, c), run_call b d p st c) calls st) = Some S.
Proof.
  assert (∀ p i skip st, u_validator st = Some S →
    u_validator (fst (parseElement (standard_adapters b) d p i skip st)) = Some S) as He.
  { intros p i skip st'. unfold parseElement. destruct (p !! i) as [e|]; [|done].
    destruct (apply_adapters _ _ _ _ _ _) as [[rules messages] ok].
    intros H. destruct (ok && negb skip); [|done]. cbn. by rewrite H. }
  assert (∀ p l st, u_validator st = Some S →
    u_validator (fst (parse_all (standard_adapters b) d p l st)) = Some S) as Hl.
  { intros p. induction l as [|i l IH]; intros st' H; [done|]. cbn [parse_all].
    specialize (He p i true st' H). destruct (parseElement _ _ _ _ _ _) as [st2 []]; [by apply IH|done]. }
  revert st. induction calls as [|[p c] calls IH]; intros st H; [done|]. cbn [fold_left]. apply IH.
  destruct c as [i skip|l]; cbn [run_call]; [by apply He|]. unfold parse.
  specialize (Hl p (List.filter (λ i, match p !! i with Some e => has_data_val e | None => false end) l) st H).
  destruct (parse_all _ _ _ _ _) as [st1 []]; [|done]. cbn [fst] in *.
  destruct (existsb has_data_val p); [|done]. cbn. by rewrite Hl.
Qed.

Lemma attached_rules_final_witness :
  let calls := [(register_page, ParseElement 1 false); (val_field "New" "text" [] :: register_page, Parse [0])] in
  u_validator (fold_left (λ st '(p, c), run_call false no_defaults p st c) calls registered)
  = u_validator registered.
Proof.
  intros calls. destruct (u_validator registered) as [S|] eqn:HS; [|vm_compute in HS; discriminate HS].
  exact (attached_rules_final false no_defaults calls _ S HS).
Defined.
