(* ===== verification/UnobtrusiveForm.v ===== *)
(** * jquery.validate.unobtrusive: what the server declares holds

    The rules parsing collects go through the validator's own processing, its
    normalization and its checks.  The theorem here follows an attribute from the
    page of the server to the value of the field: a field that passes its rules,
    as the fields of a form submitted as validated do, meets the constraints its
    attributes declare.  Excepted are a minimum or a maximum alone, which the
    adapters hand over as texts and the validator compares as texts
    ([lone_minimum_as_text]). *)
From stdpp Require Import base strings list.
From Stdlib Require Import Ascii ZArith QArith Lia.
From S2P Require Import Prelude JsString JsRegex ValidatePage ValidateRules Validate ValidateFacts.
From S2P Require Import ValidateForm ValidateRulesFacts Unobtrusive UnobtrusiveFacts.

Local Open Scope nat_scope.

(** ** A rule through normalization *)

(** A value no dependency check and no page function touches. *)
Definition plain (v : rvalue) : Prop :=
  match v with RBool false | RObj _ _ | RFn _ => False | _ => True end.

(** What [normalizeRules] makes of a plain value. *)
Definition cleaned_range (v : rvalue) : rvalue :=
  match v with
  | RArr l => RArr [number_at l 0; number_at l 1]
  | _ => v
  end.
Definition cleaned (m : string) (v : rvalue) : rvalue :=
  if decide (m = "minlength" ∨ m = "maxlength") then (if truthy v then RNum (to_number v) else v)
  else if decide (m = "rangelength" ∨ m = "range") then cleaned_range v
  else v.

Section normalize.
Context (E : environment) (S : settings).

Lemma obj_get_delete_eq {A} (o : list (string * A)) k : obj_get k (obj_delete k o) = None.
Proof. apply obj_get_None, delete_not_in. Qed.

Lemma check_dependency_get i acc kv k :
  (fst kv = k → plain (snd kv)) →
  obj_get k (snd (check_dependency E S i acc kv)) = obj_get k (snd acc).
Proof.
  destruct acc as [p o], kv as [prop val]. cbn [fst snd]. intros Hp. unfold check_dependency.
  destruct (decide (prop = k)) as [->|Hne].
  - specialize (Hp eq_refl). by destruct val as [[]| | | | | | |].
  - destruct val as [[]| | | |param depends| | |]; try done; cbn [snd].
    + by rewrite obj_get_delete_ne by congruence.
    + repeat case_match; cbn [snd]; try done.
      * by rewrite obj_get_put, decide_False by congruence.
      * by rewrite obj_get_delete_ne by congruence.
Qed.

Lemma check_dependencies_get i l acc k :
  (∀ v, (k, v) ∈ l → plain v) →
  obj_get k (snd (fold_left (check_dependency E S i) l acc)) = obj_get k (snd acc).
Proof.
  revert acc. induction l as [|[k' v] l IH]; intros acc Hl; [done|]. cbn [fold_left].
  rewrite IH by (intros w Hw; apply Hl; by right). apply check_dependency_get. cbn [fst snd].
  intros ->. apply Hl. by left.
Qed.

Lemma obj_get_elem {A} (o : list (string * A)) k v :
  distinct_keys o → (k, v) ∈ o ↔ obj_get k o = Some v.
Proof.
  unfold distinct_keys. induction o as [|[k' w] o IH]; csimpl.
  { intros _. split; [by intros ?%elem_of_nil|done]. }
  intros [Hk Hd]%NoDup_cons. rewrite elem_of_cons, IH by done. case_bool_decide as Heq.
  - subst. split; [|intros [= ->]; by left]. intros [[= ->]|Hg]; [done|].
    rewrite (proj2 (obj_get_None o k)) in Hg; done.
  - split; [intros [[= -> ->]|?]; done|by right].
Qed.

Lemma clean_length_get r prop k :
  obj_get k (clean_length r prop) =
    if decide (k = prop) then (λ v, if truthy v then RNum (to_number v) else v) <$> obj_get k r
    else obj_get k r.
Proof.
  unfold clean_length. destruct (decide (k = prop)) as [->|Hne].
  - destruct (obj_get prop r) as [v|] eqn:Hv; [|by rewrite Hv]. simpl.
    destruct (truthy v); [|done]. by rewrite obj_get_put, decide_True.
  - repeat case_match; try done. by rewrite obj_get_put, decide_False.
Qed.

Lemma clean_range_get r prop k :
  (∀ s, obj_get k r = Some (RStr s) → k ≠ prop) →
  obj_get k (clean_range r prop) =
    if decide (k = prop) then cleaned_range <$> obj_get k r else obj_get k r.
Proof.
  unfold clean_range. intros Hs. destruct (decide (k = prop)) as [->|Hne].
  - destruct (obj_get prop r) as [v|] eqn:Hv; [|by rewrite Hv].
    destruct v; simpl; try done; [by destruct (Hs _ eq_refl)|]. by rewrite obj_get_put, decide_True.
  - repeat case_match; try done; by rewrite obj_get_put, decide_False.
Qed.

Lemma evaluate_get p i r k :
  (∀ v, obj_get k r = Some v → plain v) →
  obj_get k (evaluate_parameter E p i <$> r) = obj_get k r.
Proof.
  induction r as [|[k' v] r IH]; intros Hp; [done|]. rewrite fmap_cons.
  assert (∃ w, evaluate_parameter E p i (k', v) = (k', w) ∧ (plain v → w = v)) as (w & -> & Hw).
  { unfold evaluate_parameter. destruct v; cbn [fst snd]; try by eexists.
    case_bool_decide; by eexists. }
  cbn [obj_get] in Hp |- *. case_bool_decide; [|by apply IH]. f_equal. by apply Hw, Hp.
Qed.

(** Values normalization treats alone: plain, and no text for a range. *)
Definition simple (k : string) (v : option rvalue) : Prop :=
  ∀ w, v = Some w → plain w ∧ ∀ s, w = RStr s → k ≠ "rangelength" ∧ k ≠ "range".

Lemma clean_lengths_get r k :
  obj_get k (fold_left clean_length ["minlength"; "maxlength"] r) =
    (λ v, if decide (k = "minlength" ∨ k = "maxlength")
          then (if truthy v then RNum (to_number v) else v) else v) <$> obj_get k r.
Proof.
  cbn [fold_left]. rewrite !clean_length_get.
  destruct (decide (k = "maxlength")) as [->|H1]; [by destruct (obj_get _ r)|].
  destruct (decide (k = "minlength")) as [->|H2]; [by destruct (obj_get _ r)|].
  destruct (obj_get k r); [|done]. simpl. by rewrite decide_False by (by intros [?|?]).
Qed.

Lemma clean_ranges_get r k :
  (∀ s, obj_get k r = Some (RStr s) → k ≠ "rangelength" ∧ k ≠ "range") →
  obj_get k (fold_left clean_range ["rangelength"; "range"] r) =
    (λ v, if decide (k = "rangelength" ∨ k = "range") then cleaned_range v else v) <$> obj_get k r.
Proof.
  intros Hs. cbn [fold_left].
  assert (obj_get k (clean_range r "rangelength") =
    if decide (k = "rangelength") then cleaned_range <$> obj_get k r else obj_get k r) as H1.
  { apply clean_range_get. intros s Hk. by apply (Hs s). }
  rewrite clean_range_get, H1.
  - destruct (decide (k = "range")) as [->|H2]; [by destruct (obj_get _ r)|].
    destruct (decide (k = "rangelength")) as [->|H3]; [by destruct (obj_get _ r)|].
    destruct (obj_get k r); [|done]. simpl. by rewrite decide_False by (by intros [?|?]).
  - intros s. rewrite H1. destruct (decide (k = "rangelength")) as [->|H3]; [by intros _ [=]|].
    intros Hk. by apply (Hs s).
Qed.

Lemma normalizeRules_get o p i k :
  autoCreateRanges S = false → distinct_keys o → simple k (obj_get k o) →
  obj_get k (snd (normalizeRules E S o p i)) = cleaned k <$> obj_get k o.
Proof.
  intros Ha Hd Hs. unfold normalizeRules.
  pose proof (check_dependencies_get i o (p, o) k) as Hc.
  destruct (fold_left _ _ _) as [p1 o1]. cbn [snd] in *. rewrite Ha.
  specialize (Hc (λ v Hv, proj1 (Hs v (proj1 (obj_get_elem o k v Hd) Hv)))).
  assert (obj_get k (evaluate_parameter E p1 i <$> o1) = obj_get k o) as He.
  { rewrite evaluate_get, Hc; [done|]. intros v Hv. rewrite Hc in Hv. by apply Hs. }
  rewrite clean_ranges_get; rewrite clean_lengths_get, He.
  - rewrite <-option_fmap_compose. destruct (obj_get k o) as [v|]; [|done]. simpl. f_equal.
    unfold cleaned. destruct (decide (k = "rangelength" ∨ k = "range")) as [Hr|Hr]; [|by case_decide].
    by destruct Hr as [-> | ->].
  - intros s (v & Hv & Hl)%fmap_Some. destruct (Hs v Hv) as [_ Hstr].
    destruct (decide (k = "minlength" ∨ k = "maxlength")) as [[-> | ->]|_]; [by split|by split|].
    by apply (Hstr s).
Qed.

Hypothesis no_ranges : autoCreateRanges S = false.

Lemma to_front_get prop o k : distinct_keys o → obj_get k (to_front prop o) = obj_get k o.
Proof.
  intros Hd. unfold to_front. destruct (obj_get prop o) as [v|] eqn:Hv; [|done].
  destruct (truthy v); [|done]. rewrite obj_get_extend by by apply distinct_delete.
  destruct (decide (k = prop)) as [->|Hne].
  - rewrite obj_get_delete_eq. cbn [obj_get]. by rewrite bool_decide_eq_true_2.
  - rewrite obj_get_delete_ne by done. destruct (obj_get k o); [done|]. cbn [obj_get].
    by rewrite bool_decide_eq_false_2.
Qed.

Lemma to_back_get prop o k : distinct_keys o → obj_get k (to_back prop o) = obj_get k o.
Proof.
  intros Hd. unfold to_back. destruct (obj_get prop o) as [v|] eqn:Hv; [|done].
  destruct (truthy v); [|done]. rewrite obj_get_extend by apply NoDup_singleton. cbn [obj_get].
  case_bool_decide; [by subst|]. by rewrite obj_get_delete_ne by congruence.
Qed.

(** A rule of the settings, as the validator applies it. *)
Lemma rules_get p i e k :
  p !! i = Some e → distinct_keys (staticRules S e) → simple k (obj_get k (collected E S e)) →
  obj_get k (snd (rules E S p i)) = cleaned k <$> obj_get k (collected E S e) ∧
  distinct_keys (snd (rules E S p i)).
Proof.
  intros He Hs Hk. unfold rules. rewrite He.
  pose proof (distinct_normalizeRules E S (collected E S e) p i (distinct_collected E S e)) as Hd.
  pose proof (normalizeRules_get (collected E S e) p i k no_ranges (distinct_collected E S e) Hk) as Hg.
  destruct (normalizeRules E S (collected E S e) p i) as [p1 data]. cbn [snd] in *.
  rewrite to_back_get, to_front_get, Hg by auto using distinct_to_front. split; [done|].
  by apply distinct_to_back, distinct_to_front.
Qed.
End normalize.

(** ** Text fields *)

Definition text_field (e : element) : Prop := enode e ≠ Select ∧ checkable e = false.

Lemma text_field_type e : text_field e → etype e ≠ "radio" ∧ etype e ≠ "checkbox".
Proof. intros [_ H]. split; intros Ht; unfold checkable in H; rewrite Ht in H; discriminate H. Qed.

Lemma core_val S e e' : core S e' = core S e → jq_val e' = jq_val e.
Proof.
  destruct e, e'. unfold core, set_aria, set_classes. cbn. intros H. injection H as H; subst. done.
Qed.

Lemma text_field_core S p q e e' :
  text_field e → core S e' = core S e →
  text_field e' ∧ elementValue q e' = elementValue p e ∧ ename e' = ename e.
Proof.
  intros Ht H. destruct (text_field_type e Ht) as [Hr Hc]. destruct Ht as [Hs Hk].
  destruct e, e'. unfold core, set_aria, set_classes in H. cbn in H. injection H as H; subst.
  cbn in Hr, Hc, Hs, Hk. split_and!; [by split| |done].
  unfold elementValue. cbn. rewrite !bool_decide_eq_false_2 by done. reflexivity.
Qed.

Section text.
Context (E : environment) (p : page) (t : nat) (e : element) (s : string).
Hypothesis text : text_field e.
Hypothesis value : elementValue p e = VStr s.

Lemma text_length : getLength p (VStr s) e = length (chars_of s).
Proof.
  destruct text as [_ Hc]. unfold getLength. destruct (enode e) eqn:Hn; try done.
  - by rewrite Hc.
  - by destruct text.
Qed.

Lemma text_required param :
  required E p (VStr s) t e param =
    if depend E p param t then of_bool (negb (bool_decide (s = ""))) else MMismatch.
Proof.
  destruct text as [Hs Hc]. unfold required. destruct (depend E p param t); [|done].
  assert ((0 <? val_length (VStr s)) = negb (bool_decide (s = ""))) as Hl.
  { cbn [val_length]. destruct s as [|c s']; [done|]. by rewrite bool_decide_eq_false_2. }
  destruct (enode e) eqn:Hn; rewrite ?Hc, ?Hl; try done.
Qed.

Lemma text_optional : optional E p t e = bool_decide (s = "").
Proof. unfold optional. rewrite value, text_required. cbn. by case_bool_decide. Qed.

(** A method that lets an empty field pass. *)
Lemma text_unless test :
  Some (unless_optional E p t e test) = Some MTrue ∨
  Some (unless_optional E p t e test) = Some MMismatch → s = "" ∨ test = true.
Proof.
  unfold unless_optional. rewrite text_optional. case_bool_decide; [by left|].
  destruct test; [by right|]. by intros [?|?].
Qed.
End text.

(** ** A rule of the settings that an element passes *)

Section passes.
Context (E : environment) (S : settings).
Hypothesis no_ranges : autoCreateRanges S = false.
Hypothesis no_normalizer : s_normalizer S = None.
Hypothesis no_own_normalizer : ∀ e, obj_get "normalizer" (collected E S e) = None.
Hypothesis rules_distinct : ∀ e, distinct_keys (staticRules S e).

Lemma collected_static e k r :
  obj_get k (staticRules S e) = Some r → obj_get k (collected E S e) = Some r.
Proof. intros Hr. unfold collected. by rewrite obj_get_extend, Hr. Qed.

Lemma check_input_rules p t p1 e val n rs :
  check_input E S p t = (p1, Some (e, val, n, rs)) →
  p1 !! t = Some e ∧ same_fields S p p1 ∧ val = elementValue p1 e ∧
  rs = snd (rules E S p t) ∧ distinct_keys rs.
Proof.
  unfold check_input. pose proof (rules_same E S p t) as Hsame.
  destruct (p !! t) as [e0|] eqn:He0.
  - destruct (rules_get E S no_ranges p t e0 "normalizer" He0 (rules_distinct e0)) as [Hn Hd].
    { rewrite no_own_normalizer. by intros ? [=]. }
    rewrite no_own_normalizer in Hn.
    destruct (rules E S p t) as [q rs0]. cbn [fst snd] in *. intros [= <- H].
    apply bind_Some in H as (e' & He' & H). unfold normalizer_of in H. rewrite Hn, no_normalizer in H.
    simplify_eq/=. done.
  - unfold rules. rewrite He0. intros [= <- H]. rewrite He0 in H. done.
Qed.

Lemma passes_rule acc pend q i t e s m r :
  passes E acc pend S q i t → q !! t = Some e → text_field e → elementValue q e = VStr s →
  obj_get m (staticRules S e) = Some r → simple m (Some r) →
  ∃ q' e', same_fields S q q' ∧ text_field e' ∧ elementValue q' e' = VStr s ∧ ename e' = ename e ∧
    accepts_rule E acc pend q' (VStr s) t e' (m, cleaned m r).
Proof.
  intros [_ (q1 & Hq1 & p1 & e1 & val & n & rs & Hin & Hall)] He Ht Hv Hr Hs.
  destruct (same_lookup_Some S q q1 t e Hq1 He) as (e2 & He2 & Hc2).
  destruct (text_field_core S q q1 e e2 Ht Hc2) as (_ & _ & Hn2).
  assert (staticRules S e2 = staticRules S e) as Hst by (unfold staticRules; by rewrite Hn2).
  rewrite <-Hst in Hr.
  destruct (check_input_rules _ _ _ _ _ _ _ Hin) as (He1 & Hp1 & -> & -> & Hdrs).
  assert (same_fields S q p1) as Hqp by (by etrans).
  destruct (same_lookup_Some S q p1 t e Hqp He) as (e3 & He3 & Hc3).
  assert (e3 = e1) as -> by congruence.
  destruct (text_field_core S q p1 e e1 Ht Hc3) as (Ht1 & Hv1 & _). rewrite Hv1, Hv in Hall.
  destruct (rules_get E S no_ranges q1 t e2 m He2 (rules_distinct e2)) as [Hg _].
  { by rewrite (collected_static e2 m r Hr). }
  rewrite (collected_static e2 m r Hr) in Hg.
  destruct (Hall (m, cleaned m r)) as (q' & Hq' & Hacc); [by apply obj_get_elem|].
  destruct (text_field_core S q q' e e1 Ht Hc3) as (_ & Hv' & Hn').
  exists q', e1. split_and!; [done|done|by rewrite Hv'|done|done].
Qed.
End passes.

(** ** The validator of a parsed form *)

Lemma expects_known p m r :
  expects p m r →
  m ∈ flag_methods ++ text_methods ++ pattern_methods ++ pair_methods ++ ["equalTo"; "remote"].
Proof.
  rewrite !elem_of_app. destruct r as [[]| | |[|[] [|[] []]]| |? []| |]; simpl; try done.
  - auto.
  - intros [[? _]|?]; auto.
  - intros [? _]; auto.
  - intros [-> _]. do 4 right. known_name.
  - intros [-> _]. do 4 right. known_name.
Qed.

Lemma normalizeAttributeRule_get rules type method value k :
  k ≠ method → obj_get k (normalizeAttributeRule rules type method value) = obj_get k rules.
Proof.
  intros Hne. unfold normalizeAttributeRule. repeat case_match; try done;
    by rewrite obj_get_put, decide_False.
Qed.

Lemma attribute_rules_get (f : string → option rvalue) type names o k :
  k ∉ names →
  obj_get k (fold_left (λ o m, normalizeAttributeRule o type m (f m)) names o) = obj_get k o.
Proof.
  revert o. induction names as [|m names IH]; intros o; [done|].
  intros [Hm Hk]%not_elem_of_cons. cbn [fold_left]. rewrite IH by done.
  by apply normalizeAttributeRule_get.
Qed.

Lemma copied_rules_distinct rules : distinct_keys rules → distinct_keys (copied_rules rules).
Proof.
  unfold distinct_keys, copied_rules. induction rules as [|[m v] rules IH]; csimpl; [done|].
  intros [Hm Hd]%NoDup_cons. destruct (copied_value v) as [r|]; csimpl; [|by apply IH].
  apply NoDup_cons. split; [|by apply IH]. intros Hin. apply Hm. revert Hin. clear.
  induction rules as [|[m' v] rules IH]; csimpl; [done|]. rewrite elem_of_cons.
  destruct (copied_value v); csimpl; [|by auto]. rewrite elem_of_cons. intros [?|?]; auto.
Qed.

Section parsed.
Context (exec : string → chars → option (option (nat * nat))) (E0 : environment).
Context (p0 : page) (o : options).
Hypothesis no_custom : custom_methods E0 = [].
Hypothesis typed : options_typed p0 o.
Local Abbreviation E := (unobtrusive_environment exec E0 o).
Local Abbreviation S := (settings_of o).

Lemma parsed_distinct e : distinct_keys (staticRules S e).
Proof.
  unfold staticRules, settings_of. cbn [s_rules]. rewrite obj_get_fmap.
  destruct (obj_get (ename e) (u_rules o)) as [rules|] eqn:Hr; [|apply NoDup_nil_2].
  simpl. apply copied_rules_distinct. by destruct (typed _ _ Hr).
Qed.

Lemma static_expects e m r : obj_get m (staticRules S e) = Some r → expects p0 m r.
Proof.
  unfold staticRules. destruct (obj_get (ename e) (s_rules S)) as [rules|] eqn:Hr; [|done].
  simpl. by apply (settings_of_typed p0 o typed (ename e)).
Qed.

Lemma no_normalizer_rule e : obj_get "normalizer" (collected E S e) = None.
Proof.
  assert ("normalizer" ∉ (methods E).*1) as Hn.
  { unfold methods. cbn [custom_methods unobtrusive_environment]. rewrite no_custom.
    apply (bool_decide_unpack _). vm_compute. exact I. }
  unfold collected. set (names := (methods E).*1) in *.
  rewrite !obj_get_extend by (auto using parsed_distinct, distinct_dataRules, distinct_attributeRules,
    distinct_classRules).
  assert (obj_get "normalizer" (staticRules S e) = None) as ->.
  { destruct (obj_get "normalizer" (staticRules S e)) as [r|] eqn:Hr; [|done].
    apply static_expects, expects_known in Hr. exfalso. revert Hr. known_name. }
  unfold dataRules. rewrite attribute_rules_get by done. cbn [obj_get].
  assert (obj_get "normalizer" (attributeRules names e) = None) as ->.
  { unfold attributeRules. set (r := fold_left _ _ _).
    assert (obj_get "normalizer" r = None) as Hr by (unfold r; by rewrite attribute_rules_get).
    repeat case_match; try done. by rewrite obj_get_delete_ne. }
  unfold classRules. cbn [classRuleSettings settings_of default_settings].
  assert (∀ l o', obj_get "normalizer" o' = None →
    obj_get "normalizer" (fold_left (λ o c, match obj_get c default_classRuleSettings with
      | Some r => extend o r | None => o end) l o') = None) as Hc; [|by rewrite Hc].
  induction l as [|c l IH]; intros o' Ho; [done|]. cbn [fold_left]. apply IH.
  destruct (obj_get c default_classRuleSettings) as [r|] eqn:Hr; [|done].
  apply (obj_get_Forall (λ r, distinct_keys r ∧ "normalizer" ∉ r.*1)) in Hr as [Hd Hk].
  - rewrite obj_get_extend by done. by rewrite (proj2 (obj_get_None r "normalizer")).
  - known_name.
Qed.

(** ** What a declared rule asks of the text of a field *)

Definition formats : list (string * regex) :=
  [("email", email_regex); ("url", url_regex); ("digits", digits_regex); ("number", number_regex)].

(** The rules an empty field passes. *)
Definition lenient_methods : list string :=
  ["email"; "url"; "digits"; "number"; "date"; "minlength"; "maxlength"; "rangelength"; "min"; "max";
   "range"; "regex"; "remote"].

Definition length_Q (s : string) : Q := inject_Z (Z.of_nat (length (chars_of s))).
Definition non_words (s : string) : nat := length (List.filter (λ c, negb (is_word c)) (chars_of s)).

(** The text [s] of a field named [name] meets a rule, on the page [q] and with
    the answers of the server [acc].  No rule called [creditcard], [accept] or
    [undefined] is ever met: the validator has no such method.  The method
    [__dummy__], which parsing adds, asks nothing.  A [min] or [max] alone is
    left out: the theorem says nothing of it. *)
Inductive met (acc : list (string * list (string * jval) * bool)) (q : page) (name s : string) : string → rule_value → Prop :=
  | met_dummy : met acc q name s "__dummy__" UTrue
  | met_empty m v : s = "" → m ∈ lenient_methods → met acc q name s m v
  | met_required : s ≠ "" → met acc q name s "required" UTrue
  | met_format m r : (m, r) ∈ formats → full_match r (chars_of s) = true → met acc q name s m UTrue
  | met_date :
      tests "Invalid" (date_string E0 s) = false → tests "NaN" (date_string E0 s) = false →
      met acc q name s "date" UTrue
  | met_minlength a lo :
      Number (chars_of a) = Some lo → (lo <= length_Q s)%Q → met acc q name s "minlength" (UText a)
  | met_maxlength b hi :
      Number (chars_of b) = Some hi → (length_Q s <= hi)%Q → met acc q name s "maxlength" (UText b)
  | met_rangelength a b lo hi :
      Number (chars_of a) = Some lo → Number (chars_of b) = Some hi →
      (lo <= length_Q s)%Q → (length_Q s <= hi)%Q → met acc q name s "rangelength" (UPair a b)
  | met_range a b lo hi x :
      Number (chars_of a) = Some lo → Number (chars_of b) = Some hi → Number (chars_of s) = Some x →
      (lo <= x)%Q → (x <= hi)%Q → met acc q name s "range" (UPair a b)
  | met_regex pattern :
      exec pattern (chars_of s) = Some (Some (0, length (chars_of s))) →
      met acc q name s "regex" (UText pattern)
  | met_nonalphamin a lo :
      Number (chars_of a) = Some lo → (lo <= inject_Z (Z.of_nat (non_words s)))%Q → 0 < non_words s →
      met acc q name s "nonalphamin" (UText a)
  | met_equalTo j e :
      q !! j = Some e → jq_val e = VStr s → met acc q name s "equalTo" (UElement j)
  | met_remote url type owner fields q' :
      same_fields S q q' →
      (name, optionData E q' (VStr s) (ROptions (default "" url) (Some owner)), true) ∈ acc →
      met acc q name s "remote" (URemote url type owner fields).

Definition method_table : list (string * method) :=
  builtin_methods E ++
  ((λ '(name, f), (name, Reads (λ p v i e param,
      (λ r, match r with Some b => of_bool b | None => MMismatch end) <$> f p v i e param))) <$>
    [("__dummy__", dummy_method); ("regex", regex_method exec E0); ("nonalphamin", nonalphamin_method)]).

Lemma methods_eq : methods E = method_table.
Proof.
  unfold methods, method_table. cbn [custom_methods unobtrusive_environment]. by rewrite no_custom.
Qed.

(** Find the method of a known name in an accepted rule. *)
Ltac find_method H :=
  unfold accepts_rule in H; rewrite methods_eq in H; cbn [fst snd] in H;
  lazymatch type of H with
  | context [obj_get ?m method_table] =>
      let f := eval hnf in (obj_get m method_table) in
      change (obj_get m method_table) with f in H; cbn [optional_or] in H
  end.

Section accepted.
Context (acc : list (string * list (string * jval) * bool)) (q q' : page) (t : nat) (e : element).
Context (s : string).
Hypothesis same : same_fields S q q'.
Hypothesis text : text_field e.
Hypothesis value : elementValue q' e = VStr s.
Local Abbreviation accepts := (accepts_rule E acc [] q' (VStr s) t e).

Lemma flag_met m : m ∈ flag_methods → accepts (m, RBool true) → met acc q (ename e) s m UTrue.
Proof.
  revert m. apply (proj1 (Forall_forall (λ m, accepts (m, RBool true) → met acc q (ename e) s m UTrue) _)).
  unfold flag_methods, boolean_adapters.
  repeat (apply Forall_cons; split); try apply Forall_nil_2; intros H; find_method H; try done.
  all: try (apply (text_unless _ _ _ _ _ text value) in H as [H|H];
    [apply met_empty; [done|known_name]|first [eapply met_format; [|exact H];
      unfold formats; repeat (apply list_elem_of_here || apply list_elem_of_further)|idtac]]).
  - apply met_required. intros ->. rewrite text_required in H by done. by destruct H.
  - apply met_dummy.
  - apply negb_true_iff, orb_false_iff in H as [H1 H2]. by apply met_date.
Qed.

Lemma cleaned_length m a :
  m = "minlength" ∨ m = "maxlength" → a ≠ "" → cleaned m (RStr a) = RNum (Number (chars_of a)).
Proof.
  intros Hm Ha. unfold cleaned. rewrite decide_True by done. cbn [truthy].
  by rewrite bool_decide_eq_false_2.
Qed.

Lemma cleaned_string m a : m ≠ "minlength" → m ≠ "maxlength" → cleaned m (RStr a) = RStr a.
Proof.
  intros H1 H2. unfold cleaned. rewrite decide_False by (by intros [?|?]). by case_decide.
Qed.

Lemma len_ge_spec n x : len_ge n (RNum x) = true ↔ ∃ lo, x = Some lo ∧ (lo <= inject_Z (Z.of_nat n))%Q.
Proof.
  unfold len_ge. cbn [param_number]. destruct x as [lo|]; [|by split; [|intros (? & [=] & _)]].
  rewrite Qle_bool_iff. split; [by exists lo|by intros (? & [= <-] & ?)].
Qed.
Lemma len_le_spec n x : len_le n (RNum x) = true ↔ ∃ hi, x = Some hi ∧ (inject_Z (Z.of_nat n) <= hi)%Q.
Proof.
  unfold len_le. cbn [param_number]. destruct x as [lo|]; [|by split; [|intros (? & [=] & _)]].
  rewrite Qle_bool_iff. split; [by exists lo|by intros (? & [= <-] & ?)].
Qed.

Ltac lenient H :=
  apply (text_unless _ _ _ _ _ text value) in H as [H|H]; [by apply met_empty; [|known_name]|].

Lemma length_met m a :
  a ≠ "" → m = "minlength" ∨ m = "maxlength" → accepts (m, cleaned m (RStr a)) →
  met acc q (ename e) s m (UText a).
Proof.
  intros Ha Hm. rewrite cleaned_length by done. destruct Hm as [-> | ->]; intros H; find_method H; lenient H;
    unfold length_of in H; rewrite text_length in H by done.
  - apply len_ge_spec in H as (lo & Hlo & H). by eapply met_minlength.
  - apply len_le_spec in H as (hi & Hhi & H). by eapply met_maxlength.
Qed.

(** A method of the page that returned [true] or a mismatch. *)
Lemma nonalphamin_met a :
  a ≠ "" →
  let r := (λ r, match r with Some b => of_bool b | None => MMismatch end) <$>
             nonalphamin_method q' (VStr s) t e (RStr a) in
  r = Some MTrue ∨ r = Some MMismatch → met acc q (ename e) s "nonalphamin" (UText a).
Proof.
  intros Ha. unfold nonalphamin_method. cbn [truthy]. rewrite bool_decide_eq_false_2 by done.
  cbn [negb]. destruct (List.filter _ _) as [|c l] eqn:Hf; cbn; [by intros [?|?]|].
  intros H. assert (len_ge (Datatypes.S (length l)) (RStr a) = true) as Hl.
  { destruct (len_ge _ _); [done|]. by destruct H. }
  unfold len_ge in Hl. cbn [param_number] in Hl. destruct (Number (chars_of a)) as [lo|] eqn:Hn; [|done].
  apply Qle_bool_iff in Hl. eapply met_nonalphamin; [done| |]; unfold non_words; rewrite Hf; [done|].
  simpl. lia.
Qed.

Lemma regex_met a :
  let r := (λ r, match r with Some b => of_bool b | None => MMismatch end) <$>
             regex_method exec E0 q' (VStr s) t e (RStr a) in
  r = Some MTrue ∨ r = Some MMismatch → met acc q (ename e) s "regex" (UText a).
Proof.
  unfold regex_method. rewrite (text_optional E0 q' t e s text value).
  case_bool_decide as Hs; [intros _; apply met_empty; [done|known_name]|].
  cbn [rvalue_string val_string]. destruct (exec a (chars_of s)) as [[[index len]|]|] eqn:He; cbn;
    try by intros [?|?].
  destruct (Nat.eqb_spec index 0) as [->|]; cbn; [|by intros [?|?]].
  destruct (Nat.eqb_spec len (length (chars_of s))) as [->|]; cbn; [|by intros [?|?]].
  intros _. by apply met_regex.
Qed.

Lemma text_met m a :
  m ≠ "min" → m ≠ "max" → (m ∈ text_methods ∧ a ≠ "") ∨ m ∈ pattern_methods → accepts (m, cleaned m (RStr a)) →
  met acc q (ename e) s m (UText a).
Proof.
  intros Hmin Hmax Hm H. destruct (decide (m = "minlength" ∨ m = "maxlength")) as [Hl|Hl].
  { apply length_met; [|done|done]. destruct Hm as [[_ ?]|Hm]; [done|].
    exfalso. destruct Hl as [-> | ->]; revert Hm; known_name. }
  rewrite cleaned_string in H by (intros ->; apply Hl; auto).
  assert (m ∈ text_methods ++ pattern_methods) as Hin by (apply elem_of_app; tauto).
  revert m Hin Hmin Hmax Hl Hm H.
  apply (proj1 (Forall_forall (λ m, m ≠ "min" → m ≠ "max" → ¬ (m = "minlength" ∨ m = "maxlength") →
    m ∈ text_methods ∧ a ≠ "" ∨ m ∈ pattern_methods → accepts (m, RStr a) →
    met acc q (ename e) s m (UText a)) _)).
  cbn [text_methods pattern_methods app].
  repeat (apply Forall_cons; split); try apply Forall_nil_2; intros Hmin Hmax Hl Hm H; try done; find_method H;
    try done; try (by destruct Hl; auto); try lenient H.
  - apply nonalphamin_met; [|done]. destruct Hm as [[_ ?]|Hm]; [done|]. exfalso. revert Hm. known_name.
  - by apply regex_met.
Qed.

Lemma js_ge_number x : js_ge (VStr s) (RNum x) = true →
  ∃ lo y, x = Some lo ∧ Number (chars_of s) = Some y ∧ (lo <= y)%Q.
Proof.
  unfold js_ge, compare_with. cbn [val_number param_number val_string].
  destruct (Number (chars_of s)) as [y|], x as [lo|]; try done. intros H%Qle_bool_iff. by exists lo, y.
Qed.
Lemma js_le_number x : js_le (VStr s) (RNum x) = true →
  ∃ hi y, x = Some hi ∧ Number (chars_of s) = Some y ∧ (y <= hi)%Q.
Proof.
  unfold js_le, compare_with. cbn [val_number param_number val_string].
  destruct (Number (chars_of s)) as [y|], x as [lo|]; try done. intros H%Qle_bool_iff. by exists lo, y.
Qed.

Lemma pair_met m a b :
  m ∈ pair_methods → accepts (m, cleaned m (RArr [RStr a; RStr b])) →
  met acc q (ename e) s m (UPair a b).
Proof.
  revert m. apply (proj1 (Forall_forall (λ m, accepts (m, cleaned m (RArr [RStr a; RStr b])) →
    met acc q (ename e) s m (UPair a b)) _)).
  unfold pair_methods. repeat (apply Forall_cons; split); try apply Forall_nil_2; intros H.
  - change (cleaned "rangelength" _) with (RArr [RNum (Number (chars_of a)); RNum (Number (chars_of b))]) in H.
    find_method H. lenient H. unfold length_of in H. rewrite text_length in H by done.
    cbn [param_at lookup list_lookup default] in H.
    apply andb_prop in H as [(lo & Hlo & H1)%len_ge_spec (hi & Hhi & H2)%len_le_spec].
    by eapply met_rangelength.
  - change (cleaned "range" _) with (RArr [RNum (Number (chars_of a)); RNum (Number (chars_of b))]) in H.
    find_method H. lenient H.
    apply andb_prop in H as [(lo & y & Hlo & Hy & H1)%js_ge_number (hi & y' & Hhi & Hy' & H2)%js_le_number].
    rewrite Hy in Hy'. injection Hy' as <-. by eapply met_range.
  - by find_method H.
Qed.

Lemma cleaned_flag m : m ∈ flag_methods → cleaned m (RBool true) = RBool true.
Proof.
  revert m. apply (proj1 (Forall_forall (λ m, cleaned m (RBool true) = RBool true) _)).
  unfold flag_methods, boolean_adapters. by repeat constructor.
Qed.

Lemma accepted_met m v r :
  m ≠ "min" → m ≠ "max" → copied_value v = Some r → expects p0 m r → accepts (m, cleaned m r) → met acc q (ename e) s m v.
Proof.
  intros Hmin Hmax Hc Hx H. destruct v as [| |a|a b|j|url type owner fields]; cbn in Hc; try done;
    injection Hc as <-.
  - apply flag_met; [done|]. by rewrite cleaned_flag in H.
  - by apply text_met.
  - apply pair_met; [by destruct Hx|done].
  - destruct Hx as [-> _]. change (cleaned "equalTo" (RElem j)) with (RElem j) in H. find_method H.
    unfold same_as_target in H. cbn [equalTo_target] in H. apply bool_decide_eq_true_1 in H.
    destruct (q' !! j) as [e'|] eqn:He'; [|done].
    destruct (same_lookup_Some S q' q j e' (symmetry same) He') as (e2 & He2 & Hc2).
    eapply met_equalTo; [done|]. by rewrite (core_val S e' e2 Hc2).
  - destruct Hx as [-> _]. change (cleaned "remote" ?r) with r in H. find_method H.
    rewrite (text_optional E q' t e s text value) in H. destruct H as [H|[H|H]].
    + apply met_empty; [by apply bool_decide_eq_true_1 in H|known_name].
    + by apply elem_of_nil in H.
    + by eapply met_remote.
Qed.
End accepted.
End parsed.

Lemma expects_simple p m r : expects p m r → simple m (Some r).
Proof.
  intros H w [= <-]. split.
  - destruct r as [[]| | |[|[] [|[] []]]| |? []| |]; simpl in *; done.
  - intros s ->. destruct H as [[Hm _]|Hm]; split; intros ->; revert Hm; known_name.
Qed.

(** What [min] compares when its parameter is the text of an attribute: 6 passes a
    minimum of 10, and 10 does not pass a minimum of 9. *)
Example lone_minimum_as_text :
  js_ge (VStr "6") (RStr "10") = true ∧ js_ge (VStr "10") (RStr "9") = false.
Proof. by vm_compute. Qed.

(** C20. What the server declares is enforced: after a page has been parsed, once and by
    a validator without methods of the page's own, a text field that passes its rules on
    the page [q], as every validated field of a form submitted as validated does, meets
    the constraints that the attributes of its element declare: required, the bounds of
    its length, a range (as numbers), its format, pattern and number of symbols, equality
    with the other field, and an answer of the server for this very text.  Where two
    attributes give the same method it is the last value that counts, and an empty text
    meets all but required, nonalphamin and equalTo.  Nothing is said of a minimum or
    maximum alone, nor of a value the adapter leaves undefined.  A field that declares a
    rule for which the validator has no method never passes. *)
Theorem declared_constraints_hold exec (E0 : environment) (d : defaults) (p0 : page) st
    acc (q : page) i t e s j e0 :
  custom_methods E0 = [] →
  parse_document (standard_adapters false) d p0 new_form = (st, true) →
  let o := validationInfo d st in
  passes (unobtrusive_environment exec E0 o) acc [] (settings_of o) q i t →
  q !! t = Some e → text_field e → elementValue q e = VStr s →
  last_named p0 (marked p0) (ename e) = Some j → p0 !! j = Some e0 →
  u_validator st = Some (settings_of o) ∧
  ∀ m v, last_value m (fst (declarations false p0 j e0)) = Some v →
    m ≠ "__dummy__" → m ≠ "min" → m ≠ "max" → v ≠ UUndefined →
    met exec E0 o acc q (ename e) s m v.
Proof.
  intros Hcustom Hparse o Hpass He Ht Hv Hj He0.
  assert (marked p0 ≠ []) as Hm by (unfold last_named in Hj; by destruct (marked p0)).
  destruct (parse_document_describes false d p0 st Hparse Hm) as (Hd & Hval & Hdesc).
  split; [done|]. intros m v Hmv Hne Hmin Hmax Hdef.
  destruct (settings_describe false p0 o _ j e0 (Hdesc _ _ Hj) He0) as (Hrules & _ & _).
  assert (staticRules (settings_of o) e0 = staticRules (settings_of o) e) as Hst.
  { unfold staticRules. destruct (de_element _ _ _ _ _ (Hdesc _ _ Hj)) as (e1 & He1 & Hn).
    rewrite He0 in He1. injection He1 as <-. by rewrite Hn. }
  specialize (Hrules m). rewrite decide_False, Hmv, Hst in Hrules by done. cbn in Hrules.
  destruct (copied_value v) as [r|] eqn:Hc; [|by destruct v].
  assert (options_typed p0 o) as Hty.
  { apply (ft_data p0 st); [|done]. pose proof (parse_typed false d p0 (seq 0 (length p0)) new_form) as Hp.
    change (parse _ d p0 _ new_form) with (parse_document (standard_adapters false) d p0 new_form) in Hp.
    rewrite Hparse in Hp. apply Hp. by split. }
  pose proof (static_expects p0 o Hty e m r Hrules) as Hx.
  destruct (passes_rule (unobtrusive_environment exec E0 o) (settings_of o) eq_refl eq_refl
    (no_normalizer_rule exec E0 p0 o Hcustom Hty) (parsed_distinct p0 o Hty) acc [] q i t e s m r
    Hpass He Ht Hv Hrules (expects_simple p0 m r Hx)) as (q' & e' & Hq' & Ht' & Hv' & Hn' & Hacc).
  rewrite <-Hn'. by apply (accepted_met exec E0 p0 o Hcustom acc q q' t e' s Hq' Ht' Hv' m v r).
Qed.

(** ** The registration form, filled in *)

Definition no_exec (pattern : string) (s : chars) : option (option (nat * nat)) := None.
Definition register_options : options := validationInfo no_defaults registered.
Definition register_env : environment := unobtrusive_environment no_exec demo_env register_options.

Definition fill (value : string) (e : element) : element :=
  set_field value [] false None e.
Definition filled_page : page :=
  zip_with fill ["bob@example.com"; "secret"; "secret"] register_page.
Definition filled : validator := initial filled_page (settings_of register_options).

Lemma filled_distinct : distinct_names filled_page.
Proof.
  intros i j e e' Hi Hj Hn.
  destruct i as [|[|[|i]]], j as [|[|[|j]]]; simplify_eq/=; try (by left);
    rewrite ?lookup_nil in *; simplify_eq/=; discriminate Hn.
Qed.

Lemma filled_checks i :
  i < 3 → snd (check register_env i filled) = CTrue ∧
          pending (req (fst (check register_env i filled))) = [] ∧
          validationTargetFor filled_page i = Some i.
Proof. intros Hi. destruct i as [|[|[|]]]; [..|lia]; vm_compute; done. Qed.

Lemma filled_passes i :
  i < 3 → passes register_env [] [] (settings_of register_options) filled_page i i.
Proof.
  intros Hi. destruct (filled_checks i Hi) as (H1 & H2 & H3).
  assert (inv [] filled) as Hinv.
  { exact (g_inv _ _ _ _ (good_initial register_env (settings_of register_options) filled_page filled_distinct)). }
  destruct (check register_env i filled) as [v' c] eqn:Hc. cbn [fst snd] in H1, H2. subst c.
  destruct (check_spec register_env [] i filled v' CTrue Hinv Hc) as (_ & _ & _ & t & Ht).
  rewrite H2 in Ht. pose proof (proj1 Ht) as Htt.
  change (v_page filled) with filled_page in Htt. rewrite H3 in Htt. by injection Htt as <-.
Qed.

Lemma declared_constraints_hold_witness :
  met no_exec demo_env register_options [] filled_page "Input.Password" "secret" "rangelength"
    (UPair "6" "100") ∧
  met no_exec demo_env register_options [] filled_page "Input.Confirm" "secret" "equalTo" (UElement 1).
Proof.
  assert (parse_document (standard_adapters false) no_defaults register_page new_form = (registered, true))
    as Hp by (vm_compute; reflexivity).
  split.
  - pose proof (declared_constraints_hold no_exec demo_env no_defaults register_page registered []
      filled_page 1 1 (fill "secret" password_field) "secret" 1 password_field eq_refl Hp) as H.
    cbv zeta in H. apply H; clear H; [apply filled_passes; lia|vm_compute; done|split; vm_compute; done|vm_compute; done|
      vm_compute; done|vm_compute; done|vm_compute; done|done|done|done|done].
  - pose proof (declared_constraints_hold no_exec demo_env no_defaults register_page registered []
      filled_page 2 2 (fill "secret" confirm_field) "secret" 2 confirm_field eq_refl Hp) as H.
    cbv zeta in H. apply H; clear H; [apply filled_passes; lia|vm_compute; done|split; vm_compute; done|vm_compute; done|
      vm_compute; done|vm_compute; done|vm_compute; done|done|done|done|done].
Defined.
