(* ===== verification/UnobtrusiveAjax.v ===== *)
(** * jquery.unobtrusive-ajax: links and forms that send requests

    Models jquery.unobtrusive-ajax.js: the handlers of clicks and submissions, the
    options of a request and what its callbacks do, and [serializeArray] of
    jquery-3.3.1.js, which they read the form with.  The state is that of one form:
    its validator ([Validate]), the data that clicks leave on it until a timeout, the
    requests on their way and a log.  Links keep no state.

    What the code calls is in the environment: the properties of [window], which
    functions return [false], and the events carry what the user answers, what the
    server sends and what a selector matches then. *)
From stdpp Require Import base strings list.
From Stdlib Require Import Ascii ZArith QArith Lia.
From S2P Require Import Prelude JsString ValidatePage ValidateRules Validate Unobtrusive.

Local Open Scope nat_scope.

(** ** Elements and fields *)

(** A link or a form: its attributes, [href] or [action], and [method]. *)
Record ajax_element := AjaxElement {
  a_attributes : list (string * string);
  a_url : string;
  a_method : string
}.

Definition getAttribute (el : ajax_element) (name : string) : option string := obj_get name (a_attributes el).

(** What is sent; the coordinates of a click are numbers. *)
Inductive field_value := FText (s : string) | FNumber (z : Z).
Abbreviation field := (string * field_value)%type.

(** [val.replace(/\r?\n/g, "\r\n")] *)
Fixpoint crlf (l : chars) : chars :=
  match l with
  | [] => []
  | c :: l' =>
      if code c =? 10 then ascii_of_nat 13 :: c :: crlf l'
      else match l' with
           | c' :: l'' => if (code c =? 13) && (code c' =? 10) then c :: c' :: crlf l'' else c :: crlf l'
           | [] => [c]
           end
  end.
Definition normalized (s : string) : field_value := FText (string_of (crlf (chars_of s))).

(** The filter of [serializeArray]; [eexcluded] is [:disabled], or a type that the
    filter leaves out anyway. *)
Definition submittable (e : element) : bool :=
  negb (bool_decide (ename e = "")) && negb (eexcluded e) &&
  match enode e with OtherNode => false | _ => true end &&
  negb (lower (etype e) ∈? ["submit"; "button"; "image"; "reset"; "file"])%js &&
  (echecked e || negb (lower (etype e) ∈? ["checkbox"; "radio"])%js).

Definition serialize_one (e : element) : list field :=
  match jq_val e with
  | VStr s => [(ename e, normalized s)]
  | VArr l => (λ s, (ename e, normalized s)) <$> l
  | _ => []
  end.
Definition serializeArray (p : page) : list field := mjoin (serialize_one <$> List.filter submittable p).

(** [parseInt(text, 10) || 0], where the text may be [null] *)
Fixpoint digit_prefix (l : chars) : chars :=
  match l with c :: l' => if is_digit c then c :: digit_prefix l' else [] | [] => [] end.
Definition parse_duration (s : option string) : Z :=
  let l := drop_while is_space (chars_of (default "" s)) in
  let value l := digits_value 0 (digit_prefix l) in
  match l with
  | "-"%char :: l' => (- value l')%Z
  | "+"%char :: l' => value l'
  | _ => value l
  end.

Definition upper (s : string) : string := string_of (toUpperCase (chars_of s)).

(** ** [getFunction] *)

Section window.
Context {object : Type}.

(** [window], the property of an object, and the tests of an object. *)
Record scripts := Scripts {
  window : object;
  property_of : object → string → object;
  is_truthy : object → bool;
  is_function : object → bool
}.
Context (W : scripts).

(** A function of the page, or one made of its arguments' names and its code. *)
Inductive callee := Found (f : object) | Compiled (argNames : list string) (code : option string).

(** [while (fn && parts.length) fn = fn[parts.shift()]] *)
Fixpoint walk (fn : object) (parts : list string) : object :=
  match parts with
  | [] => fn
  | p :: parts' => if is_truthy W fn then walk (property_of W fn p) parts' else fn
  end.

Definition getFunction (code : option string) (argNames : list string) : callee :=
  let parts := string_of <$> split_on "."%char (chars_of (default "" code)) in
  let fn := walk (window W) parts in
  if is_function W fn then Found fn else Compiled argNames code.
End window.
Arguments scripts : clear implicits.
Arguments callee : clear implicits.

(** ** Requests *)

Record ajax_options := AjaxOptions {
  o_type : string;
  o_url : string;
  o_cache : bool;
  o_fields : list field
}.

Inductive insertion := Prepend | Append | ReplaceWith | Html.

Inductive ajax_action (object : Type) :=
  | Prevented                                          (* evt.preventDefault() *)
  | Asked (message : string)                           (* window.confirm *)
  | Header (name value : string)
  | Called (f : callee object)
  | Shown (selector : option string) (duration : Z)
  | Hidden (selector : option string) (duration : Z)
  | Sent (el : ajax_element) (o : ajax_options)
  | Inserted (how : insertion) (target : nat) (content : string).
Arguments Prevented {object}.
Arguments Asked {object}.
Arguments Header {object}.
Arguments Called {object}.
Arguments Shown {object}.
Arguments Hidden {object}.
Arguments Sent {object}.
Arguments Inserted {object}.

(** The form, the data [unobtrusiveAjaxClick] and [unobtrusiveAjaxClickTarget] (the
    classes of that element), the timeouts (whether each removes both), the requests
    on their way, and what was done, oldest first. *)
Record ajax_site (object : Type) := AjaxSite {
  form_of : validator;
  click_info : option (list field);
  click_target : option (list string);
  cleanups : list bool;
  on_way : list ajax_element;
  ajax_log : list (ajax_action object)
}.
Arguments AjaxSite {object}.
Arguments form_of {object}.
Arguments click_info {object}.
Arguments click_target {object}.
Arguments cleanups {object}.
Arguments on_way {object}.
Arguments ajax_log {object}.

Inductive reply :=
  | Succeeded (contentType : option string) (content : string) (updates : list nat)
  | Failed.

Inductive ajax_event :=
  | ClickLink (el : ajax_element) (confirmed : bool)
  | ClickImage (name : string) (pageX pageY offsetLeft offsetTop : Q)
  | ClickButton (name value : string) (cancel : bool) (classes : list string)
  | Form (ev : Validate.event) (confirmed : bool)
  | Timeout
  | Reply (k : nat) (r : reply).

Section site.
Context {object : Type} (W : scripts object).
(** Which functions return [false]. *)
Context (returns_false : callee object → bool).
Implicit Types (s : ajax_site object) (el : ajax_element).

Definition act (a : ajax_action object) s : ajax_site object :=
  AjaxSite (form_of s) (click_info s) (click_target s) (cleanups s) (on_way s) (ajax_log s ++ [a]).
Definition set_form (v : validator) s : ajax_site object :=
  AjaxSite v (click_info s) (click_target s) (cleanups s) (on_way s) (ajax_log s).
Definition set_click (i : option (list field)) (t : option (list string)) (c : list bool) s : ajax_site object :=
  AjaxSite (form_of s) i t c (on_way s) (ajax_log s).
Definition set_on_way (l : list ajax_element) s : ajax_site object :=
  AjaxSite (form_of s) (click_info s) (click_target s) (cleanups s) l (ajax_log s).

Definition isMethodProxySafe (method : string) : bool :=
  bool_decide (method = "GET") || bool_decide (method = "POST").

Definition asyncOnBeforeSend (method : string) s : ajax_site object :=
  if isMethodProxySafe method then s else act (Header "X-HTTP-Method-Override" method) s.

(** The option [beforeSend], and whether it returned something else than [false]. *)
Definition beforeSend el (method : string) s : ajax_site object * bool :=
  let f := getFunction W (getAttribute el "data-ajax-begin") ["xhr"] in
  let s1 := act (Called f) (asyncOnBeforeSend method s) in
  if returns_false f then (s1, false)
  else (act (Shown (getAttribute el "data-ajax-loading")
                   (parse_duration (getAttribute el "data-ajax-loading-duration"))) s1, true).

(** [$.ajax(options)]: a request whose [beforeSend] returns [false] is not sent. *)
Definition ajax el (method : string) (o : ajax_options) s : ajax_site object :=
  let '(s1, go) := beforeSend el method s in
  if go then act (Sent el o) (set_on_way (on_way s1 ++ [el]) s1) else s1.

(** [$.extend(options, {...})], which leaves out what is [undefined]. *)
Definition extended el (o : ajax_options) : ajax_options :=
  AjaxOptions (or_else (getAttribute el "data-ajax-method") (o_type o))
    (or_else (getAttribute el "data-ajax-url") (o_url o))
    (match given (getAttribute el "data-ajax-cache") with Some _ => true | None => false end) (o_fields o).

Definition push_field (x : field) (o : ajax_options) : ajax_options :=
  AjaxOptions (o_type o) (o_url o) (o_cache o) (o_fields o ++ [x]).

Definition override (method : string) (o : ajax_options) : ajax_options :=
  if isMethodProxySafe method then o
  else push_field ("X-HTTP-Method-Override", FText method)
         (AjaxOptions "POST" (o_url o) (o_cache o) (o_fields o)).

Definition asyncRequest el (o : ajax_options) (confirmed : bool) s : ajax_site object :=
  let request s :=
    let o1 := push_field ("X-Requested-With", FText "XMLHttpRequest") (extended el o) in
    let method := upper (o_type o1) in
    ajax el method (override method o1) s in
  match given (getAttribute el "data-ajax-confirm") with
  | Some message => let s1 := act (Asked message) s in if confirmed then request s1 else s1
  | None => request s
  end.

(** ** Answers *)

Definition insertion_of (mode : string) : insertion :=
  if bool_decide (mode = "BEFORE") then Prepend
  else if bool_decide (mode = "AFTER") then Append
  else if bool_decide (mode = "REPLACE-WITH") then ReplaceWith
  else Html.

Definition asyncOnSuccess el (content contentType : string) (updates : list nat) s : ajax_site object :=
  if contains (chars_of "application/x-javascript") (chars_of contentType) then s
  else
    let mode := upper (default "" (getAttribute el "data-ajax-mode")) in
    fold_left (λ s update, act (Inserted (insertion_of mode) update content) s) updates s.

Definition complete el s : ajax_site object :=
  act (Called (getFunction W (getAttribute el "data-ajax-complete") ["xhr"; "status"]))
    (act (Hidden (getAttribute el "data-ajax-loading")
                 (parse_duration (getAttribute el "data-ajax-loading-duration"))) s).

Definition on_success el (contentType : option string) (content : string) (updates : list nat) s :=
  act (Called (getFunction W (getAttribute el "data-ajax-success") ["data"; "status"; "xhr"]))
    (asyncOnSuccess el content (or_else contentType "text/html") updates s).

Definition on_error el s : ajax_site object :=
  act (Called (getFunction W (getAttribute el "data-ajax-failure") ["xhr"; "status"; "error"])) s.

(** The callbacks of a request, [complete] after the other. *)
Definition answered el (r : reply) s : ajax_site object :=
  complete el
    match r with
    | Succeeded contentType content updates => on_success el contentType content updates s
    | Failed => on_error el s
    end.

(** ** The handlers *)

Definition click_link el (confirmed : bool) s : ajax_site object :=
  asyncRequest el (AjaxOptions "GET" (a_url el) false []) confirmed (act Prevented s).

Definition click_image (name : string) (pageX pageY offsetLeft offsetTop : Q) s : ajax_site object :=
  set_click (Some [(String.append name ".x", FNumber (round (pageX - offsetLeft)));
                   (String.append name ".y", FNumber (round (pageY - offsetTop)))])
    (click_target s) (cleanups s ++ [false]) s.

Definition click_button (name value : string) (classes : list string) s : ajax_site object :=
  set_click (Some (if bool_decide (name = "") then [] else [(name, FText value)]))
    (Some classes) (cleanups s ++ [true]) s.

(** The next timeout. *)
Definition clean_up s : ajax_site object :=
  match cleanups s with
  | [] => s
  | both :: rest => set_click None (if both then None else click_target s) rest s
  end.

(** The form element, its validator's environment, the values of its buttons, and
    whether it has the data [unobtrusiveValidation] (and with it a validator). *)
Context (el : ajax_element) (E : environment) (button_value : string → string) (parsed : bool).

(** [validationInfo.validate()]; an exception ends the handler as [false] does. *)
Definition validate_form s : ajax_site object * bool :=
  if parsed then
    match form E (form_of s) with
    | (v, Some b) => (set_form v s, b)
    | (v, None) => (set_form v s, false)
    end
  else (s, true).

Definition is_cancel s : bool :=
  match click_target s with Some classes => bool_decide ("cancel" ∈ classes) | None => false end.

(** The hidden inputs that the validator has appended to the form; like the other
    fields they need a name. *)
Definition hidden_fields (hidden : list string) : list field :=
  (λ name, (name, normalized (button_value name))) <$> List.filter (λ name, negb (bool_decide (name = ""))) (rev hidden).

(** The handler of [submit] on the document, for the fields [q] of the form. *)
Definition on_form_submit (q : page) (hidden : list string) (confirmed : bool) s : ajax_site object :=
  let info := default [] (click_info s) in
  let '(s1, go) := if is_cancel s then (act Prevented s, true) else validate_form (act Prevented s) in
  if go then
    asyncRequest el (AjaxOptions (if bool_decide (a_method el = "") then "GET" else a_method el) (a_url el) false
                       (info ++ serializeArray q ++ hidden_fields hidden)) confirmed s1
  else s1.

(** The submissions that the validator's own handler has let through since [v]. *)
Definition passed (v v' : validator) : list (page * list string) :=
  omap (λ x, match x with Submitted _ q h => Some (q, h) | _ => None end)
    (rev (take (length (outputs v') - length (outputs v)) (outputs v'))).

(** An event of the form: the validator's handler comes first, and where it has let a
    submission through, the one above runs.  It runs before the validator goes on;
    what that does afterwards (the hidden input is removed, [formSubmitted] reset)
    [form] neither reads nor writes, and [form] changes classes and [aria] attributes
    of the fields only. *)
Definition on_form (ev : Validate.event) (confirmed : bool) s : ajax_site object :=
  if parsed then
    let v' := react E ev (form_of s) in
    fold_left (λ s '(q, h), on_form_submit q h confirmed s) (passed (form_of s) v') (set_form v' s)
  else
    match ev with
    | Edit _ _ _ _ _ => set_form (react E ev (form_of s)) s
    | Submit => on_form_submit (v_page (form_of s)) [] confirmed s
    | _ => s
    end.

Definition ajax_step (ev : ajax_event) s : ajax_site object :=
  match ev with
  | ClickLink el' confirmed => click_link el' confirmed s
  | ClickImage name pageX pageY offsetLeft offsetTop => click_image name pageX pageY offsetLeft offsetTop s
  | ClickButton name value cancel classes =>
      click_button name value classes
        (if parsed then set_form (click_submit name cancel (form_of s)) s else s)
  | Form (ClickSubmit _ _) _ => s
  | Form ev confirmed => on_form ev confirmed s
  | Timeout => clean_up s
  | Reply k r =>
      match on_way s !! k with
      | Some el' => answered el' r (set_on_way (delete k (on_way s)) s)
      | None => s
      end
  end.

Definition ajax_run (evs : list ajax_event) s : ajax_site object := fold_left (λ s ev, ajax_step ev s) evs s.
End site.

Definition ajax_start {object} (v : validator) : ajax_site object := AjaxSite v None None [] [] [].
