(* ===== verification/UnobtrusiveAjaxFacts.v ===== *)
(** * jquery.unobtrusive-ajax: what is sent

    What an event of the form adds to the validator's outputs, and the theorems about
    histories of a form that sends its data by a request: only validated fields are
    sent, the method reaches the server whatever it is, and the loading element is
    hidden as often as it was shown. *)
From stdpp Require Import base strings list sets relations.
From Stdlib Require Import Ascii ZArith QArith Lia.
From S2P Require Import Prelude JsString ValidatePage ValidateRules Validate ValidateFacts ValidateForm Unobtrusive UnobtrusiveAjax.

Local Open Scope nat_scope.

(** ** What the validator's handlers add to its outputs *)

Section validator.
Context (E : environment) (S0 : settings).

(** A handler adds the outputs [l] and keeps the fields: the submissions it lets
    through are of the fields as they are in the end. *)
Record moves (l : list output) (v v' : validator) : Prop := {
  mo_outputs : outputs v' = l ++ outputs v;
  mo_cancel : cancelSubmit v' = true → cancelSubmit v = true;
  mo_unvalidated q h : Submitted Unvalidated q h ∈ l → cancelSubmit v = true;
  mo_page : same_fields S0 (v_page v) (v_page v');
  mo_sent w q h : Submitted w q h ∈ l → same_fields S0 q (v_page v')
}.

(** Nothing that matters here, but perhaps the event [invalid-form]. *)
Definition stays (v v' : validator) : Prop := ∃ l, moves l v v' ∧ ∀ w q h, Submitted w q h ∉ l.
Definition went (v v' : validator) : Prop := ∃ l, moves l v v'.

Lemma moves_trans l l' v v' v'' : moves l v v' → moves l' v' v'' → moves (l' ++ l) v v''.
Proof.
  intros [H1 H2 H3 H4 H5] [G1 G2 G3 G4 G5]. split; [by rewrite G1, H1, app_assoc | auto| |by etrans|].
  - intros q h [Hin|Hin]%elem_of_app; [eapply H2, G3 | eapply H3]; done.
  - intros w q h [Hin|Hin]%elem_of_app; [by eapply G5 | etrans; [by eapply H5 | done]].
Qed.

#[export] Instance stays_preorder : PreOrder stays.
Proof.
  split.
  - intros v. exists []. split; [split; try done; by intros ? ? ?%elem_of_nil || by intros ? ? ? ?%elem_of_nil | by intros ? ? ? ?%elem_of_nil].
  - intros u v w (l & H & Hl) (l' & H' & Hl'). exists (l' ++ l). split; [by eapply moves_trans|].
    intros x q h [Hin|Hin]%elem_of_app; [by eapply Hl' | by eapply Hl].
Qed.
#[export] Instance went_preorder : PreOrder went.
Proof.
  split; [|by intros u v w (l & H) (l' & H'); exists (l' ++ l); eapply moves_trans].
  intros v. exists []. split; try done; by intros ? ? ?%elem_of_nil || by intros ? ? ? ?%elem_of_nil.
Qed.

Lemma stays_went v v' : stays v v' → went v v'.
Proof. intros (l & H & _). by exists l. Qed.

Lemma stays_outputs l v v' :
  outputs v' = l ++ outputs v → (∀ w q h, Submitted w q h ∉ l) → (cancelSubmit v' = true → cancelSubmit v = true) →
  same_fields S0 (v_page v) (v_page v') → stays v v'.
Proof.
  intros Ho Hl Hc Hp. exists l. split; [|done]. split; try done.
  - intros q h Hin. by destruct (Hl Unvalidated q h).
  - intros w q h Hin. by destruct (Hl w q h).
Qed.
Lemma stays_same v v' :
  outputs v' = outputs v → cancelSubmit v' = cancelSubmit v → same_fields S0 (v_page v) (v_page v') → stays v v'.
Proof.
  intros Ho Hc Hp. apply (stays_outputs []); [done | by intros ? ? ? ?%elem_of_nil | by rewrite Hc | done].
Qed.
Lemma stays_one x v v' :
  outputs v' = x :: outputs v → (∀ w q h, x ≠ Submitted w q h) → cancelSubmit v' = cancelSubmit v →
  same_fields S0 (v_page v) (v_page v') → stays v v'.
Proof.
  intros Ho Hx Hc Hp. apply (stays_outputs [x]); [done| |by rewrite Hc | done].
  intros w q h E1%list_elem_of_singleton. by destruct (Hx w q h).
Qed.
Lemma stays_advances v v' : same_settings S0 (v_settings v) → advances v v' → stays v v'.
Proof. intros Hs []. apply stays_same; [done..|]. eapply same_fields_settings; [by symmetry | done]. Qed.
Lemma stays_quiet v v' : same_settings S0 (v_settings v) → quiet v v' → stays v v'.
Proof. intros Hs Hq. by apply stays_advances, advances_quiet. Qed.

Lemma stays_check acc i v : good E S0 acc v → stays v (fst (check E i v)).
Proof.
  intros Hg. destruct (check E i v) as [v' o] eqn:Hc.
  destruct (check_spec E acc i v v' o (g_inv _ _ _ _ Hg) Hc) as (_ & H & _). by eapply stays_advances, H; eapply g_settings.
Qed.

Lemma stays_form acc v : good E S0 acc v → stays v (fst (form E v)).
Proof.
  intros Hg. destruct (form E v) as [v' o] eqn:Hf.
  destruct (form_spec E acc v v' o (g_inv _ _ _ _ Hg) Hf) as (_ & Hp & _ & Ho & _ & Hc & _). simpl.
  assert (Hp' : same_fields S0 (v_page v) (v_page v')) by (eapply same_fields_settings; [symmetry; by eapply g_settings | done]).
  destruct Ho as [Ho|Ho]; [by apply stays_same | by eapply stays_one].
Qed.

Lemma stays_handle v : stays v (fst (handle v)).
Proof.
  unfold handle. repeat case_match; simpl; try (by apply stays_same); by eapply stays_one.
Qed.

Lemma stays_showErrors given v : same_settings S0 (v_settings v) → stays v (showErrors given v).
Proof.
  intros Hs. unfold showErrors. set (v1 := match given with None => v | Some _ => _ end).
  assert (stays v v1 ∧ v_settings v1 = v_settings v) as [H1 H2] by (unfold v1; destruct given; split; try done; by apply stays_same).
  etrans; [exact H1|]. apply stays_quiet, quiet_defaultShowErrors. by rewrite H2.
Qed.

Lemma stays_check_group acc g n gs b v : good E S0 acc v → stays v (fst (check_group E g n gs b v)).
Proof.
  revert b v. induction gs as [|[m tg] gs IH]; intros b v Hg; simpl; [done|].
  destruct (_ && _); [|by apply IH]. destruct (findByName m (v_page v)) as [|j js]; [done|].
  destruct (validationTargetFor (v_page v) j) as [t|]; [|by apply IH].
  destruct (in_object _ _); [|by apply IH]. set (v1 := upd_res _ v).
  assert (good E S0 acc v1) as Hg1 by by apply good_res.
  pose proof (stays_check acc t v1 Hg1) as H1. pose proof (good_check E S0 acc t v1 Hg1) as H2.
  assert (stays v v1) as H0 by by apply stays_same.
  destruct (check E t v1) as [v2 []]; simpl in *; try (etrans; [exact H0|]; etrans; [exact H1|]; by apply IH).
  by etrans.
Qed.

Lemma stays_element acc i v : good E S0 acc v → stays v (fst (element_ E i v)).
Proof.
  intros Hg. unfold element_. destruct (validationTargetFor (v_page v) i) as [t|]; [|by apply stays_same].
  set (v1 := upd_res _ _). assert (good E S0 acc v1) as H1 by by repeat apply good_res.
  assert (stays v v1) as S1 by by apply stays_same.
  set (grp := match obj_get _ _ with Some _ => _ | None => _ end).
  assert (good E S0 acc (fst grp) ∧ stays v (fst grp)) as [H2 S2].
  { unfold grp. destruct (obj_get _ _) as [g|]; [|done]. destruct (bool_decide _); [done|].
    split; [by apply good_check_group | etrans; [exact S1 | by eapply stays_check_group]]. }
  destruct grp as [v2 [result|]]; simpl in *; [|done].
  pose proof (stays_check acc t v2 H2) as S3. pose proof (good_check E S0 acc t v2 H2) as G3.
  destruct (check E t v2) as [v3 o]. simpl in S3, G3.
  assert (∀ b rs, stays v (fst (let v4 := set_invalid (obj_put (name_of v1 t) (FBool b) (invalid v3)) v3 in
      let v5 := showErrors None v4 in
      (set_page (alter (set_aria (Some b)) i (v_page v5)) v5, Some (result && rs))))) as H4.
  { intros b rs. cbv zeta. cbn [fst]. etrans; [exact S2|]. etrans; [exact S3|].
    transitivity (showErrors None (set_invalid (obj_put (name_of v1 t) (FBool b) (invalid v3)) v3)).
    - etrans; [|apply stays_showErrors; exact (g_settings _ _ _ _ G3)]. by apply stays_same.
    - apply stays_same; [done..|]. by apply same_fields_alter. }
  destruct o; [apply (H4 false true)|apply (H4 true false)|apply (H4 false true)|simpl; by etrans].
Qed.

Lemma stays_focusInvalid v : stays v (focusInvalid v).
Proof. unfold focusInvalid. repeat case_match; by apply stays_same. Qed.

Lemma stays_on_submit acc v v' o :
  good E S0 acc v → on_submit E v = (v', o) → stays v v' ∧ (∀ b, o = Some (b, Unvalidated) → cancelSubmit v = true).
Proof.
  intros Hg. unfold on_submit. destruct (cancelSubmit v) eqn:Hc.
  - destruct (handle _) as [v1 b] eqn:Hh. intros [= <- <-]. split; [|done].
    etrans; [|pose proof (stays_handle (set_cancelSubmit false v)) as H; by rewrite Hh in H].
    apply (stays_outputs []); try done. by intros ? ? ? ?%elem_of_nil.
  - pose proof (stays_form acc v Hg) as Hf. destruct (form E v) as [v1 [[]|]]; simpl in Hf.
    + destruct (Nat.eqb _ _); [|intros [= <- <-]; split; [etrans; [exact Hf | by apply stays_same] | done]].
      pose proof (stays_handle v1) as Hh. destruct (handle v1) as [v2 b]. intros [= <- <-]. split; [by etrans | done].
    + intros [= <- <-]. split; [etrans; [exact Hf | apply stays_focusInvalid] | done].
    + intros [= <- <-]. by split.
Qed.

Lemma went_send w v v' : stays v v' → (w = Unvalidated → cancelSubmit v = true) → went v (send w v').
Proof.
  intros (l & [H1 H2 H3 H4 H5] & Hl) Hw. exists (Submitted w (v_page v') (hiddenInputs v') :: l). split; [simpl; by rewrite H1|done| |done|].
  - intros q h [E1|Hin]%elem_of_cons; [by simplify_eq; apply Hw | by eapply H3].
  - intros x q h [E1|Hin]%elem_of_cons; [by simplify_eq | by eapply H5].
Qed.

Lemma went_user_submit acc v : good E S0 acc v → went v (user_submit E v).
Proof.
  intros Hg. unfold user_submit. destruct (on_submit E v) as [v1 o] eqn:Ho.
  destruct (stays_on_submit acc v v1 o Hg Ho) as [Hs Hc].
  destruct o as [[[] w]|]; [|by apply stays_went|by apply went_send].
  apply went_send; [done|]. intros ->. by eapply Hc.
Qed.

Lemma went_script_submit acc v : good E S0 acc v → went v (fst (script_submit E v)).
Proof.
  intros Hg. unfold script_submit. destruct (on_submit E v) as [v1 o] eqn:Ho.
  destruct (stays_on_submit acc v v1 o Hg Ho) as [Hs Hc].
  destruct o as [[[] w]|]; simpl; [|by apply stays_went..].
  apply went_send; [done|]. intros ->. by eapply Hc.
Qed.

Lemma went_stopRequest acc i ok v :
  good E S0 acc (stopped (name_of v i) v) → went v (stopRequest E i ok v).
Proof.
  intros Hg. rewrite stopRequest_eq. cbv zeta. set (v2 := set_page _ _).
  assert (good E S0 acc v2) as H2.
  { unfold v2. apply (good_alter E S0 acc _ i (stopped (name_of v i) v)); [|done].
    intros e. apply core_removeClass, marks_pending. }
  assert (went v v2) as S2.
  { apply stays_went, stays_same; [done..|]. eapply same_fields_settings; [symmetry; exact (g_settings _ _ _ _ Hg)|].
    apply same_fields_alter. intros e. apply core_removeClass, marks_pending. }
  destruct (_ && _); [|done]. destruct ok.
  - pose proof (good_form E S0 acc v2 H2) as H3. pose proof (stays_form acc v2 H2) as S3.
    destruct (form E v2) as [v3 [[]|]]; simpl in H3, S3; try (etrans; [exact S2 | by apply stays_went]).
    pose proof (went_script_submit acc v3 H3) as S4.
    assert (went v (fst (script_submit E v3))) as S5 by (etrans; [exact S2|]; etrans; [by apply stays_went | done]).
    destruct (script_submit E v3) as [v4 []]; simpl in S5; [|done].
    etrans; [exact S5|]. apply stays_went. case_match; by apply stays_same.
  - etrans; [exact S2|]. apply stays_went. by eapply stays_one.
Qed.

Lemma stays_valid_element acc i v : good E S0 acc v → stays v (valid_element E i v).
Proof.
  intros Hg. pose proof (stays_element acc i v Hg) as H. unfold valid_element.
  destruct (element_ E i v) as [v1 [[]|]]; simpl in *; try done. etrans; [exact H | by apply stays_same].
Qed.

Lemma stays_delegated i v f : (∀ e, stays v (f e)) → stays v (delegated i v f).
Proof. intros Hf. unfold delegated. by repeat case_match. Qed.

Lemma stays_blur acc i v : good E S0 acc v → stays v (on_blur E i v).
Proof.
  unfold on_blur. generalize (equalToBlurs v) as l. intros l. revert v.
  induction l as [|[t j] l IH]; intros v Hg; simpl; [done|]. destruct (Nat.eqb t i); [|by apply IH].
  etrans; [by eapply stays_valid_element|]. apply IH. by apply good_valid_element.
Qed.

Lemma stays_resetForm v : same_settings S0 (v_settings v) → stays v (resetForm E v).
Proof.
  intros Hs. unfold resetForm. set (v1 := hideErrors _).
  assert (stays v v1) as S1 by (unfold v1, hideErrors, hideThese, each_label; by apply stays_same).
  pose proof (quiet_elements E v1) as Hq. destruct (elements E v1) as [v2 l]. simpl in Hq.
  assert (Hs2 : same_settings S0 (v_settings v2)) by by rewrite (q_settings _ _ Hq).
  etrans; [exact S1|]. etrans; [by apply stays_quiet|]. apply stays_same; [done..|].
  eapply same_fields_settings; [symmetry; exact Hs2|]. etrans; [|apply same_resetElements]. by apply same_fields_each.
Qed.

Lemma went_react acc ev v :
  good E S0 acc v → match ev with ClickSubmit _ _ | Edit _ _ _ _ _ => False | _ => True end → went v (react E ev v).
Proof.
  intros Hg Hev. assert (∀ i, stays v (fst (element_ E i v))) as Hel by (intros i; by eapply stays_element).
  destruct ev as [i value sel chk bad|i|i|i wh kc|i|i|i|name cancel| |name r|name|]; simpl; try done.
  - apply stays_went, stays_delegated. intros _. by apply stays_same.
  - apply stays_went, stays_delegated. intros e. by repeat case_match.
  - apply stays_went, stays_delegated. intros e. by repeat case_match.
  - apply stays_went, stays_delegated. intros e. by repeat case_match.
  - apply stays_went, stays_delegated. intros e. by repeat case_match.
  - by eapply stays_went, stays_blur.
  - by eapply went_user_submit.
  - destruct (find_request name v) as [rq|] eqn:Hf; [|done]. apply find_request_spec in Hf as [Hrq <-].
    destruct (success_stops E S0 acc v rq r Hg Hrq) as (u & -> & Hu & Ho & Hc & Hp).
    etrans; [by apply stays_went, stays_same | by eapply went_stopRequest].
  - by apply stays_went, stays_same.
  - eapply stays_went, stays_resetForm, g_settings, Hg.
Qed.
End validator.

(** ** Requests *)

(** The fields the code adds to those of the request. *)
Definition protocol (l : list field) : Prop :=
  Forall (λ x, x.1 = "X-Requested-With" ∨ x.1 = "X-HTTP-Method-Override") l.

Section requests.
Context {object : Type} (W : scripts object) (returns_false : callee object → bool).
Implicit Types (s : ajax_site object) (el : ajax_element).

Definition is_sent (a : ajax_action object) : Prop := match a with Sent _ _ => True | _ => False end.

(** What a handler does when it changes nothing but the log and the requests on their
    way: it logs [l]. *)
Record does (l : list (ajax_action object)) s s' : Prop := {
  do_log : ajax_log s' = ajax_log s ++ l;
  do_form : form_of s' = form_of s;
  do_info : click_info s' = click_info s;
  do_target : click_target s' = click_target s;
  do_cleanups : cleanups s' = cleanups s
}.

Lemma does_nothing s : does [] s s.
Proof. split; try done. by rewrite app_nil_r. Qed.
Lemma does_act a s : does [a] s (act a s).
Proof. by split. Qed.
Lemma does_trans l l' s s' s'' : does l s s' → does l' s' s'' → does (l ++ l') s s''.
Proof. intros [] []. split; try congruence. rewrite do_log1, do_log0. by rewrite app_assoc. Qed.

(** The header of a method that is not sent as such, and the two fields. *)
Definition override_actions (method : string) : list (ajax_action object) :=
  if isMethodProxySafe method then [] else [Header "X-HTTP-Method-Override" method].
Definition override_fields (method : string) : list field :=
  ("X-Requested-With", FText "XMLHttpRequest") ::
  if isMethodProxySafe method then [] else [("X-HTTP-Method-Override", FText method)].

Definition method_of el (o : ajax_options) : string := upper (or_else (getAttribute el "data-ajax-method") (o_type o)).

Definition request_of el (o : ajax_options) : ajax_options :=
  let m := or_else (getAttribute el "data-ajax-method") (o_type o) in
  AjaxOptions (if isMethodProxySafe (upper m) then m else "POST")
    (or_else (getAttribute el "data-ajax-url") (o_url o))
    (match given (getAttribute el "data-ajax-cache") with Some _ => true | None => false end)
    (o_fields o ++ override_fields (upper m)).

Definition begin_of el : callee object := getFunction W (getAttribute el "data-ajax-begin") ["xhr"].
Definition loading el : option string * Z :=
  (getAttribute el "data-ajax-loading", parse_duration (getAttribute el "data-ajax-loading-duration")).

(** What a request logs: it is asked for, its header is set, the function of the page
    is called, and unless that returns [false] it is sent. *)
Definition asked el : list (ajax_action object) :=
  match given (getAttribute el "data-ajax-confirm") with Some m => [Asked m] | None => [] end.
Definition goes el (confirmed : bool) : bool :=
  match given (getAttribute el "data-ajax-confirm") with Some _ => confirmed | None => true end && negb (returns_false (begin_of el)).
Definition request_actions el (o : ajax_options) (confirmed : bool) : list (ajax_action object) :=
  asked el ++
  (if match given (getAttribute el "data-ajax-confirm") with Some _ => confirmed | None => true end then
     override_actions (method_of el o) ++ Called (begin_of el) ::
     (if returns_false (begin_of el) then [] else [Shown (loading el).1 (loading el).2; Sent el (request_of el o)])
   else []).

Lemma ajax_does el method o s :
  does (override_actions method ++ Called (begin_of el) ::
        (if returns_false (begin_of el) then [] else [Shown (loading el).1 (loading el).2; Sent el o])) s (ajax W returns_false el method o s) ∧
  on_way (ajax W returns_false el method o s) = on_way s ++ (if returns_false (begin_of el) then [] else [el]).
Proof.
  unfold ajax, beforeSend. fold (begin_of el). unfold asyncOnBeforeSend, override_actions.
  destruct (isMethodProxySafe method), (returns_false (begin_of el)); simpl; (split; [split; simpl; try done; by rewrite <- ?app_assoc | by rewrite ?app_nil_r]).
Qed.

Lemma asyncRequest_does el o confirmed s :
  does (request_actions el o confirmed) s (asyncRequest W returns_false el o confirmed s) ∧
  on_way (asyncRequest W returns_false el o confirmed s) = on_way s ++ (if goes el confirmed then [el] else []).
Proof.
  assert (Hr : ∀ s0, let s' := ajax W returns_false el (method_of el o) (override (method_of el o) (push_field ("X-Requested-With", FText "XMLHttpRequest") (extended el o))) s0 in
    does (override_actions (method_of el o) ++ Called (begin_of el) ::
      (if returns_false (begin_of el) then [] else [Shown (loading el).1 (loading el).2; Sent el (request_of el o)])) s0 s' ∧
    on_way s' = on_way s0 ++ (if returns_false (begin_of el) then [] else [el])).
  { intros s0 s'. unfold s'. replace (request_of el o) with (override (method_of el o) (push_field ("X-Requested-With", FText "XMLHttpRequest") (extended el o))); [apply ajax_does|].
    unfold override, request_of, override_fields, method_of. simpl. destruct (isMethodProxySafe _); simpl; unfold push_field; simpl; f_equal.
    by rewrite <- app_assoc. }
  unfold asyncRequest, request_actions, asked, goes. destruct (given (getAttribute el "data-ajax-confirm")) as [m|]; [|].
  - destruct confirmed; simpl.
    + destruct (Hr (act (Asked m) s)) as [H1 H2]. split; [eapply (does_trans [Asked m]); [apply does_act | exact H1]|].
      unfold method_of in H2 at 1 2. simpl in H2. etrans; [exact H2|]. simpl. by destruct (returns_false _).
    + split; [apply does_act | by rewrite app_nil_r].
  - destruct (Hr s) as [H1 H2]. split; [exact H1|]. etrans; [exact H2|]. simpl. by destruct (returns_false _).
Qed.
End requests.

Lemma override_protocol m : protocol (override_fields m).
Proof.
  apply Forall_cons. split; [by left|]. destruct (isMethodProxySafe m); [constructor|].
  apply Forall_cons. split; [by right | constructor].
Qed.

Section replies.
Context {object : Type} (W : scripts object).
Implicit Types (s : ajax_site object) (el : ajax_element).

(** What the callbacks of a request log. *)
Definition callback_names (r : reply) : string * list string :=
  match r with
  | Succeeded _ _ _ => ("data-ajax-success", ["data"; "status"; "xhr"])
  | Failed => ("data-ajax-failure", ["xhr"; "status"; "error"])
  end.
Definition insertions el (r : reply) : list (ajax_action object) :=
  match r with
  | Succeeded contentType content updates =>
      if contains (chars_of "application/x-javascript") (chars_of (or_else contentType "text/html")) then []
      else (λ target, Inserted (insertion_of (upper (default "" (getAttribute el "data-ajax-mode")))) target content) <$> updates
  | Failed => []
  end.
Definition reply_actions el (r : reply) : list (ajax_action object) :=
  insertions el r ++
  [Called (getFunction W (getAttribute el (callback_names r).1) (callback_names r).2);
   Hidden (loading el).1 (loading el).2;
   Called (getFunction W (getAttribute el "data-ajax-complete") ["xhr"; "status"])].

Lemma fold_act_does {A} (f : A → ajax_action object) l s :
  does (f <$> l) s (fold_left (λ s x, act (f x) s) l s) ∧ on_way (fold_left (λ s x, act (f x) s) l s) = on_way s.
Proof.
  revert s. induction l as [|x l IH]; intros s; simpl; [split; [apply does_nothing | done]|].
  destruct (IH (act (f x) s)) as [H1 H2]. split; [|done]. eapply (does_trans [f x]); [apply does_act | exact H1].
Qed.

Lemma answered_does el r s :
  does (reply_actions el r) s (answered W el r s) ∧ on_way (answered W el r s) = on_way s.
Proof.
  unfold answered, reply_actions.
  assert (Hi : ∀ s0, let s1 := match r with Succeeded c d u => asyncOnSuccess el d (or_else c "text/html") u s0 | Failed => s0 end in
    does (insertions el r) s0 s1 ∧ on_way s1 = on_way s0).
  { intros s0. destruct r as [c d u|]; simpl; [|split; [apply does_nothing | done]]. unfold asyncOnSuccess.
    destruct (contains _ _); [split; [apply does_nothing | done] | apply fold_act_does]. }
  destruct (Hi s) as [H1 H2]. set (s1 := match r with Succeeded c d u => asyncOnSuccess el d (or_else c "text/html") u s | Failed => s end) in *.
  assert (Hs : answered W el r s = complete W el (act (Called (getFunction W (getAttribute el (callback_names r).1) (callback_names r).2)) s1)) by by destruct r.
  unfold answered in Hs. rewrite Hs. split; [|exact H2]. eapply does_trans; [exact H1|].
  eapply (does_trans [_]); [apply does_act|]. eapply (does_trans [_]); [apply does_act|]. apply does_act.
Qed.

Lemma reply_not_sent el r a : a ∈ reply_actions el r → ¬ is_sent a.
Proof.
  unfold reply_actions, insertions. intros [Hin|Hin]%elem_of_app.
  - destruct r as [c d u|]; [|by apply elem_of_nil in Hin]. destruct (contains _ _); [by apply elem_of_nil in Hin|].
    apply list_elem_of_fmap in Hin as (t & -> & _). by intros [].
  - repeat (apply elem_of_cons in Hin as [->|Hin]; [by intros []|]). by apply elem_of_nil in Hin.
Qed.
End replies.

Lemma request_fields el o :
  o_fields (request_of el o) = o_fields o ++ override_fields (method_of el o).
Proof. reflexivity. Qed.

Lemma asked_not_sent {object} el el' o : Sent el' o ∉ (asked el : list (ajax_action object)).
Proof.
  unfold asked. destruct (given _); [by intros ?%list_elem_of_singleton | by intros ?%elem_of_nil].
Qed.
Lemma override_not_sent {object} m el' o : Sent el' o ∉ (override_actions m : list (ajax_action object)).
Proof.
  unfold override_actions. destruct (isMethodProxySafe m); [by intros ?%elem_of_nil | by intros ?%list_elem_of_singleton].
Qed.

(** A request that is sent was agreed to and begun. *)
Lemma request_goes {object} (W : scripts object) rf el o c el' o' :
  Sent el' o' ∈ request_actions W rf el o c →
  rf (begin_of W el) = false ∧
  request_actions W rf el o c =
    asked el ++ override_actions (method_of el o) ++ [Called (begin_of W el); Shown (loading el).1 (loading el).2; Sent el (request_of el o)].
Proof.
  unfold request_actions. set (agreed := match given _ with Some _ => _ | None => _ end).
  intros [Hin|Hin]%elem_of_app; [by destruct (asked_not_sent _ _ _ Hin)|].
  destruct agreed; [|by apply elem_of_nil in Hin]. apply elem_of_app in Hin as [Hin|Hin]; [by destruct (override_not_sent _ _ _ Hin)|].
  destruct (rf _); [|done]. apply elem_of_cons in Hin as [|Hin]; [done | by apply elem_of_nil in Hin].
Qed.

Lemma request_sent {object} (W : scripts object) rf el o c el' o' :
  Sent el' o' ∈ request_actions W rf el o c → el' = el ∧ o' = request_of el o.
Proof.
  intros Hin. destruct (request_goes _ _ _ _ _ _ _ Hin) as [_ Er]. rewrite Er in Hin.
  apply elem_of_app in Hin as [Hin|Hin]; [by destruct (asked_not_sent _ _ _ Hin)|].
  apply elem_of_app in Hin as [Hin|Hin]; [by destruct (override_not_sent _ _ _ Hin)|].
  do 2 (apply elem_of_cons in Hin as [|Hin]; [done|]). apply list_elem_of_singleton in Hin. by injection Hin.
Qed.

(** ** Histories of a form with a validator *)

(** The answers of the server to remote rules: the field, the data, the verdict. *)
Abbreviation verdicts := (list (string * list (string * jval) * bool)).

Section history.
Context {object : Type} (W : scripts object) (returns_false : callee object → bool).
Context (el : ajax_element) (E : environment) (button_value : string → string) (S0 : settings).
Implicit Types (s : ajax_site object).

#[local] Abbreviation step := (ajax_step W returns_false el E button_value true).
#[local] Abbreviation run := (ajax_run W returns_false el E button_value true).

Definition ajax_answer_of ev s : verdicts := match ev with Form ev _ => answer_of (form_of s) ev | _ => [] end.
Fixpoint ajax_answers (evs : list ajax_event) s : verdicts :=
  match evs with [] => [] | ev :: evs' => ajax_answer_of ev s ++ ajax_answers evs' (step ev s) end.

(** The fields a click adds to the submission that follows it. *)
Definition click_fields (ev : ajax_event) : option (list field) :=
  let s := ajax_start (object := unit) (initial [] default_settings) in
  match ev with
  | ClickImage name x y l t => click_info (click_image name x y l t s)
  | ClickButton name value _ classes => click_info (click_button name value classes s)
  | _ => None
  end.
Definition cancels (ev : ajax_event) : Prop := match ev with ClickButton _ _ cancel _ => cancel = true | _ => False end.

Definition cancel_class (ev : ajax_event) : Prop :=
  match ev with ClickButton _ _ _ classes => "cancel" ∈ classes | _ => False end.

(** Every element that is validated passes its rules, or passes them up to a remote one
    that waits for the server. *)
Definition accepted (acc : verdicts) (q : page) : Prop :=
  ∃ v pend, same_settings S0 (v_settings v) ∧ same_fields S0 q (v_page v) ∧
    ∀ i, i ∈ snd (elements E v) → ∃ t, passes E acc pend S0 q i t ∨ waits E acc pend S0 q i t.

(** The fields of the form that were sent: the validator's handler let them through, and
    so did this one's own question to the validator. *)
Inductive sent_fields (evs : list ajax_event) (acc : verdicts) (v : validator) (fields : list field) : Prop :=
  | sent_form w q hidden :
      Submitted w q hidden ∈ outputs v →
      fields = serializeArray q ++ hidden_fields button_value hidden →
      (w = Validated → page_ok E S0 acc q) →
      (w = Unvalidated → ∃ ev, ev ∈ evs ∧ cancels ev) →
      accepted acc q ∨ (∃ ev, ev ∈ evs ∧ cancel_class ev) →
      sent_fields evs acc v fields.

Inductive sent_ok (evs : list ajax_event) (acc : verdicts) (v : validator) (el' : ajax_element) (o : ajax_options) : Prop :=
  | sent_link confirmed :
      ClickLink el' confirmed ∈ evs → protocol (o_fields o) → sent_ok evs acc v el' o
  | sent_from_form info fields added :
      el' = el → o_fields o = info ++ fields ++ added → protocol added →
      (info = [] ∨ ∃ ev, ev ∈ evs ∧ click_fields ev = Some info) →
      sent_fields evs acc v fields → sent_ok evs acc v el' o.

Record ajax_ok (evs : list ajax_event) (acc : verdicts) s : Prop := {
  ao_good : good E S0 acc (form_of s);
  ao_cancel : cancelSubmit (form_of s) = true → ∃ ev, ev ∈ evs ∧ cancels ev;
  ao_outputs q h : Submitted Unvalidated q h ∈ outputs (form_of s) → ∃ ev, ev ∈ evs ∧ cancels ev;
  ao_info info : click_info s = Some info → ∃ ev, ev ∈ evs ∧ click_fields ev = Some info;
  ao_target : is_cancel s = true → ∃ ev, ev ∈ evs ∧ cancel_class ev;
  ao_sent el' o : Sent el' o ∈ ajax_log s → sent_ok evs acc (form_of s) el' o
}.

Lemma accepted_more acc acc' q : acc ⊆ acc' → accepted acc q → accepted acc' q.
Proof.
  intros Ha (v & pend & H1 & H2 & H3). exists v, pend. split; [done|]. split; [done|]. intros i Hi.
  assert (Hall : ∀ val t e rs, all_accept E acc pend S0 q val t e rs → all_accept E acc' pend S0 q val t e rs).
  { intros val t e rs H r Hr. destruct (H r Hr) as (q' & Hq & Hacc). exists q'. split; [done|].
    revert Hacc. unfold accepts_rule. destruct (obj_get _ _) as [[]|]; naive_solver. }
  destruct (H3 i Hi) as (t & Ht). exists t.
  destruct Ht as [Ht|Ht]; [left | right]; (eapply (judged_same E S0 q q); [done| |exact Ht]); cbv beta; [intros; by apply Hall|].
  intros val e rs (pre & r & post & -> & Hpre & Hr). exists pre, r, post. split; [done|]. by split; [apply Hall|].
Qed.

(** The question to the validator. *)
Lemma accepted_form acc q v v' :
  good E S0 acc v → same_fields S0 q (v_page v) → form E v = (v', Some true) → accepted acc q.
Proof.
  intros Hg Hq Hf. pose proof (g_settings _ _ _ _ Hg) as HS.
  destruct (form_spec E acc v v' _ (g_inv _ _ _ _ Hg) Hf) as (_ & _ & _ & _ & _ & _ & _ & Hrep & Hb).
  rewrite (proj1 Hb eq_refl) in Hrep. set (pend := pending (req v')) in *.
  exists v, pend. split; [done|]. split; [done|]. intros i Hi.
  assert (H : ∃ t, passes E acc pend (v_settings v) (v_page v) i t ∨ waits E acc pend (v_settings v) (v_page v) i t).
  { clear -Hrep Hi. remember ([] : list error) as errs eqn:He. induction Hrep; simplify_eq; [by apply elem_of_nil in Hi|..];
      (apply elem_of_cons in Hi as [->|Hi]; [eauto | by apply IHHrep]). }
  assert (Hq' : same_fields (v_settings v) q (v_page v)) by by eapply same_fields_settings.
  rewrite (same_settings_spec _ _ HS) in *. destruct H as (t & H). exists t.
  destruct H as [H|H]; [left; by eapply passes_mono | right; by eapply waits_mono].
Qed.

Lemma sent_ok_more evs evs' acc acc' v v' el' o :
  evs ⊆ evs' → acc ⊆ acc' → outputs v ⊆ outputs v' → sent_ok evs acc v el' o → sent_ok evs' acc' v' el' o.
Proof.
  intros He Ha Hv [confirmed Hin Hp|info fields added -> Ef Hp Hi [w q h Hin Hf Hw Hu Hown]].
  - eapply sent_link; [by apply He | done].
  - eapply sent_from_form; [done|done|done| |].
    + destruct Hi as [|(ev & Hev & Ec)]; [by left | right]. exists ev. by split; [apply He|].
    + eapply (sent_form _ _ _ _ w q h); [by apply Hv | done | | |].
      * intros Hw'. eapply page_ok_more; [done | by apply Hw].
      * intros Hw'. destruct (Hu Hw') as (ev & Hev & Ec). exists ev. by split; [apply He|].
      * destruct Hown as [Hown|(ev & Hev & Ec)]; [left; by eapply accepted_more | right].
        exists ev. by split; [apply He|].
Qed.

Lemma ajax_ok_more evs evs' acc acc' s : evs ⊆ evs' → acc ⊆ acc' → ajax_ok evs acc s → ajax_ok evs' acc' s.
Proof.
  intros He Ha []. assert (Hex : ∀ P : ajax_event → Prop, (∃ ev, ev ∈ evs ∧ P ev) → ∃ ev, ev ∈ evs' ∧ P ev).
  { intros P (ev & Hev & HP). exists ev. by split; [apply He|]. }
  split; eauto; [by eapply good_more|]. intros el' o Hin. by eapply sent_ok_more; [| | |apply ao_sent0].
Qed.

(** A handler that changes the log, which then tells of good requests only. *)
Lemma ajax_ok_does evs acc l s s' :
  does l s s' → (∀ el' o, Sent el' o ∈ l → sent_ok evs acc (form_of s) el' o) → ajax_ok evs acc s → ajax_ok evs acc s'.
Proof.
  intros [H1 H2 H3 H4 H5] Hl []. split; unfold is_cancel; rewrite ?H1, ?H2, ?H3, ?H4; try done.
  intros el' o [Hin|Hin]%elem_of_app; [by apply ao_sent0 | by apply Hl].
Qed.

(** The validator goes on. *)
Lemma ajax_ok_form evs acc v s :
  good E S0 acc v → went S0 (form_of s) v → ajax_ok evs acc s → ajax_ok evs acc (set_form v s).
Proof.
  intros Hg (l & [Ho Hc Hu _ _]) []. split; simpl; [done|auto| |done|done|].
  - intros q h. rewrite Ho. intros [Hin|Hin]%elem_of_app; eauto.
  - intros el' o Hin. eapply sent_ok_more; [done|done| |by apply ao_sent0]. rewrite Ho. set_solver.
Qed.

(** What is asked for the fields [q], once they are accepted. *)
Lemma ajax_ok_request evs acc w q h confirmed m s :
  Submitted w q h ∈ outputs (form_of s) → accepted acc q ∨ (∃ ev, ev ∈ evs ∧ cancel_class ev) → ajax_ok evs acc s →
  let o := AjaxOptions m (a_url el) false (default [] (click_info s) ++ serializeArray q ++ hidden_fields button_value h) in
  ajax_ok evs acc (asyncRequest W returns_false el o confirmed s).
Proof.
  intros Hin Hown Hok o. destruct (asyncRequest_does W returns_false el o confirmed s) as [Hd _].
  eapply ajax_ok_does; [exact Hd| |done]. intros el' o' Hs. apply request_sent in Hs as [-> ->].
  eapply (sent_from_form _ _ _ _ _ (default [] (click_info s)) (serializeArray q ++ hidden_fields button_value h)).
  - reflexivity.
  - rewrite request_fields. unfold o, o_fields. rewrite <- app_assoc. reflexivity.
  - apply override_protocol.
  - destruct (click_info s) as [i|] eqn:Ei; [right; by apply (ao_info _ _ _ Hok) | by left].
  - eapply (sent_form _ _ _ _ w q h); [done | done | | |done].
    + intros ->. by eapply (g_outputs _ _ _ _ (ao_good _ _ _ Hok)).
    + intros ->. by eapply (ao_outputs _ _ _ Hok).
Qed.

(** The handler keeps the validator but for what its own question changes. *)
Definition keeps s s' : Prop :=
  outputs (form_of s) ⊆ outputs (form_of s') ∧ same_fields S0 (v_page (form_of s)) (v_page (form_of s')).

Lemma ajax_ok_submit evs acc w q h confirmed s :
  Submitted w q h ∈ outputs (form_of s) → same_fields S0 q (v_page (form_of s)) → ajax_ok evs acc s →
  let s' := on_form_submit W returns_false el E button_value true q h confirmed s in
  ajax_ok evs acc s' ∧ keeps s s'.
Proof.
  intros Hin Hq Hok. set (s0 := act Prevented s).
  assert (H0 : ajax_ok evs acc s0).
  { eapply ajax_ok_does; [apply does_act| |done]. by intros el' o ?%list_elem_of_singleton. }
  assert (Hk : ∀ o s1, keeps s s1 → keeps s (asyncRequest W returns_false el o confirmed s1)).
  { intros o s1 H. destruct (asyncRequest_does W returns_false el o confirmed s1) as [Hd _].
    unfold keeps. by rewrite (do_form _ _ _ Hd). }
  unfold on_form_submit. fold s0. destruct (is_cancel s) eqn:Ec.
  - split; [|by apply Hk]. apply (ajax_ok_request _ _ w q h confirmed _ s0); [done| |done]. right. by apply (ao_target _ _ _ Hok).
  - unfold validate_form. pose proof (ao_good _ _ _ H0) as Hg. pose proof (good_form E S0 acc _ Hg) as Hg'.
    pose proof (stays_form E S0 acc _ Hg) as Hs. destruct (form E (form_of s0)) as [v b] eqn:Hf. simpl in Hg', Hs.
    assert (H1 : ajax_ok evs acc (set_form v s0)) by (apply ajax_ok_form; [done | by apply stays_went | done]).
    assert (Hkv : keeps s (set_form v s0)).
    { destruct Hs as (l & [Ho _ _ Hp _] & _). split; [|done]. simpl. rewrite Ho. intros x Hx. apply elem_of_app. by right. }
    destruct b as [[]|]; [|by split..]. split; [|by apply Hk].
    apply (ajax_ok_request _ _ w q h confirmed _ (set_form v s0)); [by apply Hkv | left; exact (accepted_form acc q _ _ Hg Hq Hf) | done].
Qed.

Lemma passed_in v v' q h :
  went S0 v v' → (q, h) ∈ passed v v' → (∃ w, Submitted w q h ∈ outputs v') ∧ same_fields S0 q (v_page v').
Proof.
  intros (l & [Ho _ _ _ Hl]). unfold passed. rewrite Ho, list_elem_of_omap.
  replace (length (l ++ outputs v) - length (outputs v)) with (length l) by (rewrite length_app; lia).
  rewrite take_app_length. intros (x & Hin & E0). destruct x as [w q' h'| |]; simplify_eq.
  apply list_elem_of_In, in_rev, list_elem_of_In in Hin. split; [|by eapply Hl].
  exists w. apply elem_of_app. by left.
Qed.

Lemma ajax_ok_passed evs acc l confirmed s :
  (∀ q h, (q, h) ∈ l → (∃ w, Submitted w q h ∈ outputs (form_of s)) ∧ same_fields S0 q (v_page (form_of s))) → ajax_ok evs acc s →
  ajax_ok evs acc (fold_left (λ s '(q, h), on_form_submit W returns_false el E button_value true q h confirmed s) l s).
Proof.
  revert s. induction l as [|[q h] l IH]; intros s Hl Hok; [done|]. cbn [fold_left].
  destruct (Hl q h) as [[w Hw] Hq]; [apply list_elem_of_here|].
  destruct (ajax_ok_submit evs acc w q h confirmed s Hw Hq Hok) as [H1 [Hsub Hp]]. apply IH; [|done].
  intros q' h' Hin. destruct (Hl q' h') as [[w' Hw'] Hq']; [by apply list_elem_of_further|].
  split; [exists w'; by apply Hsub | by etrans].
Qed.

Lemma ajax_ok_step evs acc ev s :
  ajax_ok evs acc s → ajax_ok (evs ++ [ev]) (ajax_answer_of ev s ++ acc) (step ev s).
Proof.
  intros Hok. assert (Hm : ∀ acc', acc ⊆ acc' → ajax_ok (evs ++ [ev]) acc' s).
  { intros acc' Ha. eapply ajax_ok_more; [|done|done]. set_solver. }
  assert (Hev : ev ∈ evs ++ [ev]) by set_solver.
  destruct ev as [el' c|name x y l t|name value cancel classes|ev c| |k r]; cbn [step ajax_step ajax_answer_of app].
  - assert (H0 : ajax_ok (evs ++ [ClickLink el' c]) acc (act Prevented s)).
    { eapply ajax_ok_does; [apply does_act| |by apply Hm]. by intros ? ? ?%list_elem_of_singleton. }
    destruct (asyncRequest_does W returns_false el' (AjaxOptions "GET" (a_url el') false []) c (act Prevented s)) as [Hd _].
    eapply ajax_ok_does; [exact Hd| |done]. intros el0 o Hs. apply request_sent in Hs as [-> ->].
    apply (sent_link _ _ _ _ _ c); [done|]. rewrite request_fields. apply override_protocol.
  - destruct (Hm acc) as []; [done|]. split; try done. intros info [= <-]. exists (ClickImage name x y l t). by split.
  - assert (H0 : ajax_ok (evs ++ [ClickButton name value cancel classes]) acc (set_form (click_submit name cancel (form_of s)) s)).
    { destruct (Hm acc) as []; [done|]. split; simpl; try done.
      - apply (good_react E S0 acc (ClickSubmit name cancel) (form_of s)). done.
      - unfold click_submit. destruct cancel; [|done]. intros _. by exists (ClickButton name value true classes).
      - unfold click_submit. by destruct cancel.
      - intros el0 o Hin. eapply sent_ok_more; [done|done| |by apply ao_sent0]. unfold click_submit. by destruct cancel. }
    destruct H0. split; try done; [intros info [= <-] | intros Hc%bool_decide_eq_true]; exists (ClickButton name value cancel classes); by split.
  - assert (H0 : match ev with ClickSubmit _ _ | Edit _ _ _ _ _ => False | _ => True end →
      ajax_ok (evs ++ [Form ev c]) (answer_of (form_of s) ev ++ acc) (on_form W returns_false el E button_value true ev c s)).
    { intros Hev'. pose proof (Hm acc (reflexivity acc)) as Hok'. unfold on_form.
      assert (Hw : went S0 (form_of s) (react E ev (form_of s))) by (eapply went_react; [apply Hok' | done]).
      apply ajax_ok_passed; [intros q h; by apply passed_in|]. apply ajax_ok_form; [by apply good_react, Hok' | done|].
      apply Hm. intros x Hx. apply elem_of_app. by right. }
    destruct ev as [i value sel chk bad| | | | | | | | | | |]; try (exact (H0 I)); [|by apply Hm].
    simpl. unfold on_form, passed. cbv zeta. rewrite Nat.sub_diag. simpl. destruct (Hm acc) as [Hg]; [done|]. split; simpl; try done.
    + by apply (good_react E S0 acc (Edit i value sel chk bad) (form_of s)).
    + intros el' o Hin. eapply (sent_ok_more _ _ acc acc (form_of s)); [done|done|done|by apply ao_sent0].
  - unfold clean_up. destruct (cleanups s) as [|b cs]; [by apply Hm|]. destruct (Hm acc) as []; [done|]. split; try done.
    destruct b; [done | exact ao_target0].
  - destruct (on_way s !! k) as [el'|]; [|by apply Hm].
    destruct (answered_does W el' r (set_on_way (delete k (on_way s)) s)) as [Hd _].
    eapply ajax_ok_does; [exact Hd| |by destruct (Hm acc) as []].
    intros el0 o Hs. by destruct (reply_not_sent W el' r _ Hs).
Qed.

Lemma ajax_ok_run evs0 evs acc s :
  ajax_ok evs0 acc s → ajax_ok (evs0 ++ evs) (ajax_answers evs s ++ acc) (run evs s).
Proof.
  revert evs0 acc s. induction evs as [|ev evs IH]; intros evs0 acc s Hok; [by rewrite app_nil_r|].
  specialize (IH _ _ _ (ajax_ok_step evs0 acc ev s Hok)). rewrite <- app_assoc in IH.
  eapply ajax_ok_more; [done| |exact IH]. intros x. cbn [ajax_answers]. rewrite !elem_of_app. tauto.
Qed.

(** C40. What a form sends by a request has been validated, twice, whatever the user, the
    page and the server do.  The data of every request sent is that of a link, without
    fields of the form, or what a click left, followed by the form's fields at a moment
    when the validator's own handler let a submission through, and then the code's two
    fields.  Unless a button with the class cancel was clicked (the class of the element
    the click came from), each element that [elements()] selects passes its rules at that
    moment, up to a remote rule that waits for the server: this handler asks the validator
    too.  If the validator's handler let the submission through as validated, they pass all
    their rules, the remote ones by an answer of the server; if it did not validate, a
    cancelling button was clicked; nothing more is said when an exception left it.  Fields
    that share a name must be radio buttons or checkboxes. *)
Theorem ajax_sends_validated (p : page) evs el' o :
  let s := run evs (ajax_start (initial p S0)) in
  distinct_names p → Sent el' o ∈ ajax_log s →
  sent_ok evs (ajax_answers evs (ajax_start (initial p S0))) (form_of s) el' o.
Proof.
  intros s Hd Hin. assert (H0 : ajax_ok [] [] (ajax_start (object := object) (initial p S0))).
  { split; simpl; try done; [by apply good_initial | by intros ? ? ?%elem_of_nil | by intros ? ? ?%elem_of_nil]. }
  pose proof (ajax_ok_run [] evs [] _ H0) as H. rewrite app_nil_r in H. by apply (ao_sent _ _ _ H).
Qed.
End history.

(** ** Every request, and its answer *)

Section requests_of_history.
Context {object : Type} (W : scripts object) (returns_false : callee object → bool).
Context (el : ajax_element) (E : environment) (button_value : string → string) (parsed : bool).
Implicit Types (s : ajax_site object).

Inductive proceeds s s' : Prop :=
  | proceeds_same : ajax_log s' = ajax_log s → on_way s' = on_way s → proceeds s s'
  | proceeds_prevented : ajax_log s' = ajax_log s ++ [Prevented] → on_way s' = on_way s → proceeds s s'
  | proceeds_request el' o c :
      o_type o = "GET" ∨ o_type o = a_method el' → o_url o = a_url el' →
      ajax_log s' = ajax_log s ++ request_actions W returns_false el' o c →
      on_way s' = on_way s ++ (if goes W returns_false el' c then [el'] else []) → proceeds s s'
  | proceeds_reply k el' r :
      on_way s !! k = Some el' → ajax_log s' = ajax_log s ++ reply_actions W el' r →
      on_way s' = delete k (on_way s) → proceeds s s'.

Lemma request_proceeds el' o c s :
  o_type o = "GET" ∨ o_type o = a_method el' → o_url o = a_url el' →
  proceeds s (asyncRequest W returns_false el' o c s).
Proof.
  intros Ho Hu. destruct (asyncRequest_does W returns_false el' o c s) as [[] Hw]. by eapply proceeds_request.
Qed.

Lemma submit_proceeds q h c s : rtc proceeds s (on_form_submit W returns_false el E button_value parsed q h c s).
Proof.
  unfold on_form_submit. eapply (rtc_l _ _ (act Prevented s)); [by apply proceeds_prevented|].
  assert (Hv : proceeds (act Prevented s) (fst (validate_form E parsed (act Prevented s)))).
  { unfold validate_form. destruct parsed; [|by apply proceeds_same].
    destruct (form E (form_of (act Prevented s))) as [v [b|]]; by apply proceeds_same. }
  set (ty := if bool_decide (a_method el = "") then _ else _).
  assert (Ht : ty = "GET" ∨ ty = a_method el) by (unfold ty; destruct (bool_decide _); auto).
  destruct (is_cancel s); [by apply rtc_once, request_proceeds|].
  destruct (validate_form E parsed (act Prevented s)) as [s1 []]; simpl in Hv.
  - eapply rtc_l; [exact Hv|]. by apply rtc_once, request_proceeds.
  - by apply rtc_once.
Qed.

Lemma form_proceeds ev c s : rtc proceeds s (on_form W returns_false el E button_value parsed ev c s).
Proof.
  unfold on_form. destruct parsed eqn:Hp; rewrite <- Hp in *.
  - assert (Hl : ∀ l s0, rtc proceeds s0 (fold_left (λ s '(q, h), on_form_submit W returns_false el E button_value parsed q h c s) l s0)).
    { induction l as [|[q h] l IH]; intros s0; simpl; [done|]. etrans; [apply submit_proceeds | apply IH]. }
    eapply rtc_l; [|apply Hl]. by apply proceeds_same.
  - destruct ev; try (by apply rtc_once, proceeds_same). apply submit_proceeds.
Qed.

Lemma step_proceeds ev s : rtc proceeds s (ajax_step W returns_false el E button_value parsed ev s).
Proof.
  destruct ev as [el' c|name x y l t|name value cancel classes|ev c| |k r]; simpl.
  - eapply (rtc_l _ _ (act Prevented s)); [by apply proceeds_prevented|]. apply rtc_once, request_proceeds; [by left | done].
  - by apply rtc_once, proceeds_same.
  - apply rtc_once, proceeds_same; by destruct parsed.
  - destruct ev; try apply form_proceeds. by apply rtc_once, proceeds_same.
  - apply rtc_once. unfold clean_up. destruct (cleanups s); by apply proceeds_same.
  - destruct (on_way s !! k) as [el'|] eqn:Ek; [|by apply rtc_once, proceeds_same].
    destruct (answered_does W el' r (set_on_way (delete k (on_way s)) s)) as [[] Hw].
    apply rtc_once. by eapply (proceeds_reply _ _ k el' r).
Qed.

Lemma run_proceeds evs s : rtc proceeds s (ajax_run W returns_false el E button_value parsed evs s).
Proof.
  unfold ajax_run. revert s. induction evs as [|ev evs IH]; intros s; simpl; [done|].
  etrans; [apply step_proceeds | apply IH].
Qed.
End requests_of_history.

Section every_request.
Context {object : Type} (W : scripts object) (returns_false : callee object → bool).
Context (el : ajax_element) (E : environment) (button_value : string → string) (parsed : bool).

Definition shows (x : option string * Z) (a : ajax_action object) : Prop :=
  match a with Shown sel d => (sel, d) = x | _ => False end.
Definition hides (x : option string * Z) (a : ajax_action object) : Prop :=
  match a with Hidden sel d => (sel, d) = x | _ => False end.
#[local] Instance shows_dec x a : Decision (shows x a).
Proof. destruct a; simpl; apply _. Defined.
#[local] Instance hides_dec x a : Decision (hides x a).
Proof. destruct a; simpl; apply _. Defined.
Definition count_shown x (l : list (ajax_action object)) : nat := length (filter (shows x) l).
Definition count_hidden x (l : list (ajax_action object)) : nat := length (filter (hides x) l).
Definition loading_now x (l : list ajax_element) : nat := length (filter (λ el, loading el = x) l).

Lemma count_app x l l' :
  count_shown x (l ++ l') = count_shown x l + count_shown x l' ∧ count_hidden x (l ++ l') = count_hidden x l + count_hidden x l'.
Proof. unfold count_shown, count_hidden. by rewrite !filter_app, !length_app. Qed.

Lemma count_none x l :
  Forall (λ a, match a with Shown _ _ | Hidden _ _ => False | _ => True end) l → count_shown x l = 0 ∧ count_hidden x l = 0.
Proof.
  unfold count_shown, count_hidden. induction 1 as [|a l Ha _ IH]; [done|].
  rewrite !filter_cons_False by (by intros ?; destruct a). done.
Qed.

Lemma count_request x el' o c :
  let l := request_actions W returns_false el' o c in
  count_shown x l = loading_now x (if goes W returns_false el' c then [el'] else []) ∧ count_hidden x l = 0.
Proof.
  assert (Ho : ∀ m, Forall (λ a, match a with Shown _ _ | Hidden _ _ => False | _ => True end) (override_actions (object := object) m)).
  { intros m. unfold override_actions. destruct (isMethodProxySafe m); by repeat constructor. }
  assert (Hs : ∀ b : bool, let l := override_actions (method_of el' o) ++ Called (begin_of W el') ::
      (if b then [] else [Shown (loading el').1 (loading el').2; Sent el' (request_of el' o)]) in
    count_shown x l = loading_now x (if b then [] else [el']) ∧ count_hidden x l = 0).
  { intros b l. unfold l. destruct (count_app x (override_actions (method_of el' o)) (Called (begin_of W el') ::
      (if b then [] else [Shown (loading el').1 (loading el').2; Sent el' (request_of el' o)]))) as [-> ->].
    destruct (count_none x _ (Ho (method_of el' o))) as [-> ->]. unfold count_shown, count_hidden, loading_now.
    destruct b; [done|]. destruct (loading el') as [sel d] eqn:El. cbn. rewrite El.
    by destruct (decide ((sel, d) = x)). }
  unfold request_actions, goes, asked. destruct (given _) as [m|]; [destruct c|].
  - destruct (count_app x [Asked m] (override_actions (method_of el' o) ++ Called (begin_of W el') ::
      (if returns_false (begin_of W el') then [] else [Shown (loading el').1 (loading el').2; Sent el' (request_of el' o)]))) as [-> ->].
    destruct (Hs (returns_false (begin_of W el'))) as [-> ->]. by destruct (returns_false _).
  - done.
  - cbn [app]. destruct (Hs (returns_false (begin_of W el'))) as [-> ->]. by destruct (returns_false _).
Qed.

Lemma count_reply x el' r :
  let l := reply_actions W el' r in count_shown x l = 0 ∧ count_hidden x l = loading_now x [el'].
Proof.
  intros l. unfold l, reply_actions.
  assert (Hi : Forall (λ a, match a with Shown _ _ | Hidden _ _ => False | _ => True end) (insertions (object := object) el' r)).
  { destruct r as [ct d u|]; [|constructor]. simpl. destruct (contains _ _); [constructor|]. by apply Forall_fmap, Forall_true. }
  match goal with |- context [insertions el' r ++ ?l'] => destruct (count_app x (insertions el' r) l') as [-> ->] end.
  destruct (count_none x _ Hi) as [-> ->]. unfold count_shown, count_hidden, loading_now.
  destruct (loading el') as [sel d] eqn:El. cbn. rewrite El. split; [done|].
  destruct (decide ((sel, d) = x)); done.
Qed.

(** The element that shows that a request is on its way is hidden as often as it was
    shown: over any history the number of times a loading element has been shown is the
    number of times it has been hidden plus the number of requests that are still on their
    way, whether these succeed or fail and in whatever order they are answered. *)
Theorem loading_balanced evs v x :
  let s := ajax_run W returns_false el E button_value parsed evs (ajax_start v) in
  count_shown x (ajax_log s) = count_hidden x (ajax_log s) + loading_now x (on_way s).
Proof.
  set (s0 := ajax_start v). intros s.
  assert (H : ∀ s1 s2, proceeds W returns_false s1 s2 →
    count_shown x (ajax_log s1) = count_hidden x (ajax_log s1) + loading_now x (on_way s1) →
    count_shown x (ajax_log s2) = count_hidden x (ajax_log s2) + loading_now x (on_way s2)).
  { intros s1 s2 [-> ->| -> ->|el' o c _ _ -> ->|k el' r Hk -> ->] Hb; [done|..].
    - destruct (count_app x (ajax_log s1) [Prevented]) as [-> ->]. by rewrite Hb, !Nat.add_0_r.
    - destruct (count_app x (ajax_log s1) (request_actions W returns_false el' o c)) as [-> ->].
      destruct (count_request x el' o c) as [-> ->]. unfold loading_now in *. rewrite filter_app, length_app. lia.
    - destruct (count_app x (ajax_log s1) (reply_actions W el' r)) as [-> ->]. destruct (count_reply x el' r) as [-> ->].
      revert Hb. rewrite <- (take_drop_middle _ _ _ Hk) at 1. rewrite delete_take_drop.
      unfold loading_now. rewrite !filter_app, !length_app. change (el' :: drop (S k) (on_way s1)) with ([el'] ++ drop (S k) (on_way s1)).
      rewrite filter_app, length_app. lia. }
  assert (Hall : ∀ s1 s2, rtc (proceeds W returns_false) s1 s2 →
    count_shown x (ajax_log s1) = count_hidden x (ajax_log s1) + loading_now x (on_way s1) →
    count_shown x (ajax_log s2) = count_hidden x (ajax_log s2) + loading_now x (on_way s2)).
  { induction 1; eauto. }
  apply (Hall s0); [apply run_proceeds | done].
Qed.

(** Every request that is sent is one that was allowed and says what its element
    declares: the user has agreed if the element asks, the function of data-ajax-begin was
    called just before and did not return false, and the request is a GET or POST (in
    whatever case it is written): the method the element declares if it is one of these,
    otherwise a POST that carries the declared one in its last field and in a header. *)
Theorem ajax_request_allowed evs v el' o :
  Sent el' o ∈ ajax_log (ajax_run W returns_false el E button_value parsed evs (ajax_start v)) →
  let m := or_else (getAttribute el' "data-ajax-method") in
  ∃ l1 l2 dm fields,
    ajax_log (ajax_run W returns_false el E button_value parsed evs (ajax_start v)) =
      l1 ++ asked el' ++ override_actions (upper (m dm)) ++
      [Called (begin_of W el'); Shown (loading el').1 (loading el').2; Sent el' o] ++ l2 ∧
    returns_false (begin_of W el') = false ∧ (dm = "GET" ∨ dm = a_method el') ∧
    o_type o = (if isMethodProxySafe (upper (m dm)) then m dm else "POST") ∧
    o_url o = or_else (getAttribute el' "data-ajax-url") (a_url el') ∧
    o_fields o = fields ++ override_fields (upper (m dm)).
Proof.
  set (log := ajax_log _). intros Hin m.
  assert (H : ∀ s1 s2, rtc (proceeds W returns_false) s1 s2 → Sent el' o ∈ ajax_log s2 →
    Sent el' o ∈ ajax_log s1 ∨ ∃ l1 l2 o' c, ajax_log s2 = l1 ++ request_actions W returns_false el' o' c ++ l2 ∧
      (o_type o' = "GET" ∨ o_type o' = a_method el') ∧ o_url o' = a_url el' ∧ Sent el' o ∈ request_actions W returns_false el' o' c).
  { intros s1 s2 Hr. induction Hr as [|s1 s2 s3 Hs Hr IH]; [by left|]. intros Hs3.
    destruct (IH Hs3) as [Hs2|]; [|by right].
    assert (Hpre : ∃ l, ajax_log s3 = ajax_log s2 ++ l).
    { clear -Hr. induction Hr as [s|s s' s'' Hs _ [l IHl]]; [exists []; by rewrite app_nil_r|].
      rewrite IHl. destruct Hs as [-> _| -> _|? ? ? _ _ -> _|? ? ? _ -> _]; rewrite <- ?app_assoc; by eexists. }
    destruct Hs as [E1 _|E1 _|el0 o' c Ho Hu E1 _|k el0 r _ E1 _]; rewrite E1 in *; [by left|..].
    - apply elem_of_app in Hs2 as [|Hs2]; [by left | by apply list_elem_of_singleton in Hs2].
    - apply elem_of_app in Hs2 as [|Hs2]; [by left | right]. destruct (request_sent _ _ _ _ _ _ _ Hs2) as [-> _].
      destruct Hpre as [l El]. exists (ajax_log s1), l, o', c. rewrite El, <- app_assoc. done.
    - apply elem_of_app in Hs2 as [|Hs2]; [by left|]. by destruct (reply_not_sent W el0 r _ Hs2). }
  destruct (H _ _ (run_proceeds W returns_false el E button_value parsed evs (ajax_start v)) Hin) as [Hs|(l1 & l2 & o' & c & El & Ht & Hu & Hs)].
  { by apply elem_of_nil in Hs. }
  fold log in El. destruct (request_sent _ _ _ _ _ _ _ Hs) as [_ ->]. exists l1, l2, (o_type o'), (o_fields o').
  destruct (request_goes W returns_false el' o' c _ _ Hs) as [Hrf Er]. rewrite Er in El.
  split; [rewrite El; unfold method_of; by rewrite <- !app_assoc|].
  split; [done|]. split; [done|]. split; [done|]. split; [unfold request_of; simpl; by rewrite Hu | done].
Qed.
End every_request.

(** ** The fields that are read *)

Lemma submittable_core S e : submittable (core S e) = submittable e.
Proof. done. Qed.
Lemma serialize_core S e : serialize_one (core S e) = serialize_one e.
Proof. done. Qed.

(** What [form] changes of the fields is not sent. *)
Lemma serialize_same S p q : same_fields S p q → serializeArray p = serializeArray q.
Proof.
  assert (H : ∀ p, serializeArray p = serializeArray (core S <$> p)).
  { intros p0. unfold serializeArray. f_equal. induction p0 as [|e p0 IH]; [done|].
    rewrite fmap_cons. simpl. rewrite submittable_core. destruct (submittable e); [|exact IH].
    rewrite !fmap_cons, IH. done. }
  intros E. by rewrite (H p), (H q), E.
Qed.

(** ** A form that is saved by a PUT *)

Definition demo_scripts : scripts nat := Scripts 0 (λ o _, S o) (λ o, o <? 2) (λ o, o =? 2).
Definition save_form : ajax_element :=
  AjaxElement [("data-ajax-method", "put"); ("data-ajax-loading", "#wait"); ("data-ajax-begin", "page.begin")]
    "/save" "post".
(** The name waits for the server; the age is corrected meanwhile. *)
Definition save_events : list ajax_event :=
  [Form Submit true; ClickButton "go" "Save" false ["btn"]; Form (Edit 1 "20" [] false None) true;
   Form Submit true; Timeout; Form (Answer "user" (RespBool true)) true].
#[local] Abbreviation saved := (ajax_run demo_scripts (λ _, false) save_form demo_env (λ _, "Save") true save_events
  (ajax_start (initial demo_page demo_settings))).
Definition save_request : ajax_options :=
  AjaxOptions "POST" "/save" false
    [("user", FText "bob"); ("age", FText "20"); ("go", FText "Save");
     ("X-Requested-With", FText "XMLHttpRequest"); ("X-HTTP-Method-Override", FText "PUT")].

Lemma saved_sent : Sent save_form save_request ∈ ajax_log saved.
Proof. apply (list_elem_of_lookup_2 _ 4). by vm_compute. Qed.

Lemma ajax_sends_validated_witness :
  Sent save_form save_request ∈ ajax_log saved ∧
  sent_ok save_form demo_env (λ _, "Save") demo_settings save_events [("user", [("data", VStr "bob")], true)]
    (form_of saved) save_form save_request.
Proof.
  split; [apply saved_sent|].
  pose proof (ajax_sends_validated demo_scripts (λ _, false) save_form demo_env (λ _, "Save") demo_settings demo_page
    save_events save_form save_request demo_distinct saved_sent) as H. cbv zeta in H.
  match type of H with sent_ok _ _ _ _ _ ?a _ _ _ =>
    assert (Ha : a = [("user", [("data", VStr "bob")], true)]) by by vm_compute end.
  by rewrite Ha in H.
Defined.

Lemma ajax_request_allowed_witness :
  ∃ l1 l2, ajax_log saved = l1 ++ [Header "X-HTTP-Method-Override" "PUT"; Called (Found 2); Shown (Some "#wait") 0%Z;
    Sent save_form save_request] ++ l2.
Proof.
  pose proof (ajax_request_allowed demo_scripts (λ _, false) save_form demo_env (λ _, "Save") true save_events
    (initial demo_page demo_settings) save_form save_request saved_sent) as H. cbv zeta in H.
  destruct H as (l1 & l2 & dm & fields & H & _ & Hd & _). exists l1, l2. rewrite H. by f_equal.
Defined.
