(* ===== verification/AdminSite.v ===== *)
(** * The pages of the EQueue administration site

    Models EQueue.AdminWeb/Content: js/site.js and the five AngularJS
    controllers in controllers/ (login, register, post, post-detail, section).
    A controller is its scope, the commands its page calls and the callbacks of
    its requests; any request on its way can be answered next, so the events of
    a page interleave freely.  Navigation, dialogs and messages are a log. *)
From stdpp Require Import base strings list.
From Stdlib Require Import Ascii Lia.
From S2P Require Import Prelude JsString.

(** ** site.js *)

(** A text of a scope; [None] is null or undefined. *)
Abbreviation text := (option string).

Definition isStringEmpty (input : text) : bool :=
  match input with
  | None => true
  | Some s => bool_decide (s = "") || bool_decide (trim (chars_of s) = [])
  end.

(** What the pages do outside their scope. *)
Inductive action :=
  | Redirect (url : string) | Reload
  | ShowDialog (id : string) | HideDialog (id : string)
  | Msg (message : text) | SuccessAlert.

(** [showAutoCloseAlert]: alerts are appended; each is followed by a timer that
    removes the first one. *)
Definition showAutoCloseAlert (alerts : nat) : nat * action := (S alerts, SuccessAlert).
Definition alert_timer (alerts : nat) : nat := alerts - 1.

(** ** Requests *)

Inductive http_method := GET | POST.

(** The body of an answer; its [data] is the controller's. *)
Record result (D : Type) := Result { success : bool; errorMsg : text; data : option D }.
Arguments Result {D}.
Arguments success {D}.
Arguments errorMsg {D}.
Arguments data {D}.

(** An answer goes to the callback [success] or [error]; without a body both
    callbacks throw at once. *)
Record response (D : Type) := Response { ok : bool; body : option (result D) }.
Arguments Response {D}.
Arguments ok {D}.
Arguments body {D}.

(** A controller: what a command and a callback do to the scope, which requests
    a command sends. *)
Class Controller (scope command request D : Type) := {
  start : scope;
  endpoint : request → http_method * string;
  run : command → scope → scope * list request * list action;
  succeed : request → result D → scope → scope * list action;
  fail_with : request → result D → scope → scope * list action
}.

Record site (scope request : Type) := Site {
  scope_of : scope;
  inflight : list request;
  sent : list request;                     (* every request sent, in order *)
  actions : list action                    (* in order *)
}.
Arguments Site {scope request}.
Arguments scope_of {scope request}.
Arguments inflight {scope request}.
Arguments sent {scope request}.
Arguments actions {scope request}.

Inductive site_event (command D : Type) :=
  | Do (c : command)
  | Answer (k : nat) (r : response D).     (* to the [k]-th request on its way *)
Arguments Do {command D}.
Arguments Answer {command D}.

Section site.
Context `{Controller scope command request D}.

Definition open_site : site scope request := Site start [] [] [].

Definition site_step (ev : site_event command D) (s : site scope request) : site scope request :=
  match ev with
  | Do c =>
      let '(sc, rqs, acts) := run c (scope_of s) in
      Site sc (inflight s ++ rqs) (sent s ++ rqs) (actions s ++ acts)
  | Answer k r =>
      match inflight s !! k with
      | None => s
      | Some rq =>
          let rest := delete k (inflight s) in
          match body r with
          | None => Site (scope_of s) rest (sent s) (actions s)
          | Some b =>
              let '(sc, acts) :=
                if ok r then succeed rq b (scope_of s) else fail_with rq b (scope_of s) in
              Site sc rest (sent s) (actions s ++ acts)
          end
      end
  end.

Definition visit (evs : list (site_event command D)) : site scope request :=
  fold_left (λ s ev, site_step ev s) evs open_site.
End site.

(** ** login-controller.js *)

Module Login.
Record account := Account { accountName : text; password : text; rememberMe : text }.
Record scope := Scope { error : text; returnUrl : text; loginAccount : account }.
Inductive command := Edit (a : account) | Submit.
Inductive request := Post (a : account).

Definition set_error (m : text) (s : scope) : scope := Scope m (returnUrl s) (loginAccount s).

Definition submit (s : scope) : scope * list request * list action :=
  if isStringEmpty (accountName (loginAccount s)) then (set_error (Some "请输入账号。") s, [], [])
  else if isStringEmpty (password (loginAccount s)) then (set_error (Some "请输入密码。") s, [], [])
  else (s, [Post (loginAccount s)], []).

Definition on_success (r : result unit) (s : scope) : scope * list action :=
  if success r then
    (s, [Redirect (if isStringEmpty (returnUrl s) then "/home/index" else default "" (returnUrl s))])
  else (set_error (errorMsg r) s, []).

(** [url] is the return address the server writes into the page. *)
Definition controller (url : text) : Controller scope command request unit := {|
  start := Scope (Some "") url (Account (Some "") (Some "") (Some "False"));
  endpoint _ := (POST, "/account/login");
  run c s :=
    match c with
    | Edit a => (Scope (error s) (returnUrl s) a, [], [])
    | Submit => submit s
    end;
  succeed _ r s := on_success r s;
  fail_with _ r s := (set_error (errorMsg r) s, [])
|}.
End Login.

(** ** register-controller.js *)

Module Register.
Record account := Account { accountName : text; password : text; confirmPassword : text }.
Record scope := Scope { error : text; newAccount : account }.
Inductive command := Edit (a : account) | Submit.
Inductive request := Post (a : account).

Definition set_error (m : text) (s : scope) : scope := Scope m (newAccount s).

Definition submit (s : scope) : scope * list request * list action :=
  let a := newAccount s in
  if isStringEmpty (accountName a) then (set_error (Some "请输入账号。") s, [], [])
  else if isStringEmpty (password a) then (set_error (Some "请输入密码。") s, [], [])
  else if isStringEmpty (confirmPassword a) then (set_error (Some "请输入密码确认。") s, [], [])
  else if bool_decide (password a ≠ confirmPassword a) then
    (set_error (Some "密码输入不一致。") s, [], [])
  else (s, [Post a], []).

#[global] Instance controller : Controller scope command request unit := {|
  start := Scope (Some "") (Account (Some "") (Some "") (Some ""));
  endpoint _ := (POST, "/account/register");
  run c s :=
    match c with
    | Edit a => (Scope (error s) a, [], [])
    | Submit => submit s
    end;
  succeed _ r s :=
    if success r then (s, [Redirect "/home/index"]) else (set_error (errorMsg r) s, []);
  fail_with _ r s := (set_error (errorMsg r) s, [])
|}.
End Register.

(** ** post-controller.js *)

Module Posts.
Record post := APost { subject : text; pbody : text; section : text }.
Abbreviation sections_data := (list (string * string)).      (* id and name *)
Record scope := Scope { sections : sections_data; error : text; newPost : option post }.
Inductive command := ShowNewPost | Edit (p : post) | SubmitPost.
Inductive request := GetSections | Create (p : post).

Definition dialog : string := "float-box-newPost".
Definition set_error (m : text) (s : scope) : scope := Scope (sections s) m (newPost s).

(** [here] is the section of the page. *)
Definition showNewPostDialog (here : text) (s : scope) : scope * list request * list action :=
  let s1 := Scope (sections s) (Some "") (Some (APost (Some "") (Some "") here)) in
  match sections s with
  | [] => (s1, [GetSections], [])
  | _ => (s1, [], [ShowDialog dialog])
  end.

(** Without a new post the function throws. *)
Definition submitPost (s : scope) : scope * list request * list action :=
  match newPost s with
  | None => (s, [], [])
  | Some p =>
      if isStringEmpty (section p) then (set_error (Some "请选择帖子所属版块。") s, [], [])
      else if isStringEmpty (subject p) then (set_error (Some "请输入帖子标题。") s, [], [])
      else if isStringEmpty (pbody p) then (set_error (Some "请输入帖子内容。") s, [], [])
      else (s, [Create p], [])
  end.

Definition controller (here : text) : Controller scope command request sections_data := {|
  start := Scope [] (Some "") None;
  endpoint r :=
    match r with GetSections => (GET, "/section/getall") | Create _ => (POST, "/post/create") end;
  run c s :=
    match c with
    | ShowNewPost => showNewPostDialog here s
    | Edit p => (Scope (sections s) (error s) (Some p), [], [])
    | SubmitPost => submitPost s
    end;
  succeed rq r s :=
    match rq with
    | GetSections =>
        if success r then (Scope (default [] (data r)) (error s) (newPost s), [ShowDialog dialog])
        else (s, [Msg (errorMsg r)])
    | Create _ => if success r then (s, [Reload]) else (set_error (errorMsg r) s, [])
    end;
  fail_with rq r s :=
    match rq with
    | GetSections => (s, [Msg (errorMsg r)])
    | Create _ => (set_error (errorMsg r) s, [])
    end
|}.
End Posts.

(** ** post-detail-controller.js *)

Module PostDetail.
Record reply := Reply { rbody : text; rpost : text; rparent : text }.
Record post := APost { pid : text; subject : text; pbody : text }.
Record stored := Stored { sid : text; sbody : text }.        (* a reply found *)
Inductive found := FoundPost (p : post) | FoundReply (r : stored).
Record scope := Scope {
  error : text; newReply : option reply; editingPost : option post;
  editingReply : option stored; alerts : nat
}.
Inductive command :=
  | ShowNewReply | ShowNewSubReply (parentId : text) | ShowEditPost | ShowEditReply (replyId : text)
  | EditNewReply (r : reply) | EditPost (p : post) | EditReply (r : stored)
  | SubmitReply | UpdatePost | UpdateReply | AlertTimer.
Inductive request :=
  | FindPost (id : text) | FindReply (id : text)
  | CreateReply (r : reply) | SavePost (p : post) | SaveReply (r : stored).

Definition set_error (m : text) (s : scope) : scope :=
  Scope m (newReply s) (editingPost s) (editingReply s) (alerts s).
Definition set_newReply (r : reply) (s : scope) : scope :=
  Scope (error s) (Some r) (editingPost s) (editingReply s) (alerts s).
Definition set_editingPost (p : option post) (s : scope) : scope :=
  Scope (error s) (newReply s) p (editingReply s) (alerts s).
Definition set_editingReply (r : option stored) (s : scope) : scope :=
  Scope (error s) (newReply s) (editingPost s) r (alerts s).
Definition set_alerts (n : nat) (s : scope) : scope :=
  Scope (error s) (newReply s) (editingPost s) (editingReply s) n.

Definition post_of (d : option found) : option post :=
  match d with Some (FoundPost p) => Some p | _ => None end.
Definition reply_of (d : option found) : option stored :=
  match d with Some (FoundReply r) => Some r | _ => None end.

Section page.
Variable postId : text.                                      (* of the page *)

Definition showNewReplyDialog (parentId : text) (s : scope) : scope * list request * list action :=
  (set_newReply (Reply (Some "") postId parentId) (set_error (Some "") s), [],
   [ShowDialog "float-box-newReply"]).
Definition showEditPostDialog (s : scope) : scope * list request * list action :=
  (set_error (Some "") s, [FindPost postId], []).
Definition showEditReplyDialog (replyId : text) (s : scope) : scope * list request * list action :=
  (set_error (Some "") s, [FindReply replyId], []).

Definition submitReply (s : scope) : scope * list request * list action :=
  match newReply s with
  | None => (s, [], [])                                      (* throws *)
  | Some r =>
      if isStringEmpty (rbody r) then (set_error (Some "请输入回复内容。") s, [], [])
      else if isStringEmpty (rpost r) then (set_error (Some "回复对应的帖子ID不能为空。") s, [], [])
      else (s, [CreateReply r], [])
  end.

Definition updatePost (s : scope) : scope * list request * list action :=
  match editingPost s with
  | None => (s, [], [])
  | Some p =>
      if isStringEmpty (subject p) then (set_error (Some "请输入帖子标题。") s, [], [])
      else if isStringEmpty (pbody p) then (set_error (Some "请输入帖子内容。") s, [], [])
      else (s, [SavePost p], [])
  end.

Definition updateReply (s : scope) : scope * list request * list action :=
  match editingReply s with
  | None => (s, [], [])
  | Some r =>
      if isStringEmpty (sbody r) then (set_error (Some "请输入回复内容。") s, [], [])
      else (s, [SaveReply r], [])
  end.

(** A saved post or reply: the alert, and its dialog is closed. *)
Definition saved (dialog : string) (s : scope) : scope * list action :=
  let '(n, a) := showAutoCloseAlert (alerts s) in (set_alerts n s, [a; HideDialog dialog]).

Definition on_success (rq : request) (r : result found) (s : scope) : scope * list action :=
  match rq with
  | FindPost _ =>
      if success r then (set_editingPost (post_of (data r)) s, [ShowDialog "float-box-editingPost"])
      else (s, [Msg (errorMsg r)])
  | FindReply _ =>
      if success r then (set_editingReply (reply_of (data r)) s, [ShowDialog "float-box-editingReply"])
      else (s, [Msg (errorMsg r)])
  | CreateReply _ => if success r then (s, [Reload]) else (set_error (errorMsg r) s, [])
  | SavePost _ =>
      if success r then saved "float-box-editingPost" s else (set_error (errorMsg r) s, [])
  | SaveReply _ =>
      if success r then saved "float-box-editingReply" s else (set_error (errorMsg r) s, [])
  end.

Definition controller : Controller scope command request found := {|
  start := Scope (Some "") None None None 0;
  endpoint rq :=
    match rq with
    | FindPost _ => (GET, "/post/find")
    | FindReply _ => (GET, "/reply/find")
    | CreateReply _ => (POST, "/reply/create")
    | SavePost _ => (POST, "/post/update")
    | SaveReply _ => (POST, "/reply/update")
    end;
  run c s :=
    match c with
    | ShowNewReply => showNewReplyDialog (Some "") s
    | ShowNewSubReply parentId => showNewReplyDialog parentId s
    | ShowEditPost => showEditPostDialog s
    | ShowEditReply replyId => showEditReplyDialog replyId s
    | EditNewReply r => (set_newReply r s, [], [])
    | EditPost p => (set_editingPost (Some p) s, [], [])
    | EditReply r => (set_editingReply (Some r) s, [], [])
    | SubmitReply => submitReply s
    | UpdatePost => updatePost s
    | UpdateReply => updateReply s
    | AlertTimer => (set_alerts (alert_timer (alerts s)) s, [], [])
    end;
  succeed rq r s := on_success rq r s;
  fail_with rq r s :=
    match rq with
    | FindPost _ | FindReply _ => (s, [Msg (errorMsg r)])
    | _ => (set_error (errorMsg r) s, [])
    end
|}.
End page.
End PostDetail.

(** ** section-controller.js *)

Module Sections.
Record sect := Sect { secid : text; name : text }.
Record scope := Scope { error : text; newSection : option sect; editingSection : option sect }.
Inductive command :=
  | ShowNewSection | ShowEditSection (sectionId : text)
  | EditNew (x : sect) | EditOld (x : sect) | CreateSection | UpdateSection.
Inductive request := Find (id : text) | Create (x : sect) | Update (x : sect).

Definition set_error (m : text) (s : scope) : scope := Scope m (newSection s) (editingSection s).

Definition createSection (s : scope) : scope * list request * list action :=
  match newSection s with
  | None => (s, [], [])                                      (* throws *)
  | Some x =>
      if isStringEmpty (name x) then (set_error (Some "请输入版块名称。") s, [], [])
      else (s, [Create x], [])
  end.
Definition updateSection (s : scope) : scope * list request * list action :=
  match editingSection s with
  | None => (s, [], [])
  | Some x =>
      if isStringEmpty (name x) then (set_error (Some "请输入版块名称。") s, [], [])
      else (s, [Update x], [])
  end.

#[global] Instance controller : Controller scope command request sect := {|
  start := Scope (Some "") None None;
  endpoint rq :=
    match rq with
    | Find _ => (GET, "/sectionadmin/find")
    | Create _ => (POST, "/sectionadmin/create")
    | Update _ => (POST, "/sectionadmin/update")
    end;
  run c s :=
    match c with
    | ShowNewSection =>
        (Scope (Some "") (Some (Sect None (Some ""))) (editingSection s), [],
         [ShowDialog "float-box-newSection"])
    | ShowEditSection sectionId => (set_error (Some "") s, [Find sectionId], [])
    | EditNew x => (Scope (error s) (Some x) (editingSection s), [], [])
    | EditOld x => (Scope (error s) (newSection s) (Some x), [], [])
    | CreateSection => createSection s
    | UpdateSection => updateSection s
    end;
  succeed rq r s :=
    match rq with
    | Find _ =>
        if success r then (Scope (error s) (newSection s) (data r), [ShowDialog "float-box-editSection"])
        else (s, [Msg (errorMsg r)])
    | _ => if success r then (s, [Reload]) else (set_error (errorMsg r) s, [])
    end;
  fail_with rq r s :=
    match rq with
    | Find _ => (s, [Msg (errorMsg r)])
    | _ => (set_error (errorMsg r) s, [])
    end
|}.
End Sections.
