(* ===== verification/AdminFacts.v ===== *)
(** * The administration site: what its pages send

    One theorem about every controller that only sends complete requests, its
    instances for the five pages, and the order of answers on the post page. *)
From stdpp Require Import base strings list.
From Stdlib Require Import Ascii Lia.
From S2P Require Import Prelude JsString AdminSite.

(** ** Texts *)

(** The text has a character that is not white space. *)
Definition nonblank (t : text) : Prop :=
  ∃ s c, t = Some s ∧ c ∈ chars_of s ∧ is_space c = false.

Lemma drop_while_nil {A} (p : A → bool) l : drop_while p l = [] ↔ Forall (λ x, p x = true) l.
Proof.
  induction l as [|x l IH]; simpl; [by split|]. rewrite Forall_cons. destruct (p x).
  - rewrite IH. split; [by split|by intros [_ ?]].
  - split; [done|]. by intros [? _].
Qed.

Lemma trim_nil l : trim l = [] ↔ Forall (λ c, is_space c = true) l.
Proof.
  unfold trim. split.
  - intros H%(f_equal (@rev ascii)). rewrite rev_involutive in H. apply drop_while_nil in H.
    apply Forall_forall. intros c Hc. rewrite <-(take_drop_while is_space l) in Hc.
    apply elem_of_app in Hc as [Hc|Hc].
    + pose proof (take_while_all is_space l) as Ha. rewrite Forall_forall in Ha. by apply Ha.
    + rewrite Forall_forall in H. apply H, list_elem_of_In. rewrite <-List.in_rev.
      by apply list_elem_of_In.
  - intros H. rewrite (proj2 (drop_while_nil is_space l) H). done.
Qed.

Lemma isStringEmpty_spec t : isStringEmpty t = false ↔ nonblank t.
Proof.
  unfold isStringEmpty, nonblank. destruct t as [s|]; [|split; [done|by intros (? & ? & ? & _)]].
  rewrite orb_false_iff, !bool_decide_eq_false, trim_nil. split.
  - intros [_ Hs]. exists s. apply not_Forall_Exists in Hs; [|intros c; apply _].
    apply Exists_exists in Hs as (c & Hc & Hn). exists c.
    split_and!; [done|done|by apply not_true_is_false].
  - intros (s' & c & [= <-] & Hc & Hn). split; [by intros ->; apply elem_of_nil in Hc|].
    rewrite Forall_forall. intros Ha. rewrite (Ha c Hc) in Hn. done.
Qed.

(** ** Every request is complete *)

Section complete.
Context `{Controller scope command request D}.
Context (complete : request → Prop).
Hypothesis run_complete : ∀ c s, Forall complete (snd (fst (run c s))).

Lemma visit_complete evs :
  Forall complete (sent (visit evs)) ∧ ∀ rq, rq ∈ inflight (visit evs) → rq ∈ sent (visit evs).
Proof.
  unfold visit.
  assert (∀ s : site scope request,
    (Forall complete (sent s) ∧ ∀ rq, rq ∈ inflight s → rq ∈ sent s) →
    Forall complete (sent (fold_left (λ s ev, site_step ev s) evs s)) ∧
    ∀ rq, rq ∈ inflight (fold_left (λ s ev, site_step ev s) evs s) →
      rq ∈ sent (fold_left (λ s ev, site_step ev s) evs s)) as Hfold.
  { induction evs as [|ev evs IH]; intros s Hs; cbn [fold_left]; [done|]. apply IH.
    destruct Hs as [Hc Hi]. destruct ev as [c|k r]; simpl.
    - pose proof (run_complete c (scope_of s)) as Hr.
      destruct (run c (scope_of s)) as [[sc rqs] acts]. simpl in *. split.
      + by apply Forall_app.
      + intros rq [Hrq|Hrq]%elem_of_app; apply elem_of_app; [left; by apply Hi|by right].
    - destruct (inflight s !! k) as [rq|]; [|done].
      assert (∀ rq', rq' ∈ delete k (inflight s) → rq' ∈ sent s) as Hd.
      { intros rq' (j & Hj)%list_elem_of_lookup. apply Hi. apply list_elem_of_lookup.
        rewrite list_lookup_delete in Hj. case_match; by eexists. }
      destruct (body r) as [b|]; [|done].
      by destruct (if ok r then _ else _) as [sc acts]. }
  apply Hfold. split; [constructor|]. intros rq Hrq. by apply elem_of_nil in Hrq.
Qed.
End complete.

(** ** What each page may send *)

Definition login_complete (rq : Login.request) : Prop :=
  let '(Login.Post a) := rq in nonblank (Login.accountName a) ∧ nonblank (Login.password a).

Definition register_complete (rq : Register.request) : Prop :=
  let '(Register.Post a) := rq in
  nonblank (Register.accountName a) ∧ nonblank (Register.password a) ∧
  Register.confirmPassword a = Register.password a.

Definition posts_complete (rq : Posts.request) : Prop :=
  match rq with
  | Posts.GetSections => True
  | Posts.Create p =>
      nonblank (Posts.section p) ∧ nonblank (Posts.subject p) ∧ nonblank (Posts.pbody p)
  end.

Definition detail_complete (rq : PostDetail.request) : Prop :=
  match rq with
  | PostDetail.CreateReply r => nonblank (PostDetail.rbody r) ∧ nonblank (PostDetail.rpost r)
  | PostDetail.SavePost p => nonblank (PostDetail.subject p) ∧ nonblank (PostDetail.pbody p)
  | PostDetail.SaveReply r => nonblank (PostDetail.sbody r)
  | _ => True
  end.

Definition sections_complete (rq : Sections.request) : Prop :=
  match rq with
  | Sections.Create x | Sections.Update x => nonblank (Sections.name x)
  | Sections.Find _ => True
  end.

(** A command sends nothing, or one request that its tests have let through. *)
Ltac sends_complete :=
  repeat first
    [ progress simpl
    | match goal with
      | |- context [match ?x with Some _ => _ | None => _ end] => destruct x
      | |- context [match ?x with [] => _ | _ :: _ => _ end] => destruct x
      | |- context [if isStringEmpty ?t then _ else _] =>
          let H := fresh in destruct (isStringEmpty t) eqn:H; [|apply isStringEmpty_spec in H]
      | |- context [if bool_decide ?P then _ else _] => destruct (bool_decide_reflect P)
      end ];
  first [apply Forall_nil_2 | apply Forall_singleton; simpl; auto].

Lemma login_sends url c s :
  Forall login_complete (snd (fst (run (Controller := Login.controller url) c s))).
Proof. destruct c; simpl; [constructor|]. unfold Login.submit. sends_complete. Qed.

Lemma register_sends c s : Forall register_complete (snd (fst (run c s))).
Proof.
  destruct c; simpl; [constructor|]. unfold Register.submit. sends_complete. split_and!; [done|done|]. symmetry. by apply dec_stable.
Qed.

Lemma posts_sends here c s :
  Forall posts_complete (snd (fst (run (Controller := Posts.controller here) c s))).
Proof.
  destruct c; simpl; [|constructor|]; unfold Posts.showNewPostDialog, Posts.submitPost; sends_complete.
Qed.

Lemma detail_sends pid c s :
  Forall detail_complete (snd (fst (run (Controller := PostDetail.controller pid) c s))).
Proof.
  destruct c; simpl; unfold PostDetail.submitReply, PostDetail.updatePost, PostDetail.updateReply;
    sends_complete.
Qed.

Lemma sections_sends c s : Forall sections_complete (snd (fst (run c s))).
Proof.
  destruct c; simpl; unfold Sections.createSection, Sections.updateSection; sends_complete.
Qed.

(** C18. Whatever the user does and in whatever order the server answers, no page
    sends an incomplete form: the account and password of a login, and of a
    registration with the password confirmed, the section, subject and text of
    a post, the text and post of a reply, the subject and text of an edited
    post, the text of an edited reply and the name of a section all have a
    character that is not white space. *)
Theorem requests_complete (url here pid : text) :
  (∀ evs, Forall login_complete (sent (visit (H := Login.controller url) evs))) ∧
  (∀ evs, Forall register_complete (sent (visit evs))) ∧
  (∀ evs, Forall posts_complete (sent (visit (H := Posts.controller here) evs))) ∧
  (∀ evs, Forall detail_complete (sent (visit (H := PostDetail.controller pid) evs))) ∧
  (∀ evs, Forall sections_complete (sent (visit evs))).
Proof.
  split_and!; intros evs.
  - apply (visit_complete (H := Login.controller url)), login_sends.
  - apply visit_complete, register_sends.
  - apply (visit_complete (H := Posts.controller here)), posts_sends.
  - apply (visit_complete (H := PostDetail.controller pid)), detail_sends.
  - apply visit_complete, sections_sends.
Qed.

Example requests_complete_demo :
  sent (visit (H := Login.controller None)
    [Do (Login.Edit (Login.Account (Some "admin") (Some " ") None)); Do Login.Submit;
     Do (Login.Edit (Login.Account (Some "admin") (Some "s3cret") None)); Do Login.Submit])
  = [Login.Post (Login.Account (Some "admin") (Some "s3cret") None)].
Proof. reflexivity. Qed.

(** On the post page the dialog edits the reply whose answer came last, not
    the one asked for last: when the answers to two requests for replies arrive
    in the other order, both dialogs are opened, the reply being edited is the
    first one asked for, and saving saves that one. *)
Theorem last_answer_is_edited (pid : text) (a b : text) (ra rb : PostDetail.stored) m1 m2 :
  let evs := [Do (PostDetail.ShowEditReply a); Do (PostDetail.ShowEditReply b);
              Answer 1 (Response true (Some (Result true m1 (Some (PostDetail.FoundReply rb)))));
              Answer 0 (Response true (Some (Result true m2 (Some (PostDetail.FoundReply ra)))))] in
  let s := visit (H := PostDetail.controller pid) evs in
  PostDetail.editingReply (scope_of s) = Some ra ∧ inflight s = [] ∧
  actions s = [ShowDialog "float-box-editingReply"; ShowDialog "float-box-editingReply"] ∧
  (nonblank (PostDetail.sbody ra) →
   inflight (visit (H := PostDetail.controller pid) (evs ++ [Do PostDetail.UpdateReply])) =
     [PostDetail.SaveReply ra]).
Proof.
  intros evs s. split_and!; try reflexivity. intros Hne%isStringEmpty_spec.
  unfold visit. rewrite fold_left_app. cbn -[isStringEmpty]. by rewrite Hne.
Qed.
