(* ===== verification/BsModal.v ===== *)
(** * The modal of bootstrap

    Models modal.js of EQueue.AdminWeb/Content/bootstrap/js/bootstrap.js (3.1.1), the
    element that bootbox shows a dialog in: [show], [hide], the backdrop, and the
    callbacks that wait for the end of a transition.  A transition ends where the
    browser says so or where [emulateTransitionEnd] does; both are the same event here,
    for a place of the page, and it may come at any time, since the ends of other
    transitions of descendants bubble to the element.

    bootbox registers one handler of [hidden.bs.modal], which removes the element; it is
    part of [trigger].  The handlers of [show.bs.modal] and [hide.bs.modal] prevent
    nothing.  The focus, the attributes of accessibility and the class [modal-open] of
    the body are left out. *)
From stdpp Require Import base list.
From Stdlib Require Import Lia.
From S2P Require Import Prelude.

Local Open Scope nat_scope.

(** Where the end of a transition is waited for: [.modal-dialog], the element, or the
    backdrop with a number; and what is called then. *)
Inductive place := Inner | Element | Backdrop (b : nat).
Inductive waiting := ShowDone | TellShown | HideModal | HideDone.
Inductive modal_event := show_bs_modal | shown_bs_modal | hide_bs_modal | hidden_bs_modal.
#[export] Instance place_dec : EqDecision place. Proof. solve_decision. Defined.
#[export] Instance waiting_dec : EqDecision waiting. Proof. solve_decision. Defined.

(** The element and its [Modal].  [fade]: it has that class.  [own_backdrop]:
    [this.$backdrop].  [made] backdrops have been made, those of [backdrops] are in the
    document.  [wired]: its handlers are there, which is until it is removed. *)
Record modal := Modal {
  fade : bool;
  opt_backdrop : bool;
  opt_keyboard : bool;
  isShown : bool;
  own_backdrop : option nat;
  made : nat;
  backdrops : list nat;
  displayed : bool;
  attached : bool;
  wired : bool;
  waits : list (place * waiting);
  modal_log : list modal_event
}.

Definition set_isShown (b : bool) (m : modal) : modal :=
  Modal (fade m) (opt_backdrop m) (opt_keyboard m) b (own_backdrop m) (made m) (backdrops m) (displayed m) (attached m) (wired m) (waits m) (modal_log m).
Definition set_waits (l : list (place * waiting)) (m : modal) : modal :=
  Modal (fade m) (opt_backdrop m) (opt_keyboard m) (isShown m) (own_backdrop m) (made m) (backdrops m) (displayed m) (attached m) (wired m) l (modal_log m).
Definition set_displayed (d a : bool) (m : modal) : modal :=
  Modal (fade m) (opt_backdrop m) (opt_keyboard m) (isShown m) (own_backdrop m) (made m) (backdrops m) d a (wired m) (waits m) (modal_log m).
Definition logged (e : modal_event) (m : modal) : modal :=
  Modal (fade m) (opt_backdrop m) (opt_keyboard m) (isShown m) (own_backdrop m) (made m) (backdrops m) (displayed m) (attached m) (wired m) (waits m) (modal_log m ++ [e]).

(** [dialog.remove()]: the element leaves the document, its handlers and those of its
    descendants are gone. *)
Definition remove (m : modal) : modal :=
  Modal (fade m) (opt_backdrop m) (opt_keyboard m) (isShown m) (own_backdrop m) (made m) (backdrops m) (displayed m) false false
    (List.filter (λ w, match fst w with Backdrop _ => true | _ => false end) (waits m)) (modal_log m).

Definition trigger (e : modal_event) (m : modal) : modal :=
  match e with
  | hidden_bs_modal => if wired m then remove (logged e m) else logged e m
  | _ => logged e m
  end.

Definition wait_for (p : place) (w : waiting) (m : modal) : modal := set_waits (waits m ++ [(p, w)]) m.

(** [new Modal(element, options)] with the options bootbox gives *)
Definition new_modal (fade backdrop : bool) : modal :=
  Modal fade backdrop false false None 0 [] false true true [] [].

Section modal.
(** [$.support.transition] *)
Context (supports : bool).

Definition animated (m : modal) : bool := supports && fade m.

(** The callback of [show]. *)
Definition show_done (m : modal) : modal :=
  let m1 := set_displayed true true m in
  if animated m then wait_for Inner TellShown m1 else trigger shown_bs_modal m1.

Definition removeBackdrop (m : modal) : modal :=
  match own_backdrop m with
  | Some b =>
      Modal (fade m) (opt_backdrop m) (opt_keyboard m) (isShown m) None (made m)
        (List.filter (λ b', negb (Nat.eqb b' b)) (backdrops m)) (displayed m) (attached m) (wired m)
        (List.filter (λ w, negb (bool_decide (fst w = Backdrop b))) (waits m)) (modal_log m)
  | None => m
  end.

(** The callback of [hideModal]. *)
Definition hide_done (m : modal) : modal := trigger hidden_bs_modal (removeBackdrop m).

Definition make_backdrop (m : modal) : modal :=
  Modal (fade m) (opt_backdrop m) (opt_keyboard m) (isShown m) (Some (made m)) (S (made m)) (backdrops m ++ [made m])
    (displayed m) (attached m) (wired m) (waits m) (modal_log m).

(** [backdrop(callback)], the callback with its name. *)
Definition backdrop (w : waiting) (callback : modal → modal) (m : modal) : modal :=
  if isShown m && opt_backdrop m then
    let m1 := make_backdrop m in
    if animated m then wait_for (Backdrop (made m)) w m1 else callback m1
  else match own_backdrop m with
       | Some b =>
           if isShown m then callback m
           else if animated m then wait_for (Backdrop b) w m else callback m
       | None => callback m
       end.

Definition hideModal (m : modal) : modal := backdrop HideDone hide_done (set_displayed false (attached m) m).

Definition show (m : modal) : modal :=
  let m1 := trigger show_bs_modal m in
  if isShown m then m1 else backdrop ShowDone show_done (set_isShown true m1).

Definition hide (m : modal) : modal :=
  let m1 := trigger hide_bs_modal m in
  if isShown m then
    let m2 := set_isShown false m1 in
    if animated m then wait_for Element HideModal m2 else hideModal m2
  else m1.

(** The handlers of a transition's end at one place, which are removed and called, and
    then those of the places around it. *)
Definition call_waiting (w : waiting) : modal → modal :=
  match w with
  | ShowDone => show_done
  | TellShown => trigger shown_bs_modal
  | HideModal => hideModal
  | HideDone => hide_done
  end.
Definition fire_at (p : place) (m : modal) : modal :=
  fold_left (λ m w, call_waiting (snd w) m) (List.filter (λ w, bool_decide (fst w = p)) (waits m))
    (set_waits (List.filter (λ w, negb (bool_decide (fst w = p))) (waits m)) m).
Definition transition_end (p : place) (m : modal) : modal :=
  match p with
  | Inner => fire_at Element (fire_at Inner m)
  | _ => fire_at p m
  end.

(** The handlers [dismiss.bs.modal], which are there while the modal is shown: a click on
    an element with [data-dismiss], Escape, a click beside the dialog. *)
Definition click_dismiss (m : modal) : modal := if isShown m then hide m else m.
Definition keyup_dismiss (which : nat) (m : modal) : modal :=
  if isShown m && opt_keyboard m && (which =? 27) then hide m else m.
(** The option [backdrop] of bootbox is [static] or [false], with which the last one
    closes nothing. *)
Definition click_beside (m : modal) : modal := m.

(** [$(element).modal(option)]: the data of a removed element is gone, and hiding a new
    [Modal] does nothing; a page does not show an element again that was removed. *)
Definition modal_hide (m : modal) : modal := if wired m then hide m else m.
Definition modal_show (m : modal) : modal := if wired m then show m else m.
End modal.
