(* ===== verification/BsModalFacts.v ===== *)
(** * The modal of bootstrap: the life of a dialog that is shown once

    The stages of a modal between [show] and its removal as a small machine, which the
    modal follows as long as it is not shown a second time, and the transitions that end
    it. *)
From stdpp Require Import base list.
From Stdlib Require Import Lia.
From S2P Require Import Prelude BsModal.

Local Open Scope nat_scope.

(** The part of a modal that decides what happens next. *)
Definition core_state : Type := bool * option nat * list nat * nat * bool * list (place * waiting).
Definition core (m : modal) : core_state :=
  (isShown m, own_backdrop m, backdrops m, made m, wired m, waits m).

(** Never shown; shown (while the backdrop appears, while the dialog slides in, or after
    that); leaving, with what of that is still to come; fading, when the dialog has gone
    and the backdrop goes; removed. *)
Inductive pending := Nothing | BackdropComing | DialogComing.
Inductive stage := New | Shown (p : pending) | Leaving (p : pending) | Late | Fading (p : pending) | Gone.

Definition waiting_for (p : pending) : list (place * waiting) :=
  match p with Nothing => [] | BackdropComing => [(Backdrop 0, ShowDone)] | DialogComing => [(Inner, TellShown)] end.

Section stages.
(** Whether transitions are shown, and whether there is a backdrop. *)
Context (animate with_backdrop : bool).

Definition stage_core (st : stage) : core_state :=
  let up shown ws := (shown, if with_backdrop then Some 0 else None, if with_backdrop then [0] else [],
                      if with_backdrop then 1 else 0, true, ws) in
  match st with
  | New => (false, None, [], 0, true, [])
  | Shown p => up true (waiting_for p)
  | Leaving p => up false (waiting_for p ++ [(Element, HideModal)])
  | Late => up false [(Element, HideModal); (Inner, TellShown)]
  | Fading p => up false (waiting_for p ++ [(Backdrop 0, HideDone)])
  | Gone => (false, None, [], if with_backdrop then 1 else 0, false, [])
  end.

(** The stages that occur. *)
Definition occurs (st : stage) : Prop :=
  match st with
  | New | Gone | Shown Nothing => True
  | Shown BackdropComing | Leaving BackdropComing | Fading _ => animate = true ∧ with_backdrop = true
  | Shown DialogComing | Leaving _ | Late => animate = true
  end.

Definition showing : stage :=
  Shown (if animate then if with_backdrop then BackdropComing else DialogComing else Nothing).
Definition hiding (st : stage) : stage :=
  match st with Shown p => if animate then Leaving p else Gone | _ => st end.
Definition element_ended (st : stage) : stage :=
  match st with
  | Leaving p => if with_backdrop then Fading p else Gone
  | Late => if with_backdrop then Fading DialogComing else Gone
  | _ => st
  end.
Definition ended (p : place) (st : stage) : stage :=
  match p, st with
  | Backdrop 0, Shown BackdropComing => Shown DialogComing
  | Backdrop 0, Leaving BackdropComing => Late
  | Backdrop 0, Fading _ => Gone
  | Element, _ => element_ended st
  | Inner, Shown DialogComing => Shown Nothing
  | Inner, Fading DialogComing => Fading Nothing
  | Inner, Late => element_ended (Leaving Nothing)
  | Inner, Leaving DialogComing => element_ended (Leaving Nothing)
  | Inner, _ => element_ended st
  | _, _ => st
  end.
End stages.

(** A modal in a stage; a removed element is not in the document. *)
Definition in_stage (supports : bool) (st : stage) (m : modal) : Prop :=
  core m = stage_core (opt_backdrop m) st ∧ occurs (animated supports m) (opt_backdrop m) st ∧
  (st = Gone → attached m = false).

Section follows.
Context (supports : bool).
Implicit Types (m : modal).

#[local] Abbreviation A m := (animated supports m).
#[local] Abbreviation B m := (opt_backdrop m).

(** What an operation leaves as it is. *)
Definition same_options m m' : Prop := fade m' = fade m ∧ opt_backdrop m' = opt_backdrop m ∧ opt_keyboard m' = opt_keyboard m.

(** The fields of a modal in a stage, with both values of every option that matters. *)
Ltac open_modal m :=
  destruct supports, m as [[] [] kb sh own md bs ds att wr ws lg];
  unfold in_stage, core, stage_core, animated, same_options in *; simpl in *;
  intros (E & O & G); injection E as -> -> -> -> -> ->; try done; try (by destruct O).
Ltac by_options := split; [split; [reflexivity | split; [done | intros; done]] | done].

Lemma new_in_stage fd b : in_stage supports New (new_modal fd b).
Proof. by repeat split. Qed.

Lemma show_follows m :
  in_stage supports New m →
  in_stage supports (showing (A m) (B m)) (show supports m) ∧ same_options m (show supports m).
Proof. open_modal m; by_options. Qed.

Lemma hide_follows st m :
  in_stage supports st m → in_stage supports (hiding (A m) st) (hide supports m) ∧ same_options m (hide supports m).
Proof. destruct st as [|[]|[]| |[]|]; (open_modal m; by_options). Qed.

Lemma end_follows st p m :
  in_stage supports st m →
  in_stage supports (ended (B m) p st) (transition_end supports p m) ∧ same_options m (transition_end supports p m).
Proof. destruct st as [|[]|[]| |[]|], p as [| |[|n]]; (open_modal m; by_options). Qed.
End follows.

(** ** How far a modal has come *)

Definition level (st : stage) : nat :=
  match st with New => 0 | Shown _ => 1 | Leaving _ | Late => 2 | Fading _ => 3 | Gone => 4 end.

Definition at_level (supports : bool) (n : nat) (m : modal) : Prop := ∃ st, in_stage supports st m ∧ n ≤ level st.

(** Removed: not in the document, without handlers, backdrops and anything to wait for. *)
Definition gone (m : modal) : Prop :=
  isShown m = false ∧ wired m = false ∧ attached m = false ∧ backdrops m = [] ∧ waits m = [].

Section levels.
Context (supports : bool).
Implicit Types (m : modal).

Lemma level_weaken n n' m : n' ≤ n → at_level supports n m → at_level supports n' m.
Proof. intros Hn (st & Hst & H). exists st. split; [done | lia]. Qed.

Lemma level_hide n m : at_level supports n m → at_level supports n (hide supports m).
Proof.
  intros (st & Hst & H). eexists. split; [apply (hide_follows supports st m Hst)|].
  destruct st; simpl in *; try lia. destruct (animated supports m); simpl; lia.
Qed.
Lemma hide_leaves m : at_level supports 1 m → at_level supports 2 (hide supports m).
Proof.
  intros (st & Hst & H). eexists. split; [apply (hide_follows supports st m Hst)|].
  destruct st; simpl in *; try lia. destruct (animated supports m); simpl; lia.
Qed.

Lemma level_unwired st m : in_stage supports st m → wired m = false → st = Gone.
Proof.
  intros (Hc & _) Hf. assert (Hw : wired m = snd (fst (stage_core (opt_backdrop m) st))) by by rewrite <- Hc.
  rewrite Hf in Hw. by destruct st.
Qed.

Lemma stage_shown st m : in_stage supports st m → isShown m = match st with Shown _ => true | _ => false end.
Proof.
  intros (Hc & _). transitivity (fst (fst (fst (fst (fst (stage_core (opt_backdrop m) st)))))); [by rewrite <- Hc | by destruct st].
Qed.

Lemma level_modal_hide n m : at_level supports n m → at_level supports n (modal_hide supports m).
Proof. unfold modal_hide. destruct (wired m); [apply level_hide | done]. Qed.
Lemma modal_hide_leaves m : at_level supports 1 m → at_level supports 2 (modal_hide supports m).
Proof.
  unfold modal_hide. destruct (wired m) eqn:Hw; [apply hide_leaves|]. intros (st & Hst & _).
  exists st. split; [done|]. rewrite (level_unwired st m Hst Hw). simpl. lia.
Qed.

Lemma level_keyup n which m : at_level supports n m → at_level supports n (keyup_dismiss supports which m).
Proof. unfold keyup_dismiss. destruct (_ && _); [apply level_hide | done]. Qed.

Lemma level_end n p m : at_level supports n m → at_level supports n (transition_end supports p m).
Proof.
  intros (st & Hst & H). eexists. split; [apply (end_follows supports st p m Hst)|].
  destruct st as [|[]|[]| |[]|], p as [| |[]]; simpl in *; try lia; destruct (opt_backdrop m); simpl; lia.
Qed.
Lemma element_end_fades m : at_level supports 2 m → at_level supports 3 (transition_end supports Element m).
Proof.
  intros (st & Hst & H). eexists. split; [apply (end_follows supports st Element m Hst)|].
  destruct st; simpl in *; try lia; destruct (opt_backdrop m); simpl; lia.
Qed.
Lemma backdrop_end_removes m : at_level supports 3 m → at_level supports 4 (transition_end supports (Backdrop 0) m).
Proof.
  intros (st & Hst & H). eexists. split; [apply (end_follows supports st (Backdrop 0) m Hst)|].
  destruct st; simpl in *; lia.
Qed.

Lemma level_gone m : at_level supports 4 m → gone m.
Proof.
  intros (st & (Hc & _ & Ha) & H). destruct st; simpl in H; try lia. injection Hc as H1 H2 H3 H4 H5 H6.
  by split_and!; [| |apply Ha| |].
Qed.
Lemma level_at_once m : animated supports m = false → at_level supports 2 m → at_level supports 4 m.
Proof.
  intros Hn (st & Hst & H). exists st. split; [done|]. destruct Hst as (_ & Ho & _). rewrite Hn in Ho.
  destruct st as [|[]|[]| |[]|]; simpl in *; try lia; try done; by destruct Ho.
Qed.

(** A shown modal is neither new nor about to leave. *)
Lemma level_shown m : isShown m = true → at_level supports 0 m → at_level supports 1 m.
Proof.
  intros Hs (st & Hst & _). exists st. split; [done|]. rewrite (stage_shown st m Hst) in Hs. destruct st; simpl; done || lia.
Qed.
Lemma level_not_shown m : isShown m = false → at_level supports 1 m → at_level supports 2 m.
Proof.
  intros Hs (st & Hst & H). exists st. split; [done|]. rewrite (stage_shown st m Hst) in Hs. destruct st; simpl in *; done || lia.
Qed.

(** A modal that has not been shown, or shown and no more. *)
Definition fresh m : Prop := in_stage supports New m ∨ isShown m = true ∧ at_level supports 1 m.

Lemma fresh_show m : fresh m → fresh (modal_show supports m).
Proof.
  unfold modal_show. destruct (wired m); [|done]. intros [Hn|[Hs Hl]].
  - pose proof (proj1 (show_follows supports m Hn)) as H. right. split; [by rewrite (stage_shown _ _ H)|].
    eexists. split; [exact H | done].
  - right. unfold show. cbn [trigger]. change (isShown (logged show_bs_modal m)) with (isShown m). rewrite Hs. by split.
Qed.
End levels.
