(* ===== verification/Bootbox.v ===== *)
(** * bootbox: dialogs

    Models EQueue.AdminWeb/Content/bootbox/bootbox.js and the functions of js/site.js
    that call it: what a call makes of its arguments (or the error it throws), the
    dialog it builds, and what the user's clicks and keys do to it, over the modal of
    [BsModal].

    A page is the list of its dialogs.  What a function of the page does when it is
    called, and whether it returns or throws, comes with the event.  Objects are lists of
    properties in the order of [for in]; keys that look like indices, which come first,
    are not told apart, nor are objects with a property [length], nor names every object
    inherits.  Keys, labels and messages contain no markup.  [$] is jQuery 1.10.2. *)
From stdpp Require Import base strings list.
From Stdlib Require Import Ascii ZArith Lia.
From S2P Require Import Prelude JsString ValidatePage BsModal.

Local Open Scope nat_scope.

(** ** Values *)

(** Functions: those of the page, those that [showMessage] and [showConfirm] make of a
    function of the page, and those that [alert], [confirm] and [prompt] make of a
    callback. *)
Inductive fn :=
  | Page (k : nat)
  | SiteMessage (callback : fn)
  | SiteConfirm (callback : fn)
  | AlertOk
  | AlertCallback (callback : fn)
  | ConfirmWith (b : bool) (callback : fn)
  | PromptNull (callback : fn)
  | PromptValue (callback : fn).
#[export] Instance fn_dec : EqDecision fn. Proof. solve_decision. Defined.

(** [Form] is the form of a prompt, [Event] the event a handler gets. *)
#[warnings="-register-all"]
Inductive value :=
  | Undefined | Null | Form | Event
  | Bool (b : bool) | Num (z : Z) | Str (s : string)
  | Fn (f : fn)
  | Obj (l : list (string * value))
  | Arr (l : list value).
Abbreviation obj := (list (string * value)).

Inductive error := Error (message : string) | TypeError.
Abbreviation res A := (error + A)%type.
Definition res_bind {A B} (x : res A) (f : A → res B) : res B := match x with inl e => inl e | inr a => f a end.
Declare Scope res_scope.
Notation "'let!' x := e 'in' k" := (res_bind e (λ x, k)) (at level 10, x name, e at level 200, k at level 200) : res_scope.
Open Scope res_scope.

Definition truthy (v : value) : bool :=
  match v with
  | Undefined | Null => false
  | Bool b => b
  | Num z => negb (Z.eqb z 0)
  | Str s => negb (bool_decide (s = ""))
  | _ => true
  end.
Definition isFunction (v : value) : bool := match v with Fn _ => true | _ => false end.
Definition typeof_object (v : value) : bool :=
  match v with Null | Form | Event | Obj _ | Arr _ => true | _ => false end.

Definition get (name : string) (o : obj) : value := default Undefined (obj_get name o).

(** [v.name] *)
Definition prop (v : value) (name : string) : res value :=
  match v with
  | Undefined | Null => inl TypeError
  | Obj l => inr (get name l)
  | Arr l => inr (if bool_decide (name = "length") then Num (Z.of_nat (length l)) else Undefined)
  | Str s => inr (if bool_decide (name = "length") then Num (Z.of_nat (String.length s)) else Undefined)
  | _ => inr Undefined
  end.

Definition is_undefined (v : value) : bool := match v with Undefined => true | _ => false end.

(** [a === b]; two objects of this model are never the same one. *)
Definition strict_equal (a b : value) : bool :=
  match a, b with
  | Undefined, Undefined | Null, Null | Form, Form => true
  | Bool x, Bool y => Bool.eqb x y
  | Num x, Num y => Z.eqb x y
  | Str x, Str y => bool_decide (x = y)
  | Fn x, Fn y => bool_decide (x = y)
  | _, _ => false
  end.

(** What [$.each] goes through; [length - 1 in "text"] throws. *)
Definition index (n : nat) : string := string_of (natural_string (Z.of_nat n)).
Definition entries (v : value) : res obj :=
  match v with
  | Undefined | Null => inl TypeError
  | Str s => if bool_decide (s = "") then inr [] else inl TypeError
  | Obj l => inr l
  | Arr l => inr (imap (λ n x, (index n, x)) l)
  | _ => inr []
  end.

(** ** [$.extend] *)

(** A property of the source put on the target, with what the target has there. *)
Fixpoint merge (copy src : value) : value :=
  match copy with
  | Obj l =>
      Obj ((fix go (l : obj) (target : obj) : obj :=
              match l with
              | [] => target
              | (name, v) :: l' =>
                  go l' (if is_undefined v then target else obj_put name (merge v (get name target)) target)
              end) l (match src with Obj l0 => l0 | _ => [] end))
  | Arr l =>
      Arr ((fix go (l target : list value) : list value :=
              match l with
              | [] => target
              | v :: l' =>
                  let old := match target with t :: _ => t | [] => Undefined end in
                  (if is_undefined v then old else merge v old) :: go l' (tail target)
              end) l (match src with Arr l0 => l0 | _ => [] end))
  | v => v
  end.

(** The properties that [for in] finds. *)
Definition enumerable (v : value) : obj :=
  match v with Obj l => l | Arr l => imap (λ n x, (index n, x)) l | _ => [] end.
Definition extend_deep (target : obj) (options : value) : obj :=
  fold_left (λ t '(name, v), if is_undefined v then t else obj_put name (merge v (get name t)) t) (enumerable options) target.
Definition extend (target : obj) (options : value) : obj :=
  fold_left (λ t '(name, v), if is_undefined v then t else obj_put name v t) (enumerable options) target.

(** ** Labels and buttons *)

Definition locales : list (string * (string * string * string)) :=
  [("br", ("OK", "Cancelar", "Sim"));
   ("cs", ("OK", "Zrušit", "Potvrdit"));
   ("da", ("OK", "Annuller", "Accepter"));
   ("de", ("OK", "Abbrechen", "Akzeptieren"));
   ("el", ("Εντάξει", "Ακύρωση", "Επιβεβαίωση"));
   ("en", ("OK", "Cancel", "OK"));
   ("es", ("OK", "Cancelar", "Aceptar"));
   ("et", ("OK", "Katkesta", "OK"));
   ("fi", ("OK", "Peruuta", "OK"));
   ("fr", ("OK", "Annuler", "D'accord"));
   ("he", ("אישור", "ביטול", "אישור"));
   ("id", ("OK", "Batal", "OK"));
   ("it", ("OK", "Annulla", "Conferma"));
   ("lt", ("Gerai", "Atšaukti", "Patvirtinti"));
   ("lv", ("Labi", "Atcelt", "Apstiprināt"));
   ("nl", ("OK", "Annuleren", "Accepteren"));
   ("no", ("OK", "Avbryt", "OK"));
   ("pl", ("OK", "Anuluj", "Potwierdź"));
   ("pt", ("OK", "Cancelar", "Confirmar"));
   ("ru", ("OK", "Отмена", "Применить"));
   ("sv", ("OK", "Avbryt", "OK"));
   ("tr", ("Tamam", "İptal", "Onayla"));
   ("zh_CN", ("OK", "取消", "确认"));
   ("zh_TW", ("OK", "取消", "確認"))].

Definition default_options : obj :=
  [("locale", Str "en"); ("backdrop", Bool true); ("animate", Bool true); ("className", Null);
   ("closeButton", Bool true); ("show", Bool true); ("container", Str "body")].

Definition locale_label (labels : string * string * string) (key : string) : value :=
  let '(ok, cancel, confirm) := labels in
  if bool_decide (key = "OK") then Str ok
  else if bool_decide (key = "CANCEL") then Str cancel
  else if bool_decide (key = "CONFIRM") then Str confirm
  else Undefined.

Definition english : string * string * string := ("OK", "Cancel", "OK").
Definition _t (defaults : obj) (key : string) : value :=
  match get "locale" defaults with
  | Str l => locale_label (default english (obj_get l locales)) key
  | _ => locale_label english key
  end.

Definition upper (s : string) : string := string_of (toUpperCase (chars_of s)).
Definition lower (s : string) : string := string_of (to_lower <$> chars_of s).

Definition createLabels (defaults : obj) (labels : list string) : obj :=
  fold_left (λ buttons argument, obj_put (lower argument) (Obj [("label", _t defaults (upper argument))]) buttons) labels [].

Definition mapArguments (args : list value) (p1 p2 : string) : res value :=
  match args with
  | [a; b] => inr (Obj [(p1, a); (p2, b)])
  | [Str s] => inr (Obj [(p1, Str s); (p2, Undefined)])
  | [a] => inr a
  | _ => inl (Error "Invalid argument length")
  end.

Definition mergeArguments (base : obj) (args : list value) (p1 p2 : string) : res obj :=
  let! options := mapArguments args p1 p2 in
  inr (extend_deep (extend_deep [] (Obj base)) options).

Definition not_allowed (key : string) (buttons : list string) : error :=
  Error (String.append "button key " (String.append key (String.append " is not allowed (options are "
    (String.append (String.concat (String (ascii_of_nat 10) "") buttons) ")")))).
Definition validateButtons (options : obj) (buttons : list string) : res obj :=
  let! l := entries (get "buttons" options) in
  match List.find (λ kv, negb (bool_decide (fst kv ∈ buttons))) l with
  | Some (key, _) => inl (not_allowed key buttons)
  | None => inr options
  end.

Definition mergeDialogOptions (defaults : obj) (className : string) (labels : list string) (p1 p2 : string)
    (args : list value) : res obj :=
  let! options := mergeArguments [("className", Str (String.append "bootbox-" className));
                                  ("buttons", Obj (createLabels defaults labels))] args p1 p2 in
  validateButtons options labels.

(** [sanitize]: the button with a key and a place among [total]. *)
Definition sanitize_button (total index : nat) (key : string) (button : value) : res value :=
  match (match button with Fn f => Obj [("callback", Fn f)] | _ => button end) with
  | Obj l =>
      let l1 := if truthy (get "label" l) then l else obj_put "label" (Str key) l in
      let main := (total <=? 2) && (index =? total - 1) in
      inr (Obj (if truthy (get "className" l1) then l1
                else obj_put "className" (Str (if main then "btn-primary" else "btn-default")) l1))
  | _ => inl (Error (String.append "button with key " (String.append key " must be an object")))
  end.
Fixpoint sanitize_buttons (total index : nat) (l : obj) : res obj :=
  match l with
  | [] => inr []
  | (key, button) :: l' =>
      let! b := sanitize_button total index key button in
      let! rest := sanitize_buttons total (S index) l' in
      inr ((key, b) :: rest)
  end.

(** The options of the dialog and its buttons. *)
Definition sanitize (defaults : obj) (options : value) : res (obj * obj) :=
  if negb (typeof_object options) then inl (Error "Please supply an object of options")
  else
    let! message := prop options "message" in
    if negb (truthy message) then inl (Error "Please specify a message")
    else
      let o := extend (extend [] (Obj defaults)) options in
      let! l := entries (if truthy (get "buttons" o) then get "buttons" o else Obj []) in
      let! buttons := sanitize_buttons (length l) 0 l in
      inr (o, buttons).

(** ** Dialogs *)

(** The input of a prompt: a field, a list to select from (first the options without a
    group, then the groups), or boxes to check. *)
Inductive input :=
  | Field (type : string) (v : value)
  | Select (loose : list (value * value)) (groups : list (string * list (value * value))) (v : value)
  | Boxes (boxes : list (value * value * bool)).

Inductive close_place := InHeader | InBody.

(** What [dialog] builds: the classes it adds, the message and the title, the close
    button, the footer (key, class and label of each button), the input of a prompt, the
    callbacks by name, and the modal. *)
Record dialog := Dialog {
  classes : list value;
  size_class : option string;
  d_message : value;
  d_title : option value;
  close_button : option close_place;
  footer : list (string * value * value);
  d_input : option input;
  callbacks : obj;
  d_modal : modal
}.
Definition set_modal (f : modal → modal) (d : dialog) : dialog :=
  Dialog (classes d) (size_class d) (d_message d) (d_title d) (close_button d) (footer d) (d_input d) (callbacks d) (f (d_modal d)).
Definition set_input (i : input) (d : dialog) : dialog :=
  Dialog (classes d) (size_class d) (d_message d) (d_title d) (close_button d) (footer d) (Some i) (callbacks d) (d_modal d).

(** [hasClass] of an element with the classes of a string. *)
Definition words (s : string) : list string := string_of <$> split_by is_space (chars_of s).
Definition has_class (name : string) (v : value) : bool :=
  match v with Str s => bool_decide (name ∈ words s) | _ => false end.

Definition footer_of (buttons : obj) : list (string * value * value) :=
  (λ '(key, b), (key, get "className" (enumerable b), get "label" (enumerable b))) <$> buttons.
Definition callbacks_of (onEscape : value) (buttons : obj) : obj :=
  fold_left (λ c '(key, b), obj_put key (get "callback" (enumerable b)) c) buttons [("onEscape", onEscape)].

Section bootbox.
Context (supports : bool).

(** [exports.dialog], of options that were sanitized *)
Definition build (o buttons : obj) : dialog :=
  let className := get "className" o in
  let added := (if match get "animate" o with Bool b => b | _ => false end then [Str "fade"] else []) ++
               (if truthy className then [className] else []) in
  let size := get "size" o in
  let title := if truthy (get "title" o) then Some (get "title" o) else None in
  let m := new_modal (existsb (has_class "fade") added) (truthy (get "backdrop" o)) in
  Dialog added
    (if strict_equal size (Str "large") then Some "modal-lg" else if strict_equal size (Str "small") then Some "modal-sm" else None)
    (get "message" o) title
    (if truthy (get "closeButton" o) then Some (match title with Some _ => InHeader | None => InBody end) else None)
    (footer_of buttons) None (callbacks_of (get "onEscape" o) buttons)
    (if truthy (get "show" o) then modal_show supports m else m).

Definition dialog_call (defaults : obj) (options : value) : res dialog :=
  let! ob := sanitize defaults options in inr (build (fst ob) (snd ob)).

(** [options.buttons.key.callback = f]; a property of a function is not kept. *)
Definition set_callback (key : string) (f : fn) (options : obj) : res obj :=
  let! b := prop (get "buttons" options) key in
  match b with
  | Undefined | Null | Bool _ | Num _ | Str _ => inl TypeError
  | Obj l =>
      inr (obj_put "buttons"
             (Obj (obj_put key (Obj (obj_put "callback" (Fn f) l)) (enumerable (get "buttons" options)))) options)
  | _ => inr options
  end.

Definition alert (defaults : obj) (args : list value) : res dialog :=
  let! options := mergeDialogOptions defaults "alert" ["ok"] "message" "callback" args in
  let callback := get "callback" options in
  if truthy callback && negb (isFunction callback) then
    inl (Error "alert requires callback property to be a function when provided")
  else
    let f := match callback with Fn g => AlertCallback g | _ => AlertOk end in
    let! options := set_callback "ok" f options in
    dialog_call defaults (Obj (obj_put "onEscape" (Fn f) options)).

(** The functions that [confirm] makes of something else than a function are never
    called, since it throws then; [Page 0] stands for that. *)
Definition fn_of (v : value) : fn := match v with Fn f => f | _ => Page 0 end.

Definition confirm (defaults : obj) (args : list value) : res dialog :=
  let! options := mergeDialogOptions defaults "confirm" ["cancel"; "confirm"] "message" "callback" args in
  let callback := get "callback" options in
  let f := ConfirmWith false (fn_of callback) in
  let! options := set_callback "cancel" f options in
  let options := obj_put "onEscape" (Fn f) options in
  let! options := set_callback "confirm" (ConfirmWith true (fn_of callback)) options in
  if negb (isFunction callback) then inl (Error "confirm requires a callback")
  else dialog_call defaults (Obj options).

(** ** [prompt] *)

Definition input_types : list string :=
  ["text"; "textarea"; "email"; "select"; "checkbox"; "date"; "time"; "number"; "password"].

(** The name of a group as a key. *)
Definition group_key (v : value) : string :=
  match v with
  | Str s => s
  | Num z => string_of (number_string (QArith_base.inject_Z z))
  | Bool b => if b then "true" else "false"
  | _ => "[object Object]"
  end.

(** One option of a select, put in the list or in its group. *)
Definition select_option (st : list (value * value) * list (string * list (value * value))) (option : value) :
    res (list (value * value) * list (string * list (value * value))) :=
  let! v := prop option "value" in
  let! text := prop option "text" in
  if is_undefined v || is_undefined text then inl (Error "given options in wrong format")
  else
    let! group := prop option "group" in
    let '(loose, groups) := st in
    if truthy group then
      let old := default [] (obj_get (group_key group) groups) in
      inr (loose, obj_put (group_key group) (old ++ [(v, text)]) groups)
    else inr (loose ++ [(v, text)], groups).
Fixpoint select_options (l : list value) st : res (list (value * value) * list (string * list (value * value))) :=
  match l with
  | [] => inr st
  | option :: l' => let! st := select_option st option in select_options l' st
  end.

Definition box (values : list value) (option : value) : res (value * value * bool) :=
  let! v := prop option "value" in
  let! text := prop option "text" in
  inr (v, text, existsb (λ x, strict_equal x v) values).
Fixpoint boxes_of (values : list value) (l : list value) : res (list (value * value * bool)) :=
  match l with
  | [] => inr []
  | option :: l' => let! b := box values option in let! rest := boxes_of values l' in inr (b :: rest)
  end.

Definition make_input (options : obj) : res input :=
  let type := match get "inputType" options with Str t => t | _ => "" end in
  let inputOptions := if truthy (get "inputOptions" options) then get "inputOptions" options else Arr [] in
  if bool_decide (type = "select") then
    let! n := prop inputOptions "length" in
    if negb (truthy n) then inl (Error "prompt with select requires options")
    else
      let! l := entries inputOptions in
      let! st := select_options (snd <$> l) ([], []) in
      inr (Select (fst st) (snd st) (get "value" options))
  else if bool_decide (type = "checkbox") then
    let! n := prop inputOptions "length" in
    if negb (truthy n) then inl (Error "prompt with checkbox requires options")
    else
      let first := match inputOptions with Arr (x :: _) => x | Str _ => Str "?" | v => get "0" (enumerable v) end in
      let! v := prop first "value" in
      let! text := (if truthy v then prop first "text" else inr Undefined) in
      if negb (truthy text) then inl (Error "given options in wrong format")
      else
        let! l := entries inputOptions in
        let! boxes := boxes_of (match get "value" options with Arr vs => vs | v => [v] end) (snd <$> l) in
        inr (Boxes boxes)
  else inr (Field type (get "value" options)).

Definition prompt (defaults : obj) (args : list value) : res dialog :=
  let! options := mergeArguments [("className", Str "bootbox-prompt"); ("buttons", Obj (createLabels defaults ["cancel"; "confirm"]));
                                  ("value", Str ""); ("inputType", Str "text")] args "title" "callback" in
  let! options := validateButtons options ["cancel"; "confirm"] in
  let shouldShow := match get "show" options with Undefined => true | Bool b => b | _ => false end in
  let callback := get "callback" options in
  let options := obj_put "message" Form options in
  let! options := set_callback "cancel" (PromptNull (fn_of callback)) options in
  let options := obj_put "onEscape" (Fn (PromptNull (fn_of callback))) options in
  let! options := set_callback "confirm" (PromptValue (fn_of callback)) options in
  let options := obj_put "show" (Bool false) options in
  if negb (truthy (get "title" options)) then inl (Error "prompt requires a title")
  else if negb (isFunction callback) then inl (Error "prompt requires a callback")
  else if negb (match get "inputType" options with Str t => bool_decide (t ∈ input_types) | _ => false end) then
    inl (Error "invalid prompt type")
  else
    let! i := make_input options in
    let! d := dialog_call defaults (Obj options) in
    let d := set_input i d in
    inr (if shouldShow then set_modal (modal_show supports) d else d).

(** ** A page *)

(** Calls of functions of the page, by the dialog they are made for, and errors. *)
Inductive entry := Called (i k : nat) (args : list value) | Threw (e : error).
Record page := PageState {
  defaults : obj;
  dialogs : list dialog;
  log : list entry
}.
Definition start_page : page := PageState default_options [] [].

(** What a script of the page calls. *)
Inductive command :=
  | CAlert (args : list value) | CConfirm (args : list value) | CPrompt (args : list value) | CDialog (options : value)
  | SetDefaults (args : list value) | HideAll
  | HideDialog (i : nat) | ShowDialog (i : nat)
  | msg (message : value) | showMessage (message : value) (callback : fn) | showConfirm (message : value) (callback : fn).

Definition opened (r : res dialog) (s : page) : page :=
  match r with
  | inl e => PageState (defaults s) (dialogs s) (log s ++ [Threw e])
  | inr d => PageState (defaults s) (dialogs s ++ [d]) (log s)
  end.

Definition setDefaults (args : list value) (d : obj) : obj :=
  match args with
  | [Str name; v] => extend d (Obj [(name, v)])
  | [_; _] => d
  | v :: _ => extend d v
  | [] => d
  end.

Definition on_dialog (i : nat) (f : dialog → dialog) (s : page) : page :=
  PageState (defaults s) (alter f i (dialogs s)) (log s).

Definition command_step (c : command) (s : page) : page :=
  match c with
  | CAlert args => opened (alert (defaults s) args) s
  | CConfirm args => opened (confirm (defaults s) args) s
  | CPrompt args => opened (prompt (defaults s) args) s
  | CDialog options => opened (dialog_call (defaults s) options) s
  | SetDefaults args => PageState (setDefaults args (defaults s)) (dialogs s) (log s)
  | HideAll => PageState (defaults s) (set_modal (modal_hide supports) <$> dialogs s) (log s)
  | HideDialog i => on_dialog i (set_modal (modal_hide supports)) s
  | ShowDialog i => on_dialog i (set_modal (modal_show supports)) s
  | msg message => opened (alert (defaults s) [message]) s
  | showMessage message callback => opened (alert (defaults s) [message; Fn (SiteMessage callback)]) s
  | showConfirm message callback => opened (confirm (defaults s) [message; Fn (SiteConfirm callback)]) s
  end.

(** What a function of the page does, and what comes of it. *)
Inductive outcome := Returns (v : value) | Throws.
Record answer := Answer { body : list command; result : outcome }.

(** Which function of the page a function calls, with what, and whether it returns what
    that returns; or what it returns. *)
Inductive invocation := Calls (k : nat) (args : list value) (passed_on : bool) | Plain (v : value).
Fixpoint invoke (f : fn) (args : list value) (typed : value) : invocation :=
  match f with
  | Page k => Calls k args true
  | SiteMessage g => match invoke g [] typed with Calls k a _ => Calls k a false | Plain _ => Plain Undefined end
  | SiteConfirm g =>
      if truthy (default Undefined (head args)) then
        match invoke g [] typed with Calls k a _ => Calls k a false | Plain _ => Plain Undefined end
      else Plain Undefined
  | AlertOk => Plain (Bool true)
  | AlertCallback g => invoke g [] typed
  | ConfirmWith b g => invoke g [Bool b] typed
  | PromptNull g => invoke g [Null] typed
  | PromptValue g => invoke g [typed] typed
  end.

Definition called (i k : nat) (args : list value) (s : page) : page :=
  PageState (defaults s) (dialogs s) (log s ++ [Called i k args]).

(** [callback(e)]: the state after it, and what it returned, or [None] if it threw;
    [typed] is what the input of a prompt holds. *)
Definition call_value (i : nat) (f : fn) (typed : value) (a : answer) (s : page) : page * option value :=
  match invoke f [Event] typed with
  | Plain v => (s, Some v)
  | Calls k args passed_on =>
      let s1 := fold_left (λ s c, command_step c s) (body a) (called i k args s) in
      (s1, match result a with
           | Returns v => Some (if passed_on then v else Undefined)
           | Throws => None
           end)
  end.

(** [processCallback], and whether it did not throw. *)
Definition processCallback (i : nat) (callback typed : value) (a : answer) (s : page) : page * bool :=
  let close := on_dialog i (set_modal (modal_hide supports)) in
  match callback with
  | Fn f =>
      match call_value i f typed a s with
      | (s1, None) => (s1, false)
      | (s1, Some v) => (if strict_equal v (Bool false) then s1 else close s1, true)
      end
  | _ => (close s, true)
  end.

(** ** What the user does *)

Inductive event :=
  | ClickButton (i n : nat) (typed : value) (a : answer)
  | ClickClose (i : nat) (a : answer)
  | Keyup (i which : nat) (a : answer)
  | SubmitForm (i : nat) (typed : value) (a : list answer)
  | ClickBeside (i : nat)
  | TransitionEnd (i : nat) (p : place)
  | Script (c : command).

(** The handlers of the dialog [i], while it has them, and whether none threw. *)
Definition handlers_of (i : nat) (s : page) (f : dialog → page * bool) : page * bool :=
  match dialogs s !! i with
  | Some d => if wired (d_modal d) then f d else (s, true)
  | None => (s, true)
  end.

Definition click_footer (i n : nat) (typed : value) (a : answer) (s : page) : page * bool :=
  handlers_of i s (λ d,
    match footer d !! n with
    | Some (key, _, _) => processCallback i (get key (callbacks d)) typed a s
    | None => (s, true)
    end).

(** The handler of bootbox, and that of bootstrap for [data-dismiss]. *)
Definition click_close (i : nat) (a : answer) (s : page) : page * bool :=
  handlers_of i s (λ d,
    match close_button d with
    | Some _ =>
        let '(s1, ok) := processCallback i (get "onEscape" (callbacks d)) Undefined a s in
        (if ok && isShown (d_modal d) then on_dialog i (set_modal (hide supports)) s1 else s1, ok)
    | None => (s, true)
    end).

Definition keyup (i which : nat) (a : answer) (s : page) : page * bool :=
  handlers_of i s (λ d,
    let '(s1, ok) := if (which =? 27) && truthy (get "onEscape" (callbacks d))
                     then processCallback i (get "onEscape" (callbacks d)) Undefined a s else (s, true) in
    (if ok then on_dialog i (set_modal (keyup_dismiss supports which)) s1 else s1, ok)).

(** [dialog.find(".btn-primary").click()], each click with an answer of its own. *)
Fixpoint click_all (i : nat) (buttons : list nat) (typed : value) (l : list answer) (s : page) : page * bool :=
  match buttons with
  | [] => (s, true)
  | n :: buttons' =>
      match click_footer i n typed (default (Answer [] (Returns Undefined)) (head l)) s with
      | (s1, true) => click_all i buttons' typed (tail l) s1
      | (s1, false) => (s1, false)
      end
  end.
Definition primary (d : dialog) : list nat :=
  omap (λ '(n, (_, className, _)), if has_class "btn-primary" className then Some n else None) (imap pair (footer d)).
Definition submit_form (i : nat) (typed : value) (l : list answer) (s : page) : page * bool :=
  handlers_of i s (λ d, match d_input d with Some _ => click_all i (primary d) typed l s | None => (s, true) end).

Definition page_step (ev : event) (s : page) : page :=
  match ev with
  | ClickButton i n typed a => fst (click_footer i n typed a s)
  | ClickClose i a => fst (click_close i a s)
  | Keyup i which a => fst (keyup i which a s)
  | SubmitForm i typed l => fst (submit_form i typed l s)
  | ClickBeside i => on_dialog i (set_modal click_beside) s
  | TransitionEnd i p => on_dialog i (set_modal (transition_end supports p)) s
  | Script c => command_step c s
  end.

Definition page_run (evs : list event) (s : page) : page := fold_left (λ s ev, page_step ev s) evs s.
End bootbox.
