(* ===== verification/BootboxShape.v ===== *)
(** * bootbox: what a call makes of its arguments

    The options that [alert], [confirm] and [prompt] merge, the dialog that [confirm]
    builds from any arguments, and the errors of the three calls. *)
From stdpp Require Import base strings list sets.
From Stdlib Require Import Ascii ZArith Lia.
From S2P Require Import Prelude JsString ValidatePage ValidateRules ValidateRulesFacts BsModal BsModalFacts Bootbox.

Local Open Scope nat_scope.

(** ** Merging *)

Definition deep_put (t : obj) (kv : string * value) : obj :=
  if is_undefined (snd kv) then t else obj_put (fst kv) (merge (snd kv) (get (fst kv) t)) t.
Definition put_given (t : obj) (kv : string * value) : obj :=
  if is_undefined (snd kv) then t else obj_put (fst kv) (snd kv) t.

Lemma fold_left_eq {A B} (f g : B → A → B) l : (∀ b a, f b a = g b a) → ∀ b, fold_left f l b = fold_left g l b.
Proof. intros H. induction l as [|a l IH]; intros b; simpl; [done|]. by rewrite H. Qed.

Lemma extend_deep_fold t v : extend_deep t v = fold_left deep_put (enumerable v) t.
Proof. apply fold_left_eq. by intros ? []. Qed.
Lemma extend_fold t v : Bootbox.extend t v = fold_left put_given (enumerable v) t.
Proof. apply fold_left_eq. by intros ? []. Qed.

Lemma merge_obj l t : merge (Obj l) (Obj t) = Obj (extend_deep t (Obj l)).
Proof.
  rewrite extend_deep_fold. cbn [merge enumerable]. f_equal.
  revert t. induction l as [|[k v] l IH]; intros t; [done|]. cbn [fold_left]. rewrite <- IH. unfold deep_put. by destruct v.
Qed.

(** What has been merged is of the kind of what was copied. *)
Lemma merge_kind v src :
  truthy (merge v src) = truthy v ∧ is_undefined (merge v src) = is_undefined v ∧ isFunction (merge v src) = isFunction v ∧
  (∀ f, v = Fn f → merge v src = Fn f) ∧ (∀ l, merge v src = Obj l → ∃ l', v = Obj l').
Proof. destruct v; simpl; split_and!; try done; intros; simplify_eq; eauto. Qed.

Lemma get_put o k k' v : get k (obj_put k' v o) = if decide (k = k') then v else get k o.
Proof. unfold get. rewrite obj_get_put. by case_decide. Qed.

Section folds.
Context (f : value → value → value).
#[local] Abbreviation put_by := (λ (t : obj) (kv : string * value),
  if is_undefined (snd kv) then t else obj_put (fst kv) (f (snd kv) (get (fst kv) t)) t).

Lemma get_fold l t k :
  distinct_keys l →
  get k (fold_left put_by l t) =
    match obj_get k l with
    | Some v => if is_undefined v then get k t else f v (get k t)
    | None => get k t
    end.
Proof.
  unfold distinct_keys. revert t. induction l as [|[k' v] l IH]; intros t Hd; [done|].
  apply NoDup_cons in Hd as [Hk Hd]. cbn [fold_left]. rewrite (IH _ Hd). cbn [obj_get fst snd].
  case_bool_decide as Heq.
  - subst k'. rewrite (proj2 (obj_get_None l k)) by done. destruct (is_undefined v); [done|]. by rewrite get_put, decide_True.
  - destruct (is_undefined v); [done|]. by rewrite get_put, decide_False by congruence.
Qed.

Lemma keys_fold l t : ∃ extra, (fold_left put_by l t).*1 = t.*1 ++ extra ∧ ∀ k, k ∈ extra → k ∉ t.*1.
Proof.
  revert t. induction l as [|[k v] l IH]; intros t.
  - exists []. rewrite app_nil_r. split; [done|]. by intros ? ?%elem_of_nil.
  - cbn [fold_left]. destruct (is_undefined _); [apply IH|].
    destruct (IH (obj_put k (f v (get k t)) t)) as (extra & E & H). rewrite obj_put_keys in E, H. cbn [fst snd] in *.
    case_bool_decide as Hk; [by exists extra|]. exists (k :: extra). split; [by rewrite E, <- app_assoc|].
    intros k' [->|Hin]%elem_of_cons; [done|]. intros Hin'. apply (H k' Hin). apply elem_of_app. by left.
Qed.

Lemma distinct_fold l t : distinct_keys t → distinct_keys (fold_left put_by l t).
Proof.
  revert t. induction l as [|[k v] l IH]; intros t Hd; [done|]. cbn [fold_left]. apply IH.
  destruct (is_undefined _); [done|]. by apply distinct_put.
Qed.
End folds.

(** An object has one value for each property. *)
Definition well_formed (v : value) : Prop := distinct_keys (enumerable v).

Lemma get_extend_deep t v k :
  well_formed v →
  get k (extend_deep t v) =
    match obj_get k (enumerable v) with
    | Some x => if is_undefined x then get k t else merge x (get k t)
    | None => get k t
    end.
Proof. intros H. rewrite extend_deep_fold. by apply (get_fold merge). Qed.

Lemma get_extend t l k :
  distinct_keys l → get k (Bootbox.extend t (Obj l)) = if is_undefined (get k l) then get k t else get k l.
Proof.
  intros H. rewrite extend_fold. rewrite (get_fold (λ v _, v)) by done. unfold get. cbn [enumerable].
  by destruct (obj_get k l) as [[]|].
Qed.

(** ** The options of a call *)

Lemma label_text d key : key ∈ ["OK"; "CANCEL"; "CONFIRM"] → ∃ s, _t d key = Str s.
Proof.
  intros H. assert (Hl : ∀ t, ∃ s, locale_label t key = Str s).
  { intros [[a b] c]. unfold locale_label. repeat (apply elem_of_cons in H as [->|H]; [eauto|]). by apply elem_of_nil in H. }
  unfold _t. destruct (get "locale" d); apply Hl.
Qed.

(** The options before the arguments are merged. *)
Lemma base_options d c more :
  ∃ x y, extend_deep [] (Obj (("className", Str c) :: ("buttons", Obj (createLabels d ["cancel"; "confirm"])) :: more)) =
    extend_deep [("className", Str c); ("buttons", Obj [("cancel", Obj [("label", Str x)]); ("confirm", Obj [("label", Str y)])])] (Obj more).
Proof.
  destruct (label_text d "CANCEL") as [x Hx]; [by right; left|]. destruct (label_text d "CONFIRM") as [y Hy]; [by right; right; left|].
  exists x, y. rewrite !extend_deep_fold. cbn [enumerable fold_left]. do 2 f_equal.
  change (createLabels d ["cancel"; "confirm"]) with [("cancel", Obj [("label", _t d "CANCEL")]); ("confirm", Obj [("label", _t d "CONFIRM")])].
  by rewrite Hx, Hy.
Qed.

Lemma validated options labels o :
  validateButtons options labels = inr o →
  o = options ∧ ∀ bl, get "buttons" options = Obj bl → ∀ k, k ∈ bl.*1 → k ∈ labels.
Proof.
  unfold validateButtons. destruct (entries _) as [|l] eqn:El; [done|]. cbn [res_bind].
  destruct (List.find _ l) as [[k v]|] eqn:Ef; [done|]. intros [= ->]. split; [done|].
  intros bl Eb k Hk. rewrite Eb in El. injection El as <-. apply list_elem_of_fmap in Hk as ([k' v] & -> & Hin).
  apply list_elem_of_In in Hin. pose proof (List.find_none _ _ Ef _ Hin) as H. simpl in H.
  apply negb_false_iff, bool_decide_eq_true in H. done.
Qed.

(** The buttons that the page may change but neither add nor move. *)
Lemma merged_buttons v c labels b0 o :
  well_formed v → b0.*1 = labels →
  validateButtons (extend_deep [("className", c); ("buttons", Obj b0)] v) labels = inr o →
  o = extend_deep [("className", c); ("buttons", Obj b0)] v ∧ distinct_keys o ∧
  ∀ bl, get "buttons" o = Obj bl → bl.*1 = labels.
Proof.
  intros Hv Hk [-> Hin]%validated. split; [done|]. split.
  - rewrite extend_deep_fold. apply (distinct_fold merge). unfold distinct_keys. csimpl. apply NoDup_cons.
    split; [by intros ?%list_elem_of_singleton | apply NoDup_singleton].
  - intros bl Eb. specialize (Hin bl Eb). rewrite get_extend_deep in Eb by done. cbn [get obj_get bool_decide] in Eb.
    assert (H : bl.*1 = b0.*1 ∨ ∃ l, bl = extend_deep b0 (Obj l)).
    { change (get "buttons" [("className", c); ("buttons", Obj b0)]) with (Obj b0) in Eb.
      destruct (obj_get "buttons" (enumerable v)) as [x|]; [|injection Eb as <-; by left].
      destruct (is_undefined x); [injection Eb as <-; by left|].
      destruct (merge_kind x (Obj b0)) as (_ & _ & _ & _ & H). destruct (H bl Eb) as [l ->]. rewrite merge_obj in Eb.
      injection Eb as <-. right. by exists l. }
    destruct H as [H|[l ->]]; [by rewrite H|]. rewrite extend_deep_fold in *.
    destruct (keys_fold merge l b0) as (extra & E & Hextra). fold deep_put in E. cbn [enumerable] in *. rewrite E, Hk in *.
    destruct extra as [|k extra]; [by rewrite app_nil_r|]. exfalso. apply (Hextra k); [by left|].
    apply Hin. apply elem_of_app. right. by left.
Qed.

(** ** Callbacks *)

Definition with_callback (f : fn) (b : value) : value :=
  match b with Obj l => Obj (obj_put "callback" (Fn f) l) | _ => b end.

Lemma obj_put_same (o : obj) k v : obj_get k o = Some v → obj_put k v o = o.
Proof.
  induction o as [|[k' v'] o IH]; simpl; [done|]. case_bool_decide as H; [intros [= ->]; by subst|].
  intros Hv. by rewrite IH.
Qed.

Lemma set_callback_spec key f o o' :
  set_callback key f o = inr o' → key ≠ "length" →
  ∃ bl, get "buttons" o = Obj bl ∧ get "buttons" o' = Obj (obj_put key (with_callback f (get key bl)) bl) ∧
    (∀ k, k ≠ "buttons" → get k o' = get k o) ∧ (distinct_keys o → distinct_keys o').
Proof.
  unfold set_callback. intros H Hl. destruct (get "buttons" o) as [| | | |b|z|s|g|bl|l] eqn:Eb; cbn [prop res_bind] in H;
    rewrite ?(bool_decide_eq_false_2 (key = "length")) in H by done; try done.
  exists bl. split; [done|]. cbn [res_bind] in H. cbn [enumerable] in H.
  assert (Hput : ∀ b, obj_get key bl = Some b → obj_put key b bl = bl) by (intros b; apply obj_put_same).
  destruct (get key bl) as [| | | |b|z|s|g|l|l] eqn:Ek; cbn [with_callback] in *; try done;
    unfold get in Ek; destruct (obj_get key bl) as [b'|] eqn:Ek'; simpl in Ek; try done; subst b'; injection H as <-;
    try (by rewrite Eb, (Hput _ eq_refl)).
  rewrite get_put, decide_True by done. split; [done|]. split; [|apply distinct_put].
  intros k Hk. by rewrite get_put, decide_False.
Qed.

(** The function that a button calls once it is sanitized. *)
Definition callback_of (b : value) : value :=
  match b with Fn f => Fn f | Obj l => get "callback" l | _ => Undefined end.

Lemma sanitized total index key b b' :
  sanitize_button total index key b = inr b' → ∃ l, b' = Obj l ∧ get "callback" l = callback_of b.
Proof.
  unfold sanitize_button. intros H.
  assert (Hl : ∀ l0, ∃ l, (let l1 := if truthy (get "label" l0) then l0 else obj_put "label" (Str key) l0 in
      let main := (total <=? 2) && (index =? total - 1) in
      inr (Obj (if truthy (get "className" l1) then l1 else obj_put "className" (Str (if main then "btn-primary" else "btn-default")) l1)) : res value)
      = inr (Obj l) ∧ get "callback" l = get "callback" l0).
  { intros l0. cbv zeta. eexists. split; [reflexivity|]. repeat case_match; rewrite ?get_put; by rewrite ?decide_False by done. }
  destruct b as [| | | | | | |f|l|]; try done.
  - destruct (Hl [("callback", Fn f)]) as (l & E & Hc). cbv zeta in *. rewrite H in E. injection E as ->. by exists l.
  - destruct (Hl l) as (l' & E & Hc). cbv zeta in *. rewrite H in E. injection E as ->. by exists l'.
Qed.

Lemma get_sanitized d l o buttons :
  distinct_keys l → sanitize d (Obj l) = inr (o, buttons) →
  truthy (get "message" l) = true ∧ (∀ k, is_undefined (get k l) = false → get k o = get k l) ∧
  (∀ bl, get "buttons" l = Obj bl → sanitize_buttons (length bl) 0 bl = inr buttons).
Proof.
  intros Hd. unfold sanitize. cbn [typeof_object negb prop res_bind].
  destruct (truthy (get "message" l)) eqn:Em; [|done]. cbn [negb].
  set (o' := Bootbox.extend _ _). assert (Hg : ∀ k, is_undefined (get k l) = false → get k o' = get k l).
  { intros k Hk. unfold o'. by rewrite get_extend, Hk by done. }
  destruct (entries _) as [|bs] eqn:Ee; [done|]. cbn [res_bind]. destruct (sanitize_buttons _ _ _) as [|bs'] eqn:Es; [done|].
  cbn [res_bind]. intros [= <- <-]. split; [done|]. split; [done|]. intros bl Eb.
  rewrite Hg in Ee by by rewrite Eb. rewrite Eb in Ee. injection Ee as <-. done.
Qed.

(** ** The dialog of [confirm] *)

(** The function of a button: the one the page gives as the button itself, which takes
    the place of bootbox's, or bootbox's. *)
Definition button_callback (key : string) (f : fn) (o : obj) : value :=
  match get key (enumerable (get "buttons" o)) with Fn g => Fn g | _ => Fn f end.

Record confirms (o : obj) (f : fn) (d : dialog) : Prop := {
  cf_keys : (λ b : string * value * value, fst (fst b)) <$> footer d = ["cancel"; "confirm"];
  cf_input : d_input d = None;
  cf_escape : get "onEscape" (callbacks d) = Fn (ConfirmWith false f);
  cf_cancel : get "cancel" (callbacks d) = button_callback "cancel" (ConfirmWith false f) o;
  cf_confirm : get "confirm" (callbacks d) = button_callback "confirm" (ConfirmWith true f) o
}.

Definition merged_confirm (defaults : obj) (args : list value) : res obj :=
  mergeDialogOptions defaults "confirm" ["cancel"; "confirm"] "message" "callback" args.

Lemma sanitized_pair n c1 c2 b1 b2 bs :
  sanitize_buttons n 0 [(c1, b1); (c2, b2)] = inr bs →
  ∃ l1 l2, bs = [(c1, Obj l1); (c2, Obj l2)] ∧ get "callback" l1 = callback_of b1 ∧ get "callback" l2 = callback_of b2.
Proof.
  cbn [sanitize_buttons]. destruct (sanitize_button n 0 c1 b1) as [|b1'] eqn:E1; [done|].
  destruct (sanitize_button n 1 c2 b2) as [|b2'] eqn:E2; [done|]. intros [= <-].
  destruct (sanitized _ _ _ _ _ E1) as (l1 & -> & H1). destruct (sanitized _ _ _ _ _ E2) as (l2 & -> & H2). eauto 6.
Qed.

Lemma callback_with f b : callback_of (with_callback f b) = match b with Fn g => Fn g | Obj _ => Fn f | _ => Undefined end.
Proof. destruct b; try done. cbn [with_callback callback_of]. by rewrite get_put, decide_True. Qed.

Lemma sanitized_callback n i k f b b' :
  sanitize_button n i k (with_callback f b) = inr b' → match b with Fn g => Fn g | Obj _ => Fn f | _ => Undefined end = match b with Fn g => Fn g | _ => Fn f end.
Proof. by destruct b. Qed.

Lemma extended_distinct base v : distinct_keys base → distinct_keys (extend_deep base v).
Proof. intros H. rewrite extend_deep_fold. by apply (distinct_fold merge). Qed.

Lemma distinct_pair {A} k1 k2 (x y : A) : k1 ≠ k2 → distinct_keys [(k1, x); (k2, y)].
Proof.
  intros H. apply NoDup_cons. split; [by intros ?%list_elem_of_singleton | apply NoDup_singleton].
Qed.

Lemma merged_confirm_buttons d args o :
  Forall well_formed args → merged_confirm d args = inr o →
  distinct_keys o ∧ ∀ bl, get "buttons" o = Obj bl → ∃ b1 b2, bl = [("cancel", b1); ("confirm", b2)].
Proof.
  intros Hw. unfold merged_confirm, mergeDialogOptions, mergeArguments.
  destruct (mapArguments _ _ _) as [|v] eqn:Em; [done|]. cbn [res_bind]. intros H.
  assert (Hv : well_formed v).
  { destruct args as [|x [|y [|z args]]]; [done| | |by destruct x].
    - apply Forall_cons in Hw as [Hw _]. destruct x; injection Em as <-; try done. by apply distinct_pair.
    - destruct x; injection Em as <-; by apply distinct_pair. }
  destruct (base_options d (String.append "bootbox-" "confirm") []) as (x & y & Eb). cbn [app] in Eb. rewrite Eb in H.
  rewrite (extend_deep_fold _ (Obj [])) in H. cbn [enumerable fold_left] in H.
  destruct (merged_buttons _ _ _ _ _ Hv eq_refl H) as (_ & Hd & Hk). split; [done|]. intros bl Ebl.
  specialize (Hk bl Ebl). destruct bl as [|[k1 b1] [|[k2 b2] [|]]]; csimpl in Hk; simplify_eq. eauto.
Qed.

Lemma get_pair b1 b2 : get "cancel" [("cancel", b1); ("confirm", b2)] = b1 ∧ get "confirm" [("cancel", b1); ("confirm", b2)] = b2.
Proof. by split. Qed.
Lemma put_pair (x b1 b2 : value) :
  obj_put "cancel" x [("cancel", b1); ("confirm", b2)] = [("cancel", x); ("confirm", b2)] ∧
  obj_put "confirm" x [("cancel", b1); ("confirm", b2)] = [("cancel", b1); ("confirm", x)].
Proof. by split. Qed.

Lemma confirm_shape supports d args dl :
  Forall well_formed args → confirm supports d args = inr dl →
  ∃ o f, merged_confirm d args = inr o ∧ get "callback" o = Fn f ∧ truthy (get "message" o) = true ∧ confirms o f dl.
Proof.
  intros Hw. unfold confirm. fold (merged_confirm d args). destruct (merged_confirm d args) as [|o] eqn:Em; [done|].
  destruct (merged_confirm_buttons d args o Hw Em) as [Hd Hb]. cbn [res_bind].
  set (f := fn_of (get "callback" o)).
  destruct (set_callback "cancel" _ o) as [|o1] eqn:E1; [done|]. cbn [res_bind].
  destruct (set_callback_spec _ _ _ _ E1) as (bl & Ebl & Eb1 & Hg1 & Hd1); [done|].
  destruct (Hb bl Ebl) as (b1 & b2 & ->). rewrite (proj1 (get_pair b1 b2)), (proj1 (put_pair _ b1 b2)) in Eb1.
  set (o2 := obj_put "onEscape" _ o1). destruct (set_callback "confirm" _ o2) as [|o3] eqn:E3; [done|]. cbn [res_bind].
  destruct (set_callback_spec _ _ _ _ E3) as (bl2 & Ebl2 & Eb3 & Hg3 & Hd3); [done|].
  assert (Hd3' : distinct_keys o3) by by apply Hd3, distinct_put, Hd1.
  unfold o2 in Ebl2. rewrite get_put, decide_False, Eb1 in Ebl2 by done. injection Ebl2 as <-.
  rewrite (proj2 (get_pair _ b2)), (proj2 (put_pair _ _ b2)) in Eb3. destruct (isFunction (get "callback" o)) eqn:Hf; [|done]. cbn [negb].
  destruct (get "callback" o) as [| | | | | | |f0| |] eqn:Ec; try done. unfold dialog_call.
  destruct (sanitize d (Obj o3)) as [|[o4 bs]] eqn:Es; [done|]. cbn [res_bind fst snd]. intros [= <-].
  destruct (get_sanitized _ _ _ _ Hd3' Es) as (Hm & Hg & Hs). specialize (Hs _ Eb3). cbn [length] in Hs.
  exists o, f0. split; [done|]. split; [done|].
  assert (Hm' : truthy (get "message" o) = true).
  { rewrite Hg3 in Hm by done. unfold o2 in Hm. by rewrite get_put, decide_False, Hg1 in Hm. }
  split; [done|]. pose proof Hs as Hs'. cbn [sanitize_buttons] in Hs'.
  destruct (sanitize_button 2 0 "cancel" _) as [|b1'] eqn:S1; [done|]. cbn [res_bind] in Hs'.
  destruct (sanitize_button 2 1 "confirm" _) as [|b2'] eqn:S2; [done|].
  destruct (sanitized_pair _ _ _ _ _ _ Hs) as (l1 & l2 & -> & C1 & C2). rewrite callback_with in C1, C2.
  apply sanitized_callback in S1. apply sanitized_callback in S2. rewrite S1 in C1. rewrite S2 in C2.
  assert (He : get "onEscape" o4 = Fn (ConfirmWith false f0)).
  { assert (E : get "onEscape" o3 = Fn (ConfirmWith false f0)).
    { rewrite Hg3 by done. unfold o2. by rewrite get_put, decide_True by done. }
    by rewrite Hg, E by by rewrite E. }
  split; [done|done|exact He|unfold button_callback; rewrite Ebl; exact C1|unfold button_callback; rewrite Ebl; exact C2].
Qed.

(** ** The errors of the calls *)

Definition error_of {A} (r : res A) : option error := match r with inl e => Some e | inr _ => None end.

Definition is_object (v : value) : Prop := ∃ l, v = Obj l.

Lemma sanitize_objects n i bl : Forall (λ kv : string * value, is_object (snd kv)) bl → ∃ bs, sanitize_buttons n i bl = inr bs.
Proof.
  intros H. revert i. induction H as [|[k b] bl [l Hl] _ IH]; intros i; [by exists []|]. cbn [snd] in Hl. subst b.
  cbn [sanitize_buttons]. destruct (IH (S i)) as [bs E]. rewrite E. unfold sanitize_button. cbn [res_bind]. eauto.
Qed.

Lemma dialog_error supports d l bl :
  distinct_keys l → get "buttons" l = Obj bl → Forall (λ kv : string * value, is_object (snd kv)) bl →
  error_of (dialog_call supports d (Obj l)) = if truthy (get "message" l) then None else Some (Error "Please specify a message").
Proof.
  intros Hd Eb Hbl. unfold dialog_call, sanitize. cbn [typeof_object negb prop res_bind].
  destruct (truthy (get "message" l)); [|done]. cbn [negb]. rewrite !get_extend by done. rewrite Eb. cbn [is_undefined truthy entries res_bind].
  destruct (sanitize_objects (length bl) 0 bl Hbl) as [bs ->]. done.
Qed.

Lemma set_callback_object key f o bl l :
  get "buttons" o = Obj bl → get key bl = Obj l →
  set_callback key f o = inr (obj_put "buttons" (Obj (obj_put key (Obj (obj_put "callback" (Fn f) l)) bl)) o).
Proof. intros Eb Ek. unfold set_callback. rewrite Eb. cbn [prop res_bind]. by rewrite Ek. Qed.

(** The two arguments in the merged options. *)
Lemma two_args base p1 p2 a b :
  p1 ≠ p2 → get p1 base = Undefined → get p2 base = Undefined →
  let o := extend_deep base (Obj [(p1, a); (p2, b)]) in
  truthy (get p1 o) = truthy a ∧ truthy (get p2 o) = truthy b ∧ isFunction (get p2 o) = isFunction b ∧
  (∀ k, k ≠ p1 → k ≠ p2 → get k o = get k base).
Proof.
  intros Hp H1 H2 o. unfold o.
  assert (Hw : well_formed (Obj [(p1, a); (p2, b)])) by by apply distinct_pair.
  split_and!; rewrite ?get_extend_deep by done; cbn [enumerable obj_get].
  - rewrite bool_decide_eq_true_2, H1 by done. destruct (is_undefined a) eqn:Ha; [by destruct a|]. apply merge_kind.
  - rewrite bool_decide_eq_false_2, bool_decide_eq_true_2, H2 by done. destruct (is_undefined b) eqn:Hb; [by destruct b|]. apply merge_kind.
  - rewrite bool_decide_eq_false_2, bool_decide_eq_true_2, H2 by done. destruct (is_undefined b) eqn:Hb; [by destruct b|]. apply merge_kind.
  - intros k Hk1 Hk2. rewrite get_extend_deep by done. cbn [enumerable obj_get].
    by rewrite !bool_decide_eq_false_2 by congruence.
Qed.

Lemma validate_ok o labels bl :
  get "buttons" o = Obj bl → bl.*1 = labels → validateButtons o labels = inr o.
Proof.
  intros Eb Hk. unfold validateButtons. rewrite Eb. cbn [entries res_bind].
  destruct (List.find _ bl) as [[k v]|] eqn:Ef; [|done]. apply List.find_some in Ef as [Hin Hno].
  exfalso. apply negb_true_iff, bool_decide_eq_false in Hno. apply Hno. rewrite <- Hk.
  apply list_elem_of_fmap. exists (k, v). split; [done|]. by apply list_elem_of_In.
Qed.

Lemma alert_error supports d a b :
  error_of (alert supports d [a; b]) =
    if truthy b && negb (isFunction b) then Some (Error "alert requires callback property to be a function when provided")
    else if truthy a then None else Some (Error "Please specify a message").
Proof.
  assert (Hl : ∃ x, createLabels d ["ok"] = [("ok", Obj [("label", Str x)])]).
  { destruct (label_text d "OK") as [x Hx]; [by left|]. exists x. rewrite <- Hx. done. }
  destruct Hl as [x Hl]. unfold alert, mergeDialogOptions, mergeArguments.
  assert (Em : mapArguments [a; b] "message" "callback" = inr (Obj [("message", a); ("callback", b)])) by by destruct a.
  rewrite Em, Hl. cbn [res_bind]. set (base := extend_deep [] _).
  destruct (two_args base "message" "callback" a b) as (Ha & Hb & Hf & Hg); [done..|]. cbv zeta in *.
  set (o := extend_deep base _) in *.
  assert (Eb : get "buttons" o = Obj [("ok", Obj [("label", Str x)])]) by by rewrite Hg.
  assert (Hd : distinct_keys o) by by apply extended_distinct, extended_distinct, NoDup_nil_2.
  rewrite (validate_ok _ _ _ Eb) by done. cbn [res_bind]. rewrite Hb, Hf. destruct (truthy b && negb (isFunction b)); [done|].
  erewrite set_callback_object by done. cbn [res_bind].
  erewrite dialog_error; [|by repeat apply distinct_put|rewrite !get_put, decide_False, decide_True by done; reflexivity|].
  - by rewrite !get_put, !decide_False, Ha by done.
  - repeat (apply Forall_cons; split; [by eexists|]). apply Forall_nil_2.
Qed.

Lemma two_buttons x y o f1 f2 :
  get "buttons" o = Obj [("cancel", Obj [("label", Str x)]); ("confirm", Obj [("label", Str y)])] → distinct_keys o →
  ∃ o1 o3 bl, set_callback "cancel" f1 o = inr o1 ∧ set_callback "confirm" f2 (obj_put "onEscape" (Fn f1) o1) = inr o3 ∧
    distinct_keys o3 ∧ get "buttons" o3 = Obj bl ∧ Forall (λ kv : string * value, is_object (snd kv)) bl ∧
    ∀ k, k ≠ "buttons" → k ≠ "onEscape" → get k o3 = get k o.
Proof.
  intros Eb Hd. do 3 eexists. erewrite (set_callback_object "cancel") by done. split; [done|].
  erewrite (set_callback_object "confirm"); [|rewrite !get_put, decide_False, decide_True by done; reflexivity|reflexivity].
  split; [done|]. split; [by repeat apply distinct_put|]. split; [by rewrite get_put, decide_True by done|].
  split; [repeat (apply Forall_cons; split; [by eexists|]); apply Forall_nil_2|].
  intros k H1 H2. by rewrite !get_put, !decide_False by done.
Qed.

Lemma confirm_error supports d a b :
  error_of (confirm supports d [a; b]) =
    if negb (isFunction b) then Some (Error "confirm requires a callback")
    else if truthy a then None else Some (Error "Please specify a message").
Proof.
  unfold confirm, mergeDialogOptions, mergeArguments.
  assert (Em : mapArguments [a; b] "message" "callback" = inr (Obj [("message", a); ("callback", b)])) by by destruct a.
  rewrite Em. cbn [res_bind]. destruct (base_options d (String.append "bootbox-" "confirm") []) as (x & y & ->).
  set (base := extend_deep _ (Obj [])).
  destruct (two_args base "message" "callback" a b) as (Ha & Hb & Hf & Hg); [done..|]. cbv zeta in *.
  set (o := extend_deep base _) in *.
  assert (Eb : get "buttons" o = Obj [("cancel", Obj [("label", Str x)]); ("confirm", Obj [("label", Str y)])]) by by rewrite Hg.
  assert (Hd : distinct_keys o) by by apply extended_distinct, extended_distinct, distinct_pair.
  rewrite (validate_ok _ _ _ Eb) by done. cbn [res_bind].
  destruct (two_buttons x y o (ConfirmWith false (fn_of (get "callback" o))) (ConfirmWith true (fn_of (get "callback" o))) Eb Hd)
    as (o1 & o3 & bl & -> & E3 & Hd3 & Eb3 & Hbl & Hg3). cbn [res_bind].
  rewrite E3. cbn [res_bind]. rewrite Hf. destruct (isFunction b); [|done]. cbn [negb].
  erewrite dialog_error by done. by rewrite Hg3, Ha.
Qed.

Lemma prompt_error supports d a b :
  error_of (prompt supports d [a; b]) =
    if negb (truthy a) then Some (Error "prompt requires a title")
    else if negb (isFunction b) then Some (Error "prompt requires a callback") else None.
Proof.
  unfold prompt, mergeArguments.
  assert (Em : mapArguments [a; b] "title" "callback" = inr (Obj [("title", a); ("callback", b)])) by by destruct a.
  rewrite Em. cbn [res_bind].
  destruct (base_options d "bootbox-prompt" [("value", Str ""); ("inputType", Str "text")]) as (x & y & ->).
  set (base := extend_deep [_; _] (Obj [_; _])).
  destruct (two_args base "title" "callback" a b) as (Ha & Hb & Hf & Hg); [done..|]. cbv zeta in *.
  set (o := extend_deep base _) in *.
  assert (Eb : get "buttons" o = Obj [("cancel", Obj [("label", Str x)]); ("confirm", Obj [("label", Str y)])]) by by rewrite Hg.
  assert (Hd : distinct_keys o) by by apply extended_distinct, extended_distinct, distinct_pair.
  rewrite (validate_ok _ _ _ Eb) by done. cbn [res_bind]. set (o0 := obj_put "message" Form o).
  assert (Eb0 : get "buttons" o0 = Obj [("cancel", Obj [("label", Str x)]); ("confirm", Obj [("label", Str y)])]).
  { unfold o0. by rewrite get_put, decide_False. }
  destruct (two_buttons x y o0 (PromptNull (fn_of (get "callback" o))) (PromptValue (fn_of (get "callback" o))) Eb0 (distinct_put _ _ _ Hd))
    as (o1 & o3 & bl & -> & E3 & Hd3 & Eb3 & Hbl & Hg3). cbn [res_bind].
  rewrite E3. cbn [res_bind]. set (o5 := obj_put "show" (Bool false) o3).
  assert (Hg5 : ∀ k, k ≠ "buttons" → k ≠ "onEscape" → k ≠ "show" → k ≠ "message" → get k o5 = get k o).
  { intros k H1 H2 H3 H4. unfold o5. rewrite get_put, decide_False, Hg3 by done. unfold o0. by rewrite get_put, decide_False. }
  rewrite Hg5, Ha, Hf by done. destruct (truthy a); [|done]. destruct (isFunction b); [|done]. cbn [negb].
  assert (Et : get "inputType" o5 = Str "text") by by rewrite Hg5, Hg.
  rewrite Et. unfold make_input. rewrite Et. cbn -[error_of dialog_call get].
  assert (Ed : error_of (dialog_call supports d (Obj o5)) = None).
  { erewrite (dialog_error supports d o5 bl); [| by apply distinct_put | unfold o5; by rewrite get_put, decide_False | done].
    assert (Eq : get "message" o5 = Form).
    { unfold o5. rewrite get_put, decide_False, Hg3 by done. unfold o0. by rewrite get_put, decide_True. }
    by rewrite Eq. }
  by destruct (dialog_call supports d (Obj o5)).
Qed.

(** C39. The calls of a page that pass a message or title and a callback give a dialog or
    the error the code has for them, whatever the values and the defaults: confirm and
    prompt want a function, alert accepts nothing in its place, no message may be empty.
    With no argument or more than two each of them refuses; one text alone is the message
    or title without a callback. *)
Theorem call_errors supports d a b :
  error_of (alert supports d [a; b]) =
    (if truthy b && negb (isFunction b) then Some (Error "alert requires callback property to be a function when provided")
     else if truthy a then None else Some (Error "Please specify a message")) ∧
  error_of (confirm supports d [a; b]) =
    (if negb (isFunction b) then Some (Error "confirm requires a callback")
     else if truthy a then None else Some (Error "Please specify a message")) ∧
  error_of (prompt supports d [a; b]) =
    (if negb (truthy a) then Some (Error "prompt requires a title")
     else if negb (isFunction b) then Some (Error "prompt requires a callback") else None) ∧
  (∀ args, length args = 0 ∨ 2 < length args →
     error_of (alert supports d args) = Some (Error "Invalid argument length") ∧
     error_of (confirm supports d args) = Some (Error "Invalid argument length") ∧
     error_of (prompt supports d args) = Some (Error "Invalid argument length")) ∧
  (∀ m, alert supports d [Str m] = alert supports d [Str m; Undefined] ∧
        confirm supports d [Str m] = confirm supports d [Str m; Undefined] ∧
        prompt supports d [Str m] = prompt supports d [Str m; Undefined]).
Proof.
  split; [apply alert_error|]. split; [apply confirm_error|]. split; [apply prompt_error|]. split; [|done].
  intros [|x [|y [|z args]]] H; simpl in H; try lia; [done|]. by destruct x.
Qed.

(** ** The options of a select *)

Definition complete (option : value) : Prop :=
  ∃ o, option = Obj o ∧ get "value" o ≠ Undefined ∧ get "text" o ≠ Undefined.
Definition choice (o : obj) : value * value := (get "value" o, get "text" o).
Definition group_of (o : obj) : option string :=
  if truthy (get "group" o) then Some (group_key (get "group" o)) else None.

(** [st'] has the options [os] after those of [st]. *)
Record selects (os : list obj) (st st' : list (value * value) * list (string * list (value * value))) : Prop := {
  se_loose : fst st' = fst st ++ (choice <$> filter (λ o, group_of o = None) os);
  se_group g : default [] (obj_get g (snd st')) = default [] (obj_get g (snd st)) ++ (choice <$> filter (λ o, group_of o = Some g) os);
  se_names g : g ∈ (snd st').*1 ↔ g ∈ (snd st).*1 ∨ ∃ o, o ∈ os ∧ group_of o = Some g;
  se_distinct : distinct_keys (snd st) → distinct_keys (snd st')
}.

Lemma is_undefined_spec v : is_undefined v = true ↔ v = Undefined.
Proof. by destruct v. Qed.

Lemma select_option_spec st option :
  match select_option st option with
  | inr st' => ∃ o, option = Obj o ∧ complete option ∧ selects [o] st st'
  | inl _ => ¬ complete option
  end.
Proof.
  assert (Hno : (∀ l, option ≠ Obj l) → ¬ complete option) by (intros H (o & -> & _); by eapply H).
  unfold select_option. destruct option as [| | | | | | | |o|]; cbn [prop res_bind]; try (by apply Hno).
  destruct (is_undefined (get "value" o) || is_undefined (get "text" o)) eqn:Hu; cbn [res_bind].
  { intros (o' & [= <-] & H1 & H2). apply orb_true_iff in Hu as [Hu%is_undefined_spec|Hu%is_undefined_spec]; done. }
  apply orb_false_iff in Hu as [Hv Ht]. destruct st as [loose groups].
  assert (Hc : complete (Obj o)).
  { exists o. split_and!; [done|intros E; by rewrite E in Hv|intros E; by rewrite E in Ht]. }
  destruct (truthy (get "group" o)) eqn:Hg; exists o; (split; [done|]; split; [done|]).
  - assert (Eg : group_of o = Some (group_key (get "group" o))) by by unfold group_of; rewrite Hg.
    set (k := group_key _) in *. split; cbn [fst snd].
    + rewrite filter_cons_False, filter_nil, app_nil_r by congruence. done.
    + intros g. rewrite obj_get_put. case_decide as Hk.
      * subst g. rewrite filter_cons_True by done. done.
      * rewrite filter_cons_False by congruence. by rewrite app_nil_r.
    + intros g. rewrite obj_put_keys. case_bool_decide as Hk.
      * split; [by left|]. intros [H|(o' & ->%list_elem_of_singleton & H)]; [done|]. congruence.
      * rewrite elem_of_app, list_elem_of_singleton. split.
        -- intros [H| ->]; [by left | right; exists o; split; [by left | done]].
        -- intros [H|(o' & ->%list_elem_of_singleton & H)]; [by left | right; congruence].
    + apply distinct_put.
  - assert (Eg : group_of o = None) by by unfold group_of; rewrite Hg. split; cbn [fst snd]; [|intros g|intros g|done].
    + by rewrite filter_cons_True.
    + rewrite filter_cons_False, filter_nil, app_nil_r by congruence. done.
    + split; [by left|]. intros [H|(o' & ->%list_elem_of_singleton & H)]; [done|congruence].
Qed.

Lemma selects_trans os os' st st' st'' : selects os st st' → selects os' st' st'' → selects (os ++ os') st st''.
Proof.
  intros [H1 H2 H3 H4] [G1 G2 G3 G4]. split.
  - by rewrite G1, H1, filter_app, fmap_app, app_assoc.
  - intros g. by rewrite G2, H2, filter_app, fmap_app, app_assoc.
  - intros g. rewrite G3, H3. setoid_rewrite elem_of_app. split; [intros [[?|(o & ? & ?)]|(o & ? & ?)] | intros [?|(o & [?|?] & ?)]]; eauto 6.
  - auto.
Qed.

Lemma select_options_spec l st :
  match select_options l st with
  | inr st' => ∃ os, l = Obj <$> os ∧ Forall complete l ∧ selects os st st'
  | inl _ => ¬ Forall complete l
  end.
Proof.
  revert st. induction l as [|option l IH]; intros st; simpl.
  { exists []. split; [done|]. split; [done|]. split; simpl; intros; rewrite ?app_nil_r; try done.
    split; [by left|]. intros [H|(o & Hin & _)]; [done|]. by apply elem_of_nil in Hin. }
  pose proof (select_option_spec st option) as H. destruct (select_option st option) as [e|st1]; simpl.
  - intros [Hc _]%Forall_cons. done.
  - destruct H as (o & -> & Hc & Hs). specialize (IH st1). destruct (select_options l st1) as [e|st'].
    + intros [_ Hl]%Forall_cons. done.
    + destruct IH as (os & -> & Hl & Hs'). exists (o :: os). split; [done|]. split; [by apply Forall_cons|].
      by apply (selects_trans [o] os st st1).
Qed.

Lemma snd_imap (l : list value) : snd <$> imap (λ n x, (index n, x)) l = l.
Proof.
  rewrite fmap_imap. assert (H : ∀ (f : nat → nat), imap (λ n x, (snd ∘ (λ y : string * value, y)) (index (f n), x)) l = l).
  { induction l as [|x l IH]; intros f; [done|]. simpl. f_equal. apply (IH (f ∘ S)). }
  apply (H id).
Qed.

(** A prompt that selects from a list shows every option of the list once: those
    without a group first, in their order, then one group for each name that occurs, with
    the options of that name in their order; the call throws exactly when an option of the
    list is no object with a value and a text. *)
Theorem select_shows_options options l :
  get "inputType" options = Str "select" → get "inputOptions" options = Arr l → l ≠ [] →
  match make_input options with
  | inl _ => ¬ Forall complete l
  | inr i =>
      ∃ os loose groups, l = Obj <$> os ∧ Forall complete l ∧ i = Select loose groups (get "value" options) ∧
        loose = choice <$> filter (λ o, group_of o = None) os ∧ distinct_keys groups ∧
        ∀ g, default [] (obj_get g groups) = choice <$> filter (λ o, group_of o = Some g) os ∧
             (g ∈ groups.*1 ↔ ∃ o, o ∈ os ∧ group_of o = Some g)
  end.
Proof.
  intros Et El Hl. unfold make_input. rewrite Et, El. rewrite bool_decide_eq_true_2 by done.
  cbn [truthy prop res_bind]. rewrite bool_decide_eq_true_2 by done. destruct l as [|x l]; [done|].
  cbn [res_bind truthy length negb Z.of_nat Z.eqb entries]. rewrite snd_imap.
  pose proof (select_options_spec (x :: l) ([], [])) as H. destruct (select_options (x :: l) ([], [])) as [e|[loose groups]]; [done|].
  destruct H as (os & E & Hc & [H1 H2 H3 H4]). cbn [res_bind fst snd] in *. exists os, loose, groups.
  split; [done|]. split; [done|]. split; [done|]. split; [done|]. split; [apply H4, NoDup_nil_2|].
  intros g. split; [apply H2|]. rewrite H3. split; [|by right]. intros [H|H]; [by apply elem_of_nil in H | done].
Qed.

Lemma call_errors_witness :
  2 < 3 ∧ error_of (confirm true default_options [Null; Null; Null]) = Some (Error "Invalid argument length").
Proof. split; [lia|]. apply (call_errors true default_options Null Null). simpl. lia. Defined.

Definition colours : obj :=
  [("inputType", Str "select"); ("value", Str "2");
   ("inputOptions", Arr [Obj [("value", Str "1"); ("text", Str "red"); ("group", Str "warm")];
                         Obj [("value", Str "2"); ("text", Str "grey")];
                         Obj [("value", Str "3"); ("text", Str "orange"); ("group", Str "warm")]])].
Lemma select_shows_options_witness :
  make_input colours = inr (Select [(Str "2", Str "grey")] [("warm", [(Str "1", Str "red"); (Str "3", Str "orange")])] (Str "2")) ∧
  ∃ loose groups, Select [(Str "2", Str "grey")] [("warm", [(Str "1", Str "red"); (Str "3", Str "orange")])] (Str "2") =
    Select loose groups (Str "2") ∧ distinct_keys groups.
Proof.
  split; [by vm_compute|].
  assert (E : make_input colours = inr (Select [(Str "2", Str "grey")] [("warm", [(Str "1", Str "red"); (Str "3", Str "orange")])] (Str "2"))) by by vm_compute.
  pose proof (select_shows_options colours _ eq_refl eq_refl) as H. rewrite E in H.
  destruct H as (os & loose & groups & _ & _ & H & _ & Hd & _); [done|]. by exists loose, groups.
Defined.
