(* ===== verification/BootboxFacts.v ===== *)
(** * bootbox: histories of a page

    Which functions of the page a dialog calls, whatever else happens on the page, and
    that an answered dialog leaves the page. *)
From stdpp Require Import base strings list sets.
From Stdlib Require Import ZArith Lia.
From S2P Require Import Prelude ValidatePage ValidateRules ValidateRulesFacts BsModal BsModalFacts Bootbox BootboxShape.

Local Open Scope nat_scope.

(** ** What stays of a dialog *)

(** All of a dialog but its modal. *)
Definition look (d : dialog) :=
  (classes d, size_class d, d_message d, d_title d, close_button d, footer d, d_input d, callbacks d).

(** The calls made for the dialog [i], in order. *)
Definition calls_of (i : nat) (l : list entry) : list (nat * list value) :=
  omap (λ x, match x with Called j k args => if decide (j = i) then Some (k, args) else None | Threw _ => None end) l.

(** The dialogs stay on the page, as they were built, and [calls] are made for [i]. *)
Record goes_on (i : nat) (calls : list (nat * list value)) (s s' : page) : Prop := {
  go_dialogs j d : dialogs s !! j = Some d → ∃ d', dialogs s' !! j = Some d' ∧ look d' = look d;
  go_calls : calls_of i (log s') = calls_of i (log s) ++ calls
}.

Section page.
Context (supports : bool) (i : nat).
Implicit Types (s : page) (d : dialog).

Lemma goes_on_refl s : goes_on i [] s s.
Proof. split; [eauto | by rewrite app_nil_r]. Qed.
Lemma goes_on_trans l l' s s' s'' : goes_on i l s s' → goes_on i l' s' s'' → goes_on i (l ++ l') s s''.
Proof.
  intros [H1 H2] [G1 G2]. split; [|by rewrite G2, H2, app_assoc].
  intros j d Hd. destruct (H1 j d Hd) as (d' & Hd' & E). destruct (G1 j d' Hd') as (d'' & Hd'' & E'). exists d''. by rewrite E'.
Qed.
Lemma goes_on_quiet l s s' s'' : goes_on i l s s' → goes_on i [] s' s'' → goes_on i l s s''.
Proof. intros H G. rewrite <- (app_nil_r l). by eapply goes_on_trans. Qed.

Lemma goes_on_dialog j f s : goes_on i [] s (on_dialog j (set_modal f) s).
Proof.
  split; [|by rewrite app_nil_r]. intros j' d Hd. unfold on_dialog. cbn [dialogs].
  rewrite list_lookup_alter. case_decide; [|eauto]. subst j'. rewrite Hd. simpl. eauto.
Qed.

Lemma goes_on_opened r s : goes_on i [] s (opened r s).
Proof.
  destruct r as [e|d]; split; cbn [opened dialogs log]; rewrite ?app_nil_r; eauto.
  - unfold calls_of. rewrite omap_app. by rewrite app_nil_r.
  - intros j d' Hd. exists d'. split; [|done]. by apply lookup_app_l_Some.
Qed.

Lemma goes_on_command c s : goes_on i [] s (command_step supports c s).
Proof.
  destruct c; try apply goes_on_opened; try apply goes_on_dialog; cbn [command_step].
  - split; [eauto | by rewrite app_nil_r].
  - split; [|by rewrite app_nil_r]. intros j d Hd. cbn [dialogs]. rewrite list_lookup_fmap, Hd. eauto.
Qed.

Lemma goes_on_commands l s : goes_on i [] s (fold_left (λ s c, command_step supports c s) l s).
Proof.
  revert s. induction l as [|c l IH]; intros s; [apply goes_on_refl|]. simpl.
  eapply goes_on_quiet; [apply goes_on_command | apply IH].
Qed.

(** The calls of a callback. *)
Definition calls_with (v typed : value) : list (nat * list value) :=
  match v with
  | Fn f => match invoke f [Event] typed with Calls k args _ => [(k, args)] | Plain _ => [] end
  | _ => []
  end.
Definition for_dialog (j : nat) (l : list (nat * list value)) : list (nat * list value) := if decide (j = i) then l else [].

Lemma goes_on_process j v typed a s :
  goes_on i (for_dialog j (calls_with v typed)) s (fst (processCallback supports j v typed a s)).
Proof.
  assert (Hquiet : for_dialog j [] = []) by by unfold for_dialog; case_decide.
  destruct v as [| | | | | | |f| |]; cbn [calls_with processCallback fst]; rewrite ?Hquiet; try apply goes_on_dialog.
  unfold call_value. destruct (invoke f [Event] typed) as [k args p|v].
  - set (s1 := fold_left _ _ _). assert (H : goes_on i (for_dialog j [(k, args)]) s s1).
    { unfold s1. eapply goes_on_quiet; [|apply goes_on_commands]. split; [eauto|].
      unfold called, calls_of. cbn [log]. rewrite omap_app. f_equal. unfold for_dialog. simpl. by case_decide. }
    destruct (result a) as [v|]; [|exact H]. cbn [fst]. destruct (strict_equal _ _); [exact H|].
    eapply goes_on_quiet; [exact H | apply goes_on_dialog].
  - rewrite Hquiet. cbn [fst]. destruct (strict_equal _ _); [apply goes_on_refl | apply goes_on_dialog].
Qed.

(** ** What the user decides in a dialog of [confirm] *)

Inductive verdict := Pressed (b : bool) (typed : value) | Dismissed.

Definition verdict_of d (ev : event) : list verdict :=
  match ev with
  | ClickButton j 0 typed _ => if decide (j = i) then [Pressed false typed] else []
  | ClickButton j 1 typed _ => if decide (j = i) then [Pressed true typed] else []
  | ClickClose j _ => if decide (j = i) then match close_button d with Some _ => [Dismissed] | None => [] end else []
  | Keyup j which _ => if decide (j = i) then if which =? 27 then [Dismissed] else [] else []
  | _ => []
  end.

(** Only a dialog that has its handlers hears the user. *)
Definition verdict_in s (ev : event) : list verdict :=
  match dialogs s !! i with Some d => if wired (d_modal d) then verdict_of d ev else [] | None => [] end.
Fixpoint verdicts (evs : list event) s : list verdict :=
  match evs with [] => [] | ev :: evs' => verdict_in s ev ++ verdicts evs' (page_step supports ev s) end.

(** What a verdict calls; [o] holds the functions that the page gives as buttons. *)
Definition told (o : obj) (f : fn) (v : verdict) : list (nat * list value) :=
  match v with
  | Pressed true typed => calls_with (button_callback "confirm" (ConfirmWith true f) o) typed
  | Pressed false typed => calls_with (button_callback "cancel" (ConfirmWith false f) o) typed
  | Dismissed => calls_with (Fn (ConfirmWith false f)) Undefined
  end.

Lemma told_one o f v : mjoin (told o f <$> [v]) = told o f v.
Proof. csimpl. apply app_nil_r. Qed.
Lemma for_other j l : j ≠ i → for_dialog j l = [].
Proof. intros H. unfold for_dialog. by rewrite decide_False. Qed.
Lemma for_this l : for_dialog i l = l.
Proof. unfold for_dialog. by rewrite decide_True. Qed.

(** The handlers of the dialog [j] that call something, or nothing. *)
Lemma goes_on_handlers j s f l :
  (∀ d, dialogs s !! j = Some d → wired (d_modal d) = true → goes_on i l s (fst (f d))) →
  goes_on i (match dialogs s !! j with Some d => if wired (d_modal d) then l else [] | None => [] end) s (fst (handlers_of j s f)).
Proof.
  intros H. unfold handlers_of. destruct (dialogs s !! j) as [d|]; [|apply goes_on_refl].
  destruct (wired (d_modal d)) eqn:Hw; [by apply H | apply goes_on_refl].
Qed.

Lemma goes_on_nothing j s f :
  (∀ d, dialogs s !! j = Some d → wired (d_modal d) = true → goes_on i [] s (fst (f d))) → goes_on i [] s (fst (handlers_of j s f)).
Proof. intros H. apply goes_on_handlers in H. by repeat case_match. Qed.

Lemma click_other j n typed a s : j ≠ i → goes_on i [] s (fst (click_footer supports j n typed a s)).
Proof.
  intros Hj. apply goes_on_nothing. intros d _ _. destruct (footer d !! n) as [[[key ?] ?]|]; [|apply goes_on_refl].
  rewrite <- (for_other j (calls_with (get key (callbacks d)) typed) Hj). apply goes_on_process.
Qed.

Lemma click_all_other j l typed la s : j ≠ i → goes_on i [] s (fst (click_all supports j l typed la s)).
Proof.
  intros Hj. revert la s. induction l as [|n l IH]; intros la s; simpl; [apply goes_on_refl|].
  pose proof (click_other j n typed (default (Answer [] (Returns Undefined)) (head la)) s Hj) as H.
  destruct (click_footer _ _ _ _ _ _) as [s1 []]; simpl in *; [|done]. eapply goes_on_quiet; [exact H | apply IH].
Qed.

Lemma close_calls j d a s :
  goes_on i (match close_button d with Some _ => for_dialog j (calls_with (get "onEscape" (callbacks d)) Undefined) | None => [] end) s
    (fst (match close_button d with
          | Some _ =>
              let '(s1, ok) := processCallback supports j (get "onEscape" (callbacks d)) Undefined a s in
              (if ok && isShown (d_modal d) then on_dialog j (set_modal (hide supports)) s1 else s1, ok)
          | None => (s, true)
          end)).
Proof.
  destruct (close_button d); [|apply goes_on_refl].
  pose proof (goes_on_process j (get "onEscape" (callbacks d)) Undefined a s) as H.
  destruct (processCallback _ _ _ _ _ _) as [s1 ok]. simpl in *. destruct (ok && _); [|done].
  eapply goes_on_quiet; [exact H | apply goes_on_dialog].
Qed.

Lemma keyup_calls j which d a s :
  goes_on i (if (which =? 27) && truthy (get "onEscape" (callbacks d))
             then for_dialog j (calls_with (get "onEscape" (callbacks d)) Undefined) else []) s
    (fst (let '(s1, ok) := if (which =? 27) && truthy (get "onEscape" (callbacks d))
                           then processCallback supports j (get "onEscape" (callbacks d)) Undefined a s else (s, true) in
          (if ok then on_dialog j (set_modal (keyup_dismiss supports which)) s1 else s1, ok))).
Proof.
  destruct (_ && _); [|simpl; apply goes_on_dialog].
  pose proof (goes_on_process j (get "onEscape" (callbacks d)) Undefined a s) as H.
  destruct (processCallback _ _ _ _ _ _) as [s1 []]; simpl in *; [|done].
  eapply goes_on_quiet; [exact H | apply goes_on_dialog].
Qed.

Lemma goes_on_other ev s :
  match ev with
  | ClickButton j _ _ _ | ClickClose j _ | Keyup j _ _ | SubmitForm j _ _ => j ≠ i
  | _ => True
  end → goes_on i [] s (page_step supports ev s).
Proof.
  destruct ev as [j n typed a|j a|j w a|j typed la|j|j p|c]; intros Hj; cbn [page_step].
  - by apply click_other.
  - apply goes_on_nothing. intros d _ _. pose proof (close_calls j d a s) as H. rewrite for_other in H by done. by destruct (close_button d).
  - apply goes_on_nothing. intros d _ _. pose proof (keyup_calls j w d a s) as H. rewrite for_other in H by done. by destruct (_ && _).
  - apply goes_on_nothing. intros d _ _. destruct (d_input d); [by apply click_all_other | apply goes_on_refl].
  - apply goes_on_dialog.
  - apply goes_on_dialog.
  - apply goes_on_command.
Qed.

Lemma confirm_step o f d ev s :
  dialogs s !! i = Some d → confirms o f d →
  goes_on i (mjoin (told o f <$> verdict_in s ev)) s (page_step supports ev s).
Proof.
  intros Hd [Hk Hi He Hc1 Hc2]. unfold verdict_in. rewrite Hd.
  assert (Hother : ∀ ev', match ev' with ClickButton j _ _ _ | ClickClose j _ | Keyup j _ _ | SubmitForm j _ _ => j ≠ i | _ => True end →
    verdict_of d ev' = [] → goes_on i (mjoin (told o f <$> (if wired (d_modal d) then verdict_of d ev' else []))) s (page_step supports ev' s)).
  { intros ev' Hj E. rewrite E. replace (if wired (d_modal d) then [] else []) with (@nil verdict) by by destruct (wired _).
    by apply goes_on_other. }
  assert (Hquiet : wired (d_modal d) = false → ∀ (g : dialog → page * bool), goes_on i [] s (fst (handlers_of i s g))).
  { intros Hw g. unfold handlers_of. rewrite Hd, Hw. apply goes_on_refl. }
  destruct (footer d) as [|[[k1 x1] y1] [|[[k2 x2] y2] [|]]] eqn:Ef; csimpl in Hk; simplify_eq.
  destruct ev as [j n typed a|j a|j w a|j typed la|j|j p|c]; try (by apply Hother);
    (destruct (decide (j = i)) as [->|Hj]; [|apply Hother; [exact Hj | simpl; rewrite ?decide_False by done; by repeat case_match]]);
    cbn [page_step]; destruct (wired (d_modal d)) eqn:Hw; try (by apply Hquiet).
  - unfold click_footer, handlers_of. rewrite Hd, Hw, Ef.
    destruct n as [|[|n]]; cbn [lookup list_lookup verdict_of]; rewrite ?decide_True by done; [| |apply goes_on_refl].
    + pose proof (goes_on_process i (get "cancel" (callbacks d)) typed a s) as H. rewrite for_this in H. rewrite told_one. simpl. by rewrite <- Hc1.
    + pose proof (goes_on_process i (get "confirm" (callbacks d)) typed a s) as H. rewrite for_this in H. rewrite told_one. simpl. by rewrite <- Hc2.
  - unfold click_close, handlers_of. rewrite Hd, Hw. pose proof (close_calls i d a s) as H. rewrite for_this, He in *.
    cbn [verdict_of]. rewrite decide_True by done. destruct (close_button d); [by rewrite told_one | done].
  - unfold keyup, handlers_of. rewrite Hd, Hw. pose proof (keyup_calls i w d a s) as H. rewrite for_this, He in *.
    cbn [verdict_of truthy]. rewrite decide_True by done. rewrite andb_true_r in *. destruct (w =? 27); [by rewrite told_one | done].
  - unfold submit_form, handlers_of. rewrite Hd, Hw, Hi. apply goes_on_refl.
Qed.

Lemma confirms_look o f d d' : look d' = look d → confirms o f d → confirms o f d'.
Proof. intros [= _ _ _ _ _ Ef Ei Ec] []. split; congruence. Qed.

Lemma confirm_told o f d evs s :
  dialogs s !! i = Some d → confirms o f d →
  goes_on i (mjoin (told o f <$> verdicts evs s)) s (page_run supports evs s).
Proof.
  revert d s. induction evs as [|ev evs IH]; intros d s Hd Hc; [apply goes_on_refl|].
  cbn [verdicts page_run fold_left]. rewrite fmap_app, join_app.
  pose proof (confirm_step o f d ev s Hd Hc) as H. destruct (go_dialogs _ _ _ _ H i d Hd) as (d' & Hd' & El).
  eapply goes_on_trans; [exact H|]. eapply IH; [exact Hd' | by eapply confirms_look].
Qed.
End page.

(** ** The calls of a dialog of [confirm] *)

Section history.
Context (supports : bool).

(** Nothing is called for a dialog that is not there yet. *)
Lemma not_there_step i ev s : dialogs s !! i = None → goes_on i [] s (page_step supports ev s).
Proof.
  intros Hn. assert (H : ∀ f, goes_on i [] s (fst (handlers_of i s f))).
  { intros f. unfold handlers_of. rewrite Hn. apply goes_on_refl. }
  destruct ev as [j n typed a|j a|j w a|j typed la|j|j p|c]; try (by apply goes_on_other);
    (destruct (decide (j = i)) as [->|]; [apply H | by apply goes_on_other]).
Qed.

Lemma dialogs_stay ev s k d :
  dialogs s !! k = Some d → ∃ d', dialogs (page_step supports ev s) !! k = Some d' ∧ look d' = look d.
Proof.
  assert (H : ∃ i, goes_on i [] s (page_step supports ev s)).
  { destruct ev as [j n typed a|j a|j w a|j typed la|j|j p|c]; try (exists (S j); apply goes_on_other; lia || done).
    exists 0. apply goes_on_other. done. }
  destruct H as [i H]. apply (go_dialogs _ _ _ _ H).
Qed.

Lemma not_there_run i evs s :
  dialogs (page_run supports evs s) !! i = None → goes_on i [] s (page_run supports evs s).
Proof.
  revert s. induction evs as [|ev evs IH]; intros s Hn; [apply goes_on_refl|]. specialize (IH _ Hn).
  destruct (dialogs s !! i) as [d|] eqn:Es.
  - destruct (dialogs_stay ev s i d Es) as (d' & Hd' & _). destruct (go_dialogs _ _ _ _ IH i d' Hd') as (d'' & Hd'' & _).
    cbn [page_run fold_left] in Hn. unfold page_run in *. by rewrite Hn in Hd''.
  - eapply goes_on_quiet; [by apply not_there_step | exact IH].
Qed.

(** A call that gives a dialog, and the calls made for that one. *)
Lemma opened_confirm args s :
  let s1 := opened (confirm supports (defaults s) args) s in
  Forall well_formed args → length (dialogs s1) = S (length (dialogs s)) →
  ∃ o f d, merged_confirm (defaults s) args = inr o ∧ get "callback" o = Fn f ∧
    dialogs s1 !! length (dialogs s) = Some d ∧ confirms o f d ∧ log s1 = log s.
Proof.
  intros s1 Hw Hl. unfold s1 in *. destruct (confirm supports (defaults s) args) as [e|d] eqn:Ec; [simpl in Hl; lia|].
  destruct (confirm_shape supports _ _ _ Hw Ec) as (o & f & Em & Ef & _ & Hc). exists o, f, d.
  split_and!; try done. cbn [opened dialogs]. by rewrite lookup_app_r, Nat.sub_diag by lia.
Qed.

Lemma calls_of_confirm evs0 o f d evs s1 :
  let s0 := page_run supports evs0 start_page in let i := length (dialogs s0) in
  dialogs s1 !! i = Some d → confirms o f d → log s1 = log s0 →
  calls_of i (log (page_run supports evs s1)) = mjoin (told o f <$> verdicts supports i evs s1).
Proof.
  intros s0 i Hd Hc El. rewrite (go_calls _ _ _ _ (confirm_told supports i o f d evs s1 Hd Hc)), El.
  assert (H : calls_of i (log s0) = []); [|by rewrite H].
  assert (Hn : dialogs s0 !! i = None) by by apply lookup_ge_None_2.
  apply (go_calls _ _ _ _ (not_there_run i evs0 start_page Hn)).
Qed.

(** C36. A dialog of confirm tells the page what the user decides, whatever else happens on
    the page: for every history of dialogs, clicks, keys, scripts and transitions before
    and after the call, the calls made for the dialog are, in order, its callback with
    true for each click on the button confirm, with false for each click on cancel or on
    the close button and each Escape, that comes while the dialog is there; only a
    function given as a button in the place of its options is called instead. *)
Theorem confirm_decides evs0 args evs :
  let s0 := page_run supports evs0 start_page in
  let i := length (dialogs s0) in
  let s1 := command_step supports (CConfirm args) s0 in
  Forall well_formed args → length (dialogs s1) = S i →
  ∃ o f, merged_confirm (defaults s0) args = inr o ∧ get "callback" o = Fn f ∧
    calls_of i (log (page_run supports evs s1)) = mjoin (told o f <$> verdicts supports i evs s1).
Proof.
  intros s0 i s1 Hw Hl. destruct (opened_confirm args s0 Hw Hl) as (o & f & d & Em & Ef & Hd & Hc & El).
  exists o, f. split; [done|]. split; [done|]. by apply (calls_of_confirm evs0 o f d).
Qed.

(** Without buttons of the page's own the buttons are bootbox's. *)
Lemma plain_confirm d a g :
  ∃ o, merged_confirm d [a; Fn g] = inr o ∧ get "callback" o = Fn g ∧
    ∀ f, button_callback "cancel" f o = Fn f ∧ button_callback "confirm" f o = Fn f.
Proof.
  unfold merged_confirm, mergeDialogOptions, mergeArguments.
  assert (Em : mapArguments [a; Fn g] "message" "callback" = inr (Obj [("message", a); ("callback", Fn g)])) by by destruct a.
  rewrite Em. cbn [res_bind]. destruct (base_options d (String.append "bootbox-" "confirm") []) as (x & y & ->).
  set (base := extend_deep _ (Obj [])). set (o := extend_deep base _). exists o.
  destruct (two_args base "message" "callback" a (Fn g)) as (_ & _ & _ & Hg); [done..|]. fold o in Hg.
  assert (Eb : get "buttons" o = Obj [("cancel", Obj [("label", Str x)]); ("confirm", Obj [("label", Str y)])]) by by rewrite Hg.
  split; [by rewrite (validate_ok _ _ _ Eb)|]. split.
  - unfold o. rewrite get_extend_deep by by apply distinct_pair. done.
  - intros f. unfold button_callback. by rewrite Eb.
Qed.

Definition confirmed (v : verdict) : bool := match v with Pressed true _ => true | _ => false end.

(** C37. showConfirm of the site does what it is for: with a message it opens a dialog, and
    the function it is given is called once for each click on the button confirm of that
    dialog while it is there, without arguments, and never for anything else. *)
Theorem showConfirm_calls_back evs0 m k evs :
  let s0 := page_run supports evs0 start_page in
  let i := length (dialogs s0) in
  let s1 := command_step supports (showConfirm m (Page k)) s0 in
  truthy m = true → well_formed m →
  length (dialogs s1) = S i ∧
  calls_of i (log (page_run supports evs s1)) =
    (λ _, (k, [])) <$> List.filter confirmed (verdicts supports i evs s1).
Proof.
  intros s0 i s1 Hm Hw. unfold s1. cbn [command_step].
  pose proof (confirm_error supports (defaults s0) m (Fn (SiteConfirm (Page k)))) as He. rewrite Hm in He. cbn [isFunction negb] in He.
  destruct (confirm supports (defaults s0) [m; Fn (SiteConfirm (Page k))]) as [e|d] eqn:Ec; [done|]. cbn [opened].
  split; [cbn [dialogs]; rewrite length_app; simpl; lia|].
  assert (Hws : Forall well_formed [m; Fn (SiteConfirm (Page k))]).
  { repeat (apply Forall_cons; split); [done|apply NoDup_nil_2|apply Forall_nil_2]. }
  destruct (confirm_shape supports _ _ _ Hws Ec) as (o & f & Em & Ef & _ & Hc).
  destruct (plain_confirm (defaults s0) m (SiteConfirm (Page k))) as (o' & Em' & Ef' & Hb). rewrite Em in Em'. injection Em' as <-.
  rewrite Ef in Ef'. injection Ef' as ->. rewrite (calls_of_confirm evs0 o (SiteConfirm (Page k)) d); [|by apply list_lookup_middle|done|done].
  assert (Hl : ∀ l, mjoin (told o (SiteConfirm (Page k)) <$> l) = (λ _, (k, [])) <$> List.filter confirmed l); [|apply Hl].
  induction l as [|v l IH]; [done|]. csimpl.
  destruct v as [[] typed|]; cbn [told confirmed List.filter]; rewrite ?(proj1 (Hb _)), ?(proj2 (Hb _)); csimpl; by rewrite IH.
Qed.
End history.

(** ** An answered dialog leaves *)

Section leaving.
Context (supports : bool) (i : nat).
Implicit Types (s : page) (d : dialog).

Definition on_page (n : nat) s : Prop := ∃ d, dialogs s !! i = Some d ∧ at_level supports n (d_modal d).

(** The scripts that an event runs; none of them shows the dialog again. *)
Definition scripts_of (ev : event) : list command :=
  match ev with
  | ClickButton _ _ _ a | ClickClose _ a | Keyup _ _ a => body a
  | SubmitForm _ _ l => mjoin (body <$> l)
  | Script c => [c]
  | _ => []
  end.
Definition not_shown_again (ev : event) : Prop := ShowDialog i ∉ scripts_of ev.

Lemma on_page_dialog n n' j f s :
  (∀ m, at_level supports n m → at_level supports n' (f m)) → (j ≠ i → n' ≤ n) → on_page n s → on_page n' (on_dialog j (set_modal f) s).
Proof.
  intros Hf Hj (d & Hd & Hl). unfold on_page, on_dialog. cbn [dialogs]. rewrite list_lookup_alter. case_decide.
  - subst j. exists (set_modal f d). rewrite Hd. split; [done | exact (Hf _ Hl)].
  - exists d. split; [done|]. eapply level_weaken; [by apply Hj | done].
Qed.
Lemma on_page_same n j f s :
  (∀ m, at_level supports n m → at_level supports n (f m)) → on_page n s → on_page n (on_dialog j (set_modal f) s).
Proof. intros Hf. apply (on_page_dialog n n j f s Hf). lia. Qed.

Lemma on_page_command n c s : c ≠ ShowDialog i → on_page n s → on_page n (command_step supports c s).
Proof.
  intros Hc (d & Hd & Hl).
  assert (Ho : ∀ r, on_page n (opened r s)).
  { intros r. exists d. split; [|done]. destruct r; [done|]. by apply lookup_app_l_Some. }
  destruct c as [args|args|args|o|args| |j|j|m|m g|m g]; try apply Ho; cbn [command_step].
  - by exists d.
  - exists (set_modal (modal_hide supports) d). cbn [dialogs]. rewrite list_lookup_fmap, Hd. split; [done | by apply level_modal_hide].
  - apply on_page_same; [intros m; apply level_modal_hide | by exists d].
  - assert (Hj : j ≠ i) by congruence. exists d. unfold on_dialog. cbn [dialogs]. by rewrite list_lookup_alter, decide_False.
Qed.

Lemma on_page_commands n l s : ShowDialog i ∉ l → on_page n s → on_page n (fold_left (λ s c, command_step supports c s) l s).
Proof.
  revert s. induction l as [|c l IH]; intros s Hl H; [done|]. apply not_elem_of_cons in Hl as [Hc Hl].
  simpl. apply IH; [done|]. by apply on_page_command.
Qed.

Lemma on_page_call n j f typed a s :
  ShowDialog i ∉ body a → on_page n s → on_page n (fst (call_value supports j f typed a s)).
Proof.
  intros Ha H. unfold call_value. destruct (invoke _ _ _); [|done]. cbn [fst].
  apply on_page_commands; [done|]. exact H.
Qed.

Lemma on_page_process n j v typed a s :
  ShowDialog i ∉ body a → on_page n s → on_page n (fst (processCallback supports j v typed a s)).
Proof.
  intros Ha H. unfold processCallback.
  destruct v as [| | | | | | |f| |]; try (by apply on_page_same; [intros m; apply level_modal_hide|]).
  pose proof (on_page_call n j f typed a s Ha H) as Hc. destruct (call_value _ _ _ _ _ _) as [s1 [v|]]; [|done]. cbn [fst] in *.
  destruct (strict_equal _ _); [done|]. by apply on_page_same; [intros m; apply level_modal_hide|].
Qed.

Lemma on_page_handlers n j s f :
  (∀ d, on_page n s → on_page n (fst (f d))) → on_page n s → on_page n (fst (handlers_of j s f)).
Proof. intros Hf H. unfold handlers_of. destruct (_ !! _) as [d|]; [destruct (wired _)|]; by try apply Hf. Qed.

Lemma on_page_click n j k typed a s :
  ShowDialog i ∉ body a → on_page n s → on_page n (fst (click_footer supports j k typed a s)).
Proof.
  intros Ha. apply on_page_handlers. intros d H. destruct (footer d !! k) as [[[key ?] ?]|]; [by apply on_page_process | done].
Qed.

Lemma on_page_clicks n j l typed la s :
  ShowDialog i ∉ mjoin (body <$> la) → on_page n s → on_page n (fst (click_all supports j l typed la s)).
Proof.
  revert la s. induction l as [|k l IH]; intros la s Hla H; [done|]. cbn [click_all].
  set (a := default _ _).
  assert (Ha : (ShowDialog i ∉ body a) ∧ (ShowDialog i ∉ mjoin (body <$> tail la))).
  { unfold a. destruct la as [|a' la]; csimpl in *; [split; apply not_elem_of_nil|]. by apply not_elem_of_app. }
  pose proof (on_page_click n j k typed a s (proj1 Ha) H) as Hc.
  destruct (click_footer _ _ _ _ _ _) as [s1 []]; [|done]. apply IH; [apply Ha | done].
Qed.

Lemma on_page_step n ev s : not_shown_again ev → on_page n s → on_page n (page_step supports ev s).
Proof.
  unfold not_shown_again. destruct ev as [j k typed a|j a|j w a|j typed la|j|j p|c]; cbn [scripts_of page_step]; intros Hn.
  - by apply on_page_click.
  - apply on_page_handlers. intros d H. destruct (close_button d); [|done].
    pose proof (on_page_process n j (get "onEscape" (callbacks d)) Undefined a s Hn H) as Hp.
    destruct (processCallback _ _ _ _ _ _) as [s1 ok]. cbn [fst] in *. destruct (ok && _); [|done].
    apply on_page_same; [intros m; apply level_hide | done].
  - apply on_page_handlers. intros d H. destruct (_ && _).
    + pose proof (on_page_process n j (get "onEscape" (callbacks d)) Undefined a s Hn H) as Hp.
      destruct (processCallback _ _ _ _ _ _) as [s1 []]; [|done]. by apply on_page_same; [intros m; apply level_keyup|].
    + by apply on_page_same; [intros m; apply level_keyup|].
  - apply on_page_handlers. intros d H. destruct (d_input d); [by apply on_page_clicks | done].
  - by apply on_page_same.
  - apply on_page_same. intros m. apply level_end.
  - apply on_page_command. intros ->. apply Hn. by left.
Qed.

Lemma on_page_run n evs s : Forall not_shown_again evs → on_page n s → on_page n (page_run supports evs s).
Proof.
  revert s. induction evs as [|ev evs IH]; intros s Hn H; [done|]. apply Forall_cons in Hn as [Hev Hn].
  apply IH; [done|]. by apply on_page_step.
Qed.

(** The callback is called, if there is one, and does not keep the dialog. *)
Definition accepts (v typed : value) (a : answer) : Prop :=
  match v with
  | Fn f =>
      match invoke f [Event] typed with
      | Plain w => w ≠ Bool false
      | Calls _ _ passed_on => ∃ w, result a = Returns w ∧ (passed_on = true → w ≠ Bool false)
      end
  | _ => True
  end.

Lemma strict_false v : v ≠ Bool false → strict_equal v (Bool false) = false.
Proof. by destruct v as [| | | |[]| | | | |]. Qed.

Lemma process_leaves v typed a s :
  ShowDialog i ∉ body a → accepts v typed a → on_page 1 s → on_page 2 (fst (processCallback supports i v typed a s)).
Proof.
  intros Ha Hv H.
  assert (Hclose : ∀ s0, on_page 1 s0 → on_page 2 (on_dialog i (set_modal (modal_hide supports)) s0)).
  { intros s0. apply on_page_dialog; [intros m; apply modal_hide_leaves | done]. }
  destruct v as [| | | | | | |f| |]; try (by apply Hclose). unfold processCallback. cbn [accepts] in Hv.
  pose proof (on_page_call 1 i f typed a s Ha H) as Hc. unfold call_value in *. destruct (invoke f [Event] typed) as [k args p|w].
  - destruct Hv as (w & -> & Hw). cbn [fst] in *. rewrite strict_false; [by apply Hclose|]. destruct p; [by apply Hw | done].
  - cbn [fst] in *. rewrite strict_false by done. by apply Hclose.
Qed.

(** An answer of the user to the dialog: a click on a button or Escape, when the callback
    does not keep the dialog; a click on the close button, when it does not throw. *)
Inductive answers d : event → Prop :=
  | by_button n key x y typed a :
      footer d !! n = Some (key, x, y) → accepts (get key (callbacks d)) typed a → answers d (ClickButton i n typed a)
  | by_escape a :
      truthy (get "onEscape" (callbacks d)) = true → accepts (get "onEscape" (callbacks d)) Undefined a → answers d (Keyup i 27 a)
  | by_close a v :
      close_button d ≠ None → result a = Returns v → answers d (ClickClose i a).

Lemma on_page_unwired n d s : dialogs s !! i = Some d → wired (d_modal d) = false → on_page n s → on_page 4 s.
Proof.
  intros Hd Hw (d' & Hd' & st & Hst & Hl). rewrite Hd in Hd'. injection Hd' as <-. exists d. split; [done|].
  exists st. split; [done|]. by rewrite (level_unwired supports st _ Hst Hw).
Qed.

Lemma on_page_weaken n n' s : n' ≤ n → on_page n s → on_page n' s.
Proof. intros Hn (d & Hd & H). exists d. split; [done | by eapply level_weaken]. Qed.

(** The handlers of the dialog, or it has gone. *)
Lemma handlers_leave d s f :
  dialogs s !! i = Some d → on_page 1 s → (wired (d_modal d) = true → on_page 2 (fst (f d))) → on_page 2 (fst (handlers_of i s f)).
Proof.
  intros Hd H Hf. unfold handlers_of. rewrite Hd. destruct (wired (d_modal d)) eqn:Hw; [by apply Hf|].
  eapply (on_page_weaken 4); [lia | by eapply on_page_unwired].
Qed.

Lemma close_leaves d v a s :
  dialogs s !! i = Some d → on_page 1 s → ShowDialog i ∉ body a → close_button d ≠ None → result a = Returns v →
  on_page 2 (fst (click_close supports i a s)).
Proof.
  intros Hd H Ha Hc Hr. apply (handlers_leave d _ _ Hd H). intros _. destruct (close_button d); [|done].
  set (cb := get "onEscape" (callbacks d)). pose proof (on_page_process 1 i cb Undefined a s Ha H) as H1.
  pose proof (λ Hl, on_page_process 2 i cb Undefined a s Ha Hl) as H2.
  assert (Hok : snd (processCallback supports i cb Undefined a s) = true).
  { unfold processCallback, call_value. destruct cb as [| | | | | | |f| |]; try done. rewrite Hr. by destruct (invoke _ _ _). }
  destruct (processCallback _ _ _ _ _ _) as [s1 ok]. cbn [fst snd] in *. subst ok. cbn [andb].
  destruct (isShown (d_modal d)) eqn:Hs.
  - revert H1. apply on_page_dialog; [intros m; apply hide_leaves | done].
  - apply H2. destruct H as (d' & Hd' & Hl). rewrite Hd in Hd'. injection Hd' as <-. exists d.
    split; [done | by apply level_not_shown].
Qed.

Lemma answer_leaves d ev s :
  dialogs s !! i = Some d → answers d ev → not_shown_again ev → on_page 1 s → on_page 2 (page_step supports ev s).
Proof.
  unfold not_shown_again. intros Hd [n key x y typed a Hf Ha|a Ht Ha|a v Hc Hr] Hn H; cbn [page_step scripts_of] in *.
  - apply (handlers_leave d _ _ Hd H). intros _. rewrite Hf. by apply process_leaves.
  - apply (handlers_leave d _ _ Hd H). intros _. rewrite Ht. cbn [Nat.eqb andb].
    pose proof (process_leaves (get "onEscape" (callbacks d)) Undefined a s Hn Ha H) as Hp.
    destruct (processCallback _ _ _ _ _ _) as [s1 []]; [|done]. by apply on_page_same; [intros m; apply level_keyup|].
  - by eapply close_leaves.
Qed.

Lemma answers_look d d' ev : look d' = look d → answers d ev → answers d' ev.
Proof. intros [= _ _ _ _ Ec Ef _ Eb] []; [eapply by_button|eapply by_escape|eapply by_close]; by rewrite ?Ec, ?Ef, ?Eb. Qed.
End leaving.

(** A dialog that a call opens has not been shown, or is shown. *)
Lemma build_fresh supports o buttons : fresh supports (d_modal (build supports o buttons)).
Proof.
  unfold build. cbn [d_modal]. set (m := new_modal _ _). assert (H : fresh supports m) by (left; apply new_in_stage).
  destruct (truthy (get "show" o)); [by apply fresh_show | done].
Qed.
Lemma dialog_fresh supports defaults options d : dialog_call supports defaults options = inr d → fresh supports (d_modal d).
Proof.
  unfold dialog_call. destruct (sanitize _ _); [done|]. intros [= <-]. apply build_fresh.
Qed.

Ltac bind_step := match goal with |- context [res_bind ?x] => destruct x eqn:?; cbn [res_bind]; [done|] end.

Lemma alert_fresh supports defaults args d : alert supports defaults args = inr d → fresh supports (d_modal d).
Proof. unfold alert. bind_step. case_match; [done|]. bind_step. apply dialog_fresh. Qed.
Lemma confirm_fresh supports defaults args d : confirm supports defaults args = inr d → fresh supports (d_modal d).
Proof. unfold confirm. bind_step. bind_step. bind_step. case_match; [done|]. apply dialog_fresh. Qed.
Lemma prompt_fresh supports defaults args d : prompt supports defaults args = inr d → fresh supports (d_modal d).
Proof.
  unfold prompt. do 4 bind_step. repeat (case_match; [done|]). bind_step.
  match goal with |- context [dialog_call supports defaults ?o] => destruct (dialog_call supports defaults o) as [|d0] eqn:Ed end; [done|].
  cbn [res_bind]. intros [= <-]. apply dialog_fresh in Ed. destruct (match get "show" _ with Undefined => _ | _ => _ end); [|done].
  by apply fresh_show.
Qed.

Lemma command_fresh supports c s d :
  dialogs (command_step supports c s) !! length (dialogs s) = Some d → fresh supports (d_modal d).
Proof.
  assert (Ho : ∀ r, (∀ d0, r = inr d0 → fresh supports (d_modal d0)) → dialogs (opened r s) !! length (dialogs s) = Some d → fresh supports (d_modal d)).
  { intros [e|d0] Hr; cbn [opened dialogs]; [by rewrite lookup_ge_None_2|].
    rewrite list_lookup_middle by done. intros [= <-]. by apply Hr. }
  assert (Hnone : dialogs s !! length (dialogs s) = None) by by apply lookup_ge_None_2.
  destruct c; cbn [command_step]; try (apply Ho; intros ?; by first [apply alert_fresh|apply confirm_fresh|apply prompt_fresh|apply dialog_fresh]).
  - cbn [dialogs]. by rewrite Hnone.
  - cbn [dialogs]. by rewrite list_lookup_fmap, Hnone.
  - unfold on_dialog. cbn [dialogs]. rewrite list_lookup_alter. case_decide; [subst; by rewrite Hnone | by rewrite Hnone].
  - unfold on_dialog. cbn [dialogs]. rewrite list_lookup_alter. case_decide; [subst; by rewrite Hnone | by rewrite Hnone].
Qed.

Lemma page_run_app supports l l' s : page_run supports (l ++ l') s = page_run supports l' (page_run supports l s).
Proof. apply fold_left_app. Qed.
Lemma dialogs_run supports evs s k d :
  dialogs s !! k = Some d → ∃ d', dialogs (page_run supports evs s) !! k = Some d' ∧ look d' = look d.
Proof.
  revert s d. induction evs as [|ev evs IH]; intros s d Hd; [by exists d|].
  destruct (dialogs_stay supports ev s k d Hd) as (d1 & Hd1 & E). destruct (IH _ _ Hd1) as (d2 & Hd2 & E2).
  exists d2. split; [exact Hd2 | congruence].
Qed.
Lemma Forall_cons_app {A} (P : A → Prop) x l1 l2 l3 :
  Forall P ([x] ++ l1 ++ l2 ++ l3) → P x ∧ Forall P l1 ∧ Forall P l2 ∧ Forall P l3.
Proof. rewrite !Forall_app, Forall_singleton. tauto. Qed.

(** C38. A dialog that was opened shown and that no script shows again leaves the page
    once it has been answered, by a button or Escape whose callback neither returns false
    nor throws, or by the close button when its callback does not throw: it goes when the
    transition of its element and then that of its backdrop have ended (at once if
    transitions are not shown), however clicks, other scripts and the ends of other
    transitions come in between; then it is not in the document, has no handlers and has
    left no backdrop. A click on the close button closes it even when the callback returns
    false. *)
Theorem answered_dialog_goes supports evs0 c d evs ev e1 e2 e3 :
  let s0 := page_run supports evs0 start_page in
  let i := length (dialogs s0) in
  let s1 := command_step supports c s0 in
  dialogs s1 !! i = Some d → isShown (d_modal d) = true → answers i d ev →
  Forall (not_shown_again i) (evs ++ [ev] ++ e1 ++ e2 ++ e3) →
  (∃ d', dialogs (page_run supports (evs ++ [ev] ++ e1 ++ [TransitionEnd i Element] ++ e2 ++ [TransitionEnd i (Backdrop 0)] ++ e3) s1) !! i = Some d' ∧
     gone (d_modal d')) ∧
  (supports = false → ∃ d', dialogs (page_run supports (evs ++ [ev] ++ e1) s1) !! i = Some d' ∧ gone (d_modal d')).
Proof.
  intros s0 i s1 Hd Hs Ha (He & (Hev & H1 & H2 & H3)%Forall_cons_app)%Forall_app.
  assert (L1 : on_page supports i 1 (page_run supports evs s1)).
  { apply on_page_run; [done|]. exists d. split; [done|].
    destruct (command_fresh supports c s0 d Hd) as [Hn|[_ Hl]]; [|done]. by rewrite (stage_shown _ _ _ Hn) in Hs. }
  destruct (dialogs_run supports evs s1 i d Hd) as (d1 & Hd1 & El).
  pose proof (answer_leaves supports i d1 ev _ Hd1 (answers_look i d d1 ev El Ha) Hev L1) as L2.
  pose proof (on_page_run supports i 2 e1 _ H1 L2) as L3. split.
  - rewrite !page_run_app.
    assert (L4 : on_page supports i 3 (page_step supports (TransitionEnd i Element) (page_run supports e1 (page_step supports ev (page_run supports evs s1))))).
    { revert L3. apply on_page_dialog; [intros m; apply element_end_fades | done]. }
    pose proof (on_page_run supports i 3 e2 _ H2 L4) as L5.
    assert (L6 : on_page supports i 4 (page_step supports (TransitionEnd i (Backdrop 0)) (page_run supports e2 (page_step supports (TransitionEnd i Element) (page_run supports e1 (page_step supports ev (page_run supports evs s1))))))).
    { revert L5. apply on_page_dialog; [intros m; apply backdrop_end_removes | done]. }
    destruct (on_page_run supports i 4 e3 _ H3 L6) as (d' & Hd' & Hl). exists d'. split; [exact Hd' | by eapply level_gone].
  - intros Hsup. rewrite !page_run_app. destruct L3 as (d' & Hd' & Hl). exists d'. split; [exact Hd'|].
    eapply level_gone, level_at_once; [|exact Hl]. unfold animated. by rewrite Hsup.
Qed.

(** ** A page that asks before it deletes *)

Definition done_with (v : value) : answer := Answer [] (Returns v).
(** An alert is open; the user clicks on confirm, and once more while the dialog fades. *)
Definition delete_events : list event :=
  [TransitionEnd 1 (Backdrop 0); TransitionEnd 1 Inner; ClickBeside 1; ClickButton 1 1 Undefined (done_with Undefined);
   ClickButton 1 1 Undefined (done_with Undefined); ClickButton 0 0 Undefined (done_with Undefined);
   TransitionEnd 1 Element; TransitionEnd 1 (Backdrop 0); ClickButton 1 0 Undefined (done_with Undefined)].
#[local] Abbreviation before := (page_run true [Script (msg (Str "Saved"))] start_page).

Lemma confirm_decides_witness :
  Forall well_formed [Str "Delete?"; Fn (Page 3)] ∧
  ∃ o f, merged_confirm (defaults before) [Str "Delete?"; Fn (Page 3)] = inr o ∧ get "callback" o = Fn f ∧
    [(3, [Bool true]); (3, [Bool true])] =
      mjoin (told o f <$> [Pressed true Undefined; Pressed true Undefined]).
Proof.
  assert (Hw : Forall well_formed [Str "Delete?"; Fn (Page 3)]).
  { repeat (apply Forall_cons; split); apply NoDup_nil_2 || apply Forall_nil_2. }
  split; [exact Hw|].
  pose proof (confirm_decides true [Script (msg (Str "Saved"))] [Str "Delete?"; Fn (Page 3)] delete_events Hw eq_refl) as H.
  cbv zeta in H. destruct H as (o & f & Em & Ef & H). exists o, f. split; [exact Em|]. split; [exact Ef|].
  assert (E1 : calls_of (length (dialogs before)) (log (page_run true delete_events
      (command_step true (CConfirm [Str "Delete?"; Fn (Page 3)]) before))) = [(3, [Bool true]); (3, [Bool true])]) by by vm_compute.
  assert (E2 : verdicts true (length (dialogs before)) delete_events
      (command_step true (CConfirm [Str "Delete?"; Fn (Page 3)]) before) = [Pressed true Undefined; Pressed true Undefined]) by by vm_compute.
  rewrite E1, E2 in H. exact H.
Defined.

Lemma showConfirm_calls_back_witness :
  truthy (Str "Delete?") = true ∧
  calls_of 1 (log (page_run true delete_events (command_step true (showConfirm (Str "Delete?") (Page 3)) before))) =
    [(3, []); (3, [])].
Proof.
  split; [done|].
  pose proof (showConfirm_calls_back true [Script (msg (Str "Saved"))] (Str "Delete?") 3 delete_events eq_refl (NoDup_nil_2 (A := string))) as H.
  cbv zeta in H. destruct H as [_ H].
  assert (E : verdicts true (length (dialogs before)) delete_events
      (command_step true (showConfirm (Str "Delete?") (Page 3)) before) = [Pressed true Undefined; Pressed true Undefined]) by by vm_compute.
  rewrite E in H. exact H.
Defined.

(** The callback returns false; the close button closes the dialog all the same. *)
Lemma answered_dialog_goes_witness :
  ∃ d, dialogs (command_step true (CConfirm [Str "Delete?"; Fn (Page 3)]) before) !! 1 = Some d ∧
    answers 1 d (ClickClose 1 (done_with (Bool false))) ∧
    ∃ d', dialogs (page_run true ([TransitionEnd 1 (Backdrop 0)] ++ [ClickClose 1 (done_with (Bool false))] ++ [Script HideAll] ++
        [TransitionEnd 1 Element] ++ [TransitionEnd 1 Inner] ++ [TransitionEnd 1 (Backdrop 0)] ++ [])
        (command_step true (CConfirm [Str "Delete?"; Fn (Page 3)]) before)) !! 1 = Some d' ∧ gone (d_modal d').
Proof.
  destruct (dialogs (command_step true (CConfirm [Str "Delete?"; Fn (Page 3)]) before) !! 1) as [d|] eqn:Ed; [|by vm_compute in Ed].
  assert (Hs : isShown (d_modal d) = true) by (vm_compute in Ed; by injection Ed as <-).
  assert (Hc : close_button d ≠ None) by (vm_compute in Ed; by injection Ed as <-).
  assert (Ha : answers 1 d (ClickClose 1 (done_with (Bool false)))) by by eapply by_close.
  exists d. split; [done|]. split; [done|].
  apply (answered_dialog_goes true [Script (msg (Str "Saved"))] (CConfirm [Str "Delete?"; Fn (Page 3)]) d
    [TransitionEnd 1 (Backdrop 0)] (ClickClose 1 (done_with (Bool false))) [Script HideAll] [TransitionEnd 1 Inner] [] Ed Hs Ha).
  repeat (apply Forall_cons; split); try apply Forall_nil_2; apply not_elem_of_nil || (by intros ?%list_elem_of_singleton).
Defined.
